(* ===== verification/_CoqProject ===== *)
-Q . S2P
Prelude.v
JsString.v
JsonText.v
JsNumber.v
JsObject.v
Utf8.v
CborValue.v
CborEncoder.v
CborDecoder.v
CborSpec.v
Framing.v
Json.v
Codec.v
Truncate.v
Permission.v
Circuit.v
EditText.v
EditCorrect.v
EditDisplay.v
JsMap.v
DurableStore.v
Ledger.v
BatchPlan.v
BatchCodec.v
Coordinator.v
BatchInvariant.v
CoordinatorCorrect.v
CoordinatorHistory.v
Messages.v
Compaction.v
CompactionCorrect.v
Summary.v
JsonRead.v
SummaryCorrect.v
BranchSummary.v
SessionStore.v
SessionFork.v
DeltaOps.v
DeltaTree.v
DeltaCodec.v
DeltaSame.v
DeltaDiff.v
DeltaDiffCorrect.v
DeltaHeap.v
DeltaReplica.v
ToolCallId.v
ReplayMessages.v
ReplayCorrect.v
ReplayRuns.v
Transcript.v
AgentLoop.v
AgentLoopCorrect.v
AgentLoopTraces.v
PreparedHost.v
AgentLoopRuns.v
Transport.v
TransportLemmas.v
TransportCorrect.v
TransportRuns.v
Wake.v
WakeCorrect.v
RemoteEpoch.v
RemoteHand.v
RemoteLink.v
RemoteSystem.v
RemoteCorrect.v
RemoteRuns.v
