(* ===== verification/Prelude.v ===== *)
(** * senpi: a verification of the core of a coding agent

senpi is an agent that edits code: a model provider is asked for turns, the
tools a turn calls are run (in this process or on another device), what happened
is kept durably, and clients follow the session as replicated state.  This
library models the logic of its TypeScript packages (agent, chord, protocol,
ai and parts of coding-agent) that decides, records and transfers, as
executable definitions that follow the source function by function and keep its
names, and proves what each part promises to the others.

** How the program is put together

A run of the agent loop ([AgentLoop]) asks the provider, whose adapter first rewrites
the history for its model ([ReplayMessages]), declares changed tools in the transcript
([Transcript]) and hands the calls of a finished response to a tool
host ([PreparedHost]).  The host runs a message's calls as one batch: the
coordinator ([Coordinator]) plans it ([BatchPlan]), asks for consent, and releases
calls to executors, writing a record ([BatchCodec]) before every message; an
executor keeps one row per execution ([Ledger]).  Record and rows live in a durable
store ([DurableStore]).  Calls that run on another device go over a link
([RemoteLink]) to a hand ([RemoteHand], [RemoteSystem]) that fences off the calls of
a scope's former owners ([RemoteEpoch]), and travel over a transport with
windows and acknowledgements ([Transport]); what wakes a sleeping scope travels
through an outbox and an inbox ([Wake]).  What a tool may touch is decided by the
permission rules ([Permission]); its output is truncated ([Truncate]); files are
changed by the edit tool ([EditText], [EditDisplay]).  The conversation is a tree of
entries in a session storage ([SessionStore]) that can be forked ([SessionFork]); a
path of it becomes the model's context ([Messages]), is compacted when it grows too
long ([Compaction]) and summarised ([Summary], [BranchSummary]).  Errors of a
provider open the shared circuit breaker ([Circuit]).  State is replicated to
clients as deltas between revisions ([DeltaDiff], [DeltaCodec], [DeltaHeap]) of
strict-JSON values ([Json]), and messages go over the wire as validated ([Codec]),
framed ([Framing]) CBOR ([CborEncoder], [CborDecoder]).

** Files, what they model, and what their theorems show

- Foundations.  [Prelude]: strings as UTF-16 code units, [result] for code that
  throws, list lemmas, tactics, the hint database.  [JsString],
  [JsonText], [JsonRead], [JsNumber] (binary64), [JsObject] (ordered properties),
  [JsMap], [Utf8]: what the program uses of the language.
- Wire (packages/protocol/src).  [CborValue], [CborEncoder], [CborDecoder]:
  cbor/options.ts, encoder.ts, decoder.ts, the encoder over a heap of values,
  against the format [enc]; [CborSpec]: the encoder refines the format, decoding
  inverts it, limits hold, cycles are errors.  [Framing]: framing.ts, the
  incremental decoder refines splitting the whole byte sequence, however it is
  chunked.  [Json]: chord/src/json.ts.  [Codec]: codec.ts.
- Tools.  [Truncate]: harness/utils/truncate.ts, byte limits against the UTF-8
  length.  [Permission]: the permission-system extension; the wildcard matcher
  is equivalent to a declarative match, and a user's deny wins.  [EditText],
  [EditCorrect]: harness/tools/edit-diff.ts and edit.ts, exact edits are a
  simultaneous replacement, fuzzy edits leave untouched lines alone.
  [EditDisplay]: the numbered diff.
- Retry.  [Circuit]: retry-fallback/circuit.ts and circuit-probes.ts, at most one
  probe at a time over all traces of calls.
- Execution (packages/agent/src/durable, execution).  [DurableStore]: store.ts,
  store-memory.ts, a commit is atomic under a kill at any write point; the class
  [DurableStore] is the interface its clients are proved against, the memory
  backend an instance.  [Ledger]: ledger*.ts, an execution is started at most
  once and a recorded outcome is what was reported, over all histories with
  crashes.  [BatchPlan], [BatchCodec]: coordinator-plan.ts, canonical-digest.ts,
  coordinator-codec.ts.  [Coordinator]: coordinator.ts, coordinator-consent.ts,
  coordinator-sequential.ts as a program in a monad whose process may die at any
  moment; [BatchInvariant], [CoordinatorCorrect], [CoordinatorHistory]: the
  invariant of a record, a program logic, and the theorems on any number of runs
  of any number of batches: release in order of dependencies, consent before
  effects, and that a run ends.
- Conversation (packages/agent/src/harness).  [SessionStore], [SessionFork]:
  session/*.ts and jsonl, commits and queries against the list of entries, both
  kinds of fork agree and a fork contains nothing of another branch.  [Messages],
  [Compaction], [Summary], [BranchSummary]: messages.ts, session/context.ts and
  compaction/*.ts; [CompactionCorrect], [SummaryCorrect]: a compaction replaces
  exactly a prefix, tool results keep their calls, the cut keeps what the budget
  asks for, the requests made are those of the plan.
- Replicated state (packages/chord/src/delta).  [DeltaOps]: operations and
  validators; [DeltaTree]: their meaning on trees; [DeltaCodec]: encoder and
  decoder with path interning, a round trip; [DeltaSame]: equality of documents as
  JSON; [DeltaDiff], [DeltaDiffCorrect]: diff.ts, applying the diff of two
  revisions to the first gives the second; [DeltaHeap]: apply and
  applyImmutable on a heap with aliasing, they implement the tree semantics;
  [DeltaReplica]: all of it composed, replicas follow their source.
- Agent loop (packages/agent/src/agent-loop.ts).  [Transcript]: the transcript
  declares the provider's tools.  [AgentLoop], [PreparedHost]; [AgentLoopCorrect],
  [AgentLoopTraces], [AgentLoopRuns]: events nest, queued messages reach the context
  or go back, every call is answered, calls of an unfinished response are not run,
  and a run ends.
- Providers (packages/ai/src).  [ReplayMessages]: api/transform-messages.ts, what a
  history becomes for another model; [ReplayCorrect], [ReplayRuns]: every call of
  every turn sent is followed by its result, nothing is lost or repeated.
  [ToolCallId]: utils/tool-call-id.ts.
- Transport (packages/agent/src/transport, execution/wake-*.ts).  [Transport];
  [TransportLemmas], [TransportCorrect], [TransportRuns]: over a carrier that
  loses, repeats and reorders, frames are delivered once and in order, the window
  is respected, and what was sent can still be delivered.  [Wake], [WakeCorrect]:
  wakes are committed once and none is lost.
- Remote calls (packages/agent/src/execution/remote-*.ts).  [RemoteEpoch]: the
  floors of a hand and the gate of a session; [RemoteHand], [RemoteLink]: the walk
  of a call through the hand's ledger, the session's end; [RemoteSystem]: a hand
  process that dies and starts again, its links and what is between them, as a step
  relation; [RemoteCorrect], [RemoteRuns]: a call runs at most once, and grants
  follow the order of the owners' epochs.

** How state and operations are represented

An object of the source is a record, a union of object types an inductive type, a
thrown error the [Err] of a [result] (or the corresponding constructor of a monad
where state survives the throw).  Where the code shares mutable objects and a
claim depends on it (CBOR values, strict JSON, the delta appliers), there is a
heap.  Asynchronous code is a sequence of operations at the points where the
source awaits something; what happens there (a crash, an answer, a lost message, a
refusal of the carrier) is an argument or an environment the theorems quantify
over.  Numbers are binary64 ([num]) where the code may meet any number, and
integers where it only counts; those are exact below 2^53.

** Bounds and fuel

Recursion that is not structural carries fuel that is proved sufficient: [match_fuel]
for the wildcard matcher, [encode_fuel] and the depth limit for CBOR (the nesting
limit itself bounds both directions), [json_fuel] from the size of the heap (an
object is never entered twice on a path), the lengths of the inputs for framing and
truncation, [diff_fuel] from the sizes of the two revisions, the number of calls for
the search and the release rounds of a batch ([run_ends]), the number of entries for a
branch path, [pump_fuel] for the transport's pump ([pump_fuel_enough]).  A run of
the agent loop is as long as its provider makes it: [turns] takes fuel, and
[loop_ends] gives, for a provider with a budget, an amount that is always enough.

** Parameters

Code that is not part of the repository, or that another package supplies, is an
argument: NFKC normalisation, the library's diffLines (its parts spell both files),
the typebox schema check (it looks at a value's structure), SHA-256, the text of a
number, the regular expressions that read an error message or a refusal, the file
system behind path rules, the clock, random ids, the provider and its retries.  The
agent loop's hooks, queues, provider and host are classes ([LoopHooks], [ToolHost])
with their contracts as classes ([LoopLaws], [QuietQueues], [HostAnswers],
[HostNests], [Budget]);
running one batch in the host is an operation with the contract [BatchAnswers].  Each is
instantiated by concrete functions where a theorem is shown at an example.

** Not modelled

Network, file and process I/O, timers and abort signals; the provider adapters, which
translate to services outside the repository; OAuth and the model catalogue; the
Proxy tracker, RPC and plugin loading of chord; SQL backends; the assembly of sessions,
hooks, skills and telemetry; the second harness (pico3); the terminal user interface;
code mode, pseudo-terminals and evaluation; scripts and generated code.  The files,
hooks and nested runs of another device are left out, and the executor of a single
call is a parameter of the coordinator and of the tool host.  Within a modelled part, what is left out is said at
the top of its file. *)
From Stdlib Require Import Ascii String.
From Stdlib Require Export ZArith Lia.
From stdpp Require Export base tactics option list list_numbers numbers gmap sets.
Export String.StringSyntax.

(** ** JavaScript strings

A JavaScript string is a sequence of UTF-16 code units; [jstring] is that
sequence, each unit an integer in [0, 65536). *)
Notation jstring := (list Z).

Definition js (s : String.string) : jstring :=
  (fun c => Z.of_N (N_of_ascii c)) <$> String.list_ascii_of_string s.

Declare Scope senpi_scope.
Delimit Scope senpi_scope with senpi.
Notation "'$' s" := (js s%string) (at level 5, s at level 0, format "'$' s") : senpi_scope.
#[global] Open Scope senpi_scope.

(** ** Results of fallible code

[throw] in the source is [Err], a normal return is [Ok]. *)
Inductive result (E A : Type) : Type :=
| Ok (a : A)
| Err (e : E).
Arguments Ok {E A} _.
Arguments Err {E A} _.

#[export] Instance result_ret {E} : MRet (result E) := fun A a => Ok a.
#[export] Instance result_bind {E} : MBind (result E) :=
  fun A B f m => match m with Ok a => f a | Err e => Err e end.
#[export] Instance result_fmap {E} : FMap (result E) :=
  fun A B f m => match m with Ok a => Ok (f a) | Err e => Err e end.

(** [guard b e]: continue when [b] holds, throw [e] otherwise. *)
Definition throw_unless {E} (b : bool) (e : E) : result E unit := if b then Ok tt else Err e.

Definition is_ok {E A} (r : result E A) : bool := match r with Ok _ => true | Err _ => false end.

(** [for (const x of l) ...] over a fallible body threading a state. *)
Fixpoint foldM {E S A} (f : S -> A -> result E S) (s : S) (l : list A) : result E S :=
  match l with
  | [] => Ok s
  | x :: l' => f s x ≫= fun s' => foldM f s' l'
  end.

(** [l.map(f)] with a fallible [f]: the first error wins. *)
Fixpoint traverse {E A B} (f : A -> result E B) (l : list A) : result E (list B) :=
  match l with
  | [] => Ok []
  | x :: l' => f x ≫= fun y => traverse f l' ≫= fun ys => Ok (y :: ys)
  end.

(** ** Sorting *)

(** [Array.prototype.sort] with a comparator: stable. *)
Fixpoint sort_insert {A} (cmp : A -> A -> Z) (x : A) (l : list A) : list A :=
  match l with
  | [] => [x]
  | y :: l' => if Z.leb (cmp x y) 0 then x :: y :: l' else y :: sort_insert cmp x l'
  end.

Definition sort_by {A} (cmp : A -> A -> Z) (l : list A) : list A := foldr (sort_insert cmp) [] l.

(** ** Byte sequences indexed by machine integers *)

Notation bytes := (list Z).

(** [a.byteLength], [a.length] *)
Definition blen {A} (l : list A) : Z := Z.of_nat (length l).

(** [a[i]], [undefined] outside the bounds *)
Definition at_ {A} (l : list A) (i : Z) : option A := if Z.ltb i 0 then None else l !! Z.to_nat i.

(** [a.slice(i, j)] and [a.subarray(i, j)] for [0 <= i] *)
Definition slice {A} (l : list A) (i j : Z) : list A := take (Z.to_nat (j - i)) (drop (Z.to_nat i) l).

(** A typed-array store: modulo 256 and ignored outside the bounds. *)
Definition u8_set (a : bytes) (i v : Z) : bytes :=
  if Z.ltb i 0 then a else <[Z.to_nat i := Z.modulo v 256]> a.

(** [a.set(src, offset)], for a range inside [a]. *)
Definition u8_copy (a src : bytes) (offset : Z) : bytes :=
  take (Z.to_nat offset) a ++ src ++ drop (Z.to_nat offset + length src) a.

(** [v >>> k] of an unsigned 32-bit value. *)
Definition ushr (v k : Z) : Z := Z.shiftr (Z.modulo v (2 ^ 32)) k.

(** The [n] big-endian bytes of [v]. *)
Fixpoint be_bytes (n : nat) (v : Z) : bytes :=
  match n with
  | O => []
  | S n' => Z.modulo (Z.shiftr v (8 * Z.of_nat n')) 256 :: be_bytes n' v
  end.

(** The value of a big-endian byte sequence. *)
Definition be_value (l : bytes) : Z := fold_left (fun acc b => acc * 256 + b)%Z l 0%Z.

(** Every element is a byte. *)
Definition bytes_ok (b : bytes) : Prop := Forall (fun x => 0 <= x < 256)%Z b.

(** ** Shared facts *)

Create HintDb senpi.

(** An element's measure is bounded by the sum. *)
Lemma elem_size {A} (f : A -> nat) (x : A) l : x ∈ l -> (f x <= sum_list (f <$> l))%nat.
Proof. induction 1; cbn in *; lia. Qed.

Section ResultFacts.
Context {E : Type}.

Lemma bind_Ok {A B} (f : A -> result E B) (r : result E A) b :
  r ≫= f = Ok b <-> exists a, r = Ok a /\ f a = Ok b.
Proof. destruct r as [a|e]; cbn; split; [eauto| |done|]; intros (? & ? & ?); congruence. Qed.

Lemma throw_unless_Ok b (e : E) u : throw_unless b e = Ok u <-> b = true.
Proof. destruct b, u; cbn; split; congruence. Qed.

Lemma traverse_Ok {A B} (f : A -> result E B) l ys :
  traverse f l = Ok ys <-> Forall2 (fun x y => f x = Ok y) l ys.
Proof.
  revert ys. induction l as [|x l IH]; intros ys; cbn.
  - split; [intros [= <-]; constructor|by inversion 1].
  - rewrite bind_Ok. split.
    + intros (y & Hy & Hr). apply bind_Ok in Hr as (ys' & Hys & [= <-]).
      constructor; [done|by apply IH].
    + inversion 1 as [|? y ? ys' Hy Hys]; subst. exists y. split; [done|].
      by apply IH in Hys as ->.
Qed.

Lemma foldM_app {S A} (f : S -> A -> result E S) s l1 l2 :
  foldM f s (l1 ++ l2) = foldM f s l1 ≫= fun s' => foldM f s' l2.
Proof.
  revert s. induction l1 as [|x l1 IH]; intros s; cbn; [done|].
  destruct (f s x); cbn; [apply IH|done].
Qed.

(** A relation kept by every step is kept by the loop. *)
Lemma foldM_inv {S A} (P : S -> Prop) (f : S -> A -> result E S) l s s' :
  (forall s x s', x ∈ l -> P s -> f s x = Ok s' -> P s') ->
  P s -> foldM f s l = Ok s' -> P s'.
Proof.
  revert s. induction l as [|x l IH]; intros s Hstep Hs; cbn; [by intros [= <-]|].
  intros (s1 & H1 & H2)%bind_Ok. eapply IH; [|eapply Hstep; [left|done|done]|done].
  intros. eapply Hstep; [by right|done|done].
Qed.
End ResultFacts.

(** ** Two runs that agree *)

(** Both succeed with related values or both fail with the same error. *)
Definition result_rel {E A B} (R : A -> B -> Prop) (r : result E A) (r' : result E B) : Prop :=
  match r, r' with Ok a, Ok b => R a b | Err e, Err e' => e = e' | _, _ => False end.

Section ResultRel.
Context {E : Type}.

Lemma result_rel_refl {A} (R : A -> A -> Prop) (r : result E A) : (forall a, R a a) -> result_rel R r r.
Proof. by destruct r; cbn. Qed.

Lemma result_rel_bind {A A' B B'} (R : A -> A' -> Prop) (S : B -> B' -> Prop) (r : result E A) r' f f' :
  result_rel R r r' -> (forall a a', R a a' -> result_rel S (f a) (f' a')) -> result_rel S (r ≫= f) (r' ≫= f').
Proof. destruct r, r'; cbn; by auto. Qed.

Lemma result_rel_foldM {S S' A} (R : S -> S' -> Prop) (f : S -> A -> result E S) f' (l : list A) s s' :
  (forall s s' x, x ∈ l -> R s s' -> result_rel R (f s x) (f' s' x)) -> R s s' -> result_rel R (foldM f s l) (foldM f' s' l).
Proof.
  revert s s'. induction l as [|x l IH]; intros s s' Hf Hs; cbn [foldM]; [done|].
  eapply result_rel_bind; [apply Hf; [left|done]|]. intros a a' Ha. apply IH; [|done]. intros. apply Hf; [by right|done].
Qed.
End ResultRel.

Section ByteFacts.
#[local] Open Scope Z_scope.

Lemma blen_nil {A} : blen (A := A) [] = 0. Proof. done. Qed.
Lemma blen_cons {A} (x : A) l : blen (x :: l) = 1 + blen l.
Proof. unfold blen. cbn [length]. lia. Qed.
Lemma blen_app {A} (l1 l2 : list A) : blen (l1 ++ l2) = blen l1 + blen l2.
Proof. unfold blen. rewrite length_app. lia. Qed.
Lemma blen_nonneg {A} (l : list A) : 0 <= blen l.
Proof. unfold blen. lia. Qed.
Lemma blen_0 {A} (l : list A) : blen l = 0 -> l = [].
Proof. destruct l; [done|]. rewrite blen_cons. pose proof (blen_nonneg l). lia. Qed.
Lemma blen_fmap {A B} (f : A -> B) l : blen (f <$> l) = blen l.
Proof. unfold blen. by rewrite length_fmap. Qed.
Lemma blen_be_bytes n v : blen (be_bytes n v) = Z.of_nat n.
Proof. induction n as [|n IH]; cbn [be_bytes]; rewrite ?blen_cons, ?blen_nil; lia. Qed.

(** Reading at the end of a known prefix. *)
Lemma at_app_r {A} (l1 l2 : list A) i : blen l1 = i -> at_ (l1 ++ l2) i = head l2.
Proof.
  intros <-. unfold at_, blen. destruct (Z.ltb_spec (Z.of_nat (length l1)) 0); [lia|].
  rewrite Nat2Z.id, lookup_app_r, Nat.sub_diag by done. by destruct l2.
Qed.

Lemma slice_app_r {A} (l1 l2 l3 : list A) i n :
  blen l1 = i -> blen l2 = n -> slice (l1 ++ l2 ++ l3) i (i + n) = l2.
Proof.
  intros <- <-. unfold slice, blen. rewrite Nat2Z.id, drop_app_length.
  replace (Z.to_nat _) with (length l2) by lia. by rewrite take_app_length.
Qed.

Lemma blen_slice {A} (l : list A) i n :
  0 <= i -> 0 <= n <= blen l - i -> blen (slice l i (i + n)) = n.
Proof.
  unfold slice, blen. intros Hi Hn. rewrite length_take, length_drop. lia.
Qed.

Lemma be_value_app l b : be_value (l ++ [b]) = be_value l * 256 + b.
Proof. unfold be_value. by rewrite fold_left_app. Qed.

Lemma be_bytes_snoc n v : be_bytes (S n) v = be_bytes n (v / 256) ++ [v mod 256].
Proof.
  revert v. induction n as [|n IH]; intros v.
  - cbn. by rewrite Z.shiftr_0_r.
  - change (be_bytes (S (S n)) v) with
      (Z.modulo (Z.shiftr v (8 * Z.of_nat (S n))) 256 :: be_bytes (S n) v).
    rewrite IH. cbn [be_bytes app]. f_equal. f_equal.
    rewrite !Z.shiftr_div_pow2, Z.div_div by lia.
    f_equal. replace (8 * Z.of_nat (S n)) with (8 + 8 * Z.of_nat n) by lia.
    by rewrite Z.pow_add_r by lia.
Qed.

Lemma be_value_be_bytes n v : 0 <= v < 256 ^ Z.of_nat n -> be_value (be_bytes n v) = v.
Proof.
  revert v. induction n as [|n IH]; intros v Hv.
  - cbn in *. lia.
  - rewrite be_bytes_snoc, be_value_app.
    rewrite Nat2Z.inj_succ, Z.pow_succ_r in Hv by lia.
    rewrite IH; [pose proof (Z_div_mod_eq_full v 256); lia|].
    split; [apply Z.div_pos; lia|apply Z.div_lt_upper_bound; lia].
Qed.
Lemma bytes_ok_slice b i j : bytes_ok b -> bytes_ok (slice b i j).
Proof. intros H. unfold slice, bytes_ok. by apply Forall_take, Forall_drop. Qed.

Lemma be_value_bounds b : bytes_ok b -> 0 <= be_value b < 256 ^ blen b.
Proof.
  unfold bytes_ok. induction b as [|x b IH] using rev_ind; [by vm_compute|].
  rewrite Forall_app, Forall_singleton. intros [Hb Hx]. apply IH in Hb.
  rewrite be_value_app, blen_app, blen_cons, (blen_nil (A:=Z)).
  rewrite Z.pow_add_r by (pose proof (blen_nonneg b); lia). lia.
Qed.

(** Reading element [i] of a list, and moving past it. *)
Lemma drop_step {A} (s t : list A) c i :
  0 <= i -> drop (Z.to_nat i) s = c :: t ->
  at_ s i = Some c /\ drop (Z.to_nat (i + 1)) s = t /\ blen s = i + 1 + blen t.
Proof.
  intros Hi Hd. split_and!.
  - unfold at_. destruct (Z.ltb_spec i 0); [lia|]. rewrite <- (Nat.add_0_r (Z.to_nat i)), <- lookup_drop, Hd. done.
  - rewrite Z2Nat.inj_add by lia. rewrite <- drop_drop, Hd. done.
  - apply (f_equal length) in Hd. rewrite length_drop in Hd. cbn in Hd. unfold blen. lia.
Qed.

Lemma drop_nil_at {A} (s : list A) i :
  0 <= i -> drop (Z.to_nat i) s = [] -> at_ s i = None /\ blen s <= i.
Proof.
  intros Hi Hd. apply (f_equal length) in Hd. rewrite length_drop in Hd. cbn in Hd. unfold at_, blen.
  destruct (Z.ltb_spec i 0); [lia|]. split; [apply lookup_ge_None_2|]; lia.
Qed.
End ByteFacts.

#[export] Hint Rewrite @blen_nil @blen_cons @blen_app @blen_be_bytes : senpi.

(** Invert a successful computation into the success of each of its steps. *)
Ltac inv_ok :=
  repeat match goal with
  | H : _ ≫= _ = Ok _ |- _ =>
      let a := fresh "a" in let Ha := fresh "Ha" in apply bind_Ok in H as (a & Ha & H)
  | H : throw_unless _ _ = Ok _ |- _ => apply throw_unless_Ok in H
  | H : Ok _ = Ok _ |- _ => injection H as H
  | H : Err _ = Ok _ |- _ => discriminate H
  end; subst.

(** Arithmetic over lengths of concatenations. *)
Ltac blen_lia := autorewrite with senpi in *; lia.

Lemma elem_of_filter_bool {A} (f : A -> bool) l x : x ∈ List.filter f l <-> x ∈ l /\ f x = true.
Proof. by rewrite !list_elem_of_In, List.filter_In. Qed.
