(* ===== verification/JsString.v ===== *)
(** * String operations of the language

[startsWith], [endsWith], [indexOf], [split] and [join] on strings as sequences
of code units, with the facts the components share. *)
From S2P Require Import Prelude.
#[local] Open Scope Z_scope.

(** ** Prefixes and positions *)

Definition startsWith (s p : jstring) : bool := bool_decide (take (length p) s = p).
Definition endsWith (s p : jstring) : bool := bool_decide (drop (length s - length p) s = p) && (length p <=? length s)%nat.

(** [s.indexOf(head)], for [s] at position [pos] of its string. *)
Fixpoint index_of (head s : jstring) (pos : Z) : option Z :=
  if startsWith s head then Some pos
  else match s with [] => None | _ :: s => index_of head s (pos + 1) end.

(** ** Lines *)

Definition NEWLINE : Z := 10.

(** [content.split("\n")] *)
Fixpoint split_newline (s : jstring) : list jstring :=
  match s with
  | [] => [[]]
  | c :: s' =>
      if c =? NEWLINE then [] :: split_newline s'
      else match split_newline s' with
           | [] => [[c]]
           | l :: ls => (c :: l) :: ls
           end
  end.

(** [l.join(sep)] *)
Definition join (sep : jstring) (l : list jstring) : jstring :=
  match l with [] => [] | x :: l => x ++ (l ≫= fun y => sep ++ y) end.

(** [lines.join("\n")] *)
Fixpoint join_lines (ls : list jstring) : jstring :=
  match ls with
  | [] => []
  | [l] => l
  | l :: ls' => l ++ NEWLINE :: join_lines ls'
  end.

(** ** Facts *)

Lemma startsWith_spec s p : startsWith s p = true <-> exists r, s = p ++ r.
Proof.
  unfold startsWith. rewrite bool_decide_eq_true. split.
  - intros H. exists (drop (length p) s). rewrite <- H at 1. symmetry. apply take_drop.
  - intros [r ->]. apply take_app_length.
Qed.

Lemma index_of_bounds head s pos k : index_of head s pos = Some k -> pos <= k <= pos + blen s.
Proof.
  revert pos. induction s as [|c s IH]; intros pos; cbn [index_of].
  - case_match; [intros [= <-]|done]. rewrite (blen_nil (A := Z)). lia.
  - rewrite blen_cons. pose proof (blen_nonneg s). case_match; [intros [= <-]; lia|].
    intros H'%IH. lia.
Qed.

Lemma join_cons l ls : ls <> [] -> join_lines (l :: ls) = l ++ NEWLINE :: join_lines ls.
Proof. by destruct ls. Qed.

Lemma split_not_nil s : split_newline s <> [].
Proof. destruct s as [|c s]; cbn; [done|]. destruct (_ =? _); [done|]. by destruct (split_newline s). Qed.

Lemma join_split s : join_lines (split_newline s) = s.
Proof.
  induction s as [|c s IH]; cbn [split_newline]; [done|].
  pose proof (split_not_nil s). destruct (Z.eqb_spec c NEWLINE) as [->|].
  - rewrite join_cons by done. by rewrite IH.
  - destruct (split_newline s) as [|l ls]; [done|]. destruct ls; cbn in *; by rewrite <- IH.
Qed.

Lemma split_snoc s : split_newline (s ++ [NEWLINE]) = split_newline s ++ [[]].
Proof.
  induction s as [|c s IH]; [done|]. cbn [app split_newline]. rewrite IH.
  destruct (c =? NEWLINE); [done|]. pose proof (split_not_nil s). by destruct (split_newline s).
Qed.

(** [index_of] finds the first occurrence. *)
Definition occurs_at (head s : jstring) (i : nat) : Prop := startsWith (drop i s) head = true.

Lemma index_of_spec head s pos :
  match index_of head s pos with
  | Some k => exists i : nat, k = pos + Z.of_nat i /\ (i <= length s)%nat /\ occurs_at head s i /\
                forall j, (j < i)%nat -> ~ occurs_at head s j
  | None => forall i, (i <= length s)%nat -> ~ occurs_at head s i
  end.
Proof.
  revert pos. induction s as [|c s IH]; intros pos; cbn [index_of].
  - destruct (startsWith [] head) eqn:E; [exists 0%nat; split_and!; [lia|cbn; lia|done|lia]|].
    intros [|i] Hi; cbn in *; [unfold occurs_at; cbn; congruence|lia].
  - destruct (startsWith (c :: s) head) eqn:E; [exists 0%nat; split_and!; [lia|lia|done|lia]|].
    specialize (IH (pos + 1)). destruct (index_of head s (pos + 1)) as [k|].
    + destruct IH as (i & -> & Hi & Ho & Hm). exists (S i). split_and!; [lia|cbn; lia|done|].
      intros [|j] Hj; [unfold occurs_at; cbn; congruence|]. apply (Hm j). lia.
    + intros [|i] Hi; [unfold occurs_at; cbn; congruence|]. apply (IH i). cbn in Hi. lia.
Qed.

Lemma occurs_at_app head s i : occurs_at head s i <-> exists a b, s = a ++ head ++ b /\ (length a = i \/ head = [] /\ (length s <= i)%nat).
Proof.
  unfold occurs_at. rewrite startsWith_spec. split.
  - intros [r Hr]. destruct (decide (i <= length s)%nat).
    + exists (take i s), r. rewrite <- Hr, take_drop, length_take. split; [done|left; lia].
    + rewrite drop_ge in Hr by lia. symmetry in Hr. apply app_eq_nil in Hr as [-> ->].
      exists s, []. rewrite app_nil_r. split; [done|right; split; [done|lia]].
  - intros (a & b & -> & [<-|[-> Hi]]); [exists b; by rewrite drop_app_length|].
    exists []. rewrite drop_ge; [done|exact Hi].
Qed.

(** ** [split] at a separator *)

Fixpoint split_on (fuel : nat) (sep s : jstring) : list jstring :=
  match fuel with
  | O => [s]
  | S fuel =>
      match index_of sep s 0 with
      | Some k => take (Z.to_nat k) s :: split_on fuel sep (drop (Z.to_nat k + length sep) s)
      | None => [s]
      end
  end.

(** [s.split(sep)]; every piece but the last is followed by a separator. *)
Definition js_split (sep s : jstring) : list jstring :=
  if bool_decide (sep = []) then (fun c => [c]) <$> s else split_on (S (length s)) sep s.

(** Two occurrences that do not overlap. *)
Definition two_apart (sep s : jstring) : Prop :=
  exists i j, (i + length sep <= j)%nat /\ (j <= length s)%nat /\ occurs_at sep s i /\ occurs_at sep s j.

Lemma split_length_two sep s : sep <> [] -> (2 < length (js_split sep s))%nat <-> two_apart sep s.
Proof.
  intros Hsep. unfold js_split. rewrite bool_decide_eq_false_2 by done.
  assert (forall fuel t, split_on fuel sep t <> []) as Hne by (intros [|fuel] t; cbn; [|case_match]; done).
  assert (0 < length sep)%nat by (destruct sep; [done|cbn; lia]).
  cbn [split_on]. pose proof (index_of_spec sep s 0) as H1. destruct (index_of sep s 0) as [k|].
  2: { split; [cbn; lia|]. intros (i & j & Hij & Hj & Hi & _). destruct (H1 i); [lia|done]. }
  destruct H1 as (i & -> & Hi & Ho & Hm). cbn [length].
  replace (Z.to_nat (0 + Z.of_nat i)) with i by lia.
  assert (i + length sep <= length s)%nat as Hfit.
  { unfold occurs_at in Ho. apply startsWith_spec in Ho as [r Hr]. apply (f_equal length) in Hr.
    rewrite length_drop, length_app in Hr. lia. }
  destruct (length s) as [|n] eqn:El; [lia|]. cbn [split_on].
  pose proof (index_of_spec sep (drop (i + length sep) s) 0) as H2.
  destruct (index_of sep (drop (i + length sep) s) 0) as [k|].
  - destruct H2 as (j & -> & Hj & Hoj & _). rewrite length_drop in Hj. split.
    + intros _. exists i, (i + length sep + j)%nat. split_and!; [lia|lia|done|].
      unfold occurs_at in *. by rewrite drop_drop in Hoj.
    + intros _. cbn [length]. specialize (Hne n (drop (Z.to_nat (0 + Z.of_nat j) + length sep) (drop (i + length sep) s))).
      destruct (split_on n _ _); [done|cbn; lia].
  - split; [cbn; lia|]. intros (i' & j & Hij & Hj & Hoi & Hoj). exfalso.
    assert (i <= i')%nat by (destruct (decide (i' < i)%nat); [by destruct (Hm i')|lia]).
    apply (H2 (j - (i + length sep))%nat); [rewrite length_drop; lia|]. unfold occurs_at in *.
    rewrite drop_drop. by replace (i + length sep + (j - (i + length sep)))%nat with j by lia.
Qed.
