(* ===== verification/JsonText.v ===== *)
(** * JSON text of strings

What the program uses of [JSON.stringify]: the text of a string, unit by unit
(lone surrogates are escaped, pairs kept), and of the short tuples of strings
that serve as keys.  Reading a quoted string back shows that no two strings, and
no two keys, have the same text. *)
From S2P Require Import Prelude.
#[local] Open Scope Z_scope.

Definition is_high (c : Z) : bool := (55296 <=? c) && (c <=? 56319).
Definition is_low (c : Z) : bool := (56320 <=? c) && (c <=? 57343).

Definition hex_digit (d : Z) : Z := if d <? 10 then 48 + d else 87 + d.

(** [\uXXXX] *)
Definition unicode_escape (c : Z) : jstring :=
  [92; 117; hex_digit (c / 4096 mod 16); hex_digit (c / 256 mod 16); hex_digit (c / 16 mod 16); hex_digit (c mod 16)].

Definition quote_unit (c : Z) : jstring :=
  if c =? 8 then [92; 98] else if c =? 9 then [92; 116] else if c =? 10 then [92; 110]
  else if c =? 12 then [92; 102] else if c =? 13 then [92; 114]
  else if c =? 34 then [92; 34] else if c =? 92 then [92; 92]
  else if (0 <=? c) && (c <? 32) then unicode_escape c
  else [c].

(** Surrogate pairs are kept, lone surrogates escaped. *)
Fixpoint quote_body (s : jstring) : jstring :=
  match s with
  | [] => []
  | c :: r =>
      if is_high c then
        match r with
        | d :: r' => if is_low d then c :: d :: quote_body r' else unicode_escape c ++ quote_body r
        | [] => unicode_escape c
        end
      else (if is_low c then unicode_escape c else quote_unit c) ++ quote_body r
  end.

Definition quoted (s : jstring) : jstring := 34 :: quote_body s ++ [34].

(** [JSON.stringify([a, b])] *)
Definition pair_text (a b : jstring) : jstring := 91 :: quoted a ++ 44 :: quoted b ++ [93].

(** ** Reading it back *)

(** Reading a quoted string back: its units and what follows the closing quote. *)
Definition hex_value (c : Z) : Z := if c <? 58 then c - 48 else c - 87.

Fixpoint unquote (s : jstring) : option (jstring * jstring) :=
  let cons c r := match unquote r with Some (k, t) => Some (c :: k, t) | None => None end in
  match s with
  | [] => None
  | c :: r =>
      if c =? 34 then Some ([], r)
      else if c =? 92 then
        match r with
        | e :: r1 =>
            if e =? 117 then
              match r1 with
              | x3 :: x2 :: x1 :: x0 :: r2 =>
                  cons (hex_value x3 * 4096 + hex_value x2 * 256 + hex_value x1 * 16 + hex_value x0) r2
              | _ => None
              end
            else
              cons (if e =? 98 then 8 else if e =? 116 then 9 else if e =? 110 then 10
                    else if e =? 102 then 12 else if e =? 114 then 13 else e) r1
        | [] => None
        end
      else cons c r
  end.

Lemma hex_value_digit d : 0 <= d < 16 -> hex_value (hex_digit d) = d.
Proof. unfold hex_value, hex_digit. intros. destruct (Z.ltb_spec d 10); case_match; lia. Qed.

Lemma unquote_escape c r k t :
  0 <= c < 65536 -> unquote r = Some (k, t) -> unquote (unicode_escape c ++ r) = Some (c :: k, t).
Proof.
  intros Hc Hr. unfold unicode_escape. cbn -[Z.mul Z.add Z.div Z.modulo hex_value hex_digit]. rewrite Hr.
  rewrite !hex_value_digit by (apply Z.mod_pos_bound; lia). do 3 f_equal.
  pose proof (Z_div_mod_eq_full c 16). pose proof (Z_div_mod_eq_full (c / 16) 16).
  pose proof (Z_div_mod_eq_full (c / 256) 16).
  assert (c / 16 / 16 = c / 256) by (rewrite Z.div_div by lia; done).
  assert (c / 256 / 16 = c / 4096) by (rewrite Z.div_div by lia; done).
  assert (c / 4096 mod 16 = c / 4096).
  { apply Z.mod_small. split; [apply Z.div_pos; lia|apply Z.div_lt_upper_bound; lia]. }
  lia.
Qed.

Lemma unquote_plain c r k t :
  c <> 34 -> c <> 92 -> unquote r = Some (k, t) -> unquote (c :: r) = Some (c :: k, t).
Proof.
  intros H1 H2 Hr. cbn. apply Z.eqb_neq in H1, H2. by rewrite H1, H2, Hr.
Qed.

Lemma unquote_unit c r k t : unquote r = Some (k, t) -> unquote (quote_unit c ++ r) = Some (c :: k, t).
Proof.
  intros Hr. unfold quote_unit.
  repeat (case_match; [match goal with H : (_ =? _) = true |- _ => apply Z.eqb_eq in H as -> end; cbn; by rewrite Hr|]).
  destruct (_ && _) eqn:E; [apply unquote_escape; [lia|done]|].
  apply unquote_plain; [lia..|done].
Qed.

Lemma unquote_body s t : unquote (quote_body s ++ 34 :: t) = Some (s, t).
Proof.
  remember (length s) as n eqn:Hn. revert s Hn.
  induction n as [n IH] using lt_wf_ind. intros s ->. destruct s as [|c r]; [done|]. cbn [quote_body].
  assert (forall r', (length r' < length (c :: r))%nat -> unquote (quote_body r' ++ 34 :: t) = Some (r', t)) as IH'
    by (intros; by eapply IH). clear IH.
  destruct (is_high c) eqn:Hh.
  - unfold is_high in Hh. destruct r as [|d r].
    + apply (unquote_escape c (34 :: t)); [lia|done].
    + destruct (is_low d) eqn:Hl.
      * unfold is_low in Hl. cbn [app]. apply unquote_plain; [lia..|]. apply unquote_plain; [lia..|].
        apply IH'. cbn. lia.
      * rewrite <- app_assoc. apply unquote_escape; [lia|]. apply IH'. cbn. lia.
  - rewrite <- app_assoc. destruct (is_low c) eqn:Hl.
    + unfold is_low in Hl. apply unquote_escape; [lia|]. apply IH'. cbn. lia.
    + apply unquote_unit, IH'. cbn. lia.
Qed.

Lemma quoted_inj a b t u : quoted a ++ t = quoted b ++ u -> a = b /\ t = u.
Proof.
  unfold quoted. cbn. rewrite <- !app_assoc. intros [= E]. apply (f_equal unquote) in E. cbn [app] in E.
  rewrite !unquote_body in E. by simplify_eq.
Qed.

Lemma pair_text_inj a b a' b' : pair_text a b = pair_text a' b' -> a = a' /\ b = b'.
Proof.
  unfold pair_text. intros E. apply (f_equal (drop 1)) in E. cbn [drop] in E. apply quoted_inj in E as [-> E].
  apply (f_equal (drop 1)) in E. cbn [drop] in E. by apply quoted_inj in E as [-> _].
Qed.
