(* ===== verification/JsNumber.v ===== *)
(** * JavaScript numbers

A JavaScript number is an IEEE-754 binary64 value; it is modelled by the
Standard Library's [spec_float] together with the validity predicate
[num_valid] that singles out the representable ones.  This file holds what
the program uses of the language's [Number]: the integrality tests, strict
equality, [Object.is], the exact conversion from and to integers, and the
big-endian [DataView] encoding as a 64-bit pattern. *)
From S2P Require Import Prelude.
From Stdlib Require Import SpecFloat.
#[local] Open Scope Z_scope.

Notation num := spec_float.

#[export] Instance num_eq_dec : EqDecision num.
Proof. solve_decision. Defined.

Definition MAX_SAFE_INTEGER : Z := 2 ^ 53 - 1.

(** The finite values of binary64: subnormal mantissas at the least exponent,
    normal ones with their leading bit at position 52. *)
Definition num_valid (f : num) : Prop :=
  match f with
  | S754_finite _ m e =>
      (Z.pos m < 2 ^ 52 /\ e = -1074) \/
      (2 ^ 52 <= Z.pos m < 2 ^ 53 /\ -1074 <= e <= 971)
  | _ => True
  end.

(** [Number.isFinite] *)
Definition is_finite (f : num) : bool :=
  match f with S754_zero _ | S754_finite _ _ _ => true | _ => false end.

(** [Number.isInteger] *)
Definition is_integer (f : num) : bool :=
  match f with
  | S754_zero _ => true
  | S754_finite _ m e => (0 <=? e) || (Z.pos m mod 2 ^ (- e) =? 0)
  | _ => false
  end.

(** The mathematical value of an integral number. *)
Definition to_Z (f : num) : Z :=
  match f with
  | S754_finite s m e =>
      let v := if 0 <=? e then Z.pos m * 2 ^ e else Z.pos m / 2 ^ (- e) in
      if s then - v else v
  | _ => 0
  end.

(** [Number.isSafeInteger] *)
Definition is_safe_integer (f : num) : bool :=
  is_integer f && (Z.abs (to_Z f) <=? MAX_SAFE_INTEGER).

(** [Object.is(f, -0)] *)
Definition is_neg_zero (f : num) : bool :=
  match f with S754_zero true => true | _ => false end.

(** [===] on two numbers: [NaN] differs from itself, the two zeros agree. *)
Definition num_strict_eq (a b : num) : bool :=
  match a, b with
  | S754_nan, _ | _, S754_nan => false
  | S754_zero _, S754_zero _ => true
  | _, _ => bool_decide (a = b)
  end.

(** [+], [<], [<=] and [Math.min] *)
Definition num_add (a b : num) : num := SFadd 53 1024 a b.
Definition num_ltb (a b : num) : bool := SFltb a b.
Definition num_leb (a b : num) : bool := SFleb a b.

Definition num_min (a b : num) : num :=
  match a, b with
  | S754_nan, _ | _, S754_nan => S754_nan
  | _, _ => if SFltb a b then a else if SFltb b a then b else if is_neg_zero a then a else b
  end.

(** The number whose value is the integer [z]; exact for [|z| < 2 ^ 53]. *)
Definition of_pos (s : bool) (p : positive) : num :=
  let d := Z.pos (Pos.size p) in
  match Z.pos p * 2 ^ (53 - d) with
  | Z.pos m => S754_finite s m (d - 53)
  | _ => S754_zero s
  end.

Definition of_Z (z : Z) : num :=
  match z with
  | Z0 => S754_zero false
  | Z.pos p => of_pos false p
  | Z.neg p => of_pos true p
  end.

(** [DataView.prototype.setFloat64(_, f, false)]: the bit pattern. *)
Definition bits64 (f : num) : Z :=
  let sign (s : bool) := if s then 2 ^ 63 else 0 in
  match f with
  | S754_zero s => sign s
  | S754_infinity s => sign s + 2047 * 2 ^ 52
  | S754_nan => 2047 * 2 ^ 52 + 2 ^ 51
  | S754_finite s m e =>
      if Z.pos m <? 2 ^ 52 then sign s + Z.pos m
      else sign s + (e + 1075) * 2 ^ 52 + (Z.pos m - 2 ^ 52)
  end.

(** [DataView.prototype.getFloat64(_, false)]: the value of a bit pattern. *)
Definition of_bits64 (b : Z) : num :=
  let s := 2 ^ 63 <=? b in
  let exponent := (b / 2 ^ 52) mod 2048 in
  let fraction := b mod 2 ^ 52 in
  if exponent =? 2047 then (if fraction =? 0 then S754_infinity s else S754_nan)
  else
    match (if exponent =? 0 then fraction else fraction + 2 ^ 52) with
    | Z.pos m => S754_finite s m (if exponent =? 0 then -1074 else exponent - 1075)
    | _ => S754_zero s
    end.

(** ** Facts *)

Lemma of_pos_spec s p :
  Z.pos p < 2 ^ 53 ->
  exists m, of_pos s p = S754_finite s m (Z.pos (Pos.size p) - 53) /\
    Z.pos m = Z.pos p * 2 ^ (53 - Z.pos (Pos.size p)) /\
    2 ^ 52 <= Z.pos m < 2 ^ 53 /\ Z.pos (Pos.size p) <= 53.
Proof.
  intros Hp. pose proof (Pos.size_gt p) as Hgt. pose proof (Pos.size_le p) as Hle.
  set (d := Z.pos (Pos.size p)).
  assert (Hd : Z.pos p < 2 ^ d) by (subst d; lia).
  assert (Hd' : 2 ^ d <= 2 * Z.pos p) by (subst d; lia).
  assert (d <= 53).
  { destruct (Z.le_gt_cases d 53); [done|exfalso].
    assert (2 ^ 54 <= 2 ^ d) by (apply Z.pow_le_mono_r; lia). lia. }
  assert (E : 2 ^ d * 2 ^ (53 - d) = 2 ^ 53) by (rewrite <- Z.pow_add_r; [f_equal; lia|subst d; lia|lia]).
  assert (0 < 2 ^ (53 - d)) by (apply Z.pow_pos_nonneg; lia).
  unfold of_pos. fold d.
  destruct (Z.pos p * 2 ^ (53 - d)) as [|m|m] eqn:Em; try lia.
  exists m. repeat split; try lia; nia.
Qed.

Lemma of_Z_valid z : Z.abs z < 2 ^ 53 -> num_valid (of_Z z).
Proof.
  intros Hz. destruct z as [|p|p]; cbn; [done|..];
    destruct (of_pos_spec false p) as (m & E & _ & Hm & Hd); try lia;
    destruct (of_pos_spec true p) as (m' & E' & _ & Hm' & _); try lia;
    rewrite ?E, ?E'; cbn; right; lia.
Qed.

Lemma to_Z_of_Z z :
  Z.abs z < 2 ^ 53 -> is_finite (of_Z z) = true /\ is_integer (of_Z z) = true /\ to_Z (of_Z z) = z.
Proof.
  intros Hz.
  assert (G : forall s p, Z.pos p < 2 ^ 53 ->
    is_finite (of_pos s p) = true /\ is_integer (of_pos s p) = true /\
    to_Z (of_pos s p) = if s then - Z.pos p else Z.pos p).
  { intros s p Hp. destruct (of_pos_spec s p Hp) as (m & -> & Em & Hm & Hd).
    set (d := Z.pos (Pos.size p)) in *.
    assert (0 < 2 ^ (53 - d)) by (apply Z.pow_pos_nonneg; lia).
    cbn [is_finite is_integer to_Z]. split; [done|].
    replace (- (d - 53)) with (53 - d) by lia.
    rewrite Em, Z.div_mul, Z.mod_mul by lia.
    destruct (Z.leb_spec 0 (d - 53)).
    - replace d with 53 in * by lia. rewrite !Z.mul_1_r. destruct s; lia.
    - destruct s; cbn; auto. }
  destruct z as [|p|p]; [done|..].
  - apply (G false p). lia.
  - apply (G true p). lia.
Qed.

Lemma of_Z_safe z : Z.abs z <= MAX_SAFE_INTEGER -> is_safe_integer (of_Z z) = true.
Proof.
  unfold MAX_SAFE_INTEGER. intros Hz. destruct (to_Z_of_Z z) as (_ & Hi & Ht); [lia|].
  unfold is_safe_integer, MAX_SAFE_INTEGER. rewrite Hi, Ht. cbn. lia.
Qed.

Lemma of_Z_not_neg_zero z : Z.abs z < 2 ^ 53 -> is_neg_zero (of_Z z) = false.
Proof.
  intros Hz. destruct z as [|p|p]; cbn; [done|..].
  - destruct (of_pos_spec false p) as (m & -> & _); [lia|done].
  - destruct (of_pos_spec true p) as (m & -> & _); [lia|done].
Qed.

(** A positive integer below [2 ^ 53] has one representation with a mantissa
    of 53 bits, so the conversion from its value is the number itself. *)
Lemma of_pos_unique s m e p :
  2 ^ 52 <= Z.pos m < 2 ^ 53 ->
  Z.pos p * 2 ^ (53 - Z.pos (Pos.size p)) = Z.pos m ->
  Z.pos (Pos.size p) - 53 = e ->
  of_pos s p = S754_finite s m e.
Proof. intros Hm Hp <-. unfold of_pos. by rewrite Hp. Qed.

Lemma size_of_bounds p d : 0 < d -> 2 ^ (d - 1) <= Z.pos p < 2 ^ d -> Z.pos (Pos.size p) = d.
Proof.
  intros Hd Hp. pose proof (Pos.size_gt p) as Hgt. pose proof (Pos.size_le p) as Hle.
  set (k := Z.pos (Pos.size p)).
  assert (Z.pos p < 2 ^ k) by (subst k; lia).
  assert (2 ^ k <= 2 * Z.pos p) by (subst k; lia).
  assert (d - 1 < k) by (apply (Z.pow_lt_mono_r_iff 2); subst k; lia).
  assert (2 ^ k < 2 ^ (d + 1)).
  { replace (d + 1) with (Z.succ d) by lia. rewrite Z.pow_succ_r; lia. }
  assert (k < d + 1) by (apply (Z.pow_lt_mono_r_iff 2); lia). lia.
Qed.

Lemma of_Z_to_Z f :
  num_valid f -> is_integer f = true -> is_neg_zero f = false ->
  Z.abs (to_Z f) < 2 ^ 53 -> of_Z (to_Z f) = f.
Proof.
  destruct f as [[]| | |s m e]; try done. cbn [num_valid is_integer to_Z]. intros Hv Hi _ Hz.
  set (v := if 0 <=? e then Z.pos m * 2 ^ e else Z.pos m / 2 ^ (- e)) in *.
  assert (G : exists p, v = Z.pos p /\ of_pos s p = S754_finite s m e).
  { subst v. destruct (Z.leb_spec 0 e) as [He|He].
    - destruct Hv as [[? ->]|[Hm ?]]; [lia|].
      assert (0 < 2 ^ e) by (apply Z.pow_pos_nonneg; lia).
      assert (e = 0) as ->.
      { destruct (Z.eq_dec e 0); [done|exfalso].
        assert (2 ^ 1 <= 2 ^ e) by (apply Z.pow_le_mono_r; lia). destruct s; nia. }
      exists m. split; [lia|].
      assert (Z.pos (Pos.size m) = 53) as Hs by (apply size_of_bounds; lia).
      apply of_pos_unique; rewrite ?Hs; lia.
    - cbn in Hi. apply Z.eqb_eq in Hi.
      assert (0 < 2 ^ (- e)) as Hpow by (apply Z.pow_pos_nonneg; lia).
      assert (Z.pos m = 2 ^ (- e) * (Z.pos m / 2 ^ (- e))) as Em.
      { pose proof (Z_div_mod_eq_full (Z.pos m) (2 ^ (- e))); lia. }
      destruct (Z.pos m / 2 ^ (- e)) as [|p|p] eqn:Ev; [lia| |nia].
      exists p. split; [done|].
      destruct Hv as [[Hm ->]|[Hm Hb]].
      { exfalso. assert (2 ^ 52 <= 2 ^ (- -1074)) by (apply Z.pow_le_mono_r; lia). nia. }
      assert (-53 < e).
      { destruct (Z.le_gt_cases e (-53)); [exfalso|done].
        assert (2 ^ 53 <= 2 ^ (- e)) by (apply Z.pow_le_mono_r; lia). nia. }
      assert (Z.pos (Pos.size p) = 53 + e) as Hs.
      { apply size_of_bounds; [lia|].
        assert (2 ^ 52 = 2 ^ (53 + e - 1) * 2 ^ (- e)) by (rewrite <- Z.pow_add_r; [f_equal; lia|lia|lia]).
        assert (2 ^ 53 = 2 ^ (53 + e) * 2 ^ (- e)) by (rewrite <- Z.pow_add_r; [f_equal; lia|lia|lia]).
        nia. }
      apply of_pos_unique; rewrite ?Hs; [lia| |lia].
      replace (53 - (53 + e)) with (- e) by lia. lia. }
  destruct G as (p & -> & Hp). by destruct s.
Qed.

(** *** The 64-bit encoding *)

Lemma bits64_range f : num_valid f -> 0 <= bits64 f < 2 ^ 64.
Proof.
  destruct f as [s|s| |s m e]; cbn [num_valid bits64]; intros Hv;
    try (destruct s; lia).
  - lia.
  - destruct (Z.ltb_spec (Z.pos m) (2 ^ 52)); destruct s; lia.
Qed.

Lemma of_bits64_valid b : 0 <= b < 2 ^ 64 -> num_valid (of_bits64 b).
Proof.
  intros Hb. unfold of_bits64.
  pose proof (Z.mod_pos_bound (b / 2 ^ 52) 2048 ltac:(lia)).
  pose proof (Z.mod_pos_bound b (2 ^ 52) ltac:(lia)).
  set (e := (b / 2 ^ 52) mod 2048) in *. set (fr := b mod 2 ^ 52) in *.
  destruct (Z.eqb_spec e 2047); [by destruct (fr =? 0)|].
  destruct (Z.eqb_spec e 0).
  - destruct fr as [|m|m] eqn:E; cbn; try done. left. lia.
  - destruct (fr + 2 ^ 52) as [|m|m] eqn:E; cbn; try done. right. lia.
Qed.

(** Splitting a pattern into its three fields. *)
Lemma bits64_fields s e fr b :
  0 <= e < 2048 -> 0 <= fr < 2 ^ 52 ->
  b = (if s : bool then 2 ^ 63 else 0) + e * 2 ^ 52 + fr ->
  (2 ^ 63 <=? b) = s /\ (b / 2 ^ 52) mod 2048 = e /\ b mod 2 ^ 52 = fr.
Proof.
  intros He Hfr ->.
  set (t := (if s then 2 ^ 63 else 0) + e * 2 ^ 52 + fr).
  assert (t = ((if s then 2048 else 0) + e) * 2 ^ 52 + fr) as -> by (subst t; destruct s; lia).
  split; [destruct s; lia|].
  rewrite Z.div_add_l, Z.div_small, Z.add_0_r by lia.
  rewrite (Z.add_comm _ fr), Z.mod_add, (Z.mod_small fr) by lia.
  split; [|done]. destruct s; [|by rewrite Z.mod_small by lia].
  replace (2048 + e) with (e + 1 * 2048) by lia. by rewrite Z.mod_add, Z.mod_small by lia.
Qed.

Lemma of_bits64_bits64 f : num_valid f -> of_bits64 (bits64 f) = f.
Proof.
  intros Hv.
  assert (G : forall s e fr, 0 <= e < 2048 -> 0 <= fr < 2 ^ 52 ->
    bits64 f = (if s : bool then 2 ^ 63 else 0) + e * 2 ^ 52 + fr ->
    of_bits64 (bits64 f) =
      if e =? 2047 then (if fr =? 0 then S754_infinity s else S754_nan)
      else match (if e =? 0 then fr else fr + 2 ^ 52) with
           | Z.pos m => S754_finite s m (if e =? 0 then -1074 else e - 1075)
           | _ => S754_zero s
           end).
  { intros s e fr He Hfr Hb.
    destruct (bits64_fields s e fr _ He Hfr Hb) as (Hs & Hee & Hf).
    unfold of_bits64. by rewrite Hs, Hee, Hf. }
  destruct f as [s|s| |s m e]; cbn [num_valid bits64] in *.
  - by rewrite (G s 0 0) by lia.
  - by rewrite (G s 2047 0) by (destruct s; lia).
  - rewrite (G false 2047 (2 ^ 51)) by lia. done.
  - destruct Hv as [[Hm ->]|[Hm He]].
    + destruct (Z.ltb_spec (Z.pos m) (2 ^ 52)); [|lia].
      rewrite (G s 0 (Z.pos m)) by lia. done.
    + destruct (Z.ltb_spec (Z.pos m) (2 ^ 52)); [lia|].
      rewrite (G s (e + 1075) (Z.pos m - 2 ^ 52)) by lia.
      destruct (Z.eqb_spec (e + 1075) 2047); [lia|].
      destruct (Z.eqb_spec (e + 1075) 0); [lia|].
      rewrite Z.sub_add. by rewrite Z.add_simpl_r.
Qed.
