(* ===== verification/JsObject.v ===== *)
(** * JavaScript objects as ordered property lists

An object used as a record or map is the list of its own enumerable string
properties, in the order [Object.keys] reports them: array-index keys first
in ascending order, then the other keys in order of creation.
[obj_set] is [Object.defineProperty] with an enumerable data descriptor,
[obj_delete] is [delete], [obj_get] an own-property read. *)
From S2P Require Import Prelude.
From Stdlib Require Import Sorting.Sorted.
#[local] Open Scope Z_scope.

(** Decimal value of a list of digit code units, most significant first. *)
Definition digits_value (k : jstring) : Z :=
  fold_left (fun acc c => acc * 10 + (c - 48)) k 0.

Definition is_digit (c : Z) : bool := (48 <=? c) && (c <=? 57).

(** Array-index keys: canonical decimal numerals of [0 .. 2^32 - 2]. *)
Definition array_index (k : jstring) : option Z :=
  match k with
  | [] => None
  | c :: rest =>
      if forallb is_digit k && ((negb (c =? 48)) || bool_decide (rest = []))
         && (digits_value k <? 2 ^ 32 - 1)
      then Some (digits_value k) else None
  end.

(** [key_before k1 k2]: in every object holding both, [k1] may precede [k2]. *)
Definition key_before (k1 k2 : jstring) : Prop :=
  match array_index k1, array_index k2 with
  | Some i, Some j => i < j
  | None, Some _ => False
  | _, None => True
  end.

#[export] Instance key_before_dec k1 k2 : Decision (key_before k1 k2).
Proof. unfold key_before. destruct (array_index k1), (array_index k2); apply _. Defined.

Section Object.
Context {A : Type}.
Implicit Types (o : list (jstring * A)) (k : jstring) (v : A).

Definition obj_keys o : list jstring := o.*1.

Fixpoint obj_get o k : option A :=
  match o with
  | [] => None
  | (k', v) :: o' => if bool_decide (k' = k) then Some v else obj_get o' k
  end.

Definition obj_has o k : bool := match obj_get o k with Some _ => true | None => false end.

(** A new key goes in front of the first key that must follow it. *)
Fixpoint obj_insert o k v : list (jstring * A) :=
  match o with
  | [] => [(k, v)]
  | (k', v') :: o' =>
      if bool_decide (key_before k' k) then (k', v') :: obj_insert o' k v
      else (k, v) :: (k', v') :: o'
  end.

Fixpoint obj_update o k v : list (jstring * A) :=
  match o with
  | [] => []
  | (k', v') :: o' => if bool_decide (k' = k) then (k', v) :: o' else (k', v') :: obj_update o' k v
  end.

Definition obj_set o k v : list (jstring * A) :=
  if obj_has o k then obj_update o k v else obj_insert o k v.

Fixpoint obj_delete o k : list (jstring * A) :=
  match o with
  | [] => []
  | (k', v') :: o' => if bool_decide (k' = k) then obj_delete o' k else (k', v') :: obj_delete o' k
  end.

(** Distinct keys, in the order the language keeps them. *)
Definition obj_ok o : Prop := NoDup (obj_keys o) /\ StronglySorted key_before (obj_keys o).

(** An object literal built by successive definitions. *)
Definition obj_of_list (l : list (jstring * A)) : list (jstring * A) :=
  fold_left (fun o '(k, v) => obj_set o k v) l [].

#[local] Arguments obj_keys : simpl never.

Lemma obj_keys_cons k v o : obj_keys ((k, v) :: o) = k :: obj_keys o.
Proof. done. Qed.

Lemma obj_get_None o k : obj_get o k = None <-> k ∉ obj_keys o.
Proof.
  induction o as [|[k' v'] o IH]; cbn; [set_solver|]. rewrite obj_keys_cons.
  case_bool_decide; subst; [set_solver|]. rewrite IH. set_solver.
Qed.

Lemma obj_has_spec o k : obj_has o k = true <-> k ∈ obj_keys o.
Proof.
  unfold obj_has. destruct (obj_get o k) eqn:E; split; try done.
  - intros _. destruct (decide (k ∈ obj_keys o)) as [|Hn]; [done|].
    apply obj_get_None in Hn. congruence.
  - apply obj_get_None in E. done.
Qed.

Lemma obj_get_map o k : obj_get o k = list_to_map (M := gmap jstring A) o !! k.
Proof.
  induction o as [|[k' v'] o IH]; cbn; [by rewrite lookup_empty|].
  case_bool_decide; subst; [by rewrite lookup_insert_eq|].
  by rewrite lookup_insert_ne.
Qed.

Lemma elem_of_obj_insert o k v x : x ∈ obj_keys (obj_insert o k v) <-> x = k \/ x ∈ obj_keys o.
Proof.
  induction o as [|[k' v'] o IH]; cbn; rewrite ?obj_keys_cons; [set_solver|].
  case_bool_decide; rewrite ?obj_keys_cons, !elem_of_cons; [|done]. rewrite IH. tauto.
Qed.

Lemma obj_keys_update o k v : obj_keys (obj_update o k v) = obj_keys o.
Proof.
  induction o as [|[k' v'] o IH]; cbn; [done|].
  case_bool_decide; rewrite !obj_keys_cons; [done|]. by rewrite IH.
Qed.

Lemma obj_insert_map o k v :
  k ∉ obj_keys o ->
  list_to_map (M := gmap jstring A) (obj_insert o k v) = <[k := v]> (list_to_map o).
Proof.
  induction o as [|[k' v'] o IH]; cbn; [done|]. rewrite obj_keys_cons. intros Hk.
  case_bool_decide; cbn; [|done].
  rewrite IH by set_solver. apply insert_insert_ne. set_solver.
Qed.

Lemma obj_update_map o k v :
  k ∈ obj_keys o ->
  list_to_map (M := gmap jstring A) (obj_update o k v) = <[k := v]> (list_to_map o).
Proof.
  induction o as [|[k' v'] o IH]; cbn; [set_solver|]. rewrite obj_keys_cons. intros Hk.
  case_bool_decide; subst; cbn; [by rewrite insert_insert_eq|].
  rewrite IH by set_solver. by apply insert_insert_ne.
Qed.

Lemma obj_set_map o k v :
  list_to_map (M := gmap jstring A) (obj_set o k v) = <[k := v]> (list_to_map o).
Proof.
  unfold obj_set. destruct (obj_has o k) eqn:E.
  - apply obj_update_map. by apply obj_has_spec.
  - apply obj_insert_map. rewrite <- obj_has_spec. congruence.
Qed.

Lemma elem_of_obj_set o k v x : x ∈ obj_keys (obj_set o k v) <-> x = k \/ x ∈ obj_keys o.
Proof.
  unfold obj_set. destruct (obj_has o k) eqn:E.
  - rewrite obj_keys_update. apply obj_has_spec in E. set_solver.
  - apply elem_of_obj_insert.
Qed.

Lemma obj_delete_map o k :
  list_to_map (M := gmap jstring A) (obj_delete o k) = delete k (list_to_map o).
Proof.
  induction o as [|[k' v'] o IH]; cbn; [by rewrite delete_empty|]. case_bool_decide; subst; cbn; rewrite IH.
  - by rewrite delete_insert_eq.
  - by rewrite delete_insert_ne.
Qed.

Lemma elem_of_obj_delete o k x : x ∈ obj_keys (obj_delete o k) -> x ∈ obj_keys o.
Proof.
  induction o as [|[k' v'] o IH]; cbn; [done|].
  case_bool_decide; rewrite ?obj_keys_cons, ?elem_of_cons; [by auto|].
  intros [->|Hin]; [by left|right; auto].
Qed.

Lemma NoDup_obj_set o k v : NoDup (obj_keys o) -> NoDup (obj_keys (obj_set o k v)).
Proof.
  unfold obj_set. destruct (obj_has o k) eqn:E; [by rewrite obj_keys_update|].
  assert (k ∉ obj_keys o) as Hk by (rewrite <- obj_has_spec; congruence). clear E.
  revert Hk. induction o as [|[k' v'] o IH]; cbn; [intros; apply NoDup_singleton|].
  rewrite obj_keys_cons. intros Hk [H1 H2]%NoDup_cons.
  case_bool_decide; rewrite !obj_keys_cons; apply NoDup_cons; split.
  - rewrite elem_of_obj_insert. set_solver.
  - apply IH; set_solver.
  - done.
  - by apply NoDup_cons.
Qed.

Lemma NoDup_obj_delete o k : NoDup (obj_keys o) -> NoDup (obj_keys (obj_delete o k)).
Proof.
  induction o as [|[k' v'] o IH]; cbn; [done|]. rewrite obj_keys_cons. intros [H1 H2]%NoDup_cons.
  case_bool_decide; rewrite ?obj_keys_cons; [auto|]. apply NoDup_cons. split; [|auto].
  intros Hin. apply H1. by eapply elem_of_obj_delete.
Qed.

(** Defining a key that belongs at the end appends it. *)
Lemma obj_set_app_end o k v : obj_ok (o ++ [(k, v)]) -> obj_set o k v = o ++ [(k, v)].
Proof.
  intros [Hnd Hs]. unfold obj_keys in *. rewrite fmap_app in *. cbn in *.
  assert (k ∉ obj_keys o) as Hk.
  { unfold obj_keys. apply NoDup_app in Hnd. set_solver. }
  unfold obj_set. destruct (obj_has o k) eqn:E; [apply obj_has_spec in E; done|].
  clear E Hnd Hk. induction o as [|[k' v'] o IH]; cbn in *; [done|].
  inversion Hs as [|? ? Hs' Hf]; subst.
  rewrite bool_decide_eq_true_2; [by rewrite IH|].
  rewrite List.Forall_forall in Hf. apply Hf. apply in_or_app. right. by left.
Qed.

Lemma obj_ok_app_l o1 o2 : obj_ok (o1 ++ o2) -> obj_ok o1.
Proof.
  unfold obj_ok, obj_keys. rewrite fmap_app. intros [Hnd Hs]. split.
  - by apply NoDup_app in Hnd as (? & _).
  - induction (o1.*1) as [|k l IH]; [constructor|].
    inversion Hs as [|? ? Hs' Hf]; subst. cbn in Hnd. apply NoDup_cons in Hnd as [_ Hnd].
    constructor; [by apply IH|]. by apply List.Forall_app in Hf as [? _].
Qed.

(** Rebuilding an object property by property, in its own order, gives it back. *)
Lemma obj_of_list_ok o : obj_ok o -> obj_of_list o = o.
Proof.
  unfold obj_of_list. induction o as [|[k v] o IH] using rev_ind; [done|].
  intros Hok. rewrite fold_left_app. cbn. rewrite IH by by eapply obj_ok_app_l.
  by apply obj_set_app_end.
Qed.
End Object.

(** ** Array-index keys are canonical: the order of keys is total *)

Lemma digits_value_app l c : digits_value (l ++ [c]) = digits_value l * 10 + (c - 48).
Proof. unfold digits_value. by rewrite fold_left_app. Qed.

(** [String(n)] of a natural number: its decimal digits (below 10^21, where the
    language switches to exponents). *)
Fixpoint decimal_go (fuel : nat) (n : Z) (acc : jstring) : jstring :=
  match fuel with
  | O => acc
  | S f => let acc := (48 + n mod 10) :: acc in if n <? 10 then acc else decimal_go f (n / 10) acc
  end.

Definition decimal (n : Z) : jstring := decimal_go (S (Z.to_nat (Z.log2 n))) n [].

#[global] Arguments decimal : simpl never.

Lemma decimal_go_spec fuel n acc :
  0 <= n < 2 ^ Z.of_nat fuel -> (0 < fuel)%nat ->
  exists d, decimal_go fuel n acc = d ++ acc /\ Forall (fun c => is_digit c = true) d /\
    digits_value d = n /\ d <> [].
Proof.
  revert n acc. induction fuel as [|f IH]; intros n acc Hn Hf; [lia|]. cbn [decimal_go].
  assert (is_digit (48 + n mod 10) = true) as Hd.
  { unfold is_digit. pose proof (Z.mod_pos_bound n 10). lia. }
  destruct (Z.ltb_spec n 10).
  - exists [48 + n mod 10]. split_and!; [done|by repeat constructor| |done].
    unfold digits_value. cbn [fold_left]. rewrite Z.mod_small by lia. lia.
  - rewrite Nat2Z.inj_succ, Z.pow_succ_r in Hn by lia.
    destruct (IH (n / 10) ((48 + n mod 10) :: acc)) as (d & -> & HF & Hv & Hne).
    + split; [apply Z.div_pos; lia|apply Z.div_lt_upper_bound; lia].
    + destruct f; [cbn in Hn; lia|lia].
    + exists (d ++ [48 + n mod 10]). rewrite <- app_assoc. split_and!; [done| | |by destruct d].
      * apply Forall_app. split; [done|by repeat constructor].
      * rewrite digits_value_app, Hv. pose proof (Z_div_mod_eq_full n 10). lia.
Qed.

Lemma decimal_spec n :
  0 <= n -> Forall (fun c => is_digit c = true) (decimal n) /\ digits_value (decimal n) = n /\ decimal n <> [].
Proof.
  intros Hn. destruct (decimal_go_spec (S (Z.to_nat (Z.log2 n))) n []) as (d & E & ?); [|lia|].
  - split; [done|]. rewrite Nat2Z.inj_succ, Z2Nat.id by apply Z.log2_nonneg.
    destruct (Z.eq_dec n 0) as [->|]; [by vm_compute|]. apply Z.log2_spec. lia.
  - unfold decimal. by rewrite E, app_nil_r.
Qed.

Lemma digits_value_bounds l :
  Forall (fun c => is_digit c = true) l -> 0 <= digits_value l < 10 ^ blen l.
Proof.
  induction l as [|c l IH] using rev_ind; [by vm_compute|].
  rewrite Forall_app, Forall_singleton. intros [Hl Hc]. apply IH in Hl.
  unfold is_digit in Hc. rewrite digits_value_app, blen_app, blen_cons, (blen_nil (A:=Z)).
  rewrite Z.pow_add_r by (pose proof (blen_nonneg l); lia). lia.
Qed.

(** A numeral without a leading zero has a value of its own length. *)
Lemma digits_value_lower c l :
  is_digit c = true -> c <> 48 -> Forall (fun c => is_digit c = true) l ->
  10 ^ blen l <= digits_value (c :: l).
Proof.
  intros Hc Hne. induction l as [|d l IH] using rev_ind; intros Hl.
  - rewrite (blen_nil (A:=Z)). unfold is_digit, digits_value in *. cbn [fold_left]. lia.
  - apply Forall_app in Hl as [Hl Hd]. apply Forall_cons in Hd as [Hd _]. apply IH in Hl.
    unfold is_digit in Hd. rewrite app_comm_cons, digits_value_app, blen_app, blen_cons, (blen_nil (A:=Z)).
    rewrite Z.pow_add_r by (pose proof (blen_nonneg l); lia). lia.
Qed.

Lemma digits_value_inj l1 l2 :
  length l1 = length l2 ->
  Forall (fun c => is_digit c = true) l1 -> Forall (fun c => is_digit c = true) l2 ->
  digits_value l1 = digits_value l2 -> l1 = l2.
Proof.
  revert l2. induction l1 as [|c l1 IH] using rev_ind; intros l2 Hlen.
  - by destruct l2.
  - destruct l2 as [|d l2 _] using rev_ind; rewrite !length_app in Hlen; cbn in Hlen; [lia|].
    rewrite !Forall_app, !Forall_singleton, !digits_value_app. unfold is_digit.
    intros [H1 Hc] [H2 Hd] Hv. assert (c = d) as -> by lia. f_equal. apply IH; [lia|done..|lia].
Qed.

Lemma array_index_Some k i :
  array_index k = Some i ->
  exists c l, k = c :: l /\ Forall (fun c => is_digit c = true) k /\
    (c <> 48 \/ l = []) /\ digits_value k = i /\ 0 <= i < 2 ^ 32 - 1.
Proof.
  destruct k as [|c l]; [done|]. unfold array_index. destruct (_ && _) eqn:E; [|done]. intros [= <-].
  apply andb_true_iff in E as [E1 Hlt]. apply andb_true_iff in E1 as [Hd Hz].
  assert (Forall (fun c => is_digit c = true) (c :: l)) as HF.
  { apply Forall_forall. intros x Hx. eapply List.forallb_forall in Hd; [done|]. by apply list_elem_of_In. }
  exists c, l. split_and!; [done|done| |done|apply digits_value_bounds in HF; lia|lia].
  apply orb_true_iff in Hz as [Hz|Hz]; [left; lia|right]. by apply bool_decide_eq_true in Hz.
Qed.

Lemma array_index_inj k1 k2 i : array_index k1 = Some i -> array_index k2 = Some i -> k1 = k2.
Proof.
  intros (c1 & l1 & -> & F1 & Z1 & V1 & _)%array_index_Some (c2 & l2 & -> & F2 & Z2 & V2 & _)%array_index_Some.
  apply digits_value_inj; [|done|done|congruence].
  enough (blen (c1 :: l1) = blen (c2 :: l2)) by (unfold blen in *; lia).
  assert (forall c l, Forall (fun c => is_digit c = true) (c :: l) -> c <> 48 \/ l = [] ->
    l = [] \/ 10 ^ blen l <= digits_value (c :: l) < 10 ^ (1 + blen l)) as G.
  { intros c l F [Hz|]; [right|by left]. pose proof (digits_value_bounds _ F) as Hb. rewrite blen_cons in Hb.
    apply Forall_cons in F as [Hc Fl]. split; [by apply digits_value_lower|lia]. }
  rewrite !blen_cons. pose proof (blen_nonneg l1). pose proof (blen_nonneg l2).
  pose proof (digits_value_bounds _ F1) as B1. pose proof (digits_value_bounds _ F2) as B2.
  rewrite blen_cons in B1, B2. rewrite V1 in *. rewrite V2 in *.
  assert (forall a b, 0 <= a -> 0 <= b -> 10 ^ a <= i -> i < 10 ^ (1 + b) -> a <= b) as Hle.
  { intros a b Ha Hb Hai Hib. enough (a < 1 + b) by lia. apply (Z.pow_lt_mono_r_iff 10); lia. }
  destruct (G c1 l1 F1 Z1) as [->|G1], (G c2 l2 F2 Z2) as [->|G2]; rewrite ?(blen_nil (A:=Z)) in *; try rewrite V1 in *; try rewrite V2 in *.
  - done.
  - assert (blen l2 <= 0) by (apply Hle; lia). lia.
  - assert (blen l1 <= 0) by (apply Hle; lia). lia.
  - assert (blen l1 <= blen l2) by (apply Hle; lia). assert (blen l2 <= blen l1) by (apply Hle; lia). lia.
Qed.

Lemma key_before_total k1 k2 : k1 <> k2 -> key_before k1 k2 \/ key_before k2 k1.
Proof.
  unfold key_before. intros Hne.
  destruct (array_index k1) as [i|] eqn:E1, (array_index k2) as [j|] eqn:E2; auto.
  destruct (Z.eq_dec i j) as [->|]; [|lia]. by destruct Hne; eapply array_index_inj.
Qed.

#[export] Instance key_before_trans : Transitive key_before.
Proof.
  intros x y z. unfold key_before.
  destruct (array_index x), (array_index y), (array_index z); try done. lia.
Qed.

Lemma obj_ok_set {A} (o : list (jstring * A)) k v : obj_ok o -> obj_ok (obj_set o k v).
Proof.
  intros [Hnd Hs]. split; [by apply NoDup_obj_set|].
  unfold obj_set. destruct (obj_has o k) eqn:E; [by rewrite obj_keys_update|].
  assert (k ∉ obj_keys o) as Hk by (rewrite <- obj_has_spec; congruence). clear E Hnd.
  induction o as [|[k' v'] o IH]; cbn [obj_insert]; [repeat constructor|].
  rewrite obj_keys_cons in Hk, Hs. inversion Hs as [|? ? Hs' Hf]; subst.
  case_bool_decide as Hb; rewrite !obj_keys_cons.
  - constructor; [apply IH; set_solver|]. apply List.Forall_forall. intros x Hx%list_elem_of_In.
    apply elem_of_obj_insert in Hx as [->|Hx]; [done|].
    eapply List.Forall_forall in Hf; [done|]. by apply list_elem_of_In.
  - assert (key_before k k') as Hkk'.
    { destruct (key_before_total k k') as [|]; [set_solver|done..]. }
    constructor; [done|]. constructor; [done|].
    eapply List.Forall_impl; [|done]. intros x Hx. by transitivity k'.
Qed.
