(* ===== verification/Utf8.v ===== *)
(** * UTF-16 strings and their UTF-8 encoding

[TextEncoder.encode], the fatal [TextDecoder] (with [ignoreBOM]) and the
well-formedness of a JavaScript string, as the protocol and the output
truncation use them. *)
From S2P Require Import Prelude.
#[local] Open Scope Z_scope.
#[local] Ltac Zify.zify_post_hook ::= Z.to_euclidean_division_equations.

Definition is_high_surrogate (c : Z) : bool := (0xd800 <=? c) && (c <=? 0xdbff).
Definition is_low_surrogate (c : Z) : bool := (0xdc00 <=? c) && (c <=? 0xdfff).

(** A scalar value: a code point that is not a surrogate. *)
Definition is_scalar (c : Z) : bool :=
  (0 <=? c) && (c <=? 0x10ffff) && negb ((0xd800 <=? c) && (c <=? 0xdfff)).

Definition REPLACEMENT : Z := 0xfffd.

(** Code points of a string, lone surrogates replaced by U+FFFD. *)
Fixpoint scalars_of (s : jstring) : list Z :=
  match s with
  | [] => []
  | c :: s' =>
      if is_high_surrogate c then
        match s' with
        | d :: s'' =>
            if is_low_surrogate d
            then (0x10000 + (c - 0xd800) * 0x400 + (d - 0xdc00)) :: scalars_of s''
            else REPLACEMENT :: scalars_of s'
        | [] => [REPLACEMENT]
        end
      else if is_low_surrogate c then REPLACEMENT :: scalars_of s'
      else c :: scalars_of s'
  end.

(** UTF-16 code units of one scalar value. *)
Definition units_of (c : Z) : jstring :=
  if c <? 0x10000 then [c]
  else [0xd800 + (c - 0x10000) / 0x400; 0xdc00 + (c - 0x10000) mod 0x400].

(** UTF-8 bytes of one scalar value. *)
Definition utf8_of (c : Z) : list Z :=
  if c <? 0x80 then [c]
  else if c <? 0x800 then [0xc0 + c / 0x40; 0x80 + c mod 0x40]
  else if c <? 0x10000 then
    [0xe0 + c / 0x1000; 0x80 + (c / 0x40) mod 0x40; 0x80 + c mod 0x40]
  else
    [0xf0 + c / 0x40000; 0x80 + (c / 0x1000) mod 0x40; 0x80 + (c / 0x40) mod 0x40; 0x80 + c mod 0x40].

(** [textEncoder.encode] *)
Definition utf8_encode (s : jstring) : list Z := scalars_of s ≫= utf8_of.

Definition in_range (lo hi b : Z) : bool := (lo <=? b) && (b <=? hi).

(** The fatal decoder: [None] where it throws. *)
Fixpoint utf8_scalars (b : list Z) : option (list Z) :=
  match b with
  | [] => Some []
  | b0 :: r0 =>
      if in_range 0 0x7f b0 then cons b0 <$> utf8_scalars r0
      else if in_range 0xc2 0xdf b0 then
        match r0 with
        | b1 :: r1 =>
            if in_range 0x80 0xbf b1
            then cons ((b0 - 0xc0) * 0x40 + (b1 - 0x80)) <$> utf8_scalars r1
            else None
        | _ => None
        end
      else if in_range 0xe0 0xef b0 then
        match r0 with
        | b1 :: b2 :: r2 =>
            if in_range (if b0 =? 0xe0 then 0xa0 else 0x80) (if b0 =? 0xed then 0x9f else 0xbf) b1
               && in_range 0x80 0xbf b2
            then cons ((b0 - 0xe0) * 0x1000 + (b1 - 0x80) * 0x40 + (b2 - 0x80)) <$> utf8_scalars r2
            else None
        | _ => None
        end
      else if in_range 0xf0 0xf4 b0 then
        match r0 with
        | b1 :: b2 :: b3 :: r3 =>
            if in_range (if b0 =? 0xf0 then 0x90 else 0x80) (if b0 =? 0xf4 then 0x8f else 0xbf) b1
               && in_range 0x80 0xbf b2 && in_range 0x80 0xbf b3
            then cons ((b0 - 0xf0) * 0x40000 + (b1 - 0x80) * 0x1000 + (b2 - 0x80) * 0x40 + (b3 - 0x80))
                   <$> utf8_scalars r3
            else None
        | _ => None
        end
      else None
  end.

(** [textDecoder.decode] *)
Definition utf8_decode (b : list Z) : option jstring :=
  (fun l => l ≫= units_of) <$> utf8_scalars b.

(** Strings with no lone surrogate and code units of 16 bits. *)
Definition well_formed (s : jstring) : Prop :=
  exists l, Forall (fun c => is_scalar c = true) l /\ s = l ≫= units_of.

(** ** Facts *)

Ltac unbool :=
  repeat match goal with
  | H : _ && _ = true |- _ => apply andb_true_iff in H as [? H]
  | H : negb _ = true |- _ => apply negb_true_iff in H
  | H : (_ <=? _) = true |- _ => apply Z.leb_le in H
  | H : (_ <? _) = true |- _ => apply Z.ltb_lt in H
  end.

Lemma is_scalar_spec c :
  is_scalar c = true <-> 0 <= c <= 0x10ffff /\ ~ (0xd800 <= c <= 0xdfff).
Proof. unfold is_scalar. lia. Qed.

Lemma scalars_of_units c s :
  is_scalar c = true -> scalars_of (units_of c ++ s) = c :: scalars_of s.
Proof.
  rewrite is_scalar_spec. intros [Hc Hns]. unfold units_of.
  destruct (Z.ltb_spec c 0x10000); cbn [app scalars_of].
  - assert (is_high_surrogate c = false) as -> by (unfold is_high_surrogate; lia).
    assert (is_low_surrogate c = false) as -> by (unfold is_low_surrogate; lia). done.
  - assert (is_high_surrogate (0xd800 + (c - 0x10000) / 0x400) = true) as ->
      by (unfold is_high_surrogate; lia).
    assert (is_low_surrogate (0xdc00 + (c - 0x10000) mod 0x400) = true) as ->
      by (unfold is_low_surrogate; lia).
    f_equal. lia.
Qed.

Lemma scalars_of_wf l :
  Forall (fun c => is_scalar c = true) l -> scalars_of (l ≫= units_of) = l.
Proof.
  induction 1 as [|c l Hc _ IH]; [done|]. cbn [mbind list_bind].
  rewrite scalars_of_units by done. by rewrite <- IH at 2.
Qed.

Lemma utf8_scalars_cons c b :
  is_scalar c = true -> utf8_scalars (utf8_of c ++ b) = cons c <$> utf8_scalars b.
Proof.
  rewrite is_scalar_spec. intros [Hc Hns]. unfold utf8_of.
  destruct (Z.ltb_spec c 0x80); [|destruct (Z.ltb_spec c 0x800); [|destruct (Z.ltb_spec c 0x10000)]];
    cbn [app utf8_scalars].
  - by replace (in_range 0 0x7f c) with true by (unfold in_range; lia).
  - replace (in_range 0 0x7f (0xc0 + c / 0x40)) with false by (unfold in_range; lia).
    replace (in_range 0xc2 0xdf (0xc0 + c / 0x40)) with true by (unfold in_range; lia).
    replace (in_range 0x80 0xbf (0x80 + c mod 0x40)) with true by (unfold in_range; lia).
    do 2 f_equal. lia.
  - replace (in_range 0 0x7f (0xe0 + c / 0x1000)) with false by (unfold in_range; lia).
    replace (in_range 0xc2 0xdf (0xe0 + c / 0x1000)) with false by (unfold in_range; lia).
    replace (in_range 0xe0 0xef (0xe0 + c / 0x1000)) with true by (unfold in_range; lia).
    match goal with |- context [if ?b then _ else _] => replace b with true end.
    + do 2 f_equal. lia.
    + unfold in_range. destruct (Z.eqb_spec (0xe0 + c / 0x1000) 0xe0), (Z.eqb_spec (0xe0 + c / 0x1000) 0xed); lia.
  - replace (in_range 0 0x7f (0xf0 + c / 0x40000)) with false by (unfold in_range; lia).
    replace (in_range 0xc2 0xdf (0xf0 + c / 0x40000)) with false by (unfold in_range; lia).
    replace (in_range 0xe0 0xef (0xf0 + c / 0x40000)) with false by (unfold in_range; lia).
    replace (in_range 0xf0 0xf4 (0xf0 + c / 0x40000)) with true by (unfold in_range; lia).
    match goal with |- context [if ?b then _ else _] => replace b with true end.
    + do 2 f_equal. lia.
    + unfold in_range. destruct (Z.eqb_spec (0xf0 + c / 0x40000) 0xf0), (Z.eqb_spec (0xf0 + c / 0x40000) 0xf4); lia.
Qed.

Lemma utf8_scalars_encode l :
  Forall (fun c => is_scalar c = true) l -> utf8_scalars (l ≫= utf8_of) = Some l.
Proof.
  induction 1 as [|c l Hc _ IH]; [done|]. cbn [mbind list_bind].
  rewrite utf8_scalars_cons by done. by rewrite IH.
Qed.

(** Well-formed strings survive the round trip through UTF-8. *)
Lemma utf8_decode_encode s : well_formed s -> utf8_decode (utf8_encode s) = Some s.
Proof.
  intros (l & Hl & ->). unfold utf8_encode, utf8_decode.
  rewrite scalars_of_wf by done. by rewrite utf8_scalars_encode.
Qed.

Lemma in_range_spec lo hi b : in_range lo hi b = true <-> lo <= b <= hi.
Proof. unfold in_range. lia. Qed.

(** The decoder accepts exactly the shortest encodings of scalar values. *)
Lemma utf8_scalars_sound b l :
  utf8_scalars b = Some l -> Forall (fun c => is_scalar c = true) l /\ l ≫= utf8_of = b.
Proof.
  revert l. induction b as [b IH] using (induction_ltof1 _ length). unfold ltof in IH. intros l.
  assert (forall c r l', utf8_scalars r = Some l' -> (length r < length b)%nat ->
    is_scalar c = true -> utf8_of c ++ r = b ->
    Forall (fun c => is_scalar c = true) (c :: l') /\ (c :: l') ≫= utf8_of = b) as G.
  { intros c r l' Hr Hlen Hc Hb. destruct (IH r Hlen l' Hr) as [HF Hl'].
    split; [by constructor|]. by rewrite bind_cons, Hl'. }
  destruct b as [|b0 r0]; cbn [utf8_scalars].
  { intros [= <-]. split; [constructor|done]. }
  destruct (in_range 0 0x7f b0) eqn:E0.
  { intros (l' & Hr & ->)%fmap_Some. apply in_range_spec in E0. apply (G b0 r0); [done|cbn; lia|..].
    - unfold is_scalar. lia.
    - unfold utf8_of. by replace (b0 <? 0x80) with true by lia. }
  destruct (in_range 0xc2 0xdf b0) eqn:E1.
  { destruct r0 as [|b1 r1]; [done|]. destruct (in_range 0x80 0xbf b1) eqn:E2; [|done].
    intros (l' & Hr & ->)%fmap_Some. apply in_range_spec in E1, E2.
    apply (G _ r1); [done|cbn; lia|..].
    - unfold is_scalar. lia.
    - unfold utf8_of. set (c := (b0 - 0xc0) * 0x40 + (b1 - 0x80)).
      replace (c <? 0x80) with false by lia. replace (c <? 0x800) with true by lia.
      cbn. repeat f_equal; lia. }
  destruct (in_range 0xe0 0xef b0) eqn:E2.
  { destruct r0 as [|b1 [|b2 r2]]; [done..|]. destruct (_ && _) eqn:E3; [|done].
    apply andb_true_iff in E3 as [E3 E4].
    intros (l' & Hr & ->)%fmap_Some. apply in_range_spec in E2, E3, E4.
    destruct (Z.eqb_spec b0 0xe0), (Z.eqb_spec b0 0xed); try lia;
      (apply (G _ r2); [done|cbn; lia|unfold is_scalar; lia|]);
      unfold utf8_of; set (c := (b0 - 0xe0) * 0x1000 + (b1 - 0x80) * 0x40 + (b2 - 0x80));
      replace (c <? 0x80) with false by lia; replace (c <? 0x800) with false by lia;
      replace (c <? 0x10000) with true by lia; cbn; repeat f_equal; lia. }
  destruct (in_range 0xf0 0xf4 b0) eqn:E3; [|done].
  destruct r0 as [|b1 [|b2 [|b3 r3]]]; [done..|]. destruct (_ && _) eqn:E4; [|done].
  apply andb_true_iff in E4 as [E4 E6]. apply andb_true_iff in E4 as [E4 E5].
  intros (l' & Hr & ->)%fmap_Some. apply in_range_spec in E3, E4, E5, E6.
  destruct (Z.eqb_spec b0 0xf0), (Z.eqb_spec b0 0xf4); try lia;
    (apply (G _ r3); [done|cbn; lia|unfold is_scalar; lia|]);
    unfold utf8_of;
    set (c := (b0 - 0xf0) * 0x40000 + (b1 - 0x80) * 0x1000 + (b2 - 0x80) * 0x40 + (b3 - 0x80));
    replace (c <? 0x80) with false by lia; replace (c <? 0x800) with false by lia;
    replace (c <? 0x10000) with false by lia; cbn; repeat f_equal; lia.
Qed.

(** What the fatal decoder accepts is the encoding of the string it returns. *)
Lemma utf8_encode_decode b s : utf8_decode b = Some s -> utf8_encode s = b /\ well_formed s.
Proof.
  unfold utf8_decode. intros (l & Hl & ->)%fmap_Some.
  apply utf8_scalars_sound in Hl as [HF Hb]. split.
  - unfold utf8_encode. by rewrite scalars_of_wf.
  - by exists l.
Qed.

Lemma utf8_of_bytes c : is_scalar c = true -> bytes_ok (utf8_of c).
Proof.
  rewrite is_scalar_spec. intros [Hc _]. unfold utf8_of.
  repeat match goal with |- context [Z.ltb ?a ?b] => destruct (Z.ltb_spec a b) end;
    repeat constructor; lia.
Qed.

Lemma utf8_decodable_bytes b s : utf8_decode b = Some s -> bytes_ok b.
Proof.
  unfold utf8_decode. intros (l & [HF <-]%utf8_scalars_sound & _)%fmap_Some.
  induction HF as [|c l Hc _ IH]; [constructor|]. cbn. apply Forall_app. split; [by apply utf8_of_bytes|done].
Qed.
