(* ===== verification/CborValue.v ===== *)
(** * CBOR: options, values and the wire format

Shared by the encoder and the decoder (packages/protocol/src/cbor): the
limits of options.ts, the JavaScript values an encoder can be handed (a heap
of objects, so that sharing and cycles exist), the trees a decoder builds,
and the RFC 8949 byte format both sides agree on ([enc]), which is the
abstract specification of this component. *)
From S2P Require Import Prelude JsNumber JsObject Utf8.
From Stdlib Require Import SpecFloat.
#[local] Open Scope Z_scope.

(** ** options.ts *)

Definition UINT32_BASE : Z := 2 ^ 32.
Definition MAX_UINT32 : Z := 2 ^ 32 - 1.
Definition MAX_CONFIGURED_DEPTH : Z := 512.
Definition DEFAULT_MAX_CBOR_BYTE_LENGTH : Z := 16 * 1024 * 1024.
Definition DEFAULT_MAX_CBOR_CONTAINER_LENGTH : Z := 1000000.
Definition DEFAULT_MAX_CBOR_DEPTH : Z := 64.

(** What the component throws, one constructor per message. *)
Inductive CborError :=
| RangeError_limit (name : jstring)
| ByteLengthExceeded
| DepthExceeded
| TextLengthExceeded
| ByteStringLengthExceeded
| ArrayLengthExceeded
| MapLengthExceeded
| NotFinite
| UnsafeInteger
| InvalidUnicode
| HolesOrUndefined
| Cycle
| SymbolKey
| UnsupportedType
| TrailingData
| Truncated
| InvalidUtf8
| IndefiniteLength
| MalformedAdditionalInformation
| KeyNotString
| DuplicateKey
| TagsUnsupported
| MalformedMajorType
| BreakUnsupported
| UnsupportedSimple.

Record CborOptions := {
  opt_maxByteLength : option num;
  opt_maxContainerLength : option num;
  opt_maxDepth : option num;
}.

Record ResolvedCborOptions := {
  maxByteLength : Z;
  maxContainerLength : Z;
  maxDepth : Z;
}.

Definition resolveLimit (name : jstring) (value : num) (maximum : Z) : result CborError Z :=
  if negb (is_safe_integer value) || (to_Z value <? 0) || (maximum <? to_Z value)
  then Err (RangeError_limit name)
  else Ok (to_Z value).

Definition resolveOptions (options : option CborOptions) : result CborError ResolvedCborOptions :=
  let field (f : CborOptions -> option num) (d : Z) : num :=
    default (of_Z d) (options ≫= f) in
  resolveLimit $"maxByteLength" (field opt_maxByteLength DEFAULT_MAX_CBOR_BYTE_LENGTH) MAX_UINT32 ≫= fun b =>
  resolveLimit $"maxContainerLength" (field opt_maxContainerLength DEFAULT_MAX_CBOR_CONTAINER_LENGTH) MAX_UINT32 ≫= fun c =>
  resolveLimit $"maxDepth" (field opt_maxDepth DEFAULT_MAX_CBOR_DEPTH) MAX_CONFIGURED_DEPTH ≫= fun d =>
  Ok {| maxByteLength := b; maxContainerLength := c; maxDepth := d |}.

(** ** JavaScript values *)

Inductive jsval :=
| VUndefined
| VNull
| VBool (b : bool)
| VNum (n : num)
| VStr (s : jstring)
| VRef (l : positive)
| VOther.   (* a function, a symbol or a bigint *)

#[export] Instance jsval_eq_dec : EqDecision jsval.
Proof. solve_decision. Defined.

(** Objects: a [Uint8Array]; an array, [None] being a hole; any other object
    with its own enumerable data properties in [Object.keys] order, whether its
    prototype is [Object.prototype] or [null], and whether it has an enumerable
    symbol-keyed property. *)
Inductive hobj :=
| HBytes (data : bytes)
| HArray (elements : list (option jsval))
| HObject (plain : bool) (symbol : bool) (props : list (jstring * jsval)).

Notation heap := (gmap positive hobj).

(** ** Trees *)

Inductive cbor :=
| CNull
| CBool (b : bool)
| CNum (n : num)
| CBytes (data : bytes)
| CText (s : jstring)
| CArray (items : list cbor)
| CMap (entries : list (jstring * cbor)).

Section cbor_ind.
Variable P : cbor -> Prop.
Hypothesis P_null : P CNull.
Hypothesis P_bool : forall b, P (CBool b).
Hypothesis P_num : forall n, P (CNum n).
Hypothesis P_bytes : forall d, P (CBytes d).
Hypothesis P_text : forall s, P (CText s).
Hypothesis P_array : forall ts, Forall P ts -> P (CArray ts).
Hypothesis P_map : forall es, Forall (fun e => P e.2) es -> P (CMap es).

Fixpoint cbor_ind' (t : cbor) : P t :=
  match t with
  | CNull => P_null
  | CBool b => P_bool b
  | CNum n => P_num n
  | CBytes d => P_bytes d
  | CText s => P_text s
  | CArray ts => P_array ts ((fix go l : Forall P l :=
      match l with [] => @List.Forall_nil _ _ | x :: l' => @List.Forall_cons _ _ _ _ (cbor_ind' x) (go l') end) ts)
  | CMap es => P_map es ((fix go l : Forall (fun e => P e.2) l :=
      match l with [] => @List.Forall_nil _ _ | x :: l' => @List.Forall_cons _ _ _ _ (cbor_ind' x.2) (go l') end) es)
  end.
End cbor_ind.

(** The number of nodes, used to compare a tree with its parts. *)
Fixpoint cbor_size (t : cbor) : nat :=
  match t with
  | CArray ts => S (sum_list (cbor_size <$> ts))
  | CMap es => S (sum_list ((fun e => cbor_size e.2) <$> es))
  | _ => 1
  end.

(** The tree a value stands for in a heap: [undefined] properties are left
    out, everything the format cannot carry has none.  [None] is also the
    answer of an exhausted fuel, so a cyclic value has no tree at any fuel. *)
Fixpoint tree_of (fuel : nat) (h : heap) (v : jsval) : option cbor :=
  match fuel with
  | O => None
  | S n =>
      match v with
      | VNull => Some CNull
      | VBool b => Some (CBool b)
      | VNum f => if is_finite f then Some (CNum f) else None
      | VStr s => Some (CText s)
      | VRef l =>
          match h !! l with
          | Some (HBytes d) => Some (CBytes d)
          | Some (HArray es) =>
              CArray <$> mapM (fun e => match e with
                                        | None | Some VUndefined => None
                                        | Some v' => tree_of n h v'
                                        end) es
          | Some (HObject true false ps) =>
              CMap <$> mapM (fun p => (fun t => (p.1, t)) <$> tree_of n h p.2)
                            (filter (fun p => p.2 <> VUndefined) ps)
          | _ => None
          end
      | _ => None
      end
  end.

(** ** The wire format *)

(** Head of an item: major type and argument in the shortest form. *)
Definition head_bytes (majorType arg : Z) : bytes :=
  if arg <? 24 then [majorType * 32 + arg]
  else if arg <=? 0xff then [majorType * 32 + 24; arg]
  else if arg <=? 0xffff then (majorType * 32 + 25) :: be_bytes 2 arg
  else if arg <=? MAX_UINT32 then (majorType * 32 + 26) :: be_bytes 4 arg
  else (majorType * 32 + 27) :: be_bytes 8 arg.

Definition num_bytes (f : num) : bytes :=
  if is_integer f && negb (is_neg_zero f) then
    if 0 <=? to_Z f then head_bytes 0 (to_Z f) else head_bytes 1 (-1 - to_Z f)
  else 0xfb :: be_bytes 8 (bits64 f).

Definition text_bytes (s : jstring) : bytes :=
  head_bytes 3 (blen (utf8_encode s)) ++ utf8_encode s.

Fixpoint enc (t : cbor) : bytes :=
  match t with
  | CNull => [0xf6]
  | CBool b => [if b then 0xf5 else 0xf4]
  | CNum f => num_bytes f
  | CBytes d => head_bytes 2 (blen d) ++ d
  | CText s => text_bytes s
  | CArray ts => head_bytes 4 (blen ts) ++ (ts ≫= enc)
  | CMap es => head_bytes 5 (blen es) ++ (es ≫= fun e => text_bytes e.1 ++ enc e.2)
  end.

(** [fits o depth t]: the tree respects every limit of [o] when it sits at
    nesting depth [depth], its integers are safe, its texts well formed. *)
Definition num_fits (f : num) : Prop :=
  num_valid f /\ is_finite f = true /\
  (is_integer f = true -> is_neg_zero f = false -> is_safe_integer f = true).

Definition text_fits (o : ResolvedCborOptions) (s : jstring) : Prop :=
  utf8_decode (utf8_encode s) = Some s /\ blen (utf8_encode s) <= maxByteLength o.

Fixpoint fits (o : ResolvedCborOptions) (depth : Z) (t : cbor) : Prop :=
  depth <= maxDepth o /\
  match t with
  | CNull | CBool _ => True
  | CNum f => num_fits f
  | CBytes d => blen d <= maxByteLength o
  | CText s => text_fits o s
  | CArray ts =>
      blen ts <= maxContainerLength o /\ foldr (fun t' P => fits o (depth + 1) t' /\ P) True ts
  | CMap es =>
      blen es <= maxContainerLength o /\ obj_ok es /\
      foldr (fun e P => (text_fits o e.1 /\ fits o (depth + 1) e.2) /\ P) True es
  end.

(** The limits of a resolved option record. *)
Definition options_ok (o : ResolvedCborOptions) : Prop :=
  0 <= maxByteLength o <= MAX_UINT32 /\ 0 <= maxContainerLength o <= MAX_UINT32 /\
  0 <= maxDepth o <= MAX_CONFIGURED_DEPTH.

(** A heap the language can produce: keys of an object are distinct and in
    property order, numbers are binary64 values. *)
Definition val_ok (v : jsval) : Prop := match v with VNum f => num_valid f | _ => True end.

Definition hobj_ok (x : hobj) : Prop :=
  match x with
  | HBytes _ => True
  | HArray es => Forall (fun e => match e with Some v => val_ok v | None => True end) es
  | HObject _ _ ps => obj_ok ps /\ Forall (fun p => val_ok p.2) ps
  end.

Definition heap_ok (h : heap) : Prop := map_Forall (fun _ x => hobj_ok x) h.

(** ** Facts *)

Lemma foldr_and_Forall {A} (P : A -> Prop) l :
  foldr (fun x Q => P x /\ Q) True l <-> Forall P l.
Proof.
  induction l as [|x l IH]; cbn; [by split; [constructor|]|].
  rewrite Forall_cons, IH. done.
Qed.

Lemma fits_depth o d t : fits o d t -> d <= maxDepth o.
Proof. by destruct t; intros [? _]. Qed.

Lemma resolveLimit_range name value maximum z :
  resolveLimit name value maximum = Ok z -> 0 <= z <= maximum.
Proof. unfold resolveLimit. destruct (_ || _) eqn:E; [done|]. intros [= <-]. lia. Qed.

Lemma resolveOptions_ok options o : resolveOptions options = Ok o -> options_ok o.
Proof.
  unfold resolveOptions. intros H. inv_ok.
  repeat match goal with H : resolveLimit _ _ _ = Ok _ |- _ => apply resolveLimit_range in H end.
  by unfold options_ok.
Qed.

(** Absent options resolve to the documented defaults. *)
Lemma resolveOptions_default :
  resolveOptions None =
    Ok {| maxByteLength := DEFAULT_MAX_CBOR_BYTE_LENGTH;
          maxContainerLength := DEFAULT_MAX_CBOR_CONTAINER_LENGTH;
          maxDepth := DEFAULT_MAX_CBOR_DEPTH |}.
Proof. vm_compute. reflexivity. Qed.

(** A larger fuel does not change a tree already found. *)
Lemma tree_of_mono n m h v t : (n <= m)%nat -> tree_of n h v = Some t -> tree_of m h v = Some t.
Proof.
  revert m v t. induction n as [|n IH]; intros [|m] v t Hnm; try done; [lia|].
  assert (forall v t, tree_of n h v = Some t -> tree_of m h v = Some t) as IH'
    by (intros; eapply IH; [lia|done]). clear IH.
  destruct v as [| | | | |l|]; try done. cbn.
  destruct (h !! l) as [[d|es|[] [] ps]|]; try done.
  - rewrite !fmap_Some. intros (ts & Hts & ->). exists ts. split; [|done].
    apply mapM_Some in Hts. apply mapM_Some.
    eapply Forall2_impl; [done|]. intros [[]|] t'; try done; apply IH'.
  - rewrite !fmap_Some. intros (ts & Hts & ->). exists ts. split; [|done].
    apply mapM_Some in Hts. apply mapM_Some.
    eapply Forall2_impl; [done|]. intros [k v'] t'. cbn. rewrite !fmap_Some.
    intros (t'' & ? & ->). eauto.
Qed.

Lemma tree_of_det n m h v t t' : tree_of n h v = Some t -> tree_of m h v = Some t' -> t = t'.
Proof.
  intros H H'. destruct (Nat.le_ge_cases n m) as [Hnm|Hnm].
  - eapply tree_of_mono in H; [|done]. congruence.
  - eapply tree_of_mono in H'; [|done]. congruence.
Qed.
