(* ===== verification/CborEncoder.v ===== *)
(** * CBOR encoder (packages/protocol/src/cbor/encoder.ts)

[CborWriter] is the growable output buffer; its abstraction is the byte
sequence [finish] returns, and each of its operations appends to it ([emits]).
[encodeValue] walks a value of the heap.  The two main results are that a
successful encoding is the wire format of the value's tree
([encodeCbor_sound]) and that every value with a tree within the limits is
encoded ([encodeCbor_complete]). *)
From S2P Require Import Prelude JsNumber JsObject Utf8 CborValue.
From Stdlib Require Import SpecFloat.
#[local] Open Scope Z_scope.

(** ** CborWriter *)

Record CborWriter := {
  buffer : bytes;
  offset : Z;
  writer_max : Z;
}.

Definition new_writer (maxBytes : Z) : CborWriter :=
  {| buffer := replicate (Z.to_nat (Z.min 256 maxBytes)) 0; offset := 0; writer_max := maxBytes |}.

(** [while (capacity < required) capacity = min(max, max(required, capacity * 2))] *)
Fixpoint grow (fuel : nat) (capacity required maxBytes : Z) : Z :=
  match fuel with
  | O => capacity
  | S n =>
      if capacity <? required
      then grow n (Z.min maxBytes (Z.max required (capacity * 2))) required maxBytes
      else capacity
  end.

Definition ensureCapacity (w : CborWriter) (additionalBytes : Z) : result CborError CborWriter :=
  let required := offset w + additionalBytes in
  if writer_max w <? required then Err ByteLengthExceeded
  else if required <=? blen (buffer w) then Ok w
  else
    let capacity := grow 2 (Z.max 1 (blen (buffer w))) required (writer_max w) in
    let expanded := replicate (Z.to_nat capacity) 0 in
    Ok {| buffer := u8_copy expanded (buffer w) 0; offset := offset w; writer_max := writer_max w |}.

Definition advance (w : CborWriter) (b : bytes) (n : Z) : CborWriter :=
  {| buffer := b; offset := offset w + n; writer_max := writer_max w |}.

Definition writeByte (value : Z) (w : CborWriter) : result CborError CborWriter :=
  ensureCapacity w 1 ≫= fun w =>
  Ok (advance w (u8_set (buffer w) (offset w) value) 1).

Definition writeBytes (data : bytes) (w : CborWriter) : result CborError CborWriter :=
  ensureCapacity w (blen data) ≫= fun w =>
  Ok (advance w (u8_copy (buffer w) data (offset w)) (blen data)).

Definition writeUint16 (value : Z) (w : CborWriter) : result CborError CborWriter :=
  ensureCapacity w 2 ≫= fun w =>
  let b := u8_set (buffer w) (offset w) (ushr value 8) in
  let b := u8_set b (offset w + 1) value in
  Ok (advance w b 2).

Definition writeUint32 (value : Z) (w : CborWriter) : result CborError CborWriter :=
  ensureCapacity w 4 ≫= fun w =>
  let b := u8_set (buffer w) (offset w) (ushr value 24) in
  let b := u8_set b (offset w + 1) (ushr value 16) in
  let b := u8_set b (offset w + 2) (ushr value 8) in
  let b := u8_set b (offset w + 3) value in
  Ok (advance w b 4).

Definition writeUint64 (value : Z) (w : CborWriter) : result CborError CborWriter :=
  let high := value / UINT32_BASE in
  let low := value - high * UINT32_BASE in
  writeUint32 high w ≫= writeUint32 low.

Definition writeFloat64 (value : num) (w : CborWriter) : result CborError CborWriter :=
  ensureCapacity w 9 ≫= fun w =>
  let b := u8_set (buffer w) (offset w) 0xfb in
  Ok (advance w (u8_copy b (be_bytes 8 (bits64 value)) (offset w + 1)) 9).

Definition finish (w : CborWriter) : bytes := slice (buffer w) 0 (offset w).

(** ** Encoding *)

Definition writeArgument (majorType value : Z) (w : CborWriter) : result CborError CborWriter :=
  let prefix := Z.shiftl majorType 5 in
  if value <? 24 then writeByte (Z.lor prefix value) w
  else if value <=? 0xff then writeByte (Z.lor prefix 24) w ≫= writeByte value
  else if value <=? 0xffff then writeByte (Z.lor prefix 25) w ≫= writeUint16 value
  else if value <=? MAX_UINT32 then writeByte (Z.lor prefix 26) w ≫= writeUint32 value
  else writeByte (Z.lor prefix 27) w ≫= writeUint64 value.

Definition encodeText (value : jstring) (options : ResolvedCborOptions) (w : CborWriter) : result CborError CborWriter :=
  let data := utf8_encode value in
  if maxByteLength options <? blen data then Err TextLengthExceeded
  else if bool_decide (utf8_decode data = Some value)
  then writeArgument 3 (blen data) w ≫= writeBytes data
  else Err InvalidUnicode.

Definition encodeNumber (value : num) (w : CborWriter) : result CborError CborWriter :=
  if negb (is_finite value) then Err NotFinite
  else if is_integer value && negb (is_neg_zero value) then
    if negb (is_safe_integer value) then Err UnsafeInteger
    else if 0 <=? to_Z value then writeArgument 0 (to_Z value) w
    else writeArgument 1 (-1 - to_Z value) w
  else writeFloat64 value w.

(** [encodeValue]; [ancestors] holds the containers being encoded (each call
    removes what it added, so it is passed down).  The nesting check bounds the
    recursion: with [fuel = maxDepth + 1 - depth] the fuel runs out exactly
    where the check fails, and it fails with the same error. *)
Fixpoint encodeValue (fuel : nat) (h : heap) (value : jsval) (options : ResolvedCborOptions)
    (depth : Z) (ancestors : gset positive) (w : CborWriter) : result CborError CborWriter :=
  match fuel with
  | O => Err DepthExceeded
  | S n =>
      if maxDepth options <? depth then Err DepthExceeded else
      match value with
      | VNull => writeByte 0xf6 w
      | VBool b => writeByte (if b then 0xf5 else 0xf4) w
      | VNum f => encodeNumber f w
      | VStr s => encodeText s options w
      | VRef l =>
          match h !! l with
          | Some (HBytes data) =>
              if maxByteLength options <? blen data then Err ByteStringLengthExceeded
              else writeArgument 2 (blen data) w ≫= writeBytes data
          | Some (HArray elements) =>
              if bool_decide (l ∈ ancestors) then Err Cycle
              else if maxContainerLength options <? blen elements then Err ArrayLengthExceeded
              else
                writeArgument 4 (blen elements) w ≫= fun w =>
                foldM (fun w e =>
                  match e with
                  | None | Some VUndefined => Err HolesOrUndefined
                  | Some v => encodeValue n h v options (depth + 1) ({[l]} ∪ ancestors) w
                  end) w elements
          | Some (HObject true symbol props) =>
              if bool_decide (l ∈ ancestors) then Err Cycle
              else if symbol then Err SymbolKey
              else
                let entries := filter (fun p => p.2 <> VUndefined) props in
                if maxContainerLength options <? blen entries then Err MapLengthExceeded
                else
                  writeArgument 5 (blen entries) w ≫= fun w =>
                  foldM (fun w '(key, entryValue) =>
                    encodeText key options w ≫=
                    encodeValue n h entryValue options (depth + 1) ({[l]} ∪ ancestors)) w entries
          | _ => Err UnsupportedType
          end
      | VUndefined | VOther => Err UnsupportedType
      end
  end.

Definition encode_fuel (o : ResolvedCborOptions) (depth : Z) : nat := Z.to_nat (maxDepth o + 1 - depth).

Definition encodeCbor (h : heap) (value : jsval) (options : option CborOptions) : result CborError bytes :=
  resolveOptions options ≫= fun resolved =>
  encodeValue (encode_fuel resolved 0) h value resolved 0 ∅ (new_writer (maxByteLength resolved)) ≫= fun w =>
  Ok (finish w).

(** ** The writer appends *)

Definition writer_ok (w : CborWriter) : Prop :=
  0 <= offset w <= blen (buffer w) /\ offset w <= writer_max w.

(** [w'] is [w] with [bs] appended. *)
Definition appended (w w' : CborWriter) (bs : bytes) : Prop :=
  writer_ok w' /\ finish w' = finish w ++ bs /\ writer_max w' = writer_max w /\
  offset w' = offset w + blen bs.

(** [m] writes exactly [bs], or fails because they do not fit. *)
Definition emits (m : CborWriter -> result CborError CborWriter) (bs : bytes) : Prop :=
  forall w, writer_ok w ->
    if offset w + blen bs <=? writer_max w
    then exists w', m w = Ok w' /\ appended w w' bs
    else m w = Err ByteLengthExceeded.

Lemma appended_trans w1 w2 w3 b1 b2 :
  appended w1 w2 b1 -> appended w2 w3 b2 -> appended w1 w3 (b1 ++ b2).
Proof.
  intros (_ & F1 & M1 & O1) (H2 & F2 & M2 & O2). unfold appended.
  rewrite F2, F1, M2, M1, O2, O1, blen_app, <- app_assoc. split_and!; [done..|lia].
Qed.

Lemma emits_ext m m' bs : (forall w, m w = m' w) -> emits m bs -> emits m' bs.
Proof. intros He Hm w Hw. specialize (Hm w Hw). by rewrite He in Hm. Qed.

Lemma emits_bind m1 m2 b1 b2 :
  emits m1 b1 -> emits m2 b2 -> emits (fun w => m1 w ≫= m2) (b1 ++ b2).
Proof.
  intros H1 H2 w Hw. specialize (H1 w Hw). rewrite blen_app. pose proof (blen_nonneg b2).
  destruct (Z.leb_spec (offset w + blen b1) (writer_max w)) as [Hl|Hl].
  - destruct H1 as (w1 & -> & A1). cbn. pose proof A1 as (Hw1 & _ & M1 & O1).
    specialize (H2 w1 Hw1). rewrite M1, O1, <- Z.add_assoc in H2.
    destruct (_ <=? _); [|done].
    destruct H2 as (w2 & -> & A2). eauto using appended_trans.
  - rewrite H1. destruct (Z.leb_spec (offset w + (blen b1 + blen b2)) (writer_max w)); [lia|done].
Qed.

Lemma emits_Ok m bs w w' : emits m bs -> writer_ok w -> m w = Ok w' -> appended w w' bs.
Proof.
  intros Hm Hw Hr. specialize (Hm w Hw). rewrite Hr in Hm.
  destruct (_ <=? _); [|done]. by destruct Hm as (? & [= <-] & ?).
Qed.

Lemma emits_run m bs w :
  emits m bs -> writer_ok w -> offset w + blen bs <= writer_max w -> exists w', m w = Ok w'.
Proof.
  intros Hm Hw Hl. specialize (Hm w Hw). apply Z.leb_le in Hl. rewrite Hl in Hm.
  destruct Hm as (w' & ? & _). eauto.
Qed.

Lemma new_writer_ok m : 0 <= m -> writer_ok (new_writer m).
Proof. intros. unfold writer_ok, new_writer, blen. cbn. lia. Qed.

Lemma finish_new m : finish (new_writer m) = [].
Proof. done. Qed.

Lemma blen_finish w : writer_ok w -> blen (finish w) = offset w.
Proof. intros [H _]. unfold finish. pose proof (blen_slice (buffer w) 0 (offset w)). rewrite Z.add_0_l in *. lia. Qed.

(** The loop runs at most once, because [required <= maxByteLength] here. *)
Lemma grow_spec fuel capacity required maxBytes :
  (1 <= fuel)%nat -> required <= maxBytes ->
  grow fuel capacity required maxBytes =
    if capacity <? required then Z.min maxBytes (Z.max required (capacity * 2)) else capacity.
Proof.
  intros Hf Hr. destruct fuel as [|n]; [lia|]. cbn.
  destruct (Z.ltb_spec capacity required); [|done].
  destruct n as [|n]; [done|]. cbn.
  destruct (Z.ltb_spec (Z.min maxBytes (Z.max required (capacity * 2))) required); [lia|done].
Qed.

Lemma ensureCapacity_spec w n :
  writer_ok w -> 0 <= n ->
  if offset w + n <=? writer_max w
  then exists w', ensureCapacity w n = Ok w' /\ offset w' = offset w /\ writer_max w' = writer_max w /\
    offset w + n <= blen (buffer w') /\ finish w' = finish w
  else ensureCapacity w n = Err ByteLengthExceeded.
Proof.
  intros [Ho Hm] Hn. unfold ensureCapacity.
  destruct (Z.leb_spec (offset w + n) (writer_max w)) as [Hl|Hl], (Z.ltb_spec (writer_max w) (offset w + n));
    try lia; [|done].
  destruct (Z.leb_spec (offset w + n) (blen (buffer w))); [by exists w|].
  rewrite grow_spec by lia.
  assert (Z.max 1 (blen (buffer w)) < offset w + n \/ offset w + n <= Z.max 1 (blen (buffer w))) as Hc by lia.
  set (cap := if _ <? _ then _ else _).
  assert (offset w + n <= cap /\ blen (buffer w) <= cap) as [Hcap1 Hcap2].
  { subst cap. destruct (Z.ltb_spec (Z.max 1 (blen (buffer w))) (offset w + n)); lia. }
  eexists. split; [done|]. cbn. split_and!; try done.
  - unfold u8_copy. rewrite take_0, app_nil_l, blen_app.
    unfold blen in *. rewrite length_drop, length_replicate. lia.
  - unfold finish, slice, u8_copy. cbn [buffer offset]. rewrite !drop_0, take_0, app_nil_l.
    rewrite take_app_le; [done|]. unfold blen in *. lia.
Qed.

(** Stores into a buffer with room are copies of a byte sequence. *)
Lemma u8_set_copy b i v : 0 <= i < blen b -> u8_set b i v = u8_copy b [v mod 256] i.
Proof.
  intros Hi. unfold u8_set, u8_copy, blen in *.
  destruct (Z.ltb_spec i 0); [lia|]. rewrite insert_take_drop by lia.
  cbn. by rewrite Nat.add_1_r.
Qed.

Lemma u8_set_app_copy b bs i j v :
  0 <= i -> j = i + blen bs -> j < blen b ->
  u8_set (u8_copy b bs i) j v = u8_copy b (bs ++ [v mod 256]) i.
Proof.
  intros Hi -> Hb. unfold u8_set, u8_copy, blen in *.
  destruct (Z.ltb_spec (i + Z.of_nat (length bs)) 0); [lia|].
  assert (length (take (Z.to_nat i) b) = Z.to_nat i) as Hl by (rewrite length_take; lia).
  rewrite insert_app_r_alt by lia. rewrite Hl, insert_app_r_alt by lia.
  rewrite <- !app_assoc. do 2 f_equal.
  replace (Z.to_nat (i + Z.of_nat (length bs)) - Z.to_nat i - length bs)%nat with 0%nat by lia.
  rewrite length_app, Nat.add_assoc. cbn [length].
  rewrite <- (drop_drop b 1).
  destruct (drop (Z.to_nat i + length bs) b) as [|x l] eqn:E; [|done].
  apply (f_equal length) in E. rewrite length_drop in E. cbn in E. lia.
Qed.

Lemma u8_copy_copy b bs cs i :
  0 <= i -> i + blen bs + blen cs <= blen b ->
  u8_copy (u8_copy b bs i) cs (i + blen bs) = u8_copy b (bs ++ cs) i.
Proof.
  intros Hi Hb. unfold u8_copy, blen in *.
  rewrite (app_assoc (take (Z.to_nat i) b) bs (drop _ b)).
  set (p := take (Z.to_nat i) b ++ bs).
  assert (Z.to_nat (i + Z.of_nat (length bs)) = length p) as ->
    by (subst p; rewrite length_app, length_take; lia).
  rewrite take_app_length, drop_app_add, drop_drop, length_app. subst p.
  rewrite <- !app_assoc. by rewrite Nat.add_assoc.
Qed.

Lemma finish_copy w b bs :
  0 <= offset w -> offset w + blen bs <= blen b -> slice b 0 (offset w) = finish w ->
  finish (advance w (u8_copy b bs (offset w)) (blen bs)) = finish w ++ bs.
Proof.
  intros Ho Hl Hp. rewrite <- Hp. unfold finish, advance, slice, u8_copy, blen in *. cbn.
  rewrite !Z.sub_0_r, !drop_0.
  assert (length (take (Z.to_nat (offset w)) b ++ bs) = Z.to_nat (offset w + Z.of_nat (length bs))) as Hl2
    by (rewrite length_app, length_take; lia).
  rewrite app_assoc, <- Hl2. by rewrite take_app_length.
Qed.

Lemma blen_copy b bs i :
  0 <= i -> i + blen bs <= blen b -> blen (u8_copy b bs i) = blen b.
Proof.
  intros Hi Hl. unfold u8_copy, blen in *. rewrite !length_app, length_take, length_drop. lia.
Qed.

(** The shape of every primitive write. *)
Lemma emits_store (f : bytes -> Z -> bytes) n bs :
  blen bs = n ->
  (forall b i, 0 <= i -> i + n <= blen b -> f b i = u8_copy b bs i) ->
  emits (fun w => ensureCapacity w n ≫= fun w => Ok (advance w (f (buffer w) (offset w)) n)) bs.
Proof.
  intros <- Hf w Hw. pose proof (ensureCapacity_spec w (blen bs) Hw (blen_nonneg bs)) as Hc.
  destruct (Z.leb_spec (offset w + blen bs) (writer_max w)); [|by rewrite Hc].
  destruct Hc as (w1 & -> & Ho & Hm & Hb & Hfin). cbn. eexists. split; [done|].
  destruct Hw as [Hw ?]. pose proof (blen_nonneg bs).
  rewrite Hf by lia. unfold appended. split_and!.
  - unfold writer_ok, advance. cbn. rewrite blen_copy by lia. lia.
  - rewrite <- Hfin. apply finish_copy; [lia|lia|]. by unfold finish.
  - done.
  - cbn. lia.
Qed.

Lemma emits_writeByte v bs : bs = [v mod 256] -> emits (writeByte v) bs.
Proof.
  intros ->. apply (emits_store (fun b i => u8_set b i v)); [done|]. intros b i ? ?. apply u8_set_copy. lia.
Qed.

Lemma emits_writeBytes d : emits (writeBytes d) d.
Proof. apply (emits_store (fun b i => u8_copy b d i) (blen d)); intros; reflexivity. Qed.

Lemma ushr_byte v k : 0 <= k <= 24 -> 0 <= v < 2 ^ 32 -> (ushr v k) mod 256 = Z.shiftr v k mod 256.
Proof. intros _ Hv. unfold ushr. by rewrite (Z.mod_small v). Qed.

Lemma emits_writeUint16 v : 0 <= v < 2 ^ 16 -> emits (writeUint16 v) (be_bytes 2 v).
Proof.
  intros Hv. apply (emits_store (fun b i => u8_set (u8_set b i (ushr v 8)) (i + 1) v)); [done|].
  intros b i ? ?. rewrite (u8_set_copy b i) by lia.
  rewrite (u8_set_app_copy b [_] i) by blen_lia. cbn [app].
  cbn [be_bytes]. by rewrite ushr_byte by lia.
Qed.

Lemma emits_writeUint32 v : 0 <= v < 2 ^ 32 -> emits (writeUint32 v) (be_bytes 4 v).
Proof.
  intros Hv.
  apply (emits_store (fun b i =>
    u8_set (u8_set (u8_set (u8_set b i (ushr v 24)) (i + 1) (ushr v 16)) (i + 2) (ushr v 8)) (i + 3) v)); [done|].
  intros b i ? ?. rewrite (u8_set_copy b i) by lia.
  rewrite (u8_set_app_copy b [_] i) by blen_lia. cbn [app].
  rewrite (u8_set_app_copy b [_; _] i) by blen_lia. cbn [app].
  rewrite (u8_set_app_copy b [_; _; _] i) by blen_lia. cbn [app].
  cbn [be_bytes]. by rewrite !ushr_byte by lia.
Qed.

Lemma be_bytes_8 v : 0 <= v < 2 ^ 64 ->
  be_bytes 8 v = be_bytes 4 (v / UINT32_BASE) ++ be_bytes 4 (v mod UINT32_BASE).
Proof.
  intros Hv. unfold UINT32_BASE. cbn [be_bytes app].
  assert (forall k, 0 <= k -> Z.shiftr (v / 2 ^ 32) k = Z.shiftr v (32 + k)) as Hs.
  { intros k Hk. rewrite <- Z.shiftr_div_pow2, Z.shiftr_shiftr by lia. done. }
  assert (forall k, 0 <= k <= 24 -> Z.shiftr (v mod 2 ^ 32) k mod 256 = Z.shiftr v k mod 256) as Hl.
  { intros k Hk. change 256 with (2 ^ 8). rewrite <- !Z.land_ones, Z.shiftr_land by lia.
    rewrite <- Z.land_assoc. f_equal.
    apply Z.bits_inj'. intros n Hn. rewrite Z.land_spec, Z.shiftr_spec, !Z.testbit_ones_nonneg by lia. lia. }
  rewrite !Hs, !Hl by lia. done.
Qed.

Lemma emits_writeUint64 v : 0 <= v < 2 ^ 64 -> emits (writeUint64 v) (be_bytes 8 v).
Proof.
  intros Hv. rewrite be_bytes_8 by done. unfold writeUint64, UINT32_BASE in *.
  replace (v - v / 2 ^ 32 * 2 ^ 32) with (v mod 2 ^ 32)
    by (pose proof (Z_div_mod_eq_full v (2 ^ 32)); lia).
  apply (emits_bind (writeUint32 (v / 2 ^ 32))); apply emits_writeUint32.
  - split; [apply Z.div_pos; lia|apply Z.div_lt_upper_bound; lia].
  - apply Z.mod_pos_bound. lia.
Qed.

Lemma emits_writeFloat64 f : num_valid f -> emits (writeFloat64 f) (0xfb :: be_bytes 8 (bits64 f)).
Proof.
  intros Hf.
  apply (emits_store (fun b i => u8_copy (u8_set b i 0xfb) (be_bytes 8 (bits64 f)) (i + 1))).
  - by rewrite blen_cons, blen_be_bytes.
  - intros b i ? ?. rewrite (u8_set_copy b i) by lia.
    apply (u8_copy_copy b [0xfb]); [lia|]. blen_lia.
Qed.

(** ** The pieces of the wire format *)

Lemma prefix_lor m a : 0 <= m -> 0 <= a < 32 -> Z.lor (Z.shiftl m 5) a = m * 32 + a.
Proof.
  intros Hm Ha. rewrite Z.shiftl_mul_pow2 by lia.
  pose proof (Z.add_lor_land (m * 2 ^ 5) a). assert (Z.land (m * 2 ^ 5) a = 0); [|lia].
  apply Z.bits_inj'. intros n Hn. rewrite Z.land_spec, Z.bits_0.
  destruct (Z.lt_ge_cases n 5); [by rewrite Z.mul_pow2_bits_low|].
  rewrite (Z.bits_above_log2 a n), andb_false_r; [done|lia|].
  destruct (Z.eq_dec a 0) as [->|]; [cbn; lia|].
  apply Z.log2_lt_pow2; [lia|]. assert (2 ^ 5 <= 2 ^ n) by (apply Z.pow_le_mono_r; lia). lia.
Qed.

Lemma emits_writeArgument m v :
  0 <= m < 8 -> 0 <= v < 2 ^ 64 -> emits (writeArgument m v) (head_bytes m v).
Proof.
  intros Hm Hv. unfold writeArgument, head_bytes, MAX_UINT32.
  assert (forall a, 0 <= a < 32 -> emits (writeByte (Z.lor (Z.shiftl m 5) a)) [m * 32 + a]) as Hb.
  { intros a Ha. apply emits_writeByte. rewrite prefix_lor by lia. by rewrite Z.mod_small by lia. }
  destruct (Z.ltb_spec v 24); [apply Hb; lia|].
  destruct (Z.leb_spec v 0xff).
  { apply (emits_bind _ _ [_] [_]); [apply Hb; lia|].
    apply emits_writeByte. by rewrite Z.mod_small by lia. }
  destruct (Z.leb_spec v 0xffff).
  { apply (emits_bind _ _ [_]); [apply Hb; lia|apply emits_writeUint16; lia]. }
  destruct (Z.leb_spec v (2 ^ 32 - 1)).
  { apply (emits_bind _ _ [_]); [apply Hb; lia|apply emits_writeUint32; lia]. }
  apply (emits_bind _ _ [_]); [apply Hb; lia|apply emits_writeUint64; lia].
Qed.

Lemma blen_bound o d : options_ok o -> blen (A := Z) d <= maxByteLength o -> 0 <= blen d < 2 ^ 64.
Proof. intros (? & _) ?. unfold MAX_UINT32 in *. pose proof (blen_nonneg d). lia. Qed.

Lemma emits_text o s : options_ok o -> text_fits o s -> emits (encodeText s o) (text_bytes s).
Proof.
  intros Ho [Hd Hl]. unfold text_bytes.
  eapply emits_ext; [|apply (emits_bind (writeArgument 3 (blen (utf8_encode s))));
    [apply emits_writeArgument; [lia|by eapply blen_bound]|apply emits_writeBytes]].
  intros w. unfold encodeText. rewrite bool_decide_true by done.
  destruct (Z.ltb_spec (maxByteLength o) (blen (utf8_encode s))); [lia|done].
Qed.

Lemma encodeText_fits o s w w' : encodeText s o w = Ok w' -> text_fits o s.
Proof.
  unfold encodeText, text_fits. destruct (Z.ltb_spec (maxByteLength o) (blen (utf8_encode s))); [done|].
  case_bool_decide; [|done]. intros _. split; [done|lia].
Qed.

Lemma emits_number f : num_fits f -> emits (encodeNumber f) (num_bytes f).
Proof.
  intros (Hv & Hf & Hs). unfold encodeNumber, num_bytes. rewrite Hf. cbn [negb].
  destruct (is_integer f && negb (is_neg_zero f)) eqn:E; [|by apply emits_writeFloat64].
  apply andb_true_iff in E as [Hi Hz%negb_true_iff]. rewrite (Hs Hi Hz). cbn [negb].
  specialize (Hs Hi Hz). unfold is_safe_integer, MAX_SAFE_INTEGER in Hs.
  destruct (Z.leb_spec 0 (to_Z f)); apply emits_writeArgument; lia.
Qed.

Lemma encodeNumber_fits f w w' : num_valid f -> encodeNumber f w = Ok w' -> num_fits f.
Proof.
  unfold encodeNumber, num_fits. intros Hv. destruct (is_finite f); [|done]. cbn [negb].
  intros H. split_and!; [done..|]. intros Hi Hz. rewrite Hi, Hz in H. cbn [negb andb] in H.
  by destruct (is_safe_integer f).
Qed.

Lemma fits_array o d ts :
  fits o d (CArray ts) <->
  d <= maxDepth o /\ blen ts <= maxContainerLength o /\ Forall (fits o (d + 1)) ts.
Proof. cbn [fits]. by rewrite foldr_and_Forall. Qed.

Lemma fits_map o d es :
  fits o d (CMap es) <->
  d <= maxDepth o /\ blen es <= maxContainerLength o /\ obj_ok es /\
  Forall (fun e => text_fits o e.1 /\ fits o (d + 1) e.2) es.
Proof. cbn [fits]. by rewrite foldr_and_Forall. Qed.

Lemma container_bound {A} o (l : list A) :
  options_ok o -> blen l <= maxContainerLength o -> 0 <= blen l < 2 ^ 64.
Proof. intros (_ & ? & _) ?. unfold MAX_UINT32 in *. pose proof (blen_nonneg l). lia. Qed.

(** A loop whose body writes the tree of each element: reading the trees off a
    successful run, and running it when every tree fits. *)
Section Loops.
Context {A T : Type} (f : CborWriter -> A -> result CborError CborWriter) (encT : T -> bytes).

Lemma foldM_trees (g : A -> option T) (P : T -> Prop) l w w' :
  (forall x w w', x ∈ l -> writer_ok w -> f w x = Ok w' ->
     exists t, g x = Some t /\ P t /\ appended w w' (encT t)) ->
  writer_ok w -> foldM f w l = Ok w' ->
  exists ts, mapM g l = Some ts /\ Forall P ts /\ appended w w' (ts ≫= encT).
Proof.
  revert w. induction l as [|x l IH]; intros w Hf Hw; cbn.
  - intros [= <-]. exists []. unfold appended. rewrite app_nil_r.
    split_and!; [done|constructor|done..|]. change ([] ≫= encT) with (@nil Z). blen_lia.
  - intros (w1 & H1 & H2)%bind_Ok. apply Hf in H1 as (t & Ht & HP & Ha); [|left|done].
    apply IH in H2 as (ts & Hts & HPs & Has); [|intros; eapply Hf; [by right|done..]|apply Ha].
    exists (t :: ts). rewrite Ht. cbn. rewrite Hts. cbn.
    eauto using Forall_cons_2, appended_trans.
Qed.

Lemma foldM_run l ts w :
  Forall2 (fun x t => forall w, writer_ok w -> offset w + blen (encT t) <= writer_max w ->
     exists w', f w x = Ok w' /\ appended w w' (encT t)) l ts ->
  writer_ok w -> offset w + blen (ts ≫= encT) <= writer_max w -> exists w', foldM f w l = Ok w'.
Proof.
  intros HF. revert w. induction HF as [|x t l ts Hx _ IH]; intros w Hw Hl; cbn; [eauto|].
  rewrite bind_cons, blen_app in Hl. pose proof (blen_nonneg (ts ≫= encT)).
  destruct (Hx w) as (w1 & -> & Hw1 & _ & Hm & Ho); [done|lia|]. cbn.
  apply IH; [done|lia].
Qed.
End Loops.

Lemma mapM_keys {A B} (g : A -> option B) (l : list (jstring * A)) ts :
  mapM (fun p => (fun t => (p.1, t)) <$> g p.2) l = Some ts -> obj_keys ts = obj_keys l.
Proof.
  intros H%mapM_Some. induction H as [|[k v] [k' t] l ts H _ IH]; [done|].
  cbn in H. apply fmap_Some in H as (? & _ & [= -> ->]). unfold obj_keys in *. cbn. by f_equal.
Qed.

Lemma obj_ok_keys {A B} (o : list (jstring * A)) (o' : list (jstring * B)) :
  obj_keys o = obj_keys o' -> obj_ok o -> obj_ok o'.
Proof. unfold obj_ok. by intros <-. Qed.

Lemma obj_ok_filter {A} (P : jstring * A -> Prop) `{!forall x, Decision (P x)} o :
  obj_ok o -> obj_ok (filter P o).
Proof.
  unfold obj_ok, obj_keys. intros [Hnd Hs]. induction o as [|[k v] o IH]; [done|].
  rewrite fmap_cons in Hnd, Hs. cbn [fst] in *.
  apply NoDup_cons in Hnd as [Hk Hnd]. inversion Hs as [|? ? Hs' Hf]; subst.
  destruct (IH Hnd Hs') as [Hnd' Hs2].
  assert (forall x, x ∈ (filter P o).*1 -> x ∈ o.*1) as Hsub.
  { intros x (y & -> & [_ Hy]%list_elem_of_filter)%list_elem_of_fmap. by apply list_elem_of_fmap_2. }
  rewrite filter_cons. destruct (decide _); [|done]. rewrite fmap_cons. cbn [fst]. split.
  - apply NoDup_cons. split; [|done]. intros Hin. by apply Hk, Hsub.
  - constructor; [done|]. rewrite List.Forall_forall in Hf |- *.
    intros x Hx. apply Hf. apply list_elem_of_In. apply Hsub. by apply list_elem_of_In.
Qed.

(** ** Soundness: what is written is the wire format of the value's tree *)

Lemma encodeValue_sound fuel h v o d anc w w' :
  options_ok o -> heap_ok h -> val_ok v -> writer_ok w ->
  encodeValue fuel h v o d anc w = Ok w' ->
  exists t, tree_of fuel h v = Some t /\ fits o d t /\ appended w w' (enc t).
Proof.
  intros Ho Hh. revert v d anc w w'. induction fuel as [|n IH]; intros v d anc w w' Hv Hw; [done|].
  cbn [encodeValue tree_of]. destruct (Z.ltb_spec (maxDepth o) d) as [|Hd]; [done|].
  destruct v as [| |b|f|s|l|]; try done.
  - intros H. exists CNull. split_and!; [done..|].
    eapply emits_Ok; [|done|exact H]. by apply emits_writeByte.
  - intros H. exists (CBool b). split_and!; [done..|].
    eapply emits_Ok; [|done|exact H]. apply emits_writeByte. by destruct b.
  - intros H. pose proof (encodeNumber_fits f w w' Hv H) as Hf.
    exists (CNum f). pose proof Hf as (_ & -> & _). split_and!; [done..|].
    eapply emits_Ok; [|done|exact H]. by apply emits_number.
  - intros H. pose proof (encodeText_fits o s w w' H) as Hf. exists (CText s). split_and!; [done..|].
    eapply emits_Ok; [|done|exact H]. by apply emits_text.
  - destruct (h !! l) as [[data|es|[] [] ps]|] eqn:Hl; try done; try (by case_bool_decide).
    + destruct (Z.ltb_spec (maxByteLength o) (blen data)); [done|]. intros H0.
      exists (CBytes data). split_and!; [done|by cbn|].
      eapply (emits_Ok (fun w => writeArgument 2 (blen data) w ≫= writeBytes data)); [|done|exact H0].
      apply (emits_bind (writeArgument 2 (blen data)));
        [apply emits_writeArgument; [lia|by eapply blen_bound]|apply emits_writeBytes].
    + case_bool_decide; [done|]. destruct (Z.ltb_spec (maxContainerLength o) (blen es)) as [|Hlen]; [done|].
      intros (w1 & H1 & H2)%bind_Ok.
      eapply emits_Ok in H1; [|apply emits_writeArgument; [lia|by eapply container_bound]|done].
      eapply (foldM_trees _ enc (fun e => match e with None | Some VUndefined => None | Some v' => tree_of n h v' end)
        (fits o (d + 1))) in H2 as (ts & Hts & Hfs & Ha); [| |apply H1].
      * exists (CArray ts). rewrite Hts. split; [done|].
        apply length_mapM in Hts. assert (blen ts = blen es) as Hb by (unfold blen; congruence).
        split; [apply fits_array; rewrite Hb; done|]. cbn [enc]. rewrite Hb. eauto using appended_trans.
      * intros e w2 w3 He Hw2 H3. apply (map_Forall_lookup_1 _ _ _ _ Hh) in Hl. cbn in Hl.
        rewrite List.Forall_forall in Hl. apply list_elem_of_In, Hl in He.
        destruct e as [v|]; [|done]. by destruct v; first [discriminate H3|eapply IH in H3].
    + case_bool_decide; [done|].
      set (entries := filter _ ps).
      destruct (Z.ltb_spec (maxContainerLength o) (blen entries)) as [|Hlen]; [done|].
      intros (w1 & H1 & H2)%bind_Ok.
      eapply emits_Ok in H1; [|apply emits_writeArgument; [lia|by eapply container_bound]|done].
      apply (map_Forall_lookup_1 _ _ _ _ Hh) in Hl. cbn in Hl. destruct Hl as [Hok Hvals].
      eapply (foldM_trees _ (fun e => text_bytes e.1 ++ enc e.2)
        (fun p => (fun t => (p.1, t)) <$> tree_of n h p.2)
        (fun e => text_fits o e.1 /\ fits o (d + 1) e.2)) in H2 as (ts & Hts & Hfs & Ha); [| |apply H1].
      * exists (CMap ts). rewrite Hts. split; [done|].
        pose proof (mapM_keys _ _ _ Hts) as Hk. apply length_mapM in Hts.
        assert (blen ts = blen entries) as Hb by (unfold blen; congruence).
        split; [|cbn [enc]; rewrite Hb; eauto using appended_trans].
        apply fits_map. rewrite Hb. split_and!; [done..| |done].
        eapply obj_ok_keys; [symmetry; exact Hk|]. by apply obj_ok_filter.
      * intros [k v] w2 w3 He Hw2 H3. cbn in H3. apply bind_Ok in H3 as (w4 & H4 & H5).
        apply list_elem_of_filter in He as [_ He].
        rewrite List.Forall_forall in Hvals. apply list_elem_of_In, Hvals in He. cbn in He.
        pose proof (encodeText_fits o k w2 w4 H4) as Hk.
        eapply emits_Ok in H4; [|by apply emits_text|done].
        eapply IH in H5 as (t & Ht & Hf & Ha); [|done|apply H4].
        exists (k, t). cbn. rewrite Ht. split_and!; [done..|]. eauto using appended_trans.
Qed.

(** ** Completeness: every tree within the limits is encoded *)

(** Containers on the path to a value have strictly larger trees, if any. *)
Definition above (h : heap) (anc : gset positive) (t : cbor) : Prop :=
  forall a m ta, a ∈ anc -> tree_of m h (VRef a) = Some ta -> (cbor_size t < cbor_size ta)%nat.

Lemma above_not_in h anc l n t :
  above h anc t -> tree_of n h (VRef l) = Some t -> l ∉ anc.
Proof. intros Ha Ht Hin. specialize (Ha l n t Hin Ht). lia. Qed.

Lemma above_child h anc l n t c :
  above h anc t -> tree_of n h (VRef l) = Some t -> (cbor_size c < cbor_size t)%nat ->
  above h ({[l]} ∪ anc) c.
Proof.
  intros Ha Ht Hc a m ta [->%elem_of_singleton|Hin]%elem_of_union Hta.
  - by rewrite (tree_of_det _ _ _ _ _ _ Hta Ht).
  - specialize (Ha a m ta Hin Hta). lia.
Qed.

Lemma encode_fuel_S o d : d <= maxDepth o -> encode_fuel o d = S (encode_fuel o (d + 1)).
Proof. unfold encode_fuel. lia. Qed.

Lemma tree_of_array n h l es ts :
  h !! l = Some (HArray es) ->
  Forall2 (fun e t => exists v, e = Some v /\ v <> VUndefined /\ tree_of n h v = Some t) es ts ->
  tree_of (S n) h (VRef l) = Some (CArray ts).
Proof.
  intros Hl HF. cbn. rewrite Hl.
  enough (mapM (fun e => match e with None | Some VUndefined => None | Some v' => tree_of n h v' end) es
    = Some ts) as -> by done.
  apply mapM_Some. eapply Forall2_impl; [done|]. intros e t (v & -> & ? & ?). by destruct v.
Qed.

Lemma Forall2_in {A B} (P : A -> B -> Prop) l k :
  Forall2 P l k -> Forall2 (fun x y => P x y /\ x ∈ l /\ y ∈ k) l k.
Proof.
  induction 1 as [|x y l k Hx _ IH]; constructor; [split_and!; [done|left|left]|].
  eapply Forall2_impl; [done|]. intros x' y' (? & ? & ?). split_and!; [done|by right..].
Qed.

(** Writing a container: its head, then its children one after the other. *)
Lemma container_run {A T} (f : CborWriter -> A -> result CborError CborWriter) (encT : T -> bytes) o m l ts w :
  options_ok o -> 0 <= m < 8 -> blen ts <= maxContainerLength o -> writer_ok w ->
  offset w + blen (head_bytes m (blen ts) ++ (ts ≫= encT)) <= writer_max w ->
  Forall2 (fun x t => forall w, writer_ok w -> offset w + blen (encT t) <= writer_max w ->
    exists w', f w x = Ok w' /\ appended w w' (encT t)) l ts ->
  exists w', (writeArgument m (blen ts) w ≫= fun w => foldM f w l) = Ok w'.
Proof.
  intros Ho Hm Hlen Hw Hfit HF. rewrite blen_app in Hfit. pose proof (blen_nonneg (ts ≫= encT)).
  assert (emits (writeArgument m (blen ts)) (head_bytes m (blen ts))) as He
    by (apply emits_writeArgument; [lia|by eapply container_bound]).
  destruct (emits_run _ _ w He Hw) as (w1 & Hw1); [lia|]. rewrite Hw1. cbn.
  eapply emits_Ok in Hw1 as (Hw1 & _ & Hmax & Hoff); [|done..].
  apply (foldM_run _ encT l ts); [done..|lia].
Qed.

Lemma encodeValue_complete n h v t o d anc w :
  options_ok o -> heap_ok h -> val_ok v -> writer_ok w ->
  tree_of n h v = Some t -> fits o d t -> above h anc t ->
  offset w + blen (enc t) <= writer_max w ->
  exists w', encodeValue (encode_fuel o d) h v o d anc w = Ok w' /\ appended w w' (enc t).
Proof.
  intros Ho Hh. revert v t d anc w. induction n as [|n IH]; intros v t d anc w Hv Hw Ht Hf Hab Hfit; [done|].
  enough (exists w', encodeValue (encode_fuel o d) h v o d anc w = Ok w') as [w' Hr].
  { exists w'. split; [done|].
    destruct (encodeValue_sound _ _ _ _ _ _ _ _ Ho Hh Hv Hw Hr) as (t' & Ht' & _ & Ha).
    by rewrite (tree_of_det _ _ _ _ _ _ Ht Ht'). }
  pose proof (fits_depth _ _ _ Hf) as Hd. rewrite encode_fuel_S by done. cbn [encodeValue].
  destruct (Z.ltb_spec (maxDepth o) d); [lia|].
  pose proof Ht as Ht0. cbn in Ht.
  destruct v as [| |b|f|s|l|]; try done.
  - injection Ht as <-. eapply emits_run; [by apply emits_writeByte|done|exact Hfit].
  - injection Ht as <-. eapply emits_run; [|done|exact Hfit]. apply emits_writeByte. by destruct b.
  - destruct (is_finite f); [|done]. injection Ht as <-. destruct Hf as [_ Hf].
    eapply emits_run; [by apply emits_number|done|exact Hfit].
  - injection Ht as <-. destruct Hf as [_ Hf].
    eapply emits_run; [by apply emits_text|done|exact Hfit].
  - pose proof (above_not_in _ _ _ _ _ Hab Ht0) as Hnin.
    destruct (h !! l) as [[data|es|[] [] ps]|] eqn:Hl; try done.
    + injection Ht as <-. destruct Hf as [_ Hf].
      destruct (Z.ltb_spec (maxByteLength o) (blen data)); [lia|].
      eapply (emits_run (fun w => writeArgument 2 (blen data) w ≫= writeBytes data)); [|done|exact Hfit].
      apply (emits_bind (writeArgument 2 (blen data)));
        [apply emits_writeArgument; [lia|by eapply blen_bound]|apply emits_writeBytes].
    + apply fmap_Some in Ht as (ts & Hts & ->). rewrite bool_decide_false by done.
      apply fits_array in Hf as (_ & Hlen & Hfs). pose proof (length_mapM _ _ _ Hts) as HlenE.
      assert (blen es = blen ts) as Hb by (unfold blen; congruence). rewrite Hb.
      destruct (Z.ltb_spec (maxContainerLength o) (blen ts)); [lia|].
      apply (container_run _ enc o 4 es ts w); [done|lia|done..|].
      apply mapM_Some, Forall2_in in Hts. rewrite Forall_forall in Hfs.
      apply (map_Forall_lookup_1 _ _ _ _ Hh) in Hl. cbn in Hl. rewrite Forall_forall in Hl.
      eapply Forall2_impl; [exact Hts|].
      intros e t (He & Hine & Hin) w2 Hw2 Hfit2. specialize (Hl _ Hine). destruct e as [v|]; [|done].
      assert (v <> VUndefined /\ tree_of n h v = Some t) as [Hnu Htv] by by destruct v.
      destruct (IH v t (d + 1) ({[l]} ∪ anc) w2) as (w3 & Hr & Ha); [done..|by apply Hfs| |done|].
      { eapply above_child; [done..|]. cbn. pose proof (elem_size cbor_size t ts Hin). lia. }
      exists w3. split; [|done]. by destruct v.
    + apply fmap_Some in Ht as (ts & Hts & ->). rewrite bool_decide_false by done.
      set (entries := filter _ ps) in *.
      apply fits_map in Hf as (_ & Hlen & Hok & Hfs). pose proof (length_mapM _ _ _ Hts) as HlenE.
      assert (blen entries = blen ts) as Hb by (unfold blen; congruence). rewrite Hb.
      destruct (Z.ltb_spec (maxContainerLength o) (blen ts)); [lia|].
      apply (container_run _ (fun e => text_bytes e.1 ++ enc e.2) o 5 entries ts w); [done|lia|done..|].
      apply (map_Forall_lookup_1 _ _ _ _ Hh) in Hl as [_ Hl].
      apply mapM_Some, Forall2_in in Hts. rewrite Forall_forall in Hfs. rewrite Forall_forall in Hl.
      eapply Forall2_impl; [exact Hts|].
      intros [k v] e (He & [_ Hine]%list_elem_of_filter & Hin) w2 Hw2 Hfit2. specialize (Hl _ Hine). cbn in He, Hl.
      apply fmap_Some in He as (t & Htv & ->). cbn in Hfit2. rewrite blen_app in Hfit2.
      pose proof (Hfs _ Hin) as [Hkf Htf]. cbn in Hkf, Htf. pose proof (blen_nonneg (enc t)).
      destruct (emits_run _ _ w2 (emits_text o k Ho Hkf) Hw2) as (w3 & Hw3); [lia|].
      cbn. rewrite Hw3. cbn.
      eapply emits_Ok in Hw3 as Ha3; [|by apply emits_text|done].
      pose proof Ha3 as (Hw3' & _ & Hm3 & Ho3).
      destruct (IH v t (d + 1) ({[l]} ∪ anc) w3) as (w4 & Hr & Ha4); [done..| | |].
      { eapply above_child; [done..|]. cbn.
        pose proof (elem_size (fun e => cbor_size e.2) (k, t) ts Hin). cbn in *. lia. }
      { lia. }
      exists w4. split; [done|]. eauto using appended_trans.
Qed.
