(* ===== verification/CborDecoder.v ===== *)
(** * CBOR decoder (packages/protocol/src/cbor/decoder.ts)

[CborReader] walks a byte array with an offset; every operation takes the
offset and returns the new one.  Results: decoding inverts the wire format
([decodeCbor_enc]), a decoded tree always respects the limits
([decodeCbor_fits]) and re-encoding it never grows ([enc_shortest]). *)
From S2P Require Import Prelude JsNumber JsObject Utf8 CborValue CborEncoder.
From Stdlib Require Import SpecFloat.
#[local] Open Scope Z_scope.

Notation reader A := (Z -> result CborError (A * Z)).

Section CborReader.
Variables (data : bytes) (options : ResolvedCborOptions).

Definition readByte : reader Z := fun offset =>
  match at_ data offset with
  | Some value => Ok (value, offset + 1)
  | None => Err Truncated
  end.

Definition readBytes (length : Z) : reader bytes := fun offset =>
  if blen data - offset <? length then Err Truncated
  else Ok (slice data offset (offset + length), offset + length).

Definition byte_at (b : bytes) (i : nat) : Z := default 0 (b !! i).

Definition readUint32 : reader Z := fun offset =>
  readBytes 4 offset ≫= fun '(b, offset) =>
  Ok (byte_at b 0 * 0x1000000 + byte_at b 1 * 0x10000 + byte_at b 2 * 0x100 + byte_at b 3, offset).

Definition readArgument (additionalInformation : Z) : reader Z := fun offset =>
  if additionalInformation <? 24 then Ok (additionalInformation, offset)
  else if additionalInformation =? 24 then readByte offset
  else if additionalInformation =? 25 then
    readBytes 2 offset ≫= fun '(b, offset) => Ok (byte_at b 0 * 0x100 + byte_at b 1, offset)
  else if additionalInformation =? 26 then readUint32 offset
  else if additionalInformation =? 27 then
    readUint32 offset ≫= fun '(high, offset) =>
    readUint32 offset ≫= fun '(low, offset) =>
    if 0x1fffff <? high then Err UnsafeInteger
    else Ok (high * UINT32_BASE + low, offset)
  else if additionalInformation =? 31 then Err IndefiniteLength
  else Err MalformedAdditionalInformation.

(** [kind] is the error a length above [limit] raises. *)
Definition readLength (additionalInformation : Z) (kind : CborError) (limit : Z) : reader Z := fun offset =>
  if additionalInformation =? 31 then Err IndefiniteLength
  else
    readArgument additionalInformation offset ≫= fun '(length, offset) =>
    if limit <? length then Err kind else Ok (length, offset).

Definition readSimple (additionalInformation : Z) : reader cbor := fun offset =>
  if additionalInformation =? 20 then Ok (CBool false, offset)
  else if additionalInformation =? 21 then Ok (CBool true, offset)
  else if additionalInformation =? 22 then Ok (CNull, offset)
  else if additionalInformation =? 27 then
    readBytes 8 offset ≫= fun '(b, offset) =>
    let value := of_bits64 (be_value b) in
    if negb (is_finite value) then Err NotFinite
    else if is_integer value && negb (is_safe_integer value) then Err UnsafeInteger
    else Ok (CNum value, offset)
  else if additionalInformation =? 31 then Err BreakUnsupported
  else Err UnsupportedSimple.

(** [for (let index = 0; index < length; index++)] *)
Fixpoint repeatM {S} (f : S -> result CborError S) (count : nat) (s : S) : result CborError S :=
  match count with
  | O => Ok s
  | Datatypes.S n => f s ≫= repeatM f n
  end.

(** [readItem]; the nesting check bounds the recursion, see [encodeValue]. *)
Fixpoint readItem (fuel : nat) (depth : Z) (offset : Z) : result CborError (cbor * Z) :=
  match fuel with
  | O => Err DepthExceeded
  | S n =>
      if maxDepth options <? depth then Err DepthExceeded else
      readByte offset ≫= fun '(initial, offset) =>
      let majorType := Z.shiftr initial 5 in
      let additionalInformation := Z.land initial 0x1f in
      if majorType =? 0 then
        readArgument additionalInformation offset ≫= fun '(value, offset) =>
        Ok (CNum (of_Z value), offset)
      else if majorType =? 1 then
        readArgument additionalInformation offset ≫= fun '(arg, offset) =>
        let value := -1 - arg in
        if MAX_SAFE_INTEGER <? Z.abs value then Err UnsafeInteger
        else Ok (CNum (of_Z value), offset)
      else if majorType =? 2 then
        readLength additionalInformation ByteStringLengthExceeded (maxByteLength options) offset
          ≫= fun '(length, offset) =>
        readBytes length offset ≫= fun '(b, offset) => Ok (CBytes b, offset)
      else if majorType =? 3 then
        readLength additionalInformation TextLengthExceeded (maxByteLength options) offset
          ≫= fun '(length, offset) =>
        readBytes length offset ≫= fun '(b, offset) =>
        match utf8_decode b with
        | Some s => Ok (CText s, offset)
        | None => Err InvalidUtf8
        end
      else if majorType =? 4 then
        readLength additionalInformation ArrayLengthExceeded (maxContainerLength options) offset
          ≫= fun '(length, offset) =>
        repeatM (fun '(result, offset) =>
          readItem n (depth + 1) offset ≫= fun '(item, offset) =>
          Ok (result ++ [item], offset)) (Z.to_nat length) ([], offset) ≫= fun '(result, offset) =>
        Ok (CArray result, offset)
      else if majorType =? 5 then
        readLength additionalInformation MapLengthExceeded (maxContainerLength options) offset
          ≫= fun '(length, offset) =>
        repeatM (fun '(result, keys, offset) =>
          readItem n (depth + 1) offset ≫= fun '(key, offset) =>
          match key with
          | CText key =>
              if bool_decide (key ∈ keys) then Err DuplicateKey
              else
                readItem n (depth + 1) offset ≫= fun '(value, offset) =>
                Ok (obj_set result key value, {[key]} ∪ keys, offset)
          | _ => Err KeyNotString
          end) (Z.to_nat length) ([], (∅ : gset jstring), offset) ≫= fun '(result, _, offset) =>
        Ok (CMap result, offset)
      else if majorType =? 6 then Err TagsUnsupported
      else if majorType =? 7 then readSimple additionalInformation offset
      else Err MalformedMajorType
  end.

Definition decode : result CborError cbor :=
  readItem (encode_fuel options 0) 0 0 ≫= fun '(value, offset) =>
  if negb (offset =? blen data) then Err TrailingData else Ok value.
End CborReader.

Definition decodeCbor (data : bytes) (options : option CborOptions) : result CborError cbor :=
  resolveOptions options ≫= fun resolved =>
  if maxByteLength resolved <? blen data then Err ByteLengthExceeded
  else decode data resolved.

(** ** Decoding inverts the wire format *)

(** [s] occurs in [b] at offset [off]. *)
Definition at_offset (b : bytes) (off : Z) (s : bytes) : Prop :=
  exists pre post, b = pre ++ s ++ post /\ blen pre = off.

Lemma at_offset_app b off s1 s2 :
  at_offset b off (s1 ++ s2) -> at_offset b off s1 /\ at_offset b (off + blen s1) s2.
Proof.
  intros (pre & post & -> & Hp). split.
  - exists pre, (s2 ++ post). by rewrite <- app_assoc.
  - exists (pre ++ s1), post. rewrite blen_app, <- !app_assoc. split; [done|lia].
Qed.

Lemma at_offset_cons b off x s :
  at_offset b off (x :: s) -> at_ b off = Some x /\ at_offset b (off + 1) s.
Proof.
  intros H. split.
  - destruct H as (pre & post & -> & Hp). by rewrite (at_app_r _ _ _ Hp).
  - by apply (at_offset_app b off [x]) in H as [_ H].
Qed.

Lemma readByte_at b off x s :
  at_offset b off (x :: s) -> readByte b off = Ok (x, off + 1) /\ at_offset b (off + 1) s.
Proof. intros [H1 H2]%at_offset_cons. unfold readByte. by rewrite H1. Qed.

Lemma readBytes_at b off s n :
  at_offset b off s -> blen s = n -> readBytes b n off = Ok (s, off + n).
Proof.
  intros (pre & post & -> & Hp) <-. unfold readBytes. rewrite !blen_app.
  pose proof (blen_nonneg post).
  destruct (Z.ltb_spec (blen pre + (blen s + blen post) - off) (blen s)); [lia|].
  by rewrite (slice_app_r pre s post off (blen s)).
Qed.

Lemma be_value_4 a b c d :
  byte_at [a; b; c; d] 0 * 0x1000000 + byte_at [a; b; c; d] 1 * 0x10000
  + byte_at [a; b; c; d] 2 * 0x100 + byte_at [a; b; c; d] 3 = be_value [a; b; c; d].
Proof. unfold byte_at, be_value. cbn [lookup list_lookup default from_option fold_left id]. lia. Qed.

Lemma readUint32_at b off v s :
  0 <= v < 2 ^ 32 -> at_offset b off (be_bytes 4 v ++ s) ->
  readUint32 b off = Ok (v, off + 4) /\ at_offset b (off + 4) s.
Proof.
  intros Hv [H1 H2]%at_offset_app. split; [|done].
  unfold readUint32. rewrite (readBytes_at b off (be_bytes 4 v) 4) by done. cbn [mbind result_bind].
  cbn [be_bytes]. rewrite be_value_4. f_equal. f_equal. by apply (be_value_be_bytes 4).
Qed.

Lemma readUint64_at b off v :
  0 <= v <= MAX_SAFE_INTEGER -> at_offset b off (be_bytes 8 v) ->
  exists h l, readUint32 b off = Ok (h, off + 4) /\ readUint32 b (off + 4) = Ok (l, off + 8) /\
    h <= 0x1fffff /\ h * UINT32_BASE + l = v.
Proof.
  unfold MAX_SAFE_INTEGER, UINT32_BASE. intros Hv H. rewrite be_bytes_8 in H by lia.
  unfold UINT32_BASE in H.
  pose proof (Z.mod_pos_bound v (2 ^ 32)). pose proof (Z_div_mod_eq_full v (2 ^ 32)).
  assert (v / 2 ^ 32 <= 0x1fffff).
  { enough (v / 2 ^ 32 < 0x200000) by lia. apply Z.div_lt_upper_bound; lia. }
  assert (0 <= v / 2 ^ 32) by (apply Z.div_pos; lia).
  apply readUint32_at in H as [Hhi Hlo]; [|lia].
  rewrite <- (app_nil_r (be_bytes 4 (v mod 2 ^ 32))) in Hlo.
  apply readUint32_at in Hlo as [Hlo _]; [|lia].
  exists (v / 2 ^ 32), (v mod 2 ^ 32). split_and!; [done| |lia|lia].
  rewrite Hlo. do 2 f_equal; lia.
Qed.

(** Reading the head of an item: its initial byte carries the major type, and
    the argument follows. *)
Lemma readHead_at b off m v :
  0 <= m < 8 -> 0 <= v <= MAX_SAFE_INTEGER -> at_offset b off (head_bytes m v) ->
  exists initial,
    readByte b off = Ok (initial, off + 1) /\ Z.shiftr initial 5 = m /\
    Z.land initial 0x1f <> 31 /\
    readArgument b (Z.land initial 0x1f) (off + 1) = Ok (v, off + blen (head_bytes m v)).
Proof.
  unfold head_bytes, MAX_UINT32. intros Hm Hv H.
  assert (forall a, 0 <= a < 32 -> Z.shiftr (m * 32 + a) 5 = m /\ Z.land (m * 32 + a) 0x1f = a) as Hia.
  { intros a Ha. rewrite Z.shiftr_div_pow2 by lia. change 0x1f with (Z.ones 5). rewrite Z.land_ones by lia.
    change (2 ^ 5) with 32. rewrite Z.add_comm, Z.div_add, Z.mod_add, Z.div_small, Z.mod_small by lia. lia. }
  destruct (Z.ltb_spec v 24); [|destruct (Z.leb_spec v 0xff); [|destruct (Z.leb_spec v 0xffff);
    [|destruct (Z.leb_spec v (2 ^ 32 - 1))]]]; apply readByte_at in H as [Hb H];
    eexists; (split; [exact Hb|]);
    match type of Hb with _ = Ok (m * 32 + ?a, _) => destruct (Hia a) as [-> ->]; [lia|] end;
    (split; [done|]; split; [lia|]); unfold readArgument; rewrite ?blen_cons, ?blen_be_bytes, ?blen_nil.
  - destruct (Z.ltb_spec v 24); [|lia]. do 2 f_equal; lia.
  - cbn. apply readByte_at in H as [-> _]. do 2 f_equal; lia.
  - cbn -[be_bytes readBytes]. rewrite (readBytes_at b (off + 1) (be_bytes 2 v) 2) by done.
    cbn [mbind result_bind]. f_equal. f_equal; [|lia].
    rewrite <- (be_value_be_bytes 2 v) at 3 by lia. unfold byte_at, be_value. cbn. lia.
  - cbn -[be_bytes readUint32]. rewrite <- (app_nil_r (be_bytes 4 v)) in H.
    apply readUint32_at in H as [-> _]; [|lia]. do 2 f_equal; lia.
  - cbn -[be_bytes readUint32].
    apply readUint64_at in H as (hi & lo & -> & Hlo & Hh & Hhl); [|lia]. cbn [mbind result_bind].
    rewrite Hlo. cbn [mbind result_bind].
    destruct (Z.ltb_spec 0x1fffff hi); [lia|]. rewrite Hhl. do 2 f_equal; lia.
Qed.

Lemma readLength_at b off m v kind limit :
  0 <= m < 8 -> 0 <= v <= MAX_SAFE_INTEGER -> v <= limit -> at_offset b off (head_bytes m v) ->
  exists initial,
    readByte b off = Ok (initial, off + 1) /\ Z.shiftr initial 5 = m /\
    readLength b (Z.land initial 0x1f) kind limit (off + 1) = Ok (v, off + blen (head_bytes m v)).
Proof.
  intros Hm Hv Hl H. destruct (readHead_at _ _ _ _ Hm Hv H) as (i & Hb & Hs & Hne & Ha).
  exists i. split_and!; [done..|]. unfold readLength.
  destruct (Z.eqb_spec (Z.land i 0x1f) 31); [done|]. rewrite Ha. cbn.
  destruct (Z.ltb_spec limit v); [lia|done].
Qed.

(** Running a loop over a known list of children, [acc] being those already read. *)
Lemma repeatM_items {S T} (f : S -> result CborError S) (st : list T -> Z -> S) (encT : T -> bytes)
    (b : bytes) (ok : list T -> Prop) ts acc off s0 :
  s0 = st acc off ->
  (forall acc t off, ok (acc ++ [t]) -> t ∈ ts -> at_offset b off (encT t) ->
     f (st acc off) = Ok (st (acc ++ [t]) (off + blen (encT t)))) ->
  (forall l1 l2, ok (l1 ++ l2) -> ok l1) ->
  ok (acc ++ ts) -> at_offset b off (ts ≫= encT) ->
  repeatM f (length ts) s0 = Ok (st (acc ++ ts) (off + blen (ts ≫= encT))).
Proof.
  intros -> Hf Hpre. revert acc off. induction ts as [|t ts IH]; intros acc off Hok Hat.
  - cbn. rewrite app_nil_r. by rewrite blen_nil, Z.add_0_r.
  - rewrite bind_cons in Hat |- *. apply at_offset_app in Hat as [H1 H2].
    assert (ok ((acc ++ [t]) ++ ts)) as Hok' by by rewrite <- app_assoc.
    cbn [length repeatM]. rewrite (Hf acc t off); [|by eapply Hpre|left|done]. cbn [mbind result_bind].
    rewrite IH; [|intros; apply Hf; [done|by right|done]|done..].
    rewrite <- app_assoc, blen_app. cbn [app]. do 2 f_equal. lia.
Qed.

Lemma arg_bound o {A} (l : list A) :
  options_ok o -> blen l <= maxContainerLength o \/ blen l <= maxByteLength o ->
  0 <= blen l <= MAX_SAFE_INTEGER.
Proof.
  intros (? & ? & _) ?. pose proof (blen_nonneg l). unfold MAX_UINT32, MAX_SAFE_INTEGER in *. lia.
Qed.

Lemma to_nat_blen {A} (l : list A) : Z.to_nat (blen l) = length l.
Proof. unfold blen. lia. Qed.

Section ReadItem.
Context (b : bytes) (o : ResolvedCborOptions) (Ho : options_ok o).

Lemma readItem_num n d f off :
  d <= maxDepth o -> num_fits f -> at_offset b off (num_bytes f) ->
  readItem b o (S n) d off = Ok (CNum f, off + blen (num_bytes f)).
Proof.
  intros Hd (Hv & Hfin & Hs) Hat. cbn [readItem].
  destruct (Z.ltb_spec (maxDepth o) d); [lia|]. unfold num_bytes in *.
  destruct (is_integer f && negb (is_neg_zero f)) eqn:E.
  - apply andb_true_iff in E as [Hi Hz%negb_true_iff]. specialize (Hs Hi Hz).
    unfold is_safe_integer in Hs. rewrite Hi in Hs. cbn in Hs. apply Z.leb_le in Hs.
    assert (of_Z (to_Z f) = f) as Hof by (apply of_Z_to_Z; unfold MAX_SAFE_INTEGER in Hs; [done..|lia]).
    destruct (Z.leb_spec 0 (to_Z f)).
    + destruct (readHead_at b off 0 (to_Z f)) as (i & -> & Hm & _ & Ha); [lia|lia|done|].
      cbn [mbind result_bind]. rewrite Hm. cbn [Z.eqb]. rewrite Ha. cbn. by rewrite Hof.
    + destruct (readHead_at b off 1 (-1 - to_Z f)) as (i & -> & Hm & _ & Ha); [lia|lia|done|].
      cbn [mbind result_bind]. rewrite Hm. cbn [Z.eqb Pos.eqb]. rewrite Ha. cbn [mbind result_bind].
      replace (-1 - (-1 - to_Z f)) with (to_Z f) by lia.
      destruct (Z.ltb_spec MAX_SAFE_INTEGER (Z.abs (to_Z f))); [lia|]. by rewrite Hof.
  - apply readByte_at in Hat as [-> Hat]. cbn [mbind result_bind].
    change (Z.shiftr 0xfb 5) with 7. change (Z.land 0xfb 0x1f) with 27.
    unfold readSimple. cbn [Z.eqb Pos.eqb].
    rewrite (readBytes_at b (off + 1) (be_bytes 8 (bits64 f)) 8) by done.
    cbn [mbind result_bind]. pose proof (bits64_range f Hv). rewrite be_value_be_bytes by (cbn; lia).
    rewrite of_bits64_bits64, Hfin by done. cbn [negb].
    assert (is_integer f && negb (is_safe_integer f) = false) as ->.
    { destruct (is_integer f) eqn:Hi; [|done]. destruct (is_neg_zero f) eqn:Hz; [|done].
      by destruct f as [[]| | |]. }
    rewrite blen_cons, blen_be_bytes. do 2 f_equal. lia.
Qed.

Lemma readItem_text n d s off :
  d <= maxDepth o -> text_fits o s -> at_offset b off (text_bytes s) ->
  readItem b o (S n) d off = Ok (CText s, off + blen (text_bytes s)).
Proof.
  intros Hd [Hs Hl] Hat. cbn [readItem].
  destruct (Z.ltb_spec (maxDepth o) d); [lia|]. unfold text_bytes in *.
  apply at_offset_app in Hat as [Hh Ht].
  destruct (readLength_at b off 3 (blen (utf8_encode s)) TextLengthExceeded (maxByteLength o))
    as (i & -> & Hm & Hlen); [lia|by eapply arg_bound; [done|right]|done..|].
  cbn [mbind result_bind]. rewrite Hm. cbn [Z.eqb Pos.eqb]. rewrite Hlen. cbn [mbind result_bind].
  rewrite (readBytes_at b _ (utf8_encode s)) by done. cbn [mbind result_bind].
  rewrite Hs, blen_app. do 2 f_equal; lia.
Qed.

Lemma readItem_enc t d off :
  fits o d t -> at_offset b off (enc t) ->
  readItem b o (encode_fuel o d) d off = Ok (t, off + blen (enc t)).
Proof.
  revert d off. induction t as [|x|f|data|s|ts IH|es IH] using cbor_ind'; intros d off Hf Hat;
    pose proof (fits_depth _ _ _ Hf) as Hd; rewrite encode_fuel_S by done;
    try match goal with |- readItem _ _ _ _ _ = Ok (CNum f, _) => by apply readItem_num; destruct Hf end;
    try match goal with |- readItem _ _ _ _ _ = Ok (CText s, _) => by apply readItem_text; destruct Hf end;
    cbn [enc] in *; cbn [readItem]; (destruct (Z.ltb_spec (maxDepth o) d); [lia|]).
  - by apply readByte_at in Hat as [-> _].
  - apply readByte_at in Hat as [-> _]. by destruct x.
  - destruct Hf as [_ Hf]. apply at_offset_app in Hat as [Hh Ht].
    destruct (readLength_at b off 2 (blen data) ByteStringLengthExceeded (maxByteLength o))
      as (i & -> & Hm & Hlen); [lia|by eapply arg_bound; [done|right]|done..|].
    cbn [mbind result_bind]. rewrite Hm. cbn [Z.eqb Pos.eqb]. rewrite Hlen. cbn [mbind result_bind].
    rewrite (readBytes_at b _ data) by done. cbn [mbind result_bind].
    rewrite blen_app. do 2 f_equal; lia.
  - apply fits_array in Hf as (_ & Hlen & Hfs). apply at_offset_app in Hat as [Hh Ht].
    destruct (readLength_at b off 4 (blen ts) ArrayLengthExceeded (maxContainerLength o))
      as (i & -> & Hm & Hrl); [lia|by eapply arg_bound; [done|left]|done..|].
    cbn [mbind result_bind]. rewrite Hm. cbn [Z.eqb Pos.eqb]. rewrite Hrl. cbn [mbind result_bind].
    rewrite to_nat_blen.
    rewrite (repeatM_items _ (fun acc off => (acc, off)) enc b (fun _ => True) ts [] _ _ eq_refl); [|..|done|done].
    + cbn. rewrite blen_app. do 2 f_equal; lia.
    + intros acc t off' _ Hin Hat'. rewrite Forall_forall in IH. rewrite Forall_forall in Hfs.
      rewrite (IH t Hin) by auto. done.
    + done.
  - apply fits_map in Hf as (_ & Hlen & Hok & Hfs). apply at_offset_app in Hat as [Hh Ht].
    destruct (readLength_at b off 5 (blen es) MapLengthExceeded (maxContainerLength o))
      as (i & -> & Hm & Hrl); [lia|by eapply arg_bound; [done|left]|done..|].
    cbn [mbind result_bind]. rewrite Hm. cbn [Z.eqb Pos.eqb]. rewrite Hrl. cbn [mbind result_bind].
    rewrite to_nat_blen.
    match goal with |- context [repeatM ?f _ ?s0] =>
      rewrite (repeatM_items f (fun acc off => (acc, list_to_set (obj_keys acc), off))
        (fun e => text_bytes e.1 ++ enc e.2) b obj_ok es []
          (off + blen (head_bytes 5 (blen es))) s0); [|done|..|done|done] end.
    + cbn [mbind result_bind app]. rewrite blen_app. do 2 f_equal; lia.
    + intros acc [k v] off' Hok' Hin [H1 H2]%at_offset_app. cbn [fst snd] in *.
      rewrite Forall_forall in IH. rewrite Forall_forall in Hfs.
      destruct (Hfs _ Hin) as [Hk Hv]. cbn [fst snd] in *.
      pose proof (fits_depth _ _ _ Hv) as Hd'.
      rewrite (encode_fuel_S o (d + 1)) by done.
      rewrite (readItem_text _ _ k) by done. cbn [mbind result_bind].
      rewrite bool_decide_false.
      2: { rewrite elem_of_list_to_set. destruct Hok' as [Hnd _]. unfold obj_keys in *.
           rewrite fmap_app in Hnd. apply NoDup_app in Hnd. set_solver. }
      rewrite <- encode_fuel_S by done. rewrite (IH (k, v) Hin) by done. cbn [mbind result_bind].
      rewrite obj_set_app_end by done. unfold obj_keys. rewrite fmap_app, list_to_set_app_L. cbn.
      rewrite blen_app. f_equal. f_equal; [f_equal|lia]. set_solver.
    + intros l1 l2. apply obj_ok_app_l.
Qed.
End ReadItem.

(** The wire format of a tree within the limits decodes to that tree. *)
Lemma decodeCbor_enc options o t :
  resolveOptions options = Ok o -> fits o 0 t -> blen (enc t) <= maxByteLength o ->
  decodeCbor (enc t) options = Ok t.
Proof.
  intros Hr Hf Hl. pose proof (resolveOptions_ok _ _ Hr) as Ho.
  unfold decodeCbor, decode. rewrite Hr. cbn [mbind result_bind].
  destruct (Z.ltb_spec (maxByteLength o) (blen (enc t))); [lia|].
  rewrite (readItem_enc (enc t) o Ho t 0 0); [|done|exists [], []; by rewrite app_nil_r].
  cbn [mbind result_bind]. rewrite Z.add_0_l, Z.eqb_refl. done.
Qed.

(** ** Whatever is decoded respects the limits, and its encoding is no longer *)

Lemma byte_at_range b i : bytes_ok b -> 0 <= byte_at b i < 256.
Proof.
  intros H. unfold byte_at. destruct (b !! i) as [x|] eqn:E; cbn; [|lia].
  by eapply (Forall_lookup_1 (fun x => 0 <= x < 256)).
Qed.

(** Size of a head, from above. *)
Lemma blen_head m v : blen (head_bytes m v) =
  if v <? 24 then 1 else if v <=? 0xff then 2 else if v <=? 0xffff then 3
  else if v <=? MAX_UINT32 then 5 else 9.
Proof.
  unfold head_bytes.
  repeat match goal with |- context [if ?c then _ else _] => destruct c end;
    by rewrite ?blen_cons, ?blen_be_bytes, ?(blen_nil (A:=Z)).
Qed.

Lemma head_max m v : blen (head_bytes m v) <= 9.
Proof. rewrite blen_head. repeat match goal with |- context [if ?c then _ else _] => destruct c end; lia. Qed.

Section Sound.
Context (b : bytes) (Hb : bytes_ok b).

(** [r] consumed the bytes between two offsets of the input. *)
Definition span (off off' : Z) : Prop := 0 <= off <= off' /\ off' <= blen b.

Lemma readByte_sound off v off' :
  readByte b off = Ok (v, off') -> 0 <= off -> span off off' /\ off' = off + 1 /\ 0 <= v < 256.
Proof.
  unfold readByte, at_, span, blen. intros H Hoff. destruct (Z.ltb_spec off 0); [lia|].
  destruct (b !! Z.to_nat off) as [x|] eqn:E; [|done]. injection H as <- <-.
  pose proof (lookup_lt_Some _ _ _ E). split_and!; try lia;
    by eapply (Forall_lookup_1 (fun x => 0 <= x < 256)).
Qed.

Lemma readBytes_sound n off s off' :
  readBytes b n off = Ok (s, off') -> 0 <= off -> 0 <= n ->
  span off off' /\ off' = off + n /\ blen s = n /\ bytes_ok s.
Proof.
  unfold readBytes, span. intros H Hoff Hn. destruct (Z.ltb_spec (blen b - off) n); [done|].
  injection H as <- <-. rewrite blen_slice by lia. split_and!; try lia. by apply bytes_ok_slice.
Qed.

Lemma readUint32_sound off v off' :
  readUint32 b off = Ok (v, off') -> 0 <= off -> span off off' /\ off' = off + 4 /\ 0 <= v < 2 ^ 32.
Proof.
  unfold readUint32. intros H Hoff. apply bind_Ok in H as ([s o1] & H1 & H). injection H as <- <-.
  apply readBytes_sound in H1 as (? & -> & _ & Hs); [|lia..].
  pose proof (byte_at_range s 0 Hs). pose proof (byte_at_range s 1 Hs).
  pose proof (byte_at_range s 2 Hs). pose proof (byte_at_range s 3 Hs). split_and!; [done..|lia|lia].
Qed.

Lemma readArgument_sound m ai off v off' :
  readArgument b ai off = Ok (v, off') -> 0 <= off <= blen b -> 0 <= ai ->
  span off off' /\ 0 <= v <= MAX_SAFE_INTEGER /\ blen (head_bytes m v) <= 1 + (off' - off).
Proof.
  unfold readArgument, MAX_SAFE_INTEGER. rewrite blen_head. unfold MAX_UINT32. intros H Hoff Hai.
  destruct (Z.ltb_spec ai 24).
  { injection H as <- <-. unfold span. destruct (Z.ltb_spec ai 24); [|lia]. split_and!; lia. }
  destruct (Z.eqb_spec ai 24).
  { apply readByte_sound in H as (? & -> & Hv); [|lia]. destruct (Z.ltb_spec v 24), (Z.leb_spec v 0xff); split_and!; try done; lia. }
  destruct (Z.eqb_spec ai 25).
  { apply bind_Ok in H as ([s o1] & H1 & H). injection H as <- <-.
    apply readBytes_sound in H1 as (? & -> & _ & Hs); [|lia..].
    pose proof (byte_at_range s 0 Hs). pose proof (byte_at_range s 1 Hs).
    set (v := byte_at s 0 * 0x100 + byte_at s 1).
    destruct (Z.ltb_spec v 24), (Z.leb_spec v 0xff), (Z.leb_spec v 0xffff); split_and!; try done; lia. }
  destruct (Z.eqb_spec ai 26).
  { apply readUint32_sound in H as (? & -> & Hv); [|lia].
    destruct (Z.ltb_spec v 24), (Z.leb_spec v 0xff), (Z.leb_spec v 0xffff), (Z.leb_spec v (2 ^ 32 - 1));
      split_and!; try done; lia. }
  destruct (Z.eqb_spec ai 27); [|by destruct (ai =? 31)].
  apply bind_Ok in H as ([hi o1] & H1 & H). apply bind_Ok in H as ([lo o2] & H2 & H).
  destruct (Z.ltb_spec 0x1fffff hi); [done|]. injection H as <- <-. unfold span in *.
  apply readUint32_sound in H1 as (S1 & -> & Hv1); [|lia].
  apply readUint32_sound in H2 as (S2 & -> & Hv2); [|lia].
  unfold span, UINT32_BASE in *. split_and!; try lia.
  repeat match goal with |- context [if ?c then _ else _] => destruct c end; lia.
Qed.

Lemma readLength_sound m ai kind limit off v off' :
  readLength b ai kind limit off = Ok (v, off') -> 0 <= off <= blen b -> 0 <= ai ->
  span off off' /\ 0 <= v <= limit /\ blen (head_bytes m v) <= 1 + (off' - off).
Proof.
  unfold readLength. intros H Hoff Hai. destruct (ai =? 31); [done|].
  apply bind_Ok in H as ([n o1] & H1 & H). destruct (Z.ltb_spec limit n); [done|]. injection H as <- <-.
  apply (readArgument_sound m) in H1 as (? & ? & ?); [|done..]. split_and!; try done; lia.
Qed.

(** An invariant indexed by the number of iterations done. *)
Lemma repeatM_inv {S} (P : nat -> S -> Prop) f count s s' :
  (forall k s s', P k s -> f s = Ok s' -> P (Datatypes.S k) s') ->
  P 0%nat s -> repeatM f count s = Ok s' -> P count s'.
Proof.
  intros Hstep. assert (forall k count s, P k s -> repeatM f count s = Ok s' -> P (k + count)%nat s') as G.
  { intros k n. revert k. induction n as [|n IH]; intros k s1 Hk; cbn.
    - intros [= <-]. by rewrite Nat.add_0_r.
    - intros (s2 & H1 & H2)%bind_Ok. replace (k + Datatypes.S n)%nat with (Datatypes.S k + n)%nat by lia.
      eapply IH; [|done]. by eapply Hstep. }
  intros H0. by apply (G 0%nat).
Qed.
End Sound.

Lemma num_bytes_of_Z z :
  Z.abs z <= MAX_SAFE_INTEGER ->
  num_bytes (of_Z z) = if 0 <=? z then head_bytes 0 z else head_bytes 1 (-1 - z).
Proof.
  unfold MAX_SAFE_INTEGER. intros Hz. unfold num_bytes. destruct (to_Z_of_Z z) as (_ & -> & ->); [lia|].
  by rewrite of_Z_not_neg_zero by lia.
Qed.

Lemma num_fits_of_Z z : Z.abs z <= MAX_SAFE_INTEGER -> num_fits (of_Z z).
Proof.
  intros Hz. pose proof (of_Z_safe z Hz). unfold MAX_SAFE_INTEGER in *.
  split_and!; [apply of_Z_valid; lia|by apply to_Z_of_Z; lia|done].
Qed.

Lemma num_bytes_max f : num_fits f -> blen (num_bytes f) <= 9.
Proof.
  intros _. unfold num_bytes. destruct (_ && _); [destruct (0 <=? _); apply head_max|].
  by rewrite blen_cons, blen_be_bytes.
Qed.

Lemma text_fits_decode o b s :
  utf8_decode b = Some s -> blen b <= maxByteLength o -> text_fits o s /\ utf8_encode s = b.
Proof.
  intros Hd Hl. destruct (utf8_encode_decode _ _ Hd) as [He Hw]. unfold text_fits.
  rewrite He. auto.
Qed.

(** Replacing nothing, [obj_set] adds exactly one entry somewhere. *)
Lemma obj_insert_bind {A} (g : jstring * A -> bytes) o k v :
  blen (obj_insert o k v ≫= g) = blen (o ≫= g) + blen (g (k, v)).
Proof.
  induction o as [|[k' v'] o IH]; cbn [obj_insert].
  - rewrite bind_cons, blen_app. cbn. lia.
  - case_bool_decide; rewrite !bind_cons, !blen_app; rewrite ?IH; lia.
Qed.

Lemma length_obj_insert {A} (o : list (jstring * A)) k v : length (obj_insert o k v) = S (length o).
Proof. induction o as [|[k' v'] o IH]; cbn; [done|]. case_bool_decide; cbn; lia. Qed.

Lemma Forall_obj_insert {A} (P : jstring * A -> Prop) o k v :
  Forall P o -> P (k, v) -> Forall P (obj_insert o k v).
Proof.
  intros Ho Hk. induction Ho as [|[k' v'] o Hx Ho IH]; cbn; [by constructor|].
  case_bool_decide; by repeat constructor.
Qed.

Section ReadItemSound.
Context (b : bytes) (Hb : bytes_ok b) (o : ResolvedCborOptions).

(** State of the two container loops after [k] iterations from offset [off]. *)
Definition items_read (d off : Z) (k : nat) (st : list cbor * Z) : Prop :=
  length st.1 = k /\ span b off st.2 /\ Forall (fits o d) st.1 /\ blen (st.1 ≫= enc) <= st.2 - off.

Definition entries_read (d off : Z) (k : nat) (st : list (jstring * cbor) * gset jstring * Z) : Prop :=
  let '(es, keys, off') := st in
  length es = k /\ keys = list_to_set (obj_keys es) /\ obj_ok es /\ span b off off' /\
  Forall (fun e => text_fits o e.1 /\ fits o d e.2) es /\
  blen (es ≫= fun e => text_bytes e.1 ++ enc e.2) <= off' - off.

Lemma entry_step d off k es keys o1 key o2 v o3 :
  entries_read d off k (es, keys, o1) -> key ∉ keys ->
  fits o d (CText key) -> blen (enc (CText key)) <= o2 - o1 -> span b o1 o2 ->
  fits o d v -> blen (enc v) <= o3 - o2 -> span b o2 o3 ->
  entries_read d off (Datatypes.S k) (obj_set es key v, {[key]} ∪ keys, o3).
Proof.
  intros (Hlen & -> & Hok & Hs & HF & Hbl) Hk [_ Hkf] Hkb Hs1 Hv Hvb Hs2.
  rewrite elem_of_list_to_set in Hk. cbn [enc] in Hkb.
  assert (obj_set es key v = obj_insert es key v) as Hset.
  { unfold obj_set. destruct (obj_has es key) eqn:E; [|done]. by apply obj_has_spec in E. }
  unfold entries_read. split_and!.
  - by rewrite Hset, length_obj_insert, Hlen.
  - apply set_eq. intros x. rewrite elem_of_list_to_set, elem_of_obj_set, elem_of_union, elem_of_singleton.
    by rewrite elem_of_list_to_set.
  - by apply obj_ok_set.
  - unfold span in *. lia.
  - rewrite Hset. by apply Forall_obj_insert.
  - rewrite Hset, obj_insert_bind. cbn [fst snd]. rewrite blen_app. lia.
Qed.

Lemma readItem_sound fuel d off t off' :
  readItem b o fuel d off = Ok (t, off') -> 0 <= off ->
  span b off off' /\ fits o d t /\ blen (enc t) <= off' - off.
Proof.
  revert d off t off'. induction fuel as [|n IH]; intros d off t off'; [done|]. cbn [readItem].
  destruct (Z.ltb_spec (maxDepth o) d) as [|Hd]; [done|]. intros H Hoff.
  apply bind_Ok in H as ([i o1] & H1 & H). apply (readByte_sound b Hb) in H1 as (S1 & -> & Hi); [|done].
  assert (0 <= Z.land i 0x1f) as Hai by (apply Z.land_nonneg; lia). unfold span in S1.
  repeat match type of H with (if ?c then _ else _) = _ => destruct c end; try done.
  - apply bind_Ok in H as ([v o2] & H2 & H). injection H as <- <-.
    apply (readArgument_sound b Hb 0) in H2 as (S2 & Hv & Hl); [|lia..]. unfold span in *.
    split; [lia|]. cbn [fits enc]. rewrite num_bytes_of_Z by lia. destruct (Z.leb_spec 0 v); [|lia].
    split; [split; [done|apply num_fits_of_Z; lia]|lia].
  - apply bind_Ok in H as ([v o2] & H2 & H). destruct (Z.ltb_spec MAX_SAFE_INTEGER (Z.abs (-1 - v))); [done|].
    injection H as <- <-. apply (readArgument_sound b Hb 1) in H2 as (S2 & Hv & Hl); [|lia..]. unfold span in *.
    split; [lia|]. cbn [fits enc]. rewrite num_bytes_of_Z by lia. destruct (Z.leb_spec 0 (-1 - v)); [lia|].
    replace (-1 - (-1 - v)) with v by lia. split; [split; [done|by apply num_fits_of_Z]|lia].
  - apply bind_Ok in H as ([v o2] & H2 & H). apply bind_Ok in H as ([s o3] & H3 & H). injection H as <- <-.
    apply (readLength_sound b Hb 2) in H2 as (S2 & Hv & Hl); [|lia..]. unfold span in *.
    apply (readBytes_sound b Hb) in H3 as (S3 & -> & Hs & _); [|lia..]. unfold span in *.
    cbn [fits enc]. rewrite blen_app, Hs. split; [lia|]. split; [split; [done|lia]|lia].
  - apply bind_Ok in H as ([v o2] & H2 & H). apply bind_Ok in H as ([s o3] & H3 & H).
    destruct (utf8_decode s) as [str|] eqn:Hu; [|done]. injection H as <- <-.
    apply (readLength_sound b Hb 3) in H2 as (S2 & Hv & Hl); [|lia..]. unfold span in *.
    apply (readBytes_sound b Hb) in H3 as (S3 & -> & Hs & _); [|lia..]. unfold span in *.
    destruct (text_fits_decode o _ _ Hu) as [Hf He]; [lia|].
    cbn [fits enc]. unfold text_bytes. rewrite He, blen_app, Hs. split; [lia|]. split; [done|lia].
  - apply bind_Ok in H as ([v o2] & H2 & H). apply bind_Ok in H as ([ts o3] & H3 & H). injection H as <- <-.
    apply (readLength_sound b Hb 4) in H2 as (S2 & Hv & Hl); [|lia..]. unfold span in *.
    apply (repeatM_inv (items_read (d + 1) o2)) in H3 as (Hlen & S3 & HF & Hbl).
    + cbn [fst snd] in *. assert (blen ts = v) as Hbv by (unfold blen; lia). unfold span in S3.
      split; [lia|]. split; [apply fits_array; rewrite Hbv; split_and!; [done|lia|done]|].
      cbn [enc]. rewrite blen_app, Hbv. lia.
    + intros k [acc o4] s' (Hlen & S3 & HF & Hbl) Hstep. cbn [fst snd] in *.
      apply bind_Ok in Hstep as ([item o5] & H5 & Hstep). injection Hstep as <-.
      unfold span in S3. apply IH in H5 as (S5 & Hf & Hb5); [|lia]. unfold span in S5.
      unfold items_read. cbn [fst snd]. rewrite length_app, bind_app, bind_cons, !blen_app, Forall_app, Forall_singleton.
      cbn. unfold span. split_and!; try done; blen_lia.
    + unfold items_read, span. cbn. split_and!; first [done|constructor|blen_lia].
  - apply bind_Ok in H as ([v o2] & H2 & H). apply bind_Ok in H as ([[es keys] o3] & H3 & H). injection H as <- <-.
    apply (readLength_sound b Hb 5) in H2 as (S2 & Hv & Hl); [|lia..]. unfold span in *.
    apply (repeatM_inv (entries_read (d + 1) o2)) in H3 as (Hlen & _ & Hok & S3 & HF & Hbl).
    + assert (blen es = v) as Hbv by (unfold blen; lia). unfold span in S3.
      split; [lia|]. split; [apply fits_map; rewrite Hbv; split_and!; [done|lia|done..]|].
      cbn [enc]. rewrite blen_app, Hbv. lia.
    + intros k [[acc ks] o4] s' Hinv Hstep. pose proof Hinv as (_ & _ & _ & S3 & _). unfold span in S3.
      apply bind_Ok in Hstep as ([key o5] & H5 & Hstep).
      apply IH in H5 as (S5 & Hf & Hb5); [|lia]. destruct key as [| | | |key| |]; try done.
      case_bool_decide; [done|]. apply bind_Ok in Hstep as ([val o6] & H6 & Hstep). injection Hstep as <-.
      unfold span in S5. apply IH in H6 as (S6 & Hfv & Hb6); [|lia].
      by eapply entry_step.
    + unfold entries_read, span, obj_ok. cbn. split_and!; first [done|constructor|blen_lia].
  - unfold readSimple in H.
    repeat match type of H with (if ?c then _ else _) = _ => destruct c end; try done;
      try (injection H as <- <-; unfold span in *; cbn [fits enc]; split_and!; first [done|blen_lia]).
    apply bind_Ok in H as ([s o2] & H2 & H). apply (readBytes_sound b Hb) in H2 as (S2 & -> & Hs & Hsb); [|lia..].
    destruct (is_finite _) eqn:Hfin; [|done]. cbn [negb] in H.
    destruct (_ && _) eqn:Hsafe; [done|]. injection H as <- <-. unfold span in *.
    assert (num_fits (of_bits64 (be_value s))) as Hf.
    { pose proof (be_value_bounds s Hsb) as Hbv. rewrite Hs in Hbv.
      split_and!; [by apply of_bits64_valid|done|]. intros Hint _. rewrite Hint in Hsafe.
      cbn in Hsafe. by apply negb_false_iff in Hsafe. }
    pose proof (num_bytes_max _ Hf). cbn [fits enc]. split_and!; first [done|lia].
Qed.
End ReadItemSound.

(** ** Fuel: the nesting limit bounds the recursion *)

Lemma repeatM_ext {S} (f g : S -> result CborError S) n s :
  (forall s, f s = g s) -> repeatM f n s = repeatM g n s.
Proof.
  intros Hfg. revert s. induction n as [|n IH]; intros s; cbn; [done|].
  rewrite Hfg. destruct (g s); cbn; [apply IH|done].
Qed.

Lemma readItem_fuel b o m1 m2 d off :
  (encode_fuel o d <= m1)%nat -> (encode_fuel o d <= m2)%nat ->
  readItem b o m1 d off = readItem b o m2 d off.
Proof.
  revert m2 d off. induction m1 as [|m1 IH]; intros [|m2] d off H1 H2; cbn [readItem];
    [done|destruct (Z.ltb_spec (maxDepth o) d); [done|]; rewrite encode_fuel_S in * by done; lia..|].
  destruct (Z.ltb_spec (maxDepth o) d); [done|]. rewrite encode_fuel_S in * by done.
    assert (forall off, readItem b o m1 (d + 1) off = readItem b o m2 (d + 1) off) as E
      by (intros; apply IH; lia).
    destruct (readByte b off) as [[i o1]|]; [|done]. cbn [mbind result_bind].
    repeat match goal with |- context [if ?c then _ else _] => destruct c; try done end;
      (destruct (readLength _ _ _ _ _) as [[len o2]|]; [|done]); cbn [mbind result_bind];
      (erewrite repeatM_ext; [reflexivity|]); intros; repeat case_match; simplify_eq; rewrite ?E; try done.
    destruct (readItem b o m2 (d + 1) _) as [[[] ?]|]; try done. cbn. case_bool_decide; [done|].
    by rewrite E.
Qed.

Lemma foldM_ext {S A} (f g : S -> A -> result CborError S) l s :
  (forall s x, f s x = g s x) -> foldM f s l = foldM g s l.
Proof.
  intros Hfg. revert s. induction l as [|x l IH]; intros s; cbn; [done|].
  rewrite Hfg. destruct (g s x); cbn; [apply IH|done].
Qed.

Lemma encodeValue_fuel h o m1 m2 v d anc w :
  (encode_fuel o d <= m1)%nat -> (encode_fuel o d <= m2)%nat ->
  encodeValue m1 h v o d anc w = encodeValue m2 h v o d anc w.
Proof.
  revert m2 v d anc w. induction m1 as [|m1 IH]; intros [|m2] v d anc w H1 H2; cbn [encodeValue];
    [done|destruct (Z.ltb_spec (maxDepth o) d); [done|]; rewrite encode_fuel_S in * by done; lia..|].
  destruct (Z.ltb_spec (maxDepth o) d); [done|]. rewrite encode_fuel_S in * by done.
    assert (forall v anc w, encodeValue m1 h v o (d + 1) anc w = encodeValue m2 h v o (d + 1) anc w) as E
      by (intros; apply IH; lia).
    destruct v as [| | | | |l|]; try done. destruct (h !! l) as [[data|es|[] [] ps]|]; try done;
      (case_bool_decide; [done|]); destruct (_ <? _); try done;
      destruct (writeArgument _ _ w) as [w1|]; cbn [mbind result_bind]; try done;
      apply foldM_ext.
    + intros w2 [[]|]; try done.
    + intros w2 [k v]. destruct (encodeText k o w2); [|done]. apply E.
Qed.
