(* ===== verification/CborSpec.v ===== *)
(** * CBOR: what the encoder and the decoder promise

The contract of packages/protocol/src/cbor, stated over [tree_of], [fits] and
[enc] of CborValue.v: the encoder refines the wire format, encoding then
decoding is the identity on trees, what is decoded respects every limit and
re-encodes canonically, a cyclic value is an error, and the recursion of both
directions is bounded by the nesting limit. *)
From S2P Require Import Prelude JsNumber JsObject Utf8 CborValue CborEncoder CborDecoder.
From stdpp Require Import relations.
From Stdlib Require Import SpecFloat.
#[local] Open Scope Z_scope.

(** [l'] is an element or an own property of the object at [l]. *)
Definition child (h : heap) (l l' : positive) : Prop :=
  match h !! l with
  | Some (HArray es) => Some (VRef l') ∈ es
  | Some (HObject _ _ ps) => VRef l' ∈ ps.*2
  | _ => False
  end.

(** ** Shared facts *)

Lemma encodeCbor_sound h v opts b :
  heap_ok h -> val_ok v -> encodeCbor h v opts = Ok b ->
  exists o n t, resolveOptions opts = Ok o /\ tree_of n h v = Some t /\ fits o 0 t /\
    blen (enc t) <= maxByteLength o /\ b = enc t.
Proof.
  intros Hh Hv H. unfold encodeCbor in H.
  apply bind_Ok in H as (o & Ho & H). apply bind_Ok in H as (w & Hw & H). injection H as <-.
  pose proof (resolveOptions_ok _ _ Ho) as Hok. assert (0 <= maxByteLength o) as Hmax by apply Hok.
  apply encodeValue_sound in Hw as (t & Ht & Hf & Ha); [|by auto using new_writer_ok..].
  destruct Ha as ([_ Hwo] & Hfin & Hm & Hoff). rewrite finish_new in Hfin. cbn in Hm, Hoff.
  exists o, (encode_fuel o 0), t. split_and!; [done..|lia|done].
Qed.

Lemma encodeCbor_complete h v opts o n t :
  heap_ok h -> val_ok v -> resolveOptions opts = Ok o -> tree_of n h v = Some t -> fits o 0 t ->
  blen (enc t) <= maxByteLength o -> encodeCbor h v opts = Ok (enc t).
Proof.
  intros Hh Hv Ho Ht Hf Hl. pose proof (resolveOptions_ok _ _ Ho) as Hok.
  assert (0 <= maxByteLength o) as Hmax by apply Hok.
  destruct (encodeValue_complete n h v t o 0 ∅ (new_writer (maxByteLength o))) as (w & Hw & Ha);
    [by auto using new_writer_ok..|by intros ? ? ? ?%elem_of_empty|cbn; lia|].
  unfold encodeCbor. rewrite Ho. cbn. rewrite Hw. cbn. f_equal.
  destruct Ha as (_ & Hfin & _). by rewrite Hfin, finish_new.
Qed.

Lemma decodeCbor_sound data opts t :
  bytes_ok data -> decodeCbor data opts = Ok t ->
  exists o, resolveOptions opts = Ok o /\ fits o 0 t /\ blen (enc t) <= blen data /\
    blen data <= maxByteLength o.
Proof.
  intros Hb H. unfold decodeCbor, decode in H. apply bind_Ok in H as (o & Ho & H).
  destruct (Z.ltb_spec (maxByteLength o) (blen data)); [done|].
  apply bind_Ok in H as ([t' off] & Hr & H). destruct (Z.eqb_spec off (blen data)); [|done].
  injection H as <-. pose proof (resolveOptions_ok _ _ Ho) as Hok.
  apply readItem_sound in Hr as (_ & Hf & Hl); [|done..]. exists o. split_and!; [done..|lia|done].
Qed.

Lemma tree_of_child n h l l' t :
  child h l l' -> tree_of n h (VRef l) = Some t ->
  exists m t', tree_of m h (VRef l') = Some t' /\ (cbor_size t' < cbor_size t)%nat.
Proof.
  unfold child. destruct n as [|n]; [done|]. cbn [tree_of].
  destruct (h !! l) as [[d|es|[] [] ps]|]; try done; intros Hc (ts & Hts & ->)%fmap_Some.
  - apply mapM_Some in Hts. apply list_elem_of_lookup in Hc as (i & Hi).
    eapply Forall2_lookup_l in Hts as (t' & Ht' & Htr); [|exact Hi]. cbn in Htr.
    exists n, t'. split; [done|]. cbn.
    pose proof (elem_size cbor_size t' ts ltac:(by eapply list_elem_of_lookup_2)). lia.
  - apply mapM_Some in Hts. apply list_elem_of_fmap in Hc as ([k v] & Hv & Hc). cbn in Hv. subst v.
    assert ((k, VRef l') ∈ filter (fun p => p.2 <> VUndefined) ps) as Hin
      by (apply list_elem_of_filter; done).
    apply list_elem_of_lookup in Hin as (i & Hi).
    eapply Forall2_lookup_l in Hts as (e & He & Htr); [|exact Hi]. cbn [fst snd] in Htr.
    apply fmap_Some in Htr as (t' & Ht' & ->). exists n, t'. split; [done|]. cbn.
    pose proof (elem_size (fun e => cbor_size e.2) (k, t') ts ltac:(by eapply list_elem_of_lookup_2)).
    cbn in *. lia.
Qed.

Lemma tree_of_rtc h l l' n t :
  rtc (child h) l l' -> tree_of n h (VRef l) = Some t ->
  exists m t', tree_of m h (VRef l') = Some t' /\ (cbor_size t' <= cbor_size t)%nat.
Proof.
  intros Hr. revert n t. induction Hr as [l|l l1 l' Hc _ IH]; intros n t Ht; [eauto|].
  eapply tree_of_child in Hc as (m & t1 & Ht1 & Hs); [|done].
  apply IH in Ht1 as (m' & t' & Ht' & ?). exists m', t'. split; [done|lia].
Qed.

(** A cyclic object has no tree. *)
Lemma tree_of_cycle h l n t : tc (child h) l l -> tree_of n h (VRef l) = Some t -> False.
Proof.
  intros Hc Ht.
  assert (exists l1, child h l l1 /\ rtc (child h) l1 l) as (l1 & Hl1 & Hr).
  { inversion Hc; subst; eauto using rtc_refl, tc_rtc. }
  destruct (tree_of_child _ _ _ _ _ Hl1 Ht) as (m & t1 & Ht1 & Hs).
  destruct (tree_of_rtc _ _ _ _ _ Hr Ht1) as (m' & t' & Ht' & Hs').
  rewrite (tree_of_det _ _ _ _ _ _ Ht' Ht) in Hs'. lia.
Qed.

(** ** A concrete value

[{ name: "é", list: [1, -1, null, true], skip: undefined, raw: <01 ff> }], and
an array that contains itself. *)
Definition sample_heap : heap :=
  <[1%positive := HObject true false
      [($"name", VStr [233]); ($"list", VRef 2); ($"skip", VUndefined); ($"raw", VRef 3)]]>
  (<[2%positive := HArray [Some (VNum (of_Z 1)); Some (VNum (of_Z (-1))); Some VNull; Some (VBool true)]]>
  (<[3%positive := HBytes [1; 255]]>
  (<[4%positive := HArray [Some (VRef 4)]]> ∅))).

Definition sample_tree : cbor :=
  CMap [($"name", CText [233]);
        ($"list", CArray [CNum (of_Z 1); CNum (of_Z (-1)); CNull; CBool true]);
        ($"raw", CBytes [1; 255])].

Lemma sample_heap_ok : heap_ok sample_heap.
Proof.
  unfold heap_ok, sample_heap. repeat apply map_Forall_insert_2; [..|apply map_Forall_empty]; cbn.
  - split; [split|].
    + by apply (bool_decide_unpack _); vm_compute.
    + repeat constructor.
    + repeat constructor.
  - repeat constructor; by vm_compute.
  - done.
  - repeat constructor.
Qed.

(** ** The contract *)

(** C1. The encoder implements the wire format, completely: under options that
    resolve, [encodeCbor] returns bytes exactly when the value stands for a tree that
    respects every limit and fits the byte limit, and those bytes are the canonical
    encoding of that tree (limits, holes, cycles, unsafe integers, lone surrogates,
    and symbol keys are the errors). *)
Theorem encodeCbor_spec h v opts o b :
  heap_ok h -> val_ok v -> resolveOptions opts = Ok o ->
  encodeCbor h v opts = Ok b <->
  exists n t, tree_of n h v = Some t /\ fits o 0 t /\ blen (enc t) <= maxByteLength o /\ b = enc t.
Proof.
  intros Hh Hv Ho. split.
  - intros (o' & n & t & Ho' & Ht & Hf & Hl & ->)%encodeCbor_sound; [|done..].
    replace o' with o in * by congruence. eauto 10.
  - intros (n & t & Ht & Hf & Hl & ->). by eapply encodeCbor_complete.
Qed.

Lemma encodeCbor_spec_witness :
  exists n t, tree_of n sample_heap (VRef 1) = Some t /\
    fits {| maxByteLength := DEFAULT_MAX_CBOR_BYTE_LENGTH;
            maxContainerLength := DEFAULT_MAX_CBOR_CONTAINER_LENGTH;
            maxDepth := DEFAULT_MAX_CBOR_DEPTH |} 0 t /\
    blen (enc t) <= DEFAULT_MAX_CBOR_BYTE_LENGTH /\
    [163; 100; 110; 97; 109; 101; 98; 195; 169; 100; 108; 105; 115; 116; 132; 1; 32; 246; 245;
     99; 114; 97; 119; 66; 1; 255] = enc t.
Proof.
  refine (proj1 (encodeCbor_spec sample_heap (VRef 1) None _ _ sample_heap_ok I resolveOptions_default) _).
  vm_compute. reflexivity.
Defined.

(** C2. Encoding then decoding with the same options returns the tree the value
    stands for. *)
Theorem cbor_roundtrip h v opts b :
  heap_ok h -> val_ok v -> encodeCbor h v opts = Ok b ->
  exists n t, tree_of n h v = Some t /\ decodeCbor b opts = Ok t.
Proof.
  intros Hh Hv (o & n & t & Ho & Ht & Hf & Hl & ->)%encodeCbor_sound; [|done..].
  exists n, t. split; [done|]. by eapply decodeCbor_enc.
Qed.

Lemma cbor_roundtrip_witness :
  exists b n t, encodeCbor sample_heap (VRef 1) None = Ok b /\
    tree_of n sample_heap (VRef 1) = Some t /\ decodeCbor b None = Ok t.
Proof.
  destruct (encodeCbor sample_heap (VRef 1) None) as [b|e] eqn:E; [|vm_compute in E; discriminate E].
  destruct (cbor_roundtrip sample_heap (VRef 1) None b sample_heap_ok I E) as (n & t & Ht & Hd).
  exists b, n, t. repeat split; assumption.
Defined.

(** Whatever bytes the decoder accepts, the tree it returns respects the depth,
    length, integer and text limits; its canonical encoding is no longer than the input
    and decodes to the same tree, so re-encoding accepted data never exceeds a limit. *)
Theorem decodeCbor_canonical data opts t :
  bytes_ok data -> decodeCbor data opts = Ok t ->
  exists o, resolveOptions opts = Ok o /\ fits o 0 t /\ blen (enc t) <= blen data <= maxByteLength o /\
    decodeCbor (enc t) opts = Ok t.
Proof.
  intros Hb (o & Ho & Hf & Hl & Hm)%decodeCbor_sound; [|done].
  exists o. split_and!; [done..|]. eapply decodeCbor_enc; [done..|lia].
Qed.

(** A non-canonical input: 5 in a two-byte head, [false] in an array of length
    written on four bytes. *)
Lemma decodeCbor_canonical_witness :
  exists o, resolveOptions None = Ok o /\ fits o 0 (CArray [CNum (of_Z 5); CBool false]) /\
    blen (enc (CArray [CNum (of_Z 5); CBool false])) <= 8 <= maxByteLength o /\
    decodeCbor (enc (CArray [CNum (of_Z 5); CBool false])) None = Ok (CArray [CNum (of_Z 5); CBool false]).
Proof.
  apply (decodeCbor_canonical [154; 0; 0; 0; 2; 24; 5; 244] None).
  - repeat constructor; lia.
  - vm_compute. reflexivity.
Defined.

(** A value from which a cyclic object can be reached is never encoded: the
    encoder ends with an error instead of looping or writing a partial value. *)
Theorem encodeCbor_cycle h v l l' opts :
  heap_ok h -> v = VRef l -> rtc (child h) l l' -> tc (child h) l' l' ->
  exists e, encodeCbor h v opts = Err e.
Proof.
  intros Hh -> Hr Hc. destruct (encodeCbor h (VRef l) opts) as [b|e] eqn:E; [|eauto]. exfalso.
  apply encodeCbor_sound in E as (o & n & t & _ & Ht & _); [|done..].
  eapply tree_of_rtc in Ht as (m & t' & Ht' & _); [|done]. by eapply tree_of_cycle.
Qed.

Lemma encodeCbor_cycle_witness : exists e, encodeCbor sample_heap (VRef 4) None = Err e.
Proof.
  apply (encodeCbor_cycle sample_heap (VRef 4) 4%positive 4%positive None sample_heap_ok eq_refl).
  - apply rtc_refl.
  - apply tc_once. unfold child, sample_heap. cbn. left.
Defined.

(** The nesting limit bounds the recursion of both directions: with the fuel the
    entry points use, or any larger one, a value or an item at depth [d] gives the same
    result, so no outcome of the encoder or of the decoder is due to the fuel. *)
Theorem cbor_recursion_bounded o d m :
  (encode_fuel o d <= m)%nat ->
  (forall h v anc w, encodeValue m h v o d anc w = encodeValue (encode_fuel o d) h v o d anc w) /\
  (forall data off, readItem data o m d off = readItem data o (encode_fuel o d) d off).
Proof.
  intros Hm. split; intros; [by apply encodeValue_fuel|by apply readItem_fuel].
Qed.

Lemma cbor_recursion_bounded_witness :
  (encode_fuel {| maxByteLength := 10; maxContainerLength := 10; maxDepth := 2 |} 0 <= 3)%nat /\
  forall data off,
    readItem data {| maxByteLength := 10; maxContainerLength := 10; maxDepth := 2 |} 7 0 off =
    readItem data {| maxByteLength := 10; maxContainerLength := 10; maxDepth := 2 |} 3 0 off.
Proof.
  split; [vm_compute; lia|].
  apply (cbor_recursion_bounded {| maxByteLength := 10; maxContainerLength := 10; maxDepth := 2 |} 0 7).
  vm_compute. lia.
Defined.
