(* ===== verification/Framing.v ===== *)
(** * Length-prefixed framing (packages/protocol/src/framing.ts)

[encodeFrame] and the incremental [FrameDecoder], with its header buffer, its
list of payload blocks and its open/ended/failed state.  The abstract
specification is [parse], which splits a byte sequence into complete frames
and a rest: a decoder stands for the bytes it has received and not yet
returned ([pending]), and [push] is one step of [parse] ([push_refines]). *)
From S2P Require Import Prelude JsNumber.
#[local] Open Scope Z_scope.

Definition FRAME_HEADER_LENGTH : Z := 4.
Definition MAX_FRAME_UINT32 : Z := 0xffffffff.
Definition PAYLOAD_BLOCK_SIZE : Z := 64 * 1024.
Arguments PAYLOAD_BLOCK_SIZE : simpl never.
Definition DEFAULT_MAX_FRAME_LENGTH : Z := 16 * 1024 * 1024.

Inductive FrameError :=
| DecoderEnded
| DecoderFailed
| FrameTooLong (frameLength limit : Z)
| FrameTruncated
| PayloadTooLong
| MaxFrameLengthInvalid.

Definition resolveMaxFrameLength (options : option num) : result FrameError Z :=
  let value := default (of_Z DEFAULT_MAX_FRAME_LENGTH) options in
  if negb (is_safe_integer value) || (to_Z value <? 0) || (MAX_FRAME_UINT32 <? to_Z value)
  then Err MaxFrameLengthInvalid else Ok (to_Z value).

Definition zeros (n : Z) : bytes := replicate (Z.to_nat n) 0.

Definition encodeFrame (payload : bytes) : result FrameError bytes :=
  if MAX_FRAME_UINT32 <? blen payload then Err PayloadTooLong
  else
    let frame := zeros (FRAME_HEADER_LENGTH + blen payload) in
    let length := blen payload in
    let frame := u8_set frame 0 (ushr length 24) in
    let frame := u8_set frame 1 (ushr length 16) in
    let frame := u8_set frame 2 (ushr length 8) in
    let frame := u8_set frame 3 length in
    Ok (u8_copy frame payload FRAME_HEADER_LENGTH).

Inductive DecoderState := open | ended | failed.

(** [currentPayloadBlock] is the position in [payloadBlocks] of the block it
    refers to, so that filling the current block fills the listed one. *)
Record FrameDecoder := mkDecoder {
  header : bytes;
  headerLength : Z;
  maxFrameLength : Z;
  payloadBlocks : list bytes;
  currentPayloadBlock : option nat;
  currentPayloadBlockLength : Z;
  expectedPayloadLength : option Z;
  payloadLength : Z;
  state : DecoderState;
}.

Definition new_decoder (options : option num) : result FrameError FrameDecoder :=
  resolveMaxFrameLength options ≫= fun maxFrameLength =>
  Ok (mkDecoder (zeros FRAME_HEADER_LENGTH) 0 maxFrameLength [] None 0 None 0 open).

Definition set_header (d : FrameDecoder) (h : bytes) (hl : Z) : FrameDecoder :=
  mkDecoder h hl (maxFrameLength d) (payloadBlocks d) (currentPayloadBlock d)
    (currentPayloadBlockLength d) (expectedPayloadLength d) (payloadLength d) (state d).

Definition set_state (d : FrameDecoder) (s : DecoderState) : FrameDecoder :=
  mkDecoder (header d) (headerLength d) (maxFrameLength d) (payloadBlocks d) (currentPayloadBlock d)
    (currentPayloadBlockLength d) (expectedPayloadLength d) (payloadLength d) s.

(** The payload fields back to their initial values, waiting for
    [expected] bytes. *)
Definition reset_payload (d : FrameDecoder) (expected : option Z) : FrameDecoder :=
  mkDecoder (header d) (headerLength d) (maxFrameLength d) [] None 0 expected 0 (state d).

Definition fail (d : FrameDecoder) : FrameDecoder :=
  mkDecoder (header d) 0 (maxFrameLength d) [] None 0 None 0 failed.

Definition current_block (d : FrameDecoder) : option bytes :=
  currentPayloadBlock d ≫= fun i => payloadBlocks d !! i.

(** A fresh block when there is none or the current one is full. *)
Definition ensure_block (d : FrameDecoder) (expected : Z) : FrameDecoder :=
  match current_block d with
  | Some block =>
      if currentPayloadBlockLength d =? blen block then
        mkDecoder (header d) (headerLength d) (maxFrameLength d)
          (payloadBlocks d ++ [zeros (Z.min PAYLOAD_BLOCK_SIZE (expected - payloadLength d))])
          (Some (length (payloadBlocks d))) 0 (expectedPayloadLength d) (payloadLength d) (state d)
      else d
  | None =>
      mkDecoder (header d) (headerLength d) (maxFrameLength d)
        (payloadBlocks d ++ [zeros (Z.min PAYLOAD_BLOCK_SIZE (expected - payloadLength d))])
        (Some (length (payloadBlocks d))) 0 (expectedPayloadLength d) (payloadLength d) (state d)
  end.

(** [block.set(chunk.subarray(chunkOffset, chunkOffset + payloadBytes), currentPayloadBlockLength)] *)
Definition fill_block (d : FrameDecoder) (chunk : bytes) (chunkOffset payloadBytes : Z) : FrameDecoder :=
  mkDecoder (header d) (headerLength d) (maxFrameLength d)
    (match currentPayloadBlock d with
     | Some i => alter (fun block =>
         u8_copy block (slice chunk chunkOffset (chunkOffset + payloadBytes)) (currentPayloadBlockLength d))
         i (payloadBlocks d)
     | None => payloadBlocks d
     end)
    (currentPayloadBlock d) (currentPayloadBlockLength d + payloadBytes)
    (expectedPayloadLength d) (payloadLength d + payloadBytes) (state d).

(** [while (chunkOffset < chunk.byteLength && payloadLength < expectedPayloadLength)] *)
Fixpoint payload_loop (fuel : nat) (d : FrameDecoder) (chunk : bytes) (chunkOffset expected : Z)
    : FrameDecoder * Z :=
  match fuel with
  | O => (d, chunkOffset)
  | S n =>
      if (chunkOffset <? blen chunk) && (payloadLength d <? expected) then
        let d := ensure_block d expected in
        let payloadBytes := Z.min (blen (default [] (current_block d)) - currentPayloadBlockLength d)
                                  (blen chunk - chunkOffset) in
        payload_loop n (fill_block d chunk chunkOffset payloadBytes) chunk (chunkOffset + payloadBytes) expected
      else (d, chunkOffset)
  end.

(** The frame the collected blocks make. *)
Definition assemble (d : FrameDecoder) (expected : Z) : bytes :=
  match payloadBlocks d with
  | [block] => block
  | blocks =>
      (foldl (fun '(payload, offset) block => (u8_copy payload block offset, offset + blen block))
         (zeros expected, 0) blocks).1
  end.

(** The part of the loop body after the header. *)
Definition payload_part (d : FrameDecoder) (chunk : bytes) (chunkOffset expected : Z)
    : FrameDecoder * Z * list bytes :=
  let '(d, chunkOffset) := payload_loop (length chunk) d chunk chunkOffset expected in
  if payloadLength d =? expected
  then (reset_payload d None, chunkOffset, [assemble d expected])
  else (d, chunkOffset, []).

(** [while (chunkOffset < chunk.byteLength)]; every iteration consumes a byte. *)
Fixpoint push_loop (fuel : nat) (d : FrameDecoder) (chunk : bytes) (chunkOffset : Z) (frames : list bytes)
    : FrameDecoder * result FrameError (list bytes) :=
  match fuel with
  | O => (d, Ok frames)
  | S n =>
      if chunkOffset <? blen chunk then
        match expectedPayloadLength d with
        | None =>
            let headerBytes := Z.min (FRAME_HEADER_LENGTH - headerLength d) (blen chunk - chunkOffset) in
            let d := set_header d
              (u8_copy (header d) (slice chunk chunkOffset (chunkOffset + headerBytes)) (headerLength d))
              (headerLength d + headerBytes) in
            let chunkOffset := chunkOffset + headerBytes in
            if headerLength d <? FRAME_HEADER_LENGTH then push_loop n d chunk chunkOffset frames
            else
              let byte i := default 0 (at_ (header d) i) in
              let frameLength := byte 0 * 0x1000000 + byte 1 * 0x10000 + byte 2 * 0x100 + byte 3 in
              let d := set_header d (header d) 0 in
              if maxFrameLength d <? frameLength then (fail d, Err (FrameTooLong frameLength (maxFrameLength d)))
              else if frameLength =? 0 then push_loop n d chunk chunkOffset (frames ++ [[]])
              else
                let '(d, chunkOffset, complete) :=
                  payload_part (reset_payload d (Some frameLength)) chunk chunkOffset frameLength in
                push_loop n d chunk chunkOffset (frames ++ complete)
        | Some expected =>
            let '(d, chunkOffset, complete) := payload_part d chunk chunkOffset expected in
            push_loop n d chunk chunkOffset (frames ++ complete)
        end
      else (d, Ok frames)
  end.

Definition push (d : FrameDecoder) (chunk : bytes) : FrameDecoder * result FrameError (list bytes) :=
  match state d with
  | ended => (d, Err DecoderEnded)
  | failed => (d, Err DecoderFailed)
  | open => push_loop (length chunk) d chunk 0 []
  end.

Definition end_ (d : FrameDecoder) : FrameDecoder * result FrameError unit :=
  match state d with
  | ended => (d, Err DecoderEnded)
  | failed => (d, Err DecoderFailed)
  | open =>
      if negb (headerLength d =? 0) || bool_decide (is_Some (expectedPayloadLength d))
      then (fail d, Err FrameTruncated)
      else (set_state d ended, Ok tt)
  end.

(** Successive pushes, stopped by the first error. *)
Fixpoint push_all (d : FrameDecoder) (chunks : list bytes) : FrameDecoder * result FrameError (list bytes) :=
  match chunks with
  | [] => (d, Ok [])
  | chunk :: rest =>
      match push d chunk with
      | (d, Ok frames) =>
          match push_all d rest with
          | (d, Ok frames') => (d, Ok (frames ++ frames'))
          | (d, Err e) => (d, Err e)
          end
      | (d, Err e) => (d, Err e)
      end
  end.

(** ** Specification *)

(** Complete frames of [s] and the rest, or the length of the first frame
    that is too long. *)
Fixpoint parse (fuel : nat) (limit : Z) (s : bytes) : result Z (list bytes * bytes) :=
  match fuel with
  | O => Ok ([], s)
  | S n =>
      if blen s <? 4 then Ok ([], s)
      else
        let len := be_value (take 4 s) in
        if limit <? len then Err len
        else if blen s <? 4 + len then Ok ([], s)
        else parse n limit (drop (Z.to_nat (4 + len)) s) ≫= fun '(frames, rest) =>
             Ok (slice s 4 (4 + len) :: frames, rest)
  end.

Definition parse_all (limit : Z) (s : bytes) : result Z (list bytes * bytes) := parse (length s) limit s.

(** [p] is the part of an [n]-byte payload received so far: every block but
    the last is full, the last one has room for what is missing, up to the block
    size. *)
Definition partial (d : FrameDecoder) (n : Z) (p : bytes) : Prop :=
  payloadLength d = blen p /\ blen p <= n /\
  ((payloadBlocks d = [] /\ currentPayloadBlock d = None /\ p = []) \/
   exists full cur,
     payloadBlocks d = full ++ [cur] /\ currentPayloadBlock d = Some (length full) /\
     0 <= currentPayloadBlockLength d <= blen cur /\
     (blen (mjoin full) + blen cur <= n /\ blen cur <= PAYLOAD_BLOCK_SIZE) /\
     p = mjoin full ++ take (Z.to_nat (currentPayloadBlockLength d)) cur).

(** An open decoder that received [s] since the last complete frame. *)
Definition pending (d : FrameDecoder) (s : bytes) : Prop :=
  state d = open /\ blen (header d) = 4 /\ 0 <= maxFrameLength d /\
  match expectedPayloadLength d with
  | None => s = take (Z.to_nat (headerLength d)) (header d) /\ 0 <= headerLength d < 4
  | Some n =>
      headerLength d = 0 /\ 0 < n <= maxFrameLength d /\
      exists p, s = header d ++ p /\ n = be_value (header d) /\ partial d n p /\ blen p < n
  end.

(** ** Facts of the specification *)

Lemma parse_fuel n m limit s :
  bytes_ok s -> (length s <= n)%nat -> (length s <= m)%nat -> parse n limit s = parse m limit s.
Proof.
  revert m s. induction n as [|n IH]; intros [|m] s Hs Hn Hm; cbn [parse]; unfold blen;
    [done|destruct (Z.ltb_spec (Z.of_nat (length s)) 4); [done|lia]..|].
  destruct (Z.ltb_spec (Z.of_nat (length s)) 4); [done|].
  destruct (_ <? be_value _); [done|].
  pose proof (be_value_bounds (take 4 s) (Forall_take _ _ _ Hs)).
  destruct (_ <? 4 + _); [done|].
  rewrite (IH m); [done|by apply Forall_drop|rewrite length_drop; lia..].
Qed.

(** One step of the specification on a complete header. *)
Lemma parse_step limit h s :
  bytes_ok (h ++ s) -> blen h = 4 ->
  parse_all limit (h ++ s) =
    let len := be_value h in
    if limit <? len then Err len
    else if blen s <? len then Ok ([], h ++ s)
    else parse_all limit (drop (Z.to_nat len) s) ≫= fun '(frames, rest) =>
         Ok (take (Z.to_nat len) s :: frames, rest).
Proof.
  intros Hs Hh. unfold parse_all. assert (length h = 4%nat) as Hh' by (unfold blen in Hh; lia).
  assert (length (h ++ s) = S (3 + length s)) as Hl by (rewrite length_app; lia).
  rewrite Hl. cbn [parse]. unfold blen at 1. rewrite Hl.
  destruct (Z.ltb_spec (Z.of_nat (S (3 + length s))) 4); [lia|].
  rewrite take_app_length' by done. cbn zeta. destruct (_ <? be_value h); [done|].
  apply Forall_app in Hs as [Hbh Hbs]. pose proof (be_value_bounds h Hbh).
  rewrite blen_app, Hh.
  destruct (Z.ltb_spec (4 + blen s) (4 + be_value h)), (Z.ltb_spec (blen s) (be_value h)); try lia; [done|].
  unfold slice. rewrite !Z2Nat.inj_add, drop_app_add' by lia.
  rewrite drop_app_length' by (cbn; lia).
  replace (Z.to_nat (4 + be_value h - 4)) with (Z.to_nat (be_value h)) by lia.
  erewrite parse_fuel; [done|by apply Forall_drop|rewrite length_drop; lia..].
Qed.

Lemma parse_short limit s : blen s < 4 -> parse_all limit s = Ok ([], s).
Proof.
  intros Hl. unfold parse_all. destruct s as [|x s]; [done|]. cbn [length parse].
  destruct (Z.ltb_spec (blen (x :: s)) 4); [done|lia].
Qed.

Lemma split_header (s : bytes) : 4 <= blen s -> exists h t, s = h ++ t /\ blen h = 4.
Proof.
  intros Hl. exists (take 4 s), (drop 4 s). rewrite take_drop. split; [done|].
  unfold blen in *. rewrite length_take. lia.
Qed.

(** Parsing is incremental: parse a prefix, then the rest with what follows. *)
Lemma parse_app limit s1 s2 :
  bytes_ok (s1 ++ s2) ->
  parse_all limit (s1 ++ s2) =
    match parse_all limit s1 with
    | Err len => Err len
    | Ok (frames, rest) => parse_all limit (rest ++ s2) ≫= fun '(frames', rest') => Ok (frames ++ frames', rest')
    end.
Proof.
  remember (length s1) as n eqn:Hn. revert s1 Hn. induction n as [n IH] using lt_wf_ind.
  intros s1 -> Hs. destruct (Z.lt_ge_cases (blen s1) 4) as [Hl|Hl].
  { rewrite (parse_short _ s1) by done. cbn. by destruct (parse_all _ _) as [[]|]. }
  destruct (split_header s1 Hl) as (h & t & -> & Hh). clear Hl.
  rewrite <- app_assoc in *. pose proof Hs as Hs'. rewrite app_assoc in Hs'. apply Forall_app in Hs' as [Hs' _].
  rewrite !parse_step by done. cbn zeta. destruct (limit <? be_value h) eqn:Elim; [done|].
  pose proof (Forall_app (fun x => 0 <= x < 256) h t) as [Hht _]. destruct (Hht Hs') as [Hbh _].
  pose proof (be_value_bounds h Hbh) as Hlen. rewrite blen_app. pose proof (blen_nonneg s2).
  destruct (Z.ltb_spec (blen t) (be_value h)) as [Hlt|Hge].
  - rewrite <- app_assoc, parse_step by done. cbn zeta. rewrite blen_app.
    rewrite Elim. cbn. match goal with |- ?r = _ => by destruct r as [[]|] end.
  - destruct (Z.ltb_spec (blen t + blen s2) (be_value h)); [lia|].
    unfold blen in Hge. rewrite drop_app_le, take_app_le by lia.
    apply Forall_app in Hs as [_ Hs]. apply (Forall_drop _ (Z.to_nat (be_value h))) in Hs.
    rewrite drop_app_le in Hs by lia.
    rewrite (IH (length (drop (Z.to_nat (be_value h)) t))); [|unfold blen in Hh; rewrite length_app, length_drop; lia|done..].
    destruct (parse_all limit (drop _ t)) as [[fs r]|]; cbn; [|done].
    by destruct (parse_all limit (r ++ s2)) as [[]|].
Qed.

(** ** The decoder implements the specification *)

Lemma blen_zeros n : 0 <= n -> blen (zeros n) = n.
Proof. intros. unfold zeros, blen. rewrite length_replicate. lia. Qed.

Lemma slice_drop (b : bytes) i k : 0 <= i -> slice b i (i + k) = take (Z.to_nat k) (drop (Z.to_nat i) b).
Proof. intros. unfold slice. by replace (i + k - i) with k by lia. Qed.

(** Filling a block appends to its used part. *)
Lemma take_u8_copy b bs i :
  0 <= i -> i + blen bs <= blen b ->
  take (Z.to_nat (i + blen bs)) (u8_copy b bs i) = take (Z.to_nat i) b ++ bs.
Proof.
  intros Hi Hl. unfold u8_copy, blen in *. rewrite app_assoc. apply take_app_length'.
  rewrite length_app, length_take. lia.
Qed.

Lemma blen_u8_copy b bs i :
  0 <= i -> i + blen bs <= blen b -> blen (u8_copy b bs i) = blen b.
Proof. intros Hi Hl. unfold u8_copy, blen in *. rewrite !length_app, length_take, length_drop. lia. Qed.

(** The fields payload_loop leaves alone. *)
Definition same_frame (d d' : FrameDecoder) : Prop :=
  header d' = header d /\ headerLength d' = headerLength d /\ maxFrameLength d' = maxFrameLength d /\
  expectedPayloadLength d' = expectedPayloadLength d /\ state d' = state d.

Lemma same_frame_trans d1 d2 d3 : same_frame d1 d2 -> same_frame d2 d3 -> same_frame d1 d3.
Proof. unfold same_frame. naive_solver congruence. Qed.

(** After [ensure_block] the current block exists and has room. *)
Lemma ensure_block_spec d n p :
  partial d n p -> blen p < n ->
  same_frame d (ensure_block d n) /\ partial (ensure_block d n) n p /\
  exists full cur, payloadBlocks (ensure_block d n) = full ++ [cur] /\
    currentPayloadBlock (ensure_block d n) = Some (length full) /\
    0 <= currentPayloadBlockLength (ensure_block d n) < blen cur /\
    (blen (mjoin full) + blen cur <= n /\ blen cur <= PAYLOAD_BLOCK_SIZE) /\
    p = mjoin full ++ take (Z.to_nat (currentPayloadBlockLength (ensure_block d n))) cur.
Proof.
  intros Hp Hlt. pose proof Hp as (Hpl & Hpn & Hcase). unfold ensure_block, current_block.
  assert (forall bs, mjoin bs = p -> let cur := zeros (Z.min PAYLOAD_BLOCK_SIZE (n - payloadLength d)) in
    0 < blen cur /\ (blen (mjoin bs) + blen cur <= n /\ blen cur <= PAYLOAD_BLOCK_SIZE) /\ p = mjoin bs ++ take (Z.to_nat 0) cur) as Hnew.
  { intros bs Hbs. cbn zeta. pose proof (blen_nonneg p). rewrite blen_zeros by (unfold PAYLOAD_BLOCK_SIZE; lia).
    rewrite Hbs, app_nil_r. unfold PAYLOAD_BLOCK_SIZE. split_and!; done || lia. }
  destruct Hcase as [(Hb & Hc & ->)|(full & cur & Hb & Hc & Hcl & Hsz & ->)]; rewrite Hc; cbn [mbind option_bind].
  - rewrite Hb. destruct (Hnew [] eq_refl) as (? & [? ?] & ?). split; [done|].
    split; [|exists [], (zeros (Z.min PAYLOAD_BLOCK_SIZE (n - payloadLength d))); cbn; split_and!; done || lia].
    split; [done|]. split; [done|]. right. eexists [], _. cbn. split_and!; done || lia.
  - rewrite Hb, lookup_app_r, Nat.sub_diag by done. cbn [lookup list_lookup].
    destruct (Z.eqb_spec (currentPayloadBlockLength d) (blen cur)) as [He|He].
    + assert (mjoin (full ++ [cur]) = mjoin full ++ take (Z.to_nat (currentPayloadBlockLength d)) cur) as Hj.
      { rewrite join_app. cbn. rewrite app_nil_r. f_equal. rewrite He. unfold blen. rewrite Nat2Z.id. by rewrite firstn_all. }
      destruct (Hnew (full ++ [cur]) Hj) as (? & [? ?] & ?). split; [done|].
      split; [|eexists (full ++ [cur]), _; cbn; split_and!; done || lia].
      split; [done|]. split; [done|]. right. eexists (full ++ [cur]), _. cbn. split_and!; done || lia.
    + split; [done|]. split; [done|]. exists full, cur. split_and!; done || lia.
Qed.

Lemma fill_block_spec d n p full cur chunk off k :
  payloadLength d = blen p ->
  payloadBlocks d = full ++ [cur] -> currentPayloadBlock d = Some (length full) ->
  0 <= currentPayloadBlockLength d -> 0 <= k -> currentPayloadBlockLength d + k <= blen cur ->
  (blen (mjoin full) + blen cur <= n /\ blen cur <= PAYLOAD_BLOCK_SIZE) -> 0 <= off -> off + k <= blen chunk ->
  p = mjoin full ++ take (Z.to_nat (currentPayloadBlockLength d)) cur ->
  same_frame d (fill_block d chunk off k) /\
  partial (fill_block d chunk off k) n (p ++ take (Z.to_nat k) (drop (Z.to_nat off) chunk)).
Proof.
  intros Hpl Hb Hc Hcl Hk Hroom Hsz Hoff Hin Hp. unfold fill_block. rewrite Hb, Hc. split; [done|].
  rewrite (slice_drop _ _ _ Hoff).
  set (data := take (Z.to_nat k) (drop (Z.to_nat off) chunk)).
  assert (blen data = k) as Hd by (subst data; unfold blen in *; rewrite length_take, length_drop; lia).
  assert (blen p = blen (mjoin full) + currentPayloadBlockLength d) as Hbp.
  { rewrite Hp, blen_app. f_equal. unfold blen in *. rewrite length_take. lia. }
  split; cbn; [rewrite blen_app; lia|]. split; [rewrite blen_app; lia|]. right.
  exists full, (u8_copy cur data (currentPayloadBlockLength d)).
  rewrite alter_app_r_alt, Nat.sub_diag by done. cbn. rewrite blen_u8_copy by lia.
  split_and!; try done; try lia.
  rewrite <- Hd, take_u8_copy by lia. by rewrite Hp, <- app_assoc.
Qed.

(** One round of the inner loop takes at least one byte. *)
Lemma payload_loop_spec fuel d chunk off n p :
  partial d n p -> 0 <= off <= blen chunk -> blen chunk - off <= Z.of_nat fuel ->
  let k := Z.min (n - blen p) (blen chunk - off) in
  exists d', payload_loop fuel d chunk off n = (d', off + k) /\ same_frame d d' /\
    partial d' n (p ++ take (Z.to_nat k) (drop (Z.to_nat off) chunk)).
Proof.
  revert d off p. induction fuel as [|fuel IH]; intros d off p Hp Hoff Hfuel; cbn zeta; cbn [payload_loop];
    pose proof Hp as (Hpl & Hpn & _).
  { exists d. replace (Z.min _ _) with 0 by lia. rewrite take_0, app_nil_r, Z.add_0_r. done. }
  rewrite Hpl. destruct (Z.ltb_spec off (blen chunk)), (Z.ltb_spec (blen p) n); cbn [andb];
    try (exists d; replace (Z.min _ _) with 0 by lia; rewrite take_0, app_nil_r, Z.add_0_r; done).
  destruct (ensure_block_spec d n p Hp) as (Hs1 & Hp1 & full & cur & Hb & Hc & Hcl & Hsz & Hpc); [done|].
  set (d1 := ensure_block d n) in *.
  assert (default [] (current_block d1) = cur) as ->.
  { unfold current_block. rewrite Hc. cbn. rewrite Hb, lookup_app_r, Nat.sub_diag by done. done. }
  set (k1 := Z.min (blen cur - currentPayloadBlockLength d1) (blen chunk - off)).
  assert (blen p = blen (mjoin full) + currentPayloadBlockLength d1) as Hbp.
  { rewrite Hpc, blen_app. f_equal. unfold blen in *. rewrite length_take. lia. }
  destruct (fill_block_spec d1 n p full cur chunk off k1) as (Hs2 & Hp2); try done; try lia; [apply Hp1|].
  set (data1 := take (Z.to_nat k1) (drop (Z.to_nat off) chunk)) in *.
  assert (blen data1 = k1) as Hd1 by (subst data1; unfold blen in *; rewrite length_take, length_drop; lia).
  destruct (IH (fill_block d1 chunk off k1) (off + k1) _ Hp2) as (d' & He & Hs3 & Hp3); [lia..|].
  rewrite blen_app, Hd1 in He, Hp3. exists d'.
  replace (off + Z.min (n - blen p) (blen chunk - off)) with
    (off + k1 + Z.min (n - (blen p + k1)) (blen chunk - (off + k1))) by lia.
  split; [done|]. split; [eauto using same_frame_trans|].
  rewrite <- app_assoc in Hp3. subst data1.
  rewrite Z2Nat.inj_add, <- drop_drop, take_take_drop in Hp3 by lia.
  by replace (Z.to_nat (Z.min (n - blen p) (blen chunk - off))) with
    (Z.to_nat k1 + Z.to_nat (Z.min (n - (blen p + k1)) (blen chunk - (off + k1))))%nat by lia.
Qed.

(** Copying the blocks one after the other concatenates them. *)
Lemma foldl_blocks blocks payload done_ tail :
  payload = done_ ++ tail -> blen tail = blen (mjoin blocks) ->
  (foldl (fun '(payload, offset) block => (u8_copy payload block offset, offset + blen block))
     (payload, blen done_) blocks).1 = done_ ++ mjoin blocks.
Proof.
  revert payload done_ tail. induction blocks as [|b bs IH]; intros payload done_ tail -> Ht; cbn [foldl fst].
  - cbn in Ht. apply blen_0 in Ht as ->. done.
  - change (mjoin (b :: bs)) with (b ++ mjoin bs) in *. rewrite blen_app in Ht.
    rewrite app_assoc, <- blen_app.
    assert (length tail = length b + length (mjoin bs))%nat as Hlt by (unfold blen in Ht; lia).
    apply (IH _ _ (drop (length b) tail)); [|unfold blen; rewrite length_drop; lia].
    unfold u8_copy, blen. rewrite Nat2Z.id, take_app_length, drop_app_add. by rewrite app_assoc.
Qed.

Lemma assemble_spec d n p : partial d n p -> blen p = n -> 0 < n -> assemble d n = p.
Proof.
  intros (Hpl & _ & [(_ & _ & ->)|(full & cur & Hb & Hc & Hcl & Hsz & ->)]) Hn Hpos; [blen_lia|].
  rewrite blen_app in Hn.
  assert (blen (take (Z.to_nat (currentPayloadBlockLength d)) cur) <= currentPayloadBlockLength d)
    by (unfold blen; rewrite length_take; lia).
  rewrite (take_ge cur) in * by (unfold blen in *; lia). unfold assemble. rewrite Hb.
  assert (mjoin (full ++ [cur]) = mjoin full ++ cur) as Hj by (rewrite join_app; cbn; by rewrite app_nil_r).
  assert ((foldl (fun '(payload, offset) block => (u8_copy payload block offset, offset + blen block))
     (zeros n, 0) (full ++ [cur])).1 = mjoin full ++ cur) as Hfold.
  { rewrite <- Hj. apply (foldl_blocks (full ++ [cur]) (zeros n) [] (zeros n)); [done|].
    rewrite Hj, blen_app, blen_zeros by lia. lia. }
  destruct full as [|b [|b' bs]]; [done|exact Hfold..].
Qed.

Lemma payload_part_spec d chunk off n p :
  partial d n p -> blen p < n -> 0 <= off <= blen chunk ->
  let k := Z.min (n - blen p) (blen chunk - off) in
  let q := p ++ take (Z.to_nat k) (drop (Z.to_nat off) chunk) in
  exists d', same_frame d d' /\
    payload_part d chunk off n =
      (if blen p + k =? n then (reset_payload d' None, off + k, [q]) else (d', off + k, [])) /\
    (blen p + k <> n -> partial d' n q).
Proof.
  intros Hp Hlt Hoff. cbn zeta. unfold payload_part.
  destruct (payload_loop_spec (length chunk) d chunk off n p Hp Hoff) as (d' & He & Hs & Hq);
    [unfold blen; lia|].
  rewrite He. set (k := Z.min _ _) in *. set (q := p ++ _) in *.
  assert (blen q = blen p + k) as Hbq.
  { subst q. rewrite blen_app. f_equal. unfold blen in *. rewrite length_take, length_drop. lia. }
  exists d'. split; [done|]. destruct Hq as (Hpl & ?). rewrite Hpl, Hbq. split; [|done].
  destruct (Z.eqb_spec (blen p + k) n); [|done]. pose proof (blen_nonneg p).
  rewrite (assemble_spec d' n q); [done|by split|lia..].
Qed.

(** What [push] must answer for a decoder that stands for [s]. *)
Definition pushed (d : FrameDecoder) (frames : list bytes) (s : bytes)
    (r : FrameDecoder * result FrameError (list bytes)) : Prop :=
  match parse_all (maxFrameLength d) s with
  | Ok (frames', rest) => exists d', r = (d', Ok (frames ++ frames')) /\ pending d' rest /\
      maxFrameLength d' = maxFrameLength d
  | Err len => exists d', r = (d', Err (FrameTooLong len (maxFrameLength d))) /\ state d' = failed
  end.

(** Nothing can be returned for a pending sequence. *)
Lemma pending_incomplete d s : bytes_ok s -> pending d s -> parse_all (maxFrameLength d) s = Ok ([], s).
Proof.
  intros Hs (_ & Hh & _ & Hcase). destruct (expectedPayloadLength d) as [n|].
  - destruct Hcase as (_ & Hn & p & -> & Hnv & _ & Hp). rewrite parse_step by done. cbn zeta.
    rewrite <- Hnv. destruct (Z.ltb_spec (maxFrameLength d) n); [lia|].
    destruct (Z.ltb_spec (blen p) n); [done|lia].
  - destruct Hcase as [-> Hl]. apply parse_short. unfold blen in *. rewrite length_take. lia.
Qed.

Lemma header_value h : blen h = 4 ->
  default 0 (at_ h 0) * 0x1000000 + default 0 (at_ h 1) * 0x10000 + default 0 (at_ h 2) * 0x100
  + default 0 (at_ h 3) = be_value h.
Proof.
  intros Hh. unfold blen in Hh. destruct h as [|a [|b [|c [|e [|]]]]]; cbn in Hh; try lia.
  change (a * 0x1000000 + b * 0x10000 + c * 0x100 + e = (((0 * 256 + a) * 256 + b) * 256 + c) * 256 + e). lia.
Qed.

Lemma partial_fresh d n : 0 <= n -> partial (reset_payload d (Some n)) n [].
Proof. intros. unfold partial. cbn. split_and!; [done|done|]. left. done. Qed.

Section PushLoop.
Context (chunk : bytes) (Hchunk : bytes_ok chunk).

Notation rest_at off := (drop (Z.to_nat off) chunk).

(** The loop answers as specified for a decoder that stands for [s]. *)
Definition loop_ok (fuel : nat) : Prop := forall d s off frames,
  pending d s -> bytes_ok s -> 0 <= off <= blen chunk -> blen chunk - off <= Z.of_nat fuel ->
  pushed d frames (s ++ rest_at off) (push_loop fuel d chunk off frames).

Lemma push_payload fuel d off n frames p :
  loop_ok fuel ->
  state d = open -> blen (header d) = 4 -> bytes_ok (header d) -> headerLength d = 0 ->
  n = be_value (header d) -> 0 < n <= maxFrameLength d -> expectedPayloadLength d = Some n ->
  partial d n p -> blen p < n -> bytes_ok p -> 0 <= off <= blen chunk ->
  blen chunk - off <= Z.of_nat fuel \/ (off < blen chunk /\ blen chunk - off <= Z.of_nat fuel + 1) ->
  pushed d frames ((header d ++ p) ++ rest_at off)
    (let '(d, off, complete) := payload_part d chunk off n in push_loop fuel d chunk off (frames ++ complete)).
Proof.
  intros IH Hst Hh Hhb Hhl Hnv Hn Hex Hp Hlt Hpb Hoff Hfuel.
  destruct (payload_part_spec d chunk off n p Hp Hlt Hoff) as (d' & (Eh & Ehl & Em & Eex & Est) & -> & Hq).
  pose proof (blen_nonneg p).
  set (k := Z.min (n - blen p) (blen chunk - off)) in *.
  set (q := p ++ take (Z.to_nat k) (rest_at off)) in *.
  assert (blen q = blen p + k) as Hbq.
  { subst q. rewrite blen_app. f_equal. unfold blen in *. rewrite length_take, length_drop. lia. }
  assert (bytes_ok q) as Hqb by (apply Forall_app; split; [done|by apply Forall_take, Forall_drop]).
  assert ((header d ++ p) ++ rest_at off = header d ++ q ++ rest_at (off + k)) as ->.
  { subst q. rewrite <- !app_assoc. do 2 f_equal. rewrite Z2Nat.inj_add, <- drop_drop by lia.
    by rewrite take_drop. }
  destruct (Z.eqb_spec (blen p + k) n) as [He|Hne].
  - assert (pending (reset_payload d' None) []) as Hpend.
    { unfold pending. cbn. rewrite Est, Eh, Em, Ehl, Hhl. split_and!; try done; lia. }
    specialize (IH _ [] (off + k) (frames ++ [q]) Hpend ltac:(constructor)).
    unfold pushed in *. cbn [app maxFrameLength reset_payload] in IH. rewrite Em in IH.
    rewrite parse_step;
      [|apply Forall_app; split; [done|apply Forall_app; split; [done|by apply Forall_drop]]|done].
    cbn zeta. rewrite <- Hnv. destruct (Z.ltb_spec (maxFrameLength d) n); [lia|].
    rewrite blen_app. pose proof (blen_nonneg (rest_at (off + k))).
    destruct (Z.ltb_spec (blen q + blen (rest_at (off + k))) n); [lia|].
    rewrite drop_app_length', take_app_length' by (unfold blen in *; lia).
    specialize (IH ltac:(lia) ltac:(lia)).
    destruct (parse_all (maxFrameLength d) (rest_at (off + k))) as [[fs r]|len]; cbn; [|done].
    by rewrite <- app_assoc in IH.
  - rewrite app_nil_r. assert (pending d' (header d' ++ q)) as Hpend.
    { unfold pending. rewrite Est, Eh, Em, Ehl, Eex, Hex. split_and!; try first [done|lia].
      exists q. split_and!; try done; [by apply Hq|lia]. }
    rewrite Eh in Hpend. rewrite app_assoc.
    specialize (IH d' (header d ++ q) (off + k) frames Hpend).
    unfold pushed in *. rewrite Em in IH. apply IH; [by apply Forall_app|lia|lia].
Qed.
End PushLoop.

Section PushLoopAll.
Context (chunk : bytes) (Hchunk : bytes_ok chunk).

Lemma push_loop_ok fuel : loop_ok chunk fuel.
Proof.
  induction fuel as [|fuel IH]; intros d s off frames Hd Hs Hoff Hfuel; cbn [push_loop].
  { rewrite drop_ge, app_nil_r by (unfold blen in *; lia). unfold pushed.
    rewrite pending_incomplete, app_nil_r by done. eauto. }
  destruct (Z.ltb_spec off (blen chunk)) as [Hlt|Hge].
  2: { rewrite drop_ge, app_nil_r by (unfold blen in *; lia). unfold pushed.
       rewrite pending_incomplete, app_nil_r by done. eauto. }
  pose proof Hd as (Hst & Hh & Hmax & Hcase). destruct (expectedPayloadLength d) as [n|] eqn:Hex.
  { destruct Hcase as (Hhl & Hn & p & -> & Hnv & Hp & Hpl). apply Forall_app in Hs as [? ?].
    apply push_payload; try done. right. lia. }
  destruct Hcase as [-> Hhl]. unfold FRAME_HEADER_LENGTH.
  set (k := Z.min (4 - headerLength d) (blen chunk - off)).
  set (data := take (Z.to_nat k) (drop (Z.to_nat off) chunk)).
  assert (blen data = k) as Hdl by (subst data; unfold blen in *; rewrite length_take, length_drop; lia).
  assert (bytes_ok data) as Hdb by (by apply Forall_take, Forall_drop).
  rewrite (slice_drop _ _ _ (proj1 Hoff)). fold data.
  set (h1 := u8_copy (header d) data (headerLength d)).
  set (d1 := set_header d h1 (headerLength d + k)).
  assert (take (Z.to_nat (headerLength d + k)) h1 = take (Z.to_nat (headerLength d)) (header d) ++ data) as Ht
    by (rewrite <- Hdl; apply take_u8_copy; lia).
  assert (blen h1 = 4) as Hh1 by (subst h1; rewrite blen_u8_copy; lia).
  set (s1 := take (Z.to_nat (headerLength d)) (header d) ++ data) in *.
  assert (bytes_ok s1) as Hs1 by (by apply Forall_app).
  assert (take (Z.to_nat (headerLength d)) (header d) ++ drop (Z.to_nat off) chunk
          = s1 ++ drop (Z.to_nat (off + k)) chunk) as Hrem.
  { subst s1 data. rewrite <- app_assoc. f_equal. rewrite Z2Nat.inj_add, <- drop_drop by lia. by rewrite take_drop. }
  rewrite Hrem. change (headerLength d1) with (headerLength d + k). change (header d1) with h1.
  change (maxFrameLength (set_header d1 h1 0)) with (maxFrameLength d).
  destruct (Z.ltb_spec (headerLength d + k) 4).
  { apply (IH d1); [|done|lia..]. unfold pending. cbn. rewrite Hex. split_and!; done || lia. }
  assert (s1 = h1) as -> by (rewrite <- Ht; apply take_ge; unfold blen in *; lia).
  rewrite header_value by done.
  unfold pushed. rewrite parse_step; [|apply Forall_app; split; [done|by apply Forall_drop]|done]. cbn zeta.
  destruct (Z.ltb_spec (maxFrameLength d) (be_value h1)); [by eexists|].
  pose proof (be_value_bounds h1 Hs1) as [Hlen _].
  destruct (Z.eqb_spec (be_value h1) 0) as [Hz|Hnz].
  - rewrite Hz. pose proof (blen_nonneg (drop (Z.to_nat (off + k)) chunk)).
    destruct (Z.ltb_spec (blen (drop (Z.to_nat (off + k)) chunk)) 0); [lia|]. rewrite drop_0, take_0.
    pose proof (IH (set_header d1 h1 0) [] (off + k) (frames ++ [[]])) as IH0. unfold pushed in IH0.
    cbn [app maxFrameLength set_header d1] in IH0.
    destruct (parse_all (maxFrameLength d) (drop (Z.to_nat (off + k)) chunk)) as [[fs r]|len]; cbn;
      [rewrite <- app_assoc in IH0|]; apply IH0; try constructor; cbn; rewrite ?Hex; try done; try lia;
      split_and!; done || lia.
  - pose proof (push_payload chunk Hchunk fuel (reset_payload (set_header d1 h1 0) (Some (be_value h1)))
      (off + k) (be_value h1) frames [] IH) as HP. unfold pushed in HP.
    cbn [header reset_payload set_header d1 maxFrameLength] in HP.
    rewrite <- app_assoc, app_nil_l, parse_step in HP; [|apply Forall_app; split; [done|by apply Forall_drop]|done].
    cbn zeta in HP. destruct (Z.ltb_spec (maxFrameLength d) (be_value h1)); [lia|].
    refine (HP Hst Hh1 Hs1 eq_refl eq_refl _ eq_refl (partial_fresh _ _ Hlen) _ _ _ _);
      [lia|blen_lia|by constructor|lia|lia].
Qed.
End PushLoopAll.

Lemma push_pending d s chunk :
  pending d s -> bytes_ok s -> bytes_ok chunk -> pushed d [] (s ++ chunk) (push d chunk).
Proof.
  intros Hd Hs Hc. unfold push. rewrite (proj1 Hd).
  apply (push_loop_ok chunk Hc (length chunk) d s 0 []); [done..|unfold blen; lia|unfold blen; lia].
Qed.

Lemma new_decoder_pending options d :
  new_decoder options = Ok d -> pending d [] /\ resolveMaxFrameLength options = Ok (maxFrameLength d).
Proof.
  unfold new_decoder. intros (m & Hm & [= <-])%bind_Ok. split; [|done].
  assert (0 <= m).
  { unfold resolveMaxFrameLength in Hm. cbn zeta in Hm. destruct (_ || _) eqn:E; [done|]. injection Hm as <-.
    apply orb_false_iff in E as [[_ E]%orb_false_iff _]. by apply Z.ltb_ge in E. }
  unfold pending, blen, zeros. cbn. split_and!; done || lia.
Qed.

(** What is left over is a suffix of the input. *)
Lemma parse_rest n limit s frames rest :
  parse n limit s = Ok (frames, rest) -> exists used, s = used ++ rest.
Proof.
  revert s frames. induction n as [|n IH]; intros s frames; cbn [parse].
  { intros [= <- <-]. by exists []. }
  destruct (_ <? 4); [intros [= <- <-]; by exists []|]. destruct (_ <? be_value _); [done|].
  destruct (_ <? _); [intros [= <- <-]; by exists []|].
  intros ([fs r] & Hf & [= <- <-])%bind_Ok. apply IH in Hf as (used & Hu).
  exists (take (Z.to_nat (4 + be_value (take 4 s))) s ++ used). by rewrite <- app_assoc, <- Hu, take_drop.
Qed.

Lemma push_all_pending d s chunks :
  pending d s -> bytes_ok s -> Forall bytes_ok chunks ->
  pushed d [] (s ++ mjoin chunks) (push_all d chunks).
Proof.
  intros Hd Hs Hc. revert d s Hd Hs. induction Hc as [|c cs Hc Hcs IH]; intros d s Hd Hs.
  - cbn. rewrite app_nil_r. unfold pushed. rewrite pending_incomplete by done. eauto.
  - cbn [push_all]. change (mjoin (c :: cs)) with (c ++ mjoin cs). rewrite app_assoc.
    assert (bytes_ok (s ++ c)) as Hsc by (by apply Forall_app).
    pose proof (push_pending d s c Hd Hs Hc) as Hp. unfold pushed in *.
    rewrite parse_app by (apply Forall_app; split; [done|by apply Forall_join]).
    destruct (parse_all (maxFrameLength d) (s ++ c)) as [[fs r]|len] eqn:E.
    + destruct Hp as (d1 & -> & Hd1 & Hm). apply parse_rest in E as (used & Hu).
      rewrite Hu in Hsc. apply Forall_app in Hsc as [_ Hr].
      specialize (IH d1 r Hd1 Hr). rewrite Hm in IH.
      destruct (parse_all (maxFrameLength d) (r ++ mjoin cs)) as [[fs' r']|len]; cbn.
      * destruct IH as (d2 & -> & Hd2 & Hm2). eauto.
      * destruct IH as (d2 & -> & Hd2). eauto.
    + destruct Hp as (d1 & -> & Hf). eauto.
Qed.

Lemma header_stores z a b c d :
  u8_set (u8_set (u8_set (u8_set (0 :: 0 :: 0 :: 0 :: z) 0 a) 1 b) 2 c) 3 d =
    [a mod 256; b mod 256; c mod 256; d mod 256] ++ z.
Proof. reflexivity. Qed.

(** The frame of a payload: its length on four bytes, then its bytes. *)
Lemma encodeFrame_bytes payload frame :
  encodeFrame payload = Ok frame ->
  frame = be_bytes 4 (blen payload) ++ payload /\ blen payload <= MAX_FRAME_UINT32.
Proof.
  unfold encodeFrame, FRAME_HEADER_LENGTH, MAX_FRAME_UINT32.
  destruct (Z.ltb_spec 0xffffffff (blen payload)) as [|Hl]; [done|]. intros [= <-]. split; [|done].
  pose proof (blen_nonneg payload).
  assert (zeros (4 + blen payload) = 0 :: 0 :: 0 :: 0 :: zeros (blen payload)) as ->.
  { unfold zeros. replace (Z.to_nat (4 + blen payload)) with (4 + Z.to_nat (blen payload))%nat by lia. done. }
  rewrite header_stores. unfold ushr. rewrite (Z.mod_small (blen payload) (2 ^ 32)) by lia.
  cbn [be_bytes]. unfold u8_copy. rewrite (take_app_length' [_; _; _; _]) by done.
  rewrite drop_ge, app_nil_r; [done|].
  rewrite length_app. unfold zeros, blen. rewrite length_replicate. cbn. lia.
Qed.

Lemma bytes_ok_be_bytes n v : bytes_ok (be_bytes n v).
Proof. induction n; cbn; constructor; [by apply Z.mod_pos_bound|done]. Qed.

Lemma parse_frames limit payloads frames :
  Forall bytes_ok payloads -> Forall (fun p => blen p <= limit) payloads ->
  traverse encodeFrame payloads = Ok frames -> parse_all limit (mjoin frames) = Ok (payloads, []).
Proof.
  intros Hb Hl Hf%traverse_Ok. induction Hf as [|p f ps fs Hpf Hfs IH]; [done|].
  apply Forall_cons in Hb as [Hb1 Hb]. apply Forall_cons in Hl as [Hl1 Hl].
  apply encodeFrame_bytes in Hpf as [-> Hmax]. unfold MAX_FRAME_UINT32 in Hmax.
  change (mjoin (?x :: fs)) with (x ++ mjoin fs). rewrite <- app_assoc.
  assert (bytes_ok (mjoin fs)) as Hfb.
  { clear -Hfs Hb. induction Hfs as [|p f ps fs Hpf Hfs IH]; [constructor|].
    apply Forall_cons in Hb as [Hb1 Hb]. apply encodeFrame_bytes in Hpf as [-> _].
    apply Forall_app. split; [apply Forall_app; split; [apply bytes_ok_be_bytes|done]|by apply IH]. }
  rewrite parse_step; [|apply Forall_app; split; [by apply bytes_ok_be_bytes|by apply Forall_app]|done].
  pose proof (blen_nonneg p). rewrite be_value_be_bytes by lia. cbn zeta.
  destruct (Z.ltb_spec limit (blen p)); [lia|]. rewrite blen_app.
  pose proof (blen_nonneg (mjoin fs)). destruct (Z.ltb_spec (blen p + blen (mjoin fs)) (blen p)); [lia|].
  rewrite drop_app_length', take_app_length' by (unfold blen; lia).
  by rewrite IH.
Qed.

(** A decoder fed the frames of payloads returns them and can end. *)
Lemma push_all_frames options d payloads frames chunks :
  new_decoder options = Ok d ->
  Forall bytes_ok payloads -> Forall (fun p => blen p <= maxFrameLength d) payloads ->
  traverse encodeFrame payloads = Ok frames ->
  Forall bytes_ok chunks -> mjoin chunks = mjoin frames ->
  exists d', push_all d chunks = (d', Ok payloads) /\ end_ d' = (set_state d' ended, Ok tt).
Proof.
  intros Hn Hb Hl Hf Hc Hj. destruct (new_decoder_pending _ _ Hn) as [Hp _].
  pose proof (push_all_pending d [] chunks Hp ltac:(constructor) Hc) as Hpush. unfold pushed in Hpush.
  rewrite app_nil_l, Hj, (parse_frames _ payloads frames) in Hpush by done.
  destruct Hpush as (d' & He & (Hst & Hh & _ & Hcase) & _). exists d'. split; [done|].
  unfold end_. rewrite Hst. destruct (expectedPayloadLength d') as [n|].
  - destruct Hcase as (_ & _ & p & Hbad & _). destruct (header d'); [blen_lia|done].
  - destruct Hcase as [He0 Hhl]. destruct (Z.eqb_spec (headerLength d') 0); [done|].
    apply (f_equal blen) in He0. unfold blen in *. rewrite length_take in He0. cbn in He0. lia.
Qed.

(** Memory held for a frame: what was received plus at most one block, and
    never more than the frame limit. *)
Lemma pending_allocation d s :
  pending d s ->
  blen (mjoin (payloadBlocks d)) <= Z.min (payloadLength d + PAYLOAD_BLOCK_SIZE) (maxFrameLength d) \/
  expectedPayloadLength d = None.
Proof.
  intros (_ & _ & Hm & Hcase). destruct (expectedPayloadLength d) as [n|]; [|by right]. left.
  destruct Hcase as (_ & Hn & p & _ & _ & (Hpl & _ & Hb) & Hlt). rewrite Hpl.
  destruct Hb as [(-> & _ & ->)|(full & cur & -> & _ & Hc & [Hsz Hbs] & ->)].
  - unfold PAYLOAD_BLOCK_SIZE, blen. cbn. lia.
  - rewrite join_app, blen_app. cbn [mjoin list_join]. rewrite app_nil_r, blen_app in *.
    pose proof (blen_nonneg (take (Z.to_nat (currentPayloadBlockLength d)) cur)). lia.
Qed.

(** ** Properties *)

Definition sample_decoder : FrameDecoder :=
  mkDecoder [0; 0; 0; 0] 0 16 [] None 0 None 0 open.

Lemma sample_decoder_pending : pending sample_decoder [].
Proof. unfold pending, blen. cbn. split_and!; done || lia. Qed.

(** C3. The incremental decoder implements the frame format whatever the chunking: a
    decoder that stands for the bytes [s] and is pushed chunks one after the other returns
    exactly the frames [parse] finds in [s] followed by all the chunks, then stands for the
    rest; the first header above the limit fails it instead. *)
Theorem push_all_refines d s chunks :
  pending d s -> bytes_ok s -> Forall bytes_ok chunks ->
  match parse_all (maxFrameLength d) (s ++ mjoin chunks) with
  | Ok (frames, rest) => exists d', push_all d chunks = (d', Ok frames) /\ pending d' rest
  | Err len => exists d', push_all d chunks = (d', Err (FrameTooLong len (maxFrameLength d))) /\
      state d' = failed
  end.
Proof.
  intros Hd Hs Hc. pose proof (push_all_pending d s chunks Hd Hs Hc) as Hp. unfold pushed in Hp.
  destruct (parse_all _ _) as [[fs r]|len]; [|done].
  destruct Hp as (d' & He & Hd' & _). eauto.
Qed.

Lemma push_all_refines_witness :
  exists d', push_all sample_decoder [[0; 0]; [0; 2; 7]; [8; 0; 0; 0; 0; 0]] = (d', Ok [[7; 8]; []]) /\
    pending d' [0].
Proof.
  apply (push_all_refines sample_decoder [] [[0; 0]; [0; 2; 7]; [8; 0; 0; 0; 0; 0]]).
  - apply sample_decoder_pending.
  - constructor.
  - repeat constructor; lia.
Defined.

(** Framing round trip: the frames of payloads within the limit, concatenated and cut
    into chunks anywhere, are decoded to exactly those payloads and the stream then ends
    cleanly. *)
Theorem frames_roundtrip options limit payloads frames chunks :
  resolveMaxFrameLength options = Ok limit ->
  Forall bytes_ok payloads -> Forall (fun p => blen p <= limit) payloads ->
  traverse encodeFrame payloads = Ok frames ->
  Forall bytes_ok chunks -> mjoin chunks = mjoin frames ->
  exists d d', new_decoder options = Ok d /\ push_all d chunks = (d', Ok payloads) /\
    end_ d' = (set_state d' ended, Ok tt).
Proof.
  intros Hr Hb Hl Hf Hc Hj.
  destruct (new_decoder options) as [d|e] eqn:Hn; [|unfold new_decoder in Hn; by rewrite Hr in Hn].
  destruct (new_decoder_pending _ _ Hn) as [_ Hm]. replace limit with (maxFrameLength d) in Hl by congruence.
  destruct (push_all_frames options d payloads frames chunks) as (d' & ? & ?); [done..|]. eauto 10.
Qed.

Lemma frames_roundtrip_witness :
  exists d d', new_decoder None = Ok d /\
    push_all d [[0]; [0; 0; 3; 1; 2]; []; [3; 0; 0; 0]; [0]] = (d', Ok [[1; 2; 3]; []]) /\
    end_ d' = (set_state d' ended, Ok tt).
Proof.
  apply (frames_roundtrip None DEFAULT_MAX_FRAME_LENGTH [[1; 2; 3]; []] [[0; 0; 0; 3; 1; 2; 3]; [0; 0; 0; 0]]).
  - vm_compute. reflexivity.
  - repeat constructor; lia.
  - repeat constructor; vm_compute; discriminate.
  - vm_compute. reflexivity.
  - repeat constructor; lia.
  - reflexivity.
Defined.

(** End of stream: an open decoder ends cleanly exactly when no partial frame is
    pending and fails otherwise; once it has ended or failed, every later push and end
    raises and changes nothing. *)
Theorem end_of_stream d s :
  (pending d s ->
    end_ d = if bool_decide (s = []) then (set_state d ended, Ok tt) else (fail d, Err FrameTruncated)) /\
  (state d <> open -> exists e, (e = DecoderEnded \/ e = DecoderFailed) /\
    end_ d = (d, Err e) /\ forall chunk, push d chunk = (d, Err e)).
Proof.
  split.
  - intros (Hst & Hh & _ & Hcase). unfold end_. rewrite Hst.
    destruct (expectedPayloadLength d) as [n|].
    + destruct Hcase as (-> & _ & p & -> & _). rewrite (bool_decide_false (_ = [])), orb_true_r; [done|].
      destruct (header d); [blen_lia|done].
    + destruct Hcase as [-> Hhl]. destruct (Z.eqb_spec (headerLength d) 0) as [->|Hne]; [done|].
      rewrite (bool_decide_false (_ = [])); [done|]. intros He. apply (f_equal length) in He.
      rewrite length_take in He. unfold blen in Hh. cbn in He. lia.
  - intros Hst. unfold end_, push. destruct (state d); [done|exists DecoderEnded|exists DecoderFailed]; auto.
Qed.

Lemma end_of_stream_witness :
  end_ sample_decoder = (set_state sample_decoder ended, Ok tt) /\
  exists e, (e = DecoderEnded \/ e = DecoderFailed) /\
    end_ (fail sample_decoder) = (fail sample_decoder, Err e) /\
    forall chunk, push (fail sample_decoder) chunk = (fail sample_decoder, Err e).
Proof.
  split.
  - exact (proj1 (end_of_stream sample_decoder []) sample_decoder_pending).
  - apply (proj2 (end_of_stream (fail sample_decoder) [])). discriminate.
Defined.

(** Bounded buffering: a decoder that has accepted any sequence of chunks and waits for
    a payload holds at most the bytes of that payload it received plus one 64 KiB block, and
    never more than [maxFrameLength], whatever length the peer announced. *)
Theorem decoder_memory_bound options d chunks d' frames n :
  new_decoder options = Ok d -> Forall bytes_ok chunks -> push_all d chunks = (d', Ok frames) ->
  expectedPayloadLength d' = Some n ->
  n <= maxFrameLength d /\ payloadLength d' < n /\
  blen (mjoin (payloadBlocks d')) <= Z.min (payloadLength d' + PAYLOAD_BLOCK_SIZE) (maxFrameLength d).
Proof.
  intros [Hp _]%new_decoder_pending Hc He Hex.
  pose proof (push_all_pending d [] chunks Hp ltac:(constructor) Hc) as Hpush. unfold pushed in Hpush.
  destruct (parse_all _ _) as [[fs r]|len]; destruct Hpush as (d1 & Hd1 & Hp1); [|congruence].
  destruct Hp1 as [Hp1 Hm]. replace d1 with d' in * by congruence. rewrite <- Hm.
  destruct (pending_allocation _ _ Hp1) as [Hal|]; [|congruence].
  destruct Hp1 as (_ & _ & _ & Hcase). rewrite Hex in Hcase.
  destruct Hcase as (_ & Hn & p & _ & _ & [Hpl _] & Hlt). split_and!; lia.
Qed.

Lemma decoder_memory_bound_witness :
  exists d d', new_decoder None = Ok d /\ push_all d [[0; 0; 0]; [9; 5; 6]] = (d', Ok []) /\
    9 <= maxFrameLength d /\ payloadLength d' < 9 /\
    blen (mjoin (payloadBlocks d')) <= Z.min (payloadLength d' + PAYLOAD_BLOCK_SIZE) (maxFrameLength d).
Proof.
  destruct (new_decoder None) as [d|] eqn:Hd; [|vm_compute in Hd; discriminate Hd].
  destruct (push_all d [[0; 0; 0]; [9; 5; 6]]) as [d' r] eqn:Hp.
  assert (r = Ok [] /\ expectedPayloadLength d' = Some 9) as [Hr Hx].
  { vm_compute in Hd. injection Hd as <-. vm_compute in Hp. injection Hp as <- <-. split; reflexivity. }
  subst r. exists d, d'. split; [reflexivity|]. split; [exact Hp|].
  apply (decoder_memory_bound None d [[0; 0; 0]; [9; 5; 6]] d' [] 9 Hd); [|exact Hp|exact Hx].
  repeat constructor; lia.
Defined.
