(* ===== verification/Json.v ===== *)
(** * Strict JSON values (packages/chord/src/json.ts)

Objects with their property descriptors on a heap, the two functions that
decide whether a value is a strict-JSON tree ([isJsonValue]) and copy it
([copyJson]), and [json_of], the inductive description of the tree both must
agree with.  The ancestor set bounds the recursion: an object is never entered
twice on a path, so [S (size h)] nested calls are enough. *)
From S2P Require Import Prelude JsNumber JsObject CborValue.
#[local] Open Scope Z_scope.

(** ** Objects *)

(** A data property holds a value, an accessor property none. *)
Record descriptor := mkDescriptor { d_enumerable : bool; d_value : option jsval }.

(** A string or a symbol. *)
Inductive prop_key := KString (s : jstring) | KSymbol (id : positive).

Inductive prototype := ProtoObject | ProtoNull | ProtoOther.

#[export] Instance prototype_eq_dec : EqDecision prototype.
Proof. solve_decision. Defined.

(** An array has its indexed properties ([None] a hole), the others in [extra]
    and its own non-enumerable [length]; [plain] says its prototype is
    [Array.prototype]. *)
Inductive jobj :=
| JBytes (data : bytes)
| JArray (plain : bool) (elements : list (option descriptor)) (extra : list (prop_key * descriptor))
| JObject (proto : prototype) (own : list (prop_key * descriptor)).

Notation jheap := (gmap positive jobj).

(** The tree a strict-JSON value denotes. *)
Inductive json :=
| JsNull
| JsBool (b : bool)
| JsNum (n : num)
| JsStr (s : jstring)
| JsArr (items : list json)
| JsObj (null_proto : bool) (entries : list (jstring * json)).

Inductive JsonError :=
| NonFiniteNumber
| NonJsonType
| CyclicValue
| NotDensePlainArray
| NotIndexedData
| NotPlainObject
| HasSymbolKey
| NotDataProperty
| OutOfFuel.

(** [Reflect.ownKeys(array).length], counting [length]. *)
Definition own_key_count (elements : list (option descriptor)) (extra : list (prop_key * descriptor)) : nat :=
  length (omap id elements) + length extra + 1.

(** ** copyJson *)

Definition plain_proto (proto : prototype) : bool :=
  match proto with ProtoOther => false | _ => true end.

(** One round of the loop over an array's indices. *)
Definition copy_element (copy : jsval -> result JsonError json) (e : option descriptor) : result JsonError json :=
  match e with
  | Some {| d_enumerable := true; d_value := Some v |} => copy v
  | _ => Err NotIndexedData
  end.

(** One round of the loop over an object's own keys. *)
Definition copy_property (copy : jsval -> result JsonError json) (omitUndefinedProperties : bool)
    (result : list (jstring * json)) (p : prop_key * descriptor) : Prelude.result JsonError (list (jstring * json)) :=
  match p with
  | (KSymbol _, _) => Err HasSymbolKey
  | (KString key, {| d_enumerable := true; d_value := Some v |}) =>
      if bool_decide (v = VUndefined) && omitUndefinedProperties then Ok result
      else copy v ≫= fun c => Ok (obj_set result key c)
  | _ => Err NotDataProperty
  end.

Fixpoint copy (fuel : nat) (h : jheap) (value : jsval) (ancestors : gset positive)
    (omitUndefinedProperties : bool) : result JsonError json :=
  match fuel with
  | O => Err OutOfFuel
  | S n =>
      match value with
      | VNull => Ok JsNull
      | VStr s => Ok (JsStr s)
      | VBool b => Ok (JsBool b)
      | VNum f => if is_finite f then Ok (JsNum f) else Err NonFiniteNumber
      | VUndefined | VOther => Err NonJsonType
      | VRef l =>
          if bool_decide (l ∈ ancestors) then Err CyclicValue else
          let active := {[l]} ∪ ancestors in
          match h !! l with
          | Some (JArray plain elements extra) =>
              if negb plain || negb (own_key_count elements extra =? length elements + 1)%nat
              then Err NotDensePlainArray
              else
                JsArr <$> traverse (copy_element (fun v => copy n h v active omitUndefinedProperties)) elements
          | Some (JObject proto own) =>
              if negb (plain_proto proto) then Err NotPlainObject
              else
                JsObj (match proto with ProtoNull => true | _ => false end) <$>
                foldM (copy_property (fun v => copy n h v active omitUndefinedProperties) omitUndefinedProperties) [] own
          | _ => Err NotPlainObject
          end
      end
  end.

(** One level for every object of the heap, and one for the leaf. *)
Definition json_fuel (h : jheap) (ancestors : gset positive) : nat := 2 + size (dom h ∖ ancestors).

Definition copyJson (h : jheap) (value : jsval) (omitUndefinedProperties : bool) : result JsonError json :=
  copy (json_fuel h ∅) h value ∅ omitUndefinedProperties.

(** ** isJsonValue *)

Definition is_symbol (k : prop_key) : bool := match k with KSymbol _ => true | _ => false end.

Fixpoint check (fuel : nat) (h : jheap) (value : jsval) (ancestors : gset positive) : bool :=
  match fuel with
  | O => false
  | S n =>
      let data (d : descriptor) : bool :=
        match d with
        | {| d_enumerable := true; d_value := Some v |} =>
            check n h v (match value with VRef l => {[l]} ∪ ancestors | _ => ancestors end)
        | _ => false
        end in
      match value with
      | VNull | VStr _ | VBool _ => true
      | VNum f => is_finite f
      | VUndefined | VOther => false
      | VRef l =>
          match h !! l with
          | Some (JArray plain elements extra) =>
              if negb plain then false
              else if negb (own_key_count elements extra =? length elements + 1)%nat
                      || existsb (fun p => is_symbol p.1) extra then false
              else if bool_decide (l ∈ ancestors) then false
              else forallb (fun e => match e with Some d => data d | None => false end) elements
          | Some (JObject proto own) =>
              if negb (plain_proto proto) then false
              else if existsb (fun p => is_symbol p.1) own then false
              else if bool_decide (l ∈ ancestors) then false
              else forallb (fun p => data p.2) own
          | _ => false
          end
      end
  end.

Definition isJsonValue (h : jheap) (value : jsval) : bool := check (json_fuel h ∅) h value ∅.

(** ** The tree of a value *)

(** [json_of omit h v t]: [v] is finite strict JSON in [h] with the tree [t]. *)
Inductive json_of (omit : bool) (h : jheap) : jsval -> json -> Prop :=
| of_null : json_of omit h VNull JsNull
| of_bool b : json_of omit h (VBool b) (JsBool b)
| of_num f : is_finite f = true -> json_of omit h (VNum f) (JsNum f)
| of_str s : json_of omit h (VStr s) (JsStr s)
| of_array l elements ts :
    h !! l = Some (JArray true elements []) ->
    elements_of omit h elements ts ->
    json_of omit h (VRef l) (JsArr ts)
| of_object l proto own es :
    h !! l = Some (JObject proto own) -> proto <> ProtoOther ->
    own_of omit h own es ->
    json_of omit h (VRef l) (JsObj (bool_decide (proto = ProtoNull)) es)
with elements_of (omit : bool) (h : jheap) : list (option descriptor) -> list json -> Prop :=
| elements_nil : elements_of omit h [] []
| elements_cons v t es ts :
    json_of omit h v t -> elements_of omit h es ts ->
    elements_of omit h (Some (mkDescriptor true (Some v)) :: es) (t :: ts)
(** the own properties, those with an [undefined] value left out if [omit] *)
with own_of (omit : bool) (h : jheap) : list (prop_key * descriptor) -> list (jstring * json) -> Prop :=
| own_nil : own_of omit h [] []
| own_omit k own es :
    omit = true -> own_of omit h own es ->
    own_of omit h ((KString k, mkDescriptor true (Some VUndefined)) :: own) es
| own_cons k v t own es :
    json_of omit h v t -> own_of omit h own es ->
    own_of omit h ((KString k, mkDescriptor true (Some v)) :: own) ((k, t) :: es).


Scheme json_of_min := Minimality for json_of Sort Prop
  with elements_of_min := Minimality for elements_of Sort Prop
  with own_of_min := Minimality for own_of Sort Prop.
Combined Scheme json_of_mutind from json_of_min, elements_of_min, own_of_min.

Fixpoint json_size (t : json) : nat :=
  match t with
  | JsArr ts => S (sum_list (json_size <$> ts))
  | JsObj _ es => S (sum_list ((fun e => json_size e.2) <$> es))
  | _ => 1
  end.

(** ** Well-formed documents *)

(** Finite numbers, and objects with distinct keys in the order of the language. *)
Inductive json_ok : json -> Prop :=
| ok_null : json_ok JsNull
| ok_bool b : json_ok (JsBool b)
| ok_num f : is_finite f = true -> json_ok (JsNum f)
| ok_str s : json_ok (JsStr s)
| ok_arr l : Forall json_ok l -> json_ok (JsArr l)
| ok_obj np es : obj_ok es -> Forall (fun e => json_ok e.2) es -> json_ok (JsObj np es).

Lemma json_ok_arr l : json_ok (JsArr l) <-> Forall json_ok l.
Proof. split; [by inversion 1|by constructor]. Qed.

Lemma json_ok_obj np es : json_ok (JsObj np es) <-> obj_ok es /\ Forall (fun e => json_ok e.2) es.
Proof. split; [by inversion 1|intros []; by constructor]. Qed.

(** String keys, in [Reflect.ownKeys] order. *)
Definition string_keys (own : list (prop_key * descriptor)) : list jstring :=
  omap (fun p => match p.1 with KString k => Some k | KSymbol _ => None end) own.

Definition keys_ok (ks : list jstring) : Prop := NoDup ks /\ Sorted.StronglySorted key_before ks.

(** A heap the language can produce. *)
Definition jheap_ok (h : jheap) : Prop :=
  map_Forall (fun _ x => match x with JObject _ own => keys_ok (string_keys own) | _ => True end) h.

(** ** Facts *)

Lemma keys_ok_delete a k b : keys_ok (a ++ k :: b) -> keys_ok (a ++ b).
Proof.
  intros [Hnd Hs]. split.
  - rewrite <- Permutation_middle in Hnd. by apply NoDup_cons in Hnd as [_ ?].
  - clear Hnd. induction a as [|x a IH]; cbn in *; [by inversion Hs|].
    inversion Hs as [|? ? Hs' Hf]; subst. constructor; [auto|].
    apply Forall_app in Hf as [? ?]. apply Forall_app. split; [done|]. by eapply Forall_inv_tail.
Qed.

Lemma json_of_det_all omit h :
  (forall v t, json_of omit h v t -> forall t', json_of omit h v t' -> t = t') /\
  (forall es ts, elements_of omit h es ts -> forall ts', elements_of omit h es ts' -> ts = ts') /\
  (forall own es, own_of omit h own es -> forall es', own_of omit h own es' -> es = es').
Proof.
  apply json_of_mutind; intros;
    match goal with H : _ _ _ _ ?t' |- _ = ?t' => inversion H; subst; clear H end; simplify_eq;
    try match goal with H : json_of _ _ VUndefined _ |- _ => inversion H end;
    first [done|by f_equal; eauto|by do 2 f_equal; eauto|auto].
Qed.

Lemma json_of_det omit h v t t' : json_of omit h v t -> json_of omit h v t' -> t = t'.
Proof. intros H. by apply (json_of_det_all omit h). Qed.

(** ** copyJson returns the tree *)

Lemma keys_ok_acc {A} (acc : list (jstring * A)) k t ks :
  keys_ok (obj_keys acc ++ k :: ks) -> obj_set acc k t = acc ++ [(k, t)].
Proof.
  intros Hk. apply obj_set_app_end. apply (obj_ok_app_l _ ((fun k => (k, t)) <$> ks)).
  unfold obj_ok, obj_keys. rewrite !fmap_app, <- list_fmap_compose, <- app_assoc. cbn.
  rewrite list_fmap_id. exact Hk.
Qed.

Lemma copy_own omit h (cp : jsval -> result JsonError json) own acc r :
  (forall v t, cp v = Ok t -> json_of omit h v t) ->
  keys_ok (obj_keys acc ++ string_keys own) ->
  foldM (copy_property cp omit) acc own = Ok r ->
  exists es, own_of omit h own es /\ r = acc ++ es.
Proof.
  intros IH. revert acc. induction own as [|[key d] own IHown]; intros acc Hk; cbn [foldM].
  { intros [= <-]. exists []. rewrite app_nil_r. split; [constructor|done]. }
  intros (acc1 & Hstep & Hr)%bind_Ok. cbn in Hstep. destruct key as [k|]; [|done].
  destruct d as [[] [v|]]; try done. change (string_keys _) with (k :: string_keys own) in Hk.
  destruct (bool_decide (v = VUndefined) && omit) eqn:Ho.
  - injection Hstep as <-. apply andb_true_iff in Ho as [->%bool_decide_eq_true ->].
    apply IHown in Hr as (es & Hes & ->); [|by eapply keys_ok_delete].
    exists es. split; [by constructor|done].
  - apply bind_Ok in Hstep as (t & Ht & [= <-]).
    rewrite (keys_ok_acc _ _ _ _ Hk) in Hr. apply IHown in Hr as (es & Hes & ->).
    + exists ((k, t) :: es). rewrite <- app_assoc. split; [|done]. constructor; [by apply IH|done].
    + unfold obj_keys. rewrite fmap_app, <- app_assoc. exact Hk.
Qed.

Lemma copy_elements omit h (cp : jsval -> result JsonError json) es ts :
  (forall v t, cp v = Ok t -> json_of omit h v t) ->
  traverse (copy_element cp) es = Ok ts -> elements_of omit h es ts /\ length (omap id es) = length es.
Proof.
  intros IH Hts%traverse_Ok. induction Hts as [|e t es ts He Hts [IHe IHl]]; [by split; [constructor|]|].
  destruct e as [[[] [v|]]|]; try done. cbn. split; [constructor; auto|by f_equal].
Qed.

Lemma copy_elements_length (cp : jsval -> result JsonError json) es ts :
  traverse (copy_element cp) es = Ok ts -> length (omap id es) = length es.
Proof.
  intros Hts%traverse_Ok. induction Hts as [|e t es ts He Hts IHl]; [done|].
  destruct e as [[[] [v|]]|]; try done. cbn. by f_equal.
Qed.

Lemma copy_sound omit fuel h v anc t :
  jheap_ok h -> copy fuel h v anc omit = Ok t -> json_of omit h v t.
Proof.
  intros Hh. revert v anc t. induction fuel as [|n IH]; intros v anc t; [done|]. cbn [copy].
  destruct v as [| |b|f|s|l|]; try done; try (intros [= <-]; by constructor).
  - destruct (is_finite f) eqn:Hf; [|done]. intros [= <-]. by constructor.
  - case_bool_decide; [done|]. destruct (h !! l) as [[d|plain es ex|proto own]|] eqn:Hl; try done.
    + destruct (negb plain || _) eqn:Hc; [done|]. intros Ht.
      destruct (traverse _ es) as [ts|] eqn:Hts; [|done]. injection Ht as <-.
      apply (copy_elements omit h) in Hts as [Hts Hlen]; [|eauto].
      apply orb_false_iff in Hc as [Hp Hcount]. apply negb_false_iff in Hp, Hcount. subst plain.
      apply Nat.eqb_eq in Hcount. unfold own_key_count in Hcount.
      assert (ex = []) as -> by (apply length_zero_iff_nil; lia). by econstructor.
    + destruct (plain_proto proto) eqn:Hp; [|done]. cbn [negb]. intros Ht.
      destruct (foldM _ [] own) as [es|] eqn:Hes; [|done]. injection Ht as <-.
      apply (copy_own omit h) in Hes as (es' & Hes & ->); [|eauto|].
      * replace (match proto with ProtoNull => true | _ => false end) with (bool_decide (proto = ProtoNull))
          by by destruct proto.
        econstructor; [done|by destruct proto|done].
      * exact (map_Forall_lookup_1 _ _ _ _ Hh Hl).
Qed.

(** ** Every strict-JSON value is copied *)

(** Objects on the path to a value have strictly larger trees, if any. *)
Definition above (omit : bool) (h : jheap) (anc : gset positive) (t : json) : Prop :=
  forall a ta, a ∈ anc -> json_of omit h (VRef a) ta -> (json_size t < json_size ta)%nat.

Lemma json_above_child omit h anc l t c :
  above omit h anc t -> json_of omit h (VRef l) t -> (json_size c < json_size t)%nat ->
  above omit h ({[l]} ∪ anc) c.
Proof.
  intros Ha Ht Hc a ta [->%elem_of_singleton|Hin]%elem_of_union Hta.
  - by rewrite (json_of_det _ _ _ _ _ Hta Ht).
  - specialize (Ha a ta Hin Hta). lia.
Qed.

Lemma json_fuel_child h anc l :
  l ∉ anc -> l ∈ dom h -> json_fuel h anc = S (json_fuel h ({[l]} ∪ anc)).
Proof.
  intros Hn Hl. unfold json_fuel. cbn. f_equal.
  replace (dom h ∖ anc) with ({[l]} ∪ (dom h ∖ ({[l]} ∪ anc))) by
    (apply set_eq; intros x; destruct (decide (x = l)); set_solver).
  rewrite size_union by set_solver. rewrite size_singleton. lia.
Qed.

Lemma copy_complete_all omit h :
  jheap_ok h ->
  (forall v t, json_of omit h v t -> forall fuel anc, (json_fuel h anc <= fuel)%nat -> above omit h anc t ->
    copy fuel h v anc omit = Ok t) /\
  (forall es ts, elements_of omit h es ts -> forall fuel anc, (json_fuel h anc <= fuel)%nat ->
    Forall (above omit h anc) ts ->
    traverse (copy_element (fun v => copy fuel h v anc omit)) es = Ok ts /\ length (omap id es) = length es) /\
  (forall own es, own_of omit h own es -> forall fuel anc acc, (json_fuel h anc <= fuel)%nat ->
    Forall (fun e => above omit h anc e.2) es -> keys_ok (obj_keys acc ++ string_keys own) ->
    foldM (copy_property (fun v => copy fuel h v anc omit) omit) acc own = Ok (acc ++ es)).
Proof.
  intros Hh. apply json_of_mutind.
  - intros [|fuel] anc; [unfold json_fuel; lia|done].
  - intros b [|fuel] anc; [unfold json_fuel; lia|done].
  - intros f Hf [|fuel] anc; [unfold json_fuel; lia|]. cbn [copy]. by rewrite Hf.
  - intros s [|fuel] anc; [unfold json_fuel; lia|done].
  - intros l es ts Hl Hes IH fuel anc Hfuel Hab.
    assert (json_of omit h (VRef l) (JsArr ts)) as Ht by by econstructor.
    assert (l ∉ anc) as Hn by (intros Hin; specialize (Hab l _ Hin Ht); lia).
    rewrite (json_fuel_child h anc l Hn) in Hfuel by by eapply elem_of_dom_2.
    destruct fuel as [|fuel]; [lia|]. cbn [copy]. rewrite bool_decide_false, Hl by done.
    destruct (IH fuel ({[l]} ∪ anc)) as [Hts Hlen]; [lia| |].
    { apply Forall_forall. intros t Hin. eapply json_above_child; [done..|]. cbn.
      pose proof (elem_size json_size t ts Hin). lia. }
    unfold own_key_count. rewrite Hlen, Nat.add_0_r, Nat.eqb_refl. cbn [negb orb]. by rewrite Hts.
  - intros l proto own es Hl Hp Hes IH fuel anc Hfuel Hab.
    assert (json_of omit h (VRef l) (JsObj (bool_decide (proto = ProtoNull)) es)) as Ht by by econstructor.
    assert (l ∉ anc) as Hn by (intros Hin; specialize (Hab l _ Hin Ht); lia).
    rewrite (json_fuel_child h anc l Hn) in Hfuel by by eapply elem_of_dom_2.
    destruct fuel as [|fuel]; [lia|]. cbn [copy]. rewrite bool_decide_false, Hl by done.
    replace (plain_proto proto) with true by by destruct proto. cbn [negb].
    rewrite (IH fuel ({[l]} ∪ anc) []); [by destruct proto|lia| |].
    + apply Forall_forall. intros e Hin. eapply json_above_child; [done..|]. cbn.
      pose proof (elem_size (fun e => json_size e.2) e es Hin). lia.
    + exact (map_Forall_lookup_1 _ _ _ _ Hh Hl).
  - done.
  - intros v t es ts _ IHt _ IHts fuel anc Hfuel Hab. apply Forall_cons in Hab as [Hab1 Hab].
    cbn. rewrite (IHt fuel anc Hfuel Hab1). cbn. destruct (IHts fuel anc Hfuel Hab) as [-> Hlen].
    by rewrite <- Hlen.
  - intros fuel anc acc _ _ _. cbn. by rewrite app_nil_r.
  - intros k own es -> _ IH fuel anc acc Hfuel Hab Hk. cbn.
    rewrite bool_decide_true by done. cbn. apply IH; [done..|]. exact (keys_ok_delete _ k _ Hk).
  - intros k v t own es Ht IHt _ IH fuel anc acc Hfuel Hab Hk. apply Forall_cons in Hab as [Hab1 Hab]. cbn.
    assert (v <> VUndefined) as Hv by (intros ->; inversion Ht). rewrite bool_decide_false by done. cbn.
    rewrite (IHt fuel anc Hfuel Hab1). cbn. change (string_keys _) with (k :: string_keys own) in Hk.
    rewrite (keys_ok_acc _ _ _ _ Hk), IH; [by rewrite <- app_assoc|done..|].
    unfold obj_keys. rewrite fmap_app, <- app_assoc. exact Hk.
Qed.

Lemma copyJson_complete omit h v t : jheap_ok h -> json_of omit h v t -> copyJson h v omit = Ok t.
Proof. intros Hh Ht. apply (proj1 (copy_complete_all omit h Hh) v t Ht); [done|]. by intros a ta ?%elem_of_empty. Qed.

(** The ancestor set bounds the recursion: the fuel never runs out. *)
Lemma copy_fuel omit fuel h v anc : (json_fuel h anc <= fuel)%nat -> copy fuel h v anc omit <> Err OutOfFuel.
Proof.
  revert v anc. induction fuel as [|n IH]; intros v anc Hfuel; [unfold json_fuel in Hfuel; lia|]. cbn [copy].
  destruct v as [| | |f| |l|]; try done; [by destruct (is_finite f)|].
  case_bool_decide as Hl; [done|]. destruct (h !! l) as [x|] eqn:Hx; [|done].
  rewrite (json_fuel_child h anc l Hl) in Hfuel by by eapply elem_of_dom_2.
  assert (forall v, copy n h v ({[l]} ∪ anc) omit <> Err OutOfFuel) as IH' by (intros; apply IH; lia).
  destruct x as [|plain es ex|proto own]; [done| |].
  - destruct (_ || _); [done|]. enough (traverse (copy_element (fun v => copy n h v ({[l]} ∪ anc) omit)) es <> Err OutOfFuel)
      by (destruct (traverse _ es); cbn; congruence).
    clear Hx. induction es as [|e es IHes]; [done|]. cbn [traverse].
    destruct (copy_element _ e) as [t|err] eqn:He; cbn; [|].
    + destruct (traverse _ es); cbn; congruence.
    + intros [= ->]. destruct e as [[[] [v|]]|]; try done. by apply (IH' v).
  - destruct (negb _); [done|].
    enough (forall acc, foldM (copy_property (fun v => copy n h v ({[l]} ∪ anc) omit) omit) acc own <> Err OutOfFuel) as He
      by (specialize (He []); destruct (foldM _ [] own); cbn; congruence).
    clear Hx. induction own as [|p own IHown]; [done|]. intros acc. cbn [foldM].
    destruct (copy_property _ _ _ p) as [t|err] eqn:Hp; cbn; [apply IHown|].
    intros [= ->]. destruct p as [[k|] [[] [v|]]]; try done. cbn in Hp.
    destruct (_ && _); [done|]. destruct (copy n h v _ omit) eqn:Hc; [done|]. cbn in Hp. apply (IH' v). congruence.
Qed.

(** ** The two functions agree *)

Lemma check_copy fuel h v anc : check fuel h v anc = is_ok (copy fuel h v anc false).
Proof.
  revert v anc. induction fuel as [|n IH]; intros v anc; [done|]. cbn [copy check].
  destruct v as [| | |f| |l|]; try done; [by destruct (is_finite f)|].
  destruct (h !! l) as [[d|plain es ex|proto own]|]; try by case_bool_decide.
  - destruct plain; cbn; [|by case_bool_decide].
    destruct (own_key_count es ex =? length es + 1)%nat eqn:Hc; cbn; [|by case_bool_decide].
    assert (forallb (fun e => match e with Some {| d_enumerable := true; d_value := Some v |} =>
        check n h v ({[l]} ∪ anc) | _ => false end) es =
      is_ok (traverse (copy_element (fun v => copy n h v ({[l]} ∪ anc) false)) es)) as Hes.
    { clear Hc. induction es as [|e es IHes]; [done|]. cbn. rewrite IHes.
      destruct e as [[[] [v|]]|]; cbn; try done. rewrite IH. destruct (copy n h v _ _); cbn; [|done].
      by destruct (traverse _ es). }
    case_bool_decide; [by destruct (existsb _ ex)|].
    destruct (traverse _ es) as [ts|] eqn:Hts; cbn in Hes |- *.
    + apply copy_elements_length in Hts. unfold own_key_count in Hc. apply Nat.eqb_eq in Hc.
      assert (ex = []) as -> by (apply length_zero_iff_nil; lia). exact Hes.
    + by destruct (existsb _ ex).
  - destruct (plain_proto proto); cbn; [|by case_bool_decide].
    case_bool_decide; [by destruct (existsb _ own)|].
    assert (forall acc, is_ok (foldM (copy_property (fun v => copy n h v ({[l]} ∪ anc) false) false) acc own) =
      if existsb (fun p => is_symbol p.1) own then false else
      forallb (fun p => match p.2 with {| d_enumerable := true; d_value := Some v |} =>
        check n h v ({[l]} ∪ anc) | _ => false end) own) as Hown.
    { induction own as [|[[k|] [[] [v|]]] own IHown]; intros acc; cbn in *; try done; try by destruct (existsb _ own).
      rewrite andb_false_r, IH. destruct (copy n h v _ _); cbn; [apply IHown|by destruct (existsb _ own)]. }
    rewrite <- (Hown []). by destruct (foldM _ [] own).
Qed.

(** ** Properties *)

(** [{ a: [1, "x"], b: undefined }], and an object that holds itself. *)
Definition sample_jheap : jheap :=
  <[1%positive := JObject ProtoObject
      [(KString $"a", mkDescriptor true (Some (VRef 2)));
       (KString $"b", mkDescriptor true (Some VUndefined))]]>
  (<[2%positive := JArray true [Some (mkDescriptor true (Some (VNum (of_Z 1))));
                                Some (mkDescriptor true (Some (VStr $"x")))] []]>
  (<[3%positive := JObject ProtoNull [(KString $"me", mkDescriptor true (Some (VRef 3)))]]> ∅)).

Lemma sample_jheap_ok : jheap_ok sample_jheap.
Proof.
  unfold jheap_ok, sample_jheap. repeat apply map_Forall_insert_2; [..|apply map_Forall_empty]; cbn.
  - split; [by apply (bool_decide_unpack _); vm_compute|repeat constructor].
  - done.
  - split; [by apply (bool_decide_unpack _); vm_compute|repeat constructor].
Qed.

(** [copyJson] succeeds exactly on the values that denote a finite strict-JSON tree
    (with [undefined] properties left out on request) and returns that tree, key order and
    null prototypes included; on every other value, cyclic ones included, it throws one of
    its type errors, and it always terminates. *)
Theorem copyJson_spec omit h v :
  jheap_ok h ->
  match copyJson h v omit with
  | Ok t => json_of omit h v t
  | Err e => e <> OutOfFuel /\ forall t, json_of omit h v t -> False
  end.
Proof.
  intros Hh. destruct (copyJson h v omit) as [t|e] eqn:E; [by eapply copy_sound|]. split.
  - intros ->. by apply (copy_fuel omit (json_fuel h ∅) h v ∅).
  - intros t Ht%copyJson_complete; [congruence|done].
Qed.

Lemma copyJson_spec_witness :
  json_of true sample_jheap (VRef 1) (JsObj false [($"a", JsArr [JsNum (of_Z 1); JsStr $"x"])]) /\
  (CyclicValue <> OutOfFuel /\ forall t, json_of true sample_jheap (VRef 3) t -> False).
Proof.
  split.
  - exact (copyJson_spec true sample_jheap (VRef 1) sample_jheap_ok).
  - exact (copyJson_spec true sample_jheap (VRef 3) sample_jheap_ok).
Defined.

(** [isJsonValue], which never copies, accepts exactly the values [copyJson] accepts in
    strict mode, for every heap: the two recursive checks of json.ts decide the same set. *)
Theorem isJsonValue_copyJson h v : isJsonValue h v = is_ok (copyJson h v false).
Proof. apply check_copy. Qed.
