(* ===== verification/Codec.v ===== *)
(** * Protocol messages (packages/protocol/src/codec.ts)

Encoding validates a value, encodes it as CBOR and frames it; the incremental
decoder runs the frame decoder, decodes every frame and validates it, and
stops for good at the first failure.  The schema check is the [Check] of the
typebox package: a parameter, with the hypothesis that it looks at the
structure of a value only. *)
From S2P Require Import Prelude JsNumber JsObject Utf8 CborValue CborEncoder CborDecoder CborSpec Framing Json.
#[local] Open Scope Z_scope.
#[local] Arguments of_Z : simpl never.
#[local] Arguments DEFAULT_MAX_FRAME_LENGTH : simpl never.

Inductive CodecError :=
| OfCbor (e : CborError)
| OfFrame (e : FrameError).

(** The messages of [ProtocolValidationError]; [kind] is client or server. *)
Inductive ProtocolValidationError :=
| InvalidMessage (kind : jstring)
| UnableToEncode (kind : jstring) (cause : CodecError)
| InvalidFrame (kind : jstring) (cause : CodecError)
| InvalidFraming (kind : jstring) (cause : CodecError)
| HasFailed (kind : jstring).

(** [boundedErrorMessage]; [None] is a value that is not an [Error]. *)
Definition boundedErrorMessage (message : option jstring) : jstring :=
  match message with
  | None => $"Unknown codec error"
  | Some m => if blen m <=? 500 then m else slice m 0 497 ++ $"..."
  end.

(** What the CBOR encoder reads of an object: its elements, or its
    enumerable string keys.  A property without a value is an accessor, which
    validation has excluded. *)
Definition value_of (d : descriptor) : jsval := default VOther (d_value d).

Definition data_properties (own : list (prop_key * descriptor)) : list (jstring * jsval) :=
  omap (fun p => match p with
                 | (KString k, d) => if d_enumerable d then Some (k, value_of d) else None
                 | _ => None
                 end) own.

Definition cbor_view (x : jobj) : hobj :=
  match x with
  | JBytes data => HBytes data
  | JArray _ elements _ => HArray ((fun e : option descriptor => value_of <$> e) <$> elements)
  | JObject proto own =>
      HObject (plain_proto proto)
        (existsb (fun p => is_symbol p.1 && d_enumerable p.2) own)
        (data_properties own)
  end.

Definition cbor_heap (h : jheap) : heap := cbor_view <$> h.

Fixpoint json_cbor (t : json) : cbor :=
  match t with
  | JsNull => CNull
  | JsBool b => CBool b
  | JsNum n => CNum n
  | JsStr s => CText s
  | JsArr ts => CArray (json_cbor <$> ts)
  | JsObj _ es => CMap ((fun e => (e.1, json_cbor e.2)) <$> es)
  end.

(** [isJsonValue] of a decoded tree: its objects are fresh plain ones, its
    numbers finite, so only a [Uint8Array] in it can make it fail. *)
Fixpoint cbor_is_json (t : cbor) : bool :=
  match t with
  | CBytes _ => false
  | CArray ts => forallb cbor_is_json ts
  | CMap es => forallb (fun e => cbor_is_json e.2) es
  | _ => true
  end.

(** ** Encoded trees are bytes *)

Lemma bytes_ok_head m v : 0 <= m < 8 -> 0 <= v -> bytes_ok (head_bytes m v).
Proof.
  intros Hm Hv. unfold head_bytes.
  repeat match goal with
  | |- context [Z.ltb ?a ?b] => destruct (Z.ltb_spec a b)
  | |- context [Z.leb ?a ?b] => destruct (Z.leb_spec a b)
  end; constructor; try lia; try apply bytes_ok_be_bytes; repeat constructor; lia.
Qed.

Lemma bytes_ok_text o s : text_fits o s -> bytes_ok (text_bytes s).
Proof.
  intros [Hs _]. apply Forall_app. split; [apply bytes_ok_head; [lia|apply blen_nonneg]|].
  by eapply utf8_decodable_bytes.
Qed.

Lemma bytes_ok_bind {A} (f : A -> bytes) l : Forall (fun x => bytes_ok (f x)) l -> bytes_ok (l ≫= f).
Proof. induction 1; [constructor|]. cbn. by apply Forall_app. Qed.

Lemma bytes_ok_enc o d t : fits o d t -> cbor_is_json t = true -> bytes_ok (enc t).
Proof.
  revert d. induction t as [|b|f|b|s|ts IH|es IH] using cbor_ind'; intros d Hf Hj; cbn [enc].
  - repeat constructor; lia.
  - destruct b; repeat constructor; lia.
  - unfold num_bytes. destruct (_ && _); [destruct (Z.leb_spec 0 (to_Z f)); apply bytes_ok_head; lia|].
    constructor; [lia|apply bytes_ok_be_bytes].
  - done.
  - by eapply bytes_ok_text, Hf.
  - apply fits_array in Hf as (_ & _ & Hf). cbn in Hj. rewrite forallb_forall in Hj.
    apply Forall_app. split; [apply bytes_ok_head; [lia|apply blen_nonneg]|]. apply bytes_ok_bind.
    rewrite Forall_forall in IH. rewrite Forall_forall in Hf |- *.
    intros t Ht. eapply IH; [done|by apply Hf|]. apply Hj. by apply list_elem_of_In.
  - apply fits_map in Hf as (_ & _ & _ & Hf). cbn in Hj. rewrite forallb_forall in Hj.
    apply Forall_app. split; [apply bytes_ok_head; [lia|apply blen_nonneg]|]. apply bytes_ok_bind.
    rewrite Forall_forall in IH. rewrite Forall_forall in Hf |- *.
    intros e He. destruct (Hf e He) as [Hk Hv]. apply Forall_app. split; [by eapply bytes_ok_text|].
    eapply IH; [done|exact Hv|]. apply (Hj e). by apply list_elem_of_In.
Qed.

Section Codec.
Context (kind : jstring).
(** The schema check, on values and on decoded trees. *)
Context (Check : jheap -> jsval -> bool) (CheckTree : cbor -> bool).

(** [parseClientMessage], [parseServerMessage] *)
Definition parseMessage (h : jheap) (value : jsval) : result ProtocolValidationError jsval :=
  if negb (Check h value) || negb (isJsonValue h value) then Err (InvalidMessage kind) else Ok value.

Definition parseDecoded (t : cbor) : result ProtocolValidationError cbor :=
  if negb (CheckTree t) || negb (cbor_is_json t) then Err (InvalidMessage kind) else Ok t.

Definition cbor_limit (maxFrameLength : num) : option CborOptions :=
  Some {| opt_maxByteLength := Some maxFrameLength; opt_maxContainerLength := None; opt_maxDepth := None |}.

(** [encodeClientMessage], [encodeServerMessage] *)
Definition encodeProtocolMessage (h : jheap) (value : jsval) (options : option num)
    : result ProtocolValidationError bytes :=
  parseMessage h value ≫= fun validated =>
  let maxFrameLength := default (of_Z DEFAULT_MAX_FRAME_LENGTH) options in
  match encodeCbor (cbor_heap h) validated (cbor_limit maxFrameLength) with
  | Err e => Err (UnableToEncode kind (OfCbor e))
  | Ok payload =>
      match encodeFrame payload with
      | Err e => Err (UnableToEncode kind (OfFrame e))
      | Ok frame => Ok frame
      end
  end.

(** [ValidatedMessageDecoder] *)
Record MessageDecoder := mkMessageDecoder {
  has_failed : bool;
  frames : FrameDecoder;
  frame_limit : num;
}.

Definition new_message_decoder (options : option num) : result FrameError MessageDecoder :=
  new_decoder options ≫= fun d =>
  Ok (mkMessageDecoder false d (default (of_Z DEFAULT_MAX_FRAME_LENGTH) options)).

Definition decodeMessage (limit : num) (frame : bytes) : result ProtocolValidationError cbor :=
  match decodeCbor frame (cbor_limit limit) with
  | Err e => Err (InvalidFrame kind (OfCbor e))
  | Ok t => parseDecoded t
  end.

Definition push_message (d : MessageDecoder) (chunk : bytes)
    : MessageDecoder * result ProtocolValidationError (list cbor) :=
  if has_failed d then (d, Err (HasFailed kind))
  else
    let '(fd, r) := push (frames d) chunk in
    let messages :=
      match r with
      | Err e => Err (InvalidFrame kind (OfFrame e))
      | Ok fs => traverse (decodeMessage (frame_limit d)) fs
      end in
    (mkMessageDecoder (negb (is_ok messages)) fd (frame_limit d), messages).

Definition end_message (d : MessageDecoder) : MessageDecoder * result ProtocolValidationError unit :=
  if has_failed d then (d, Err (HasFailed kind))
  else
    let '(fd, r) := end_ (frames d) in
    match r with
    | Err e => (mkMessageDecoder true fd (frame_limit d), Err (InvalidFraming kind (OfFrame e)))
    | Ok _ => (mkMessageDecoder false fd (frame_limit d), Ok tt)
    end.

(** Successive pushes, stopped by the first error. *)
Fixpoint push_messages (d : MessageDecoder) (chunks : list bytes)
    : MessageDecoder * result ProtocolValidationError (list cbor) :=
  match chunks with
  | [] => (d, Ok [])
  | chunk :: rest =>
      match push_message d chunk with
      | (d, Ok messages) =>
          match push_messages d rest with
          | (d, Ok messages') => (d, Ok (messages ++ messages'))
          | (d, Err e) => (d, Err e)
          end
      | (d, Err e) => (d, Err e)
      end
  end.

(** ** From a validated value to its frame *)

(** The schema check depends on the structure of a strict-JSON value only. *)
Hypothesis Check_tree : forall h v t, json_of false h v t -> Check h v = CheckTree (json_cbor t).

Lemma bool_cbor_is_json t : cbor_is_json (json_cbor t) = true.
Proof.
  assert (forall n t, (json_size t <= n)%nat -> cbor_is_json (json_cbor t) = true) as Hn; [|by eapply Hn].
  clear t. induction n as [|n IH]; intros t Hs; [destruct t; cbn in Hs; lia|].
  destruct t as [| | | |ts|b es]; cbn in *; try done; apply forallb_forall; intros x Hx%list_elem_of_In;
    apply list_elem_of_fmap in Hx as (y & -> & Hy); apply IH.
  - pose proof (elem_size json_size y ts Hy). lia.
  - pose proof (elem_size (fun e => json_size e.2) y es Hy). cbn in *. lia.
Qed.

Lemma mapM_cons {A B} (f : A -> option B) x l :
  mapM f (x :: l) = f x ≫= fun y => mapM f l ≫= fun ys => Some (y :: ys).
Proof. done. Qed.

(** The CBOR encoder sees the same tree. *)
Lemma json_tree_all h :
  (forall v t, json_of false h v t -> exists n, tree_of n (cbor_heap h) v = Some (json_cbor t)) /\
  (forall es ts, elements_of false h es ts -> exists n,
    mapM (fun e => match e with None | Some VUndefined => None | Some v => tree_of n (cbor_heap h) v end)
      ((fun e : option descriptor => value_of <$> e) <$> es) = Some (json_cbor <$> ts)) /\
  (forall own es, own_of false h own es -> existsb (fun p => is_symbol p.1 && d_enumerable p.2) own = false /\
    exists n, mapM (fun p => (fun t => (p.1, t)) <$> tree_of n (cbor_heap h) p.2)
      (filter (fun p => p.2 <> VUndefined) (data_properties own)) = Some ((fun e => (e.1, json_cbor e.2)) <$> es)).
Proof.
  apply json_of_mutind.
  - by exists 1%nat.
  - by exists 1%nat.
  - intros f Hf. exists 1%nat. cbn. by rewrite Hf.
  - by exists 1%nat.
  - intros l es ts Hl _ [n Hn]. exists (S n). cbn. unfold cbor_heap. rewrite lookup_fmap, Hl. cbn.
    fold (cbor_heap h). by rewrite Hn.
  - intros l proto own es Hl Hp _ (Hsym & n & Hn). exists (S n). cbn. unfold cbor_heap.
    rewrite lookup_fmap, Hl. cbn. rewrite Hsym. replace (plain_proto proto) with true by by destruct proto.
    fold (cbor_heap h). by rewrite Hn.
  - by exists 0%nat.
  - intros v t es ts Ht [n Hn] _ [m Hm]. exists (n `max` m)%nat. cbn.
    assert (v <> VUndefined) as Hv by (intros ->; inversion Ht).
    apply (tree_of_mono n (n `max` m)) in Hn; [|lia].
    assert (mapM (fun e => match e with None | Some VUndefined => None
        | Some v => tree_of (n `max` m)%nat (cbor_heap h) v end)
      ((fun e : option descriptor => value_of <$> e) <$> es) = Some (json_cbor <$> ts)) as ->.
    { apply mapM_Some. apply mapM_Some in Hm. eapply Forall2_impl; [exact Hm|].
      intros [[]|] t' Ht'; first [done|refine (tree_of_mono _ _ _ _ _ _ Ht'); lia]. }
    destruct v; try done; by rewrite Hn.
  - split; [done|]. by exists 0%nat.
  - done.
  - intros k v t own es Ht [n Hn] _ (Hsym & m & Hm). split; [exact Hsym|]. exists (n `max` m)%nat.
    assert (v <> VUndefined) as Hv by (intros ->; inversion Ht).
    change (data_properties _) with ((k, v) :: data_properties own).
    rewrite filter_cons_True by done. rewrite mapM_cons. cbn [fst snd].
    rewrite (tree_of_mono n (n `max` m) _ _ _ ltac:(lia) Hn). cbn [fmap option_fmap option_map mbind option_bind].
    assert (mapM (fun p => (fun t => (p.1, t)) <$> tree_of (n `max` m)%nat (cbor_heap h) p.2)
      (filter (fun p => p.2 <> VUndefined) (data_properties own)) = Some ((fun e => (e.1, json_cbor e.2)) <$> es)) as ->; [|done].
    apply mapM_Some. apply mapM_Some in Hm. eapply Forall2_impl; [exact Hm|].
    intros p t' (t2 & Ht2 & ->)%fmap_Some. apply fmap_Some. exists t2. split; [|done].
    eapply tree_of_mono; [|done]. lia.
Qed.

(** ** Whole messages *)

Lemma cbor_limit_ok limit o :
  resolveOptions (cbor_limit limit) = Ok o ->
  resolveMaxFrameLength (Some limit) = Ok (maxByteLength o).
Proof.
  unfold resolveOptions, cbor_limit, resolveMaxFrameLength, resolveLimit. cbn -[is_safe_integer to_Z MAX_UINT32 of_Z].
  change MAX_FRAME_UINT32 with MAX_UINT32.
  destruct (negb (is_safe_integer limit) || (to_Z limit <? 0) || (MAX_UINT32 <? to_Z limit)); cbn; [done|].
  by intros [= <-].
Qed.

Lemma resolve_default options :
  resolveMaxFrameLength options = resolveMaxFrameLength (Some (default (of_Z DEFAULT_MAX_FRAME_LENGTH) options)).
Proof. by destruct options. Qed.

(** An encoded message is the frame of the canonical bytes of its tree. *)
Lemma encodeProtocolMessage_Ok h v options frame :
  heap_ok (cbor_heap h) -> val_ok v -> jheap_ok h ->
  encodeProtocolMessage h v options = Ok frame ->
  exists o t, json_of false h v t /\ resolveMaxFrameLength options = Ok (maxByteLength o) /\
    encodeFrame (enc (json_cbor t)) = Ok frame /\ bytes_ok (enc (json_cbor t)) /\
    blen (enc (json_cbor t)) <= maxByteLength o /\
    decodeMessage (default (of_Z DEFAULT_MAX_FRAME_LENGTH) options) (enc (json_cbor t)) = Ok (json_cbor t).
Proof.
  intros Hh Hv Hj He. unfold encodeProtocolMessage in He. apply bind_Ok in He as (v' & Hp & He).
  unfold parseMessage in Hp. destruct (Check h v) eqn:Hc; [|done]. cbn [negb orb] in Hp.
  destruct (isJsonValue h v) eqn:Hjs; [|done]. injection Hp as <-.
  destruct (encodeCbor _ _ _) as [payload|] eqn:Hpl; [|done].
  destruct (encodeFrame payload) as [f|] eqn:Hf; [|done]. injection He as <-.
  unfold isJsonValue in Hjs. rewrite check_copy in Hjs.
  destruct (copy _ h v ∅ false) as [t|] eqn:Ht; [|done]. apply copy_sound in Ht; [|done].
  apply encodeCbor_sound in Hpl as (o & n & c & Ho & Hc' & Hfit & Hl & ->); [|done..].
  destruct (json_tree_all h) as [Htree _]. destruct (Htree v t Ht) as [m Hm].
  rewrite (tree_of_det _ _ _ _ _ _ Hc' Hm) in *. clear Hc'.
  exists o, t. split; [done|]. split; [by rewrite resolve_default; apply cbor_limit_ok|]. split; [done|].
  split; [eapply bytes_ok_enc; [done|apply bool_cbor_is_json]|]. split; [done|].
  unfold decodeMessage, parseDecoded. rewrite (decodeCbor_enc _ o) by done.
  by rewrite <- (Check_tree h v t Ht), Hc, bool_cbor_is_json.
Qed.

(** Decoding the frames chunk by chunk is decoding all of them. *)
Lemma push_messages_frames chunks fd fd' limit fs ts :
  push_all fd chunks = (fd', Ok fs) -> traverse (decodeMessage limit) fs = Ok ts ->
  push_messages (mkMessageDecoder false fd limit) chunks = (mkMessageDecoder false fd' limit, Ok ts).
Proof.
  revert fd fs ts. induction chunks as [|c cs IH]; intros fd fs ts; cbn [push_all push_messages].
  { intros [= <- <-] [= <-]. done. }
  unfold push_message. cbn [has_failed frames frame_limit].
  destruct (push fd c) as [fd1 [fs1|]]; [|done]. destruct (push_all fd1 cs) as [fd2 [fs2|]] eqn:Hall; [|done].
  intros [= -> <-] Hts. apply traverse_Ok in Hts. apply Forall2_app_inv_l in Hts as (ts1 & ts2 & H1 & H2 & ->).
  apply traverse_Ok in H1. apply traverse_Ok in H2. rewrite H1. cbn [is_ok negb].
  by rewrite (IH fd1 fs2 ts2 Hall H2).
Qed.

Lemma encode_messages h options d vs fs :
  heap_ok (cbor_heap h) -> jheap_ok h -> Forall val_ok vs ->
  new_message_decoder options = Ok d ->
  traverse (fun v => encodeProtocolMessage h v options) vs = Ok fs ->
  exists payloads ts, traverse encodeFrame payloads = Ok fs /\ Forall2 (json_of false h) vs ts /\
    Forall bytes_ok payloads /\ Forall (fun p => blen p <= maxFrameLength (frames d)) payloads /\
    traverse (decodeMessage (frame_limit d)) payloads = Ok (json_cbor <$> ts).
Proof.
  intros Hh Hj Hv Hd Hfs%traverse_Ok. unfold new_message_decoder in Hd.
  apply bind_Ok in Hd as (fd & Hfd & Hd). inversion Hd; subst d; clear Hd.
  apply new_decoder_pending in Hfd as [_ Hm]. cbn [frames frame_limit].
  induction Hfs as [|v f vs fs Hvf _ IH]; [by exists [], []|].
  apply Forall_cons in Hv as [Hv1 Hv]. destruct (IH Hv) as (ps & ts & H1 & H2 & H3 & H4 & H5).
  apply encodeProtocolMessage_Ok in Hvf as (o & t & Ht & Hr & Hf & Hb & Hl & Hdec); [|done..].
  exists (enc (json_cbor t) :: ps), (t :: ts).
  split; [by cbn; rewrite Hf; cbn; rewrite H1|]. split; [by constructor|]. split; [by constructor|].
  split; [constructor; [congruence|done]|]. rewrite fmap_cons. cbn [traverse]. rewrite Hdec. cbn. by rewrite H5.
Qed.
End Codec.

(** ** Properties *)

(** A schema that accepts objects: it depends on the tree only. *)
Definition object_schema (h : jheap) (v : jsval) : bool :=
  match v with
  | VRef l => match h !! l with Some (JObject _ _) => true | _ => false end
  | _ => false
  end.

Definition object_tree (t : cbor) : bool := match t with CMap _ => true | _ => false end.

Lemma object_schema_tree h v t : json_of false h v t -> object_schema h v = object_tree (json_cbor t).
Proof. destruct 1 as [| | | |l es ts Hl|l p own es Hl]; cbn; try done; by rewrite Hl. Qed.

(** Messages survive the wire: valid messages, encoded one after the other and delivered
    in chunks cut anywhere, come out of the message decoder as exactly the trees they stand
    for, in order, and the stream ends cleanly. *)
Theorem messages_roundtrip kind Check CheckTree h options d vs fs chunks :
  (forall h v t, json_of false h v t -> Check h v = CheckTree (json_cbor t)) ->
  heap_ok (cbor_heap h) -> jheap_ok h -> Forall val_ok vs ->
  new_message_decoder options = Ok d ->
  traverse (fun v => encodeProtocolMessage kind Check h v options) vs = Ok fs ->
  Forall bytes_ok chunks -> mjoin chunks = mjoin fs ->
  exists d' ts, Forall2 (json_of false h) vs ts /\
    push_messages kind CheckTree d chunks = (d', Ok (json_cbor <$> ts)) /\
    (end_message kind d').2 = Ok tt.
Proof.
  intros HC Hh Hj Hv Hd Hfs Hc Hm.
  destruct (encode_messages kind Check CheckTree HC h options d vs fs) as (ps & ts & Hps & Hts & Hb & Hl & Hdec);
    [done..|].
  unfold new_message_decoder in Hd. apply bind_Ok in Hd as (fd & Hfd & [= <-]). cbn in *.
  destruct (push_all_frames options fd ps fs chunks) as (fd' & Hall & Hend); [done..|].
  eexists _, ts. split; [done|]. split; [by eapply push_messages_frames|].
  unfold end_message. cbn. by rewrite Hend.
Qed.

Lemma messages_roundtrip_witness :
  let h : jheap := {[ 1%positive := JObject ProtoObject
    [(KString $"type", mkDescriptor true (Some (VStr $"ping")))] ]} in
  exists d d' ts, new_message_decoder None = Ok d /\
    Forall2 (json_of false h) [VRef 1; VRef 1] ts /\
    push_messages $"client" object_tree d
      [[0; 0; 0]; [11; 161; 100; 116; 121; 112; 101; 100]; [112; 105; 110; 103; 0; 0; 0; 11; 161];
       [100; 116; 121; 112; 101; 100; 112; 105; 110; 103]] = (d', Ok (json_cbor <$> ts)) /\
    (end_message $"client" d').2 = Ok tt.
Proof.
  intros h. destruct (new_message_decoder None) as [d|] eqn:Hd; [|vm_compute in Hd; discriminate Hd].
  destruct (messages_roundtrip $"client" object_schema object_tree h None d [VRef 1; VRef 1]
    (replicate 2 [0; 0; 0; 11; 161; 100; 116; 121; 112; 101; 100; 112; 105; 110; 103])
    [[0; 0; 0]; [11; 161; 100; 116; 121; 112; 101; 100]; [112; 105; 110; 103; 0; 0; 0; 11; 161];
       [100; 116; 121; 112; 101; 100; 112; 105; 110; 103]]) as (d' & ts & H1 & H2 & H3).
  - exact object_schema_tree.
  - unfold h, cbor_heap. rewrite map_fmap_singleton. apply map_Forall_singleton. cbn.
    split; [split; [by apply (bool_decide_unpack _); vm_compute|repeat constructor]|repeat constructor].
  - unfold h. apply map_Forall_singleton. cbn.
    split; [by apply (bool_decide_unpack _); vm_compute|repeat constructor].
  - repeat constructor.
  - exact Hd.
  - vm_compute. reflexivity.
  - repeat constructor; lia.
  - reflexivity.
  - exists d, d', ts. split; [reflexivity|]. split; [exact H1|]. split; [exact H2|exact H3].
Defined.

(** Nothing unvalidated gets through, and failure is final: every message [push] returns
    passed the schema and strict-JSON checks, and once a push or an end has thrown, every
    later push and end throws and the decoder no longer changes. *)
Theorem message_decoder_safe kind CheckTree d chunk :
  let '(d', r) := push_message kind CheckTree d chunk in
  match r with
  | Ok messages => Forall (fun t => CheckTree t = true /\ cbor_is_json t = true) messages
  | Err _ => has_failed d' = true
  end /\
  (is_ok (end_message kind d).2 = false -> has_failed (end_message kind d).1 = true) /\
  (has_failed d = true ->
    push_message kind CheckTree d chunk = (d, Err (HasFailed kind)) /\
    end_message kind d = (d, Err (HasFailed kind))).
Proof.
  unfold push_message, end_message. destruct (has_failed d) eqn:Hf; [done|].
  destruct (push (frames d) chunk) as [fd r]. split_and!; [|by destruct (end_ _) as [? []]|done].
  destruct r as [fs|e]; [|done]. destruct (traverse _ fs) as [ts|] eqn:Hts; [|done].
  apply traverse_Ok in Hts. induction Hts as [|f t fs ts Hft _ IH]; [constructor|]. constructor; [|done].
  unfold decodeMessage, parseDecoded in Hft. destruct (decodeCbor _ _) as [c|]; [|done].
  destruct (CheckTree c) eqn:Hc, (cbor_is_json c) eqn:Hj; try done. by injection Hft as <-.
Qed.

Lemma message_decoder_safe_witness :
  Forall (fun t => object_tree t = true /\ cbor_is_json t = true) [CMap []].
Proof.
  destruct (new_message_decoder None) as [d|] eqn:Hd; [|vm_compute in Hd; discriminate Hd].
  pose proof (message_decoder_safe $"server" object_tree d [0; 0; 0; 1; 160]) as H.
  vm_compute in Hd. injection Hd as <-. exact (proj1 H).
Defined.
