(* ===== verification/Truncate.v ===== *)
(** * Output truncation (packages/agent/src/harness/utils/truncate.ts)

Limits in lines and UTF-8 bytes on tool outputs.  Limits are integers (the
callers pass integers); strings are sequences of UTF-16 code units, so that
unpaired surrogates are covered.  The specification of a byte count is the
length of [utf8_encode], where an unpaired surrogate counts as U+FFFD. *)
From S2P Require Import Prelude JsString Utf8.
#[local] Open Scope Z_scope.

Definition DEFAULT_MAX_LINES : Z := 2000.
Definition DEFAULT_MAX_BYTES : Z := 50 * 1024.
Definition GREP_MAX_LINE_LENGTH : Z := 500.

Inductive limit_hit := LimitLines | LimitBytes.

Record TruncationResult := {
  content : jstring;
  truncated : bool;
  truncatedBy : option limit_hit;
  totalLines : Z;
  totalBytes : Z;
  outputLines : Z;
  outputBytes : Z;
  lastLinePartial : bool;
  firstLineExceedsLimit : bool;
  maxLines : Z;
  maxBytes : Z;
}.

Record TruncationOptions := { opt_maxLines : option Z; opt_maxBytes : option Z }.

(** ** Byte length *)

(** [content.search(/[^\x00-\x7f]/)] *)
Fixpoint first_non_ascii (s : jstring) (i : Z) : option Z :=
  match s with
  | [] => None
  | c :: s' => if c <=? 0x7f then first_non_ascii s' (i + 1) else Some i
  end.

(** The loop from the first non-ASCII unit on; [fuel] is the number of units. *)
Fixpoint byte_loop (fuel : nat) (s : jstring) (i bytes : Z) : Z :=
  match fuel with
  | O => bytes
  | S n =>
      match at_ s i with
      | None => bytes
      | Some code =>
          if code <=? 0x7f then byte_loop n s (i + 1) (bytes + 1)
          else if code <=? 0x7ff then byte_loop n s (i + 1) (bytes + 2)
          else if (0xd800 <=? code) && (code <=? 0xdbff) && (i + 1 <? blen s) then
            let next := default 0 (at_ s (i + 1)) in
            if (0xdc00 <=? next) && (next <=? 0xdfff)
            then byte_loop n s (i + 2) (bytes + 4)
            else byte_loop n s (i + 1) (bytes + 3)
          else byte_loop n s (i + 1) (bytes + 3)
      end
  end.

(** [runtimeBuffer]: whether the runtime has [Buffer], whose [byteLength] is
    the length of the UTF-8 encoding. *)
Definition utf8ByteLength (runtimeBuffer : bool) (s : jstring) : Z :=
  if runtimeBuffer then blen (utf8_encode s)
  else
    match first_non_ascii s 0 with
    | None => blen s
    | Some firstNonAscii => byte_loop (length s) s firstNonAscii firstNonAscii
    end.

(** ** Lines *)

Definition splitLinesForCounting (s : jstring) : list jstring :=
  if bool_decide (s = []) then []
  else
    let lines := split_newline s in
    if bool_decide (last s = Some NEWLINE) then removelast lines else lines.

(** [replaceUnpairedSurrogates] *)
Fixpoint replaceUnpairedSurrogates (s : jstring) : jstring :=
  match s with
  | [] => []
  | code :: s' =>
      if is_high_surrogate code then
        match s' with
        | next :: s'' =>
            if is_low_surrogate next then code :: next :: replaceUnpairedSurrogates s''
            else REPLACEMENT :: replaceUnpairedSurrogates s'
        | [] => [REPLACEMENT]
        end
      else if is_low_surrogate code then REPLACEMENT :: replaceUnpairedSurrogates s'
      else code :: replaceUnpairedSurrogates s'
  end.

(** ** Keeping the head *)

Section WithBuffer.
Context (runtimeBuffer : bool).
Notation byteLength := (utf8ByteLength runtimeBuffer).

(** The collecting loop; [i] is the index of the first of [lines]. The answer
    is the collected lines and whether a line exceeded the byte limit. *)
Fixpoint head_loop (lines : list jstring) (i limitLines limitBytes outputBytesCount : Z)
    (out : list jstring) : list jstring * bool :=
  match lines with
  | [] => (out, false)
  | line :: rest =>
      if i <? limitLines then
        let lineBytes := byteLength line + (if 0 <? i then 1 else 0) in
        if limitBytes <? outputBytesCount + lineBytes then (out, true)
        else head_loop rest (i + 1) limitLines limitBytes (outputBytesCount + lineBytes) (out ++ [line])
      else (out, false)
  end.

Definition untouched (s : jstring) (lines bytes limitLines limitBytes : Z) : TruncationResult :=
  {| content := s; truncated := false; truncatedBy := None; totalLines := lines; totalBytes := bytes;
     outputLines := lines; outputBytes := bytes; lastLinePartial := false; firstLineExceedsLimit := false;
     maxLines := limitLines; maxBytes := limitBytes |}.

(** [None]: reading [lines[0]] of an empty content throws, which takes a
    negative limit. *)
Definition truncateHead (s : jstring) (options : TruncationOptions) : option TruncationResult :=
  let limitLines := default DEFAULT_MAX_LINES (opt_maxLines options) in
  let limitBytes := default DEFAULT_MAX_BYTES (opt_maxBytes options) in
  let bytes := byteLength s in
  let lines := splitLinesForCounting s in
  let total := blen lines in
  if (total <=? limitLines) && (bytes <=? limitBytes)
  then Some (untouched s total bytes limitLines limitBytes)
  else
    match lines with
    | [] => None
    | line0 :: _ =>
        if limitBytes <? byteLength line0 then
          Some {| content := []; truncated := true; truncatedBy := Some LimitBytes; totalLines := total;
                  totalBytes := bytes; outputLines := 0; outputBytes := 0; lastLinePartial := false;
                  firstLineExceedsLimit := true; maxLines := limitLines; maxBytes := limitBytes |}
        else
          let '(out, exceeded) := head_loop lines 0 limitLines limitBytes 0 [] in
          let by_ := if exceeded then LimitBytes else if blen out <? total then LimitLines else LimitBytes in
          let outputContent := join_lines out in
          Some {| content := outputContent; truncated := true; truncatedBy := Some by_; totalLines := total;
                  totalBytes := bytes; outputLines := blen out; outputBytes := byteLength outputContent;
                  lastLinePartial := false; firstLineExceedsLimit := false;
                  maxLines := limitLines; maxBytes := limitBytes |}
    end.

(** ** Keeping the tail *)

(** [truncateStringToBytesFromEnd]'s loop, from position [i] down; [fuel] is
    the length of the string.  Returns [start] and [needsReplacement]. *)
Fixpoint from_end_loop (fuel : nat) (str : jstring) (limitBytes i outputBytes start : Z)
    (needsReplacement : bool) : Z * bool :=
  match fuel with
  | O => (start, needsReplacement)
  | S n =>
      if 0 <? i then
        let characterStart := i - 1 in
        let code := default 0 (at_ str characterStart) in
        let '(characterStart, characterBytes, unpairedSurrogate) :=
          if is_low_surrogate code && (0 <? characterStart) then
            let previous := default 0 (at_ str (characterStart - 1)) in
            if is_high_surrogate previous then (characterStart - 1, 4, false)
            else (characterStart, 3, true)
          else if (0xd800 <=? code) && (code <=? 0xdfff) then (characterStart, 3, true)
          else (characterStart, if code <=? 0x7f then 1 else if code <=? 0x7ff then 2 else 3, false) in
        if limitBytes <? outputBytes + characterBytes then (start, needsReplacement)
        else from_end_loop n str limitBytes characterStart (outputBytes + characterBytes) characterStart
               (needsReplacement || unpairedSurrogate)
      else (start, needsReplacement)
  end.

Definition truncateStringToBytesFromEnd (str : jstring) (limitBytes : Z) : jstring :=
  if limitBytes <=? 0 then []
  else
    let '(start, needsReplacement) :=
      from_end_loop (length str) str limitBytes (blen str) 0 (blen str) false in
    let output := drop (Z.to_nat start) str in
    if needsReplacement then replaceUnpairedSurrogates output else output.

(** The loop over the lines from the last one; [rest] is what is left of them,
    last line first. *)
Fixpoint tail_loop (rest : list jstring) (limitLines limitBytes outputBytesCount : Z)
    (out : list jstring) : list jstring * Z * limit_hit * bool :=
  match rest with
  | [] => (out, outputBytesCount, LimitLines, false)
  | line :: rest' =>
      if blen out <? limitLines then
        let lineBytes := byteLength line + (if 0 <? blen out then 1 else 0) in
        if limitBytes <? outputBytesCount + lineBytes then
          if bool_decide (out = []) then
            let truncatedLine := truncateStringToBytesFromEnd line limitBytes in
            ([truncatedLine], byteLength truncatedLine, LimitBytes, true)
          else (out, outputBytesCount, LimitBytes, false)
        else tail_loop rest' limitLines limitBytes (outputBytesCount + lineBytes) (line :: out)
      else (out, outputBytesCount, LimitLines, false)
  end.

Definition truncateTail (s : jstring) (options : TruncationOptions) : TruncationResult :=
  let limitLines := default DEFAULT_MAX_LINES (opt_maxLines options) in
  let limitBytes := default DEFAULT_MAX_BYTES (opt_maxBytes options) in
  let bytes := byteLength s in
  let lines := splitLinesForCounting s in
  let total := blen lines in
  if (total <=? limitLines) && (bytes <=? limitBytes)
  then untouched s total bytes limitLines limitBytes
  else
    let '(out, outputBytesCount, by_, partial) := tail_loop (rev lines) limitLines limitBytes 0 [] in
    let by_ := if (limitLines <=? blen out) && (outputBytesCount <=? limitBytes) then LimitLines else by_ in
    let outputContent := join_lines out in
    {| content := outputContent; truncated := true; truncatedBy := Some by_; totalLines := total;
       totalBytes := bytes; outputLines := blen out; outputBytes := byteLength outputContent;
       lastLinePartial := partial; firstLineExceedsLimit := false;
       maxLines := limitLines; maxBytes := limitBytes |}.

End WithBuffer.

(** [truncateLine]: the text, and whether it was cut. *)
Definition truncateLine (line : jstring) (maxChars : Z) : jstring * bool :=
  if blen line <=? maxChars then (line, false)
  else (slice line 0 maxChars ++ $"... [truncated]", true).

(** ** Specification *)

(** Bytes of the UTF-8 encoding. *)
Definition u8len (s : jstring) : Z := blen (utf8_encode s).

(** Every element is a UTF-16 code unit. *)
Definition units_ok (s : jstring) : Prop := Forall (fun c => 0 <= c < 65536) s.

(** No surrogate pair spans the end of [a] and the start of [b]. *)
Definition boundary (a b : jstring) : Prop :=
  match last a, head b with
  | Some h, Some l => is_high_surrogate h && is_low_surrogate l = false
  | _, _ => True
  end.

(** ** Byte length *)

Ltac surrogates := unfold is_high_surrogate, is_low_surrogate in *.

Lemma u8len_nil : u8len [] = 0. Proof. done. Qed.
Lemma u8len_nonneg s : 0 <= u8len s. Proof. apply blen_nonneg. Qed.

Lemma u8len_pair h l s :
  is_high_surrogate h = true -> is_low_surrogate l = true -> u8len (h :: l :: s) = 4 + u8len s.
Proof.
  intros Hh Hl. unfold u8len, utf8_encode. cbn [scalars_of]. rewrite Hh, Hl. cbn [mbind list_bind].
  rewrite blen_app. f_equal. unfold utf8_of. surrogates.
  repeat match goal with |- context [Z.ltb ?a ?b] => destruct (Z.ltb_spec a b) end; lia || done.
Qed.

(** A unit that does not start a pair. *)
Lemma u8len_single c s :
  boundary [c] s -> 0 <= c < 65536 ->
  u8len (c :: s) = (if c <=? 0x7f then 1 else if c <=? 0x7ff then 2 else 3) + u8len s.
Proof.
  intros Hb Hc. unfold u8len, utf8_encode, boundary in *. cbn [scalars_of last head] in *.
  assert (forall k, (is_high_surrogate c || is_low_surrogate c) = true ->
    blen (utf8_of REPLACEMENT) + k = (if c <=? 0x7f then 1 else if c <=? 0x7ff then 2 else 3) + k) as Hr.
  { intros k Hs. surrogates. destruct (Z.leb_spec c 0x7f); [lia|]. by destruct (Z.leb_spec c 0x7ff); [lia|]. }
  destruct (is_high_surrogate c) eqn:Hh.
  - destruct s as [|d s]; [cbn [mbind list_bind]; rewrite blen_app; by apply Hr|].
    cbn [head] in Hb. cbn [andb] in Hb. rewrite Hb.
    change (blen ((REPLACEMENT :: scalars_of (d :: s)) ≫= utf8_of))
      with (blen (utf8_of REPLACEMENT ++ (scalars_of (d :: s) ≫= utf8_of))).
    rewrite blen_app. by apply Hr.
  - destruct (is_low_surrogate c) eqn:Hl; cbn [mbind list_bind]; rewrite blen_app; [by apply Hr|].
    f_equal. unfold utf8_of.
    repeat match goal with |- context [Z.ltb ?a ?b] => destruct (Z.ltb_spec a b) end;
    repeat match goal with |- context [Z.leb ?a ?b] => destruct (Z.leb_spec a b) end; lia || done.
Qed.

Lemma boundary_high c s : is_high_surrogate c = false -> boundary [c] s.
Proof. unfold boundary. cbn. intros ->. by destruct s. Qed.

Lemma boundary_low a d s : is_low_surrogate d = false -> boundary a (d :: s).
Proof. unfold boundary. cbn. intros ->. destruct (last a); [by rewrite andb_false_r|done]. Qed.

Lemma byte_loop_spec fuel s i b :
  units_ok s -> 0 <= i <= blen s -> blen s - i <= Z.of_nat fuel ->
  byte_loop fuel s i b = b + u8len (drop (Z.to_nat i) s).
Proof.
  intros Hs. revert i b. induction fuel as [fuel IH] using lt_wf_ind. intros i b Hi Hf.
  destruct (drop (Z.to_nat i) s) as [|c t] eqn:Hd.
  - apply (f_equal length) in Hd. rewrite length_drop in Hd. cbn in Hd.
    assert (i = blen s) as -> by (unfold blen in *; lia). rewrite u8len_nil. destruct fuel; cbn; [lia|].
    unfold at_. destruct (Z.ltb_spec (blen s) 0); [lia|]. rewrite lookup_ge_None_2; [lia|unfold blen; lia].
  - destruct (drop_step s t c i) as (Ha & Ht & Hl); [lia|done|]. pose proof (blen_nonneg t).
    destruct fuel as [|fuel]; [lia|]. cbn [byte_loop]. rewrite Ha.
    assert (0 <= c < 65536) as Hc.
    { apply (Forall_drop _ (Z.to_nat i)) in Hs. rewrite Hd in Hs. by apply Forall_cons in Hs as [? _]. }
    assert (boundary [c] t -> forall k, k = (if c <=? 0x7f then 1 else if c <=? 0x7ff then 2 else 3) ->
      byte_loop fuel s (i + 1) (b + k) = b + u8len (c :: t)) as Hone.
    { intros Hb k ->. rewrite IH, Ht by lia. rewrite u8len_single by done. lia. }
    destruct (Z.leb_spec c 0x7f); [apply Hone; [apply boundary_high; surrogates; lia|done]|].
    destruct (Z.leb_spec c 0x7ff); [apply Hone; [apply boundary_high; surrogates; lia|done]|].
    destruct ((0xd800 <=? c) && (c <=? 0xdbff)) eqn:Hh; cbn [andb].
    2: { apply Hone; [by apply boundary_high|done]. }
    destruct t as [|d t].
    { rewrite Hl. destruct (Z.ltb_spec (i + 1) (i + 1 + blen (A:=Z) [])) as [|]; [blen_lia|]. apply Hone; [done|done]. }
    rewrite blen_cons in Hl. pose proof (blen_nonneg t). destruct (Z.ltb_spec (i + 1) (blen s)); [|lia].
    destruct (drop_step s t d (i + 1)) as (Hd1 & Hd2 & _); [lia|done|]. rewrite Hd1. change (default 0 (Some d)) with d.
    destruct ((0xdc00 <=? d) && (d <=? 0xdfff)) eqn:Hlow.
    + replace (i + 2) with (i + 1 + 1) by lia. rewrite IH, Hd2 by lia. rewrite u8len_pair by done. lia.
    + apply Hone; [|done]. by apply boundary_low.
Qed.

Lemma first_non_ascii_spec s i :
  units_ok s -> 0 <= i ->
  match first_non_ascii s i with
  | None => u8len s = blen s
  | Some k => i <= k <= i + blen s /\ u8len s = k - i + u8len (drop (Z.to_nat (k - i)) s)
  end.
Proof.
  revert i. induction s as [|c s IH]; intros i Hs Hi; cbn [first_non_ascii]; [done|].
  apply Forall_cons in Hs as [Hc Hs]. destruct (Z.leb_spec c 0x7f) as [Hle|Hgt].
  - specialize (IH (i + 1) Hs ltac:(lia)). rewrite u8len_single; [|apply boundary_high; surrogates; lia|done].
    destruct (Z.leb_spec c 0x7f); [|lia]. rewrite blen_cons.
    destruct (first_non_ascii s (i + 1)) as [k|]; [|lia]. destruct IH as [? IH]. split; [lia|].
    replace (Z.to_nat (k - i)) with (S (Z.to_nat (k - (i + 1)))) by lia. cbn [drop]. lia.
  - rewrite blen_cons. pose proof (blen_nonneg s). replace (Z.to_nat (i - i)) with 0%nat by lia.
    rewrite drop_0. lia.
Qed.

(** Both branches count the bytes of the UTF-8 encoding. *)
Lemma utf8ByteLength_u8len b s : units_ok s -> utf8ByteLength b s = u8len s.
Proof.
  intros Hs. unfold utf8ByteLength. destruct b; [done|].
  pose proof (first_non_ascii_spec s 0 Hs ltac:(lia)) as Hk.
  destruct (first_non_ascii s 0) as [k|]; [|done]. destruct Hk as [Hk ->].
  rewrite byte_loop_spec; [|done|lia|unfold blen; lia]. by rewrite Z.sub_0_r.
Qed.

(** Byte lengths add up where no pair is cut. *)
Lemma u8len_app a b : units_ok a -> boundary a b -> u8len (a ++ b) = u8len a + u8len b.
Proof.
  remember (length a) as n eqn:Hn. revert a Hn. induction n as [n IH] using lt_wf_ind. intros a -> Ha Hb.
  destruct a as [|c a]; [done|]. apply Forall_cons in Ha as [Hc Ha].
  destruct a as [|d a].
  - cbn [app]. rewrite !u8len_single; [|done..]. rewrite u8len_nil. lia.
  - destruct (is_high_surrogate c && is_low_surrogate d) eqn:Hp.
    + apply andb_true_iff in Hp as [Hh Hl]. apply Forall_cons in Ha as [_ Ha]. cbn [app].
      rewrite !u8len_pair by done. rewrite (IH (length a)); [lia|cbn; lia|done|done|].
      destruct a as [|e a]; [done|]. exact Hb.
    + rewrite <- app_comm_cons, !(u8len_single c); [|exact Hp|done|exact Hp|done]. rewrite (IH (length (d :: a))); [lia|cbn; lia|done..].
Qed.

(** ** Unpaired surrogates *)

Lemma replace_pair h l s :
  is_high_surrogate h = true -> is_low_surrogate l = true ->
  replaceUnpairedSurrogates (h :: l :: s) = h :: l :: replaceUnpairedSurrogates s.
Proof. intros Hh Hl. cbn. by rewrite Hh, Hl. Qed.

Lemma replace_single c s :
  boundary [c] s ->
  replaceUnpairedSurrogates (c :: s) =
    (if is_high_surrogate c || is_low_surrogate c then REPLACEMENT else c) :: replaceUnpairedSurrogates s.
Proof.
  intros Hb. unfold boundary in Hb. cbn [replaceUnpairedSurrogates last head] in *.
  destruct (is_high_surrogate c); [|by destruct (is_low_surrogate c)].
  destruct s as [|d s]; [done|]. cbn in Hb. by rewrite Hb.
Qed.

(** Induction on a string from the left, a pair at a time. *)
Lemma string_ind (P : jstring -> Prop) :
  P [] ->
  (forall h l s, is_high_surrogate h = true -> is_low_surrogate l = true -> P s -> P (h :: l :: s)) ->
  (forall c s, boundary [c] s -> P s -> P (c :: s)) ->
  forall s, P s.
Proof.
  intros H0 H2 H1 s. remember (length s) as n eqn:Hn. revert s Hn.
  induction n as [n IH] using lt_wf_ind. intros s ->. destruct s as [|c [|d s]]; [done|by apply H1|].
  destruct (is_high_surrogate c && is_low_surrogate d) eqn:Hp.
  - apply andb_true_iff in Hp as [? ?]. apply H2; [done..|]. apply (IH (length s)); [cbn; lia|done].
  - apply H1; [exact Hp|]. apply (IH (length (d :: s))); [cbn; lia|done].
Qed.

(** The replacement is the string of the code points the encoder sees. *)
Lemma replace_scalars s :
  units_ok s ->
  replaceUnpairedSurrogates s = scalars_of s ≫= units_of /\ Forall (fun c => is_scalar c = true) (scalars_of s).
Proof.
  induction s as [|h l s Hh Hl IH|c s Hb IH] using string_ind; intros Hs; [done| |].
  - apply Forall_cons in Hs as [Hch Hs]. apply Forall_cons in Hs as [Hcl Hs].
    destruct (IH Hs) as [IH1 IH2]. rewrite replace_pair by done. cbn [scalars_of]. rewrite Hh, Hl.
    cbn [mbind list_bind]. rewrite IH1. surrogates. split.
    + unfold units_of at 2. set (v := 0x10000 + (h - 0xd800) * 0x400 + (l - 0xdc00)).
      destruct (Z.ltb_spec v 0x10000); [lia|].
      replace ((v - 0x10000) / 0x400) with (h - 0xd800) by (subst v; Z.to_euclidean_division_equations; lia).
      replace ((v - 0x10000) mod 0x400) with (l - 0xdc00) by (subst v; Z.to_euclidean_division_equations; lia).
      cbn [app]. do 2 f_equal; [|f_equal]; lia.
    + constructor; [|done]. apply is_scalar_spec. lia.
  - apply Forall_cons in Hs as [Hc Hs]. destruct (IH Hs) as [IH1 IH2].
    rewrite replace_single by done. rewrite IH1.
    assert (scalars_of (c :: s) = (if is_high_surrogate c || is_low_surrogate c then REPLACEMENT else c) :: scalars_of s) as ->.
    { unfold boundary in Hb. cbn [scalars_of last head] in *. destruct (is_high_surrogate c); [|by destruct (is_low_surrogate c)].
      destruct s as [|d s]; [done|]. cbn in Hb. by rewrite Hb. }
    destruct (is_high_surrogate c || is_low_surrogate c) eqn:Hsur.
    + split; [done|]. by constructor.
    + cbn [mbind list_bind]. split; [|constructor; [apply is_scalar_spec; surrogates; lia|done]].
      unfold units_of at 2. destruct (Z.ltb_spec c 0x10000); [done|lia].
Qed.

Lemma replace_encode s : units_ok s -> utf8_encode (replaceUnpairedSurrogates s) = utf8_encode s.
Proof.
  intros Hs. destruct (replace_scalars s Hs) as [-> HF]. unfold utf8_encode. by rewrite scalars_of_wf.
Qed.

Lemma replace_units s : units_ok s -> units_ok (replaceUnpairedSurrogates s).
Proof.
  induction s as [|h l s Hh Hl IH|c s Hb IH] using string_ind; intros Hs; [done| |].
  - apply Forall_cons in Hs as [Hch Hs]. apply Forall_cons in Hs as [Hcl Hs].
    rewrite replace_pair by done. by repeat (constructor; [done|]); apply IH.
  - apply Forall_cons in Hs as [Hc Hs]. rewrite replace_single by done.
    constructor; [by destruct (_ || _); [unfold REPLACEMENT; lia|]|by apply IH].
Qed.

Lemma replace_well_formed s : units_ok s -> well_formed (replaceUnpairedSurrogates s).
Proof. intros Hs. destruct (replace_scalars s Hs) as [-> HF]. by exists (scalars_of s). Qed.

(** ** The end of a line that is too long *)

Lemma boundary_app_r a b c : b <> [] -> boundary (a ++ b) c <-> boundary b c.
Proof. intros Hb. unfold boundary. rewrite last_app. destruct b as [|x b] using rev_ind; [done|]. by rewrite last_snoc. Qed.

Lemma boundary_suffix a b c : boundary (a ++ b) c -> boundary b c.
Proof. destruct (decide (b = [])) as [->|]; [done|]. by apply boundary_app_r. Qed.

Lemma at_snoc pre (c : Z) suf : at_ ((pre ++ [c]) ++ suf) (blen (pre ++ [c]) - 1) = Some c.
Proof. rewrite <- app_assoc. rewrite at_app_r; [done|]. rewrite blen_app. unfold blen. cbn. lia. Qed.

Definition unit_bytes (c : Z) : Z := if c <=? 0x7f then 1 else if c <=? 0x7ff then 2 else 3.

(** The kept part [q ++ suf] is a run of whole characters, within the limit, and
    no longer one would be. *)
Definition kept_from (limit : Z) (pre suf p q : jstring) (needs : bool) : Prop :=
  pre = p ++ q /\ boundary p (q ++ suf) /\ u8len (q ++ suf) <= limit /\
  (needs = false -> replaceUnpairedSurrogates (q ++ suf) = q ++ suf) /\
  (forall p1 p2, p = p1 ++ p2 -> p2 <> [] -> boundary p1 (p2 ++ q ++ suf) -> limit < u8len (p2 ++ q ++ suf)).

Lemma kept_from_shift limit pre x suf p q needs :
  kept_from limit pre (x ++ suf) p q needs -> kept_from limit (pre ++ x) suf p (q ++ x) needs.
Proof. unfold kept_from. intros (-> & H). rewrite <- !app_assoc. by split. Qed.

Definition from_end_result (fuel : nat) : Prop := forall pre suf limit needs,
  units_ok (pre ++ suf) -> (length pre <= fuel)%nat -> boundary pre suf -> u8len suf <= limit ->
  (needs = false -> replaceUnpairedSurrogates suf = suf) ->
  exists p q needs',
    from_end_loop fuel (pre ++ suf) limit (blen pre) (u8len suf) (blen pre) needs = (blen p, needs') /\
    kept_from limit pre suf p q needs'.

(** Taking one more character [x], or stopping in front of it. *)
Lemma from_end_char fuel pre x suf limit needs k unpaired :
  from_end_result fuel ->
  units_ok ((pre ++ x) ++ suf) -> (length pre <= fuel)%nat -> x <> [] ->
  boundary pre (x ++ suf) -> boundary (pre ++ x) suf ->
  (forall l1 l2, x = l1 ++ l2 -> l1 <> [] -> l2 <> [] -> ~ boundary l1 l2) ->
  u8len (x ++ suf) = u8len suf + k -> u8len suf <= limit ->
  (needs = false -> replaceUnpairedSurrogates suf = suf) ->
  (needs || unpaired = false -> replaceUnpairedSurrogates (x ++ suf) = x ++ suf) ->
  exists p q needs',
    (if limit <? u8len suf + k then (blen (pre ++ x), needs)
     else from_end_loop fuel ((pre ++ x) ++ suf) limit (blen pre) (u8len suf + k) (blen pre) (needs || unpaired))
    = (blen p, needs') /\ kept_from limit (pre ++ x) suf p q needs'.
Proof.
  intros IH Hu Hf Hx Hb Hb' Hin Hk Hl Hr Hr'. destruct (Z.ltb_spec limit (u8len suf + k)) as [Hstop|Hgo].
  - exists (pre ++ x), [], needs. split; [done|]. split_and!; [by rewrite app_nil_r|done|done|done|].
    intros p1 p2 Hp Hp2 Hb1. cbn [app] in *.
    apply Forall_app in Hu as [Hu Hus]. apply Forall_app in Hu as [Hup Hux].
    apply app_eq_inv in Hp as [(l & -> & ->)|(l & -> & ->)].
    + rewrite <- app_assoc, u8len_app; [pose proof (u8len_nonneg l); lia| |by eapply boundary_suffix].
      by apply Forall_app in Hup as [_ ?].
    + destruct (decide (l = [])) as [->|Hl2]; [cbn in *; lia|]. exfalso. apply (Hin l p2 eq_refl Hl2 Hp2).
      apply boundary_app_r in Hb1; [|done]. unfold boundary in *. by destruct p2.
  - destruct (IH pre (x ++ suf) limit (needs || unpaired)) as (p & q & needs' & He & Hkept);
      [by rewrite app_assoc|done|done|lia|done|].
    rewrite Hk, app_assoc in He. exists p, (q ++ x), needs'. split; [done|by apply kept_from_shift].
Qed.

Lemma at_last pre (c : Z) suf i : i = blen pre -> at_ (pre ++ c :: suf) i = Some c.
Proof. intros ->. by rewrite at_app_r. Qed.

Lemma no_inner_single (c : Z) l1 l2 : [c] = l1 ++ l2 -> l1 <> [] -> l2 <> [] -> ~ boundary l1 l2.
Proof. destruct l1 as [|a [|]], l2; try done. Qed.

Lemma no_inner_pair h c l1 l2 :
  is_high_surrogate h = true -> is_low_surrogate c = true ->
  [h; c] = l1 ++ l2 -> l1 <> [] -> l2 <> [] -> ~ boundary l1 l2.
Proof.
  intros Hh Hl He. destruct l1 as [|a [|b [|]]]; try done; injection He as -> He; subst; try done.
  intros _ _ Hb. unfold boundary in Hb. cbn in Hb. by rewrite Hh, Hl in Hb.
Qed.

Lemma from_end_spec fuel : from_end_result fuel.
Proof.
  induction fuel as [|fuel IH]; intros pre suf limit needs Hu Hf Hb Hl Hr.
  { destruct pre; [|cbn in Hf; lia]. exists [], [], needs. split; [done|].
    split_and!; [done|done|done|done|]. intros p1 p2 Hp ?. by destruct p1, p2. }
  destruct pre as [|c pre _] using rev_ind.
  { exists [], [], needs. split; [done|]. split_and!; [done|done|done|done|].
    intros p1 p2 Hp ?. by destruct p1, p2. }
  assert (0 <= c < 65536) as Hc by (apply Forall_app in Hu as [[_ Hu]%Forall_app _]; by apply Forall_cons in Hu as [? _]).
  rewrite length_app in Hf. cbn [length] in Hf. pose proof (blen_nonneg pre).
  assert (boundary [c] suf) as Hbc by (by apply boundary_app_r in Hb).
  pose proof (from_end_char fuel pre [c] suf limit needs (unit_bytes c)
    (is_high_surrogate c || is_low_surrogate c) IH Hu ltac:(lia) ltac:(done)) as Hone.
  cbn [from_end_loop]. rewrite !blen_app, (blen_cons c []), (blen_nil (A:=Z)) in *.
  destruct (Z.ltb_spec 0 (blen pre + (1 + 0))); [|lia]. rewrite <- (app_assoc pre) in *.
  change ([c] ++ suf) with (c :: suf) in *. rewrite (at_last pre c) by lia.
  change (default 0 (Some c)) with c.
  assert (boundary pre (c :: suf) -> exists p q needs',
    (if limit <? u8len suf + unit_bytes c then (blen pre + (1 + 0), needs)
     else from_end_loop fuel (pre ++ c :: suf) limit (blen pre) (u8len suf + unit_bytes c) (blen pre)
            (needs || (is_high_surrogate c || is_low_surrogate c)))
    = (blen p, needs') /\ kept_from limit (pre ++ [c]) suf p q needs') as Hone'.
  { intros Hbp. apply Hone; [done|done|by apply no_inner_single| |done|done|].
    - rewrite u8len_single by done. unfold unit_bytes. lia.
    - intros Hn. rewrite replace_single by done. apply orb_false_iff in Hn as [Hn1 Hn2].
      rewrite Hn2, Hr by done. done. }
  clear Hone. replace (blen pre + (1 + 0) - 1) with (blen pre) by lia.
  destruct (is_low_surrogate c) eqn:Hlow; cbn [andb].
  - assert (unit_bytes c = 3) as H3 by (unfold unit_bytes; surrogates; destruct (Z.leb_spec c 0x7f), (Z.leb_spec c 0x7ff); lia).
    rewrite orb_true_r, H3 in Hone'.
    destruct pre as [|h pre _] using rev_ind.
    + cbn [andb]. destruct (Z.ltb_spec 0 (blen (A:=Z) [])); [blen_lia|].
      assert ((0xd800 <=? c) && (c <=? 0xdfff) = true) as -> by (surrogates; lia). by apply Hone'.
    + rewrite !blen_app, (blen_cons h []), (blen_nil (A:=Z)) in *. pose proof (blen_nonneg pre).
      destruct (Z.ltb_spec 0 (blen pre + (1 + 0))); [|lia]. rewrite <- !(app_assoc pre) in *. cbn [app] in *.
      rewrite (at_last pre h) by lia. change (default 0 (Some h)) with h.
      destruct (is_high_surrogate h) eqn:Hhigh.
      * clear Hone'. pose proof (from_end_char fuel pre [h; c] suf limit needs 4 false IH) as Htwo.
        rewrite !blen_app, !blen_cons, (blen_nil (A:=Z)), <- !(app_assoc pre) in Htwo. cbn [app] in Htwo.
        rewrite length_app in Hf. cbn [length] in Hf. rewrite orb_false_r in *.
        replace (blen pre + (1 + 0) - 1) with (blen pre) by lia.
        replace (blen pre + (1 + 0) + (1 + 0)) with (blen pre + (1 + (1 + 0))) by lia.
        apply Htwo; [done|lia|done|by apply boundary_low; surrogates; lia| |  |by rewrite u8len_pair by done; lia|done|done|].
        -- done.
        -- intros l1 l2. exact (no_inner_pair h c l1 l2 Hhigh Hlow).
        -- intros Hn. by rewrite replace_pair, Hr by done.
      * apply Hone'. unfold boundary. rewrite last_snoc. cbn. by rewrite Hhigh.
  - assert (boundary pre (c :: suf)) as Hbp by (by apply boundary_low).
    destruct (is_high_surrogate c) eqn:Hhigh; cbn [orb] in Hone'.
    + assert ((0xd800 <=? c) && (c <=? 0xdfff) = true) as -> by (surrogates; lia).
      replace 3 with (unit_bytes c); [by apply Hone'|].
      unfold unit_bytes; surrogates; destruct (Z.leb_spec c 0x7f), (Z.leb_spec c 0x7ff); lia.
    + assert ((0xd800 <=? c) && (c <=? 0xdfff) = false) as -> by (surrogates; lia). by apply Hone'.
Qed.

(** The end kept of a string: a run of whole characters within the limit, as
    long as possible, its unpaired surrogates replaced. *)
Lemma from_end_kept str limit :
  units_ok str -> 0 < limit ->
  exists p q, str = p ++ q /\ boundary p q /\ u8len q <= limit /\
    truncateStringToBytesFromEnd str limit = replaceUnpairedSurrogates q /\
    (forall p1 p2, p = p1 ++ p2 -> p2 <> [] -> boundary p1 (p2 ++ q) -> limit < u8len (p2 ++ q)).
Proof.
  intros Hu Hlim. unfold truncateStringToBytesFromEnd. destruct (Z.leb_spec limit 0); [lia|].
  destruct (from_end_spec (length str) str [] limit false) as (p & q & n & He & Hstr & Hb & Hl & Hr & Hmax);
    [by rewrite app_nil_r|done|by unfold boundary; destruct (last str)|rewrite u8len_nil; lia|done|].
  rewrite app_nil_r in *. rewrite u8len_nil in He. rewrite He. exists p, q.
  subst str. unfold blen. rewrite Nat2Z.id, drop_app_length. split_and!; try done.
  destruct n; [done|]. by rewrite Hr.
Qed.

Lemma truncated_end str limit :
  units_ok str -> 0 <= limit ->
  u8len (truncateStringToBytesFromEnd str limit) <= limit /\ units_ok (truncateStringToBytesFromEnd str limit).
Proof.
  intros Hu Hlim. destruct (decide (limit = 0)) as [->|]; [by split; [|constructor]|].
  destruct (from_end_kept str limit) as (p & q & -> & _ & Hl & -> & _); [done|lia|].
  apply Forall_app in Hu as [_ Hu]. split; [unfold u8len in *; by rewrite replace_encode|].
  by apply replace_units.
Qed.

(** ** Lines *)

(** The counted lines, joined, are the content without its trailing newline. *)
Lemma counted_lines s :
  s <> [] -> splitLinesForCounting s <> [] /\
  (s = join_lines (splitLinesForCounting s) \/ s = join_lines (splitLinesForCounting s) ++ [NEWLINE]).
Proof.
  intros Hs. unfold splitLinesForCounting. rewrite bool_decide_false by done.
  destruct (bool_decide_reflect (last s = Some NEWLINE)) as [Hl|Hl].
  - destruct s as [|c s _] using rev_ind; [done|]. rewrite last_snoc in Hl. injection Hl as ->.
    rewrite split_snoc, removelast_last. split; [apply split_not_nil|]. right. by rewrite join_split.
  - split; [apply split_not_nil|]. left. by rewrite join_split.
Qed.

Lemma join_units ls : Forall units_ok ls -> units_ok (join_lines ls).
Proof.
  induction 1 as [|l ls Hl Hls IH]; [constructor|]. destruct ls as [|l' ls]; [done|].
  rewrite join_cons by done. apply Forall_app. split; [done|]. by constructor.
Qed.

Lemma split_units s : units_ok s -> Forall units_ok (split_newline s).
Proof.
  induction 1 as [|c s Hc Hs IH]; cbn [split_newline]; [by constructor; [constructor|]|].
  destruct (c =? NEWLINE); [by constructor; [constructor|]|].
  destruct (split_newline s) as [|l ls]; [by constructor; [constructor; [|constructor]|]|].
  apply Forall_cons in IH as [? ?]. by constructor; [constructor|].
Qed.

Lemma counted_units s : units_ok s -> Forall units_ok (splitLinesForCounting s).
Proof.
  intros Hs%split_units. unfold splitLinesForCounting. case_bool_decide; [constructor|].
  case_bool_decide; [|done]. destruct (split_newline s) as [|l ls _] using rev_ind; [done|].
  rewrite removelast_last. by apply Forall_app in Hs as [? _].
Qed.

Lemma u8len_newline s : u8len (NEWLINE :: s) = 1 + u8len s.
Proof. rewrite u8len_single; [done|by apply boundary_high|unfold NEWLINE; lia]. Qed.

Lemma u8len_join a b : units_ok a -> u8len (a ++ NEWLINE :: b) = u8len a + 1 + u8len b.
Proof. intros Ha. rewrite u8len_app, u8len_newline; [lia|done|by apply boundary_low]. Qed.

Lemma join_snoc ls l :
  join_lines (ls ++ [l]) = match ls with [] => l | _ => join_lines ls ++ NEWLINE :: l end.
Proof.
  induction ls as [|l0 ls IH]; [done|]. cbn [app]. destruct ls as [|l1 ls]; [done|].
  rewrite !join_cons, IH by done. by rewrite <- app_assoc.
Qed.

Lemma u8len_join_snoc ls l :
  Forall units_ok ls -> u8len (join_lines (ls ++ [l])) =
    u8len (join_lines ls) + (u8len l + if 0 <? blen ls then 1 else 0).
Proof.
  intros Hls. rewrite join_snoc. destruct ls as [|l0 ls]; [change (join_lines []) with (@nil Z); rewrite u8len_nil; change (if 0 <? blen (A:=jstring) [] then 1 else 0) with 0; lia|]. rewrite blen_cons.
  pose proof (blen_nonneg ls). destruct (Z.ltb_spec 0 (1 + blen ls)); [|lia].
  rewrite u8len_join by by apply join_units. lia.
Qed.

Lemma u8len_join_cons ls l :
  units_ok l -> u8len (join_lines (l :: ls)) =
    u8len (join_lines ls) + (u8len l + if 0 <? blen ls then 1 else 0).
Proof.
  intros Hl. destruct ls as [|l0 ls];
    [change (join_lines [l]) with l; change (join_lines []) with (@nil Z); rewrite u8len_nil; change (if 0 <? blen (A:=jstring) [] then 1 else 0) with 0; lia|].
  rewrite join_cons, blen_cons by done.
  pose proof (blen_nonneg ls). destruct (Z.ltb_spec 0 (1 + blen ls)); [|lia].
  rewrite u8len_join by done. lia.
Qed.

(** ** The two loops *)

Lemma head_loop_spec rb lines L B out :
  Forall units_ok (out ++ lines) -> u8len (join_lines out) <= B -> blen out <= L ->
  exists post out' exceeded,
    head_loop rb lines (blen out) L B (u8len (join_lines out)) out = (out', exceeded) /\
    out ++ lines = out' ++ post /\ u8len (join_lines out') <= B /\ blen out' <= L /\
    if exceeded
    then exists l post', post = l :: post' /\ B < u8len (join_lines (out' ++ [l]))
    else post = [] \/ blen out' = L.
Proof.
  revert out. induction lines as [|l lines IH]; intros out Hu HB HL; cbn [head_loop].
  { exists [], out, false. split_and!; [done..|by left]. }
  destruct (Z.ltb_spec (blen out) L) as [Hlt|Hge].
  2: { exists (l :: lines), out, false. split_and!; try done. right. lia. }
  pose proof Hu as [Hout Hl]%Forall_app. apply Forall_cons in Hl as [Hl _].
  rewrite utf8ByteLength_u8len by done. rewrite <- u8len_join_snoc by done.
  destruct (Z.ltb_spec B (u8len (join_lines (out ++ [l])))) as [Hex|Hok].
  - exists (l :: lines), out, true. split_and!; try done. eauto.
  - replace (blen out + 1) with (blen (out ++ [l])) by blen_lia.
    destruct (IH (out ++ [l])) as (post & out' & ex & He & Hall & H); [by rewrite <- app_assoc|done|blen_lia|].
    exists post, out', ex. rewrite <- app_assoc in Hall. split_and!; try done; apply H.
Qed.

Lemma tail_loop_spec rb rest L B out :
  Forall units_ok (rev rest ++ out) -> u8len (join_lines out) <= B -> blen out <= L -> 0 <= B ->
  exists pre out' hit partial,
    tail_loop rb rest L B (u8len (join_lines out)) out = (out', u8len (join_lines out'), hit, partial) /\
    u8len (join_lines out') <= B /\ blen out' <= L /\
    if partial
    then out = [] /\ hit = LimitBytes /\ exists line, rev rest = pre ++ [line] /\ B < u8len line /\
      out' = [truncateStringToBytesFromEnd line B]
    else rev rest ++ out = pre ++ out' /\
      match hit with
      | LimitLines => pre = [] \/ blen out' = L
      | LimitBytes => exists pre' l, pre = pre' ++ [l] /\ B < u8len (join_lines (l :: out'))
      end.
Proof.
  revert out. induction rest as [|l rest IH]; intros out Hu HB HL H0; cbn [tail_loop].
  { exists [], out, LimitLines, false. split_and!; try done. by left. }
  cbn [rev] in Hu. pose proof Hu as [Hrest Hout]%Forall_app. apply Forall_app in Hrest as [_ Hl].
  apply Forall_cons in Hl as [Hl _].
  destruct (Z.ltb_spec (blen out) L) as [Hlt|Hge].
  2: { exists (rev rest ++ [l]), out, LimitLines, false. split_and!; try done. right. lia. }
  rewrite utf8ByteLength_u8len by done. rewrite <- u8len_join_cons by done.
  destruct (Z.ltb_spec B (u8len (join_lines (l :: out)))) as [Hex|Hok].
  - case_bool_decide as Ho.
    + subst out. destruct (truncated_end l B Hl H0) as [Htl Htu].
      rewrite utf8ByteLength_u8len by done.
      exists (rev rest), [truncateStringToBytesFromEnd l B], LimitBytes, true. cbn [rev].
      split_and!; try done; [blen_lia|]. eauto.
    + exists (rev rest ++ [l]), out, LimitBytes, false. split_and!; try done. eauto.
  - destruct (IH (l :: out)) as (pre & out' & hit & partial & He & H1 & H2 & H3);
      [by rewrite <- app_assoc in Hu|done|blen_lia|done|].
    exists pre, out', hit, partial. cbn [rev]. rewrite <- app_assoc.
    destruct partial; [by destruct H3|]. by split_and!; try apply H3.
Qed.

(** ** Properties *)

(** [utf8ByteLength] counts the bytes of the UTF-8 encoding on every string, with or
    without the runtime's [Buffer]: the portable scan agrees with it on surrogate pairs and
    on unpaired surrogates. *)
Theorem utf8ByteLength_correct runtimeBuffer s :
  units_ok s -> utf8ByteLength runtimeBuffer s = blen (utf8_encode s).
Proof. apply utf8ByteLength_u8len. Qed.

Lemma utf8ByteLength_correct_witness :
  utf8ByteLength false [97; 0xd83d; 0xde42; 0xdc00; 233] = blen (utf8_encode [97; 0xd83d; 0xde42; 0xdc00; 233]).
Proof. apply (utf8ByteLength_correct false). repeat constructor; lia. Defined.

(** The partial line kept by tail truncation is the longest end of the line made of whole
    characters (no surrogate pair is cut) whose UTF-8 length is within the limit; unpaired
    surrogates in it are replaced, so the result is well-formed. *)
Theorem truncateStringToBytesFromEnd_spec str limit :
  units_ok str -> 0 < limit ->
  well_formed (truncateStringToBytesFromEnd str limit) /\
  u8len (truncateStringToBytesFromEnd str limit) <= limit /\
  exists p q, str = p ++ q /\ boundary p q /\
    truncateStringToBytesFromEnd str limit = replaceUnpairedSurrogates q /\
    forall p1 p2, p = p1 ++ p2 -> p2 <> [] -> boundary p1 (p2 ++ q) -> limit < u8len (p2 ++ q).
Proof.
  intros Hu Hl. destruct (truncated_end str limit Hu) as [Hlen _]; [lia|].
  destruct (from_end_kept str limit Hu Hl) as (p & q & -> & Hb & _ & He & Hmax).
  split; [|split; [done|by exists p, q]]. rewrite He. apply replace_well_formed.
  by apply Forall_app in Hu as [_ ?].
Qed.

Lemma truncateStringToBytesFromEnd_spec_witness :
  u8len (truncateStringToBytesFromEnd [97; 233; 0xd83d; 0xde42; 98] 6) <= 6 /\
  truncateStringToBytesFromEnd [97; 233; 0xd83d; 0xde42; 98] 6 = [0xd83d; 0xde42; 98].
Proof.
  split; [|vm_compute; reflexivity].
  apply (truncateStringToBytesFromEnd_spec [97; 233; 0xd83d; 0xde42; 98] 6); [repeat constructor; lia|lia].
Defined.

(** Head truncation: the result keeps a whole-line prefix of the content, within both
    limits, as long as possible, with exact counts; content within the limits is returned
    unchanged, and [truncatedBy] names the limit that stopped it. *)
Theorem truncateHead_spec rb s o L B :
  units_ok s -> default DEFAULT_MAX_LINES (opt_maxLines o) = L -> default DEFAULT_MAX_BYTES (opt_maxBytes o) = B ->
  0 <= L -> 0 <= B ->
  exists r, truncateHead rb s o = Some r /\
    totalLines r = blen (splitLinesForCounting s) /\ totalBytes r = u8len s /\
    outputBytes r = u8len (content r) /\ outputBytes r <= B /\ outputLines r <= L /\
    if truncated r then
      content r = join_lines (take (Z.to_nat (outputLines r)) (splitLinesForCounting s)) /\
      match truncatedBy r with
      | Some LimitLines => outputLines r = L /\ L < totalLines r
      | Some LimitBytes =>
          (outputLines r < totalLines r /\
           B < u8len (join_lines (take (Z.to_nat (outputLines r + 1)) (splitLinesForCounting s)))) \/
          (outputLines r = totalLines r /\ s = content r ++ [NEWLINE] /\ B < u8len s)
      | None => False
      end
    else content r = s /\ truncatedBy r = None.
Proof.
  intros Hu HL HB HL0 HB0. unfold truncateHead. rewrite HL, HB, utf8ByteLength_u8len by done.
  set (lines := splitLinesForCounting s).
  destruct ((blen lines <=? L) && (u8len s <=? B)) eqn:Hfit.
  { eexists. split; [done|]. cbn. split_and!; try done; lia. }
  destruct (decide (s = [])) as [->|Hs]; [change (blen lines) with 0 in Hfit; rewrite u8len_nil in Hfit; lia|].
  destruct (counted_lines s Hs) as [Hne Hjoin]. fold lines in Hne, Hjoin.
  pose proof (counted_units s Hu) as Hlu. fold lines in Hlu.
  rewrite andb_false_iff, !Z.leb_gt in Hfit. destruct lines as [|l0 ls] eqn:Hlines; [done|].
  rewrite <- Hlines in *. pose proof Hlu as Hl0. rewrite Hlines in Hl0. apply Forall_cons in Hl0 as [Hl0 _].
  rewrite utf8ByteLength_u8len by done. destruct (Z.ltb_spec B (u8len l0)) as [Hbig|Hsmall].
  { eexists. split; [done|]. cbn. split_and!; try done. left.
    rewrite Hlines. pose proof (blen_nonneg ls). rewrite blen_cons. split; [lia|done]. }
  destruct (head_loop_spec rb lines L B []) as (post & out & ex & He & Hall & Hob & Hol & Hex); [done..|].
  change (head_loop rb lines 0 L B 0 []) with (head_loop rb lines (blen (A:=jstring) []) L B (u8len (join_lines [])) []).
  rewrite He. eexists. split; [reflexivity|]. cbn [totalLines totalBytes outputBytes outputLines content truncated truncatedBy].
  cbn [app] in Hall. assert (Forall units_ok out) as Hou by (rewrite Hall in Hlu; by apply Forall_app in Hlu as [? _]).
  rewrite utf8ByteLength_u8len by by apply join_units.
  assert (take (Z.to_nat (blen out)) lines = out) as Htake by (unfold blen; rewrite Nat2Z.id, Hall; apply take_app_length).
  rewrite Htake. split_and!; try done. assert (blen lines = blen out + blen post) as Hbl by (rewrite Hall; apply blen_app).
  destruct ex.
  - destruct Hex as (l & post' & -> & Hbig). left. pose proof (blen_nonneg post'). rewrite blen_cons in Hbl. split; [lia|].
    rewrite Hall, cons_middle, app_assoc, take_app_length'; [done|].
    rewrite length_app. unfold blen. cbn. lia.
  - pose proof (blen_nonneg post). destruct (Z.ltb_spec (blen out) (blen lines)).
    + destruct Hex as [->|]; [blen_lia|lia].
    + right. assert (post = []) as -> by (apply blen_0; lia). rewrite app_nil_r in Hall. subst out.
      split; [lia|]. destruct Hfit as [Hfit|Hfit]; [lia|]. destruct Hjoin as [Hj|Hj]; [|done].
      rewrite Hj in Hfit at 1. lia.
Qed.

Lemma truncateHead_spec_witness :
  exists r, truncateHead false $"ab
cd
" {| opt_maxLines := Some 9; opt_maxBytes := Some 5 |} = Some r /\ outputBytes r <= 5 /\
    content r = $"ab
cd" /\ truncatedBy r = Some LimitBytes.
Proof.
  destruct (truncateHead_spec false $"ab
cd
" {| opt_maxLines := Some 9; opt_maxBytes := Some 5 |} 9 5) as (r & Hr & _ & _ & _ & Hb & _).
  - repeat constructor; lia.
  - reflexivity.
  - reflexivity.
  - lia.
  - lia.
  - exists r. split; [exact Hr|]. split; [exact Hb|].
    vm_compute in Hr. injection Hr as <-. split; reflexivity.
Defined.

(** Tail truncation: within both limits and with exact counts, the result keeps a
    whole-line suffix of the content that no further line would fit, or, when the last line
    alone exceeds the byte limit, the longest run of whole characters at its end; content
    within the limits is returned unchanged. *)
Theorem truncateTail_spec rb s o L B :
  units_ok s -> default DEFAULT_MAX_LINES (opt_maxLines o) = L -> default DEFAULT_MAX_BYTES (opt_maxBytes o) = B ->
  0 <= L -> 0 <= B ->
  let r := truncateTail rb s o in
  let lines := splitLinesForCounting s in
  totalLines r = blen lines /\ totalBytes r = u8len s /\
  outputBytes r = u8len (content r) /\ outputBytes r <= B /\ outputLines r <= L /\
  if truncated r then
    if lastLinePartial r then
      exists pre line, lines = pre ++ [line] /\ B < u8len line /\
        content r = truncateStringToBytesFromEnd line B /\ outputLines r = 1
    else
      exists pre kept, lines = pre ++ kept /\ content r = join_lines kept /\ outputLines r = blen kept /\
        (pre = [] \/ blen kept = L \/
         exists pre' line, pre = pre' ++ [line] /\ B < u8len (join_lines (line :: kept)))
  else content r = s /\ truncatedBy r = None.
Proof.
  intros Hu HL HB HL0 HB0. unfold truncateTail. rewrite HL, HB, utf8ByteLength_u8len by done.
  pose proof (counted_units s Hu) as Hlu. set (lines := splitLinesForCounting s) in *.
  destruct ((blen lines <=? L) && (u8len s <=? B)) eqn:Hfit.
  { cbn. split_and!; try done; lia. }
  destruct (tail_loop_spec rb (rev lines) L B []) as (pre & out & hit & partial & He & Hob & Hol & Hcase);
    [by rewrite rev_involutive, app_nil_r|done|done|done|].
  change (tail_loop rb (rev lines) L B 0 []) with (tail_loop rb (rev lines) L B (u8len (join_lines [])) []).
  rewrite He. cbn [totalLines totalBytes outputBytes outputLines content truncated truncatedBy lastLinePartial].
  rewrite rev_involutive, app_nil_r in Hcase. assert (units_ok (join_lines out)) as Hou.
  { apply join_units. destruct partial.
    - destruct Hcase as (_ & _ & line & Hpre & _ & ->). rewrite Hpre in Hlu.
      apply Forall_app in Hlu as [_ Hlu]. apply Forall_cons in Hlu as [Hlu _].
      constructor; [|constructor]. by apply truncated_end.
    - destruct Hcase as [Hpre _]. rewrite Hpre in Hlu. by apply Forall_app in Hlu as [_ ?]. }
  rewrite utf8ByteLength_u8len by done. split_and!; try done. destruct partial.
  - destruct Hcase as (_ & _ & line & Hpre & Hbig & ->). exists pre, line. done.
  - destruct Hcase as [Hpre Hhit]. exists pre, out. split_and!; try done. destruct hit; naive_solver.
Qed.

Lemma truncateTail_spec_witness :
  let r := truncateTail false $"one
two
four" {| opt_maxLines := None; opt_maxBytes := Some 8 |} in
  outputBytes r <= 8 /\ content r = $"two
four".
Proof.
  intros r. split; [|vm_compute; reflexivity].
  destruct (truncateTail_spec false $"one
two
four" {| opt_maxLines := None; opt_maxBytes := Some 8 |} 2000 8) as (_ & _ & _ & Hb & _);
    [repeat constructor; lia|reflexivity|reflexivity|lia|lia|exact Hb].
Defined.

(** [truncateTail] can name the wrong limit: when only the trailing newline
    exceeds the byte limit every line is kept, below the line limit, and
    [truncatedBy] is still [LimitLines] (head truncation says [LimitBytes]). *)
Lemma truncateTail_misreports_lines :
  let r := truncateTail true $"abc
" {| opt_maxLines := Some 10; opt_maxBytes := Some 3 |} in
  truncatedBy r = Some LimitLines /\ outputLines r = totalLines r /\ totalLines r < maxLines r /\
  maxBytes r < totalBytes r.
Proof. vm_compute. split_and!; done. Qed.

(** The same at the line limit: a single line cut by the byte limit is
    reported as cut by the line limit. *)
Lemma truncateTail_partial_reports_lines :
  let r := truncateTail true $"abcdef" {| opt_maxLines := Some 1; opt_maxBytes := Some 3 |} in
  truncatedBy r = Some LimitLines /\ lastLinePartial r = true /\ totalLines r = 1.
Proof. vm_compute. split_and!; done. Qed.
