(* ===== verification/Permission.v ===== *)
(** * Permission rules (packages/coding-agent/src/core/extensions/builtin/permission-system)

[Wildcard.match] (wildcard.ts), rule evaluation (evaluate.ts), the rulesets
built from presets and settings (config.ts, settings.ts), the command arity
table (arity.ts) and the decision for one target (decide-target.ts).

A rule is a JavaScript object: [includes] and the preset registry (a WeakSet)
work by identity.  [preset_made] is membership of that registry, and
[evaluatePatterns] says whether it returns a rule of the ruleset or the fresh
default, which is what [includes] tests in the source.  The path matchers that
read the file system (external-pattern.ts, path-identity.ts, the protected
store) are arguments, as they are in evaluate.ts. *)
From S2P Require Import Prelude JsString.
#[local] Open Scope Z_scope.

(** ** Wildcards *)

Definition STAR : Z := 42.
Definition QUESTION : Z := 63.

(** The matching loop and the check after it. *)
Fixpoint match_loop (fuel : nat) (value pattern : jstring) (valueIdx patternIdx starIdx matchIdx : Z) : bool :=
  match fuel with
  | O => false
  | S n =>
      if valueIdx <? blen value then
        let patternChar := at_ pattern patternIdx in
        let valueChar := at_ value valueIdx in
        if bool_decide (patternChar = Some QUESTION)
        then match_loop n value pattern (valueIdx + 1) (patternIdx + 1) starIdx matchIdx
        else if bool_decide (patternChar = Some STAR)
        then match_loop n value pattern valueIdx (patternIdx + 1) patternIdx valueIdx
        else if bool_decide (patternChar = valueChar)
        then match_loop n value pattern (valueIdx + 1) (patternIdx + 1) starIdx matchIdx
        else if 0 <=? starIdx
        then match_loop n value pattern (matchIdx + 1) (starIdx + 1) starIdx (matchIdx + 1)
        else false
      else forallb (fun c => c =? STAR) (drop (Z.to_nat patternIdx) pattern)
  end.

(** Enough rounds for every value and pattern. *)
Definition match_fuel (value pattern : jstring) : nat :=
  S (length value * (length value + length pattern + 2) + length value + length pattern).

Definition Wildcard_match (value pattern : jstring) : bool :=
  if bool_decide (value = []) && bool_decide (pattern = []) then true
  else if bool_decide (pattern = []) then false
  else if bool_decide (value = []) && bool_decide (pattern = [STAR]) then true
  else if bool_decide (value = []) then forallb (fun c => c =? STAR) pattern
  else match_loop (match_fuel value pattern) value pattern 0 0 (-1) 0.

(** ** Rules *)

Inductive Action := allow | deny | ask.

Record Rule := mkRule { permission : jstring; pattern : jstring; action : Action; preset_made : bool }.

Notation Ruleset := (list Rule).

#[export] Instance Action_eq_dec : EqDecision Action.
Proof. solve_decision. Defined.


Definition matchesPattern (value pattern : jstring) : bool :=
  Wildcard_match value pattern ||
  (endsWith pattern $" *" && Wildcard_match value (take (length pattern - 2) pattern)).

(** [array.findLast(f)] *)
Definition findLast {A} (f : A -> bool) (l : list A) : option A := List.find f (rev l).

(** The predicate of [evaluatePatterns] on one rule; absent matchers match
    nothing. *)
Definition rule_matches (perm : jstring) (patterns : list jstring)
    (matchesExternalPath : option (jstring -> jstring -> bool)) (matchesIdentity : option (jstring -> bool))
    (rule : Rule) : bool :=
  Wildcard_match perm (permission rule) &&
  (existsb (fun value => matchesPattern value (pattern rule) ||
     match matchesExternalPath with Some f => f value (pattern rule) | None => false end) patterns
   || match matchesIdentity with Some f => f (pattern rule) | None => false end).

(** [Some r]: the rule of the rulesets that decides. *)
Definition evaluatePatterns (perm : jstring) (patterns : list jstring) (rulesets : list Ruleset)
    (matchesExternalPath : option (jstring -> jstring -> bool)) (matchesIdentity : option (jstring -> bool)) : option Rule :=
  findLast (rule_matches perm patterns matchesExternalPath matchesIdentity) (mjoin rulesets).

(** The rule object [evaluate] and its variants return. *)
Definition rule_or_default (perm : jstring) (r : option Rule) : Rule :=
  default (mkRule perm $"*" ask false) r.

(** ** Rulesets *)

Inductive PermissionPresetName := full_access | workspace | accept_edits | auto | read_only | ask_preset.

#[export] Instance preset_eq_dec : EqDecision PermissionPresetName.
Proof. solve_decision. Defined.

Definition DEFAULT_PERMISSION_PRESET : PermissionPresetName := full_access.

Definition PERMISSION_PRESET_RULES (p : PermissionPresetName) : list (jstring * jstring * Action) :=
  match p with
  | full_access => [($"*", $"*", allow)]
  | workspace =>
      [($"*", $"*", ask); ($"read", $"*", allow); ($"list", $"*", allow); ($"grep", $"*", allow);
       ($"edit", $"*", allow); ($"bash", $"*", allow); ($"external_directory", $"*", ask)]
  | accept_edits =>
      [($"*", $"*", ask); ($"read", $"*", allow); ($"list", $"*", allow); ($"grep", $"*", allow);
       ($"edit", $"*", allow); ($"bash", $"*", ask); ($"external_directory", $"*", ask)]
  | auto => [($"*", $"*", ask)]
  | read_only =>
      [($"*", $"*", ask); ($"read", $"*", allow); ($"list", $"*", allow); ($"grep", $"*", allow);
       ($"edit", $"*", ask); ($"bash", $"*", ask); ($"external_directory", $"*", ask)]
  | ask_preset => [($"*", $"*", ask)]
  end.

Definition rulesForPreset (p : PermissionPresetName) : Ruleset :=
  (fun '(perm, pat, act) => mkRule perm pat act true) <$> PERMISSION_PRESET_RULES p.

Definition isPresetRule (r : Rule) : bool := preset_made r.

(** [homedir] is [os.homedir()]. *)
Definition expand (homedir path : jstring) : jstring :=
  if startsWith path $"~/" then homedir ++ drop 1 path
  else if bool_decide (path = $"~") then homedir
  else if startsWith path $"$HOME/" then homedir ++ drop 5 path
  else if startsWith path $"$HOME" then homedir ++ drop 5 path
  else path.

(** [PermissionConfig]: an action, or actions by pattern, for each permission. *)
Notation PermissionConfig := (list (jstring * (Action + list (jstring * Action)))).

Definition fromConfig (homedir : jstring) (config : PermissionConfig) : Ruleset :=
  config ≫= fun '(perm, value) =>
    match value with
    | inl act => [mkRule perm $"*" act false]
    | inr entries => (fun '(pat, act) => mkRule perm (expand homedir pat) act false) <$> entries
    end.

Definition EDIT_TOOLS : list jstring := [$"edit"; $"write"; $"apply_patch"; $"multiedit"].

(** The tools a blanket deny removes. *)
Definition disabled (tools : list jstring) (ruleset : Ruleset) : list jstring :=
  List.filter (fun tool =>
    let perm := if bool_decide (tool ∈ EDIT_TOOLS) then $"edit" else tool in
    match findLast (fun rule => Wildcard_match perm (permission rule)) ruleset with
    | Some rule => bool_decide (pattern rule = $"*") && bool_decide (action rule = deny)
    | None => false
    end) tools.

(** The layers of loadPermissionSettings, presets already parsed. *)
Record PermissionLayers := {
  globalPreset : option PermissionPresetName;
  globalConfig : option PermissionConfig;
  projectPreset : option PermissionPresetName;
  projectConfig : option PermissionConfig;
  cliPresetOverride : option PermissionPresetName;
  cliOverride : Ruleset;
}.

Definition user_layers (homedir : jstring) (l : PermissionLayers) : list Ruleset :=
  [default [] (fromConfig homedir <$> globalConfig l); default [] (fromConfig homedir <$> projectConfig l); cliOverride l].

Definition staticRuleset_of (homedir : jstring) (l : PermissionLayers) : Ruleset :=
  let rules p := default [] (rulesForPreset <$> p) in
  let config c := default [] (fromConfig homedir <$> c) in
  mjoin [rulesForPreset DEFAULT_PERMISSION_PRESET; rules (globalPreset l); config (globalConfig l);
         rules (projectPreset l); config (projectConfig l);
         match cliPresetOverride l with
         | Some p => if bool_decide (p = DEFAULT_PERMISSION_PRESET) then [] else rulesForPreset p
         | None => []
         end;
         cliOverride l].

Definition preset_of (l : PermissionLayers) : PermissionPresetName :=
  match cliPresetOverride l, projectPreset l, globalPreset l with
  | Some p, _, _ => p
  | None, Some p, _ => p
  | None, None, Some p => p
  | None, None, None => DEFAULT_PERMISSION_PRESET
  end.

(** ** Command prefixes *)

Definition ARITY : list (jstring * Z) :=
  [
   ($"cat", 1); ($"cd", 1); ($"chmod", 1); ($"chown", 1);
   ($"cp", 1); ($"echo", 1); ($"env", 1); ($"export", 1);
   ($"grep", 1); ($"kill", 1); ($"killall", 1); ($"ln", 1);
   ($"ls", 1); ($"mkdir", 1); ($"mv", 1); ($"ps", 1);
   ($"pwd", 1); ($"rm", 1); ($"rmdir", 1); ($"sleep", 1);
   ($"source", 1); ($"tail", 1); ($"touch", 1); ($"unset", 1);
   ($"which", 1); ($"aws", 3); ($"az", 3); ($"bazel", 2);
   ($"brew", 2); ($"bun", 2); ($"bun run", 3); ($"bun x", 3);
   ($"cargo", 2); ($"cargo add", 3); ($"cargo run", 3); ($"cdk", 2);
   ($"cf", 2); ($"cmake", 2); ($"composer", 2); ($"consul", 2);
   ($"consul kv", 3); ($"crictl", 2); ($"deno", 2); ($"deno task", 3);
   ($"doctl", 3); ($"docker", 2); ($"docker builder", 3); ($"docker compose", 3);
   ($"docker container", 3); ($"docker image", 3); ($"docker network", 3); ($"docker volume", 3);
   ($"eksctl", 2); ($"eksctl create", 3); ($"firebase", 2); ($"flyctl", 2);
   ($"gcloud", 3); ($"gh", 3); ($"git", 2); ($"git config", 3);
   ($"git remote", 3); ($"git stash", 3); ($"go", 2); ($"gradle", 2);
   ($"helm", 2); ($"heroku", 2); ($"hugo", 2); ($"ip", 2);
   ($"ip addr", 3); ($"ip link", 3); ($"ip netns", 3); ($"ip route", 3);
   ($"kind", 2); ($"kind create", 3); ($"kubectl", 2); ($"kubectl kustomize", 3);
   ($"kubectl rollout", 3); ($"kustomize", 2); ($"make", 2); ($"mc", 2);
   ($"mc admin", 3); ($"minikube", 2); ($"mongosh", 2); ($"mysql", 2);
   ($"mvn", 2); ($"ng", 2); ($"npm", 2); ($"npm exec", 3);
   ($"npm init", 3); ($"npm run", 3); ($"npm view", 3); ($"nvm", 2);
   ($"nx", 2); ($"openssl", 2); ($"openssl req", 3); ($"openssl x509", 3);
   ($"pip", 2); ($"pipenv", 2); ($"pnpm", 2); ($"pnpm dlx", 3);
   ($"pnpm exec", 3); ($"pnpm run", 3); ($"poetry", 2); ($"podman", 2);
   ($"podman container", 3); ($"podman image", 3); ($"psql", 2); ($"pulumi", 2);
   ($"pulumi stack", 3); ($"pyenv", 2); ($"python", 2); ($"rake", 2);
   ($"rbenv", 2); ($"redis-cli", 2); ($"rustup", 2); ($"serverless", 2);
   ($"sfdx", 3); ($"skaffold", 2); ($"sls", 2); ($"sst", 2);
   ($"swift", 2); ($"systemctl", 2); ($"terraform", 2); ($"terraform workspace", 3);
   ($"tmux", 2); ($"turbo", 2); ($"ufw", 2); ($"vault", 2);
   ($"vault auth", 3); ($"vault kv", 3); ($"vercel", 2); ($"volta", 2);
   ($"wp", 2); ($"yarn", 2); ($"yarn dlx", 3); ($"yarn run", 3)
  ].

(** Names every object inherits from [Object.prototype]: reading them off the
    table gives an object or a function, not a number. *)
Definition OBJECT_PROTOTYPE : list jstring :=
  [$"constructor"; $"__defineGetter__"; $"__defineSetter__"; $"hasOwnProperty"; $"__lookupGetter__";
   $"__lookupSetter__"; $"isPrototypeOf"; $"propertyIsEnumerable"; $"toString"; $"valueOf"; $"__proto__";
   $"toLocaleString"].

(** [ARITY[prefix]]: a number, or something else ([inr tt]), which [slice] takes
    for 0. *)
Definition arity_of (prefix : jstring) : option (Z + unit) :=
  match List.find (fun e => bool_decide (e.1 = prefix)) ARITY with
  | Some (_, n) => Some (inl n)
  | None => if bool_decide (prefix ∈ OBJECT_PROTOTYPE) then Some (inr tt) else None
  end.

(** [tokens.join(" ")] *)
Fixpoint join_space (tokens : list jstring) : jstring :=
  match tokens with
  | [] => []
  | [t] => t
  | t :: ts => t ++ 32 :: join_space ts
  end.

Fixpoint prefix_loop (len : nat) (tokens : list jstring) : list jstring :=
  match len with
  | O => match tokens with [] => [] | _ => take 1 tokens end
  | S n =>
      match arity_of (join_space (take len tokens)) with
      | Some (inl arity) => take (Z.to_nat arity) tokens
      | Some (inr _) => []
      | None => prefix_loop n tokens
      end
  end.

Definition BashArity_prefix (tokens : list jstring) : list jstring := prefix_loop (length tokens) tokens.

(** ** Deciding a target *)

Record IdentityInput := { canonical : list (jstring * bool); unresolvable : option jstring; failClosed : bool }.

Record DecisionOptions := {
  approveBlanketAsk : bool;
  presetBound : bool;
  identity : option IdentityInput;
}.

Record DecisionContext := {
  staticRuleset : Ruleset;
  approved : Ruleset;
  ctx_preset : option PermissionPresetName;
}.

Definition restrictiveness (a : Action) : Z := match a with allow => 0 | ask => 1 | deny => 2 end.

Definition PATH_PERMISSIONS : list jstring := [$"read"; $"edit"; $"list"; $"grep"].

(** An unresolvable or alias-involved path request while a deny of its class
    exists. *)
Definition refuses_unresolved (rules : Ruleset) (perm : jstring) (identity : option IdentityInput) : bool :=
  match identity with
  | Some i =>
      bool_decide (perm ∈ PATH_PERMISSIONS) && (failClosed i || bool_decide (is_Some (unresolvable i))) &&
      existsb (fun rule => bool_decide (action rule = deny) && Wildcard_match perm (permission rule)) rules
  | None => false
  end.

Section DecideTarget.
(** [externalPathMatcherFor], [createExternalPathMatcher(true, canonicalCase)],
    [context.identityMatcher], and whether a target is the protected store. *)
Context (externalPathMatcherFor : jstring -> option (jstring -> jstring -> bool)).
Context (spellingMatcher : jstring -> jstring -> bool).
Context (identityMatcher : jstring -> option IdentityInput -> option (jstring -> bool)).
Context (targetIsProtectedStore : list jstring -> bool).

Definition evaluateWithIdentity (perm : jstring) (patterns : list jstring) (ruleset : Ruleset)
    (matchesIdentity : option (jstring -> bool)) : option Rule :=
  evaluatePatterns perm patterns [ruleset] (externalPathMatcherFor perm) matchesIdentity.

Definition evaluateExternalSpelling (patterns : list jstring) (ruleset : Ruleset) : option Rule :=
  evaluatePatterns $"external_directory" patterns [ruleset] (Some spellingMatcher) None.

Definition evaluate (perm : jstring) (patterns : list jstring) (rulesets : list Ruleset) : option Rule :=
  evaluatePatterns perm patterns rulesets (externalPathMatcherFor perm) None.

Definition decideTarget (context : DecisionContext) (perm : jstring) (target : list jstring)
    (options : DecisionOptions) (approvedTarget : list jstring) (preserveAncestry : bool) : Action :=
  let identity := if bool_decide (perm = $"external_directory") then None else identity options in
  let matchesIdentity := identityMatcher perm identity in
  let evaluateTarget (ruleset : Ruleset) :=
    if preserveAncestry then evaluateExternalSpelling target ruleset
    else evaluateWithIdentity perm target ruleset matchesIdentity in
  let evaluateApproved ruleset :=
    if preserveAncestry then evaluate perm approvedTarget [ruleset]
    else evaluateWithIdentity perm approvedTarget ruleset matchesIdentity in
  let remembered := match evaluateApproved (approved context) with Some r => bool_decide (action r = allow) | None => false end in
  if refuses_unresolved (staticRuleset context ++ approved context) perm identity then deny
  else if targetIsProtectedStore target then deny
  else
    let userRules := List.filter (fun r => negb (isPresetRule r)) (staticRuleset context) in
    let userRule := evaluateTarget userRules in
    if negb (presetBound options) then
      if bool_decide (action <$> userRule = Some deny) then deny
      else
        let configured := action (rule_or_default perm (evaluateTarget (staticRuleset context))) in
        if bool_decide (configured = deny) then deny
        else if remembered then allow
        else if bool_decide (ctx_preset context = Some full_access) && bool_decide (configured = ask) then allow
        else configured
    else
      let presetRules := List.filter isPresetRule (staticRuleset context) in
      let presetRule := rule_or_default perm (evaluateTarget presetRules) in
      let preset := if bool_decide (action presetRule = ask) && approveBlanketAsk options then allow else action presetRule in
      let combined :=
        match action <$> userRule with
        | None => preset
        | Some user => if restrictiveness user <=? restrictiveness preset then preset else user
        end in
      if bool_decide (combined <> ask) then combined
      else if remembered then allow else ask.
End DecideTarget.

(** ** Specification of wildcards *)

(** [glob p v]: [*] stands for any run of characters, [?] for one character,
    any other character for itself. *)
Inductive glob : jstring -> jstring -> Prop :=
| glob_nil : glob [] []
| glob_star p v k : glob p (drop k v) -> glob (STAR :: p) v
| glob_question c p v : glob p v -> glob (QUESTION :: p) (c :: v)
| glob_char c p v : c <> STAR -> c <> QUESTION -> glob p v -> glob (c :: p) (c :: v).

(** A character of the pattern that stands for exactly one character. *)
Definition lit_match (c x : Z) : Prop := c <> STAR /\ (c = QUESTION \/ c = x).

(** ** Facts about wildcards *)

Lemma glob_star_iff p v : glob (STAR :: p) v <-> exists k, glob p (drop k v).
Proof.
  split; [|intros (k & Hk); by econstructor].
  inversion 1; subst; [eauto|by unfold STAR, QUESTION in *; congruence..].
Qed.

Lemma glob_empty p : glob p [] <-> forallb (fun c => c =? STAR) p = true.
Proof.
  split.
  - remember [] as v eqn:Hv. induction 1 as [|p v k H IH| |]; try done; subst. cbn. apply IH. by rewrite drop_nil.
  - induction p as [|c p IH]; cbn; [constructor|]. rewrite andb_true_iff, Z.eqb_eq. intros [-> Hp].
    apply (glob_star _ _ 0). by apply IH.
Qed.

Lemma glob_one c x p v : lit_match c x -> glob (c :: p) (x :: v) <-> glob p v.
Proof.
  intros [Hs Hx]. split.
  - inversion 1; subst; naive_solver.
  - intros H. destruct (decide (c = QUESTION)) as [->|]; [by constructor|].
    destruct Hx as [? | ->]; [done|]. by constructor.
Qed.

Lemma glob_lits lits w p v : Forall2 lit_match lits w -> glob (lits ++ p) (w ++ v) <-> glob p v.
Proof. induction 1 as [|c x lits w Hc _ IH]; [done|]. cbn. by rewrite glob_one. Qed.

(** A pattern that starts with literals consumes their number of characters. *)
Lemma glob_lits_inv lits p x :
  Forall (fun c => c <> STAR) lits -> glob (lits ++ p) x ->
  (length lits <= length x)%nat /\ glob p (drop (length lits) x).
Proof.
  intros Hl. revert x. induction Hl as [|c lits Hc _ IH]; intros x H; [split; [cbn; lia|done]|].
  cbn in H. inversion H; subst; [done|..]; match goal with H : glob (lits ++ p) _ |- _ => apply IH in H as [??] end;
    cbn; (split; [lia|done]).
Qed.

Lemma glob_mismatch c x p v : c <> STAR -> c <> QUESTION -> c <> x -> ~ glob (c :: p) (x :: v).
Proof. intros ??? H. inversion H; subst; congruence. Qed.

Lemma glob_end x v : ~ glob [] (x :: v).
Proof. by inversion 1. Qed.

Section MatchLoop.
Context (V P : jstring).

(** What is left to decide: the attempt at [m] only, or at any later place
    once a star has been seen at [s]. *)
Definition attempts (s m : Z) : Prop :=
  if s <? 0 then glob (drop (Z.to_nat (s + 1)) P) (drop (Z.to_nat m) V)
  else exists k, (Z.to_nat m <= k)%nat /\ glob (drop (Z.to_nat (s + 1)) P) (drop k V).

(** From the star (or the start) to the current pattern position there are
    only literals, and they match from [m] to the current value position. *)
Definition loop_inv (v p s m : Z) : Prop :=
  0 <= m <= v /\ v <= blen V /\ -1 <= s < blen P /\ p <= blen P /\
  (exists lits w, drop (Z.to_nat (s + 1)) P = lits ++ drop (Z.to_nat p) P /\
    drop (Z.to_nat m) V = w ++ drop (Z.to_nat v) V /\ Forall2 lit_match lits w /\
    p = s + 1 + blen lits /\ v = m + blen w) /\
  (glob P V <-> attempts s m).

Definition measure (v p m : Z) : Z := (blen V - m) * (blen V + blen P + 2) + (blen V - v) + (blen P - p).

(** The current attempt is decided by what is left of both. *)
Lemma attempt_iff v p s m :
  loop_inv v p s m -> glob (drop (Z.to_nat (s + 1)) P) (drop (Z.to_nat m) V) <->
    glob (drop (Z.to_nat p) P) (drop (Z.to_nat v) V).
Proof. intros (_ & _ & _ & _ & (lits & w & -> & -> & HF & _) & _). by apply glob_lits. Qed.

Lemma inv_lit v p s m c x pt vt :
  loop_inv v p s m -> drop (Z.to_nat p) P = c :: pt -> drop (Z.to_nat v) V = x :: vt -> lit_match c x ->
  loop_inv (v + 1) (p + 1) s m.
Proof.
  intros (Hm & Hv & Hs & Hp & (lits & w & HP & HV & HF & Hpl & Hvl) & HG) Hc Hx Hlit.
  pose proof (blen_nonneg lits).
  destruct (drop_step P pt c p) as (_ & Hpt & HlP); [lia|done|].
  destruct (drop_step V vt x v) as (_ & Hvt & HlV); [lia|done|].
  pose proof (blen_nonneg pt). pose proof (blen_nonneg vt). unfold loop_inv.
  split_and!; try lia; [|done]. exists (lits ++ [c]), (w ++ [x]).
  rewrite HP, HV, Hc, Hx, Hpt, Hvt, <- !app_assoc, !blen_app. cbn [app].
  split_and!; [done|done| |unfold blen in *; cbn; lia|unfold blen in *; cbn; lia].
  apply Forall2_app; [done|by constructor; [|constructor]].
Qed.

Lemma Forall2_lit lits w : Forall2 lit_match lits w -> Forall (fun c => c <> STAR) lits.
Proof. induction 1 as [|c x lits w [? _]]; by constructor. Qed.

(** A new star: the last one may as well swallow everything so far. *)
Lemma inv_star v p s m pt :
  loop_inv v p s m -> drop (Z.to_nat p) P = STAR :: pt -> loop_inv v (p + 1) p v.
Proof.
  intros Hinv Hc. pose proof (attempt_iff _ _ _ _ Hinv) as Hat.
  destruct Hinv as (Hm & Hv & Hs & Hp & (lits & w & HP & HV & HF & Hpl & Hvl) & HG).
  pose proof (blen_nonneg lits). pose proof (blen_nonneg w).
  destruct (drop_step P pt STAR p) as (_ & Hpt & HlP); [lia|done|]. pose proof (blen_nonneg pt).
  split_and!; try lia.
  { exists [], []. split_and!; done || (unfold blen; cbn; lia). }
  rewrite HG. unfold attempts. destruct (Z.ltb_spec p 0); [lia|]. rewrite Hpt.
  assert (glob (drop (Z.to_nat p) P) (drop (Z.to_nat v) V) <->
    exists k, (Z.to_nat v <= k)%nat /\ glob pt (drop k V)) as Hcur.
  { rewrite Hc, glob_star_iff. split.
    - intros (k & Hk). rewrite drop_drop in Hk. exists (Z.to_nat v + k)%nat. split; [lia|done].
    - intros (k & Hk & Hg). exists (k - Z.to_nat v)%nat. rewrite drop_drop. by replace (Z.to_nat v + (k - Z.to_nat v))%nat with k by lia. }
  destruct (Z.ltb_spec s 0).
  - by rewrite Hat.
  - rewrite <- Hcur. split.
    + intros (k & Hk & Hg). rewrite HP, Hc in Hg. apply glob_lits_inv in Hg as [Hlen Hg]; [|by eapply Forall2_lit].
      apply Hcur. rewrite drop_drop in Hg. apply glob_star_iff in Hg as (j & Hg). rewrite drop_drop in Hg.
      exists (k + length lits + j)%nat. split; [|done].
      apply Forall2_length in HF. unfold blen in *. lia.
    + intros Hg. exists (Z.to_nat m). split; [lia|]. by apply Hat.
Qed.

(** A failed attempt moves the place after the last star by one. *)
Lemma inv_back v p s m :
  loop_inv v p s m -> v < blen V -> 0 <= s -> ~ glob (drop (Z.to_nat p) P) (drop (Z.to_nat v) V) ->
  loop_inv (m + 1) (s + 1) s (m + 1).
Proof.
  intros Hinv Hlt Hs Hno. pose proof (attempt_iff _ _ _ _ Hinv) as Hat.
  destruct Hinv as (Hm & Hv & Hs' & Hp & _ & HG). unfold loop_inv.
  split_and!; try lia.
  { exists [], []. split_and!; done || (unfold blen; cbn; lia). }
  rewrite HG. unfold attempts. destruct (Z.ltb_spec s 0); [lia|]. split.
  - intros (k & Hk & Hg). exists k. split; [|done].
    destruct (decide (k = Z.to_nat m)) as [->|]; [|lia]. by apply Hat in Hg.
  - intros (k & Hk & Hg). exists k. split; [lia|done].
Qed.

(** Past the end of the value only the current attempt can succeed. *)
Lemma inv_end p s m :
  loop_inv (blen V) p s m -> glob P V <-> glob (drop (Z.to_nat p) P) [].
Proof.
  intros Hinv. pose proof (attempt_iff _ _ _ _ Hinv) as Hat.
  destruct Hinv as (Hm & _ & _ & _ & (lits & w & HP & HV & HF & Hpl & Hvl) & HG).
  replace (drop (Z.to_nat (blen V)) V) with (@nil Z) in Hat by (rewrite drop_ge; [done|unfold blen; lia]).
  rewrite HG. unfold attempts. destruct (Z.ltb_spec s 0); [done|]. split; [|intros Hg; exists (Z.to_nat m); split; [lia|by apply Hat]].
  intros (k & Hk & Hg). destruct (decide (k = Z.to_nat m)) as [->|Hne]; [by apply Hat|].
  rewrite HP in Hg. apply glob_lits_inv in Hg as [Hlen Hg]; [|by eapply Forall2_lit].
  apply Forall2_length in HF. rewrite length_drop in Hlen. rewrite drop_drop, (drop_ge V) in Hg; [done|].
  unfold blen in *. lia.
Qed.

Lemma match_loop_spec fuel v p s m :
  loop_inv v p s m -> measure v p m < Z.of_nat fuel -> match_loop fuel V P v p s m = true <-> glob P V.
Proof.
  revert v p s m. induction fuel as [|fuel IH]; intros v p s m Hinv Hf; pose proof Hinv as (Hm & Hv & Hs & Hp & (lits & w & HP & HV & HF & Hpl & Hvl) & HG);
    pose proof (blen_nonneg lits); unfold measure in *.
  { nia. }
  cbn [match_loop]. destruct (Z.ltb_spec v (blen V)) as [Hlt|Hge].
  2: { assert (v = blen V) as -> by lia. rewrite (inv_end p s m Hinv). by rewrite glob_empty. }
  destruct (drop (Z.to_nat v) V) as [|x vt] eqn:Hx.
  { apply drop_nil_at in Hx; lia. }
  destruct (drop_step V vt x v) as (Hax & _ & _); [lia|done|]. rewrite Hax.
  assert (~ glob (drop (Z.to_nat p) P) (drop (Z.to_nat v) V) ->
    (if 0 <=? s then match_loop fuel V P (m + 1) (s + 1) s (m + 1) else false) = true <-> glob P V) as Hback.
  { intros Hno. destruct (Z.leb_spec 0 s).
    - apply IH; [by eapply inv_back|]. nia.
    - split; [done|]. rewrite HG. unfold attempts. destruct (Z.ltb_spec s 0); [|lia].
      rewrite (attempt_iff v p s m Hinv). done. }
  destruct (drop (Z.to_nat p) P) as [|c pt] eqn:Hc.
  { destruct (drop_nil_at P p) as [-> _]; [lia|done|].
    rewrite !bool_decide_false by done. apply Hback. rewrite Hx. apply glob_end. }
  destruct (drop_step P pt c p) as (-> & _ & HlP); [lia|done|]. pose proof (blen_nonneg pt).
  case_bool_decide as Hq; [|case_bool_decide as Hst; [|case_bool_decide as Heq]].
  - apply IH; [|nia]. eapply inv_lit; [done..|]. injection Hq as ->. by split; [|left].
  - apply IH; [|nia]. injection Hst as ->. by eapply inv_star.
  - apply IH; [|nia]. injection Heq as ->. eapply inv_lit; [done..|]. split; [congruence|by right].
  - apply Hback. rewrite Hx. apply glob_mismatch; congruence.
Qed.
End MatchLoop.

Lemma Wildcard_match_glob value pattern : Wildcard_match value pattern = true <-> glob pattern value.
Proof.
  unfold Wildcard_match. destruct (decide (value = [])) as [->|Hv].
  - rewrite (bool_decide_true (_ = [])) by done. cbn [andb].
    destruct (decide (pattern = [])) as [->|Hp]; [split; [constructor|done]|].
    rewrite bool_decide_false by done. rewrite glob_empty. by case_bool_decide; subst.
  - rewrite (bool_decide_false (value = [])) by done. cbn [andb].
    destruct (decide (pattern = [])) as [->|Hp].
    + cbn. destruct value; [done|]. split; [done|]. intros H. by apply glob_end in H.
    + rewrite bool_decide_false by done. apply match_loop_spec.
      * unfold loop_inv. pose proof (blen_nonneg value). pose proof (blen_nonneg pattern).
        assert (0 < blen pattern) by (pose proof (blen_0 pattern); destruct (Z.eq_dec (blen pattern) 0); [by destruct Hp; auto|lia]).
        split_and!; try lia; [|done]. exists [], []. split_and!; done.
      * unfold measure, match_fuel, blen. lia.
Qed.

(** ** Facts about rules *)

Lemma findLast_spec {A} (f : A -> bool) l :
  match findLast f l with
  | Some x => exists l1 l2, l = l1 ++ x :: l2 /\ f x = true /\ Forall (fun y => f y = false) l2
  | None => Forall (fun y => f y = false) l
  end.
Proof.
  unfold findLast. induction l as [|x l IH] using rev_ind; [by constructor|].
  rewrite rev_app_distr. cbn. destruct (f x) eqn:Hx.
  - exists l, []. split_and!; [done|done|constructor].
  - destruct (List.find f (rev l)) as [y|].
    + destruct IH as (l1 & l2 & -> & Hy & HF). exists l1, (l2 ++ [x]).
      rewrite <- app_assoc. split_and!; [done|done|]. apply Forall_app. by split; [|constructor].
    + apply Forall_app. by split; [|constructor].
Qed.

Lemma findLast_app {A} (f : A -> bool) l1 l2 :
  findLast f (l1 ++ l2) = match findLast f l2 with Some x => Some x | None => findLast f l1 end.
Proof.
  unfold findLast. rewrite rev_app_distr. induction (rev l2) as [|x r IH]; [done|]. cbn. by destruct (f x).
Qed.

(** Only preset rules are filtered out of the static ruleset. *)
Lemma filter_preset p : List.filter (fun r => negb (isPresetRule r)) (rulesForPreset p) = [].
Proof. by destruct p. Qed.

Lemma filter_config homedir c :
  List.filter (fun r => negb (isPresetRule r)) (fromConfig homedir c) = fromConfig homedir c.
Proof.
  induction c as [|[perm value] c IH]; [done|].
  change (fromConfig homedir ((perm, value) :: c)) with
    (match value with
     | inl act => [mkRule perm $"*" act false]
     | inr entries => (fun '(pat, act) => mkRule perm (expand homedir pat) act false) <$> entries
     end ++ fromConfig homedir c).
  rewrite List.filter_app, IH. f_equal.
  destruct value as [act|es]; [done|]. induction es as [|[pat act] es IHes]; [done|]. cbn. by rewrite IHes.
Qed.

Lemma user_rules homedir l :
  Forall (fun r => isPresetRule r = false) (cliOverride l) ->
  List.filter (fun r => negb (isPresetRule r)) (staticRuleset_of homedir l) = mjoin (user_layers homedir l).
Proof.
  intros Hcli.
  assert (forall p, List.filter (fun r => negb (isPresetRule r)) (default [] (rulesForPreset <$> p)) = []) as Hp
    by (intros [p|]; [apply filter_preset|done]).
  assert (forall c, List.filter (fun r => negb (isPresetRule r)) (default [] (fromConfig homedir <$> c)) =
    default [] (fromConfig homedir <$> c)) as Hc by (intros [c|]; [apply filter_config|done]).
  assert (List.filter (fun r => negb (isPresetRule r)) (cliOverride l) = cliOverride l) as Hover.
  { induction Hcli as [|r rs Hr _ IH]; [done|]. cbn. by rewrite Hr, IH. }
  unfold staticRuleset_of, user_layers. cbn [mjoin list_join].
  rewrite !List.filter_app, filter_preset, !Hp, !Hc, Hover, !app_nil_l. cbn [List.filter]. rewrite !app_nil_r.
  do 2 f_equal. destruct (cliPresetOverride l) as [p|]; [|done].
  case_bool_decide; [done|]. by rewrite filter_preset.
Qed.

Lemma prefix_loop_take len tokens :
  tokens <> [] -> (forall k, join_space (take k tokens) ∉ OBJECT_PROTOTYPE) ->
  exists n : nat, (1 <= n <= 3)%nat /\ prefix_loop len tokens = take n tokens /\
    forall k a, (k <= len)%nat -> (1 <= k)%nat -> arity_of (join_space (take k tokens)) = Some (inl a) ->
      (forall j, (k < j <= len)%nat -> arity_of (join_space (take j tokens)) = None) -> n = Z.to_nat a.
Proof.
  intros Hne Hno. induction len as [|len (n & Hn & He & Hmax)]; cbn [prefix_loop].
  - exists 1%nat. split; [lia|]. split; [by destruct tokens|]. intros k a ? ?. lia.
  - destruct (arity_of (join_space (take (S len) tokens))) as [[a|]|] eqn:Ha.
    + exists (Z.to_nat a). assert (1 <= a <= 3) as Hr.
      { unfold arity_of in Ha. destruct (List.find _ ARITY) as [[k b]|] eqn:Hf; [|by case_bool_decide].
        injection Ha as <-. apply List.find_some in Hf as [Hin _].
        assert (Forall (fun e => 1 <= e.2 <= 3) ARITY) as HF by (repeat constructor; cbn; lia).
        rewrite List.Forall_forall in HF. by apply HF in Hin. }
      split; [lia|]. split; [done|]. intros k b Hk _ Hb Hlong.
      destruct (decide (k = S len)) as [->|]; [congruence|]. rewrite Hlong in Ha by lia. done.
    + exfalso. unfold arity_of in Ha. destruct (List.find _ ARITY) as [[]|]; [done|].
      case_bool_decide as Hin; [by apply (Hno (S len))|done].
    + exists n. split_and!; [lia|lia|done|]. intros k b Hk Hk1 Hb Hlong.
      destruct (decide (k = S len)) as [->|]; [congruence|]. apply (Hmax k b); [lia|done|done|].
      intros j Hj. apply Hlong. lia.
Qed.

(** ** Properties *)

(** C4. The two-pointer matcher with a single backtracking point decides exactly the glob
    language: [*] any run of characters, [?] one character, every other character itself. *)
Theorem Wildcard_match_spec value pattern : Wildcard_match value pattern = true <-> glob pattern value.
Proof. apply Wildcard_match_glob. Qed.

(** Evaluation is last match wins over the concatenated rulesets: the deciding rule
    matches and no later rule does; without a deciding rule none matches (and the answer is
    the default ask). *)
Theorem evaluatePatterns_last_match perm patterns rulesets ext ident :
  match evaluatePatterns perm patterns rulesets ext ident with
  | Some r => exists before after, mjoin rulesets = before ++ r :: after /\
      rule_matches perm patterns ext ident r = true /\
      Forall (fun r' => rule_matches perm patterns ext ident r' = false) after
  | None => Forall (fun r => rule_matches perm patterns ext ident r = false) (mjoin rulesets)
  end.
Proof. apply findLast_spec. Qed.

(** C5. A user's deny is final: when the last matching rule among the settings and command
    line rules denies a target, the decision is deny under every preset (full access
    included), whatever has been approved, and also when the call is bound to its preset. *)
Theorem user_deny_wins ext spell ident store homedir l apps pre perm target options approvedTarget (anc : bool) r :
  let evaluateTarget (ruleset : Ruleset) :=
    if anc then evaluateExternalSpelling spell target ruleset
    else evaluateWithIdentity ext perm target ruleset
           (ident perm (if bool_decide (perm = $"external_directory") then None else identity options)) in
  Forall (fun r => isPresetRule r = false) (cliOverride l) ->
  evaluateTarget (mjoin (user_layers homedir l)) = Some r -> action r = deny ->
  decideTarget ext spell ident store
    {| staticRuleset := staticRuleset_of homedir l; approved := apps; ctx_preset := pre |}
    perm target options approvedTarget anc = deny.
Proof.
  intros ev Hcli Hr Hdeny. unfold decideTarget. cbn [staticRuleset approved ctx_preset].
  match goal with |- (if ?c then _ else _) = _ => destruct c; [done|] end.
  destruct (store target); [done|]. rewrite user_rules by done.
  unfold ev in Hr. rewrite Hr. cbn [fmap option_fmap option_map]. rewrite Hdeny.
  destruct (presetBound options); cbn [negb]; [|by rewrite bool_decide_true].
  destruct (bool_decide _ && _); cbn; [done|].
  by destruct (action (rule_or_default _ _)).
Qed.

Lemma user_deny_wins_witness :
  decideTarget (fun _ => None) (fun _ _ => false) (fun _ _ => None) (fun _ => false)
    {| staticRuleset := staticRuleset_of $"/home/u"
         {| globalPreset := None; globalConfig := None; projectPreset := Some full_access;
            projectConfig := Some [($"read", inr [($"~/.ssh/*", deny)])]; cliPresetOverride := Some full_access;
            cliOverride := [] |};
       approved := [mkRule $"read" $"*" allow false]; ctx_preset := Some full_access |}
    $"read" [$"/home/u/.ssh/id"] {| approveBlanketAsk := false; presetBound := false; identity := None |}
    [$"/home/u/.ssh/id"] false = deny.
Proof.
  apply (user_deny_wins (fun _ => None) (fun _ _ => false) (fun _ _ => None) (fun _ => false) $"/home/u"
    {| globalPreset := None; globalConfig := None; projectPreset := Some full_access;
       projectConfig := Some [($"read", inr [($"~/.ssh/*", deny)])]; cliPresetOverride := Some full_access;
       cliOverride := [] |} [mkRule $"read" $"*" allow false] (Some full_access) $"read" [$"/home/u/.ssh/id"]
    {| approveBlanketAsk := false; presetBound := false; identity := None |} [$"/home/u/.ssh/id"] false
    (mkRule $"read" $"/home/u/.ssh/*" deny false)).
  - constructor.
  - vm_compute. reflexivity.
  - reflexivity.
Defined.

(** Remembered approvals only ever answer a question: against the decision with no
    approvals, they can turn ask into allow, or leave it; they never turn a deny into
    anything else (a remembered deny can only make a path request that could not be resolved
    be refused). *)
Theorem approvals_only_answer ext spell ident store static apps pre perm target options approvedTarget (anc : bool) :
  let decide_with (a : Ruleset) := decideTarget ext spell ident store
    {| staticRuleset := static; approved := a; ctx_preset := pre |} perm target options approvedTarget anc in
  decide_with apps = decide_with [] \/ (decide_with [] = ask /\ decide_with apps = allow) \/
  (decide_with apps = deny /\ is_Some (identity options) /\ Exists (fun r => action r = deny) (static ++ apps)).
Proof.
  intros decide_with.
  set (i := if bool_decide (perm = $"external_directory") then None else identity options).
  destruct (refuses_unresolved (static ++ apps) perm i) eqn:Ha.
  - destruct (refuses_unresolved (static ++ []) perm i) eqn:H0;
      unfold decide_with, decideTarget; cbn [staticRuleset approved]; fold i; rewrite Ha, ?H0; [by left|].
    right; right. split; [done|]. unfold refuses_unresolved in Ha. destruct i as [i'|] eqn:Hi; [|done].
    unfold i in Hi. destruct (bool_decide _) in Hi; [done|]. rewrite Hi. split; [by eexists|].
    apply andb_true_iff in Ha as [_ (r & Hin & Hr)%existsb_exists]. apply Exists_exists.
    exists r. split; [by apply list_elem_of_In|]. apply andb_true_iff in Hr as [Hr _].
    by apply bool_decide_eq_true in Hr.
  - assert (refuses_unresolved (static ++ []) perm i = false) as H0.
    { unfold refuses_unresolved in *. destruct i as [i'|]; [|done]. rewrite app_nil_r.
      rewrite existsb_app in Ha. apply andb_false_iff in Ha as [-> | Ha]; [done|].
      apply orb_false_iff in Ha as [-> _]. apply andb_false_r. }
    unfold decide_with, decideTarget. cbn [staticRuleset approved ctx_preset]. fold i. rewrite Ha, H0.
    destruct (store target); [by left|].
    assert (forall ev, findLast ev ([] : Ruleset) = None) as Hnil by done.
    unfold evaluate, evaluateWithIdentity, evaluatePatterns. cbn [mjoin list_join app]. rewrite !Hnil.
    destruct (negb (presetBound options)).
    + destruct (bool_decide (_ = Some deny)); [auto|].
      match goal with |- context [action (rule_or_default perm ?e)] =>
        generalize (action (rule_or_default perm e)) end.
      intros []; [|left; by rewrite bool_decide_true|]; repeat case_match; auto.
    + repeat case_match; auto.
Qed.

(** The command a bash rule is written for is a prefix of one to three words, of the length
    the table gives for its longest known prefix: for any non-empty command line none of whose
    prefixes is a name inherited from [Object.prototype]. *)
Theorem BashArity_prefix_spec tokens :
  tokens <> [] -> (forall k, join_space (take k tokens) ∉ OBJECT_PROTOTYPE) ->
  exists n : nat, (1 <= n <= 3)%nat /\ BashArity_prefix tokens = take n tokens /\
    forall k a, (1 <= k <= length tokens)%nat -> arity_of (join_space (take k tokens)) = Some (inl a) ->
      (forall j, (k < j <= length tokens)%nat -> arity_of (join_space (take j tokens)) = None) -> n = Z.to_nat a.
Proof.
  intros Hne Hno. destruct (prefix_loop_take (length tokens) tokens Hne Hno) as (n & Hn & He & Hmax).
  exists n. split_and!; [lia|lia|done|]. intros k a Hk. apply Hmax; lia.
Qed.

Lemma BashArity_prefix_spec_witness :
  exists n : nat, (1 <= n <= 3)%nat /\
    BashArity_prefix [$"npm"; $"run"; $"dev"; $"--x"] = take n [$"npm"; $"run"; $"dev"; $"--x"].
Proof.
  destruct (BashArity_prefix_spec [$"npm"; $"run"; $"dev"; $"--x"]) as (n & Hn & He & _).
  - discriminate.
  - intros k. destruct k as [|[|[|[|k]]]]; cbn [take]; vm_compute; intros H;
      repeat (apply elem_of_cons in H as [H|H]; [discriminate H|]); inversion H.
  - exists n. split; [exact Hn|exact He].
Defined.

(** A command named like a property of [Object.prototype] has the empty
    prefix, which the caller drops from the patterns it checks. *)
Lemma BashArity_prefix_inherited :
  Forall (fun name => BashArity_prefix [name; $"-rf"; $"/"] = []) OBJECT_PROTOTYPE.
Proof. unfold OBJECT_PROTOTYPE. repeat (apply List.Forall_cons; [vm_compute; reflexivity|]). constructor. Qed.
