(* ===== verification/Circuit.v ===== *)
(** * Fallback circuit breaker (packages/coding-agent/src/core/retry-fallback/circuit.ts, circuit-probes.ts)

The breaker shared by every session of an agent directory, the access a
session has to it, the session's single probe token, and the registry that
shares breakers between sessions.  Times are milliseconds as integers on the
clock of the caller; a hint that is not finite is [NotFinite].  The functions
that read an error message (usage limits, reset times, billing) belong to
other components and are arguments of [noteFailure]. *)
From S2P Require Import Prelude JsString.
#[local] Open Scope Z_scope.

Inductive ms := Finite (z : Z) | NotFinite.

Definition DEFAULT_CIRCUIT_COOLDOWN_MS : Z := 60000.
Definition DEFAULT_CIRCUIT_MAX_COOLDOWN_MS : Z := 30 * 60000.

Record ResolvedSettings := { cooldownMs : Z; maxCooldownMs : Z }.

(** [None] stands for a value that is not a number. *)
Definition nonNegativeMs (value : option ms) (fallback : Z) : Z :=
  match value with
  | Some (Finite z) => if 0 <=? z then z else fallback
  | _ => fallback
  end.

Definition resolveFallbackCircuitSettings (circuitCooldownMs circuitMaxCooldownMs : option ms) : ResolvedSettings :=
  let cooldown := nonNegativeMs circuitCooldownMs DEFAULT_CIRCUIT_COOLDOWN_MS in
  let maxCooldown := nonNegativeMs circuitMaxCooldownMs DEFAULT_CIRCUIT_MAX_COOLDOWN_MS in
  {| cooldownMs := cooldown; maxCooldownMs := Z.max cooldown maxCooldown |}.

Record CircuitOpenRequest := {
  req_now : Z;
  req_cooldownMs : Z;
  req_maxCooldownMs : Z;
  req_retryAfterMs : option ms;
  req_resetWindowMs : option ms;
  req_exhausted : bool;
}.

Record ProbeToken := mkToken { tok_selector : jstring; tok_owner : jstring; tok_generation : Z }.

Inductive CircuitAdmission := Closed | Open | Probe (token : ProbeToken).

Record SelectorCircuit := mkCircuit {
  openUntil : Z;
  retryFloorUntil : Z;
  consecutiveOpens : Z;
  circ_cooldownMs : Z;
  circ_maxCooldownMs : Z;
  probe : option (jstring * Z);
  exhausted : bool;
}.

Record Breaker := mkBreaker { circuits : gmap jstring SelectorCircuit; generations : Z }.

Definition empty_breaker : Breaker := mkBreaker ∅ 0.

#[export] Instance ProbeToken_eq_dec : EqDecision ProbeToken.
Proof. solve_decision. Defined.

Definition set_probe (c : SelectorCircuit) (p : option (jstring * Z)) : SelectorCircuit :=
  mkCircuit (openUntil c) (retryFloorUntil c) (consecutiveOpens c) (circ_cooldownMs c) (circ_maxCooldownMs c)
    p (exhausted c).

(** A positive finite hint. *)
Definition hint (v : option ms) : option Z :=
  match v with
  | Some (Finite z) => if 0 <? z then Some z else None
  | _ => None
  end.

(** [open]'s new circuit, from the previous one. *)
Definition opened (previous : option SelectorCircuit) (r : CircuitOpenRequest) : SelectorCircuit :=
  let now := req_now r in
  let sameEpisode := match previous with Some p => now <? openUntil p | None => false end in
  let opens := match previous with Some p => consecutiveOpens p | None => 0 end + (if sameEpisode then 0 else 1) in
  let cooldown :=
    match previous with
    | Some p => if sameEpisode then circ_cooldownMs p else Z.min (req_cooldownMs r * 2 ^ (opens - 1)) (req_maxCooldownMs r)
    | None => Z.min (req_cooldownMs r * 2 ^ (opens - 1)) (req_maxCooldownMs r)
    end in
  let hinted := match hint (req_retryAfterMs r) with Some z => now + z | None => 0 end in
  let floor := Z.max hinted
    (match previous with Some p => if now <? retryFloorUntil p then retryFloorUntil p else 0 | None => 0 end) in
  let hintedUntil := Z.min floor (now + req_maxCooldownMs r) in
  let until :=
    match hint (req_resetWindowMs r) with
    | Some window => Z.max (now + Z.min window (req_maxCooldownMs r)) hintedUntil
    | None =>
        Z.max (match previous with
               | Some p => if sameEpisode then openUntil p else now + cooldown
               | None => now + cooldown
               end) hintedUntil
    end in
  mkCircuit until floor opens cooldown (req_maxCooldownMs r) None
    (req_exhausted r || match previous with Some p => sameEpisode && exhausted p | None => false end).

Definition open_ (b : Breaker) (selector : jstring) (r : CircuitOpenRequest) : Breaker * Z :=
  let c := opened (circuits b !! selector) r in
  (mkBreaker (<[selector := c]> (circuits b)) (generations b), openUntil c).

Definition isOpen (b : Breaker) (selector : jstring) (now : Z) (owner : jstring) : bool :=
  match circuits b !! selector with
  | None => false
  | Some c =>
      if now <? openUntil c then true
      else match probe c with Some (o, _) => negb (bool_decide (o = owner)) | None => false end
  end.

Definition admit_ (b : Breaker) (selector : jstring) (now : Z) (owner : jstring) : Breaker * CircuitAdmission :=
  match circuits b !! selector with
  | None => (b, Closed)
  | Some c =>
      if now <? openUntil c then (b, Open)
      else
        match probe c with
        | Some (o, g) =>
            if bool_decide (o = owner) then (b, Probe (mkToken selector owner g)) else (b, Open)
        | None =>
            let g := generations b + 1 in
            (mkBreaker (<[selector := set_probe c (Some (owner, g))]> (circuits b)) g,
             Probe (mkToken selector owner g))
        end
  end.

Definition release (b : Breaker) (token : ProbeToken) : Breaker :=
  match circuits b !! tok_selector token with
  | Some c =>
      if bool_decide (probe c = Some (tok_owner token, tok_generation token))
      then mkBreaker (<[tok_selector token := set_probe c None]> (circuits b)) (generations b)
      else b
  | None => b
  end.

Definition releaseOwnersWithPrefix (b : Breaker) (prefix : jstring) : Breaker :=
  mkBreaker ((fun c => match probe c with
                       | Some (o, _) => if startsWith o prefix then set_probe c None else c
                       | None => c
                       end) <$> circuits b) (generations b).

Definition close (b : Breaker) (selector : jstring) : Breaker :=
  mkBreaker (delete selector (circuits b)) (generations b).

Definition has (b : Breaker) (selector : jstring) : bool := bool_decide (is_Some (circuits b !! selector)).

Definition isExhausted (b : Breaker) (selector : jstring) : bool :=
  match circuits b !! selector with Some c => exhausted c | None => false end.

(** A circuit [sweep] drops: idle, and past its last ceiling. *)
Definition swept (now : Z) (c : SelectorCircuit) : bool :=
  bool_decide (probe c = None) && (openUntil c + circ_maxCooldownMs c <=? now).

Definition sweep (b : Breaker) (now : Z) : Breaker :=
  mkBreaker (filter (fun kc => swept now kc.2 = false) (circuits b)) (generations b).

(** ** A session's access *)

Definition laneOwner (session lane : jstring) : jstring := session ++ $":" ++ lane.

Record FallbackCircuitAccess := {
  acc_owner : jstring;
  acc_settings : ResolvedSettings;
}.

Definition enabled (a : FallbackCircuitAccess) : bool := 0 <? cooldownMs (acc_settings a).

Record Failure := { retryAfterMs : option ms; errorMessage : option jstring }.

(** What a usage-limit message says about its reset. *)
Inductive reset_kind := absolute | relative.

Section Access.
Context (parseRetryAfterMsMarker : jstring -> option ms).
(** [usageLimitScope(message)]: [None] or whether the scope is the account. *)
Context (usageLimitScope : jstring -> option bool).
Context (usageLimitReset : jstring -> Z -> option (reset_kind * ms)).
Context (isHealthExhaustionFailure : jstring -> bool).

Definition failure_request (a : FallbackCircuitAccess) (now wallNow : Z) (f : Failure) : CircuitOpenRequest :=
  let cooldown := cooldownMs (acc_settings a) in
  let retry := match retryAfterMs f with Some r => Some r | None => errorMessage f ≫= parseRetryAfterMsMarker end in
  let reset := errorMessage f ≫= fun m => usageLimitScope m ≫= fun _ => usageLimitReset m wallNow in
  let window :=
    match reset with
    | Some (absolute, v) => Some v
    | Some (relative, Finite z) => if cooldown <=? z then Some (Finite z) else None
    | _ => None
    end in
  {| req_now := now; req_cooldownMs := cooldown; req_maxCooldownMs := maxCooldownMs (acc_settings a);
     req_retryAfterMs := retry; req_resetWindowMs := window;
     req_exhausted := match errorMessage f with
                      | Some m => isHealthExhaustionFailure m || bool_decide (usageLimitScope m = Some true)
                      | None => false
                      end |}.

Definition noteFailure (a : FallbackCircuitAccess) (b : Breaker) (now wallNow : Z) (selector : jstring) (f : Failure) : Breaker :=
  if enabled a then (open_ (sweep b now) selector (failure_request a now wallNow f)).1 else b.
End Access.

Definition acc_admit (a : FallbackCircuitAccess) (b : Breaker) (now : Z) (selector lane : jstring) : Breaker * CircuitAdmission :=
  if enabled a then admit_ b selector now (laneOwner (acc_owner a) lane) else (b, Closed).

Definition acc_isOpen (a : FallbackCircuitAccess) (b : Breaker) (now : Z) (selector lane : jstring) : bool :=
  enabled a && isOpen b selector now (laneOwner (acc_owner a) lane).

Definition acc_releaseAll (a : FallbackCircuitAccess) (b : Breaker) : Breaker :=
  releaseOwnersWithPrefix b (acc_owner a ++ $":").

(** ** A session's probe (circuit-probes.ts)

The state is the shared breaker and the token the session holds. *)

Notation probes := (Breaker * option ProbeToken)%type.

Definition holds (s : probes) (selector : jstring) : bool :=
  match s.2 with Some t => bool_decide (tok_selector t = selector) | None => false end.

Definition probes_release (s : probes) : probes :=
  (match s.2 with Some t => release s.1 t | None => s.1 end, None).

Definition probes_admit (a : FallbackCircuitAccess) (s : probes) (now : Z) (selector : jstring) : probes * CircuitAdmission :=
  let '(b, admission) := acc_admit a s.1 now selector $"turn" in
  let s := (b, s.2) in
  match admission with
  | Probe t =>
      if holds s selector then (s, admission)
      else ((probes_release s).1, Some t, admission)
  | _ => (s, admission)
  end.

(** After [noteFailure] or [close] on the breaker, the token of that selector
    is forgotten. *)
Definition forget (s : probes) (selector : jstring) : probes := if holds s selector then (s.1, None) else s.

Definition probes_accept (s : probes) (selector : jstring) : probes := forget (close s.1 selector, s.2) selector.

Definition probes_releaseAll (a : FallbackCircuitAccess) (s : probes) : probes := (acc_releaseAll a s.1, None).

(** ** The registry of breakers *)

(** [breakersByAgentDir] maps a directory to an entry object; [entries] is the
    store of entry objects and [handles] the values [acquireFallbackCircuits]
    returned: the directory, the entry and whether [release] was called. *)
Record BreakerEntry := mkEntry { owners : Z; breaker : Breaker }.

Definition breaker_size (b : Breaker) : nat := size (circuits b).

Record Registry := mkRegistry {
  breakersByAgentDir : gmap jstring positive;
  entries : gmap positive BreakerEntry;
  handles : gmap positive (jstring * positive * bool);
}.

(** An entry stays while a session holds it or it has a circuit to share. *)
Definition kept (entries : gmap positive BreakerEntry) (e : positive) : bool :=
  match entries !! e with
  | Some en => negb (bool_decide (owners en = 0) && bool_decide (breaker_size (breaker en) = 0%nat))
  | None => true
  end.

Definition evictUnheldEmptyBreakers (r : Registry) : Registry :=
  mkRegistry (filter (fun ke => kept (entries r) ke.2 = true) (breakersByAgentDir r)) (entries r) (handles r).

(** [entryFor(agentDir)] of an already resolved directory. *)
Definition entryFor (r : Registry) (key : jstring) : Registry * positive :=
  match breakersByAgentDir r !! key with
  | Some e => (r, e)
  | None =>
      let r := evictUnheldEmptyBreakers r in
      let e := fresh (dom (entries r)) in
      (mkRegistry (<[key := e]> (breakersByAgentDir r)) (<[e := mkEntry 0 empty_breaker]> (entries r)) (handles r), e)
  end.

Definition acquireFallbackCircuits (r : Registry) (key : jstring) : Registry * positive :=
  let '(r, e) := entryFor r key in
  let h := fresh (dom (handles r)) in
  (mkRegistry (breakersByAgentDir r) (alter (fun en => mkEntry (owners en + 1) (breaker en)) e (entries r))
     (<[h := (key, e, false)]> (handles r)), h).

(** [release()] of a handle. *)
Definition release_handle (r : Registry) (h : positive) : Registry :=
  match handles r !! h with
  | Some (key, e, false) =>
      evictUnheldEmptyBreakers
        (mkRegistry (breakersByAgentDir r) (alter (fun en => mkEntry (owners en - 1) (breaker en)) e (entries r))
           (<[h := (key, e, true)]> (handles r)))
  | _ => r
  end.


(** ** Traces of the breaker *)

Inductive op :=
| OpOpen (selector : jstring) (r : CircuitOpenRequest)
| OpAdmit (selector : jstring) (now : Z) (owner : jstring)
| OpRelease (token : ProbeToken)
| OpReleasePrefix (prefix : jstring)
| OpClose (selector : jstring)
| OpSweep (now : Z).

(** One call, and the token it hands out. *)
Definition step (b : Breaker) (o : op) : Breaker * option ProbeToken :=
  match o with
  | OpOpen selector r => ((open_ b selector r).1, None)
  | OpAdmit selector now owner =>
      let '(b, admission) := admit_ b selector now owner in
      (b, match admission with Probe t => Some t | _ => None end)
  | OpRelease t => (release b t, None)
  | OpReleasePrefix p => (releaseOwnersWithPrefix b p, None)
  | OpClose selector => (close b selector, None)
  | OpSweep now => (sweep b now, None)
  end.

(** A run, with the tokens handed out so far. *)
Fixpoint run (b : Breaker) (issued : list ProbeToken) (ops : list op) : Breaker * list ProbeToken :=
  match ops with
  | [] => (b, issued)
  | o :: ops' => let '(b', t) := step b o in run b' (option_list t ++ issued) ops'
  end.

(** The probe of a selector, as the token its holder was given. *)
Definition held (b : Breaker) (selector : jstring) : option ProbeToken :=
  match circuits b !! selector with
  | Some c => (fun p => mkToken selector p.1 p.2) <$> probe c
  | None => None
  end.

Record wf (b : Breaker) (issued : list ProbeToken) : Prop := {
  wf_held : forall selector t, held b selector = Some t -> t ∈ issued;
  wf_fresh : Forall (fun t => tok_generation t <= generations b) issued;
  wf_unique : forall t1 t2, t1 ∈ issued -> t2 ∈ issued -> tok_generation t1 = tok_generation t2 -> t1 = t2;
}.

Lemma held_Some b selector t :
  held b selector = Some t <->
  tok_selector t = selector /\
  exists c, circuits b !! selector = Some c /\ probe c = Some (tok_owner t, tok_generation t).
Proof.
  unfold held. destruct (circuits b !! selector) as [c |] eqn:E; cbn.
  - destruct (probe c) as [[o g] |] eqn:Ep; cbn.
    + split.
      * intros [= <-]. eauto.
      * intros [<- (c' & [= <-] & H)]. rewrite Ep in H. destruct t; cbn in *. congruence.
    + split; [done | intros (? & c' & [= <-] & ?); congruence].
  - split; [done | intros (? & c' & ? & ?); done].
Qed.

Lemma held_insert b selector c gens s :
  held (mkBreaker (<[selector := c]> (circuits b)) gens) s =
  if decide (s = selector) then (fun p => mkToken selector p.1 p.2) <$> probe c else held b s.
Proof.
  unfold held; cbn. case_decide as E; [subst; by rewrite lookup_insert_eq | by rewrite lookup_insert_ne].
Qed.

Lemma held_gens b gens s : held (mkBreaker (circuits b) gens) s = held b s.
Proof. done. Qed.

Lemma held_admit b selector now owner s :
  let r := admit_ b selector now owner in
  generations b <= generations r.1 /\
  (held r.1 s = held b s \/
   s = selector /\ held b s = None /\ held r.1 s = Some (mkToken selector owner (generations b + 1)) /\
   generations r.1 = generations b + 1 /\
   r.2 = Probe (mkToken selector owner (generations b + 1))).
Proof.
  unfold admit_. destruct (circuits b !! selector) as [c |] eqn:E; [| cbn; auto with lia].
  destruct (now <? openUntil c); [cbn; auto with lia |].
  destruct (probe c) as [[o g] |] eqn:Ep; [case_bool_decide; cbn; auto with lia |].
  cbn. split; [lia |]. rewrite held_insert. case_decide; [right | by left].
  subst. unfold held. rewrite E; cbn. by rewrite Ep.
Qed.

(** An admitted owner is given the probe the breaker holds for the selector. *)
Lemma admit_probe_held b selector now owner t :
  (admit_ b selector now owner).2 = Probe t ->
  held (admit_ b selector now owner).1 selector = Some t /\ tok_owner t = owner.
Proof.
  unfold admit_. destruct (circuits b !! selector) as [c |] eqn:E; [| done].
  destruct (now <? openUntil c); [done |].
  destruct (probe c) as [[o g] |] eqn:Ep.
  - case_bool_decide as Ho; [| done]. cbn. intros [= <-]. cbn. subst.
    unfold held. rewrite E; cbn. by rewrite Ep.
  - cbn. intros [= <-]. rewrite held_insert, decide_True by done. done.
Qed.

(** Every call but [admit] only drops probes. *)
Lemma held_step b o s t :
  held (step b o).1 s = Some t ->
  held b s = Some t \/ step b o = ((step b o).1, Some t) /\ tok_generation t = generations b + 1
    /\ generations (step b o).1 = generations b + 1 /\ held b s = None.
Proof.
  destruct o as [sel r | sel now owner | tk | p | sel | now]; cbn [step].
  - cbn. rewrite held_insert. case_decide; [done | auto].
  - pose proof (held_admit b sel now owner s) as [_ [H | (-> & Hn & H & Hg & Ha)]];
      destruct (admit_ b sel now owner) as [b' a]; cbn in *; rewrite H; [auto |].
    intros [= <-]. right. rewrite Ha. done.
  - unfold release. destruct (circuits b !! tok_selector tk) as [c |] eqn:E; [| auto].
    case_bool_decide; [| auto]. cbn. rewrite held_insert. case_decide; [done | auto].
  - cbn. intros H. left. apply held_Some in H as [<- (c & Hc & Hp)].
    cbn in Hc. rewrite lookup_fmap, fmap_Some in Hc. destruct Hc as (c' & Hc' & ->).
    apply held_Some. split; [done |]. exists c'. split; [done |].
    revert Hp. destruct (probe c') as [[o g] |] eqn:Ep; [| by rewrite Ep].
    destruct (startsWith o p); [done | by rewrite Ep].
  - cbn. intros H. left. apply held_Some in H as [<- (c & Hc & Hp)].
    cbn in Hc. apply lookup_delete_Some in Hc as [? Hc]. apply held_Some. eauto.
  - cbn. intros H. left. apply held_Some in H as [<- (c & Hc & Hp)].
    cbn in Hc. apply map_lookup_filter_Some in Hc as [Hc _]. apply held_Some. eauto.
Qed.

Lemma step_generations b o : generations b <= generations (step b o).1.
Proof.
  destruct o as [sel r | sel now owner | tk | p | sel | now]; cbn; try lia.
  - pose proof (held_admit b sel now owner sel) as [H _]. destruct (admit_ b sel now owner); cbn in *. lia.
  - unfold release. repeat case_match; cbn; lia.
Qed.

(** A token handed out is the one the breaker now holds. *)
Lemma step_token b o t : (step b o).2 = Some t -> held (step b o).1 (tok_selector t) = Some t.
Proof.
  destruct o as [sel r | sel now owner | tk | p | sel | now]; cbn; try done.
  pose proof (admit_probe_held b sel now owner) as H.
  destruct (admit_ b sel now owner) as [b' a]; cbn in *. destruct a; try done.
  intros [= <-]. destruct (H token eq_refl) as [Hh _]. 
  pose proof Hh as Hs. apply held_Some in Hs as [-> _]. done.
Qed.

Lemma step_wf b issued o :
  wf b issued -> wf (step b o).1 (option_list (step b o).2 ++ issued).
Proof.
  intros [Hheld Hfresh Huniq]. pose proof (step_generations b o) as Hg.
  assert (Hnew : forall t, (step b o).2 = Some t -> t ∈ issued \/ tok_generation t = generations b + 1
            /\ generations (step b o).1 = generations b + 1).
  { intros t Ht. apply step_token, held_step in Ht as [H | (_ & H & H' & _)]; eauto. }
  rewrite Forall_forall in Hfresh.
  split.
  - intros s t H. apply elem_of_app. apply held_step in H as [H | (-> & _)]; [right; eauto |].
    left; cbn. by apply list_elem_of_singleton.
  - apply Forall_app. split; [| rewrite Forall_forall; intros t Ht; specialize (Hfresh t Ht); cbn in *; lia].
    destruct ((step b o).2) as [t |] eqn:E; cbn; constructor; [| done].
    destruct (Hnew t eq_refl) as [H | [H H']]; [specialize (Hfresh t H); cbn in * |]; lia.
  - assert (Hold : forall t, t ∈ issued -> tok_generation t <= generations b)
      by (intros t Ht; exact (Hfresh t Ht)).
    destruct ((step b o).2) as [t |] eqn:E; cbn; [| done].
    intros t1 t2 H1 H2 He. rewrite elem_of_cons in H1, H2.
    destruct (Hnew t eq_refl) as [Hin | [Hgt _]].
    + destruct H1 as [-> | H1], H2 as [-> | H2]; auto.
    + destruct H1 as [-> | H1], H2 as [-> | H2]; auto.
      * specialize (Hold _ H2). lia.
      * specialize (Hold _ H1). lia.
Qed.

Lemma run_wf b issued ops : wf b issued -> wf (run b issued ops).1 (run b issued ops).2.
Proof.
  revert b issued. induction ops as [| o ops IH]; intros b issued H; [done |].
  cbn. pose proof (step_wf b issued o H) as Hs. destruct (step b o) as [b' t]; cbn in *. by apply IH.
Qed.

Lemma empty_wf : wf empty_breaker [].
Proof. split; [intros s t H | constructor | intros t1 t2 H]; [done | by apply not_elem_of_nil in H]. Qed.


(** Every probe token is a fresh one: in any run of the shared breaker two
    tokens handed out under the same generation are the same token (same
    selector, same owner), and the probe a circuit holds was handed out to
    its holder. *)
Theorem probe_tokens_unique ops :
  let r := run empty_breaker [] ops in
  (forall t1 t2, t1 ∈ r.2 -> t2 ∈ r.2 -> tok_generation t1 = tok_generation t2 -> t1 = t2) /\
  (forall selector t, held r.1 selector = Some t -> t ∈ r.2).
Proof. pose proof (run_wf _ _ ops empty_wf) as [? ? ?]. by split. Qed.

(** A token whose probe has ended. *)
Lemma step_stays_stale b issued o t :
  wf b issued -> t ∈ issued -> held b (tok_selector t) <> Some t -> held (step b o).1 (tok_selector t) <> Some t.
Proof.
  intros [_ Hf _] Hin Hn H. apply held_step in H as [H | (_ & Hg & _)]; [done |].
  rewrite Forall_forall in Hf. specialize (Hf t Hin). cbn in Hf. lia.
Qed.

Lemma run_stays_stale b issued ops t :
  wf b issued -> t ∈ issued -> held b (tok_selector t) <> Some t ->
  held (run b issued ops).1 (tok_selector t) <> Some t.
Proof.
  revert b issued. induction ops as [| o ops IH]; intros b issued Hwf Hin Hn; [done |].
  cbn. pose proof (step_wf b issued o Hwf) as Hs. pose proof (step_stays_stale b issued o t Hwf Hin Hn) as Hn'.
  destruct (step b o) as [b' t']; cbn in *. apply IH; [done | | done]. apply elem_of_app. by right.
Qed.

Lemma release_not_held b t : held b (tok_selector t) <> Some t -> release b t = b.
Proof.
  intros H. unfold release. destruct (circuits b !! tok_selector t) as [c |] eqn:E; [| done].
  case_bool_decide as Hp; [| done]. destruct H. apply held_Some. eauto.
Qed.

(** A stale token never releases a later acquisition: once the probe of a
    token has ended, by whatever call, releasing the token changes nothing
    after any later calls, those that hand the probe of the same selector to
    another owner, or again to the same one, included. *)
Theorem stale_release_noop before after t :
  let r := run empty_breaker [] before in
  t ∈ r.2 -> held r.1 (tok_selector t) <> Some t ->
  let b := (run r.1 r.2 after).1 in
  release b t = b.
Proof.
  intros r Hin Hn b. apply release_not_held. apply run_stays_stale; [| done | done].
  apply run_wf, empty_wf.
Qed.

Definition request (now cooldown maxCooldown : Z) : CircuitOpenRequest :=
  {| req_now := now; req_cooldownMs := cooldown; req_maxCooldownMs := maxCooldown; req_retryAfterMs := None;
     req_resetWindowMs := None; req_exhausted := false |}.

Lemma stale_release_noop_witness :
  let t := mkToken $"p/m" $"A:turn" 1 in
  let r := run empty_breaker []
    [OpOpen $"p/m" (request 0 10 100); OpAdmit $"p/m" 10 $"A:turn"; OpOpen $"p/m" (request 11 10 100)] in
  let b := (run r.1 r.2 [OpAdmit $"p/m" 31 $"B:turn"]).1 in
  release b t = b /\ held b $"p/m" = Some (mkToken $"p/m" $"B:turn" 2).
Proof.
  intros t r b. split; [| by vm_compute].
  apply (stale_release_noop [OpOpen $"p/m" (request 0 10 100); OpAdmit $"p/m" 10 $"A:turn";
    OpOpen $"p/m" (request 11 10 100)] [OpAdmit $"p/m" 31 $"B:turn"] t).
  - vm_compute. left.
  - by vm_compute.
Defined.

(** The calls that may end the probe of a token: its failure or success, its
    release, and the end of its session. *)
Definition ends (t : ProbeToken) (o : op) : bool :=
  match o with
  | OpOpen s _ | OpClose s => bool_decide (s = tok_selector t)
  | OpRelease t' => bool_decide (t' = t)
  | OpReleasePrefix p => startsWith (tok_owner t) p
  | OpAdmit _ _ _ | OpSweep _ => false
  end.

Lemma step_keeps_probe b o t :
  ends t o = false -> held b (tok_selector t) = Some t -> held (step b o).1 (tok_selector t) = Some t.
Proof.
  intros He H. pose proof (proj1 (held_Some b _ t) H) as [_ (c & Hc & Hp)].
  destruct o as [sel r | sel now owner | tk | p | sel | now]; cbn in He |- *.
  - apply bool_decide_eq_false in He. by rewrite held_insert, decide_False.
  - destruct (held_admit b sel now owner (tok_selector t)) as [_ [H' | (_ & Hn & _)]]; [| congruence].
    destruct (admit_ b sel now owner); cbn in *. congruence.
  - unfold release. destruct (circuits b !! tok_selector tk) as [c' |] eqn:E; [| done].
    apply bool_decide_eq_false in He. case_bool_decide as Hp'; [| done]. rewrite held_insert. case_decide as Hs; [| done].
    destruct He. rewrite Hs in Hc. destruct t, tk; cbn in *. congruence.
  - apply held_Some. split; [done |]. cbn. rewrite lookup_fmap, Hc. cbn. rewrite Hp, He. eauto.
  - apply bool_decide_eq_false in He. apply held_Some. split; [done |]. cbn. rewrite lookup_delete_ne by done. eauto.
  - apply held_Some. split; [done |]. exists c. split; [| done]. cbn. apply map_lookup_filter_Some. split; [done |].
    unfold swept; cbn. by rewrite Hp.
Qed.

Lemma run_keeps_probe b issued ops t :
  Forall (fun o => ends t o = false) ops -> held b (tok_selector t) = Some t ->
  held (run b issued ops).1 (tok_selector t) = Some t.
Proof.
  revert b issued. induction ops as [| o ops IH]; intros b issued Hf H; [done |].
  apply Forall_cons in Hf as [Ho Hf]. cbn. pose proof (step_keeps_probe b o t Ho H) as H'.
  destruct (step b o); cbn in *. by apply IH.
Qed.

Lemma held_admission b s now o t :
  held b s = Some t ->
  (admit_ b s now o).2 = Open \/ tok_owner t = o /\ (admit_ b s now o).2 = Probe t.
Proof.
  intros [<- (c & Hc & Hp)]%held_Some. unfold admit_. rewrite Hc.
  destruct (now <? openUntil c); [by left |]. rewrite Hp.
  case_bool_decide as E; [right | by left]. subst. by destruct t.
Qed.

Lemma held_isOpen b s now o t : held b s = Some t -> o <> tok_owner t -> isOpen b s now o = true.
Proof.
  intros [<- (c & Hc & Hp)]%held_Some Ho. unfold isOpen. rewrite Hc.
  destruct (now <? openUntil c); [done |]. rewrite Hp. by rewrite bool_decide_eq_false_2.
Qed.

(** C6. The half-open probe is exclusive: once [admit] has granted a selector's
    probe to an owner, every other owner is refused (and sees the circuit
    open), at any clock and however long the probe takes, until one of the
    calls that end it (a failure or success of the selector, the release of
    that very token, or of all tokens of its session); meanwhile its holder
    is only ever handed that same token again.  Sweeping, the other owners'
    attempts and the calls on other selectors are among the calls allowed in
    between. *)
Theorem probe_exclusive b issued selector now owner t ops :
  (admit_ b selector now owner).2 = Probe t ->
  Forall (fun o => ends t o = false) ops ->
  let b' := (run (admit_ b selector now owner).1 issued ops).1 in
  (forall now' other, other <> owner ->
     (admit_ b' selector now' other).2 = Open /\ isOpen b' selector now' other = true) /\
  (forall now', (admit_ b' selector now' owner).2 = Open \/ (admit_ b' selector now' owner).2 = Probe t).
Proof.
  intros Ha Hf b'. destruct (admit_probe_held b selector now owner t Ha) as [Hh Ho].
  pose proof Hh as [Hs _]%held_Some. subst selector.
  pose proof (run_keeps_probe _ issued ops t Hf Hh) as H. fold b' in H. split.
  - intros now' other Hne. split; [| eapply held_isOpen; [done | congruence]].
    destruct (held_admission b' _ now' other t H) as [? | [? _]]; [done | congruence].
  - intros now'. destruct (held_admission b' _ now' owner t H) as [? | [_ ?]]; auto.
Qed.

Lemma probe_exclusive_witness :
  let b := (open_ empty_breaker $"p/m" (request 0 10 100)).1 in
  let b' := (run (admit_ b $"p/m" 10 $"A:turn").1 []
    [OpAdmit $"p/m" 500 $"B:turn"; OpSweep 1000; OpReleasePrefix $"B:"; OpOpen $"q/m" (request 600 10 100)]).1 in
  (admit_ b' $"p/m" 2000 $"B:turn").2 = Open.
Proof.
  intros b b'.
  destruct (probe_exclusive b [] $"p/m" 10 $"A:turn" (mkToken $"p/m" $"A:turn" 1)
    [OpAdmit $"p/m" 500 $"B:turn"; OpSweep 1000; OpReleasePrefix $"B:"; OpOpen $"q/m" (request 600 10 100)])
    as [H _]; [by vm_compute | repeat constructor |].
  destruct (H 2000 $"B:turn") as [Ha _]; [by vm_compute | exact Ha].
Defined.


(** ** How long a circuit refuses *)

Lemma hint_pos v z : hint v = Some z -> 0 < z.
Proof. unfold hint. repeat case_match; intros [= <-]; lia. Qed.

(** What one failure does to an open circuit.  While the circuit is still
    open (sibling sessions failing together) it takes no backoff step, keeps
    the cooldown of the episode and an exhaustion verdict, and without a
    reset window it is never shortened; in any case the new open ends after a
    Retry-After wait still running, cut at the ceiling, and no later than the
    ceiling after the failure; the circuit has no probe. *)
Theorem open_same_episode b selector r c :
  circuits b !! selector = Some c ->
  req_now r < openUntil c <= req_now r + req_maxCooldownMs r ->
  exists c', circuits (open_ b selector r).1 !! selector = Some c' /\
    (open_ b selector r).2 = openUntil c' /\
    consecutiveOpens c' = consecutiveOpens c /\ circ_cooldownMs c' = circ_cooldownMs c /\ probe c' = None /\
    (exhausted c = true -> exhausted c' = true) /\
    (hint (req_resetWindowMs r) = None -> openUntil c <= openUntil c') /\
    Z.min (retryFloorUntil c) (req_now r + req_maxCooldownMs r) <= openUntil c' <= req_now r + req_maxCooldownMs r.
Proof.
  intros Hc [Hlo Hhi]. exists (opened (Some c) r). cbn. rewrite lookup_insert_eq, Hc.
  assert (Hs : (req_now r <? openUntil c) = true) by lia.
  split; [done |]. split; [done |].
  unfold opened; cbn. rewrite Hs. split; [lia |]. split; [done |]. split; [done |].
  split; [intros ->; by destruct (req_exhausted r) |].
  set (h := match hint (req_retryAfterMs r) with Some z => req_now r + z | None => 0 end).
  set (f := if req_now r <? retryFloorUntil c then retryFloorUntil c else 0).
  assert (Hf : f = retryFloorUntil c \/ retryFloorUntil c <= req_now r /\ f = 0)
    by (subst f; destruct (Z.ltb_spec (req_now r) (retryFloorUntil c)); [by left | by right]).
  destruct (hint (req_resetWindowMs r)) as [w |] eqn:Ew.
  - pose proof (hint_pos _ _ Ew). split; [done | lia].
  - split; [intros _; lia | lia].
Qed.

Lemma open_same_episode_witness :
  let c := opened None (request 0 10 100) in
  let b := mkBreaker {[ $"p/m" := c ]} 0 in
  openUntil c <= (open_ b $"p/m" (request 5 10 100)).2 <= 105.
Proof.
  intros c b. destruct (open_same_episode b $"p/m" (request 5 10 100) c) as (c' & _ & -> & _ & _ & _ & _ & H & [_ H']);
    [by vm_compute | by vm_compute | split; [apply H; reflexivity | exact H']].
Defined.

(** Failed half-open probes: failures at the times [ts], each at or after the
    end of the open before it, under one configuration and with no hint. *)
Fixpoint failed_probes (b : Breaker) (selector : jstring) (cooldown maxCooldown : Z) (ts : list Z) : Breaker :=
  match ts with
  | [] => b
  | t :: ts' => failed_probes (open_ b selector (request t cooldown maxCooldown)).1 selector cooldown maxCooldown ts'
  end.

Fixpoint elapsed (until cooldown maxCooldown : Z) (k : Z) (ts : list Z) : Prop :=
  match ts with
  | [] => True
  | t :: ts' => until <= t /\ elapsed (t + Z.min (cooldown * 2 ^ k) maxCooldown) cooldown maxCooldown (k + 1) ts'
  end.

Lemma opened_elapsed c t cooldown maxCooldown :
  openUntil c <= t -> 0 <= consecutiveOpens c -> retryFloorUntil c <= 0 <= t -> 0 <= cooldown -> 0 <= maxCooldown ->
  let c' := opened (Some c) (request t cooldown maxCooldown) in
  openUntil c' = t + Z.min (cooldown * 2 ^ consecutiveOpens c) maxCooldown /\
  consecutiveOpens c' = consecutiveOpens c + 1 /\ retryFloorUntil c' <= 0.
Proof.
  intros H Hk Hf Hc Hm. unfold opened; cbn.
  replace (t <? openUntil c) with false by lia. replace (t <? retryFloorUntil c) with false by lia.
  replace (consecutiveOpens c + 1 - 1) with (consecutiveOpens c) by lia.
  pose proof (Z.pow_nonneg 2 (consecutiveOpens c)). split; [nia | lia].
Qed.

Lemma failed_probes_from cooldown maxCooldown selector ts b c :
  0 <= cooldown -> 0 <= maxCooldown ->
  circuits b !! selector = Some c -> 0 <= consecutiveOpens c -> retryFloorUntil c <= 0 <= openUntil c ->
  elapsed (openUntil c) cooldown maxCooldown (consecutiveOpens c) ts -> ts <> [] ->
  exists c', circuits (failed_probes b selector cooldown maxCooldown ts) !! selector = Some c' /\
    consecutiveOpens c' = consecutiveOpens c + blen ts /\
    openUntil c' = List.last ts 0 + Z.min (cooldown * 2 ^ (consecutiveOpens c + blen ts - 1)) maxCooldown.
Proof.
  intros Hc0 Hm. revert b c. induction ts as [| t ts IH]; intros b c Hc Hk Hf He Hne; [done |].
  destruct He as [Ht He].
  destruct (opened_elapsed c t cooldown maxCooldown) as (Hu & Hk' & Hf'); try lia.
  set (c1 := opened (Some c) (request t cooldown maxCooldown)) in *.
  assert (Hc1 : circuits (open_ b selector (request t cooldown maxCooldown)).1 !! selector = Some c1)
    by (cbn; by rewrite lookup_insert_eq, Hc).
  rewrite <- Hu, <- Hk' in He. pose proof (Z.pow_nonneg 2 (consecutiveOpens c)).
  destruct ts as [| t' ts].
  - exists c1. cbn [failed_probes]. rewrite Hc1, Hk', Hu. split; [done |]. change (blen [t]) with 1.
    split; [lia |]. cbn [List.last]. by replace (consecutiveOpens c + 1 - 1) with (consecutiveOpens c) by lia.
  - destruct (IH _ c1 Hc1 ltac:(lia) ltac:(nia) He ltac:(done)) as (c' & H1 & H2 & H3).
    exists c'. split; [exact H1 |]. rewrite H2, H3, Hk'.
    replace (blen (t :: t' :: ts)) with (1 + blen (t' :: ts)) by (unfold blen; cbn [length]; lia).
    split; [lia |]. cbn [List.last].
    by replace (consecutiveOpens c + 1 + blen (t' :: ts) - 1) with (consecutiveOpens c + (1 + blen (t' :: ts)) - 1) by lia.
Qed.

(** Exponential backoff: an entry that fails, and then fails every half-open
    probe it is given, is refused after its k-th failure for
    [min(cooldown * 2^(k-1), maxCooldown)] milliseconds, whatever the times
    of the failures. *)
Theorem backoff_doubles selector cooldown maxCooldown t ts :
  0 <= cooldown -> 0 <= maxCooldown -> 0 <= t ->
  elapsed t cooldown maxCooldown 0 (t :: ts) ->
  exists c, circuits (failed_probes empty_breaker selector cooldown maxCooldown (t :: ts)) !! selector = Some c /\
    consecutiveOpens c = blen (t :: ts) /\
    openUntil c = List.last (t :: ts) 0 + Z.min (cooldown * 2 ^ (blen (t :: ts) - 1)) maxCooldown.
Proof.
  intros Hc Hm Ht [_ He]. set (c1 := opened None (request t cooldown maxCooldown)).
  assert (Hu : openUntil c1 = t + Z.min (cooldown * 2 ^ 0) maxCooldown).
  { subst c1. unfold opened; cbn. lia. }
  destruct ts as [| t' ts].
  - exists c1. cbn [failed_probes]. split; [cbn; by rewrite lookup_insert_eq |]. split; [done | exact Hu].
  - destruct (failed_probes_from cooldown maxCooldown selector (t' :: ts)
      (open_ empty_breaker selector (request t cooldown maxCooldown)).1 c1) as (c & H1 & H2 & H3); try done.
    + cbn. by rewrite lookup_insert_eq.
    + rewrite Hu. change (retryFloorUntil c1) with 0. lia.
    + by rewrite Hu.
    + exists c. split; [exact H1 |]. rewrite H2, H3. change (consecutiveOpens c1) with 1.
      replace (blen (t :: t' :: ts)) with (1 + blen (t' :: ts)) by (unfold blen; cbn [length]; lia).
      split; [lia | done].
Qed.

Lemma backoff_doubles_witness :
  exists c, circuits (failed_probes empty_breaker $"p/m" 60000 1800000 [5; 60005; 200000; 500000; 980000; 2000000; 5000000]) !! $"p/m" = Some c
    /\ openUntil c = 5000000 + 1800000.
Proof.
  destruct (backoff_doubles $"p/m" 60000 1800000 5 [60005; 200000; 500000; 980000; 2000000; 5000000]) as (c & H & _ & E);
    [lia | lia | lia | cbn; lia |]. exists c. split; [exact H |]. rewrite E. by vm_compute.
Defined.


(** *** The ceiling

[clocked M t ops]: the calls of [ops] come at nondecreasing times from [t] on
and every failure has the ceiling [M] and a cooldown of at least 0. *)
Fixpoint clocked (M t : Z) (ops : list op) : Prop :=
  match ops with
  | [] => True
  | OpOpen _ r :: ops' => t <= req_now r /\ req_maxCooldownMs r = M /\ clocked M (req_now r) ops'
  | OpAdmit _ now _ :: ops' | OpSweep now :: ops' => t <= now /\ clocked M now ops'
  | _ :: ops' => clocked M t ops'
  end.

Definition open_until_at_most (b : Breaker) (selector : jstring) (T : Z) : Prop :=
  forall c, circuits b !! selector = Some c -> openUntil c <= T.

Definition opens (selector : jstring) (o : op) : bool :=
  match o with OpOpen s _ => bool_decide (s = selector) | _ => false end.

Lemma step_open_until b o selector T :
  opens selector o = false -> open_until_at_most b selector T -> open_until_at_most (step b o).1 selector T.
Proof.
  unfold open_until_at_most. intros Ho H c.
  destruct o as [sel r | sel now owner | tk | p | sel | now]; cbn in Ho |- *.
  - apply bool_decide_eq_false in Ho. rewrite lookup_insert_ne by done. apply H.
  - unfold admit_. destruct (circuits b !! sel) as [c' |] eqn:E; [| apply H].
    destruct (now <? openUntil c'); [apply H |]. destruct (probe c') as [[o g] |]; [case_bool_decide; apply H |].
    cbn. intros [[-> <-] | [_ Hc]]%lookup_insert_Some; [cbn; by apply H | by apply H].
  - unfold release. destruct (circuits b !! tok_selector tk) as [c' |] eqn:E; [| apply H].
    case_bool_decide; [| apply H].
    cbn. intros [[<- <-] | [_ Hc]]%lookup_insert_Some; [cbn; by apply H | by apply H].
  - rewrite lookup_fmap, fmap_Some. intros (c' & Hc & ->). specialize (H c' Hc). by repeat case_match.
  - intros [_ Hc]%lookup_delete_Some. by apply H.
  - intros [Hc _]%map_lookup_filter_Some. by apply H.
Qed.

Lemma run_open_until b issued ops selector T :
  Forall (fun o => opens selector o = false) ops -> open_until_at_most b selector T ->
  open_until_at_most (run b issued ops).1 selector T.
Proof.
  revert b issued. induction ops as [| o ops IH]; intros b issued Hf H; [done |].
  apply Forall_cons in Hf as [Ho Hf]. cbn. pose proof (step_open_until b o selector T Ho H) as H'.
  destruct (step b o); cbn in *. by apply IH.
Qed.

Lemma opened_ceiling previous r :
  (forall p, previous = Some p -> openUntil p <= req_now r + req_maxCooldownMs r) ->
  openUntil (opened previous r) <= req_now r + req_maxCooldownMs r.
Proof.
  intros H. unfold opened; cbn.
  destruct (hint (req_resetWindowMs r)) as [w |]; [lia |].
  destruct previous as [p |]; [specialize (H p eq_refl); destruct (Z.ltb_spec (req_now r) (openUntil p)); lia | lia].
Qed.

Lemma open_ceiling b r s selector :
  open_until_at_most b s (req_now r + req_maxCooldownMs r) ->
  open_until_at_most (open_ b selector r).1 s (req_now r + req_maxCooldownMs r).
Proof.
  intros H c. cbn. intros [[<- <-] | [_ Hc]]%lookup_insert_Some; [| by apply H].
  apply opened_ceiling. intros p Hp. by apply H.
Qed.

Lemma open_until_mono b s T T' : T <= T' -> open_until_at_most b s T -> open_until_at_most b s T'.
Proof. intros ? H c Hc. specialize (H c Hc). lia. Qed.

Fixpoint end_time (t : Z) (ops : list op) : Z :=
  match ops with
  | [] => t
  | OpOpen _ r :: ops' => end_time (req_now r) ops'
  | OpAdmit _ now _ :: ops' | OpSweep now :: ops' => end_time now ops'
  | _ :: ops' => end_time t ops'
  end.

Lemma run_ceiling M t ops b issued s :
  clocked M t ops -> open_until_at_most b s (t + M) -> open_until_at_most (run b issued ops).1 s (end_time t ops + M).
Proof.
  revert t b issued. induction ops as [| o ops IH]; intros t b issued Hc H; [done |].
  cbn [run]. destruct (step b o) as [b' tk] eqn:E.
  assert (Hs : opens s o = false -> open_until_at_most b' s (t + M)).
  { intros Ho. pose proof (step_open_until b o s _ Ho H) as H'. by rewrite E in H'. }
  destruct o; cbn in Hc |- *.
  - destruct Hc as (Ht & HM & Hc). apply IH; [done |]. cbn in E.
    injection E as <- _. rewrite <- HM. apply open_ceiling. eapply open_until_mono; [| exact H]. lia.
  - destruct Hc as [Ht Hc]. apply IH; [done |]. eapply open_until_mono; [| by apply Hs]. lia.
  - apply IH; [done |]. by apply Hs.
  - apply IH; [done |]. by apply Hs.
  - apply IH; [done |]. by apply Hs.
  - destruct Hc as [Ht Hc]. apply IH; [done |]. eapply open_until_mono; [| by apply Hs]. lia.
Qed.

Lemma run_app b issued ops1 ops2 :
  run b issued (ops1 ++ ops2) = run (run b issued ops1).1 (run b issued ops1).2 ops2.
Proof.
  revert b issued. induction ops1 as [| o ops1 IH]; intros b issued; [done |].
  cbn. destruct (step b o). apply IH.
Qed.

(** No circuit refuses for longer than the ceiling: under one configured
    ceiling and a clock that does not go back, whatever hints, reset windows,
    sibling failures and probes came before, once the ceiling has elapsed
    since a selector's last failure, a request for it is refused only if
    another owner holds its probe at that moment; nobody else waits for the
    clock. *)
Theorem refusal_bounded M before selector r after now owner :
  0 <= req_now r -> clocked M 0 (before ++ [OpOpen selector r]) -> 0 <= M ->
  Forall (fun o => opens selector o = false) after ->
  req_now r + M <= now ->
  let b := (run empty_breaker [] (before ++ OpOpen selector r :: after)).1 in
  (admit_ b selector now owner).2 = Open ->
  exists t, held b selector = Some t /\ tok_owner t <> owner.
Proof.
  intros Hr Hc HM Hf Hn b Ho.
  assert (H : open_until_at_most b selector (req_now r + M)).
  { subst b. change (OpOpen selector r :: after) with ([OpOpen selector r] ++ after).
    rewrite app_assoc, run_app. apply run_open_until; [done |].
    pose proof (run_ceiling M 0 (before ++ [OpOpen selector r]) empty_breaker [] selector Hc) as H.
    replace (end_time 0 (before ++ [OpOpen selector r])) with (req_now r) in H; [apply H; by intros c Hx |].
    clear. generalize 0. induction before as [| [] before IH]; intros t; cbn; done. }
  unfold admit_ in Ho. destruct (circuits b !! selector) as [c |] eqn:E; [| done].
  specialize (H c E). replace (now <? openUntil c) with false in Ho by lia.
  destruct (probe c) as [[o g] |] eqn:Ep; [| done]. case_bool_decide as Hd; [done |].
  exists (mkToken selector o g). split; [| done]. unfold held. rewrite E, Ep. done.
Qed.

Lemma refusal_bounded_witness :
  let r := {| req_now := 20; req_cooldownMs := 10; req_maxCooldownMs := 100; req_retryAfterMs := Some (Finite 999999);
              req_resetWindowMs := Some (Finite 604800000); req_exhausted := true |} in
  let b := (run empty_breaker [] ([OpOpen $"p/m" (request 0 10 100)] ++ OpOpen $"p/m" r
    :: [OpAdmit $"p/m" 120 $"A:turn"])).1 in
  exists t, held b $"p/m" = Some t /\ tok_owner t <> $"B:turn".
Proof.
  intros r b. apply (refusal_bounded 100 [OpOpen $"p/m" (request 0 10 100)] $"p/m" r
    [OpAdmit $"p/m" 120 $"A:turn"] 120 $"B:turn").
  - by cbn.
  - cbn; lia.
  - lia.
  - repeat constructor.
  - cbn; lia.
  - by vm_compute.
Defined.

Lemma sweep_lookup b t s :
  circuits (sweep b t) !! s = match circuits b !! s with Some c => if swept t c then None else Some c | None => None end.
Proof.
  unfold sweep; cbn. destruct (circuits b !! s) as [c |] eqn:E.
  - destruct (swept t c) eqn:Hs.
    + apply map_lookup_filter_None. right. intros c' Hc'. cbn. congruence.
    + apply map_lookup_filter_Some. done.
  - apply map_lookup_filter_None. by left.
Qed.

(** Sweeping is invisible: for a clock that does not go back, a swept
    breaker answers every [isOpen] as before, keeps every held probe, and
    only turns an admission into another one that lets the request pass. *)
Theorem sweep_transparent b swept_at now selector owner :
  (forall c, circuits b !! selector = Some c -> 0 <= circ_maxCooldownMs c) ->
  swept_at <= now ->
  isOpen (sweep b swept_at) selector now owner = isOpen b selector now owner /\
  held (sweep b swept_at) selector = held b selector /\
  ((admit_ (sweep b swept_at) selector now owner).2 = Open <-> (admit_ b selector now owner).2 = Open).
Proof.
  intros Hm Hn. unfold isOpen, held, admit_. rewrite sweep_lookup.
  destruct (circuits b !! selector) as [c |] eqn:E; [| done]. specialize (Hm c eq_refl).
  destruct (swept swept_at c) eqn:Hg.
  - apply andb_true_iff in Hg as [Hp Ht]. apply bool_decide_eq_true in Hp. rewrite Hp. cbn.
    replace (now <? openUntil c) with false by lia. done.
  - destruct (now <? openUntil c); [done |]. destruct (probe c) as [[o g] |]; [case_bool_decide |]; done.
Qed.

Lemma sweep_transparent_witness :
  let b := (open_ empty_breaker $"p/m" (request 0 10 100)).1 in
  isOpen (sweep b 110) $"p/m" 110 $"A:turn" = isOpen b $"p/m" 110 $"A:turn" /\ has (sweep b 110) $"p/m" = false.
Proof.
  intros b. split; [| by vm_compute].
  apply (sweep_transparent b 110 110 $"p/m" $"A:turn"); [| lia].
  intros c Hc. unfold b in Hc. cbn [fst open_ circuits] in Hc. rewrite lookup_insert_eq in Hc.
  injection Hc as <-. cbn. lia.
Defined.


(** *** Traces of the registry *)

Inductive registry_op :=
| RCircuitsFor (key : jstring)
| RAcquire (key : jstring)
| RRelease (h : positive)
(** a call of some session on the breaker of an entry *)
| RBreaker (e : positive) (o : op).

Definition call_breaker (r : Registry) (e : positive) (o : op) : Registry :=
  mkRegistry (breakersByAgentDir r) (alter (fun en => mkEntry (owners en) (step (breaker en) o).1) e (entries r)) (handles r).

Definition registry_step (r : Registry) (o : registry_op) : Registry :=
  match o with
  | RCircuitsFor key => (entryFor r key).1
  | RAcquire key => (acquireFallbackCircuits r key).1
  | RRelease h => release_handle r h
  | RBreaker e o => call_breaker r e o
  end.

Definition registry_run (ops : list registry_op) : Registry := fold_left registry_step ops (mkRegistry ∅ ∅ ∅).

(** The handles that hold an entry: acquired and not released. *)
Definition holding (r : Registry) (e : positive) : gmap positive (jstring * positive * bool) :=
  filter (fun hv => hv.2.1.2 = e /\ hv.2.2 = false) (handles r).

Record registry_wf (r : Registry) : Prop := {
  rwf_handles : forall h key e rel, handles r !! h = Some (key, e, rel) -> is_Some (entries r !! e);
  rwf_owners : forall e en, entries r !! e = Some en -> owners en = Z.of_nat (size (holding r e));
  rwf_held : forall h key e, handles r !! h = Some (key, e, false) -> breakersByAgentDir r !! key = Some e;
  rwf_entries : forall key e, breakersByAgentDir r !! key = Some e -> is_Some (entries r !! e);
}.

Lemma holding_size_pos r h key e : handles r !! h = Some (key, e, false) -> (0 < size (holding r e))%nat.
Proof.
  intros H. destruct (decide (size (holding r e) = 0%nat)) as [Hz | ?]; [| lia].
  apply map_size_empty_inv in Hz. assert (Hl : holding r e !! h = None) by (rewrite Hz; apply lookup_empty).
  unfold holding in Hl. rewrite map_lookup_filter_None in Hl. destruct Hl as [Hl | Hl]; [congruence |].
  exfalso. apply (Hl _ H). done.
Qed.

(** A held entry survives every eviction. *)
Lemma evict_wf r : registry_wf r -> registry_wf (evictUnheldEmptyBreakers r).
Proof.
  intros [H1 H2 H3 H4]. split; cbn; [exact H1 | exact H2 | |].
  - intros h key e H. apply map_lookup_filter_Some. split; [by eapply H3 |]. cbn.
    destruct (H1 _ _ _ _ H) as [en Hen]. unfold kept. rewrite Hen, (H2 _ _ Hen).
    pose proof (holding_size_pos r h key e H). rewrite bool_decide_eq_false_2 by lia. done.
  - intros key e [H _]%map_lookup_filter_Some. by eapply H4.
Qed.

Lemma entryFor_wf r key :
  registry_wf r ->
  let res := entryFor r key in
  registry_wf res.1 /\ breakersByAgentDir res.1 !! key = Some res.2 /\ handles res.1 = handles r.
Proof.
  intros H. unfold entryFor. destruct (breakersByAgentDir r !! key) as [e |] eqn:E; [done |].
  pose proof (evict_wf r H) as [H1 H2 H3 H4]. cbn in *.
  pose proof (is_fresh (dom (entries r))) as Hf. apply not_elem_of_dom in Hf.
  set (e := fresh (dom (entries r))) in *.
  split; [| split; [by rewrite lookup_insert_eq | done]].
  split; cbn.
  - intros h k e' rel Hh. destruct (decide (e' = e)) as [-> | ?];
      [rewrite lookup_insert_eq | rewrite lookup_insert_ne by done]; eauto.
  - intros e' en [[<- <-] | [_ Hen]]%lookup_insert_Some; [| by apply H2]. cbn.
    replace (size _) with 0%nat; [done |]. symmetry. apply map_size_empty_iff, map_eq. intros h.
    rewrite lookup_empty. apply map_lookup_filter_None. right. intros [[k e'] rel] Hh [He _]. cbn in He. subst e'.
    destruct (H1 _ _ _ _ Hh). congruence.
  - intros h k e' Hh. pose proof (H3 _ _ _ Hh) as Hk. rewrite lookup_insert_ne; [done |].
    intros ->. apply map_lookup_filter_Some in Hk as [Hk _]. congruence.
  - intros k e' [[<- <-] | [_ Hk]]%lookup_insert_Some; [rewrite lookup_insert_eq; eauto |].
    destruct (decide (e' = e)) as [-> | ?]; [rewrite lookup_insert_eq | rewrite lookup_insert_ne by done]; eauto.
Qed.

(** Changing the fields of one entry. *)
Lemma alter_is_Some (f : BreakerEntry -> BreakerEntry) e e' (m : gmap positive BreakerEntry) :
  is_Some (alter f e m !! e') <-> is_Some (m !! e').
Proof. destruct (decide (e = e')) as [-> | ?]; [rewrite lookup_alter_eq, fmap_is_Some | rewrite lookup_alter_ne]; done. Qed.

Lemma holding_insert_new r h key e e' dirs ens :
  handles r !! h = None ->
  size (holding (mkRegistry dirs ens (<[h := (key, e, false)]> (handles r))) e') =
  (if decide (e = e') then S (size (holding r e')) else size (holding r e')).
Proof.
  intros Hh. unfold holding; cbn [handles]. case_decide as He.
  - rewrite map_filter_insert_True by done. apply map_size_insert_None, map_lookup_filter_None. by left.
  - rewrite map_filter_insert_not'; [done | by intros [? _] | intros y Hy; congruence].
Qed.

Lemma holding_insert_released r h key e e' dirs ens :
  handles r !! h = Some (key, e, false) ->
  size (holding (mkRegistry dirs ens (<[h := (key, e, true)]> (handles r))) e') =
  (if decide (e = e') then pred (size (holding r e')) else size (holding r e')).
Proof.
  intros Hh. unfold holding; cbn [handles]. case_decide as He.
  - rewrite map_filter_insert_False by (by intros [_ ?]). rewrite map_filter_delete.
    apply map_size_delete_Some. exists (key, e, false). by apply map_lookup_filter_Some.
  - rewrite map_filter_insert_not'; [done | by intros [? _] |].
    intros y Hy. rewrite Hh in Hy. injection Hy as <-. by intros [? _].
Qed.

Lemma acquire_wf r key : registry_wf r -> registry_wf (acquireFallbackCircuits r key).1.
Proof.
  intros H. unfold acquireFallbackCircuits. pose proof (entryFor_wf r key H) as (H' & Hk & _).
  destruct (entryFor r key) as [r1 e]; cbn in *. destruct H' as [H1 H2 H3 H4].
  pose proof (is_fresh (dom (handles r1))) as Hf. apply not_elem_of_dom in Hf.
  set (h := fresh (dom (handles r1))) in *. split; cbn.
  - intros h' k e' rel [[_ [= <- <- <-]] | [_ Hh]]%lookup_insert_Some; apply alter_is_Some; eauto.
  - intros e' en Hen. rewrite holding_insert_new by done. case_decide as He.
    + subst e'. rewrite lookup_alter_eq, fmap_Some in Hen. destruct Hen as (en' & Hen & ->).
      cbn. rewrite (H2 _ _ Hen). lia.
    + rewrite lookup_alter_ne in Hen by done. by apply H2.
  - intros h' k e' [[_ [= <- <-]] | [_ Hh]]%lookup_insert_Some; [done | by eapply H3].
  - intros k e' Hk'. apply alter_is_Some. by eapply H4.
Qed.

Lemma release_handle_wf r h : registry_wf r -> registry_wf (release_handle r h).
Proof.
  intros H. unfold release_handle. destruct (handles r !! h) as [[[key e] []] |] eqn:Eh; [done | | done].
  apply evict_wf. pose proof (holding_size_pos r h key e Eh) as Hpos. destruct H as [H1 H2 H3 H4]. split; cbn.
  - intros h' k e' rel [[_ [= <- <- <-]] | [_ Hh]]%lookup_insert_Some; apply alter_is_Some; eauto.
  - intros e' en Hen. rewrite holding_insert_released by done. case_decide as He.
    + subst e'. rewrite lookup_alter_eq, fmap_Some in Hen. destruct Hen as (en' & Hen & ->).
      cbn. rewrite (H2 _ _ Hen). lia.
    + rewrite lookup_alter_ne in Hen by done. by apply H2.
  - intros h' k e' [[_ [=]] | [_ Hh]]%lookup_insert_Some. by eapply H3.
  - intros k e' Hk'. apply alter_is_Some. by eapply H4.
Qed.

Lemma call_breaker_wf r e o : registry_wf r -> registry_wf (call_breaker r e o).
Proof.
  intros [H1 H2 H3 H4]. split; cbn.
  - intros h k e' rel Hh. apply alter_is_Some. by eapply H1.
  - intros e' en Hen. destruct (decide (e = e')) as [-> | ?].
    + rewrite lookup_alter_eq, fmap_Some in Hen. destruct Hen as (en' & Hen & ->). by apply (H2 e' en').
    + rewrite lookup_alter_ne in Hen by done. by apply (H2 e' en).
  - exact H3.
  - intros k e' Hk. apply alter_is_Some. by eapply H4.
Qed.

Lemma registry_run_wf ops : registry_wf (registry_run ops).
Proof.
  unfold registry_run. assert (H : registry_wf (mkRegistry ∅ ∅ ∅)) by (split; cbn; intros *; rewrite lookup_empty; done).
  revert H. generalize (mkRegistry ∅ ∅ ∅). induction ops as [| o ops IH]; intros r H; cbn; [done |].
  apply IH. destruct o; cbn; [by apply entryFor_wf | by apply acquire_wf | by apply release_handle_wf | by apply call_breaker_wf].
Qed.

(** Sessions of one agent directory share one breaker: after any sequence
    of acquisitions, releases, lookups and breaker calls, two sessions that
    acquired the same directory and have not released hold the same entry,
    which is the one [fallbackCircuitsFor] returns; the entry's owner count is
    the number of such sessions, and no release or acquisition by anyone
    replaces or empties the breaker it holds. *)
Theorem live_sessions_share_breaker ops key h1 e1 h2 e2 :
  let r := registry_run ops in
  handles r !! h1 = Some (key, e1, false) ->
  handles r !! h2 = Some (key, e2, false) ->
  e1 = e2 /\ entryFor r key = (r, e1) /\
  exists en, entries r !! e1 = Some en /\ owners en = Z.of_nat (size (holding r e1)) /\
    (forall o, match o with RBreaker _ _ => False | _ => True end ->
       breaker <$> entries (registry_step r o) !! e1 = Some (breaker en)).
Proof.
  intros r Hh1 Hh2. pose proof (registry_run_wf ops) as Hwf. fold r in Hwf. pose proof Hwf as [H1 H2 H3 H4].
  pose proof (H3 _ _ _ Hh1) as Hk. pose proof (H3 _ _ _ Hh2) as Hk2.
  split; [congruence |]. split; [unfold entryFor; by rewrite Hk |].
  destruct (H1 _ _ _ _ Hh1) as [en Hen]. exists en. split; [done |]. split; [by apply H2 |].
  assert (Hef : forall k, breaker <$> entries (entryFor r k).1 !! e1 = Some (breaker en)).
  { intros k. unfold entryFor. destruct (breakersByAgentDir r !! k); cbn; [by rewrite Hen |].
    rewrite lookup_insert_ne; [by rewrite Hen |]. intros Hf.
    pose proof (is_fresh (dom (entries r))) as Hn. apply not_elem_of_dom in Hn. congruence. }
  assert (Hal : forall (m : gmap positive BreakerEntry) e n, breaker <$> m !! e1 = Some (breaker en) ->
    breaker <$> alter (fun en => mkEntry (owners en + n) (breaker en)) e m !! e1 = Some (breaker en)).
  { intros m e n Hm. destruct (decide (e = e1)) as [-> | ?]; [| by rewrite lookup_alter_ne].
    rewrite lookup_alter_eq. by destruct (m !! e1). }
  intros [k | k | h | e o] Hno; [apply Hef | | | done].
  - specialize (Hef k). cbn. unfold acquireFallbackCircuits. destruct (entryFor r k) as [r' e]. by apply Hal.
  - cbn. unfold release_handle. destruct (handles r !! h) as [[[k e] []] |]; cbn; [by rewrite Hen | | by rewrite Hen].
    apply (Hal _ e (-1)). by rewrite Hen.
Qed.

Lemma live_sessions_share_breaker_witness :
  let r := registry_run [RAcquire $"/a"; RAcquire $"/a"; RAcquire $"/b"; RRelease 3; RBreaker 1 (OpOpen $"p/m" (request 0 10 100))] in
  entryFor r $"/a" = (r, 1%positive) /\ size (holding r 1) = 2%nat.
Proof.
  intros r. destruct (live_sessions_share_breaker
    [RAcquire $"/a"; RAcquire $"/a"; RAcquire $"/b"; RRelease 3; RBreaker 1 (OpOpen $"p/m" (request 0 10 100))]
    $"/a" 1 1 2 1) as (_ & H & _); [by vm_compute | by vm_compute | split; [exact H | by vm_compute]].
Defined.

(** A breaker leaves the registry only when it is unheld and empty, and such
    breakers do not pile up: after the last session of a directory releases
    (with any number of later releases), an unheld breaker is still
    registered only if it has a circuit to share. *)
Theorem released_registry_collected ops h key e :
  let r := registry_run ops in
  handles r !! h = Some (key, e, false) ->
  let r' := release_handle r h in
  release_handle r' h = r' /\
  (forall k e', breakersByAgentDir r' !! k = Some e' ->
     exists en, entries r' !! e' = Some en /\ (owners en <> 0 \/ breaker_size (breaker en) <> 0%nat)) /\
  (forall k e', breakersByAgentDir r !! k = Some e' -> breakersByAgentDir r' !! k = None ->
     exists en, entries r' !! e' = Some en /\ owners en = 0 /\ circuits (breaker en) = ∅).
Proof.
  intros r Hh r'.
  pose proof (release_handle_wf r h (registry_run_wf ops)) as Hwf. fold r' in Hwf.
  assert (Er : r' = evictUnheldEmptyBreakers (mkRegistry (breakersByAgentDir r)
            (alter (fun en => mkEntry (owners en - 1) (breaker en)) e (entries r)) (<[h := (key, e, true)]> (handles r)))).
  { unfold r', release_handle. by rewrite Hh. }
  split; [| split].
  - unfold release_handle at 1. rewrite Er; cbn. by rewrite lookup_insert_eq.
  - intros k e' Hk. destruct (rwf_entries _ Hwf _ _ Hk) as [en Hen]. exists en. split; [done |].
    rewrite Er in Hk, Hen. apply map_lookup_filter_Some in Hk as [_ Hkept]. cbn in Hkept, Hen.
    unfold kept in Hkept. rewrite Hen in Hkept. do 2 case_bool_decide; auto; done.
  - intros k e' Hk Hnone. rewrite Er in Hnone. apply map_lookup_filter_None in Hnone as [Hn | Hn]; [cbn in Hn; congruence |].
    specialize (Hn e' Hk). cbn in Hn. unfold kept in Hn. rewrite Er. cbn.
    destruct (alter _ e (entries r) !! e') as [en |]; [| by destruct Hn].
    exists en. split; [done |]. do 2 case_bool_decide; cbn in Hn; try by destruct Hn.
    split; [done |]. by apply map_size_empty_inv.
Qed.

Lemma released_registry_collected_witness :
  let r := registry_run [RAcquire $"/a"; RAcquire $"/b"; RBreaker 1 (OpOpen $"p/m" (request 0 10 100)); RRelease 1] in
  let r' := release_handle r 2 in
  release_handle r' 2 = r' /\ breakersByAgentDir r' !! $"/b" = None /\ breakersByAgentDir r' !! $"/a" = Some 1%positive.
Proof.
  intros r r'. split; [| split; by vm_compute].
  apply (released_registry_collected
    [RAcquire $"/a"; RAcquire $"/b"; RBreaker 1 (OpOpen $"p/m" (request 0 10 100)); RRelease 1] 2 $"/b" 2).
  by vm_compute.
Defined.


(** [probes_admit] keeps the token it holds for a selector even when the breaker
    has just handed out a newer one.  Session A probes; a sibling's failure
    re-opens the circuit, which ends A's probe; A is admitted again under
    generation 2 but keeps the token of generation 1, so giving the probe
    back releases nothing and every other session stays refused. *)
Example probes_admit_keeps_stale_token :
  let a := {| acc_owner := $"A"; acc_settings := {| cooldownMs := 10; maxCooldownMs := 100 |} |} in
  let m := $"p/m" in
  let b0 := (open_ empty_breaker m (request 0 10 100)).1 in
  let '(s1, admission1) := probes_admit a (b0, None) 10 m in
  let b1 := (open_ s1.1 m (request 11 10 100)).1 in
  let '(s2, admission2) := probes_admit a (b1, s1.2) 40 m in
  let s3 := probes_release s2 in
  admission1 = Probe (mkToken m $"A:turn" 1) /\
  admission2 = Probe (mkToken m $"A:turn" 2) /\
  s2.2 = Some (mkToken m $"A:turn" 1) /\
  s3.2 = None /\ held s3.1 m = Some (mkToken m $"A:turn" 2) /\
  (admit_ s3.1 m 1000000 $"B:turn").2 = Open.
Proof. vm_compute. repeat split. Qed.
