(* ===== verification/EditText.v ===== *)
(** * Text edits (packages/agent/src/harness/tools/edit-diff.ts, edit.ts)

The edit tool replaces texts that must each occur once in a file.  Every edit
is matched against the same content; when some text only matches after
normalisation (quotes, dashes, spaces, trailing blanks) all of them are matched
in the normalised content and the lines they touch are written back over the
original.  Unicode's NFKC is the parameter [nfkc]; nothing here depends on what
it does.  [EditCorrect] has the theorems. *)
From S2P Require Import Prelude JsString.
#[local] Open Scope Z_scope.

(** ** Line endings and the byte-order mark *)

Definition CR : Z := 13.

Inductive LineEnding := CRLF | LF.

Definition detectLineEnding (content : jstring) : LineEnding :=
  match index_of [NEWLINE] content 0, index_of [CR; NEWLINE] content 0 with
  | None, _ => LF
  | Some _, None => LF
  | Some lfIdx, Some crlfIdx => if crlfIdx <? lfIdx then CRLF else LF
  end.

(** [text.replace(/\r\n/g, "\n")] *)
Fixpoint replace_crlf (text : jstring) : jstring :=
  match text with
  | [] => []
  | c :: r =>
      match r with
      | d :: r' => if (c =? CR) && (d =? NEWLINE) then NEWLINE :: replace_crlf r' else c :: replace_crlf r
      | [] => [c]
      end
  end.

Definition normalizeToLF (text : jstring) : jstring :=
  (fun c => if c =? CR then NEWLINE else c) <$> replace_crlf text.

Definition restoreLineEndings (text : jstring) (ending : LineEnding) : jstring :=
  match ending with
  | CRLF => text ≫= fun c => if c =? NEWLINE then [CR; NEWLINE] else [c]
  | LF => text
  end.

Definition BOM : Z := 0xFEFF.

Definition stripBom (content : jstring) : jstring * jstring :=
  if startsWith content [BOM] then ([BOM], drop 1 content) else ([], content).

(** ** Normalisation *)

(** The characters [trimEnd] removes: white space and line terminators. *)
Definition is_space (c : Z) : bool :=
  (9 <=? c) && (c <=? 13) || (c =? 0x20) || (c =? 0xA0) || (c =? 0x1680) || (0x2000 <=? c) && (c <=? 0x200A)
  || (c =? 0x2028) || (c =? 0x2029) || (c =? 0x202F) || (c =? 0x205F) || (c =? 0x3000) || (c =? 0xFEFF).

Fixpoint trimEnd (s : jstring) : jstring :=
  match s with
  | [] => []
  | c :: r => match trimEnd r with [] => if is_space c then [] else [c] | r' => c :: r' end
  end.

(** The four character classes replaced after trimming. *)
Definition plain_char (c : Z) : Z :=
  if (0x2018 <=? c) && (c <=? 0x201B) then 39
  else if (0x201C <=? c) && (c <=? 0x201F) then 34
  else if (0x2010 <=? c) && (c <=? 0x2015) || (c =? 0x2212) then 45
  else if (c =? 0xA0) || (0x2002 <=? c) && (c <=? 0x200A) || (c =? 0x202F) || (c =? 0x205F) || (c =? 0x3000) then 32
  else c.

(** ** Lines and replacements *)

(** [content.match(/[^\n]*\n|[^\n]+/g) ?? []] *)
Fixpoint splitLinesWithEndings (content : jstring) : list jstring :=
  match content with
  | [] => []
  | c :: r =>
      if c =? NEWLINE then [c] :: splitLinesWithEndings r
      else match splitLinesWithEndings r with [] => [[c]] | l :: ls => (c :: l) :: ls end
  end.

Record LineSpan := mkSpan { sp_start : Z; sp_end : Z }.

Fixpoint line_spans (offset : Z) (lines : list jstring) : list LineSpan :=
  match lines with
  | [] => []
  | line :: lines => mkSpan offset (offset + blen line) :: line_spans (offset + blen line) lines
  end.

Definition getLineSpans (content : jstring) : list LineSpan := line_spans 0 (splitLinesWithEndings content).

Record MatchedEdit := mkMatched { editIndex : nat; matchIndex : Z; matchLength : Z; m_newText : jstring }.

(** The errors of the tool, by the function that words them. *)
Inductive EditError :=
| EmptyOldText (editIndex : nat)
| NotFound (editIndex : nat)
| Duplicate (editIndex : nat) (occurrences : Z)
| Overlap (previous current : nat)
| NoChange
| OutsideBase
| LineCountDiffers.

#[export] Instance EditError_eq_dec : EqDecision EditError.
Proof. solve_decision. Defined.

Fixpoint find_start (lines : list LineSpan) (replacementStart : Z) (i : nat) : option nat :=
  match lines with
  | [] => None
  | line :: lines =>
      if (sp_start line <=? replacementStart) && (replacementStart <? sp_end line) then Some i
      else find_start lines replacementStart (S i)
  end.

(** The lines from [endLine] on. *)
Fixpoint find_end (lines : list LineSpan) (replacementEnd : Z) (endLine : nat) : option nat :=
  match lines with
  | [] => None
  | line :: lines => if sp_end line <? replacementEnd then find_end lines replacementEnd (S endLine) else Some endLine
  end.

Definition getReplacementLineRange (lines : list LineSpan) (replacement : MatchedEdit) : result EditError (nat * nat) :=
  let replacementStart := matchIndex replacement in
  let replacementEnd := matchIndex replacement + matchLength replacement in
  match find_start lines replacementStart 0 with
  | None => Err OutsideBase
  | Some startLine =>
      match find_end (drop startLine lines) replacementEnd startLine with
      | None => Err OutsideBase
      | Some endLine => Ok (startLine, S endLine)
      end
  end.

(** From the last replacement to the first. *)
Definition applyReplacements (content : jstring) (replacements : list MatchedEdit) (offset : Z) : jstring :=
  fold_right (fun replacement result =>
    let matchIndex := matchIndex replacement - offset in
    take (Z.to_nat matchIndex) result ++ m_newText replacement
      ++ drop (Z.to_nat (matchIndex + matchLength replacement)) result) content replacements.

Record group := mkGroup { g_start : nat; g_end : nat; g_replacements : list MatchedEdit }.

(** The rest of the loop, with the last group so far. *)
Fixpoint group_loop (lines : list LineSpan) (current : group) (replacements : list MatchedEdit) : result EditError (list group) :=
  match replacements with
  | [] => Ok [current]
  | replacement :: replacements =>
      getReplacementLineRange lines replacement ≫= fun range : nat * nat =>
      if (range.1 <? g_end current)%nat
      then group_loop lines (mkGroup (g_start current) (Nat.max (g_end current) range.2) (g_replacements current ++ [replacement]))
             replacements
      else group_loop lines (mkGroup range.1 range.2 [replacement]) replacements ≫= fun groups => Ok (current :: groups)
  end.

Definition groups_of (lines : list LineSpan) (replacements : list MatchedEdit) : result EditError (list group) :=
  match replacements with
  | [] => Ok []
  | replacement :: replacements =>
      getReplacementLineRange lines replacement ≫= fun range : nat * nat =>
      group_loop lines (mkGroup range.1 range.2 [replacement]) replacements
  end.

Definition span_at (lines : list LineSpan) (i : nat) : LineSpan := nth i lines (mkSpan 0 0).

Definition sub_lines (lines : list jstring) (i j : nat) : jstring := concat (take (j - i) (drop i lines)).

Fixpoint write_groups (originalLines : list jstring) (baseLines : list LineSpan) (baseContent : jstring)
    (groups : list group) (originalLineIndex : nat) : jstring :=
  match groups with
  | [] => concat (drop originalLineIndex originalLines)
  | g :: groups =>
      let groupStartOffset := sp_start (span_at baseLines (g_start g)) in
      let groupEndOffset := sp_end (span_at baseLines (pred (g_end g))) in
      sub_lines originalLines originalLineIndex (g_start g)
      ++ applyReplacements (slice baseContent groupStartOffset groupEndOffset) (g_replacements g) groupStartOffset
      ++ write_groups originalLines baseLines baseContent groups (g_end g)
  end.

(** [sort((a, b) => a.matchIndex - b.matchIndex)], which is stable. *)
Fixpoint insert_match (m : MatchedEdit) (l : list MatchedEdit) : list MatchedEdit :=
  match l with
  | [] => [m]
  | x :: l' => if matchIndex m <? matchIndex x then m :: l else x :: insert_match m l'
  end.

Definition sort_matches (l : list MatchedEdit) : list MatchedEdit := fold_left (fun acc m => insert_match m acc) l [].

Definition applyReplacementsPreservingUnchangedLines (originalContent baseContent : jstring) (replacements : list MatchedEdit) :
    result EditError jstring :=
  let originalLines := splitLinesWithEndings originalContent in
  let baseLines := getLineSpans baseContent in
  if negb (length originalLines =? length baseLines)%nat then Err LineCountDiffers
  else
    groups_of baseLines (sort_matches replacements) ≫= fun groups =>
    Ok (write_groups originalLines baseLines baseContent groups 0).

(** ** Matching *)

Record Edit := mkEdit { oldText : jstring; newText : jstring }.

Record FuzzyMatchResult := mkFound {
  found : bool; fm_index : Z; fm_length : Z; usedFuzzyMatch : bool; contentForReplacement : jstring }.

Section Edits.
Context (nfkc : jstring -> jstring).

Definition normalizeForFuzzyMatch (text : jstring) : jstring :=
  plain_char <$> join_lines (trimEnd <$> split_newline (nfkc text)).

Definition fuzzyFindText (content oldText : jstring) : FuzzyMatchResult :=
  match index_of oldText content 0 with
  | Some exactIndex => mkFound true exactIndex (blen oldText) false content
  | None =>
      let fuzzyContent := normalizeForFuzzyMatch content in
      let fuzzyOldText := normalizeForFuzzyMatch oldText in
      match index_of fuzzyOldText fuzzyContent 0 with
      | None => mkFound false (-1) 0 false content
      | Some fuzzyIndex => mkFound true fuzzyIndex (blen fuzzyOldText) true fuzzyContent
      end
  end.

Definition countOccurrences (content oldText : jstring) : Z :=
  blen (js_split (normalizeForFuzzyMatch oldText) (normalizeForFuzzyMatch content)) - 1.

Definition normalizeEdit (edit : Edit) : Edit := mkEdit (normalizeToLF (oldText edit)) (normalizeToLF (newText edit)).

(** The first edit from index [i] with an empty old text. *)
Fixpoint first_empty (edits : list Edit) (i : nat) : option nat :=
  match edits with
  | [] => None
  | edit :: edits => if bool_decide (oldText edit = []) then Some i else first_empty edits (S i)
  end.

(** One round of the matching loop. *)
Definition match_edit (base : jstring) (i : nat) (edit : Edit) : result EditError MatchedEdit :=
  let matchResult := fuzzyFindText base (oldText edit) in
  if negb (found matchResult) then Err (NotFound i)
  else
    let occurrences := countOccurrences base (oldText edit) in
    if 1 <? occurrences then Err (Duplicate i occurrences)
    else Ok (mkMatched i (fm_index matchResult) (fm_length matchResult) (newText edit)).

Fixpoint match_edits (base : jstring) (i : nat) (edits : list Edit) : result EditError (list MatchedEdit) :=
  match edits with
  | [] => Ok []
  | edit :: edits =>
      match_edit base i edit ≫= fun m => match_edits base (S i) edits ≫= fun ms => Ok (m :: ms)
  end.

Fixpoint check_disjoint (previous : MatchedEdit) (matches : list MatchedEdit) : result EditError unit :=
  match matches with
  | [] => Ok tt
  | current :: matches =>
      if matchIndex current <? matchIndex previous + matchLength previous
      then Err (Overlap (editIndex previous) (editIndex current))
      else check_disjoint current matches
  end.

Definition disjoint_matches (matches : list MatchedEdit) : result EditError unit :=
  match matches with [] => Ok tt | m :: matches => check_disjoint m matches end.

Definition fuzzy_needed (content : jstring) (edits : list Edit) : bool :=
  existsb (fun edit => usedFuzzyMatch (fuzzyFindText content (oldText edit))) edits.

(** The new content; the base content is the argument itself. *)
Definition applyEditsToNormalizedContent (normalizedContent : jstring) (edits : list Edit) : result EditError jstring :=
  let normalizedEdits := normalizeEdit <$> edits in
  match first_empty normalizedEdits 0 with
  | Some i => Err (EmptyOldText i)
  | None =>
      let usedFuzzy := fuzzy_needed normalizedContent normalizedEdits in
      let base := if usedFuzzy then normalizeForFuzzyMatch normalizedContent else normalizedContent in
      match_edits base 0 normalizedEdits ≫= fun matchedEdits =>
      let matchedEdits := sort_matches matchedEdits in
      disjoint_matches matchedEdits ≫= fun _ : unit =>
      (if usedFuzzy then applyReplacementsPreservingUnchangedLines normalizedContent base matchedEdits
       else Ok (applyReplacements base matchedEdits 0)) ≫= fun newContent =>
      if bool_decide (normalizedContent = newContent) then Err NoChange else Ok newContent
  end.

(** What the tool writes for a file it has read. *)
Definition edit_file (raw : jstring) (edits : list Edit) : result EditError jstring :=
  let '(bom, content) := stripBom raw in
  let originalEnding := detectLineEnding content in
  applyEditsToNormalizedContent (normalizeToLF content) edits ≫= fun newContent =>
  Ok (bom ++ restoreLineEndings newContent originalEnding).
End Edits.
