(* ===== verification/EditCorrect.v ===== *)
(** * Text edits do what they say

Exact edits are the simultaneous replacement of the old texts by the new ones,
nothing else changes, and no ambiguous or overlapping edit is carried out; a
fuzzy edit rewrites no line it does not touch; byte-order mark and line endings
survive; and every refusal means what it says. *)
From S2P Require Import Prelude JsString EditText.
From stdpp Require Import sorting.
#[local] Open Scope Z_scope.

(** ** Line endings *)

Lemma replace_crlf_cons c r : c <> CR -> replace_crlf (c :: r) = c :: replace_crlf r.
Proof. intros Hc. unfold CR in *. destruct r as [|d r]; [done|]. cbn [replace_crlf]. by destruct (Z.eqb_spec c CR). Qed.

Lemma replace_crlf_pair r : replace_crlf (CR :: NEWLINE :: r) = NEWLINE :: replace_crlf r.
Proof. done. Qed.

Lemma replace_crlf_plain text : CR ∉ text -> replace_crlf text = text.
Proof.
  induction text as [|c r IH]; intros Hn; [done|]. apply not_elem_of_cons in Hn as [Hc Hr].
  rewrite replace_crlf_cons by congruence. by rewrite IH.
Qed.

Lemma normalize_plain text : CR ∉ text -> normalizeToLF text = text.
Proof.
  intros Hn. unfold normalizeToLF. rewrite replace_crlf_plain by done. clear -Hn.
  induction text as [|c r IH]; [done|]. apply not_elem_of_cons in Hn as [Hc Hr]. cbn. rewrite IH by done.
  unfold CR in *. by destruct (Z.eqb_spec c 13); [congruence|].
Qed.

Lemma replace_crlf_restored text : CR ∉ text -> replace_crlf (restoreLineEndings text CRLF) = text.
Proof.
  cbn [restoreLineEndings]. induction text as [|c r IH]; intros Hn; [done|]. apply not_elem_of_cons in Hn as [Hc Hr].
  cbn [mbind list_bind]. destruct (Z.eqb_spec c NEWLINE) as [->|Hc'].
  - cbn [app]. rewrite replace_crlf_pair. by rewrite IH.
  - cbn [app]. rewrite replace_crlf_cons by congruence. by rewrite IH.
Qed.

Lemma restored_roundtrip text ending : CR ∉ text -> normalizeToLF (restoreLineEndings text ending) = text.
Proof.
  intros Hn. destruct ending; [|by apply normalize_plain]. unfold normalizeToLF. rewrite replace_crlf_restored by done.
  pose proof (normalize_plain text Hn) as H. unfold normalizeToLF in H. by rewrite replace_crlf_plain in H.
Qed.

Lemma index_of_cons head c s pos :
  index_of head (c :: s) pos = if startsWith (c :: s) head then Some pos else index_of head s (pos + 1).
Proof. done. Qed.

Lemma index_of_None head s pos pos' : index_of head s pos = None -> index_of head s pos' = None.
Proof.
  revert pos pos'. induction s as [|c s IH]; intros pos pos'; cbn [index_of]; case_match; try done. apply IH.
Qed.

Lemma detect_LF text : CR ∉ text -> detectLineEnding text = LF.
Proof.
  intros Hn. unfold detectLineEnding. destruct (index_of [NEWLINE] text 0) as [lf|]; [|done].
  pose proof (index_of_spec [CR; NEWLINE] text 0) as H. destruct (index_of [CR; NEWLINE] text 0) as [k|]; [|done].
  destruct H as (i & _ & _ & Ho & _). exfalso. apply Hn. unfold occurs_at in Ho. apply startsWith_spec in Ho as [r Hr].
  rewrite <- (take_drop i text), Hr. apply elem_of_app. right. left.
Qed.

Lemma detect_CRLF text : CR ∉ text -> NEWLINE ∈ text -> detectLineEnding (restoreLineEndings text CRLF) = CRLF.
Proof.
  intros Hn Hin. unfold detectLineEnding. cbn [restoreLineEndings].
  assert (forall pos, exists k, index_of [CR; NEWLINE] (text ≫= fun c => if c =? NEWLINE then [CR; NEWLINE] else [c]) pos = Some k /\
    index_of [NEWLINE] (text ≫= fun c => if c =? NEWLINE then [CR; NEWLINE] else [c]) pos = Some (k + 1)) as H.
  { induction text as [|c r IH]; intros pos; [by apply elem_of_nil in Hin|].
    apply not_elem_of_cons in Hn as [Hc Hr]. cbn [mbind list_bind]. destruct (Z.eqb_spec c NEWLINE) as [->|Hc'].
    - exists pos. split; [done|]. cbn [app]. rewrite index_of_cons. cbn [startsWith]. done.
    - apply elem_of_cons in Hin as [E|Hin]; [congruence|]. cbn [app]. rewrite !index_of_cons.
      assert (forall t, startsWith (c :: t) [NEWLINE] = false /\ startsWith (c :: t) [CR; NEWLINE] = false) as G.
      { intros t. unfold startsWith. rewrite !bool_decide_eq_false. cbn. split; congruence. }
      destruct (G (mbind (fun c => if c =? NEWLINE then [CR; NEWLINE] else [c]) r)) as [-> ->]. by apply IH. }
  destruct (H 0) as (k & -> & ->). by rewrite (proj2 (Z.ltb_lt k (k + 1))) by lia.
Qed.

(** ** Replacements from left to right *)

Definition m_end (m : MatchedEdit) : Z := matchIndex m + matchLength m.

(** The ranges lie between [pos] and [limit], in order and apart. *)
Fixpoint ordered (pos : Z) (ms : list MatchedEdit) (limit : Z) : Prop :=
  match ms with
  | [] => pos <= limit
  | m :: ms => pos <= matchIndex m /\ 0 <= matchLength m /\ ordered (m_end m) ms limit
  end.

Lemma ordered_le pos ms limit : ordered pos ms limit -> pos <= limit.
Proof. revert pos. induction ms as [|m ms IH]; intros pos; cbn; [done|]. intros (? & ? & H%IH). unfold m_end in H. lia. Qed.

(** The content from [pos] on, each range replaced, for content that starts at [offset]. *)
Fixpoint replaced (content : jstring) (offset pos : Z) (ms : list MatchedEdit) : jstring :=
  match ms with
  | [] => drop (Z.to_nat (pos - offset)) content
  | m :: ms => slice content (pos - offset) (matchIndex m - offset) ++ m_newText m ++ replaced content offset (m_end m) ms
  end.

Lemma take_slice {A} (l : list A) i j : 0 <= i <= j -> take (Z.to_nat i) l ++ slice l i j = take (Z.to_nat j) l.
Proof.
  intros H. unfold slice. rewrite <- (take_drop (Z.to_nat i) (take (Z.to_nat j) l)), take_take, skipn_firstn_comm.
  f_equal; [f_equal; lia|f_equal; lia].
Qed.

Lemma slice_then_drop {A} (l : list A) i j : 0 <= i <= j -> slice l i j ++ drop (Z.to_nat j) l = drop (Z.to_nat i) l.
Proof.
  intros H. unfold slice. rewrite <- (take_drop (Z.to_nat (j - i)) (drop (Z.to_nat i) l)) at 2.
  rewrite drop_drop. f_equal. f_equal. lia.
Qed.

Lemma slice_slice {A} (l : list A) i j k : 0 <= i <= j -> j <= k -> slice l i j ++ slice l j k = slice l i k.
Proof.
  intros H Hk. unfold slice. rewrite <- (take_drop (Z.to_nat (j - i)) (take (Z.to_nat (k - i)) (drop (Z.to_nat i) l))).
  rewrite take_take, skipn_firstn_comm, drop_drop. f_equal; [f_equal; lia|]. f_equal; [lia|f_equal; lia].
Qed.

(** A slice of a slice, both counted from the start of the whole. *)
Lemma sub_slice {A} (l : list A) start stop i j :
  0 <= start <= i -> j <= stop -> slice (slice l start stop) (i - start) (j - start) = slice l i j.
Proof.
  intros Hs Hj. unfold slice. rewrite skipn_firstn_comm, drop_drop, take_take. f_equal; [lia|]. f_equal. lia.
Qed.

Lemma drop_slice {A} (l : list A) start stop i :
  0 <= start <= i -> drop (Z.to_nat (i - start)) (slice l start stop) = slice l i stop.
Proof. intros Hs. unfold slice. rewrite skipn_firstn_comm, drop_drop. f_equal; [lia|]. f_equal. lia. Qed.

Lemma applyReplacements_replaced content offset pos ms :
  offset <= pos -> ordered pos ms (offset + blen content) ->
  applyReplacements content ms offset = take (Z.to_nat (pos - offset)) content ++ replaced content offset pos ms.
Proof.
  revert pos. induction ms as [|m ms IH]; intros pos Hp Ho; cbn [applyReplacements foldr replaced].
  { by rewrite take_drop. }
  cbn [ordered] in Ho. destruct Ho as (H1 & H2 & Ho). pose proof (ordered_le _ _ _ Ho) as Hle.
  change (foldr _ content ms) with (applyReplacements content ms offset).
  rewrite (IH (m_end m)) by (done || unfold m_end; lia).
  unfold m_end in *. rewrite take_app_le by (rewrite length_take; unfold blen in *; lia).
  rewrite take_take, Nat.min_l by lia. rewrite drop_app_ge by (rewrite length_take; lia).
  rewrite length_take. replace (_ - _)%nat with 0%nat by (unfold blen in *; lia). rewrite drop_0.
  rewrite <- (take_slice content (pos - offset) (matchIndex m - offset)) by lia. by rewrite <- app_assoc.
Qed.

(** ** Simultaneous replacement *)

(** [gaps] and [texts] in turn, starting and ending with a gap. *)
Fixpoint weave (gaps texts : list jstring) : jstring :=
  match gaps with
  | [] => []
  | g :: gaps => g ++ match texts with [] => weave gaps [] | t :: texts => t ++ weave gaps texts end
  end.

(** What lies between the matches. *)
Fixpoint gaps_of (content : jstring) (pos : Z) (ms : list MatchedEdit) : list jstring :=
  match ms with
  | [] => [drop (Z.to_nat pos) content]
  | m :: ms => slice content pos (matchIndex m) :: gaps_of content (m_end m) ms
  end.

Lemma gaps_of_length content pos ms : length (gaps_of content pos ms) = S (length ms).
Proof. revert pos. induction ms as [|m ms IH]; intros pos; cbn; [done|]. by rewrite IH. Qed.

Lemma weave_replaced content pos ms : replaced content 0 pos ms = weave (gaps_of content pos ms) (m_newText <$> ms).
Proof.
  revert pos. induction ms as [|m ms IH]; intros pos; cbn [replaced gaps_of weave fmap list_fmap].
  - by rewrite Z.sub_0_r, app_nil_r.
  - rewrite !Z.sub_0_r. by rewrite IH.
Qed.

(** The text in a match's range. *)
Definition text_at (content : jstring) (m : MatchedEdit) : jstring := slice content (matchIndex m) (m_end m).

Lemma weave_content content pos ms :
  0 <= pos -> ordered pos ms (blen content) ->
  take (Z.to_nat pos) content ++ weave (gaps_of content pos ms) (text_at content <$> ms) = content.
Proof.
  revert pos. induction ms as [|m ms IH]; intros pos Hp Ho; cbn [gaps_of weave fmap list_fmap ordered] in *.
  - rewrite app_nil_r. apply take_drop.
  - destruct Ho as (H1 & H2 & Ho). unfold text_at at 1. rewrite app_assoc, take_slice by lia.
    rewrite app_assoc, take_slice by (unfold m_end; lia). apply IH; [unfold m_end; lia|done].
Qed.

(** ** Sorting *)

Lemma insert_match_perm m l : insert_match m l ≡ₚ m :: l.
Proof.
  induction l as [|x l IH]; cbn; [done|]. destruct (_ <? _); [done|]. rewrite IH. apply Permutation_swap.
Qed.

Lemma sort_matches_perm l : sort_matches l ≡ₚ l.
Proof.
  unfold sort_matches. assert (forall acc, fold_left (fun acc m => insert_match m acc) l acc ≡ₚ acc ++ l) as H; [|apply (H [])].
  induction l as [|m l IH]; intros acc; cbn; [by rewrite app_nil_r|]. rewrite IH, insert_match_perm.
  by rewrite <- Permutation_middle.
Qed.

Definition before (a b : MatchedEdit) : Prop := matchIndex a <= matchIndex b.

Lemma insert_match_sorted m l : StronglySorted before l -> StronglySorted before (insert_match m l).
Proof.
  induction 1 as [|x l Hl IH Hx]; cbn; [by repeat constructor|]. destruct (Z.ltb_spec (matchIndex m) (matchIndex x)) as [Hm|Hm].
  - constructor; [by constructor|]. constructor; [unfold before; lia|]. rewrite List.Forall_forall in *.
    intros y Hy. specialize (Hx y Hy). unfold before in *. lia.
  - constructor; [done|]. rewrite List.Forall_forall in *. intros y Hy. apply list_elem_of_In in Hy.
    rewrite insert_match_perm in Hy. apply elem_of_cons in Hy as [->|Hy]; [done|]. apply Hx. by apply list_elem_of_In.
Qed.

Lemma sort_matches_sorted l : StronglySorted before (sort_matches l).
Proof.
  unfold sort_matches. assert (forall acc, StronglySorted before acc ->
    StronglySorted before (fold_left (fun acc m => insert_match m acc) l acc)) as H; [|apply H; constructor].
  induction l as [|m l IH]; intros acc Ha; cbn; [done|]. by apply IH, insert_match_sorted.
Qed.

Lemma check_disjoint_ordered (content : jstring) p ms :
  StronglySorted before (p :: ms) -> Forall (fun m => 0 <= matchLength m /\ m_end m <= blen content) (p :: ms) ->
  check_disjoint p ms = Ok tt -> ordered (matchIndex p) (p :: ms) (blen content).
Proof.
  revert p. induction ms as [|m ms IH]; intros p Hs Hf H; apply Forall_cons in Hf as [[H1 H2] Hf].
  - cbn. lia.
  - cbn [check_disjoint] in H. destruct (Z.ltb_spec (matchIndex m) (matchIndex p + matchLength p)) as [|Hd]; [done|].
    inversion Hs as [|? ? Hs' _]; subst. specialize (IH m Hs' Hf H). cbn [ordered] in *. unfold m_end at 1. split_and!; [lia|done|lia|apply IH..].
Qed.

Lemma ordered_weaken pos pos' ms limit : pos' <= pos -> ordered pos ms limit -> ordered pos' ms limit.
Proof. destruct ms; cbn; [lia|]. intros ? (? & ? & ?). split_and!; [lia|done|done]. Qed.

Lemma disjoint_ordered (content : jstring) ms :
  StronglySorted before ms -> Forall (fun m => 0 <= matchIndex m /\ 0 <= matchLength m /\ m_end m <= blen content) ms ->
  disjoint_matches ms = Ok tt -> ordered 0 ms (blen content).
Proof.
  destruct ms as [|p ms]; intros Hs Hf H; [cbn; apply blen_nonneg|].
  apply (ordered_weaken (matchIndex p)); [apply Forall_cons in Hf as [[? _] _]; lia|].
  apply check_disjoint_ordered; [done| |done]. eapply Forall_impl; [done|]. naive_solver.
Qed.

(** ** What a match is *)

Lemma index_of_text head content k :
  index_of head content 0 = Some k -> 0 <= k /\ k + blen head <= blen content /\ slice content k (k + blen head) = head.
Proof.
  intros E. pose proof (index_of_spec head content 0) as H. rewrite E in H. destruct H as (i & -> & Hi & Ho & _).
  unfold occurs_at in Ho. apply startsWith_spec in Ho as [r Hr]. pose proof (f_equal length Hr) as Hl.
  rewrite length_drop, length_app in Hl. unfold slice, blen in *. split_and!; [lia|lia|].
  replace (Z.to_nat (0 + Z.of_nat i)) with i by lia. rewrite Hr.
  replace (Z.to_nat _) with (length head) by lia. apply take_app_length.
Qed.

(** [m] is the match in [base] of an edit whose old text reads [text] there. *)
Definition matches_text (base : jstring) (e : Edit) (text : jstring) (m : MatchedEdit) : Prop :=
  m_newText m = newText e /\ 0 <= matchIndex m /\ matchLength m = blen text /\ m_end m <= blen base /\ text_at base m = text.

Lemma matches_text_intro base e text i k :
  index_of text base 0 = Some k -> matches_text base e text (mkMatched i k (blen text) (newText e)).
Proof. intros (H1 & H2 & H3)%index_of_text. by split_and!. Qed.

Lemma matches_range base e text m :
  matches_text base e text m -> 0 <= matchIndex m /\ 0 <= matchLength m /\ m_end m <= blen base.
Proof. intros (_ & ? & -> & ? & _). pose proof (blen_nonneg text). done. Qed.

(** Sorting the matches sorts the edits with them. *)
Lemma sorted_matches {A} (R : A -> MatchedEdit -> Prop) (l : list A) ms :
  Forall2 R l ms -> exists order, order ≡ₚ l /\ Forall2 R order (sort_matches ms).
Proof.
  intros H%Forall2_flip. destruct (Permutation_Forall2 (symmetry (sort_matches_perm ms)) H) as (order & Hp & Ho).
  exists order. split; [by symmetry|by apply Forall2_flip].
Qed.

(** Replacing disjoint matches is the simultaneous replacement of their texts. *)
Lemma replace_matches base (es : list (Edit * jstring)) ms :
  Forall2 (fun x m => matches_text base x.1 x.2 m) es ms -> StronglySorted before ms -> disjoint_matches ms = Ok tt ->
  ordered 0 ms (blen base) /\
  exists gaps, length gaps = S (length es) /\ base = weave gaps (snd <$> es) /\
    applyReplacements base ms 0 = weave gaps (newText ∘ fst <$> es).
Proof.
  intros Hm Hs Hd. assert (ordered 0 ms (blen base)) as Ho.
  { apply disjoint_ordered; [done| |done]. clear Hs Hd. induction Hm; constructor; [|done]. by eapply matches_range. }
  split; [done|]. exists (gaps_of base 0 ms). split_and!.
  - rewrite gaps_of_length. f_equal. symmetry. by eapply Forall2_length.
  - rewrite <- (weave_content base 0 ms) at 1 by done. change (Z.to_nat 0) with 0%nat. rewrite take_0. cbn [app]. f_equal.
    clear Ho Hs Hd. induction Hm as [|x m es ms Hx Hm IH]; [done|]. rewrite !fmap_cons, IH. f_equal. apply Hx.
  - rewrite (applyReplacements_replaced base 0 0) by (rewrite ?Z.add_0_l; done). change (Z.to_nat (0 - 0)) with 0%nat.
    rewrite take_0, weave_replaced. cbn [app]. f_equal. clear Ho Hs Hd.
    induction Hm as [|x m es ms Hx Hm IH]; [done|]. rewrite !fmap_cons, IH. f_equal. apply Hx.
Qed.

Section Exact.
Context (nfkc : jstring -> jstring).
Notation norm := (normalizeForFuzzyMatch nfkc).

Lemma match_edits_Ok base i es ms :
  match_edits nfkc base i es = Ok ms -> Forall2 (fun e m => exists j, match_edit nfkc base j e = Ok m) es ms.
Proof.
  revert i ms. induction es as [|e es IH]; intros i ms; cbn [match_edits]; [intros [= <-]; constructor|].
  intros (m & Hm & H)%bind_Ok. apply bind_Ok in H as (ms' & H & [= <-]). constructor; [by exists i|by eapply IH].
Qed.


Lemma match_edit_count base i e m : match_edit nfkc base i e = Ok m -> countOccurrences nfkc base (oldText e) <= 1.
Proof.
  unfold match_edit. case_match; [done|]. destruct (Z.ltb_spec 1 (countOccurrences nfkc base (oldText e))); [done|lia].
Qed.

Lemma match_edit_exact base i e m :
  match_edit nfkc base i e = Ok m -> usedFuzzyMatch (fuzzyFindText nfkc base (oldText e)) = false ->
  matches_text base e (oldText e) m.
Proof.
  unfold match_edit, fuzzyFindText. destruct (index_of (oldText e) base 0) as [k|] eqn:E.
  - cbn. case_match; [done|]. intros [= <-] _. by apply matches_text_intro.
  - destruct (index_of (norm _) _ _); [intros _; done|done].
Qed.


Lemma first_empty_None es i : first_empty es i = None <-> Forall (fun e => oldText e <> []) es.
Proof.
  revert i. induction es as [|e es IH]; intros i; cbn [first_empty]; [by repeat constructor|].
  rewrite Forall_cons. case_bool_decide; [split; [done|by intros []]|]. rewrite IH. naive_solver.
Qed.

Lemma fuzzy_needed_false content es :
  fuzzy_needed nfkc content es = false <-> Forall (fun e => usedFuzzyMatch (fuzzyFindText nfkc content (oldText e)) = false) es.
Proof.
  unfold fuzzy_needed. induction es as [|e es IH]; cbn; [by repeat constructor|].
  rewrite orb_false_iff, Forall_cons. by rewrite IH.
Qed.

(** [new] is [content] with every old text of [es] replaced at once. *)
Definition simultaneous (content : jstring) (es : list Edit) (new : jstring) : Prop :=
  exists gaps order, order ≡ₚ es /\ length gaps = S (length order) /\
    content = weave gaps (oldText <$> order) /\ new = weave gaps (newText <$> order).




Lemma fst_paired {A B} (f : A -> B) l : ((fun e => (e, f e)) <$> l).*1 = l.
Proof. induction l as [|x l IH]; cbn; [done|by rewrite IH]. Qed.

Lemma paired_fst {A B} (f : A -> B) l : Forall (fun x => x.2 = f x.1) l -> l = (fun e => (e, f e)) <$> l.*1.
Proof. induction 1 as [|[x y] l Hx _ IH]; cbn in *; [done|]. by rewrite Hx, <- IH. Qed.

Lemma exact_core content es ms :
  fuzzy_needed nfkc content es = false -> match_edits nfkc content 0 es = Ok ms ->
  disjoint_matches (sort_matches ms) = Ok tt ->
  simultaneous content es (applyReplacements content (sort_matches ms) 0).
Proof.
  intros Hf Hms Hd. apply match_edits_Ok in Hms. apply fuzzy_needed_false in Hf.
  assert (Forall2 (fun x m => matches_text content x.1 x.2 m) ((fun e => (e, oldText e)) <$> es) ms) as Hm.
  { rewrite Forall2_fmap_l. clear Hd. induction Hms as [|e m l ms' [j Hj] Hms IH]; [constructor|].
    apply Forall_cons in Hf as [Hf1 Hf]. constructor; [|by apply IH]. by eapply match_edit_exact. }
  destruct (sorted_matches _ _ _ Hm) as (order & Hp & Ho).
  destruct (replace_matches content order _ Ho (sort_matches_sorted ms) Hd) as (_ & gaps & Hl & Hc & Hn).
  assert (order = (fun e => (e, oldText e)) <$> order.*1) as Horder.
  { apply paired_fst. rewrite Hp, Forall_fmap. by apply Forall_true. }
  exists gaps, (order.*1). split_and!; [|by rewrite length_fmap| |].
  - rewrite Hp. by rewrite fst_paired.
  - rewrite Hc at 1. f_equal. rewrite Horder at 1. by rewrite <- list_fmap_compose.
  - rewrite Hn. f_equal. by rewrite <- list_fmap_compose.
Qed.

Lemma match_edits_counts base es ms :
  match_edits nfkc base 0 es = Ok ms -> Forall (fun e => countOccurrences nfkc base (oldText e) <= 1) es.
Proof.
  intros H%match_edits_Ok. induction H as [|e m l ms' [j Hj] Hms IH]; constructor; [by eapply match_edit_count|done].
Qed.









End Exact.

(** ** Rewriting only the lines that are touched *)

Lemma concat_lines s : concat (splitLinesWithEndings s) = s.
Proof.
  induction s as [|c s IH]; cbn [splitLinesWithEndings]; [done|]. destruct (c =? NEWLINE); cbn; [by rewrite IH|].
  destruct (splitLinesWithEndings s); cbn in *; by rewrite <- IH.
Qed.

(** Where line [i] starts. *)
Definition line_start (lines : list jstring) (i : nat) : Z := blen (concat (take i lines)).

Lemma line_start_S lines i l : lines !! i = Some l -> line_start lines (S i) = line_start lines i + blen l.
Proof.
  intros H. unfold line_start. rewrite (take_S_r lines i l H), concat_app, blen_app. cbn. by rewrite app_nil_r.
Qed.

Lemma line_start_mono lines i j : (i <= j)%nat -> line_start lines i <= line_start lines j.
Proof.
  intros H. unfold line_start. rewrite <- (take_drop i (take j lines)), take_take, Nat.min_l by done.
  rewrite concat_app, blen_app. pose proof (blen_nonneg (concat (drop i (take j lines)))). lia.
Qed.

Lemma line_start_all lines i : (length lines <= i)%nat -> line_start lines i = blen (concat lines).
Proof. intros H. unfold line_start. by rewrite take_ge. Qed.

Lemma concat_sub lines i j :
  (i <= j)%nat -> slice (concat lines) (line_start lines i) (line_start lines j) = sub_lines lines i j.
Proof.
  intros H. unfold line_start, sub_lines.
  rewrite <- (take_drop j lines), concat_app at 1. rewrite <- (take_drop i (take j lines)), take_take, Nat.min_l by done.
  rewrite concat_app, blen_app, <- app_assoc, slice_app_r by done. by rewrite skipn_firstn_comm.
Qed.

Lemma drop_lines lines i : drop (Z.to_nat (line_start lines i)) (concat lines) = concat (drop i lines).
Proof.
  unfold line_start, blen. rewrite Nat2Z.id. rewrite <- (take_drop i lines) at 2. by rewrite concat_app, drop_app_length.
Qed.

Lemma line_spans_lookup offset lines i l :
  lines !! i = Some l ->
  line_spans offset lines !! i = Some (mkSpan (offset + line_start lines i) (offset + line_start lines (S i))).
Proof.
  revert offset i. induction lines as [|x lines IH]; intros offset [|i]; try done; cbn [line_spans lookup list_lookup].
  - intros [= ->]. unfold line_start. cbn. rewrite app_nil_r. f_equal. f_equal. change (blen []) with 0. lia.
  - intros H. etransitivity; [exact (IH (offset + blen x) i H)|]. f_equal.
    unfold line_start. cbn [take concat]. rewrite !blen_app. f_equal; lia.
Qed.

Lemma line_spans_length offset lines : length (line_spans offset lines) = length lines.
Proof. revert offset. induction lines as [|x lines IH]; intros; cbn; [done|]. by rewrite IH. Qed.

Lemma span_at_spec lines i :
  (i < length lines)%nat -> span_at (line_spans 0 lines) i = mkSpan (line_start lines i) (line_start lines (S i)).
Proof.
  intros [l Hl]%lookup_lt_is_Some. unfold span_at. apply nth_lookup_Some. by rewrite (line_spans_lookup 0 _ _ _ Hl).
Qed.

(** [m] reaches into the range from [a] to [b]. *)
Definition touches (m : MatchedEdit) (a b : Z) : Prop := matchIndex m < b /\ (a < m_end m \/ a <= matchIndex m).

Lemma find_start_spec spans p i k :
  find_start spans p i = Some k ->
  exists sp, (i <= k)%nat /\ spans !! (k - i)%nat = Some sp /\ sp_start sp <= p < sp_end sp.
Proof.
  revert i. induction spans as [|sp spans IH]; intros i; cbn [find_start]; [done|].
  destruct ((sp_start sp <=? p) && (p <? sp_end sp)) eqn:E.
  - intros [= <-]. exists sp. rewrite Nat.sub_diag. split_and!; [done|done|lia|lia].
  - intros H%IH. destruct H as (sp' & H1 & H2 & H3). exists sp'. split_and!; [lia| |lia|lia].
    replace (k - i)%nat with (S (k - S i)) by lia. done.
Qed.

Lemma find_end_spec spans e i k :
  find_end spans e i = Some k ->
  (i <= k)%nat /\ (exists sp, spans !! (k - i)%nat = Some sp /\ e <= sp_end sp) /\
  forall j sp, (i + j < k)%nat -> spans !! j = Some sp -> sp_end sp < e.
Proof.
  revert i. induction spans as [|sp spans IH]; intros i; cbn [find_end]; [done|].
  destruct (Z.ltb_spec (sp_end sp) e) as [Hlt|Hge].
  - intros H%IH. destruct H as (H1 & (sp' & H2 & H2') & H3). split_and!; [lia| |].
    + exists sp'. replace (k - i)%nat with (S (k - S i)) by lia. done.
    + intros [|j] sp1 Hj; [intros [= <-]; done|]. intros H. apply (H3 j); [lia|done].
  - intros [= <-]. rewrite Nat.sub_diag. split_and!; [done|by exists sp|]. intros j sp1 Hj. lia.
Qed.

(** The lines of a replacement: it lies within them and touches each. *)
Lemma range_spec lines m s e :
  getReplacementLineRange (line_spans 0 lines) m = Ok (s, e) ->
  (s < e <= length lines)%nat /\ line_start lines s <= matchIndex m /\ m_end m <= line_start lines e /\
  forall i, (s <= i < e)%nat -> touches m (line_start lines i) (line_start lines (S i)).
Proof.
  unfold getReplacementLineRange. fold (m_end m).
  destruct (find_start _ _ _) as [k|] eqn:Es; [|done]. apply find_start_spec in Es as (sp & _ & Hs & Hsp).
  rewrite Nat.sub_0_r in Hs. destruct (find_end _ _ _) as [k'|] eqn:Ee; [|done]. intros [= <- <-].
  apply find_end_spec in Ee as (Hle & (sp' & He & Hm) & Hall).
  assert (forall i sp, line_spans 0 lines !! i = Some sp ->
    (i < length lines)%nat /\ sp = mkSpan (line_start lines i) (line_start lines (S i))) as G.
  { intros i x Hx. pose proof (lookup_lt_Some _ _ _ Hx) as Hi. rewrite line_spans_length in Hi. split; [done|].
    destruct (lookup_lt_is_Some_2 lines i Hi) as [l Hl]. rewrite (line_spans_lookup 0 _ _ _ Hl) in Hx. by injection Hx as <-. }
  destruct (G _ _ Hs) as [Hsl ->]. cbn in Hsp. rewrite lookup_drop in He. replace (k + (k' - k))%nat with k' in He by lia.
  destruct (G _ _ He) as [Hel ->]. cbn in Hm. split_and!; [lia|lia|lia|done|].
  intros i Hi. pose proof (line_start_mono lines (S k) (S i)). split; [lia|].
  destruct (decide (i = k)) as [->|Hne]; [right; lia|left].
  destruct (lookup_lt_is_Some_2 (line_spans 0 lines) (pred i)) as [spi Hspi]; [rewrite line_spans_length; lia|].
  assert (sp_end spi < m_end m) as Hlt.
  { apply (Hall (pred i - k)%nat); [lia|]. rewrite lookup_drop. by replace (k + (pred i - k))%nat with (pred i) by lia. }
  destruct (G _ _ Hspi) as [_ ->]. cbn in Hlt. by replace (S (pred i)) with i in Hlt by lia.
Qed.

(** A run of lines of the original and of the base: kept, or rewritten as a text. *)
Record segment := mkSegment { s_text : option jstring; s_original : list jstring; s_base : list jstring }.

Definition seg_result (s : segment) : jstring := default (concat (s_original s)) (s_text s).
Definition seg_plain (s : segment) : jstring := default (concat (s_base s)) (s_text s).

(** From line [n] on, every rewritten line of the base is touched by some replacement. *)
Fixpoint only_touched (lines : list jstring) (ms : list MatchedEdit) (n : nat) (segs : list segment) : Prop :=
  match segs with
  | [] => True
  | s :: segs =>
      length (s_original s) = length (s_base s) /\
      (is_Some (s_text s) -> forall i, (n <= i < n + length (s_base s))%nat ->
         exists m, m ∈ ms /\ touches m (line_start lines i) (line_start lines (S i))) /\
      only_touched lines ms (n + length (s_base s)) segs
  end.

(** [result] is [plain], the base with its replacements made, except that every
    line no replacement touches reads as in the original. *)
Definition overlay (original base : list jstring) (ms : list MatchedEdit) (result plain : jstring) : Prop :=
  exists segs, original = concat (s_original <$> segs) /\ base = concat (s_base <$> segs) /\
    result = concat (seg_result <$> segs) /\ plain = concat (seg_plain <$> segs) /\ only_touched base ms 0 segs.

(** *** Ordered replacements, cut in two *)

Lemma ordered_limit pos ms l1 l2 : l1 <= l2 -> ordered pos ms l1 -> ordered pos ms l2.
Proof. revert pos. induction ms as [|m ms IH]; intros pos Hl; cbn; [lia|]. intros (? & ? & ?). split_and!; auto. Qed.

Lemma ordered_cut pos ms1 m ms2 limit :
  ordered pos (ms1 ++ m :: ms2) limit ->
  ordered pos (ms1 ++ [m]) (m_end m) /\ ordered (matchIndex m) (m :: ms2) limit.
Proof.
  revert pos. induction ms1 as [|m1 ms1 IH]; intros pos; cbn [app ordered].
  - intros (H1 & H2 & H3). split_and!; lia || done.
  - intros (H1 & H2 & H3%IH). destruct H3. done.
Qed.

Lemma replaced_from base p next ms :
  0 <= p <= next -> ordered next ms (blen base) -> replaced base 0 p ms = slice base p next ++ replaced base 0 next ms.
Proof.
  intros Hp Ho. destruct ms as [|m ms]; cbn [replaced ordered] in *; rewrite !Z.sub_0_r; [by rewrite slice_then_drop|].
  by rewrite (app_assoc (slice base p next)), slice_slice by lia.
Qed.

Lemma replaced_cut base start stop next pos ms1 ms2 :
  0 <= start <= pos -> ordered pos ms1 stop -> stop <= next -> ordered next ms2 (blen base) ->
  replaced base 0 pos (ms1 ++ ms2) =
    replaced (slice base start stop) start pos ms1 ++ slice base stop next ++ replaced base 0 next ms2.
Proof.
  intros Hs Ho Hn H2.
  revert pos Hs Ho. induction ms1 as [|m ms1 IH]; intros pos Hs Ho; cbn [app replaced ordered] in *.
  - rewrite (replaced_from base pos next), drop_slice by (done || lia). by rewrite (app_assoc (slice base pos stop)), slice_slice by lia.
  - destruct Ho as (H1 & H3 & Ho). pose proof (ordered_le _ _ _ Ho). unfold m_end in *.
    rewrite (IH (matchIndex m + matchLength m)) by (done || lia). rewrite <- !app_assoc. f_equal.
    by rewrite !Z.sub_0_r, sub_slice by lia.
Qed.

Lemma group_loop_head spans cur rs groups :
  group_loop spans cur rs = Ok groups -> exists g gs, groups = g :: gs /\ g_start g = g_start cur.
Proof.
  revert cur groups. induction rs as [|r rs IH]; intros cur groups; cbn [group_loop]; [intros [= <-]; eauto|].
  intros (range & _ & H)%bind_Ok. destruct (_ <? _)%nat; [by apply IH in H|].
  apply bind_Ok in H as (gs & _ & [= <-]). eauto.
Qed.

Section Overlay.
Context (O B : list jstring) (all : list MatchedEdit) (Hlen : length O = length B).
Notation base := (concat B).
Notation off := (line_start B).

(** The group's lines hold its replacements, and each is touched. *)
Definition covers (g : group) : Prop :=
  (g_start g < g_end g <= length B)%nat /\ ordered (off (g_start g)) (g_replacements g) (off (g_end g)) /\
  Forall (fun m => m ∈ all) (g_replacements g) /\
  forall i, (g_start g <= i < g_end g)%nat -> exists m, m ∈ all /\ touches m (off i) (off (S i)).

(** From line [n] on, what is written and what plain replacement gives. *)
Definition overlay_from (n : nat) (result plain : jstring) : Prop :=
  exists segs, drop n O = concat (s_original <$> segs) /\ drop n B = concat (s_base <$> segs) /\
    result = concat (seg_result <$> segs) /\ plain = concat (seg_plain <$> segs) /\ only_touched B all n segs.

Lemma drop_split {A} (l : list A) i j : (i <= j)%nat -> drop i l = take (j - i) (drop i l) ++ drop j l.
Proof. intros H. rewrite <- (take_drop (j - i) (drop i l)) at 1. rewrite drop_drop. f_equal. f_equal. lia. Qed.

Lemma overlay_done n : overlay_from n (concat (drop n O)) (concat (drop n B)).
Proof.
  exists [mkSegment None (drop n O) (drop n B)]. cbn. rewrite !app_nil_r. split_and!; try done.
  rewrite !length_drop. lia.
Qed.

Lemma overlay_keep i j result plain :
  (i <= j <= length B)%nat -> overlay_from j result plain ->
  overlay_from i (sub_lines O i j ++ result) (sub_lines B i j ++ plain).
Proof.
  intros Hij (segs & H1 & H2 & -> & -> & Ht).
  exists (mkSegment None (take (j - i) (drop i O)) (take (j - i) (drop i B)) :: segs). cbn. rewrite <- H1, <- H2.
  rewrite !length_take, !length_drop. replace (i + _)%nat with j by lia.
  split_and!; [apply drop_split; lia|apply drop_split; lia|done|done|lia|by intros []|done].
Qed.

Lemma overlay_rewrite g txt result plain :
  covers g -> overlay_from (g_end g) result plain -> overlay_from (g_start g) (txt ++ result) (txt ++ plain).
Proof.
  intros (Hg & _ & _ & Hall) (segs & H1 & H2 & -> & -> & Ht). set (i := g_start g) in *. set (j := g_end g) in *.
  exists (mkSegment (Some txt) (take (j - i) (drop i O)) (take (j - i) (drop i B)) :: segs). cbn. rewrite <- H1, <- H2.
  rewrite !length_take, !length_drop. replace (i + _)%nat with j by lia.
  split_and!; [apply drop_split; lia|apply drop_split; lia|done|done|lia| |done]. intros _. exact Hall.
Qed.

Lemma off_le i j : (i <= j)%nat -> 0 <= off i <= off j.
Proof. intros H. split; [apply blen_nonneg|by apply line_start_mono]. Qed.

(** What one group writes is its lines with their replacements made. *)
Lemma group_text g :
  covers g ->
  applyReplacements (slice base (sp_start (span_at (line_spans 0 B) (g_start g))) (sp_end (span_at (line_spans 0 B) (pred (g_end g)))))
    (g_replacements g) (sp_start (span_at (line_spans 0 B) (g_start g))) =
  replaced (slice base (off (g_start g)) (off (g_end g))) (off (g_start g)) (off (g_start g)) (g_replacements g).
Proof.
  intros (Hg & Ho & _). rewrite !span_at_spec by lia. cbn [sp_start sp_end]. replace (S (pred (g_end g))) with (g_end g) by lia.
  pose proof (off_le (g_start g) (g_end g) ltac:(lia)). pose proof (off_le (g_end g) (length B) ltac:(lia)) as Hb.
  rewrite (line_start_all B (length B)) in Hb by done.
  rewrite (applyReplacements_replaced _ _ (off (g_start g))); [|lia|].
  - rewrite Z.sub_diag. change (Z.to_nat 0) with 0%nat. by rewrite take_0.
  - replace (off (g_start g) + _) with (off (g_end g)); [done|].
    replace (off (g_end g)) with (off (g_start g) + (off (g_end g) - off (g_start g))) at 2 by lia.
    rewrite blen_slice; lia.
Qed.

(** A replacement and its lines are a group. *)
Lemma range_covers r s e :
  r ∈ all -> (s < e <= length B)%nat -> off s <= matchIndex r -> 0 <= matchLength r -> m_end r <= off e ->
  (forall i, (s <= i < e)%nat -> touches r (off i) (off (S i))) -> covers (mkGroup s e [r]).
Proof.
  intros Hin Hse Hs Hl He Ht. unfold covers; cbn. split_and!; try (done || lia); [by constructor|]. intros i Hi. exists r. auto.
Qed.

Lemma write_groups_from g gs n :
  write_groups O (line_spans 0 B) base (g :: gs) n =
  sub_lines O n (g_start g) ++ write_groups O (line_spans 0 B) base (g :: gs) (g_start g).
Proof. cbn [write_groups]. unfold sub_lines at 3. rewrite Nat.sub_diag, take_0. done. Qed.

(** Writing one group, and plain replacement up to the line after it. *)
Lemma group_step g ms gs result n :
  covers g -> (g_end g <= n <= length B)%nat -> ordered (off n) ms (blen base) ->
  write_groups O (line_spans 0 B) base gs (g_end g) = sub_lines O (g_end g) n ++ result ->
  overlay_from n result (replaced base 0 (off n) ms) ->
  overlay_from (g_start g) (write_groups O (line_spans 0 B) base (g :: gs) (g_start g))
    (replaced base 0 (off (g_start g)) (g_replacements g ++ ms)).
Proof.
  intros Hc Hn Hms Hw H. pose proof Hc as (Hg & Ho & _). cbn [write_groups]. unfold sub_lines at 1.
  rewrite Nat.sub_diag, take_0. cbn [concat app]. rewrite group_text by done.
  pose proof (off_le (g_start g) (g_end g) ltac:(lia)). pose proof (off_le (g_end g) n ltac:(lia)).
  rewrite (replaced_cut base (off (g_start g)) (off (g_end g)) (off n)) by (done || lia).
  rewrite (concat_sub B (g_end g) n) by lia. rewrite Hw. eapply overlay_rewrite; [done|]. apply overlay_keep; [lia|exact H].
Qed.

Lemma group_loop_overlay cur rs groups :
  group_loop (line_spans 0 B) cur rs = Ok groups -> covers cur -> Forall (fun m => m ∈ all) rs ->
  ordered (off (g_start cur)) (g_replacements cur ++ rs) (blen base) ->
  overlay_from (g_start cur) (write_groups O (line_spans 0 B) base groups (g_start cur))
    (replaced base 0 (off (g_start cur)) (g_replacements cur ++ rs)).
Proof.
  revert cur groups. induction rs as [|r rs IH]; intros cur groups; cbn [group_loop].
  - intros [= <-] Hc _ _. pose proof Hc as (Hg & _).
    apply (group_step cur [] [] (concat (drop (g_end cur) O)) (g_end cur)); [done|lia| | |].
    + cbn. rewrite <- (line_start_all B (length B)) by done. apply off_le. lia.
    + cbn. unfold sub_lines. by rewrite Nat.sub_diag, take_0.
    + cbn [replaced]. rewrite Z.sub_0_r, drop_lines. apply overlay_done.
  - intros ([s e] & Hr & H)%bind_Ok Hc Hall Ho. apply range_spec in Hr as (Hse & Hs & He & Ht).
    apply Forall_cons in Hall as [Hin Hall]. destruct (ordered_cut _ _ _ _ _ Ho) as [Ho1 Ho2]. cbn [fst snd] in H.
    assert (0 <= matchLength r) by apply Ho2.
    pose proof Hc as (Hg & Hoc & Hac & Htc). destruct (Nat.ltb_spec s (g_end cur)) as [Hlt|Hge].
    + apply IH in H; cbn [g_start g_end g_replacements] in *; [by rewrite <- app_assoc in H| |done|by rewrite <- app_assoc].
      pose proof (off_le e (Nat.max (g_end cur) e) ltac:(lia)).
      split_and!; cbn [g_start g_end g_replacements]; [lia|lia| | |].
      * eapply ordered_limit; [|exact Ho1]. lia.
      * apply Forall_app. by split; [|constructor].
      * intros i Hi. destruct (decide (i < g_end cur)%nat); [apply Htc; lia|]. exists r. split; [done|]. apply Ht. lia.
    + apply bind_Ok in H as (gs & H & [= <-]). pose proof (group_loop_head _ _ _ _ H) as (g & gs' & -> & Hgs). cbn in Hgs.
      apply IH in H; cbn [g_start g_end g_replacements app] in *; [|by apply range_covers|done|by eapply ordered_weaken].
      eapply group_step; [done| |by eapply ordered_weaken|rewrite write_groups_from, Hgs; reflexivity|exact H]. lia.
Qed.

Lemma groups_overlay ms groups :
  groups_of (line_spans 0 B) ms = Ok groups -> Forall (fun m => m ∈ all) ms -> ordered 0 ms (blen base) ->
  overlay_from 0 (write_groups O (line_spans 0 B) base groups 0) (replaced base 0 0 ms).
Proof.
  destruct ms as [|r rs]; cbn [groups_of].
  - intros [= <-] _ _. cbn [write_groups replaced]. rewrite Z.sub_0_r. apply overlay_done.
  - intros ([s e] & Hr & H)%bind_Ok [Hin Hall]%Forall_cons Ho. apply range_spec in Hr as (Hse & Hs & He & Ht).
    cbn [fst snd] in H. pose proof (group_loop_head _ _ _ _ H) as (g & gs' & -> & Hgs). cbn in Hgs.
    assert (0 <= matchLength r) by apply Ho.
    assert (ordered (off s) (r :: rs) (blen base)) as Hos.
    { cbn in Ho |- *. split; [done|]. apply Ho. }
    apply group_loop_overlay in H; cbn [g_start g_replacements app] in *; [|by apply range_covers|done|done].
    rewrite write_groups_from, Hgs.
    pose proof (off_le 0 s ltac:(lia)).
    rewrite (replaced_from base 0 (off s)) by (done || lia). change 0 with (off 0) at 2. rewrite (concat_sub B 0 s) by lia.
    apply overlay_keep; [lia|exact H].
Qed.
End Overlay.

Lemma sort_matches_id ms : StronglySorted before ms -> sort_matches ms = ms.
Proof.
  unfold sort_matches. assert (forall acc, StronglySorted before (acc ++ ms) ->
    fold_left (fun acc m => insert_match m acc) ms acc = acc ++ ms) as H; [|apply (H [])].
  induction ms as [|m ms IH]; intros acc Hs; cbn; [by rewrite app_nil_r|].
  assert (insert_match m acc = acc ++ [m]) as ->.
  { assert (Forall (fun x => before x m) acc) as Hf.
    { clear IH. induction acc as [|x acc IHa]; [constructor|]. inversion Hs as [|? ? Hs' Hf]; subst. constructor; [|by apply IHa].
      rewrite List.Forall_forall in Hf. apply Hf. apply in_or_app. right. by left. }
    clear Hs IH. induction Hf as [|x acc Hx Hf IHa]; cbn; [done|]. unfold before in Hx.
    rewrite (proj2 (Z.ltb_ge _ _)) by done. by rewrite IHa. }
  rewrite IH; rewrite <- app_assoc; done.
Qed.

Lemma preserving_overlay original base ms new :
  StronglySorted before ms -> ordered 0 ms (blen base) ->
  applyReplacementsPreservingUnchangedLines original base ms = Ok new ->
  overlay (splitLinesWithEndings original) (splitLinesWithEndings base) ms new (applyReplacements base ms 0).
Proof.
  intros Hs Ho. unfold applyReplacementsPreservingUnchangedLines, getLineSpans. rewrite line_spans_length, sort_matches_id by done.
  destruct (Nat.eqb_spec (length (splitLinesWithEndings original)) (length (splitLinesWithEndings base))) as [Hl|]; [|done].
  cbn [negb]. intros (groups & Hg & [= <-])%bind_Ok.
  rewrite (applyReplacements_replaced base 0 0) by (rewrite ?Z.add_0_l; done). change (Z.to_nat (0 - 0)) with 0%nat.
  rewrite take_0. cbn [app].
  pose proof (groups_overlay (splitLinesWithEndings original) (splitLinesWithEndings base) ms Hl ms groups Hg) as H.
  rewrite concat_lines in H. apply H; [by apply Forall_forall|done].
Qed.

(** ** Normalisation *)

Lemma trimEnd_last s : match last (trimEnd s) with Some c => is_space c = false | None => trimEnd s = [] end.
Proof.
  induction s as [|c s IH]; [done|]. cbn [trimEnd]. destruct (trimEnd s) as [|d t] eqn:E.
  - destruct (is_space c) eqn:Ec; [done|]. cbn. exact Ec.
  - rewrite last_cons_cons. destruct (last (d :: t)) eqn:El; [exact IH|]. by apply last_None in El.
Qed.

Lemma trimEnd_id s : match last s with Some c => is_space c = false | None => True end -> trimEnd s = s.
Proof.
  induction s as [|c s IH]; [done|]. destruct s as [|d t].
  - cbn. by intros ->.
  - rewrite last_cons_cons. intros H. change (trimEnd (c :: d :: t)) with
      (match trimEnd (d :: t) with [] => if is_space c then [] else [c] | r' => c :: r' end). by rewrite IH.
Qed.

Lemma plain_char_cases c : plain_char c = c \/ is_space (plain_char c) = false \/ is_space c = true /\ plain_char c = 32.
Proof. unfold plain_char. repeat case_match; auto; right; right; unfold is_space; lia. Qed.

Lemma plain_char_idem c : plain_char (plain_char c) = plain_char c.
Proof. unfold plain_char. repeat case_match; lia. Qed.

Lemma plain_char_newline c : plain_char c = NEWLINE <-> c = NEWLINE.
Proof. unfold plain_char, NEWLINE. repeat case_match; lia. Qed.

Lemma split_newline_map (f : Z -> Z) (s : jstring) :
  (forall c, f c = NEWLINE <-> c = NEWLINE) -> split_newline (f <$> s) = (fun l : jstring => f <$> l) <$> split_newline s.
Proof.
  intros Hf. induction s as [|c s IH]; [done|]. cbn [fmap list_fmap split_newline]. fold (f <$> s). rewrite IH.
  destruct (Z.eqb_spec c NEWLINE) as [->|Hc].
  - rewrite (proj2 (Hf NEWLINE) eq_refl). done.
  - destruct (Z.eqb_spec (f c) NEWLINE) as [E|_]; [by apply (proj1 (Hf c)) in E|]. by destruct (split_newline s).
Qed.

Lemma trimEnd_plain l : trimEnd (plain_char <$> trimEnd l) = plain_char <$> trimEnd l.
Proof.
  apply trimEnd_id. rewrite fmap_last. pose proof (trimEnd_last l) as H. destruct (last (trimEnd l)) as [c|]; [|done]. cbn.
  destruct (plain_char_cases c) as [->|[?|[? _]]]; [done|done|congruence].
Qed.

(** Splitting lines that hold no newline. *)
Lemma split_join ls : ls <> [] -> Forall (fun l => NEWLINE ∉ l) ls -> split_newline (join_lines ls) = ls.
Proof.
  intros Hne H. induction H as [|l ls Hl H IH]; [done|]. clear Hne.
  assert (forall t, split_newline (l ++ NEWLINE :: t) = l :: split_newline t /\ (t = [] -> split_newline l = [l])) as G.
  { clear -Hl. induction l as [|c l IH]; intros t; [done|]. apply not_elem_of_cons in Hl as [Hc Hl].
    cbn [app split_newline]. destruct (IH Hl t) as [H1 H2]. rewrite (proj2 (Z.eqb_neq c NEWLINE)) by congruence.
    rewrite H1. split; [done|]. intros ->. by rewrite H2. }
  destruct ls as [|l' ls]; [by apply (G [])|]. rewrite join_cons by done. destruct (G (join_lines (l' :: ls))) as [-> _].
  by rewrite IH.
Qed.

Lemma split_no_newline s : Forall (fun l => NEWLINE ∉ l) (split_newline s).
Proof.
  induction s as [|c s IH]; cbn [split_newline]; [constructor; [apply not_elem_of_nil|constructor]|].
  destruct (Z.eqb_spec c NEWLINE) as [->|Hc]; [constructor; [apply not_elem_of_nil|done]|].
  destruct IH as [|l ls Hl H]; constructor; try done; apply not_elem_of_cons; by split; [congruence|try apply not_elem_of_nil].
Qed.

Lemma trimEnd_prefix l : exists r, l = trimEnd l ++ r.
Proof.
  induction l as [|c l [r Hr]]; [by exists []|]. cbn [trimEnd]. destruct (trimEnd l) as [|d t].
  - destruct (is_space c); [by exists (c :: l)|]. by exists l.
  - exists r. cbn. by rewrite Hr at 1.
Qed.

(** What [normalizeForFuzzyMatch] does after NFKC. *)
Definition clean (text : jstring) : jstring := plain_char <$> join_lines (trimEnd <$> split_newline text).

Lemma split_clean text : split_newline (clean text) = (fun l => plain_char <$> trimEnd l) <$> split_newline text.
Proof.
  unfold clean. rewrite split_newline_map by apply plain_char_newline. rewrite split_join.
  - by rewrite <- list_fmap_compose.
  - intros H. apply (split_not_nil text). by apply fmap_nil_inv in H.
  - apply Forall_fmap. eapply Forall_impl; [apply split_no_newline|]. intros l Hl. destruct (trimEnd_prefix l) as [r Hr].
    cbn. intros Hin. apply Hl. rewrite Hr. apply elem_of_app. by left.
Qed.

Lemma join_lines_map (f : Z -> Z) ls :
  f NEWLINE = NEWLINE -> f <$> join_lines ls = join_lines ((fun l : jstring => f <$> l) <$> ls).
Proof.
  intros Hf. induction ls as [|l [|l' ls] IH]; [done|done|]. rewrite fmap_cons, !join_cons by done.
  rewrite fmap_app, fmap_cons, Hf. by rewrite IH.
Qed.

Lemma clean_idem text : clean (clean text) = clean text.
Proof.
  unfold clean at 1. rewrite split_clean, <- list_fmap_compose.
  rewrite (list_fmap_ext _ (fun l => plain_char <$> trimEnd l)) by (intros i l _; apply trimEnd_plain).
  unfold clean. rewrite !join_lines_map, <- !list_fmap_compose by done. f_equal.
  apply list_fmap_ext. intros i l _. cbn. rewrite <- list_fmap_compose. apply list_fmap_ext.
  intros j c _. apply plain_char_idem.
Qed.

Section Fuzzy.
Context (nfkc : jstring -> jstring).
Notation norm := (normalizeForFuzzyMatch nfkc).

(** Unicode: cleaning normalised text up leaves it normalised. *)
Definition nfkc_stable : Prop := forall s, nfkc (clean (nfkc s)) = clean (nfkc s).

Lemma norm_idem s : nfkc_stable -> norm (norm s) = norm s.
Proof. intros H. change (clean (nfkc (clean (nfkc s))) = clean (nfkc s)). by rewrite H, clean_idem. Qed.

Lemma match_edit_fuzzy base i e m :
  norm base = base -> match_edit nfkc base i e = Ok m ->
  exists text, (text = oldText e \/ text = norm (oldText e)) /\ matches_text base e text m /\ editIndex m = i.
Proof.
  intros Hb. unfold match_edit, fuzzyFindText. rewrite Hb. destruct (index_of (oldText e) base 0) as [k|] eqn:E.
  - cbn. case_match; [done|]. intros [= <-]. exists (oldText e). split_and!; [by left|by apply matches_text_intro|done].
  - destruct (index_of (norm (oldText e)) base 0) as [k|] eqn:E'; [|done]. cbn. case_match; [done|]. intros [= <-].
    exists (norm (oldText e)). split_and!; [by right|by apply matches_text_intro|done].
Qed.

(** [new] is what replacing the matched texts in the normalised content gives,
    laid over the original lines. *)
Definition fuzzy_replacement (content : jstring) (es : list Edit) (new : jstring) : Prop :=
  exists gaps (order : list (Edit * jstring)) ms,
    order.*1 ≡ₚ es /\ length gaps = S (length order) /\
    Forall (fun x => x.2 = oldText x.1 \/ x.2 = norm (oldText x.1)) order /\
    norm content = weave gaps (snd <$> order) /\
    Forall2 (fun x m => matches_text (norm content) x.1 x.2 m) order ms /\
    overlay (splitLinesWithEndings content) (splitLinesWithEndings (norm content)) ms new
      (weave gaps (newText ∘ fst <$> order)).

Lemma fuzzy_core content es ms new :
  nfkc_stable -> match_edits nfkc (norm content) 0 es = Ok ms -> disjoint_matches (sort_matches ms) = Ok tt ->
  applyReplacementsPreservingUnchangedLines content (norm content) (sort_matches ms) = Ok new ->
  fuzzy_replacement content es new.
Proof.
  intros Hn Hms Hd Hw. apply match_edits_Ok in Hms. pose proof (norm_idem content Hn) as Hb.
  assert (exists texts, texts.*1 = es /\ Forall (fun x => x.2 = oldText x.1 \/ x.2 = norm (oldText x.1)) texts /\
    Forall2 (fun x m => matches_text (norm content) x.1 x.2 m) texts ms) as (texts & Ht & Htx & Hm).
  { clear -Hms Hb. induction Hms as [|e m l ms' [j Hj] Hms (texts & <- & H1 & H2)]; [by exists []|].
    apply match_edit_fuzzy in Hj as (t & Hor & Hmt & _); [|done].
    exists ((e, t) :: texts). split_and!; [done|by constructor|by constructor]. }
  destruct (sorted_matches _ _ _ Hm) as (order & Hp & Ho). pose proof (sort_matches_sorted ms) as Hs.
  destruct (replace_matches _ order _ Ho Hs Hd) as (Hord & gaps & Hl & Hc & Hr).
  exists gaps, order, (sort_matches ms). split_and!; [by rewrite Hp, Ht|done|by rewrite Hp|done|done|].
  rewrite <- Hr. by apply preserving_overlay.
Qed.

Lemma fuzzy_sound content edits new :
  nfkc_stable -> fuzzy_needed nfkc content (normalizeEdit <$> edits) = true ->
  applyEditsToNormalizedContent nfkc content edits = Ok new ->
  fuzzy_replacement content (normalizeEdit <$> edits) new /\ new <> content /\
  Forall (fun e => oldText e <> [] /\ countOccurrences nfkc (norm content) (oldText e) <= 1) (normalizeEdit <$> edits).
Proof.
  intros Hn Hf. unfold applyEditsToNormalizedContent. rewrite Hf.
  destruct (first_empty _ 0) eqn:He; [done|]. apply first_empty_None in He.
  intros (ms & Hms & H)%bind_Ok. apply bind_Ok in H as ([] & Hd & H). apply bind_Ok in H as (new' & Hw & H).
  case_bool_decide as Hne; [done|]. injection H as ->. split_and!; [by eapply fuzzy_core|congruence|].
  apply Forall_and. split; [done|by eapply match_edits_counts].
Qed.

(** *** Byte-order mark and line endings *)

Lemma restored_head content ending : startsWith content [BOM] = false -> startsWith (restoreLineEndings content ending) [BOM] = false.
Proof.
  destruct ending; [|done]. unfold startsWith. rewrite !bool_decide_eq_false. destruct content as [|c r]; [done|]. cbn.
  intros H. destruct (c =? NEWLINE); cbn; [done|]. exact H.
Qed.

Lemma edit_file_restored bom content ending edits :
  bom = [BOM] \/ bom = [] /\ startsWith content [BOM] = false ->
  CR ∉ content -> (ending = CRLF -> NEWLINE ∈ content) ->
  edit_file nfkc (bom ++ restoreLineEndings content ending) edits =
  (fun new => bom ++ restoreLineEndings new ending) <$> applyEditsToNormalizedContent nfkc content edits.
Proof.
  intros Hbom Hcr Hnl. unfold edit_file.
  assert (stripBom (bom ++ restoreLineEndings content ending) = (bom, restoreLineEndings content ending)) as ->.
  { unfold stripBom. destruct Hbom as [->|[-> Hs]]; [done|]. cbn [app]. by rewrite restored_head. }
  rewrite restored_roundtrip by done.
  assert (detectLineEnding (restoreLineEndings content ending) = ending) as ->.
  { destruct ending; [by apply detect_CRLF, Hnl|by apply detect_LF]. }
  by destruct (applyEditsToNormalizedContent nfkc content edits).
Qed.

(** *** Refusals *)

Lemma bind_Err {E A B} (f : A -> result E B) r e :
  r ≫= f = Err e -> r = Err e \/ exists a, r = Ok a /\ f a = Err e.
Proof. destruct r; cbn; [eauto|]. intros [= ->]. by left. Qed.

Lemma match_edits_Err base i es x :
  match_edits nfkc base i es = Err x -> exists k e, es !! k = Some e /\ match_edit nfkc base (i + k) e = Err x.
Proof.
  revert i. induction es as [|e es IH]; intros i; cbn [match_edits]; [done|].
  intros [H|(m & _ & [H|(ms & _ & H)]%bind_Err)]%bind_Err; [exists 0%nat, e; by rewrite Nat.add_0_r| |done].
  apply IH in H as (k & e' & Hk & He). exists (S k), e'. by rewrite Nat.add_succ_r.
Qed.

Lemma match_edits_lookup base i es ms k m :
  match_edits nfkc base i es = Ok ms -> ms !! k = Some m ->
  exists e, es !! k = Some e /\ match_edit nfkc base (i + k) e = Ok m.
Proof.
  revert i ms k. induction es as [|e es IH]; intros i ms k; cbn [match_edits]; [by intros [= <-]|].
  intros (m' & Hm & H)%bind_Ok. apply bind_Ok in H as (ms' & H & [= <-]). destruct k as [|k]; cbn.
  - intros [= <-]. exists e. by rewrite Nat.add_0_r.
  - intros Hk. destruct (IH _ _ _ H Hk) as (e' & He & Hm'). exists e'. by rewrite Nat.add_succ_r.
Qed.

Lemma check_disjoint_Err p ms x :
  StronglySorted before (p :: ms) -> check_disjoint p ms = Err x ->
  exists a b, a ∈ p :: ms /\ b ∈ p :: ms /\ x = Overlap (editIndex a) (editIndex b) /\ matchIndex a <= matchIndex b < m_end a.
Proof.
  revert p. induction ms as [|m ms IH]; intros p Hs; cbn [check_disjoint]; [done|]. inversion Hs as [|? ? Hs' Hf]; subst.
  destruct (Z.ltb_spec (matchIndex m) (matchIndex p + matchLength p)) as [Hlt|].
  - intros [= <-]. exists p, m. inversion Hf; subst. split_and!; [left|right; left|done|done|done].
  - intros Hx. apply IH in Hx as (a & b & Ha & Hb & ? & ?); [|done]. exists a, b. split_and!; [by right|by right|done|lia|lia].
Qed.

Lemma find_start_total offset lines p i :
  offset <= p < offset + blen (concat lines) -> is_Some (find_start (line_spans offset lines) p i).
Proof.
  revert offset i. induction lines as [|l lines IH]; intros offset i; cbn [concat line_spans find_start].
  - rewrite (blen_nil (A := Z)). lia.
  - rewrite blen_app. intros Hp. destruct ((_ <=? _) && _) eqn:E; [done|]. apply IH. cbn in E. lia.
Qed.

Lemma find_end_total spans e i sp : sp ∈ spans -> e <= sp_end sp -> is_Some (find_end spans e i).
Proof.
  intros Hin He. revert i. induction spans as [|x spans IH]; intros i; [by apply elem_of_nil in Hin|]. cbn [find_end].
  apply elem_of_cons in Hin as [<-|Hin]; [by rewrite (proj2 (Z.ltb_ge _ _))|]. case_match; [by apply IH|done].
Qed.

Lemma range_total lines m :
  0 <= matchIndex m -> 0 < matchLength m -> m_end m <= blen (concat lines) ->
  exists range, getReplacementLineRange (line_spans 0 lines) m = Ok range.
Proof.
  intros H1 H2 H3. unfold getReplacementLineRange. fold (m_end m). unfold m_end in *.
  destruct (find_start_total 0 lines (matchIndex m) 0) as [k Hk]; [lia|]. rewrite Hk.
  apply find_start_spec in Hk as (sp & _ & Hk & Hsp). rewrite Nat.sub_0_r in Hk.
  pose proof (lookup_lt_Some _ _ _ Hk) as Hlt. rewrite line_spans_length in Hlt.
  destruct (lookup_lt_is_Some_2 lines (pred (length lines))) as [l Hl]; [lia|].
  pose proof (line_spans_lookup 0 _ _ _ Hl) as Hlast. replace (S (pred (length lines))) with (length lines) in Hlast by lia.
  rewrite (line_start_all lines (length lines)) in Hlast by done.
  assert (mkSpan (0 + line_start lines (pred (length lines))) (0 + blen (concat lines)) ∈ drop k (line_spans 0 lines)) as Hin.
  { apply list_elem_of_lookup. exists (pred (length lines) - k)%nat. rewrite lookup_drop.
    by replace (k + (pred (length lines) - k))%nat with (pred (length lines)) by lia. }
  destruct (find_end_total _ (matchIndex m + matchLength m) k _ Hin) as [k' Hk']; [cbn; lia|]. rewrite Hk'. by eexists.
Qed.

Lemma group_loop_Err spans cur rs x :
  group_loop spans cur rs = Err x -> exists r, r ∈ rs /\ getReplacementLineRange spans r = Err x.
Proof.
  revert cur. induction rs as [|r rs IH]; intros cur; cbn [group_loop]; [done|].
  intros [H|(range & _ & H)]%bind_Err; [exists r; split; [left|done]|].
  assert (exists c, group_loop spans c rs = Err x) as [c Hc].
  { destruct (_ <? _)%nat; [by eexists|]. apply bind_Err in H as [H|(gs & _ & H)]; [by eexists|done]. }
  destruct (IH c Hc) as (r' & ? & ?). exists r'. split; [by right|done].
Qed.

Lemma groups_of_Err spans ms x :
  groups_of spans ms = Err x -> exists r, r ∈ ms /\ getReplacementLineRange spans r = Err x.
Proof.
  destruct ms as [|r rs]; cbn [groups_of]; [done|].
  intros [H|(range & _ & H)]%bind_Err; [exists r; split; [left|done]|].
  apply group_loop_Err in H as (r' & ? & ?). exists r'. split; [by right|done].
Qed.

Lemma range_Err spans r x : getReplacementLineRange spans r = Err x -> x = OutsideBase.
Proof. unfold getReplacementLineRange. repeat case_match; congruence. Qed.

(** The content edits are matched against. *)
Definition match_base (content : jstring) (es : list Edit) : jstring :=
  if fuzzy_needed nfkc content es then norm content else content.

(** What a refusal says of the content and the edits. *)
Definition refusal (content : jstring) (es : list Edit) (x : EditError) : Prop :=
  let base := match_base content es in
  match x with
  | EmptyOldText i => exists e, es !! i = Some e /\ oldText e = []
  | NotFound i => exists e, es !! i = Some e /\
      index_of (oldText e) base 0 = None /\ index_of (norm (oldText e)) (norm base) 0 = None
  | Duplicate i n => exists e, es !! i = Some e /\ n = countOccurrences nfkc base (oldText e) /\
      (norm (oldText e) = [] \/ two_apart (norm (oldText e)) (norm base))
  | Overlap i j => exists ei ej ti tj mi mj, es !! i = Some ei /\ es !! j = Some ej /\
      matches_text base ei ti mi /\ matches_text base ej tj mj /\ matchIndex mi <= matchIndex mj < m_end mi
  | NoChange => simultaneous content es content \/ fuzzy_replacement content es content
  | OutsideBase => exists e, e ∈ es /\ norm (oldText e) = []
  | LineCountDiffers => length (splitLinesWithEndings content) <> length (splitLinesWithEndings (norm content))
  end.

Lemma first_empty_Some es i k : first_empty es i = Some k -> exists j e, k = (i + j)%nat /\ es !! j = Some e /\ oldText e = [].
Proof.
  revert i. induction es as [|e es IH]; intros i; cbn [first_empty]; [done|]. case_bool_decide.
  - intros [= <-]. exists 0%nat, e. by rewrite Nat.add_0_r.
  - intros (j & e' & -> & Hj & He)%IH. exists (S j), e'. split_and!; [lia|done|done].
Qed.

Lemma match_edit_Err base i e x :
  match_edit nfkc base i e = Err x ->
  x = NotFound i /\ index_of (oldText e) base 0 = None /\ index_of (norm (oldText e)) (norm base) 0 = None \/
  x = Duplicate i (countOccurrences nfkc base (oldText e)) /\
    (norm (oldText e) = [] \/ two_apart (norm (oldText e)) (norm base)).
Proof.
  unfold match_edit, fuzzyFindText. intros H.
  assert (forall n : MatchedEdit, (if 1 <? countOccurrences nfkc base (oldText e) then Err (Duplicate i (countOccurrences nfkc base (oldText e)))
    else Ok n) = Err x -> x = Duplicate i (countOccurrences nfkc base (oldText e)) /\
    (norm (oldText e) = [] \/ two_apart (norm (oldText e)) (norm base))) as Hdup.
  { intros n. destruct (Z.ltb_spec 1 (countOccurrences nfkc base (oldText e))) as [Hc|]; [|done]. intros [= <-]. split; [done|].
    destruct (decide (norm (oldText e) = [])) as [|Hne]; [by left|right]. apply split_length_two; [done|].
    unfold countOccurrences, blen in Hc. lia. }
  destruct (index_of (oldText e) base 0); [right; eapply Hdup; exact H|].
  destruct (index_of (norm (oldText e)) (norm base) 0); [right; eapply Hdup; exact H|].
  injection H as <-. by left.
Qed.

Lemma match_edit_text content es i e m :
  nfkc_stable -> e ∈ es -> match_edit nfkc (match_base content es) i e = Ok m ->
  exists text, (text = oldText e \/ text = norm (oldText e)) /\ matches_text (match_base content es) e text m /\ editIndex m = i.
Proof.
  intros Hn Hin Hm. unfold match_base in *. destruct (fuzzy_needed nfkc content es) eqn:Ef.
  - apply match_edit_fuzzy; [by apply norm_idem|done].
  - apply fuzzy_needed_false in Ef. rewrite Forall_forall in Ef. specialize (Ef e Hin).
    exists (oldText e). split_and!; [by left|by eapply match_edit_exact|].
    unfold match_edit in Hm. repeat case_match; try done. by injection Hm as <-.
Qed.

Lemma refused content edits x :
  nfkc_stable -> applyEditsToNormalizedContent nfkc content edits = Err x -> refusal content (normalizeEdit <$> edits) x.
Proof.
  intros Hn. unfold applyEditsToNormalizedContent. set (es := normalizeEdit <$> edits).
  destruct (first_empty es 0) as [k|] eqn:He.
  { intros [= <-]. apply first_empty_Some in He as (j & e & -> & Hj & He). by exists e. }
  apply first_empty_None in He. fold (match_base content es).
  intros [H|(ms & Hms & H)]%bind_Err.
  { apply match_edits_Err in H as (k & e & Hk & [[-> H]|[-> H]]%match_edit_Err); by exists e. }
  assert (forall m, m ∈ sort_matches ms -> exists e text, es !! editIndex m = Some e /\
    (text = oldText e \/ text = norm (oldText e)) /\ matches_text (match_base content es) e text m) as Hall.
  { intros m Hm. rewrite sort_matches_perm in Hm. apply list_elem_of_lookup in Hm as [k Hk].
    destruct (match_edits_lookup _ _ _ _ _ _ Hms Hk) as (e & Hek & Hm).
    apply match_edit_text in Hm as (t & Ht & Hmt & Hi); [|done|by eapply list_elem_of_lookup_2].
    exists e, t. by rewrite Hi. }
  apply bind_Err in H as [H|([] & Hd & H)].
  { unfold disjoint_matches in H. pose proof (sort_matches_sorted ms) as Hs. destruct (sort_matches ms) as [|p ps] eqn:Ep; [done|].
    apply check_disjoint_Err in H as (a & b & Ha & Hb & -> & Hab); [|done].
    destruct (Hall a Ha) as (ea & ta & ? & _ & ?), (Hall b Hb) as (eb & tb & ? & _ & ?).
    by exists ea, eb, ta, tb, a, b. }
  destruct (fuzzy_needed nfkc content es) eqn:Ef; unfold match_base in *; rewrite Ef in *.
  - apply bind_Err in H as [H|(new & Hw & H)].
    + unfold applyReplacementsPreservingUnchangedLines, getLineSpans in H. rewrite line_spans_length in H.
      destruct (Nat.eqb_spec (length (splitLinesWithEndings content)) (length (splitLinesWithEndings (norm content)))) as [Hl|Hl];
        cbn [negb] in H; [|by injection H as <-].
      apply bind_Err in H as [H|(gs & _ & H)]; [|done]. apply groups_of_Err in H as (m & Hm & H).
      pose proof (range_Err _ _ _ H) as ->. rewrite sort_matches_perm in Hm.
      destruct (Hall m Hm) as (e & t & Hi & Ht & Hmt). exists e. split; [by eapply list_elem_of_lookup_2|].
      assert (t = []) as ->.
      { destruct t as [|c t]; [done|]. exfalso. destruct Hmt as (_ & H1 & H2 & H3 & _).
        destruct (range_total (splitLinesWithEndings (norm content)) m) as [range Hr]; [done| |by rewrite concat_lines|].
        - rewrite H2, blen_cons. pose proof (blen_nonneg t). lia.
        - rewrite Hr in H. done. }
      rewrite Forall_forall in He. destruct Ht as [Ht|Ht]; [|done]. exfalso. apply (He e); [by eapply list_elem_of_lookup_2|done].
    + case_bool_decide as Hc; [|done]. injection H as <-. right. rewrite Hc at 2. by eapply fuzzy_core.
  - cbn [mbind result_bind] in H. case_bool_decide as Hc; [|done]. injection H as <-. left. rewrite Hc at 2. by apply (exact_core nfkc).
Qed.
End Fuzzy.

(** ** Theorems *)





(** When some old text only matches after normalisation, success means that
    the normalised content is cut into gaps and texts that are the old texts or
    their normalised forms, and that the result is the normalised content with
    those texts replaced, laid over the original: every line of the original
    that no replacement touches is written back byte for byte, also among lines
    that normalise alike. *)
Theorem fuzzy_edits nfkc content edits new :
  nfkc_stable nfkc -> fuzzy_needed nfkc content (normalizeEdit <$> edits) = true ->
  applyEditsToNormalizedContent nfkc content edits = Ok new ->
  fuzzy_replacement nfkc content (normalizeEdit <$> edits) new /\ new <> content.
Proof. intros Hn Hf H. by destruct (fuzzy_sound nfkc content edits new Hn Hf H) as (? & ? & _). Qed.

(** Two lines with typographic quotes, of which one is edited. *)
Definition quoted_content : jstring :=
  [0x201C] ++ $"a" ++ [0x201D; 32; NEWLINE] ++ [0x201C] ++ $"b" ++ [0x201D; 32; NEWLINE].

Lemma fuzzy_edits_witness :
  let edits := [mkEdit ([34] ++ $"b" ++ [34]) $"c"] in
  let new := [0x201C] ++ $"a" ++ [0x201D; 32; NEWLINE] ++ $"c" ++ [NEWLINE] in
  applyEditsToNormalizedContent id quoted_content edits = Ok new /\ fuzzy_replacement id quoted_content edits new.
Proof.
  split; [by vm_compute|]. eapply (fuzzy_edits id quoted_content [mkEdit ([34] ++ $"b" ++ [34]) $"c"]).
  - intros s. reflexivity.
  - by vm_compute.
  - by vm_compute.
Defined.

(** Byte-order mark and line endings survive: editing a file with or without
    a mark whose line endings are all [\r\n] or all [\n] is editing its text with
    [\n] endings, and writes the mark and the endings back. *)
Theorem edit_file_bytes nfkc bom content ending edits :
  bom = [BOM] \/ bom = [] /\ startsWith content [BOM] = false ->
  CR ∉ content -> (ending = CRLF -> NEWLINE ∈ content) ->
  edit_file nfkc (bom ++ restoreLineEndings content ending) edits =
  (fun new => bom ++ restoreLineEndings new ending) <$> applyEditsToNormalizedContent nfkc content edits.
Proof. apply edit_file_restored. Qed.

Lemma edit_file_bytes_witness :
  edit_file id ([BOM] ++ $"x" ++ [CR; NEWLINE] ++ $"y") [mkEdit ($"x" ++ [NEWLINE]) ($"z" ++ [NEWLINE; NEWLINE])]
  = Ok ([BOM] ++ $"z" ++ [CR; NEWLINE; CR; NEWLINE] ++ $"y").
Proof.
  change ([BOM] ++ $"x" ++ [CR; NEWLINE] ++ $"y") with ([BOM] ++ restoreLineEndings ($"x" ++ [NEWLINE] ++ $"y") CRLF).
  etransitivity; [apply edit_file_bytes|by vm_compute].
  - by left.
  - by apply (bool_decide_unpack _); vm_compute.
  - intros _. by apply (bool_decide_unpack _); vm_compute.
Defined.

(** Every refusal is justified: the text an error names is empty, is not in
    the content nor in its normalised form, or is there twice (or is only
    blanks); edits reported as overlapping have matches that overlap; a
    replacement reported as no change is one; and the two internal errors only
    arise from an old text of blanks, or when normalisation changes the number
    of lines. *)
Theorem edit_refusals nfkc content edits x :
  nfkc_stable nfkc -> applyEditsToNormalizedContent nfkc content edits = Err x ->
  refusal nfkc content (normalizeEdit <$> edits) x.
Proof. apply refused. Qed.

Lemma edit_refusals_witness :
  let content := $"x y x" in
  applyEditsToNormalizedContent id content [mkEdit $"x" $"z"] = Err (Duplicate 0 2) /\
  refusal id content [mkEdit $"x" $"z"] (Duplicate 0 2).
Proof.
  split; [by vm_compute|]. apply (edit_refusals id $"x y x" [mkEdit $"x" $"z"]); [by intros s|by vm_compute].
Defined.

(** ** What the code does not do

The tool asks for texts that match a unique region; occurrences are counted
without overlaps and after normalisation. *)

Example overlapping_occurrences : applyEditsToNormalizedContent id $"aXaXa" [mkEdit $"aXa" $"b"] = Ok $"bXa".
Proof. vm_compute. reflexivity. Qed.

Example blank_text_refused :
  applyEditsToNormalizedContent id ($"a" ++ [9] ++ $"b") [mkEdit [9] $" "] = Err (Duplicate 0 2).
Proof. vm_compute. reflexivity. Qed.

Example absent_blank_inserted : applyEditsToNormalizedContent id $"ab" [mkEdit [9] $"zz"] = Ok $"zzab".
Proof. vm_compute. reflexivity. Qed.

Example blank_last_line_fails :
  applyEditsToNormalizedContent id ([0x201C] ++ $"a" ++ [0x201D; NEWLINE; 32]) [mkEdit ([34] ++ $"a" ++ [34]) $"b"]
  = Err LineCountDiffers.
Proof. vm_compute. reflexivity. Qed.
