(* ===== verification/EditDisplay.v ===== *)
(** * The displayed diff of an edit (packages/agent/src/harness/tools/edit-diff.ts)

[generateDiffString] turns the parts of a line diff into numbered lines with a
few lines of context.  The diff itself is the library's [diffLines]; what it
promises, that its parts spell both files line by line, is the hypothesis
[diff_of].  The theorem: every line shown with a number is that line of the file
it is shown for, all added and removed lines are shown in order, and the first
changed line is where the files part. *)
From S2P Require Import Prelude JsString JsObject.
#[local] Open Scope Z_scope.

(** ** The display *)

Inductive change := Added | Removed | Same.

#[export] Instance change_eq_dec : EqDecision change.
Proof. solve_decision. Defined.

Notation part := (change * jstring)%type.

Definition is_change (p : part) : bool := match p.1 with Same => false | _ => true end.

(** A row of the output: a numbered line, or the mark of lines left out. *)
Inductive row := Line (sign : change) (number : Z) (text : jstring) | Dots.

Record display := mkDisplay {
  output : list row; oldLineNum : Z; newLineNum : Z; lastWasChange : bool; firstChangedLine : option Z }.

(** [part.value.split("\n")] without the empty piece after the last newline. *)
Definition raw_lines (value : jstring) : list jstring :=
  let raw := split_newline value in if bool_decide (last raw = Some []) then removelast raw else raw.

Definition show_line (sign : change) (d : display) (line : jstring) : display :=
  match sign with
  | Added => mkDisplay (output d ++ [Line Added (newLineNum d) line]) (oldLineNum d) (newLineNum d + 1) (lastWasChange d) (firstChangedLine d)
  | Removed => mkDisplay (output d ++ [Line Removed (oldLineNum d) line]) (oldLineNum d + 1) (newLineNum d) (lastWasChange d) (firstChangedLine d)
  | Same => mkDisplay (output d ++ [Line Same (oldLineNum d) line]) (oldLineNum d + 1) (newLineNum d + 1) (lastWasChange d) (firstChangedLine d)
  end.

Definition show_lines (sign : change) (d : display) (lines : list jstring) : display := fold_left (show_line sign) lines d.

(** The mark, and the lines it stands for counted. *)
Definition show_dots (d : display) (skippedLines : nat) : display :=
  mkDisplay (output d ++ [Dots]) (oldLineNum d + Z.of_nat skippedLines) (newLineNum d + Z.of_nat skippedLines)
    (lastWasChange d) (firstChangedLine d).

Definition set_last (d : display) (b : bool) : display := mkDisplay (output d) (oldLineNum d) (newLineNum d) b (firstChangedLine d).

Definition show_change (d : display) (p : part) : display :=
  let d := mkDisplay (output d) (oldLineNum d) (newLineNum d) (lastWasChange d)
             (match firstChangedLine d with None => Some (newLineNum d) | s => s end) in
  set_last (show_lines p.1 d (raw_lines p.2)) true.

Definition show_context (contextLines : nat) (hasTrailingChange : bool) (d : display) (raw : list jstring) : display :=
  let hasLeadingChange := lastWasChange d in
  set_last
    (if hasLeadingChange && hasTrailingChange then
       if (length raw <=? contextLines * 2)%nat then show_lines Same d raw
       else
         let leadingLines := take contextLines raw in
         let trailingLines := drop (length raw - contextLines) raw in
         let skippedLines := (length raw - length leadingLines - length trailingLines)%nat in
         show_lines Same (show_dots (show_lines Same d leadingLines) skippedLines) trailingLines
     else if hasLeadingChange then
       let shownLines := take contextLines raw in
       let skippedLines := (length raw - length shownLines)%nat in
       let d := show_lines Same d shownLines in
       if (0 <? skippedLines)%nat then show_dots d skippedLines else d
     else if hasTrailingChange then
       let skippedLines := (length raw - contextLines)%nat in
       let d := if (0 <? skippedLines)%nat then show_dots d skippedLines else d in
       show_lines Same d (drop skippedLines raw)
     else
       mkDisplay (output d) (oldLineNum d + blen raw) (newLineNum d + blen raw) (lastWasChange d) (firstChangedLine d))
    false.

Fixpoint show_parts (contextLines : nat) (d : display) (parts : list part) : display :=
  match parts with
  | [] => d
  | p :: parts =>
      let nextPartIsChange := match parts with q :: _ => is_change q | [] => false end in
      let d := if is_change p then show_change d p else show_context contextLines nextPartIsChange d (raw_lines p.2) in
      show_parts contextLines d parts
  end.

Definition padStart (s : jstring) (width : nat) : jstring := repeat 32 (width - length s) ++ s.

Definition render (lineNumWidth : nat) (r : row) : jstring :=
  match r with
  | Line sign n text =>
      match sign with Added => 43 | Removed => 45 | Same => 32 end :: padStart (decimal n) lineNumWidth ++ 32 :: text
  | Dots => 32 :: padStart [] lineNumWidth ++ $" ..."
  end.

Definition generateDiffString (diffLines : jstring -> jstring -> list part) (oldContent newContent : jstring) (contextLines : nat) :
    jstring * option Z :=
  let maxLineNum := Z.max (blen (split_newline oldContent)) (blen (split_newline newContent)) in
  let lineNumWidth := length (decimal maxLineNum) in
  let d := show_parts contextLines (mkDisplay [] 1 1 false None) (diffLines oldContent newContent) in
  (join_lines (render lineNumWidth <$> output d), firstChangedLine d).

(** ** What a line diff is *)

Definition old_side (parts : list part) : list jstring :=
  omap (fun p => match p.1 with Added => None | _ => Some p.2 end) parts.

Definition new_side (parts : list part) : list jstring :=
  omap (fun p => match p.1 with Removed => None | _ => Some p.2 end) parts.

(** Whole lines: only the last value may lack its newline. *)
Fixpoint whole_lines (values : list jstring) : Prop :=
  match values with
  | [] | [_] => True
  | v :: values => last v = Some NEWLINE /\ whole_lines values
  end.

Definition diff_of (old new : jstring) (parts : list part) : Prop :=
  concat (old_side parts) = old /\ concat (new_side parts) = new /\
  whole_lines (old_side parts) /\ whole_lines (new_side parts).

(** ** Lines of parts *)

Lemma raw_lines_nil : raw_lines [] = [].
Proof. done. Qed.

Lemma split_line v w : split_newline (v ++ NEWLINE :: w) = split_newline v ++ split_newline w.
Proof.
  induction v as [|c v IH]; [done|]. cbn [app split_newline]. rewrite IH. destruct (c =? NEWLINE); [done|].
  pose proof (split_not_nil v). by destruct (split_newline v).
Qed.

Lemma raw_lines_app v w : last v = Some NEWLINE -> raw_lines (v ++ w) = raw_lines v ++ raw_lines w.
Proof.
  intros [v' ->]%last_Some. unfold raw_lines. rewrite <- app_assoc. cbn [app]. rewrite !split_line.
  change (split_newline []) with [[] : jstring]. rewrite !last_app. cbn [last].
  rewrite (bool_decide_eq_true_2 (Some [] = Some [])) by done. rewrite removelast_last.
  pose proof (split_not_nil w) as Hne. destruct (last (split_newline w)) as [l|] eqn:E; [|by apply last_None in E].
  case_bool_decide; [by apply removelast_app|done].
Qed.

Lemma raw_lines_concat values : whole_lines values -> raw_lines (concat values) = concat (raw_lines <$> values).
Proof.
  induction values as [|v values IH]; [done|]. destruct values as [|w values].
  - cbn. by rewrite !app_nil_r.
  - intros [Hv Hw]. cbn [concat fmap list_fmap] in *. rewrite raw_lines_app by done. by rewrite IH.
Qed.

(** ** What is shown *)

(** [rest] is what is left of [lines] at line [n]. *)
Definition at_line (lines : list jstring) (n : Z) (rest : list jstring) : Prop :=
  exists passed, lines = passed ++ rest /\ n = 1 + blen passed.

Lemma at_line_cons lines n l rest : at_line lines n (l :: rest) -> at_ lines (n - 1) = Some l /\ at_line lines (n + 1) rest.
Proof.
  intros (pre & -> & ->). split; [by rewrite at_app_r by lia|]. exists (pre ++ [l]). rewrite <- app_assoc, blen_app.
  split; [done|]. rewrite blen_cons, (blen_nil (A := jstring)). lia.
Qed.

Lemma at_line_skip lines n k l rest :
  length l = k -> at_line lines n (l ++ rest) -> at_line lines (n + Z.of_nat k) rest.
Proof. intros <- (pre & -> & ->). exists (pre ++ l). rewrite <- app_assoc, blen_app. split; [done|unfold blen; lia]. Qed.

Lemma at_line_unique lines n n' rest : at_line lines n rest -> at_line lines n' rest -> n = n'.
Proof. intros (pre & Hp & ->) (pre' & Hp' & ->). rewrite Hp in Hp'. by apply app_inj_2 in Hp' as [-> _]. Qed.

Lemma at_line_passed lines n rest passed :
  lines = passed ++ rest -> at_line lines n rest -> take (Z.to_nat (n - 1)) lines = passed.
Proof.
  intros -> (pre & Hp & ->). apply app_inj_2 in Hp as [<- _]; [|done].
  replace (Z.to_nat (1 + blen passed - 1)) with (length passed) by (unfold blen; lia). apply take_app_length.
Qed.

Definition shows (sign : change) (r : row) : option jstring :=
  match r with Line s _ text => if bool_decide (s = sign) then Some text else None | Dots => None end.

Section Faithful.
Context (oldLines newLines : list jstring).

(** A row shows a line of the file it is for. *)
Definition row_ok (r : row) : Prop :=
  match r with
  | Line Added n text => at_ newLines (n - 1) = Some text
  | Line _ n text => at_ oldLines (n - 1) = Some text
  | Dots => True
  end.

(** The display so far: sound, at these places of the two files, and having
    shown these removed and added lines. *)
Definition shown (d : display) (oldRest newRest removed added : list jstring) : Prop :=
  Forall row_ok (output d) /\ at_line oldLines (oldLineNum d) oldRest /\ at_line newLines (newLineNum d) newRest /\
  omap (shows Removed) (output d) = removed /\ omap (shows Added) (output d) = added.

Definition on_side (sign side : change) (lines : list jstring) : list jstring :=
  if bool_decide (sign = side) then [] else lines.

Lemma show_lines_shown sign d lines oldRest newRest removed added :
  shown d (on_side sign Added lines ++ oldRest) (on_side sign Removed lines ++ newRest) removed added ->
  let d' := show_lines sign d lines in
  shown d' oldRest newRest
    (removed ++ if bool_decide (sign = Removed) then lines else []) (added ++ if bool_decide (sign = Added) then lines else []) /\
  lastWasChange d' = lastWasChange d /\ firstChangedLine d' = firstChangedLine d.
Proof.
  cbn zeta. revert d removed added. unfold show_lines.
  induction lines as [|l lines IH]; intros d removed added H; cbn [fold_left].
  - unfold on_side in H. split; [|done]. repeat case_bool_decide; by rewrite ?app_nil_r.
  - destruct H as (H1 & H2 & H3 & H4 & H5).
    destruct (IH (show_line sign d l) (removed ++ if bool_decide (sign = Removed) then [l] else [])
      (added ++ if bool_decide (sign = Added) then [l] else [])) as [IH1 IH2].
    + destruct sign; cbn in *; repeat (case_bool_decide; try done); split_and!; cbn;
        rewrite ?Forall_app, ?omap_app; cbn; rewrite ?H4, ?H5, ?app_nil_r; auto.
      all: try (split; [done|]; constructor; [|done]; cbn).
      all: first [exact (proj1 (at_line_cons _ _ _ _ H2)) | exact (proj2 (at_line_cons _ _ _ _ H2))
                 | exact (proj1 (at_line_cons _ _ _ _ H3)) | exact (proj2 (at_line_cons _ _ _ _ H3))].
    + split; [|by destruct sign]. destruct sign; cbn in *; repeat (case_bool_decide; try done);
        by rewrite <- ?app_assoc, ?app_nil_r in *.
Qed.

Lemma show_dots_shown d l oldRest newRest removed added :
  shown d (l ++ oldRest) (l ++ newRest) removed added -> shown (show_dots d (length l)) oldRest newRest removed added.
Proof.
  intros (H1 & H2 & H3 & H4 & H5). unfold shown, show_dots. cbn. rewrite !omap_app, Forall_app. cbn. rewrite !app_nil_r.
  split_and!; [done|by repeat constructor|by eapply at_line_skip|by eapply at_line_skip|done|done].
Qed.

Lemma show_same_shown d lines oldRest newRest removed added :
  shown d (lines ++ oldRest) (lines ++ newRest) removed added ->
  shown (show_lines Same d lines) oldRest newRest removed added /\
  firstChangedLine (show_lines Same d lines) = firstChangedLine d.
Proof.
  intros H. destruct (show_lines_shown Same d lines oldRest newRest removed added H) as (Hs & _ & Hf).
  cbn in Hs. by rewrite !app_nil_r in Hs.
Qed.

Lemma shown_set_last d b oldRest newRest removed added :
  shown d oldRest newRest removed added -> shown (set_last d b) oldRest newRest removed added.
Proof. done. Qed.

(** The lines of a part split at [k], with those before left out, or those after. *)
Lemma show_context_shown contextLines trailing d raw oldRest newRest removed added :
  shown d (raw ++ oldRest) (raw ++ newRest) removed added ->
  let d' := show_context contextLines trailing d raw in
  shown d' oldRest newRest removed added /\ firstChangedLine d' = firstChangedLine d.
Proof.
  intros H. unfold show_context. cbn zeta.
  assert (forall k, shown d (take k raw ++ drop k raw ++ oldRest) (take k raw ++ drop k raw ++ newRest) removed added) as Hcut.
  { intros k. by rewrite !(app_assoc (take k raw)), take_drop. }
  destruct (lastWasChange d && trailing); [|destruct (lastWasChange d); [|destruct trailing]].
  - destruct (Nat.leb_spec (length raw) (contextLines * 2)); [by apply show_same_shown|].
    destruct (show_same_shown _ _ _ _ _ _ (Hcut contextLines)) as [H1 Hf1].
    set (d1 := show_lines Same d (take contextLines raw)) in *.
    replace (drop contextLines raw) with
      (take (length raw - contextLines - contextLines) (drop contextLines raw) ++ drop (length raw - contextLines) raw) in H1.
    2: { rewrite <- (take_drop (length raw - contextLines - contextLines) (drop contextLines raw)) at 2.
         rewrite drop_drop. f_equal. f_equal. lia. }
    rewrite <- !app_assoc in H1. apply show_dots_shown in H1.
    replace (length (take (length raw - contextLines - contextLines) (drop contextLines raw)))
      with (length raw - length (take contextLines raw) - length (drop (length raw - contextLines) raw))%nat in H1
      by (rewrite !length_take, !length_drop; lia).
    destruct (show_same_shown _ _ _ _ _ _ H1) as [H2 Hf2]. split; [exact H2|]. cbn. rewrite Hf2. exact Hf1.
  - destruct (show_same_shown _ _ _ _ _ _ (Hcut contextLines)) as [H1 Hf1].
    destruct (Nat.ltb_spec 0 (length raw - length (take contextLines raw))) as [Hlt|Hge].
    + split; [|exact Hf1]. apply shown_set_last.
      replace (length raw - length (take contextLines raw))%nat with (length (drop contextLines raw))
        by (rewrite length_take, length_drop; lia). by apply show_dots_shown.
    + split; [|exact Hf1]. rewrite drop_ge in H1; [exact H1|]. rewrite length_take in Hge. lia.
  - pose proof (Hcut (length raw - contextLines)%nat) as H1.
    destruct (Nat.ltb_spec 0 (length raw - contextLines)) as [Hlt|Hge].
    + apply show_dots_shown in H1. rewrite length_take, Nat.min_l in H1 by lia.
      destruct (show_same_shown _ _ _ _ _ _ H1) as [H2 Hf2]. split; [exact H2|]. cbn. by rewrite Hf2.
    + replace (length raw - contextLines)%nat with 0%nat in * by lia. by apply show_same_shown.
  - split; [|done]. destruct H as (H1 & H2 & H3 & H4 & H5).
    split_and!; [done|by eapply at_line_skip|by eapply at_line_skip|done|done].
Qed.

Lemma show_change_shown sign d value oldRest newRest removed added :
  sign <> Same ->
  shown d (on_side sign Added (raw_lines value) ++ oldRest) (on_side sign Removed (raw_lines value) ++ newRest) removed added ->
  let d' := show_change d (sign, value) in
  shown d' oldRest newRest
    (removed ++ if bool_decide (sign = Removed) then raw_lines value else [])
    (added ++ if bool_decide (sign = Added) then raw_lines value else []) /\
  firstChangedLine d' = match firstChangedLine d with None => Some (newLineNum d) | s => s end.
Proof.
  intros Hs H. unfold show_change. cbn zeta. cbn [fst snd].
  destruct (show_lines_shown sign (mkDisplay (output d) (oldLineNum d) (newLineNum d) (lastWasChange d)
    (match firstChangedLine d with None => Some (newLineNum d) | s => s end)) (raw_lines value) oldRest newRest removed added H)
    as (H1 & _ & H2). split; [exact H1|exact H2].
Qed.

(** *** The first changed line *)

(** The files agree up to the first change, or as far as they have been read. *)
Definition agree (d : display) : Prop :=
  match firstChangedLine d with
  | Some n => 1 <= n /\ take (Z.to_nat (n - 1)) oldLines = take (Z.to_nat (n - 1)) newLines
  | None => oldLineNum d = newLineNum d /\ take (Z.to_nat (oldLineNum d - 1)) oldLines = take (Z.to_nat (oldLineNum d - 1)) newLines
  end.

Lemma agree_same d d' raw oldRest newRest :
  at_line oldLines (oldLineNum d) (raw ++ oldRest) -> at_line newLines (newLineNum d) (raw ++ newRest) ->
  at_line oldLines (oldLineNum d') oldRest -> at_line newLines (newLineNum d') newRest ->
  firstChangedLine d' = firstChangedLine d -> agree d -> agree d'.
Proof.
  intros Ho Hn Ho' Hn' Hf. unfold agree. rewrite Hf. destruct (firstChangedLine d); [done|].
  intros [E Ht]. pose proof (at_line_unique _ _ _ _ (at_line_skip _ _ _ raw oldRest eq_refl Ho) Ho') as E1.
  pose proof (at_line_unique _ _ _ _ (at_line_skip _ _ _ raw newRest eq_refl Hn) Hn') as E2.
  split; [lia|]. destruct Ho as (po & Ho & Eo), Hn as (pn & Hn & En).
  rewrite (at_line_passed oldLines _ (raw ++ oldRest) po), E, (at_line_passed newLines _ (raw ++ newRest) pn) in Ht
    by (done || by eexists). subst pn.
  rewrite (at_line_passed oldLines _ oldRest (po ++ raw)) by (done || by rewrite <- app_assoc).
  replace (oldLineNum d') with (newLineNum d') by lia.
  by rewrite (at_line_passed newLines _ newRest (po ++ raw)) by (done || by rewrite <- app_assoc).
Qed.

Lemma agree_change d d' :
  firstChangedLine d' = match firstChangedLine d with None => Some (newLineNum d) | s => s end ->
  (1 <= newLineNum d) -> agree d -> agree d'.
Proof.
  intros Hf H1. unfold agree. rewrite Hf. destruct (firstChangedLine d); [done|].
  intros [E Ht]. split; [done|]. by rewrite <- E.
Qed.

(** *** The whole loop *)

Definition texts_of (sign : change) (parts : list part) : list jstring :=
  concat (omap (fun p => if bool_decide (p.1 = sign) then Some (raw_lines p.2) else None) parts).

Lemma texts_of_cons side sign value parts :
  texts_of side ((sign, value) :: parts) = (if bool_decide (sign = side) then raw_lines value else []) ++ texts_of side parts.
Proof. unfold texts_of. cbn. by case_bool_decide. Qed.

Definition all_lines (values : list jstring) : list jstring := concat (raw_lines <$> values).

Lemma show_parts_shown contextLines d parts removed added :
  shown d (all_lines (old_side parts)) (all_lines (new_side parts)) removed added -> agree d ->
  let d' := show_parts contextLines d parts in
  shown d' [] [] (removed ++ texts_of Removed parts) (added ++ texts_of Added parts) /\ agree d'.
Proof.
  cbn zeta. revert d removed added. induction parts as [|[sign value] parts IH]; intros d removed added H Ha; cbn [show_parts].
  { by rewrite !app_nil_r. }
  assert (1 <= newLineNum d) as Hpos by (destruct H as (_ & _ & (pre & _ & ->) & _); pose proof (blen_nonneg pre); lia).
  rewrite !texts_of_cons, !app_assoc. destruct (decide (sign = Same)) as [->|Hs].
  - cbn [is_change fst snd]. pose proof H as (_ & Ho & Hn & _).
    destruct (show_context_shown contextLines (match parts with q :: _ => is_change q | [] => false end) d (raw_lines value)
      (all_lines (old_side parts)) (all_lines (new_side parts)) removed added H) as [H' Hf].
    rewrite (bool_decide_eq_false_2 (Same = Removed)), (bool_decide_eq_false_2 (Same = Added)), !app_nil_r by done. apply IH; [exact H'|]. pose proof H' as (_ & Ho' & Hn' & _). exact (agree_same _ _ _ _ _ Ho Hn Ho' Hn' Hf Ha).
  - assert (is_change (sign, value) = true) as -> by by destruct sign.
    destruct (show_change_shown sign d value (all_lines (old_side parts)) (all_lines (new_side parts)) removed added Hs)
      as [H' Hf]; [by destruct sign|].
    apply IH; [exact H'|by eapply agree_change].
Qed.
End Faithful.

(** ** Theorem *)

(** Given a line diff of the two contents, every numbered row of the
    displayed diff shows that line of the file its sign stands for (the old one
    for removed and context lines, the new one for added lines); the rows hold
    all removed and all added lines, in order; and the two files agree before
    the first changed line, or altogether when there is none. *)
Theorem displayed_diff diffLines old new contextLines :
  diff_of old new (diffLines old new) ->
  let shown := generateDiffString diffLines old new contextLines in
  exists rows width,
    shown.1 = join_lines (render width <$> rows) /\
    Forall (row_ok (raw_lines old) (raw_lines new)) rows /\
    omap (shows Removed) rows = texts_of Removed (diffLines old new) /\
    omap (shows Added) rows = texts_of Added (diffLines old new) /\
    match shown.2 with
    | Some n => 1 <= n /\ take (Z.to_nat (n - 1)) (raw_lines old) = take (Z.to_nat (n - 1)) (raw_lines new)
    | None => raw_lines old = raw_lines new
    end.
Proof.
  intros (Ho & Hn & Hwo & Hwn). unfold generateDiffString. cbn zeta. cbn [fst snd].
  set (parts := diffLines old new) in *.
  destruct (show_parts_shown (raw_lines old) (raw_lines new) contextLines (mkDisplay [] 1 1 false None) parts [] [])
    as [(H1 & H2 & H3 & H4 & H5) Ha].
  - split_and!; [constructor|exists []|exists []|done|done]; (split; [|done]); cbn [app]; unfold all_lines;
      rewrite <- raw_lines_concat by done; by rewrite ?Ho, ?Hn.
  - done.
  - eexists _, _. split_and!; [reflexivity|exact H1|exact H4|exact H5|].
    unfold agree in Ha. destruct (firstChangedLine _); [done|]. destruct Ha as [E Ha].
    by rewrite (at_line_passed _ _ _ _ (eq_sym (app_nil_r _)) H2), E,
      (at_line_passed _ _ _ _ (eq_sym (app_nil_r _)) H3) in Ha.
Qed.

(** One line of four replaced, with one line of context. *)
Definition sample_diff (_ _ : jstring) : list part :=
  [(Same, $"a" ++ NEWLINE :: $"b" ++ [NEWLINE]); (Removed, $"c" ++ [NEWLINE]); (Added, $"X" ++ NEWLINE :: $"Y" ++ [NEWLINE]); (Same, $"d")].

Lemma displayed_diff_witness :
  let old := join_lines [$"a"; $"b"; $"c"; $"d"] in
  let new := join_lines [$"a"; $"b"; $"X"; $"Y"; $"d"] in
  diff_of old new (sample_diff old new) /\
  generateDiffString sample_diff old new 1 =
    (join_lines [$"   ..."; $" 2 b"; $"-3 c"; $"+3 X"; $"+4 Y"; $" 4 d"], Some 3) /\
  exists rows, Forall (row_ok (raw_lines old) (raw_lines new)) rows /\ omap (shows Added) rows = [$"X"; $"Y"].
Proof.
  assert (diff_of (join_lines [$"a"; $"b"; $"c"; $"d"]) (join_lines [$"a"; $"b"; $"X"; $"Y"; $"d"])
    (sample_diff (join_lines [$"a"; $"b"; $"c"; $"d"]) (join_lines [$"a"; $"b"; $"X"; $"Y"; $"d"]))) as H.
  { vm_compute. by repeat split. }
  split_and!; [exact H|by vm_compute|].
  destruct (displayed_diff sample_diff _ _ 1 H) as (rows & _ & _ & Hok & _ & Hadd & _).
  exists rows. split; [exact Hok|]. rewrite Hadd. by vm_compute.
Defined.
