(* ===== verification/JsMap.v ===== *)
(** * JavaScript [Map] objects with string keys

A [Map] is the list of its pairs in order of insertion: setting a present key
keeps its position, a new key goes to the end, [values()] runs in this order. *)
From S2P Require Import Prelude JsObject.
#[local] Open Scope Z_scope.

Section JsMap.
Context {A : Type}.
Implicit Types (m : list (jstring * A)) (k : jstring) (v : A).

Definition map_get m k : option A := obj_get m k.

Definition map_has m k : bool := obj_has m k.

Definition map_set m k v : list (jstring * A) := if obj_has m k then obj_update m k v else m ++ [(k, v)].

Definition map_delete m k : list (jstring * A) := obj_delete m k.

Definition map_values m : list A := m.*2.

(** The keys of a [Map] are distinct. *)
Definition map_ok m : Prop := NoDup m.*1.

Lemma map_get_app m m' k :
  map_get (m ++ m') k = match map_get m k with Some v => Some v | None => map_get m' k end.
Proof.
  induction m as [| [k' v'] m IH]; [done |]. unfold map_get in *. cbn. case_bool_decide; done.
Qed.

Lemma map_get_set m k v k' : map_get (map_set m k v) k' = if decide (k' = k) then Some v else map_get m k'.
Proof.
  unfold map_set, map_get. destruct (obj_has m k) eqn:E.
  - rewrite !obj_get_map, obj_update_map by (by apply obj_has_spec).
    case_decide; [subst; by rewrite lookup_insert_eq | by rewrite lookup_insert_ne].
  - change (map_get (m ++ [(k, v)]) k' = if decide (k' = k) then Some v else map_get m k').
    rewrite map_get_app. case_decide as Hk.
    + subst. unfold map_get, obj_has in *. destruct (obj_get m k); [done |]. cbn. by rewrite bool_decide_eq_true_2.
    + destruct (map_get m k'); [done |]. unfold map_get; cbn. rewrite bool_decide_eq_false_2; [done | congruence].
Qed.

Lemma map_ok_set m k v : map_ok m -> map_ok (map_set m k v).
Proof.
  unfold map_ok, map_set. destruct (obj_has m k) eqn:E; intros H.
  - change (NoDup (obj_keys (obj_update m k v))). by rewrite obj_keys_update.
  - rewrite fmap_app. apply NoDup_app. split; [done |]. split; [| apply NoDup_singleton].
    intros x Hx Hx'. apply list_elem_of_singleton in Hx'. cbn in Hx'. subst x.
    apply not_true_iff_false in E. apply E. by apply obj_has_spec.
Qed.

Lemma map_get_delete m k k' : map_ok m -> map_get (map_delete m k) k' = if decide (k' = k) then None else map_get m k'.
Proof.
  intros H. unfold map_get, map_delete. rewrite !obj_get_map, obj_delete_map by done.
  case_decide; [subst; by rewrite lookup_delete_eq | by rewrite lookup_delete_ne].
Qed.

Lemma map_ok_delete m k : map_ok m -> map_ok (map_delete m k).
Proof. apply NoDup_obj_delete. Qed.

Lemma map_get_Some m k v : map_ok m -> map_get m k = Some v <-> (k, v) ∈ m.
Proof.
  intros H. unfold map_get. rewrite obj_get_map. symmetry. by apply elem_of_list_to_map.
Qed.

Lemma elem_of_map_values m v : v ∈ map_values m <-> exists k, (k, v) ∈ m.
Proof.
  unfold map_values. rewrite list_elem_of_fmap. split.
  - intros ([k v'] & -> & ?). eauto.
  - intros [k ?]. exists (k, v). done.
Qed.

Lemma elem_of_map_set m k v x : x ∈ map_set m k v -> x = (k, v) \/ x ∈ m.
Proof.
  unfold map_set. destruct (obj_has m k); [| intros [? | ->%list_elem_of_singleton]%elem_of_app; [by right | by left]].
  induction m as [| [k' v'] m IH]; cbn; [by intros ?%not_elem_of_nil |].
  case_bool_decide as Hk; intros [-> | H]%elem_of_cons; subst; auto; [right; by right | right; by left |].
  destruct (IH H); auto. right. by right.
Qed.

Lemma elem_of_map_delete m k x : x ∈ map_delete m k -> x ∈ m.
Proof.
  unfold map_delete. induction m as [| [k' v'] m IH]; cbn; [done |].
  case_bool_decide; [intros ?; right; auto |]. intros [-> | Hx]%elem_of_cons; [by left | right; auto].
Qed.
End JsMap.
