(* ===== verification/DurableStore.v ===== *)
(** * The durable store (packages/agent/src/durable: store.ts, store-memory.ts)

A store holds a log of records and a set of documents under an owner epoch.
Every operation of the memory backend stages its writes and publishes them at
once; the write points at which a process can be killed are those of the
source, and [cut] says at which of them it is.  A value is a JSON tree, so the
copies the source makes at the boundary are the identity.

[DurableStore] is what the execution ledger and the batch coordinator use of a
store; the memory backend is an instance. *)
From S2P Require Import Prelude JsString JsNumber JsObject JsMap Json.
#[local] Open Scope Z_scope.

(** ** Data *)

Record StoreRecord := mkRecord { r_seq : Z; r_id : jstring; r_kind : jstring; r_data : json }.

Notation StoreDocument := (jstring * json)%type.

Inductive StoreWrite :=
| Append (id kind : jstring) (data : json)
| Put (key : jstring) (data : json)
| Delete (key : jstring).

Record CommitResult := mkCommitResult { seqs : list Z; head : Z }.

Record StoreSnapshot := mkSnapshot {
  sn_epoch : Z; sn_head : Z; sn_records : list StoreRecord; sn_documents : list StoreDocument }.

Record RecordScan := mkScan {
  fromSeq : option Z; toSeq : option Z; scan_kind : option jstring; descending : bool; limit : option Z }.

Inductive DurableStoreErrorCode := unclaimed | stale_epoch | invalid_claim | duplicate_record_id | import_conflict.

(** Why an operation failed: the store refused it, or the process was killed. *)
Inductive StoreFailure := Refused (code : DurableStoreErrorCode) | Cut.

Inductive StoreWritePoint :=
| CommitBefore | CommitWrite (index : nat) | CommitDurable
| ClaimBefore | ClaimDurable
| ImportBefore | ImportWrite (index : nat) | ImportDurable.

Record MediumState := mkMedium { epoch : Z; records : list StoreRecord; documents : list StoreDocument }.

Definition createMemoryStoreMedium : MediumState := mkMedium 0 [] [].

(** ** Comparing values *)

Fixpoint sameValue (a b : json) {struct a} : bool :=
  match a, b with
  | JsNull, JsNull => true
  | JsBool x, JsBool y => Bool.eqb x y
  | JsNum f, JsNum g => num_strict_eq f g
  | JsStr s, JsStr t => bool_decide (s = t)
  | JsArr l, JsArr r =>
      (length l =? length r)%nat &&
      (fix items (l r : list json) : bool :=
         match l, r with x :: l', y :: r' => sameValue x y && items l' r' | _, _ => true end) l r
  | JsObj _ es, JsObj _ os =>
      (length es =? length os)%nat &&
      (fix members (es : list (jstring * json)) : bool :=
         match es with
         | [] => true
         | (k, v) :: es' => match obj_get os k with Some w => sameValue v w | None => false end && members es'
         end) es
  | _, _ => false
  end.

Definition sameRecord (a : StoreRecord) (b : option StoreRecord) : bool :=
  match b with
  | None => false
  | Some b => (r_seq a =? r_seq b) && bool_decide (r_id a = r_id b) && bool_decide (r_kind a = r_kind b) && sameValue (r_data a) (r_data b)
  end.

(** ** The memory backend *)

Definition requireOwner (state : MediumState) (e : Z) : result StoreFailure unit :=
  if epoch state =? 0 then Err (Refused unclaimed)
  else if negb (e =? epoch state) then Err (Refused stale_epoch)
  else Ok tt.

(** What has been staged: the ids in use are those of the staged records. *)
Record staging := mkStaging { st_records : list StoreRecord; st_documents : list StoreDocument; st_seqs : list Z }.

Definition stage (write : StoreWrite) (st : staging) : result StoreFailure staging :=
  match write with
  | Append id kind data =>
      if bool_decide (id ∈ r_id <$> st_records st) then Err (Refused duplicate_record_id)
      else
        let seq := blen (st_records st) + 1 in
        Ok (mkStaging (st_records st ++ [mkRecord seq id kind data]) (st_documents st) (st_seqs st ++ [seq]))
  | Put key data => Ok (mkStaging (st_records st) (map_set (st_documents st) key data) (st_seqs st))
  | Delete key => Ok (mkStaging (st_records st) (map_delete (st_documents st) key) (st_seqs st))
  end.

Section Cuts.
Context (cut : StoreWritePoint -> bool).

(** [options.onWritePoint?.(at)], which throws where the process is killed. *)
Definition point (at_ : StoreWritePoint) : result StoreFailure unit := if cut at_ then Err Cut else Ok tt.

Fixpoint stage_all (index : nat) (writes : list StoreWrite) (st : staging) : result StoreFailure staging :=
  match writes with
  | [] => Ok st
  | write :: writes =>
      point (CommitWrite index) ≫= fun _ => stage write st ≫= fun st => stage_all (S index) writes st
  end.

(** The state, and what the caller sees; [adopt] has run exactly when it sees a result. *)
Definition commitSync (e : Z) (writes : list StoreWrite) (state : MediumState) :
    MediumState * result StoreFailure CommitResult :=
  match point CommitBefore ≫= fun _ => requireOwner state e ≫= fun _ =>
        stage_all 0 writes (mkStaging (records state) (documents state) []) with
  | Err x => (state, Err x)
  | Ok st =>
      (mkMedium (epoch state) (st_records st) (st_documents st),
       point CommitDurable ≫= fun _ => Ok (mkCommitResult (st_seqs st) (blen (st_records st))))
  end.

Definition claim (expectedEpoch nextEpoch : Z) (state : MediumState) : MediumState * result StoreFailure unit :=
  match point ClaimBefore ≫= fun _ =>
        throw_unless ((Z.abs nextEpoch <=? MAX_SAFE_INTEGER) && (nextEpoch =? expectedEpoch + 1)) (Refused invalid_claim) ≫= fun _ =>
        throw_unless (epoch state =? expectedEpoch) (Refused stale_epoch) with
  | Err x => (state, Err x)
  | Ok _ => (mkMedium nextEpoch (records state) (documents state), point ClaimDurable)
  end.

(** The records are numbered from one and their ids are distinct. *)
Fixpoint well_numbered (index : Z) (ids : list jstring) (l : list StoreRecord) : bool :=
  match l with
  | [] => true
  | r :: l => (r_seq r =? index + 1) && negb (bool_decide (r_id r ∈ ids)) && well_numbered (index + 1) (r_id r :: ids) l
  end.

Fixpoint extends_log (mine theirs : list StoreRecord) : bool :=
  match mine with
  | [] => true
  | r :: mine => sameRecord r (hd_error theirs) && extends_log mine (tl theirs)
  end.

Definition importedTail (state : MediumState) (snapshot : StoreSnapshot) : result StoreFailure (list StoreRecord) :=
  let wellFormed := (sn_head snapshot =? blen (sn_records snapshot)) && well_numbered 0 [] (sn_records snapshot) in
  let extendsLog := (length (records state) <=? length (sn_records snapshot))%nat
                    && extends_log (records state) (sn_records snapshot) in
  if negb wellFormed || negb extendsLog then Err (Refused import_conflict)
  else Ok (drop (length (records state)) (sn_records snapshot)).

(** A write point for each of [n] copied values. *)
Fixpoint import_points (index n : nat) : result StoreFailure unit :=
  match n with
  | O => Ok tt
  | S n => point (ImportWrite index) ≫= fun _ => import_points (S index) n
  end.

Definition importSnapshot (e : Z) (snapshot : StoreSnapshot) (state : MediumState) : MediumState * result StoreFailure unit :=
  match point ImportBefore ≫= fun _ => requireOwner state e ≫= fun _ =>
        throw_unless (negb (e <=? sn_epoch snapshot)) (Refused invalid_claim) ≫= fun _ =>
        importedTail state snapshot ≫= fun tail =>
        import_points 0 (length tail + length (sn_documents snapshot)) ≫= fun _ => Ok tail with
  | Err x => (state, Err x)
  | Ok tail =>
      (mkMedium (epoch state) (records state ++ tail)
         (fold_left (fun m '(k, v) => map_set m k v) (sn_documents snapshot) []), point ImportDurable)
  end.
End Cuts.

(** ** Queries *)

(** [a < b ? -1 : a > b ? 1 : 0] on strings: by UTF-16 code unit. *)
Fixpoint compare_units (a b : jstring) : Z :=
  match a, b with
  | x :: a, y :: b => if x <? y then -1 else if y <? x then 1 else compare_units a b
  | [], [] => 0
  | [], _ => -1
  | _, [] => 1
  end.

Definition documentsOf (state : MediumState) (prefix : jstring) : list StoreDocument :=
  sort_by (fun l r => compare_units l.1 r.1) (filter (fun d => startsWith d.1 prefix = true) (documents state)).

Definition memory_get (state : MediumState) (key : jstring) : option json := map_get (documents state) key.

Definition exportSnapshot (state : MediumState) : StoreSnapshot :=
  mkSnapshot (epoch state) (blen (records state)) (records state) (documentsOf state []).

Definition scan_record (q : RecordScan) (r : StoreRecord) : bool :=
  match fromSeq q with Some from => from <=? r_seq r | None => true end
  && match toSeq q with Some to => r_seq r <=? to | None => true end
  && match scan_kind q with Some k => bool_decide (r_kind r = k) | None => true end.

(** [l.slice(0, n)] *)
Definition first_n {A} (n : Z) (l : list A) : list A := take (Z.to_nat (if n <? 0 then blen l + n else n)) l.

Definition scanRecords (state : MediumState) (q : RecordScan) : list StoreRecord :=
  let matching := List.filter (scan_record q) (records state) in
  let ordered := if descending q then rev matching else matching in
  match limit q with None => ordered | Some n => first_n n ordered end.

(** ** What the parts above rely on *)

(** The value of [key] after [writes], when it was [old] before. *)
Definition written (writes : list StoreWrite) (key : jstring) (old : option json) : option json :=
  fold_left (fun v w =>
    match w with
    | Put k d => if bool_decide (k = key) then Some d else v
    | Delete k => if bool_decide (k = key) then None else v
    | Append _ _ _ => v
    end) writes old.

Class DurableStore (S : Type) := {
  store_ok : S -> Prop;
  getDocument : S -> jstring -> option json;
  scanDocuments : S -> jstring -> list StoreDocument;
  store_commit : (StoreWritePoint -> bool) -> Z -> list StoreWrite -> S -> S * result StoreFailure CommitResult;
  commit_store_ok cut e writes s s' r : store_ok s -> store_commit cut e writes s = (s', r) -> store_ok s';
  (** All of the writes or none; a result only for durable writes. *)
  commit_all_or_none cut e writes s s' r : store_ok s -> store_commit cut e writes s = (s', r) ->
    (exists x, r = Err x) /\ (forall k, getDocument s' k = getDocument s k) \/
    (forall k, getDocument s' k = written writes k (getDocument s k));
  scan_documents s prefix k v : store_ok s ->
    (k, v) ∈ scanDocuments s prefix <-> getDocument s k = Some v /\ startsWith k prefix = true }.

(** ** What a store holds *)

(** Gapless sequence numbers from one, distinct ids, one value per key. *)
Record medium_ok (s : MediumState) : Prop := {
  medium_epoch : 0 <= epoch s;
  medium_seqs : forall i r, records s !! i = Some r -> r_seq r = Z.of_nat i + 1;
  medium_ids : NoDup (r_id <$> records s);
  medium_documents : map_ok (documents s) }.

(** The records [writes] append to a log of length [n]. *)
Fixpoint appended (n : Z) (writes : list StoreWrite) : list StoreRecord :=
  match writes with
  | [] => []
  | Append id kind data :: writes => mkRecord (n + 1) id kind data :: appended (n + 1) writes
  | _ :: writes => appended n writes
  end.

Definition fresh_ids (s : MediumState) (writes : list StoreWrite) : Prop :=
  NoDup (r_id <$> records s ++ appended (blen (records s)) writes).

(** All of [writes] carried out on [s]. *)
Definition performed (s s' : MediumState) (writes : list StoreWrite) : Prop :=
  epoch s' = epoch s /\ records s' = records s ++ appended (blen (records s)) writes /\
  forall k, memory_get s' k = written writes k (memory_get s k).

(** ** Lemmas *)

Lemma written_cons w ws k old : written (w :: ws) k old = written ws k (written [w] k old).
Proof. done. Qed.

Lemma appended_seqs n ws : r_seq <$> appended n ws = seqZ (n + 1) (blen (appended n ws)).
Proof.
  revert n. induction ws as [|[i kd d|k d|k] ws IH]; intros n; cbn [appended]; try apply IH; [done|].
  rewrite blen_cons. cbn [fmap list_fmap]. rewrite IH, (seqZ_cons (n + 1)) by (pose proof (blen_nonneg (appended (n + 1) ws)); lia).
  cbn [r_seq]. f_equal. f_equal; lia.
Qed.

Lemma stage_all_Ok cut i ws st st' :
  map_ok (st_documents st) -> NoDup (r_id <$> st_records st) -> stage_all cut i ws st = Ok st' ->
  st_records st' = st_records st ++ appended (blen (st_records st)) ws /\
  (forall k, map_get (st_documents st') k = written ws k (map_get (st_documents st) k)) /\
  st_seqs st' = st_seqs st ++ (r_seq <$> appended (blen (st_records st)) ws) /\
  map_ok (st_documents st') /\ NoDup (r_id <$> st_records st').
Proof.
  revert i st. induction ws as [|w ws IH]; intros i st Hd Hi H; cbn [stage_all] in H.
  { injection H as <-. cbn. by rewrite !app_nil_r. }
  apply bind_Ok in H as (u & _ & H). apply bind_Ok in H as (st1 & Hs & H).
  assert (map_ok (st_documents st1) /\ NoDup (r_id <$> st_records st1)) as [Hd1 Hi1].
  { destruct w; cbn in Hs; [case_bool_decide; [done|]|..]; injection Hs as <-; cbn; try (split; [|done]).
    - split; [done|]. rewrite fmap_app. apply NoDup_app. split; [done|]. split; [set_solver|by apply NoDup_singleton].
    - by apply map_ok_set.
    - by apply map_ok_delete. }
  apply IH in H as (H1 & H2 & H3 & H4); [|done..].
  destruct w as [id kd d|k d|k]; cbn [stage] in Hs; [case_bool_decide; [done|]|..]; injection Hs as <-;
    cbn [st_records st_documents st_seqs appended] in *.
  - rewrite blen_app, blen_cons, blen_nil in H1, H3. split_and!; [|done| |apply H4..]; [rewrite H1|rewrite H3]; by rewrite <- app_assoc.
  - split_and!; [done| |done|apply H4..]. intros k'. rewrite H2, written_cons. f_equal. cbn. rewrite map_get_set.
    case_bool_decide; case_decide; congruence.
  - split_and!; [done| |done|apply H4..]. intros k'. rewrite H2, written_cons. f_equal. cbn. rewrite map_get_delete by done.
    case_bool_decide; case_decide; congruence.
Qed.

Lemma stage_all_succeeds i ws st :
  NoDup (r_id <$> st_records st ++ appended (blen (st_records st)) ws) ->
  exists st', stage_all (fun _ => false) i ws st = Ok st'.
Proof.
  revert i st. induction ws as [|w ws IH]; intros i st H; cbn [stage_all]; [by eexists|]. unfold point. cbn [mbind result_bind].
  destruct w as [id kd d|k d|k]; cbn [stage appended mbind result_bind] in *; [|by apply IH..].
  rewrite bool_decide_eq_false_2. 2: { rewrite fmap_app in H. apply NoDup_app in H as (_ & H & _). intros Hin. eapply H; [exact Hin|]. left. }
  apply IH. cbn [st_records]. rewrite blen_app, blen_cons, blen_nil, <- app_assoc. exact H.
Qed.

Lemma stage_all_cut cut i ws st : (forall p, cut p = false) -> stage_all (fun _ => false) i ws st = stage_all cut i ws st.
Proof.
  intros H. revert i st. induction ws as [|w ws IH]; intros i st; [done|]. cbn [stage_all]. unfold point. rewrite H. cbn.
  destruct (stage w st); cbn; [apply IH|done].
Qed.

Lemma seqZ_lookup_inv a n i x : seqZ a n !! i = Some x -> x = a + Z.of_nat i.
Proof. rewrite lookup_seqZ. lia. Qed.

Lemma appended_medium s ws i r :
  medium_ok s -> (records s ++ appended (blen (records s)) ws) !! i = Some r -> r_seq r = Z.of_nat i + 1.
Proof.
  intros H Hr. apply lookup_app_Some in Hr as [Hr|[Hi Hr]]; [by eapply medium_seqs|].
  assert ((r_seq <$> appended (blen (records s)) ws) !! (i - length (records s))%nat = Some (r_seq r)) as E
    by (by rewrite list_lookup_fmap, Hr).
  rewrite appended_seqs in E. apply seqZ_lookup_inv in E. unfold blen in *. lia.
Qed.

(** The outcome of a commit in full. *)
Lemma commit_cases cut e ws s s' r :
  medium_ok s -> commitSync cut e ws s = (s', r) ->
  medium_ok s' /\
  (s' = s /\ (exists x, r = Err x) \/
   performed s s' ws /\ epoch s = e /\ epoch s <> 0 /\ fresh_ids s ws /\
   (r = Ok (mkCommitResult (r_seq <$> appended (blen (records s)) ws) (blen (records s'))) \/
    r = Err Cut /\ cut CommitDurable = true)).
Proof.
  intros Hok. unfold commitSync. destruct (point cut CommitBefore); cbn [mbind result_bind]; [|intros [= <- <-]; eauto 6].
  unfold requireOwner. destruct (Z.eqb_spec (epoch s) 0); cbn [mbind result_bind]; [intros [= <- <-]; eauto 6|].
  destruct (Z.eqb_spec e (epoch s)); cbn [negb mbind result_bind]; [|intros [= <- <-]; eauto 6].
  destruct (stage_all cut 0 ws _) as [st|] eqn:E; [|intros [= <- <-]; eauto 6].
  apply stage_all_Ok in E as (E1 & E2 & E3 & E4 & E5); cbn [st_records st_documents st_seqs] in *; [|by apply medium_documents|by apply medium_ids].
  intros [= <- <-]. split.
  - constructor; cbn; [by apply medium_epoch| |done|done]. intros i r'. rewrite E1. by apply appended_medium.
  - right. cbn. split_and!; [split_and!; done|done|done|unfold fresh_ids; by rewrite <- E1|].
    rewrite E3. unfold point. destruct (cut CommitDurable); cbn; [by right|by left].
Qed.

Lemma elem_of_sort_insert {A} (cmp : A -> A -> Z) x l : sort_insert cmp x l ≡ₚ x :: l.
Proof.
  induction l as [|y l IH]; cbn; [done|]. destruct (cmp x y <=? 0); [done|]. rewrite IH. apply Permutation_swap.
Qed.

Lemma sort_by_Permutation {A} (cmp : A -> A -> Z) l : sort_by cmp l ≡ₚ l.
Proof. induction l as [|x l IH]; cbn; [done|]. by rewrite elem_of_sort_insert, IH. Qed.

Lemma elem_of_documentsOf s prefix k v :
  medium_ok s -> (k, v) ∈ documentsOf s prefix <-> memory_get s k = Some v /\ startsWith k prefix = true.
Proof.
  intros H. unfold documentsOf. rewrite sort_by_Permutation, list_elem_of_filter. cbn. unfold memory_get.
  rewrite map_get_Some by apply H. tauto.
Qed.

#[export, refine] Instance memory_store : DurableStore MediumState := {
  store_ok := medium_ok; getDocument := memory_get; scanDocuments := documentsOf; store_commit := commitSync }.
Proof.
  - intros cut e ws s s' r H E. by destruct (commit_cases _ _ _ _ _ _ H E).
  - intros cut e ws s s' r H E. destruct (commit_cases _ _ _ _ _ _ H E) as [_ [[-> ?]|[[_ [_ Hp]] _]]]; [by left|by right].
  - intros s prefix k v H. by apply elem_of_documentsOf.
Defined.

(** *** Snapshots *)

Definition values_ok (s : MediumState) : Prop :=
  Forall (fun r => json_ok (r_data r)) (records s) /\ Forall (fun d => json_ok d.2) (documents s).

Lemma num_strict_eq_finite f : is_finite f = true -> num_strict_eq f f = true.
Proof. destruct f; cbn; try done. intros _. by apply bool_decide_eq_true. Qed.

Lemma sameValue_refl a : json_ok a -> sameValue a a = true.
Proof.
  induction a as [a IH] using (induction_ltof1 _ json_size). unfold ltof in IH. intros Ha.
  destruct a as [|b|f|s|l|np es]; cbn [sameValue]; [done|by destruct b|by inversion Ha; apply num_strict_eq_finite|by apply bool_decide_eq_true|..].
  - rewrite Nat.eqb_refl. cbn. apply json_ok_arr in Ha.
    assert (forall x, x ∈ l -> sameValue x x = true) as G.
    { intros x Hx. apply IH; [|by eapply Forall_forall in Ha]. cbn [json_size]. pose proof (elem_size json_size x l Hx). lia. }
    clear IH Ha. induction l as [|x l IHl]; [done|]. rewrite G by left. cbn. apply IHl. intros y Hy. apply G. by right.
  - rewrite Nat.eqb_refl. cbn. apply json_ok_obj in Ha as [[Hnd _] Hv].
    assert (forall k v, (k, v) ∈ es -> obj_get es k = Some v /\ sameValue v v = true) as G.
    { intros k v Hin. split; [by rewrite obj_get_map; apply elem_of_list_to_map|].
      apply IH; [|by eapply Forall_forall in Hv; [|exact Hin]]. cbn [json_size].
      pose proof (elem_size (fun e => json_size e.2) (k, v) es Hin). cbn in *. lia. }
    clear IH Hnd Hv. revert G. generalize es at 1 4 as os. intros os G.
    induction os as [|[k v] os IHo]; [done|]. destruct (G k v) as [-> ->]; [left|]. cbn. apply IHo. intros k' v' Hin. apply G. by right.
Qed.

Lemma sameRecord_refl r : json_ok (r_data r) -> sameRecord r (Some r) = true.
Proof. intros H. cbn. rewrite Z.eqb_refl, !bool_decide_eq_true_2 by done. cbn. by apply sameValue_refl. Qed.

Lemma extends_log_prefix l l' : Forall (fun r => json_ok (r_data r)) l -> extends_log l (l ++ l') = true.
Proof. induction 1 as [|r l Hr Hl IH]; [done|]. cbn [extends_log app hd_error tl]. by rewrite sameRecord_refl, IH. Qed.

Lemma well_numbered_ok n ids l :
  (forall i r, l !! i = Some r -> r_seq r = n + Z.of_nat i + 1) -> NoDup (r_id <$> l) ->
  (forall r, r ∈ l -> r_id r ∉ ids) -> well_numbered n ids l = true.
Proof.
  revert n ids. induction l as [|r l IH]; intros n ids Hs Hn Hi; [done|]. cbn [well_numbered fmap list_fmap] in *.
  apply NoDup_cons in Hn as [Hr Hn]. rewrite bool_decide_eq_false_2 by (apply Hi; left).
  specialize (Hs 0%nat r eq_refl) as H0. replace (r_seq r =? n + 1) with true by (symmetry; apply Z.eqb_eq; lia). cbn.
  apply IH; [|done|].
  - intros i r' Hr'. rewrite (Hs (S i) r' Hr'). lia.
  - intros r' Hr'. rewrite not_elem_of_cons. split; [|by apply Hi; right]. intros E. apply Hr. rewrite <- E. by apply list_elem_of_fmap_2.
Qed.

Lemma import_points_none i n : import_points (fun _ => false) i n = Ok tt.
Proof. revert i. induction n as [|n IH]; intros i; cbn; [done|]. apply IH. Qed.

Lemma map_get_fold {A} (docs m : list (jstring * A)) k :
  map_ok docs ->
  map_get (fold_left (fun m '(k, v) => map_set m k v) docs m) k =
  match map_get docs k with Some v => Some v | None => map_get m k end.
Proof.
  revert m. induction docs as [|[k' v] docs IH]; intros m H; [done|]. cbn [fold_left].
  unfold map_ok in H. cbn in H. apply NoDup_cons in H as [Hk H]. rewrite IH by done.
  change (map_get ((k', v) :: docs) k) with (if bool_decide (k' = k) then Some v else map_get docs k).
  rewrite map_get_set. case_bool_decide; case_decide; subst; try congruence.
  destruct (map_get docs k) as [w|] eqn:E; [|done]. apply map_get_Some in E; [|done].
  exfalso. apply Hk. change k with (k, w).1. by apply list_elem_of_fmap_2.
Qed.

Lemma map_ok_fold {A} (docs m : list (jstring * A)) : map_ok m -> map_ok (fold_left (fun m '(k, v) => map_set m k v) docs m).
Proof. revert m. induction docs as [|[k v] docs IH]; intros m H; [done|]. cbn. by apply IH, map_ok_set. Qed.

Lemma documentsOf_ok s prefix : map_ok (documents s) -> map_ok (documentsOf s prefix).
Proof.
  unfold map_ok, documentsOf. intros H. rewrite sort_by_Permutation.
  apply (sublist_NoDup _ _ H). apply fmap_sublist, sublist_filter.
Qed.

Lemma map_get_documentsOf s k : medium_ok s -> map_get (documentsOf s []) k = memory_get s k.
Proof.
  intros H. apply option_eq. intros v. rewrite map_get_Some by (by apply documentsOf_ok, H).
  rewrite elem_of_documentsOf by done. unfold startsWith. cbn. rewrite bool_decide_eq_true_2 by done. tauto.
Qed.

(** *** A log of operations *)

Inductive store_op :=
| OpCommit (cut : StoreWritePoint -> bool) (e : Z) (writes : list StoreWrite)
| OpClaim (cut : StoreWritePoint -> bool) (expectedEpoch nextEpoch : Z)
| OpImport (cut : StoreWritePoint -> bool) (e : Z) (snapshot : StoreSnapshot).

Definition run_store_op (s : MediumState) (op : store_op) : MediumState :=
  match op with
  | OpCommit cut e writes => (commitSync cut e writes s).1
  | OpClaim cut a b => (claim cut a b s).1
  | OpImport cut e snapshot => (importSnapshot cut e snapshot s).1
  end.

Lemma run_store_op_epoch s op : epoch s <= epoch (run_store_op s op).
Proof.
  destruct op as [cut e ws|cut a b|cut e sn]; cbn.
  - unfold commitSync. destruct (point _ _ ≫= _); cbn; lia.
  - unfold claim. destruct (point cut ClaimBefore); cbn; [|lia]. unfold throw_unless.
    destruct (_ && _) eqn:E; cbn; [|lia]. destruct (Z.eqb_spec (epoch s) a); cbn; lia.
  - unfold importSnapshot. destruct (point _ _ ≫= _); cbn; lia.
Qed.

Lemma run_store_ops_epoch ops s : epoch s <= epoch (fold_left run_store_op ops s).
Proof.
  revert s. induction ops as [|op ops IH]; intros s; cbn; [lia|]. pose proof (run_store_op_epoch s op). specialize (IH (run_store_op s op)). lia.
Qed.

(** ** Theorems *)

(** C15. A commit is all or nothing wherever the process is killed: either the
    store is unchanged and the caller gets an error, or every write is there,
    records numbered on without a gap and documents as the writes leave them,
    and the caller gets the sequence numbers unless it was killed after the
    writes became durable.  Without a kill a commit succeeds exactly for the
    owner's epoch and new record ids. *)
Theorem commit_atomic cut e ws s :
  medium_ok s ->
  let '(s', r) := commitSync cut e ws s in
  medium_ok s' /\
  (s' = s /\ (exists x, r = Err x) \/
   performed s s' ws /\
   (r = Ok (mkCommitResult (seqZ (blen (records s) + 1) (blen (records s') - blen (records s))) (blen (records s'))) \/
    r = Err Cut /\ cut CommitDurable = true)) /\
  ((forall p, cut p = false) -> is_ok r = true <-> epoch s <> 0 /\ e = epoch s /\ fresh_ids s ws).
Proof.
  intros Hok. destruct (commitSync cut e ws s) as [s' r] eqn:E.
  destruct (commit_cases _ _ _ _ _ _ Hok E) as [Hok' Hc]. split; [done|]. split.
  - destruct Hc as [Hc|(Hp & _ & _ & _ & Hr)]; [by left|]. right. split; [done|].
    destruct Hr as [->|Hr]; [left|by right]. destruct Hp as (_ & -> & _). rewrite appended_seqs, blen_app. do 3 f_equal. lia.
  - intros Hcut. split.
    + intros Hr. destruct Hc as [(_ & x & ->)|(_ & He & H0 & Hf & _)]; [done|]. by split_and!.
    + intros (H0 & -> & Hf). destruct (stage_all_succeeds 0 ws (mkStaging (records s) (documents s) []) Hf) as [st Hst].
      rewrite (stage_all_cut _ _ _ _ Hcut) in Hst. revert E. unfold commitSync, point, requireOwner.
      rewrite !Hcut, Z.eqb_refl. destruct (Z.eqb_spec (epoch s) 0); [done|]. cbn [mbind result_bind negb]. rewrite Hst. by intros [= _ <-].
Qed.

Definition sample_writes : list StoreWrite := [Append $"a" $"note" JsNull; Put $"k" (JsBool true)].

Lemma commit_atomic_witness :
  let s := mkMedium 1 [] [] in
  medium_ok s /\
  commitSync (fun p => match p with CommitDurable => true | _ => false end) 1 sample_writes s =
    (mkMedium 1 [mkRecord 1 $"a" $"note" JsNull] [($"k", JsBool true)], Err Cut) /\
  medium_ok (commitSync (fun _ => false) 1 sample_writes s).1.
Proof.
  assert (medium_ok (mkMedium 1 [] [])) as H by (constructor; cbn; [lia|by intros []|constructor|constructor]).
  split_and!; [done|done|]. exact (proj1 (commit_atomic (fun _ => false) 1 sample_writes _ H)).
Defined.

(** An owner that lost the store cannot write again: once the epoch has
    passed its own, every commit, import and claim under the old epoch leaves
    the store as it is, whatever happens in between. *)
Theorem stale_owner_fenced ops s e cut ws sn :
  e < epoch s ->
  let s' := fold_left run_store_op ops s in
  run_store_op s' (OpCommit cut e ws) = s' /\ is_ok (commitSync cut e ws s').2 = false /\
  run_store_op s' (OpImport cut e sn) = s' /\ run_store_op s' (OpClaim cut e (e + 1)) = s'.
Proof.
  intros He s'. assert (e < epoch s') as H by (pose proof (run_store_ops_epoch ops s); unfold s'; lia). clearbody s'. clear He.
  assert (exists x, requireOwner s' e = Err x) as [x Hx].
  { unfold requireOwner. destruct (epoch s' =? 0); [by eexists|]. destruct (Z.eqb_spec e (epoch s')); [lia|by eexists]. }
  cbn [run_store_op]. unfold commitSync, importSnapshot, claim. rewrite Hx.
  destruct (point cut CommitBefore), (point cut ImportBefore), (point cut ClaimBefore); cbn; split_and!; try done.
  all: unfold throw_unless; destruct (_ && _); cbn; [|done]; destruct (Z.eqb_spec (epoch s') e); [lia|done].
Qed.

Lemma stale_owner_fenced_witness :
  let s := (claim (fun _ => false) 0 1 createMemoryStoreMedium).1 in
  let s' := (claim (fun _ => false) 1 2 s).1 in
  1 < epoch s' /\ run_store_op s' (OpCommit (fun _ => false) 1 sample_writes) = s'.
Proof.
  split; [done|].
  exact (proj1 (stale_owner_fenced [] (mkMedium 2 [] []) 1 (fun _ => false) sample_writes (mkSnapshot 0 0 [] []) eq_refl)).
Defined.

(** A snapshot carries a store to another host: imported under a newer epoch
    into a store whose log it extends, it makes the log and every document those
    of the source, and importing it again changes nothing a reader sees.  A
    failed import changes nothing, unless the process was killed after the
    import was durable. *)
Theorem snapshot_transfer source target e :
  medium_ok source -> values_ok source -> medium_ok target -> records target `prefix_of` records source ->
  epoch target = e -> epoch source < e ->
  let sn := exportSnapshot source in
  let '(s', r) := importSnapshot (fun _ => false) e sn target in
  r = Ok tt /\ medium_ok s' /\ epoch s' = e /\ records s' = records source /\
  (forall k, memory_get s' k = memory_get source k) /\
  (forall cut sn, let '(t, q) := importSnapshot cut e sn target in t = target \/ q = point cut ImportDurable) /\
  let '(s2, r2) := importSnapshot (fun _ => false) e sn s' in
  r2 = Ok tt /\ records s2 = records source /\ forall k, memory_get s2 k = memory_get source k.
Proof.
  intros Hs Hv Ht Hp He Hlt. cbn zeta.
  assert (forall t, medium_ok t -> records t `prefix_of` records source -> epoch t = e ->
    importSnapshot (fun _ => false) e (exportSnapshot source) t =
    (mkMedium e (records source) (fold_left (fun m '(k, v) => map_set m k v) (documentsOf source []) []), Ok tt)) as G.
  { intros t Hok [tail Hr] Ee. unfold importSnapshot, requireOwner, importedTail. cbn [point mbind result_bind].
    pose proof (medium_epoch _ Hs). destruct (Z.eqb_spec (epoch t) 0); [lia|]. rewrite Ee, Z.eqb_refl. cbn [negb mbind result_bind].
    cbn [exportSnapshot sn_epoch sn_head sn_records sn_documents]. destruct (Z.leb_spec e (epoch source)); [lia|].
    cbn [negb throw_unless mbind result_bind]. rewrite Z.eqb_refl, (well_numbered_ok 0 [] (records source)).
    2: { intros i r Hi. rewrite (medium_seqs _ Hs i r Hi). lia. } 2: apply Hs. 2: { intros r _. set_solver. }
    replace ((length (records t) <=? length (records source))%nat && extends_log (records t) (records source)) with true.
    2: { symmetry. destruct Hv as [Hv _]. rewrite Hr, Forall_app in Hv. rewrite Hr, length_app, extends_log_prefix by apply Hv.
         replace (length (records t) <=? length (records t) + length tail)%nat with true by (symmetry; apply Nat.leb_le; lia). done. }
    replace (drop (length (records t)) (records source)) with tail by (by rewrite Hr, drop_app_length).
    cbn [negb andb orb mbind result_bind]. rewrite import_points_none. cbn [mbind result_bind point]. by rewrite <- Hr. }
  rewrite (G target Ht Hp He). cbn [epoch records].
  assert (forall k, memory_get (mkMedium e (records source) (fold_left (fun m '(k, v) => map_set m k v) (documentsOf source []) [])) k
    = memory_get source k) as Hget.
  { intros k. unfold memory_get at 1. cbn [documents]. rewrite map_get_fold by (apply documentsOf_ok, Hs).
    rewrite map_get_documentsOf by done. by destruct (memory_get source k). }
  assert (medium_ok (mkMedium e (records source) (fold_left (fun m '(k, v) => map_set m k v) (documentsOf source []) []))) as Hok'.
  { constructor; cbn; [pose proof (medium_epoch _ Hs); lia|apply Hs|apply Hs|]. apply map_ok_fold. constructor. }
  split_and!; try done.
  - intros cut sn. unfold importSnapshot. destruct (point _ _ ≫= _); [by right|by left].
  - rewrite (G _ Hok'); [|done|done]. done.
Qed.

Lemma snapshot_transfer_witness :
  let source := mkMedium 1 [mkRecord 1 $"a" $"note" JsNull] [($"k", JsBool true)] in
  medium_ok source /\
  exists s', importSnapshot (fun _ => false) 2 (exportSnapshot source) (mkMedium 2 [] []) = (s', Ok tt) /\ records s' = records source.
Proof.
  set (source := mkMedium 1 [mkRecord 1 $"a" $"note" JsNull] [($"k", JsBool true)]).
  assert (medium_ok source) as Hs.
  { constructor; cbn; [lia| |apply NoDup_singleton|apply NoDup_singleton]. intros [|[|i]] r; cbn; [|done|done]. by intros [= <-]. }
  assert (medium_ok (mkMedium 2 [] [])) as Ht by (constructor; cbn; [lia|by intros []|constructor|constructor]).
  split; [done|]. pose proof (snapshot_transfer source (mkMedium 2 [] []) 2 Hs) as H.
  destruct (importSnapshot (fun _ => false) 2 (exportSnapshot source) (mkMedium 2 [] [])) as [s' r] eqn:E.
  exists s'. cbv zeta in H. rewrite E in H.
  destruct H as (-> & _ & _ & Hr & _); [|done|apply prefix_nil|done|done|done].
  split; repeat constructor.
Defined.
