(* ===== verification/Ledger.v ===== *)
(** * The execution ledger (packages/agent/src/execution: ledger-types.ts, ledger-transition.ts, ledger-codec.ts, ledger.ts)

One durable row per tool execution, walked from admission to its outcome by
the commands of its issuer and its executor.  A row is written before the step
it allows is taken, so a process that dies anywhere leaves a row a restart can
judge.  The transition function is pure; the ledger reads the row from a
[DurableStore], applies the transition and commits the result.  Operations run
one at a time on the store's admission line, so a history of the ledger is a
sequence of them, each of which may be cut.

Times, generations and sequence numbers are JavaScript numbers. *)
From S2P Require Import Prelude JsString JsonText JsNumber JsObject Json DurableStore.
From Stdlib Require Import SpecFloat.
#[local] Open Scope Z_scope.

(** ** Data (ledger-types.ts) *)

Record ExecutionKey := mkKey { issuer : jstring; commandId : jstring }.

#[export] Instance ExecutionKey_eq_dec : EqDecision ExecutionKey.
Proof. solve_decision. Defined.

Record ExecutionAdmission := mkAdmission {
  a_key : ExecutionKey; executor : jstring; workspace : jstring; scope : jstring; generation : num;
  requestDigest : jstring; admittedAt : num; a_leaseUntil : num; reconcilable : bool }.

Record FrozenCall := mkFrozen { f_name : jstring; f_args : json; digest : jstring }.

Inductive StopReason := cancelled | lease_expired | hand_restarted | uncertain.

#[export] Instance StopReason_eq_dec : EqDecision StopReason.
Proof. solve_decision. Defined.

(** [uncertain] is [false] for a result and for a blocked call. *)
Inductive ExecutionOutcome :=
| ResultOutcome (value : json) (hooksRan : bool)
| BlockedOutcome (value : json) (hooksRan : bool)
| StoppedOutcome (reason : StopReason) (hooksRan uncertain : bool).

Inductive ExecutionProgress :=
| StAdmitted
| Preparing
| AwaitingConsent (call : FrozenCall)
| Prepared (call : FrozenCall)
| Released (call : FrozenCall)
| Dispatched (call : FrozenCall)
| Reconciling (call : FrozenCall) (until : num)
| Settled (outcome : ExecutionOutcome)
| Acked.

Record ExecutionEntry := mkEntry {
  admission : ExecutionAdmission; leaseUntil : num; renewSeq : num;
  effectPossible : bool; bodyDispatched : bool; progress : ExecutionProgress }.

Definition initialLeaseUntil (e : ExecutionEntry) : num := a_leaseUntil (admission e).

Inductive ExecutionEvent :=
| EvPrepare | EvEffect | EvConsent | EvRelease | EvDispatch | EvCancel | EvAbort | EvAck | EvExpire | EvRestart
| EvFreeze (call : FrozenCall) (awaitingConsent : bool)
| EvResult (value : json)
| EvBlock (value : json)
| EvRenew (seq leaseUntil : num).

Record Actor := mkActor { actor_id : jstring; approvedWorkspace : option jstring }.

Record ExecutionCommand := mkCommand {
  c_key : ExecutionKey; c_generation : num; actor : Actor; now : num; event : ExecutionEvent }.

Inductive LedgerRefusal :=
| not_found | identity_conflict | invalid_admission | stale_generation | unauthorized | invalid_transition
| invalid_renewal | invalid_time | terminal | epoch_fenced.

Inductive LedgerReply :=
| Applied (entry : ExecutionEntry)
| Replayed (entry : ExecutionEntry)
| RefusedReply (reason : LedgerRefusal)
| ResultExpired.

Definition MAX_EXECUTION_LIFETIME_MS : num := of_Z 86400000.
Definition RECONCILIATION_GRACE_MS : num := of_Z 30000.

Definition replayed (entry : ExecutionEntry) : LedgerReply :=
  match progress entry with Acked => ResultExpired | _ => Replayed entry end.

(** ** Transitions (ledger-transition.ts) *)

Definition with_progress (e : ExecutionEntry) (p : ExecutionProgress) : ExecutionEntry :=
  mkEntry (admission e) (leaseUntil e) (renewSeq e) (effectPossible e) (bodyDispatched e) p.

Definition advance (e : ExecutionEntry) (p : ExecutionProgress) : LedgerReply := Applied (with_progress e p).

Definition settle (e : ExecutionEntry) (reason : StopReason) : LedgerReply :=
  advance e (Settled (StoppedOutcome reason (effectPossible e) (effectPossible e || bodyDispatched e))).

Definition authorized (e : ExecutionEntry) (c : ExecutionCommand) : bool :=
  let id := actor_id (actor c) in
  match event c with
  | EvCancel =>
      bool_decide (id = issuer (a_key (admission e)))
      || bool_decide (approvedWorkspace (actor c) = Some (workspace (admission e)))
  | EvConsent | EvRelease | EvAbort | EvAck | EvRenew _ _ => bool_decide (id = issuer (a_key (admission e)))
  | EvPrepare | EvEffect | EvFreeze _ _ | EvBlock _ | EvDispatch | EvResult _ | EvExpire | EvRestart =>
      bool_decide (id = executor (admission e))
  end.

Definition recover_entry (e : ExecutionEntry) (now : num) : LedgerReply :=
  match progress e with
  | StAdmitted | Preparing => settle e hand_restarted
  | Dispatched call =>
      if reconcilable (admission e)
      then advance e (Reconciling call (num_min (leaseUntil e) (num_add now RECONCILIATION_GRACE_MS)))
      else settle e hand_restarted
  | Reconciling _ until => if num_leb until now then settle e hand_restarted else replayed e
  | Prepared _ | AwaitingConsent _ | Released _ | Settled _ | Acked => replayed e
  end.

Definition call_of (p : ExecutionProgress) : option FrozenCall :=
  match p with
  | AwaitingConsent call | Prepared call | Released call | Dispatched call | Reconciling call _ => Some call
  | _ => None
  end.

(** The event on a row that is neither settled nor acked, in time. *)
Definition transition_live (e : ExecutionEntry) (event : ExecutionEvent) (now : num) : LedgerReply :=
  match event with
  | EvPrepare => match progress e with StAdmitted => advance e Preparing | _ => replayed e end
  | EvEffect =>
      if effectPossible e then replayed e
      else match progress e with
           | Preparing => Applied (mkEntry (admission e) (leaseUntil e) (renewSeq e) true (bodyDispatched e) (progress e))
           | _ => RefusedReply invalid_transition
           end
  | EvFreeze call awaitingConsent =>
      match progress e, effectPossible e with
      | Preparing, true => advance e (if awaitingConsent then AwaitingConsent call else Prepared call)
      | p, _ =>
          match call_of p with
          | Some c => if bool_decide (digest c = digest call) then replayed e else RefusedReply invalid_transition
          | None => RefusedReply invalid_transition
          end
      end
  | EvBlock value =>
      match progress e with
      | Preparing => advance e (Settled (BlockedOutcome value (effectPossible e)))
      | _ => RefusedReply invalid_transition
      end
  | EvConsent =>
      match progress e with AwaitingConsent call => advance e (Prepared call) | _ => RefusedReply invalid_transition end
  | EvRelease =>
      match progress e with
      | Prepared call => advance e (Released call)
      | Released _ => replayed e
      | _ => if bodyDispatched e then replayed e else RefusedReply invalid_transition
      end
  | EvDispatch =>
      if bodyDispatched e then replayed e
      else match progress e with
           | Released call => Applied (mkEntry (admission e) (leaseUntil e) (renewSeq e) (effectPossible e) true (Dispatched call))
           | _ => RefusedReply invalid_transition
           end
  | EvResult value =>
      match progress e with
      | Dispatched _ | Reconciling _ _ => advance e (Settled (ResultOutcome value (effectPossible e)))
      | _ => RefusedReply invalid_transition
      end
  | EvCancel => settle e cancelled
  | EvAbort => if bodyDispatched e then RefusedReply invalid_transition else settle e cancelled
  | EvAck => RefusedReply invalid_transition
  | EvRenew seq lease =>
      if num_leb seq (renewSeq e) then replayed e
      else if negb (is_safe_integer seq) || negb (is_finite lease) || num_leb lease (leaseUntil e)
              || num_ltb (num_add (admittedAt (admission e)) MAX_EXECUTION_LIFETIME_MS) lease
      then RefusedReply invalid_renewal
      else Applied (mkEntry (admission e) lease seq (effectPossible e) (bodyDispatched e) (progress e))
  | EvExpire => replayed e
  | EvRestart => recover_entry e now
  end.

Definition transitionExecution (e : ExecutionEntry) (c : ExecutionCommand) : LedgerReply :=
  let now := now c in
  if negb (num_strict_eq (c_generation c) (generation (admission e))) then RefusedReply stale_generation
  else if negb (authorized e c) then RefusedReply unauthorized
  else if negb (is_finite now) || num_ltb now (admittedAt (admission e)) then RefusedReply invalid_time
  else
    match progress e with
    | Acked => match event c with EvAck => Replayed e | _ => ResultExpired end
    | Settled _ =>
        match event c with
        | EvAck => advance e Acked
        | EvRelease | EvAbort | EvConsent => RefusedReply terminal
        | _ => replayed e
        end
    | p =>
        if num_leb (leaseUntil e) now then settle e lease_expired
        else if match p with Reconciling _ until => num_leb until now | _ => false end then settle e hand_restarted
        else transition_live e (event c) now
    end.

(** ** Durable rows (ledger-codec.ts) *)

Definition object_json (fields : list (jstring * json)) : json := JsObj false fields.

Definition frozen_json (c : FrozenCall) : json :=
  object_json [($"name", JsStr (f_name c)); ($"args", f_args c); ($"digest", JsStr (digest c))].

Definition reason_text (r : StopReason) : jstring :=
  match r with
  | cancelled => $"cancelled" | lease_expired => $"lease_expired" | hand_restarted => $"hand_restarted" | uncertain => $"uncertain"
  end.

Definition outcome_json (o : ExecutionOutcome) : json :=
  match o with
  | ResultOutcome value hooksRan =>
      object_json [($"reason", JsStr $"result"); ($"value", value); ($"hooksRan", JsBool hooksRan); ($"uncertain", JsBool false)]
  | BlockedOutcome value hooksRan =>
      object_json [($"reason", JsStr $"blocked"); ($"value", value); ($"hooksRan", JsBool hooksRan); ($"uncertain", JsBool false)]
  | StoppedOutcome reason hooksRan u =>
      object_json [($"reason", JsStr (reason_text reason)); ($"hooksRan", JsBool hooksRan); ($"uncertain", JsBool u)]
  end.

Definition state_text (p : ExecutionProgress) : jstring :=
  match p with
  | StAdmitted => $"admitted" | Preparing => $"preparing" | AwaitingConsent _ => $"prepared_awaiting_consent"
  | Prepared _ => $"prepared" | Released _ => $"released" | Dispatched _ => $"dispatched" | Reconciling _ _ => $"reconciling"
  | Settled _ => $"settled" | Acked => $"acked"
  end.

Definition progress_json (p : ExecutionProgress) : json :=
  object_json (($"state", JsStr (state_text p)) ::
    match p with
    | AwaitingConsent c | Prepared c | Released c | Dispatched c => [($"call", frozen_json c)]
    | Reconciling c until => [($"call", frozen_json c); ($"until", JsNum until)]
    | Settled o => [($"outcome", outcome_json o)]
    | StAdmitted | Preparing | Acked => []
    end).

Definition entry_json (e : ExecutionEntry) : json :=
  let a := admission e in
  object_json [($"issuer", JsStr (issuer (a_key a))); ($"commandId", JsStr (commandId (a_key a)));
    ($"executor", JsStr (executor a)); ($"workspace", JsStr (workspace a)); ($"scope", JsStr (scope a));
    ($"generation", JsNum (generation a)); ($"requestDigest", JsStr (requestDigest a));
    ($"admittedAt", JsNum (admittedAt a)); ($"leaseUntil", JsNum (leaseUntil e)); ($"reconcilable", JsBool (reconcilable a));
    ($"initialLeaseUntil", JsNum (initialLeaseUntil e)); ($"renewSeq", JsNum (renewSeq e));
    ($"effectPossible", JsBool (effectPossible e)); ($"bodyDispatched", JsBool (bodyDispatched e));
    ($"progress", progress_json (progress e))].

Definition member (v : json) (k : jstring) : option json := match v with JsObj _ es => obj_get es k | _ => None end.

Definition string_of (v : option json) : option jstring := match v with Some (JsStr s) => Some s | _ => None end.
Definition bool_of (v : option json) : option bool := match v with Some (JsBool b) => Some b | _ => None end.
Definition number_of (v : option json) : option num :=
  match v with Some (JsNum f) => if is_finite f then Some f else None | _ => None end.

Definition frozen (v : option json) : option FrozenCall :=
  v ≫= fun v => string_of (member v $"name") ≫= fun name => string_of (member v $"digest") ≫= fun d =>
  member v $"args" ≫= fun args => Some (mkFrozen name args d).

Definition outcome (v : option json) : option ExecutionOutcome :=
  v ≫= fun v => bool_of (member v $"hooksRan") ≫= fun hooksRan => bool_of (member v $"uncertain") ≫= fun u : bool =>
  string_of (member v $"reason") ≫= fun reason =>
  if bool_decide (reason = $"result") then
    member v $"value" ≫= fun value => if u then None else Some (ResultOutcome value hooksRan)
  else if bool_decide (reason = $"blocked") then
    member v $"value" ≫= fun value => if u then None else Some (BlockedOutcome value hooksRan)
  else if bool_decide (reason = $"cancelled") then Some (StoppedOutcome cancelled hooksRan u)
  else if bool_decide (reason = $"lease_expired") then Some (StoppedOutcome lease_expired hooksRan u)
  else if bool_decide (reason = $"hand_restarted") then Some (StoppedOutcome hand_restarted hooksRan u)
  else if bool_decide (reason = $"uncertain") then Some (StoppedOutcome uncertain hooksRan u)
  else None.

Definition progress_of (v : option json) : option ExecutionProgress :=
  v ≫= fun v => string_of (member v $"state") ≫= fun state =>
  let call := frozen (member v $"call") in
  if bool_decide (state = $"admitted") then Some StAdmitted
  else if bool_decide (state = $"preparing") then Some Preparing
  else if bool_decide (state = $"acked") then Some Acked
  else if bool_decide (state = $"prepared") then Prepared <$> call
  else if bool_decide (state = $"prepared_awaiting_consent") then AwaitingConsent <$> call
  else if bool_decide (state = $"released") then Released <$> call
  else if bool_decide (state = $"dispatched") then Dispatched <$> call
  else if bool_decide (state = $"reconciling") then
    call ≫= fun call => Reconciling call <$> number_of (member v $"until")
  else if bool_decide (state = $"settled") then Settled <$> outcome (member v $"outcome")
  else None.

Inductive LedgerFailure := StoreFailed (x : StoreFailure) | CorruptRow.

(** The typed reading of a row; [None] is [ExecutionLedgerCorruptError]. *)
Definition entry_of (v : json) : option ExecutionEntry :=
  string_of (member v $"issuer") ≫= fun i => string_of (member v $"commandId") ≫= fun c =>
  string_of (member v $"executor") ≫= fun x => string_of (member v $"workspace") ≫= fun w =>
  string_of (member v $"scope") ≫= fun s => string_of (member v $"requestDigest") ≫= fun d =>
  number_of (member v $"generation") ≫= fun g => number_of (member v $"admittedAt") ≫= fun at_ =>
  number_of (member v $"leaseUntil") ≫= fun l => number_of (member v $"initialLeaseUntil") ≫= fun il =>
  number_of (member v $"renewSeq") ≫= fun r => bool_of (member v $"reconcilable") ≫= fun rec =>
  bool_of (member v $"effectPossible") ≫= fun ep => bool_of (member v $"bodyDispatched") ≫= fun bd =>
  progress_of (member v $"progress") ≫= fun p =>
  Some (mkEntry (mkAdmission (mkKey i c) x w s g d at_ il rec) l r ep bd p).

Definition decodeExecution (v : json) : result LedgerFailure ExecutionEntry :=
  match entry_of v with Some e => Ok e | None => Err CorruptRow end.

(** ** Operations (ledger.ts) *)

Definition LEDGER_PREFIX : jstring := $"execution.ledger:".

Definition ledger_key (k : ExecutionKey) : jstring := LEDGER_PREFIX ++ pair_text (issuer k) (commandId k).

Definition event_kind (e : ExecutionEvent) : jstring :=
  match e with
  | EvPrepare => $"prepare" | EvEffect => $"effect" | EvConsent => $"consent" | EvRelease => $"release" | EvDispatch => $"dispatch"
  | EvCancel => $"cancel" | EvAbort => $"abort" | EvAck => $"ack" | EvExpire => $"expire" | EvRestart => $"restart"
  | EvFreeze _ _ => $"freeze" | EvResult _ => $"result" | EvBlock _ => $"block" | EvRenew _ _ => $"renew"
  end.

(** The row an admission creates, or why it is refused. *)
Definition valid_admission (a : ExecutionAdmission) : bool :=
  forallb (fun s => negb (bool_decide (s = [])))
    [issuer (a_key a); commandId (a_key a); executor a; workspace a; scope a; requestDigest a]
  && is_safe_integer (generation a) && negb (num_ltb (generation a) (of_Z 1))
  && is_finite (admittedAt a) && is_finite (a_leaseUntil a)
  && negb (num_leb (a_leaseUntil a) (admittedAt a))
  && negb (num_ltb (num_add (admittedAt a) MAX_EXECUTION_LIFETIME_MS) (a_leaseUntil a)).

Definition same_admission (prior : ExecutionEntry) (a : ExecutionAdmission) : bool :=
  let p := admission prior in
  bool_decide (executor p = executor a) && bool_decide (workspace p = workspace a) && bool_decide (scope p = scope a)
  && num_strict_eq (generation p) (generation a) && bool_decide (requestDigest p = requestDigest a)
  && num_strict_eq (admittedAt p) (admittedAt a) && num_strict_eq (initialLeaseUntil prior) (a_leaseUntil a)
  && Bool.eqb (reconcilable p) (reconcilable a).

Section Ledger.
Context {S : Type} `{DurableStore S}.

Definition read (s : S) (k : ExecutionKey) : result LedgerFailure (option ExecutionEntry) :=
  match getDocument s (ledger_key k) with
  | None => Ok None
  | Some v => Some <$> decodeExecution v
  end.

(** What one mutation needs from outside: the ledger's epoch, a new record id,
    and where the process is killed. *)
Record attempt := mkAttempt { at_epoch : Z; at_id : jstring; at_cut : StoreWritePoint -> bool }.

Definition persist (w : attempt) (s : S) (e : ExecutionEntry) (kind : jstring) (audit : bool) : S * result LedgerFailure unit :=
  let k := a_key (admission e) in
  let record := Append (at_id w) (if audit then $"execution.audit" else $"execution.transition")
    (object_json [($"issuer", JsStr (issuer k)); ($"commandId", JsStr (commandId k));
       ($"generation", JsNum (generation (admission e))); ($"event", JsStr kind); ($"state", JsStr (state_text (progress e)))]) in
  let writes := record :: (if audit then [] else [Put (ledger_key k) (entry_json e)]) in
  let '(s', r) := store_commit (at_cut w) (at_epoch w) writes s in
  (s', match r with Ok _ => Ok tt | Err x => Err (StoreFailed x) end).

(** The reply once the row is durable. *)
Definition reply_after (p : S * result LedgerFailure unit) (reply : LedgerReply) : S * result LedgerFailure LedgerReply :=
  (p.1, p.2 ≫= fun _ => Ok reply).

Definition apply (w : attempt) (guard : option LedgerRefusal) (c : ExecutionCommand) (s : S) : S * result LedgerFailure LedgerReply :=
  match guard with
  | Some refusal => (s, Ok (RefusedReply refusal))
  | None =>
      match read s (c_key c) with
      | Err x => (s, Err x)
      | Ok None => (s, Ok (RefusedReply not_found))
      | Ok (Some e) =>
          let reply := transitionExecution e c in
          match reply with
          | Applied e' => reply_after (persist w s e' (event_kind (event c)) false) reply
          | Replayed _ =>
              match progress e, event c with
              | Settled _, (EvResult _ | EvCancel) => reply_after (persist w s e (event_kind (event c)) true) reply
              | _, _ => (s, Ok reply)
              end
          | _ => (s, Ok reply)
          end
      end
  end.

Definition admit_execution (w : attempt) (guard : option LedgerRefusal) (a : ExecutionAdmission) (s : S) : S * result LedgerFailure LedgerReply :=
  match guard with
  | Some refusal => (s, Ok (RefusedReply refusal))
  | None =>
      match read s (a_key a) with
      | Err x => (s, Err x)
      | Ok (Some prior) => (s, Ok (if same_admission prior a then replayed prior else RefusedReply identity_conflict))
      | Ok None =>
          if negb (valid_admission a) then (s, Ok (RefusedReply invalid_admission))
          else
            let e := mkEntry a (a_leaseUntil a) (of_Z 0) false false StAdmitted in
            reply_after (persist w s e $"admit" false) (Applied e)
      end
  end.

Definition scan (s : S) : result LedgerFailure (list ExecutionEntry) :=
  traverse (fun d => decodeExecution d.2) (scanDocuments s LEDGER_PREFIX).

Definition restart_command (e : ExecutionEntry) (now : num) : ExecutionCommand :=
  mkCommand (a_key (admission e)) (generation (admission e)) (mkActor (executor (admission e)) None) now EvRestart.

(** One restart command per document found at the start. *)
Fixpoint recover_rows (w : nat -> attempt) (now : num) (i : nat) (rows : list StoreDocument) (s : S) : S * result LedgerFailure unit :=
  match rows with
  | [] => (s, Ok tt)
  | d :: rows =>
      match decodeExecution d.2 with
      | Err x => (s, Err x)
      | Ok e =>
          let '(s', r) := apply (w i) None (restart_command e now) s in
          match r with Err x => (s', Err x) | Ok _ => recover_rows w now (i + 1)%nat rows s' end
      end
  end.

Definition recover (w : nat -> attempt) (now : num) (s : S) : S * result LedgerFailure unit :=
  recover_rows w now 0 (scanDocuments s LEDGER_PREFIX) s.
End Ledger.

(** ** Reading rows back *)

(** The numbers of a row are finite. *)
Definition progress_finite (p : ExecutionProgress) : bool :=
  match p with Reconciling _ until => is_finite until | _ => true end.

Definition entry_finite (e : ExecutionEntry) : bool :=
  is_finite (generation (admission e)) && is_finite (admittedAt (admission e)) && is_finite (leaseUntil e)
  && is_finite (initialLeaseUntil e) && is_finite (renewSeq e) && progress_finite (progress e).

Lemma frozen_round c : frozen (Some (frozen_json c)) = Some c.
Proof. destruct c. vm_compute. reflexivity. Qed.

Lemma outcome_round o : outcome (Some (outcome_json o)) = Some o.
Proof. destruct o as [v h|v h|[] h u]; vm_compute; reflexivity. Qed.

Lemma progress_round p :
  progress_of (Some (progress_json p)) = if progress_finite p then Some p else None.
Proof.
  destruct p as [| |[]|[]|[]|[]|[] []|[v h|v h|[] h u]|]; vm_compute; reflexivity.
Qed.

Lemma entry_round e : entry_of (entry_json e) = if entry_finite e then Some e else None.
Proof.
  destruct e as [[[i c] x w s g d at_ il rec] l r ep bd p]. pose proof (progress_round p) as Hp.
  assert (entry_of (entry_json (mkEntry (mkAdmission (mkKey i c) x w s g d at_ il rec) l r ep bd p)) =
    number_of (Some (JsNum g)) ≫= fun g => number_of (Some (JsNum at_)) ≫= fun at_ =>
    number_of (Some (JsNum l)) ≫= fun l => number_of (Some (JsNum il)) ≫= fun il =>
    number_of (Some (JsNum r)) ≫= fun r => progress_of (Some (progress_json p)) ≫= fun p =>
    Some (mkEntry (mkAdmission (mkKey i c) x w s g d at_ il rec) l r ep bd p)) as -> by reflexivity.
  rewrite Hp. unfold entry_finite, number_of, initialLeaseUntil. cbn [admission generation admittedAt leaseUntil a_leaseUntil renewSeq progress].
  by destruct (is_finite g), (is_finite at_), (is_finite l), (is_finite il), (is_finite r), (progress_finite p).
Qed.

Lemma decode_entry_json e : decodeExecution (entry_json e) = if entry_finite e then Ok e else Err CorruptRow.
Proof. unfold decodeExecution. rewrite entry_round. by destruct (entry_finite e). Qed.

Lemma number_of_finite v f : number_of v = Some f -> is_finite f = true.
Proof. destruct v as [[]|]; cbn; try done. destruct (is_finite n) eqn:E; [|done]. by intros [= <-]. Qed.

Lemma progress_of_finite v p : progress_of v = Some p -> progress_finite p = true.
Proof.
  unfold progress_of. intros (w & -> & (t & Ht & H)%bind_Some)%bind_Some. cbn zeta in H.
  destruct (bool_decide (t = $"reconciling")) eqn:E; [apply bool_decide_eq_true in E; subst t|].
  - repeat (rewrite bool_decide_eq_false_2 in H by done).
    apply bind_Some in H as (c & _ & H). apply fmap_Some in H as (u & Hu & ->). by apply number_of_finite in Hu.
  - repeat (destruct (bool_decide _) in H; [|]); try done;
      repeat match goal with
      | H : Some _ = Some _ |- _ => injection H as <-
      | H : _ <$> _ = Some _ |- _ => apply fmap_Some in H as (? & _ & ->)
      end; done.
Qed.

Lemma entry_of_finite v e : entry_of v = Some e -> entry_finite e = true.
Proof.
  unfold entry_of. intros H. repeat (apply bind_Some in H as (? & ? & H)). injection H as <-.
  repeat match goal with Hn : number_of _ = Some _ |- _ => apply number_of_finite in Hn end.
  match goal with Hp : progress_of _ = Some _ |- _ => apply progress_of_finite in Hp end.
  unfold entry_finite, initialLeaseUntil. cbn [admission generation admittedAt leaseUntil a_leaseUntil renewSeq progress].
  by repeat (apply andb_true_intro; split).
Qed.

Lemma ledger_key_inj k k' : ledger_key k = ledger_key k' -> k = k'.
Proof. unfold ledger_key. intros [E1 E2]%app_inv_head%pair_text_inj. destruct k, k'; cbn in *. congruence. Qed.

(** ** The steps of a row *)

Definition live (p : ExecutionProgress) : bool := match p with Settled _ | Acked => false | _ => true end.

(** What an applied command does, and who sent it. *)
Inductive row_step (e : ExecutionEntry) (c : ExecutionCommand) (e' : ExecutionEntry) : Prop :=
| step_prepare :
    event c = EvPrepare -> progress e = StAdmitted -> e' = with_progress e Preparing -> row_step e c e'
| step_effect :
    event c = EvEffect -> progress e = Preparing -> effectPossible e = false ->
    e' = mkEntry (admission e) (leaseUntil e) (renewSeq e) true (bodyDispatched e) (progress e) -> row_step e c e'
| step_freeze call awaitingConsent :
    event c = EvFreeze call awaitingConsent -> progress e = Preparing -> effectPossible e = true ->
    e' = with_progress e (if awaitingConsent then AwaitingConsent call else Prepared call) -> row_step e c e'
| step_block value :
    event c = EvBlock value -> progress e = Preparing ->
    e' = with_progress e (Settled (BlockedOutcome value (effectPossible e))) -> row_step e c e'
| step_consent call :
    event c = EvConsent -> progress e = AwaitingConsent call -> e' = with_progress e (Prepared call) -> row_step e c e'
| step_release call :
    event c = EvRelease -> progress e = Prepared call -> e' = with_progress e (Released call) -> row_step e c e'
| step_dispatch call :
    event c = EvDispatch -> progress e = Released call -> bodyDispatched e = false -> num_leb (leaseUntil e) (now c) = false ->
    e' = mkEntry (admission e) (leaseUntil e) (renewSeq e) (effectPossible e) true (Dispatched call) -> row_step e c e'
| step_result value :
    event c = EvResult value -> (exists call, progress e = Dispatched call \/ exists until, progress e = Reconciling call until) ->
    e' = with_progress e (Settled (ResultOutcome value (effectPossible e))) -> row_step e c e'
| step_renew seq lease :
    event c = EvRenew seq lease -> live (progress e) = true -> is_finite lease = true ->
    num_ltb (num_add (admittedAt (admission e)) MAX_EXECUTION_LIFETIME_MS) lease = false ->
    e' = mkEntry (admission e) lease seq (effectPossible e) (bodyDispatched e) (progress e) -> row_step e c e'
| step_reconcile call :
    event c = EvRestart -> progress e = Dispatched call -> reconcilable (admission e) = true ->
    e' = with_progress e (Reconciling call (num_min (leaseUntil e) (num_add (now c) RECONCILIATION_GRACE_MS))) -> row_step e c e'
| step_settle reason :
    live (progress e) = true ->
    e' = with_progress e (Settled (StoppedOutcome reason (effectPossible e) (effectPossible e || bodyDispatched e))) -> row_step e c e'
| step_ack o :
    event c = EvAck -> progress e = Settled o -> e' = with_progress e Acked -> row_step e c e'.

Lemma transition_live_applied e c e' :
  live (progress e) = true -> num_leb (leaseUntil e) (now c) = false ->
  transition_live e (event c) (now c) = Applied e' -> row_step e c e'.
Proof.
  intros Hl Hlease H. destruct (event c) eqn:Ev; cbn [transition_live] in H; unfold recover_entry, settle, advance, replayed in H.
  all: repeat (case_match; try discriminate H); simplify_eq.
  all: try first
    [ eapply step_prepare; [exact Ev|eassumption|reflexivity]
    | eapply step_effect; [exact Ev|eassumption|eassumption|by f_equal]
    | eapply (step_freeze _ _ _ _ true); [exact Ev|eassumption|eassumption|reflexivity]
    | eapply (step_freeze _ _ _ _ false); [exact Ev|eassumption|eassumption|reflexivity]
    | eapply step_block; [exact Ev|eassumption|reflexivity]
    | eapply step_consent; [exact Ev|eassumption|reflexivity]
    | eapply step_release; [exact Ev|eassumption|reflexivity]
    | eapply step_dispatch; [exact Ev|eassumption|eassumption|eassumption|reflexivity]
    | eapply step_result; [exact Ev|by eauto|reflexivity]
    | eapply step_reconcile; [exact Ev|eassumption|eassumption|reflexivity]
    | eapply step_settle; [congruence|reflexivity] ].
  - apply (step_settle _ _ _ cancelled); [done|]. by rewrite H0.
  - repeat match goal with H : _ || _ = false |- _ => apply orb_false_elim in H as [? ?] end.
    apply (step_renew _ _ _ seq leaseUntil0); try done. by apply negb_false_iff.
Qed.

Lemma transition_applied e c e' : transitionExecution e c = Applied e' -> row_step e c e' /\ authorized e c = true.
Proof.
  unfold transitionExecution. destruct (num_strict_eq _ _); [cbn|done]. destruct (authorized e c) eqn:Ha; [cbn|done].
  destruct (negb _ || _); [done|]. intros H. split; [|done].
  destruct (live (progress e)) eqn:Hl.
  - assert ((if num_leb (leaseUntil e) (now c) then settle e lease_expired
      else if match progress e with Reconciling _ until => num_leb until (now c) | _ => false end then settle e hand_restarted
      else transition_live e (event c) (now c)) = Applied e') as G by (by destruct (progress e)).
    clear H. destruct (num_leb (leaseUntil e) (now c)) eqn:Hlease.
    { injection G as <-. by eapply step_settle. }
    destruct (match progress e with Reconciling _ until => _ | _ => _ end).
    { injection G as <-. by eapply step_settle. }
    by apply transition_live_applied.
  - unfold replayed, advance in H. destruct (progress e) eqn:Hp; try done; destruct (event c) eqn:Ev; try done.
    injection H as <-. by eapply step_ack.
Qed.

(** ** Histories

Everything that happens to the store while the ledger is in use: the ledger's
operations, cut anywhere, and what others commit outside the ledger's keys. *)

Section Histories.
Context {St : Type} `{DurableStore St}.
Implicit Types (s : St) (k : ExecutionKey).

Inductive ledger_op :=
| OpAdmit (w : attempt) (guard : option LedgerRefusal) (a : ExecutionAdmission)
| OpApply (w : attempt) (guard : option LedgerRefusal) (c : ExecutionCommand)
| OpElse (w : attempt) (writes : list StoreWrite).

Definition op_ok (op : ledger_op) : Prop :=
  match op with
  | OpElse _ writes =>
      Forall (fun w => match w with Put key _ | Delete key => startsWith key LEDGER_PREFIX = false | _ => True end) writes
  | _ => True
  end.

Notation outcome_t := (option (result LedgerFailure LedgerReply)).

Definition ledger_step s (op : ledger_op) : St * outcome_t :=
  match op with
  | OpAdmit w guard a => let '(s', r) := admit_execution w guard a s in (s', Some r)
  | OpApply w guard c => let '(s', r) := apply w guard c s in (s', Some r)
  | OpElse w writes => ((store_commit (at_cut w) (at_epoch w) writes s).1, None)
  end.

Fixpoint ledger_run s (ops : list ledger_op) : St * list (ledger_op * outcome_t) :=
  match ops with
  | [] => (s, [])
  | op :: ops => let '(s1, out) := ledger_step s op in let '(s2, h) := ledger_run s1 ops in (s2, (op, out) :: h)
  end.

(** The caller has been told to run the body: the reply to its dispatch is the
    row in state dispatched. *)
Definition starts k (x : ledger_op * outcome_t) : bool :=
  match x with
  | (OpApply _ _ c, Some (Ok (Applied e))) =>
      match event c, progress e with EvDispatch, Dispatched _ => bool_decide (c_key c = k) | _, _ => false end
  | _ => false
  end.

(** Every row is stored under its own key. *)
Definition keyed s : Prop := forall k e, read s k = Ok (Some e) -> a_key (admission e) = k.

Definition new_entry (a : ExecutionAdmission) : ExecutionEntry := mkEntry a (a_leaseUntil a) (of_Z 0) false false StAdmitted.

(** What an operation may do to the row of [k]. *)
Inductive row_change s (op : ledger_op) (out : outcome_t) s' k : Prop :=
| change_none :
    getDocument s' (ledger_key k) = getDocument s (ledger_key k) -> starts k (op, out) = false -> row_change s op out s' k
| change_admit w a :
    op = OpAdmit w None a -> a_key a = k -> read s k = Ok None -> valid_admission a = true ->
    getDocument s' (ledger_key k) = Some (entry_json (new_entry a)) -> row_change s op out s' k
| change_apply w c e e' :
    op = OpApply w None c -> c_key c = k -> read s k = Ok (Some e) -> transitionExecution e c = Applied e' ->
    getDocument s' (ledger_key k) = Some (entry_json e') -> (forall e1, out = Some (Ok (Applied e1)) -> e1 = e') ->
    row_change s op out s' k.

Lemma persist_spec w s e kind audit s' r k :
  store_ok s -> persist w s e kind audit = (s', r) ->
  store_ok s' /\
  ((exists x, r = Err x) /\ getDocument s' (ledger_key k) = getDocument s (ledger_key k) \/
   getDocument s' (ledger_key k) =
     if negb audit && bool_decide (a_key (admission e) = k) then Some (entry_json e) else getDocument s (ledger_key k)).
Proof.
  intros Hs. unfold persist. destruct (store_commit _ _ _ s) as [s1 r1] eqn:E. intros [= <- <-].
  split; [by eapply commit_store_ok|]. destruct (commit_all_or_none _ _ _ _ _ _ Hs E) as [[[x ->] Hd]|Hd]; [left; eauto|right].
  rewrite Hd. destruct audit; cbn; [done|].
  case_bool_decide as H1; case_bool_decide as H2; try done; [by apply ledger_key_inj in H1|by subst].
Qed.

Lemma row_step_admission e c e' : row_step e c e' -> admission e' = admission e.
Proof. intros []; by subst. Qed.

Lemma apply_row w guard c s s' r k :
  store_ok s -> keyed s -> apply w guard c s = (s', r) ->
  store_ok s' /\ row_change s (OpApply w guard c) (Some r) s' k.
Proof.
  intros Hs Hk. unfold apply. destruct guard as [g|]; [intros [= <- <-]; split; [done|]; by apply change_none|].
  destruct (read s (c_key c)) as [[e|]|x] eqn:Hr; [|intros [= <- <-]; split; [done|]; by apply change_none..].
  assert (a_key (admission e) = c_key c) as Hkey by by apply Hk.
  destruct (transitionExecution e c) as [e'|e1|reason|] eqn:Ht;
    [|destruct (progress e) eqn:Hp; try (intros [= <- <-]; split; [done|]; by apply change_none)
     |intros [= <- <-]; split; [done|]; by apply change_none..].
  - unfold reply_after. destruct (persist _ _ _ _ _) as [s1 r1] eqn:E. intros [= <- <-].
    destruct (persist_spec _ _ _ _ _ _ _ k Hs E) as [Hs1 Hd]. split; [done|]. cbn [fst snd].
    pose proof (transition_applied _ _ _ Ht) as [Hstep _]. rewrite (row_step_admission _ _ _ Hstep), Hkey in Hd. cbn [negb andb] in Hd.
    destruct (decide (c_key c = k)) as [Hck|Hck].
    + destruct Hd as [[[x ->] Hd]|Hd]; [by apply change_none|]. rewrite bool_decide_eq_true_2 in Hd by done. subst k.
      eapply change_apply; eauto. destruct r1; by intros ? [= <-].
    + rewrite bool_decide_eq_false_2 in Hd by done. apply change_none; [by destruct Hd as [[_ ?]|?]|].
      unfold starts. destruct (r1 ≫= _) as [[]|]; try done. destruct (event c), (progress entry); try done. by apply bool_decide_eq_false_2.
  - destruct (event c) eqn:Ev; try (intros [= <- <-]; split; [done|]; by apply change_none).
    all: unfold reply_after; destruct (persist _ _ _ _ _) as [s1 r1] eqn:E; intros [= <- <-].
    all: destruct (persist_spec _ _ _ _ _ _ _ k Hs E) as [Hs1 Hd]; split; [done|].
    all: apply change_none; [by destruct Hd as [[_ ?]|?]|]; cbn [fst snd]; by destruct r1.
Qed.

Lemma admit_row w guard a s s' r k :
  store_ok s -> admit_execution w guard a s = (s', r) -> store_ok s' /\ row_change s (OpAdmit w guard a) (Some r) s' k.
Proof.
  intros Hs. unfold admit_execution. destruct guard as [g|]; [intros [= <- <-]; split; [done|]; by apply change_none|].
  destruct (read s (a_key a)) as [[e|]|x] eqn:Hr; [intros [= <- <-]; split; [done|]; by apply change_none| |intros [= <- <-]; split; [done|]; by apply change_none].
  destruct (valid_admission a) eqn:Hv; cbn [negb]; [|intros [= <- <-]; split; [done|]; by apply change_none].
  unfold reply_after. destruct (persist _ _ _ _ _) as [s1 r1] eqn:E. intros [= <- <-].
  destruct (persist_spec _ _ _ _ _ _ _ k Hs E) as [Hs1 Hd]. split; [done|]. cbn [admission negb andb] in Hd.
  case_bool_decide as Hka.
  - destruct Hd as [[_ Hd]|Hd]; [by apply change_none|]. subst k. by eapply change_admit.
  - apply change_none; [by destruct Hd as [[_ ?]|?]|done].
Qed.
Lemma else_row w writes s k :
  store_ok s -> op_ok (OpElse w writes) ->
  store_ok (ledger_step s (OpElse w writes)).1 /\ row_change s (OpElse w writes) None (ledger_step s (OpElse w writes)).1 k.
Proof.
  intros Hs Hw. cbn [ledger_step fst]. destruct (store_commit _ _ _ s) as [s1 r1] eqn:E. cbn [fst].
  split; [by eapply commit_store_ok|]. apply change_none; [|done].
  destruct (commit_all_or_none _ _ _ _ _ _ Hs E) as [[_ Hd]|Hd]; [done|]. rewrite Hd. clear E Hd. cbn in Hw.
  generalize (getDocument s (ledger_key k)) as old. unfold written. induction Hw as [|x ws Hx Hw IH]; intros old; [done|]. cbn [fold_left].
  rewrite IH. destruct x as [i kd d|key d|key]; [done|..]; (rewrite bool_decide_eq_false_2; [done|]); intros ->.
  all: revert Hx; unfold startsWith, ledger_key; rewrite take_app_length; by rewrite bool_decide_eq_true_2.
Qed.

Definition sane s : Prop := store_ok s /\ keyed s.

Lemma read_document s s' k : getDocument s' (ledger_key k) = getDocument s (ledger_key k) -> read s' k = read s k.
Proof. unfold read. by intros ->. Qed.

Lemma read_entry s k e :
  getDocument s (ledger_key k) = Some (entry_json e) -> read s k = if entry_finite e then Ok (Some e) else Err CorruptRow.
Proof. unfold read. intros ->. rewrite decode_entry_json. by destruct (entry_finite e). Qed.

Lemma read_finite s k e : read s k = Ok (Some e) -> entry_finite e = true.
Proof.
  unfold read, decodeExecution. destruct (getDocument s (ledger_key k)) as [v|]; [|done]. destruct (entry_of v) eqn:E; [|done].
  intros [= <-]. by eapply entry_of_finite.
Qed.

Lemma ledger_step_sane s op s' out :
  sane s -> op_ok op -> ledger_step s op = (s', out) -> sane s' /\ forall k, row_change s op out s' k.
Proof.
  intros [Hs Hk] Hop E.
  assert (store_ok s' /\ forall k, row_change s op out s' k) as [Hs' Hc].
  { destruct op as [w g a|w g c|w ws]; cbn [ledger_step] in E.
    - destruct (admit_execution w g a s) as [s1 r] eqn:E1. injection E as <- <-. split; [by apply (admit_row _ _ _ _ _ _ (a_key a) Hs E1)|].
      intros k. by apply (admit_row _ _ _ _ _ _ k Hs E1).
    - destruct (apply w g c s) as [s1 r] eqn:E1. injection E as <- <-. split; [by apply (apply_row _ _ _ _ _ _ (c_key c) Hs Hk E1)|].
      intros k. by apply (apply_row _ _ _ _ _ _ k Hs Hk E1).
    - injection E as <- <-. split; [by apply (else_row w ws s (mkKey [] []))|]. intros k. by apply else_row. }
  split; [|done]. split; [done|]. intros k e He. destruct (Hc k) as [Hd _|w a _ Ha _ _ Hd|w c e0 e1 _ Hck Hr Ht Hd _].
  - rewrite (read_document _ _ _ Hd) in He. by apply Hk.
  - rewrite (read_entry _ _ _ Hd) in He. destruct (entry_finite _); [|done]. injection He as <-. done.
  - rewrite (read_entry _ _ _ Hd) in He. destruct (entry_finite _); [|done]. injection He as <-.
    destruct (transition_applied _ _ _ Ht) as [Hst _]. rewrite (row_step_admission _ _ _ Hst). by apply Hk.
Qed.

(** An invariant of one row, with what has happened so far. *)
Lemma ledger_run_inv (P : St -> list (ledger_op * outcome_t) -> Prop) s ops s' h h0 :
  sane s -> Forall op_ok ops -> P s h0 ->
  (forall s op out s' h, sane s -> op_ok op -> P s h -> ledger_step s op = (s', out) ->
     (forall k, row_change s op out s' k) -> P s' (h ++ [(op, out)])) ->
  ledger_run s ops = (s', h) -> sane s' /\ P s' (h0 ++ h).
Proof.
  intros Hs Hops HP Hstep. revert s h0 h Hs HP. induction Hops as [|op ops Hop Hops IH]; intros s h0 h Hs HP; cbn [ledger_run].
  { intros [= <- <-]. by rewrite app_nil_r. }
  destruct (ledger_step s op) as [s1 out] eqn:E1. destruct (ledger_run s1 ops) as [s2 h2] eqn:E2. intros [= <- <-].
  destruct (ledger_step_sane _ _ _ _ Hs Hop E1) as [Hs1 Hc].
  replace (h0 ++ (op, out) :: h2) with ((h0 ++ [(op, out)]) ++ h2) by (by rewrite <- app_assoc).
  exact (IH s1 _ h2 Hs1 (Hstep s op out s1 h0 Hs Hop HP E1 Hc) E2).
Qed.

Lemma ledger_run_split s ops s' h1 x h2 :
  ledger_run s ops = (s', h1 ++ x :: h2) ->
  exists ops1 op ops2 s1 s2, ops = ops1 ++ op :: ops2 /\ ledger_run s ops1 = (s1, h1) /\ ledger_step s1 op = (s2, x.2) /\ op = x.1.
Proof.
  revert s h1. induction ops as [|op ops IH]; intros s h1; cbn [ledger_run]; [by destruct h1|].
  destruct (ledger_step s op) as [s1 out] eqn:E1. destruct (ledger_run s1 ops) as [s2 h] eqn:E2. destruct h1 as [|y h1]; intros [= -> E].
  - exists [], op, ops, s, s1. subst x. done.
  - subst h. apply IH in E2 as (ops1 & op' & ops2 & s3 & s4 & -> & Hr & Hst & Hop).
    exists (op :: ops1), op', ops2, s3, s4. split_and!; [done| |done|done]. cbn [ledger_run]. rewrite E1, Hr. by subst y.
Qed.

(** ** What a row says about its history *)

(** The flags agree with the state, and an outcome tells what may have run. *)
Definition row_ok (e : ExecutionEntry) : Prop :=
  match progress e with
  | StAdmitted => effectPossible e = false /\ bodyDispatched e = false
  | Preparing => bodyDispatched e = false
  | AwaitingConsent _ | Prepared _ | Released _ => effectPossible e = true /\ bodyDispatched e = false
  | Dispatched _ | Reconciling _ _ => effectPossible e = true /\ bodyDispatched e = true
  | Settled (ResultOutcome _ h) => h = true /\ bodyDispatched e = true
  | Settled (BlockedOutcome _ h) => h = effectPossible e /\ bodyDispatched e = false
  | Settled (StoppedOutcome _ h u) => h = effectPossible e /\ u = effectPossible e || bodyDispatched e
  | Acked => True
  end.

Lemma row_step_ok e c e' : row_step e c e' -> row_ok e -> row_ok e'.
Proof.
  unfold row_ok. intros [He Hp ->|He Hp Heff ->|call aw He Hp Heff ->|v He Hp ->|call He Hp ->|call He Hp ->|call He Hp Hb Hl ->|
    v He (call & [Hp|[u Hp]]) ->|seq l He Hlive Hf Hl ->|call He Hp Hrc ->|reason Hlive ->|o He Hp ->]; cbn [progress with_progress effectPossible bodyDispatched];
    try rewrite Hp in *; intuition (try congruence). by destruct aw; intuition congruence.
Qed.

Definition count_starts k (h : list (ledger_op * outcome_t)) : nat := length (List.filter (starts k) h).

(** The commands on [k] that passed the guard, in order. *)
Definition commands k (h : list (ledger_op * outcome_t)) : list ExecutionCommand :=
  omap (fun x => match x.1 with OpApply _ None c => if bool_decide (c_key c = k) then Some c else None | _ => None end) h.

Section Evidence.
Context (k : ExecutionKey) (x : jstring).

Definition by_issuer (ev : ExecutionEvent) (c : ExecutionCommand) : Prop := event c = ev /\ actor_id (actor c) = issuer k.
Definition by_executor (ev : ExecutionEvent) (c : ExecutionCommand) : Prop := event c = ev /\ actor_id (actor c) = x.

(** The executor froze [call]; if it asked for consent, the issuer gave it. *)
Definition prepared_by (call : FrozenCall) (l : list ExecutionCommand) : Prop :=
  (exists f, by_executor (EvFreeze call false) f /\ l = [f]) \/
  (exists f g, by_executor (EvFreeze call true) f /\ by_issuer EvConsent g /\ l = [f; g]).

Definition released_by (call : FrozenCall) (l : list ExecutionCommand) : Prop :=
  exists l0 r, prepared_by call l0 /\ by_issuer EvRelease r /\ l = l0 ++ [r].

Definition dispatched_by (call : FrozenCall) (l : list ExecutionCommand) : Prop :=
  exists l0 d, released_by call l0 /\ by_executor EvDispatch d /\ l = l0 ++ [d].

Definition answered_by (value : json) (l : list ExecutionCommand) : Prop :=
  exists call l0 r, dispatched_by call l0 /\ by_executor (EvResult value) r /\ l = l0 ++ [r].

Definition evidence (p : ExecutionProgress) (l : list ExecutionCommand) : Prop :=
  match p with
  | AwaitingConsent call => exists f, by_executor (EvFreeze call true) f /\ l = [f]
  | Prepared call => prepared_by call l
  | Released call => released_by call l
  | Dispatched call | Reconciling call _ => dispatched_by call l
  | Settled (ResultOutcome v _) => answered_by v l
  | _ => l = []
  end.
End Evidence.

Definition justified (e : ExecutionEntry) (cmds : list ExecutionCommand) : Prop :=
  exists l, evidence (a_key (admission e)) (executor (admission e)) (progress e) l /\ l `sublist_of` cmds.

Lemma sublist_snoc {A} (l1 l2 : list A) y : l1 `sublist_of` l2 -> l1 ++ [y] `sublist_of` l2 ++ [y].
Proof. intros Hl. by apply sublist_app. Qed.

Lemma row_step_justified e c e' cmds :
  row_step e c e' -> authorized e c = true -> justified e cmds -> justified e' (cmds ++ [c]).
Proof.
  intros Hst Ha (l & Hl & Hsub). unfold justified. rewrite (row_step_admission _ _ _ Hst).
  assert (forall p, evidence (a_key (admission e)) (executor (admission e)) p l ->
    exists l', evidence (a_key (admission e)) (executor (admission e)) p l' /\ l' `sublist_of` cmds ++ [c]) as Hsame.
  { intros p Hp. exists l. split; [done|]. by apply sublist_inserts_r. }
  assert (forall p, evidence (a_key (admission e)) (executor (admission e)) p (l ++ [c]) ->
    exists l', evidence (a_key (admission e)) (executor (admission e)) p l' /\ l' `sublist_of` cmds ++ [c]) as Hmore.
  { intros p Hp. exists (l ++ [c]). split; [done|]. by apply sublist_snoc. }
  assert (forall p, (exists l', evidence (a_key (admission e)) (executor (admission e)) p l' /\ l' `sublist_of` [c]) ->
    exists l', evidence (a_key (admission e)) (executor (admission e)) p l' /\ l' `sublist_of` cmds ++ [c]) as Hnew.
  { intros p (l' & Hp & Hl'). exists l'. split; [done|]. by apply sublist_inserts_l. }
  unfold authorized in Ha.
  destruct Hst as [He Hp ->|He Hp Heff ->|call aw He Hp Heff ->|v He Hp ->|call He Hp ->|call He Hp ->|call He Hp Hb Hlz ->|
    v He (call & Hp) ->|seq lz He Hlive Hf Hlz ->|call He Hp Hrc ->|reason Hlive ->|o He Hp ->];
    cbn [progress with_progress admission]; try rewrite He in Ha; try (apply bool_decide_eq_true in Ha).
  - apply Hnew. exists []. split; [done|]. apply sublist_nil_l.
  - by apply Hsame.
  - apply Hnew. exists [c]. split; [|done]. destruct aw; cbn; [by exists c|left; by exists c].
  - apply Hnew. exists []. split; [done|]. apply sublist_nil_l.
  - rewrite Hp in Hl. destruct Hl as (f & Hf & ->). apply Hmore. right. by exists f, c.
  - rewrite Hp in Hl. apply Hmore. by exists l, c.
  - rewrite Hp in Hl. apply Hmore. by exists l, c.
  - apply Hmore. assert (dispatched_by (a_key (admission e)) (executor (admission e)) call l) as Hd
      by (by destruct Hp as [Hp|[u Hp]]; rewrite Hp in Hl). by exists call, l, c.
  - by apply Hsame.
  - apply Hsame. by rewrite Hp in Hl.
  - apply Hnew. exists []. split; [done|]. apply sublist_nil_l.
  - apply Hnew. exists []. split; [done|]. apply sublist_nil_l.
Qed.

(** The row of [k] after the history [h] of its whole life. *)
Definition row_inv k s (h : list (ledger_op * outcome_t)) : Prop :=
  match read s k with
  | Ok None => count_starts k h = 0%nat
  | Ok (Some e) =>
      row_ok e /\ justified e (commands k h) /\ (count_starts k h <= if bodyDispatched e then 1 else 0)%nat
  | Err _ => (count_starts k h <= 1)%nat
  end.

Lemma count_starts_snoc k h x : count_starts k (h ++ [x]) = (count_starts k h + if starts k x then 1 else 0)%nat.
Proof. unfold count_starts. rewrite List.filter_app, length_app. cbn. by destruct (starts k x). Qed.

Lemma commands_snoc k h x : commands k (h ++ [x]) = commands k h ++ commands k [x].
Proof. unfold commands. by rewrite omap_app. Qed.

Lemma justified_more e cmds l : justified e cmds -> justified e (cmds ++ l).
Proof. intros (l0 & Hl & Hs). exists l0. split; [done|]. by apply sublist_inserts_r. Qed.

Lemma starts_apply k w g c e : starts k (OpApply w g c, Some (Ok (Applied e))) = true -> event c = EvDispatch /\ c_key c = k /\ exists call, progress e = Dispatched call.
Proof. unfold starts. destruct (event c), (progress e); try done. intros Hb%bool_decide_eq_true. eauto. Qed.

Lemma starts_inv k x :
  starts k x = true -> exists w g c e call, x = (OpApply w g c, Some (Ok (Applied e))) /\ event c = EvDispatch /\ c_key c = k /\ progress e = Dispatched call.
Proof.
  destruct x as [[w g a|w g c|w ws] [[[e|e|r|]|x]|]]; try done. intros Hs.
  destruct (starts_apply _ _ _ _ _ Hs) as (? & ? & call & ?). by exists w, g, c, e, call.
Qed.

(** A dispatch that is answered changed the row it answers for. *)
Lemma starts_flag k w c e e' out :
  transitionExecution e c = Applied e' -> (forall e1, out = Some (Ok (Applied e1)) -> e1 = e') ->
  starts k (OpApply w None c, out) = true -> bodyDispatched e = false /\ bodyDispatched e' = true.
Proof.
  intros Ht Hout Hst. destruct (starts_inv _ _ Hst) as (w' & g & c' & e1 & call & [= <- <- <- ->] & Hev & _ & Hp).
  rewrite (Hout e1 eq_refl) in Hp. destruct (transition_applied _ _ _ Ht) as [Hs _].
  destruct Hs; subst e'; cbn in *; try congruence; try (destruct awaitingConsent; congruence). done.
Qed.

Lemma row_inv_step k s op out s' h :
  sane s -> row_inv k s h -> row_change s op out s' k -> row_inv k s' (h ++ [(op, out)]).
Proof.
  intros [_ Hk] Hinv Hc. unfold row_inv in *. rewrite count_starts_snoc, commands_snoc.
  destruct Hc as [Hd Hns|w a -> Ha Hr Hv Hd|w c e e' -> Hck Hr Ht Hd Hout].
  - rewrite (read_document _ _ _ Hd), Hns, Nat.add_0_r. destruct (read s k) as [[e|]|]; [|done..].
    destruct Hinv as (? & ? & ?). split_and!; [done|by apply justified_more|done].
  - rewrite Hr in Hinv. rewrite (read_entry _ _ _ Hd). replace (starts k (OpAdmit w None a, out)) with false by (by destruct out as [[[]|]|]).
    destruct (entry_finite _); [|lia]. split_and!; [done| |cbn; lia]. exists []. split; [done|apply sublist_nil_l].
  - rewrite Hr in Hinv. destruct Hinv as (Hok & Hj & Hn). rewrite (read_entry _ _ _ Hd).
    destruct (transition_applied _ _ _ Ht) as [Hst Ha].
    assert (count_starts k h + (if starts k (OpApply w None c, out) then 1 else 0) <= if bodyDispatched e' then 1 else 0)%nat as Hcount.
    { destruct (starts k (OpApply w None c, out)) eqn:E.
      - destruct (starts_flag _ _ _ _ _ _ Ht Hout E) as [E0 E1]. rewrite E0 in Hn. rewrite E1. lia.
      - assert (bodyDispatched e = true -> bodyDispatched e' = true) as Hmono by (intros Hb; destruct Hst; subst e'; cbn; congruence || done).
        destruct (bodyDispatched e); [rewrite Hmono by done; lia|lia]. }
    destruct (entry_finite e'); [|destruct (bodyDispatched e'); lia]. split_and!; [by eapply row_step_ok| |done].
    replace (commands k [(OpApply w None c, out)]) with [c] by (unfold commands; cbn; by rewrite bool_decide_eq_true_2 by done).
    by eapply row_step_justified.
Qed.

Lemma ledger_run_row k s ops s' h :
  sane s -> Forall op_ok ops -> read s k = Ok None -> ledger_run s ops = (s', h) -> sane s' /\ row_inv k s' h.
Proof.
  intros Hs Hops Hr E. apply (ledger_run_inv (row_inv k) s ops s' h []); [done|done| | |done].
  - unfold row_inv. by rewrite Hr.
  - intros s0 op out s1 h0 Hs0 _ HP _ Hc. by apply (row_inv_step k s0).
Qed.

(** What an outcome says of hooks. *)
Definition outcome_hooksRan (o : ExecutionOutcome) : bool :=
  match o with ResultOutcome _ hk | BlockedOutcome _ hk | StoppedOutcome _ hk _ => hk end.

(** *** What hooks may have run

The executor runs its hooks when its effect command is answered with a row that has
the effect possible and is not over. *)

Definition hooks_allowed k (x : ledger_op * outcome_t) : bool :=
  match x with
  | (OpApply _ _ c, Some (Ok (Applied e | Replayed e))) =>
      match event c with EvEffect => bool_decide (c_key c = k) && effectPossible e && live (progress e) | _ => false end
  | _ => false
  end.

Definition sent_by_executor k (e : ExecutionEntry) (ev : ExecutionEvent) (h : list (ledger_op * outcome_t)) : Prop :=
  exists c, c ∈ commands k h /\ by_executor (executor (admission e)) ev c.

Record effects_ok k (e : ExecutionEntry) (h : list (ledger_op * outcome_t)) : Prop := {
  eff_sent : effectPossible e = true -> sent_by_executor k e EvEffect h;
  eff_allowed : existsb (hooks_allowed k) h = true -> effectPossible e = true;
  eff_body : bodyDispatched e = true -> effectPossible e = true;
  eff_blocked : forall v hk, progress e = Settled (BlockedOutcome v hk) -> sent_by_executor k e (EvBlock v) h }.

Definition effects_inv k s (h : list (ledger_op * outcome_t)) : Prop :=
  match read s k with
  | Ok None => existsb (hooks_allowed k) h = false
  | Ok (Some e) => effects_ok k e h
  | Err _ => True
  end.

Lemma transition_replayed e c e1 : transitionExecution e c = Replayed e1 -> e1 = e.
Proof.
  unfold transitionExecution, transition_live, recover_entry, settle, advance, replayed. intros Ht.
  repeat (case_match; try discriminate Ht); by simplify_eq.
Qed.

(** The row of an answer is the row stored. *)
Lemma answered_row w guard c s s' reply e :
  sane s -> apply w guard c s = (s', Ok reply) -> reply = Applied e \/ reply = Replayed e ->
  read s' (c_key c) = Ok (Some e) \/ exists x, read s' (c_key c) = Err x.
Proof.
  intros [Hs Hk]. unfold apply. destruct guard; [intros [= _ <-]; by intros [|]|].
  destruct (read s (c_key c)) as [[e0|]|x] eqn:Hr; [|intros [= _ <-]; by intros [|]|done].
  assert (a_key (admission e0) = c_key c) as Hkey by by apply Hk.
  destruct (transitionExecution e0 c) as [e'|e1|r|] eqn:Ht; [| |intros [= _ <-]; by intros [|]..].
  - unfold reply_after. destruct (persist _ _ _ _ _) as [s1 r1] eqn:E. destruct (persist_spec _ _ _ _ _ _ _ (c_key c) Hs E) as [_ Hd].
    destruct r1 as [[]|x]; [|done]. intros [= <- <-] [[= ->]|]; [|done]. destruct Hd as [[[x Hx] _]|Hd]; [done|].
    pose proof (transition_applied _ _ _ Ht) as [Hstep _]. rewrite (row_step_admission _ _ _ Hstep), Hkey, bool_decide_eq_true_2 in Hd by done.
    rewrite (read_entry _ _ _ Hd). destruct (entry_finite e); [by left|right; by eexists].
  - apply transition_replayed in Ht as ->. intros Happ Hreply.
    assert (reply = Replayed e0 /\ getDocument s' (ledger_key (c_key c)) = getDocument s (ledger_key (c_key c))) as [-> Hd].
    { destruct (progress e0); try (by simplify_eq). destruct (event c); try (by simplify_eq).
      all: unfold reply_after in Happ; destruct (persist _ _ _ _ _) as [s1 r1] eqn:E;
        destruct (persist_spec _ _ _ _ _ _ _ (c_key c) Hs E) as [_ Hd]; destruct r1 as [[]|x]; [|done].
      all: injection Happ as <- <-; split; [done|]; destruct Hd as [[[x Hx] _]|Hd]; done. }
    left. rewrite (read_document _ _ _ Hd), Hr. by destruct Hreply as [|[= ->]].
Qed.

Lemma hooks_allowed_row k s op s' out e :
  sane s -> ledger_step s op = (s', out) -> hooks_allowed k (op, out) = true -> read s' k = Ok (Some e) -> effectPossible e = true.
Proof.
  intros Hs Hst Hh Hr. destruct op as [w g a|w g c|w ws]; [done| |done]. cbn [ledger_step] in Hst.
  destruct (apply w g c s) as [s1 [reply|x]] eqn:E; injection Hst as <- <-; [|done].
  assert (exists e1, (reply = Applied e1 \/ reply = Replayed e1) /\ c_key c = k /\ effectPossible e1 = true) as (e1 & Hreply & <- & He1).
  { cbn in Hh. destruct reply as [e1|e1|r|]; try done; exists e1; destruct (event c); try done;
      apply andb_prop in Hh as [[Hb%bool_decide_eq_true ?]%andb_prop _]; auto. }
  destruct (answered_row _ _ _ _ _ _ _ Hs E Hreply) as [Hr1|[x Hr1]]; congruence.
Qed.

Lemma sent_more k e ev h x : sent_by_executor k e ev h -> sent_by_executor k e ev (h ++ [x]).
Proof. intros (c & Hc & Hb). exists c. split; [|done]. rewrite commands_snoc. apply elem_of_app. by left. Qed.

Lemma row_step_effect_flag e c e' : row_step e c e' -> effectPossible e = true -> effectPossible e' = true.
Proof. intros Hst He. destruct Hst; subst e'; done. Qed.

Lemma effects_step k s op out s' h :
  sane s -> op_ok op -> row_inv k s h -> effects_inv k s h -> ledger_step s op = (s', out) -> row_change s op out s' k -> effects_inv k s' (h ++ [(op, out)]).
Proof.
  intros Hs Hop Hrow Hinv Hst Hc. unfold effects_inv, row_inv in *. pose proof (hooks_allowed_row k s op s' out) as Hnew.
  assert (forall e, read s' k = Ok (Some e) -> (existsb (hooks_allowed k) h = true -> effectPossible e = true) ->
    existsb (hooks_allowed k) (h ++ [(op, out)]) = true -> effectPossible e = true) as Hall.
  { intros e He Hold. rewrite existsb_app. cbn [existsb]. intros [?|Hx]%orb_prop; [auto|]. rewrite orb_false_r in Hx. by eapply Hnew. }
  destruct Hc as [Hd Hns|w a -> Ha Hr Hv Hd|w c e e' -> Hck Hr Ht Hd Hout].
  - pose proof (read_document _ _ _ Hd) as Hrd. rewrite Hrd. destruct (read s k) as [[e|]|]; [|rewrite existsb_app, Hinv; cbn|done].
    + destruct Hinv as [H1 H2 H3 H4]. split; [intros He; by apply sent_more, H1|by apply Hall|done|]. intros v hk Hp. by eapply sent_more, H4.
    + rewrite orb_false_r. destruct op as [| w g c |]; try done. destruct (hooks_allowed k (OpApply w g c, out)) eqn:E; [|done].
      destruct out as [[[e|e|r|]|x]|]; try done; cbn in Hst; destruct (apply w g c s) as [s1 [reply|x]] eqn:Ea; try done; injection Hst as <- ->;
        (destruct (answered_row _ _ _ _ _ _ e Hs Ea) as [Hx|[x Hx]]; [by auto|..]); cbn in E; destruct (event c); try done;
        apply andb_prop in E as [[Hb%bool_decide_eq_true _]%andb_prop _]; congruence.
  - rewrite Hr in Hinv. pose proof (read_entry _ _ _ Hd) as Hre. rewrite Hre. destruct (entry_finite _); [|done].
    split; [done| |done|done]. rewrite existsb_app, Hinv. cbn. destruct out as [[[]|]|]; done.
  - rewrite Hr in Hinv, Hrow. destruct Hrow as (Hok & _ & _). pose proof (read_entry _ _ _ Hd) as Hre. rewrite Hre. destruct (entry_finite e'); [|done].
    destruct Hinv as [H1 H2 H3 H4]. destruct (transition_applied _ _ _ Ht) as [Hstep Ha].
    assert (Hadm : admission e' = admission e) by by eapply row_step_admission.
    assert (Hcmd : c ∈ commands k (h ++ [(OpApply w None c, out)])).
    { rewrite commands_snoc. apply elem_of_app. right. unfold commands. cbn. rewrite bool_decide_eq_true_2 by done. by left. }
    assert (Hsame : forall ev, sent_by_executor k e ev h -> sent_by_executor k e' ev (h ++ [(OpApply w None c, out)])).
    { intros ev Hsent. unfold sent_by_executor. rewrite Hadm. by apply sent_more. }
    unfold authorized in Ha. unfold row_ok in Hok. split.
    + intros He'. destruct (effectPossible e) eqn:Hep; [by apply Hsame, H1|].
      destruct Hstep as [He Hp ->|He Hp Heff ->|call aw He Hp Heff ->|v0 He Hp ->|call He Hp ->|call He Hp ->|call He Hp Hb0 Hl ->|v0 He Hcall ->|seq l He Hl Hf Hlt ->|call He Hp Hrc ->|reason Hl ->|o He Hp ->]; cbn in He'; try congruence. exists c. split; [done|]. split; [done|].
      rewrite He in Ha. by apply bool_decide_eq_true in Ha.
    + apply Hall; [done|]. intros Hold. eapply row_step_effect_flag; [done|by apply H2].
    + intros Hb. eapply row_step_effect_flag; [done|]. destruct (bodyDispatched e) eqn:Hbe; [by apply H3|].
      destruct Hstep as [He Hp ->|He Hp Heff ->|call aw He Hp Heff ->|v0 He Hp ->|call He Hp ->|call He Hp ->|call He Hp Hb0 Hl ->|v0 He Hcall ->|seq l He Hl Hf Hlt ->|call He Hp Hrc ->|reason Hl ->|o He Hp ->]; cbn in Hb; try congruence. rewrite Hp in Hok. apply Hok.
    + intros v hk Hp'. destruct Hstep as [He Hp ->|He Hp Heff ->|call aw He Hp Heff ->|v0 He Hp ->|call He Hp ->|call He Hp ->|call He Hp Hb0 Hl ->|v0 He Hcall ->|seq l He Hl Hf Hlt ->|call He Hp Hrc ->|reason Hl ->|o He Hp ->]; cbn in Hp'; try congruence; try (destruct aw; congruence); try (by apply Hsame, (H4 v hk)).
      injection Hp' as -> ->. exists c. split; [done|]. split; [done|]. rewrite He in Ha. by apply bool_decide_eq_true in Ha.
Qed.

Lemma ledger_run_effects k s ops s' h :
  sane s -> Forall op_ok ops -> read s k = Ok None -> ledger_run s ops = (s', h) -> effects_inv k s' h.
Proof.
  intros Hs Hops Hr E.
  apply (ledger_run_inv (fun s h => row_inv k s h /\ effects_inv k s h) s ops s' h []); [done|done| | |done].
  - unfold row_inv, effects_inv. by rewrite Hr.
  - intros s0 op out s1 h0 Hs0 Hop [H1 H2] Hst Hc. split; [by apply (row_inv_step k s0)|by eapply effects_step].
Qed.

Lemma row_step_terminal e c e' : row_step e c e' -> live (progress e) = false -> e' = with_progress e Acked.
Proof.
  intros [He Hp Ee|He Hp Heff Ee|call aw He Hp Heff Ee|v He Hp Ee|call He Hp Ee|call He Hp Ee|call He Hp Hb Hl Ee|
    v He (call & [Hp|[u Hp]]) Ee|seq l He Hp Hf Hl Ee|call He Hp Hrc Ee|reason Hp Ee|o He Hp Ee] H1;
    rewrite Hp in H1; done.
Qed.

(** Once there is an outcome it stays: the row is settled with it, or acked. *)
Definition concluded (o : ExecutionOutcome) k s : Prop :=
  exists e, read s k = Ok (Some e) /\ (progress e = Settled o \/ progress e = Acked).

Lemma concluded_step o k s op out s' : sane s -> concluded o k s -> row_change s op out s' k -> concluded o k s'.
Proof.
  intros _ (e & He & Hp) [Hd _|w a -> _ Hr _ _|w c e0 e' -> _ Hr Ht Hd _].
  - exists e. by rewrite (read_document _ _ _ Hd).
  - congruence.
  - assert (e0 = e) as -> by congruence. destruct (transition_applied _ _ _ Ht) as [Hst _].
    assert (e' = with_progress e Acked) as -> by (apply (row_step_terminal _ _ _ Hst); by destruct Hp as [->| ->]).
    exists (with_progress e Acked). split; [|by right]. rewrite (read_entry _ _ _ Hd).
    assert (entry_finite e = true) as Hf by by eapply read_finite.
    replace (entry_finite (with_progress e Acked)) with true; [done|]. symmetry. unfold entry_finite in *.
    apply andb_prop in Hf as [Hf _]. change (initialLeaseUntil (with_progress e Acked)) with (initialLeaseUntil e). cbn. by rewrite Hf.
Qed.
Lemma concluded_run o k s ops s' h :
  sane s -> Forall op_ok ops -> concluded o k s -> ledger_run s ops = (s', h) -> concluded o k s'.
Proof.
  intros Hs Hops Hc E. apply (ledger_run_inv (fun s _ => concluded o k s) s ops s' h [] Hs Hops Hc); [|done].
  intros s0 op out s1 h0 Hs0 _ HP _ Hch. by apply (concluded_step o k s0 op out).
Qed.

(** *** Restart *)

(** Nothing is left in a state only the dead process could have moved. *)
Definition settled_or_waiting (p : ExecutionProgress) : bool :=
  match p with StAdmitted | Preparing | Dispatched _ => false | _ => true end.

Definition judged k s : Prop := exists e, read s k = Ok (Some e) /\ settled_or_waiting (progress e) = true.

Lemma num_min_finite a b : is_finite a = true -> is_finite b = true -> is_finite (num_min a b) = true.
Proof. intros Ha Hb. unfold num_min. destruct a, b; try done; by repeat case_match. Qed.

(** A clock that reads a time the row can be judged at. *)
Definition clock_ok (t : num) (a : ExecutionAdmission) : Prop :=
  is_finite t = true /\ is_finite (num_add t RECONCILIATION_GRACE_MS) = true /\ num_ltb t (admittedAt a) = false.

Lemma restart_step e c t e' :
  event c = EvRestart -> now c = t -> entry_finite e = true -> clock_ok t (admission e) ->
  transitionExecution e c = Applied e' -> entry_finite e' = true /\ settled_or_waiting (progress e') = true.
Proof.
  intros Hev Hnow Hf (_ & Hn & _) Ht. destruct (transition_applied _ _ _ Ht) as [Hst _]. unfold entry_finite in *.
  repeat (apply andb_prop in Hf as [Hf ?]).
  destruct Hst as [He Hp Ee|He Hp Heff Ee|call aw He Hp Heff Ee|v He Hp Ee|call He Hp Ee|call He Hp Ee|call He Hp Hb Hl Ee|
    v He Hp Ee|seq l He Hp Hfl Hl Ee|call He Hp Hrc Ee|reason Hp Ee|o He Hp Ee]; try congruence; subst e'; cbn; split; try done.
  all: repeat (apply andb_true_intro; split); try done. rewrite Hnow. by apply num_min_finite.
Qed.

Lemma restart_judges e c t :
  event c = EvRestart -> now c = t -> actor c = mkActor (executor (admission e)) None -> c_generation c = generation (admission e) ->
  entry_finite e = true -> clock_ok t (admission e) -> settled_or_waiting (progress e) = false ->
  exists e', transitionExecution e c = Applied e'.
Proof.
  intros Hev Hnow Hact Hgen Hfin (Hf & _ & Ht) E. unfold transitionExecution, authorized.
  rewrite Hgen, Hev, Hact, Hnow, Hf, Ht. cbn [actor_id]. rewrite bool_decide_eq_true_2 by done.
  rewrite num_strict_eq_finite by (unfold entry_finite in Hfin; repeat (apply andb_prop in Hfin as [Hfin ?]); done).
  cbn [negb orb]. destruct (progress e) eqn:Hp; try done; destruct (num_leb (leaseUntil e) t); try (by eexists);
    cbn [transition_live]; unfold recover_entry; rewrite Hp; try (by eexists). destruct (reconcilable (admission e)); by eexists.
Qed.

Lemma restart_row w t e0 s s' r k e1 :
  sane s -> apply w None (restart_command e0 t) s = (s', Ok r) -> read s k = Ok (Some e1) -> clock_ok t (admission e1) ->
  exists e2, read s' k = Ok (Some e2) /\ admission e2 = admission e1 /\
    (settled_or_waiting (progress e1) = true \/ admission e0 = admission e1 -> settled_or_waiting (progress e2) = true).
Proof.
  intros Hs Ha Hr Hclock. pose proof (read_finite _ _ _ Hr) as Hfin. pose proof Hs as [Hok Hkey].
  destruct (apply_row _ _ _ _ _ _ k Hok Hkey Ha) as [_ [Hd _|? ? Hop _ _ _ _|w' c e e' [= <- <-] Hck Hr' Ht Hd _]]; [|done|].
  - exists e1. rewrite (read_document _ _ _ Hd). split_and!; [done|done|]. intros [?|Hadm]; [done|].
    destruct (settled_or_waiting (progress e1)) eqn:E; [done|]. exfalso.
    assert (c_key (restart_command e0 t) = k) as Hck by (cbn; rewrite Hadm; by apply Hkey).
    destruct (restart_judges e1 (restart_command e0 t) t) as [e' Ht]; try done; try (cbn; by rewrite Hadm).
    revert Ha. unfold apply. rewrite Hck, Hr, Ht. unfold reply_after. destruct (persist _ _ _ _ _) as [s1 r1] eqn:Ep. cbn [fst snd].
    destruct (persist_spec _ _ _ _ _ _ _ k Hok Ep) as [_ [[[x ->] _]|Hp]]; [done|]. intros [= <- _].
    destruct (restart_step e1 (restart_command e0 t) t e' eq_refl eq_refl Hfin Hclock Ht) as [Hf' Hj]. destruct (transition_applied _ _ _ Ht) as [Hst _].
    rewrite (row_step_admission _ _ _ Hst), bool_decide_eq_true_2 in Hp by (by apply Hkey). cbn in Hp.
    pose proof (read_entry _ _ _ Hp) as Hre. rewrite (read_document _ _ _ Hd), Hf', Hr in Hre. injection Hre as ->. congruence.
  - assert (e = e1) as -> by congruence. destruct (restart_step e1 (restart_command e0 t) t e' eq_refl eq_refl Hfin Hclock Ht) as [Hf' Hj].
    destruct (transition_applied _ _ _ Ht) as [Hst _]. exists e'. rewrite (read_entry _ _ _ Hd), Hf'.
    split_and!; [done|by eapply row_step_admission|done].
Qed.

Lemma recover_rows_judge w t rows i s s' :
  sane s -> recover_rows w t i rows s = (s', Ok tt) -> (forall k e, read s k = Ok (Some e) -> clock_ok t (admission e)) ->
  forall k e, read s k = Ok (Some e) ->
  exists e', read s' k = Ok (Some e') /\ admission e' = admission e /\
    (settled_or_waiting (progress e) = true \/ (exists d e0, d ∈ rows /\ decodeExecution d.2 = Ok e0 /\ admission e0 = admission e) ->
     settled_or_waiting (progress e') = true).
Proof.
  revert i s. induction rows as [|d rows IH]; intros i s Hs; cbn [recover_rows].
  { intros [= <-] _ k e Hr. exists e. split_and!; [done|done|]. intros [?|(d & _ & Hd & _)]; [done|set_solver]. }
  destruct (decodeExecution d.2) as [e0|] eqn:Ed; [|done]. destruct (apply _ None (restart_command e0 t) s) as [s1 [r|x]] eqn:Ea; [|done].
  intros Hrun Hclock k e Hr.
  assert (sane s1) as Hs1.
  { apply (ledger_step_sane s (OpApply (w i) None (restart_command e0 t)) s1 (Some (Ok r)) Hs I). cbn [ledger_step]. by rewrite Ea. }
  destruct (restart_row _ _ _ _ _ _ k e Hs Ea Hr (Hclock _ _ Hr)) as (e1 & Hr1 & Ha1 & Hj1).
  destruct (IH _ _ Hs1 Hrun) with (k := k) (e := e1) as (e2 & Hr2 & Ha2 & Hj2); [|done|].
  - intros k' e' Hr'. destruct (apply_row _ _ _ _ _ _ k' (proj1 Hs) (proj2 Hs) Ea) as [_ [Hd _|? ? Hop _ _ _ _|w' c ea eb [= <- <-] Hck Hra Ht Hd _]]; [|done|].
    + rewrite (read_document _ _ _ Hd) in Hr'. by eapply Hclock.
    + rewrite (read_entry _ _ _ Hd) in Hr'. destruct (entry_finite _); [|done]. injection Hr' as <-.
      destruct (transition_applied _ _ _ Ht) as [Hst _]. rewrite (row_step_admission _ _ _ Hst). by eapply Hclock.
  - exists e2. split_and!; [done|congruence|]. intros Hwhy. apply Hj2. destruct Hwhy as [Hj|(d' & e' & Hd' & He' & Had)]; [left; auto|].
    apply elem_of_cons in Hd' as [->|Hd']; [left; apply Hj1; right; congruence|right]. exists d', e'. split_and!; [done|done|congruence].
Qed.

Lemma recover_judge w t s s' :
  sane s -> recover w t s = (s', Ok tt) -> (forall k e, read s k = Ok (Some e) -> clock_ok t (admission e)) ->
  forall k e, read s k = Ok (Some e) ->
  exists e', read s' k = Ok (Some e') /\ admission e' = admission e /\ settled_or_waiting (progress e') = true.
Proof.
  intros Hs Hrun Hclock k e Hr.
  destruct (recover_rows_judge _ _ _ _ _ _ Hs Hrun Hclock k e Hr) as (e' & Hr' & Ha & Hj). exists e'. split_and!; [done|done|]. apply Hj.
  right. unfold read in Hr. destruct (getDocument s (ledger_key k)) as [v|] eqn:Ev; [|done].
  exists (ledger_key k, v), e. split_and!; [|cbn; by destruct (decodeExecution v); [injection Hr as ->|]|done].
  apply scan_documents; [apply Hs|]. split; [done|]. unfold ledger_key, startsWith. rewrite take_app_length. by apply bool_decide_eq_true_2.
Qed.

(** ** What the ledger promises *)

(** C16. A body is started at most once: whatever is done to the store after an
    execution is admitted -- commands of anyone, in any order, repeated or
    late, restarts, commits cut at any write point -- at most one reply tells
    the executor to run the body of this execution. *)
Theorem at_most_once k s ops s' h :
  sane s -> Forall op_ok ops -> read s k = Ok None -> ledger_run s ops = (s', h) -> (count_starts k h <= 1)%nat.
Proof.
  intros Hs Hops Hr E. destruct (ledger_run_row _ _ _ _ _ Hs Hops Hr E) as [_ Hinv]. unfold row_inv in Hinv.
  destruct (read s' k) as [[e|]|]; [|lia..]. destruct Hinv as (_ & _ & Hn). destruct (bodyDispatched e); lia.
Qed.

(** A body is only started for good reason: the reply that starts it answers
    the executor's dispatch of the very call the executor froze, after the
    issuer's consent when the executor asked for it and after the issuer's
    release, in this order, and while the lease of the row is running. *)
Theorem dispatch_justified k s ops s' h1 x h2 :
  sane s -> Forall op_ok ops -> read s k = Ok None -> ledger_run s ops = (s', h1 ++ x :: h2) -> starts k x = true ->
  exists c s1 e call l, x.1 ∈ ops /\ commands k [x] = [c] /\ event c = EvDispatch /\ actor_id (actor c) = executor (admission e) /\
    ledger_run s (map fst h1) = (s1, h1) /\ read s1 k = Ok (Some e) /\
    progress e = Released call /\ num_leb (leaseUntil e) (now c) = false /\
    released_by k (executor (admission e)) call l /\ l `sublist_of` commands k h1.
Proof.
  intros Hs Hops Hr E Hx. destruct (ledger_run_split _ _ _ _ _ _ E) as (ops1 & op & ops2 & s1 & s2 & -> & Hrun & Hst & Hop).
  apply Forall_app in Hops as [Hops1 Hop2]. inversion Hop2 as [|? ? Hok _]; subst.
  destruct (ledger_run_row _ _ _ _ _ Hs Hops1 Hr Hrun) as [Hs1 Hinv].
  destruct (ledger_step_sane _ _ _ _ Hs1 Hok Hst) as [_ Hc]. destruct (starts_inv _ _ Hx) as (w & g & c & e' & call & -> & Hev & Hck & Hp).
  cbn [fst snd] in *. destruct (Hc k) as [_ Hno|? ? [=]|w' c' e e1 [= <- -> <-] _ Hr1 Ht _ Hout]; [congruence|].
  pose proof (Hout _ eq_refl) as <-. unfold row_inv in Hinv. rewrite Hr1 in Hinv. destruct Hinv as (_ & (l & Hl & Hsub) & _).
  destruct (transition_applied _ _ _ Ht) as [Hstep Ha]. unfold authorized in Ha. rewrite Hev in Ha. apply bool_decide_eq_true in Ha.
  assert (progress e = Released call /\ num_leb (leaseUntil e) (now c) = false) as [Hpe Hlease].
  { destruct Hstep; subst e'; cbn in *; try congruence; try (destruct awaitingConsent; congruence). by simplify_eq. }
  rewrite Hpe in Hl. rewrite (proj2 Hs1 _ _ Hr1) in Hl. exists c, s1, e, call, l.
  assert (map fst h1 = ops1) as ->.
  { clear -Hrun. revert s s1 h1 Hrun. induction ops1 as [|o ops1 IH]; intros s s1 h1; cbn [ledger_run]; [by intros [= <- <-]|].
    destruct (ledger_step s o) as [sa out]. destruct (ledger_run sa ops1) as [sb hb] eqn:E. intros [= <- <-]. cbn. f_equal. by eapply IH. }
  split_and!; try done; [apply elem_of_app; right; apply elem_of_cons; by left|].
  unfold commands. cbn. by rewrite bool_decide_eq_true_2.
Qed.

(** C17. An outcome is honest and final.  It says that hooks may have run when, and
    only when, the effect was made possible: then the executor sent the command
    that does it, and if not then no answer ever let the executor run a hook.  A
    result has an executor that was dispatched and sent this value.  A blocked call
    never started its body and its executor sent this value.  A stopped one is
    uncertain exactly when hooks may have run; when it is not, its body was never
    started.  Whatever happens later, the row keeps this outcome until it is acked. *)
Theorem outcome_honest k s ops s1 h ops' s2 h' e o :
  sane s -> Forall op_ok ops -> read s k = Ok None -> ledger_run s ops = (s1, h) ->
  read s1 k = Ok (Some e) -> progress e = Settled o ->
  Forall op_ok ops' -> ledger_run s1 ops' = (s2, h') ->
  (if outcome_hooksRan o then sent_by_executor k e EvEffect h else existsb (hooks_allowed k) h = false) /\
  match o with
  | ResultOutcome v hooksRan =>
      hooksRan = true /\ exists l, answered_by k (executor (admission e)) v l /\ l `sublist_of` commands k h
  | BlockedOutcome v _ => count_starts k h = 0%nat /\ sent_by_executor k e (EvBlock v) h
  | StoppedOutcome _ hooksRan unsure => unsure = hooksRan /\ (hooksRan = false -> count_starts k h = 0%nat)
  end /\ concluded o k s2.
Proof.
  intros Hs Hops Hr E He Hp Hops' E'. destruct (ledger_run_row _ _ _ _ _ Hs Hops Hr E) as [Hs1 Hinv].
  pose proof (ledger_run_effects _ _ _ _ _ Hs Hops Hr E) as Heff. unfold row_inv, effects_inv in *. rewrite He in Hinv, Heff.
  destruct Hinv as (Hok & (l & Hl & Hsub) & Hn). destruct Heff as [H1 H2 H3 H4].
  rewrite Hp in Hl. rewrite (proj2 Hs1 _ _ He) in Hl. unfold row_ok in Hok. rewrite Hp in Hok.
  assert (Hhooks : outcome_hooksRan o = effectPossible e).
  { destruct o as [v hk|v hk|r hk u]; cbn; [|apply Hok..]. destruct Hok as [-> Hb]. by rewrite H3. }
  split_and!; [| |apply (concluded_run o k s1 ops' s2 h' Hs1 Hops'); [exists e; auto|done]].
  - rewrite Hhooks. destruct (effectPossible e); [by apply H1|]. destruct (existsb _ h); [|done]. by discriminate (H2 eq_refl).
  - destruct o as [v hk|v hk|r hk u]; cbn in Hhooks.
    + split; [apply Hok|]. by exists l.
    + destruct Hok as [_ Hb]. rewrite Hb in Hn. split; [lia|by eapply H4].
    + destruct Hok as [-> ->]. destruct (bodyDispatched e) eqn:Hb; [by rewrite H3|]. rewrite orb_false_r. split; [done|lia].
Qed.

(** After a completed recovery no row waits for the process that died: every
    row of the store is still there with its admission, and it is settled,
    acked, or in a state the next command of its issuer or executor can move
    (awaiting consent, prepared, released, or reconciling until a deadline);
    none is admitted, preparing or dispatched. *)
Theorem recover_judges w t s s' k e :
  sane s -> recover w t s = (s', Ok tt) -> (forall k e, read s k = Ok (Some e) -> clock_ok t (admission e)) ->
  read s k = Ok (Some e) ->
  exists e', read s' k = Ok (Some e') /\ admission e' = admission e /\ settled_or_waiting (progress e') = true.
Proof. intros Hs Hrun Hclock Hr. by apply (recover_judge w t s s' Hs Hrun Hclock k e). Qed.
End Histories.

(** ** On the memory store *)

Definition sample_key : ExecutionKey := mkKey $"host" $"call-1".
Definition sample_admission : ExecutionAdmission :=
  mkAdmission sample_key $"hand" $"/w" $"tools" (of_Z 1) $"d" (of_Z 10) (of_Z 1000) true.
Definition sample_call : FrozenCall := mkFrozen $"bash" (JsStr $"ls") $"d1".

Definition whole : attempt := mkAttempt 1 $"t" (fun _ => false).
Definition killed : attempt := mkAttempt 1 $"x" (fun _ => true).
Definition sample_attempt (n : Z) : attempt := mkAttempt 1 [100 + n] (fun _ => false).

Definition says (n : Z) (who : jstring) (ev : ExecutionEvent) : ledger_op :=
  OpApply (sample_attempt n) None (mkCommand sample_key (of_Z 1) (mkActor who None) (of_Z (20 + n)) ev).

Definition sample_released : list ledger_op :=
  [OpAdmit (sample_attempt 0) None sample_admission; says 1 $"hand" EvPrepare; says 2 $"hand" EvEffect;
   says 3 $"hand" (EvFreeze sample_call true); says 4 $"host" EvConsent; says 5 $"host" EvRelease].

Definition sample_dispatched : list ledger_op :=
  sample_released ++ [OpApply killed None (mkCommand sample_key (of_Z 1) (mkActor $"hand" None) (of_Z 26) EvDispatch);
    says 7 $"hand" EvDispatch; says 8 $"hand" EvDispatch].

Definition sample_done : list ledger_op := sample_dispatched ++ [says 9 $"hand" (EvResult (JsStr $"ok"))].

Definition sample_medium : MediumState := mkMedium 1 [] [].

Definition after (ops : list ledger_op) : MediumState := (ledger_run sample_medium ops).1.
Definition history (ops : list ledger_op) := (ledger_run sample_medium ops).2.

Lemma sample_sane : sane sample_medium.
Proof. split; [|done]. split; [done|done|constructor|constructor]. Qed.

Definition starts_of (ops : list ledger_op) : nat := count_starts sample_key (history ops).

(** The dispatch that was cut is answered the second time, and never again. *)
Lemma at_most_once_witness : starts_of sample_done = 1%nat /\ (starts_of sample_done <= 1)%nat.
Proof.
  split; [by vm_compute|].
  apply (at_most_once sample_key sample_medium sample_done (after sample_done)); [apply sample_sane|by repeat constructor|done|].
  apply surjective_pairing.
Defined.

Lemma dispatch_justified_witness :
  exists l, released_by sample_key $"hand" sample_call l /\ l `sublist_of` commands sample_key (take 7 (history sample_done)).
Proof.
  assert (exists x h2, history sample_done = take 7 (history sample_done) ++ x :: h2 /\ starts sample_key x = true) as (x & h2 & Hh & Hx).
  { eexists _, _. split; [by vm_compute|by vm_compute]. }
  destruct (dispatch_justified sample_key sample_medium sample_done (after sample_done) (take 7 (history sample_done)) x h2)
    as (c & s1 & e & call & l & _ & _ & _ & _ & Hrun & Hr & Hp & _ & Hl & Hsub);
    [apply sample_sane|by repeat constructor|done|rewrite <- Hh; apply surjective_pairing|exact Hx|].
  assert (read (after (map fst (take 7 (history sample_done)))) sample_key =
    Ok (Some (mkEntry sample_admission (of_Z 1000) (of_Z 0) true false (Released sample_call)))) as Hr' by (by vm_compute).
  unfold after in Hr'. rewrite Hrun in Hr'. cbn [fst] in Hr'. rewrite Hr in Hr'. injection Hr' as ->. cbn [progress admission executor sample_admission] in *.
  injection Hp as <-. exists l. split; [exact Hl|exact Hsub].
Defined.

Definition sample_late : list ledger_op := [says 10 $"host" EvCancel; says 11 $"host" EvAck].
Definition sample_outcome : ExecutionOutcome := ResultOutcome (JsStr $"ok") true.

Lemma outcome_honest_witness :
  (sent_by_executor sample_key (mkEntry sample_admission (of_Z 1000) (of_Z 0) true true (Settled sample_outcome)) EvEffect (history sample_done)) /\
  (true = true /\ exists l, answered_by sample_key $"hand" (JsStr $"ok") l /\ l `sublist_of` commands sample_key (history sample_done)) /\
  concluded sample_outcome sample_key (ledger_run (after sample_done) sample_late).1.
Proof.
  assert (read (after sample_done) sample_key =
    Ok (Some (mkEntry sample_admission (of_Z 1000) (of_Z 0) true true (Settled sample_outcome)))) as Hr by (by vm_compute).
  exact (outcome_honest sample_key sample_medium sample_done (after sample_done) (history sample_done)
    sample_late (ledger_run (after sample_done) sample_late).1 (ledger_run (after sample_done) sample_late).2 _ sample_outcome
    sample_sane ltac:(by repeat constructor) eq_refl (surjective_pairing _) Hr eq_refl ltac:(by repeat constructor) (surjective_pairing _)).
Defined.

(** A medium with one document. *)
Lemma read_single v ep rs k0 e0 k e :
  decodeExecution v = Ok e0 -> read (mkMedium ep rs [(ledger_key k0, v)]) k = Ok (Some e) -> e = e0.
Proof.
  unfold read. cbn. unfold memory_get. cbn. case_bool_decide; [|done]. intros ->. by intros [= ->].
Qed.

Lemma recover_judges_witness :
  exists e', read (recover (fun i => sample_attempt (50 + Z.of_nat i)) (of_Z 40) (after sample_dispatched)).1 sample_key = Ok (Some e') /\
    settled_or_waiting (progress e') = true.
Proof.
  pose (e0 := mkEntry sample_admission (of_Z 1000) (of_Z 0) true true (Dispatched sample_call)).
  destruct (recover_judges (fun i => sample_attempt (50 + Z.of_nat i)) (of_Z 40) (after sample_dispatched)
    (recover (fun i => sample_attempt (50 + Z.of_nat i)) (of_Z 40) (after sample_dispatched)).1 sample_key e0) as (e' & Hr & _ & Hj).
  - eapply (ledger_run_inv (fun _ _ => True) sample_medium sample_dispatched _ (history sample_dispatched) []);
      [apply sample_sane|by repeat constructor|done|done|apply surjective_pairing].
  - by vm_compute.
  - assert (exists ep rs, after sample_dispatched = mkMedium ep rs [(ledger_key sample_key, entry_json e0)]) as (ep & rs & ->).
    { eexists _, _. by vm_compute. }
    intros k e Hr. apply (read_single _ _ _ _ e0) in Hr; [|by vm_compute]. subst e. by split_and!.
  - by vm_compute.
  - exists e'. split; [exact Hr|exact Hj].
Defined.
