(* ===== verification/BatchPlan.v ===== *)
(** * Planning a batch (packages/agent/src/execution: coordinator-types.ts, coordinator-plan.ts, canonical-digest.ts)

The calls of one assistant message with the order in which they may be
released, the manifest that fixes them durably, and what a reply of the
executor means.  [waits_for_spec] says what the dependencies amount to, and
[finished_spec] that the memoised search of the source decides whether
everything a call waits for is done. *)
From S2P Require Import Prelude JsString JsonText JsNumber JsObject Utf8 Json DurableStore Ledger.
#[local] Open Scope Z_scope.

(** ** Data (coordinator-types.ts) *)

Record BatchCallPlan := mkCallPlan {
  executionId : jstring; call_executor : jstring; call_name : jstring; call_args : json; sequential : bool }.

(** A plan without its calls: what the manifest keeps of it. *)
Record BatchHeader := mkHeader {
  batchId : jstring; h_scope : jstring; h_workspace : jstring; h_generation : num; h_admittedAt : num; h_leaseUntil : num }.

Record BatchPlan := mkPlan { header : BatchHeader; calls : list BatchCallPlan }.

Record ManifestCall := mkManifestCall {
  call_plan : BatchCallPlan; sourceIndex : nat; dependsOn : list nat; wave : Z; call_digest : jstring }.

Record BatchManifest := mkManifest {
  m_header : BatchHeader; m_issuer : jstring; m_calls : list ManifestCall; manifestDigest : jstring }.

Inductive PrepareReply :=
| PreparedReply (frozenDigest : jstring)
| AwaitingReply (frozenDigest : jstring)
| BlockedReply (value : json)
| BatchAbortReply
| SettledReply (outcome : ExecutionOutcome).

Inductive SettleReply := Settlement (outcome : ExecutionOutcome) | UnknownExecution.

Inductive ConsentAnswer := approved | denied | expired.

Inductive ConsentGate := raw | frozen_gate.

Record ConsentRecord := mkConsent { gate : ConsentGate; consent_digest : jstring; answer : ConsentAnswer }.

Inductive BatchDecision := RELEASE | ABORT.

Inductive AbortCause := batch_abort | interrupted_preparation.

Inductive CallOutcome :=
| CallResult (value : json)
| CallBlocked (value : json)
| CallNotRun (cause : AbortCause)
| CallInterrupted (reason : jstring) (unsure : bool).

#[export] Instance ConsentGate_eq_dec : EqDecision ConsentGate.
Proof. solve_decision. Defined.
#[export] Instance ConsentAnswer_eq_dec : EqDecision ConsentAnswer.
Proof. solve_decision. Defined.
#[export] Instance BatchDecision_eq_dec : EqDecision BatchDecision.
Proof. solve_decision. Defined.

(** [manifest] is the stored value: only its digest is read again. *)
Record BatchRecord := mkBatch {
  manifest : json; prepares : list (option PrepareReply); decision : option BatchDecision;
  released : list bool; outcomes : list (option CallOutcome); consents : option (list (option ConsentRecord)) }.

Record BatchResult := mkResult { final_decision : BatchDecision; final_outcomes : list CallOutcome }.

(** ** Dependencies (coordinator-plan.ts) *)

Record scheduler := mkScheduler { placed : list (list nat * Z); previousSequential : option nat; parallelSince : list nat }.

Definition anchor (prev : option nat) : list nat := match prev with Some p => [p] | None => [] end.

(** [Math.max(-1, ...waves) + 1], reading [-1] for a wave that is not there. *)
Definition wave_of (placed : list (list nat * Z)) (deps : list nat) : Z :=
  foldr Z.max (-1) ((fun d => match placed !! d with Some p => p.2 | None => -1 end) <$> deps) + 1.

Definition place (st : scheduler) (index : nat) (seq : bool) : scheduler :=
  let deps := anchor (previousSequential st) ++ (if seq then parallelSince st else []) in
  mkScheduler (placed st ++ [(deps, wave_of (placed st) deps)])
    (if seq then Some index else previousSequential st)
    (if seq then [] else parallelSince st ++ [index]).

Fixpoint place_all (st : scheduler) (index : nat) (seqs : list bool) : scheduler :=
  match seqs with [] => st | s :: seqs => place_all (place st index s) (S index) seqs end.

Definition batchDependencies (seqs : list bool) : list (list nat * Z) :=
  placed (place_all (mkScheduler [] None []) 0 seqs).

(** *** Replies *)

Definition abortCause (reply : PrepareReply) : option AbortCause :=
  match reply with
  | BatchAbortReply => Some batch_abort
  | SettledReply (ResultOutcome _ _) => None
  | SettledReply _ => Some interrupted_preparation
  | _ => None
  end.

Definition settledOutcome (reply : SettleReply) : CallOutcome :=
  match reply with
  | UnknownExecution => CallInterrupted $"unknown_execution" true
  | Settlement (ResultOutcome value _) => CallResult value
  | Settlement (BlockedOutcome value _) => CallBlocked value
  | Settlement (StoppedOutcome reason _ unsure) => CallInterrupted (reason_text reason) unsure
  end.

(** [None] is [undefined], [Some tt] the placeholder of an interrupted call. *)
Definition interruptedReplayText (placeholder : jstring) (o : CallOutcome) : option jstring :=
  match o with
  | CallInterrupted _ _ | CallNotRun interrupted_preparation => Some placeholder
  | _ => None
  end.

(** *** Whether a call and all it waits for are done

The answers found so far are kept, as in the source; [fuel] bounds the depth of
the search. *)

Definition outcome_null {A} (outcomes : list (option A)) (at_ : nat) : bool :=
  match outcomes !! at_ with Some None => true | _ => false end.

Section Finished.
Context {A : Type} (deps : list (list nat)) (outs : list (option A)).

Definition deps_of (i : nat) : list nat := default [] (deps !! i).

(** [every]: stops at the first [false]. *)
Fixpoint every (visit : gmap nat bool -> nat -> option (gmap nat bool * bool)) (done : gmap nat bool) (ds : list nat) :
    option (gmap nat bool * bool) :=
  match ds with
  | [] => Some (done, true)
  | d :: ds =>
      match visit done d with
      | Some (done, true) => every visit done ds
      | other => other
      end
  end.

Fixpoint visit (fuel : nat) (done : gmap nat bool) (at_ : nat) : option (gmap nat bool * bool) :=
  match done !! at_ with
  | Some known => Some (done, known)
  | None =>
      match fuel with
      | O => None
      | S fuel =>
          if outcome_null outs at_ then Some (<[at_ := false]> done, false)
          else
            match every (visit fuel) done (deps_of at_) with
            | Some (done, b) => Some (<[at_ := b]> done, b)
            | None => None
            end
      end
  end.

(** Dependencies have smaller indexes, so the depth is at most [index]. *)
Definition finished (index : nat) : bool :=
  match visit (S index) ∅ index with Some (_, b) => b | None => false end.
End Finished.

(** ** Digests and manifests *)

Section Digest.
(** The text of a number and SHA-256 are the platform's. *)
Context (number_text : num -> jstring) (sha256 : bytes -> bytes).

Fixpoint canonicalJson (v : json) : jstring :=
  match v with
  | JsNull => $"null"
  | JsBool true => $"true"
  | JsBool false => $"false"
  | JsNum f => number_text f
  | JsStr s => quoted s
  | JsArr items => $"[" ++ join $"," (canonicalJson <$> items) ++ $"]"
  | JsObj _ entries =>
      let texts := (fun e : jstring * json => (e.1, quoted e.1 ++ $":" ++ canonicalJson e.2)) <$> entries in
      $"{" ++ join $"," (snd <$> sort_by (fun a b => compare_units a.1 b.1) texts) ++ $"}"
  end.

Definition hex_of (b : bytes) : jstring := b ≫= fun x => [hex_digit (x / 16); hex_digit (x mod 16)].

Definition canonicalDigest (v : json) : jstring := hex_of (sha256 (utf8_encode (canonicalJson v))).

Definition request_digest (c : BatchCallPlan) : jstring :=
  canonicalDigest (object_json [($"name", JsStr (call_name c)); ($"args", call_args c)]).

Definition manifest_call_json (c : ManifestCall) : json :=
  let p := call_plan c in
  object_json [($"executionId", JsStr (executionId p)); ($"executor", JsStr (call_executor p)); ($"name", JsStr (call_name p));
    ($"args", call_args p); ($"sequential", JsBool (sequential p)); ($"sourceIndex", JsNum (of_Z (Z.of_nat (sourceIndex c))));
    ($"dependsOn", JsArr ((fun d => JsNum (of_Z (Z.of_nat d))) <$> dependsOn c)); ($"wave", JsNum (of_Z (wave c)));
    ($"requestDigest", JsStr (call_digest c))].

Definition manifest_fields (h : BatchHeader) (iss : jstring) (cs : list ManifestCall) : list (jstring * json) :=
  [($"batchId", JsStr (batchId h)); ($"scope", JsStr (h_scope h)); ($"workspace", JsStr (h_workspace h));
   ($"generation", JsNum (h_generation h)); ($"admittedAt", JsNum (h_admittedAt h)); ($"leaseUntil", JsNum (h_leaseUntil h));
   ($"issuer", JsStr iss); ($"calls", JsArr (manifest_call_json <$> cs))].

Definition manifest_json (m : BatchManifest) : json :=
  object_json (manifest_fields (m_header m) (m_issuer m) (m_calls m) ++ [($"manifestDigest", JsStr (manifestDigest m))]).

Definition manifest_call (index : nat) (c : BatchCallPlan) (p : list nat * Z) : ManifestCall :=
  mkManifestCall c index p.1 p.2 (request_digest c).

Definition buildBatchManifest (iss : jstring) (plan : BatchPlan) : BatchManifest :=
  let places := batchDependencies (sequential <$> calls plan) in
  let cs := imap (fun i c => manifest_call i c (default ([], 0) (places !! i))) (calls plan) in
  mkManifest (header plan) iss cs (canonicalDigest (object_json (manifest_fields (header plan) iss cs))).
End Digest.

(** ** What the dependencies are *)

(** [i] waits directly for an earlier [d] with no sequential call between them
    when either of the two is sequential. *)
Definition direct (seqs : list bool) (i d : nat) : Prop :=
  (d < i < length seqs)%nat /\ (forall k, (d < k < i)%nat -> seqs !! k <> Some true) /\
  (seqs !! i = Some true \/ seqs !! d = Some true).

Record sched_ok (pre : list bool) (st : scheduler) : Prop := {
  sched_length : length (placed st) = length pre;
  sched_prev : match previousSequential st with
    | None => forall k, pre !! k <> Some true
    | Some p => pre !! p = Some true /\ forall k, (p < k)%nat -> pre !! k <> Some true
    end;
  sched_since j : j ∈ parallelSince st <->
    (j < length pre)%nat /\ match previousSequential st with None => True | Some p => (p < j)%nat end;
  sched_placed i ds w : placed st !! i = Some (ds, w) ->
    (forall d, d ∈ ds <-> direct pre i d) /\ w = wave_of (take i (placed st)) ds }.

Lemma direct_snoc pre s i d : (i < length pre)%nat -> direct (pre ++ [s]) i d <-> direct pre i d.
Proof.
  intros Hi. unfold direct. rewrite length_app. cbn. split; intros ([? ?] & Hk & Hs); (split; [lia|]); split.
  - intros k Hk'. rewrite <- (lookup_app_l pre [s]) by lia. by apply Hk.
  - by rewrite <- !(lookup_app_l pre [s]) by lia.
  - intros k Hk'. rewrite lookup_app_l by lia. by apply Hk.
  - by rewrite !(lookup_app_l pre [s]) by lia.
Qed.

Lemma direct_last pre s st d :
  sched_ok pre st ->
  direct (pre ++ [s]) (length pre) d <-> d ∈ anchor (previousSequential st) ++ (if s then parallelSince st else []).
Proof.
  intros [_ Hp Hs _]. unfold direct. rewrite elem_of_app, length_app, list_lookup_middle by done. cbn.
  assert ((d < length pre)%nat -> (forall k, (d < k < length pre)%nat -> (pre ++ [s]) !! k <> Some true) <->
    (forall k, (d < k)%nat -> pre !! k <> Some true)) as Hafter.
  { intros Hd. split; intros Hk k Hk'.
    - destruct (decide (k < length pre)%nat); [rewrite <- (lookup_app_l pre [s]) by lia; apply Hk; lia|].
      by rewrite lookup_ge_None_2 by lia.
    - rewrite lookup_app_l by lia. apply Hk. lia. }
  split.
  - intros ([Hd _] & Hk & Hor). rewrite Hafter in Hk by done. rewrite lookup_app_l in Hor by done.
    destruct (previousSequential st) as [p|]; cbn; rewrite ?list_elem_of_singleton.
    + destruct Hp as [Hp1 Hp2]. destruct (lt_eq_lt_dec d p) as [[Hlt| ->]|Hlt]; [by destruct (Hk p Hlt)|by left|right].
      destruct s; [by apply Hs|]. destruct Hor as [?|Hor]; [done|]. by destruct (Hp2 d Hlt).
    + destruct Hor as [[= ->]|Hor]; [right; by apply Hs|by destruct (Hp d)].
  - assert ((exists p, previousSequential st = Some p /\ d = p) \/ s = true /\ d ∈ parallelSince st ->
      (d < length pre < length pre + 1)%nat /\
      (forall k, (d < k < length pre)%nat -> (pre ++ [s]) !! k <> Some true) /\ (Some s = Some true \/ (pre ++ [s]) !! d = Some true)) as Hgoal.
    { intros [(p & Ep & ->)|[-> Hd]].
      - rewrite Ep in Hp. destruct Hp as [Hp1 Hp2]. pose proof (lookup_lt_Some _ _ _ Hp1). split; [lia|].
        rewrite Hafter by done. split; [done|]. right. by rewrite lookup_app_l.
      - apply Hs in Hd as [Hd Hpd]. split; [lia|]. rewrite Hafter by done. split; [|by left]. intros k Hk.
        destruct (previousSequential st); [apply Hp; lia|apply Hp]. }
    intros Hd. apply Hgoal. destruct Hd as [Hd|Hd].
    + left. destruct (previousSequential st) as [p|]; cbn in Hd; [|by apply elem_of_nil in Hd].
      apply list_elem_of_singleton in Hd as ->. by exists p.
    + right. destruct s; [done|by apply elem_of_nil in Hd].
Qed.

Lemma place_ok pre st s : sched_ok pre st -> sched_ok (pre ++ [s]) (place st (length pre) s).
Proof.
  intros Hok. pose proof Hok as [Hl Hp Hs Hpl]. unfold place. split; cbn [placed previousSequential parallelSince].
  - by rewrite !length_app, Hl.
  - destruct s.
    + rewrite list_lookup_middle by done. split; [done|]. intros k Hk. by rewrite lookup_ge_None_2 by (rewrite length_app; cbn; lia).
    + assert (forall k, (pre ++ [false]) !! k = Some true -> pre !! k = Some true) as Hlast.
      { intros k. rewrite lookup_app. destruct (pre !! k); [done|]. by destruct (k - length pre)%nat as [|[|?]]. }
      destruct (previousSequential st) as [p|].
      * destruct Hp as [Hp1 Hp2]. split; [by apply lookup_app_l_Some|]. intros k Hk Hk'. by eapply Hp2, Hlast.
      * intros k Hk. by eapply Hp, Hlast.
  - intros j. rewrite length_app. cbn. destruct s; [rewrite elem_of_nil; lia|]. rewrite elem_of_app, list_elem_of_singleton, Hs.
    destruct (previousSequential st) as [p|]; [|lia]. destruct Hp as [Hp1 _]. apply lookup_lt_Some in Hp1. lia.
  - intros i ds w Hi. destruct (decide (i < length pre)%nat) as [Hlt|Hge].
    + rewrite lookup_app_l in Hi by (by rewrite Hl). destruct (Hpl _ _ _ Hi) as [Hd ->]. split.
      * intros d. by rewrite direct_snoc.
      * f_equal. by rewrite take_app_le by (rewrite Hl; lia).
    + pose proof (lookup_lt_Some _ _ _ Hi) as Hlt. rewrite length_app, Hl in Hlt. cbn in Hlt. assert (i = length pre) as -> by lia.
      rewrite list_lookup_middle in Hi by done. injection Hi as <- <-. split; [intros d; by rewrite direct_last|].
      by rewrite <- Hl, take_app_length.
Qed.

Lemma place_all_ok pre st seqs : sched_ok pre st -> sched_ok (pre ++ seqs) (place_all st (length pre) seqs).
Proof.
  revert pre st. induction seqs as [|s seqs IH]; intros pre st Hok; cbn [place_all]; [by rewrite app_nil_r|].
  replace (pre ++ s :: seqs) with ((pre ++ [s]) ++ seqs) by (by rewrite <- app_assoc).
  replace (S (length pre)) with (length (pre ++ [s])) by (rewrite length_app; cbn; lia). by apply IH, place_ok.
Qed.

Lemma batchDependencies_ok seqs :
  sched_ok seqs (place_all (mkScheduler [] None []) 0 seqs).
Proof.
  apply (place_all_ok [] (mkScheduler [] None []) seqs). split; cbn; try done. intros j. rewrite elem_of_nil. lia.
Qed.

Definition dependencies (seqs : list bool) : list (list nat) := fst <$> batchDependencies seqs.

Lemma batchDependencies_length seqs : length (batchDependencies seqs) = length seqs.
Proof. apply batchDependencies_ok. Qed.

Lemma dependencies_direct seqs i d : d ∈ deps_of (dependencies seqs) i <-> direct seqs i d.
Proof.
  unfold deps_of, dependencies. rewrite list_lookup_fmap. destruct (batchDependencies seqs !! i) as [[ds w]|] eqn:E; cbn.
  - by apply (sched_placed _ _ (batchDependencies_ok seqs) i ds w).
  - rewrite elem_of_nil. split; [done|]. intros [[_ Hi] _]. apply lookup_ge_None in E. rewrite batchDependencies_length in E. lia.
Qed.

(** Waiting, directly or through others. *)
Definition waits_for (deps : list (list nat)) : nat -> nat -> Prop := tc (fun i d => d ∈ deps_of deps i).

Lemma last_sequential (seqs : list bool) i :
  (forall k, (k < i)%nat -> seqs !! k <> Some true) \/
  exists m, (m < i)%nat /\ seqs !! m = Some true /\ forall k, (m < k < i)%nat -> seqs !! k <> Some true.
Proof.
  induction i as [|i IH]; [left; lia|]. destruct (decide (seqs !! i = Some true)) as [Hi|Hi].
  - right. exists i. split_and!; [lia|done|lia].
  - destruct IH as [Hno|(m & Hm & Hsm & Hno)].
    + left. intros k Hk. destruct (decide (k = i)); [congruence|apply Hno; lia].
    + right. exists m. split_and!; [lia|done|]. intros j Hj. destruct (decide (j = i)); [congruence|apply Hno; lia].
Qed.

Lemma waits_for_iff seqs i j :
  waits_for (dependencies seqs) i j <->
  (j < i < length seqs)%nat /\ exists k, (j <= k <= i)%nat /\ seqs !! k = Some true.
Proof.
  split.
  - induction 1 as [i d Hd|i d j Hd _ IH]; apply dependencies_direct in Hd as ([? ?] & Hno & Hor).
    + split; [lia|]. destruct Hor; [exists i|exists d]; split; done || lia.
    + destruct IH as ([? ?] & k & ? & ?). split; [lia|]. exists k. split; [lia|done].
  - revert j. induction (lt_wf i) as [i _ IH]. intros j ([Hj Hi] & k & Hk & Hs).
    destruct (last_sequential seqs i) as [Hno|(m & Hm & Hsm & Hno)].
    { assert (k = i) as -> by (destruct (decide (k = i)); [done|by destruct (Hno k); [lia|]]).
      apply tc_once, dependencies_direct. split; [lia|]. split; [intros k' ?; apply Hno; lia|by left]. }
    destruct (decide (m < j)%nat) as [Hmj|Hmj].
    { assert (k = i) as -> by (destruct (decide (k = i)); [done|by destruct (Hno k); [lia|]]).
      apply tc_once, dependencies_direct. split; [lia|]. split; [intros k' ?; apply Hno; lia|by left]. }
    assert (direct seqs i m) as Hdm by (split; [lia|]; split; [done|by right]).
    destruct (decide (m = j)) as [->|Hne]; [by apply tc_once, dependencies_direct|].
    eapply tc_l; [by apply dependencies_direct|]. apply IH; [lia|]. split; [lia|]. exists m. split; [lia|done].
Qed.

(** *** Waves *)

Lemma wave_of_ge placed ds w i : i ∈ ds -> placed !! i = Some w -> w.2 < wave_of placed ds.
Proof.
  intros Hi Hw. unfold wave_of. induction ds as [|d ds IH]; [by apply elem_of_nil in Hi|]. cbn.
  apply elem_of_cons in Hi as [<-|Hi]; [rewrite Hw; lia|]. specialize (IH Hi). lia.
Qed.

Lemma waits_for_wave seqs i j wi wj :
  waits_for (dependencies seqs) i j ->
  batchDependencies seqs !! i = Some wi -> batchDependencies seqs !! j = Some wj -> wj.2 < wi.2.
Proof.
  intros Hw. revert wi. induction Hw as [i d Hd|i d j Hd _ IH]; intros wi Hi Hj.
  all: assert (d < i)%nat as Hlt by (apply dependencies_direct in Hd; destruct Hd; lia).
  all: destruct wi as [ds w]; destruct (sched_placed _ _ (batchDependencies_ok seqs) i ds w Hi) as [_ Ew];
    unfold deps_of, dependencies in Hd; rewrite list_lookup_fmap, Hi in Hd; cbn in Hd.
  - cbn [snd]. rewrite Ew. eapply wave_of_ge; [done|]. by rewrite lookup_take_lt by lia.
  - destruct (lookup_lt_is_Some_2 (batchDependencies seqs) d) as [wd Hwd]; [apply lookup_lt_Some in Hi; lia|].
    specialize (IH wd Hwd Hj). enough (wd.2 < w) by (cbn; lia). rewrite Ew. eapply wave_of_ge; [done|]. by rewrite lookup_take_lt by lia.
Qed.

(** *** The search *)

Section Search.
Context {A : Type} (deps : list (list nat)) (outs : list (option A)).
Hypothesis deps_below : forall i d, d ∈ deps_of deps i -> (d < i)%nat.

(** The call and all it waits for have outcomes. *)
Definition all_done (i : nat) : Prop :=
  outcome_null outs i = false /\ forall j, waits_for deps i j -> outcome_null outs j = false.

Lemma all_done_step i :
  all_done i <-> outcome_null outs i = false /\ forall d, d ∈ deps_of deps i -> all_done d.
Proof.
  split; intros [Hi Hd]; (split; [done|]).
  - intros d Hdi. split; [by apply Hd, tc_once|]. intros j Hj. apply Hd. by eapply tc_l.
  - intros j Hj. inversion Hj as [? ? Hji|? d ? Hdi Hdj]; subst; [by apply Hd|by apply (Hd d)].
Qed.

Definition memo_ok (done : gmap nat bool) : Prop := forall i b, done !! i = Some b -> (b = true <-> all_done i).

Lemma memo_ok_insert done i b : memo_ok done -> (b = true <-> all_done i) -> memo_ok (<[i := b]> done).
Proof. intros Hm Hb j c. rewrite lookup_insert_Some. intros [[<- <-]|[_ Hj]]; [done|by apply Hm]. Qed.

Lemma visit_spec fuel : forall done i,
  (i < fuel)%nat -> memo_ok done ->
  exists done' b, visit deps outs fuel done i = Some (done', b) /\ memo_ok done' /\ (b = true <-> all_done i).
Proof.
  induction fuel as [|fuel IH]; intros done i Hi Hm; [lia|]. cbn [visit].
  destruct (done !! i) as [b|] eqn:E; [exists done, b; split_and!; [done|done|by apply Hm]|].
  destruct (outcome_null outs i) eqn:Eo.
  { exists (<[i:=false]> done), false. assert (false = true <-> all_done i) by (split; [done|]; intros [? _]; congruence).
    split_and!; [done|by apply memo_ok_insert|done]. }
  assert (forall ds done0, (forall d, d ∈ ds -> (d < fuel)%nat) -> memo_ok done0 ->
    exists done' b, every (visit deps outs fuel) done0 ds = Some (done', b) /\ memo_ok done' /\
      (b = true <-> forall d, d ∈ ds -> all_done d)) as Hevery.
  { induction ds as [|d ds IHds]; intros done0 Hds Hm0; cbn [every].
    { exists done0, true. split_and!; [done|done|]. split; [|done]. intros _ d Hd. by apply elem_of_nil in Hd. }
    destruct (IH done0 d) as (done1 & b & -> & Hm1 & Hb); [apply Hds; apply elem_of_cons; by left|done|].
    destruct b.
    - destruct (IHds done1) as (done2 & b2 & -> & Hm2 & Hb2); [intros d' ?; apply Hds, elem_of_cons; by right|done|].
      exists done2, b2. split_and!; [done|done|]. rewrite Hb2. setoid_rewrite elem_of_cons. split; [intros Hall d' [->|?]; [by apply Hb|by apply Hall]|by auto].
    - exists done1, false. split_and!; [done|done|]. split; [done|]. intros Hall. apply Hb, Hall, elem_of_cons. by left. }
  destruct (Hevery (deps_of deps i) done) as (done' & b & -> & Hm' & Hb); [intros d Hd; specialize (deps_below i d Hd); lia|done|].
  assert (b = true <-> all_done i) as Hbi by (rewrite all_done_step, Hb; naive_solver).
  exists (<[i:=b]> done'), b. split_and!; [done|by apply memo_ok_insert|done].
Qed.

Lemma finished_iff i : finished deps outs i = true <-> all_done i.
Proof.
  unfold finished. destruct (visit_spec (S i) ∅ i) as (memo & b & -> & _ & Hb); [lia|intros j b Hj; by rewrite lookup_empty in Hj|done].
Qed.
End Search.

Lemma dependencies_below seqs i d : d ∈ deps_of (dependencies seqs) i -> (d < i)%nat.
Proof. rewrite dependencies_direct. intros [[? _] _]. lia. Qed.

(** What the dependencies of a batch amount to: the search of the release loop
    says that a call and everything it waits for are done exactly when the call
    itself and every earlier call that is separated from it by a sequential
    call, one of the two included, have outcomes.  So a sequential call waits
    for all calls before it and every call waits for all sequential calls
    before it and for what they wait for; parallel calls between two sequential
    ones do not wait for each other.  A call's wave is above the waves of all it
    waits for. *)
Theorem batch_order {A} (seqs : list bool) (outs : list (option A)) (i : nat) (w : list nat * Z) :
  batchDependencies seqs !! i = Some w ->
  (finished (dependencies seqs) outs i = true <->
   forall j, j = i \/ (j < i)%nat /\ (exists k, (j <= k <= i)%nat /\ seqs !! k = Some true) -> outcome_null outs j = false) /\
  (forall j w', waits_for (dependencies seqs) i j -> batchDependencies seqs !! j = Some w' -> w'.2 < w.2).
Proof.
  intros Hi. pose proof (lookup_lt_Some _ _ _ Hi) as Hlt. rewrite batchDependencies_length in Hlt. split.
  - rewrite finished_iff by apply dependencies_below. unfold all_done. setoid_rewrite waits_for_iff. split.
    + intros [H0 H1] j [->|[Hj Hk]]; [done|]. by apply H1.
    + intros H. split; [apply H; by left|]. intros j [[Hj _] Hk]. apply H. by right.
  - intros j w' Hw Hj. by eapply waits_for_wave.
Qed.

Lemma batch_order_witness :
  let seqs := [false; true; false; false] in let outs := [Some tt; Some tt; None; Some tt] in
  (batchDependencies seqs = [([], 0); ([0%nat], 1); ([1%nat], 2); ([1%nat], 2)]) /\
  finished (dependencies seqs) outs 3 = true /\ outcome_null outs 0 = false.
Proof.
  split; [by vm_compute|]. split; [by vm_compute|].
  destruct (batch_order [false; true; false; false] [Some tt; Some tt; None; Some tt] 3 ([1%nat], 2)) as [H _]; [by vm_compute|].
  apply (proj1 H); [by vm_compute|]. right. split; [lia|]. exists 1%nat. split; [lia|done].
Defined.

Lemma wave_bound seqs i w : batchDependencies seqs !! i = Some w -> 0 <= w.2 <= Z.of_nat i.
Proof.
  revert w. induction (lt_wf i) as [i _ IH]. intros [ds w] Hi. cbn.
  destruct (sched_placed _ _ (batchDependencies_ok seqs) i ds w Hi) as [Hd ->]. fold (batchDependencies seqs) in *.
  assert (forall d, d ∈ ds -> (d < i)%nat) as Hlt by (intros d Hdd; apply Hd in Hdd as [[? _] _]; lia). clear Hd Hi.
  unfold wave_of. assert (-1 <= foldr Z.max (-1) ((fun d => match take i (batchDependencies seqs) !! d with Some p => p.2 | None => -1 end) <$> ds) < Z.of_nat i); [|lia].
  induction ds as [|d ds IHd]; cbn; [lia|]. assert (d < i)%nat as Hdi by (apply Hlt, elem_of_cons; by left).
  specialize (IHd (fun x Hx => Hlt x (proj2 (elem_of_cons _ _ _) (or_intror Hx)))).
  destruct (take i (batchDependencies seqs) !! d) as [p|] eqn:E; [|lia]. rewrite lookup_take_lt in E by done.
  specialize (IH d Hdi p E). lia.
Qed.
