(* ===== verification/BatchCodec.v ===== *)
(** * Durable batch records (packages/agent/src/execution/coordinator-codec.ts)

What a stored batch record must look like, read once into the typed record the
coordinator works with; the manifest is checked and kept as it is.  Writing a
record and reading it back gives the record. *)
From S2P Require Import Prelude JsString JsNumber JsObject Json Ledger BatchPlan.
#[local] Open Scope Z_scope.

(** ** Reading *)

(** [String(v)] of a value whose text can be a stop reason. *)
Fixpoint reason_string (v : json) : option jstring :=
  match v with JsStr s => Some s | JsArr [x] => reason_string x | _ => None end.

Definition stop_reason (s : jstring) : option StopReason :=
  if bool_decide (s = $"cancelled") then Some cancelled
  else if bool_decide (s = $"lease_expired") then Some lease_expired
  else if bool_decide (s = $"hand_restarted") then Some hand_restarted
  else if bool_decide (s = $"uncertain") then Some uncertain
  else None.

Definition terminal (v : option json) : option ExecutionOutcome :=
  v ≫= fun v => bool_of (member v $"hooksRan") ≫= fun hooksRan : bool => bool_of (member v $"uncertain") ≫= fun unsure : bool =>
  match member v $"reason" with
  | Some (JsStr reason) =>
      if bool_decide (reason = $"result") then member v $"value" ≫= fun value => Some (ResultOutcome value hooksRan)
      else if bool_decide (reason = $"blocked") then member v $"value" ≫= fun value => Some (BlockedOutcome value hooksRan)
      else stop_reason reason ≫= fun r => Some (StoppedOutcome r hooksRan unsure)
  | Some w => reason_string w ≫= fun s => stop_reason s ≫= fun r => Some (StoppedOutcome r hooksRan unsure)
  | None => None
  end.

Definition strings (v : json) (keys : list jstring) : bool :=
  forallb (fun k => match string_of (member v k) with Some _ => true | None => false end) keys.

Definition numbers (v : json) (keys : list jstring) : bool :=
  forallb (fun k => match number_of (member v k) with Some _ => true | None => false end) keys.

Definition manifest_call_ok (v : json) : bool :=
  strings v [$"executionId"; $"executor"; $"name"; $"requestDigest"]
  && numbers v [$"sourceIndex"; $"wave"]
  && match bool_of (member v $"sequential") with Some _ => true | None => false end
  && match member v $"args" with Some _ => true | None => false end
  && match member v $"dependsOn" with
     | Some (JsArr ds) => forallb (fun d => match d with JsNum _ => true | _ => false end) ds
     | _ => false
     end.

(** The calls of a manifest, when it is one. *)
Definition manifest_of (v : json) : option (list json) :=
  if strings v [$"batchId"; $"scope"; $"workspace"; $"issuer"; $"manifestDigest"]
     && numbers v [$"generation"; $"admittedAt"; $"leaseUntil"]
  then match member v $"calls" with
       | Some (JsArr cs) => if forallb manifest_call_ok cs then Some cs else None
       | _ => None
       end
  else None.

Definition prepareReply (v : json) : option PrepareReply :=
  string_of (member v $"kind") ≫= fun kind =>
  if bool_decide (kind = $"prepared") then PreparedReply <$> string_of (member v $"frozenDigest")
  else if bool_decide (kind = $"prepared_awaiting_consent") then AwaitingReply <$> string_of (member v $"frozenDigest")
  else if bool_decide (kind = $"blocked") then BlockedReply <$> member v $"result"
  else if bool_decide (kind = $"batch_abort") then Some BatchAbortReply
  else if bool_decide (kind = $"settled") then SettledReply <$> terminal (member v $"outcome")
  else None.

Definition callOutcome (v : json) : option CallOutcome :=
  string_of (member v $"kind") ≫= fun kind =>
  if bool_decide (kind = $"result") then CallResult <$> member v $"value"
  else if bool_decide (kind = $"blocked") then CallBlocked <$> member v $"result"
  else if bool_decide (kind = $"not_run") then
    string_of (member v $"cause") ≫= fun cause =>
    if bool_decide (cause = $"batch_abort") then Some (CallNotRun batch_abort)
    else if bool_decide (cause = $"interrupted_preparation") then Some (CallNotRun interrupted_preparation)
    else None
  else if bool_decide (kind = $"interrupted") then
    string_of (member v $"reason") ≫= fun reason =>
    bool_of (member v $"uncertain") ≫= fun unsure : bool => Some (CallInterrupted reason unsure)
  else None.

Definition consentRecord (v : json) : option ConsentRecord :=
  string_of (member v $"gate") ≫= fun g => string_of (member v $"digest") ≫= fun d => string_of (member v $"answer") ≫= fun a =>
  (if bool_decide (g = $"raw") then Some raw else if bool_decide (g = $"frozen") then Some frozen_gate else None) ≫= fun g =>
  (if bool_decide (a = $"approved") then Some approved else if bool_decide (a = $"denied") then Some denied
   else if bool_decide (a = $"expired") then Some expired else None) ≫= fun a =>
  Some (mkConsent g d a).

(** [entry === null || read(entry)] *)
Definition nullable {A} (read : json -> option A) (v : json) : option (option A) :=
  match v with JsNull => Some None | _ => Some <$> read v end.

(** An array of [size] entries. *)
Definition sized {A} (read : json -> option A) (size : nat) (v : option json) : option (list A) :=
  match v with
  | Some (JsArr items) => if (length items =? size)%nat then mapM read items else None
  | _ => None
  end.

Definition decision_of (v : option json) : option (option BatchDecision) :=
  match v with
  | Some JsNull => Some None
  | Some (JsStr s) =>
      if bool_decide (s = $"RELEASE") then Some (Some RELEASE)
      else if bool_decide (s = $"ABORT") then Some (Some ABORT) else None
  | _ => None
  end.

Definition batch_record (v : json) : option BatchRecord :=
  member v $"manifest" ≫= fun m => manifest_of m ≫= fun cs =>
  let size := length cs in
  match member v $"consents" with
  | None => Some None
  | found => Some <$> sized (nullable consentRecord) size found
  end ≫= fun consents =>
  decision_of (member v $"decision") ≫= fun d =>
  sized (nullable prepareReply) size (member v $"prepares") ≫= fun ps =>
  sized (fun b => bool_of (Some b)) size (member v $"released") ≫= fun rel =>
  sized (nullable callOutcome) size (member v $"outcomes") ≫= fun outs =>
  Some (mkBatch m ps d rel outs consents).

Inductive BatchReadError := BatchRecordCorrupt.

Definition decodeBatchRecord (v : json) : result BatchReadError BatchRecord :=
  match batch_record v with Some r => Ok r | None => Err BatchRecordCorrupt end.

(** ** Writing: the value [persist] puts into the store *)

Definition nullable_json {A} (write : A -> json) (o : option A) : json := match o with Some x => write x | None => JsNull end.

Definition prepare_json (p : PrepareReply) : json :=
  match p with
  | PreparedReply d => object_json [($"kind", JsStr $"prepared"); ($"frozenDigest", JsStr d)]
  | AwaitingReply d => object_json [($"kind", JsStr $"prepared_awaiting_consent"); ($"frozenDigest", JsStr d)]
  | BlockedReply v => object_json [($"kind", JsStr $"blocked"); ($"result", v)]
  | BatchAbortReply => object_json [($"kind", JsStr $"batch_abort")]
  | SettledReply o => object_json [($"kind", JsStr $"settled"); ($"outcome", outcome_json o)]
  end.

Definition cause_text (c : AbortCause) : jstring :=
  match c with batch_abort => $"batch_abort" | interrupted_preparation => $"interrupted_preparation" end.

Definition call_outcome_json (o : CallOutcome) : json :=
  match o with
  | CallResult v => object_json [($"kind", JsStr $"result"); ($"value", v)]
  | CallBlocked v => object_json [($"kind", JsStr $"blocked"); ($"result", v)]
  | CallNotRun c => object_json [($"kind", JsStr $"not_run"); ($"cause", JsStr (cause_text c))]
  | CallInterrupted r u => object_json [($"kind", JsStr $"interrupted"); ($"reason", JsStr r); ($"uncertain", JsBool u)]
  end.

Definition gate_text (g : ConsentGate) : jstring := match g with raw => $"raw" | frozen_gate => $"frozen" end.

Definition answer_text (a : ConsentAnswer) : jstring :=
  match a with approved => $"approved" | denied => $"denied" | expired => $"expired" end.

Definition consent_json (c : ConsentRecord) : json :=
  object_json [($"gate", JsStr (gate_text (gate c))); ($"digest", JsStr (consent_digest c)); ($"answer", JsStr (answer_text (answer c)))].

Definition decision_json (d : option BatchDecision) : json :=
  match d with None => JsNull | Some RELEASE => JsStr $"RELEASE" | Some ABORT => JsStr $"ABORT" end.

Definition record_json (r : BatchRecord) : json :=
  object_json ([($"manifest", manifest r); ($"prepares", JsArr (nullable_json prepare_json <$> prepares r));
    ($"decision", decision_json (decision r)); ($"released", JsArr (JsBool <$> released r));
    ($"outcomes", JsArr (nullable_json call_outcome_json <$> outcomes r))]
    ++ match consents r with None => [] | Some l => [($"consents", JsArr (nullable_json consent_json <$> l))] end).

(** ** Round trips *)

Lemma terminal_round o : terminal (Some (outcome_json o)) = Some o.
Proof. by destruct o as [v h|v h|[] h u]. Qed.

Lemma prepare_round p : prepareReply (prepare_json p) = Some p.
Proof. by destruct p as [d|d|v| |[v h|v h|[] h u]]. Qed.

Lemma call_outcome_round o : callOutcome (call_outcome_json o) = Some o.
Proof. by destruct o as [v|v|[]|r u]. Qed.

Lemma consent_round c : consentRecord (consent_json c) = Some c.
Proof. by destruct c as [[] d []]. Qed.

Lemma nullable_round {A} (read : json -> option A) (write : A -> json) o :
  (forall x, read (write x) = Some x) -> (forall x, write x <> JsNull) -> nullable read (nullable_json write o) = Some o.
Proof. intros Hr Hn. destruct o as [x|]; [|done]. cbn. specialize (Hn x). unfold nullable. destruct (write x) eqn:E; [done|..]; by rewrite <- E, Hr. Qed.

Lemma sized_round {A B} (read : json -> option A) (write : B -> json) (f : B -> A) size l :
  length l = size -> (forall x, read (write x) = Some (f x)) -> sized read size (Some (JsArr (write <$> l))) = Some (f <$> l).
Proof.
  intros <- Hr. unfold sized. rewrite length_fmap, Nat.eqb_refl. apply mapM_Some. induction l; constructor; auto.
Qed.

(** The lists of a record have one entry per call. *)
Record sized_ok (n : nat) (r : BatchRecord) : Prop := {
  size_prepares : length (prepares r) = n;
  size_released : length (released r) = n;
  size_outcomes : length (outcomes r) = n;
  size_consents : match consents r with Some l => length l = n | None => True end }.

Lemma batch_record_round r cs :
  manifest_of (manifest r) = Some cs -> sized_ok (length cs) r -> batch_record (record_json r) = Some r.
Proof.
  intros Hm [Hp Hr Ho Hc]. destruct r as [m ps d rel outs cons]. cbn in Hm, Hp, Hr, Ho, Hc.
  assert (sized (nullable prepareReply) (length cs) (Some (JsArr (nullable_json prepare_json <$> ps))) = Some ps) as E1.
  { rewrite (sized_round _ _ id); [by rewrite list_fmap_id|done|]. intros x. apply nullable_round; [apply prepare_round|by intros []]. }
  assert (sized (nullable callOutcome) (length cs) (Some (JsArr (nullable_json call_outcome_json <$> outs))) = Some outs) as E2.
  { rewrite (sized_round _ _ id); [by rewrite list_fmap_id|done|]. intros x. apply nullable_round; [apply call_outcome_round|by intros []]. }
  assert (sized (fun b => bool_of (Some b)) (length cs) (Some (JsArr (JsBool <$> rel))) = Some rel) as E3.
  { rewrite (sized_round _ _ id); [by rewrite list_fmap_id|done|done]. }
  assert (decision_of (Some (decision_json d)) = Some d) as E4 by (by destruct d as [[]|]).
  assert (match (fun l => JsArr (nullable_json consent_json <$> l)) <$> cons with
    | None => Some None | found => Some <$> sized (nullable consentRecord) (length cs) found end = Some cons) as E5.
  { destruct cons as [l|]; [|done]. cbn [fmap option_fmap option_map].
    rewrite (sized_round (nullable consentRecord) _ id); [cbn; by rewrite list_fmap_id|done|].
    intros x. apply nullable_round; [apply consent_round|by intros []]. }
  set (J := record_json _).
  assert (member J $"manifest" = Some m) as M1 by done.
  assert (member J $"prepares" = Some (JsArr (nullable_json prepare_json <$> ps))) as M2 by done.
  assert (member J $"decision" = Some (decision_json d)) as M3 by done.
  assert (member J $"released" = Some (JsArr (JsBool <$> rel))) as M4 by done.
  assert (member J $"outcomes" = Some (JsArr (nullable_json call_outcome_json <$> outs))) as M5 by done.
  assert (member J $"consents" = (fun l => JsArr (nullable_json consent_json <$> l)) <$> cons) as M6 by (by destruct cons).
  clearbody J. unfold batch_record. rewrite M1. cbn [mbind option_bind]. rewrite Hm. cbn [mbind option_bind].
  rewrite M6, E5. cbn [mbind option_bind]. rewrite M3, E4. cbn [mbind option_bind]. rewrite M2, E1. cbn [mbind option_bind].
  rewrite M4, E3. cbn [mbind option_bind]. rewrite M5, E2. done.
Qed.

(** The header's numbers can be stored. *)
Definition header_finite (h : BatchHeader) : bool :=
  is_finite (h_generation h) && is_finite (h_admittedAt h) && is_finite (h_leaseUntil h).

Lemma of_nat_finite n : Z.of_nat n <= MAX_SAFE_INTEGER -> is_finite (of_Z (Z.of_nat n)) = true.
Proof.
  intros Hn. assert (is_safe_integer (of_Z (Z.of_nat n)) = true) as Hs by (apply of_Z_safe; lia).
  unfold is_safe_integer in Hs. by destruct (of_Z (Z.of_nat n)).
Qed.

Lemma manifest_call_round c :
  is_finite (of_Z (Z.of_nat (sourceIndex c))) = true -> is_finite (of_Z (wave c)) = true -> manifest_call_ok (manifest_call_json c) = true.
Proof.
  destruct c as [[id x n a s] i ds w d]. unfold manifest_call_ok, manifest_call_json. cbn [sourceIndex wave dependsOn call_digest call_plan].
  generalize (of_Z (Z.of_nat i)) as fi, (of_Z w) as fw. intros fi fw Hi Hw.
  assert (forallb (fun d => match d with JsNum _ => true | _ => false end) ((fun d => JsNum (of_Z (Z.of_nat d))) <$> ds) = true) as Hds;
    [|by destruct fi, fw].
  apply forallb_forall. intros x' Hx%list_elem_of_In. by apply list_elem_of_fmap in Hx as (? & -> & _).
Qed.

Section Manifest.
Context (number_text : num -> jstring) (sha256 : bytes -> bytes).
Notation build := (buildBatchManifest number_text sha256).

Lemma built_calls iss plan i c :
  m_calls (build iss plan) !! i = Some c ->
  exists p w, calls plan !! i = Some p /\ batchDependencies (sequential <$> calls plan) !! i = Some w /\
    c = manifest_call number_text sha256 i p w.
Proof.
  unfold buildBatchManifest. cbn. rewrite list_lookup_imap. destruct (calls plan !! i) as [p|] eqn:Ep; [|done]. intros [= <-].
  destruct (batchDependencies (sequential <$> calls plan) !! i) as [w|] eqn:Ew; [by exists p, w|].
  apply lookup_ge_None in Ew. rewrite batchDependencies_length, length_fmap in Ew. apply lookup_lt_Some in Ep. lia.
Qed.

Lemma built_length iss plan : length (m_calls (build iss plan)) = length (calls plan).
Proof. apply length_imap. Qed.

Lemma manifest_round iss plan :
  header_finite (header plan) = true -> Z.of_nat (length (calls plan)) <= MAX_SAFE_INTEGER ->
  manifest_of (manifest_json (build iss plan)) = Some (manifest_call_json <$> m_calls (build iss plan)).
Proof.
  intros Hh Hn. apply andb_prop in Hh as [[Hg Ha]%andb_prop Hl].
  assert (forallb manifest_call_ok (manifest_call_json <$> m_calls (build iss plan)) = true) as Hcs.
  { apply forallb_forall. intros v Hv%list_elem_of_In. apply list_elem_of_fmap in Hv as (c & -> & [i Hi]%list_elem_of_lookup_1).
    destruct (built_calls _ _ _ _ Hi) as (p & w & Hp & Hw & ->). apply wave_bound in Hw. apply lookup_lt_Some in Hp.
    assert (is_finite (of_Z (Z.of_nat i)) = true) as E1 by (apply of_nat_finite; lia).
    assert (is_finite (of_Z w.2) = true) as E2 by (rewrite <- (Z2Nat.id w.2) by lia; apply of_nat_finite; lia).
    by apply manifest_call_round. }
  set (m := build iss plan) in *. change (header plan) with (m_header m) in *. clearbody m. set (J := manifest_json m).
  assert (strings J [$"batchId"; $"scope"; $"workspace"; $"issuer"; $"manifestDigest"] = true) as M1 by done.
  assert (numbers J [$"generation"; $"admittedAt"; $"leaseUntil"] = true) as M2.
  { unfold numbers. cbn [forallb].
    change (member J $"generation") with (Some (JsNum (h_generation (m_header m)))).
    change (member J $"admittedAt") with (Some (JsNum (h_admittedAt (m_header m)))).
    change (member J $"leaseUntil") with (Some (JsNum (h_leaseUntil (m_header m)))). unfold number_of. by rewrite Hg, Ha, Hl. }
  assert (member J $"calls" = Some (JsArr (manifest_call_json <$> m_calls m))) as M3 by done.
  clearbody J. unfold manifest_of. by rewrite M1, M2, M3, Hcs.
Qed.
End Manifest.
