(* ===== verification/Coordinator.v ===== *)
(** * The batch coordinator (packages/agent/src/execution: coordinator.ts, coordinator-consent.ts, coordinator-sequential.ts)

One batch of tool calls is walked from its manifest to its outcomes over a
durable record that is written before every message it causes, so that the
same plan can be run again after a crash.

[run] is a program in a small monad.  Its world is the durable store, a clock
that counts the effects, and the log of what was sent to executors and
approvers and what was heard; an [env] says what happens at each moment: whether
the process is killed there, where a commit is cut, what an executor or an
approver answers or that it rejects, and which of the released calls settles
next.  A run ends with a value, an exception, or the death of the process; the
world stays, and the next run goes on with it. *)
From S2P Require Import Prelude JsString JsonText JsNumber JsObject Json DurableStore Ledger BatchPlan BatchCodec.
From stdpp Require Import pretty.
#[local] Open Scope Z_scope.

(** ** Data *)

Record ExecutionRef := mkRef { ref_issuer : jstring; ref_executionId : jstring; ref_generation : num }.

Record PrepareRequest := mkRequest {
  authorizedDigest : option jstring; rq_ref : ExecutionRef; rq_batchId : jstring; rq_manifestDigest : jstring;
  rq_scope : jstring; rq_workspace : jstring; rq_admittedAt : num; rq_leaseUntil : num; rq_requestDigest : jstring;
  rq_name : jstring; rq_args : json }.

Record ConsentRequest := mkConsentRequest {
  cr_ref : ExecutionRef; cr_gate : ConsentGate; cr_digest : jstring; cr_name : jstring; cr_leaseUntil : num }.

(** What the executor says to an approval: prepared, or how the call ended. *)
Inductive ConsentReply := ConsentPrepared | ConsentSettled (r : SettleReply).

Inductive message :=
| MsgApprove (r : ConsentRequest)
| MsgPrepare (executor : jstring) (r : PrepareRequest)
| MsgConsent (executor : jstring) (r : ExecutionRef) (digest : jstring)
| MsgAbort (executor : jstring) (r : ExecutionRef)
| MsgRelease (executor : jstring) (r : ExecutionRef).

Inductive RunError :=
| StoreError (x : StoreFailure) | RecordCorrupt | ManifestConflict
| CallRejected | UnknownExecutor | NoConsentPort | NoExecutorConsent | Unsettled | OutOfFuel.

(** What is recorded of a run: a message about the call at [index] of the batch
stored under [key], with what the store held when it was sent, what the executor
    answered to a prepare, and how a released call was said to have settled. *)
Inductive log_entry :=
| Sent (key : jstring) (index : nat) (m : message) (held : result BatchReadError (option BatchRecord))
| Answered (key : jstring) (index : nat) (p : PrepareReply)
| Heard (key : jstring) (index : nat) (r : SettleReply).

(** What happens at each moment. *)
Record env := mkEnv {
  e_epoch : Z;
  e_alive : nat -> bool;
  e_mint : nat -> jstring;
  e_cut : nat -> StoreWritePoint -> bool;
  e_known : jstring -> bool;
  e_consents : jstring -> bool;
  e_prepare : nat -> jstring -> PrepareRequest -> option PrepareReply;
  e_abort : nat -> jstring -> ExecutionRef -> option SettleReply;
  e_consent : nat -> jstring -> ExecutionRef -> jstring -> option ConsentReply;
  e_approve : nat -> ConsentRequest -> option ConsentAnswer;
  e_race : nat -> list nat -> nat * option SettleReply }.

Inductive ending (A : Type) := Done (a : A) | Threw (e : RunError) | Killed.
Arguments Done {A} _.
Arguments Threw {A} _.
Arguments Killed {A}.

Section Coordinator.
Context {St : Type} `{DurableStore St} (number_text : num -> jstring) (sha256 : bytes -> bytes).

Record world := mkWorld { store : St; clock : nat; log : list log_entry }.

(** ** Programs *)

Definition M (A : Type) : Type := world -> world * ending A.

Definition ret {A} (a : A) : M A := fun w => (w, Done a).
Definition throw {A} (e : RunError) : M A := fun w => (w, Threw e).

Definition bind {A B} (m : M A) (k : A -> M B) : M B := fun w =>
  match m w with
  | (w', Done a) => k a w'
  | (w', Threw e) => (w', Threw e)
  | (w', Killed) => (w', Killed)
  end.

Notation "x <- m ;; k" := (bind m (fun x => k)) (at level 100, m at next level, right associativity).

Section Effects.
Context (E : env).

(** An effect at the current moment, unless the process is killed there. *)
Definition effect {A} (f : nat -> M A) : M A := fun w =>
  let w' := mkWorld (store w) (S (clock w)) (log w) in
  if e_alive E (clock w) then f (clock w) w' else (w', Killed).

(** A promise of someone else: a value or a rejection. *)
Definition settle_promise {A} (answer : option A) : M A :=
  match answer with Some a => ret a | None => throw CallRejected end.

Definition note (entry : log_entry) : M unit := fun w => (mkWorld (store w) (clock w) (log w ++ [entry]), Done tt).

(** ** The record in the store (coordinator.ts) *)

Definition BATCH_PREFIX : jstring := $"execution.batch:".

Definition batch_key (iss id : jstring) : jstring := BATCH_PREFIX ++ pair_text iss id.

Definition read_batch (s : St) (key : jstring) : result BatchReadError (option BatchRecord) :=
  match getDocument s key with
  | None => Ok None
  | Some v => Some <$> decodeBatchRecord v
  end.

Definition send {A} (key : jstring) (index : nat) (m : message) (answer : nat -> option A) : M A :=
  effect (fun t w => (_ <- note (Sent key index m (read_batch (store w) key)) ;; settle_promise (answer t)) w).

Definition persist_batch (key id : jstring) (next : BatchRecord) (step : jstring) (call : option jstring) : M BatchRecord :=
  effect (fun t w =>
    let data := object_json [($"batchId", JsStr id); ($"step", JsStr step);
      ($"executionId", match call with Some x => JsStr x | None => JsNull end)] in
    let '(s, r) := store_commit (e_cut E t) (e_epoch E) [Append (e_mint E t) $"execution.batch" data; Put key (record_json next)] (store w) in
    (mkWorld s (clock w) (log w), match r with Ok _ => Done next | Err x => Threw (StoreError x) end)).

(** ** One batch *)

Section Batch.
Context (iss : jstring) (consent : option (jstring -> json -> bool)) (mf : BatchManifest).

Definition the_key : jstring := batch_key iss (batchId (m_header mf)).

Definition persist_step (next : BatchRecord) (step : jstring) (c : ManifestCall) : M BatchRecord :=
  persist_batch the_key (batchId (m_header mf)) next step (Some (executionId (call_plan c))).

Definition ref_of (c : ManifestCall) : ExecutionRef :=
  mkRef iss (executionId (call_plan c)) (h_generation (m_header mf)).

(** [executor(id)] throws for an id it does not know. *)
Definition executor (c : ManifestCall) : M jstring :=
  let id := call_executor (call_plan c) in if e_known E id then ret id else throw UnknownExecutor.

Definition settle_call (r : BatchRecord) (c : ManifestCall) (o : CallOutcome) : M BatchRecord :=
  persist_step (mkBatch (manifest r) (prepares r) (decision r) (released r) (<[sourceIndex c := Some o]> (outcomes r)) (consents r))
    $"outcome" c.

Definition set_prepare (r : BatchRecord) (c : ManifestCall) (p : PrepareReply) : M BatchRecord :=
  persist_step (mkBatch (manifest r) (<[sourceIndex c := Some p]> (prepares r)) (decision r) (released r) (outcomes r) (consents r))
    $"prepare" c.

Definition set_consent (r : BatchRecord) (c : ManifestCall) (answered : ConsentRecord) : M BatchRecord :=
  persist_step (mkBatch (manifest r) (prepares r) (decision r) (released r) (outcomes r)
    (Some (<[sourceIndex c := Some answered]> (default (replicate (length (m_calls mf)) None) (consents r))))) $"consent" c.

Definition prepare_reply (r : BatchRecord) (c : ManifestCall) : option PrepareReply := default None (prepares r !! sourceIndex c).

(** *** Consent (coordinator-consent.ts) *)

Definition recorded (r : BatchRecord) (c : ManifestCall) : option ConsentRecord :=
  consents r ≫= fun l => default None (l !! sourceIndex c).

Definition consent_denied (g : ConsentGate) (a : ConsentAnswer) : PrepareReply :=
  BlockedReply (object_json [($"reason", JsStr $"consent_denied"); ($"gate", JsStr (gate_text g)); ($"answer", JsStr (answer_text a))]).

Definition lost : ExecutionOutcome := StoppedOutcome uncertain true true.
Definition expired_outcome : ExecutionOutcome := StoppedOutcome lease_expired true true.

(** A recorded answer is used again; a new one is recorded first. *)
Definition answer_for (r : BatchRecord) (c : ManifestCall) (g : ConsentGate) (digest : jstring) : M (BatchRecord * ConsentAnswer) :=
  let ask :=
    given <- send the_key (sourceIndex c) (MsgApprove (mkConsentRequest (ref_of c) g digest (call_name (call_plan c)) (h_leaseUntil (m_header mf))))
      (fun t => e_approve E t (mkConsentRequest (ref_of c) g digest (call_name (call_plan c)) (h_leaseUntil (m_header mf)))) ;;
    r <- set_consent r c (mkConsent g digest given) ;; ret (r, given) in
  match recorded r c with
  | Some old => if bool_decide (gate old = g) && bool_decide (consent_digest old = digest) then ret (r, answer old) else ask
  | None => ask
  end.

Inductive RawGate := GateBlocked (p : PrepareReply) | GateOpen (authorized : option jstring).

Definition gateRawCall (needs : jstring -> json -> bool) (r : BatchRecord) (c : ManifestCall) : M (BatchRecord * RawGate) :=
  _ <- executor c ;;
  if needs (call_name (call_plan c)) (call_args (call_plan c)) then
    ra <- answer_for r c raw (call_digest c) ;;
    ret (ra.1, if bool_decide (ra.2 = approved) then GateOpen (Some (call_digest c)) else GateBlocked (consent_denied raw ra.2))
  else ret (r, GateOpen None).

Definition abort_call (c : ManifestCall) : M SettleReply :=
  x <- executor c ;; send the_key (sourceIndex c) (MsgAbort x (ref_of c)) (fun t => e_abort E t x (ref_of c)).

Definition resolveFrozenConsent (r : BatchRecord) (c : ManifestCall) (frozenDigest : jstring) : M (BatchRecord * PrepareReply) :=
  x <- executor c ;;
  ra <- answer_for r c frozen_gate frozenDigest ;;
  match ra.2 with
  | denied => _ <- abort_call c ;; ret (ra.1, consent_denied frozen_gate denied)
  | expired => ret (ra.1, SettledReply expired_outcome)
  | approved =>
      if e_consents E x then
        reply <- send the_key (sourceIndex c) (MsgConsent x (ref_of c) frozenDigest) (fun t => e_consent E t x (ref_of c) frozenDigest) ;;
        ret (ra.1, match reply with
                   | ConsentPrepared => PreparedReply frozenDigest
                   | ConsentSettled UnknownExecution => SettledReply lost
                   | ConsentSettled (Settlement out) => SettledReply out
                   end)
      else throw NoExecutorConsent
  end.

(** *** Preparing, in source order *)

Definition request (c : ManifestCall) (authorized : option jstring) : PrepareRequest :=
  let h := m_header mf in
  mkRequest authorized (ref_of c) (batchId h) (manifestDigest mf) (h_scope h) (h_workspace h) (h_admittedAt h) (h_leaseUntil h)
    (call_digest c) (call_name (call_plan c)) (call_args (call_plan c)).

Definition aborts (p : option PrepareReply) : bool :=
  match p with Some p => match abortCause p with Some _ => true | None => false end | None => false end.

Definition prepare_call (r : BatchRecord) (c : ManifestCall) : M BatchRecord :=
  match prepare_reply r c with
  | Some _ => ret r
  | None =>
      rg <- match consent with Some needs => gateRawCall needs r c | None => ret (r, GateOpen None) end ;;
      match rg.2 with
      | GateBlocked p => set_prepare rg.1 c p
      | GateOpen authorized =>
          x <- executor c ;;
          p <- send the_key (sourceIndex c) (MsgPrepare x (request c authorized)) (fun t => e_prepare E t x (request c authorized)) ;;
          _ <- note (Answered the_key (sourceIndex c) p) ;;
          set_prepare rg.1 c p
      end
  end.

Fixpoint prepare_calls (r : BatchRecord) (cs : list ManifestCall) : M BatchRecord :=
  match cs with
  | [] => ret r
  | c :: cs => r <- prepare_call r c ;; if aborts (prepare_reply r c) then ret r else prepare_calls r cs
  end.

Definition any_abort (r : BatchRecord) : bool := existsb aborts (prepares r).

Fixpoint resolve_calls (r : BatchRecord) (cs : list ManifestCall) : M BatchRecord :=
  match cs with
  | [] => ret r
  | c :: cs =>
      if any_abort r then ret r
      else match prepare_reply r c with
           | Some (AwaitingReply d) =>
               match consent with
               | None => throw NoConsentPort
               | Some _ => rp <- resolveFrozenConsent r c d ;; r <- set_prepare rp.1 c rp.2 ;; resolve_calls r cs
               end
           | _ => resolve_calls r cs
           end
  end.

Definition decide_batch (r : BatchRecord) : M BatchRecord :=
  match decision r with
  | Some _ => ret r
  | None =>
      r <- prepare_calls r (m_calls mf) ;;
      r <- resolve_calls r (m_calls mf) ;;
      persist_batch the_key (batchId (m_header mf))
        (mkBatch (manifest r) (prepares r) (Some (if any_abort r then ABORT else RELEASE)) (released r) (outcomes r) (consents r))
        $"decision" None
  end.

(** *** What the decision settles at once *)

Definition batch_cause (r : BatchRecord) : AbortCause :=
  match omap (fun p : option PrepareReply => p ≫= abortCause) (prepares r) with cause :: _ => cause | [] => batch_abort end.

Definition close_call (cause : AbortCause) (r : BatchRecord) (c : ManifestCall) : M BatchRecord :=
  if negb (outcome_null (outcomes r) (sourceIndex c)) then ret r
  else match prepare_reply r c with
       | Some (SettledReply out) => settle_call r c (settledOutcome (Settlement out))
       | Some (BlockedReply v) => _ <- abort_call c ;; settle_call r c (CallBlocked v)
       | reply =>
           match decision r with
           | Some ABORT =>
               _ <- match reply with Some _ => _ <- abort_call c ;; ret tt | None => ret tt end ;;
               settle_call r c (CallNotRun cause)
           | _ => ret r
           end
       end.

Fixpoint close_calls (cause : AbortCause) (r : BatchRecord) (cs : list ManifestCall) : M BatchRecord :=
  match cs with [] => ret r | c :: cs => r <- close_call cause r c ;; close_calls cause r cs end.

(** *** Releasing by dependencies *)

Definition ready (r : BatchRecord) (c : ManifestCall) : bool :=
  forallb (finished (dependsOn <$> m_calls mf) (outcomes r)) (dependsOn c).

(** Release [c], noting it in the record first. *)
Definition release_call (r : BatchRecord) (c : ManifestCall) (inflight : list nat) : M (BatchRecord * list nat) :=
  r <- (if default false (released r !! sourceIndex c) then ret r
        else persist_step (mkBatch (manifest r) (prepares r) (decision r) (<[sourceIndex c := true]> (released r)) (outcomes r) (consents r))
          $"release" c) ;;
  x <- executor c ;;
  _ <- send the_key (sourceIndex c) (MsgRelease x (ref_of c)) (fun _ => Some tt) ;;
  ret (r, inflight ++ [sourceIndex c]).

Fixpoint launch (r : BatchRecord) (inflight : list nat) (cs : list ManifestCall) : M (BatchRecord * list nat) :=
  match cs with
  | [] => ret (r, inflight)
  | c :: cs =>
      if negb (outcome_null (outcomes r) (sourceIndex c)) || bool_decide (sourceIndex c ∈ inflight) then launch r inflight cs
      else if default false (released r !! sourceIndex c) || ready r c
      then ri <- release_call r c inflight ;; launch ri.1 ri.2 cs
      else launch r inflight cs
  end.

(** [Promise.race]: one of the calls in flight settles or is rejected. *)
Definition race (inflight : list nat) : M (nat * SettleReply) :=
  effect (fun t w =>
    let '(pick, reply) := e_race E t inflight in
    let i := default 0%nat (inflight !! (pick mod length inflight)%nat) in
    match reply with
    | Some reply => (_ <- note (Heard the_key i reply) ;; ret (i, reply)) w
    | None => throw CallRejected w
    end).

(** One call settles in every round. *)
Fixpoint release_loop (fuel : nat) (r : BatchRecord) (inflight : list nat) : M BatchRecord :=
  match fuel with
  | O => throw OutOfFuel
  | S fuel =>
      ri <- launch r inflight (m_calls mf) ;;
      match ri.2 with
      | [] => ret ri.1
      | inflight =>
          settled <- race inflight ;;
          r <- match m_calls mf !! settled.1 with
               | Some c => settle_call ri.1 c (settledOutcome settled.2)
               | None => ret ri.1
               end ;;
          release_loop fuel r (filter (fun j => j <> settled.1) inflight)
      end
  end.

Definition empty_record : BatchRecord :=
  let n := length (m_calls mf) in
  mkBatch (manifest_json mf) (replicate n None) None (replicate n false) (replicate n None) None.

Definition conclude (r : BatchRecord) : M BatchResult :=
  let final := omap id (outcomes r) in
  match decision r with
  | Some d => if (length final =? length (outcomes r))%nat then ret (mkResult d final) else throw Unsettled
  | None => throw Unsettled
  end.

(** The record to go on with: the stored one, or a new one. *)
Definition open_batch : M BatchRecord :=
  stored <- effect (fun _ w => (w, match read_batch (store w) the_key with Ok r => Done r | Err _ => Threw RecordCorrupt end)) ;;
  match stored with
  | None => persist_batch the_key (batchId (m_header mf)) empty_record $"manifest" None
  | Some r =>
      if bool_decide (string_of (member (manifest r) $"manifestDigest") = Some (manifestDigest mf)) then ret r
      else throw ManifestConflict
  end.

Definition run_manifest : M BatchResult :=
  r <- open_batch ;;
  r <- decide_batch r ;;
  r <- close_calls (batch_cause r) r (m_calls mf) ;;
  r <- release_loop (S (length (m_calls mf))) r [] ;;
  conclude r.
End Batch.

Definition run (iss : jstring) (consent : option (jstring -> json -> bool)) (plan : BatchPlan) : M BatchResult :=
  run_manifest iss consent (buildBatchManifest number_text sha256 iss plan).

(** ** One call at a time (coordinator-sequential.ts) *)

Definition sequentialBatchId (id : jstring) (index : nat) : jstring := id ++ $"#" ++ js (pretty index).

Definition inheritedCause (aborting : option CallOutcome) : AbortCause :=
  match aborting with
  | None => batch_abort
  | Some (CallNotRun cause) => cause
  | Some _ => interrupted_preparation
  end.

Definition single_plan (plan : BatchPlan) (index : nat) (c : BatchCallPlan) : BatchPlan :=
  let h := header plan in
  mkPlan (mkHeader (sequentialBatchId (batchId h) index) (h_scope h) (h_workspace h) (h_generation h) (h_admittedAt h) (h_leaseUntil h)) [c].

Fixpoint run_each (iss : jstring) (consent : option (jstring -> json -> bool)) (plan : BatchPlan) (index : nat)
    (outs : list CallOutcome) (cs : list BatchCallPlan) : M BatchResult :=
  match cs with
  | [] => ret (mkResult RELEASE outs)
  | c :: cs =>
      single <- run iss consent (single_plan plan index c) ;;
      let outs := outs ++ final_outcomes single in
      match final_decision single with
      | ABORT =>
          let cause := inheritedCause (final_outcomes single !! 0%nat) in
          ret (mkResult ABORT (outs ++ ((fun _ => CallNotRun cause) <$> cs)))
      | RELEASE => run_each iss consent plan (S index) outs cs
      end
  end.

Definition run_sequential (iss : jstring) (consent : option (jstring -> json -> bool)) (plan : BatchPlan) : M BatchResult :=
  run_each iss consent plan 0 [] (calls plan).
End Effects.
End Coordinator.
