(* ===== verification/BatchInvariant.v ===== *)
(** * What a batch record may hold, and how it may change

The invariant of a durable record ([rec_ok]) and the order in which records can
follow each other ([rec_le]): decisions, outcomes, release marks and answered
consents stay, a reply to a prepare only changes from awaiting consent to what
the recorded answer says.  Every write of the coordinator is one of the steps
below, each shown to keep the invariant and to go up in the order. *)
From S2P Require Import Prelude JsString JsNumber JsObject Json Ledger BatchPlan BatchCodec Coordinator.
#[local] Open Scope Z_scope.

(** ** Looking at a record *)

Definition prep_of (r : BatchRecord) (i : nat) : option PrepareReply := default None (prepares r !! i).
Definition out_of (r : BatchRecord) (i : nat) : option CallOutcome := default None (outcomes r !! i).
Definition rel_of (r : BatchRecord) (i : nat) : bool := default false (released r !! i).
Definition con_of (r : BatchRecord) (i : nat) : option ConsentRecord := consents r ≫= fun l => default None (l !! i).

Lemma get_insert {A} (d : A) (l : list A) i x j :
  (i < length l)%nat -> default d (<[i := x]> l !! j) = if decide (i = j) then x else default d (l !! j).
Proof. intros Hi. destruct (decide (i = j)) as [->|Hne]; [by rewrite list_lookup_insert_eq|by rewrite list_lookup_insert_ne]. Qed.

Lemma get_replicate {A} (d : A) n j : default d (replicate n d !! j) = d.
Proof. revert j. induction n as [|n IH]; intros [|j]; cbn; auto. Qed.

Section Invariant.
Context (mf : BatchManifest).

Definition size : nat := length (m_calls mf).
Definition deps : list (list nat) := dependsOn <$> m_calls mf.

(** Where the outcome of a call comes from: its preparation, the abort of the
    batch, or its release. *)
Definition outcome_from (r : BatchRecord) (i : nat) (o : CallOutcome) : Prop :=
  match prep_of r i with
  | Some (SettledReply out) => o = settledOutcome (Settlement out)
  | Some (BlockedReply v) => o = CallBlocked v
  | _ => match decision r with
         | Some ABORT => o = CallNotRun (batch_cause r)
         | _ => rel_of r i = true
         end
  end.

(** An answered Gate B consent agrees with the reply it answers. *)
Definition consent_agrees (c : ConsentRecord) (p : option PrepareReply) : Prop :=
  match p with
  | Some (AwaitingReply d) => consent_digest c = d
  | Some (PreparedReply d) => consent_digest c = d /\ answer c = approved
  | Some (BlockedReply _) => answer c = denied
  | Some (SettledReply _) => answer c <> denied
  | _ => False
  end.

Record rec_ok (r : BatchRecord) : Prop := {
  ro_manifest : manifest r = manifest_json mf;
  ro_sized : sized_ok size r;
  ro_open : decision r = None -> forall i, out_of r i = None /\ rel_of r i = false;
  ro_release : decision r = Some RELEASE -> forall i, (i < size)%nat ->
    exists p, prep_of r i = Some p /\ abortCause p = None /\ forall d, p <> AwaitingReply d;
  ro_abort : decision r = Some ABORT -> any_abort r = true /\ forall i, rel_of r i = false;
  ro_released i : rel_of r i = true ->
    (exists d, prep_of r i = Some (PreparedReply d)) /\ forall j, waits_for deps i j -> outcome_null (outcomes r) j = false;
  ro_outcome i o : out_of r i = Some o -> outcome_from r i o;
  ro_consent i c : con_of r i = Some c -> gate c = frozen_gate -> consent_agrees c (prep_of r i) }.

(** What [r'] may say of a reply [p] of [r]. *)
Definition reply_le (r r' : BatchRecord) (i : nat) (p : PrepareReply) : Prop :=
  prep_of r' i = Some p \/
  exists d a, p = AwaitingReply d /\ con_of r' i = Some (mkConsent frozen_gate d a) /\
    match prep_of r' i with
    | Some (PreparedReply d') => d' = d /\ a = approved
    | Some (BlockedReply _) => a = denied
    | Some (SettledReply _) => a <> denied
    | _ => False
    end.

Record rec_le (r r' : BatchRecord) : Prop := {
  le_decision d : decision r = Some d -> decision r' = Some d;
  le_outcome i o : out_of r i = Some o -> out_of r' i = Some o;
  le_released i : rel_of r i = true -> rel_of r' i = true;
  le_reply i p : prep_of r i = Some p -> reply_le r r' i p;
  le_consent i c : con_of r i = Some c -> gate c = frozen_gate -> con_of r' i = Some c;
  le_decided : decision r <> None -> consents r' = consents r }.

#[global] Instance rec_le_refl : Reflexive rec_le.
Proof. intros r. split; try done. by left. Qed.

#[global] Instance rec_le_trans : Transitive rec_le.
Proof.
  intros r1 r2 r3 [D1 O1 L1 P1 C1 E1] [D2 O2 L2 P2 C2 E2]. split; eauto.
  intros i p Hp. destruct (P1 i p Hp) as [Hp2|(d & a & -> & Hc & Hr)].
  - destruct (P2 i p Hp2) as [Hp3|(d & a & -> & Hc & Hr)]; [by left|right]. exists d, a. done.
  - right. exists d, a. split; [done|]. pose proof (C2 _ _ Hc eq_refl) as Hc'. split; [done|].
    destruct (prep_of r2 i) as [p2|] eqn:Ep; [|done].
    destruct (P2 i p2 Ep) as [->|(d2 & a2 & -> & _)]; done.
  - intros Hd. rewrite <- (E1 Hd). apply E2. destruct (decision r1) as [d|] eqn:Ed; [|done]. by rewrite (D1 d eq_refl).
Qed.

Lemma outcome_null_of r i : (i < length (outcomes r))%nat -> outcome_null (outcomes r) i = true <-> out_of r i = None.
Proof.
  intros Hi. unfold outcome_null, out_of. destruct (lookup_lt_is_Some_2 _ _ Hi) as [o ->]. by destruct o.
Qed.

Lemma any_abort_iff r : any_abort r = true <-> exists i p, prep_of r i = Some p /\ abortCause p <> None.
Proof.
  unfold any_abort. rewrite existsb_exists. split.
  - intros (x & Hx%list_elem_of_In & Ha). apply list_elem_of_lookup_1 in Hx as [i Hi]. exists i. unfold prep_of. rewrite Hi.
    destruct x as [p|]; [|done]. exists p. split; [done|]. cbn in Ha. by destruct (abortCause p).
  - intros (i & p & Hp & Ha). unfold prep_of in Hp. destruct (prepares r !! i) as [x|] eqn:E; [|done]. cbn in Hp. subst x.
    exists (Some p). split; [by eapply list_elem_of_In, list_elem_of_lookup_2|]. cbn. by destruct (abortCause p).
Qed.

(** ** Steps *)

Lemma empty_ok : rec_ok (empty_record mf).
Proof.
  split; cbn; try done.
  - split; cbn; try done; apply length_replicate.
  - intros _ i. unfold out_of, rel_of. cbn. by rewrite !get_replicate.
  - intros i. unfold rel_of. cbn. by rewrite get_replicate.
  - intros i o. unfold out_of. cbn. by rewrite get_replicate.
Qed.

(** A first reply to a prepare. *)
Lemma step_set_prepare r i p :
  rec_ok r -> (i < size)%nat -> decision r = None -> prep_of r i = None ->
  let r' := mkBatch (manifest r) (<[i := Some p]> (prepares r)) (decision r) (released r) (outcomes r) (consents r) in
  rec_ok r' /\ rec_le r r' /\ prep_of r' i = Some p /\ forall j, j <> i -> prep_of r' j = prep_of r j.
Proof.
  intros [Hm Hz Ho Hrl Hab Hrd Hout Hc] Hi Hd Hp r'. pose proof Hz as [Hz1 Hz2 Hz3 Hz4].
  assert (forall j, prep_of r' j = if decide (i = j) then Some p else prep_of r j) as Hprep
    by (intros j; unfold prep_of, r'; cbn; by rewrite get_insert by lia).
  split; [|split; [|split]].
  - split; unfold r'; cbn [manifest prepares decision released outcomes consents]; fold r'; try done; try congruence.
    + split; cbn; try done. by rewrite length_insert.
    + intros j Hj. by destruct (Ho Hd j) as [_ ?]; change (rel_of r' j) with (rel_of r j) in Hj; congruence.
    + intros j o Hj. by destruct (Ho Hd j) as [? _]; change (out_of r' j) with (out_of r j) in Hj; congruence.
    + intros j c Hj Hg. change (con_of r j = Some c) in Hj. specialize (Hc j c Hj Hg). rewrite Hprep.
      case_decide as E; [|done]. subst j. by rewrite Hp in Hc.
  - split; try done. intros j q Hq. left. rewrite Hprep. case_decide; [|done]. congruence.
  - rewrite Hprep. by rewrite decide_True.
  - intros j Hj. rewrite Hprep. by rewrite decide_False by done.
Qed.

(** The executor's reply after an answered consent. *)
Lemma step_resolve r i d a p :
  rec_ok r -> (i < size)%nat -> decision r = None -> prep_of r i = Some (AwaitingReply d) ->
  con_of r i = Some (mkConsent frozen_gate d a) ->
  match p with
  | PreparedReply d' => d' = d /\ a = approved
  | BlockedReply _ => a = denied
  | SettledReply _ => a <> denied
  | _ => False
  end ->
  let r' := mkBatch (manifest r) (<[i := Some p]> (prepares r)) (decision r) (released r) (outcomes r) (consents r) in
  rec_ok r' /\ rec_le r r' /\ prep_of r' i = Some p /\ forall j, j <> i -> prep_of r' j = prep_of r j.
Proof.
  intros [Hm Hz Ho Hrl Hab Hrd Hout Hc] Hi Hd Hp Hcon Hans r'. pose proof Hz as [Hz1 Hz2 Hz3 Hz4].
  assert (forall j, prep_of r' j = if decide (i = j) then Some p else prep_of r j) as Hprep
    by (intros j; unfold prep_of, r'; cbn; by rewrite get_insert by lia).
  split; [|split; [|split]].
  - split; unfold r'; cbn [manifest prepares decision released outcomes consents]; fold r'; try done; try congruence.
    + split; cbn; try done. by rewrite length_insert.
    + intros j Hj. by destruct (Ho Hd j) as [_ ?]; change (rel_of r' j) with (rel_of r j) in Hj; congruence.
    + intros j o Hj. by destruct (Ho Hd j) as [? _]; change (out_of r' j) with (out_of r j) in Hj; congruence.
    + intros j c Hj Hg. change (con_of r j = Some c) in Hj. specialize (Hc j c Hj Hg). rewrite Hprep.
      case_decide as E; [|done]. subst j. rewrite Hcon in Hj. injection Hj as <-. clear Hc.
      destruct p as [d'|d'|v| |out]; cbn; try done; naive_solver.
  - split; try done. intros j q Hq. unfold reply_le. rewrite Hprep. case_decide as E; [|by left]. subst j. right.
    exists d, a. split; [congruence|]. split; [done|]. by destruct p.
  - rewrite Hprep. by rewrite decide_True.
  - intros j Hj. rewrite Hprep. by rewrite decide_False by done.
Qed.

(** A new answer to a consent. *)
Lemma step_set_consent r i c :
  rec_ok r -> (i < size)%nat -> decision r = None ->
  (forall c0, con_of r i = Some c0 -> gate c0 = raw) ->
  match gate c with
  | raw => prep_of r i = None
  | frozen_gate => prep_of r i = Some (AwaitingReply (consent_digest c))
  end ->
  let r' := mkBatch (manifest r) (prepares r) (decision r) (released r) (outcomes r)
    (Some (<[i := Some c]> (default (replicate size None) (consents r)))) in
  rec_ok r' /\ rec_le r r' /\ con_of r' i = Some c /\ forall j, prep_of r' j = prep_of r j.
Proof.
  intros [Hm Hz Ho Hrl Hab Hrd Hout Hc] Hi Hd Hold Hnew r'. pose proof Hz as [Hz1 Hz2 Hz3 Hz4].
  assert (length (default (replicate size None) (consents r)) = size) as Hl
    by (destruct (consents r); cbn; [done|apply length_replicate]).
  assert (forall j, con_of r' j = if decide (i = j) then Some c else con_of r j) as Hcon.
  { intros j. unfold con_of at 1, r'. cbn. rewrite get_insert by lia. case_decide; [done|].
    unfold con_of. destruct (consents r); cbn; [done|]. apply get_replicate. }
  split; [|split; [|split]].
  - split; unfold r'; cbn [manifest prepares decision released outcomes consents]; fold r'; try done; try congruence.
    + split; cbn; try done. by rewrite length_insert.
    + intros j cj Hj Hg. change (prep_of r' j) with (prep_of r j). rewrite Hcon in Hj. case_decide as E; [|by apply Hc].
      injection Hj as <-. subst j. rewrite Hg in Hnew. by rewrite Hnew.
  - split; try done; [by left|]. intros j cj Hj Hg. rewrite Hcon. case_decide as E; [|done]. subst j.
    by rewrite (Hold _ Hj) in Hg.
  - rewrite Hcon. by rewrite decide_True.
  - done.
Qed.

Lemma step_decide r :
  rec_ok r -> decision r = None ->
  (any_abort r = false -> forall i, (i < size)%nat -> exists p, prep_of r i = Some p /\ forall d, p <> AwaitingReply d) ->
  let r' := mkBatch (manifest r) (prepares r) (Some (if any_abort r then ABORT else RELEASE)) (released r) (outcomes r) (consents r) in
  rec_ok r' /\ rec_le r r'.
Proof.
  intros [Hm Hz Ho Hrl Hab Hrd Hout Hc] Hd Hall r'. split.
  - split; unfold r'; cbn [manifest prepares decision released outcomes consents]; fold r'; try done.
    + by destruct Hz; split.
    + intros [= E] i Hi. destruct (any_abort r) eqn:Ea; [done|]. destruct (Hall eq_refl i Hi) as (p & Hp & Hna). exists p. split; [done|]. split; [|done].
      destruct (abortCause p) eqn:Ep; [|done]. enough (any_abort r = true) by congruence. apply any_abort_iff. exists i, p. by rewrite Ep.
    + intros [= E]. destruct (any_abort r) eqn:Ea; [|done]. split; [by unfold any_abort in *|]. intros i. apply (Ho Hd i).
    + intros i o Hi. by destruct (Ho Hd i) as [? _]; change (out_of r' i) with (out_of r i) in Hi; congruence.
  - split; try done; [congruence|by left].
Qed.

(** The outcome of a call. *)
Lemma step_settle r i o :
  rec_ok r -> (i < size)%nat -> decision r <> None -> out_of r i = None -> outcome_from r i o ->
  let r' := mkBatch (manifest r) (prepares r) (decision r) (released r) (<[i := Some o]> (outcomes r)) (consents r) in
  rec_ok r' /\ rec_le r r' /\ out_of r' i = Some o /\ forall j, j <> i -> out_of r' j = out_of r j.
Proof.
  intros [Hm Hz Ho Hrl Hab Hrd Hout Hc] Hi Hd Hnone Hfrom r'. pose proof Hz as [Hz1 Hz2 Hz3 Hz4].
  assert (forall j, out_of r' j = if decide (i = j) then Some o else out_of r j) as Houts
    by (intros j; unfold out_of, r'; cbn; by rewrite get_insert by lia).
  split; [|split; [|split]].
  - split; unfold r'; cbn [manifest prepares decision released outcomes consents]; fold r'; try done.
    + split; cbn; try done. by rewrite length_insert.
    + intros j Hj. destruct (Hrd j Hj) as [? Hw]. split; [done|]. intros k Hk. specialize (Hw k Hk). unfold outcome_null in *.
      destruct (decide (i = k)) as [->|?]; [by rewrite list_lookup_insert_eq by lia|by rewrite list_lookup_insert_ne].
    + intros j oj. rewrite Houts. case_decide as E; [|apply Hout]. intros [= <-]. by subst j.
  - split; try done; [|by left]. intros j oj Hj. rewrite Houts. case_decide; [congruence|done].
  - rewrite Houts. by rewrite decide_True.
  - intros j Hj. rewrite Houts. by rewrite decide_False by done.
Qed.

(** The release mark of a call. *)
Lemma step_release r i :
  rec_ok r -> (i < size)%nat -> decision r = Some RELEASE -> (exists d, prep_of r i = Some (PreparedReply d)) ->
  (forall j, waits_for deps i j -> outcome_null (outcomes r) j = false) ->
  let r' := mkBatch (manifest r) (prepares r) (decision r) (<[i := true]> (released r)) (outcomes r) (consents r) in
  rec_ok r' /\ rec_le r r' /\ rel_of r' i = true.
Proof.
  intros [Hm Hz Ho Hrl Hab Hrd Hout Hc] Hi Hd Hp Hw r'. pose proof Hz as [Hz1 Hz2 Hz3 Hz4].
  assert (forall j, rel_of r' j = if decide (i = j) then true else rel_of r j) as Hrel
    by (intros j; unfold rel_of, r'; cbn; by rewrite get_insert by lia).
  split; [|split].
  - split; unfold r'; cbn [manifest prepares decision released outcomes consents]; fold r'; try done; try congruence.
    + split; cbn; try done. by rewrite length_insert.
    + intros j Hj. rewrite Hrel in Hj. case_decide as E; [by subst j|]. by apply Hrd.
    + intros j o Hj. specialize (Hout j o Hj). unfold outcome_from in *. change (prep_of r' j) with (prep_of r j).
      change (decision r') with (decision r). rewrite Hd in *. rewrite Hrel. by destruct (prep_of r j) as [[]|]; repeat case_decide.
  - split; try done; [|by left]. intros j Hj. rewrite Hrel. by case_decide.
  - rewrite Hrel. by rewrite decide_True.
Qed.
End Invariant.
