(* ===== verification/CoordinatorCorrect.v ===== *)
(** * The batch coordinator is correct

A program logic for the coordinator's programs: a triple says that a program
started in a world that satisfies its precondition either returns with its
postcondition, or throws, or dies with the process, the last two in a world
from which the batch can be run again.  The invariant ties the record the run
works with to the one in the store and to everything that was sent.  The
theorems are about any number of runs one after another. *)
From S2P Require Import Prelude JsString JsonText JsNumber JsObject Json DurableStore Ledger BatchPlan BatchCodec Coordinator BatchInvariant.
#[local] Open Scope Z_scope.

(** What the coordinator needs of a manifest; [buildBatchManifest] provides it. *)
Record manifest_wf (mf : BatchManifest) : Prop := {
  wf_index i c : m_calls mf !! i = Some c -> sourceIndex c = i;
  wf_deps : exists seqs, length seqs = size mf /\ deps mf = dependencies seqs;
  wf_stored : exists cs, manifest_of (manifest_json mf) = Some cs /\ length cs = size mf }.

Section Logic.
Context {St : Type} `{DurableStore St}.
Implicit Types (w : world (St := St)).

Context (E : env) (iss : jstring) (consent : option (jstring -> json -> bool)) (mf : BatchManifest).
Hypothesis Hwf : manifest_wf mf.

Notation key := (the_key iss mf).

(** Something that is known of the stored record, if any, from some moment on. *)
Context (lo : option BatchRecord -> Prop).
Hypothesis lo_open : lo None -> lo (Some (empty_record mf)).
Hypothesis lo_up : forall r r', lo (Some r) -> rec_le r r' -> lo (Some r').

(** Something about the rest of the world that running this batch does not touch. *)
Definition entry_key (e : log_entry) : jstring := match e with Sent k _ _ _ | Answered k _ _ | Heard k _ _ => k end.
Context (F : world (St := St) -> Prop).
Hypothesis F_stable : forall w s t l, F w -> store_ok s ->
  (forall k, k <> key -> getDocument s k = getDocument (store w) k) -> Forall (fun e => entry_key e = key) l ->
  F (mkWorld s t (log w ++ l)).

(** ** The invariant *)

(** What the store held when a message was sent. *)
Definition msg_ok (i : nat) (c : ManifestCall) (m : message) (r : BatchRecord) : Prop :=
  match m with
  | MsgApprove rq =>
      cr_ref rq = ref_of iss mf c /\ decision r = None
  | MsgPrepare x rq =>
      x = call_executor (call_plan c) /\ rq = request iss mf c (authorizedDigest rq) /\
      decision r = None /\ prep_of r i = None /\
      (forall j, (j < i)%nat -> exists p, prep_of r j = Some p /\ abortCause p = None) /\
      match authorizedDigest rq with
      | Some d => d = call_digest c /\ con_of r i = Some (mkConsent raw d approved)
      | None => match consent with Some needs => needs (call_name (call_plan c)) (call_args (call_plan c)) = false | None => True end
      end
  | MsgConsent x rf d =>
      x = call_executor (call_plan c) /\ rf = ref_of iss mf c /\ decision r = None /\
      prep_of r i = Some (AwaitingReply d) /\ con_of r i = Some (mkConsent frozen_gate d approved)
  | MsgAbort x rf =>
      x = call_executor (call_plan c) /\ rf = ref_of iss mf c /\
      (decision r = Some ABORT \/ (exists v, prep_of r i = Some (BlockedReply v)) \/
       (exists d, prep_of r i = Some (AwaitingReply d) /\ con_of r i = Some (mkConsent frozen_gate d denied)))
  | MsgRelease x rf =>
      x = call_executor (call_plan c) /\ rf = ref_of iss mf c /\
      decision r = Some RELEASE /\ rel_of r i = true /\ out_of r i = None
  end.

Definition entry_ok (r : BatchRecord) (e : log_entry) : Prop :=
  match e with
  | Sent k i m held =>
      k = key -> exists c r0, m_calls mf !! i = Some c /\ held = Ok (Some r0) /\ rec_ok mf r0 /\ rec_le r0 r /\ msg_ok i c m r0
  | Answered _ _ _ | Heard _ _ _ => True
  end.

(** The outcome of a released call is what was heard of it. *)
Definition heard_ok (l : list log_entry) (r : BatchRecord) : Prop :=
  forall i o d, decision r = Some RELEASE -> prep_of r i = Some (PreparedReply d) -> out_of r i = Some o ->
  exists reply, Heard key i reply ∈ l /\ o = settledOutcome reply.

(** Where a stored reply comes from: the executor answered it to a prepare; or it answered
that the frozen call awaits consent, the approval is stored, and the executor was told. *)
Definition consent_heard (l : list log_entry) (r : BatchRecord) (i : nat) (d : jstring) : Prop :=
  Answered key i (AwaitingReply d) ∈ l /\ con_of r i = Some (mkConsent frozen_gate d approved) /\
  exists x rf held, Sent key i (MsgConsent x rf d) held ∈ l.

Definition prepared_ok (l : list log_entry) (r : BatchRecord) : Prop :=
  forall i d,
    (prep_of r i = Some (PreparedReply d) -> Answered key i (PreparedReply d) ∈ l \/ consent_heard l r i d) /\
    (prep_of r i = Some (AwaitingReply d) -> Answered key i (AwaitingReply d) ∈ l).

Record Inv (r : BatchRecord) w : Prop := {
  inv_store : store_ok (store w);
  inv_read : read_batch (store w) key = Ok (Some r);
  inv_rec : rec_ok mf r;
  inv_log : Forall (entry_ok r) (log w);
  inv_heard : heard_ok (log w) r;
  inv_prepared : prepared_ok (log w) r;
  inv_lo : lo (Some r);
  inv_frame : F w }.

Record Fresh w : Prop := {
  fresh_store : store_ok (store w);
  fresh_read : read_batch (store w) key = Ok None;
  fresh_log : Forall (fun e => entry_key e <> key) (log w);
  fresh_lo : lo None;
  fresh_frame : F w }.

Definition Good w : Prop := Fresh w \/ exists r, Inv r w.

(** What a run never throws over a record of its own. *)
Definition fatal (e : RunError) : bool :=
  match e with RecordCorrupt | ManifestConflict | Unsettled | OutOfFuel => true | _ => false end.

Definition triple {A} (P : world -> Prop) (m : M A) (Q : A -> world -> Prop) : Prop :=
  forall w, P w ->
  match m w with
  | (w', Done a) => Q a w'
  | (w', Threw e) => Good w' /\ fatal e = false
  | (w', Killed) => Good w'
  end.

(** ** Rules *)

Lemma t_ret {A} (P : world -> Prop) (a : A) (Q : A -> world -> Prop) : (forall w, P w -> Q a w) -> triple P (ret a) Q.
Proof. intros HPQ w HP. by apply HPQ. Qed.

Lemma t_throw {A} P e (Q : A -> world -> Prop) :
  (forall w, P w -> Good w) -> fatal e = false -> triple P (throw e) Q.
Proof. intros HP ? w Hw. cbn. auto. Qed.

Lemma t_bind {A B} P (m : M A) (k : A -> M B) Q R :
  triple P m Q -> (forall a, triple (Q a) (k a) R) -> triple P (bind m k) R.
Proof.
  intros Hm Hk w Hw. unfold bind. specialize (Hm w Hw). destruct (m w) as [w' [a|e|]]; [|done..]. by apply Hk.
Qed.

Lemma t_pre {A} (P P' : world -> Prop) (m : M A) Q : triple P' m Q -> (forall w, P w -> P' w) -> triple P m Q.
Proof. intros Hm HP w Hw. by apply Hm, HP. Qed.

Lemma t_post {A} P (m : M A) (Q Q' : A -> world -> Prop) : triple P m Q' -> (forall a w, Q' a w -> Q a w) -> triple P m Q.
Proof. intros Hm HQ w Hw. specialize (Hm w Hw). destruct (m w) as [w' [a|e|]]; [by apply HQ|done..]. Qed.

(** Facts that do not depend on the world move out of a precondition. *)
Lemma t_pure {A} (φ : Prop) P (m : M A) Q : (φ -> triple P m Q) -> triple (fun w => P w /\ φ) m Q.
Proof. intros Hm w [Hw Hφ]. by apply Hm. Qed.

(** The invariant of the record is known in a program that runs under it. *)
Lemma t_rec {A} r (m : M A) Q : (rec_ok mf r -> triple (Inv r) m Q) -> triple (Inv r) m Q.
Proof. intros Hm w Hw. apply Hm; [apply Hw|done]. Qed.

Lemma tick_frame w : store_ok (store w) -> F w -> F (mkWorld (store w) (S (clock w)) (log w)).
Proof. intros Hs HF. rewrite <- (app_nil_r (log w)). by apply F_stable. Qed.

Lemma tick_inv r w : Inv r w -> Inv r (mkWorld (store w) (S (clock w)) (log w)).
Proof. intros []. split; try done. by apply tick_frame. Qed.

Lemma tick_fresh w : Fresh w -> Fresh (mkWorld (store w) (S (clock w)) (log w)).
Proof. intros []. split; try done. by apply tick_frame. Qed.

Lemma inv_good r w : Inv r w -> Good w.
Proof. right. by exists r. Qed.

(** A precondition the clock does not disturb. *)
Lemma t_effect {A} (P : world -> Prop) (f : nat -> M A) Q :
  (forall w, P w -> P (mkWorld (store w) (S (clock w)) (log w)) /\ Good (mkWorld (store w) (S (clock w)) (log w))) ->
  (forall t, triple P (f t) Q) -> triple P (effect E f) Q.
Proof. intros HP Hf w Hw. unfold effect. destruct (HP w Hw) as [Hw' Hg]. destruct (e_alive E (clock w)); [by apply Hf|done]. Qed.

Lemma t_effect_inv {A} r (f : nat -> M A) Q : (forall t, triple (Inv r) (f t) Q) -> triple (Inv r) (effect E f) Q.
Proof. apply t_effect. intros w Hw. split; [by apply tick_inv|]. by eapply inv_good, tick_inv. Qed.

Lemma prepared_ok_more l l' r : prepared_ok l r -> prepared_ok (l ++ l') r.
Proof.
  clear. intros Hl i d. destruct (Hl i d) as [H1 H2].
  assert (Hmore : forall e, e ∈ l -> e ∈ l ++ l') by (intros e He; apply elem_of_app; by left).
  split; [|by intros Hp; apply Hmore, H2]. intros Hp. destruct (H1 Hp) as [?|(? & ? & x & rf & held & ?)]; [left; by apply Hmore|right].
  split_and!; [by apply Hmore|done|]. exists x, rf, held. by apply Hmore.
Qed.

Lemma note_inv r w e : Inv r w -> entry_ok r e -> entry_key e = key -> Inv r (mkWorld (store w) (clock w) (log w ++ [e])).
Proof.
  intros [] He Hk. split; try done.
  - by apply Forall_app_2; [|constructor].
  - intros i o d Hd Hp Ho. destruct (inv_heard0 i o d Hd Hp Ho) as (reply & Hr & ->). exists reply. split; [|done].
    apply elem_of_app. by left.
  - by apply prepared_ok_more.
  - apply F_stable; try done. by constructor.
Qed.

Lemma t_note r e : entry_ok r e -> entry_key e = key -> triple (Inv r) (note e) (fun _ w => Inv r w /\ e ∈ log w).
Proof.
  intros He Hk w Hw. cbn. split; [by apply note_inv|]. apply elem_of_app. right. by apply list_elem_of_singleton.
Qed.

Lemma t_send_log {A} r i c m (answer : nat -> option A) :
  m_calls mf !! i = Some c -> msg_ok i c m r ->
  triple (Inv r) (send E key i m answer) (fun _ w => Inv r w /\ exists held, Sent key i m held ∈ log w).
Proof.
  intros Hc Hm. apply t_effect_inv. intros t w Hw. unfold bind, note. cbn [fst snd].
  assert (Inv r (mkWorld (store w) (clock w) (log w ++ [Sent key i m (read_batch (store w) key)]))) as Hw'.
  { apply note_inv; [done| |done]. intros _. exists c, r. split_and!; try done; apply Hw. }
  unfold settle_promise, ret, throw. destruct (answer t); [|split; [by eapply inv_good|done]].
  split; [done|]. exists (read_batch (store w) key). apply elem_of_app. right. by apply list_elem_of_singleton.
Qed.

Lemma t_send {A} r i c m (answer : nat -> option A) :
  m_calls mf !! i = Some c -> msg_ok i c m r -> triple (Inv r) (send E key i m answer) (fun _ w => Inv r w).
Proof. intros Hc Hm. eapply t_post; [by eapply t_send_log|]. by intros a w []. Qed.

(** A record of the right shape can be stored and read back. *)
Lemma stored_back r s : rec_ok mf r -> getDocument s key = Some (record_json r) -> read_batch s key = Ok (Some r).
Proof.
  intros Hr Hd. unfold read_batch. rewrite Hd. unfold decodeBatchRecord.
  destruct (wf_stored _ Hwf) as (cs & Hcs & Hlen). rewrite (batch_record_round r cs); [done| |].
  - by rewrite (ro_manifest _ _ Hr).
  - rewrite Hlen. apply Hr.
Qed.

Lemma entry_ok_le r r' e : rec_le r r' -> entry_ok r e -> entry_ok r' e.
Proof.
  intros Hle. destruct e as [k i m held| |]; [|done..]. intros He Hk. destruct (He Hk) as (c & r0 & ? & ? & ? & ? & ?).
  exists c, r0. split_and!; try done. by etrans.
Qed.

(** Writing a record: the new one, or an error with one of the two in the store. *)
Lemma t_persist r next id step call (X : list log_entry -> Prop) :
  rec_ok mf next -> rec_le r next -> (forall l, heard_ok l r -> X l -> heard_ok l next) ->
  (forall l, prepared_ok l r -> X l -> prepared_ok l next) ->
  triple (fun w => Inv r w /\ X (log w)) (persist_batch E key id next step call) (fun x w => Inv next w /\ x = next).
Proof.
  intros Hok Hle Hh Hpr. apply t_effect.
  { intros w [Hw HX]. split; [split; [by apply tick_inv|done]|]. by eapply inv_good, tick_inv. }
  intros t w [[Hs Hr Hrec Hl Hhd Hprep Hlo HF] HX]. cbv beta zeta. destruct (store_commit _ _ _ _) as [s res] eqn:Ec.
  pose proof (commit_store_ok _ _ _ _ _ _ Hs Ec) as Hs'.
  assert ((forall k, getDocument s k = getDocument (store w) k) -> Inv r (mkWorld s (clock w) (log w))) as Hold.
  { intros Hd. split; try done; cbn.
    - by unfold read_batch in *; rewrite Hd.
    - rewrite <- (app_nil_r (log w)). apply F_stable; auto. }
  assert ((forall k, getDocument s k = written [Append (e_mint E t) $"execution.batch" (object_json [($"batchId", JsStr id); ($"step", JsStr step);
      ($"executionId", match call with Some x => JsStr x | None => JsNull end)]); Put key (record_json next)] k (getDocument (store w) k)) ->
    Inv next (mkWorld s (clock w) (log w))) as Hnew.
  { intros Hd. unfold written in Hd. cbn [fold_left] in Hd. split; try done; cbn.
    - apply stored_back; [done|]. rewrite Hd. by rewrite bool_decide_eq_true_2.
    - eapply Forall_impl; [exact Hl|]. intros e. by apply entry_ok_le.
    - by apply Hh.
    - by apply Hpr.
    - by eapply lo_up.
    - rewrite <- (app_nil_r (log w)). apply F_stable; [done..| |done]. intros k Hk. rewrite Hd. by rewrite bool_decide_eq_false_2 by congruence. }
  destruct (commit_all_or_none _ _ _ _ _ _ Hs Ec) as [[[x ->] Hd]|Hd].
  - split; [by eapply inv_good, Hold|done].
  - destruct res; [by split; [apply Hnew|]|]. split; [by eapply inv_good, Hnew|done].
Qed.

Lemma prepared_keep l r next : rec_le r next -> (forall j, prep_of next j = prep_of r j) -> prepared_ok l r -> prepared_ok l next.
Proof.
  intros Hle Hp Hl i d. rewrite Hp. destruct (Hl i d) as [H1 H2]. split; [|done]. intros E0.
  destruct (H1 E0) as [?|(? & Hc & ?)]; [by left|right]. split_and!; try done. by apply (le_consent _ _ Hle).
Qed.

Lemma t_persist_then {B} r next id step call (k : BatchRecord -> M B) Q :
  rec_ok mf next -> rec_le r next -> (forall l, heard_ok l r -> heard_ok l next) -> (forall j, prep_of next j = prep_of r j) ->
  triple (Inv next) (k next) Q -> triple (Inv r) (bind (persist_batch E key id next step call) k) Q.
Proof.
  intros Hok Hle Hh Hp Hk. eapply t_bind.
  - eapply t_pre; [apply (t_persist r next id step call (fun _ => True)); [done..|by auto|]|by split].
    intros l Hl _. by apply (prepared_keep l r).
  - intros a. apply t_pure. by intros ->.
Qed.

(** ** Preparing *)

Lemma call_bound i c : m_calls mf !! i = Some c -> (i < size mf)%nat.
Proof. apply lookup_lt_Some. Qed.

Lemma t_executor r c : triple (Inv r) (executor E c) (fun x w => Inv r w /\ x = call_executor (call_plan c)).
Proof.
  unfold executor. destruct (e_known E _); [by apply t_ret|]. apply t_throw; [|done..]. by intros w ?%inv_good.
Qed.

Lemma heard_ok_open r next l : decision next = None -> heard_ok l r -> heard_ok l next.
Proof. intros Hd _ i o d Hd'. congruence. Qed.

Lemma t_answer_for r i c g d :
  m_calls mf !! i = Some c -> decision r = None ->
  match g with raw => prep_of r i = None | frozen_gate => prep_of r i = Some (AwaitingReply d) end ->
  triple (Inv r) (answer_for E iss mf r c g d)
    (fun ra w => Inv ra.1 w /\ (rec_le r ra.1 /\ decision ra.1 = None /\ con_of ra.1 i = Some (mkConsent g d ra.2) /\
      forall j, prep_of ra.1 j = prep_of r j)).
Proof.
  intros Hc Hd Hp. unfold answer_for. assert (sourceIndex c = i) as Hi by by eapply wf_index.
  assert (recorded r c = con_of r i) as -> by (unfold recorded, con_of; by rewrite Hi).
  assert ((forall c0, con_of r i = Some c0 -> rec_ok mf r -> gate c0 = raw) -> triple (Inv r)
    (bind (send E key (sourceIndex c) (MsgApprove (mkConsentRequest (ref_of iss mf c) g d (call_name (call_plan c)) (h_leaseUntil (m_header mf))))
      (fun t => e_approve E t (mkConsentRequest (ref_of iss mf c) g d (call_name (call_plan c)) (h_leaseUntil (m_header mf)))))
      (fun given => bind (set_consent E iss mf r c (mkConsent g d given)) (fun r => ret (r, given))))
    (fun ra w => Inv ra.1 w /\ (rec_le r ra.1 /\ decision ra.1 = None /\ con_of ra.1 i = Some (mkConsent g d ra.2) /\
      forall j, prep_of ra.1 j = prep_of r j))) as Hask.
  { intros Hold. rewrite Hi. eapply t_bind; [by eapply t_send|]. intros given. cbn beta. apply t_rec.
    intros Hok. unfold set_consent, persist_step. rewrite Hi.
    destruct (step_set_consent mf r i (mkConsent g d given) Hok (call_bound _ _ Hc) Hd (fun c0 Hc0 => Hold c0 Hc0 Hok) Hp)
      as (Hok' & Hle & Hcon & Hprep).
    apply t_persist_then; [done|done|by intros l; apply heard_ok_open|done|]. apply t_ret. intros w Hw. by split_and!. }
  destruct (con_of r i) as [old|] eqn:Eo; [|by apply Hask].
  destruct (bool_decide (gate old = g) && bool_decide (consent_digest old = d)) eqn:Eb.
  - apply andb_prop in Eb as [<-%bool_decide_eq_true <-%bool_decide_eq_true]. apply t_ret. intros w Hw. split_and!; try done. by destruct old.
  - apply Hask. intros c0 [= <-] Hok. destruct (gate old) eqn:Eg; [done|]. exfalso.
    pose proof (ro_consent _ _ Hok i old Eo Eg) as Ha. destruct g; rewrite Hp in Ha; [done|]. cbn in Ha.
    rewrite !bool_decide_eq_true_2 in Eb by done. done.
Qed.

Lemma t_gateRawCall needs r i c :
  m_calls mf !! i = Some c -> decision r = None -> prep_of r i = None ->
  triple (Inv r) (gateRawCall E iss mf needs r c)
    (fun rg w => Inv rg.1 w /\ (rec_le r rg.1 /\ decision rg.1 = None /\ (forall j, prep_of rg.1 j = prep_of r j) /\
      match rg.2 with
      | GateBlocked p => exists v, p = BlockedReply v
      | GateOpen (Some d) => d = call_digest c /\ con_of rg.1 i = Some (mkConsent raw d approved)
      | GateOpen None => needs (call_name (call_plan c)) (call_args (call_plan c)) = false
      end)).
Proof.
  intros Hc Hd Hp. unfold gateRawCall. eapply t_bind; [apply t_executor|]. intros x. apply t_pure. intros _.
  destruct (needs _ _) eqn:En; [|apply t_ret; by intros w Hw].
  eapply t_bind; [by apply t_answer_for|]. intros [r1 a]. apply t_pure. cbn [fst snd]. intros (Hle & Hd1 & Hcon & Hprep).
  apply t_ret. intros w Hw. split_and!; try done. cbn. case_bool_decide; [by subst a|by eexists].
Qed.

Definition prepared_below (r : BatchRecord) (i : nat) : Prop :=
  forall j, (j < i)%nat -> exists p, prep_of r j = Some p /\ abortCause p = None.

(** A reply that is stored as the executor's was heard. *)
Definition reply_heard (i : nat) (p : PrepareReply) (l : list log_entry) : Prop :=
  match p with PreparedReply _ | AwaitingReply _ => Answered key i p ∈ l | _ => True end.

Lemma t_set_prepare r i c p Q :
  m_calls mf !! i = Some c -> decision r = None -> prep_of r i = None ->
  (forall r' w, Inv r' w -> rec_le r r' -> decision r' = None -> prep_of r' i = Some p ->
    (forall j, j <> i -> prep_of r' j = prep_of r j) -> Q r' w) ->
  triple (fun w => Inv r w /\ reply_heard i p (log w)) (set_prepare E iss mf r c p) Q.
Proof.
  intros Hc Hd Hp HQ w Hw. pose proof (inv_rec _ _ (proj1 Hw)) as Hok. revert w Hw.
  unfold set_prepare, persist_step. rewrite (wf_index _ Hwf _ _ Hc).
  destruct (step_set_prepare mf r i p Hok (call_bound _ _ Hc) Hd Hp) as (Hok' & Hle & Hpi & Hpj).
  eapply t_post.
  - apply (t_persist r _ _ _ _ (reply_heard i p)); [done|done|intros l Hl _; by eapply heard_ok_open|].
    intros l Hl Hh j d. destruct (decide (j = i)) as [->|Hne].
    + rewrite Hpi. split; intros [= ->]; [by left|done].
    + rewrite Hpj by done. apply (Hl j d).
  - intros r' w' [Hw' ->]. by apply HQ.
Qed.

Lemma t_prepare_call r i c :
  m_calls mf !! i = Some c -> decision r = None -> prepared_below r i ->
  triple (Inv r) (prepare_call E iss consent mf r c)
    (fun r' w => Inv r' w /\ (decision r' = None /\ rec_le r r' /\ (exists p, prep_of r' i = Some p) /\ prepared_below r' i)).
Proof.
  intros Hc Hd Hpre. unfold prepare_call. assert (prepare_reply r c = prep_of r i) as -> by (unfold prepare_reply, prep_of; by erewrite wf_index).
  destruct (prep_of r i) as [p|] eqn:Ep; [apply t_ret; intros w Hw; split_and!; by eauto|].
  eapply (t_bind _ _ _ (fun rg w => Inv rg.1 w /\ (rec_le r rg.1 /\ decision rg.1 = None /\ (forall j, prep_of rg.1 j = prep_of r j) /\
      match rg.2 with
      | GateBlocked p => exists v, p = BlockedReply v
      | GateOpen (Some d) => d = call_digest c /\ con_of rg.1 i = Some (mkConsent raw d approved)
      | GateOpen None => match consent with Some needs => needs (call_name (call_plan c)) (call_args (call_plan c)) = false | None => True end
      end))).
  { destruct consent as [needs|]; [by apply t_gateRawCall|]. apply t_ret. by intros w Hw. }
  intros [r1 g]. apply t_pure. cbn [fst snd]. intros (Hle & Hd1 & Hprep & Hg).
  assert (forall p r' w, Inv r' w -> rec_le r1 r' -> decision r' = None -> prep_of r' i = Some p ->
    (forall j, j <> i -> prep_of r' j = prep_of r1 j) ->
    Inv r' w /\ (decision r' = None /\ rec_le r r' /\ (exists p, prep_of r' i = Some p) /\ prepared_below r' i)) as Hend.
  { intros p r' w Hw Hle' Hd' Hp' Hj. split_and!; try done; [by etrans|by eauto|]. intros j Hlt. rewrite Hj, Hprep by lia. by apply Hpre. }
  destruct g as [p|auth].
  - eapply t_pre; [apply (t_set_prepare _ i c p); [done|done|by rewrite Hprep|]; intros r' w' Hw'; by apply Hend|].
    intros w Hw. split; [done|]. by destruct Hg as [v ->].
  - eapply t_bind; [apply t_executor|]. intros x. apply t_pure. intros ->.
    eapply t_bind.
    + rewrite (wf_index _ Hwf _ _ Hc). apply (t_send _ i c); [done|]. cbn. split_and!; try done; [by rewrite Hprep|].
      intros j Hj. rewrite Hprep. by apply Hpre.
    + intros p. eapply t_bind; [by apply t_note|]. intros []. eapply t_pre.
      * apply (t_set_prepare _ i c p); [done|done|by rewrite Hprep|]. intros r' w' Hw'. by apply Hend.
      * intros w [Hw Hin]. split; [done|]. rewrite (wf_index _ Hwf _ _ Hc) in Hin. by destruct p.
Qed.

Definition all_prepared (r : BatchRecord) : Prop :=
  any_abort r = true \/ forall j, (j < size mf)%nat -> exists p, prep_of r j = Some p.

Lemma t_prepare_calls cs : forall i r,
  drop i (m_calls mf) = cs -> decision r = None -> prepared_below r i ->
  triple (Inv r) (prepare_calls E iss consent mf r cs) (fun r' w => Inv r' w /\ (decision r' = None /\ all_prepared r')).
Proof.
  induction cs as [|c cs IH]; intros i r Hdrop Hd Hpre; cbn [prepare_calls].
  - apply t_ret. intros w Hw. split_and!; [done|done|]. right. intros j Hj. destruct (Hpre j) as (p & Hp & _); [|by exists p].
    unfold size in Hj. apply (f_equal length) in Hdrop. rewrite length_drop in Hdrop. cbn in Hdrop. lia.
  - assert (m_calls mf !! i = Some c) as Hc by (rewrite <- (Nat.add_0_r i), <- lookup_drop, Hdrop; done).
    eapply t_bind; [by eapply t_prepare_call|]. intros r'. apply t_pure. intros (Hd' & Hle & [p Hp] & Hpre').
    assert (prepare_reply r' c = prep_of r' i) as -> by (unfold prepare_reply, prep_of; by erewrite wf_index).
    rewrite Hp. cbn [aborts]. destruct (abortCause p) eqn:Ep.
    + apply t_ret. intros w Hw. split_and!; [done|done|]. left. apply any_abort_iff. exists i, p. by rewrite Ep.
    + apply (IH (S i)); [by apply drop_S in Hc; congruence|done|]. intros j Hj. destruct (decide (j = i)) as [->|]; [by exists p|apply Hpre'; lia].
Qed.


(** *** Resolving the frozen calls that await consent *)

Lemma t_abort_call r i c :
  m_calls mf !! i = Some c ->
  (decision r = Some ABORT \/ (exists v, prep_of r i = Some (BlockedReply v)) \/
    (exists d, prep_of r i = Some (AwaitingReply d) /\ con_of r i = Some (mkConsent frozen_gate d denied))) ->
  triple (Inv r) (abort_call E iss mf c) (fun _ w => Inv r w).
Proof.
  intros Hc Hm. unfold abort_call. eapply t_bind; [apply t_executor|]. intros x. apply t_pure. intros ->.
  rewrite (wf_index _ Hwf _ _ Hc). by apply (t_send _ i c).
Qed.

(** A call prepared by consent: the executor was told. *)
Definition told (i : nat) (p : PrepareReply) (l : list log_entry) : Prop :=
  match p with PreparedReply d => exists x rf held, Sent key i (MsgConsent x rf d) held ∈ l | _ => True end.

Lemma t_resolveFrozenConsent r i c d :
  m_calls mf !! i = Some c -> decision r = None -> prep_of r i = Some (AwaitingReply d) ->
  triple (Inv r) (resolveFrozenConsent E iss mf r c d)
    (fun rp w => (Inv rp.1 w /\ told i rp.2 (log w)) /\ (decision rp.1 = None /\ (forall j, prep_of rp.1 j = prep_of r j) /\ exists a,
      con_of rp.1 i = Some (mkConsent frozen_gate d a) /\
      match rp.2 with
      | PreparedReply d' => d' = d /\ a = approved
      | BlockedReply _ => a = denied
      | SettledReply _ => a <> denied
      | _ => False
      end)).
Proof.
  intros Hc Hd Hp. unfold resolveFrozenConsent. eapply t_bind; [apply t_executor|]. intros x. apply t_pure. intros ->.
  eapply t_bind; [by apply t_answer_for|]. intros [r1 a]. apply t_pure. cbn [fst snd]. intros (Hle & Hd1 & Hcon & Hprep).
  destruct a.
  - destruct (e_consents E _); [|apply t_throw; [|done..]; by intros w ?%inv_good].
    eapply t_bind.
    + rewrite (wf_index _ Hwf _ _ Hc). apply (t_send_log _ i c); [done|]. cbn. by rewrite Hprep.
    + intros reply. apply t_ret. intros w [Hw [held Hin]]. split_and!; try done; [by destruct reply as [|[out|]]; [by eexists _, _, held|..]|].
      exists approved. split; [done|]. by destruct reply as [|[out|]].
  - eapply t_bind; [apply (t_abort_call _ i); [done|]|].
    + right. right. exists d. by rewrite Hprep.
    + intros reply. apply t_ret. intros w Hw. split_and!; try done. by exists denied.
  - apply t_ret. intros w Hw. split_and!; try done. by exists expired.
Qed.

Lemma t_resolve_calls cs : forall i r,
  drop i (m_calls mf) = cs -> decision r = None -> all_prepared r ->
  (forall j d, (j < i)%nat -> prep_of r j <> Some (AwaitingReply d)) ->
  triple (Inv r) (resolve_calls E iss consent mf r cs)
    (fun r' w => Inv r' w /\ (decision r' = None /\
      (any_abort r' = false -> forall j, (j < size mf)%nat -> exists p, prep_of r' j = Some p /\ forall d, p <> AwaitingReply d))).
Proof.
  induction cs as [|c cs IH]; intros i r Hdrop Hd Hall Hpre; cbn [resolve_calls].
  - apply t_ret. intros w Hw. split_and!; [done|done|]. intros Ha j Hj. destruct Hall as [?|Hall]; [congruence|].
    destruct (Hall j Hj) as [p Hp]. exists p. split; [done|]. intros d ->. apply (Hpre j d); [|done].
    unfold size in Hj. apply (f_equal length) in Hdrop. rewrite length_drop in Hdrop. cbn in Hdrop. lia.
  - assert (m_calls mf !! i = Some c) as Hc by (rewrite <- (Nat.add_0_r i), <- lookup_drop, Hdrop; done).
    assert (drop (S i) (m_calls mf) = cs) as Hdrop' by (by apply drop_S in Hc; congruence).
    destruct (any_abort r) eqn:Ea; [apply t_ret; intros w Hw; split_and!; congruence|].
    assert (prepare_reply r c = prep_of r i) as -> by (unfold prepare_reply, prep_of; by erewrite wf_index).
    destruct (prep_of r i) as [[d|d|v| |out]|] eqn:Ep.
    all: try (apply (IH (S i)); [done..|]; intros j d' Hj; destruct (decide (j = i)) as [->|]; [congruence|apply Hpre; lia]).
    destruct consent as [needs|]; [|apply t_throw; [|done..]; by intros w ?%inv_good].
    eapply t_bind; [by apply t_resolveFrozenConsent|]. intros [r1 p]. apply t_pure. cbn [fst snd]. intros (Hd1 & Hprep & a & Hcon & Hp).
    intros w Hw. pose proof (inv_rec _ _ (proj1 Hw)) as Hok. revert w Hw. unfold set_prepare, persist_step. rewrite (wf_index _ Hwf _ _ Hc).
    destruct (step_resolve mf r1 i d a p Hok (call_bound _ _ Hc) Hd1 (eq_trans (Hprep i) Ep) Hcon Hp) as (Hok' & Hle & Hpi & Hpj).
    eapply t_bind; [apply (t_persist r1 _ _ _ _ (told i p)); [done|done|intros l Hl _; by eapply heard_ok_open|]|].
    { intros l Hl Htold j d'. destruct (decide (j = i)) as [->|Hne].
      - rewrite Hpi. split; [|by intros [= ->]]. intros [= ->]. destruct Hp as [-> ->]. right. split_and!; [|done|done].
        apply (Hl i d). by rewrite Hprep.
      - rewrite Hpj by done. destruct (Hl j d') as [H1 H2]. split; [|done]. intros E0. destruct (H1 E0) as [?|(? & ? & ?)]; [by left|by right]. }
    intros r2. apply t_pure. intros ->. apply (IH (S i)); [done|done| |].
    + right. intros j Hj. destruct (decide (j = i)) as [->|Hne]; [by exists p|]. rewrite Hpj, Hprep by done.
      destruct Hall as [?|Hall]; [congruence|by apply Hall].
    + intros j d' Hj. destruct (decide (j = i)) as [->|Hne]; [rewrite Hpi; by destruct p|]. rewrite Hpj, Hprep by done. apply Hpre. lia.
Qed.

Lemma t_decide_batch r :
  triple (Inv r) (decide_batch E iss consent mf r) (fun r' w => Inv r' w /\ decision r' <> None).
Proof.
  unfold decide_batch. destruct (decision r) as [d|] eqn:Ed; [apply t_ret; intros w Hw; split; [done|congruence]|].
  eapply t_bind; [apply (t_prepare_calls _ 0); [done|done|intros j ?; lia]|]. intros r1. apply t_pure. intros [Hd1 Hall].
  eapply t_bind; [apply (t_resolve_calls _ 0); [done|done|done|intros j ? ?; lia]|]. intros r2. apply t_pure. intros [Hd2 Hres].
  apply t_rec. intros Hok2. destruct (step_decide mf r2 Hok2 Hd2 Hres) as [Hok Hle].
  eapply t_post.
  - eapply t_pre; [apply (t_persist r2 _ _ _ _ (fun _ => True)); [done|done| |intros l Hl _; by apply (prepared_keep l r2)]|by split].
    intros l _ _ i o d _ _ Ho. exfalso. destruct (ro_open _ _ Hok2 Hd2 i) as [Hn _].
    change (out_of r2 i = Some o) in Ho. congruence.
  - intros r' w' [Hw' ->]. split; [done|]. cbn. by destruct (any_abort r2).
Qed.

(** ** Closing what the decision settles *)

(** What is still open after the decision is a prepared call of a released batch. *)
Definition closed_below (r : BatchRecord) (i : nat) : Prop :=
  forall j, (j < i)%nat -> out_of r j = None -> decision r = Some RELEASE /\ exists d, prep_of r j = Some (PreparedReply d).

Lemma t_settle r i c o (X : list log_entry -> Prop) Q :
  m_calls mf !! i = Some c -> decision r <> None -> out_of r i = None -> outcome_from r i o ->
  (forall l d, decision r = Some RELEASE -> prep_of r i = Some (PreparedReply d) -> X l -> exists reply, Heard key i reply ∈ l /\ o = settledOutcome reply) ->
  (forall r' w, Inv r' w -> rec_le r r' -> decision r' = decision r -> prepares r' = prepares r -> out_of r' i = Some o ->
    (forall j, j <> i -> out_of r' j = out_of r j) -> outcomes r' = <[i := Some o]> (outcomes r) -> released r' = released r -> Q r' w) ->
  triple (fun w => Inv r w /\ X (log w)) (settle_call E iss mf r c o) Q.
Proof.
  intros Hc Hd Hn Hfrom HX HQ w Hw. destruct (step_settle mf r i o (inv_rec _ _ (proj1 Hw)) (call_bound _ _ Hc) Hd Hn Hfrom) as (Hok & Hle & Ho & Hoj).
  revert w Hw. unfold settle_call, persist_step. rewrite (wf_index _ Hwf _ _ Hc). eapply t_post.
  - apply (t_persist r); [done|done| |intros l Hl _; by apply (prepared_keep l r)]. intros l Hl HXl j oj d Hdec Hp Hoj'.
    destruct (decide (j = i)) as [->|Hne].
    + rewrite Ho in Hoj'. injection Hoj' as <-. by eapply HX.
    + rewrite Hoj in Hoj' by done. by apply (Hl j oj d).
  - intros r' w' [Hw' ->]. by apply HQ.
Qed.

Lemma t_settle_closed r i c o Q :
  m_calls mf !! i = Some c -> decision r <> None -> out_of r i = None -> outcome_from r i o ->
  (decision r = Some RELEASE -> forall d, prep_of r i <> Some (PreparedReply d)) ->
  (forall r' w, Inv r' w -> rec_le r r' -> decision r' = decision r -> prepares r' = prepares r -> out_of r' i = Some o ->
    (forall j, j <> i -> out_of r' j = out_of r j) -> Q r' w) ->
  triple (Inv r) (settle_call E iss mf r c o) Q.
Proof.
  intros Hc Hd Hn Hfrom Hnp HQ. eapply t_pre; [apply (t_settle r i c o (fun _ => True)); [done..| |]|by split].
  - intros l d Hdec Hp _. by destruct (Hnp Hdec d).
  - intros r' w' ? ? ? ? ? ? _ _. by apply HQ.
Qed.

Lemma t_close_call r i c :
  m_calls mf !! i = Some c -> decision r <> None -> closed_below r i ->
  triple (Inv r) (close_call E iss mf (batch_cause r) r c)
    (fun r' w => Inv r' w /\ (decision r' <> None /\ batch_cause r' = batch_cause r /\ closed_below r' (S i))).
Proof.
  intros Hc Hd Hbelow. unfold close_call. rewrite (wf_index _ Hwf _ _ Hc).
  assert (prepare_reply r c = prep_of r i) as -> by (unfold prepare_reply, prep_of; by erewrite wf_index).
  apply t_rec. intros Hok.
  assert (outcome_null (outcomes r) i = true <-> out_of r i = None) as Hnull
    by (apply outcome_null_of; rewrite (size_outcomes _ _ (ro_sized _ _ Hok)); by eapply call_bound).
  destruct (outcome_null (outcomes r) i) eqn:En; cbn [negb].
  2:{ apply t_ret. intros w Hw. split_and!; try done. intros j Hj Hn. destruct (decide (j = i)) as [->|]; [by rewrite <- Hnull in Hn|apply Hbelow; [lia|done]]. }
  assert (out_of r i = None) as Hn by by apply Hnull.
  assert (forall o r' w, Inv r' w -> rec_le r r' -> decision r' = decision r -> prepares r' = prepares r -> out_of r' i = Some o ->
    (forall j, j <> i -> out_of r' j = out_of r j) ->
    Inv r' w /\ (decision r' <> None /\ batch_cause r' = batch_cause r /\ closed_below r' (S i))) as Hend.
  { intros o r' w Hw _ Hd' Hp' Ho Hoj. split_and!; [done|congruence|unfold batch_cause; by rewrite Hp'|]. intros j Hj Hnj.
    unfold prep_of. rewrite Hd', Hp'. apply Hbelow; [destruct (decide (j = i)); [congruence|lia]|].
    rewrite <- Hoj; [done|]. intros ->. congruence. }
  assert (decision r = Some ABORT \/ decision r = Some RELEASE) as Hdec by (destruct (decision r) as [[]|]; [by right|by left|done]).
  assert (forall reply, prep_of r i = reply -> (forall out, reply <> Some (SettledReply out)) -> (forall v, reply <> Some (BlockedReply v)) ->
    triple (Inv r) (match decision r with
      | Some ABORT => bind (match reply with Some _ => bind (abort_call E iss mf c) (fun _ => ret tt) | None => ret tt end)
                        (fun _ => settle_call E iss mf r c (CallNotRun (batch_cause r)))
      | _ => ret r end)
    (fun r' w => Inv r' w /\ (decision r' <> None /\ batch_cause r' = batch_cause r /\ closed_below r' (S i)))) as Hrest.
  { intros reply Hp Hns Hnb. destruct Hdec as [Ed|Ed]; rewrite Ed.
    - eapply (t_bind _ _ _ (fun _ w => Inv r w)).
      + destruct reply; [|by apply t_ret]. eapply t_bind; [apply (t_abort_call _ i); [done|by left]|]. intros ?. by apply t_ret.
      + intros []. apply (t_settle_closed r i); try done; [|congruence|by apply Hend].
        unfold outcome_from. rewrite Hp, Ed. destruct reply as [[]|]; try done; [by destruct (Hnb value)|by destruct (Hns outcome)].
    - apply t_ret. intros w Hw. split_and!; [done|done|done|]. intros j Hj Hnj. destruct (decide (j = i)) as [->|]; [|apply Hbelow; [lia|done]].
      split; [done|]. destruct (ro_release _ _ Hok Ed i (call_bound _ _ Hc)) as (p & Hpi & Hna & Hnw).
      rewrite Hpi in Hp. subst reply. destruct p as [d|d|v| |out]; [by exists d|by destruct (Hnw d)|by destruct (Hnb v)|done|by destruct (Hns out)]. }
  destruct (prep_of r i) as [[d|d|v| |out]|] eqn:Ep; try (by apply (Hrest _ eq_refl)).
  - eapply t_bind; [apply (t_abort_call _ i); [done|right; left; by exists v]|]. intros ?.
    apply (t_settle_closed r i); try done; [unfold outcome_from; by rewrite Ep|congruence|by apply Hend].
  - apply (t_settle_closed r i); try done; [unfold outcome_from; by rewrite Ep|congruence|by apply Hend].
Qed.

Lemma t_close_calls cs : forall i r,
  drop i (m_calls mf) = cs -> decision r <> None -> closed_below r i ->
  triple (Inv r) (close_calls E iss mf (batch_cause r) r cs)
    (fun r' w => Inv r' w /\ (decision r' <> None /\ closed_below r' (size mf))).
Proof.
  induction cs as [|c cs IH]; intros i r Hdrop Hd Hbelow; cbn [close_calls].
  - apply t_ret. intros w Hw. split_and!; [done|done|]. intros j Hj. apply Hbelow.
    unfold size in Hj. apply (f_equal length) in Hdrop. rewrite length_drop in Hdrop. cbn in Hdrop. lia.
  - assert (m_calls mf !! i = Some c) as Hc by (rewrite <- (Nat.add_0_r i), <- lookup_drop, Hdrop; done).
    eapply t_bind; [by apply (t_close_call r i)|]. intros r'. apply t_pure. intros (Hd' & <- & Hbelow').
    apply (IH (S i)); [by apply drop_S in Hc; congruence|done|done].
Qed.

(** ** Releasing *)

Definition inflight_ok (r : BatchRecord) (l : list nat) : Prop :=
  NoDup l /\ forall j, j ∈ l -> (j < size mf)%nat /\ out_of r j = None /\ rel_of r j = true.

Definition ready_at (r : BatchRecord) (j : nat) : bool := forallb (finished (deps mf) (outcomes r)) (deps_of (deps mf) j).

Lemma deps_at i c : m_calls mf !! i = Some c -> deps_of (deps mf) i = dependsOn c.
Proof. intros Hc. unfold deps_of, deps. by rewrite list_lookup_fmap, Hc. Qed.

Lemma deps_below i d : d ∈ deps_of (deps mf) i -> (d < i)%nat.
Proof. destruct (wf_deps _ Hwf) as (seqs & _ & ->). apply dependencies_below. Qed.

Lemma ready_waits r i : ready_at r i = true <-> forall j, waits_for (deps mf) i j -> outcome_null (outcomes r) j = false.
Proof.
  unfold ready_at. rewrite forallb_forall. split.
  - intros Hr j Hj. inversion Hj as [? ? Hji|? d ? Hdi Hdj]; subst.
    + apply list_elem_of_In in Hji. specialize (Hr j Hji). apply finished_iff in Hr; [exact (proj1 Hr)|apply deps_below].
    + apply list_elem_of_In in Hdi. specialize (Hr d Hdi). apply finished_iff in Hr; [by apply (proj2 Hr)|apply deps_below].
  - intros Hw d Hd%list_elem_of_In. apply finished_iff; [apply deps_below|]. split; [by apply Hw, tc_once|].
    intros j Hj. apply Hw. by eapply tc_l.
Qed.

Lemma waits_below i j : waits_for (deps mf) i j -> (j < i)%nat.
Proof. destruct (wf_deps _ Hwf) as (seqs & _ & ->). rewrite waits_for_iff. lia. Qed.

Lemma t_release_call r i c l :
  m_calls mf !! i = Some c -> closed_below r (size mf) -> inflight_ok r l -> out_of r i = None -> i ∉ l ->
  rel_of r i = true \/ ready_at r i = true ->
  triple (Inv r) (release_call E iss mf r c l)
    (fun ri w => Inv ri.1 w /\ (closed_below ri.1 (size mf) /\ inflight_ok ri.1 ri.2 /\ outcomes ri.1 = outcomes r /\ ri.2 = l ++ [i] /\ decision ri.1 = decision r)).
Proof.
  intros Hc Hcl [Hnd Hin] Hn Hil Hwhy. unfold release_call. rewrite (wf_index _ Hwf _ _ Hc).
  destruct (Hcl i (call_bound _ _ Hc) Hn) as [Hdec Hprep].
  eapply (t_bind _ _ _ (fun r' w => Inv r' w /\ (closed_below r' (size mf) /\ inflight_ok r' l /\ outcomes r' = outcomes r /\
    decision r' = Some RELEASE /\ rel_of r' i = true))).
  - change (default false (released r !! i)) with (rel_of r i). destruct (rel_of r i) eqn:Er; [by apply t_ret|].
    apply t_rec. intros Hok. destruct Hwhy as [?|Hready]; [done|]. rewrite ready_waits in Hready.
    destruct (step_release mf r i Hok (call_bound _ _ Hc) Hdec Hprep Hready) as (Hok' & Hle & Hrel).
    unfold persist_step. eapply t_post.
    + eapply t_pre; [apply (t_persist r _ _ _ _ (fun _ => True)); [done|done| |intros lg Hl _; by apply (prepared_keep lg r)]|by split]. intros lg Hl _. exact Hl.
    + intros r' w' [Hw' ->]. split; [done|]. split; [exact Hcl|]. split; [|done]. split; [done|].
      intros j Hj. destruct (Hin j Hj) as (? & ? & Hrj). split_and!; try done.
      by apply (le_released _ _ Hle).
  - intros r1. apply t_pure. intros (Hcl1 & [_ Hin1] & Ho1 & Hd1 & Hr1). rewrite Hdec. eapply t_bind; [apply t_executor|]. intros x. apply t_pure. intros ->.
    assert (out_of r1 i = None) as Hn1 by (unfold out_of; by rewrite Ho1).
    eapply t_bind; [apply (t_send _ i c); [done|by cbn]|]. intros []. apply t_ret. intros w Hw. cbn [fst snd]. split; [done|]. split; [done|]. split; [|done]. split.
    + apply NoDup_app. split_and!; [done| |apply NoDup_singleton]. intros j Hj ->%list_elem_of_singleton. done.
    + intros j [Hj| ->%list_elem_of_singleton]%elem_of_app; [by apply Hin1|]. split_and!; [by eapply call_bound|done|done].
Qed.

Lemma t_launch cs : forall i r l,
  drop i (m_calls mf) = cs -> closed_below r (size mf) -> inflight_ok r l ->
  (forall j, (j < i)%nat -> out_of r j = None -> j ∈ l \/ ready_at r j = false) ->
  triple (Inv r) (launch E iss mf r l cs)
    (fun ri w => Inv ri.1 w /\ (closed_below ri.1 (size mf) /\ inflight_ok ri.1 ri.2 /\ outcomes ri.1 = outcomes r /\ decision ri.1 = decision r /\
      forall j, (j < size mf)%nat -> out_of ri.1 j = None -> j ∈ ri.2 \/ ready_at ri.1 j = false)).
Proof.
  induction cs as [|c cs IH]; intros i r l Hdrop Hcl Hin Hpre; cbn [launch].
  - apply t_ret. intros w Hw. split_and!; try done. intros j Hj. apply Hpre.
    unfold size in Hj. apply (f_equal length) in Hdrop. rewrite length_drop in Hdrop. cbn in Hdrop. lia.
  - assert (m_calls mf !! i = Some c) as Hc by (rewrite <- (Nat.add_0_r i), <- lookup_drop, Hdrop; done).
    assert (drop (S i) (m_calls mf) = cs) as Hdrop' by (by apply drop_S in Hc; congruence).
    rewrite (wf_index _ Hwf _ _ Hc). apply t_rec. intros Hok.
    assert (outcome_null (outcomes r) i = true <-> out_of r i = None) as Hnull
      by (apply outcome_null_of; rewrite (size_outcomes _ _ (ro_sized _ _ Hok)); by eapply call_bound).
    assert (ready mf r c = ready_at r i) as -> by (unfold ready, ready_at; by rewrite (deps_at _ _ Hc)).
    change (default false (released r !! i)) with (rel_of r i).
    assert ((out_of r i = None -> i ∈ l \/ ready_at r i = false) -> forall j, (j < S i)%nat -> out_of r j = None -> j ∈ l \/ ready_at r j = false) as Hskip.
    { intros Hi j Hj. destruct (decide (j = i)) as [->|]; [done|apply Hpre; lia]. }
    destruct (negb (outcome_null (outcomes r) i) || bool_decide (i ∈ l)) eqn:Eskip.
    { apply (IH (S i)); [done..|]. apply Hskip. intros Hn. left. rewrite (proj2 Hnull Hn) in Eskip. by apply bool_decide_eq_true in Eskip. }
    apply orb_false_elim in Eskip as [Hn%negb_false_iff%Hnull Hil%bool_decide_eq_false].
    destruct (rel_of r i || ready_at r i) eqn:Ego.
    + apply orb_prop in Ego. eapply t_bind; [by apply (t_release_call r i)|]. intros [r1 l1]. apply t_pure. cbn [fst snd].
      intros (Hcl1 & Hin1 & Ho1 & -> & Hd1). eapply t_post.
      * apply (IH (S i)); [done..|]. intros j Hj Hnj. unfold out_of, ready_at in *. rewrite Ho1 in *. rewrite elem_of_app, list_elem_of_singleton.
        destruct (decide (j = i)) as [->|]; [tauto|]. destruct (Hpre j) as [?|?]; [lia|done|tauto|tauto].
      * intros ri w (Hw & ? & ? & Ho & ? & ?). rewrite <- Ho1, <- Hd1. by split_and!.
    + apply orb_false_elim in Ego as [_ Hnr]. apply (IH (S i)); [done..|]. apply Hskip. by right.
Qed.

Definition nulls (outs : list (option CallOutcome)) : nat :=
  length (List.filter (fun o => match o with None => true | Some _ => false end) outs).

Lemma nulls_insert outs i o : outs !! i = Some None -> S (nulls (<[i := Some o]> outs)) = nulls outs.
Proof.
  revert i. induction outs as [|x outs IH]; intros [|i] Hi; try done.
  - by injection Hi as ->.
  - specialize (IH i Hi). unfold nulls in *. cbn [insert list_insert List.filter]. destruct x; cbn [length]; by rewrite <- IH.
Qed.

Lemma nulls_le outs : (nulls outs <= length outs)%nat.
Proof. apply List.filter_length_le. Qed.

Definition complete (r : BatchRecord) : Prop := decision r <> None /\ forall j, (j < size mf)%nat -> out_of r j <> None.

(** With nothing in flight after a pass, nothing is left. *)
Lemma nothing_left r :
  rec_ok mf r -> (forall j, (j < size mf)%nat -> out_of r j = None -> j ∈ @nil nat \/ ready_at r j = false) ->
  forall j, (j < size mf)%nat -> out_of r j <> None.
Proof.
  intros Hok Hpass j. induction (lt_wf j) as [j _ IH]. intros Hj Hn. destruct (Hpass j Hj Hn) as [Hin|Hnr]; [by apply elem_of_nil in Hin|].
  assert (ready_at r j = true); [|congruence]. apply ready_waits. intros k Hk. apply waits_below in Hk.
  assert (outcome_null (outcomes r) k = true <-> out_of r k = None) as Hnull
    by (apply outcome_null_of; rewrite (size_outcomes _ _ (ro_sized _ _ Hok)); lia).
  destruct (outcome_null (outcomes r) k); [|done]. exfalso. apply (IH k Hk); [lia|]. by apply Hnull.
Qed.

Lemma t_race r l :
  l <> [] -> triple (Inv r) (race E iss mf l) (fun x w => Inv r w /\ x.1 ∈ l /\ Heard key x.1 x.2 ∈ log w).
Proof.
  intros Hl. apply t_effect_inv. intros t w Hw. destruct (e_race E t l) as [pick [reply|]].
  - unfold bind, note, ret. cbn [fst snd]. split_and!.
    + by apply note_inv.
    + destruct (lookup_lt_is_Some_2 l (pick mod length l)) as [i Hi]; [apply Nat.mod_upper_bound; by destruct l|]. rewrite Hi. cbn.
      by eapply list_elem_of_lookup_2.
    + apply elem_of_app. right. by apply list_elem_of_singleton.
  - split; [by eapply inv_good|done].
Qed.

Lemma t_release_loop fuel : forall r l,
  closed_below r (size mf) -> inflight_ok r l -> decision r <> None -> (nulls (outcomes r) < fuel)%nat ->
  triple (Inv r) (release_loop E iss mf fuel r l) (fun r' w => Inv r' w /\ complete r').
Proof.
  induction fuel as [|fuel IH]; intros r l Hcl Hin Hd Hfuel; [lia|]. cbn [release_loop].
  eapply t_bind.
  { eapply t_post; [apply (t_launch _ 0 r l); [done..|intros j ?; lia]|]. intros ri w [Hw Hpost]. exact (conj Hw Hpost). }
  intros [r1 l1]. apply t_pure. cbn [fst snd]. intros (Hcl1 & Hin1 & Ho1 & Hd1 & Hpass). rewrite <- Hd1 in Hd.
  apply t_rec. intros Hok1. destruct l1 as [|i0 l1].
  { pose proof (nothing_left r1 Hok1 Hpass) as Hdone. by apply t_ret. }
  remember (i0 :: l1) as l2 eqn:El2. eapply t_bind; [apply t_race; by subst l2|]. intros [i reply]. cbn [fst snd].
  intros w (Hw & Hi & Hheard). revert w Hw Hheard. destruct Hin1 as [Hnd1 Hin1]. destruct (Hin1 i Hi) as (Hlt & Hn & Hrel).
  destruct (lookup_lt_is_Some_2 (m_calls mf) i Hlt) as [c Hc]. rewrite Hc.
  destruct (Hcl1 i Hlt Hn) as [Hdec [d Hp]].
  enough (triple (fun w => Inv r1 w /\ Heard key i reply ∈ log w)
    (bind (settle_call E iss mf r1 c (settledOutcome reply)) (fun r => release_loop E iss mf fuel r (filter (fun j => j <> i) l2)))
    (fun r' w => Inv r' w /\ complete r')) as G by (intros w Hw Hh; by apply G).
  eapply (t_bind _ _ _ (fun r2 w => Inv r2 w /\ (closed_below r2 (size mf) /\ inflight_ok r2 (filter (fun j => j <> i) l2) /\
    decision r2 <> None /\ S (nulls (outcomes r2)) = nulls (outcomes r)))).
  - apply (t_settle r1 i c _ (fun lg => Heard key i reply ∈ lg)); try done.
    + unfold outcome_from. by rewrite Hp, Hdec.
    + intros lg d' _ _ Hh. by exists reply.
    + intros r2 w Hw Hle Hd2 Hp2 Ho2 Hoj Houts Hrel2. split_and!; [done| | |congruence|].
      * intros j Hj Hnj. unfold prep_of. rewrite Hd2, Hp2. apply Hcl1; [done|]. destruct (decide (j = i)) as [->|]; [congruence|by rewrite <- Hoj].
      * split; [by apply NoDup_filter|]. intros j [Hne Hj]%list_elem_of_filter. destruct (Hin1 j Hj) as (? & ? & ?). split_and!; [done| |].
        -- by rewrite Hoj.
        -- unfold rel_of. by rewrite Hrel2.
      * rewrite Houts, <- Ho1. apply nulls_insert. unfold out_of in Hn.
        destruct (outcomes r1 !! i) as [o|] eqn:Eo; [cbn in Hn; by subst o|]. apply lookup_ge_None in Eo.
        rewrite (size_outcomes _ _ (ro_sized _ _ Hok1)) in Eo. unfold size in *. lia.
  - intros r2. apply t_pure. intros (? & ? & ? & Hnulls). apply IH; try done. lia.
Qed.

(** ** The whole run *)

Definition result_of (r : BatchRecord) (res : BatchResult) : Prop :=
  decision r = Some (final_decision res) /\ outcomes r = Some <$> final_outcomes res.

Lemma omap_all {A} (l : list (option A)) : (forall x, x ∈ l -> x <> None) -> l = Some <$> omap id l.
Proof.
  induction l as [|x l IH]; intros Hall; [done|]. destruct x as [x|]; [|by destruct (Hall None); [apply elem_of_cons; by left|]].
  cbn. f_equal. apply IH. intros y Hy. apply Hall, elem_of_cons. by right.
Qed.

Lemma conclude_complete r : rec_ok mf r -> complete r -> exists res, conclude (St := St) r = ret res /\ result_of r res.
Proof.
  intros Hok [Hd Hall]. destruct (decision r) as [d|] eqn:Ed; [|done].
  assert (outcomes r = Some <$> omap id (outcomes r)) as Ho.
  { apply omap_all. intros x Hx. apply list_elem_of_lookup_1 in Hx as [j Hj]. specialize (Hall j). unfold out_of in Hall. rewrite Hj in Hall.
    apply Hall. rewrite <- (size_outcomes _ _ (ro_sized _ _ Hok)). by eapply lookup_lt_Some. }
  exists (mkResult d (omap id (outcomes r))). split; [|by split].
  unfold conclude. rewrite Ed. replace (length (omap id (outcomes r)) =? length (outcomes r))%nat with true; [done|].
  symmetry. apply Nat.eqb_eq. rewrite Ho at 2. by rewrite length_fmap.
Qed.

Lemma open_known r : rec_ok mf r -> string_of (member (manifest r) $"manifestDigest") = Some (manifestDigest mf).
Proof. intros Hok. by rewrite (ro_manifest _ _ Hok). Qed.

Lemma t_open_batch : triple Good (open_batch E iss mf) (fun r w => Inv r w).
Proof.
  unfold open_batch. eapply (t_bind _ _ _ (fun stored w => match stored with Some r => Inv r w | None => Fresh w end)).
  - apply t_effect.
    + intros w [Hw|[r Hw]]; (split; [|]); (left; by apply tick_fresh) || (right; exists r; by apply tick_inv).
    + intros t w [Hw|[r Hw]]; cbv beta.
      * by rewrite (fresh_read _ Hw).
      * by rewrite (inv_read _ _ Hw).
  - intros [r|].
    + apply t_rec. intros Hok. rewrite (open_known _ Hok), bool_decide_eq_true_2 by done. by apply t_ret.
    + apply t_effect.
      { intros w Hw. split; [by apply tick_fresh|]. left. by apply tick_fresh. }
      intros t w [Hs Hr Hl Hlo HF]. cbv beta zeta. destruct (store_commit _ _ _ _) as [s res] eqn:Ec.
      pose proof (commit_store_ok _ _ _ _ _ _ Hs Ec) as Hs'.
      assert ((forall k, getDocument s k = getDocument (store w) k) -> Fresh (mkWorld s (clock w) (log w))) as Hold.
      { intros Hd. split; try done; cbn [store log].
        - by unfold read_batch in *; rewrite Hd.
        - rewrite <- (app_nil_r (log w)). apply F_stable; auto. }
      assert (getDocument s key = Some (record_json (empty_record mf)) -> (forall k, k <> key -> getDocument s k = getDocument (store w) k) ->
        Inv (empty_record mf) (mkWorld s (clock w) (log w))) as Hnew.
      { intros Hd Hoth. split; try done; cbn [store log].
        - apply stored_back; [apply empty_ok|done].
        - apply empty_ok.
        - eapply Forall_impl; [exact Hl|]. intros [k i m held| |] Hk; [|done..]. by intros ->.
        - intros i d. unfold prep_of. cbn. by rewrite get_replicate.
        - by apply lo_open.
        - rewrite <- (app_nil_r (log w)). by apply F_stable. }
      destruct (commit_all_or_none _ _ _ _ _ _ Hs Ec) as [[[x ->] Hd]|Hd].
      * split; [left; by apply Hold|done].
      * unfold written in Hd. cbn [fold_left] in Hd.
        assert (Inv (empty_record mf) (mkWorld s (clock w) (log w))) as Hw'.
        { apply Hnew; [rewrite Hd; by rewrite bool_decide_eq_true_2|]. intros k Hk. rewrite Hd. by rewrite bool_decide_eq_false_2 by congruence. }
        destruct res; [done|]. split; [by eapply inv_good|done].
Qed.

Lemma t_run_manifest : triple Good (run_manifest E iss consent mf) (fun res w => exists r, Inv r w /\ complete r /\ result_of r res).
Proof.
  unfold run_manifest. eapply t_bind; [apply t_open_batch|]. intros r. eapply t_bind; [apply t_decide_batch|]. intros r1. apply t_pure. intros Hd1.
  eapply t_bind; [apply (t_close_calls _ 0); [done|done|intros j ?; lia]|]. intros r2. apply t_pure. intros [Hd2 Hcl].
  apply t_rec. intros Hok. eapply t_bind.
  { apply t_release_loop; [done| |done|].
    - split; [constructor|]. intros j Hj. by apply elem_of_nil in Hj.
    - pose proof (nulls_le (outcomes r2)). rewrite (size_outcomes _ _ (ro_sized _ _ Hok)) in *. unfold size in *. lia. }
  intros r3. apply t_pure. intros Hcomp. apply t_rec. intros Hok3.
  destruct (conclude_complete r3 Hok3 Hcomp) as (res & -> & Hres). apply t_ret. intros w Hw. by exists r3.
Qed.
End Logic.
