(* ===== verification/CoordinatorHistory.v ===== *)
(** * Any number of runs of any number of batches

Batches live side by side in one store: each run of one, killed anywhere or
not, starts where the others left the world.  The theorems say what holds at
any moment of such a history, and what it means that a run returned. *)
From S2P Require Import Prelude JsString JsonText JsNumber JsObject Json DurableStore Ledger BatchPlan BatchCodec Coordinator BatchInvariant CoordinatorCorrect.
#[local] Open Scope Z_scope.

(** A plan whose manifest can be stored. *)
Definition plan_ok (plan : BatchPlan) : Prop :=
  header_finite (header plan) = true /\ Z.of_nat (length (calls plan)) <= MAX_SAFE_INTEGER.

Definition plan_seqs (plan : BatchPlan) : list bool := sequential <$> calls plan.

Section Histories.
Context {St : Type} `{DurableStore St} (number_text : num -> jstring) (sha256 : bytes -> bytes).
Context (iss : jstring) (consent : option (jstring -> json -> bool)).
Implicit Types (w : world (St := St)).

Notation mf_of P := (buildBatchManifest number_text sha256 iss P).
Notation run E P := (run number_text sha256 E iss consent P).

Definition plan_key (P : BatchPlan) : jstring := batch_key iss (batchId (header P)).

Lemma built_wf P : plan_ok P -> manifest_wf (mf_of P).
Proof.
  intros [Hh Hn]. split.
  - intros i c Hc. by destruct (built_calls _ _ _ _ _ _ Hc) as (p & w & _ & _ & ->).
  - exists (plan_seqs P). unfold size, plan_seqs. rewrite length_fmap, built_length. split; [done|].
    unfold deps, dependencies. apply list_eq. intros i. rewrite !list_lookup_fmap.
    destruct (m_calls (mf_of P) !! i) as [c|] eqn:Ec.
    + destruct (built_calls _ _ _ _ _ _ Ec) as (p & w & _ & Hw & ->). by rewrite Hw.
    + apply lookup_ge_None in Ec. rewrite built_length in Ec. symmetry. apply fmap_None, lookup_ge_None.
      by rewrite batchDependencies_length, length_fmap.
  - exists (manifest_call_json <$> m_calls (mf_of P)). split; [by apply manifest_round|]. by rewrite length_fmap.
Qed.

Lemma deps_built P : deps (mf_of P) = dependencies (plan_seqs P).
Proof.
  unfold deps, dependencies. apply list_eq. intros i. rewrite !list_lookup_fmap.
  destruct (m_calls (mf_of P) !! i) as [c|] eqn:Ec.
  - destruct (built_calls _ _ _ _ _ _ Ec) as (p & w & _ & Hw & ->). unfold plan_seqs. by rewrite Hw.
  - apply lookup_ge_None in Ec. rewrite built_length in Ec. symmetry. apply fmap_None, lookup_ge_None.
    unfold plan_seqs. by rewrite batchDependencies_length, length_fmap.
Qed.

(** The batch of [P] in the world, with a fact about its record that stays. *)
Definition Batch (lo : option BatchRecord -> Prop) (P : BatchPlan) w : Prop := Good iss consent (mf_of P) lo (fun _ => True) w.

Lemma good_frame lo F P w : Good iss consent (mf_of P) lo F w <-> Batch lo P w /\ F w.
Proof.
  split.
  - intros [[]|[r []]]; (split; [|done]); [left|right; exists r]; by split.
  - intros [[[]|[r []]] HF]; [left|right; exists r]; by split.
Qed.

Lemma key_inj P P' : plan_key P = plan_key P' -> batchId (header P) = batchId (header P').
Proof. unfold plan_key, batch_key. intros E%app_inv_head%pair_text_inj. apply E. Qed.

(** What happens under other keys leaves a batch as it is. *)
Lemma batch_other lo P w s t l :
  Batch lo P w -> store_ok s -> getDocument s (plan_key P) = getDocument (store w) (plan_key P) ->
  Forall (fun e => entry_key e <> plan_key P) l -> Batch lo P (mkWorld s t (log w ++ l)).
Proof.
  intros [[]|[r []]] Hs Hd Hl; [left|right; exists r]; split; try done; cbn [store log].
  - unfold read_batch in *. change (the_key iss (mf_of P)) with (plan_key P) in *. by rewrite Hd.
  - apply Forall_app_2; [done|]. exact Hl.
  - unfold read_batch in *. change (the_key iss (mf_of P)) with (plan_key P) in *. by rewrite Hd.
  - apply Forall_app_2; [done|]. eapply Forall_impl; [exact Hl|]. intros [k i m held| |] Hk; [|done..]. intros ->. by destruct Hk.
  - intros i o d H1 H2 H3. destruct (inv_heard i o d H1 H2 H3) as (reply & Hr & ->). exists reply. split; [|done].
    apply elem_of_app. by left.
  - by apply prepared_ok_more.
Qed.

(** The batches of the history, each id used for one plan. *)
Context (known : BatchPlan -> Prop).
Hypothesis known_ok : forall P, known P -> plan_ok P.
Hypothesis known_unique : forall P P', known P -> known P' -> batchId (header P) = batchId (header P') -> P = P'.

Definition all_good (los : BatchPlan -> option BatchRecord -> Prop) w : Prop :=
  store_ok (store w) /\ forall P, known P -> Batch (los P) P w.

(** Facts that stay when the record is opened or grows. *)
Definition stays (los : BatchPlan -> option BatchRecord -> Prop) : Prop :=
  forall P, (los P None -> los P (Some (empty_record (mf_of P)))) /\
    forall r r', los P (Some r) -> rec_le r r' -> los P (Some r').

Lemma run_all_good los E P w w' out :
  stays los ->
  all_good los w -> known P -> run E P w = (w', out) ->
  all_good los w' /\
  match out with
  | Done res => exists r, Inv iss consent (mf_of P) (los P) (fun _ => True) r w' /\ complete (mf_of P) r /\ result_of r res
  | Threw e => fatal e = false
  | Killed => True
  end.
Proof.
  intros Hup [Hs Hall] HP Erun.
  pose (F := fun w : world (St := St) => store_ok (store w) /\ forall P', known P' -> P' <> P -> Batch (los P') P' w).
  assert (forall w s t l, F w -> store_ok s -> (forall k, k <> plan_key P -> getDocument s k = getDocument (store w) k) ->
    Forall (fun e => entry_key e = plan_key P) l -> F (mkWorld s t (log w ++ l))) as HF.
  { intros w0 s t l [_ HF] Hs0 Hd Hl. split; [done|]. intros P' HP' Hne.
    assert (plan_key P' <> plan_key P) as Hk by (intros Hk; apply Hne, known_unique; [done..|by apply key_inj]).
    apply batch_other; [by apply HF|done|by apply Hd|]. eapply Forall_impl; [exact Hl|]. intros e He. cbn in *. congruence. }
  pose proof (t_run_manifest E iss consent (mf_of P) (built_wf P (known_ok P HP)) (los P) (proj1 (Hup P)) (proj2 (Hup P)) F HF w) as Ht.
  assert (F w) as HFw by (split; [done|]; intros P' HP' _; by apply Hall).
  specialize (Ht (proj2 (good_frame (los P) F P w) (conj (Hall P HP) HFw))).
  change (run_manifest E iss consent (mf_of P) w) with (run E P w) in Ht. rewrite Erun in Ht.
  assert (Good iss consent (mf_of P) (los P) F w' -> all_good los w') as Hgood.
  { intros Hg. apply good_frame in Hg as [Hb [Hs' Ho]]. split; [done|]. intros P' HP'.
    destruct (decide (batchId (header P') = batchId (header P))) as [Hid|Hne]; [by rewrite (known_unique P' P HP' HP Hid)|].
    apply Ho; [done|congruence]. }
  destruct out as [res|e|].
  - destruct Ht as (r & Hr & Hc & Hres). split; [apply Hgood; right; by exists r|]. exists r. split; [|done].
    destruct Hr. by split.
  - destruct Ht as [Hg He]. split; [by apply Hgood|done].
  - split; [by apply Hgood|done].
Qed.

(** ** Histories *)

Inductive batch_op :=
| OpRun (E : env) (P : BatchPlan)
| OpElse (ep : Z) (cut : StoreWritePoint -> bool) (writes : list StoreWrite).

Definition op_ok (op : batch_op) : Prop :=
  match op with
  | OpRun _ P => known P
  | OpElse _ _ writes =>
      Forall (fun x => match x with Put k _ | Delete k => startsWith k BATCH_PREFIX = false | _ => True end) writes
  end.

Definition batch_step w (op : batch_op) : world :=
  match op with
  | OpRun E P => (run E P w).1
  | OpElse ep cut writes => mkWorld (store_commit cut ep writes (store w)).1 (clock w) (log w)
  end.

Definition batch_run w (ops : list batch_op) : world := fold_left batch_step ops w.

(** A store that holds none of the batches yet. *)
Definition starting w : Prop :=
  store_ok (store w) /\ log w = [] /\ forall P, known P -> getDocument (store w) (plan_key P) = None.

Lemma else_get ws k old :
  Forall (fun x => match x with Put k _ | Delete k => startsWith k BATCH_PREFIX = false | _ => True end) ws ->
  startsWith k BATCH_PREFIX = true -> written ws k old = old.
Proof.
  intros Hws Hk. unfold written. revert old. induction Hws as [|x ws Hx Hws IH]; intros old; [done|]. cbn [fold_left]. rewrite IH.
  destruct x as [i kd d|key d|key]; [done|..]; rewrite bool_decide_eq_false_2; [done|intros ->; congruence|done|intros ->; congruence].
Qed.

Lemma batch_step_good los w op :
  stays los -> all_good los w -> op_ok op -> all_good los (batch_step w op).
Proof.
  intros Hup Hw Hop. destruct op as [E P|ep cut ws]; cbn [batch_step op_ok] in *.
  - destruct (run E P w) as [w' out] eqn:Er. by apply (run_all_good los E P w w' out).
  - destruct Hw as [Hs Hall]. destruct (store_commit cut ep ws (store w)) as [s r] eqn:Ec. cbn [fst].
    pose proof (commit_store_ok _ _ _ _ _ _ Hs Ec) as Hs'. split; [done|]. intros P HP. rewrite <- (app_nil_r (log w)).
    apply batch_other; [by apply Hall|done| |done].
    destruct (commit_all_or_none _ _ _ _ _ _ Hs Ec) as [[_ Hd]|Hd]; rewrite Hd; [done|]. apply else_get; [done|].
    unfold plan_key, batch_key, startsWith. rewrite take_app_length. by apply bool_decide_eq_true_2.
Qed.

Lemma batch_run_good los w ops :
  stays los -> all_good los w -> Forall op_ok ops -> all_good los (batch_run w ops).
Proof.
  intros Hup Hw Hops. revert w Hw. induction Hops as [|op ops Hop _ IH]; intros w Hw; cbn; [done|]. by apply IH, batch_step_good.
Qed.

Notation any := (fun (_ : BatchPlan) (_ : option BatchRecord) => True).

Lemma starting_good w : starting w -> all_good any w.
Proof.
  intros (Hs & Hl & Hd). split; [done|]. intros P HP. left. split; try done.
  - unfold read_batch. change (the_key iss (mf_of P)) with (plan_key P). by rewrite Hd.
  - by rewrite Hl.
Qed.

(** A moment of a history. *)
Definition reachable w : Prop := exists w0 ops, starting w0 /\ Forall op_ok ops /\ w = batch_run w0 ops.

Lemma reachable_good w : reachable w -> all_good any w.
Proof. intros (w0 & ops & Hw & Hops & ->). apply batch_run_good; [done|by apply starting_good|done]. Qed.

(** What is in the store for [P]. *)
Definition recorded_as (P : BatchPlan) w (r : BatchRecord) : Prop := read_batch (store w) (plan_key P) = Ok (Some r).

Lemma recorded_inv lo P w r : Batch lo P w -> recorded_as P w r -> Inv iss consent (mf_of P) lo (fun _ => True) r w.
Proof.
  intros [Hf|[r' Hr]] Hrec; unfold recorded_as in Hrec.
  - pose proof (fresh_read _ _ _ _ _ Hf) as E. change (the_key iss (mf_of P)) with (plan_key P) in E. congruence.
  - pose proof (inv_read _ _ _ _ _ _ _ Hr) as E. change (the_key iss (mf_of P)) with (plan_key P) in E. congruence.
Qed.

Lemma sent_inv lo P w i m held :
  Batch lo P w -> Sent (plan_key P) i m held ∈ log w ->
  exists r c r0, Inv iss consent (mf_of P) lo (fun _ => True) r w /\ m_calls (mf_of P) !! i = Some c /\
    held = Ok (Some r0) /\ rec_ok (mf_of P) r0 /\ rec_le r0 r /\ msg_ok iss consent (mf_of P) i c m r0.
Proof.
  intros [Hf|[r Hr]] Hin.
  - pose proof (fresh_log _ _ _ _ _ Hf) as Hl. rewrite Forall_forall in Hl. by destruct (Hl _ Hin).
  - pose proof (inv_log _ _ _ _ _ _ _ Hr) as Hl. rewrite Forall_forall in Hl.
    destruct (Hl _ Hin eq_refl) as (c & r0 & ? & ? & ? & ? & ?). by exists r, c, r0.
Qed.

(** A record is only followed by larger ones. *)
Lemma recorded_grows P w r ops :
  known P -> reachable w -> recorded_as P w r -> Forall op_ok ops ->
  exists r', recorded_as P (batch_run w ops) r' /\ rec_le r r' /\ rec_ok (mf_of P) r'.
Proof.
  intros HP Hw Hr Hops. pose proof (reachable_good w Hw) as [Hs Hall].
  pose proof (recorded_inv _ _ _ _ (Hall P HP) Hr) as Hinv.
  assert (all_good (fun P' o => P' = P -> match o with Some r' => rec_le r r' | None => False end) w) as Hg.
  { split; [done|]. intros P' HP'. destruct (decide (batchId (header P') = batchId (header P))) as [Hid|Hne].
    - rewrite (known_unique P' P HP' HP Hid). right. exists r. destruct Hinv. by split.
    - destruct (Hall P' HP') as [[]|[r' []]]; [left|right; exists r']; split; try done; by intros ->. }
  apply (batch_run_good _ _ ops) in Hg as [_ Hg]; [| |done].
  - specialize (Hg P HP). destruct Hg as [Hf|[r' Hr']]; [by destruct (fresh_lo _ _ _ _ _ Hf)|].
    exists r'. destruct Hr'. by split_and!; [|auto|].
  - intros P'. split; [by intros HF HPP; destruct (HF HPP)|]. intros r1 r2 Hlo Hle HPP. etrans; [by apply Hlo|done].
Qed.

(** ** A batch that is done *)

Lemma complete_outcomes P r c :
  rec_ok (mf_of P) r -> complete (mf_of P) r -> known P -> c ∈ m_calls (mf_of P) -> outcome_null (outcomes r) (sourceIndex c) = false.
Proof.
  intros Hok [_ Hall] HP Hc. apply list_elem_of_lookup_1 in Hc as [i Hi]. rewrite (wf_index _ (built_wf P (known_ok P HP)) _ _ Hi).
  pose proof (lookup_lt_Some _ _ _ Hi) as Hlt. specialize (Hall i Hlt).
  assert (outcome_null (outcomes r) i = true <-> out_of r i = None) as Hnull
    by (apply outcome_null_of; by rewrite (size_outcomes _ _ (ro_sized _ _ Hok))).
  destruct (outcome_null (outcomes r) i); [|done]. by destruct Hall; apply Hnull.
Qed.

Lemma close_done E mf cause r cs w :
  (forall c, c ∈ cs -> outcome_null (outcomes r) (sourceIndex c) = false) -> close_calls E iss mf cause r cs w = (w, Done r).
Proof.
  induction cs as [|c cs IH]; intros Hall; [done|]. cbn [close_calls]. unfold bind, close_call.
  rewrite Hall by (apply elem_of_cons; by left). cbn [negb ret]. apply IH. intros c' ?. apply Hall, elem_of_cons. by right.
Qed.

Lemma launch_done E mf r l cs w :
  (forall c, c ∈ cs -> outcome_null (outcomes r) (sourceIndex c) = false) -> launch E iss mf r l cs w = (w, Done (r, l)).
Proof.
  induction cs as [|c cs IH]; intros Hall; [done|]. cbn [launch].
  rewrite Hall by (apply elem_of_cons; by left). cbn [negb orb]. apply IH. intros c' ?. apply Hall, elem_of_cons. by right.
Qed.

Lemma run_complete E P lo w r res :
  known P -> Inv iss consent (mf_of P) lo (fun _ => True) r w -> complete (mf_of P) r -> result_of r res ->
  run E P w = (mkWorld (store w) (S (clock w)) (log w), if e_alive E (clock w) then Done res else Killed).
Proof.
  intros HP Hinv Hcomp [Hd Ho]. pose proof (inv_rec _ _ _ _ _ _ _ Hinv) as Hok.
  pose proof (fun c Hc => complete_outcomes P r c Hok Hcomp HP Hc) as Hall.
  unfold Coordinator.run, run_manifest, open_batch, effect, bind. cbv beta zeta. destruct (e_alive E (clock w)); [|done].
  cbn [store]. rewrite (inv_read _ _ _ _ _ _ _ Hinv). rewrite (open_known (mf_of P) r Hok), bool_decide_eq_true_2 by done. cbn [ret].
  unfold decide_batch. rewrite Hd. cbn [ret]. rewrite close_done by done. cbn [release_loop]. unfold bind. rewrite launch_done by done. cbn [ret snd fst].
  destruct (conclude_complete (St := St) (mf_of P) r Hok Hcomp) as (res' & Hc & Hd' & Ho'). rewrite Hc. unfold ret. repeat f_equal.
  destruct res as [d outs], res' as [d' outs']. cbn in *. f_equal; [congruence|]. rewrite Ho in Ho'.
  clear -Ho'. revert outs' Ho'. induction outs as [|o outs IH]; intros [|o' outs'] E'; try done. injection E' as -> E'. f_equal. by apply IH.
Qed.

(** ** The theorems *)

(** C18. A run comes to an end, and only in a few ways: it returns one outcome per
    call, which the store then holds with the decision, or the process is
    killed, or something it waits for fails (the store refuses, an executor or
    an approver rejects, none is configured for a consent).  The release loop
    never stops with a call left over, never runs out of rounds (one more than
    there are calls), and the run never meets a record it cannot read or a
    manifest of another plan. *)
Theorem run_ends E P w :
  reachable w -> known P ->
  match run E P w with
  | (w', Done res) =>
      length (final_outcomes res) = length (calls P) /\
      exists r, recorded_as P w' r /\ decision r = Some (final_decision res) /\ outcomes r = Some <$> final_outcomes res
  | (_, Threw e) => fatal e = false
  | (_, Killed) => True
  end.
Proof.
  intros Hw HP. destruct (run E P w) as [w' out] eqn:Er.
  destruct (run_all_good any E P w w' out) as [_ Hout]; [done|by apply reachable_good|done|done|].
  destruct out as [res|e|]; [|done..]. destruct Hout as (r & Hr & _ & Hd & Ho). split.
  - pose proof (size_outcomes _ _ (ro_sized _ _ (inv_rec _ _ _ _ _ _ _ Hr))) as Hs. rewrite Ho, length_fmap in Hs. rewrite Hs.
    apply built_length.
  - exists r. split; [apply (inv_read _ _ _ _ _ _ _ Hr)|done].
Qed.

(** A finished batch is only read again: after a run has returned, whatever
    other batches did and however often this plan was run again, a run of the
    plan sends nothing, writes nothing and returns the same result. *)
Theorem finished_batch_replays E E' P w w1 res ops :
  reachable w -> known P -> run E P w = (w1, Done res) -> Forall op_ok ops ->
  let w2 := batch_run w1 ops in
  run E' P w2 = (mkWorld (store w2) (S (clock w2)) (log w2), if e_alive E' (clock w2) then Done res else Killed).
Proof.
  intros Hw HP Er Hops w2. destruct (run_all_good any E P w w1 (Done res)) as [Hg (r & Hr & Hcomp & Hres)]; [done|by apply reachable_good|done|done|].
  assert (reachable w1) as Hw1.
  { destruct Hw as (w0 & ops0 & H0 & Hops0 & ->). exists w0, (ops0 ++ [OpRun E P]). split_and!; [done|by apply Forall_app_2; [|constructor]|].
    unfold batch_run. rewrite fold_left_app. cbn. unfold batch_run in Er. by rewrite Er. }
  destruct (recorded_grows P w1 r ops HP Hw1 (inv_read _ _ _ _ _ _ _ Hr) Hops) as (r2 & Hr2 & Hle & Hok2).
  pose proof (batch_run_good any w1 ops ltac:(done) Hg Hops) as [_ Hg2].
  pose proof (recorded_inv _ _ _ _ (Hg2 P HP) Hr2) as Hinv2. destruct Hres as [Hd Ho].
  assert (outcomes r2 = outcomes r) as Houts.
  { pose proof (size_outcomes _ _ (ro_sized _ _ Hok2)) as Hz2. pose proof (size_outcomes _ _ (ro_sized _ _ (inv_rec _ _ _ _ _ _ _ Hr))) as Hz.
    apply list_eq. intros i. destruct (outcomes r !! i) as [o|] eqn:Ei.
    - rewrite Ho, list_lookup_fmap in Ei. destruct (final_outcomes res !! i) as [o'|] eqn:Eo; [|done]. injection Ei as <-.
      assert (out_of r i = Some o') as Hoi by (unfold out_of; by rewrite Ho, list_lookup_fmap, Eo).
      apply (le_outcome _ _ Hle) in Hoi. unfold out_of in Hoi. destruct (outcomes r2 !! i) as [[]|]; cbn in Hoi; congruence.
    - apply lookup_ge_None in Ei. apply lookup_ge_None. lia. }
  apply (run_complete E' P _ w2 r2 res HP Hinv2).
  - destruct Hcomp as [Hc1 Hc2]. split; [rewrite (le_decision _ _ Hle _ Hd); done|]. intros j Hj. unfold out_of. rewrite Houts. by apply Hc2.
  - split; [by apply (le_decision _ _ Hle)|]. by rewrite Houts.
Qed.

(** C19. Calls are released in order: when the release of a call is sent, the store
    already says that the batch is to be released, that this call was prepared
    and is being released, and that every earlier call separated from it by a
    sequential call, one of the two included, has its outcome.  So nothing runs
    beside a sequential call, in whatever order released calls settle, and over
    any number of crashes. *)
Theorem release_in_order P w i x rf held :
  reachable w -> known P -> Sent (plan_key P) i (MsgRelease x rf) held ∈ log w ->
  exists c r, calls P !! i = Some c /\ x = call_executor c /\ ref_executionId rf = executionId c /\
    held = Ok (Some r) /\ decision r = Some RELEASE /\ rel_of r i = true /\ (exists d, prep_of r i = Some (PreparedReply d)) /\
    forall j k, (j < i)%nat -> (j <= k <= i)%nat -> plan_seqs P !! k = Some true -> out_of r j <> None.
Proof.
  intros Hw HP Hin. destruct (reachable_good w Hw) as [_ Hall].
  destruct (sent_inv _ _ _ _ _ _ (Hall P HP) Hin) as (r & c & r0 & _ & Hc & Hheld & Hok & Hle & -> & -> & Hd & Hrel & Hn).
  destruct (built_calls _ _ _ _ _ _ Hc) as (p & wv & Hp & Hwv & ->). exists p, r0. split_and!; try done.
  - by apply (ro_released _ _ Hok).
  - intros j k Hj Hk Hs. assert (i < length (calls P))%nat as Hi by by eapply lookup_lt_Some.
    destruct (ro_released _ _ Hok i Hrel) as [_ Hwaits]. rewrite deps_built in Hwaits.
    assert (outcome_null (outcomes r0) j = false) as Hnull.
    { apply Hwaits, waits_for_iff. unfold plan_seqs. rewrite length_fmap. split; [lia|]. by exists k. }
    intros Hnone. apply outcome_null_of in Hnone; [congruence|].
    rewrite (size_outcomes _ _ (ro_sized _ _ Hok)). unfold size. rewrite built_length. lia.
Qed.

(** Release and abort exclude each other: a call that is ever released is never
    told to abort, before or after, and once a batch is aborted no call of it
    was or will be released. *)
Theorem released_never_aborted P w i x rf held :
  reachable w -> known P -> Sent (plan_key P) i (MsgRelease x rf) held ∈ log w ->
  (forall x' rf' held', Sent (plan_key P) i (MsgAbort x' rf') held' ∉ log w) /\
  forall r, recorded_as P w r -> decision r = Some RELEASE.
Proof.
  intros Hw HP Hin. destruct (reachable_good w Hw) as [_ Hall].
  destruct (sent_inv _ _ _ _ _ _ (Hall P HP) Hin) as (r & c & r0 & Hinv & Hc & Hheld & Hok & Hle & -> & -> & Hd & Hrel & Hn).
  destruct (ro_released _ _ Hok i Hrel) as [[d Hp] _]. pose proof (le_decision _ _ Hle _ Hd) as Hdr.
  assert (prep_of r i = Some (PreparedReply d)) as Hpr by (by destruct (le_reply _ _ Hle _ _ Hp) as [?|(? & ? & [=] & _)]).
  split.
  - intros x' rf' held' Hin'.
    destruct (sent_inv _ _ _ _ _ _ (Hall P HP) Hin') as (r' & c' & r1 & Hinv' & _ & _ & _ & Hle' & _ & _ & Hwhy).
    assert (r' = r) as -> by (pose proof (inv_read _ _ _ _ _ _ _ Hinv); pose proof (inv_read _ _ _ _ _ _ _ Hinv'); congruence).
    destruct Hwhy as [Ha|[[v Hb]|(d' & Haw & Hcon)]].
    + apply (le_decision _ _ Hle') in Ha. congruence.
    + destruct (le_reply _ _ Hle' _ _ Hb) as [?|(? & ? & [=] & _)]. congruence.
    + destruct (le_reply _ _ Hle' _ _ Haw) as [?|(d2 & a & _ & Hcon2 & Hres)]; [congruence|]. rewrite Hpr in Hres. destruct Hres as [_ ->].
      apply (le_consent _ _ Hle') in Hcon; [|done]. congruence.
  - intros r' Hr'. pose proof (inv_read _ _ _ _ _ _ _ Hinv) as Er. unfold recorded_as in Hr'.
    change (the_key iss (mf_of P)) with (plan_key P) in Er. congruence.
Qed.

(** C20. Consent comes first.  A call is only prepared when the session does not ask
    for consent on it or an approval of this very request is already in the
    store, and the prepare carries the approved digest.  A call is only released when
    its executor was heard to answer the prepare with the digest it is released
    under; or when the executor answered that this frozen call awaits consent, the
    store holds the approval of that frozen digest at the release, and the executor
    was told of it.  And when the store once says that a call awaits consent, at any
    later release it holds an approval of that frozen digest. *)
Theorem consent_before_effects P w i :
  reachable w -> known P ->
  (forall x rq held, Sent (plan_key P) i (MsgPrepare x rq) held ∈ log w ->
   exists c r, calls P !! i = Some c /\ held = Ok (Some r) /\ rq_name rq = call_name c /\ rq_args rq = call_args c /\
     match authorizedDigest rq with
     | Some d => d = request_digest number_text sha256 c /\ con_of r i = Some (mkConsent raw d approved)
     | None => match consent with Some needs => needs (call_name c) (call_args c) = false | None => True end
     end) /\
  (forall x rf held, Sent (plan_key P) i (MsgRelease x rf) held ∈ log w ->
   exists r d, held = Ok (Some r) /\ prep_of r i = Some (PreparedReply d) /\
     (Answered (plan_key P) i (PreparedReply d) ∈ log w \/
      Answered (plan_key P) i (AwaitingReply d) ∈ log w /\ con_of r i = Some (mkConsent frozen_gate d approved) /\
      exists x' rf' held', Sent (plan_key P) i (MsgConsent x' rf' d) held' ∈ log w)) /\
  forall r1 d ops x rf held, recorded_as P w r1 -> prep_of r1 i = Some (AwaitingReply d) -> Forall op_ok ops ->
    Sent (plan_key P) i (MsgRelease x rf) held ∈ log (batch_run w ops) ->
    exists r2, recorded_as P (batch_run w ops) r2 /\ con_of r2 i = Some (mkConsent frozen_gate d approved).
Proof.
  intros Hw HP. pose proof (reachable_good w Hw) as Hg. split_and!.
  - intros x rq held Hin. destruct (sent_inv _ _ _ _ _ _ (proj2 Hg P HP) Hin) as (r & c & r0 & _ & Hc & Hheld & _ & _ & _ & Hrq & _ & _ & _ & Hauth).
    destruct (built_calls _ _ _ _ _ _ Hc) as (p & wv & Hp & Hwv & ->). exists p, r0. rewrite Hrq. by split_and!.
  - intros x rf held Hin.
    destruct (sent_inv _ _ _ _ _ _ (proj2 Hg P HP) Hin) as (r & c & r0 & Hinv & _ & -> & Hok0 & Hle & _ & _ & Hdec & Hrel & _).
    destruct (ro_released _ _ Hok0 i Hrel) as [[d Hp0] _]. exists r0, d. split_and!; [done|done|].
    assert (Hp : prep_of r i = Some (PreparedReply d)) by (by destruct (le_reply _ _ Hle _ _ Hp0) as [?|(? & ? & [=] & _)]).
    destruct (proj1 (inv_prepared _ _ _ _ _ _ _ Hinv i d) Hp) as [?|(Ha & Hcon & Hs)]; [by left|right].
    split_and!; [done| |done]. unfold con_of in *. by rewrite <- (le_decided _ _ Hle) by congruence.
  - intros r1 d ops x rf held Hr1 Haw Hops Hin.
    destruct (recorded_grows P w r1 ops HP Hw Hr1 Hops) as (r2 & Hr2 & Hle & Hok2). exists r2. split; [done|].
    pose proof (batch_run_good any w ops ltac:(done) Hg Hops) as [_ Hg2].
    destruct (sent_inv _ _ _ _ _ _ (Hg2 P HP) Hin) as (r & c & r0 & Hinv & _ & _ & Hok0 & Hle0 & _ & _ & _ & Hrel & _).
    assert (r = r2) as -> by (pose proof (inv_read _ _ _ _ _ _ _ Hinv) as Er; change (the_key iss (mf_of P)) with (plan_key P) in Er; unfold recorded_as in Hr2; congruence).
    destruct (ro_released _ _ Hok0 i Hrel) as [[d' Hp0] _].
    assert (prep_of r2 i = Some (PreparedReply d')) as Hp2 by (by destruct (le_reply _ _ Hle0 _ _ Hp0) as [?|(? & ? & [=] & _)]).
    destruct (le_reply _ _ Hle _ _ Haw) as [?|(d2 & a & [= <-] & Hcon & Hres)]; [congruence|]. rewrite Hp2 in Hres. by destruct Hres as [_ ->].
Qed.

(** Where an outcome comes from, and that it is final.  What the store says of a
    call at one moment it says at every later one; an outcome is how the call
    settled at its preparation, its block, the abort of its batch with the
    batch's cause, or, for a released call, what its executor was heard to
    answer. *)
Theorem outcomes_final P w r ops i o :
  reachable w -> known P -> recorded_as P w r -> Forall op_ok ops -> out_of r i = Some o ->
  match prep_of r i with
  | Some (SettledReply out) => o = settledOutcome (Settlement out)
  | Some (BlockedReply v) => o = CallBlocked v
  | Some (PreparedReply _) =>
      decision r = Some ABORT /\ o = CallNotRun (batch_cause r) \/
      decision r = Some RELEASE /\ exists reply, Heard (plan_key P) i reply ∈ log w /\ o = settledOutcome reply
  | _ => decision r = Some ABORT /\ o = CallNotRun (batch_cause r)
  end /\
  exists r', recorded_as P (batch_run w ops) r' /\ out_of r' i = Some o /\ decision r' = decision r.
Proof.
  intros Hw HP Hr Hops Ho. pose proof (reachable_good w Hw) as Hg. pose proof (recorded_inv _ _ _ _ (proj2 Hg P HP) Hr) as Hinv.
  pose proof (inv_rec _ _ _ _ _ _ _ Hinv) as Hok. assert (decision r <> None) as Hd.
  { intros Hd. destruct (ro_open _ _ Hok Hd i) as [? _]. congruence. }
  split.
  - pose proof (ro_outcome _ _ Hok i o Ho) as Hfrom. unfold outcome_from in Hfrom.
    destruct (prep_of r i) as [[d|d|v| |out]|] eqn:Ep; try done; destruct (decision r) as [[]|] eqn:Ed; try done.
    all: try (by split). all: try (left; by split).
    + right. split; [done|]. by apply (inv_heard _ _ _ _ _ _ _ Hinv i o d).
    + by destruct (ro_released _ _ Hok i Hfrom) as [[d' ?] _]; congruence.
    + by destruct (ro_released _ _ Hok i Hfrom) as [[d' ?] _]; congruence.
    + by destruct (ro_released _ _ Hok i Hfrom) as [[d' ?] _]; congruence.
  - destruct (recorded_grows P w r ops HP Hw Hr Hops) as (r' & Hr' & Hle & _). exists r'. split_and!; [done|by apply (le_outcome _ _ Hle)|].
    destruct (decision r) eqn:Ed; [by apply (le_decision _ _ Hle)|done].
Qed.

(** ** One call at a time *)

(** A run only adds entries of its own batch to the log. *)
Lemma run_log E P w w' out :
  reachable w -> known P -> run E P w = (w', out) ->
  exists l, log w' = log w ++ l /\ Forall (fun e => entry_key e = plan_key P) l.
Proof.
  intros Hw HP Er. pose (F := fun v : world (St := St) => exists l, log v = log w ++ l /\ Forall (fun e => entry_key e = plan_key P) l).
  assert (F w) as HF by (exists []; by rewrite app_nil_r).
  pose proof (t_run_manifest E iss consent (mf_of P) (built_wf P (known_ok P HP)) (fun _ => True) ltac:(done) ltac:(done) F) as Ht.
  specialize (Ht ltac:(intros v s t l (l0 & El & Hl0) _ _ Hl; exists (l0 ++ l); cbn [log]; rewrite El, <- app_assoc; split; [done|by apply Forall_app_2]) w).
  specialize (Ht (proj2 (good_frame (fun _ => True) F P w) (conj (proj2 (reachable_good w Hw) P HP) HF))).
  change (run_manifest E iss consent (mf_of P) w) with (run E P w) in Ht. rewrite Er in Ht.
  destruct out as [res|e|].
  - destruct Ht as (r & Hr & _). apply (inv_frame _ _ _ _ _ _ _ Hr).
  - destruct Ht as [Hg _]. by apply good_frame in Hg as [_ ?].
  - by apply good_frame in Ht as [_ ?].
Qed.

(** Call [i] ran to its outcome in a batch of its own. *)
Definition single_done (plan : BatchPlan) (i : nat) (o : CallOutcome) (d : BatchDecision) (cause : AbortCause) w : Prop :=
  exists c r, calls plan !! i = Some c /\ recorded_as (single_plan plan i c) w r /\
    outcomes r = [Some o] /\ decision r = Some d /\ batch_cause r = cause.

(** The cause the later calls inherit is the batch's own. *)
Lemma inherited_is_own P r o :
  rec_ok (mf_of P) r -> size (mf_of P) = 1%nat -> decision r = Some ABORT -> outcomes r = [Some o] -> inheritedCause (Some o) = batch_cause r.
Proof.
  intros Hok Hsize Hd Ho. destruct (ro_abort _ _ Hok Hd) as [Hab _]. pose proof (ro_outcome _ _ Hok 0%nat o) as Hfrom.
  unfold outcome_from, out_of in Hfrom. rewrite Ho, Hd in Hfrom. specialize (Hfrom eq_refl).
  pose proof (size_prepares _ _ (ro_sized _ _ Hok)) as Hp. rewrite Hsize in Hp. unfold any_abort in Hab. unfold batch_cause in *. unfold prep_of in Hfrom.
  destruct (prepares r) as [|p [|? ?]]; try done. cbn in *. rewrite orb_false_r in Hab.
  destruct p as [[d|d|v| |[v h|v h|reason h u]]|]; cbn in *; try done; by subst o.
Qed.

Lemma reachable_step w op : reachable w -> op_ok op -> reachable (batch_step w op).
Proof.
  intros (w0 & ops & H0 & Hops & ->) Hop. exists w0, (ops ++ [op]). split_and!; [done|by apply Forall_app_2; [|constructor]|].
  unfold batch_run. by rewrite fold_left_app.
Qed.

Lemma single_done_stays plan i o d cause w op :
  (forall i c, calls plan !! i = Some c -> known (single_plan plan i c)) ->
  reachable w -> op_ok op -> single_done plan i o d cause w -> single_done plan i o d cause (batch_step w op).
Proof.
  intros Hknown Hw Hop (c & r & Hc & Hr & Ho & Hd & Hcause).
  assert (known (single_plan plan i c)) as HP by by apply Hknown.
  destruct (recorded_grows _ w r [op] HP Hw Hr) as (r' & Hr' & Hle & Hok'); [by constructor|]. exists c, r'. split; [done|]. split; [exact Hr'|].
  pose proof (recorded_inv _ _ _ _ (proj2 (reachable_good w Hw) _ HP) Hr) as Hinv. pose proof (inv_rec _ _ _ _ _ _ _ Hinv) as Hok.
  assert (size (mf_of (single_plan plan i c)) = 1%nat) as Hsize by (unfold size; by rewrite built_length).
  assert (outcomes r' = [Some o]) as Ho'.
  { pose proof (size_outcomes _ _ (ro_sized _ _ Hok')) as Hz. rewrite Hsize in Hz.
    pose proof (le_outcome _ _ Hle 0%nat o) as Hl. unfold out_of in Hl. rewrite Ho in Hl. specialize (Hl eq_refl).
    destruct (outcomes r') as [|x [|? ?]]; try done. cbn in Hl. by rewrite Hl. }
  pose proof (le_decision _ _ Hle _ Hd) as Hd'. split_and!; [done|done|].
  rewrite <- Hcause. pose proof (size_prepares _ _ (ro_sized _ _ Hok)) as Hz. pose proof (size_prepares _ _ (ro_sized _ _ Hok')) as Hz'.
  rewrite Hsize in Hz, Hz'. unfold batch_cause. destruct d.
  - (* a released batch has no cause *)
    destruct (ro_release _ _ Hok Hd 0%nat) as (p & Hp & Hna & _); [lia|]. destruct (ro_release _ _ Hok' Hd' 0%nat) as (p' & Hp' & Hna' & _); [lia|].
    unfold prep_of in *. destruct (prepares r) as [|x [|? ?]], (prepares r') as [|x' [|? ?]]; try done. cbn in *. subst x x'. cbn. by rewrite Hna, Hna'.
  - destruct (ro_abort _ _ Hok Hd) as [Hab _]. unfold any_abort in Hab. pose proof (le_reply _ _ Hle 0%nat) as Hl. unfold prep_of in Hl.
    destruct (prepares r) as [|x [|? ?]]; try done. destruct (prepares r') as [|x' [|? ?]] eqn:Ep'; try done. cbn in *.
    destruct x as [p|]; [|done]. destruct (Hl p eq_refl) as [Hsame|(d2 & a & -> & _)]; [|done]. unfold prep_of in Hsame. rewrite Ep' in Hsame. cbn in Hsame. by subst x'.
Qed.

Lemma run_each_spec E plan cs : forall index outs w w' out,
  (forall i c, calls plan !! i = Some c -> known (single_plan plan i c)) ->
  reachable w -> drop index (calls plan) = cs -> (index <= length (calls plan))%nat -> length outs = index ->
  (forall i, (i < index)%nat -> exists o cause, outs !! i = Some o /\ single_done plan i o RELEASE cause w) ->
  run_each number_text sha256 E iss consent plan index outs cs w = (w', out) ->
  (exists ls, log w' = log w ++ concat ls /\ forall j l, ls !! j = Some l ->
     exists c, calls plan !! (index + j)%nat = Some c /\ Forall (fun e => entry_key e = plan_key (single_plan plan (index + j) c)) l) /\
  match out with
  | Done res =>
      length (final_outcomes res) = length (calls plan) /\ exists k, (k <= length (calls plan))%nat /\
      (forall i, (i < k)%nat -> exists o cause, final_outcomes res !! i = Some o /\ single_done plan i o RELEASE cause w') /\
      match final_decision res with
      | RELEASE => k = length (calls plan)
      | ABORT => exists o cause, final_outcomes res !! k = Some o /\ single_done plan k o ABORT cause w' /\
          forall j, (k < j < length (calls plan))%nat -> final_outcomes res !! j = Some (CallNotRun cause)
      end
  | _ => True
  end.
Proof.
  induction cs as [|c cs IH]; intros index outs w w' out Hknown Hw Hdrop Hbound Hlen Hpre Er; cbn [run_each] in Er.
  { injection Er as <- <-. split; [exists []; cbn; by rewrite app_nil_r|]. cbn [final_outcomes final_decision].
    assert (length (calls plan) <= index)%nat as Hle by (apply (f_equal length) in Hdrop; rewrite length_drop in Hdrop; cbn in Hdrop; lia).
    split; [lia|]. exists index. split_and!; [done|done|lia]. }
  assert (calls plan !! index = Some c) as Hc by (rewrite <- (Nat.add_0_r index), <- lookup_drop, Hdrop; done).
  assert (drop (S index) (calls plan) = cs) as Hdrop' by (by apply drop_S in Hc; congruence).
  pose proof (lookup_lt_Some _ _ _ Hc) as Hlt. pose proof (Hknown _ _ Hc) as HP. unfold bind in Er.
  destruct (run E (single_plan plan index c) w) as [w1 o1] eqn:E1. destruct (run_log _ _ _ _ _ Hw HP E1) as (l & El & Hl).
  assert (w1 = batch_step w (OpRun E (single_plan plan index c))) as Ew1 by (cbn; by rewrite E1).
  assert (reachable w1) as Hw1 by (rewrite Ew1; by apply reachable_step).
  assert (exists ls, log w1 = log w ++ concat ls /\ forall j l, ls !! j = Some l ->
     exists c, calls plan !! (index + j)%nat = Some c /\ Forall (fun e => entry_key e = plan_key (single_plan plan (index + j) c)) l) as Hls1.
  { exists [l]. cbn. rewrite app_nil_r. split; [done|]. intros [|j] l' [= <-]. rewrite Nat.add_0_r. by exists c. }
  destruct o1 as [single|e|]; [|by injection Er as <- <-..].
  destruct (run_all_good any E (single_plan plan index c) w w1 (Done single)) as [_ (r & Hr & _ & Hd & Ho)]; [done|by apply reachable_good|done|done|].
  pose proof (inv_rec _ _ _ _ _ _ _ Hr) as Hok. pose proof (size_outcomes _ _ (ro_sized _ _ Hok)) as Hz.
  assert (size (mf_of (single_plan plan index c)) = 1%nat) as Hsize by (unfold size; by rewrite built_length).
  rewrite Ho, length_fmap, Hsize in Hz. destruct single as [d fo]. cbn [final_outcomes final_decision] in *.
  destruct fo as [|o [|? ?]]; try done. cbn in Ho.
  assert (single_done plan index o d (batch_cause r) w1) as Hdone.
  { exists c, r. split_and!; try done. apply (inv_read _ _ _ _ _ _ _ Hr). }
  assert (forall i, (i < index)%nat -> exists o cause, outs !! i = Some o /\ single_done plan i o RELEASE cause w1) as Hpre1.
  { intros i Hi. destruct (Hpre i Hi) as (oi & ci & Hoi & Hdi). exists oi, ci. split; [done|]. rewrite Ew1. by apply single_done_stays. }
  destruct d.
  - destruct (IH (S index) (outs ++ [o]) w1 w' out) as [(ls & Els & Hls) Hout]; [done|done|done|lia|rewrite length_app; cbn; lia| |done|].
    { intros i Hi. destruct (decide (i = index)) as [->|Hne].
      - exists o, (batch_cause r). split; [|done]. by rewrite <- Hlen, list_lookup_middle.
      - destruct (Hpre1 i) as (oi & ci & Hoi & Hdi); [lia|]. exists oi, ci. split; [|done]. by apply lookup_app_l_Some. }
    split; [|done]. exists (l :: ls). cbn. rewrite Els, El, <- app_assoc. split; [done|]. intros [|j] l' Hj.
    + injection Hj as <-. rewrite Nat.add_0_r. by exists c.
    + rewrite Nat.add_succ_r. by apply (Hls j l').
  - assert (out = Done (mkResult ABORT ((outs ++ [o]) ++ ((fun _ => CallNotRun (batch_cause r)) <$> cs))) /\ w' = w1) as [-> ->].
    { rewrite <- (inherited_is_own (single_plan plan index c) r o) by done. by injection Er as <- <-. }
    split; [done|]. cbn [final_outcomes final_decision].
    assert (length cs = length (calls plan) - S index)%nat as Hcs by (rewrite <- Hdrop', length_drop; done).
    split; [rewrite !length_app, length_fmap; cbn; lia|]. exists index. split; [lia|]. split.
    + intros i Hi. destruct (Hpre1 i Hi) as (oi & ci & Hoi & Hdi). exists oi, ci. split; [|done].
      apply lookup_app_l_Some. by apply lookup_app_l_Some.
    + exists o, (batch_cause r). split_and!; [|done|].
      * apply lookup_app_l_Some. by rewrite <- Hlen, list_lookup_middle.
      * intros j Hj. rewrite lookup_app_r by (rewrite length_app; cbn; lia). rewrite list_lookup_fmap.
        destruct (lookup_lt_is_Some_2 cs (j - length (outs ++ [o]))) as [cj ->]; [rewrite length_app; cbn; lia|done].
Qed.

(** Sequential mode runs one call after the other: the messages of a call's
    batch all come after those of the calls before it.  When the run returns,
    every call has an outcome, that of its own batch, up to the first call whose
    batch is aborted; the calls after it are never prepared and are reported
    not run with the cause of that batch. *)
Theorem sequential_run E plan w w' out :
  reachable w -> (forall i c, calls plan !! i = Some c -> known (single_plan plan i c)) ->
  run_sequential number_text sha256 E iss consent plan w = (w', out) ->
  (exists ls, log w' = log w ++ concat ls /\ forall i l, ls !! i = Some l ->
     exists c, calls plan !! i = Some c /\ Forall (fun e => entry_key e = plan_key (single_plan plan i c)) l) /\
  match out with
  | Done res =>
      length (final_outcomes res) = length (calls plan) /\ exists k, (k <= length (calls plan))%nat /\
      (forall i, (i < k)%nat -> exists o cause, final_outcomes res !! i = Some o /\ single_done plan i o RELEASE cause w') /\
      match final_decision res with
      | RELEASE => k = length (calls plan)
      | ABORT => exists o cause, final_outcomes res !! k = Some o /\ single_done plan k o ABORT cause w' /\
          forall j, (k < j < length (calls plan))%nat -> final_outcomes res !! j = Some (CallNotRun cause)
      end
  | _ => True
  end.
Proof.
  intros Hw Hknown Er. apply (run_each_spec E plan (calls plan) 0 [] w w' out); [done|done|done|lia|done|intros i Hi; lia|done].
Qed.
End Histories.

(** ** On the memory store *)

Definition sample_text (f : num) : jstring := $"0".
Definition sample_sha (b : bytes) : bytes := firstn 4 b.
Definition sample_needs : option (jstring -> json -> bool) := Some (fun name _ => bool_decide (name = $"rm")).

Definition sample_call (id name : jstring) (seq : bool) : BatchCallPlan := mkCallPlan id $"hand" name JsNull seq.
Definition sample_header : BatchHeader := mkHeader $"b" $"s" $"/w" (of_Z 1) (of_Z 10) (of_Z 1000).
Definition sample_plan : BatchPlan :=
  mkPlan sample_header [sample_call $"c0" $"ls" false; sample_call $"c1" $"rm" true; sample_call $"c2" $"ls" false].

Definition sample_known (P : BatchPlan) : Prop :=
  P = sample_plan \/ exists i c, calls sample_plan !! i = Some c /\ P = single_plan sample_plan i c.

(** The executor asks again for the frozen call that needs consent; everything is
    approved; the process lives for [n] moments. *)
Definition sample_env (n : nat) : env :=
  mkEnv 1 (fun t => (t <? n)%nat) (fun t => [Z.of_nat t]) (fun t p => false) (fun _ => true) (fun _ => true)
    (fun t x rq => Some (if bool_decide (rq_name rq = $"rm") then AwaitingReply $"f" else PreparedReply $"f"))
    (fun t x rf => Some UnknownExecution)
    (fun t x rf d => Some ConsentPrepared)
    (fun t rq => Some approved)
    (fun t l => (t, Some (Settlement (ResultOutcome (JsStr $"ok") true)))).

Definition sample_world : world := mkWorld (mkMedium 1 [] []) 0 [].

Notation sample_run n w := (run sample_text sample_sha (sample_env n) $"host" sample_needs sample_plan w).

(** The first run dies while it prepares, the second one finishes. *)
Notation sample_step w op := (batch_step sample_text sample_sha $"host" sample_needs w op).
Definition crashed : world := sample_step sample_world (OpRun (sample_env 9) sample_plan).
Notation finished_world := (batch_run sample_text sample_sha $"host" sample_needs crashed [OpRun (sample_env 1000) sample_plan]).

Lemma sample_known_ok P : sample_known P -> plan_ok P.
Proof. by intros [->|(i & c & _ & ->)]. Qed.

Lemma sample_ids i c i' c' :
  calls sample_plan !! i = Some c -> calls sample_plan !! i' = Some c' ->
  batchId (header (single_plan sample_plan i c)) <> $"b" /\
  (batchId (header (single_plan sample_plan i c)) = batchId (header (single_plan sample_plan i' c')) -> i = i').
Proof. destruct i as [|[|[|i]]], i' as [|[|[|i']]]; try done; by split. Qed.

Lemma sample_known_unique P P' : sample_known P -> sample_known P' -> batchId (header P) = batchId (header P') -> P = P'.
Proof.
  intros [->|(i & c & Hc & ->)] [->|(i' & c' & Hc' & ->)] E; [done|..].
  - by destruct (sample_ids i' c' i' c' Hc' Hc').
  - by destruct (sample_ids i c i c Hc Hc).
  - apply (sample_ids i c i' c' Hc Hc') in E as <-. by rewrite Hc in Hc'; injection Hc' as ->.
Qed.

Notation sample_reachable := (reachable sample_text sample_sha $"host" sample_needs sample_known).

Lemma sample_start : starting $"host" sample_known sample_world.
Proof. split; [split; [done|done|constructor|constructor]|]. by split. Qed.

Lemma start_reachable : sample_reachable sample_world.
Proof. exists sample_world, []. split; [apply sample_start|by split]. Qed.

Lemma crashed_reachable : sample_reachable crashed.
Proof.
  exact (reachable_step _ _ _ _ sample_known sample_world (OpRun (sample_env 9) sample_plan) start_reachable (or_introl eq_refl)).
Qed.

Lemma finished_reachable : sample_reachable finished_world.
Proof.
  exact (reachable_step _ _ _ _ sample_known crashed (OpRun (sample_env 1000) sample_plan) crashed_reachable (or_introl eq_refl)).
Qed.

Definition is_done {A} (x : world (St := MediumState) * ending A) : bool := match x.2 with Done _ => true | _ => false end.

Lemma run_ends_witness :
  is_done (sample_run 9 sample_world) = false /\ is_done (sample_run 1000 crashed) = true /\
  match sample_run 1000 crashed with
  | (w', Done res) =>
      length (final_outcomes res) = length (calls sample_plan) /\
      exists r, recorded_as $"host" sample_plan w' r /\ decision r = Some (final_decision res) /\ outcomes r = Some <$> final_outcomes res
  | (_, Threw e) => fatal e = false
  | (_, Killed) => True
  end.
Proof.
  split; [by vm_compute|]. split; [by vm_compute|].
  exact (run_ends sample_text sample_sha $"host" sample_needs sample_known sample_known_ok sample_known_unique
    (sample_env 1000) sample_plan crashed crashed_reachable (or_introl eq_refl)).
Defined.

Definition sends (f : message -> bool) (k : jstring) (i : nat) (l : list log_entry) : bool :=
  existsb (fun e => match e with Sent k' i' m _ => bool_decide (k' = k) && (i' =? i)%nat && f m | _ => false end) l.

Lemma sends_in f k i l : sends f k i l = true -> exists m held, Sent k i m held ∈ l /\ f m = true.
Proof.
  unfold sends. rewrite existsb_exists. intros ([k' i' m held| |] & Hin & He); [|done..].
  apply andb_prop in He as [[->%bool_decide_eq_true ->%Nat.eqb_eq]%andb_prop Hf]. exists m, held. split; [by apply list_elem_of_In|done].
Qed.

Definition is_release (m : message) : bool := match m with MsgRelease _ _ => true | _ => false end.
Definition is_prepare (m : message) : bool := match m with MsgPrepare _ _ => true | _ => false end.

Notation sample_key := (plan_key $"host" sample_plan).

Lemma released_sample i : (i < 3)%nat -> exists x rf held, Sent sample_key i (MsgRelease x rf) held ∈ log finished_world.
Proof.
  intros Hi. assert (sends is_release sample_key i (log finished_world) = true) as Hs.
  { destruct i as [|[|[|i]]]; [by vm_compute..|lia]. }
  apply sends_in in Hs as (m & held & Hin & Hm). destruct m as [| | | |x rf]; try done. by exists x, rf, held.
Qed.

Lemma finished_batch_replays_witness :
  exists res, let w2 := batch_run sample_text sample_sha $"host" sample_needs finished_world [] in
  sample_run 2000 w2 = (mkWorld (store w2) (S (clock w2)) (log w2), if e_alive (sample_env 2000) (clock w2) then Done res else Killed).
Proof.
  assert (is_done (sample_run 1000 crashed) = true) as Hd by (by vm_compute).
  destruct (sample_run 1000 crashed) as [w1 out] eqn:E. destruct out as [res| |]; [|done..]. exists res.
  assert (finished_world = w1) as -> by (unfold batch_run; cbn [fold_left]; unfold batch_step; by rewrite E).
  exact (finished_batch_replays sample_text sample_sha $"host" sample_needs sample_known sample_known_ok sample_known_unique
    (sample_env 1000) (sample_env 2000) sample_plan crashed w1 res []
    crashed_reachable (or_introl eq_refl) E (Forall_nil_2 _)).
Defined.

Lemma release_in_order_witness :
  exists r, decision r = Some RELEASE /\ rel_of r 2 = true /\ out_of r 1 <> None.
Proof.
  destruct (released_sample 2) as (x & rf & held & Hin); [lia|].
  destruct (release_in_order sample_text sample_sha $"host" sample_needs sample_known sample_known_ok sample_known_unique
    sample_plan finished_world 2%nat x rf held finished_reachable (or_introl eq_refl) Hin)
    as (c & r & _ & _ & _ & _ & Hd & Hr & _ & Hord). exists r. split; [done|]. split; [done|].
  apply (Hord 1%nat 1%nat); [lia..|by vm_compute].
Defined.

(** The record after the first run: the call that needs consent was answered. *)
Definition record_of (w : world) : option BatchRecord :=
  match read_batch (store w) sample_key with Ok r => r | Err _ => None end.

Lemma record_of_spec w r : record_of w = Some r -> recorded_as $"host" sample_plan w r.
Proof. unfold record_of, recorded_as. by destruct (read_batch _ _) as [[]|]; intros [= ->]. Qed.

Definition waits_sample (w : world) : bool :=
  match record_of w with Some r => match prep_of r 1 with Some (AwaitingReply _) => true | _ => false end | None => false end.

Lemma waits_sample_spec w : waits_sample w = true -> exists r d, recorded_as $"host" sample_plan w r /\ prep_of r 1 = Some (AwaitingReply d).
Proof.
  unfold waits_sample. destruct (record_of w) as [r|] eqn:E1; [|done]. destruct (prep_of r 1) as [[d'|d|v| |o]|] eqn:Ep; try done.
  exists r, d. split; [by apply record_of_spec|done].
Qed.

Lemma sample_ops : Forall (op_ok sample_known) [OpRun (sample_env 1000) sample_plan].
Proof. constructor; [by left|done]. Qed.

(** The call that was asked about is released under the digest its executor froze. *)
Lemma consent_before_effects_witness :
  (exists r d, prep_of r 1 = Some (PreparedReply d) /\
     (Answered sample_key 1%nat (PreparedReply d) ∈ log finished_world \/ con_of r 1 = Some (mkConsent frozen_gate d approved))) /\
  exists r2 d, recorded_as $"host" sample_plan finished_world r2 /\ con_of r2 1 = Some (mkConsent frozen_gate d approved).
Proof.
  destruct (released_sample 1) as (x & rf & held & Hin); [lia|]. split.
  - destruct (proj1 (proj2 (consent_before_effects sample_text sample_sha $"host" sample_needs sample_known sample_known_ok sample_known_unique
      sample_plan finished_world 1%nat finished_reachable (or_introl eq_refl))) x rf held Hin)
      as (r & d & _ & Hp & [Ha|(_ & Hc & _)]); exists r, d; (split; [exact Hp|]); [by left|by right].
  - assert (waits_sample crashed = true) as Hw by (by vm_compute). destruct (waits_sample_spec _ Hw) as (r1 & d & Hr1 & Hp).
    destruct (proj2 (proj2 (consent_before_effects sample_text sample_sha $"host" sample_needs sample_known sample_known_ok sample_known_unique
      sample_plan crashed 1%nat crashed_reachable (or_introl eq_refl)))
      r1 d [OpRun (sample_env 1000) sample_plan] x rf held Hr1 Hp sample_ops Hin)
      as (r2 & Hr2 & Hc). exists r2, d. split; [exact Hr2|exact Hc].
Defined.

Definition done_sample (w : world) : bool :=
  match record_of w with
  | Some r => match prep_of r 2, out_of r 2, decision r with Some (PreparedReply _), Some _, Some RELEASE => true | _, _, _ => false end
  | None => false
  end.

Lemma done_sample_spec w : done_sample w = true -> exists r d o, recorded_as $"host" sample_plan w r /\
  prep_of r 2 = Some (PreparedReply d) /\ out_of r 2 = Some o /\ decision r = Some RELEASE.
Proof.
  unfold done_sample. destruct (record_of w) as [r|] eqn:E1; [|done]. destruct (prep_of r 2) as [[d|d|v| |o]|] eqn:Ep; try done.
  destruct (out_of r 2) as [o|] eqn:Eo; [|done]. destruct (decision r) as [[]|] eqn:Ed; try done.
  exists r, d, o. split; [by apply record_of_spec|done].
Qed.

Lemma released_never_aborted_witness :
  exists x rf held r, Sent sample_key 0%nat (MsgAbort x rf) held ∉ log finished_world /\
    recorded_as $"host" sample_plan finished_world r /\ decision r = Some RELEASE.
Proof.
  destruct (released_sample 0) as (x & rf & held & Hin); [lia|].
  assert (done_sample finished_world = true) as Hw by (by vm_compute). destruct (done_sample_spec _ Hw) as (r & _ & _ & Hr & _).
  destruct (released_never_aborted sample_text sample_sha $"host" sample_needs sample_known sample_known_ok sample_known_unique
    sample_plan finished_world 0%nat x rf held finished_reachable (or_introl eq_refl) Hin) as [Hno Hrel].
  exists x, rf, held, r. split; [apply Hno|]. split; [exact Hr|by apply Hrel].
Defined.

Lemma outcomes_final_witness :
  exists r o, recorded_as $"host" sample_plan finished_world r /\ out_of r 2 = Some o /\
    exists reply, Heard sample_key 2%nat reply ∈ log finished_world /\ o = settledOutcome reply.
Proof.
  assert (done_sample finished_world = true) as Hw by (by vm_compute). destruct (done_sample_spec _ Hw) as (r & d & o & Hr & Hp & Ho & Hd).
  pose proof (proj1 (outcomes_final sample_text sample_sha $"host" sample_needs sample_known sample_known_ok sample_known_unique
    sample_plan finished_world r [] 2%nat o finished_reachable (or_introl eq_refl) Hr (Forall_nil_2 _) Ho)) as Hex.
  rewrite Hp, Hd in Hex. exists r, o. split; [exact Hr|]. split; [exact Ho|].
  destruct Hex as [[[=] _]|[_ Hex]]. exact Hex.
Defined.

Lemma sequential_run_witness :
  match run_sequential sample_text sample_sha (sample_env 1000) $"host" sample_needs sample_plan sample_world with
  | (_, Done res) => length (final_outcomes res) = 3%nat
  | _ => False
  end.
Proof.
  assert (is_done (run_sequential sample_text sample_sha (sample_env 1000) $"host" sample_needs sample_plan sample_world) = true) as Hd by (by vm_compute).
  destruct (run_sequential _ _ _ _ _ _ _) as [w' out] eqn:E. destruct out as [res| |]; [|done..].
  destruct (sequential_run sample_text sample_sha $"host" sample_needs sample_known sample_known_ok sample_known_unique
    (sample_env 1000) sample_plan sample_world w' (Done res) start_reachable) as [_ [Hl _]]; [|exact E|exact Hl].
  intros i c Hc. right. exists i, c. split; [exact Hc|reflexivity].
Defined.
