(* ===== verification/Messages.v ===== *)
(** * Messages and the model's context (packages/agent/src/harness: messages.ts, session/context.ts; packages/ai/src/utils/drop-failed-assistant-turns.ts)

The messages of a session, what of them is sent to a model, and the context a
session path stands for.  A failed assistant turn is never sent; the lemmas say
when requests built from a growing history extend each other, and give the case
where they do not. *)
From S2P Require Import Prelude JsString JsonText JsNumber JsObject Json Ledger.
#[local] Open Scope Z_scope.

(** ** Data *)

Record ContextUsage := mkContextUsage { cu_input : num; cu_output : num }.

Record Usage := mkUsage {
  contextUsage : option (option ContextUsage);
  u_input : num; u_output : num; cacheRead : num; cacheWrite : num;
  cacheWrite1h : option num; reasoning : option num; totalTokens : num;
  cost : num * num * num * num * num; costUnknown : bool }.

Inductive ContentBlock :=
| TextBlock (text : jstring)
| ImageBlock (data : jstring)
| ThinkingBlock (thinking : jstring)
| ToolCallBlock (id name : jstring) (arguments : json)
| NativeBlock (data : json).

Inductive Content := ContentText (text : jstring) | ContentBlocks (blocks : list ContentBlock).

(** A tool as it is declared to the model. *)
Record Tool := mkTool {
  t_name : jstring; t_description : jstring; t_parameters : json; t_freeform : option json; t_sampling : option json }.

(** A system message: its instructions and the tools that become and stop being available there. *)
Record SystemMessage := mkSystem { sm_content : json; toolsAdded : list Tool; toolsRemoved : list jstring }.

Inductive StopDetails := RefusalStop | SensitiveStop.

Inductive MsgStop := StopPending | StopEnd | StopLength | StopToolUse | StopError | StopAborted | StopDeferred.

Record AssistantMsg := mkAssistant { a_content : list ContentBlock; a_stop : MsgStop; a_usage : option Usage; a_error : option jstring; a_details : option StopDetails }.

Record BashExecution := mkBash {
  bash_command : jstring; bash_output : jstring; exitCode : option num; bash_cancelled : bool; bash_truncated : bool;
  fullOutputPath : option jstring; excludeFromContext : bool }.

(** A message and when it was made; [OtherMsg] is any other role. *)
Inductive MsgBody :=
| SystemMsg (s : SystemMessage)
| UserMsg (content : Content)
| AssistantBody (a : AssistantMsg)
| ToolResultMsg (toolCallId : jstring) (content : Content)
| BashMsg (b : BashExecution)
| CustomMsg (content : Content)
| BranchSummaryMsg (summary : jstring) (fromId : option jstring)
| CompactionSummaryMsg (summary : jstring) (tokensBefore : num)
| OtherMsg (role : jstring).

Record AgentMessage := mkMessage { body : MsgBody; m_timestamp : num }.

(** ** Dropping failed turns (drop-failed-assistant-turns.ts) *)

Definition isFailedStop (s : MsgStop) : bool := match s with StopError | StopAborted => true | _ => false end.

Definition call_ids (blocks : list ContentBlock) : list jstring :=
  omap (fun b => match b with ToolCallBlock id _ _ => Some id | _ => None end) blocks.

Definition declared_by (failed : bool) (m : AgentMessage) : list jstring :=
  match body m with
  | AssistantBody a => if Bool.eqb (isFailedStop (a_stop a)) failed then call_ids (a_content a) else []
  | _ => []
  end.

(** The ids declared by failed assistants only. *)
Definition dropped_ids (messages : list AgentMessage) : gset jstring :=
  list_to_set (messages ≫= declared_by true) ∖ list_to_set (messages ≫= declared_by false).

Definition survives (dropped : gset jstring) (m : AgentMessage) : bool :=
  match body m with
  | AssistantBody a => negb (isFailedStop (a_stop a))
  | ToolResultMsg id _ => negb (bool_decide (id ∈ dropped))
  | _ => true
  end.

Definition dropFailedAssistantTurns (messages : list AgentMessage) : list AgentMessage :=
  List.filter (survives (dropped_ids messages)) messages.

(** ** What a model is sent (messages.ts) *)

Definition COMPACTION_SUMMARY_PREFIX : jstring :=
  $"The conversation history before this point was compacted into the following summary:" ++ [10; 10] ++ $"<summary>" ++ [10].
Definition COMPACTION_SUMMARY_SUFFIX : jstring := [10] ++ $"</summary>".
Definition BRANCH_SUMMARY_PREFIX : jstring :=
  $"The following is a summary of a branch that this conversation came back from:" ++ [10; 10] ++ $"<summary>" ++ [10].
Definition BRANCH_SUMMARY_SUFFIX : jstring := $"</summary>".

Section Llm.
Context (number_text : num -> jstring).

Definition fence : jstring := [96; 96; 96].

Definition bashExecutionToText (b : BashExecution) : jstring :=
  $"Ran `" ++ bash_command b ++ $"`" ++ [10]
  ++ (match bash_output b with [] => $"(no output)" | out => fence ++ [10] ++ out ++ [10] ++ fence end)
  ++ (if bash_cancelled b then [10; 10] ++ $"(command cancelled)"
      else match exitCode b with
           | Some code => if num_strict_eq code (of_Z 0) then [] else [10; 10] ++ $"Command exited with code " ++ number_text code
           | None => []
           end)
  ++ (match bash_truncated b, fullOutputPath b with
      | true, Some ((_ :: _) as path) => [10; 10] ++ $"[Output truncated. Full output: " ++ path ++ $"]"
      | _, _ => []
      end).

Definition one_text (text : jstring) : Content := ContentBlocks [TextBlock text].

Definition convert_message (m : AgentMessage) : option AgentMessage :=
  let user c := Some (mkMessage (UserMsg c) (m_timestamp m)) in
  match body m with
  | BashMsg b => if excludeFromContext b then None else user (one_text (bashExecutionToText b))
  | CustomMsg (ContentText t) => user (one_text t)
  | CustomMsg c => user c
  | BranchSummaryMsg s _ => user (one_text (BRANCH_SUMMARY_PREFIX ++ s ++ BRANCH_SUMMARY_SUFFIX))
  | CompactionSummaryMsg s _ => user (one_text (COMPACTION_SUMMARY_PREFIX ++ s ++ COMPACTION_SUMMARY_SUFFIX))
  | SystemMsg _ | UserMsg _ | AssistantBody _ | ToolResultMsg _ _ => Some m
  | OtherMsg _ => None
  end.

Definition convertToLlm (messages : list AgentMessage) : list AgentMessage :=
  dropFailedAssistantTurns (omap convert_message messages).
End Llm.

(** ** Session entries and context (session/types.ts, session/context.ts) *)

Inductive EntryData :=
| MessageEntry (m : AgentMessage)
| CompactionEntry (summary : jstring) (retainedTail : list AgentMessage) (tokensBefore : num) (details : option json)
| BranchSummaryEntry (fromId : option jstring) (summary : jstring) (details : option json)
| CustomEntry (customType : jstring) (data : option json).

Record Entry := mkEntryRow { e_id : jstring; e_timestamp : num; e_data : EntryData }.

Definition isContextMessage (m : AgentMessage) : bool :=
  match body m with
  | AssistantBody a => match a_stop a with StopError | StopAborted | StopDeferred => false | _ => true end
  | _ => true
  end.

Definition sessionEntryToContextMessages (e : Entry) : list AgentMessage :=
  match e_data e with
  | MessageEntry m => if isContextMessage m then [m] else []
  | CompactionEntry summary tail before _ =>
      mkMessage (CompactionSummaryMsg summary before) (e_timestamp e) :: List.filter isContextMessage tail
  | BranchSummaryEntry from summary _ =>
      match summary with [] => [] | _ => [mkMessage (BranchSummaryMsg summary from) (e_timestamp e)] end
  | CustomEntry _ _ => []
  end.

Definition is_compaction (e : Entry) : bool := match e_data e with CompactionEntry _ _ _ _ => true | _ => false end.

(** The newest compaction of a path with its index, scanning from the end. *)
Fixpoint last_compaction (path : list Entry) : option nat :=
  match path with
  | [] => None
  | e :: path =>
      match last_compaction path with
      | Some i => Some (S i)
      | None => if is_compaction e then Some 0%nat else None
      end
  end.

Definition buildContextEntries (path : list Entry) : list Entry :=
  match last_compaction path with Some i => drop i path | None => path end.

Section SessionContext.
(** Applications project their custom entries into messages. *)
Context (projector : jstring -> option (Entry -> list AgentMessage)).

Definition entry_messages (e : Entry) : list AgentMessage :=
  match e_data e with
  | CustomEntry t _ => match projector t with Some f => f e | None => [] end
  | _ => sessionEntryToContextMessages e
  end.

Definition buildSessionContext (path : list Entry) : list AgentMessage := buildContextEntries path ≫= entry_messages.
End SessionContext.

(** ** Growing histories *)

(** [later] declares none of the ids only failed assistants declared before. *)
Definition no_redeclare (earlier later : list AgentMessage) : Prop :=
  forall id, id ∈ dropped_ids earlier -> id ∉ later ≫= declared_by false.

(** [later] does not fail with an id whose results were sent. *)
Definition no_late_failure (earlier later : list AgentMessage) : Prop :=
  forall id c t, mkMessage (ToolResultMsg id c) t ∈ earlier -> id ∉ dropped_ids earlier -> id ∉ dropped_ids (earlier ++ later).

Lemma survives_ext d d' m :
  (forall id c, body m = ToolResultMsg id c -> (id ∈ d <-> id ∈ d')) -> survives d m = survives d' m.
Proof. intros Hd. unfold survives. destruct (body m); try done. f_equal. apply bool_decide_ext. by eapply Hd. Qed.

Lemma filter_ext_in {A} (f g : A -> bool) l : (forall x, x ∈ l -> f x = g x) -> List.filter f l = List.filter g l.
Proof. intros Hfg. apply List.filter_ext_in. intros x Hx. by apply Hfg, list_elem_of_In. Qed.

Lemma dropFailed_extends earlier later :
  no_redeclare earlier later -> no_late_failure earlier later ->
  exists more, dropFailedAssistantTurns (earlier ++ later) = dropFailedAssistantTurns earlier ++ more.
Proof.
  intros Hre Hlate. unfold dropFailedAssistantTurns. rewrite List.filter_app. eexists. f_equal.
  apply filter_ext_in. intros m Hm. apply survives_ext. intros id c Hb. split.
  - intros Hin. destruct (decide (id ∈ dropped_ids earlier)) as [?|Hn]; [done|]. exfalso. destruct m as [b t]. cbn in Hb. subst b.
    by eapply Hlate.
  - intros Hin. pose proof (Hre id Hin) as Hno. unfold dropped_ids in *. rewrite !bind_app.
    rewrite elem_of_difference, !elem_of_list_to_set, !elem_of_app in *. naive_solver.
Qed.

(** The requests of a growing history extend each other: what is sent for
the messages so far is a prefix of what is sent once more messages follow,
provided no later assistant declares again the id of a call whose turn failed,
and no later failed turn takes over the id of a result already sent. *)
Theorem requests_extend number_text earlier later :
  let sent := omap (convert_message number_text) in
  no_redeclare (sent earlier) (sent later) -> no_late_failure (sent earlier) (sent later) ->
  exists more, convertToLlm number_text (earlier ++ later) = convertToLlm number_text earlier ++ more.
Proof. intros sent Hre Hlate. unfold convertToLlm. rewrite omap_app. by apply dropFailed_extends. Qed.

(** ** Samples *)

Definition sample_call (id : jstring) : ContentBlock := ToolCallBlock id $"read" (JsObj false []).
Definition sample_turn (stop : MsgStop) (id : jstring) : AgentMessage :=
  mkMessage (AssistantBody (mkAssistant [sample_call id] stop None None None)) (of_Z 1).
Definition sample_result (id : jstring) : AgentMessage := mkMessage (ToolResultMsg id (ContentText $"out")) (of_Z 2).
Definition sample_user : AgentMessage := mkMessage (UserMsg (ContentText $"go")) (of_Z 0).

(** A failed turn with its orphaned result, then a retry under a new id. *)
Definition sample_history : list AgentMessage :=
  [sample_user; sample_turn StopError $"a"; sample_result $"a"; sample_turn StopToolUse $"b"; sample_result $"b"].
Definition sample_more : list AgentMessage := [sample_user; sample_turn StopToolUse $"c"].

Lemma requests_extend_witness :
  exists more,
    convertToLlm (fun _ => []) (sample_history ++ sample_more) = convertToLlm (fun _ => []) sample_history ++ more.
Proof.
  apply requests_extend.
  - intros id Hin Hlater. change (id ∈ [$"c"]) in Hlater. rewrite list_elem_of_singleton in Hlater. subst id.
    revert Hin. apply (bool_decide_unpack (_ ∉ _)). by vm_compute.
  - intros id c t _ Hid. exact Hid.
Defined.

(** When the retry declares the failed turn's id again, the orphaned result comes
back in the middle of what was sent: the earlier request is no prefix of the later. *)
Example redeclared_id_breaks_prefix :
  let later := [sample_user; sample_turn StopToolUse $"a"] in
  length (convertToLlm (fun _ => []) sample_history) = 3%nat /\
  convertToLlm (fun _ => []) (sample_history ++ later) !! 1%nat = Some (sample_result $"a") /\
  convertToLlm (fun _ => []) sample_history !! 1%nat = Some (sample_turn StopToolUse $"b").
Proof. by vm_compute. Qed.
