(* ===== verification/Compaction.v ===== *)
(** * Choosing what to compact (packages/agent/src/harness/compaction/compaction.ts)

Token estimates, the cut point that keeps about the requested number of recent
tokens, and the preparation of a compaction: what is summarised, which prefix of
a split turn is summarised apart, and which messages are kept.  Token counts of
texts are integers, far below 2^53; what providers report and the settings are
JavaScript numbers. *)
From Stdlib Require Import Floats.SpecFloat.
From S2P Require Import Prelude JsString JsonText JsNumber JsObject Json Ledger Messages.
#[local] Open Scope Z_scope.

(** ** Estimates *)

Record CompactionSettings := mkSettings { enabled : bool; reserveTokens : num; keepRecentTokens : num }.

Definition DEFAULT_COMPACTION_SETTINGS : CompactionSettings := mkSettings true (of_Z 16384) (of_Z 20000).

Definition num_truthy (f : num) : bool := negb (num_strict_eq f (of_Z 0)) && num_strict_eq f f.

Definition calculateContextTokens (u : Usage) : num :=
  match contextUsage u with
  | Some (Some c) => num_add (cu_input c) (cu_output c)
  | Some None => of_Z 0
  | None =>
      if num_truthy (totalTokens u) then totalTokens u
      else num_add (num_add (num_add (u_input u) (u_output u)) (cacheRead u)) (cacheWrite u)
  end.

Definition getAssistantUsage (m : AgentMessage) : option Usage :=
  match body m with
  | AssistantBody a =>
      if isFailedStop (a_stop a) then None
      else match a_usage a with
           | Some u => if num_ltb (of_Z 0) (calculateContextTokens u) then Some u else None
           | None => None
           end
  | _ => None
  end.

(** Scanning from the end. *)
Fixpoint getLastAssistantUsage (entries : list Entry) : option Usage :=
  match entries with
  | [] => None
  | e :: entries =>
      match getLastAssistantUsage entries with
      | Some u => Some u
      | None => match e_data e with MessageEntry m => getAssistantUsage m | _ => None end
      end
  end.

Fixpoint getLastAssistantUsageInfo (counted : AgentMessage -> bool) (messages : list AgentMessage) : option (Usage * nat) :=
  match messages with
  | [] => None
  | m :: messages =>
      match getLastAssistantUsageInfo counted messages with
      | Some (u, i) => Some (u, S i)
      | None => if counted m then (fun u => (u, 0%nat)) <$> getAssistantUsage m else None
      end
  end.

Definition ESTIMATED_IMAGE_CHARS : Z := 4800.

Definition sum_of {A} (f : A -> Z) (l : list A) : Z := foldr (fun x n => f x + n) 0 l.

Definition estimateTextAndImageContentChars (c : Content) : Z :=
  match c with
  | ContentText t => blen t
  | ContentBlocks bs =>
      sum_of (fun b => match b with TextBlock t => blen t | ImageBlock _ => ESTIMATED_IMAGE_CHARS | _ => 0 end) bs
  end.

Section Estimate.
Context (number_text : num -> jstring).

(** The length of [JSON.stringify] of a value; the order of the members does not matter for it. *)
Fixpoint json_chars (v : json) : Z :=
  match v with
  | JsNull => 4
  | JsBool b => if b then 4 else 5
  | JsNum f => blen (number_text f)
  | JsStr s => blen (quoted s)
  | JsArr items => 2 + Z.max 0 (blen items - 1) + sum_of json_chars items
  | JsObj _ es => 2 + Z.max 0 (blen es - 1) + sum_of (fun e => blen (quoted e.1) + 1 + json_chars e.2) es
  end.

(** [Math.ceil(chars / 4)] *)
Definition quarter (chars : Z) : Z := (chars + 3) / 4.

Definition estimateTokens (m : AgentMessage) : Z :=
  match body m with
  | UserMsg c | CustomMsg c | ToolResultMsg _ c => quarter (estimateTextAndImageContentChars c)
  | AssistantBody a =>
      quarter (sum_of (fun b => match b with
        | TextBlock t => blen t
        | ThinkingBlock t => blen t
        | ToolCallBlock _ name args => blen name + json_chars args
        | _ => 0
        end) (a_content a))
  | BashMsg b => quarter (blen (bash_command b) + blen (bash_output b))
  | BranchSummaryMsg s _ => quarter (blen s)
  | CompactionSummaryMsg s _ => quarter (blen s)
  | SystemMsg _ | OtherMsg _ => 0
  end.

Record ContextUsageEstimate := mkEstimate { tokens : num; usageTokens : num; trailingTokens : num; lastUsageIndex : option nat }.

Definition estimateContextTokens (messages : list AgentMessage) : ContextUsageEstimate :=
  let counted := survives (dropped_ids messages) in
  let estimate l := sum_of (fun m => if counted m then estimateTokens m else 0) l in
  match getLastAssistantUsageInfo counted messages with
  | None => let estimated := of_Z (estimate messages) in mkEstimate estimated (of_Z 0) estimated None
  | Some (usage, index) =>
      let used := calculateContextTokens usage in
      let trailing := of_Z (estimate (drop (S index) messages)) in
      mkEstimate (num_add used trailing) used trailing (Some index)
  end.

Definition num_sub (a b : num) : num := SFsub 53 1024 a b.

Definition shouldCompact (contextTokens contextWindow : num) (s : CompactionSettings) : bool :=
  enabled s && num_ltb (num_sub contextWindow (reserveTokens s)) contextTokens.

(** ** The cut point *)

(** An entry the kept tail may begin with. *)
Definition can_cut (e : Entry) : bool :=
  match e_data e with
  | MessageEntry m => match body m with ToolResultMsg _ _ | SystemMsg _ | OtherMsg _ => false | _ => true end
  | BranchSummaryEntry _ _ _ => true
  | _ => false
  end.

Definition findValidCutPoints (entries : list Entry) (startIndex endIndex : nat) : list nat :=
  List.filter (fun i => match entries !! i with Some e => can_cut e | None => false end) (seq startIndex (endIndex - startIndex)).

Definition starts_turn (e : Entry) : bool :=
  match e_data e with
  | BranchSummaryEntry _ _ _ => true
  | MessageEntry m => match body m with UserMsg _ | BashMsg _ => true | _ => false end
  | _ => false
  end.

(** From [entryIndex] down to [startIndex]; [None] is [-1]. [n] is how many entries are left to look at. *)
Fixpoint turn_start (entries : list Entry) (startIndex n : nat) : option nat :=
  match n with
  | O => None
  | S n =>
      let i := (startIndex + n)%nat in
      match entries !! i with
      | Some e => if starts_turn e then Some i else turn_start entries startIndex n
      | None => turn_start entries startIndex n
      end
  end.

Definition findTurnStartIndex (entries : list Entry) (entryIndex startIndex : nat) : option nat :=
  turn_start entries startIndex (S entryIndex - startIndex).

Record CutPointResult := mkCut { firstKeptEntryIndex : nat; turnStartIndex : option nat; isSplitTurn : bool }.

Definition entry_tokens (e : Entry) : option Z := match e_data e with MessageEntry m => Some (estimateTokens m) | _ => None end.

(** The largest index at which the tokens from there to the end reach the budget. *)
Fixpoint budget_index (entries : list Entry) (startIndex : nat) (keep : num) (acc : Z) (n : nat) : option nat :=
  match n with
  | O => None
  | S n =>
      let i := (startIndex + n)%nat in
      match entries !! i ≫= entry_tokens with
      | Some t =>
          if num_leb keep (of_Z (acc + t)) then Some i else budget_index entries startIndex keep (acc + t) n
      | None => budget_index entries startIndex keep acc n
      end
  end.

Definition first_from (i : nat) (cuts : list nat) : option nat := List.find (fun c => (i <=? c)%nat) cuts.

(** Entries before the cut that are no messages are kept with it. *)
Fixpoint walk_back (entries : list Entry) (startIndex cut : nat) : nat :=
  match cut with
  | O => O
  | S prev =>
      if (startIndex <? cut)%nat
      then match entries !! prev with
           | Some e => match e_data e with CompactionEntry _ _ _ _ | MessageEntry _ => cut | _ => walk_back entries startIndex prev end
           | None => cut
           end
      else cut
  end.

Definition is_user_entry (e : Entry) : bool :=
  match e_data e with MessageEntry m => match body m with UserMsg _ => true | _ => false end | _ => false end.

Definition findCutPoint (entries : list Entry) (startIndex endIndex : nat) (keep : num) : CutPointResult :=
  match findValidCutPoints entries startIndex endIndex with
  | [] => mkCut startIndex None false
  | (c0 :: _) as cuts =>
      let chosen :=
        match budget_index entries startIndex keep 0 (endIndex - startIndex) with
        | Some i => default (List.last cuts c0) (first_from i cuts)
        | None => c0
        end in
      let cut := walk_back entries startIndex chosen in
      let user := match entries !! cut with Some e => is_user_entry e | None => false end in
      let turn := if user then None else findTurnStartIndex entries cut startIndex in
      mkCut cut turn (negb user && bool_decide (turn <> None))
  end.

(** ** Preparing *)

Definition getMessageFromEntryForCompaction (e : Entry) : option AgentMessage :=
  match e_data e with
  | MessageEntry m => Some m
  | BranchSummaryEntry from summary _ => Some (mkMessage (BranchSummaryMsg summary from) (e_timestamp e))
  | _ => None
  end.

(** The messages the last compaction kept, as entries again. *)
Definition virtual_entry (id : jstring) (index : nat) (m : AgentMessage) : Entry :=
  mkEntryRow (id ++ $":retained:" ++ decimal (Z.of_nat index)) (m_timestamp m) (MessageEntry m).

Definition compactable (path : list Entry) : list Entry :=
  match last_compaction path with
  | Some i =>
      match path !! i with
      | Some e => match e_data e with CompactionEntry _ tail _ _ => imap (virtual_entry (e_id e)) tail ++ drop (S i) path | _ => path end
      | None => path
      end
  | None => path
  end.

Definition estimateCompactionPathTokens (path : list Entry) : num :=
  let entries := buildContextEntries path in
  let boundary := match last_compaction entries with Some i => S i | None => 0%nat end in
  let since := estimateContextTokens (drop boundary entries ≫= sessionEntryToContextMessages) in
  match lastUsageIndex since with
  | Some _ => tokens since
  | None =>
      foldl (fun n m => num_add n (of_Z (estimateTokens m))) (tokens since)
        (dropFailedAssistantTurns (take boundary entries ≫= sessionEntryToContextMessages))
  end.

(** *** Files touched (compaction/utils.ts) *)

Record FileOperations := mkFileOps { files_read : list jstring; files_written : list jstring; files_edited : list jstring }.

Definition set_add (x : jstring) (s : list jstring) : list jstring := if bool_decide (x ∈ s) then s else s ++ [x].

Definition extract_block (ops : FileOperations) (b : ContentBlock) : FileOperations :=
  match b with
  | ToolCallBlock _ name args =>
      match string_of (member args $"path") with
      | Some ((_ :: _) as path) =>
          if bool_decide (name = $"read") then mkFileOps (set_add path (files_read ops)) (files_written ops) (files_edited ops)
          else if bool_decide (name = $"write") then mkFileOps (files_read ops) (set_add path (files_written ops)) (files_edited ops)
          else if bool_decide (name = $"edit") then mkFileOps (files_read ops) (files_written ops) (set_add path (files_edited ops))
          else ops
      | _ => ops
      end
  | _ => ops
  end.

Definition extractFileOpsFromMessage (ops : FileOperations) (m : AgentMessage) : FileOperations :=
  match body m with AssistantBody a => foldl extract_block ops (a_content a) | _ => ops end.

Definition strings_in (v : option json) : list jstring :=
  match v with Some (JsArr items) => omap (fun x => match x with JsStr s => Some s | _ => None end) items | _ => [] end.

(** What the last compaction recorded, then the messages. *)
Definition extractFileOperations (messages : list AgentMessage) (path : list Entry) : FileOperations :=
  let start :=
    match last_compaction path ≫= fun i => path !! i with
    | Some e =>
        match e_data e with
        | CompactionEntry _ _ _ (Some details) =>
            mkFileOps (foldl (fun s p => set_add p s) [] (strings_in (member details $"readFiles"))) []
              (foldl (fun s p => set_add p s) [] (strings_in (member details $"modifiedFiles")))
        | _ => mkFileOps [] [] []
        end
    | None => mkFileOps [] [] []
    end in
  foldl extractFileOpsFromMessage start messages.

(** *** The preparation *)

Record CompactionPreparation := mkPreparation {
  messagesToSummarize : list AgentMessage; turnPrefixMessages : list AgentMessage; retainedTail : list AgentMessage;
  p_isSplitTurn : bool; p_tokensBefore : num; previousSummary : option jstring; fileOps : FileOperations; settings : CompactionSettings }.

Definition messages_between (entries : list Entry) (i j : nat) : list AgentMessage :=
  omap getMessageFromEntryForCompaction (drop i (take j entries)).

Definition prepareCompaction (path : list Entry) (s : CompactionSettings) : option CompactionPreparation :=
  match last path with
  | None => None
  | Some e =>
      if is_compaction e then None
      else
        let entries := compactable path in
        let boundaryEnd := length entries in
        let previous :=
          match last_compaction path ≫= fun i => path !! i with
          | Some e => match e_data e with CompactionEntry summary _ _ _ => Some summary | _ => None end
          | None => None
          end in
        let cut := findCutPoint entries 0 boundaryEnd (keepRecentTokens s) in
        let kept := firstKeptEntryIndex cut in
        let historyEnd := if isSplitTurn cut then default 0%nat (turnStartIndex cut) else kept in
        let history := messages_between entries 0 historyEnd in
        let prefix := if isSplitTurn cut then messages_between entries historyEnd kept else [] in
        let ops := extractFileOperations history path in
        Some (mkPreparation history prefix (messages_between entries kept boundaryEnd) (isSplitTurn cut)
          (estimateCompactionPathTokens path) previous (foldl extractFileOpsFromMessage ops prefix) s)
  end.
End Estimate.
