(* ===== verification/CompactionCorrect.v ===== *)
(** * What a compaction keeps

The cut point against its specification, the partition of the compactable
messages, tool results staying with their calls, and the context before and after
a compaction entry is appended. *)
From Stdlib Require Import Floats.SpecFloat Sorting.Sorted.
From S2P Require Import Prelude JsString JsonText JsNumber JsObject Json Ledger Messages Compaction.
#[local] Open Scope Z_scope.

(** ** The pieces of the search *)

Lemma elem_of_cut_points entries i j k :
  k ∈ findValidCutPoints entries i j <-> (i <= k < j)%nat /\ exists e, entries !! k = Some e /\ can_cut e = true.
Proof.
  unfold findValidCutPoints. rewrite list_elem_of_In, List.filter_In, List.in_seq. split.
  - intros [Hk He]. split; [lia|]. destruct (entries !! k) as [e|]; [|done]. by exists e.
  - intros [Hk (e & He & Hc)]. rewrite He. split; [lia|done].
Qed.

Lemma turn_start_bound entries start n i :
  turn_start entries start n = Some i -> (start <= i < start + n)%nat.
Proof.
  induction n as [|n IH]; cbn [turn_start]; [done|].
  destruct (entries !! (start + n)%nat) as [e|]; [destruct (starts_turn e)|]; intros H; simplify_eq; try lia; apply IH in H; lia.
Qed.

(** The last entry at or before the given one that starts a turn. *)
Lemma turn_start_spec entries start n i :
  turn_start entries start n = Some i ->
  (exists e, entries !! i = Some e /\ starts_turn e = true) /\
  forall k e, (i < k < start + n)%nat -> entries !! k = Some e -> starts_turn e = false.
Proof.
  induction n as [|n IH]; cbn [turn_start]; [done|].
  destruct (entries !! (start + n)%nat) as [e|] eqn:He; [destruct (starts_turn e) eqn:Hs|]; intros H; simplify_eq.
  - split; [by exists e|]. intros k e' Hk. lia.
  - destruct (IH H) as [Hi Hk]. split; [done|]. intros k e' Hk' He'.
    destruct (decide (k = start + n)%nat) as [->|?]; [congruence|]. eapply Hk; [|done]. lia.
  - destruct (IH H) as [Hi Hk]. split; [done|]. intros k e' Hk' He'.
    destruct (decide (k = start + n)%nat) as [->|?]; [congruence|]. eapply Hk; [|done]. lia.
Qed.

(** What [walk_back] steps over. *)
Definition passive (e : Entry) : bool :=
  match e_data e with CompactionEntry _ _ _ _ | MessageEntry _ => false | _ => true end.

Lemma walk_back_spec entries start c :
  (start <= c)%nat ->
  (start <= walk_back entries start c <= c)%nat /\
  forall k, (walk_back entries start c <= k < c)%nat -> exists e, entries !! k = Some e /\ passive e = true.
Proof.
  induction c as [|c IH]; intros Hs; cbn [walk_back]; [split; [lia|]; intros; lia|].
  destruct (Nat.ltb_spec start (S c)); [|split; [lia|]; intros; lia].
  destruct (entries !! c) as [e|] eqn:He; [|split; [lia|]; intros; lia].
  destruct (e_data e) eqn:Hd; try (split; [lia|]; intros; lia).
  all: destruct IH as [Hb Hk]; [lia|]; split; [lia|]; intros k Hk'.
  all: destruct (decide (k = c)) as [->|?]; [exists e; split; [done|]; unfold passive; by rewrite Hd|apply Hk; lia].
Qed.

Section Correct.
Context (number_text : num -> jstring).

(** Tokens of the message entries from index [i] on. *)
Definition tokens_from (entries : list Entry) (i : nat) : Z :=
  sum_of (fun e => default 0 (entry_tokens number_text e)) (drop i entries).

Lemma sum_of_app {A} (f : A -> Z) l l' : sum_of f (l ++ l') = sum_of f l + sum_of f l'.
Proof. unfold sum_of. induction l as [|x l IH]; cbn; lia. Qed.

Lemma tokens_from_step entries i e :
  entries !! i = Some e -> tokens_from entries i = default 0 (entry_tokens number_text e) + tokens_from entries (S i).
Proof. intros He. unfold tokens_from. by rewrite (drop_S entries e i He). Qed.

Lemma sum_of_nonneg {A} (f : A -> Z) l : (forall x, 0 <= f x) -> 0 <= sum_of f l.
Proof. intros Hf. unfold sum_of. induction l as [|x l IH]; cbn; [lia|]. specialize (Hf x). lia. Qed.

(** [budget_index] finds the last entry from which the tokens to the end reach the budget. *)
Lemma budget_index_spec entries keep n acc :
  (n <= length entries)%nat -> acc = tokens_from entries n ->
  match budget_index number_text entries 0 keep acc n with
  | Some i => (i < n)%nat /\ num_leb keep (of_Z (tokens_from entries i)) = true /\
              (exists e t, entries !! i = Some e /\ entry_tokens number_text e = Some t) /\
              forall k e t, (i < k < n)%nat -> entries !! k = Some e -> entry_tokens number_text e = Some t ->
                            num_leb keep (of_Z (tokens_from entries k)) = false
  | None => forall k e t, (k < n)%nat -> entries !! k = Some e -> entry_tokens number_text e = Some t ->
                          num_leb keep (of_Z (tokens_from entries k)) = false
  end.
Proof.
  revert acc. induction n as [|n IH]; intros acc Hn ->; cbn [budget_index]; [intros; lia|].
  rewrite Nat.add_0_l. destruct (lookup_lt_is_Some_2 entries n) as [e He]; [lia|]. rewrite He. cbn [mbind option_bind].
  pose proof (tokens_from_step entries n e He) as Hstep.
  destruct (entry_tokens number_text e) as [t|] eqn:Ht; cbn [default] in Hstep.
  - replace (tokens_from entries (S n) + t) with (tokens_from entries n) by (cbn in *; lia).
    destruct (num_leb keep (of_Z (tokens_from entries n))) eqn:Hk.
    + split_and!; [lia|done|eauto|]. intros; lia.
    + specialize (IH _ ltac:(lia) eq_refl). destruct (budget_index _ _ _ _ _ _) as [i|].
      * destruct IH as (? & ? & ? & Hlater). split_and!; [lia|done..|]. intros k e' t' Hk' He' Ht'.
        destruct (decide (k = n)) as [->|?]; [done|]. eapply Hlater; [|done..]. lia.
      * intros k e' t' Hk' He' Ht'. destruct (decide (k = n)) as [->|?]; [done|]. eapply IH; [|done..]. lia.
  - replace (tokens_from entries (S n)) with (tokens_from entries n) by (cbn in *; lia).
    specialize (IH _ ltac:(lia) eq_refl). destruct (budget_index _ _ _ _ _ _) as [i|].
    + destruct IH as (? & ? & ? & Hlater). split_and!; [lia|done..|]. intros k e' t' Hk' He' Ht'.
      destruct (decide (k = n)) as [->|?]; [congruence|]. eapply Hlater; [|done..]. lia.
    + intros k e' t' Hk' He' Ht'. destruct (decide (k = n)) as [->|?]; [congruence|]. eapply IH; [|done..]. lia.
Qed.

(** ** The cut *)

Lemma sorted_filter_seq (f : nat -> bool) a n : StronglySorted lt (List.filter f (seq a n)).
Proof.
  revert a. induction n as [|n IH]; intros a; cbn; [constructor|]. destruct (f a); [|done]. constructor; [done|].
  apply Forall_forall. intros k. rewrite list_elem_of_In, List.filter_In, List.in_seq. lia.
Qed.

Lemma first_from_spec i cuts :
  StronglySorted lt cuts ->
  match first_from i cuts with
  | Some c => c ∈ cuts /\ (i <= c)%nat /\ forall k, k ∈ cuts -> (i <= k)%nat -> (c <= k)%nat
  | None => forall k, k ∈ cuts -> (k < i)%nat
  end.
Proof.
  induction 1 as [|c cuts Hs IH Hall]; cbn [first_from List.find]; [intros k Hk; set_solver|].
  destruct (Nat.leb_spec i c).
  - split_and!; [set_solver|done|]. intros k [->|Hk]%elem_of_cons ?; [lia|]. rewrite Forall_forall in Hall. specialize (Hall k Hk). lia.
  - unfold first_from in IH. destruct (List.find _ cuts) as [c'|].
    + destruct IH as (? & ? & IH). split_and!; [set_solver|done|]. intros k [->|Hk]%elem_of_cons ?; [lia|auto].
    + intros k [->|Hk]%elem_of_cons; [lia|auto].
Qed.

Lemma last_greatest c0 cuts :
  StronglySorted lt (c0 :: cuts) ->
  List.last (c0 :: cuts) c0 ∈ c0 :: cuts /\ forall k, k ∈ c0 :: cuts -> (k <= List.last (c0 :: cuts) c0)%nat.
Proof.
  intros Hs. assert (forall d, List.last (c0 :: cuts) d ∈ c0 :: cuts /\ forall k, k ∈ c0 :: cuts -> (k <= List.last (c0 :: cuts) d)%nat) as H; [|done].
  revert c0 Hs. induction cuts as [|c cuts IH]; intros c0 Hs d; [cbn; set_solver|].
  inversion Hs as [|? ? Hs' Hall]; subst. destruct (IH c Hs' d) as [Hin Hle].
  change (List.last (c0 :: c :: cuts) d) with (List.last (c :: cuts) d). split; [set_solver|].
  intros k [->|Hk]%elem_of_cons; [|auto]. rewrite Forall_forall in Hall. specialize (Hall _ Hin). lia.
Qed.

(** [i] is the last message from which the tokens to the end reach the budget. *)
Definition reaches (entries : list Entry) (keep : num) (i : nat) : Prop :=
  exists e t, entries !! i = Some e /\ entry_tokens number_text e = Some t /\ num_leb keep (of_Z (tokens_from entries i)) = true.

Definition last_reaching (entries : list Entry) (keep : num) (i : nat) : Prop :=
  reaches entries keep i /\ forall k, reaches entries keep k -> (k <= i)%nat.

Definition cut_point (entries : list Entry) (k : nat) : Prop := exists e, entries !! k = Some e /\ can_cut e = true.

(** The first cut point from the last reaching message on, else the last one
before it; the first cut point when the whole path stays within the budget. *)
Definition right_cut (entries : list Entry) (keep : num) (c : nat) : Prop :=
  cut_point entries c /\
  ((exists i, last_reaching entries keep i /\
      (((i <= c)%nat /\ forall k, cut_point entries k -> (i <= k)%nat -> (c <= k)%nat) \/
       ((c < i)%nat /\ forall k, cut_point entries k -> (k <= c)%nat))) \/
   ((forall i, ~ reaches entries keep i) /\ forall k, cut_point entries k -> (c <= k)%nat)).

Lemma cut_points_all entries k : k ∈ findValidCutPoints entries 0 (length entries) <-> cut_point entries k.
Proof.
  rewrite elem_of_cut_points. split; [by intros [_ ?]|]. intros (e & He & Hc). split; [|by exists e].
  apply lookup_lt_Some in He. lia.
Qed.

(** The cut before it is walked back. *)
Lemma chosen_cut entries keep c0 cuts :
  findValidCutPoints entries 0 (length entries) = c0 :: cuts ->
  right_cut entries keep
    match budget_index number_text entries 0 keep 0 (length entries - 0) with
    | Some i => default (List.last (c0 :: cuts) c0) (first_from i (c0 :: cuts))
    | None => c0
    end.
Proof.
  intros Hcuts. rewrite Nat.sub_0_r. pose proof (budget_index_spec entries keep (length entries) 0 ltac:(lia)) as Hb.
  assert (StronglySorted lt (c0 :: cuts)) as Hs by (rewrite <- Hcuts; apply sorted_filter_seq).
  assert (forall k, k ∈ c0 :: cuts <-> cut_point entries k) as Hin by (intros k; rewrite <- Hcuts; apply cut_points_all).
  assert (forall k, reaches entries keep k -> (k < length entries)%nat) as Hlt by (intros k (e & t & He & _); by eapply lookup_lt_Some).
  destruct (budget_index _ _ _ _ _ _) as [i|].
  - destruct Hb as (Hi & Hk & (e & t & He & Ht) & Hlater); [unfold tokens_from; by rewrite drop_all|].
    assert (last_reaching entries keep i) as Hlast.
    { split; [by exists e, t|]. intros k Hr. pose proof (Hlt k Hr). destruct Hr as (e' & t' & He' & Ht' & Hr).
      destruct (decide (k <= i)%nat) as [?|?]; [done|]. rewrite (Hlater k e' t') in Hr; [done|lia|done..]. }
    pose proof (first_from_spec i _ Hs) as Hf. destruct (first_from i (c0 :: cuts)) as [c|]; cbn [default].
    + destruct Hf as (Hc & Hic & Hmin). split; [by apply Hin|]. left. exists i. split; [done|]. left. split; [done|].
      intros k Hk' ?. apply Hmin; [by apply Hin|done].
    + destruct (last_greatest c0 cuts Hs) as [Hl Hmax]. split; [by apply Hin|]. left. exists i. split; [done|]. right.
      split; [by apply Hf|]. intros k Hk'. apply Hmax. by apply Hin.
  - split; [apply Hin; set_solver|]. right. split.
    + intros i Hr. pose proof (Hlt i Hr). destruct Hr as (e & t & He & Ht & Hr). rewrite (Hb ltac:(unfold tokens_from; by rewrite drop_all) i e t) in Hr; done.
    + intros k Hk%Hin%elem_of_cons. inversion Hs as [|? ? ? Hall]; subst. destruct Hk as [->|Hk]; [done|].
      rewrite Forall_forall in Hall. specialize (Hall k Hk). lia.
Qed.

Notation cut_of entries keep := (findCutPoint number_text entries 0 (length entries) keep).

(** The first kept entry and the cut it was walked back from. *)
Lemma first_kept entries keep :
  (exists k, cut_point entries k) ->
  exists c, right_cut entries keep c /\ (firstKeptEntryIndex (cut_of entries keep) <= c)%nat /\
    forall k, (firstKeptEntryIndex (cut_of entries keep) <= k < c)%nat -> exists e, entries !! k = Some e /\ passive e = true.
Proof.
  intros [k Hk%cut_points_all]. unfold findCutPoint. destruct (findValidCutPoints _ _ _) as [|c0 cuts] eqn:Hcuts; [set_solver|].
  eexists. split; [by apply (chosen_cut _ _ c0 cuts)|]. cbn [firstKeptEntryIndex].
  edestruct walk_back_spec as [Hb Hp]; [|split; [apply Hb|exact Hp]]. lia.
Qed.

Lemma cut_bound entries keep :
  (firstKeptEntryIndex (cut_of entries keep) <= length entries)%nat /\
  (forall i, turnStartIndex (cut_of entries keep) = Some i -> (i <= firstKeptEntryIndex (cut_of entries keep))%nat) /\
  (isSplitTurn (cut_of entries keep) = true -> turnStartIndex (cut_of entries keep) <> None).
Proof.
  destruct (findValidCutPoints entries 0 (length entries)) as [|c0 cuts] eqn:Hcuts.
  { unfold findCutPoint. rewrite Hcuts. cbn. split_and!; [lia|done..]. }
  split_and!.
  - destruct (first_kept entries keep) as (c & [[e [He _]] _] & Hle & _).
    { exists c0. apply cut_points_all. rewrite Hcuts. set_solver. }
    apply lookup_lt_Some in He. lia.
  - intros i. unfold findCutPoint. rewrite Hcuts. cbn [turnStartIndex firstKeptEntryIndex].
    set (cut := walk_back _ _ _). destruct (match entries !! cut with Some e => is_user_entry e | None => false end); [done|].
    intros Hi%turn_start_bound. lia.
  - unfold findCutPoint. rewrite Hcuts. cbn [turnStartIndex isSplitTurn].
    set (cut := walk_back _ _ _). destruct (match entries !! cut with Some e => is_user_entry e | None => false end); cbn; [done|]. by case_bool_decide.
Qed.
End Correct.

(** ** The prepared pieces *)

Lemma messages_between_app entries i j k :
  (i <= j <= k)%nat -> (k <= length entries)%nat ->
  messages_between entries i j ++ messages_between entries j k = messages_between entries i k.
Proof.
  intros Hij Hk. unfold messages_between. rewrite <- omap_app. f_equal.
  assert (take k entries = take j entries ++ drop j (take k entries)) as Hsplit.
  { rewrite <- (take_drop j (take k entries)) at 1. rewrite take_take, Nat.min_l by lia. done. }
  rewrite Hsplit at 2. rewrite drop_app_le by (rewrite length_take; lia). done.
Qed.

Lemma messages_between_all entries : messages_between entries 0 (length entries) = omap getMessageFromEntryForCompaction entries.
Proof. unfold messages_between. by rewrite drop_0, firstn_all. Qed.

Section Prepared.
Context (number_text : num -> jstring).

Notation cut_of entries keep := (findCutPoint number_text entries 0 (length entries) keep).

(** Where the three pieces of a preparation begin and end. *)
Record pieces (path : list Entry) (s : CompactionSettings) (p : CompactionPreparation) (h k : nat) : Prop := {
  pc_kept : k = firstKeptEntryIndex (cut_of (compactable path) (keepRecentTokens s));
  pc_order : (h <= k <= length (compactable path))%nat;
  pc_split : p_isSplitTurn p = false -> h = k;
  pc_history : messagesToSummarize p = messages_between (compactable path) 0 h;
  pc_prefix : turnPrefixMessages p = messages_between (compactable path) h k;
  pc_tail : retainedTail p = messages_between (compactable path) k (length (compactable path)) }.

Lemma messages_between_nil entries k : messages_between entries k k = [].
Proof. unfold messages_between. rewrite drop_ge; [done|]. rewrite length_take. lia. Qed.

Lemma prepared path s p : prepareCompaction number_text path s = Some p -> exists h k, pieces path s p h k.
Proof.
  unfold prepareCompaction. destruct (last path) as [e|]; [|done]. destruct (is_compaction e); [done|].
  set (entries := compactable path). intros [= <-].
  pose proof (cut_bound number_text entries (keepRecentTokens s)) as (Hlen & Hturn & Hsplit).
  destruct (isSplitTurn (cut_of entries (keepRecentTokens s))) eqn:Hs.
  - specialize (Hsplit eq_refl). destruct (turnStartIndex (cut_of entries (keepRecentTokens s))) as [i|] eqn:Hi; [|done].
    specialize (Hturn i eq_refl). eexists i, _. split; cbn; fold entries; try done; lia.
  - set (k := firstKeptEntryIndex (cut_of entries (keepRecentTokens s))) in *.
    exists k, k. split; cbn; fold entries; fold k; try done. by rewrite messages_between_nil.
Qed.

(** Preparing a compaction loses nothing and repeats nothing: the messages
to summarise, the prefix of the split turn and the retained tail are, in order,
exactly the messages since the last compaction (its own retained tail first),
and the prefix is empty unless a turn is split. *)
Theorem prepare_partition path s p :
  prepareCompaction number_text path s = Some p ->
  messagesToSummarize p ++ turnPrefixMessages p ++ retainedTail p = omap getMessageFromEntryForCompaction (compactable path) /\
  (p_isSplitTurn p = false -> turnPrefixMessages p = []).
Proof.
  intros (h & k & H)%prepared. pose proof (pc_order _ _ _ _ _ H). split.
  - rewrite (pc_history _ _ _ _ _ H), (pc_prefix _ _ _ _ _ H), (pc_tail _ _ _ _ _ H), <- messages_between_all.
    rewrite !messages_between_app by lia. done.
  - intros <-%(pc_split _ _ _ _ _ H). rewrite (pc_prefix _ _ _ _ _ H). apply messages_between_nil.
Qed.

(** ** Tool results stay with their calls *)

Definition declares (id : jstring) (e : Entry) : Prop :=
  exists m a, e_data e = MessageEntry m /\ body m = AssistantBody a /\ id ∈ call_ids (a_content a).

Definition is_result (id : jstring) (e : Entry) : Prop :=
  exists m c, e_data e = MessageEntry m /\ body m = ToolResultMsg id c.

(** Each tool result follows the assistant that declares its call, with nothing between them that a kept tail may begin with. *)
Definition results_follow (entries : list Entry) : Prop :=
  forall i e id, entries !! i = Some e -> is_result id e ->
    exists j d, (j < i)%nat /\ entries !! j = Some d /\ declares id d /\
      forall k e', (j < k < i)%nat -> entries !! k = Some e' -> can_cut e' = false.

(** The ids of the calls of a list of messages. *)
Definition calls_of (messages : list AgentMessage) : list jstring :=
  messages ≫= fun m => match body m with AssistantBody a => call_ids (a_content a) | _ => [] end.

Lemma elem_of_messages_between entries i j m :
  m ∈ messages_between entries i j <-> exists k e, (i <= k < j)%nat /\ entries !! k = Some e /\ getMessageFromEntryForCompaction e = Some m.
Proof.
  unfold messages_between. rewrite list_elem_of_omap. split.
  - intros (e & [k Hk]%list_elem_of_lookup_1 & Hm). rewrite lookup_drop in Hk.
    apply lookup_take_Some in Hk as [Hk Hlt]. exists (i + k)%nat, e. split_and!; [lia|lia|done|done].
  - intros (k & e & Hk & He & Hm). exists e. split; [|done]. apply (list_elem_of_lookup_2 _ (k - i)).
    rewrite lookup_drop, lookup_take_lt by lia. by replace (i + (k - i))%nat with k by lia.
Qed.

Lemma can_cut_not_result id e : is_result id e -> can_cut e = false /\ passive e = false.
Proof. intros (m & c & He & Hm). unfold can_cut, passive. rewrite He, Hm. done. Qed.

Lemma kept_call entries keep i e id :
  results_follow entries -> (exists k, cut_point entries k) ->
  (firstKeptEntryIndex (cut_of entries keep) <= i)%nat -> entries !! i = Some e -> is_result id e ->
  exists j d, (firstKeptEntryIndex (cut_of entries keep) <= j)%nat /\ entries !! j = Some d /\ declares id d.
Proof.
  intros Hfollow Hcut Hi He Hr. destruct (Hfollow i e id He Hr) as (j & d & Hj & Hd & Hdecl & Hbetween).
  exists j, d. split_and!; [|done..]. destruct (decide (firstKeptEntryIndex (cut_of entries keep) <= j)%nat) as [?|Hlt]; [done|exfalso].
  destruct (first_kept number_text entries keep Hcut) as (c & [[e' [He' Hc]] _] & Hle & Hpass).
  destruct (can_cut_not_result id e Hr) as [Hnc Hnp]. destruct (decide (i < c)%nat).
  - destruct (Hpass i ltac:(lia)) as (e2 & He2 & Hp). simplify_eq. congruence.
  - destruct (decide (c = i)) as [->|?]; [simplify_eq; congruence|]. rewrite (Hbetween c e' ltac:(lia) He') in Hc. done.
Qed.

(** C22. A compaction never separates a tool result from its call: when the
messages since the last compaction have every tool result after the assistant
that called it with no user, assistant, shell, custom or summary message in
between, the call of every tool result of the retained tail is in the retained
tail too, whatever the token budget. *)
Theorem retained_results_have_calls path s p id c t :
  prepareCompaction number_text path s = Some p ->
  results_follow (compactable path) ->
  (exists k, cut_point (compactable path) k) ->
  mkMessage (ToolResultMsg id c) t ∈ retainedTail p -> id ∈ calls_of (retainedTail p).
Proof.
  intros (h & k & H)%prepared Hfollow Hcut Hin. rewrite (pc_tail _ _ _ _ _ H) in Hin |- *.
  apply elem_of_messages_between in Hin as (i & e & Hi & He & Hm). rewrite (pc_kept _ _ _ _ _ H) in Hi |- *.
  assert (is_result id e) as Hr.
  { unfold getMessageFromEntryForCompaction in Hm. destruct (e_data e) eqn:Hd; simplify_eq. by eexists _, c. }
  destruct (kept_call _ (keepRecentTokens s) i e id Hfollow Hcut (proj1 Hi) He Hr) as (j & d & Hj & Hd & m & a & Hdm & Hma & Hid).
  unfold calls_of. apply list_elem_of_bind. exists m. rewrite Hma. split; [done|]. apply elem_of_messages_between. exists j, d.
  split_and!; [lia|by eapply lookup_lt_Some|done|]. unfold getMessageFromEntryForCompaction. by rewrite Hdm.
Qed.

(** ** The context across a compaction *)

(** Nothing of the entry's own reaches the context but its message. *)
Definition quiet (projector : jstring -> option (Entry -> list AgentMessage)) (e : Entry) : Prop :=
  match e_data e with
  | CustomEntry t _ => projector t = None
  | BranchSummaryEntry _ summary _ => summary <> []
  | _ => True
  end.

Lemma last_compaction_None path : last_compaction path = None <-> Forall (fun e => is_compaction e = false) path.
Proof.
  induction path as [|e path IH]; cbn [last_compaction]; [by split|]. rewrite Forall_cons, <- IH.
  destruct (last_compaction path); [naive_solver|]. destruct (is_compaction e); naive_solver.
Qed.

Lemma last_compaction_Some path i :
  last_compaction path = Some i ->
  exists e, path !! i = Some e /\ is_compaction e = true /\ Forall (fun e => is_compaction e = false) (drop (S i) path).
Proof.
  revert i. induction path as [|e path IH]; intros i; cbn [last_compaction]; [done|].
  destruct (last_compaction path) as [j|] eqn:Hl; [intros [= <-]; by apply IH|].
  destruct (is_compaction e) eqn:He; intros [= <-]. exists e. split_and!; [done..|]. by apply last_compaction_None.
Qed.

Lemma entry_context projector e :
  is_compaction e = false -> quiet projector e ->
  entry_messages projector e = List.filter isContextMessage (option_list (getMessageFromEntryForCompaction e)).
Proof.
  unfold is_compaction, quiet, entry_messages, getMessageFromEntryForCompaction, sessionEntryToContextMessages.
  destruct (e_data e) as [m| |from summary ?|t d]; cbn; intros Hc Hq; try done; [by destruct summary|by rewrite Hq].
Qed.

Lemma entries_context projector entries :
  Forall (fun e => is_compaction e = false) entries -> Forall (quiet projector) entries ->
  entries ≫= entry_messages projector = List.filter isContextMessage (omap getMessageFromEntryForCompaction entries).
Proof.
  induction 1 as [|e entries He Hes IH]; intros Hq; [done|]. apply Forall_cons in Hq as [Hqe Hq].
  cbn [mbind list_bind omap list_omap]. rewrite entry_context, IH by done.
  destruct (getMessageFromEntryForCompaction e); cbn; [|done]. by destruct (isContextMessage a).
Qed.

(** The summary message of the newest compaction of a path. *)
Definition last_summary (path : list Entry) : list AgentMessage :=
  match last_compaction path ≫= fun i => path !! i with
  | Some e =>
      match e_data e with
      | CompactionEntry summary _ before _ => [mkMessage (CompactionSummaryMsg summary before) (e_timestamp e)]
      | _ => []
      end
  | None => []
  end.

Lemma virtual_messages id tail : omap getMessageFromEntryForCompaction (imap (virtual_entry id) tail) = tail.
Proof.
  assert (forall f : nat -> AgentMessage -> Entry, (forall k m, getMessageFromEntryForCompaction (f k m) = Some m) ->
    omap getMessageFromEntryForCompaction (imap f tail) = tail) as H; [|by apply H].
  induction tail as [|m tail IH]; intros f Hf; [done|]. rewrite imap_cons. cbn [omap list_omap]. rewrite Hf. f_equal. apply IH. intros k m'. apply Hf.
Qed.

Lemma context_of_compactable projector path :
  Forall (quiet projector) path ->
  buildSessionContext projector path =
    last_summary path ++ List.filter isContextMessage (omap getMessageFromEntryForCompaction (compactable path)).
Proof.
  intros Hq. unfold buildSessionContext, buildContextEntries, last_summary, compactable.
  destruct (last_compaction path) as [i|] eqn:Hl; cbn [mbind option_bind].
  - destruct (last_compaction_Some path i Hl) as (e & He & Hc & Hrest). rewrite He. unfold is_compaction in Hc.
    destruct (e_data e) as [|summary tail before details| |] eqn:Hd; try done.
    rewrite (drop_S path e i He). cbn [mbind list_bind]. rewrite omap_app, List.filter_app, entries_context by eauto using Forall_drop.
    unfold entry_messages at 1, sessionEntryToContextMessages. rewrite Hd. cbn. f_equal. f_equal.
    by rewrite virtual_messages.
  - by apply entries_context; [apply last_compaction_None|].
Qed.

(** What the harness appends when a compaction is done. *)
Definition compaction_entry (id : jstring) (now : num) (p : CompactionPreparation) (summary : jstring) (details : option json) : Entry :=
  mkEntryRow id now (CompactionEntry summary (retainedTail p) (p_tokensBefore p) details).

Lemma last_compaction_snoc path e : is_compaction e = true -> last_compaction (path ++ [e]) = Some (length path).
Proof. intros He. induction path as [|e' path IH]; cbn; [by rewrite He|by rewrite IH]. Qed.

(** C21. Appending the compaction replaces a prefix of the model's context by its
summary and keeps the rest as it was: before, the context was the last summary,
the messages now summarised and the retained tail; after, it is the new summary
followed by the same retained tail, so the recent context reaches the model
unchanged and the older part only through the summary.  (Custom entries an
application projects into messages and empty branch summaries are apart: a
compaction does not carry them.) *)
Theorem compaction_replaces_prefix projector path s p id now summary details :
  prepareCompaction number_text path s = Some p ->
  Forall (quiet projector) path ->
  let tail := List.filter isContextMessage (retainedTail p) in
  buildSessionContext projector path =
    last_summary path ++ List.filter isContextMessage (messagesToSummarize p ++ turnPrefixMessages p) ++ tail /\
  buildSessionContext projector (path ++ [compaction_entry id now p summary details]) =
    mkMessage (CompactionSummaryMsg summary (p_tokensBefore p)) now :: tail.
Proof.
  intros (h & k & H)%prepared Hq tail. pose proof (pc_order _ _ _ _ _ H). split.
  - rewrite context_of_compactable by done. subst tail. rewrite <- List.filter_app, <- app_assoc. do 2 f_equal.
    rewrite (pc_history _ _ _ _ _ H), (pc_prefix _ _ _ _ _ H), (pc_tail _ _ _ _ _ H), <- messages_between_all.
    rewrite !messages_between_app by lia. done.
  - unfold buildSessionContext, buildContextEntries. rewrite last_compaction_snoc by done. rewrite drop_app_length.
    cbn. by rewrite app_nil_r.
Qed.
End Prepared.

(** ** Which cut *)

(** C23. The cut is the one the token budget asks for: with [i] the last message
from which the tokens to the end reach [keepRecentTokens], the kept tail begins
at the first possible cut from [i] on (the last one before it if there is none;
the first one of all when everything fits), moved back only over entries that
are no messages, and never at a tool result; a split turn starts at the last
turn start at or before the cut. *)
Theorem cut_meets_budget number_text entries keep :
  (exists k, cut_point entries k) ->
  let cut := findCutPoint number_text entries 0 (length entries) keep in
  let first := firstKeptEntryIndex cut in
  (exists c, right_cut number_text entries keep c /\ (first <= c)%nat /\
     forall k, (first <= k < c)%nat -> exists e, entries !! k = Some e /\ passive e = true) /\
  (forall i, turnStartIndex cut = Some i ->
     (i <= first)%nat /\ (exists e, entries !! i = Some e /\ starts_turn e = true) /\
     forall k e, (i < k <= first)%nat -> entries !! k = Some e -> starts_turn e = false).
Proof.
  intros Hcut cut first. split; [by apply first_kept|]. intros i Hi.
  destruct (cut_bound number_text entries keep) as (_ & Hle & _). specialize (Hle i Hi). split; [done|].
  unfold first, cut, findCutPoint in *. destruct (findValidCutPoints _ _ _) as [|c0 cuts]; [done|].
  cbn [turnStartIndex firstKeptEntryIndex] in *. set (w := walk_back _ _ _) in *.
  destruct (match entries !! w with Some e => is_user_entry e | None => false end); [done|].
  unfold findTurnStartIndex in Hi. apply turn_start_spec in Hi as [Hs Hlater]. split; [done|].
  intros k e Hk. apply Hlater. lia.
Qed.

(** ** The estimate counts what the next request carries *)

Lemma dropped_survivors messages : dropped_ids (dropFailedAssistantTurns messages) = ∅.
Proof.
  unfold dropped_ids. replace (dropFailedAssistantTurns messages ≫= declared_by true) with (@nil jstring); [set_solver|].
  unfold dropFailedAssistantTurns. generalize (dropped_ids messages). intros d. induction messages as [|m messages IH]; [done|].
  cbn [List.filter]. destruct (survives d m) eqn:Hs; [|done]. cbn [mbind list_bind]. rewrite <- IH, app_nil_r.
  unfold survives in Hs. unfold declared_by. destruct (body m); try done. by destruct (isFailedStop (a_stop a)).
Qed.

Lemma survivors_survive messages m :
  m ∈ dropFailedAssistantTurns messages -> survives ∅ m = true.
Proof.
  unfold dropFailedAssistantTurns. rewrite list_elem_of_In, List.filter_In. intros [_ Hs].
  unfold survives in *. by destruct (body m).
Qed.

(** The messages [counted] selects, scanned apart from the others. *)
Lemma usage_of_filter counted l :
  match getLastAssistantUsageInfo counted l with
  | Some (u, i) => exists i', getLastAssistantUsageInfo (fun _ => true) (List.filter counted l) = Some (u, i') /\
                     List.filter counted (drop (S i) l) = drop (S i') (List.filter counted l)
  | None => getLastAssistantUsageInfo (fun _ => true) (List.filter counted l) = None
  end.
Proof.
  induction l as [|m l IH]; cbn [getLastAssistantUsageInfo List.filter]; [done|].
  destruct (getLastAssistantUsageInfo counted l) as [[u i]|].
  - destruct IH as (i' & Hi & Hd). destruct (counted m); [|exists i'; by split].
    exists (S i'). cbn [getLastAssistantUsageInfo]. rewrite Hi. by split.
  - destruct (counted m); [|done]. cbn [getLastAssistantUsageInfo]. rewrite IH. destruct (getAssistantUsage m); cbn; [|done].
    exists 0%nat. by split.
Qed.

Lemma sum_counted number_text (counted : AgentMessage -> bool) l :
  sum_of (fun m => if counted m then estimateTokens number_text m else 0) l = sum_of (estimateTokens number_text) (List.filter counted l).
Proof. unfold sum_of. induction l as [|m l IH]; cbn; [done|]. destruct (counted m); cbn; lia. Qed.

(** The context estimate counts what the next request will carry: dropping
the failed turns and their orphaned results first changes none of its token
counts. *)
Theorem estimate_counts_request number_text messages :
  let e := estimateContextTokens number_text messages in
  let e' := estimateContextTokens number_text (dropFailedAssistantTurns messages) in
  tokens e' = tokens e /\ usageTokens e' = usageTokens e /\ trailingTokens e' = trailingTokens e /\
  (lastUsageIndex e' = None <-> lastUsageIndex e = None).
Proof.
  cbn zeta. unfold estimateContextTokens. rewrite dropped_survivors.
  assert (forall l, (forall m, m ∈ l -> survives ∅ m = true) ->
    getLastAssistantUsageInfo (survives ∅) l = getLastAssistantUsageInfo (fun _ => true) l) as Hinfo.
  { induction l as [|m l IH]; intros Hl; cbn; [done|]. rewrite IH by (intros; apply Hl; set_solver).
    by rewrite Hl by set_solver. }
  assert (forall l, (forall m, m ∈ l -> survives ∅ m = true) -> List.filter (survives ∅) l = l) as Hfilter.
  { induction l as [|m l IH]; intros Hl; cbn; [done|]. rewrite IH by (intros; apply Hl; set_solver). by rewrite Hl by set_solver. }
  rewrite Hinfo by apply survivors_survive. pose proof (usage_of_filter (survives (dropped_ids messages)) messages) as Hu.
  cbn zeta in Hu. fold (dropFailedAssistantTurns messages) in Hu.
  assert (forall n m, m ∈ drop n (dropFailedAssistantTurns messages) -> survives ∅ m = true) as Hdrop.
  { intros n m [k Hk]%list_elem_of_lookup_1. rewrite lookup_drop in Hk. by eapply survivors_survive, list_elem_of_lookup_2. }
  destruct (getLastAssistantUsageInfo _ messages) as [[u i]|].
  - destruct Hu as (i' & -> & Hd). cbn [tokens usageTokens trailingTokens lastUsageIndex].
    rewrite !sum_counted, Hd, Hfilter by apply Hdrop. done.
  - rewrite Hu. cbn [tokens usageTokens trailingTokens lastUsageIndex]. rewrite !sum_counted.
    rewrite Hfilter by apply survivors_survive. done.
Qed.

(** ** Samples *)

Module Sample.
Definition no_numbers : num -> jstring := fun _ => [].
Definition row (m : AgentMessage) : Entry := mkEntryRow $"e" (m_timestamp m) (MessageEntry m).
Definition note : Entry := mkEntryRow $"n" (of_Z 5) (CustomEntry $"note" None).
Definition long_text : jstring := replicate 40 97.
Definition long_result (id : jstring) : AgentMessage := mkMessage (ToolResultMsg id (ContentText long_text)) (of_Z 2).

(** Two turns; the second is long. *)
Definition path : list Entry :=
  [row sample_user; row (sample_turn StopToolUse $"a"); row (sample_result $"a"); note;
   row sample_user; row (sample_turn StopToolUse $"b"); row (long_result $"b"); row (sample_turn StopEnd $"c")].

Definition keep (n : Z) : CompactionSettings := mkSettings true (of_Z 100) (of_Z n).

(** The budget is reached inside the last tool result: the cut goes on to the assistant after it. *)
Definition prep : CompactionPreparation :=
  default (mkPreparation [] [] [] false (of_Z 0) None (mkFileOps [] [] []) (keep 0)) (prepareCompaction no_numbers path (keep 10)).

Lemma prep_eq : prepareCompaction no_numbers path (keep 10) = Some prep.
Proof. reflexivity. Qed.

Lemma path_compactable : compactable path = path.
Proof. reflexivity. Qed.

Lemma path_cut : exists k, cut_point path k.
Proof. exists 0%nat, (row sample_user). by split. Qed.

Lemma turn_declares stop id : declares id (row (sample_turn stop id)).
Proof. do 2 eexists. split_and!; [done..|]. cbn. by apply list_elem_of_singleton. Qed.

Lemma path_follows : results_follow path.
Proof.
  intros i e id He (m & c & Hm & Hb).
  destruct i as [|[|[|[|[|[|[|[|i]]]]]]]]; try discriminate He; injection He as <-; try discriminate Hm;
    injection Hm as <-; try discriminate Hb; injection Hb as <- _.
  - exists 1%nat, (row (sample_turn StopToolUse $"a")). split_and!; [lia|done|apply turn_declares|]. intros k e' ?. lia.
  - exists 5%nat, (row (sample_turn StopToolUse $"b")). split_and!; [lia|done|apply turn_declares|]. intros k e' ?. lia.
Qed.
End Sample.

Lemma prepare_partition_witness :
  length (messagesToSummarize Sample.prep) = 3%nat /\
  messagesToSummarize Sample.prep ++ turnPrefixMessages Sample.prep ++ retainedTail Sample.prep =
    omap getMessageFromEntryForCompaction Sample.path.
Proof. split; [reflexivity|]. exact (proj1 (prepare_partition Sample.no_numbers _ _ _ Sample.prep_eq)). Defined.

(** With a larger budget the tail keeps the call of its result. *)
Definition long_prep : CompactionPreparation :=
  default Sample.prep (prepareCompaction Sample.no_numbers Sample.path (Sample.keep 13)).

Lemma retained_results_have_calls_witness :
  retainedTail long_prep !! 1%nat = Some (Sample.long_result $"b") /\ $"b" ∈ calls_of (retainedTail long_prep).
Proof.
  split; [reflexivity|].
  apply (retained_results_have_calls Sample.no_numbers Sample.path (Sample.keep 13) long_prep $"b" (ContentText Sample.long_text) (of_Z 2)).
  - reflexivity.
  - exact Sample.path_follows.
  - exact Sample.path_cut.
  - apply (list_elem_of_lookup_2 _ 1). reflexivity.
Defined.

Lemma compaction_replaces_prefix_witness :
  buildSessionContext (fun _ => None) (Sample.path ++ [compaction_entry $"x" (of_Z 9) Sample.prep $"short" None]) =
    mkMessage (CompactionSummaryMsg $"short" (p_tokensBefore Sample.prep)) (of_Z 9)
    :: List.filter isContextMessage (retainedTail Sample.prep).
Proof.
  apply (compaction_replaces_prefix Sample.no_numbers (fun _ => None) Sample.path (Sample.keep 10) Sample.prep).
  - exact Sample.prep_eq.
  - repeat constructor.
Defined.

Lemma cut_meets_budget_witness :
  let cut := findCutPoint Sample.no_numbers Sample.path 0 8 (of_Z 10) in
  firstKeptEntryIndex cut = 7%nat /\ turnStartIndex cut = Some 4%nat /\
  forall k e, (4 < k <= 7)%nat -> Sample.path !! k = Some e -> starts_turn e = false.
Proof.
  split; [reflexivity|]. split; [reflexivity|].
  destruct (cut_meets_budget Sample.no_numbers Sample.path (of_Z 10) Sample.path_cut) as [_ H].
  exact (proj2 (proj2 (H 4%nat eq_refl))).
Defined.

(** A custom entry before a user message: the cut walks back over it and a whole turn is taken for a split one. *)
Example custom_entry_splits_turn :
  let cut := findCutPoint Sample.no_numbers Sample.path 0 8 (of_Z 15) in
  firstKeptEntryIndex cut = 3%nat /\ Sample.path !! 4%nat = Some (Sample.row sample_user) /\
  isSplitTurn cut = true /\ turnStartIndex cut = Some 0%nat.
Proof. by vm_compute. Qed.
