(* ===== verification/Summary.v ===== *)
(** * Summaries of compacted history (packages/agent/src/harness/compaction: utils.ts, compaction.ts)

The text a conversation is summarised from, the file lists carried from one
compaction to the next, the requests of a compaction and which responses are
accepted.  The model call is a parameter that threads a state: any provider,
with its retries. *)
From Stdlib Require Import Floats.SpecFloat.
From S2P Require Import Prelude JsString JsonText JsNumber JsObject Json EditText DurableStore Ledger Messages Compaction.
#[local] Open Scope Z_scope.

Definition num_mul (a b : num) : num := SFmul 53 1024 a b.

(** [Math.floor] *)
Definition num_floor (f : num) : num :=
  match f with
  | S754_finite s m e => if 0 <=? e then f else of_Z ((if s then Z.neg m else Z.pos m) / 2 ^ (- e))
  | _ => f
  end.

(** The literals [0.8] and [0.5]. *)
Definition eight_tenths : num := S754_finite false 7205759403792794 (-53).
Definition one_half : num := S754_finite false 4503599627370496 (-53).

Definition trim (s : jstring) : jstring := trimEnd (rev (trimEnd (rev s))).

Definition text_lines (ls : list jstring) : jstring := join [10] ls.

Definition dquoted (s : jstring) : jstring := [34] ++ s ++ [34].

(** ** The conversation as text *)

Definition contentTextForSummary (c : Content) (separator : jstring) : jstring :=
  match c with
  | ContentText t => t
  | ContentBlocks bs => join separator (omap (fun b => match b with TextBlock t => Some t | _ => None end) bs)
  end.

Definition TOOL_RESULT_MAX_CHARS : Z := 2000.

Definition truncateForSummary (text : jstring) (maxChars : Z) : jstring :=
  if blen text <=? maxChars then text
  else take (Z.to_nat maxChars) text ++ [10; 10] ++ $"[... " ++ decimal (blen text - maxChars) ++ $" more characters truncated]".

Section Text.
Context (number_text : num -> jstring).

(** [JSON.stringify] *)
Fixpoint stringify (v : json) : jstring :=
  match v with
  | JsNull => $"null"
  | JsBool true => $"true"
  | JsBool false => $"false"
  | JsNum f => number_text f
  | JsStr s => quoted s
  | JsArr items => $"[" ++ join $"," (stringify <$> items) ++ $"]"
  | JsObj _ es => $"{" ++ join $"," ((fun e => quoted e.1 ++ $":" ++ stringify e.2) <$> es) ++ $"}"
  end.

Definition object_entries (v : json) : list (jstring * json) := match v with JsObj _ es => es | _ => [] end.

Definition call_text (name : jstring) (args : json) : jstring :=
  name ++ $"(" ++ join $", " ((fun e => e.1 ++ $"=" ++ stringify e.2) <$> object_entries args) ++ $")".

Definition is_text (b : ContentBlock) : bool := match b with TextBlock _ => true | _ => false end.
Definition is_call (b : ContentBlock) : bool := match b with ToolCallBlock _ _ _ => true | _ => false end.

(** What a message adds to the conversation. *)
Definition message_parts (m : AgentMessage) : list jstring :=
  match body m with
  | UserMsg c => match contentTextForSummary c [] with [] => [] | text => [$"[User]: " ++ text] end
  | AssistantBody a =>
      let thinking := omap (fun b => match b with ThinkingBlock t => Some t | _ => None end) (a_content a) in
      let calls := omap (fun b => match b with ToolCallBlock _ name args => Some (call_text name args) | _ => None end) (a_content a) in
      match thinking with [] => [] | _ => [$"[Assistant thinking]: " ++ join [10] thinking] end
      ++ (if existsb is_text (a_content a) then [$"[Assistant]: " ++ contentTextForSummary (ContentBlocks (a_content a)) [10]] else [])
      ++ match calls with [] => [] | _ => [$"[Assistant tool calls]: " ++ join $"; " calls] end
  | ToolResultMsg _ c =>
      match contentTextForSummary c [] with
      | [] => []
      | text => [$"[Tool result]: " ++ truncateForSummary text TOOL_RESULT_MAX_CHARS]
      end
  | _ => []
  end.

Definition serializeConversation (messages : list AgentMessage) : jstring := join [10; 10] (messages ≫= message_parts).

(** ** File lists *)

Definition sort_units (l : list jstring) : list jstring := sort_by compare_units l.

Record FileLists := mkFileLists { readFiles : list jstring; modifiedFiles : list jstring }.

Definition computeFileLists (ops : FileOperations) : FileLists :=
  let modified := foldl (fun s p => set_add p s) (foldl (fun s p => set_add p s) [] (files_edited ops)) (files_written ops) in
  mkFileLists (sort_units (List.filter (fun f => negb (bool_decide (f ∈ modified))) (files_read ops))) (sort_units modified).

Definition file_section (tag : jstring) (files : list jstring) : list jstring :=
  match files with
  | [] => []
  | _ => [$"<" ++ tag ++ $">" ++ [10] ++ join [10] files ++ [10] ++ $"</" ++ tag ++ $">"]
  end.

Definition formatFileOperations (l : FileLists) : jstring :=
  match file_section $"read-files" (readFiles l) ++ file_section $"modified-files" (modifiedFiles l) with
  | [] => []
  | sections => [10; 10] ++ join [10; 10] sections
  end.

(** The details stored on the compaction entry. *)
Definition details_json (l : FileLists) : json :=
  JsObj false [($"readFiles", JsArr (JsStr <$> readFiles l)); ($"modifiedFiles", JsArr (JsStr <$> modifiedFiles l))].

(** ** Prompts *)

Definition SUMMARIZATION_SYSTEM_PROMPT : jstring := text_lines [
  $"You are a context summarization assistant. Your task is to read a conversation between a user and an AI assistant, then produce a structured summary following the exact format specified.";
  [];
  $"Do NOT continue the conversation. Do NOT respond to any questions in the conversation. ONLY output the structured summary."].

Definition SUMMARIZATION_PROMPT : jstring := text_lines [
  $"The messages above are a conversation to summarize. Create a structured context checkpoint summary that another LLM will use to continue the work.";
  []; $"Use this EXACT format:"; [];
  $"## Goal"; $"[What is the user trying to accomplish? Can be multiple items if the session covers different tasks.]"; [];
  $"## Constraints & Preferences"; $"- [Any constraints, preferences, or requirements mentioned by user]";
  $"- [Or " ++ dquoted $"(none)" ++ $" if none were mentioned]"; [];
  $"## Progress"; $"### Done"; $"- [x] [Completed tasks/changes]"; []; $"### In Progress"; $"- [ ] [Current work]"; [];
  $"### Blocked"; $"- [Issues preventing progress, if any]"; [];
  $"## Key Decisions"; $"- **[Decision]**: [Brief rationale]"; [];
  $"## Next Steps"; $"1. [Ordered list of what should happen next]"; [];
  $"## Critical Context"; $"- [Any data, examples, or references needed to continue]";
  $"- [Or " ++ dquoted $"(none)" ++ $" if not applicable]"; [];
  $"Keep each section concise. Preserve exact file paths, function names, and error messages."].

Definition UPDATE_SUMMARIZATION_PROMPT : jstring := text_lines [
  $"The messages above are NEW conversation messages to incorporate into the existing summary provided in <previous-summary> tags.";
  []; $"Update the existing structured summary with new information. RULES:";
  $"- PRESERVE all existing information from the previous summary";
  $"- ADD new progress, decisions, and context from the new messages";
  $"- UPDATE the Progress section: move items from " ++ dquoted $"In Progress" ++ $" to " ++ dquoted $"Done" ++ $" when completed";
  $"- UPDATE " ++ dquoted $"Next Steps" ++ $" based on what was accomplished";
  $"- PRESERVE exact file paths, function names, and error messages";
  $"- If something is no longer relevant, you may remove it"; [];
  $"Use this EXACT format:"; [];
  $"## Goal"; $"[Preserve existing goals, add new ones if the task expanded]"; [];
  $"## Constraints & Preferences"; $"- [Preserve existing, add new ones discovered]"; [];
  $"## Progress"; $"### Done"; $"- [x] [Include previously done items AND newly completed items]"; [];
  $"### In Progress"; $"- [ ] [Current work - update based on progress]"; [];
  $"### Blocked"; $"- [Current blockers - remove if resolved]"; [];
  $"## Key Decisions"; $"- **[Decision]**: [Brief rationale] (preserve all previous, add new)"; [];
  $"## Next Steps"; $"1. [Update based on current state]"; [];
  $"## Critical Context"; $"- [Preserve important context, add new if needed]"; [];
  $"Keep each section concise. Preserve exact file paths, function names, and error messages."].

Definition TURN_PREFIX_SUMMARIZATION_PROMPT : jstring := text_lines [
  $"This is the PREFIX of a turn that was too large to keep. The SUFFIX (recent work) is retained."; [];
  $"Summarize the prefix to provide context for the retained suffix:"; [];
  $"## Original Request"; $"[What did the user ask for in this turn?]"; [];
  $"## Early Progress"; $"- [Key decisions and work done in the prefix]"; [];
  $"## Context for Suffix"; $"- [Information needed to understand the retained recent work]"; [];
  $"Be concise. Focus on what's needed to understand the kept suffix."].

Definition conversation (messages : list AgentMessage) : jstring :=
  $"<conversation>" ++ [10] ++ serializeConversation (convertToLlm number_text messages) ++ [10] ++ $"</conversation>" ++ [10; 10].

(** ** Requests *)

Record SummaryModel := mkModel { m_maxTokens : num; m_reasoning : bool }.

(** One request: the system prompt, the user text, [maxTokens] and [reasoning]. *)
Record SummaryPrompt := mkPrompt { systemPrompt : jstring; promptText : jstring; maxTokens : num; p_reasoning : option jstring }.

Record SummaryResponse := mkResponse { r_content : list ContentBlock; r_stop : MsgStop; r_error : option jstring; r_usage : Usage }.

Inductive CompactionError := CompactionAborted (message : jstring) | SummarizationFailed (message : jstring).

(** [Math.min(Math.floor(share * reserveTokens), model.maxTokens > 0 ? model.maxTokens : Infinity)] *)
Definition output_limit (share reserve : num) (model : SummaryModel) : num :=
  num_min (num_floor (num_mul share reserve)) (if num_ltb (of_Z 0) (m_maxTokens model) then m_maxTokens model else S754_infinity false).

Definition reasoning_option (model : SummaryModel) (thinkingLevel : option jstring) : option jstring :=
  match thinkingLevel with
  | Some level => if m_reasoning model && negb (bool_decide (level = $"off")) then Some level else None
  | None => None
  end.

Definition or_text (message : option jstring) (fallback : jstring) : jstring :=
  match message with Some ((_ :: _) as m) => m | _ => fallback end.

Definition unusableSummary (r : SummaryResponse) (label : jstring) : option jstring :=
  match r_stop r with
  | StopLength => Some (label ++ $" hit the token limit; the summary is incomplete")
  | _ =>
      if existsb is_call (r_content r) then Some (label ++ $" attempted to call a tool")
      else match trim (contentTextForSummary (ContentBlocks (r_content r)) [10]) with
           | [] => Some (label ++ $" produced no text")
           | _ => None
           end
  end.

(** What both generators do with a settled response. *)
Definition judge (label : jstring) (r : SummaryResponse) : result CompactionError (jstring * Usage) :=
  match r_stop r with
  | StopAborted => Err (CompactionAborted (or_text (r_error r) (label ++ $" aborted")))
  | StopError => Err (SummarizationFailed (label ++ $" failed: " ++ or_text (r_error r) $"Unknown error"))
  | _ =>
      match unusableSummary r label with
      | Some why => Err (SummarizationFailed why)
      | None => Ok (contentTextForSummary (ContentBlocks (r_content r)) [10], r_usage r)
      end
  end.

Definition history_prompt (messages : list AgentMessage) (model : SummaryModel) (reserve : num)
    (customInstructions previousSummary thinkingLevel : option jstring) : SummaryPrompt :=
  let previous := match previousSummary with Some ((_ :: _) as p) => Some p | _ => None end in
  let base := match previous with Some _ => UPDATE_SUMMARIZATION_PROMPT | None => SUMMARIZATION_PROMPT end in
  let base := match customInstructions with Some ((_ :: _) as c) => base ++ [10; 10] ++ $"Additional focus: " ++ c | _ => base end in
  mkPrompt SUMMARIZATION_SYSTEM_PROMPT
    (conversation messages
     ++ match previous with
        | Some p => $"<previous-summary>" ++ [10] ++ p ++ [10] ++ $"</previous-summary>" ++ [10; 10]
        | None => []
        end ++ base)
    (output_limit eight_tenths reserve model) (reasoning_option model thinkingLevel).

Definition prefix_prompt (messages : list AgentMessage) (model : SummaryModel) (reserve : num) (thinkingLevel : option jstring) : SummaryPrompt :=
  mkPrompt SUMMARIZATION_SYSTEM_PROMPT (conversation messages ++ TURN_PREFIX_SUMMARIZATION_PROMPT)
    (output_limit one_half reserve model) (reasoning_option model thinkingLevel).

(** [addUsage] (harness/utils/usage.ts) *)
Definition add_optional (a b : option num) : option num :=
  match a, b with None, None => None | _, _ => Some (num_add (default (of_Z 0) a) (default (of_Z 0) b)) end.

Definition addUsage (l r : Usage) : Usage :=
  let '(li, lo, lr, lw, lt) := cost l in
  let '(ri, ro, rr, rw, rt) := cost r in
  mkUsage None (num_add (u_input l) (u_input r)) (num_add (u_output l) (u_output r))
    (num_add (cacheRead l) (cacheRead r)) (num_add (cacheWrite l) (cacheWrite r))
    (add_optional (cacheWrite1h l) (cacheWrite1h r)) (add_optional (reasoning l) (reasoning r))
    (num_add (totalTokens l) (totalTokens r))
    (num_add li ri, num_add lo ro, num_add lr rr, num_add lw rw, num_add lt rt)
    (costUnknown l || costUnknown r).

Record CompactResult := mkResult {
  c_summary : jstring; c_tokensBefore : num; c_usage : Usage; c_retainedTail : list AgentMessage; c_details : FileLists }.

Section Compact.
Context {St : Type} (request : St -> SummaryPrompt -> St * SummaryResponse).

Definition generateSummaryWithRequest (messages : list AgentMessage) (model : SummaryModel) (reserve : num)
    (customInstructions previousSummary thinkingLevel : option jstring) (w : St) : St * result CompactionError (jstring * Usage) :=
  let '(w, response) := request w (history_prompt messages model reserve customInstructions previousSummary thinkingLevel) in
  (w, judge $"Summarization" response).

Definition generateTurnPrefixSummary (messages : list AgentMessage) (model : SummaryModel) (reserve : num)
    (thinkingLevel : option jstring) (w : St) : St * result CompactionError (jstring * Usage) :=
  let '(w, response) := request w (prefix_prompt messages model reserve thinkingLevel) in
  (w, judge $"Turn prefix summarization" response).

Definition finish (p : CompactionPreparation) (text : jstring) (usage : Usage) : CompactResult :=
  let lists := computeFileLists (fileOps p) in
  mkResult (text ++ formatFileOperations lists) (p_tokensBefore p) usage (retainedTail p) lists.

Definition split_text (history prefix : jstring) : jstring :=
  history ++ [10; 10] ++ $"---" ++ [10; 10] ++ $"**Turn Context (split turn):**" ++ [10; 10] ++ prefix.

Definition compactWithRequest (p : CompactionPreparation) (model : SummaryModel) (customInstructions thinkingLevel : option jstring)
    (w : St) : St * result CompactionError CompactResult :=
  let reserve := reserveTokens (settings p) in
  if p_isSplitTurn p && negb (bool_decide (turnPrefixMessages p = [])) then
    let '(w, history) :=
      match messagesToSummarize p with
      | [] => (w, Ok ($"No prior history.", None))
      | messages =>
          let '(w, r) := generateSummaryWithRequest messages model reserve customInstructions (previousSummary p) thinkingLevel w in
          (w, match r with Ok (text, usage) => Ok (text, Some usage) | Err e => Err e end)
      end in
    match history with
    | Err e => (w, Err e)
    | Ok (historyText, historyUsage) =>
        let '(w, r) := generateTurnPrefixSummary (turnPrefixMessages p) model reserve thinkingLevel w in
        match r with
        | Err e => (w, Err e)
        | Ok (text, usage) =>
            (w, Ok (finish p (split_text historyText text) (match historyUsage with Some u => addUsage u usage | None => usage end)))
        end
    end
  else
    let '(w, r) :=
      generateSummaryWithRequest (messagesToSummarize p) model reserve customInstructions (previousSummary p) thinkingLevel w in
    match r with
    | Err e => (w, Err e)
    | Ok (text, usage) => (w, Ok (finish p text usage))
    end.
End Compact.
End Text.
