(* ===== verification/JsonRead.v ===== *)
(** * Reading JSON text back

The text [stringify] gives a value determines the value, up to the texts of its
numbers and the prototypes of its objects: two values with the same text have the
same structure.  Comparing texts is therefore comparing values. *)
From S2P Require Import Prelude JsString JsonText JsNumber Json Summary.
#[local] Open Scope Z_scope.

(** ** Induction through the elements of arrays and objects *)

Section JsonInd.
Context (P : json -> Prop) (Hnull : P JsNull) (Hbool : forall b, P (JsBool b)) (Hnum : forall f, P (JsNum f)) (Hstr : forall s, P (JsStr s)).
Context (Harr : forall items, Forall P items -> P (JsArr items)).
Context (Hobj : forall b es, Forall (fun e => P e.2) es -> P (JsObj b es)).

Fixpoint json_nested_ind (v : json) : P v :=
  match v with
  | JsNull => Hnull
  | JsBool b => Hbool b
  | JsNum f => Hnum f
  | JsStr s => Hstr s
  | JsArr items => Harr items ((fix go l : Forall P l :=
      match l with [] => @List.Forall_nil _ _ | x :: l' => @List.Forall_cons _ _ _ _ (json_nested_ind x) (go l') end) items)
  | JsObj b es => Hobj b es ((fix go l : Forall (fun e => P e.2) l :=
      match l with [] => @List.Forall_nil _ _ | x :: l' => @List.Forall_cons _ _ _ _ (json_nested_ind x.2) (go l') end) es)
  end.
End JsonInd.

(** ** Characters that end a value, and those of a bare token *)

Definition stops (c : Z) : Prop := c = 44 \/ c = 93 \/ c = 125.
(** No comma, quote, bracket or brace. *)
Definition bare (c : Z) : Prop := ~ stops c /\ c <> 34 /\ c <> 91 /\ c <> 123.
Definition stopped (k : jstring) : Prop := match k with [] => True | c :: _ => stops c end.

(** The text of a number is a bare token. *)
Definition plain_numbers (number_text : num -> jstring) : Prop := forall f, number_text f <> [] /\ Forall bare (number_text f).

Lemma bare_inj t t' k k' : Forall bare t -> Forall bare t' -> stopped k -> stopped k' -> t ++ k = t' ++ k' -> t = t' /\ k = k'.
Proof.
  intros Ht. revert t'. induction Ht as [|c t [Hc _] Ht IH]; intros t' Ht' Hk Hk' E.
  - destruct Ht' as [|c' t' [Hc' _] _]; [done|]. cbn in E. subst k. done.
  - destruct Ht' as [|c' t' Hc' Ht']; cbn in E; [subst k'; done|]. injection E as -> E. by destruct (IH t' Ht' Hk Hk' E) as [-> ->].
Qed.

(** ** Values with the same text *)

Section Read.
Context (number_text : num -> jstring).

(** The text of a value that is neither a string, an array nor an object. *)
Definition token (v : json) : option jstring :=
  match v with
  | JsNull => Some $"null"
  | JsBool b => Some (if b then $"true" else $"false")
  | JsNum f => Some (number_text f)
  | _ => None
  end.

(** The same structure: equal tokens, equal strings, the same elements in order,
and the same members, in order, under equal names. *)
Inductive same_json : json -> json -> Prop :=
| same_token v v' t : token v = Some t -> token v' = Some t -> same_json v v'
| same_string s : same_json (JsStr s) (JsStr s)
| same_array l l' : Forall2 same_json l l' -> same_json (JsArr l) (JsArr l')
| same_object b b' es es' :
    Forall2 (fun e e' => e.1 = e'.1 /\ same_json e.2 e'.2) es es' -> same_json (JsObj b es) (JsObj b' es').

Section Lists.
Context {A : Type} (text : A -> jstring) (same : A -> A -> Prop).

(** The element is determined by its text, with what follows. *)
Definition reads (x : A) : Prop :=
  forall x' k k', stopped k -> stopped k' -> text x ++ k = text x' ++ k' -> same x x' /\ k = k'.

(** A text that does not begin with the end of a value. *)
Definition starts (s : jstring) : Prop := exists c r, s = c :: r /\ ~ stops c.

Lemma rest_stops l c k : stops c -> stopped ((l ≫= fun y => $"," ++ text y) ++ c :: k).
Proof. intros Hc. destruct l; [done|]. by left. Qed.

Lemma reads_rest l l' c k k' :
  c = 93 \/ c = 125 -> Forall reads l ->
  (l ≫= fun y => $"," ++ text y) ++ c :: k = (l' ≫= fun y => $"," ++ text y) ++ c :: k' -> Forall2 same l l' /\ k = k'.
Proof.
  intros Hc Hl. assert (stops c) as Hs by (destruct Hc; unfold stops; lia).
  revert l'. induction Hl as [|x l Hx Hl IH]; intros [|x' l'] E; cbn in E.
  - injection E as ->. split; [constructor|done].
  - injection E as -> _. destruct Hc; lia.
  - injection E as <- _. destruct Hc; lia.
  - injection E as E. rewrite <- !app_assoc in E.
    destruct (Hx x' _ _ (rest_stops l c k Hs) (rest_stops l' c k' Hs) E) as [Hxx E']. destruct (IH l' E') as [Hll ->]. by split; [constructor|].
Qed.

Lemma join_rest l c k :
  join $"," (text <$> l) ++ c :: k = match l with [] => c :: k | x :: l => text x ++ (l ≫= fun y => $"," ++ text y) ++ c :: k end.
Proof.
  destruct l as [|x l]; [done|]. cbn [fmap list_fmap join]. rewrite <- app_assoc. do 2 f_equal.
  induction l as [|y l IH]; [done|]. cbn [fmap list_fmap mbind list_bind]. by rewrite <- !app_assoc, IH.
Qed.

Lemma reads_join l l' c k k' :
  c = 93 \/ c = 125 -> (forall x, starts (text x)) -> Forall reads l ->
  join $"," (text <$> l) ++ c :: k = join $"," (text <$> l') ++ c :: k' -> Forall2 same l l' /\ k = k'.
Proof.
  intros Hc Hst Hl E. assert (stops c) as Hs by (destruct Hc; unfold stops; lia). rewrite !join_rest in E.
  destruct Hl as [|x l Hx Hl], l' as [|x' l'].
  - injection E as ->. split; [constructor|done].
  - destruct (Hst x') as (d & r & Hd & Hnd). rewrite Hd in E. injection E as -> _. done.
  - destruct (Hst x) as (d & r & Hd & Hnd). rewrite Hd in E. injection E as <- _. done.
  - destruct (Hx x' _ _ (rest_stops l c k Hs) (rest_stops l' c k' Hs) E) as [Hxx E'].
    destruct (reads_rest l l' c k k' Hc Hl E') as [Hll ->]. by split; [constructor|].
Qed.
End Lists.

Context (Hnum : plain_numbers number_text).

Lemma token_text v t : token v = Some t -> stringify number_text v = t /\ t <> [] /\ Forall bare t.
Proof.
  destruct v as [|b|f|s|items|np es]; cbn; intros [= <-].
  - split; [done|]. split; [done|]. repeat constructor; unfold stops; lia.
  - destruct b; (split; [done|]; split; [done|]; repeat constructor; unfold stops; lia).
  - split; [done|]. apply Hnum.
Qed.

Lemma bare_starts t : t <> [] -> Forall bare t -> starts t.
Proof. intros Ht Hb. destruct Hb as [|c r [Hc _] _]; [done|]. by exists c, r. Qed.

Lemma stringify_starts v : starts (stringify number_text v).
Proof.
  destruct (token v) as [t|] eqn:Ht.
  - destruct (token_text v t Ht) as (-> & Hne & Hb). by apply bare_starts.
  - destruct v; try done; cbn; eexists _, _; (split; [reflexivity|unfold stops; lia]).
Qed.

(** A text that begins as a token's is a token's. *)
Lemma token_reads v t v' k k' :
  token v = Some t -> stopped k -> stopped k' -> t ++ k = stringify number_text v' ++ k' -> token v' = Some t /\ k = k'.
Proof.
  intros Hv Hk Hk' E. destruct (token_text v t Hv) as (_ & Hne & Hb).
  destruct (token v') as [t'|] eqn:Hv'.
  - destruct (token_text v' t' Hv') as (Htext & _ & Hb'). rewrite Htext in E. by destruct (bare_inj _ _ _ _ Hb Hb' Hk Hk' E) as [-> ->].
  - exfalso. destruct Hb as [|c r [_ Hc] _]; [done|]. destruct v'; try done; cbn in E; injection E as -> _; lia.
Qed.

Lemma member_reads (e : jstring * json) :
  reads (stringify number_text) same_json e.2 ->
  reads (fun e => quoted e.1 ++ $":" ++ stringify number_text e.2) (fun e e' => e.1 = e'.1 /\ same_json e.2 e'.2) e.
Proof.
  intros He e' k k' Hk Hk' E. rewrite <- !app_assoc in E. apply quoted_inj in E as [Hname E]. cbn in E. injection E as E.
  destruct (He e'.2 k k' Hk Hk' E) as [Hv ->]. done.
Qed.

Lemma stringify_reads v : reads (stringify number_text) same_json v.
Proof.
  induction v as [|b|f|s|items IH|np es IH] using json_nested_ind; intros v' k k' Hk Hk' E.
  1-3: match goal with |- same_json ?v _ /\ _ => destruct (token v) as [t|] eqn:Hv; [|done]; pose proof (token_text v t Hv) as (Htext & _);
         rewrite Htext in E; destruct (token_reads v t v' k k' Hv Hk Hk' E) as [Hv' ->]; split; [by eapply same_token|done] end.
  all: destruct (token v') as [t|] eqn:Hv';
    [pose proof (token_text v' t Hv') as (Htext & _); rewrite Htext in E; symmetry in E;
     destruct (token_reads v' t _ k' k Hv' Hk' Hk E) as [Hbad _]; discriminate Hbad|].
  - destruct v' as [|b'|f'|s'|items'|np' es']; try discriminate Hv'; try discriminate E. cbn [stringify] in E.
    apply quoted_inj in E as [-> ->]. split; [constructor|done].
  - destruct v' as [|b'|f'|s'|items'|np' es']; try discriminate Hv'; try discriminate E.
    cbn [stringify app] in E. injection E as E. rewrite <- !app_assoc in E.
    destruct (reads_join (stringify number_text) same_json items items' 93 k k' (or_introl eq_refl) stringify_starts IH E) as [Hl ->].
    split; [by constructor|done].
  - destruct v' as [|b'|f'|s'|items'|np' es']; try discriminate Hv'; try discriminate E.
    cbn [stringify app] in E. injection E as E. rewrite <- !app_assoc in E.
    eapply (reads_join (fun e => quoted e.1 ++ $":" ++ stringify number_text e.2) _ es es' 125 k k' (or_intror eq_refl)) in E.
    + destruct E as [Hl ->]. split; [by constructor|done].
    + intros e. eexists _, _. split; [reflexivity|unfold stops; lia].
    + eapply Forall_impl; [exact IH|]. intros e. apply member_reads.
Qed.
End Read.
