(* ===== verification/SummaryCorrect.v ===== *)
(** * What summaries promise

The file lists carried from compaction to compaction, the requests of a
compaction against a plan of prompts, and the history a split turn loses. *)
From Stdlib Require Import Floats.SpecFloat.
From S2P Require Import Prelude JsString JsonText JsNumber JsObject Json EditText EditCorrect DurableStore Ledger Messages Compaction CompactionCorrect Summary JsonRead.
#[local] Open Scope Z_scope.

(** ** Token estimates of tool calls *)

Lemma blen_join sep (l : list jstring) : blen (join sep l) = sum_of blen l + Z.max 0 (blen l - 1) * blen sep.
Proof.
  destruct l as [|x l]; [done|]. unfold join. rewrite blen_app, blen_cons. pose proof (blen_nonneg l).
  replace (Z.max 0 (1 + blen l - 1)) with (blen l) by lia. unfold sum_of. cbn [foldr].
  enough (blen (l ≫= fun y => sep ++ y) = foldr (fun x n => blen x + n) 0 l + blen l * blen sep) by lia.
  clear. induction l as [|y l IH]; [done|]. cbn [mbind list_bind foldr]. rewrite !blen_app, blen_cons, IH. lia.
Qed.

Lemma sum_of_fmap {A B} (f : B -> Z) (g : A -> B) l : sum_of f (g <$> l) = sum_of (fun x => f (g x)) l.
Proof. unfold sum_of. induction l as [|x l IH]; cbn; [done|]. by rewrite IH. Qed.

Lemma sum_of_ext {A} (f g : A -> Z) l : Forall (fun x => f x = g x) l -> sum_of f l = sum_of g l.
Proof. unfold sum_of. induction 1 as [|x l Hx Hl IH]; cbn; [done|]. by rewrite Hx, IH. Qed.

Section Correct.
Context (number_text : num -> jstring).

(** The characters counted for the arguments of a call are those of their JSON text. *)
Lemma json_chars_length v : json_chars number_text v = blen (stringify number_text v).
Proof.
  induction v as [|[]| | |items IH|b es IH] using json_nested_ind; try done; cbn [json_chars stringify].
  - rewrite !blen_app, blen_join, sum_of_fmap, blen_fmap, <- (sum_of_ext _ _ _ IH).
    change (blen $"[") with 1. change (blen $"]") with 1. change (blen $",") with 1. lia.
  - rewrite !blen_app, blen_join, sum_of_fmap, blen_fmap.
    rewrite (sum_of_ext (fun e => blen (quoted e.1) + 1 + json_chars number_text e.2) (fun e => blen (quoted e.1 ++ $":" ++ stringify number_text e.2))).
    + change (blen $"{") with 1. change (blen $"}") with 1. change (blen $",") with 1. lia.
    + eapply Forall_impl; [exact IH|]. intros [k v] Hv. cbn [fst snd] in *. rewrite !blen_app, Hv. change (blen $":") with 1. lia.
Qed.
End Correct.

(** ** The requests of a compaction *)

Lemma trimEnd_nil s : trimEnd s = [] <-> Forall (fun c => is_space c = true) s.
Proof.
  induction s as [|c s IH]; cbn [trimEnd]; [by split; [constructor|]|]. rewrite Forall_cons, <- IH.
  destruct (trimEnd s) as [|d t]; [destruct (is_space c); naive_solver|naive_solver].
Qed.

Lemma trimEnd_spaces s : exists r, s = trimEnd s ++ r /\ Forall (fun c => is_space c = true) r.
Proof.
  induction s as [|c s (r & Hr & Hs)]; [by exists []|]. cbn [trimEnd]. destruct (trimEnd s) as [|d t].
  - destruct (is_space c) eqn:Hc; [exists (c :: s); rewrite Hr; by repeat constructor|]. exists s. rewrite Hr. by split.
  - exists r. cbn. by rewrite Hr at 1.
Qed.

Lemma Forall_reverse {A} (P : A -> Prop) l : Forall P (rev l) <-> Forall P l.
Proof. rewrite !Forall_forall. by setoid_rewrite list_elem_of_In; setoid_rewrite <- in_rev. Qed.

Lemma trim_nil s : trim s = [] <-> Forall (fun c => is_space c = true) s.
Proof.
  unfold trim. rewrite trimEnd_nil, Forall_reverse. destruct (trimEnd_spaces (rev s)) as (r & Hr & Hs).
  rewrite <- (Forall_reverse _ s). rewrite Hr at 2. rewrite Forall_app. naive_solver.
Qed.

(** A response that may replace history. *)
Record usable (r : SummaryResponse) : Prop := {
  us_stop : r_stop r <> StopError /\ r_stop r <> StopAborted /\ r_stop r <> StopLength;
  us_calls : Forall (fun b => is_call b = false) (r_content r);
  us_text : exists c, c ∈ contentTextForSummary (ContentBlocks (r_content r)) [10] /\ is_space c = false }.

Lemma existsb_false {A} (f : A -> bool) l : existsb f l = false <-> Forall (fun x => f x = false) l.
Proof. induction l as [|x l IH]; cbn; [by split|]. rewrite orb_false_iff, Forall_cons. naive_solver. Qed.

Lemma not_all_space s : trim s <> [] <-> exists c, c ∈ s /\ is_space c = false.
Proof.
  rewrite trim_nil. split.
  - intros Hn. apply not_Forall_Exists in Hn; [|intros c; apply _]. apply Exists_exists in Hn as (c & Hc & Hs).
    exists c. split; [done|]. by apply not_true_is_false.
  - intros (c & Hc & Hs) Hall. rewrite Forall_forall in Hall. specialize (Hall c Hc). congruence.
Qed.

Lemma judge_ok label r x : judge label r = Ok x <-> usable r /\ x = (contentTextForSummary (ContentBlocks (r_content r)) [10], r_usage r).
Proof.
  pose proof (not_all_space (contentTextForSummary (ContentBlocks (r_content r)) [10])) as Ht. unfold judge, unusableSummary.
  split.
  - intros H. split.
    + split; [by destruct (r_stop r)| |].
      * apply existsb_false. destruct (r_stop r), (existsb is_call (r_content r)); done.
      * apply Ht. destruct (r_stop r), (existsb is_call (r_content r)); try done; by destruct (trim _).
    + destruct (r_stop r), (existsb is_call (r_content r)); try done; destruct (trim _); congruence.
  - intros [[(? & ? & ?) Hc%existsb_false Hx%Ht] ->]. rewrite Hc. destruct (r_stop r); try done; by destruct (trim _).
Qed.

(** Members of the file lists. *)
Lemma elem_of_set_add x y s : x ∈ set_add y s <-> x = y \/ x ∈ s.
Proof. unfold set_add. case_bool_decide; [set_solver|]. rewrite elem_of_app, list_elem_of_singleton. naive_solver. Qed.

Lemma elem_of_set_adds x l s : x ∈ foldl (fun s p => set_add p s) s l <-> x ∈ s \/ x ∈ l.
Proof.
  revert s. induction l as [|y l IH]; intros s; cbn [foldl]; [set_solver|]. rewrite IH, elem_of_set_add, elem_of_cons. naive_solver.
Qed.

Lemma elem_of_sort x l : x ∈ sort_units l <-> x ∈ l.
Proof. unfold sort_units. by rewrite sort_by_Permutation. Qed.

Lemma elem_of_file_lists file ops :
  (file ∈ modifiedFiles (computeFileLists ops) <-> file ∈ files_edited ops \/ file ∈ files_written ops) /\
  (file ∈ readFiles (computeFileLists ops) <-> file ∈ files_read ops /\ file ∉ modifiedFiles (computeFileLists ops)).
Proof.
  unfold computeFileLists. cbn [modifiedFiles readFiles]. rewrite !elem_of_sort, !elem_of_set_adds, elem_of_nil. split; [naive_solver|].
  rewrite list_elem_of_In, List.filter_In, <- list_elem_of_In, negb_true_iff, bool_decide_eq_false, !elem_of_set_adds, elem_of_nil.
  naive_solver.
Qed.

Section Plan.
Context (number_text : num -> jstring) {St : Type} (request : St -> SummaryPrompt -> St * SummaryResponse).

(** *** What is asked *)

Definition tagged (tag text : jstring) : jstring := $"<" ++ tag ++ $">" ++ [10] ++ text ++ [10] ++ $"</" ++ tag ++ $">".

(** A text that was given and is not empty. *)
Definition given (o : option jstring) : list jstring := match o with Some (c :: t) => [c :: t] | _ => [] end.

(** The output a model may use: a share of the reserve, at most its own limit if it has one. *)
Definition share_of (share : num) (p : CompactionPreparation) (model : SummaryModel) : num :=
  num_min (num_floor (num_mul share (reserveTokens (settings p)))) (if num_ltb (of_Z 0) (m_maxTokens model) then m_maxTokens model else S754_infinity false).

(** The level passed on: only to a model that reasons, and not "off". *)
Definition level_for (model : SummaryModel) (thinkingLevel : option jstring) : option jstring :=
  if m_reasoning model then thinkingLevel ≫= fun l => if bool_decide (l = $"off") then None else Some l else None.

(** The conversation in its tags, the earlier summary in its own when there is one, the instructions that go with
that, and the caller's focus. *)
Definition history_asked (p : CompactionPreparation) (model : SummaryModel) (customInstructions thinkingLevel : option jstring) : SummaryPrompt :=
  mkPrompt SUMMARIZATION_SYSTEM_PROMPT
    (tagged $"conversation" (serializeConversation number_text (convertToLlm number_text (messagesToSummarize p))) ++ [10; 10]
     ++ concat ((fun s => tagged $"previous-summary" s ++ [10; 10]) <$> given (previousSummary p))
     ++ (if bool_decide (given (previousSummary p) = []) then SUMMARIZATION_PROMPT else UPDATE_SUMMARIZATION_PROMPT)
     ++ concat ((fun c => [10; 10] ++ $"Additional focus: " ++ c) <$> given customInstructions))
    (share_of eight_tenths p model) (level_for model thinkingLevel).

Definition prefix_asked (p : CompactionPreparation) (model : SummaryModel) (thinkingLevel : option jstring) : SummaryPrompt :=
  mkPrompt SUMMARIZATION_SYSTEM_PROMPT
    (tagged $"conversation" (serializeConversation number_text (convertToLlm number_text (turnPrefixMessages p))) ++ [10; 10]
     ++ TURN_PREFIX_SUMMARIZATION_PROMPT)
    (share_of one_half p model) (level_for model thinkingLevel).

Definition splits (p : CompactionPreparation) : bool := p_isSplitTurn p && negb (bool_decide (turnPrefixMessages p = [])).

(** The history unless a split turn leaves none, then the prefix of the split turn. *)
Definition prompts (p : CompactionPreparation) (model : SummaryModel) (customInstructions thinkingLevel : option jstring) : list (jstring * SummaryPrompt) :=
  let history := ($"Summarization", history_asked p model customInstructions thinkingLevel) in
  let prefix := ($"Turn prefix summarization", prefix_asked p model thinkingLevel) in
  if splits p then match messagesToSummarize p with [] => [prefix] | _ => [history; prefix] end else [history].

Definition text_of (r : SummaryResponse) : jstring := contentTextForSummary (ContentBlocks (r_content r)) [10].

(** Why a response that is not usable is refused. *)
Inductive refusal (label : jstring) (r : SummaryResponse) : CompactionError -> Prop :=
| refusal_aborted : r_stop r = StopAborted ->
    refusal label r (CompactionAborted (hd (label ++ $" aborted") (given (r_error r))))
| refusal_failed : r_stop r = StopError ->
    refusal label r (SummarizationFailed (label ++ $" failed: " ++ hd $"Unknown error" (given (r_error r))))
| refusal_cut : r_stop r = StopLength ->
    refusal label r (SummarizationFailed (label ++ $" hit the token limit; the summary is incomplete"))
| refusal_calls b : r_stop r <> StopAborted -> r_stop r <> StopError -> r_stop r <> StopLength -> b ∈ r_content r -> is_call b = true ->
    refusal label r (SummarizationFailed (label ++ $" attempted to call a tool"))
| refusal_blank : r_stop r <> StopAborted -> r_stop r <> StopError -> r_stop r <> StopLength ->
    Forall (fun b => is_call b = false) (r_content r) -> Forall (fun c => is_space c = true) (text_of r) ->
    refusal label r (SummarizationFailed (label ++ $" produced no text")).

(** Asking prompts in order, up to the first response that is refused. *)
Inductive asking : list (jstring * SummaryPrompt) -> St -> St -> result CompactionError (list SummaryResponse) -> Prop :=
| asking_done w : asking [] w w (Ok [])
| asking_refused label q more w w1 r e : request w q = (w1, r) -> refusal label r e -> asking ((label, q) :: more) w w1 (Err e)
| asking_next label q more w w1 w2 r rs : request w q = (w1, r) -> usable r -> asking more w1 w2 (Ok rs) -> asking ((label, q) :: more) w w2 (Ok (r :: rs))
| asking_stop label q more w w1 w2 r e : request w q = (w1, r) -> usable r -> asking more w1 w2 (Err e) -> asking ((label, q) :: more) w w2 (Err e).

(** *** What is made of the answers *)

Definition file_tags (l : FileLists) : jstring :=
  concat ((fun s => [10; 10] ++ s)
    <$> (match readFiles l with [] => [] | fs => [tagged $"read-files" (join [10] fs)] end
         ++ match modifiedFiles l with [] => [] | fs => [tagged $"modified-files" (join [10] fs)] end)).

Definition turn_context (history prefix : jstring) : jstring :=
  history ++ [10; 10] ++ $"---" ++ [10; 10] ++ $"**Turn Context (split turn):**" ++ [10; 10] ++ prefix.

Record made (p : CompactionPreparation) (rs : list SummaryResponse) (r : CompactResult) : Prop := {
  made_summary : exists text, c_summary r = text ++ file_tags (c_details r) /\
    match rs with
    | [a; b] => splits p = true /\ text = turn_context (text_of a) (text_of b) /\ c_usage r = addUsage (r_usage a) (r_usage b)
    | [a] => text = (if splits p then turn_context $"No prior history." (text_of a) else text_of a) /\ c_usage r = r_usage a
    | _ => False
    end;
  made_tail : c_retainedTail r = retainedTail p;
  made_tokens : c_tokensBefore r = p_tokensBefore p;
  made_modified : forall file, file ∈ modifiedFiles (c_details r) <-> file ∈ files_edited (fileOps p) \/ file ∈ files_written (fileOps p);
  made_read : forall file, file ∈ readFiles (c_details r) <->
    file ∈ files_read (fileOps p) /\ file ∉ files_edited (fileOps p) /\ file ∉ files_written (fileOps p) }.

Lemma judge_refusal label r e : judge label r = Err e -> refusal label r e.
Proof.
  assert (Hor : forall fallback, or_text (r_error r) fallback = hd fallback (given (r_error r))) by (intros; by destruct (r_error r) as [[]|]).
  unfold judge, unusableSummary. rewrite !Hor.
  assert (Hgo : r_stop r <> StopAborted -> r_stop r <> StopError -> r_stop r <> StopLength ->
    match (if existsb is_call (r_content r) then Some (label ++ $" attempted to call a tool")
           else match trim (text_of r) with [] => Some (label ++ $" produced no text") | _ => None end) with
    | Some why => Err (SummarizationFailed why)
    | None => Ok (text_of r, r_usage r)
    end = Err e -> refusal label r e).
  { intros ? ? ?. destruct (existsb is_call (r_content r)) eqn:Hc.
    - intros [= <-]. apply existsb_exists in Hc as (b & Hb%list_elem_of_In & Hcall). by apply (refusal_calls _ _ b).
    - apply existsb_false in Hc. destruct (trim (text_of r)) eqn:Ht; [|done]. intros [= <-]. apply trim_nil in Ht. by apply refusal_blank. }
  destruct (r_stop r) eqn:Hs; try (by apply Hgo).
  - intros [= <-]. by apply refusal_cut.
  - intros [= <-]. by apply refusal_failed.
  - intros [= <-]. by apply refusal_aborted.
Qed.

Lemma tagged_parts tag text : tagged tag text = ($"<" ++ tag ++ $">") ++ [10] ++ text ++ [10] ++ ($"</" ++ tag ++ $">").
Proof. unfold tagged. by rewrite <- !app_assoc. Qed.

Lemma conversation_tagged messages :
  conversation number_text messages = tagged $"conversation" (serializeConversation number_text (convertToLlm number_text messages)) ++ [10; 10].
Proof. rewrite tagged_parts, <- !app_assoc. done. Qed.

Lemma previous_tagged prev : $"<previous-summary>" ++ [10] ++ prev ++ [10] ++ $"</previous-summary>" ++ [10; 10] = tagged $"previous-summary" prev ++ [10; 10].
Proof. rewrite tagged_parts, <- !app_assoc. done. Qed.

Lemma reasoning_level model level : reasoning_option model level = level_for model level.
Proof.
  unfold reasoning_option, level_for. destruct level as [l|]; cbn; [|by destruct (m_reasoning model)].
  destruct (m_reasoning model); [|done]. by case_bool_decide.
Qed.

Lemma history_prompt_asked p model custom level :
  history_prompt number_text (messagesToSummarize p) model (reserveTokens (settings p)) custom (previousSummary p) level = history_asked p model custom level.
Proof.
  unfold history_prompt, history_asked. rewrite reasoning_level, conversation_tagged. f_equal. rewrite <- app_assoc. do 2 f_equal.
  destruct (previousSummary p) as [[|c prev]|], custom as [[|d focus]|]; cbn [given fmap list_fmap concat];
    rewrite ?bool_decide_eq_true_2, ?bool_decide_eq_false_2 by done; rewrite ?app_nil_r; try done; by rewrite previous_tagged.
Qed.

Lemma prefix_prompt_asked p model level :
  prefix_prompt number_text (turnPrefixMessages p) model (reserveTokens (settings p)) level = prefix_asked p model level.
Proof. unfold prefix_prompt, prefix_asked. rewrite reasoning_level, conversation_tagged. by rewrite <- app_assoc. Qed.

Lemma sections_text (l : list jstring) :
  match l with [] => [] | y :: ys => [10; 10] ++ join [10; 10] (y :: ys) end = concat ((fun s => [10; 10] ++ s) <$> l).
Proof.
  destruct l as [|x l]; [done|]. unfold join. cbn [fmap list_fmap concat]. rewrite <- app_assoc. do 2 f_equal.
  induction l as [|y l IH]; [done|]. cbn [mbind list_bind fmap list_fmap concat]. by rewrite IH.
Qed.

Lemma file_operations_tags l : formatFileOperations l = file_tags l.
Proof.
  unfold formatFileOperations, file_tags. etransitivity; [apply sections_text|]. do 2 f_equal.
  unfold file_section, tagged. by destruct (readFiles l), (modifiedFiles l).
Qed.

Lemma finish_file_tags p text usage : c_summary (finish p text usage) = text ++ file_tags (c_details (finish p text usage)).
Proof. cbn [finish c_summary c_details]. by rewrite file_operations_tags. Qed.

Lemma finish_made p rs text usage :
  match rs with
  | [a; b] => splits p = true /\ text = turn_context (text_of a) (text_of b) /\ usage = addUsage (r_usage a) (r_usage b)
  | [a] => text = (if splits p then turn_context $"No prior history." (text_of a) else text_of a) /\ usage = r_usage a
  | _ => False
  end -> made p rs (finish p text usage).
Proof.
  intros Ht. split; try done.
  - exists text. split; [apply finish_file_tags|done].
  - intros file. apply elem_of_file_lists.
  - intros file. cbn [c_details finish]. rewrite (proj2 (elem_of_file_lists file (fileOps p))), (proj1 (elem_of_file_lists file (fileOps p))). naive_solver.
Qed.

(** C24. A compaction asks exactly these prompts, in order, and stops at the first
answer that cannot be used, with the error that says why: the conversation to
summarise in its tags, followed by the earlier summary when there is one, the
instructions that go with it and the caller's focus; and for a split turn its
prefix.  When every answer can be used it returns their texts put together, followed
by the lists of the files read and modified, with the retained tail and the token
count of the preparation.  An answer is used only when its turn did not fail, was
not cut at the token limit, calls no tool and has a character that is not white
space. *)
Theorem compact_asks_prompts p model customInstructions thinkingLevel w :
  exists w' answers out,
    compactWithRequest number_text request p model customInstructions thinkingLevel w = (w', out) /\
    asking (prompts p model customInstructions thinkingLevel) w w' answers /\
    match answers with
    | Err e => out = Err e
    | Ok rs => exists r, made p rs r /\ out = Ok r
    end.
Proof.
  unfold compactWithRequest, prompts, generateSummaryWithRequest, generateTurnPrefixSummary.
  rewrite history_prompt_asked, prefix_prompt_asked. fold (splits p).
  destruct (splits p) eqn:Hs; [destruct (messagesToSummarize p) as [|m ms] eqn:Hm|].
  2: rewrite <- Hm, history_prompt_asked.
  all: destruct (request w _) as [w1 r1] eqn:E1; destruct (judge _ r1) as [[t1 u1]|e1] eqn:H1;
    [|apply judge_refusal in H1; eexists _, (Err e1), _; split; [reflexivity|]; split; [eapply asking_refused; [exact E1|exact H1]|done]].
  all: apply judge_ok in H1 as [H1 [= -> ->]].
  2: destruct (request w1 _) as [w2 r2] eqn:E2; destruct (judge _ r2) as [[t2 u2]|e2] eqn:H2;
    [|apply judge_refusal in H2; eexists _, (Err e2), _; split; [reflexivity|]; split; [eapply asking_stop; [exact E1|exact H1|]; eapply asking_refused; [exact E2|exact H2]|done]];
    apply judge_ok in H2 as [H2 [= -> ->]].
  - eexists _, (Ok [r1]), _. split; [reflexivity|]. split; [eapply asking_next; [exact E1|exact H1|constructor]|].
    eexists. split; [|done]. apply finish_made. by rewrite Hs.
  - eexists _, (Ok [r1; r2]), _. split; [reflexivity|]. split; [eapply asking_next; [exact E1|exact H1|]; eapply asking_next; [exact E2|exact H2|constructor]|].
    eexists. split; [|done]. by apply finish_made.
  - eexists _, (Ok [r1]), _. split; [reflexivity|]. split; [eapply asking_next; [exact E1|exact H1|constructor]|].
    eexists. split; [|done]. apply finish_made. by rewrite Hs.
Qed.
End Plan.

(** ** A split turn with nothing before it *)

Definition with_previous (p : CompactionPreparation) (summary : option jstring) : CompactionPreparation :=
  mkPreparation (messagesToSummarize p) (turnPrefixMessages p) (retainedTail p) (p_isSplitTurn p) (p_tokensBefore p)
    summary (fileOps p) (settings p).

(** When the split turn begins the compactable messages, the earlier summary
is lost: neither the requests nor the new summary depend on it, although the
messages it stood for are in no other part of the context.  (What a compaction
means to do is update the previous summary; the history half is skipped with
"No prior history." whenever there are no messages to summarise, also when a
previous compaction had left a summary.) *)
Theorem split_turn_forgets_history number_text {St} (request : St -> SummaryPrompt -> St * SummaryResponse) p other model customInstructions thinkingLevel w :
  splits p = true -> messagesToSummarize p = [] ->
  compactWithRequest number_text request p model customInstructions thinkingLevel w =
  compactWithRequest number_text request (with_previous p other) model customInstructions thinkingLevel w.
Proof. unfold compactWithRequest, splits. cbn [with_previous p_isSplitTurn turnPrefixMessages messagesToSummarize]. by intros -> ->. Qed.

(** ** File lists *)

Inductive FileTool := ReadTool | WriteTool | EditTool.

Definition tool_name (t : FileTool) : jstring := match t with ReadTool => $"read" | WriteTool => $"write" | EditTool => $"edit" end.
Definition tool_files (t : FileTool) (ops : FileOperations) : list jstring :=
  match t with ReadTool => files_read ops | WriteTool => files_written ops | EditTool => files_edited ops end.

(** A call of the tool on the file. *)
Definition touches_block (t : FileTool) (file : jstring) (b : ContentBlock) : Prop :=
  exists id args, b = ToolCallBlock id (tool_name t) args /\ string_of (member args $"path") = Some file /\ file <> [].

Definition touched (t : FileTool) (file : jstring) (messages : list AgentMessage) : Prop :=
  exists m a b, m ∈ messages /\ body m = AssistantBody a /\ b ∈ a_content a /\ touches_block t file b.

Lemma NoDup_set_add y s : NoDup s -> NoDup (set_add y s).
Proof.
  unfold set_add. case_bool_decide as Hin; [done|]. intros Hs. apply NoDup_app. split_and!; [done| |apply NoDup_singleton].
  intros x Hx ->%list_elem_of_singleton. done.
Qed.

Lemma NoDup_set_adds l s : NoDup s -> NoDup (foldl (fun s p => set_add p s) s l).
Proof. revert s. induction l as [|y l IH]; intros s Hs; cbn [foldl]; [done|]. by apply IH, NoDup_set_add. Qed.

Lemma touched_block t file ops b :
  file ∈ tool_files t (extract_block ops b) <-> file ∈ tool_files t ops \/ touches_block t file b.
Proof.
  unfold extract_block, touches_block. destruct b as [| | |id name args|]; try (split; [by left|intros [?|(? & ? & ? & _)]; done]).
  destruct (string_of (member args $"path")) as [[|c path]|] eqn:Hp.
  1, 3: split; [by left|]; intros [?|(? & ? & [= -> -> ->] & Hf & Hn)]; [done|]; rewrite Hp in Hf; by simplify_eq.
  set (file' := c :: path) in *.
  assert (forall t', name = tool_name t' -> (exists id' args', ToolCallBlock id name args = ToolCallBlock id' (tool_name t) args' /\
    string_of (member args' $"path") = Some file /\ file <> []) <-> t' = t /\ file = file') as Htouch.
  { intros t' ->. split.
    - intros (id' & args' & [= -> Hn ->] & Hf & _). split; [by destruct t, t'|]. rewrite Hp in Hf. by simplify_eq.
    - intros [-> ->]. by exists id, args. }
  repeat case_bool_decide; subst.
  - rewrite (Htouch ReadTool eq_refl). destruct t; cbn [tool_files files_read files_written files_edited]; rewrite ?elem_of_set_add; naive_solver.
  - rewrite (Htouch WriteTool eq_refl). destruct t; cbn [tool_files files_read files_written files_edited]; rewrite ?elem_of_set_add; naive_solver.
  - rewrite (Htouch EditTool eq_refl). destruct t; cbn [tool_files files_read files_written files_edited]; rewrite ?elem_of_set_add; naive_solver.
  - split; [by left|]. intros [?|(? & ? & [= -> -> ->] & _)]; [done|]. destruct t; done.
Qed.

Lemma touched_blocks t file bs ops :
  file ∈ tool_files t (foldl extract_block ops bs) <-> file ∈ tool_files t ops \/ exists b, b ∈ bs /\ touches_block t file b.
Proof.
  revert ops. induction bs as [|b bs IH]; intros ops; cbn [foldl]; [set_solver|].
  rewrite IH, touched_block. setoid_rewrite elem_of_cons. naive_solver.
Qed.

Lemma touched_nil t file : ~ touched t file [].
Proof. intros (m & a & b & Hm & _). set_solver. Qed.

Lemma touched_app t file ms ms' : touched t file (ms ++ ms') <-> touched t file ms \/ touched t file ms'.
Proof.
  unfold touched. setoid_rewrite elem_of_app. split.
  - intros (m & a & b & [Hm|Hm] & H); [left|right]; by exists m, a, b.
  - intros [(m & a & b & Hm & H)|(m & a & b & Hm & H)]; exists m, a, b; auto.
Qed.

Lemma touched_message t file m ops :
  file ∈ tool_files t (extractFileOpsFromMessage ops m) <-> file ∈ tool_files t ops \/ touched t file [m].
Proof.
  unfold extractFileOpsFromMessage, touched. setoid_rewrite list_elem_of_singleton. destruct (body m) as [| |a| | | | | |] eqn:Hb.
  3: { rewrite touched_blocks. split; (intros [?|H]; [by left|right]); [destruct H as (b & Hin & Ht); by exists m, a, b|].
    destruct H as (m' & a' & b & -> & Hb' & Hin & Ht). rewrite Hb in Hb'. simplify_eq. by exists b. }
  all: split; [by left|]; intros [?|(m' & a' & b' & -> & ? & _)]; [done|congruence].
Qed.

Lemma touched_messages t file ms ops :
  file ∈ tool_files t (foldl extractFileOpsFromMessage ops ms) <-> file ∈ tool_files t ops \/ touched t file ms.
Proof.
  revert ops. induction ms as [|m ms IH]; intros ops; cbn [foldl].
  - split; [by left|]. intros [?|?%touched_nil]; done.
  - rewrite IH, touched_message, (touched_app _ _ [m] ms : touched t file (m :: ms) <-> _). tauto.
Qed.

(** What the newest compaction of a path recorded. *)
Definition recorded (path : list Entry) : FileLists :=
  match last_compaction path ≫= fun i => path !! i with
  | Some e =>
      match e_data e with
      | CompactionEntry _ _ _ (Some details) =>
          mkFileLists (strings_in (member details $"readFiles")) (strings_in (member details $"modifiedFiles"))
      | _ => mkFileLists [] []
      end
  | None => mkFileLists [] []
  end.

Lemma recorded_files path t file messages :
  file ∈ tool_files t (extractFileOperations messages path) <->
  match t with ReadTool => file ∈ readFiles (recorded path) | WriteTool => False | EditTool => file ∈ modifiedFiles (recorded path) end \/
  touched t file messages.
Proof.
  unfold extractFileOperations, recorded. rewrite touched_messages. apply or_iff_compat_r.
  destruct (last_compaction path ≫= _) as [e|]; [destruct (e_data e) as [| ? ? ? [details|] | |]|].
  2: destruct t; cbn [tool_files files_read files_written files_edited readFiles modifiedFiles];
     rewrite ?elem_of_set_adds, ?elem_of_nil; naive_solver.
  all: destruct t; cbn [tool_files files_read files_written files_edited readFiles modifiedFiles]; by rewrite elem_of_nil.
Qed.

(** The operations of a preparation: the summarised messages and the split turn's prefix, on top of what was recorded. *)
Lemma prepared_files number_text path s p t file :
  prepareCompaction number_text path s = Some p ->
  file ∈ tool_files t (fileOps p) <->
  match t with ReadTool => file ∈ readFiles (recorded path) | WriteTool => False | EditTool => file ∈ modifiedFiles (recorded path) end \/
  touched t file (messagesToSummarize p ++ turnPrefixMessages p).
Proof.
  unfold prepareCompaction. destruct (last path) as [e|]; [|done]. destruct (is_compaction e); [done|].
  intros [= <-]. cbn [fileOps messagesToSummarize turnPrefixMessages].
  rewrite touched_messages, touched_app, recorded_files. tauto.
Qed.

(** The file lists of a compaction are exact: a file is listed as modified
when the previous compaction listed it so or a summarised message wrote or
edited it, and as read when the previous compaction listed it as read or a
summarised message read it and it is not modified. *)
Theorem file_lists_exact number_text path s p file :
  prepareCompaction number_text path s = Some p ->
  let lists := computeFileLists (fileOps p) in
  let summarised := messagesToSummarize p ++ turnPrefixMessages p in
  (file ∈ modifiedFiles lists <->
     file ∈ modifiedFiles (recorded path) \/ touched WriteTool file summarised \/ touched EditTool file summarised) /\
  (file ∈ readFiles lists <->
     (file ∈ readFiles (recorded path) \/ touched ReadTool file summarised) /\ file ∉ modifiedFiles lists).
Proof.
  intros Hp lists summarised. destruct (elem_of_file_lists file (fileOps p)) as [Hm Hr].
  pose proof (fun t => prepared_files number_text path s p t file Hp) as Hf.
  split; [unfold lists; rewrite Hm|unfold lists at 1; rewrite Hr].
  - rewrite (Hf WriteTool : file ∈ files_written _ <-> _), (Hf EditTool : file ∈ files_edited _ <-> _). unfold summarised. tauto.
  - by rewrite (Hf ReadTool : file ∈ files_read _ <-> _).
Qed.

Lemma strings_of_fmap l : strings_in (Some (JsArr (JsStr <$> l))) = l.
Proof. induction l as [|x l IH]; [done|]. cbn in *. by rewrite IH. Qed.

Lemma recorded_lists path id now p summary lists more :
  Forall (fun e => is_compaction e = false) more ->
  recorded (path ++ compaction_entry id now p summary (Some (details_json lists)) :: more) = lists.
Proof.
  intros Hmore. unfold recorded.
  assert (last_compaction (path ++ compaction_entry id now p summary (Some (details_json lists)) :: more) = Some (length path)) as ->.
  { induction path as [|e path IH]; cbn [app last_compaction length]; [|by rewrite IH].
    by rewrite (proj2 (last_compaction_None more) Hmore). }
  cbn [mbind option_bind]. rewrite list_lookup_middle by done. cbn [e_data compaction_entry].
  change (member (details_json lists) $"readFiles") with (Some (JsArr (JsStr <$> readFiles lists))).
  change (member (details_json lists) $"modifiedFiles") with (Some (JsArr (JsStr <$> modifiedFiles lists))).
  rewrite !strings_of_fmap. by destruct lists.
Qed.

(** Files are never forgotten from one compaction to the next: when a
compaction's lists are stored on its entry and the session goes on, the next
compaction still lists every modified file as modified and every read file as
read or, if it was changed since, as modified. *)
Theorem file_lists_carried number_text path p id now summary more s' p' file :
  let lists := computeFileLists (fileOps p) in
  let next := path ++ compaction_entry id now p summary (Some (details_json lists)) :: more in
  Forall (fun e => is_compaction e = false) more ->
  prepareCompaction number_text next s' = Some p' ->
  let lists' := computeFileLists (fileOps p') in
  (file ∈ modifiedFiles lists -> file ∈ modifiedFiles lists') /\
  (file ∈ readFiles lists -> file ∈ readFiles lists' \/ file ∈ modifiedFiles lists').
Proof.
  intros lists next Hmore Hp' lists'. pose proof (recorded_lists path id now p summary lists more Hmore) as Hrec.
  destruct (elem_of_file_lists file (fileOps p')) as [Hm Hr]. fold lists' in Hm, Hr.
  pose proof (fun t => prepared_files number_text next s' p' t file Hp') as Hf. fold next in Hrec. rewrite Hrec in Hf. split.
  - intros Hin. apply Hm. left. apply (Hf EditTool). by left.
  - intros Hin. destruct (decide (file ∈ modifiedFiles lists')); [by right|]. left. apply Hr. split; [|done].
    apply (Hf ReadTool). by left.
Qed.

(** ** Samples *)

Module FileSample.
Import CompactionCorrect.Sample.
Definition file_call (id name file : jstring) : AgentMessage :=
  mkMessage (AssistantBody (mkAssistant [ToolCallBlock id name (JsObj false [($"path", JsStr file)])] StopToolUse None None None)) (of_Z 1).

(** A file is read, another edited; then one turn longer than the budget. *)
Definition path : list Entry :=
  [row sample_user; row (file_call $"a" $"read" $"x.ts"); row (sample_result $"a");
   row (file_call $"b" $"edit" $"y.ts"); row (sample_result $"b");
   row sample_user; row (sample_turn StopToolUse $"c"); row (long_result $"c"); row (sample_turn StopEnd $"d")].

Definition empty_prep : CompactionPreparation := mkPreparation [] [] [] false (of_Z 0) None (mkFileOps [] [] []) (keep 0).
Definition prep : CompactionPreparation := default empty_prep (prepareCompaction no_numbers path (keep 15)).

(** After it, the file that was read is written. *)
Definition more : list Entry := [row sample_user; row (file_call $"e" $"write" $"x.ts"); row (sample_result $"e"); row (sample_turn StopEnd $"f"); row sample_user].
Definition next : list Entry := path ++ compaction_entry $"k" (of_Z 9) prep $"old story" (Some (details_json (computeFileLists (fileOps prep)))) :: more.
Definition next_prep : CompactionPreparation := default empty_prep (prepareCompaction no_numbers next (keep 1)).

(** The kept tail is one turn; it goes on and is compacted again in its middle. *)
Definition longer : list Entry := path ++ [compaction_entry $"k" (of_Z 9) prep $"old story" None; row (sample_turn StopEnd $"g")].
Definition forgetful : CompactionPreparation := default empty_prep (prepareCompaction no_numbers longer (keep 1)).

Definition blank_usage : Usage := mkUsage None (of_Z 1) (of_Z 1) (of_Z 0) (of_Z 0) None None (of_Z 2) (of_Z 0, of_Z 0, of_Z 0, of_Z 0, of_Z 0) false.

(** A provider that always answers and keeps the prompts. *)
Definition answering (w : list SummaryPrompt) (q : SummaryPrompt) : list SummaryPrompt * SummaryResponse :=
  (w ++ [q], mkResponse [TextBlock $"a summary"] StopEnd None blank_usage).
End FileSample.

Lemma file_lists_exact_witness :
  computeFileLists (fileOps FileSample.prep) = mkFileLists [$"x.ts"] [$"y.ts"] /\
  ($"y.ts" ∈ modifiedFiles (computeFileLists (fileOps FileSample.prep)) <->
     $"y.ts" ∈ modifiedFiles (recorded FileSample.path) \/
     touched WriteTool $"y.ts" (messagesToSummarize FileSample.prep ++ turnPrefixMessages FileSample.prep) \/
     touched EditTool $"y.ts" (messagesToSummarize FileSample.prep ++ turnPrefixMessages FileSample.prep)).
Proof.
  split; [reflexivity|].
  refine (proj1 (file_lists_exact CompactionCorrect.Sample.no_numbers FileSample.path (CompactionCorrect.Sample.keep 15) FileSample.prep $"y.ts" _)).
  reflexivity.
Defined.

Lemma file_lists_carried_witness :
  computeFileLists (fileOps FileSample.next_prep) = mkFileLists [] [$"x.ts"; $"y.ts"] /\
  ($"y.ts" ∈ modifiedFiles (computeFileLists (fileOps FileSample.prep)) ->
   $"y.ts" ∈ modifiedFiles (computeFileLists (fileOps FileSample.next_prep))).
Proof.
  split; [reflexivity|].
  refine (proj1 (file_lists_carried CompactionCorrect.Sample.no_numbers FileSample.path FileSample.prep $"k" (of_Z 9) $"old story" FileSample.more
    (CompactionCorrect.Sample.keep 1) FileSample.next_prep $"y.ts" _ _)).
  - repeat constructor.
  - reflexivity.
Defined.

(** The summary the session had, "old story", reaches no request. *)
Lemma split_turn_forgets_history_witness :
  let p := FileSample.forgetful in
  previousSummary p = Some $"old story" /\
  compactWithRequest CompactionCorrect.Sample.no_numbers FileSample.answering p (mkModel (of_Z 0) false) None None [] =
  compactWithRequest CompactionCorrect.Sample.no_numbers FileSample.answering (with_previous p None) (mkModel (of_Z 0) false) None None [].
Proof.
  split; [reflexivity|]. apply (split_turn_forgets_history CompactionCorrect.Sample.no_numbers FileSample.answering FileSample.forgetful None).
  - reflexivity.
  - reflexivity.
Defined.
