(* ===== verification/BranchSummary.v ===== *)
(** * Summaries of abandoned branches (packages/agent/src/harness/compaction/branch-summarization.ts)

Which messages of a branch are summarised within a token budget, the file
operations gathered on the way, and the request.  Reading the entries of the two
branches from the session is not modelled here. *)
From Stdlib Require Import Floats.SpecFloat.
From S2P Require Import Prelude JsString JsonText JsNumber JsObject Json DurableStore Ledger Messages Compaction CompactionCorrect Summary SummaryCorrect.
#[local] Open Scope Z_scope.

(** The literal [0.9]. *)
Definition nine_tenths : num := S754_finite false 8106479329266893 (-53).

Definition branch_message (e : Entry) : option AgentMessage :=
  match e_data e with
  | MessageEntry m => match body m with ToolResultMsg _ _ => None | _ => Some m end
  | BranchSummaryEntry from summary _ => Some (mkMessage (BranchSummaryMsg summary from) (e_timestamp e))
  | CompactionEntry summary _ before _ => Some (mkMessage (CompactionSummaryMsg summary before) (e_timestamp e))
  | CustomEntry _ _ => None
  end.

Record BranchPreparation := mkBranchPreparation { b_messages : list AgentMessage; b_fileOps : FileOperations; b_totalTokens : Z }.

(** What earlier branch summaries recorded. *)
Definition recorded_by (ops : FileOperations) (e : Entry) : FileOperations :=
  match e_data e with
  | BranchSummaryEntry _ _ (Some details) =>
      mkFileOps (foldl (fun s p => set_add p s) (files_read ops) (strings_in (member details $"readFiles"))) (files_written ops)
        (foldl (fun s p => set_add p s) (files_edited ops) (strings_in (member details $"modifiedFiles")))
  | _ => ops
  end.

Definition is_summary_entry (e : Entry) : bool :=
  match e_data e with CompactionEntry _ _ _ _ | BranchSummaryEntry _ _ _ => true | _ => false end.

Section Branch.
Context (number_text : num -> jstring).

(** The loop from the newest entry on; [entries] is the branch reversed. *)
Fixpoint select (budget : num) (entries : list Entry) (p : BranchPreparation) : BranchPreparation :=
  match entries with
  | [] => p
  | e :: entries =>
      match branch_message e with
      | None => select budget entries p
      | Some m =>
          let ops := extractFileOpsFromMessage (b_fileOps p) m in
          let total := b_totalTokens p + estimateTokens number_text m in
          let with_message := mkBranchPreparation (m :: b_messages p) ops total in
          if num_ltb (of_Z 0) budget && num_ltb budget (of_Z total) then
            if is_summary_entry e && num_ltb (of_Z (b_totalTokens p)) (num_mul budget nine_tenths) then with_message
            else mkBranchPreparation (b_messages p) ops (b_totalTokens p)
          else select budget entries with_message
      end
  end.

Definition prepareBranchEntries (entries : list Entry) (tokenBudget : num) : BranchPreparation :=
  select tokenBudget (rev entries) (mkBranchPreparation [] (foldl recorded_by (mkFileOps [] [] []) entries) 0).

Definition BRANCH_SUMMARY_PREAMBLE : jstring :=
  $"The user explored a different conversation branch before returning here." ++ [10] ++ $"Summary of that exploration:" ++ [10; 10].

Definition BRANCH_SUMMARY_PROMPT : jstring := text_lines [
  $"Create a structured summary of this conversation branch for context when returning later."; [];
  $"Use this EXACT format:"; [];
  $"## Goal"; $"[What was the user trying to accomplish in this branch?]"; [];
  $"## Constraints & Preferences"; $"- [Any constraints, preferences, or requirements mentioned]";
  $"- [Or " ++ dquoted $"(none)" ++ $" if none were mentioned]"; [];
  $"## Progress"; $"### Done"; $"- [x] [Completed tasks/changes]"; [];
  $"### In Progress"; $"- [ ] [Work that was started but not finished]"; [];
  $"### Blocked"; $"- [Issues preventing progress, if any]"; [];
  $"## Key Decisions"; $"- **[Decision]**: [Brief rationale]"; [];
  $"## Next Steps"; $"1. [What should happen next to continue this work]"; [];
  $"Keep each section concise. Preserve exact file paths, function names, and error messages."].

Record BranchSummaryResult := mkBranchResult { bs_summary : jstring; bs_usage : option Usage; bs_files : FileLists }.

Definition branch_prompt (messages : list AgentMessage) (replaceInstructions : bool) (customInstructions : option jstring) : SummaryPrompt :=
  let instructions :=
    match customInstructions with
    | Some ((_ :: _) as c) => if replaceInstructions then c else BRANCH_SUMMARY_PROMPT ++ [10; 10] ++ $"Additional focus: " ++ c
    | _ => BRANCH_SUMMARY_PROMPT
    end in
  mkPrompt SUMMARIZATION_SYSTEM_PROMPT (conversation number_text messages ++ instructions) (of_Z 2048) None.

Definition generateBranchSummaryWithRequest {St} (request : St -> SummaryPrompt -> St * SummaryResponse) (p : BranchPreparation)
    (replaceInstructions : bool) (customInstructions : option jstring) (w : St) : St * result CompactionError BranchSummaryResult :=
  match b_messages p with
  | [] => (w, Ok (mkBranchResult $"No content to summarize" None (mkFileLists [] [])))
  | messages =>
      let '(w, r) := request w (branch_prompt messages replaceInstructions customInstructions) in
      match r_stop r with
      | StopAborted => (w, Err (CompactionAborted (or_text (r_error r) $"Branch summary aborted")))
      | StopError => (w, Err (SummarizationFailed ($"Branch summary failed: " ++ or_text (r_error r) $"Unknown error")))
      | _ =>
          let lists := computeFileLists (b_fileOps p) in
          let summary :=
            BRANCH_SUMMARY_PREAMBLE ++ contentTextForSummary (ContentBlocks (r_content r)) [10] ++ formatFileOperations lists in
          (w, Ok (mkBranchResult (match summary with [] => $"No summary generated" | _ => summary end) (Some (r_usage r)) lists))
      end
  end.

(** ** What is selected *)

Definition branch_messages (entries : list Entry) : list AgentMessage := omap branch_message entries.
Definition tokens_of (messages : list AgentMessage) : Z := sum_of (estimateTokens number_text) messages.

Definition over (budget : num) (messages : list AgentMessage) : Prop := num_ltb budget (of_Z (tokens_of messages)) = true.

(** [kept] is the longest end of the messages within the budget, or one summary more. *)
Definition fits (budget : num) (entries : list Entry) (kept : list AgentMessage) : Prop :=
  exists older, branch_messages entries = older ++ kept /\
    ((~ over budget kept /\ forall m older', older = older' ++ [m] -> over budget (m :: kept)) \/
     (exists m rest e, kept = m :: rest /\ over budget kept /\ e ∈ entries /\ branch_message e = Some m /\ is_summary_entry e = true /\
        num_ltb (of_Z (tokens_of rest)) (num_mul budget nine_tenths) = true)).
End Branch.

Section Correct.
Context (number_text : num -> jstring).

(** The scan with what it has kept so far. *)
Lemma select_spec budget entries p :
  b_totalTokens p = tokens_of number_text (b_messages p) ->
  (num_ltb (of_Z 0) budget = true -> ~ over number_text budget (b_messages p)) ->
  let q := select number_text budget entries p in
  exists more, b_messages q = rev more ++ b_messages p /\ b_totalTokens q = tokens_of number_text (b_messages q) /\
    (exists older, branch_messages entries = more ++ older /\ (num_ltb (of_Z 0) budget = false -> older = []) /\
       (num_ltb (of_Z 0) budget = true ->
        (~ over number_text budget (b_messages q) /\ forall m older', older = m :: older' -> over number_text budget (m :: b_messages q)) \/
        (exists m rest e, b_messages q = m :: rest /\ over number_text budget (b_messages q) /\ e ∈ entries /\ branch_message e = Some m /\
           is_summary_entry e = true /\ num_ltb (of_Z (tokens_of number_text rest)) (num_mul budget nine_tenths) = true))).
Proof.
  revert p. induction entries as [|e entries IH]; intros p Htot Hfit; cbn [select branch_messages omap list_omap].
  { exists []. split_and!; [done..|]. exists []. split_and!; [done..|]. intros Hb. left. split; [by apply Hfit|]. done. }
  destruct (branch_message e) as [m|] eqn:Hm.
  2: { destruct (IH p Htot Hfit) as (more & Hq & Ht & older & Hms & Hno & Hb). exists more. split_and!; [done..|]. exists older.
    split_and!; [done..|]. intros Hpos. destruct (Hb Hpos) as [?|(m & rest & e' & ? & ? & ? & ?)]; [by left|right].
    exists m, rest, e'. split_and!; try tauto. by right. }
  assert (b_totalTokens p + estimateTokens number_text m = tokens_of number_text (m :: b_messages p)) as Htot'.
  { rewrite Htot. unfold tokens_of, sum_of. cbn [foldr]. lia. }
  rewrite Htot'. destruct (num_ltb (of_Z 0) budget && num_ltb budget _) eqn:Hover.
  - apply andb_true_iff in Hover as [Hpos Hover]. destruct (is_summary_entry e && _) eqn:Hsum; cbn [b_messages b_totalTokens].
    + apply andb_true_iff in Hsum as [Hsum Hnine]. exists [m]. split_and!; [done..|]. exists (branch_messages entries).
      split_and!; [done|congruence|]. intros _. right. exists m, (b_messages p), e. rewrite <- Htot. split_and!; try done. by left.
    + exists []. split_and!; [done..|]. exists (m :: branch_messages entries). split_and!; [done|congruence|]. intros _. left.
      split; [by apply Hfit|]. by intros m' older' [= <- <-].
  - destruct (IH (mkBranchPreparation (m :: b_messages p) (extractFileOpsFromMessage (b_fileOps p) m) (tokens_of number_text (m :: b_messages p)))
      eq_refl) as (more & Hq & Ht & older & Hms & Hno & Hb); cbn [b_messages b_totalTokens] in *.
    { intros Hpos. rewrite Hpos, andb_true_l in Hover. unfold over. congruence. }
    exists (m :: more). split_and!; [by rewrite Hq; cbn [rev]; rewrite <- app_assoc|done|]. exists older.
    split_and!; [cbn; f_equal; exact Hms|done|]. intros Hpos. destruct (Hb Hpos) as [?|(m' & rest & e' & ? & ? & ? & ?)]; [by left|right].
    exists m', rest, e'. split_and!; try tauto. by right.
Qed.

(** The messages summarised for a branch are the longest end of its messages
(tool results apart) that stays within the token budget, and one older summary
more when it alone goes over while the rest is below nine tenths; without a
budget they are all of them.  The token count is theirs. *)
Theorem branch_within_budget entries budget :
  let p := prepareBranchEntries number_text entries budget in
  b_totalTokens p = tokens_of number_text (b_messages p) /\
  (num_ltb (of_Z 0) budget = false -> b_messages p = branch_messages entries) /\
  (num_ltb (of_Z 0) budget = true -> fits number_text budget entries (b_messages p)).
Proof.
  intros p. unfold p, prepareBranchEntries. set (p0 := mkBranchPreparation _ _ _).
  destruct (select_spec budget (rev entries) p0 eq_refl) as (more & Hq & Ht & older & Hms & Hno & Hb).
  { unfold over. destruct budget as [[]|[]| |[] m e]; done. }
  rewrite app_nil_r in Hq. unfold branch_messages in Hms.
  assert (branch_messages entries = rev older ++ rev more) as Hall.
  { rewrite <- rev_app_distr, <- Hms. unfold branch_messages. clear. induction entries as [|e entries IH]; [done|].
    cbn [rev]. rewrite omap_app. cbn [omap list_omap]. destruct (branch_message e); cbn [app]; rewrite ?rev_app_distr; cbn; by rewrite IH, ?app_nil_r. }
  split_and!; [done| |].
  - intros Hz. by rewrite Hall, Hq, (Hno Hz).
  - intros Hpos. exists (rev older). rewrite Hq at 1. split; [done|].
    destruct (Hb Hpos) as [[Hfit Hmax]|(m & rest & e & ? & ? & He & ?)]; [left|right].
    + split; [done|]. intros m older' Hold. apply (Hmax m (rev older')). by rewrite <- (rev_involutive older), Hold, rev_app_distr.
    + exists m, rest, e. split_and!; try tauto. by rewrite list_elem_of_In, in_rev, <- list_elem_of_In.
Qed.
End Correct.
