(* ===== verification/SessionStore.v ===== *)
(** * Session storage (packages/agent/src/harness/session: commit.ts, values.ts, in-memory-storage-state.ts)

The writes a session commits, their validation, and the materialised state of
the memory and JSONL storages with its queries.  The fields of an entry the
storage only carries ([message], [summary], [data], ...) are one JSON value,
as are the stored values.  A thrown error keeps the state reached so far:
[applyValidated] returns it with the error. *)
From S2P Require Import Prelude JsString JsNumber JsObject JsMap Utf8 CborValue Json.
From Stdlib Require Import SpecFloat Sorting.Sorted.
#[local] Open Scope Z_scope.

Inductive StorageError :=
| NonMonotonicSequence (seq : Z)
| DuplicateId (id : jstring)
| MissingParent (id : jstring)
| EmptyNamespace
| NamespaceHasNul
| KeyHasNul
| BadListLimit
| BadHighWaterMark
| UnknownBranchStart (id : jstring)
| CorruptBranch
| UnknownSourceBranch (branch : jstring)
| CorruptSourceBranch
| NotOnSourceBranch (branch : jstring)
| NotAnAgentLane (branch : jstring)
| ReservedNamespace (namespace : jstring)
| CrossesForkBoundary
| DoesNotReturn.

(** ** Usage totals (utils/usage.ts) *)

Definition num_0 : num := S754_zero false.

Record Cost := mkCost { cost_input : num; cost_output : num; cost_cacheRead : num; cost_cacheWrite : num; cost_total : num }.

Record Usage := mkUsage {
  (** absent, [null], or the input and output of the latest request *)
  u_contextUsage : option (option (num * num));
  u_input : num;
  u_output : num;
  u_cacheRead : num;
  u_cacheWrite : num;
  u_cacheWrite1h : option num;
  u_reasoning : option num;
  u_totalTokens : num;
  u_cost : Cost;
  u_costUnknown : bool;
}.

Definition emptyUsage : Usage :=
  mkUsage None num_0 num_0 num_0 num_0 None None num_0 (mkCost num_0 num_0 num_0 num_0 num_0) false.

Definition add_optional (left right : option num) : option num :=
  match left, right with
  | None, None => None
  | _, _ => Some (num_add (default num_0 left) (default num_0 right))
  end.

Definition addUsage (left right : Usage) : Usage := {|
  u_contextUsage := None;
  u_input := num_add (u_input left) (u_input right);
  u_output := num_add (u_output left) (u_output right);
  u_cacheRead := num_add (u_cacheRead left) (u_cacheRead right);
  u_cacheWrite := num_add (u_cacheWrite left) (u_cacheWrite right);
  u_cacheWrite1h := add_optional (u_cacheWrite1h left) (u_cacheWrite1h right);
  u_reasoning := add_optional (u_reasoning left) (u_reasoning right);
  u_totalTokens := num_add (u_totalTokens left) (u_totalTokens right);
  u_cost := mkCost
    (num_add (cost_input (u_cost left)) (cost_input (u_cost right)))
    (num_add (cost_output (u_cost left)) (cost_output (u_cost right)))
    (num_add (cost_cacheRead (u_cost left)) (cost_cacheRead (u_cost right)))
    (num_add (cost_cacheWrite (u_cost left)) (cost_cacheWrite (u_cost right)))
    (num_add (cost_total (u_cost left)) (cost_total (u_cost right)));
  u_costUnknown := u_costUnknown left || u_costUnknown right;
|}.

(** ** Entries, rows and writes *)

Inductive EntryType := message | compaction | branch_summary | custom.

#[export] Instance EntryType_eq_dec : EqDecision EntryType.
Proof. solve_decision. Defined.

(** [body] holds the fields of the entry's type. *)
Record NewEntry := mkNewEntry {
  new_id : jstring;
  new_parentId : option jstring;
  new_type : EntryType;
  new_customType : option jstring;
  new_body : json;
}.

Record Entry := mkEntry {
  id : jstring;
  parentId : option jstring;
  seq : Z;
  timestamp : Z;
  type : EntryType;
  customType : option jstring;
  body : json;
}.

Record NewUsageRow := mkNewUsageRow {
  newrow_id : jstring;
  newrow_usage : Usage;
  newrow_entryId : option jstring;
  newrow_adjustment : bool;
  newrow_details : option json;
}.

Record UsageRow := mkUsageRow {
  row_id : jstring;
  row_seq : Z;
  row_usage : Usage;
  row_entryId : option jstring;
  row_adjustment : bool;
  row_details : option json;
}.

Inductive Write :=
| WEntry (entry : NewEntry)
| WUsage (row : NewUsageRow)
| WValueSet (namespace key : jstring) (value : json)
| WValueDelete (namespace key : jstring)
| WListAppend (namespace key : jstring) (value : json)
| WListDelete (namespace key : jstring).

Inductive CommittedWrite :=
| CEntry (entry : Entry)
| CUsage (row : UsageRow)
| CValueSet (seq : Z) (namespace key : jstring) (value : json)
| CValueDelete (seq : Z) (namespace key : jstring)
| CListAppend (seq : Z) (namespace key : jstring) (value : json)
| CListDelete (seq : Z) (namespace key : jstring).

Definition write_seq (w : CommittedWrite) : Z :=
  match w with
  | CEntry e => seq e
  | CUsage r => row_seq r
  | CValueSet s _ _ _ | CValueDelete s _ _ | CListAppend s _ _ _ | CListDelete s _ _ => s
  end.

Definition materializeCommittedEntry (entry : NewEntry) (seq timestamp : Z) : Entry :=
  mkEntry (new_id entry) (new_parentId entry) seq timestamp (new_type entry) (new_customType entry) (new_body entry).

Definition commitWrite (write : Write) (seq timestamp : Z) : CommittedWrite :=
  match write with
  | WEntry entry => CEntry (materializeCommittedEntry entry seq timestamp)
  | WUsage row =>
      CUsage (mkUsageRow (newrow_id row) seq (newrow_usage row) (newrow_entryId row) (newrow_adjustment row) (newrow_details row))
  | WValueSet namespace key value => CValueSet seq namespace key value
  | WValueDelete namespace key => CValueDelete seq namespace key
  | WListAppend namespace key value => CListAppend seq namespace key value
  | WListDelete namespace key => CListDelete seq namespace key
  end.

Record CommitResult := { firstSeq : Z; seqs : list Z; result_timestamp : Z }.

(** [writes.map((write, index) => commitWrite(write, firstSeq + index, timestamp))] *)
Definition prepareStorageCommit (writes : list Write) (first timestamp : Z) : list CommittedWrite * CommitResult :=
  let committed := imap (fun index write => commitWrite write (first + Z.of_nat index) timestamp) writes in
  (committed, {| firstSeq := first; seqs := write_seq <$> committed; result_timestamp := timestamp |}).

(** The loop of [validateCommittedWrites]. *)
Fixpoint validate_loop (hasEntryOrUsageId hasEntryId : jstring -> bool) (writes : list CommittedWrite)
    (previousSeq : Z) (transactionIds transactionEntryIds : gset jstring) : result StorageError unit :=
  match writes with
  | [] => Ok tt
  | write :: writes' =>
      throw_unless (previousSeq <? write_seq write) (NonMonotonicSequence (write_seq write)) ≫= fun _ =>
      let continue_ := validate_loop hasEntryOrUsageId hasEntryId writes' (write_seq write) in
      match write with
      | CEntry e =>
          throw_unless (negb (hasEntryOrUsageId (id e) || bool_decide (id e ∈ transactionIds))) (DuplicateId (id e)) ≫= fun _ =>
          match parentId e with
          | Some p => throw_unless (hasEntryId p || bool_decide (p ∈ transactionEntryIds)) (MissingParent p)
          | None => Ok tt
          end ≫= fun _ =>
          continue_ ({[ id e ]} ∪ transactionIds) ({[ id e ]} ∪ transactionEntryIds)
      | CUsage r =>
          throw_unless (negb (hasEntryOrUsageId (row_id r) || bool_decide (row_id r ∈ transactionIds))) (DuplicateId (row_id r)) ≫= fun _ =>
          continue_ ({[ row_id r ]} ∪ transactionIds) transactionEntryIds
      | _ => continue_ transactionIds transactionEntryIds
      end
  end.

Definition validateCommittedWrites (writes : list CommittedWrite) (first : Z)
    (hasEntryOrUsageId hasEntryId : jstring -> bool) : result StorageError unit :=
  validate_loop hasEntryOrUsageId hasEntryId writes (first - 1) ∅ ∅.

(** ** Addresses (values.ts) *)

Definition NUL : Z := 0.

Record Address := mkAddress { namespace : jstring; key : jstring }.

Definition validateAddress (namespace key : jstring) : result StorageError Address :=
  throw_unless (negb (bool_decide (namespace = []))) EmptyNamespace ≫= fun _ =>
  throw_unless (negb (bool_decide (NUL ∈ namespace))) NamespaceHasNul ≫= fun _ =>
  throw_unless (negb (bool_decide (NUL ∈ key))) KeyHasNul ≫= fun _ =>
  Ok (mkAddress namespace key).

(** [value(namespace, key)] and [list(namespace, key)]. *)
Definition value_address := validateAddress.

Definition physicalKey (namespace key : jstring) : jstring := namespace ++ [NUL] ++ key.

(** ** The materialised state *)

Record StoredValue := mkStoredValue { sv_address : Address; sv_value : json; sv_seq : Z }.

Record ListElement := mkListElement { el_seq : Z; el_value : json }.

Record StoredListSnapshot := mkStoredList { sl_address : Address; elements : list ListElement }.

Record SessionStats := mkStats { messageCount : Z; stats_usage : Usage }.

Record State := mkState {
  entries : gmap jstring Entry;
  entriesBySeq : list Entry;
  scalarValues : list (jstring * StoredValue);
  listValues : list (jstring * StoredListSnapshot);
  usage : list (jstring * UsageRow);
  stats : SessionStats;
  nextSeq : Z;
}.

Definition new_state : State := mkState ∅ [] [] [] [] (mkStats 0 emptyUsage) 1.

Definition hasEntryId (s : State) (x : jstring) : bool := bool_decide (is_Some (entries s !! x)).

Definition hasEntryOrUsageId (s : State) (x : jstring) : bool := hasEntryId s x || map_has (usage s) x.

Definition validateCommitted (s : State) (writes : list CommittedWrite) : result StorageError unit :=
  validateCommittedWrites writes (nextSeq s) (hasEntryOrUsageId s) (hasEntryId s).

Definition prepareCommit (s : State) (writes : list Write) (timestamp : Z)
    : result StorageError (list CommittedWrite * CommitResult) :=
  let prepared := prepareStorageCommit writes (nextSeq s) timestamp in
  validateCommitted s prepared.1 ≫= fun _ => Ok prepared.

Definition set_scalarValues (s : State) v : State :=
  mkState (entries s) (entriesBySeq s) v (listValues s) (usage s) (stats s) (nextSeq s).

Definition set_listValues (s : State) v : State :=
  mkState (entries s) (entriesBySeq s) (scalarValues s) v (usage s) (stats s) (nextSeq s).

Definition set_nextSeq (s : State) n : State :=
  mkState (entries s) (entriesBySeq s) (scalarValues s) (listValues s) (usage s) (stats s) n.

(** [applyValueSetOrListAppend] of a value. *)
Definition applyValueSet (s : State) (seq : Z) (namespace key : jstring) (v : json) : result StorageError State :=
  value_address namespace key ≫= fun address =>
  Ok (set_scalarValues s (map_set (scalarValues s) (physicalKey namespace key) (mkStoredValue address v seq))).

(** [applyValueSetOrListAppend] of a list element; only a new list builds an
    address. *)
Definition applyListAppend (s : State) (seq : Z) (namespace key : jstring) (v : json) : result StorageError State :=
  let k := physicalKey namespace key in
  match map_get (listValues s) k with
  | None =>
      value_address namespace key ≫= fun address =>
      Ok (set_listValues s (map_set (listValues s) k (mkStoredList address [mkListElement seq v])))
  | Some stored =>
      Ok (set_listValues s (map_set (listValues s) k
        (mkStoredList (sl_address stored) (elements stored ++ [mkListElement seq v]))))
  end.

Definition apply_entry (s : State) (e : Entry) : State :=
  mkState (<[id e := e]> (entries s)) (entriesBySeq s ++ [e]) (scalarValues s) (listValues s) (usage s)
    (if bool_decide (type e = message)
     then mkStats (messageCount (stats s) + 1) (stats_usage (stats s)) else stats s) (nextSeq s).

Definition apply_usage (s : State) (r : UsageRow) : State :=
  mkState (entries s) (entriesBySeq s) (scalarValues s) (listValues s) (map_set (usage s) (row_id r) r)
    (mkStats (messageCount (stats s)) (addUsage (stats_usage (stats s)) (row_usage r))) (nextSeq s).

(** One turn of the loop of [applyValidated]; the sequence advances after it. *)
Definition apply_write (s : State) (write : CommittedWrite) : result StorageError State :=
  match write with
  | CEntry e => Ok (apply_entry s e)
  | CUsage r => Ok (apply_usage s r)
  | CValueSet q ns k v => applyValueSet s q ns k v
  | CValueDelete _ ns k => Ok (set_scalarValues s (map_delete (scalarValues s) (physicalKey ns k)))
  | CListAppend q ns k v => applyListAppend s q ns k v
  | CListDelete _ ns k => Ok (set_listValues s (map_delete (listValues s) (physicalKey ns k)))
  end ≫= fun s => Ok (set_nextSeq s (write_seq write + 1)).

(** [applyValidated]: the state after the call, with what it threw if it did. *)
Fixpoint applyValidated (s : State) (writes : list CommittedWrite) : State * option StorageError :=
  match writes with
  | [] => (s, None)
  | w :: ws => match apply_write s w with Ok s' => applyValidated s' ws | Err e => (s, Some e) end
  end.

(** [commit] of a storage (memory.ts, jsonl/storage.ts): prepare, then apply. *)
Definition commit (s : State) (writes : list Write) (timestamp : Z)
    : State * result StorageError (CommitResult * SessionStats) :=
  match prepareCommit s writes timestamp with
  | Err e => (s, Err e)
  | Ok (committed, res) =>
      match applyValidated s committed with
      | (s', None) => (s', Ok (res, stats s'))
      | (s', Some e) => (s', Err e)
      end
  end.

(** [replayCommitted] of a transaction read back (jsonl/storage.ts). *)
Definition replayCommitted (s : State) (writes : list CommittedWrite) : State * option StorageError :=
  match validateCommitted s writes with
  | Err e => (s, Some e)
  | Ok _ => applyValidated s writes
  end.

Definition advanceNextSeq (s : State) (next : Z) : result StorageError State :=
  throw_unless ((1 <=? next) && (next <=? MAX_SAFE_INTEGER)) BadHighWaterMark ≫= fun _ =>
  Ok (set_nextSeq s (Z.max (nextSeq s) next)).

(** ** Queries *)

Definition getEntries (s : State) (ids : list jstring) : list (jstring * Entry) :=
  fold_left (fun found x => match entries s !! x with Some e => map_set found x e | None => found end) ids [].

Definition getValue (s : State) (ns k : jstring) : option StoredValue := map_get (scalarValues s) (physicalKey ns k).

(** [Array.from(key, (character) => character.codePointAt(0))] *)
Fixpoint codePoints (k : jstring) : list Z :=
  match k with
  | [] => []
  | c :: k' =>
      match k' with
      | d :: k'' =>
          if is_high_surrogate c && is_low_surrogate d
          then (0x10000 + (c - 0xd800) * 0x400 + (d - 0xdc00)) :: codePoints k''
          else c :: codePoints k'
      | [] => [c]
      end
  end.

Fixpoint compareCodePoints (l r : list Z) : Z :=
  match l, r with
  | x :: l', y :: r' => if x - y =? 0 then compareCodePoints l' r' else x - y
  | _, _ => blen l - blen r
  end.

Definition compareKeys (left right : jstring) : Z := compareCodePoints (codePoints left) (codePoints right).

Definition scanValues (s : State) (ns prefix : jstring) : list StoredValue :=
  sort_by (fun left right => compareKeys (key (sv_address left)) (key (sv_address right)))
    (List.filter (fun stored => bool_decide (namespace (sv_address stored) = ns) && startsWith (key (sv_address stored)) prefix)
       (map_values (scalarValues s))).

Inductive Order := asc | desc.

(** [limit]: [None] when absent, [Some None] when it is not a safe integer. *)
Definition resolve_limit (limit : option (option Z)) : result StorageError Z :=
  match default (Some 1000) limit with
  | Some l => if (0 <? l) && (l <=? MAX_SAFE_INTEGER) then Ok (Z.min l 10000) else Err BadListLimit
  | None => Err BadListLimit
  end.

Definition after_cursor (order : Order) (cursor : option Z) (el : ListElement) : bool :=
  match cursor with
  | None => true
  | Some c => match order with asc => c <? el_seq el | desc => el_seq el <? c end
  end.

Definition readList (s : State) (ns k : jstring) (order : Order) (cursor : option Z) (limit : option (option Z))
    : result StorageError (list ListElement) :=
  resolve_limit limit ≫= fun lim =>
  let els := match map_get (listValues s) (physicalKey ns k) with Some l => elements l | None => [] end in
  let filtered := List.filter (after_cursor order cursor) els in
  let ordered := match order with asc => filtered | desc => rev filtered end in
  Ok (take (Z.to_nat lim) ordered).

Record BranchScan := mkBranchScan {
  bs_stopAtId : option jstring;
  bs_stopAtType : option EntryType;
  bs_type : option EntryType;
  bs_customType : option jstring;
  bs_oldestFirst : bool;
  bs_cursor : option Z;
  bs_limit : option Z;
}.

(** The walk from an entry to its root; the fuel bounds the entries visited. *)
Fixpoint branch_path (s : State) (fuel : nat) (e : Entry) : result StorageError (list Entry) :=
  match fuel with
  | O => Err DoesNotReturn
  | S fuel' =>
      match parentId e with
      | None => Ok [e]
      | Some p =>
          match entries s !! p with
          | None => Err CorruptBranch
          | Some parent => branch_path s fuel' parent ≫= fun path => Ok (e :: path)
          end
      end
  end.

Fixpoint stop_at (stops : Entry -> bool) (path : list Entry) : list Entry :=
  match path with
  | [] => []
  | e :: path' => if stops e then [e] else e :: stop_at stops path'
  end.

Definition opt_matches {A} `{EqDecision A} (wanted : option A) (x : option A) : bool :=
  match wanted with None => true | Some _ => bool_decide (x = wanted) end.

Definition scanBranch (s : State) (start : jstring) (q : BranchScan) : result StorageError (list Entry) :=
  match entries s !! start with
  | None => Err (UnknownBranchStart start)
  | Some e =>
      branch_path s (size (entries s)) e ≫= fun path =>
      let path := if bs_oldestFirst q then rev path else path in
      let stopped := stop_at (fun c => bool_decide (Some (id c) = bs_stopAtId q) || bool_decide (Some (type c) = bs_stopAtType q)) path in
      let filtered := List.filter (fun c => opt_matches (bs_type q) (Some (type c)) && opt_matches (bs_customType q) (customType c)
        && match bs_cursor q with
           | None => true
           | Some c0 => if bs_oldestFirst q then c0 <? seq c else seq c <? c0
           end) stopped in
      Ok (match bs_limit q with None => filtered | Some l => take (Z.to_nat (Z.max 0 l)) filtered end)
  end.

Record EntryStructure := mkStructure {
  st_id : jstring; st_parentId : option jstring; st_seq : Z; st_timestamp : Z; st_type : EntryType;
  st_customType : option jstring;
}.

Definition scanBranchStructure (s : State) (start : jstring) (q : BranchScan) : result StorageError (list EntryStructure) :=
  scanBranch s start q ≫= fun es : list Entry =>
  Ok (List.map (fun e => mkStructure (id e) (parentId e) (seq e) (timestamp e) (type e) (customType e)) es).

Record EntryScan := mkEntryScan {
  es_type : option EntryType; es_customType : option jstring; es_fromSeq : option Z; es_toSeq : option Z;
  es_desc : bool; es_limit : option Z;
}.

Definition scan_matches (q : EntryScan) (e : Entry) : bool :=
  opt_matches (es_type q) (Some (type e)) && opt_matches (es_customType q) (customType e)
  && match es_fromSeq q with None => true | Some f => f <=? seq e end
  && match es_toSeq q with None => true | Some t => seq e <=? t end.

(** The loop of [scanEntries] over the entries in the order of the scan. *)
Fixpoint scan_loop (q : EntryScan) (limit : option Z) (found : Z) (l : list Entry) : list Entry :=
  match l with
  | [] => []
  | e :: l' =>
      if match limit with None => true | Some n => found <? n end
      then if scan_matches q e then e :: scan_loop q limit (found + 1) l' else scan_loop q limit found l'
      else []
  end.

Definition scanEntries (s : State) (q : EntryScan) : list Entry :=
  scan_loop q (Z.max 0 <$> es_limit q) 0 (if es_desc q then rev (entriesBySeq s) else entriesBySeq s).

Record UsageScan := mkUsageScan { us_fromSeq : option Z; us_toSeq : option Z; us_desc : bool; us_limit : option Z }.

Definition scanUsage (s : State) (q : UsageScan) : list UsageRow :=
  let rows := sort_by (fun l r => if us_desc q then row_seq r - row_seq l else row_seq l - row_seq r)
    (List.filter (fun r => match us_fromSeq q with None => true | Some f => f <=? row_seq r end
       && match us_toSeq q with None => true | Some t => row_seq r <=? t end) (map_values (usage s))) in
  match us_limit q with None => rows | Some l => take (Z.to_nat (Z.max 0 l)) rows end.

(** ** The invariant of a session's state *)

Definition is_message (e : Entry) : bool := bool_decide (type e = message).

(** What [value()] and [list()] accept. *)
Definition address_ok (ns k : jstring) : Prop := ns <> [] /\ NUL ∉ ns /\ NUL ∉ k.

Definition seq_lt {A} (f : A -> Z) (x y : A) : Prop := f x < f y.

Record list_ok (bound : Z) (kl : jstring * StoredListSnapshot) : Prop := {
  lo_key : kl.1 = physicalKey (namespace (sl_address kl.2)) (key (sl_address kl.2));
  lo_address : address_ok (namespace (sl_address kl.2)) (key (sl_address kl.2));
  lo_sorted : StronglySorted (seq_lt el_seq) (elements kl.2);
  lo_below : Forall (fun el => el_seq el < bound) (elements kl.2);
}.

Record scalar_ok (bound : Z) (kv : jstring * StoredValue) : Prop := {
  so_key : kv.1 = physicalKey (namespace (sv_address kv.2)) (key (sv_address kv.2));
  so_address : address_ok (namespace (sv_address kv.2)) (key (sv_address kv.2));
  so_below : sv_seq kv.2 < bound;
}.

(** Entries are indexed by their ids and listed in commit order, every parent
    is an earlier entry, usage rows and entries share no id, values and lists
    sit under the key of their address, and every sequence is below the next. *)
Record state_ok (s : State) : Prop := {
  ok_indexed : forall x e, entries s !! x = Some e -> id e = x /\ e ∈ entriesBySeq s;
  ok_listed : Forall (fun e => entries s !! id e = Some e) (entriesBySeq s);
  ok_sorted : StronglySorted (seq_lt seq) (entriesBySeq s);
  ok_below : Forall (fun e => seq e < nextSeq s) (entriesBySeq s);
  ok_parent : Forall (fun e => forall p, parentId e = Some p ->
                exists pe, entries s !! p = Some pe /\ seq pe < seq e) (entriesBySeq s);
  ok_usage : map_ok (usage s);
  ok_rows : Forall (fun kr => row_id kr.2 = kr.1 /\ row_seq kr.2 < nextSeq s /\ entries s !! kr.1 = None) (usage s);
  ok_scalar_keys : map_ok (scalarValues s);
  ok_scalars : Forall (scalar_ok (nextSeq s)) (scalarValues s);
  ok_list_keys : map_ok (listValues s);
  ok_lists : Forall (list_ok (nextSeq s)) (listValues s);
  ok_count : messageCount (stats s) = blen (List.filter is_message (entriesBySeq s));
  ok_next : 1 <= nextSeq s;
}.

Lemma new_state_ok : state_ok new_state.
Proof.
  split; cbn; try constructor; try done; intros x e H; by rewrite lookup_empty in H.
Qed.

(** ** Addresses and keys *)

Lemma validateAddress_Ok ns k a : validateAddress ns k = Ok a <-> address_ok ns k /\ a = mkAddress ns k.
Proof.
  unfold validateAddress, address_ok. split.
  - intros H. inv_ok. subst. repeat match goal with H : negb (bool_decide _) = true |- _ =>
      apply negb_true_iff, bool_decide_eq_false in H end. done.
  - intros [(H1 & H2 & H3) ->]. by rewrite !bool_decide_eq_false_2.
Qed.

Lemma validateAddress_ok ns k : address_ok ns k -> validateAddress ns k = Ok (mkAddress ns k).
Proof. intros H. by apply validateAddress_Ok. Qed.

(** A namespace without NUL is read back from the key. *)
Lemma physicalKey_inj ns k ns' k' :
  NUL ∉ ns -> NUL ∉ ns' -> physicalKey ns k = physicalKey ns' k' -> ns = ns' /\ k = k'.
Proof.
  unfold physicalKey. revert ns'. induction ns as [| c ns IH]; intros [| c' ns'] H H'; cbn.
  - by intros [= ->].
  - intros [= <- _]. by destruct H'; left.
  - intros [= -> _]. by destruct H; left.
  - intros [= -> E]. apply IH in E as [-> ->]; [done | |]; intros Hin; [apply H | apply H']; by right.
Qed.

(** ** Shared list facts *)

Lemma StronglySorted_snoc {A} (R : A -> A -> Prop) l x :
  StronglySorted R l -> Forall (fun y => R y x) l -> StronglySorted R (l ++ [x]).
Proof.
  induction 1 as [| y l Hs IH Hy]; intros HF; cbn; [repeat constructor |].
  apply Forall_cons in HF as [H1 H2]. constructor; [by apply IH |]. apply Forall_app. by repeat constructor.
Qed.

Lemma map_set_Forall {A} (P : jstring * A -> Prop) m k v : P (k, v) -> Forall P m -> Forall P (map_set m k v).
Proof.
  intros Hk Hm. unfold map_set. destruct (obj_has m k); [| apply Forall_app; by repeat constructor].
  induction Hm as [| [k' v'] m Hx Hm IH]; cbn; [constructor |]. case_bool_decide; constructor; try done. by subst.
Qed.

Lemma map_delete_Forall {A} (P : jstring * A -> Prop) m k : Forall P m -> Forall P (map_delete m k).
Proof.
  induction 1 as [| [k' v'] m Hx Hm IH]; cbn; [constructor |]. case_bool_decide; [done | by constructor].
Qed.

Lemma map_get_In {A} (m : list (jstring * A)) k v : map_get m k = Some v -> (k, v) ∈ m.
Proof.
  unfold map_get. induction m as [| [k' v'] m IH]; cbn; [done |]. case_bool_decide; [intros [= ->]; subst; by left |].
  intros Hg. right. by apply IH.
Qed.

(** ** Applying one write *)

(** What validation establishes for the next write. *)
Definition write_valid (s : State) (w : CommittedWrite) : Prop :=
  nextSeq s <= write_seq w /\
  match w with
  | CEntry e => hasEntryOrUsageId s (id e) = false /\ (forall p, parentId e = Some p -> hasEntryId s p = true)
  | CUsage r => hasEntryOrUsageId s (row_id r) = false
  | _ => True
  end.

Lemma hasEntryOrUsageId_false s x :
  hasEntryOrUsageId s x = false <-> entries s !! x = None /\ x ∉ (usage s).*1.
Proof.
  unfold hasEntryOrUsageId, hasEntryId. rewrite orb_false_iff, bool_decide_eq_false, <- eq_None_not_Some.
  split; intros [? H]; (split; [done |]).
  - intros Hin. apply obj_has_spec in Hin. unfold map_has in H. congruence.
  - apply not_true_iff_false. intros Hin. by apply obj_has_spec in Hin.
Qed.

Lemma scalar_ok_mono b b' kv : b <= b' -> scalar_ok b kv -> scalar_ok b' kv.
Proof. intros ? [? ? ?]. split; [done | done | lia]. Qed.

Lemma list_ok_mono b b' kl : b <= b' -> list_ok b kl -> list_ok b' kl.
Proof. intros ? [? ? ? H]. split; [done | done | done |]. eapply Forall_impl; [exact H |]. cbn. lia. Qed.

(** Raising the next sequence keeps the invariant. *)
Lemma set_nextSeq_ok s n : nextSeq s <= n -> state_ok s -> state_ok (set_nextSeq s n).
Proof.
  intros Hn [H1 H2 H3 H4 H5 H6 H7 H8 H9 H10 H11 H12 H13]. split; cbn; try done.
  - eapply Forall_impl; [exact H4 |]. cbn. lia.
  - eapply Forall_impl; [exact H7 |]. cbn. intros kr (? & ? & ?). split_and!; [done | lia | done].
  - eapply Forall_impl; [exact H9 |]. intros kv. by apply scalar_ok_mono.
  - eapply Forall_impl; [exact H11 |]. intros kv. by apply list_ok_mono.
  - lia.
Qed.

Lemma set_scalarValues_ok s v :
  map_ok v -> Forall (scalar_ok (nextSeq s)) v -> state_ok s -> state_ok (set_scalarValues s v).
Proof. by intros Hk Hv [? ? ? ? ? ? ? ? ? ? ? ? ?]; split. Qed.

Lemma set_listValues_ok s v :
  map_ok v -> Forall (list_ok (nextSeq s)) v -> state_ok s -> state_ok (set_listValues s v).
Proof. by intros Hk Hv [? ? ? ? ? ? ? ? ? ? ? ? ?]; split. Qed.

Lemma hasEntryId_true s p : hasEntryId s p = true <-> is_Some (entries s !! p).
Proof. unfold hasEntryId. by rewrite bool_decide_eq_true. Qed.

Lemma apply_entry_ok s e :
  state_ok s -> seq e < nextSeq s -> Forall (fun e' => seq e' < seq e) (entriesBySeq s) ->
  hasEntryOrUsageId s (id e) = false -> (forall p, parentId e = Some p -> hasEntryId s p = true) ->
  state_ok (apply_entry s e).
Proof.
  intros [H1 H2 H3 H4 H5 H6 H7 H8 H9 H10 H11 H12 H13] Hlt Hafter [Hid Hrow]%hasEntryOrUsageId_false Hpar.
  assert (Hlook : forall e', e' ∈ entriesBySeq s -> id e' <> id e).
  { intros e' He' E. rewrite Forall_forall in H2. specialize (H2 e' He'). rewrite E in H2. congruence. }
  split; cbn; try done.
  - intros x e' [[<- <-] | [Hne He']]%lookup_insert_Some.
    + split; [done |]. apply elem_of_app. right. by left.
    + destruct (H1 _ _ He'). split; [done |]. apply elem_of_app. by left.
  - apply Forall_app. split; [| constructor; [by rewrite lookup_insert_eq | done]].
    rewrite Forall_forall in H2 |- *. intros e' He'. rewrite lookup_insert_ne; [by apply H2 |].
    intros E. by apply (Hlook e' He').
  - by apply StronglySorted_snoc.
  - apply Forall_app. by repeat constructor.
  - assert (Hkeep : forall e' p pe, seq e' <= seq e -> entries s !! p = Some pe -> seq pe < seq e' ->
      exists pe, <[id e := e]> (entries s) !! p = Some pe /\ seq pe < seq e').
    { intros e' p pe _ Hp Hs. exists pe. rewrite lookup_insert_ne; [done |]. intros <-. congruence. }
    rewrite Forall_forall in H5, Hafter. apply Forall_app. split.
    + apply Forall_forall. intros e' He' p Hp. destruct (H5 e' He' p Hp) as (pe & ? & ?).
      eapply Hkeep; [| done | done]. specialize (Hafter e' He'). cbn in Hafter. lia.
    + constructor; [| done]. intros p Hp. destruct (proj1 (hasEntryId_true s p) (Hpar p Hp)) as [pe Hpe].
      eapply Hkeep; [done | done |]. apply Hafter. by apply (H1 p pe).
  - rewrite Forall_forall in H7 |- *. intros kr Hkr. destruct (H7 kr Hkr) as (Ha & Hb & Hc).
    split_and!; [done | done |]. rewrite lookup_insert_ne; [done |]. intros E. apply Hrow. rewrite E.
    apply list_elem_of_fmap. by exists kr.
  - rewrite List.filter_app, blen_app. cbn. unfold is_message at 2. case_bool_decide; cbn; rewrite H12; unfold blen; cbn; lia.
Qed.

Lemma apply_usage_ok s r :
  state_ok s -> row_seq r < nextSeq s -> hasEntryOrUsageId s (row_id r) = false -> state_ok (apply_usage s r).
Proof.
  intros [H1 H2 H3 H4 H5 H6 H7 H8 H9 H10 H11 H12 H13] Hlt [Hid Hrow]%hasEntryOrUsageId_false.
  split; cbn; try done; [by apply map_ok_set | by apply map_set_Forall].
Qed.

Lemma applyValueSet_ok s q ns k v s' :
  state_ok s -> q < nextSeq s -> applyValueSet s q ns k v = Ok s' -> state_ok s'.
Proof.
  intros Hok Hq H. unfold applyValueSet in H. inv_ok.
  match goal with H : value_address _ _ = Ok _ |- _ => apply validateAddress_Ok in H as [Ha ->] end.
  apply set_scalarValues_ok; [apply map_ok_set, Hok | | done].
  apply map_set_Forall; [by split | apply Hok].
Qed.

Lemma applyListAppend_ok s q ns k v s' :
  state_ok s -> q < nextSeq s -> Forall (fun kl => Forall (fun el => el_seq el < q) (elements kl.2)) (listValues s) ->
  applyListAppend s q ns k v = Ok s' -> state_ok s'.
Proof.
  intros Hok Hq Hafter H. unfold applyListAppend in H.
  destruct (map_get (listValues s) (physicalKey ns k)) as [l |] eqn:E.
  - inv_ok. apply map_get_In in E. pose proof (ok_lists s Hok) as Hl. rewrite Forall_forall in Hl, Hafter.
    destruct (Hl _ E) as [Hk Ha Hs Hb]. specialize (Hafter _ E).
    apply set_listValues_ok; [apply map_ok_set, Hok | | done]. apply map_set_Forall; [| apply Hok].
    split; cbn in *; [done | done | by apply StronglySorted_snoc | apply Forall_app; by repeat constructor].
  - inv_ok.
    match goal with H : value_address _ _ = Ok _ |- _ => apply validateAddress_Ok in H as [Ha ->] end.
    apply set_listValues_ok; [apply map_ok_set, Hok | | done].
    apply map_set_Forall; [| apply Hok]. split; cbn; [done | done | by repeat constructor | by repeat constructor].
Qed.

Lemma apply_write_ok s w s' :
  state_ok s -> write_valid s w -> apply_write s w = Ok s' -> state_ok s' /\ nextSeq s' = write_seq w + 1.
Proof.
  intros Hok [Hseq Hw] H. unfold apply_write in H. inv_ok.
  set (s1 := set_nextSeq s (write_seq w + 1)).
  assert (Hok1 : state_ok s1) by (apply set_nextSeq_ok; [lia | done]).
  assert (Hbelow : Forall (fun e' => seq e' < write_seq w) (entriesBySeq s)).
  { eapply Forall_impl; [exact (ok_below s Hok) |]. cbn. lia. }
  split; [| done]. destruct w as [e | r | q ns k v | q ns k | q ns k v | q ns k]; cbn [write_seq] in *.
  - inv_ok. destruct Hw as [Hid Hp]. apply (apply_entry_ok s1 e); try done. cbn. lia.
  - inv_ok. apply (apply_usage_ok s1 r); try done. cbn. lia.
  - apply (applyValueSet_ok s1 q ns k v); [done | cbn; lia |].
    unfold applyValueSet in *. inv_ok. by rewrite Ha0.
  - inv_ok. apply (set_scalarValues_ok s1); [apply map_ok_delete, Hok | | done].
    apply map_delete_Forall, Hok1.
  - apply (applyListAppend_ok s1 q ns k v); [done | cbn; lia | |].
    + cbn. eapply Forall_impl; [exact (ok_lists s Hok) |]. intros kl [_ _ _ Hb]. eapply Forall_impl; [exact Hb |]. cbn. lia.
    + unfold applyListAppend in *. cbn [listValues s1 set_nextSeq] in *.
      destruct (map_get (listValues s) (physicalKey ns k)); inv_ok; [done |]. by rewrite Ha0.
  - inv_ok. apply (set_listValues_ok s1); [apply map_ok_delete, Hok | | done].
    apply map_delete_Forall, Hok1.
Qed.

(** ** A validated transaction *)

(** The ids and entry ids known while the transaction is applied. *)
Definition knows (s0 s : State) (ids entryIds : gset jstring) : Prop :=
  (forall x, hasEntryOrUsageId s x = hasEntryOrUsageId s0 x || bool_decide (x ∈ ids)) /\
  (forall x, hasEntryId s x = hasEntryId s0 x || bool_decide (x ∈ entryIds)).

Lemma map_has_set {A} (m : list (jstring * A)) k v x : map_has (map_set m k v) x = bool_decide (x = k) || map_has m x.
Proof.
  unfold map_has, obj_has. change (obj_get (map_set m k v) x) with (map_get (map_set m k v) x).
  rewrite map_get_set. change (map_get m x) with (obj_get m x). case_decide; case_bool_decide; done.
Qed.

Lemma hasEntryId_insert s e x : hasEntryId (apply_entry s e) x = bool_decide (x = id e) || hasEntryId s x.
Proof.
  unfold hasEntryId, apply_entry; cbn. case_bool_decide as H; case_bool_decide as Hx; cbn.
  - done.
  - rewrite lookup_insert_ne in H by done. by rewrite bool_decide_eq_true_2.
  - subst. rewrite lookup_insert_eq in H. by destruct H.
  - rewrite lookup_insert_ne in H by done. by rewrite bool_decide_eq_false_2.
Qed.

Lemma bool_decide_union (x y : jstring) (X : gset jstring) :
  bool_decide (x ∈ ({[ y ]} ∪ X)) = bool_decide (x = y) || bool_decide (x ∈ X).
Proof. repeat case_bool_decide; try done; set_solver. Qed.

Lemma knows_entry s0 s e ids entryIds :
  knows s0 s ids entryIds -> knows s0 (set_nextSeq (apply_entry s e) (seq e + 1)) ({[ id e ]} ∪ ids) ({[ id e ]} ∪ entryIds).
Proof.
  intros [H1 H2]. split; intros x; rewrite bool_decide_union.
  - unfold hasEntryOrUsageId at 1. change (hasEntryId (set_nextSeq (apply_entry s e) (seq e + 1)) x) with (hasEntryId (apply_entry s e) x).
    rewrite hasEntryId_insert. cbn. specialize (H1 x). unfold hasEntryOrUsageId at 1 in H1.
    rewrite <- orb_assoc, H1. destruct (bool_decide (x = id e)), (hasEntryOrUsageId s0 x); done.
  - change (hasEntryId (set_nextSeq (apply_entry s e) (seq e + 1)) x) with (hasEntryId (apply_entry s e) x).
    rewrite hasEntryId_insert, H2. destruct (bool_decide (x = id e)), (hasEntryId s0 x); done.
Qed.

Lemma knows_usage s0 s r ids entryIds :
  knows s0 s ids entryIds -> knows s0 (set_nextSeq (apply_usage s r) (row_seq r + 1)) ({[ row_id r ]} ∪ ids) entryIds.
Proof.
  intros [H1 H2]. split; intros x; [| exact (H2 x)]. rewrite bool_decide_union.
  unfold hasEntryOrUsageId at 1; cbn. rewrite map_has_set. specialize (H1 x). unfold hasEntryOrUsageId at 1 in H1.
  change (hasEntryId (set_nextSeq (apply_usage s r) (row_seq r + 1)) x) with (hasEntryId s x).
  rewrite orb_assoc, (orb_comm (hasEntryId s x)), <- orb_assoc, H1.
  destruct (bool_decide (x = row_id r)), (hasEntryOrUsageId s0 x); done.
Qed.

(** A write that sets neither an entry nor a row. *)
Lemma knows_other s0 s s' ids entryIds :
  entries s' = entries s -> usage s' = usage s -> knows s0 s ids entryIds -> knows s0 s' ids entryIds.
Proof. unfold knows, hasEntryOrUsageId, hasEntryId. by intros -> ->. Qed.

Definition validate_next (s0 : State) (w : CommittedWrite) (ids entryIds : gset jstring) : gset jstring * gset jstring :=
  match w with
  | CEntry e => ({[ id e ]} ∪ ids, {[ id e ]} ∪ entryIds)
  | CUsage r => ({[ row_id r ]} ∪ ids, entryIds)
  | _ => (ids, entryIds)
  end.

Lemma throw_unless_bind {A} b (e : StorageError) (k : result StorageError A) x :
  throw_unless b e ≫= (fun _ => k) = Ok x <-> b = true /\ k = Ok x.
Proof. destruct b; cbn; [tauto |]. split; [done | by intros [? _]]. Qed.

(** One turn of the validation loop is [write_valid] in the current state. *)
Lemma validate_loop_cons s0 s w ws ids entryIds :
  knows s0 s ids entryIds ->
  validate_loop (hasEntryOrUsageId s0) (hasEntryId s0) (w :: ws) (nextSeq s - 1) ids entryIds = Ok tt <->
  write_valid s w /\
  validate_loop (hasEntryOrUsageId s0) (hasEntryId s0) ws (write_seq w)
    (validate_next s0 w ids entryIds).1 (validate_next s0 w ids entryIds).2 = Ok tt.
Proof.
  intros [K1 K2]. unfold write_valid. cbn [validate_loop]. rewrite throw_unless_bind.
  assert (Hseq : (nextSeq s - 1 <? write_seq w) = true <-> nextSeq s <= write_seq w) by lia.
  rewrite Hseq. destruct w as [e | r | q ns k v | q ns k | q ns k v | q ns k]; cbn [validate_next fst snd];
    rewrite ?throw_unless_bind, ?negb_true_iff, ?K1; [| tauto..].
  rewrite bind_Ok. assert (Hp : (forall p, parentId e = Some p -> hasEntryId s p = true) <->
    exists a, match parentId e with
              | Some p => throw_unless (hasEntryId s0 p || bool_decide (p ∈ entryIds)) (MissingParent p)
              | None => Ok tt
              end = Ok a).
  { destruct (parentId e) as [p |].
    - setoid_rewrite throw_unless_Ok. setoid_rewrite <- K2. split; [intros H; exists tt; by apply H |].
      by intros [_ H] ? [= <-].
    - split; [by exists tt | done]. }
  rewrite Hp. split.
  - intros (Hs & Hi & [] & Ha & H). eauto.
  - intros ((Hs & Hi & [] & Ha) & H). eauto 6.
Qed.

(** [apply_write]'s next state knows the ids the loop adds. *)
Lemma apply_write_knows s0 s w s' ids entryIds :
  knows s0 s ids entryIds -> apply_write s w = Ok s' ->
  knows s0 s' (validate_next s0 w ids entryIds).1 (validate_next s0 w ids entryIds).2.
Proof.
  intros K H. unfold apply_write in H. inv_ok.
  destruct w as [e | r | q ns k v | q ns k | q ns k v | q ns k]; cbn [validate_next fst snd write_seq] in *.
  - inv_ok. by apply knows_entry.
  - inv_ok. by apply knows_usage.
  - unfold applyValueSet in Ha. inv_ok. by eapply knows_other.
  - inv_ok. by eapply knows_other.
  - unfold applyListAppend in Ha. destruct (map_get _ _); inv_ok; by eapply knows_other.
  - inv_ok. by eapply knows_other.
Qed.

Lemma applyValidated_ok s0 s ws ids entryIds :
  state_ok s -> knows s0 s ids entryIds ->
  validate_loop (hasEntryOrUsageId s0) (hasEntryId s0) ws (nextSeq s - 1) ids entryIds = Ok tt ->
  state_ok (applyValidated s ws).1.
Proof.
  revert s ids entryIds. induction ws as [| w ws IH]; intros s ids entryIds Hok K H; [done |].
  apply (validate_loop_cons s0 s) in H as [Hw H]; [| done]. cbn [applyValidated].
  destruct (apply_write s w) as [s' | e] eqn:E; [| done].
  destruct (apply_write_ok s w s' Hok Hw E) as [Hok' Hn]. eapply IH; [done | by eapply apply_write_knows |].
  rewrite Hn. by replace (write_seq w + 1 - 1) with (write_seq w) by lia.
Qed.

Lemma knows_refl s : knows s s ∅ ∅.
Proof. split; intros x; rewrite (bool_decide_eq_false_2 (x ∈ ∅)) by set_solver; by rewrite orb_false_r. Qed.

Lemma validated_ok s ws :
  state_ok s -> validateCommitted s ws = Ok tt -> state_ok (applyValidated s ws).1.
Proof. intros Hok H. eapply applyValidated_ok; [done | apply knows_refl | exact H]. Qed.

(** ** [commit] *)

Definition write_address_ok (w : Write) : Prop :=
  match w with WValueSet ns k _ | WListAppend ns k _ => address_ok ns k | _ => True end.

Definition entries_of (ws : list CommittedWrite) : list Entry :=
  omap (fun w => match w with CEntry e => Some e | _ => None end) ws.

Definition write_ids (ws : list Write) : list jstring :=
  omap (fun w => match w with WEntry e => Some (new_id e) | WUsage r => Some (newrow_id r) | _ => None end) ws.

Definition entry_ids (ws : list Write) : list jstring :=
  omap (fun w => match w with WEntry e => Some (new_id e) | _ => None end) ws.

(** The transactions [commit] must accept: every entry and row has an id that is
    new to the session and to the transaction, every parent is an entry of
    the session or an earlier one of the transaction. *)
Definition admissible_at (s : State) (before : list Write) (w : Write) : Prop :=
  let fresh_id x := hasEntryOrUsageId s x = false /\ x ∉ write_ids before in
  match w with
  | WEntry e => fresh_id (new_id e) /\ (forall p, new_parentId e = Some p -> hasEntryId s p = true \/ p ∈ entry_ids before)
  | WUsage r => fresh_id (newrow_id r)
  | _ => True
  end.

Definition admissible (s : State) (writes : list Write) : Prop :=
  forall i w, writes !! i = Some w -> admissible_at s (take i writes) w.

Lemma write_seq_commitWrite w q t : write_seq (commitWrite w q t) = q.
Proof. by destruct w. Qed.

Lemma prepared_cons w ws first t :
  (prepareStorageCommit (w :: ws) first t).1 = commitWrite w first t :: (prepareStorageCommit ws (first + 1) t).1.
Proof.
  unfold prepareStorageCommit; cbn. rewrite Z.add_0_r. f_equal. apply imap_ext. intros i x _. cbn. f_equal. lia.
Qed.

Lemma prepared_seqs ws first t : seqs (prepareStorageCommit ws first t).2 = seqZ first (blen ws).
Proof.
  change (write_seq <$> (prepareStorageCommit ws first t).1 = seqZ first (blen ws)).
  revert first. induction ws as [| w ws IH]; intros first; [by rewrite (blen_nil (A:=Write)), seqZ_nil |].
  rewrite prepared_cons, fmap_cons, IH, write_seq_commitWrite, blen_cons.
  rewrite (seqZ_cons first) by (pose proof (blen_nonneg ws); lia).
  unfold Z.succ. do 2 f_equal. lia.
Qed.

Lemma admissible_validates s ws first t before ids entryIds :
  (forall x, x ∈ ids <-> x ∈ write_ids before) -> (forall x, x ∈ entryIds <-> x ∈ entry_ids before) ->
  validate_loop (hasEntryOrUsageId s) (hasEntryId s) (prepareStorageCommit ws first t).1 (first - 1) ids entryIds = Ok tt <->
  (forall i w, ws !! i = Some w -> admissible_at s (before ++ take i ws) w).
Proof.
  revert first before ids entryIds. induction ws as [| w ws IH]; intros first before ids entryIds Hi He; [by split |].
  rewrite prepared_cons. cbn [validate_loop]. rewrite throw_unless_bind, write_seq_commitWrite.
  assert (Hsplit : (forall i w', (w :: ws) !! i = Some w' -> admissible_at s (before ++ take i (w :: ws)) w') <->
    admissible_at s before w /\ (forall i w', ws !! i = Some w' -> admissible_at s ((before ++ [w]) ++ take i ws) w')).
  { split.
    - intros H. split; [specialize (H 0%nat w eq_refl); by rewrite app_nil_r in H |].
      intros i w' Hw. rewrite <- app_assoc. by apply (H (S i)).
    - intros [H0 H] [| i] w' Hw; [injection Hw as <-; by rewrite app_nil_r |].
      specialize (H i w' Hw). by rewrite <- app_assoc in H. }
  rewrite Hsplit.
  assert (Hn : (first - 1 <? first) = true) by lia.
  assert (Hstep : forall ids' entryIds', (forall x, x ∈ ids' <-> x ∈ write_ids (before ++ [w])) ->
    (forall x, x ∈ entryIds' <-> x ∈ entry_ids (before ++ [w])) ->
    validate_loop (hasEntryOrUsageId s) (hasEntryId s) (prepareStorageCommit ws (first + 1) t).1 first ids' entryIds' = Ok tt <->
    (forall i w', ws !! i = Some w' -> admissible_at s ((before ++ [w]) ++ take i ws) w')).
  { intros ids' entryIds' H1 H2. rewrite <- (IH (first + 1) _ ids' entryIds' H1 H2).
    by replace (first + 1 - 1) with first by lia. }
  unfold write_ids, entry_ids in Hstep. setoid_rewrite omap_app in Hstep. setoid_rewrite elem_of_app in Hstep.
  fold (write_ids before) in Hstep. fold (entry_ids before) in Hstep.
  destruct w as [e | r | ns k v | ns k | ns k v | ns k]; cbn [commitWrite materializeCommittedEntry id row_id parentId omap list_omap] in *;
    rewrite ?throw_unless_bind, ?negb_true_iff, ?orb_false_iff, ?bool_decide_eq_false; unfold admissible_at; rewrite ?Hi.
  - rewrite bind_Ok. setoid_rewrite Hstep; [| set_solver | set_solver].
    assert (Hp : (exists a, match new_parentId e with
              | Some p => throw_unless (hasEntryId s p || bool_decide (p ∈ entryIds)) (MissingParent p)
              | None => Ok tt
              end = Ok a) <-> (forall p, new_parentId e = Some p -> hasEntryId s p = true \/ p ∈ entry_ids before)).
    { destruct (new_parentId e) as [p |]; [| split; [done | by exists tt]].
      split; [intros [a Ha%throw_unless_Ok] ? [= <-] | intros H; exists tt; apply throw_unless_Ok].
      - by rewrite orb_true_iff, bool_decide_eq_true, He in Ha.
      - rewrite orb_true_iff, bool_decide_eq_true, He. by apply H. }
    rewrite <- Hp. split; [intros (_ & Hf & a & Ha & H) | intros ((Hf & a & Ha) & H)]; eauto 6.
  - rewrite Hstep by set_solver. tauto.
  - rewrite Hstep by set_solver. tauto.
  - rewrite Hstep by set_solver. tauto.
  - rewrite Hstep by set_solver. tauto.
  - rewrite Hstep by set_solver. tauto.
Qed.

Lemma prepareCommit_Ok s ws t r :
  prepareCommit s ws t = Ok r <-> admissible s ws /\ r = prepareStorageCommit ws (nextSeq s) t.
Proof.
  unfold prepareCommit, admissible. rewrite bind_Ok.
  pose proof (admissible_validates s ws (nextSeq s) t [] ∅ ∅ ltac:(cbn; set_solver) ltac:(cbn; set_solver)) as H. cbn [app] in H.
  unfold validateCommitted, validateCommittedWrites. rewrite <- H.
  split; [intros ([] & Hv & [= <-]); done | intros [Hv ->]; eauto].
Qed.

Lemma commit_write_applies s w q t : write_address_ok w -> exists s', apply_write s (commitWrite w q t) = Ok s'.
Proof.
  unfold apply_write. destruct w as [e | r | ns k v | ns k | ns k v | ns k]; cbn; intros Ha; eauto.
  - unfold applyValueSet, value_address. rewrite validateAddress_ok by done. cbn. eauto.
  - unfold applyListAppend, value_address. destruct (map_get _ _); [cbn; eauto |].
    rewrite validateAddress_ok by done. cbn. eauto.
Qed.

Lemma apply_write_effect s w s' :
  apply_write s w = Ok s' ->
  nextSeq s' = write_seq w + 1 /\ entriesBySeq s' = entriesBySeq s ++ entries_of [w].
Proof.
  unfold apply_write. intros H. inv_ok. split; [done |].
  destruct w as [e | r | q ns k v | q ns k | q ns k v | q ns k]; cbn; rewrite ?app_nil_r.
  - by inv_ok.
  - by inv_ok.
  - unfold applyValueSet in Ha. by inv_ok.
  - by inv_ok.
  - unfold applyListAppend in Ha. destruct (map_get _ _); by inv_ok.
  - by inv_ok.
Qed.

(** *** What a commit writes

Said address by address and list by list, for the writes with the sequences they
get, apart from the state's maps. *)

Definition numbered (first : Z) (writes : list Write) : list (Z * Write) := imap (fun index w => (first + Z.of_nat index, w)) writes.

Definition entry_written (timestamp : Z) (x : Z * Write) : option Entry :=
  match x.2 with
  | WEntry e => Some (mkEntry (new_id e) (new_parentId e) x.1 timestamp (new_type e) (new_customType e) (new_body e))
  | _ => None
  end.

Definition row_written (x : Z * Write) : option UsageRow :=
  match x.2 with
  | WUsage r => Some (mkUsageRow (newrow_id r) x.1 (newrow_usage r) (newrow_entryId r) (newrow_adjustment r) (newrow_details r))
  | _ => None
  end.

(** The value of an address: the last one set since it was last deleted. *)
Definition value_then (ns k : jstring) (old : option StoredValue) (x : Z * Write) : option StoredValue :=
  match x.2 with
  | WValueSet ns' k' v => if bool_decide (ns' = ns /\ k' = k) then Some (mkStoredValue (mkAddress ns k) v x.1) else old
  | WValueDelete ns' k' => if bool_decide (ns' = ns /\ k' = k) then None else old
  | _ => old
  end.

(** The elements of an address: those appended since it was last deleted. *)
Definition list_then (ns k : jstring) (old : list ListElement) (x : Z * Write) : list ListElement :=
  match x.2 with
  | WListAppend ns' k' v => if bool_decide (ns' = ns /\ k' = k) then old ++ [mkListElement x.1 v] else old
  | WListDelete ns' k' => if bool_decide (ns' = ns /\ k' = k) then [] else old
  | _ => old
  end.

Definition list_at (s : State) (ns k : jstring) : list ListElement :=
  match map_get (listValues s) (physicalKey ns k) with Some l => elements l | None => [] end.

Record applied_whole (s : State) (ws : list (Z * Write)) (timestamp : Z) (s' : State) : Prop := {
  aw_next : nextSeq s' = nextSeq s + blen ws;
  aw_entries : entriesBySeq s' = entriesBySeq s ++ omap (entry_written timestamp) ws;
  aw_values : forall ns k, address_ok ns k -> getValue s' ns k = fold_left (value_then ns k) ws (getValue s ns k);
  aw_lists : forall ns k, address_ok ns k -> list_at s' ns k = fold_left (list_then ns k) ws (list_at s ns k);
  aw_rows : map_values (usage s') = map_values (usage s) ++ omap row_written ws;
  aw_messages : messageCount (stats s') = messageCount (stats s) + blen (List.filter is_message (omap (entry_written timestamp) ws));
  aw_usage : stats_usage (stats s') = fold_left addUsage (row_usage <$> omap row_written ws) (stats_usage (stats s)) }.

Lemma numbered_cons first w ws : numbered first (w :: ws) = (first, w) :: numbered (first + 1) ws.
Proof. unfold numbered; cbn. rewrite Z.add_0_r. f_equal. apply imap_ext. intros i x _. cbn. f_equal. lia. Qed.

(** The key of an address is that of no other pair of strings. *)
Lemma physicalKey_of_address ns k ns' k' : address_ok ns k -> physicalKey ns' k' = physicalKey ns k <-> ns' = ns /\ k' = k.
Proof.
  intros (_ & Hns & Hk). split; [| by intros [-> ->]]. unfold physicalKey. revert ns' Hns.
  induction ns as [| c ns IH]; intros [| c' ns'] Hns; cbn.
  - by intros [= ->].
  - intros [= -> <-]. destruct Hk. apply elem_of_app. right. by left.
  - intros [= <- _]. destruct Hns. by left.
  - intros [= -> E]. apply IH in E as [-> ->]; [done |]. intros Hin. apply Hns. by right.
Qed.

Lemma map_values_fresh {A} (m : list (jstring * A)) k v : k ∉ m.*1 -> map_values (map_set m k v) = map_values m ++ [v].
Proof.
  intros Hk. unfold map_set. destruct (obj_has m k) eqn:E; [by apply obj_has_spec in E |]. unfold map_values. by rewrite fmap_app.
Qed.

Lemma scalars_then s ns k ns' k' v q :
  state_ok s -> address_ok ns k ->
  map_get (map_set (scalarValues s) (physicalKey ns' k') (mkStoredValue (mkAddress ns' k') v q)) (physicalKey ns k)
    = value_then ns k (getValue s ns k) (q, WValueSet ns' k' v) /\
  map_get (map_delete (scalarValues s) (physicalKey ns' k')) (physicalKey ns k) = value_then ns k (getValue s ns k) (q, WValueDelete ns' k').
Proof.
  intros Hok Ha. rewrite map_get_set, map_get_delete by apply Hok. cbn.
  pose proof (physicalKey_of_address ns k ns' k' Ha) as H. case_bool_decide as E; case_decide as D; try done; naive_solver.
Qed.

Lemma apply_write_whole s w t s' :
  state_ok s -> write_valid s (commitWrite w (nextSeq s) t) -> apply_write s (commitWrite w (nextSeq s) t) = Ok s' ->
  applied_whole s [(nextSeq s, w)] t s'.
Proof.
  intros Hok [_ Hv] H. unfold apply_write in H. apply bind_Ok in H as (s1 & H & [= <-]). rewrite write_seq_commitWrite.
  destruct w as [e | r | ns k v | ns k | ns k v | ns k]; cbn in H.
  - injection H as <-. split; cbn; rewrite ?app_nil_r; try done; unfold is_message; cbn; case_bool_decide; try done; unfold blen; cbn; lia.
  - injection H as <-. cbn in Hv. apply hasEntryOrUsageId_false in Hv as [_ Hv]. split; cbn; try done; rewrite ?app_nil_r; try done.
    + by apply map_values_fresh.
    + by rewrite Z.add_0_r.
  - unfold applyValueSet in H. apply bind_Ok in H as (a & [_ ->]%validateAddress_Ok & [= <-]).
    split; cbn; rewrite ?app_nil_r; try done; [| by rewrite Z.add_0_r]. intros ns0 k0 Ha0. unfold getValue. by apply scalars_then.
  - injection H as <-. split; cbn; rewrite ?app_nil_r; try done; [| by rewrite Z.add_0_r].
    intros ns0 k0 Ha0. unfold getValue. cbn. by apply (scalars_then s ns0 k0 ns k JsNull 0).
  - assert (exists l, s1 = set_listValues s (map_set (listValues s) (physicalKey ns k) l) /\ elements l = list_at s ns k ++ [mkListElement (nextSeq s) v]) as (l & -> & Hl).
    { unfold applyListAppend, list_at in *. destruct (map_get (listValues s) (physicalKey ns k)) as [l |] eqn:E; [injection H as <- | apply bind_Ok in H as (a & _ & [= <-])]; by eexists. }
    split; cbn; rewrite ?app_nil_r; try done; [| by rewrite Z.add_0_r]. intros ns0 k0 Ha0. unfold list_at at 1. cbn. rewrite map_get_set.
    pose proof (physicalKey_of_address ns0 k0 ns k Ha0) as Hk. case_bool_decide as E; case_decide as D; try done; [by destruct E as [-> ->] | naive_solver..].
  - injection H as <-. split; cbn; rewrite ?app_nil_r; try done; [| by rewrite Z.add_0_r]. intros ns0 k0 Ha0. unfold list_at at 1. cbn.
    rewrite map_get_delete by apply Hok. pose proof (physicalKey_of_address ns0 k0 ns k Ha0) as Hk. case_bool_decide as E; case_decide as D; try done; naive_solver.
Qed.

Lemma applied_whole_trans s x ws t s1 s' : applied_whole s [x] t s1 -> applied_whole s1 ws t s' -> applied_whole s (x :: ws) t s'.
Proof.
  intros [A1 A2 A3 A4 A5 A6 A7] [B1 B2 B3 B4 B5 B6 B7].
  change (x :: ws) with ([x] ++ ws). split; rewrite ?omap_app, ?fmap_app, ?List.filter_app, ?fold_left_app.
  - blen_lia.
  - by rewrite B2, A2, <- app_assoc.
  - intros ns k Ha. by rewrite B3, A3.
  - intros ns k Ha. by rewrite B4, A4.
  - by rewrite B5, A5, <- app_assoc.
  - rewrite blen_app. lia.
  - by rewrite B7, A7.
Qed.

Lemma applyValidated_whole s0 s ws t ids entryIds :
  state_ok s -> knows s0 s ids entryIds -> Forall write_address_ok ws ->
  validate_loop (hasEntryOrUsageId s0) (hasEntryId s0) (prepareStorageCommit ws (nextSeq s) t).1 (nextSeq s - 1) ids entryIds = Ok tt ->
  exists s', applyValidated s (prepareStorageCommit ws (nextSeq s) t).1 = (s', None) /\ applied_whole s (numbered (nextSeq s) ws) t s'.
Proof.
  intros Hok K Ha. revert s ids entryIds Hok K. induction Ha as [| w ws Hw Ha IH]; intros s ids entryIds Hok K Hv.
  { exists s. split; [done |]. split; cbn; rewrite ?app_nil_r; try done; unfold blen; cbn; lia. }
  rewrite prepared_cons in *. apply (validate_loop_cons s0 s) in Hv as [Hv Hrest]; [| done]. rewrite write_seq_commitWrite in Hrest.
  destruct (commit_write_applies s w (nextSeq s) t Hw) as [s1 H1]. cbn [applyValidated]. rewrite H1, numbered_cons.
  destruct (apply_write_ok s _ s1 Hok Hv H1) as [Hok1 Hn]. rewrite write_seq_commitWrite in Hn.
  pose proof (apply_write_whole s w t s1 Hok Hv H1) as Hone.
  destruct (IH s1 _ _ Hok1 (apply_write_knows _ _ _ _ _ _ K H1)) as (s' & H' & Hall).
  - rewrite Hn. by replace (nextSeq s + 1 - 1) with (nextSeq s) by lia.
  - rewrite Hn in *. exists s'. split; [done |]. by eapply applied_whole_trans.
Qed.

(** Every commit, failed ones included, leaves a well-formed session. *)
Lemma commit_ok s writes timestamp : state_ok s -> state_ok (commit s writes timestamp).1.
Proof.
  intros Hok. unfold commit, prepareCommit.
  destruct (validateCommitted s (prepareStorageCommit writes (nextSeq s) timestamp).1) as [[] | e] eqn:E; [| done].
  cbn [mbind result_bind]. pose proof (validated_ok s _ Hok E) as H.
  destruct (prepareStorageCommit writes (nextSeq s) timestamp) as [committed res]. cbn [fst] in H.
  by destruct (applyValidated s committed) as [s' [e |]].
Qed.

(** C7. A commit is accepted exactly when every entry and usage row it inserts has
    a new id and every parent it names already exists, in the session or
    earlier in the transaction; it is then applied whole, under the
    consecutive sequences from the next one on: its entries and usage rows are
    appended in order and counted, every address holds the last value set on it and
    the elements appended to it since it was last deleted, and every other address
    is untouched.  Otherwise the session is left untouched.  Either way the state
    stays well formed: ids unique, parents present and older than their
    children, sequences increasing. *)
Theorem commit_spec s writes timestamp :
  state_ok s -> Forall write_address_ok writes ->
  let '(s', r) := commit s writes timestamp in
  state_ok s' /\
  match r with
  | Ok (res, st) =>
      admissible s writes /\ st = stats s' /\ firstSeq res = nextSeq s /\
      seqs res = seqZ (nextSeq s) (blen writes) /\ result_timestamp res = timestamp /\
      applied_whole s (numbered (nextSeq s) writes) timestamp s'
  | Err _ => ~ admissible s writes /\ s' = s
  end.
Proof.
  intros Hok Ha. unfold commit. destruct (prepareCommit s writes timestamp) as [[committed res] | e] eqn:E.
  - pose proof E as Hp. apply prepareCommit_Ok in Hp as [Hadm Hp]. injection Hp as -> ->.
    unfold prepareCommit in E. inv_ok. destruct a.
    pose proof (validated_ok s _ Hok Ha0) as Hok'.
    destruct (applyValidated_whole s s writes timestamp ∅ ∅ Hok (knows_refl s) Ha Ha0) as (s' & H' & Hw).
    change (imap _ writes) with (prepareStorageCommit writes (nextSeq s) timestamp).1 in *.
    rewrite H' in *. split; [done |]. split_and!; try done. apply prepared_seqs.
  - split; [done |]. split; [| done]. intros Hadm.
    assert (H : prepareCommit s writes timestamp = Ok (prepareStorageCommit writes (nextSeq s) timestamp))
      by (by apply prepareCommit_Ok). congruence.
Qed.

Definition sample_entry (i : jstring) (p : option jstring) : Write :=
  WEntry (mkNewEntry i p message None JsNull).

Definition sample_state : State :=
  (commit new_state [sample_entry $"a" None; sample_entry $"b" (Some $"a"); WValueSet $"pi.branch.tip" $"main" (JsStr $"b")] 1000).1.

Lemma sample_address_ok : address_ok $"pi.branch.tip" $"main".
Proof. split; [done |]. split; by apply (bool_decide_unpack (NUL ∉ _)). Qed.

Definition sample_writes : list Write :=
  [sample_entry $"c" (Some $"b"); WValueSet $"pi.branch.tip" $"main" (JsStr $"c"); WListAppend $"pi.branch.tip" $"main" (JsBool true)].

(** An unknown parent is refused; a commit that is accepted is there whole. *)
Lemma commit_spec_witness :
  state_ok sample_state /\
  (let r := commit sample_state [sample_entry $"c" (Some $"z")] 1 in
   ~ admissible sample_state [sample_entry $"c" (Some $"z")] /\ r.1 = sample_state) /\
  (let r := commit sample_state sample_writes 2 in
   admissible sample_state sample_writes /\ applied_whole sample_state (numbered 4 sample_writes) 2 r.1).
Proof.
  assert (Hok : state_ok sample_state) by apply commit_ok, new_state_ok.
  split; [exact Hok |]. split.
  - pose proof (commit_spec sample_state [sample_entry $"c" (Some $"z")] 1 Hok) as H.
    destruct (commit sample_state [sample_entry $"c" (Some $"z")] 1) as [s r] eqn:E.
    vm_compute in E. injection E as <- <-. destruct H as [_ H]; [by repeat constructor |]. exact H.
  - pose proof (commit_spec sample_state sample_writes 2 Hok) as H.
    assert (Hr : exists x, (commit sample_state sample_writes 2).2 = Ok x) by (eexists; vm_compute; reflexivity).
    destruct (commit sample_state sample_writes 2) as [s r]. cbn in Hr. destruct Hr as [[res st] ->]. cbn.
    destruct H as (_ & Hadm & _ & _ & _ & _ & Hw); [repeat constructor; apply sample_address_ok |]. by split.
Defined.

(** Validation does not look at addresses: a write with an empty namespace that
    did not come from [setValue] passes it, throws while the transaction is
    being applied, and leaves the writes before it in the session. *)
Example commit_bad_address_applies_prefix :
  let '(s', r) := commit new_state [sample_entry $"a" None; WValueSet [] $"k" JsNull] 1 in
  r = Err EmptyNamespace /\ hasEntryId s' $"a" = true /\ nextSeq s' = 2.
Proof. by vm_compute. Qed.

(** ** Branches *)

(** The entries from an entry up to its root. *)
Inductive ancestry (s : State) : Entry -> list Entry -> Prop :=
| anc_root e : parentId e = None -> ancestry s e [e]
| anc_step e p parent path :
    parentId e = Some p -> entries s !! p = Some parent -> ancestry s parent path -> ancestry s e (e :: path).

Lemma listed s x e : state_ok s -> entries s !! x = Some e -> e ∈ entriesBySeq s /\ id e = x.
Proof. intros Hok H. by apply (ok_indexed s Hok) in H as [? ?]. Qed.

Lemma parent_listed s e p :
  state_ok s -> e ∈ entriesBySeq s -> parentId e = Some p ->
  exists pe, entries s !! p = Some pe /\ pe ∈ entriesBySeq s /\ seq pe < seq e.
Proof.
  intros Hok He Hp. pose proof (ok_parent s Hok) as H. rewrite Forall_forall in H.
  destruct (H e He p Hp) as (pe & Hpe & Hs). exists pe. split_and!; [done | by apply (listed s p) | done].
Qed.

(** The earlier entries of the log; they bound the walk to the root. *)
Definition earlier (s : State) (e : Entry) : list Entry := List.filter (fun e' => seq e' <? seq e) (entriesBySeq s).

Lemma filter_length_lt {A} (f g : A -> bool) l x :
  (forall y, f y = true -> g y = true) -> x ∈ l -> f x = false -> g x = true ->
  (length (List.filter f l) < length (List.filter g l))%nat.
Proof.
  intros Hfg Hx Hf Hg. assert (Hle : forall l, (length (List.filter f l) <= length (List.filter g l))%nat).
  { induction l0 as [| y l0 IH]; cbn; [lia |]. destruct (f y) eqn:E; [rewrite (Hfg y E); cbn; lia |].
    destruct (g y); cbn; lia. }
  induction l as [| y l IH]; [by apply not_elem_of_nil in Hx |]. cbn. specialize (Hle l).
  apply elem_of_cons in Hx as [<- | Hx]; [rewrite Hf, Hg; cbn; lia |].
  specialize (IH Hx). destruct (f y) eqn:E; [rewrite (Hfg y E); cbn; lia | destruct (g y); cbn; lia].
Qed.

Lemma earlier_parent s e pe : pe ∈ entriesBySeq s -> seq pe < seq e -> (length (earlier s pe) < length (earlier s e))%nat.
Proof. intros Hp Hlt. apply (filter_length_lt _ _ _ pe); [intros y; lia | done | lia | lia]. Qed.

Lemma branch_path_ancestry s fuel e :
  state_ok s -> e ∈ entriesBySeq s -> (length (earlier s e) < fuel)%nat ->
  exists path, branch_path s fuel e = Ok path /\ ancestry s e path.
Proof.
  intros Hok. revert e. induction fuel as [| fuel IH]; intros e He Hf; [lia |].
  cbn. destruct (parentId e) as [p |] eqn:Ep; [| eexists; split; [done | by constructor]].
  destruct (parent_listed s e p Hok He Ep) as (pe & Hpe & Hin & Hlt). rewrite Hpe.
  destruct (IH pe Hin) as (path & Hpath & Ha); [pose proof (earlier_parent s e pe Hin Hlt); lia |].
  rewrite Hpath. exists (e :: path). split; [done |]. by eapply anc_step.
Qed.

Lemma NoDup_entries s : state_ok s -> NoDup (entriesBySeq s).
Proof.
  intros Hok. pose proof (ok_sorted s Hok) as H. induction H as [| e l Hs IH Hl]; [constructor |].
  constructor; [| done]. intros Hin. rewrite Forall_forall in Hl. specialize (Hl e Hin). unfold seq_lt in Hl. lia.
Qed.

Lemma entries_size s : state_ok s -> size (entries s) = length (entriesBySeq s).
Proof.
  intros Hok. rewrite <- (size_dom (D := gset jstring)).
  assert (E : dom (entries s) = list_to_set (id <$> entriesBySeq s)).
  { apply set_eq. intros x. rewrite elem_of_dom, elem_of_list_to_set, list_elem_of_fmap. split.
    - intros [e He]. exists e. apply (listed s x) in He as [? ?]; done.
    - intros (e & -> & He). pose proof (ok_listed s Hok) as H. rewrite Forall_forall in H. rewrite (H e He). eauto. }
  rewrite E, size_list_to_set, length_fmap; [done |].
  apply NoDup_fmap_2_strong; [| by apply NoDup_entries]. intros e1 e2 H1 H2 Hid.
  pose proof (ok_listed s Hok) as H. rewrite Forall_forall in H. pose proof (H e1 H1) as E1. pose proof (H e2 H2) as E2.
  rewrite Hid in E1. congruence.
Qed.

Lemma earlier_size s e : state_ok s -> e ∈ entriesBySeq s -> (length (earlier s e) < size (entries s))%nat.
Proof.
  intros Hok He. rewrite entries_size by done. unfold earlier.
  pose proof (filter_length_lt (fun e' => seq e' <? seq e) (fun _ => true) (entriesBySeq s) e) as H.
  rewrite List.filter_true in H.
  apply H; [done | done | lia | done].
Qed.

Lemma ancestry_listed s e path : state_ok s -> e ∈ entriesBySeq s -> ancestry s e path -> Forall (fun x => x ∈ entriesBySeq s /\ seq x <= seq e) path.
Proof.
  intros Hok He H. induction H as [e Hp | e p parent path Hp Hl Ha IH]; [repeat constructor; [done | lia] |].
  destruct (parent_listed s e p Hok He Hp) as (pe & Hpe & Hin & Hlt). assert (pe = parent) as -> by congruence.
  constructor; [split; [done | lia] |]. eapply Forall_impl; [by apply IH |]. cbn. intros x [? ?]. split; [done | lia].
Qed.

Lemma ancestry_sorted s e path : state_ok s -> e ∈ entriesBySeq s -> ancestry s e path ->
  StronglySorted (fun x y => seq y < seq x) path.
Proof.
  intros Hok He H. induction H as [e Hp | e p parent path Hp Hl Ha IH]; [repeat constructor |].
  destruct (parent_listed s e p Hok He Hp) as (pe & Hpe & Hin & Hlt). assert (pe = parent) as -> by congruence.
  constructor; [by apply IH |]. eapply Forall_impl; [by eapply (ancestry_listed s parent) |]. cbn. intros x [_ ?]. lia.
Qed.

Lemma scan_path s start e :
  state_ok s -> entries s !! start = Some e ->
  exists path, branch_path s (size (entries s)) e = Ok path /\ ancestry s e path.
Proof.
  intros Hok He. apply (listed s start) in He as [Hin _]; [| done].
  apply branch_path_ancestry; [done | done | by apply earlier_size].
Qed.

Definition whole_branch (oldestFirst : bool) (cursor limit : option Z) : BranchScan :=
  mkBranchScan None None None None oldestFirst cursor limit.

Lemma stop_at_none stops path : (forall e, stops e = false) -> stop_at stops path = path.
Proof. intros H. induction path as [| e path IH]; cbn; [done |]. by rewrite H, IH. Qed.

Lemma scanBranch_whole s start e path oldestFirst cursor limit :
  entries s !! start = Some e -> branch_path s (size (entries s)) e = Ok path ->
  scanBranch s start (whole_branch oldestFirst cursor limit) =
  let ordered := if oldestFirst then rev path else path in
  let filtered := List.filter (fun c => match cursor with
    | None => true
    | Some c0 => if oldestFirst then c0 <? seq c else seq c <? c0
    end) ordered in
  Ok (match limit with None => filtered | Some l => take (Z.to_nat (Z.max 0 l)) filtered end).
Proof.
  intros He Hp. unfold scanBranch. rewrite He, Hp. cbn.
  rewrite stop_at_none by (intros; by rewrite !bool_decide_eq_false_2). done.
Qed.

(** Scanning a branch always returns: in a well-formed session an unknown
    start is refused, and from a known one the walk reaches the root without
    ever finding a missing parent or looping, giving the start and its
    ancestors newest first with decreasing sequences (or the same list
    reversed), each the parent of the one before it. *)
Theorem scanBranch_spec s start :
  state_ok s ->
  match entries s !! start with
  | None => forall q, scanBranch s start q = Err (UnknownBranchStart start)
  | Some e =>
      exists path, ancestry s e path /\ StronglySorted (fun x y => seq y < seq x) path /\
        scanBranch s start (whole_branch false None None) = Ok path /\
        scanBranch s start (whole_branch true None None) = Ok (rev path) /\
        (forall q, exists found, scanBranch s start q = Ok found /\ Forall (fun x => x ∈ path) found)
  end.
Proof.
  intros Hok. destruct (entries s !! start) as [e |] eqn:He; [| intros q; unfold scanBranch; by rewrite He].
  destruct (scan_path s start e Hok He) as (path & Hp & Ha). exists path.
  assert (Hin : e ∈ entriesBySeq s) by (by apply (listed s start) in He as [? _]).
  split; [done |]. split; [by eapply ancestry_sorted |].
  rewrite !(scanBranch_whole s start e path) by done. cbn.
  rewrite !List.filter_true. split; [done |]. split; [done |].
  intros q. unfold scanBranch. rewrite He, Hp. cbn. eexists. split; [done |].
  assert (Hstop : forall f l, Forall (fun x : Entry => x ∈ path) l -> Forall (fun x => x ∈ path) (stop_at f l)).
  { intros f l. induction 1 as [| x l Hx Hl IH]; cbn; [constructor |]. destruct (f x); by repeat constructor. }
  assert (Hfilter : forall f l, Forall (fun x : Entry => x ∈ path) l -> Forall (fun x => x ∈ path) (List.filter f l)).
  { intros f l. induction 1 as [| x l Hx Hl IH]; cbn; [constructor |]. destruct (f x); [by constructor | done]. }
  destruct (bs_limit q); [apply Forall_take |]; apply Hfilter, Hstop; destruct (bs_oldestFirst q);
    apply Forall_forall; intros x; try done; by rewrite !list_elem_of_In, <- in_rev.
Qed.

Lemma sample_state_ok : state_ok sample_state.
Proof. apply commit_ok, new_state_ok. Qed.

Lemma scanBranch_spec_witness :
  exists path, scanBranch sample_state $"b" (whole_branch true None None) = Ok (rev path) /\ length path = 2%nat.
Proof.
  pose proof (scanBranch_spec sample_state $"b" sample_state_ok) as H.
  destruct (entries sample_state !! $"b") as [e |] eqn:E; [| by vm_compute in E].
  destruct H as (path & _ & _ & Hn & Ho & _). exists path. split; [exact Ho |].
  assert (Hl : match scanBranch sample_state $"b" (whole_branch false None None) with Ok p => length p | Err _ => 0%nat end = 2%nat)
    by (vm_compute; reflexivity).
  rewrite Hn in Hl. exact Hl.
Defined.

(** ** Reading a list page by page *)

(** Pages from a cursor on, each read after the last element of the one before,
    until an empty one. *)
Fixpoint read_pages (s : State) (ns k : jstring) (order : Order) (limit : option (option Z)) (fuel : nat)
    (cursor : option Z) : result StorageError (list ListElement) :=
  match fuel with
  | O => Err DoesNotReturn
  | S fuel' =>
      readList s ns k order cursor limit ≫= fun page : list ListElement =>
      match list.last page with
      | None => Ok []
      | Some el => read_pages s ns k order limit fuel' (Some (el_seq el)) ≫= fun rest : list ListElement => Ok (page ++ rest)
      end
  end.

Definition list_elements (s : State) (ns k : jstring) : list ListElement :=
  match map_get (listValues s) (physicalKey ns k) with Some l => elements l | None => [] end.

Definition in_order {A} (order : Order) (l : list A) : list A := match order with asc => l | desc => rev l end.

Definition before (order : Order) (x y : ListElement) : Prop :=
  match order with asc => el_seq x < el_seq y | desc => el_seq y < el_seq x end.

Lemma StronglySorted_rev {A} (R : A -> A -> Prop) l : StronglySorted R l -> StronglySorted (fun x y => R y x) (rev l).
Proof.
  induction 1 as [| x l Hs IH Hx]; cbn; [constructor |]. apply StronglySorted_snoc; [done |].
  rewrite Forall_forall in Hx |- *. intros y Hy. apply Hx. by rewrite list_elem_of_In, in_rev, <- list_elem_of_In.
Qed.

Lemma in_order_sorted order l : StronglySorted (seq_lt el_seq) l -> StronglySorted (before order) (in_order order l).
Proof. destruct order; [done |]. apply StronglySorted_rev. Qed.

Lemma after_cursor_suffix order pre x suf :
  StronglySorted (before order) (pre ++ x :: suf) ->
  List.filter (after_cursor order (Some (el_seq x))) (pre ++ x :: suf) = suf.
Proof.
  induction pre as [| y pre IH]; cbn [app]; intros Hs; apply StronglySorted_inv in Hs as [Hs Hx].
  - cbn [List.filter]. replace (after_cursor order (Some (el_seq x)) x) with false by (destruct order; cbn; lia).
    rewrite Forall_forall in Hx. clear Hs. induction suf as [| z suf IH]; [done |]. cbn [List.filter].
    replace (after_cursor order (Some (el_seq x)) z) with true.
    + f_equal. apply IH. intros w Hw. apply Hx. by right.
    + specialize (Hx z ltac:(by left)). destruct order; cbn in *; lia.
  - cbn [List.filter]. rewrite Forall_forall in Hx.
    assert (Hyx : before order y x) by (apply Hx; apply elem_of_app; right; by left).
    replace (after_cursor order (Some (el_seq x)) y) with false by (destruct order; cbn in *; lia). by apply IH.
Qed.

Lemma readList_ordered s ns k order cursor limit n :
  resolve_limit limit = Ok n ->
  readList s ns k order cursor limit =
  Ok (take (Z.to_nat n) (List.filter (after_cursor order cursor) (in_order order (list_elements s ns k)))).
Proof.
  intros Hn. unfold readList. rewrite Hn. cbn. unfold list_elements, in_order.
  destruct order; [done |]. by rewrite List.filter_rev.
Qed.

Lemma resolve_limit_pos limit n : resolve_limit limit = Ok n -> 0 < n <= 10000.
Proof.
  unfold resolve_limit. destruct (default _ limit) as [l |]; [| done].
  destruct (_ && _) eqn:E; [| done]. intros [= <-]. lia.
Qed.

Lemma read_pages_from s ns k order limit n fuel cursor pre suf :
  resolve_limit limit = Ok n ->
  StronglySorted (before order) (in_order order (list_elements s ns k)) ->
  in_order order (list_elements s ns k) = pre ++ suf ->
  List.filter (after_cursor order cursor) (in_order order (list_elements s ns k)) = suf ->
  (length suf < fuel)%nat -> read_pages s ns k order limit fuel cursor = Ok suf.
Proof.
  intros Hn Hs. pose proof (resolve_limit_pos limit n Hn) as Hpos.
  revert cursor pre suf. induction fuel as [| fuel IH]; intros cursor pre suf Hsplit Hf Hlen; [lia |].
  cbn [read_pages]. rewrite (readList_ordered _ _ _ _ _ _ n Hn), Hf. cbn [mbind result_bind].
  destruct suf as [| x0 suf0]; [by rewrite take_nil |]. remember (x0 :: suf0) as suf eqn:Esuf.
  destruct (take (Z.to_nat n) suf) as [| x page _] eqn:Et using rev_ind.
  { rewrite Esuf in Et. destruct (Z.to_nat n) eqn:En; [lia | done]. }
  rewrite last_snoc.
  assert (Hsuf : suf = page ++ x :: drop (Z.to_nat n) suf).
  { rewrite <- (take_drop (Z.to_nat n) suf) at 1. by rewrite Et, <- app_assoc. }
  clear Et Esuf x0 suf0. generalize dependent (drop (Z.to_nat n) suf). intros rest Hsuf. rewrite Hsuf in *. clear Hsuf suf.
  rewrite (IH _ ((pre ++ page) ++ [x]) rest).
  - cbn. by rewrite <- app_assoc.
  - rewrite Hsplit. by rewrite <- !app_assoc.
  - rewrite Hsplit, app_assoc in *. by apply after_cursor_suffix.
  - rewrite length_app in Hlen. cbn in Hlen. lia.
Qed.

(** Pagination is exact: reading a list with any accepted limit, in either
    order, and passing the sequence of the last element of each page as the
    next cursor, returns every element of the list once, in order, and stops;
    each page holds at most the limit (never more than 10000). *)
Theorem readList_pagination s ns k order limit n :
  state_ok s -> resolve_limit limit = Ok n ->
  read_pages s ns k order limit (S (length (list_elements s ns k))) None = Ok (in_order order (list_elements s ns k)) /\
  (forall cursor, exists page, readList s ns k order cursor limit = Ok page /\ blen page <= n <= 10000).
Proof.
  intros Hok Hn. assert (Hs : StronglySorted (seq_lt el_seq) (list_elements s ns k)).
  { unfold list_elements. destruct (map_get _ _) as [l |] eqn:E; [| constructor].
    apply map_get_In in E. pose proof (ok_lists s Hok) as H. rewrite Forall_forall in H. apply (H _ E). }
  split.
  - apply (read_pages_from _ _ _ _ _ n _ None []); [done | by apply in_order_sorted | done | by apply List.filter_true |].
    destruct order; cbn; rewrite ?length_rev; lia.
  - intros cursor. eexists. split; [by apply readList_ordered |].
    pose proof (resolve_limit_pos limit n Hn). unfold blen. rewrite length_take. lia.
Qed.

Lemma readList_pagination_witness :
  let s := (commit new_state [WListAppend $"app" $"x" (JsBool true); WListAppend $"app" $"x" JsNull; WListAppend $"app" $"x" JsNull] 5).1 in
  read_pages s $"app" $"x" desc (Some (Some 2)) 4 None = Ok (rev (list_elements s $"app" $"x")) /\
  length (list_elements s $"app" $"x") = 3%nat.
Proof.
  intros s. assert (Hok : state_ok s) by apply commit_ok, new_state_ok.
  split; [| by vm_compute].
  apply (readList_pagination s $"app" $"x" desc (Some (Some 2)) 2 Hok eq_refl).
Defined.
