(* ===== verification/SessionFork.v ===== *)
(** * Forking a session (packages/agent/src/harness/session: fork-policy.ts, in-memory-storage-state.ts, jsonl/fork.ts)

The fork of a materialised state and the fork of a JSONL log, which share the
selection of the branch and the projection of the current state.  A log is
the list of its complete transactions. *)
From S2P Require Import Prelude JsString JsNumber JsObject JsMap Utf8 CborValue Json SessionStore.
From Stdlib Require Import Sorting.Sorted.
#[local] Open Scope Z_scope.
#[local] Arguments js : simpl never.

(** ** fork-policy.ts *)

(** [position] is ["before"] or not. *)
Inductive ForkOptions :=
| ForkTree
| ForkBranch (branch : jstring) (entryId : option jstring) (before : bool).

Inductive ForkPlan := PlanTree | PlanBranch (branch : jstring) (destinationTip : option jstring).

(** The walk of [selectBranchFork] from the tip: what it found, the destination
    tip and the selected entries; the fuel bounds the entries visited. *)
Fixpoint select_loop (fuel : nat) (requested : option jstring) (before : bool)
    (getParent : jstring -> option (option jstring)) (entryId : option jstring)
    (found : bool) (destinationTip : option jstring) (selected : gset jstring)
    : result StorageError (bool * option jstring * gset jstring) :=
  match entryId with
  | None => Ok (found, destinationTip, selected)
  | Some x =>
      match fuel with
      | O => Err DoesNotReturn
      | S fuel' =>
          match getParent x with
          | None => Err CorruptSourceBranch
          | Some p =>
              if bool_decide (Some x = requested)
              then select_loop fuel' requested before getParent p true (if before then p else Some x)
                     (if before then selected else {[ x ]} ∪ selected)
              else select_loop fuel' requested before getParent p found destinationTip
                     (if found then {[ x ]} ∪ selected else selected)
          end
      end
  end.

(** The stored tip of a branch: [null] or an id; nothing else names an entry. *)
Definition tip_of (tip : json) : result StorageError (option jstring) :=
  match tip with
  | JsNull => Ok None
  | JsStr x => Ok (Some x)
  | _ => Err CorruptSourceBranch
  end.

Definition selectBranchFork (fuel : nat) (branch : jstring) (entryId : option jstring) (before : bool) (tip : option json)
    (getParent : jstring -> option (option jstring)) : result StorageError (option jstring * gset jstring) :=
  match tip with
  | None => Err (UnknownSourceBranch branch)
  | Some tip =>
      tip_of tip ≫= fun tip =>
      let requested := match entryId with Some x => Some x | None => tip end in
      select_loop fuel requested before getParent tip (bool_decide (requested = None)) None ∅ ≫= fun '(found, destinationTip, selected) =>
      throw_unless found (NotOnSourceBranch branch) ≫= fun _ =>
      Ok (destinationTip, selected)
  end.

Definition tip_json (tip : option jstring) : json := match tip with Some x => JsStr x | None => JsNull end.

Definition idle_lane : json :=
  JsObj false [($"currentOperationId", JsNull); ($"lastOperationId", JsNull); ($"inbox", JsArr [])].

(** [projectForkCurrentStateWrite]: the value the destination keeps of a current
    value or list element, [None] when it is dropped. *)
Definition project (plan : ForkPlan) (isEntryCopied : jstring -> bool) (ns k : jstring) (v : json)
    : result StorageError (option json) :=
  let of_branch (r : json) := match plan with
    | PlanTree => Some r
    | PlanBranch branch _ => if bool_decide (k = branch) then Some r else None
    end in
  if bool_decide (ns = $"pi.session.name") then Ok (Some v)
  else if bool_decide (ns = $"pi.entry.label") then Ok (if isEntryCopied k then Some v else None)
  else if bool_decide (ns = $"pi.branch.tip") then
    Ok (of_branch (match plan with PlanTree => v | PlanBranch _ tip => tip_json tip end))
  else if bool_decide (ns = $"pi.lane.config") then Ok (of_branch v)
  else if bool_decide (ns = $"pi.lane.state") then Ok (of_branch idle_lane)
  else if bool_decide (ns = $"pi.result") then Ok None
  else if startsWith ns $"pi.op." || startsWith ns $"pi.pending." then Ok None
  else if bool_decide (ns = $"pi") || startsWith ns $"pi." then Err (ReservedNamespace ns)
  else Ok (match plan with PlanTree => Some v | PlanBranch _ _ => None end).

(** ** The fork of a materialised state *)

Definition branchTip (branch : jstring) := value_address $"pi.branch.tip" branch.
Definition laneConfig (lane : jstring) := value_address $"pi.lane.config" lane.
Definition laneState (lane : jstring) := value_address $"pi.lane.state" lane.

Definition get_at (s : State) (a : Address) : option StoredValue := getValue s (namespace a) (key a).

Definition selectForkPlan (s : State) (options : ForkOptions) : result StorageError (ForkPlan * gset jstring) :=
  match options with
  | ForkTree => Ok (PlanTree, ∅)
  | ForkBranch branch entryId before =>
      branchTip branch ≫= fun a =>
      selectBranchFork (S (size (entries s))) branch entryId before (sv_value <$> get_at s a)
        (fun x => parentId <$> entries s !! x) ≫= fun '(destinationTip, entryIds) =>
      laneConfig branch ≫= fun c =>
      laneState branch ≫= fun l =>
      throw_unless (bool_decide (is_Some (get_at s c)) && bool_decide (is_Some (get_at s l))) (NotAnAgentLane branch) ≫= fun _ =>
      Ok (PlanBranch branch destinationTip, entryIds)
  end.

Definition isEntryCopied (plan : ForkPlan) (entryIds : gset jstring) (x : jstring) : bool :=
  match plan with PlanTree => true | PlanBranch _ _ => bool_decide (x ∈ entryIds) end.

(** The loop over the source's values. *)
Definition fork_value (plan : ForkPlan) (copied : jstring -> bool) (d : State) (stored : StoredValue) : result StorageError State :=
  let a := sv_address stored in
  project plan copied (namespace a) (key a) (sv_value stored) ≫= fun projected =>
  match projected with
  | Some v => applyValueSet d (sv_seq stored) (namespace a) (key a) v
  | None => Ok d
  end.

(** The loop over the elements of the source's lists. *)
Definition fork_element (plan : ForkPlan) (copied : jstring -> bool) (d : State) (ae : Address * ListElement) : result StorageError State :=
  let a := ae.1 in
  project plan copied (namespace a) (key a) (el_value ae.2) ≫= fun projected =>
  match projected with
  | Some v => applyListAppend d (el_seq ae.2) (namespace a) (key a) v
  | None => Ok d
  end.

Definition fork_entry (d : State) (e : Entry) : State :=
  mkState (<[id e := e]> (entries d)) (entriesBySeq d ++ [e]) (scalarValues d) (listValues d) (usage d) (stats d) (nextSeq d).

Definition all_elements (lists : list (jstring * StoredListSnapshot)) : list (Address * ListElement) :=
  map_values lists ≫= fun stored => (fun el => (sl_address stored, el)) <$> elements stored.

Definition createFork (s : State) (options : ForkOptions) : result StorageError State :=
  selectForkPlan s options ≫= fun '(plan, entryIds) =>
  let copied := isEntryCopied plan entryIds in
  let es := List.filter (fun e => copied (id e)) (entriesBySeq s) in
  let d := fold_left fork_entry es new_state in
  let d := mkState (entries d) (entriesBySeq d) (scalarValues d) (listValues d) (usage d)
             (mkStats (blen (List.filter is_message es)) (stats_usage (stats d))) (nextSeq d) in
  foldM (fork_value plan copied) d (map_values (scalarValues s)) ≫= fun d =>
  foldM (fork_element plan copied) d (all_elements (listValues s)) ≫= fun d =>
  Ok (set_nextSeq d (nextSeq s)).

(** ** The fork of a JSONL log (jsonl/fork.ts) *)

(** [reachesForkBoundary] *)
Definition reachesForkBoundary (writes : list CommittedWrite) (stopBeforeSeq : option Z) : result StorageError bool :=
  match stopBeforeSeq, head writes, list.last writes with
  | Some stop, Some first, Some last =>
      if stop <=? write_seq first then Ok true
      else if stop <=? write_seq last then Err CrossesForkBoundary
      else Ok false
  | _, _, _ => Ok false
  end.

(** [readJsonlForkTransactions] *)
Fixpoint readJsonlForkTransactions (log : list (list CommittedWrite)) (stopBeforeSeq : option Z)
    : result StorageError (list (list CommittedWrite)) :=
  match log with
  | [] => Ok []
  | writes :: log' =>
      reachesForkBoundary writes stopBeforeSeq ≫= fun stop : bool =>
      if stop then Ok []
      else readJsonlForkTransactions log' stopBeforeSeq ≫= fun rest : list (list CommittedWrite) => Ok (writes :: rest)
  end.

Record JsonlForkIndex := mkIndex {
  currentScalarSeqs : gmap jstring Z;
  branchTips : gmap jstring json;
  firstSurvivingListSeqs : gmap jstring Z;
  entryParents : gmap jstring (option jstring);
  laneConfigs : gset jstring;
  laneStates : gset jstring;
}.

Definition new_index : JsonlForkIndex := mkIndex ∅ ∅ ∅ ∅ ∅ ∅.

(** [applyLaneValue]; [v] is [None] for a delete. *)
Definition applyLaneValue (i : JsonlForkIndex) (ns k : jstring) (v : option json) : JsonlForkIndex :=
  let toggle (l : gset jstring) := match v with Some _ => {[ k ]} ∪ l | None => l ∖ {[ k ]} end in
  if bool_decide (ns = $"pi.branch.tip") then
    mkIndex (currentScalarSeqs i) (partial_alter (fun _ => v) k (branchTips i)) (firstSurvivingListSeqs i)
      (entryParents i) (laneConfigs i) (laneStates i)
  else if bool_decide (ns = $"pi.lane.config") then
    mkIndex (currentScalarSeqs i) (branchTips i) (firstSurvivingListSeqs i)
      (entryParents i) (toggle (laneConfigs i)) (laneStates i)
  else if bool_decide (ns = $"pi.lane.state") then
    mkIndex (currentScalarSeqs i) (branchTips i) (firstSurvivingListSeqs i)
      (entryParents i) (laneConfigs i) (toggle (laneStates i))
  else i.

Definition set_scalarSeqs (i : JsonlForkIndex) m : JsonlForkIndex :=
  mkIndex m (branchTips i) (firstSurvivingListSeqs i) (entryParents i) (laneConfigs i) (laneStates i).

Definition set_listSeqs (i : JsonlForkIndex) m : JsonlForkIndex :=
  mkIndex (currentScalarSeqs i) (branchTips i) m (entryParents i) (laneConfigs i) (laneStates i).

(** [applyWrites], one write. *)
Definition index_write (i : JsonlForkIndex) (w : CommittedWrite) : JsonlForkIndex :=
  match w with
  | CEntry e =>
      mkIndex (currentScalarSeqs i) (branchTips i) (firstSurvivingListSeqs i)
        (<[id e := parentId e]> (entryParents i)) (laneConfigs i) (laneStates i)
  | CUsage _ => i
  | CValueSet q ns k v =>
      applyLaneValue (set_scalarSeqs i (<[physicalKey ns k := q]> (currentScalarSeqs i))) ns k (Some v)
  | CValueDelete _ ns k =>
      applyLaneValue (set_scalarSeqs i (delete (physicalKey ns k) (currentScalarSeqs i))) ns k None
  | CListAppend q ns k _ =>
      match firstSurvivingListSeqs i !! physicalKey ns k with
      | Some _ => i
      | None => set_listSeqs i (<[physicalKey ns k := q]> (firstSurvivingListSeqs i))
      end
  | CListDelete _ ns k => set_listSeqs i (delete (physicalKey ns k) (firstSurvivingListSeqs i))
  end.

Definition index_log (ws : list CommittedWrite) : JsonlForkIndex := fold_left index_write ws new_index.

Definition isSurvivingListElement (i : JsonlForkIndex) (ns k : jstring) (q : Z) : bool :=
  match firstSurvivingListSeqs i !! physicalKey ns k with Some f => f <=? q | None => false end.

(** [selectJsonlFork] *)
Definition selectJsonlFork (i : JsonlForkIndex) (options : ForkOptions) : result StorageError (ForkPlan * gset jstring) :=
  match options with
  | ForkTree => Ok (PlanTree, ∅)
  | ForkBranch branch entryId before =>
      selectBranchFork (S (size (entryParents i))) branch entryId before (branchTips i !! branch)
        (fun x => entryParents i !! x) ≫= fun '(destinationTip, entryIds) =>
      throw_unless (bool_decide (branch ∈ laneConfigs i) && bool_decide (branch ∈ laneStates i)) (NotAnAgentLane branch) ≫= fun _ =>
      Ok (PlanBranch branch destinationTip, entryIds)
  end.

(** [projectJsonlForkWrite] *)
Definition projectJsonlForkWrite (i : JsonlForkIndex) (plan : ForkPlan) (copied : jstring -> bool) (w : CommittedWrite)
    : result StorageError (option CommittedWrite) :=
  match w with
  | CEntry e => Ok (if copied (id e) then Some w else None)
  | CValueSet q ns k v =>
      if bool_decide (currentScalarSeqs i !! physicalKey ns k = Some q)
      then project plan copied ns k v ≫= fun p : option json =>
           Ok (match p with Some v' => Some (CValueSet q ns k v') | None => None end)
      else Ok None
  | CListAppend q ns k v =>
      if isSurvivingListElement i ns k q
      then project plan copied ns k v ≫= fun p : option json =>
           Ok (match p with Some v' => Some (CListAppend q ns k v') | None => None end)
      else Ok None
  | CUsage _ | CValueDelete _ _ _ | CListDelete _ _ _ => Ok None
  end.

(** The source of a fork: an open session with the next sequence captured at a
    commit boundary, or a closed file with the one of its header. *)
Inductive JsonlForkInput := InputOpen (nextSeq : Z) | InputClosed (header_nextSeq : option Z).

Definition highestCompleteSeq (txs : list (list CommittedWrite)) : Z :=
  fold_left (fun h writes => match list.last writes with Some w => write_seq w | None => h end) txs 0.

(** [indexForkInput]: the index and the next sequence of the source. *)
Definition indexForkInput (log : list (list CommittedWrite)) (input : JsonlForkInput) : result StorageError (JsonlForkIndex * Z) :=
  let stopBeforeSeq := match input with InputOpen n => Some n | InputClosed _ => None end in
  readJsonlForkTransactions log stopBeforeSeq ≫= fun txs : list (list CommittedWrite) =>
  Ok (index_log (mjoin txs),
      match input with
      | InputOpen n => n
      | InputClosed h => Z.max (default 1 h) (highestCompleteSeq txs + 1)
      end).

(** [runJsonlFork]: the next sequence of the destination's header and the writes
    appended to it, each its own transaction. *)
Definition runJsonlFork (log : list (list CommittedWrite)) (input : JsonlForkInput) (options : ForkOptions)
    : result StorageError (Z * list CommittedWrite) :=
  indexForkInput log input ≫= fun '(i, next) =>
  selectJsonlFork i options ≫= fun '(plan, entryIds) =>
  let copied := isEntryCopied plan entryIds in
  readJsonlForkTransactions log (Some next) ≫= fun txs' : list (list CommittedWrite) =>
  traverse (projectJsonlForkWrite i plan copied) (mjoin txs') ≫= fun ps : list (option CommittedWrite) =>
  Ok (next, omap (fun p => p) ps).

(** Reopening a log: every transaction is validated and applied, then the
    header's sequence is honoured ([openV4]). *)
Fixpoint replay (s : State) (log : list (list CommittedWrite)) : result StorageError State :=
  match log with
  | [] => Ok s
  | writes :: log' =>
      match replayCommitted s writes with
      | (s', None) => replay s' log'
      | (_, Some e) => Err e
      end
  end.

Definition openV4 (header_nextSeq : option Z) (log : list (list CommittedWrite)) : result StorageError State :=
  replay new_state log ≫= fun s =>
  match header_nextSeq with Some n => advanceNextSeq s n | None => Ok s end.

(** ** The selected branch *)

Definition ids (es : list Entry) : gset jstring := list_to_set (id <$> es).

(** The entries of a branch from a tip up to the root, newest first. *)
Definition branch_of (s : State) (tip : option jstring) (path : list Entry) : Prop :=
  match tip with
  | None => path = []
  | Some x => exists e, entries s !! x = Some e /\ ancestry s e path
  end.

Lemma elem_of_ids x es : x ∈ ids es <-> exists e, e ∈ es /\ id e = x.
Proof.
  unfold ids. rewrite elem_of_list_to_set, list_elem_of_fmap. split; [intros (e & -> & ?) | intros (e & ? & <-)]; eauto.
Qed.

Lemma ids_cons e es : ids (e :: es) = {[ id e ]} ∪ ids es.
Proof. done. Qed.

Lemma ancestry_branch s e path : ancestry s e path -> exists rest, path = e :: rest /\ branch_of s (parentId e) rest.
Proof.
  intros H. destruct H as [e Hp | e p parent path Hp Hl Ha]; rewrite Hp; cbn; [by eexists | eauto 6].
Qed.

Lemma entry_id s x e : state_ok s -> entries s !! x = Some e -> id e = x.
Proof. intros Hok H. by apply (ok_indexed s Hok) in H as [? _]. Qed.

Lemma branch_tail s tip e rest :
  state_ok s -> branch_of s tip (e :: rest) -> tip = Some (id e) /\ entries s !! id e = Some e /\ branch_of s (parentId e) rest.
Proof.
  destruct tip as [x |]; cbn; [| done]. intros Hok (e' & He & Ha).
  pose proof (entry_id s x e' Hok He) as <-.
  apply ancestry_branch in Ha as (rest' & [= <- <-] & Hb). done.
Qed.

Lemma branch_nil s tip : state_ok s -> branch_of s tip [] -> tip = None.
Proof. destruct tip as [x |]; [| done]. intros Hok (e & _ & Ha). by apply ancestry_branch in Ha as (? & ? & _). Qed.

Lemma branch_sorted s tip path :
  state_ok s -> branch_of s tip path ->
  StronglySorted (fun x y => seq y < seq x) path /\ Forall (fun e => entries s !! id e = Some e) path.
Proof.
  intros Hok. destruct tip as [x |]; cbn; [| intros ->; split; constructor].
  intros (e & He & Ha). assert (Hin : e ∈ entriesBySeq s) by (by apply (listed s x) in He as [? _]).
  split; [by eapply ancestry_sorted |].
  eapply Forall_impl; [by eapply (ancestry_listed s e) |]. cbn. intros y [Hy _].
  pose proof (ok_listed s Hok) as H. rewrite Forall_forall in H. by apply H.
Qed.

Lemma sorted_NoDup (path : list Entry) : StronglySorted (fun x y => seq y < seq x) path -> NoDup path.
Proof.
  induction 1 as [| e l Hs IH Hl]; constructor; [| done]. intros Hin. rewrite Forall_forall in Hl.
  specialize (Hl e Hin). lia.
Qed.

Lemma branch_length s tip path : state_ok s -> branch_of s tip path -> (length path <= size (entries s))%nat.
Proof.
  intros Hok Hb. destruct (branch_sorted s tip path Hok Hb) as [Hs Hl].
  rewrite entries_size by done. apply submseteq_length, NoDup_submseteq; [by apply sorted_NoDup |].
  intros e He. rewrite Forall_forall in Hl. by destruct (listed s (id e) e Hok (Hl e He)) as [? _].
Qed.

(** No id occurs twice on a branch. *)
Lemma branch_head_fresh s tip e rest : state_ok s -> branch_of s tip (e :: rest) -> id e ∉ ids rest.
Proof.
  intros Hok Hb Hin. destruct (branch_sorted s tip (e :: rest) Hok Hb) as [Hs Hl].
  apply elem_of_ids in Hin as (e' & He' & Hid). apply StronglySorted_inv in Hs as [_ Hs].
  rewrite Forall_forall in Hs, Hl. specialize (Hs e' He').
  pose proof (Hl e ltac:(by left)) as H1. pose proof (Hl e' ltac:(by right)) as H2.
  rewrite Hid in H2. assert (e = e') as -> by congruence. lia.
Qed.

Definition parent_in (s : State) (x : jstring) : option (option jstring) := parentId <$> entries s !! x.

Lemma select_found s path fuel r before tip dest sel :
  state_ok s -> branch_of s tip path -> r ∉ ids path -> (length path <= fuel)%nat ->
  select_loop fuel (Some r) before (parent_in s) tip true dest sel = Ok (true, dest, ids path ∪ sel).
Proof.
  intros Hok. revert fuel tip sel. induction path as [| e path IH]; intros fuel tip sel Hb Hr Hf.
  - apply branch_nil in Hb as ->; [| done]. destruct fuel; cbn; by rewrite (left_id_L ∅ _).
  - destruct (branch_tail s tip e path Hok Hb) as (-> & He & Hb').
    destruct fuel as [| fuel]; [cbn in Hf; lia |]. cbn [select_loop]. unfold parent_in at 1. rewrite He. cbn [fmap option_fmap option_map].
    rewrite ids_cons, not_elem_of_union, not_elem_of_singleton in Hr. destruct Hr as [Hne Hr].
    rewrite bool_decide_eq_false_2 by congruence. rewrite IH; [| done | done | cbn in Hf; lia].
    rewrite ids_cons. do 2 f_equal. set_solver.
Qed.

Lemma select_not_found s path fuel r before tip dest sel :
  state_ok s -> branch_of s tip path -> r ∉ ids path -> (length path <= fuel)%nat ->
  select_loop fuel (Some r) before (parent_in s) tip false dest sel = Ok (false, dest, sel).
Proof.
  intros Hok. revert fuel tip. induction path as [| e path IH]; intros fuel tip Hb Hr Hf.
  - apply branch_nil in Hb as ->; [| done]. by destruct fuel.
  - destruct (branch_tail s tip e path Hok Hb) as (-> & He & Hb').
    destruct fuel as [| fuel]; [cbn in Hf; lia |]. cbn [select_loop]. unfold parent_in at 1. rewrite He. cbn [fmap option_fmap option_map].
    rewrite ids_cons, not_elem_of_union, not_elem_of_singleton in Hr. destruct Hr as [Hne Hr].
    rewrite bool_decide_eq_false_2 by congruence. apply IH; [done | done | cbn in Hf; lia].
Qed.

(** The walk selects the requested entry, or stops before it, and all its
    ancestors. *)
Lemma select_split s pre e post fuel before tip sel :
  state_ok s -> branch_of s tip (pre ++ e :: post) -> (length (pre ++ e :: post) <= fuel)%nat ->
  select_loop fuel (Some (id e)) before (parent_in s) tip false None sel =
  Ok (true, if before then parentId e else Some (id e), ids (if before then post else e :: post) ∪ sel).
Proof.
  intros Hok. revert fuel tip. induction pre as [| e' pre IH]; intros fuel tip Hb Hf; cbn [app] in *.
  - pose proof (branch_head_fresh s tip e post Hok Hb) as Hfresh.
    destruct (branch_tail s tip e post Hok Hb) as (-> & He & Hb').
    destruct fuel as [| fuel]; [cbn in Hf; lia |]. cbn [select_loop]. unfold parent_in at 1. rewrite He. cbn [fmap option_fmap option_map].
    rewrite bool_decide_eq_true_2 by done. rewrite select_found with (path := post); [| done | done | done | cbn in Hf; lia].
    destruct before; [done |]. rewrite ids_cons. do 2 f_equal. set_solver.
  - pose proof (branch_head_fresh s tip e' _ Hok Hb) as Hfresh.
    destruct (branch_tail s tip e' _ Hok Hb) as (-> & He & Hb').
    destruct fuel as [| fuel]; [cbn in Hf; lia |]. cbn [select_loop]. unfold parent_in at 1. rewrite He. cbn [fmap option_fmap option_map].
    rewrite bool_decide_eq_false_2; [apply IH; [done | cbn in Hf; lia] |].
    intros [= E]. apply Hfresh. rewrite E. apply elem_of_ids. exists e. split; [| done]. apply elem_of_app. right. by left.
Qed.

Lemma branch_suffix s tip pre e post :
  state_ok s -> branch_of s tip (pre ++ e :: post) -> branch_of s (Some (id e)) (e :: post) /\ branch_of s (parentId e) post.
Proof.
  intros Hok. revert tip. induction pre as [| e' pre IH]; intros tip Hb; cbn [app] in Hb.
  - destruct (branch_tail s tip e post Hok Hb) as (-> & He & Hb'). done.
  - destruct (branch_tail s tip e' _ Hok Hb) as (-> & He & Hb'). by eapply IH.
Qed.


(** Where a branch with tip [t] forks, and the entries the fork keeps. *)
Inductive fork_point (s : State) (t entryId : option jstring) (before : bool) : option jstring -> list Entry -> Prop :=
| fp_empty : t = None -> entryId = None -> fork_point s t entryId before None []
| fp_entry pre e post :
    branch_of s t (pre ++ e :: post) ->
    match entryId with Some x => Some x | None => t end = Some (id e) ->
    fork_point s t entryId before (if before then parentId e else Some (id e)) (if before then post else e :: post).

Lemma fork_point_branch s t x before dest kept :
  state_ok s -> fork_point s t x before dest kept -> branch_of s dest kept.
Proof.
  intros Hok H. destruct H as [-> ->| pre e post Hb Hr]; [done |].
  destruct (branch_suffix s t pre e post Hok Hb). by destruct before.
Qed.

Lemma throw_unless_then {A} b (e : StorageError) (k : unit -> result StorageError A) x :
  throw_unless b e ≫= k = Ok x <-> b = true /\ k tt = Ok x.
Proof. destruct b; cbn; [tauto |]. split; [done | by intros [? _]]. Qed.

Lemma selectBranchFork_spec s branch x before tip t dest sel :
  state_ok s -> tip_of tip = Ok t ->
  selectBranchFork (S (size (entries s))) branch x before (Some tip) (parent_in s) = Ok (dest, sel) <->
  exists kept, fork_point s t x before dest kept /\ sel = ids kept.
Proof.
  intros Hok Ht. unfold selectBranchFork. rewrite Ht. cbn [mbind result_bind].
  destruct (match x with Some y => Some y | None => t end) as [r |] eqn:Er.
  2:{ destruct x as [? |]; [done |]. subst t. cbn. split.
      - intros [= <- <-]. exists []. split; [by constructor | done].
      - intros (kept & Hf & ->). inversion Hf; [done | congruence]. }
  rewrite bool_decide_eq_false_2 by done.
  assert (Hknown : forall path, branch_of s t path ->
    (if bool_decide (r ∈ ids path) then True else select_loop (S (size (entries s))) (Some r) before (parent_in s) t false None ∅ = Ok (false, None, ∅))).
  { intros path Hb. case_bool_decide as Hin; [done |].
    apply (select_not_found s path); [done | done | done |]. pose proof (branch_length s t path Hok Hb). lia. }
  split.
  - intros H. apply bind_Ok in H as ([[found dt] sel'] & Hl & H). apply throw_unless_then in H as [-> [= -> ->]].
    assert (Hpath : exists path, branch_of s t path).
    { destruct t as [y |]; [| by exists []]. cbn in Hl. unfold parent_in at 1 in Hl.
      destruct (entries s !! y) as [e |] eqn:Ey; [| done]. destruct (scan_path s y e Hok Ey) as (path & _ & Ha).
      exists path. cbn. eauto. }
    destruct Hpath as [path Hb]. specialize (Hknown path Hb). case_bool_decide as Hin; [| congruence].
    apply elem_of_ids in Hin as (e & He & <-). apply list_elem_of_split in He as (pre & post & ->).
    rewrite (select_split s pre e post) in Hl; [| done | done | pose proof (branch_length s t _ Hok Hb); lia].
    injection Hl as <- <-. eexists. split; [by eapply fp_entry | by rewrite (right_id_L ∅ _)].
  - intros (kept & Hf & ->). inversion Hf as [Hn Hx | pre e post Hb Hr Hd Hk]; [by rewrite Hx, Hn in Er |].
    rewrite Er in Hr. injection Hr as ->.
    rewrite (select_split s pre e post); [| done | done | pose proof (branch_length s t _ Hok Hb); lia].
    cbn. by rewrite (right_id_L ∅ _).
Qed.

(** ** Streams of current state

What a state holds under a physical key, and how a sequence of value sets and
list appends builds it. *)

Definition list_at (lists : list (jstring * StoredListSnapshot)) (k : jstring) : list ListElement :=
  match map_get lists k with Some l => elements l | None => [] end.

(** The value the destination keeps, if any. *)
Definition kept_value (plan : ForkPlan) (copied : jstring -> bool) (a : Address) (v : json) : option json :=
  match project plan copied (namespace a) (key a) v with Ok p => p | Err _ => None end.

Definition address_key (a : Address) : jstring := physicalKey (namespace a) (key a).

Definition addr_ok (a : Address) : Prop := address_ok (namespace a) (key a).

Definition kept_scalar (plan : ForkPlan) (copied : jstring -> bool) (sv : StoredValue) : option StoredValue :=
  (fun v => mkStoredValue (sv_address sv) v (sv_seq sv)) <$> kept_value plan copied (sv_address sv) (sv_value sv).

Definition kept_element (plan : ForkPlan) (copied : jstring -> bool) (a : Address) (el : ListElement) : option ListElement :=
  (fun v => mkListElement (el_seq el) v) <$> kept_value plan copied a (el_value el).

Definition projects (plan : ForkPlan) (copied : jstring -> bool) (a : Address) (v : json) : bool :=
  is_ok (project plan copied (namespace a) (key a) v).

Lemma set_set_scalarValues d l l' : set_scalarValues (set_scalarValues d l) l' = set_scalarValues d l'.
Proof. done. Qed.

Lemma applyValueSet_ok_eq d q ns k v :
  address_ok ns k -> applyValueSet d q ns k v =
  Ok (set_scalarValues d (map_set (scalarValues d) (physicalKey ns k) (mkStoredValue (mkAddress ns k) v q))).
Proof. intros H. unfold applyValueSet, value_address. by rewrite validateAddress_ok. Qed.

Lemma address_eta a : mkAddress (namespace a) (key a) = a.
Proof. by destruct a. Qed.

Lemma fork_value_eq plan copied d sv :
  addr_ok (sv_address sv) -> projects plan copied (sv_address sv) (sv_value sv) = true ->
  fork_value plan copied d sv = Ok (match kept_scalar plan copied sv with
    | Some sv' => set_scalarValues d (map_set (scalarValues d) (address_key (sv_address sv)) sv')
    | None => d
    end).
Proof.
  unfold fork_value, projects, kept_scalar, kept_value. intros Ha Hp.
  destruct (project _ _ _ _ _) as [[v |] |]; [| done | done]. cbn. rewrite applyValueSet_ok_eq by done.
  by rewrite address_eta.
Qed.

Lemma fork_values_spec plan copied (m : list (jstring * StoredValue)) d b :
  map_ok m -> Forall (scalar_ok b) m ->
  if forallb (fun sv => projects plan copied (sv_address sv) (sv_value sv)) (map_values m)
  then exists l, foldM (fork_value plan copied) d (map_values m) = Ok (set_scalarValues d l) /\
    (map_ok (scalarValues d) -> map_ok l) /\
    forall k, map_get l k = match map_get m k ≫= kept_scalar plan copied with
                            | Some sv => Some sv
                            | None => map_get (scalarValues d) k
                            end
  else is_ok (foldM (fork_value plan copied) d (map_values m)) = false.
Proof.
  intros Hm Hs. revert d. induction Hs as [| [k0 sv] m [Hk Ha Hq] Hs IH]; intros d; cbn in *.
  { exists (scalarValues d). split; [by destruct d | done]. }
  apply NoDup_cons in Hm as [Hfresh Hm].
  destruct (projects plan copied (sv_address sv) (sv_value sv)) eqn:Ep; cbn.
  2:{ unfold fork_value, projects in *. by destruct (project _ _ _ _ _). }
  rewrite fork_value_eq by done. cbn [mbind result_bind].
  specialize (IH Hm (match kept_scalar plan copied sv with
    | Some sv' => set_scalarValues d (map_set (scalarValues d) (address_key (sv_address sv)) sv')
    | None => d end)).
  destruct (forallb _ _); [| done]. destruct IH as (l & Hl & Hmap & Hget). exists l. split; [| split].
  - etransitivity; [exact Hl |]. by destruct (kept_scalar plan copied sv).
  - intros Hd. apply Hmap. destruct (kept_scalar plan copied sv); [by apply map_ok_set | done].
  - intros k. rewrite Hget. unfold map_get in *. cbn [obj_get]. fold (map_get (A := StoredValue)).
    case_bool_decide as Hkk.
    + subst k. rewrite (proj2 (obj_get_None m k0)) by done. cbn.
      destruct (kept_scalar plan copied sv) as [sv' |]; [| done]. cbn.
      change (map_get (map_set (scalarValues d) (address_key (sv_address sv)) sv') k0 = Some sv').
      rewrite map_get_set, decide_True by done. done.
    + destruct (obj_get m k ≫= kept_scalar plan copied); [done |].
      destruct (kept_scalar plan copied sv) as [sv' |]; [| done]. cbn.
      change (map_get (map_set (scalarValues d) (address_key (sv_address sv)) sv') k = map_get (scalarValues d) k).
      rewrite map_get_set, decide_False; [done |]. unfold address_key. congruence.
Qed.

(** Lists sit under the key of their address. *)
Definition lists_keyed (lists : list (jstring * StoredListSnapshot)) : Prop :=
  map_ok lists /\ Forall (fun kl => kl.1 = address_key (sl_address kl.2) /\ addr_ok (sl_address kl.2)) lists.

Lemma list_append_spec d q ns k v :
  address_ok ns k -> lists_keyed (listValues d) ->
  exists l, applyListAppend d q ns k v = Ok (set_listValues d l) /\ lists_keyed l /\
    forall k', list_at l k' = list_at (listValues d) k' ++ (if decide (k' = physicalKey ns k) then [mkListElement q v] else []).
Proof.
  intros Ha [Hok Hf]. unfold applyListAppend, value_address.
  destruct (map_get (listValues d) (physicalKey ns k)) as [st |] eqn:E.
  - eexists. split; [done |]. split.
    + split; [by apply map_ok_set |]. apply map_set_Forall; [| done]. rewrite Forall_forall in Hf.
      apply map_get_In, Hf in E. done.
    + intros k'. unfold list_at. rewrite map_get_set. case_decide as Hk; [subst; by rewrite E | by rewrite app_nil_r].
  - rewrite validateAddress_ok by done. eexists. split; [done |]. split.
    + split; [by apply map_ok_set |]. by apply map_set_Forall.
    + intros k'. unfold list_at. rewrite map_get_set. case_decide as Hk; [subst; by rewrite E | by rewrite app_nil_r].
Qed.

(** What a stream of elements leaves under a key. *)
Definition stream_at (plan : ForkPlan) (copied : jstring -> bool) (L : list (Address * ListElement)) (k : jstring) : list ListElement :=
  omap (fun ae => if decide (k = address_key ae.1) then kept_element plan copied ae.1 ae.2 else None) L.

Lemma fork_elements_spec plan copied (L : list (Address * ListElement)) d :
  Forall (fun ae => addr_ok ae.1) L -> lists_keyed (listValues d) ->
  if forallb (fun ae => projects plan copied ae.1 (el_value ae.2)) L
  then exists l, foldM (fork_element plan copied) d L = Ok (set_listValues d l) /\ lists_keyed l /\
    forall k, list_at l k = list_at (listValues d) k ++ stream_at plan copied L k
  else is_ok (foldM (fork_element plan copied) d L) = false.
Proof.
  intros HL. revert d. induction HL as [| [a el] L Ha HL IH]; intros d Hd; cbn [forallb foldM].
  { exists (listValues d). split; [by destruct d |]. split; [done |]. intros k. cbn. by rewrite app_nil_r. }
  unfold projects, fork_element. cbn [fst snd] in *.
  destruct (project plan copied (namespace a) (key a) (el_value el)) as [p | e] eqn:Ep; [| done].
  cbn [is_ok andb mbind result_bind]. fold (fork_element plan copied).
  assert (Hcons : forall k, stream_at plan copied ((a, el) :: L) k =
    (if decide (k = address_key a) then match p with Some v => [mkListElement (el_seq el) v] | None => [] end else [])
    ++ stream_at plan copied L k).
  { intros k. unfold stream_at. cbn. unfold kept_element, kept_value. rewrite Ep.
    case_decide; [by destruct p | done]. }
  destruct p as [v |].
  - destruct (list_append_spec d (el_seq el) (namespace a) (key a) v Ha Hd) as (l1 & -> & Hl1 & Hget1). cbn [mbind result_bind].
    specialize (IH (set_listValues d l1) Hl1). unfold projects in IH. destruct (forallb _ L); [| done].
    destruct IH as (l & Hl & Hk & Hget). exists l. split; [exact Hl |]. split; [done |].
    intros k. rewrite Hget, Hcons. cbn [listValues set_listValues]. rewrite Hget1, <- app_assoc. done.
  - specialize (IH d Hd). unfold projects in IH. destruct (forallb _ L); [| done].
    destruct IH as (l & Hl & Hk & Hget). exists l. split; [exact Hl |]. split; [done |].
    intros k. rewrite Hget, Hcons. by case_decide.
Qed.

Lemma stream_at_app plan copied L1 L2 k :
  stream_at plan copied (L1 ++ L2) k = stream_at plan copied L1 k ++ stream_at plan copied L2 k.
Proof. apply omap_app. Qed.

Lemma stream_at_list plan copied a els k :
  stream_at plan copied ((fun el => (a, el)) <$> els) k =
  if decide (k = address_key a) then omap (kept_element plan copied a) els else [].
Proof.
  induction els as [| el els IH]; [by case_decide |]. unfold stream_at in *. cbn. rewrite IH.
  case_decide; [| done]. by destruct (kept_element plan copied a el).
Qed.

Lemma all_elements_at plan copied (m : list (jstring * StoredListSnapshot)) k :
  lists_keyed m ->
  stream_at plan copied (all_elements m) k =
  match map_get m k with Some st => omap (kept_element plan copied (sl_address st)) (elements st) | None => [] end.
Proof.
  intros [Hm Hf]. induction Hf as [| [k0 st] m [Hk Ha] Hf IH]; [done |]. cbn in Hk, Ha.
  apply NoDup_cons in Hm as [Hfresh Hm]. specialize (IH Hm).
  change (all_elements ((k0, st) :: m)) with (((fun el => (sl_address st, el)) <$> elements st) ++ all_elements m).
  rewrite stream_at_app, stream_at_list, IH. unfold map_get. cbn [obj_get].
  case_bool_decide as Hk0; case_decide as Hk1; try congruence.
  - subst k. rewrite (proj2 (obj_get_None m k0)) by done. by rewrite app_nil_r.
  - done.
Qed.

(** All of the source's current state can be projected. *)
Definition all_project (s : State) (plan : ForkPlan) (copied : jstring -> bool) : bool :=
  forallb (fun sv => projects plan copied (sv_address sv) (sv_value sv)) (map_values (scalarValues s)) &&
  forallb (fun ae => projects plan copied ae.1 (el_value ae.2)) (all_elements (listValues s)).

(** The destination of a fork, by what it holds. *)
Record destination (s : State) (plan : ForkPlan) (copied : jstring -> bool) (d : State) : Prop := {
  dst_bySeq : entriesBySeq d = List.filter (fun e => copied (id e)) (entriesBySeq s);
  dst_entries : forall x, entries d !! x = match entries s !! x with Some e => if copied x then Some e else None | None => None end;
  dst_scalars : forall k, map_get (scalarValues d) k = map_get (scalarValues s) k ≫= kept_scalar plan copied;
  dst_scalar_keys : map_ok (scalarValues d);
  dst_keyed : lists_keyed (listValues d);
  dst_lists : forall k, list_at (listValues d) k =
    match map_get (listValues s) k with Some st => omap (kept_element plan copied (sl_address st)) (elements st) | None => [] end;
  dst_usage : usage d = [];
  dst_stats : stats d = mkStats (blen (List.filter is_message (entriesBySeq d))) emptyUsage;
  dst_next : nextSeq d = nextSeq s;
}.

Lemma fold_fork_entry es d :
  entriesBySeq (fold_left fork_entry es d) = entriesBySeq d ++ es /\
  (forall x, entries (fold_left fork_entry es d) !! x =
     match list.last (List.filter (fun e => bool_decide (id e = x)) es) with Some e => Some e | None => entries d !! x end) /\
  scalarValues (fold_left fork_entry es d) = scalarValues d /\ listValues (fold_left fork_entry es d) = listValues d /\
  usage (fold_left fork_entry es d) = usage d /\ stats (fold_left fork_entry es d) = stats d.
Proof.
  revert d. induction es as [| e es IH]; intros d; cbn [fold_left]; [by rewrite app_nil_r |].
  destruct (IH (fork_entry d e)) as (H1 & H2 & H3). rewrite H1. cbn [fork_entry entriesBySeq]. rewrite <- app_assoc.
  split; [done |]. split; [| exact H3]. intros x. rewrite H2. cbn [List.filter fork_entry entries].
  case_bool_decide as Hx.
  - subst x. rewrite lookup_insert_eq. rewrite last_cons. by destruct (list.last _).
  - by rewrite lookup_insert_ne.
Qed.

Lemma filter_by_id s (f : Entry -> bool) x :
  state_ok s ->
  list.last (List.filter (fun e => bool_decide (id e = x)) (List.filter f (entriesBySeq s))) =
  match entries s !! x with Some e => if f e then Some e else None | None => None end.
Proof.
  intros Hok. destruct (list.last _) as [e |] eqn:E.
  - apply list.last_Some in E as [l E]. assert (Hin : e ∈ List.filter (fun e => bool_decide (id e = x)) (List.filter f (entriesBySeq s))).
    { rewrite E. apply elem_of_app. right. by left. }
    rewrite list_elem_of_In, !List.filter_In, <- list_elem_of_In in Hin. destruct Hin as [[Hin Hf] Hx].
    apply bool_decide_eq_true in Hx. pose proof (ok_listed s Hok) as H. rewrite Forall_forall in H.
    specialize (H e Hin). rewrite Hx in H. by rewrite H, Hf.
  - apply list.last_None in E. destruct (entries s !! x) as [e |] eqn:Ee; [| done].
    destruct (f e) eqn:Ef; [| done]. exfalso.
    assert (Hin : e ∈ List.filter (fun e => bool_decide (id e = x)) (List.filter f (entriesBySeq s))).
    { rewrite list_elem_of_In, !List.filter_In, <- list_elem_of_In. destruct (listed s x e Hok Ee) as [? ?].
      split; [done |]. by apply bool_decide_eq_true. }
    rewrite E in Hin. by apply not_elem_of_nil in Hin.
Qed.

Lemma all_elements_addr m : lists_keyed m -> Forall (fun ae => addr_ok ae.1) (all_elements m).
Proof.
  intros [_ Hf]. apply Forall_forall. intros [a el] H. unfold all_elements in H.
  apply list_elem_of_bind in H as (st & H & Hst). apply list_elem_of_fmap in H as (el' & [= -> ->] & _).
  apply elem_of_map_values in Hst as [k Hk]. rewrite Forall_forall in Hf. by apply Hf in Hk as [_ ?].
Qed.

Lemma state_lists_keyed s : state_ok s -> lists_keyed (listValues s).
Proof.
  intros Hok. split; [apply (ok_list_keys s Hok) |]. eapply Forall_impl; [apply (ok_lists s Hok) |].
  intros kl [Hk Ha _ _]. done.
Qed.

Lemma is_ok_bind_false {A B} (r : result StorageError A) (f : A -> result StorageError B) :
  is_ok r = false -> is_ok (r ≫= f) = false.
Proof. by destruct r. Qed.

Lemma createFork_spec s options :
  state_ok s ->
  match selectForkPlan s options with
  | Err e => createFork s options = Err e
  | Ok (plan, sel) =>
      let copied := isEntryCopied plan sel in
      if all_project s plan copied
      then exists d, createFork s options = Ok d /\ destination s plan copied d
      else is_ok (createFork s options) = false
  end.
Proof.
  intros Hok. unfold createFork. destruct (selectForkPlan s options) as [[plan sel] | e]; [| done].
  cbn [mbind result_bind]. set (copied := isEntryCopied plan sel).
  set (es := List.filter (fun e => copied (id e)) (entriesBySeq s)).
  destruct (fold_fork_entry es new_state) as (F1 & F2 & F3 & F4 & F5 & F6).
  set (d0 := fold_left fork_entry es new_state) in *.
  set (d1 := mkState (entries d0) (entriesBySeq d0) (scalarValues d0) (listValues d0) (usage d0) _ (nextSeq d0)).
  pose proof (fork_values_spec plan copied (scalarValues s) d1 (nextSeq s) (ok_scalar_keys s Hok) (ok_scalars s Hok)) as Hv.
  unfold all_project. destruct (forallb _ (map_values (scalarValues s))); cbn [andb];
    [| by apply is_ok_bind_false].
  destruct Hv as (lv & -> & Hmap & Hlv). cbn [mbind result_bind].
  pose proof (fork_elements_spec plan copied (all_elements (listValues s)) (set_scalarValues d1 lv)
    (all_elements_addr _ (state_lists_keyed s Hok))) as He.
  specialize (He ltac:(cbn; rewrite F4; split; constructor)).
  destruct (forallb _ (all_elements (listValues s))).
  2:{ by apply is_ok_bind_false. }
  destruct He as (ll & -> & Hk & Hll). cbn [mbind result_bind].
  eexists. split; [done |]. split; cbn.
  - rewrite F1. done.
  - intros x. rewrite F2. unfold es. rewrite filter_by_id by done. cbn. rewrite lookup_empty.
    destruct (entries s !! x) as [e |] eqn:E; [| done]. rewrite (entry_id s x e Hok E). by destruct (copied x).
  - intros k. rewrite Hlv. cbn. rewrite F3. cbn. by destruct (map_get (scalarValues s) k ≫= _).
  - apply Hmap. cbn. rewrite F3. constructor.
  - exact Hk.
  - intros k. rewrite Hll. cbn. rewrite F4. cbn. apply all_elements_at, state_lists_keyed, Hok.
  - by rewrite F5.
  - by rewrite F1, F6.
  - done.
Qed.


(** ** Forked sessions are well formed *)

Definition parent_closed (s : State) (copied : jstring -> bool) : Prop :=
  forall e p, e ∈ entriesBySeq s -> copied (id e) = true -> parentId e = Some p -> copied p = true.

Lemma filter_sorted {A} (R : A -> A -> Prop) (f : A -> bool) l : StronglySorted R l -> StronglySorted R (List.filter f l).
Proof.
  induction 1 as [| x l Hs IH Hx]; cbn; [constructor |]. destruct (f x); [| done]. constructor; [done |].
  rewrite Forall_forall in Hx |- *. intros y [Hy _]%elem_of_filter_bool. by apply Hx.
Qed.

Lemma omap_kept_sorted plan copied a els :
  StronglySorted (seq_lt el_seq) els -> StronglySorted (seq_lt el_seq) (omap (kept_element plan copied a) els).
Proof.
  intros H. assert (Hin : forall (els : list ListElement) y, y ∈ omap (kept_element plan copied a) els -> exists x, x ∈ els /\ el_seq y = el_seq x).
  { intros els' y (x & Hx & Hy)%list_elem_of_omap. exists x. split; [done |].
    unfold kept_element in Hy. destruct (kept_value _ _ _ _); [| done]. by injection Hy as <-. }
  induction H as [| x els Hs IH Hx]; [constructor |]. cbn.
  destruct (kept_element plan copied a x) as [y |] eqn:E; [| done]. constructor; [done |].
  rewrite Forall_forall in Hx |- *. intros z (x' & Hx' & Hz)%Hin. specialize (Hx x' Hx').
  unfold kept_element in E. destruct (kept_value _ _ _ _); [| done]. injection E as <-. unfold seq_lt in *. cbn. lia.
Qed.

Lemma destination_scalar_ok s plan copied d :
  state_ok s -> destination s plan copied d -> Forall (scalar_ok (nextSeq d)) (scalarValues d).
Proof.
  intros Hok Hd. apply Forall_forall. intros [k sv] Hin. apply map_get_Some in Hin; [| apply Hd].
  rewrite (dst_scalars _ _ _ _ Hd) in Hin. apply bind_Some in Hin as (sv0 & Hk & Hs).
  apply map_get_In in Hk. pose proof (ok_scalars s Hok) as H. rewrite Forall_forall in H. destruct (H _ Hk) as [H1 H2 H3].
  unfold kept_scalar in Hs. destruct (kept_value _ _ _ _); [| done]. injection Hs as <-.
  split; cbn in *; [done | done |]. by rewrite (dst_next _ _ _ _ Hd).
Qed.

Lemma destination_list_ok s plan copied d :
  state_ok s -> destination s plan copied d -> Forall (list_ok (nextSeq d)) (listValues d).
Proof.
  intros Hok Hd. apply Forall_forall. intros [k st] Hin. destruct (dst_keyed _ _ _ _ Hd) as [Hm Hf].
  rewrite Forall_forall in Hf. destruct (Hf _ Hin) as [Hk Ha]. apply map_get_Some in Hin; [| done].
  pose proof (dst_lists _ _ _ _ Hd k) as Hl. unfold list_at in Hl. rewrite Hin in Hl.
  assert (Hsrc : StronglySorted (seq_lt el_seq) (elements st) /\ Forall (fun el => el_seq el < nextSeq s) (elements st)).
  { rewrite Hl. destruct (map_get (listValues s) k) as [st0 |] eqn:E; [| split; constructor].
    apply map_get_In in E. pose proof (ok_lists s Hok) as H. rewrite Forall_forall in H. destruct (H _ E) as [_ _ Hs Hb].
    split; [by apply omap_kept_sorted |]. rewrite Forall_forall in Hb |- *. intros y (x & Hx & Hy)%list_elem_of_omap.
    specialize (Hb x Hx). unfold kept_element in Hy. destruct (kept_value _ _ _ _); [| done]. by injection Hy as <-. }
  split; [done | done | apply Hsrc |]. rewrite (dst_next _ _ _ _ Hd). apply Hsrc.
Qed.

Lemma destination_ok s plan copied d :
  state_ok s -> parent_closed s copied -> destination s plan copied d -> state_ok d.
Proof.
  intros Hok Hclosed Hd. pose proof Hd as [D1 D2 D3 D3' D4 D5 D6 D7 D8].
  assert (Hin : forall e, e ∈ entriesBySeq d <-> e ∈ entriesBySeq s /\ copied (id e) = true)
    by (intros e; rewrite D1; exact (elem_of_filter_bool (fun e => copied (id e)) _ _)).
  pose proof (ok_listed s Hok) as Hlisted. rewrite Forall_forall in Hlisted.
  split; try done.
  - intros x e He. rewrite D2 in He. destruct (entries s !! x) as [e' |] eqn:E; [| done].
    destruct (copied x) eqn:Ec; [| done]. injection He as ->. destruct (listed s x e Hok E) as [Hl <-].
    split; [done |]. by apply Hin.
  - apply Forall_forall. intros e [He Hc]%Hin. by rewrite D2, (Hlisted e He), Hc.
  - rewrite D1. apply filter_sorted, (ok_sorted s Hok).
  - rewrite D8. apply Forall_forall. intros e [He Hc]%Hin. pose proof (ok_below s Hok) as H. rewrite Forall_forall in H. by apply H.
  - apply Forall_forall. intros e [He Hc]%Hin p Hp. destruct (parent_listed s e p Hok He Hp) as (pe & Hpe & Hpin & Hlt).
    exists pe. split; [| done]. by rewrite D2, Hpe, (Hclosed e p He Hc Hp).
  - rewrite D6. constructor.
  - by rewrite D6.
  - by eapply destination_scalar_ok.
  - apply D4.
  - by eapply destination_list_ok.
  - by rewrite D7.
  - rewrite D8. apply (ok_next s Hok).
Qed.

Lemma selectForkPlan_branch s branch x before plan sel :
  state_ok s -> selectForkPlan s (ForkBranch branch x before) = Ok (plan, sel) ->
  exists tip t dest kept,
    sv_value <$> getValue s $"pi.branch.tip" branch = Some tip /\ tip_of tip = Ok t /\
    fork_point s t x before dest kept /\ sel = ids kept /\ plan = PlanBranch branch dest /\ NUL ∉ branch.
Proof.
  intros Hok H. unfold selectForkPlan, branchTip, value_address in H.
  apply bind_Ok in H as (a & Ha & H). apply validateAddress_Ok in Ha as [(_ & _ & Hnul) ->].
  apply bind_Ok in H as ([dest sel'] & Hs & H). unfold get_at in Hs. cbn [namespace key] in Hs.
  destruct (sv_value <$> getValue s $"pi.branch.tip" branch) as [tip |] eqn:Et; [| done].
  destruct (tip_of tip) as [t | e] eqn:Etip; [| unfold selectBranchFork in Hs; by rewrite Etip in Hs].
  apply (selectBranchFork_spec s branch x before tip t dest sel' Hok Etip) in Hs as (kept & Hf & ->).
  apply bind_Ok in H as (c & _ & H). apply bind_Ok in H as (l & _ & H). apply throw_unless_then in H as [_ [= <- <-]].
  exists tip, t, dest, kept. done.
Qed.

Lemma kept_closed s t x before dest kept :
  state_ok s -> fork_point s t x before dest kept -> parent_closed s (fun y => bool_decide (y ∈ ids kept)).
Proof.
  intros Hok Hf. pose proof (fork_point_branch _ _ _ _ _ _ Hok Hf) as Hb.
  intros e p He Hc Hp. apply bool_decide_eq_true in Hc. apply bool_decide_eq_true.
  apply elem_of_ids in Hc as (e' & He' & Hid). apply list_elem_of_split in He' as (pre & post & ->).
  destruct (branch_sorted s dest _ Hok Hb) as [_ Hl]. rewrite Forall_forall in Hl.
  specialize (Hl e' ltac:(apply elem_of_app; right; by left)).
  pose proof (ok_listed s Hok) as Hlisted. rewrite Forall_forall in Hlisted. specialize (Hlisted e He).
  rewrite Hid in Hl. assert (e' = e) as -> by congruence.
  destruct (branch_suffix s dest pre e post Hok Hb) as [_ Hpost]. rewrite Hp in Hpost. cbn in Hpost.
  destruct Hpost as (pe & Hpe & Ha). apply ancestry_branch in Ha as (rest & -> & _).
  apply elem_of_ids. exists pe. split; [| by eapply entry_id]. apply elem_of_app. right. right. by left.
Qed.

(** The kept branch, seen in a state that holds its entries. *)
Lemma branch_transfer s d tip path :
  state_ok s -> branch_of s tip path -> (forall e, e ∈ path -> entries d !! id e = Some e) -> branch_of d tip path.
Proof.
  intros Hok. revert tip. induction path as [| e path IH]; intros tip Hb Hd.
  - apply branch_nil in Hb as ->; done.
  - destruct (branch_tail s tip e path Hok Hb) as (-> & He & Hb').
    specialize (IH _ Hb' ltac:(intros; apply Hd; by right)). exists e. split; [apply Hd; by left |].
    destruct (parentId e) as [p |] eqn:Ep; cbn in IH; [| subst; by constructor].
    destruct IH as (pe & Hpe & Ha). by eapply anc_step.
Qed.

Lemma project_tip plan copied k v :
  project plan copied $"pi.branch.tip" k v =
  Ok (match plan with
      | PlanTree => Some v
      | PlanBranch branch tip => if bool_decide (k = branch) then Some (tip_json tip) else None
      end).
Proof. by destruct plan. Qed.

Lemma kept_tip s branch dest copied d sv :
  destination s (PlanBranch branch dest) copied d -> state_ok s -> NUL ∉ branch ->
  getValue s $"pi.branch.tip" branch = Some sv ->
  sv_value <$> getValue d $"pi.branch.tip" branch = Some (tip_json dest).
Proof.
  intros Hd Hok Hnul Hsv. unfold getValue in *. rewrite (dst_scalars _ _ _ _ Hd), Hsv. cbn.
  apply map_get_In in Hsv. pose proof (ok_scalars s Hok) as H. rewrite Forall_forall in H. destruct (H _ Hsv) as [Hk Ha _].
  cbn [fst snd] in *. destruct Ha as (_ & Hn & _). symmetry in Hk. apply physicalKey_inj in Hk as [Hns Hkey]; [| done |].
  - unfold kept_scalar, kept_value. rewrite Hns, Hkey, project_tip, bool_decide_eq_true_2 by done. done.
  - by apply (bool_decide_unpack (NUL ∉ _)).
Qed.

(** Forking a branch copies exactly one path.  A successful fork starts from
    the branch's tip, keeps the requested entry (or, with [position: "before"],
    its parent) and all its ancestors, and nothing else; the destination's
    branch points at the newest kept entry, walking it yields the kept path,
    the sequence counter continues, and the destination is a well-formed
    session whenever the source is. *)
Theorem createFork_branch s branch entryId before d :
  state_ok s -> createFork s (ForkBranch branch entryId before) = Ok d ->
  exists tip t dest kept,
    sv_value <$> getValue s $"pi.branch.tip" branch = Some tip /\ tip_of tip = Ok t /\
    fork_point s t entryId before dest kept /\
    sv_value <$> getValue d $"pi.branch.tip" branch = Some (tip_json dest) /\
    branch_of d dest kept /\ (forall e, e ∈ entriesBySeq d <-> e ∈ kept) /\
    nextSeq d = nextSeq s /\ state_ok d.
Proof.
  intros Hok H. pose proof (createFork_spec s (ForkBranch branch entryId before) Hok) as Hspec.
  destruct (selectForkPlan s _) as [[plan sel] | e] eqn:Ep; [| congruence].
  destruct (selectForkPlan_branch s branch entryId before plan sel Hok Ep)
    as (tip & t & dest & kept & Htip & Ht & Hf & -> & -> & Hnul). cbn zeta in Hspec.
  destruct (all_project _ _ _); [| by rewrite H in Hspec]. destruct Hspec as (d' & Hd' & Hd).
  rewrite H in Hd'. injection Hd' as <-.
  pose proof (kept_closed s t entryId before dest kept Hok Hf) as Hclosed.
  pose proof (fork_point_branch _ _ _ _ _ _ Hok Hf) as Hb. destruct (branch_sorted s dest kept Hok Hb) as [_ Hl].
  rewrite Forall_forall in Hl. exists tip, t, dest, kept. split_and!; try done.
  - destruct (getValue s $"pi.branch.tip" branch) as [sv |] eqn:Esv; [| done]. by eapply kept_tip.
  - eapply branch_transfer; [done | done |]. intros e He. rewrite (dst_entries _ _ _ _ Hd), (Hl e He). cbn.
    rewrite bool_decide_eq_true_2; [done |]. apply elem_of_ids. eauto.
  - intros e. rewrite (dst_bySeq _ _ _ _ Hd), elem_of_filter_bool. cbn. rewrite bool_decide_eq_true. split.
    + intros [He Hc]. apply elem_of_ids in Hc as (e' & He' & Hid). pose proof (Hl e' He') as H1.
      pose proof (ok_listed s Hok) as H2. rewrite Forall_forall in H2. specialize (H2 e He). rewrite Hid in H1. congruence.
    + intros He. destruct (listed s (id e) e Hok (Hl e He)) as [? _]. split; [done |]. apply elem_of_ids. eauto.
  - apply (dst_next _ _ _ _ Hd).
  - by eapply destination_ok.
Qed.

(** ** What a fork leaves behind *)

(** The state a fork may carry over: the session's name, the labels of copied
    entries, the tips, configurations and idle lane states of the copied
    branches, and, for a whole tree, what is not reserved. *)
Definition forkable (plan : ForkPlan) (copied : jstring -> bool) (ns k : jstring) (v : json) : Prop :=
  let of_branch := match plan with PlanTree => True | PlanBranch branch _ => k = branch end in
  ns = $"pi.session.name" \/
  ns = $"pi.entry.label" /\ copied k = true \/
  ns = $"pi.branch.tip" /\ of_branch \/
  ns = $"pi.lane.config" /\ of_branch \/
  ns = $"pi.lane.state" /\ of_branch /\ v = idle_lane \/
  plan = PlanTree /\ ns <> $"pi" /\ startsWith ns $"pi." = false.

Lemma project_forkable plan copied ns k v v' :
  project plan copied ns k v = Ok (Some v') -> forkable plan copied ns k v'.
Proof.
  unfold project, forkable. intros H. repeat case_bool_decide.
  1: by left.
  1: right; left; by destruct (copied k).
  1: right; right; left; split; [done |]; destruct plan; [done | by case_bool_decide].
  1: do 3 right; left; split; [done |]; destruct plan; [done | by case_bool_decide].
  1: do 4 right; left; split; [done |]; destruct plan; [by injection H as <- | case_bool_decide; [by injection H as <- | done]].
  1: done.
  1: by destruct (_ || _).
  destruct (startsWith ns $"pi.op." || startsWith ns $"pi.pending."); [done |].
  destruct (startsWith ns $"pi.") eqn:E; [done |]. cbn in H. do 5 right. by destruct plan.
Qed.

Lemma kept_forkable plan copied a v v' :
  kept_value plan copied a v = Some v' -> forkable plan copied (namespace a) (key a) v'.
Proof.
  unfold kept_value. destruct (project _ _ _ _ _) as [p |] eqn:E; [| done]. intros ->. by eapply project_forkable.
Qed.

(** C8. A fork carries no open work: it has no usage rows, and every value and
    list element it holds is one of those a destination may have.  In
    particular no operation, pending or result state is copied (those
    namespaces are not forkable), every lane is idle, a branch fork holds the
    tip, configuration and lane of its branch only and labels of copied
    entries only, and unreserved application state survives only a tree fork. *)
Theorem fork_confined s options d :
  state_ok s -> createFork s options = Ok d ->
  exists plan sel, selectForkPlan s options = Ok (plan, sel) /\
    let copied := isEntryCopied plan sel in
    usage d = [] /\ stats_usage (stats d) = emptyUsage /\
    (forall k sv, map_get (scalarValues d) k = Some sv ->
       forkable plan copied (namespace (sv_address sv)) (key (sv_address sv)) (sv_value sv)) /\
    (forall k el, el ∈ list_at (listValues d) k -> exists st,
       map_get (listValues s) k = Some st /\
       forkable plan copied (namespace (sl_address st)) (key (sl_address st)) (el_value el)).
Proof.
  intros Hok H. pose proof (createFork_spec s options Hok) as Hspec.
  destruct (selectForkPlan s options) as [[plan sel] | e]; [| congruence]. exists plan, sel. split; [done |].
  cbn zeta in Hspec. destruct (all_project _ _ _); [| by rewrite H in Hspec]. destruct Hspec as (d' & Hd' & Hd).
  rewrite H in Hd'. injection Hd' as <-. destruct Hd as [_ _ D3 _ _ D5 D6 D7 _].
  split; [done |]. split; [by rewrite D7 |]. split.
  - intros k sv Hsv. rewrite D3 in Hsv. apply bind_Some in Hsv as (sv0 & _ & Hk). unfold kept_scalar in Hk.
    destruct (kept_value _ _ _ _) as [v |] eqn:E; [| done]. injection Hk as <-. by apply kept_forkable in E.
  - intros k el Hel. rewrite D5 in Hel. destruct (map_get (listValues s) k) as [st |]; [| by apply not_elem_of_nil in Hel].
    exists st. split; [done |]. apply list_elem_of_omap in Hel as (el0 & _ & Hk). unfold kept_element in Hk.
    destruct (kept_value _ _ _ _) as [v |] eqn:E; [| done]. injection Hk as <-. by apply kept_forkable in E.
Qed.

(** A session with a two-entry branch, a data-only branch, open work and a list. *)
Definition forked_source : State :=
  (commit new_state
    [sample_entry $"a" None; sample_entry $"b" (Some $"a"); sample_entry $"c" (Some $"b");
     WValueSet $"pi.branch.tip" $"main" (JsStr $"c"); WValueSet $"pi.lane.config" $"main" (JsObj false []);
     WValueSet $"pi.lane.state" $"main" (JsBool true); WValueSet $"pi.op.meta" $"o1" JsNull;
     WListAppend $"pi.pending.assistant_frame" $"o1:x" JsNull; WValueSet $"pi.entry.label" $"c" (JsStr $"L");
     WValueSet $"pi.branch.tip" $"side" (JsStr $"a"); WListAppend $"app" $"log" (JsBool true)] 7).1.

Lemma forked_source_ok : state_ok forked_source.
Proof. apply commit_ok, new_state_ok. Qed.

Lemma createFork_branch_witness :
  exists d, createFork forked_source (ForkBranch $"main" (Some $"b") false) = Ok d /\
    nextSeq d = 12 /\ (exists e, e ∈ entriesBySeq d /\ id e = $"a") /\ state_ok d.
Proof.
  destruct (createFork forked_source (ForkBranch $"main" (Some $"b") false)) as [d | e] eqn:E; [| by vm_compute in E].
  exists d. split; [done |].
  destruct (createFork_branch forked_source $"main" (Some $"b") false d forked_source_ok E)
    as (tip & t & dest & kept & _ & _ & _ & _ & _ & _ & Hn & Hok).
  split; [exact Hn |]. split; [| exact Hok].
  vm_compute in E. injection E as <-. eexists. split; [left |]. by vm_compute.
Defined.

Lemma fork_confined_witness :
  exists d, createFork forked_source ForkTree = Ok d /\ usage d = [] /\ list_at (listValues d) (physicalKey $"app" $"log") <> [].
Proof.
  destruct (createFork forked_source ForkTree) as [d | e] eqn:E; [| by vm_compute in E].
  exists d. split; [done |].
  destruct (fork_confined forked_source ForkTree d forked_source_ok E) as (plan & sel & _ & Hu & _).
  split; [exact Hu |]. vm_compute in E. injection E as <-. by vm_compute.
Defined.

(** ** Logs

A log that replays is a sequence of valid writes; [applied] runs them. *)
Inductive applied : State -> list CommittedWrite -> State -> Prop :=
| ap_nil s : applied s [] s
| ap_cons s w s1 ws s' : write_valid s w -> apply_write s w = Ok s1 -> applied s1 ws s' -> applied s (w :: ws) s'.

Lemma applied_app s ws1 s1 ws2 s2 : applied s ws1 s1 -> applied s1 ws2 s2 -> applied s (ws1 ++ ws2) s2.
Proof. induction 1; [done |]. intros H2. eapply ap_cons; eauto. Qed.

Lemma applied_ok s ws s' : state_ok s -> applied s ws s' -> state_ok s'.
Proof. intros Hok H. induction H as [| s w s1 ws s' Hw Ha _ IH]; [done |]. apply IH. by eapply apply_write_ok. Qed.

Lemma validated_applied s0 s ws ids entryIds s' :
  knows s0 s ids entryIds -> state_ok s ->
  validate_loop (hasEntryOrUsageId s0) (hasEntryId s0) ws (nextSeq s - 1) ids entryIds = Ok tt ->
  applyValidated s ws = (s', None) -> applied s ws s'.
Proof.
  revert s ids entryIds. induction ws as [| w ws IH]; intros s i e K Hok Hv Ha; [injection Ha as <-; constructor |].
  apply (validate_loop_cons s0 s) in Hv as [Hw Hv]; [| done]. cbn [applyValidated] in Ha.
  destruct (apply_write s w) as [s1 | err] eqn:E; [| done]. destruct (apply_write_ok s w s1 Hok Hw E) as [Hok1 Hn].
  eapply ap_cons; [done | done |]. eapply IH; [by eapply apply_write_knows | done | | done].
  rewrite Hn. by replace (write_seq w + 1 - 1) with (write_seq w) by lia.
Qed.

Lemma replay_applied s log s' : state_ok s -> replay s log = Ok s' -> applied s (mjoin log) s'.
Proof.
  revert s. induction log as [| writes log IH]; intros s Hok H; cbn in H; [injection H as <-; constructor |].
  unfold replayCommitted in H. destruct (validateCommitted s writes) as [[] | e] eqn:Ev; [| done].
  destruct (applyValidated s writes) as [s1 [e |]] eqn:Ea; [done |].
  assert (Happ : applied s writes s1) by (eapply validated_applied; [apply knows_refl | done | exact Ev | done]).
  eapply applied_app; [exact Happ |]. apply IH; [by eapply applied_ok | done].
Qed.

(** One write per transaction, as a fork publishes them. *)
Lemma applied_replay s ws s' : applied s ws s' -> replay s ((fun w => [w]) <$> ws) = Ok s'.
Proof.
  induction 1 as [| s w s1 ws s' Hw Ha _ IH]; [done |]. cbn. unfold replayCommitted, validateCommitted, validateCommittedWrites.
  assert (Hv : validate_loop (hasEntryOrUsageId s) (hasEntryId s) [w] (nextSeq s - 1) ∅ ∅ = Ok tt)
    by (apply (validate_loop_cons s s); [apply knows_refl | by split]).
  rewrite Hv. cbn. by rewrite Ha.
Qed.

(** *** What a log determines *)

Definition appended (ws : list CommittedWrite) (k : jstring) : list ListElement :=
  omap (fun w => match w with
    | CListAppend q ns k' v => if decide (k = physicalKey ns k') then Some (mkListElement q v) else None
    | _ => None
    end) ws.

Definition surviving (first : option Z) (el : ListElement) : bool :=
  match first with Some f => f <=? el_seq el | None => false end.

Definition in_range (s : State) (ws : list CommittedWrite) : Prop := Forall (fun w => 1 <= write_seq w < nextSeq s) ws.

Definition log_address_ok (w : CommittedWrite) : Prop :=
  match w with CValueSet _ ns k _ | CListAppend _ ns k _ => address_ok ns k | _ => True end.

(** The log [ws] built [s], and [i] is its index. *)
Record tracks (ws : list CommittedWrite) (s : State) (i : JsonlForkIndex) : Prop := {
  tr_ok : state_ok s;
  tr_entries : entries_of ws = entriesBySeq s;
  tr_sorted : StronglySorted (seq_lt write_seq) ws;
  tr_range : in_range s ws;
  tr_addresses : Forall log_address_ok ws;
  tr_scalars : forall k sv, map_get (scalarValues s) k = Some sv ->
    CValueSet (sv_seq sv) (namespace (sv_address sv)) (key (sv_address sv)) (sv_value sv) ∈ ws;
  tr_lists : forall k, list_at (listValues s) k = List.filter (surviving (firstSurvivingListSeqs i !! k)) (appended ws k);
  tr_first : forall k, firstSurvivingListSeqs i !! k = el_seq <$> head (list_at (listValues s) k);
  tr_parents : forall x, entryParents i !! x = parent_in s x;
  tr_seqs : forall k, currentScalarSeqs i !! k = sv_seq <$> map_get (scalarValues s) k;
  tr_tips : forall b, branchTips i !! b = sv_value <$> getValue s $"pi.branch.tip" b;
  tr_configs : forall b, b ∈ laneConfigs i <-> is_Some (getValue s $"pi.lane.config" b);
  tr_states : forall b, b ∈ laneStates i <-> is_Some (getValue s $"pi.lane.state" b);
}.

Lemma tracks_new : tracks [] new_state new_index.
Proof.
  split; try done; try constructor; try apply new_state_ok; intros *; unfold getValue, parent_in; cbn;
    rewrite ?lookup_empty; try done; (split; [set_solver | by intros [? ?]]).
Qed.

(** A stored address is the only reading of its key. *)
Lemma stored_key_inj ns k ns' k' :
  address_ok ns k -> physicalKey ns k = physicalKey ns' k' -> ns = ns' /\ k = k'.
Proof.
  unfold physicalKey. intros (_ & Hns & Hk). revert ns'. induction ns as [| c ns IH]; intros [| c' ns']; cbn.
  - by intros [= ->].
  - intros [= <- E]. destruct Hk. rewrite E. apply elem_of_app. right. by left.
  - intros [= -> E]. by destruct Hns; left.
  - intros [= -> E]. destruct (IH ltac:(intros ?; apply Hns; by right) _ E) as [-> ->]. done.
Qed.

(** The reserved namespaces whose keys the index follows. *)
Lemma getValue_insert s ns k v q ns' k' :
  address_ok ns k ->
  getValue (set_scalarValues s (map_set (scalarValues s) (physicalKey ns k) (mkStoredValue (mkAddress ns k) v q))) ns' k' =
  if decide (ns = ns' /\ k = k') then Some (mkStoredValue (mkAddress ns k) v q) else getValue s ns' k'.
Proof.
  intros Ha. unfold getValue; cbn. rewrite map_get_set. case_decide as H1; case_decide as H2; try done.
  - destruct H2. symmetry in H1. by apply (stored_key_inj ns k) in H1.
  - destruct H2 as [<- <-]. done.
Qed.

Lemma getValue_delete s ns k ns' k' :
  state_ok s -> (ns <> ns' \/ k <> k') ->
  getValue (set_scalarValues s (map_delete (scalarValues s) (physicalKey ns k))) ns' k' = getValue s ns' k'.
Proof.
  intros Hok Hne. unfold getValue; cbn. rewrite map_get_delete by apply Hok. case_decide as E; [| done].
  destruct (map_get (scalarValues s) (physicalKey ns' k')) as [sv |] eqn:Eg; [| done]. exfalso.
  apply map_get_In in Eg. pose proof (ok_scalars s Hok) as H. rewrite Forall_forall in H. destruct (H _ Eg) as [Hk Ha _].
  cbn in Hk, Ha. pose proof Hk as Hk'. rewrite E in Hk'. symmetry in Hk, Hk'.
  apply (stored_key_inj _ _ _ _ Ha) in Hk as [H1 H2]. apply (stored_key_inj _ _ _ _ Ha) in Hk' as [H3 H4]. destruct Hne; congruence.
Qed.

Lemma getValue_delete_same s ns k :
  state_ok s -> getValue (set_scalarValues s (map_delete (scalarValues s) (physicalKey ns k))) ns k = None.
Proof. intros Hok. unfold getValue; cbn. rewrite map_get_delete by apply Hok. by rewrite decide_True. Qed.

Lemma entries_of_snoc ws w : entries_of (ws ++ [w]) = entries_of ws ++ entries_of [w].
Proof. apply omap_app. Qed.

Lemma appended_snoc ws w k : appended (ws ++ [w]) k = appended ws k ++ appended [w] k.
Proof. apply omap_app. Qed.

Lemma appended_below ws n k : Forall (fun w => write_seq w < n) ws -> Forall (fun el => el_seq el < n) (appended ws k).
Proof.
  intros H. rewrite Forall_forall in H. apply Forall_forall. intros el (w & Hw & Hel)%list_elem_of_omap. specialize (H w Hw).
  destruct w; try done. case_decide; [| done]. by injection Hel as <-.
Qed.

Lemma applyLaneValue_frame i ns k v :
  currentScalarSeqs (applyLaneValue i ns k v) = currentScalarSeqs i /\
  firstSurvivingListSeqs (applyLaneValue i ns k v) = firstSurvivingListSeqs i /\
  entryParents (applyLaneValue i ns k v) = entryParents i.
Proof. unfold applyLaneValue. by repeat case_bool_decide. Qed.

Lemma toggle_spec (l : gset jstring) k (v : option json) b :
  b ∈ match v with Some _ => {[ k ]} ∪ l | None => l ∖ {[ k ]} end <-> if decide (k = b) then is_Some v else b ∈ l.
Proof.
  destruct v; case_decide; subst.
  - rewrite elem_of_union, elem_of_singleton. split; [eauto | by left].
  - rewrite elem_of_union, elem_of_singleton. split; [by intros [? |] | by right].
  - rewrite elem_of_difference, elem_of_singleton. split; [by intros [_ []] | by intros [? ?]].
  - rewrite elem_of_difference, elem_of_singleton. split; [by intros [? _] | done].
Qed.

Lemma applyLaneValue_lanes i ns k v b :
  branchTips (applyLaneValue i ns k v) !! b = (if decide (ns = $"pi.branch.tip" /\ k = b) then v else branchTips i !! b) /\
  (b ∈ laneConfigs (applyLaneValue i ns k v) <-> if decide (ns = $"pi.lane.config" /\ k = b) then is_Some v else b ∈ laneConfigs i) /\
  (b ∈ laneStates (applyLaneValue i ns k v) <-> if decide (ns = $"pi.lane.state" /\ k = b) then is_Some v else b ∈ laneStates i).
Proof.
  unfold applyLaneValue. destruct (bool_decide_reflect (ns = $"pi.branch.tip")) as [-> | H1]; cbn.
  { rewrite (decide_False (P := $"pi.branch.tip" = $"pi.lane.config" /\ k = b)) by (by intros [? _]).
    rewrite (decide_False (P := $"pi.branch.tip" = $"pi.lane.state" /\ k = b)) by (by intros [? _]). split; [| done].
    destruct (decide (k = b)) as [-> | Hk].
    - rewrite lookup_partial_alter_eq, decide_True by done. done.
    - rewrite lookup_partial_alter_ne, decide_False by (done || by intros [_ ?]). done. }
  rewrite (decide_False (P := ns = $"pi.branch.tip" /\ k = b)) by (by intros [? _]).
  destruct (bool_decide_reflect (ns = $"pi.lane.config")) as [-> | H2]; cbn.
  { rewrite (decide_False (P := $"pi.lane.config" = $"pi.lane.state" /\ k = b)) by (by intros [? _]).
    split; [done |]. split; [| done]. rewrite toggle_spec. repeat case_decide; tauto. }
  rewrite (decide_False (P := ns = $"pi.lane.config" /\ k = b)) by (by intros [? _]).
  destruct (bool_decide_reflect (ns = $"pi.lane.state")) as [-> | H3]; cbn.
  { split; [done |]. split; [done |]. rewrite toggle_spec. repeat case_decide; tauto. }
  rewrite decide_False by (by intros [? _]). done.
Qed.

(** The parts every write extends alike. *)
Lemma tracks_common ws s i w s' :
  tracks ws s i -> write_valid s w -> log_address_ok w -> apply_write s w = Ok s' ->
  state_ok s' /\ entries_of (ws ++ [w]) = entriesBySeq s' /\ StronglySorted (seq_lt write_seq) (ws ++ [w]) /\
  in_range s' (ws ++ [w]) /\ Forall log_address_ok (ws ++ [w]).
Proof.
  intros T Hw Ha Happ. pose proof (apply_write_ok s w s' (tr_ok _ _ _ T) Hw Happ) as [Hok Hn].
  apply apply_write_effect in Happ as [_ He]. destruct Hw as [Hseq _]. pose proof (tr_range _ _ _ T) as Hr.
  pose proof (ok_next s (tr_ok _ _ _ T)) as H1n.
  split; [done |]. split; [by rewrite entries_of_snoc, (tr_entries _ _ _ T), He |]. split.
  - apply StronglySorted_snoc; [apply T |]. eapply Forall_impl; [exact Hr |]. unfold seq_lt. cbn. lia.
  - split; [| apply Forall_app; by repeat constructor; try apply T].
    apply Forall_app. split; [| constructor; [lia | done]]. eapply Forall_impl; [exact Hr |]. cbn. lia.
Qed.

Lemma tracks_entry ws s i e s' :
  tracks ws s i -> write_valid s (CEntry e) -> apply_write s (CEntry e) = Ok s' -> tracks (ws ++ [CEntry e]) s' (index_write i (CEntry e)).
Proof.
  intros T Hw Happ. destruct (tracks_common ws s i (CEntry e) s' T Hw I Happ) as (H1 & H2 & H3 & H4 & H5).
  unfold apply_write in Happ. cbn in Happ. injection Happ as <-. split; try done; cbn; try apply T.
  - intros k sv Hsv. apply elem_of_app. left. by apply (tr_scalars _ _ _ T k).
  - intros k. rewrite appended_snoc. cbn. rewrite app_nil_r. apply T.
  - intros x. unfold parent_in; cbn. destruct (decide (x = id e)) as [-> | Hne].
    + by rewrite !lookup_insert_eq.
    + rewrite !lookup_insert_ne by done. apply (tr_parents _ _ _ T).
Qed.

Lemma tracks_usage ws s i r s' :
  tracks ws s i -> write_valid s (CUsage r) -> apply_write s (CUsage r) = Ok s' -> tracks (ws ++ [CUsage r]) s' (index_write i (CUsage r)).
Proof.
  intros T Hw Happ. destruct (tracks_common ws s i (CUsage r) s' T Hw I Happ) as (H1 & H2 & H3 & H4 & H5).
  unfold apply_write in Happ. cbn in Happ. injection Happ as <-. split; try done; cbn; try apply T.
  - intros k sv Hsv. apply elem_of_app. left. by apply (tr_scalars _ _ _ T k).
  - intros k. rewrite appended_snoc. cbn. rewrite app_nil_r. apply T.
Qed.

Lemma is_Some_sv (sv : option StoredValue) : is_Some (sv_value <$> sv) <-> is_Some sv.
Proof. apply fmap_is_Some. Qed.

(** The lanes follow a change of one stored value. *)
Lemma lanes_track ws s i m s1 ns k (sv : option StoredValue) :
  tracks ws s i ->
  (forall ns' k', getValue s1 ns' k' = if decide (ns = ns' /\ k = k') then sv else getValue s ns' k') ->
  let i1 := applyLaneValue (set_scalarSeqs i m) ns k (sv_value <$> sv) in
  (forall b, branchTips i1 !! b = sv_value <$> getValue s1 $"pi.branch.tip" b) /\
  (forall b, b ∈ laneConfigs i1 <-> is_Some (getValue s1 $"pi.lane.config" b)) /\
  (forall b, b ∈ laneStates i1 <-> is_Some (getValue s1 $"pi.lane.state" b)).
Proof.
  intros T Hget. pose proof (applyLaneValue_lanes (set_scalarSeqs i m) ns k (sv_value <$> sv)) as F.
  split; [| split]; intros b; destruct (F b) as (F1 & F2 & F3); rewrite Hget.
  - rewrite F1. destruct (decide (ns = $"pi.branch.tip" /\ k = b)); [done |]. apply (tr_tips _ _ _ T).
  - etransitivity; [exact F2 |]. destruct (decide (ns = $"pi.lane.config" /\ k = b)); [apply is_Some_sv |]. apply (tr_configs _ _ _ T).
  - etransitivity; [exact F3 |]. destruct (decide (ns = $"pi.lane.state" /\ k = b)); [apply is_Some_sv |]. apply (tr_states _ _ _ T).
Qed.

Lemma tracks_set ws s i q ns k v s' :
  tracks ws s i -> write_valid s (CValueSet q ns k v) -> apply_write s (CValueSet q ns k v) = Ok s' ->
  tracks (ws ++ [CValueSet q ns k v]) s' (index_write i (CValueSet q ns k v)).
Proof.
  intros T Hw Happ. assert (Ha : address_ok ns k).
  { unfold apply_write in Happ. inv_ok. unfold applyValueSet in *. inv_ok. by apply validateAddress_Ok in Ha0 as [? _]. }
  destruct (tracks_common ws s i _ s' T Hw Ha Happ) as (H1 & H2 & H3 & H4 & H5).
  unfold apply_write in Happ. rewrite applyValueSet_ok_eq in Happ by done. cbn [mbind result_bind] in Happ. injection Happ as <-.
  cbn [index_write]. destruct (applyLaneValue_frame (set_scalarSeqs i (<[physicalKey ns k := q]> (currentScalarSeqs i))) ns k (Some v)) as (F1 & F2 & F3).
  destruct (lanes_track ws s i (<[physicalKey ns k := q]> (currentScalarSeqs i)) _ ns k (Some (mkStoredValue (mkAddress ns k) v q)) T
    (fun ns' k' => getValue_insert s ns k v q ns' k' Ha)) as (F4 & F5 & F6).
  split; try done; cbn; rewrite ?F1, ?F2, ?F3; try apply T.
  - intros k' sv. rewrite map_get_set. destruct (decide (k' = physicalKey ns k)) as [Hk | Hk]; intros Hsv; apply elem_of_app.
    + injection Hsv as <-. cbn. right. by left.
    + left. by apply (tr_scalars _ _ _ T k').
  - intros k'. rewrite appended_snoc. cbn. rewrite app_nil_r. apply T.
  - intros k'. cbn. rewrite map_get_set. destruct (decide (k' = physicalKey ns k)) as [-> | Hk]; [by rewrite lookup_insert_eq |].
    rewrite lookup_insert_ne by done. apply T.
Qed.

Lemma tracks_delete ws s i q ns k s' :
  tracks ws s i -> write_valid s (CValueDelete q ns k) -> apply_write s (CValueDelete q ns k) = Ok s' ->
  tracks (ws ++ [CValueDelete q ns k]) s' (index_write i (CValueDelete q ns k)).
Proof.
  intros T Hw Happ. destruct (tracks_common ws s i _ s' T Hw I Happ) as (H1 & H2 & H3 & H4 & H5).
  unfold apply_write in Happ. cbn in Happ. injection Happ as <-. cbn [index_write].
  destruct (applyLaneValue_frame (set_scalarSeqs i (delete (physicalKey ns k) (currentScalarSeqs i))) ns k None) as (F1 & F2 & F3).
  set (s1 := set_scalarValues s (map_delete (scalarValues s) (physicalKey ns k))).
  assert (Hget : forall ns' k', getValue s1 ns' k' = if decide (ns = ns' /\ k = k') then None else getValue s ns' k').
  { intros ns' k'. destruct (decide (ns = ns' /\ k = k')) as [[<- <-] | Hne]; [apply getValue_delete_same, T |].
    apply getValue_delete; [apply T |]. destruct (decide (ns = ns')); [right | by left]. intros <-. by destruct Hne. }
  destruct (lanes_track ws s i (delete (physicalKey ns k) (currentScalarSeqs i)) s1 ns k None T Hget) as (F4 & F5 & F6).
  split; try done; cbn; rewrite ?F1, ?F2, ?F3; try apply T.
  - intros k' sv. rewrite map_get_delete by apply T. destruct (decide (k' = physicalKey ns k)); [done |]. intros Hsv.
    apply elem_of_app. left. by apply (tr_scalars _ _ _ T k').
  - intros k'. rewrite appended_snoc. cbn. rewrite app_nil_r. apply T.
  - intros k'. cbn. rewrite map_get_delete by apply T. destruct (decide (k' = physicalKey ns k)) as [-> | Hk];
      [by rewrite lookup_delete_eq |]. rewrite lookup_delete_ne by done. apply T.
Qed.

Lemma filter_none {A} (f : A -> bool) l : Forall (fun x => f x = false) l -> List.filter f l = [].
Proof. induction 1 as [| x l Hx Hl IH]; cbn; [done |]. by rewrite Hx. Qed.

Lemma appended_one q ns k v k' :
  appended [CListAppend q ns k v] k' = if decide (k' = physicalKey ns k) then [mkListElement q v] else [].
Proof. unfold appended. cbn. by destruct (decide (k' = physicalKey ns k)). Qed.

(** The address of an append that succeeds. *)
Lemma append_address s q ns k v s' :
  state_ok s -> applyListAppend s q ns k v = Ok s' -> address_ok ns k.
Proof.
  intros Hok H. unfold applyListAppend in H. destruct (map_get _ _) as [st |] eqn:E.
  - apply map_get_In in E. pose proof (ok_lists s Hok) as Hl. rewrite Forall_forall in Hl. destruct (Hl _ E) as [Hk Ha _ _].
    cbn in Hk, Ha. symmetry in Hk. apply (stored_key_inj _ _ _ _ Ha) in Hk as [<- <-]. exact Ha.
  - inv_ok. by apply validateAddress_Ok in Ha as [? _].
Qed.

Lemma tracks_append ws s i q ns k v s' :
  tracks ws s i -> write_valid s (CListAppend q ns k v) -> apply_write s (CListAppend q ns k v) = Ok s' ->
  tracks (ws ++ [CListAppend q ns k v]) s' (index_write i (CListAppend q ns k v)).
Proof.
  intros T Hw Happ. pose proof Happ as Happ'. unfold apply_write in Happ'.
  apply bind_Ok in Happ' as (s1 & Hs1 & [= <-]). pose proof (append_address s q ns k v s1 (tr_ok _ _ _ T) Hs1) as Ha.
  destruct (tracks_common ws s i _ _ T Hw Ha Happ) as (H1 & H2 & H3 & H4 & H5).
  destruct (list_append_spec s q ns k v Ha (state_lists_keyed s (tr_ok _ _ _ T))) as (l & Hl & _ & Hget).
  rewrite Hl in Hs1. injection Hs1 as <-. set (pk := physicalKey ns k) in *.
  assert (Hold : Forall (fun el => el_seq el < q) (appended ws pk)).
  { apply appended_below. eapply Forall_impl; [apply (tr_range _ _ _ T) |]. destruct Hw as [Hq _]. cbn in Hq. cbn. lia. }
  assert (Hfirst : forall k', firstSurvivingListSeqs (index_write i (CListAppend q ns k v)) !! k' = el_seq <$> head (list_at l k')).
  { intros k'. rewrite Hget. cbn. fold pk. pose proof (tr_first _ _ _ T k') as Hf.
    destruct (firstSurvivingListSeqs i !! pk) as [f |] eqn:Ef.
    - rewrite Hf. destruct (decide (k' = pk)) as [-> | Hk]; [| by rewrite app_nil_r].
      rewrite Ef in Hf. by destruct (list_at (listValues s) pk).
    - cbn. destruct (decide (k' = pk)) as [-> | Hk]; [| by rewrite lookup_insert_ne, app_nil_r].
      rewrite lookup_insert_eq. rewrite Ef in Hf. by destruct (list_at (listValues s) pk). }
  split; try done.
  - intros k' sv Hsv. apply elem_of_app. left. by apply (tr_scalars _ _ _ T k').
  - intros k'. cbn [listValues set_listValues set_nextSeq]. rewrite Hget, appended_snoc, appended_one, List.filter_app.
    fold pk. rewrite (tr_lists _ _ _ T k'). cbn [index_write]. fold pk.
    destruct (firstSurvivingListSeqs i !! pk) as [f |] eqn:Ef; destruct (decide (k' = pk)) as [-> | Hk]; cbn.
    + rewrite Ef. f_equal. pose proof (tr_first _ _ _ T pk) as Hf. rewrite Ef in Hf.
      destruct (list_at (listValues s) pk) as [| el els] eqn:El; [done |]. cbn in Hf. injection Hf as ->.
      rewrite (tr_lists _ _ _ T pk) in El. assert (Hin : el ∈ List.filter (surviving (firstSurvivingListSeqs i !! pk)) (appended ws pk)) by (rewrite El; left).
      apply elem_of_filter_bool in Hin as [Hin _]. rewrite Forall_forall in Hold. specialize (Hold el Hin). cbn in Hold.
      cbn. by replace (el_seq el <=? q) with true by lia.
    + done.
    + rewrite lookup_insert_eq, Ef. rewrite !filter_none; [| | by apply Forall_forall].
      * cbn. by rewrite Z.leb_refl.
      * eapply Forall_impl; [exact Hold |]. cbn. intros el ?. lia.
    + by rewrite lookup_insert_ne, app_nil_r.
  - intros x. cbn [index_write]. destruct (firstSurvivingListSeqs i !! physicalKey ns k); apply (tr_parents _ _ _ T).
  - intros k'. cbn [index_write]. destruct (firstSurvivingListSeqs i !! physicalKey ns k); apply (tr_seqs _ _ _ T).
  - intros b. cbn [index_write]. destruct (firstSurvivingListSeqs i !! physicalKey ns k); apply (tr_tips _ _ _ T).
  - intros b. cbn [index_write]. destruct (firstSurvivingListSeqs i !! physicalKey ns k); apply (tr_configs _ _ _ T).
  - intros b. cbn [index_write]. destruct (firstSurvivingListSeqs i !! physicalKey ns k); apply (tr_states _ _ _ T).
Qed.

Lemma list_at_delete (m : list (jstring * StoredListSnapshot)) pk k :
  map_ok m -> list_at (map_delete m pk) k = if decide (k = pk) then [] else list_at m k.
Proof. intros H. unfold list_at. rewrite map_get_delete by done. by destruct (decide (k = pk)). Qed.

Lemma tracks_list_delete ws s i q ns k s' :
  tracks ws s i -> write_valid s (CListDelete q ns k) -> apply_write s (CListDelete q ns k) = Ok s' ->
  tracks (ws ++ [CListDelete q ns k]) s' (index_write i (CListDelete q ns k)).
Proof.
  intros T Hw Happ. destruct (tracks_common ws s i _ s' T Hw I Happ) as (H1 & H2 & H3 & H4 & H5).
  unfold apply_write in Happ. cbn in Happ. injection Happ as <-. cbn [index_write].
  pose proof (ok_list_keys s (tr_ok _ _ _ T)) as Hm.
  split; try done; cbn; try apply T.
  - intros k' sv Hsv. apply elem_of_app. left. by apply (tr_scalars _ _ _ T k').
  - intros k'. rewrite appended_snoc. cbn. rewrite app_nil_r, list_at_delete by done.
    destruct (decide (k' = physicalKey ns k)) as [-> | Hk].
    + rewrite lookup_delete_eq, filter_none; [done | by apply Forall_forall].
    + rewrite lookup_delete_ne by done. apply T.
  - intros k'. rewrite list_at_delete by done. destruct (decide (k' = physicalKey ns k)) as [-> | Hk].
    + by rewrite lookup_delete_eq.
    + rewrite lookup_delete_ne by done. apply T.
Qed.

Lemma tracks_step ws s i w s' :
  tracks ws s i -> write_valid s w -> apply_write s w = Ok s' -> tracks (ws ++ [w]) s' (index_write i w).
Proof.
  destruct w; [apply tracks_entry | apply tracks_usage | apply tracks_set | apply tracks_delete | apply tracks_append | apply tracks_list_delete].
Qed.

Lemma tracks_applied ws0 s i ws s' :
  tracks ws0 s i -> applied s ws s' -> tracks (ws0 ++ ws) s' (fold_left index_write ws i).
Proof.
  intros T H. revert ws0 i T. induction H as [| s w s1 ws s' Hw Ha _ IH]; intros ws0 i T; [by rewrite app_nil_r |].
  cbn. replace (ws0 ++ w :: ws) with ((ws0 ++ [w]) ++ ws) by (by rewrite <- app_assoc). apply IH. by eapply tracks_step.
Qed.

Lemma log_tracks log s : replay new_state log = Ok s -> tracks (mjoin log) s (index_log (mjoin log)).
Proof.
  intros H. apply replay_applied in H; [| apply new_state_ok].
  exact (tracks_applied [] new_state new_index (mjoin log) s tracks_new H).
Qed.

(** *** What a published fork replays to *)

Definition sets (ws : list CommittedWrite) (k : jstring) : list StoredValue :=
  omap (fun w => match w with
    | CValueSet q ns k' v => if decide (k = physicalKey ns k') then Some (mkStoredValue (mkAddress ns k') v q) else None
    | _ => None
    end) ws.

Definition additive (w : CommittedWrite) : Prop :=
  match w with CEntry _ | CValueSet _ _ _ _ | CListAppend _ _ _ _ => True | _ => False end.

Record publishable (ws : list CommittedWrite) : Prop := {
  pb_additive : Forall additive ws;
  pb_sorted : StronglySorted (seq_lt write_seq) ws;
  pb_positive : Forall (fun w => 1 <= write_seq w) ws;
  pb_addresses : Forall log_address_ok ws;
  pb_ids : NoDup (id <$> entries_of ws);
  pb_parents : forall pre e post p, entries_of ws = pre ++ e :: post -> parentId e = Some p -> p ∈ id <$> pre;
}.

Definition end_seq (ws : list CommittedWrite) : Z := match list.last ws with Some w => write_seq w + 1 | None => 1 end.

Record published (ws : list CommittedWrite) (d : State) : Prop := {
  pd_ok : state_ok d;
  pd_applied : applied new_state ws d;
  pd_entries : entriesBySeq d = entries_of ws;
  pd_scalars : forall k, map_get (scalarValues d) k = list.last (sets ws k);
  pd_lists : forall k, list_at (listValues d) k = appended ws k;
  pd_usage : usage d = [];
  pd_stats : stats d = mkStats (blen (List.filter is_message (entries_of ws))) emptyUsage;
  pd_next : nextSeq d = end_seq ws;
}.

Lemma StronglySorted_app_l {A} (R : A -> A -> Prop) l1 l2 : StronglySorted R (l1 ++ l2) -> StronglySorted R l1.
Proof.
  induction l1 as [| x l1 IH]; cbn; [constructor |]. intros [H1 H2]%StronglySorted_inv. constructor; [by apply IH |].
  by apply Forall_app in H2 as [? _].
Qed.

Lemma StronglySorted_snoc_inv {A} (R : A -> A -> Prop) l x : StronglySorted R (l ++ [x]) -> Forall (fun y => R y x) l.
Proof.
  induction l as [| y l IH]; cbn; [constructor |]. intros [H1 H2]%StronglySorted_inv. constructor; [| by apply IH].
  rewrite Forall_forall in H2. apply H2, elem_of_app. right. by left.
Qed.

Lemma publishable_prefix ws w : publishable (ws ++ [w]) -> publishable ws.
Proof.
  intros [H1 H2 H3 H4 H5 H6]. rewrite !Forall_app in *. rewrite entries_of_snoc in *.
  split; try tauto; [by apply StronglySorted_app_l in H2 | rewrite fmap_app in H5; by apply NoDup_app in H5 as [? _] |].
  intros pre e post p E. apply (H6 pre e (post ++ entries_of [w])). by rewrite E, <- app_assoc.
Qed.

Lemma end_seq_snoc ws w : end_seq (ws ++ [w]) = write_seq w + 1.
Proof. unfold end_seq. by rewrite last_snoc. Qed.

Lemma published_valid ws w d : publishable (ws ++ [w]) -> published ws d -> write_valid d w.
Proof.
  intros H D. destruct H as [H1 H2 H3 H4 H5 H6]. split.
  - rewrite (pd_next _ _ D). unfold end_seq. destruct (list.last ws) as [w' |] eqn:E.
    + apply StronglySorted_snoc_inv in H2. rewrite Forall_forall in H2.
      apply list.last_Some in E as [l ->]. specialize (H2 w' ltac:(apply elem_of_app; right; by left)). unfold seq_lt in H2. lia.
    + apply Forall_app in H3 as [_ H3]. by apply Forall_cons in H3 as [? _].
  - rewrite entries_of_snoc in *. destruct w as [e | r | q ns k v | q ns k | q ns k v | q ns k]; try done.
    2:{ apply Forall_app in H1 as [_ H1]. by apply Forall_cons in H1 as [? _]. }
    rewrite fmap_app in H5. apply NoDup_app in H5 as (_ & Hdisj & _). cbn in Hdisj. split.
    + apply hasEntryOrUsageId_false. rewrite (pd_usage _ _ D). split; [| apply not_elem_of_nil].
      destruct (entries d !! id e) as [e' |] eqn:Ee; [| done]. exfalso. destruct (listed d _ e' (pd_ok _ _ D) Ee) as [Hin Hid].
      rewrite (pd_entries _ _ D) in Hin. apply (Hdisj (id e')); [apply list_elem_of_fmap; eauto |]. rewrite Hid. by left.
    + intros p Hp. apply hasEntryId_true. specialize (H6 (entries_of ws) e [] p eq_refl Hp).
      apply list_elem_of_fmap in H6 as (pe & -> & Hin). rewrite <- (pd_entries _ _ D) in Hin.
      pose proof (ok_listed d (pd_ok _ _ D)) as Hl. rewrite Forall_forall in Hl. rewrite (Hl pe Hin). eauto.
Qed.

Lemma sets_snoc ws w k : sets (ws ++ [w]) k = sets ws k ++ sets [w] k.
Proof. apply omap_app. Qed.

Lemma published_new : published [] new_state.
Proof. split; try done; [apply new_state_ok | constructor]. Qed.

Lemma published_step ws w d :
  publishable (ws ++ [w]) -> published ws d -> exists d', published (ws ++ [w]) d'.
Proof.
  intros H D. pose proof (published_valid ws w d H D) as Hv.
  assert (Hdone : forall d', apply_write d w = Ok d' ->
    (forall k, map_get (scalarValues d') k = list.last (sets (ws ++ [w]) k)) ->
    (forall k, list_at (listValues d') k = appended (ws ++ [w]) k) -> usage d' = [] ->
    stats d' = mkStats (blen (List.filter is_message (entries_of (ws ++ [w])))) emptyUsage -> exists d', published (ws ++ [w]) d').
  { intros d' Ha Hs Hl Hu Hst. destruct (apply_write_ok d w d' (pd_ok _ _ D) Hv Ha) as [Hok Hn]. exists d'.
    split; try done.
    - eapply applied_app; [apply D |]. eapply ap_cons; [done | done | constructor].
    - apply apply_write_effect in Ha as [_ He]. by rewrite He, (pd_entries _ _ D), entries_of_snoc.
    - by rewrite end_seq_snoc. }
  destruct H as [H1 _ _ H4 _ _]. apply Forall_app in H1 as [_ H1]. apply Forall_cons in H1 as [H1 _].
  apply Forall_app in H4 as [_ H4]. apply Forall_cons in H4 as [H4 _].
  destruct D as [D1 D2 D3 D4 D5 D6 D7 D8]. rewrite entries_of_snoc in Hdone.
  destruct w as [e | r | q ns k v | q ns k | q ns k v | q ns k]; try done.
  - eapply Hdone; [done | | | done |]; cbn.
    + intros k. rewrite sets_snoc. cbn. by rewrite app_nil_r.
    + intros k. rewrite appended_snoc. cbn. by rewrite app_nil_r.
    + rewrite D7, List.filter_app, blen_app. cbn. destruct (bool_decide (type e = message)) eqn:Em; cbn;
        change (is_message e) with (bool_decide (type e = message)); rewrite Em; [done | by rewrite (blen_nil (A:=Entry)), Z.add_0_r].
  - unfold apply_write in Hdone. cbn [mbind result_bind] in Hdone. rewrite applyValueSet_ok_eq in Hdone by done.
    eapply Hdone; [done | | | done |]; cbn.
    + intros k'. rewrite map_get_set, sets_snoc. cbn. destruct (decide (k' = physicalKey ns k)) as [-> | Hk].
      * by rewrite last_snoc.
      * by rewrite app_nil_r.
    + intros k'. rewrite appended_snoc. cbn. by rewrite app_nil_r.
    + by rewrite app_nil_r.
  - unfold apply_write in Hdone. destruct (list_append_spec d q ns k v H4 (state_lists_keyed d D1)) as (l & Hl & _ & Hget).
    rewrite Hl in Hdone. eapply Hdone; [done | | | done |]; cbn.
    + intros k'. rewrite sets_snoc. cbn. by rewrite app_nil_r.
    + intros k'. by rewrite Hget, appended_snoc, appended_one, D5.
    + by rewrite app_nil_r.
Qed.

Lemma publish ws : publishable ws -> exists d, published ws d.
Proof.
  induction ws as [| w ws IH] using rev_ind; intros H; [eexists; apply published_new |].
  destruct (IH (publishable_prefix ws w H)) as [d D]. by eapply published_step.
Qed.


(** *** The projected log *)

Lemma traverse_omap {A B} (f : A -> result StorageError (option B)) l :
  traverse f l = if forallb (fun x => is_ok (f x)) l
                 then Ok (List.map (fun x => match f x with Ok p => p | Err _ => None end) l)
                 else traverse f l.
Proof.
  induction l as [| x l IH]; cbn; [done |]. destruct (f x) as [p | e]; cbn; [| done].
  destruct (forallb _ l); [| done]. by rewrite IH.
Qed.

Lemma traverse_not_ok {A B} (f : A -> result StorageError B) l :
  forallb (fun x => is_ok (f x)) l = false -> is_ok (traverse f l) = false.
Proof.
  induction l as [| x l IH]; cbn; [done |]. destruct (f x); cbn; [| done]. intros H. specialize (IH H). by destruct (traverse f l).
Qed.

Lemma omap_map_id {A B} (f : A -> option B) (l : list A) : omap (fun p : option B => p) (List.map f l) = omap f l.
Proof. induction l as [| x l IH]; cbn; [done |]. by destruct (f x); rewrite IH. Qed.

(** The write a fork keeps of a log's write. *)
Definition kept_write (i : JsonlForkIndex) (plan : ForkPlan) (copied : jstring -> bool) (w : CommittedWrite) : option CommittedWrite :=
  match projectJsonlForkWrite i plan copied w with Ok p => p | Err _ => None end.

Lemma kept_write_cases i plan copied w :
  kept_write i plan copied w =
  match w with
  | CEntry e => if copied (id e) then Some w else None
  | CValueSet q ns k v =>
      if bool_decide (currentScalarSeqs i !! physicalKey ns k = Some q)
      then (fun v' => CValueSet q ns k v') <$> kept_value plan copied (mkAddress ns k) v else None
  | CListAppend q ns k v =>
      if surviving (firstSurvivingListSeqs i !! physicalKey ns k) (mkListElement q v)
      then (fun v' => CListAppend q ns k v') <$> kept_value plan copied (mkAddress ns k) v else None
  | _ => None
  end.
Proof.
  unfold kept_write, kept_value. destruct w as [e | r | q ns k v | q ns k | q ns k v | q ns k]; cbn [projectJsonlForkWrite namespace key]; try done.
  - destruct (bool_decide _); [| done]. by destruct (project plan copied ns k v) as [[? |] |].
  - change (isSurvivingListElement i ns k q) with (surviving (firstSurvivingListSeqs i !! physicalKey ns k) (mkListElement q v)).
    destruct (surviving _ _); [| done]. by destruct (project plan copied ns k v) as [[? |] |].
Qed.

Lemma kept_write_shape i plan copied w w' :
  kept_write i plan copied w = Some w' -> log_address_ok w -> write_seq w' = write_seq w /\ additive w' /\ log_address_ok w'.
Proof.
  rewrite kept_write_cases. destruct w as [e | r | q ns k v | q ns k | q ns k v | q ns k]; try done.
  - destruct (copied (id e)); [| done]. by intros [= <-].
  - destruct (bool_decide _); [| done]. destruct (kept_value _ _ _ _); [| done]. by intros [= <-].
  - destruct (surviving _ _); [| done]. destruct (kept_value _ _ _ _); [| done]. by intros [= <-].
Qed.

Lemma omap_omap {A B C} (f : A -> option B) (g : B -> option C) (l : list A) : omap g (omap f l) = omap (fun x => match f x with Some y => g y | None => None end) l.
Proof. induction l as [| x l IH]; cbn; [done |]. destruct (f x); cbn; by rewrite IH. Qed.

Lemma omap_ext_in {A B} (f g : A -> option B) (l : list A) : (forall x, x ∈ l -> f x = g x) -> omap f l = omap g l.
Proof.
  induction l as [| x l IH]; intros H; cbn; [done |]. rewrite (H x ltac:(by left)), IH; [done |].
  intros y Hy. apply H. by right.
Qed.

Lemma omap_none {A B} (g : A -> option B) (l : list A) : (forall x, x ∈ l -> g x = None) -> omap g l = [].
Proof.
  induction l as [| x l IH]; intros H; cbn; [done |]. rewrite (H x) by (by left). apply IH. intros y Hy. apply H. by right.
Qed.

Lemma sorted_around {A} (R : A -> A -> Prop) pre x post :
  StronglySorted R (pre ++ x :: post) -> Forall (fun y => R y x) pre /\ Forall (R x) post.
Proof.
  induction pre as [| y pre IH]; cbn; intros [H1 H2]%StronglySorted_inv; [by split; [constructor |] |].
  destruct (IH H1) as [H3 H4]. split; [| done]. constructor; [| done].
  rewrite Forall_forall in H2. apply H2, elem_of_app. right. by left.
Qed.

(** At most one write has a given sequence. *)
Lemma omap_unique {B} (g : CommittedWrite -> option B) ws w0 :
  StronglySorted (seq_lt write_seq) ws -> w0 ∈ ws -> (forall w, w ∈ ws -> write_seq w <> write_seq w0 -> g w = None) ->
  omap g ws = option_list (g w0).
Proof.
  intros Hs Hin Hg. apply list_elem_of_split in Hin as (pre & post & ->).
  apply sorted_around in Hs as [Hpre Hpost]. rewrite Forall_forall in Hpre. rewrite Forall_forall in Hpost.
  rewrite omap_app. cbn. rewrite (omap_none g pre), (omap_none g post); [by destruct (g w0) | |].
  - intros w Hw. apply Hg; [apply elem_of_app; right; by right |]. specialize (Hpost w Hw). unfold seq_lt in Hpost. lia.
  - intros w Hw. apply Hg; [apply elem_of_app; by left |]. specialize (Hpre w Hw). unfold seq_lt in Hpre. lia.
Qed.

Lemma tracks_scalar ws s i k sv :
  tracks ws s i -> map_get (scalarValues s) k = Some sv -> address_key (sv_address sv) = k /\ addr_ok (sv_address sv).
Proof.
  intros T H. apply map_get_In in H. pose proof (ok_scalars s (tr_ok _ _ _ T)) as Hs. rewrite Forall_forall in Hs.
  by destruct (Hs _ H) as [Hk Ha _].
Qed.

Lemma tracks_list ws s i k st :
  tracks ws s i -> map_get (listValues s) k = Some st -> address_key (sl_address st) = k /\ addr_ok (sl_address st).
Proof.
  intros T H. apply map_get_In in H. pose proof (ok_lists s (tr_ok _ _ _ T)) as Hs. rewrite Forall_forall in Hs.
  by destruct (Hs _ H) as [Hk Ha _ _].
Qed.

Lemma projected_sets ws s i plan copied k :
  tracks ws s i ->
  list.last (sets (omap (kept_write i plan copied) ws) k) = map_get (scalarValues s) k ≫= kept_scalar plan copied.
Proof.
  intros T. unfold sets. rewrite omap_omap.
  set (g := fun w => match kept_write i plan copied w with Some _ => _ | None => None end).
  assert (Hg : forall w, g w <> None -> currentScalarSeqs i !! k = Some (write_seq w)).
  { intros w. unfold g. rewrite kept_write_cases. destruct w as [e | r | q ns k' v | q ns k' | q ns k' v | q ns k']; try done.
    - by destruct (copied (id e)).
    - destruct (bool_decide_reflect (currentScalarSeqs i !! physicalKey ns k' = Some q)) as [E | E]; [| done].
      destruct (kept_value _ _ _ _); [| done]. cbn. destruct (decide (k = physicalKey ns k')) as [-> | ?]; done.
    - destruct (surviving _ _); [| done]. by destruct (kept_value _ _ _ _). }
  rewrite (tr_seqs _ _ _ T) in Hg. destruct (map_get (scalarValues s) k) as [sv |] eqn:E; cbn in *.
  2:{ rewrite omap_none; [done |]. intros w _. destruct (g w) eqn:Ew; [| done]. by specialize (Hg w ltac:(congruence)). }
  destruct (tracks_scalar ws s i k sv T E) as [Hk Ha].
  rewrite (omap_unique g ws (CValueSet (sv_seq sv) (namespace (sv_address sv)) (key (sv_address sv)) (sv_value sv))).
  - unfold g. rewrite kept_write_cases. unfold address_key in Hk. rewrite Hk, (tr_seqs _ _ _ T), E.
    cbn. rewrite bool_decide_eq_true_2 by done. rewrite address_eta. unfold kept_scalar.
    destruct (kept_value _ _ _ _); [| done]. cbn. rewrite decide_True by done. by rewrite address_eta.
  - apply T.
  - by apply (tr_scalars _ _ _ T k).
  - intros w Hw Hne. destruct (g w) eqn:Ew; [| done]. specialize (Hg w ltac:(congruence)). cbn in Hne. congruence.
Qed.

Lemma projected_lists ws s i plan copied k :
  tracks ws s i ->
  appended (omap (kept_write i plan copied) ws) k =
  match map_get (listValues s) k with Some st => omap (kept_element plan copied (sl_address st)) (elements st) | None => [] end.
Proof.
  intros T. unfold appended at 1. rewrite omap_omap. pose proof (tr_first _ _ _ T k) as Hf. pose proof (tr_lists _ _ _ T k) as Hl.
  unfold list_at in Hf, Hl. destruct (map_get (listValues s) k) as [st |] eqn:E.
  - destruct (tracks_list ws s i k st T E) as [Hk Ha]. rewrite Hl. clear Hl.
    pose proof (tr_addresses _ _ _ T) as Haddr. clear Hf E T. induction Haddr as [| w ws' Hw Haddr IH]; [done |].
    cbn [omap list_omap]. rewrite kept_write_cases.
    destruct w as [e | r | q ns k' v | q ns k' | q ns k' v | q ns k']; cbn [appended omap list_omap];
      try exact IH.
    + destruct (copied (id e)); exact IH.
    + destruct (bool_decide _); [| exact IH]. destruct (kept_value _ _ _ _); exact IH.
    + fold (appended ws' k). destruct (decide (k = physicalKey ns k')) as [Hkk | Hkk].
      * rewrite <- Hkk. assert (ns = namespace (sl_address st) /\ k' = key (sl_address st)) as [-> ->].
        { rewrite Hkk in Hk. symmetry in Hk. by apply (stored_key_inj _ _ _ _ Hw) in Hk. }
        cbn [List.filter]. destruct (surviving _ _); [| exact IH]. cbn [omap list_omap]. rewrite address_eta.
        unfold kept_element at 1. cbn [el_value el_seq].
        destruct (kept_value plan copied (sl_address st) v); cbn; [rewrite decide_True by done; by rewrite IH | exact IH].
      * destruct (surviving _ _); [| exact IH]. destruct (kept_value _ _ _ _); [| exact IH]. cbn. rewrite decide_False by done. exact IH.
  - apply omap_none. intros w _. rewrite kept_write_cases. destruct w as [e | r | q ns k' v | q ns k' | q ns k' v | q ns k']; try done.
    + by destruct (copied (id e)).
    + destruct (bool_decide _); [| done]. by destruct (kept_value _ _ _ _).
    + destruct (surviving _ _) eqn:Es; [| done]. destruct (kept_value _ _ _ _); [| done]. cbn.
      destruct (decide (k = physicalKey ns k')) as [Hkk | Hkk]; [| done]. rewrite <- Hkk, Hf in Es. done.
Qed.

Lemma projected_entries i plan copied ws :
  entries_of (omap (kept_write i plan copied) ws) = List.filter (fun e => copied (id e)) (entries_of ws).
Proof.
  unfold entries_of. rewrite omap_omap. induction ws as [| w ws IH]; [done |]. cbn [omap list_omap]. rewrite kept_write_cases.
  destruct w as [e | r | q ns k v | q ns k | q ns k v | q ns k]; try exact IH.
  - cbn [List.filter]. destruct (copied (id e)); [by rewrite IH | exact IH].
  - destruct (bool_decide _); [| exact IH]. destruct (kept_value _ _ _ _); exact IH.
  - destruct (surviving _ _); [| exact IH]. destruct (kept_value _ _ _ _); exact IH.
Qed.

Lemma kept_writes_Forall (P Q : CommittedWrite -> Prop) i plan copied ws :
  Forall log_address_ok ws -> (forall w w', kept_write i plan copied w = Some w' -> log_address_ok w -> P w -> Q w') ->
  Forall P ws -> Forall Q (omap (kept_write i plan copied) ws).
Proof.
  intros Ha H HP. rewrite Forall_forall in Ha. rewrite Forall_forall in HP. apply Forall_forall.
  intros w' (w & Hw & Hk)%list_elem_of_omap. eapply H; eauto.
Qed.

Lemma kept_writes_sorted i plan copied ws :
  Forall log_address_ok ws -> StronglySorted (seq_lt write_seq) ws ->
  StronglySorted (seq_lt write_seq) (omap (kept_write i plan copied) ws).
Proof.
  intros Ha Hs. induction Hs as [| w ws Hs IH Hw]; [constructor |]. apply Forall_cons in Ha as [Hwa Ha].
  cbn. destruct (kept_write i plan copied w) as [w' |] eqn:E; [| by apply IH]. constructor; [by apply IH |].
  apply kept_write_shape in E as (E & _ & _); [| done].
  eapply kept_writes_Forall; [done | | exact Hw]. intros w1 w1' H1 Ha1. apply kept_write_shape in H1 as (H1 & _ & _); [| done].
  unfold seq_lt. lia.
Qed.

Lemma filtered_ids_NoDup s f : state_ok s -> NoDup (id <$> List.filter f (entriesBySeq s)).
Proof.
  intros Hok. pose proof (ok_listed s Hok) as Hl. rewrite Forall_forall in Hl.
  apply NoDup_fmap_2_strong.
  - intros e1 e2 [H1 _]%elem_of_filter_bool [H2 _]%elem_of_filter_bool Hid.
    pose proof (Hl e1 H1) as E1. pose proof (Hl e2 H2) as E2. rewrite Hid in E1. congruence.
  - pose proof (filter_sorted _ f _ (ok_sorted s Hok)) as Hs. clear -Hs.
    induction Hs as [| e l Hs IH Hl]; constructor; [| done]. intros Hin. rewrite Forall_forall in Hl.
    specialize (Hl e Hin). unfold seq_lt in Hl. lia.
Qed.

Lemma filtered_parents s copied pre e post p :
  state_ok s -> parent_closed s copied ->
  List.filter (fun e => copied (id e)) (entriesBySeq s) = pre ++ e :: post -> parentId e = Some p -> p ∈ id <$> pre.
Proof.
  intros Hok Hclosed E Hp.
  assert (He : e ∈ List.filter (fun e => copied (id e)) (entriesBySeq s)) by (rewrite E; apply elem_of_app; right; by left).
  apply elem_of_filter_bool in He as [He Hc]. cbn in Hc.
  destruct (parent_listed s e p Hok He Hp) as (pe & Hpe & Hpin & Hlt).
  assert (Hin : pe ∈ pre ++ e :: post).
  { rewrite <- E. apply (elem_of_filter_bool (fun e => copied (id e))). split; [done |].
    rewrite (entry_id s p pe Hok Hpe). exact (Hclosed e p He Hc Hp). }
  pose proof (filter_sorted _ (fun e => copied (id e)) _ (ok_sorted s Hok)) as Hs. rewrite E in Hs.
  apply sorted_around in Hs as [_ Hpost]. rewrite Forall_forall in Hpost.
  apply elem_of_app in Hin as [Hin | Hin]; [apply list_elem_of_fmap; exists pe; split; [by rewrite (entry_id s p pe) | done] |].
  apply elem_of_cons in Hin as [-> | Hin]; [lia |]. specialize (Hpost pe Hin). unfold seq_lt in Hpost. lia.
Qed.

Lemma projected_publishable ws s i plan copied :
  tracks ws s i -> parent_closed s copied -> publishable (omap (kept_write i plan copied) ws).
Proof.
  intros T Hclosed. pose proof (tr_addresses _ _ _ T) as Ha. split.
  - eapply kept_writes_Forall; [done | | exact Ha]. intros w w' H Hw _. by apply kept_write_shape in H as (_ & ? & _).
  - apply kept_writes_sorted; [done | apply T].
  - eapply kept_writes_Forall; [done | | exact (tr_range _ _ _ T)]. intros w w' H Hw Hr. cbn in Hr.
    apply kept_write_shape in H as (H & _ & _); [lia | done].
  - eapply kept_writes_Forall; [done | | exact Ha]. intros w w' H Hw _. by apply kept_write_shape in H as (_ & _ & ?).
  - rewrite projected_entries, (tr_entries _ _ _ T). apply filtered_ids_NoDup, T.
  - intros pre e post p E. rewrite projected_entries, (tr_entries _ _ _ T) in E. eapply filtered_parents; [apply T | done | done].
Qed.

Lemma write_by_seq ws (w1 w2 : CommittedWrite) :
  StronglySorted (seq_lt write_seq) ws -> w1 ∈ ws -> w2 ∈ ws -> write_seq w1 = write_seq w2 -> w1 = w2.
Proof.
  intros Hs H1 H2 E. apply list_elem_of_split in H1 as (pre & post & ->). apply sorted_around in Hs as [Hp Hq].
  rewrite Forall_forall in Hp. rewrite Forall_forall in Hq.
  apply elem_of_app in H2 as [H2 | H2]; [specialize (Hp w2 H2); unfold seq_lt in Hp; lia |].
  apply elem_of_cons in H2 as [-> | H2]; [done |]. specialize (Hq w2 H2). unfold seq_lt in Hq. lia.
Qed.

Lemma appended_elem ws k el : el ∈ appended ws k <-> exists ns k', CListAppend (el_seq el) ns k' (el_value el) ∈ ws /\ k = physicalKey ns k'.
Proof.
  unfold appended. rewrite list_elem_of_omap. split.
  - intros (w & Hw & H). destruct w as [e | r | q ns k' v | q ns k' | q ns k' v | q ns k']; try done.
    destruct (decide (k = physicalKey ns k')) as [-> |]; [| done]. injection H as <-. by exists ns, k'.
  - intros (ns & k' & Hw & ->). eexists. split; [exact Hw |]. cbn. rewrite decide_True by done. by destruct el.
Qed.

(** The log and the state can be projected together. *)
Lemma projects_agree ws s i plan copied :
  tracks ws s i -> forallb (fun w => is_ok (projectJsonlForkWrite i plan copied w)) ws = all_project s plan copied.
Proof.
  intros T. apply eq_true_iff_eq. unfold all_project. rewrite andb_true_iff, !forallb_forall.
  setoid_rewrite <- list_elem_of_In. unfold projects. split.
  - intros H. split.
    + intros sv [k Hk]%elem_of_map_values. apply map_get_Some in Hk; [| apply (ok_scalar_keys s (tr_ok _ _ _ T))].
      destruct (tracks_scalar ws s i k sv T Hk) as [Hkey _]. specialize (H _ (tr_scalars _ _ _ T k sv Hk)).
      cbn [projectJsonlForkWrite] in H. unfold address_key in Hkey. rewrite Hkey, (tr_seqs _ _ _ T), Hk in H. cbn in H.
      rewrite bool_decide_eq_true_2 in H by done. by destruct (project _ _ _ _ _).
    + intros [a el] Hin. unfold all_elements in Hin. apply list_elem_of_bind in Hin as (st & Hel & Hst).
      apply list_elem_of_fmap in Hel as (el' & [= -> ->] & Hel). apply elem_of_map_values in Hst as [k Hk].
      apply map_get_Some in Hk; [| apply (ok_list_keys s (tr_ok _ _ _ T))]. destruct (tracks_list ws s i k st T Hk) as [Hkey Ha].
      assert (Hin : el' ∈ list_at (listValues s) k) by (unfold list_at; by rewrite Hk).
      rewrite (tr_lists _ _ _ T) in Hin. apply elem_of_filter_bool in Hin as [Hin Hs].
      apply appended_elem in Hin as (ns & k' & Hw & Hk').
      rewrite Hk' in Hkey. apply (stored_key_inj _ _ _ _ Ha) in Hkey as [<- <-]. specialize (H _ Hw).
      cbn [projectJsonlForkWrite] in H. unfold isSurvivingListElement in H. rewrite <- Hk' in H. unfold surviving in Hs. cbn [fst snd].
      destruct (firstSurvivingListSeqs i !! k); [rewrite Hs in H | done]. by destruct (project _ _ _ _ _).
  - intros [Hv He] w Hw. destruct w as [e | r | q ns k v | q ns k | q ns k v | q ns k]; try done; cbn [projectJsonlForkWrite].
    + rewrite (tr_seqs _ _ _ T). destruct (bool_decide_reflect (sv_seq <$> map_get (scalarValues s) (physicalKey ns k) = Some q)) as [E |]; [| done].
      apply fmap_Some in E as (sv & E & ->). pose proof (tr_scalars _ _ _ T _ _ E) as Hin.
      pose proof (write_by_seq ws _ _ (tr_sorted _ _ _ T) Hw Hin eq_refl) as Eq. injection Eq as Hns Hkey Hvv.
      specialize (Hv sv ltac:(apply elem_of_map_values; eexists; by apply map_get_In)). rewrite <- Hns, <- Hkey, <- Hvv in Hv.
      by destruct (project _ _ _ _ _).
    + destruct (isSurvivingListElement i ns k q) eqn:Es; [| done]. unfold isSurvivingListElement in Es.
      assert (Hin : mkListElement q v ∈ list_at (listValues s) (physicalKey ns k)).
      { rewrite (tr_lists _ _ _ T). apply elem_of_filter_bool. split; [apply appended_elem; cbn; eauto | exact Es]. }
      unfold list_at in Hin. destruct (map_get (listValues s) (physicalKey ns k)) as [st |] eqn:E; [| by apply not_elem_of_nil in Hin].
      destruct (tracks_list ws s i _ st T E) as [Hk Ha]. apply (stored_key_inj _ _ _ _ Ha) in Hk as [Hn Hk].
      specialize (He (sl_address st, mkListElement q v)). cbn [fst snd el_value] in He. rewrite Hn, Hk in He.
      assert (Hok : is_ok (project plan copied ns k v) = true); [| by destruct (project _ _ _ _ _)].
      apply He. unfold all_elements. apply list_elem_of_bind. exists st. split; [by apply list_elem_of_fmap; eauto |].
      apply elem_of_map_values. eexists. by apply map_get_In.
Qed.

(** *** The two selections agree *)

Lemma select_loop_ext fuel r b g1 g2 x found dest sel :
  (forall y, g1 y = g2 y) -> select_loop fuel r b g1 x found dest sel = select_loop fuel r b g2 x found dest sel.
Proof.
  intros Hg. revert x found dest sel. induction fuel as [| fuel IH]; intros [y |] found dest sel; cbn; try done.
  rewrite Hg. destruct (g2 y) as [p |]; [| done]. by destruct (bool_decide _).
Qed.

Lemma selectBranchFork_ext fuel branch x before tip g1 g2 :
  (forall y, g1 y = g2 y) -> selectBranchFork fuel branch x before tip g1 = selectBranchFork fuel branch x before tip g2.
Proof.
  intros Hg. unfold selectBranchFork. destruct tip as [tip |]; [| done]. destruct (tip_of tip) as [t |]; [| done].
  cbn [mbind result_bind]. by rewrite (select_loop_ext _ _ _ g1 g2).
Qed.

Lemma tracks_size ws s i : tracks ws s i -> size (entryParents i) = size (entries s).
Proof.
  intros T. rewrite <- !(size_dom (D := gset jstring)). f_equal. apply set_eq. intros x.
  rewrite !elem_of_dom, (tr_parents _ _ _ T). unfold parent_in. by rewrite fmap_is_Some.
Qed.

Lemma getValue_nul s ns k : state_ok s -> NUL ∉ ns -> NUL ∈ k -> getValue s ns k = None.
Proof.
  intros Hok Hns Hk. unfold getValue. destruct (map_get (scalarValues s) (physicalKey ns k)) as [sv |] eqn:E; [| done].
  apply map_get_In in E. pose proof (ok_scalars s Hok) as H. rewrite Forall_forall in H. destruct (H _ E) as [Hkey Ha _].
  cbn [fst snd] in *. symmetry in Hkey. apply (stored_key_inj _ _ _ _ Ha) in Hkey as [<- <-]. by destruct Ha as (_ & _ & ?).
Qed.

Lemma address_nul ns k : ns <> [] -> NUL ∉ ns -> (value_address ns k = Ok (mkAddress ns k) /\ NUL ∉ k) \/ (is_ok (value_address ns k) = false /\ NUL ∈ k).
Proof.
  intros H1 H2. destruct (decide (NUL ∈ k)) as [Hk | Hk].
  - right. split; [| done]. unfold value_address, validateAddress. rewrite (bool_decide_eq_false_2 (ns = [])) by done.
    rewrite (bool_decide_eq_false_2 (NUL ∈ ns)) by done. by rewrite bool_decide_eq_true_2.
  - left. split; [| done]. by apply validateAddress_ok.
Qed.

Lemma is_ok_false {A} (r : result StorageError A) : is_ok r = false -> exists e, r = Err e.
Proof. destruct r; [done | eauto]. Qed.

Lemma reserved_ok (ns : jstring) :
  ns ∈ [$"pi.branch.tip"; $"pi.lane.config"; $"pi.lane.state"] -> ns <> [] /\ NUL ∉ ns.
Proof.
  intros H. repeat (apply elem_of_cons in H as [-> | H]; [split; [done | by apply (bool_decide_unpack (NUL ∉ _))] |]).
  by apply not_elem_of_nil in H.
Qed.

Lemma selection_agrees ws s i options :
  tracks ws s i ->
  match selectForkPlan s options with
  | Ok r => selectJsonlFork i options = Ok r
  | Err _ => is_ok (selectJsonlFork i options) = false
  end.
Proof.
  intros T. destruct options as [| branch x before]; [done |]. unfold selectForkPlan, selectJsonlFork.
  destruct (reserved_ok $"pi.branch.tip" ltac:(set_solver)) as [Ht1 Ht2].
  destruct (reserved_ok $"pi.lane.config" ltac:(set_solver)) as [Hc1 Hc2].
  destruct (reserved_ok $"pi.lane.state" ltac:(set_solver)) as [Hl1 Hl2].
  rewrite (tr_tips _ _ _ T), (tracks_size _ _ _ T).
  unfold branchTip, laneConfig, laneState.
  destruct (address_nul $"pi.branch.tip" branch Ht1 Ht2) as [[-> Hn] | [He Hn]].
  2:{ apply is_ok_false in He as [e ->]. by rewrite (getValue_nul s _ _ (tr_ok _ _ _ T) Ht2 Hn). }
  destruct (address_nul $"pi.lane.config" branch Hc1 Hc2) as [[Hc _] | [_ ?]]; [| done].
  destruct (address_nul $"pi.lane.state" branch Hl1 Hl2) as [[Hl _] | [_ ?]]; [| done].
  cbn [mbind result_bind]. unfold get_at; cbn [namespace key].
  rewrite (selectBranchFork_ext _ _ _ _ _ (fun y => entryParents i !! y) (fun y => parentId <$> entries s !! y))
    by (intros y; apply (tr_parents _ _ _ T)).
  destruct (selectBranchFork _ _ _ _ _ _) as [[dest sel] |]; [| done]. cbn [mbind result_bind].
  rewrite Hc, Hl. cbn [mbind result_bind namespace key].
  rewrite (bool_decide_ext _ _ (tr_configs _ _ _ T branch)), (bool_decide_ext _ _ (tr_states _ _ _ T branch)).
  by destruct (throw_unless _ _).
Qed.

Lemma selection_closed s options plan sel :
  state_ok s -> selectForkPlan s options = Ok (plan, sel) -> parent_closed s (isEntryCopied plan sel).
Proof.
  intros Hok H. destruct options as [| branch x before].
  - injection H as <- <-. by intros e p _ _ _.
  - apply selectForkPlan_branch in H as (tip & t & dest & kept & _ & _ & Hf & -> & -> & _); [| done].
    by eapply kept_closed.
Qed.

(** *** Sources *)

(** A log seen at a commit boundary of its open session, or a closed file. *)
Inductive fork_source : list (list CommittedWrite) -> JsonlForkInput -> State -> Prop :=
| source_open txs later s :
    replay new_state txs = Ok s ->
    match later with [] => True | [] :: _ => False | (w :: _) :: _ => nextSeq s <= write_seq w end ->
    fork_source (txs ++ later) (InputOpen (nextSeq s)) s
| source_closed txs header s :
    openV4 header txs = Ok s -> fork_source txs (InputClosed header) s.

Lemma tracks_raise ws s i n : nextSeq s <= n -> tracks ws s i -> tracks ws (set_nextSeq s n) i.
Proof.
  intros Hn [T1 T2 T3 T4 T5 T6 T7 T8 T9 T10 T11 T12 T13]. split; try done; [by apply set_nextSeq_ok |].
  eapply Forall_impl; [exact T4 |]. cbn. lia.
Qed.

Lemma mjoin_cons_app {A} (l : list A) ls : mjoin (l :: ls) = l ++ mjoin ls.
Proof. done. Qed.

Lemma read_before txs later n :
  Forall (fun w => write_seq w < n) (mjoin txs) ->
  match later with [] => True | [] :: _ => False | (w :: _) :: _ => n <= write_seq w end ->
  readJsonlForkTransactions (txs ++ later) (Some n) = Ok txs.
Proof.
  intros Hb Hl. induction txs as [| tx txs IH].
  - destruct later as [| [| w ws] later]; [done | done |]. cbn. unfold reachesForkBoundary. cbn [head].
    assert (Hlast : exists w', list.last (w :: ws) = Some w') by (destruct (list.last (w :: ws)) eqn:E; [eauto | by apply list.last_None in E]).
    destruct Hlast as [w' ->]. by replace (n <=? write_seq w) with true by lia.
  - rewrite mjoin_cons_app, Forall_app in Hb. destruct Hb as [Htx Hb]. cbn [app readJsonlForkTransactions].
    assert (Hr : reachesForkBoundary tx (Some n) = Ok false).
    { unfold reachesForkBoundary. destruct (head tx) as [f |] eqn:Ef; [| done]. destruct (list.last tx) as [l |] eqn:El; [| done].
      rewrite Forall_forall in Htx. apply head_Some_elem_of, Htx in Ef. apply last_Some_elem_of, Htx in El. cbn in *.
      replace (n <=? write_seq f) with false by lia. by replace (n <=? write_seq l) with false by lia. }
    rewrite Hr. cbn [mbind result_bind]. by rewrite (IH Hb).
Qed.

Lemma read_all txs : readJsonlForkTransactions txs None = Ok txs.
Proof. induction txs as [| tx txs IH]; [done |]. cbn. unfold reachesForkBoundary. by rewrite IH. Qed.

Lemma applied_next s ws s' : applied s ws s' -> nextSeq s' = match list.last ws with Some w => write_seq w + 1 | None => nextSeq s end.
Proof.
  induction 1 as [s | s w s1 ws s' Hw Ha _ IH]; [done |]. apply apply_write_effect in Ha as [Hn _].
  rewrite IH, last_cons. by destruct (list.last ws).
Qed.

Lemma highest_end txs : highestCompleteSeq txs + 1 = end_seq (mjoin txs).
Proof.
  unfold highestCompleteSeq, end_seq. induction txs as [| tx txs IH] using rev_ind; [done |].
  rewrite fold_left_app. cbn [fold_left]. rewrite join_app. cbn. rewrite app_nil_r, last_app.
  destruct (list.last tx); [done |]. exact IH.
Qed.

(** What the fork reads of its source. *)
Lemma source_tracks log input s :
  fork_source log input s ->
  exists txs, let ws := mjoin txs in
    tracks ws s (index_log ws) /\
    readJsonlForkTransactions log (match input with InputOpen n => Some n | InputClosed _ => None end) = Ok txs /\
    match input with InputOpen n => n | InputClosed h => Z.max (default 1 h) (highestCompleteSeq txs + 1) end = nextSeq s /\
    readJsonlForkTransactions log (Some (nextSeq s)) = Ok txs.
Proof.
  assert (Hbelow : forall ws s i, tracks ws s i -> Forall (fun w => write_seq w < nextSeq s) ws).
  { intros ws s0 i T. eapply Forall_impl; [exact (tr_range _ _ _ T) |]. cbn. lia. }
  intros [txs later s0 Hr Hl | txs h s0 Ho].
  - exists txs. cbn zeta. pose proof (log_tracks txs s0 Hr) as T. pose proof (Hbelow _ _ _ T) as Hb.
    split; [done |]. rewrite (read_before txs later (nextSeq s0) Hb Hl). done.
  - exists txs. cbn zeta. unfold openV4 in Ho. apply bind_Ok in Ho as (s1 & Hr & Ho). pose proof (log_tracks txs s1 Hr) as T.
    pose proof Hr as Hn. apply replay_applied, applied_next in Hn; [| apply new_state_ok].
    change (nextSeq s1 = end_seq (mjoin txs)) in Hn. rewrite <- highest_end in Hn.
    assert (Hs : s0 = set_nextSeq s1 (Z.max (default 1 h) (highestCompleteSeq txs + 1))).
    { destruct h as [n |]; cbn.
      - unfold advanceNextSeq in Ho. inv_ok. rewrite Hn. f_equal. lia.
      - injection Ho as <-. pose proof (ok_next s1 (tr_ok _ _ _ T)). rewrite Z.max_r by lia. rewrite <- Hn. by destruct s1. }
    assert (T0 : tracks (mjoin txs) s0 (index_log (mjoin txs))).
    { rewrite Hs. apply tracks_raise; [lia | done]. }
    split; [done |]. split; [apply read_all |]. split; [by rewrite Hs |].
    pose proof (read_before txs [] (nextSeq s0) (Hbelow _ _ _ T0) I) as H. by rewrite app_nil_r in H.
Qed.

(** *** The fork of a log is the fork of its state *)

(** Two states that answer every query by id, address and sequence alike. *)
Record same_state (d1 d2 : State) : Prop := {
  ss_entries : entries d1 = entries d2;
  ss_bySeq : entriesBySeq d1 = entriesBySeq d2;
  ss_scalars : forall k, map_get (scalarValues d1) k = map_get (scalarValues d2) k;
  ss_lists : forall k, list_at (listValues d1) k = list_at (listValues d2) k;
  ss_usage : usage d1 = usage d2;
  ss_stats : stats d1 = stats d2;
  ss_next : nextSeq d1 = nextSeq d2;
}.

Lemma entries_of_log s1 s2 : state_ok s1 -> state_ok s2 -> entriesBySeq s1 = entriesBySeq s2 -> entries s1 = entries s2.
Proof.
  intros H1 H2 E. apply map_eq. intros x. apply option_eq. intros e.
  assert (H : forall s s', state_ok s -> state_ok s' -> entriesBySeq s = entriesBySeq s' -> entries s !! x = Some e -> entries s' !! x = Some e).
  { intros s s' Hs Hs' Es He. destruct (listed s x e Hs He) as [Hin <-]. rewrite Es in Hin.
    pose proof (ok_listed s' Hs') as Hl. rewrite Forall_forall in Hl. by apply Hl. }
  split; apply H; done.
Qed.

Lemma kept_end ws s i plan copied :
  tracks ws s i -> end_seq (omap (kept_write i plan copied) ws) <= nextSeq s.
Proof.
  intros T. unfold end_seq. destruct (list.last _) as [w' |] eqn:E; [| apply (ok_next s (tr_ok _ _ _ T))].
  apply last_Some_elem_of, list_elem_of_omap in E as (w & Hw & Hk).
  pose proof (tr_addresses _ _ _ T) as Ha. rewrite Forall_forall in Ha.
  apply kept_write_shape in Hk as (-> & _); [| by apply Ha].
  pose proof (tr_range _ _ _ T) as Hr. unfold in_range in Hr. rewrite Forall_forall in Hr. specialize (Hr w Hw). cbn in Hr. lia.
Qed.

(** The published writes replay to the destination of the in-memory fork. *)
Lemma published_destination ws s i plan copied d :
  tracks ws s i -> parent_closed s copied -> destination s plan copied d -> nextSeq s <= MAX_SAFE_INTEGER ->
  exists d', openV4 (Some (nextSeq s)) ((fun w => [w]) <$> omap (kept_write i plan copied) ws) = Ok d' /\ same_state d d'.
Proof.
  intros T Hclosed D Hmax. set (P := omap (kept_write i plan copied) ws).
  destruct (publish P (projected_publishable ws s i plan copied T Hclosed)) as [d0 Hp].
  pose proof (kept_end ws s i plan copied T) as Hend. fold P in Hend.
  assert (Hent : entriesBySeq d = entriesBySeq d0).
  { rewrite (pd_entries _ _ Hp), (dst_bySeq _ _ _ _ D). unfold P. by rewrite projected_entries, (tr_entries _ _ _ T). }
  exists (set_nextSeq d0 (nextSeq s)). split.
  - unfold openV4. rewrite (applied_replay new_state P d0 (pd_applied _ _ Hp)). cbn [mbind result_bind].
    unfold advanceNextSeq. pose proof (ok_next s (tr_ok _ _ _ T)).
    replace ((1 <=? nextSeq s) && (nextSeq s <=? MAX_SAFE_INTEGER)) with true by lia. cbn.
    do 2 f_equal. rewrite (pd_next _ _ Hp). lia.
  - split; cbn; try done.
    + apply entries_of_log; [by eapply destination_ok; [apply T | |] | apply Hp | done].
    + intros k. rewrite (dst_scalars _ _ _ _ D), (pd_scalars _ _ Hp). unfold P. by rewrite (projected_sets ws s).
    + intros k. rewrite (dst_lists _ _ _ _ D), (pd_lists _ _ Hp). unfold P. by rewrite (projected_lists ws s).
    + by rewrite (dst_usage _ _ _ _ D), (pd_usage _ _ Hp).
    + by rewrite (dst_stats _ _ _ _ D), (pd_stats _ _ Hp), Hent, (pd_entries _ _ Hp).
    + apply (dst_next _ _ _ _ D).
Qed.

(** C9. Both storages fork alike: for every log, seen at a commit boundary of its
    open session (whatever is appended later) or read from a closed file, and
    every fork request, streaming the log twice through the index publishes
    exactly when the in-memory fork of the state the log replays to succeeds,
    and the published file passes the validation of a reopen and gives the
    same entries, values, list elements, totals and next sequence. *)
Theorem jsonl_fork_agrees log input s options :
  fork_source log input s -> nextSeq s <= MAX_SAFE_INTEGER ->
  match createFork s options with
  | Ok d => exists ws d',
      runJsonlFork log input options = Ok (nextSeq s, ws) /\
      openV4 (Some (nextSeq s)) ((fun w => [w]) <$> ws) = Ok d' /\ same_state d d'
  | Err _ => is_ok (runJsonlFork log input options) = false
  end.
Proof.
  intros Hsrc Hmax. destruct (source_tracks log input s Hsrc) as (txs & T & Hr1 & Hnext & Hr2).
  pose proof (tr_ok _ _ _ T) as Hok. pose proof (createFork_spec s options Hok) as Hspec.
  pose proof (selection_agrees _ s _ options T) as Hsel.
  unfold runJsonlFork, indexForkInput. rewrite Hr1. cbn [mbind result_bind]. rewrite Hnext.
  destruct (selectForkPlan s options) as [[plan sel] | e] eqn:Eplan.
  2:{ rewrite Hspec. by apply is_ok_bind_false. }
  cbn zeta in Hspec. rewrite Hsel. cbn [mbind result_bind]. rewrite Hr2. cbn [mbind result_bind].
  set (copied := isEntryCopied plan sel) in *. rewrite traverse_omap, (projects_agree _ s _ plan copied T).
  destruct (all_project s plan copied) eqn:Eall.
  - destruct Hspec as (d & -> & D). cbn [mbind result_bind]. rewrite omap_map_id.
    destruct (published_destination _ s _ plan copied d T (selection_closed s options plan sel Hok Eplan) D Hmax) as (d' & Ho & Hs).
    eexists _, d'. split; [done |]. split; [exact Ho | exact Hs].
  - destruct (createFork s options); [done |]. apply is_ok_bind_false, traverse_not_ok. by rewrite (projects_agree _ s _ plan copied T).
Qed.

Definition sample_log : list (list CommittedWrite) :=
  [(prepareStorageCommit [sample_entry $"a" None; sample_entry $"b" (Some $"a"); WValueSet $"pi.branch.tip" $"main" (JsStr $"a");
      WValueSet $"pi.lane.config" $"main" JsNull; WValueSet $"pi.lane.state" $"main" JsNull] 1 5).1;
   (prepareStorageCommit [WValueSet $"pi.branch.tip" $"main" (JsStr $"b"); WListAppend $"app" $"l" JsNull;
      WListDelete $"app" $"l"; WListAppend $"app" $"l" (JsBool true)] 6 6).1].

Lemma jsonl_fork_agrees_witness :
  exists s d ws d', replay new_state sample_log = Ok s /\
    createFork s (ForkBranch $"main" None true) = Ok d /\
    runJsonlFork (sample_log ++ [(prepareStorageCommit [sample_entry $"c" (Some $"b")] 10 7).1]) (InputOpen 10)
      (ForkBranch $"main" None true) = Ok (10, ws) /\
    openV4 (Some 10) ((fun w => [w]) <$> ws) = Ok d' /\ same_state d d'.
Proof.
  destruct (replay new_state sample_log) as [s | e] eqn:E; [| by vm_compute in E].
  destruct (createFork s (ForkBranch $"main" None true)) as [d | e] eqn:Ed;
    [| vm_compute in E; injection E as <-; by vm_compute in Ed].
  assert (Hn : nextSeq s = 10) by (pose proof E as E'; vm_compute in E'; injection E' as <-; reflexivity).
  pose proof (jsonl_fork_agrees (sample_log ++ [(prepareStorageCommit [sample_entry $"c" (Some $"b")] 10 7).1])
    (InputOpen (nextSeq s)) s (ForkBranch $"main" None true)) as H.
  rewrite Ed, Hn in H. destruct H as (ws & d' & H).
  - rewrite <- Hn. apply source_open; [exact E |]. rewrite Hn. by vm_compute.
  - by vm_compute.
  - exists s, d, ws, d'. split; [done |]. split; [done |]. exact H.
Defined.
