(* ===== verification/DeltaOps.v ===== *)
(** * Delta operations and their validators (packages/chord/src/delta/index.ts)

The seven operation tuples, the wire grammar that adds path ids and shortened
tuples, and the validators both appliers and the decoder run on untrusted
values: path safety, arity and payload shape.  A validator that accepts a tuple
also yields its typed reading, which is what the code goes on to use.  The
validators only inspect strings, numbers and arrays, so they are written
against [view], one way of looking at a value: the tree of a JSON document has
one, and so has a reference into the heap of the applier. *)
From S2P Require Import Prelude JsNumber JsObject Json.
#[local] Open Scope Z_scope.

(** ** Segments and operations *)

(** A path segment: a string or a number (after validation a natural one). *)
Inductive Seg := SStr (s : jstring) | SNum (n : Z).

#[export] Instance Seg_eq_dec : EqDecision Seg.
Proof. solve_decision. Defined.

#[export] Instance Seg_countable : Countable Seg.
Proof.
  refine (inj_countable' (fun s => match s with SStr k => inl k | SNum n => inr n end)
                         (fun x => match x with inl k => SStr k | inr n => SNum n end) _).
  by intros [].
Defined.

Notation Path := (list Seg).

Inductive Op (V : Type) :=
| OpR (value : V)
| OpS (path : Path) (value : V)
| OpD (path : Path)
| OpA (path : Path) (text : jstring)
| OpT (path : Path) (count : Z)
| OpP (path : Path) (index remove : Z) (items : list V)
| OpM (path : Path) (permutation : list Z).
Arguments OpR {V} _.
Arguments OpS {V} _ _.
Arguments OpD {V} _.
Arguments OpA {V} _ _.
Arguments OpT {V} _ _.
Arguments OpP {V} _ _ _ _.
Arguments OpM {V} _ _.

(** Where a wire operation finds its path: inline, by id, or in the operation
    before it (the shortened tuples). *)
Inductive PathRef := RInline (path : Path) | RId (id : Z) | RPrevious.

Inductive WireOp (V : Type) :=
| WR (value : V)
| WS (ref : PathRef) (value : V)
| WD (ref : PathRef)
| WA (ref : PathRef) (text : jstring)
| WT (ref : PathRef) (count : Z)
| WP (ref : PathRef) (index remove : Z) (items : list V)
| WM (ref : PathRef) (permutation : list Z)
| WDefine (id : Z) (path : Path).
Arguments WR {V} _.
Arguments WS {V} _ _.
Arguments WD {V} _.
Arguments WA {V} _ _.
Arguments WT {V} _ _.
Arguments WP {V} _ _ _ _.
Arguments WM {V} _ _.
Arguments WDefine {V} _ _.

(** [PathError] and [UnsafePathError] by class, a [TypeError] with its message. *)
Inductive DeltaError := TypeError (message : jstring) | UnsafePathError | PathError.

#[export] Instance DeltaError_eq_dec : EqDecision DeltaError.
Proof. solve_decision. Defined.

Definition isReplace {V} (op : Op V) : bool := match op with OpR _ => true | _ => false end.

Definition isBase {V} (ops : list (Op V)) : bool :=
  match ops with op :: _ => isReplace op | [] => false end.

Definition RESERVED_SEGMENTS : list jstring := [$"__proto__"; $"constructor"; $"prototype"].

(** What the validators can tell about a value. *)
Inductive shape (V : Type) := ShString (s : jstring) | ShNumber (n : num) | ShArray (items : list V) | ShOther.
Arguments ShString {V} _.
Arguments ShNumber {V} _.
Arguments ShArray {V} _.
Arguments ShOther {V}.

Definition json_view (j : json) : shape json :=
  match j with
  | JsStr s => ShString s
  | JsNum n => ShNumber n
  | JsArr l => ShArray l
  | _ => ShOther
  end.

(** ** Validators *)

Section Validators.
Context {V : Type} (view : V -> shape V).

(** [Number.isInteger(v) && v >= 0] *)
Definition natural (v : V) : option Z :=
  match view v with
  | ShNumber n => if is_integer n && (0 <=? to_Z n) then Some (to_Z n) else None
  | _ => None
  end.

Definition safe_segment (seg : V) : result DeltaError Seg :=
  match view seg with
  | ShString s => if bool_decide (s ∈ RESERVED_SEGMENTS) then Err UnsafePathError else Ok (SStr s)
  | _ => match natural seg with Some n => Ok (SNum n) | None => Err UnsafePathError end
  end.

Definition assertSafePath (path : list V) : result DeltaError Path := traverse safe_segment path.

Definition assertPathArg (p : V) (nonEmpty : bool) : result DeltaError Path :=
  match view p with
  | ShArray l =>
      if nonEmpty && bool_decide (length l = 0%nat) then Err (TypeError $"path is empty") else assertSafePath l
  | _ => Err (TypeError $"path is not an array")
  end.

(** One round of the loop: the indices read so far, in order. *)
Definition permutation_index (len : Z) (seen : list Z) (v : V) : result DeltaError (list Z) :=
  match natural v with
  | Some i =>
      if (i <? len) && negb (bool_decide (i ∈ seen)) then Ok (seen ++ [i])
      else Err (TypeError $"m permutation is not a bijection")
  | None => Err (TypeError $"m permutation is not a bijection")
  end.

Definition assertPermutation (value : V) : result DeltaError (list Z) :=
  match view value with
  | ShArray l => foldM (permutation_index (blen l)) [] l
  | _ => Err (TypeError $"m permutation is not an array")
  end.

Definition need {A} (o : option A) (message : jstring) : result DeltaError A :=
  match o with Some a => Ok a | None => Err (TypeError message) end.

Definition string_of (v : V) : option jstring := match view v with ShString s => Some s | _ => None end.

Definition array_of (v : V) : option (list V) := match view v with ShArray l => Some l | _ => None end.

Definition verb_of (op : V) : option (jstring * list V) :=
  match view op with
  | ShArray (v :: rest) => match view v with ShString s => Some (s, rest) | _ => None end
  | _ => None
  end.

Definition is_tuple (op : V) : bool := match view op with ShArray (_ :: _) => true | _ => false end.

Definition valid_splice (path : Path) (i r items : V) : result DeltaError (Op V) :=
  need (natural i) $"p index" ≫= fun i =>
  need (natural r) $"p remove" ≫= fun r =>
  need (array_of items) $"p items" ≫= fun items => Ok (OpP path i r items).

Definition assertValidOp (op : V) : result DeltaError (Op V) :=
  if negb (is_tuple op) then Err (TypeError $"op is not a tuple") else
  match verb_of op with
  | None => Err (TypeError $"unknown op verb")
  | Some (verb, args) =>
      if bool_decide (verb = $"r") then
        match args with [value] => Ok (OpR value) | _ => Err (TypeError $"r arity") end
      else if bool_decide (verb = $"s") then
        match args with
        | [p; value] => assertPathArg p true ≫= fun path => Ok (OpS path value)
        | _ => Err (TypeError $"s arity")
        end
      else if bool_decide (verb = $"d") then
        match args with
        | [p] => assertPathArg p true ≫= fun path => Ok (OpD path)
        | _ => Err (TypeError $"d arity")
        end
      else if bool_decide (verb = $"a") then
        match args with
        | [p; t] =>
            need (string_of t) $"a shape" ≫= fun text =>
            assertPathArg p true ≫= fun path => Ok (OpA path text)
        | _ => Err (TypeError $"a shape")
        end
      else if bool_decide (verb = $"t") then
        match args with
        | [p; c] =>
            need (natural c) $"t shape" ≫= fun count =>
            assertPathArg p true ≫= fun path => Ok (OpT path count)
        | _ => Err (TypeError $"t shape")
        end
      else if bool_decide (verb = $"p") then
        match args with
        | [p; i; r; items] => assertPathArg p false ≫= fun path => valid_splice path i r items
        | _ => Err (TypeError $"p arity")
        end
      else if bool_decide (verb = $"m") then
        match args with
        | [p; perm] =>
            assertPathArg p false ≫= fun path =>
            assertPermutation perm ≫= fun perm => Ok (OpM path perm)
        | _ => Err (TypeError $"m arity")
        end
      else Err (TypeError $"unknown op verb")
  end.

(** [okRef] *)
Definition okRef (r : V) : result DeltaError PathRef :=
  match view r with
  | ShNumber _ => RId <$> need (natural r) $"bad path id"
  | ShArray l => RInline <$> assertSafePath l
  | _ => Err (TypeError $"path is not an array")
  end.

Definition wire_splice (i r items : V) (ref : result DeltaError PathRef) : result DeltaError (WireOp V) :=
  ref ≫= fun ref =>
  need (natural i) $"p index" ≫= fun i =>
  need (natural r) $"p remove" ≫= fun r =>
  need (array_of items) $"p items" ≫= fun items => Ok (WP ref i r items).

Definition assertValidWireOp (op : V) : result DeltaError (WireOp V) :=
  if negb (is_tuple op) then Err (TypeError $"op is not a tuple") else
  match verb_of op with
  | None => Err (TypeError $"unknown op verb")
  | Some (verb, args) =>
      if bool_decide (verb = $"r") then
        match args with [value] => Ok (WR value) | _ => Err (TypeError $"r arity") end
      else if bool_decide (verb = $"s") then
        match args with
        | [p; value] => okRef p ≫= fun ref => Ok (WS ref value)
        | [value] => Ok (WS RPrevious value)
        | _ => Err (TypeError $"s arity")
        end
      else if bool_decide (verb = $"d") then
        match args with
        | [p] => okRef p ≫= fun ref => Ok (WD ref)
        | [] => Ok (WD RPrevious)
        | _ => Err (TypeError $"d arity")
        end
      else if bool_decide (verb = $"a") then
        match args with
        | [p; t] => okRef p ≫= fun ref => need (string_of t) $"a value" ≫= fun text => Ok (WA ref text)
        | [t] => need (string_of t) $"a value" ≫= fun text => Ok (WA RPrevious text)
        | _ => Err (TypeError $"a arity")
        end
      else if bool_decide (verb = $"t") then
        match args with
        | [p; c] => okRef p ≫= fun ref => need (natural c) $"t count" ≫= fun count => Ok (WT ref count)
        | [c] => need (natural c) $"t count" ≫= fun count => Ok (WT RPrevious count)
        | _ => Err (TypeError $"t arity")
        end
      else if bool_decide (verb = $"p") then
        match args with
        | [p; i; r; items] => wire_splice i r items (okRef p)
        | [i; r; items] => wire_splice i r items (Ok RPrevious)
        | _ => Err (TypeError $"p arity")
        end
      else if bool_decide (verb = $"m") then
        match args with
        | [p; perm] => okRef p ≫= fun ref => assertPermutation perm ≫= fun perm => Ok (WM ref perm)
        | [perm] => assertPermutation perm ≫= fun perm => Ok (WM RPrevious perm)
        | _ => Err (TypeError $"m arity")
        end
      else if bool_decide (verb = $"#") then
        match args with
        | [id; p] =>
            need (natural id) $"# shape" ≫= fun id =>
            need (array_of p) $"# shape" ≫= fun path =>
            assertSafePath path ≫= fun path => Ok (WDefine id path)
        | _ => Err (TypeError $"# shape")
        end
      else Err (TypeError $"unknown op verb")
  end.
End Validators.

(** ** Well-formed operations *)

Definition seg_ok (s : Seg) : Prop := match s with SStr k => k ∉ RESERVED_SEGMENTS | SNum n => 0 <= n end.

#[export] Instance seg_ok_dec s : Decision (seg_ok s).
Proof. destruct s; apply _. Defined.

Definition path_ok (p : Path) : Prop := Forall seg_ok p.

(** A bijection of the indices [0 .. n - 1]. *)
Definition bijection (perm : list Z) : Prop := perm ≡ₚ seqZ 0 (blen perm).

Definition op_ok {V} (op : Op V) : Prop :=
  match op with
  | OpR _ => True
  | OpS p _ | OpD p | OpA p _ => path_ok p /\ p <> []
  | OpT p n => path_ok p /\ p <> [] /\ 0 <= n
  | OpP p i r _ => path_ok p /\ 0 <= i /\ 0 <= r
  | OpM p perm => path_ok p /\ bijection perm
  end.

(** Below the limit up to which every integer is a number of the language. *)
Definition small (z : Z) : Prop := z < 2 ^ 53.

Definition seg_small (s : Seg) : Prop := match s with SStr _ => True | SNum n => small n end.

Definition op_small {V} (op : Op V) : Prop :=
  match op with
  | OpR _ => True
  | OpS p _ | OpD p | OpA p _ => Forall seg_small p
  | OpT p n => Forall seg_small p /\ small n
  | OpP p i r _ => Forall seg_small p /\ small i /\ small r
  | OpM p perm => Forall seg_small p /\ small (blen perm)
  end.

(** ** The tuples *)

Definition number_json (z : Z) : json := JsNum (of_Z z).

Definition seg_json (s : Seg) : json := match s with SStr k => JsStr k | SNum n => number_json n end.

Definition path_json (p : Path) : json := JsArr (seg_json <$> p).

Definition op_json (op : Op json) : json :=
  JsArr match op with
  | OpR v => [JsStr $"r"; v]
  | OpS p v => [JsStr $"s"; path_json p; v]
  | OpD p => [JsStr $"d"; path_json p]
  | OpA p t => [JsStr $"a"; path_json p; JsStr t]
  | OpT p n => [JsStr $"t"; path_json p; number_json n]
  | OpP p i r items => [JsStr $"p"; path_json p; number_json i; number_json r; JsArr items]
  | OpM p perm => [JsStr $"m"; path_json p; JsArr (number_json <$> perm)]
  end.

(** ** Validators accept exactly the well-formed operations *)

Lemma natural_nonneg {V} (view : V -> shape V) v n : natural view v = Some n -> 0 <= n.
Proof. unfold natural. destruct (view v); try done. destruct (_ && _) eqn:E; [|done]. intros [= <-]. lia. Qed.

Lemma natural_json n : 0 <= n -> small n -> natural json_view (number_json n) = Some n.
Proof.
  unfold small. intros H H'. unfold natural, number_json, json_view.
  destruct (to_Z_of_Z n) as (_ & -> & ->); [lia|]. by rewrite (proj2 (Z.leb_le 0 n)) by lia.
Qed.

Lemma need_Ok {A} (o : option A) m a : need o m = Ok a <-> o = Some a.
Proof. destruct o; cbn; split; congruence. Qed.

Lemma assertSafePath_ok {V} (view : V -> shape V) l p : assertSafePath view l = Ok p -> path_ok p.
Proof.
  unfold assertSafePath, path_ok. rewrite traverse_Ok. induction 1 as [|v s l p Hs _ IH]; constructor; [|done].
  unfold safe_segment in Hs.
  destruct (view v); [case_bool_decide; [done|]; by injection Hs as <-|..];
    (destruct (natural view v) eqn:E; [|done]); injection Hs as <-; by eapply natural_nonneg.
Qed.

Lemma assertSafePath_json p : path_ok p -> Forall seg_small p -> assertSafePath json_view (seg_json <$> p) = Ok p.
Proof.
  intros Hok Hsm. unfold assertSafePath. apply traverse_Ok, Forall2_fmap_l.
  induction Hok as [|s p Hs _ IH]; inversion Hsm as [|? ? Hm Hsm']; subst; constructor; [|by apply IH].
  unfold compose. destruct s as [k|n]; cbn [seg_json]; unfold safe_segment.
  - cbn. by rewrite bool_decide_eq_false_2.
  - by rewrite natural_json.
Qed.

Lemma assertPathArg_ok {V} (view : V -> shape V) v ne p :
  assertPathArg view v ne = Ok p -> path_ok p /\ (ne = true -> p <> []).
Proof.
  unfold assertPathArg. destruct (view v) as [| |l|]; try done. case_match eqn:E; [done|].
  intros H. split; [by eapply assertSafePath_ok|]. intros -> ->. destruct l as [|x l]; [done|].
  unfold assertSafePath in H. cbn in H. destruct (safe_segment view x); [cbn in H|done].
  destruct (traverse (safe_segment view) l); done.
Qed.

Lemma assertPathArg_json p ne :
  path_ok p -> Forall seg_small p -> (ne = true -> p <> []) -> assertPathArg json_view (path_json p) ne = Ok p.
Proof.
  intros H Hs Hne. unfold assertPathArg. cbn. rewrite length_fmap, assertSafePath_json by done.
  destruct ne; [|done]. destruct p; [by destruct Hne|done].
Qed.

Lemma permutation_loop {V} (view : V -> shape V) len l seen perm :
  foldM (permutation_index view len) seen l = Ok perm ->
  NoDup seen -> Forall (fun i => 0 <= i < len) seen ->
  NoDup perm /\ Forall (fun i => 0 <= i < len) perm /\ blen perm = blen seen + blen l.
Proof.
  revert seen. induction l as [|v l IH]; intros seen; cbn.
  - intros [= <-] Hnd Hr. rewrite (blen_nil (A := V)). split_and!; [done..|lia].
  - intros (seen' & H & Hrest)%bind_Ok Hnd Hr. unfold permutation_index in H.
    destruct (natural view v) as [i|] eqn:Hn; [|done]. apply natural_nonneg in Hn.
    destruct (_ && _) eqn:E; [|done]. injection H as <-.
    apply andb_true_iff in E as [E1 E2]. apply negb_true_iff, bool_decide_eq_false in E2.
    edestruct (IH (seen ++ [i])) as (? & ? & Hl); [done| | |].
    + apply NoDup_app. split; [done|]. split; [|apply NoDup_singleton]. set_solver.
    + apply Forall_app. split; [done|]. constructor; [lia|constructor].
    + split_and!; [done..|]. blen_lia.
Qed.

Lemma seqZ_length n : 0 <= n -> blen (seqZ 0 n) = n.
Proof. intros. unfold blen. rewrite length_seqZ. lia. Qed.

(** Distinct and in range, as many as the range: all of it. *)
Lemma bijection_intro perm : NoDup perm -> Forall (fun i => 0 <= i < blen perm) perm -> bijection perm.
Proof.
  intros Hnd Hr. unfold bijection. apply submseteq_length_Permutation.
  - apply NoDup_submseteq; [done|]. intros x Hx. rewrite Forall_forall in Hr. apply elem_of_seqZ. apply Hr in Hx. lia.
  - rewrite length_seqZ. unfold blen. lia.
Qed.

Lemma bijection_elim perm : bijection perm -> NoDup perm /\ Forall (fun i => 0 <= i < blen perm) perm.
Proof.
  unfold bijection. intros H. split.
  - rewrite H. apply NoDup_seqZ.
  - apply Forall_forall. intros x Hx. rewrite H in Hx. apply elem_of_seqZ in Hx. lia.
Qed.

Lemma assertPermutation_ok {V} (view : V -> shape V) v perm : assertPermutation view v = Ok perm -> bijection perm.
Proof.
  unfold assertPermutation. destruct (view v) as [| |l|]; try done. intros H.
  apply permutation_loop in H as (Hnd & Hr & Hl); [|constructor..].
  rewrite (blen_nil (A := Z)) in Hl. apply bijection_intro; [done|]. by rewrite Hl.
Qed.

Lemma permutation_loop_json len l seen :
  Forall (fun i => 0 <= i < len) l -> small len -> NoDup (seen ++ l) ->
  foldM (permutation_index json_view len) seen (number_json <$> l) = Ok (seen ++ l).
Proof.
  intros Hr Hs. revert seen. induction Hr as [|i l Hi _ IH]; intros seen Hnd; cbn; [by rewrite app_nil_r|].
  assert (i ∉ seen) as Hin.
  { apply NoDup_app in Hnd as (_ & Hd & _). intros Hx. apply (Hd i Hx). left. }
  assert (permutation_index json_view len seen (number_json i) = Ok (seen ++ [i])) as ->.
  { unfold permutation_index. rewrite natural_json by (unfold small in *; lia).
    by rewrite (proj2 (Z.ltb_lt i len)), bool_decide_eq_false_2 by (done || lia). }
  cbn. rewrite IH by (by rewrite <- app_assoc). by rewrite <- app_assoc.
Qed.

Lemma assertPermutation_json perm :
  bijection perm -> small (blen perm) -> assertPermutation json_view (JsArr (number_json <$> perm)) = Ok perm.
Proof.
  intros [Hnd Hr]%bijection_elim Hs. unfold assertPermutation. cbn.
  replace (blen (number_json <$> perm)) with (blen perm) by (unfold blen; by rewrite length_fmap).
  by apply (permutation_loop_json _ _ []).
Qed.

(** Split a validated tuple along the validator's branches. *)
Ltac split_tuple H :=
  repeat match type of H with
  | (if bool_decide ?P then _ else _) = _ => case_bool_decide
  | match ?l with [] => _ | _ :: _ => _ end = _ => destruct l as [|? l]; try discriminate H
  end.

(** Evaluate the comparisons of a known verb. *)
Ltac decide_verbs :=
  repeat match goal with
  | |- context [bool_decide (js ?a = js ?b)] =>
      let r := eval vm_compute in (bool_decide (js a = js b)) in change (bool_decide (js a = js b)) with r
  end; cbv iota.

Lemma assertValidOp_ok {V} (view : V -> shape V) raw op : assertValidOp view raw = Ok op -> op_ok op.
Proof.
  unfold assertValidOp. destruct (negb _); [done|]. destruct (verb_of view raw) as [[verb args]|]; [|done].
  intros H. split_tuple H; unfold valid_splice in H; inv_ok; cbn;
    repeat match goal with
    | H : assertPathArg _ _ _ = Ok _ |- _ => apply assertPathArg_ok in H as [? ?]
    | H : assertPermutation _ _ = Ok _ |- _ => apply assertPermutation_ok in H
    | H : need (natural _ _) _ = Ok _ |- _ => apply need_Ok, natural_nonneg in H
    end; auto.
Qed.

Lemma assertValidOp_json op : op_ok op -> op_small op -> assertValidOp json_view (op_json op) = Ok op.
Proof.
  intros Hok Hs.
  destruct op; cbn [op_ok op_small] in *; destruct_and?;
    unfold assertValidOp, op_json; cbn [is_tuple verb_of json_view negb];
    decide_verbs; unfold valid_splice, array_of, string_of; cbn [json_view need];
    rewrite ?assertPathArg_json by done;
    rewrite ?natural_json by done;
    rewrite ?assertPermutation_json by done; done.
Qed.

(** ** What a tuple says

The operation a value spells out, part by part, whether or not it is well formed. *)

Section Reads.
Context {V : Type} (view : V -> shape V).

Definition num_reads (v : V) (n : Z) : Prop := exists f, view v = ShNumber f /\ is_integer f = true /\ to_Z f = n.

Definition seg_reads (v : V) (s : Seg) : Prop := match s with SStr k => view v = ShString k | SNum n => num_reads v n end.

Definition list_reads {A} (reads : V -> A -> Prop) (v : V) (l : list A) : Prop := exists items, view v = ShArray items /\ Forall2 reads items l.

Definition path_reads : V -> Path -> Prop := list_reads seg_reads.

(** [raw] is an array of the verb and what [args] asks of the rest. *)
Definition tuple_reads (raw : V) (verb : jstring) (args : list V -> Prop) : Prop :=
  exists head rest, view raw = ShArray (head :: rest) /\ view head = ShString verb /\ args rest.

Definition op_reads (raw : V) (op : Op V) : Prop :=
  match op with
  | OpR v => tuple_reads raw $"r" (fun args => args = [v])
  | OpS p v => tuple_reads raw $"s" (fun args => exists pv, args = [pv; v] /\ path_reads pv p)
  | OpD p => tuple_reads raw $"d" (fun args => exists pv, args = [pv] /\ path_reads pv p)
  | OpA p t => tuple_reads raw $"a" (fun args => exists pv tv, args = [pv; tv] /\ path_reads pv p /\ view tv = ShString t)
  | OpT p n => tuple_reads raw $"t" (fun args => exists pv nv, args = [pv; nv] /\ path_reads pv p /\ num_reads nv n)
  | OpP p i r items => tuple_reads raw $"p" (fun args => exists pv iv rv lv, args = [pv; iv; rv; lv] /\
      path_reads pv p /\ num_reads iv i /\ num_reads rv r /\ view lv = ShArray items)
  | OpM p perm => tuple_reads raw $"m" (fun args => exists pv lv, args = [pv; lv] /\ path_reads pv p /\ list_reads num_reads lv perm)
  end.

Lemma natural_reads v n : natural view v = Some n <-> num_reads v n /\ 0 <= n.
Proof.
  unfold natural, num_reads. split.
  - destruct (view v) as [|f| |] eqn:E; try done. destruct (_ && _) eqn:B; [|done]. intros [= <-].
    apply andb_true_iff in B as [? ?%Z.leb_le]. eauto.
  - intros [(f & -> & -> & ->) H%Z.leb_le]. cbn. by rewrite H.
Qed.

Lemma safe_segment_reads v s : safe_segment view v = Ok s <-> seg_reads v s /\ seg_ok s.
Proof.
  unfold safe_segment. split.
  - destruct (view v) as [k|f|items|] eqn:E; [case_bool_decide; [done|]; by intros [= <-]|..];
      (destruct (natural view v) as [n|] eqn:Hn; [|done]); intros [= <-]; by apply natural_reads.
  - destruct s as [k|n]; cbn [seg_reads seg_ok].
    + intros [-> H]. by rewrite bool_decide_eq_false_2.
    + intros H. apply natural_reads in H as Hn. destruct H as [(f & -> & _) _]. by rewrite Hn.
Qed.

Lemma assertSafePath_reads l p : assertSafePath view l = Ok p <-> Forall2 seg_reads l p /\ path_ok p.
Proof.
  unfold assertSafePath, path_ok. rewrite traverse_Ok. split.
  - induction 1 as [|v s l p Hs _ [IH1 IH2]]; [done|]. apply safe_segment_reads in Hs as [? ?]. by split; constructor.
  - intros [H Hok]. induction H as [|v s l p Hs _ IH]; constructor; inversion_clear Hok; [by apply safe_segment_reads|by apply IH].
Qed.

Lemma assertPathArg_reads v ne p : assertPathArg view v ne = Ok p <-> path_reads v p /\ path_ok p /\ (ne = true -> p <> []).
Proof.
  unfold assertPathArg, path_reads, list_reads. split.
  - intros H. pose proof (assertPathArg_ok view v ne p H) as [Hok Hne]. split; [|done].
    unfold assertPathArg in H. destruct (view v) as [| |l|]; try done. destruct (_ && _); [done|].
    apply assertSafePath_reads in H as [? _]. eauto.
  - intros ((l & -> & Hl) & Hok & Hne). replace (ne && bool_decide (length l = 0%nat)) with false; [by apply assertSafePath_reads|].
    symmetry. destruct ne; [|done]. apply bool_decide_eq_false. intros E%nil_length_inv. subst l. apply Hne; [done|]. by inversion Hl.
Qed.

Lemma permutation_loop_reads len l seen perm :
  foldM (permutation_index view len) seen l = Ok perm ->
  exists more, perm = seen ++ more /\ Forall2 num_reads l more.
Proof.
  revert seen. induction l as [|v l IH]; intros seen; cbn; [intros [= <-]; exists []; by rewrite app_nil_r|].
  intros (seen' & H & Hrest)%bind_Ok. unfold permutation_index in H. destruct (natural view v) as [i|] eqn:Hn; [|done].
  destruct (_ && _); [|done]. injection H as <-. destruct (IH _ Hrest) as (more & -> & Hm). exists (i :: more).
  split; [by rewrite <- app_assoc|]. constructor; [by apply natural_reads|done].
Qed.

Lemma permutation_loop_accepts len l more seen :
  Forall2 num_reads l more -> Forall (fun i => 0 <= i < len) more -> NoDup (seen ++ more) ->
  foldM (permutation_index view len) seen l = Ok (seen ++ more).
Proof.
  intros H. revert seen. induction H as [|v i l more Hv _ IH]; intros seen Hr Hnd; cbn; [by rewrite app_nil_r|].
  inversion_clear Hr as [|? ? Hi Hr'].
  assert (permutation_index view len seen v = Ok (seen ++ [i])) as ->.
  { unfold permutation_index. rewrite (proj2 (natural_reads v i)) by (split; [done|lia]).
    rewrite (proj2 (Z.ltb_lt i len)), bool_decide_eq_false_2; [done| |lia].
    apply NoDup_app in Hnd as (_ & Hd & _). intros Hx. apply (Hd i Hx). left. }
  cbn. rewrite IH by (done || by rewrite <- app_assoc). by rewrite <- app_assoc.
Qed.

Lemma assertPermutation_reads v perm : assertPermutation view v = Ok perm <-> list_reads num_reads v perm /\ bijection perm.
Proof.
  split.
  - intros H. split; [|by eapply assertPermutation_ok]. unfold assertPermutation in H. destruct (view v) as [| |l|] eqn:E; try done.
    apply permutation_loop_reads in H as (more & -> & Hm). by exists l.
  - intros [(l & El & Hl) [Hnd Hr]%bijection_elim]. unfold assertPermutation. rewrite El.
    replace (blen l) with (blen perm) by (unfold blen; by rewrite (Forall2_length _ _ _ Hl)). by apply (permutation_loop_accepts _ _ _ []).
Qed.

Lemma string_of_reads v t : string_of view v = Some t <-> view v = ShString t.
Proof. unfold string_of. destruct (view v); split; congruence. Qed.

Lemma array_of_reads v l : array_of view v = Some l <-> view v = ShArray l.
Proof. unfold array_of. destruct (view v); split; congruence. Qed.

Lemma verb_of_reads raw verb rest : verb_of view raw = Some (verb, rest) <-> exists head, view raw = ShArray (head :: rest) /\ view head = ShString verb.
Proof.
  unfold verb_of. split.
  - destruct (view raw) as [k|f|[|head l]|]; try done. destruct (view head) as [k|f|items|] eqn:E; try done. intros [= <- <-]. by exists head.
  - by intros (head & -> & ->).
Qed.

Lemma assertValidOp_reads raw op : assertValidOp view raw = Ok op -> op_reads raw op.
Proof.
  unfold assertValidOp. destruct (negb _); [done|]. destruct (verb_of view raw) as [[verb args]|] eqn:E; [|done].
  apply verb_of_reads in E as (head & Eraw & Ehead). intros H. split_tuple H; try discriminate H; subst verb; unfold valid_splice in H; inv_ok;
    repeat match goal with
    | H : assertPathArg _ _ _ = Ok _ |- _ => apply assertPathArg_reads in H as [? _]
    | H : assertPermutation _ _ = Ok _ |- _ => apply assertPermutation_reads in H as [? _]
    | H : need (natural _ _) _ = Ok _ |- _ => apply need_Ok, natural_reads in H as [? _]
    | H : need (string_of _ _) _ = Ok _ |- _ => apply need_Ok, string_of_reads in H
    | H : need (array_of _ _) _ = Ok _ |- _ => apply need_Ok, array_of_reads in H
    end; cbn [op_reads]; unfold tuple_reads; (eexists head, _; split; [exact Eraw|]; split; [exact Ehead|]; eauto 12).
Qed.

Lemma assertValidOp_accepts raw op : op_reads raw op -> op_ok op -> assertValidOp view raw = Ok op.
Proof.
  assert (Htuple : forall verb args, tuple_reads raw verb args -> exists rest, is_tuple view raw = true /\ verb_of view raw = Some (verb, rest) /\ args rest).
  { intros verb args (head & rest & Eraw & Ehead & Hargs). exists rest. split; [by unfold is_tuple; rewrite Eraw|].
    split; [apply verb_of_reads; by exists head|done]. }
  intros Hr Hok. unfold assertValidOp.
  destruct op; cbn [op_reads op_ok] in *; apply Htuple in Hr as (rest & -> & -> & Hargs); cbn [negb]; decide_verbs; destruct_and?; subst;
    repeat match goal with H : exists _, _ |- _ => destruct H | H : _ /\ _ |- _ => destruct H end; subst; unfold valid_splice;
    repeat match goal with
    | H : path_reads ?v ?p |- context [assertPathArg view ?v ?ne] => rewrite (proj2 (assertPathArg_reads v ne p)) by done
    | H : num_reads ?v ?n |- context [natural view ?v] => rewrite (proj2 (natural_reads v n)) by done
    | H : list_reads num_reads ?v ?l |- context [assertPermutation view ?v] => rewrite (proj2 (assertPermutation_reads v l)) by done
    | H : view ?v = ShString ?t |- context [string_of view ?v] => rewrite (proj2 (string_of_reads v t)) by done
    | H : view ?v = ShArray ?l |- context [array_of view ?v] => rewrite (proj2 (array_of_reads v l)) by done
    end; done.
Qed.
End Reads.

(** ** A validator that knows more values accepts what it accepted before *)

Section Mono.
Context {V : Type} (view view' : V -> shape V).
Hypothesis view_mono : forall v, match view v with ShOther => True | s => view' v = s end.

Lemma natural_mono v n : natural view v = Some n -> natural view' v = Some n.
Proof. unfold natural. pose proof (view_mono v) as H. destruct (view v); try done. by rewrite H. Qed.

Lemma string_of_mono v s : string_of view v = Some s -> string_of view' v = Some s.
Proof. unfold string_of. pose proof (view_mono v) as H. destruct (view v); try done. by rewrite H. Qed.

Lemma array_of_mono v l : array_of view v = Some l -> array_of view' v = Some l.
Proof. unfold array_of. pose proof (view_mono v) as H. destruct (view v); try done. by rewrite H. Qed.

Lemma safe_segment_mono v s : safe_segment view v = Ok s -> safe_segment view' v = Ok s.
Proof.
  unfold safe_segment. pose proof (view_mono v) as H. pose proof (natural_mono v) as Hn.
  assert (view v = ShOther -> natural view v = None) as Hno by (unfold natural; by intros ->).
  destruct (view v); try rewrite H; try done; [..|by rewrite Hno];
    (destruct (natural view v) as [k|]; [|done]); by rewrite (Hn k).
Qed.

Lemma assertSafePath_mono l p : assertSafePath view l = Ok p -> assertSafePath view' l = Ok p.
Proof.
  unfold assertSafePath. rewrite !traverse_Ok. intros H. eapply Forall2_impl; [exact H|]. apply safe_segment_mono.
Qed.

Lemma assertPathArg_mono v ne p : assertPathArg view v ne = Ok p -> assertPathArg view' v ne = Ok p.
Proof.
  unfold assertPathArg. pose proof (view_mono v) as H. destruct (view v); try done. rewrite H.
  case_match; [done|]. apply assertSafePath_mono.
Qed.

Lemma permutation_loop_mono len l seen perm :
  foldM (permutation_index view len) seen l = Ok perm -> foldM (permutation_index view' len) seen l = Ok perm.
Proof.
  revert seen. induction l as [|v l IH]; intros seen; cbn; [done|]. intros (seen' & Hs & Hl)%bind_Ok.
  assert (permutation_index view' len seen v = Ok seen') as ->; [|by apply IH].
  unfold permutation_index in *. destruct (natural view v) as [n|] eqn:E; [|done]. by rewrite (natural_mono v n E).
Qed.

Lemma assertPermutation_mono v perm : assertPermutation view v = Ok perm -> assertPermutation view' v = Ok perm.
Proof.
  unfold assertPermutation. pose proof (view_mono v) as H. destruct (view v); try done. rewrite H.
  apply permutation_loop_mono.
Qed.

Lemma assertValidOp_mono raw op : assertValidOp view raw = Ok op -> assertValidOp view' raw = Ok op.
Proof.
  unfold assertValidOp, is_tuple, verb_of. pose proof (view_mono raw) as H. destruct (view raw) as [| |[|v rest]|]; try done.
  rewrite H. cbn [negb]. pose proof (view_mono v) as Hv. destruct (view v) as [verb| | |]; try done. rewrite Hv.
  intros E. split_tuple E; unfold valid_splice in *; inv_ok;
    repeat match goal with
    | H : assertPathArg view _ _ = Ok _ |- _ => apply assertPathArg_mono in H as ->
    | H : assertPermutation view _ = Ok _ |- _ => apply assertPermutation_mono in H as ->
    | H : need (natural view _) _ = Ok _ |- _ => apply need_Ok, natural_mono in H as ->
    | H : need (string_of view _) _ = Ok _ |- _ => apply need_Ok, string_of_mono in H as ->
    | H : need (array_of view _) _ = Ok _ |- _ => apply need_Ok, array_of_mono in H as ->
    end; done.
Qed.
End Mono.

(** ** Theorem *)

(** C10. The validator lets exactly the well-formed operations through.  A value is
    accepted, as an operation, when and only when it is an array that spells out
    this operation, its verb and every part of it and nothing else, and the operation
    is well formed: its path is safe (and not empty where it may not address the
    root), its counts are natural numbers and its reordering is a bijection.  The
    tuple made of such an operation spells it out. *)
Theorem assertValidOp_spec :
  (forall V (view : V -> shape V) raw op, assertValidOp view raw = Ok op <-> op_reads view raw op /\ op_ok op) /\
  (forall op, op_ok op -> op_small op -> op_reads json_view (op_json op) op).
Proof.
  split.
  - intros V view raw op. split; [intros H; split; [by apply assertValidOp_reads|by eapply assertValidOp_ok]|].
    intros [? ?]. by apply assertValidOp_accepts.
  - intros op Hok Hs. by apply assertValidOp_reads, assertValidOp_json.
Qed.

(** A reordering is read, a tuple with a part too many is refused, and a tuple is made. *)
Lemma assertValidOp_spec_witness :
  let raw := JsArr [JsStr $"m"; JsArr [JsStr $"xs"]; JsArr [number_json 1; number_json 0]] in
  (op_reads json_view raw (OpM [SStr $"xs"] [1; 0]) /\ op_ok (V := json) (OpM [SStr $"xs"] [1; 0])) /\
  (forall op, ~ (op_reads json_view (JsArr [JsStr $"r"; JsNull; JsNull]) op /\ op_ok op)) /\
  op_reads json_view (op_json (OpT [SStr $"s"; SNum 7] 3)) (OpT [SStr $"s"; SNum 7] 3).
Proof.
  split; [|split].
  - apply (proj1 assertValidOp_spec). by vm_compute.
  - intros op H. apply (proj1 assertValidOp_spec) in H. by vm_compute in H.
  - apply assertValidOp_spec; cbn; unfold small; [|repeat constructor; lia].
    split; [|done]. unfold path_ok.
    repeat (constructor; [cbn; first [lia|by eapply bool_decide_eq_true_1]|]). constructor.
Defined.
