(* ===== verification/DeltaTree.v ===== *)
(** * What applying delta operations means, on trees

The abstract specification of [apply] and [applyImmutable]
(packages/chord/src/delta/index.ts): an operation walks to a container of the
document, edits it there and puts it back.  [DeltaHeap] models the code, which
works on a heap of shared containers, and shows that it implements this
specification; [DeltaDiff] shows that the operations a diff emits lead from
one document to the other. *)
From S2P Require Import Prelude JsNumber JsObject Json DeltaOps.
#[local] Open Scope Z_scope.

(** ** Members of a container *)

(** The property key of a segment on an object: [String(n)] for a number (the
    decimal digits, exact below 10^21). *)
Definition seg_key (s : Seg) : jstring := match s with SStr k => k | SNum n => decimal n end.

(** One step of a path: own members only, arrays by number only. *)
Definition child (t : json) (s : Seg) : result DeltaError json :=
  match t, s with
  | JsArr l, SNum n => match at_ l n with Some c => Ok c | None => Err PathError end
  | JsArr _, SStr _ => Err UnsafePathError
  | JsObj _ es, _ => match obj_get es (seg_key s) with Some c => Ok c | None => Err PathError end
  | _, _ => Err PathError
  end.

(** The member a write addresses: an array may also be extended at its end. *)
Definition member (t : json) (s : Seg) : result DeltaError (option json) :=
  match t, s with
  | JsArr l, SNum n => if blen l <? n then Err UnsafePathError else Ok (at_ l n)
  | JsArr _, SStr _ => Err UnsafePathError
  | JsObj _ es, _ => Ok (obj_get es (seg_key s))
  | _, _ => Err PathError
  end.

Definition arr_write {A} (l : list A) (n : Z) (v : A) : list A :=
  if n <? blen l then <[Z.to_nat n := v]> l else l ++ [v].

Definition define_member (t : json) (s : Seg) (v : json) : json :=
  match t, s with
  | JsArr l, SNum n => JsArr (arr_write l n v)
  | JsObj np es, _ => JsObj np (obj_set es (seg_key s) v)
  | _, _ => t
  end.

Definition remove_member (t : json) (s : Seg) : result DeltaError json :=
  match t, s with
  | JsArr l, SNum n => if n <? blen l then Ok (JsArr (delete (Z.to_nat n) l)) else Err PathError
  | JsObj np es, _ => Ok (JsObj np (obj_delete es (seg_key s)))
  | _, _ => Err PathError
  end.

(** [items] in place of [remove] elements from [index], both clamped. *)
Definition splice_list {A} (l : list A) (index remove : Z) (items : list A) : list A :=
  take (Z.to_nat index) l ++ items ++ drop (Z.to_nat index + Z.to_nat remove) l.

(** [new[i] = old[permutation[i]]] *)
Definition permute {A} (l : list A) (perm : list Z) : list A := omap (at_ l) perm.

(** ** Editing a document at a path *)

Definition walk (t : json) (p : Path) : result DeltaError json := foldM child t p.

Fixpoint put_at (t : json) (p : Path) (new : json) : json :=
  match p with
  | [] => new
  | s :: p' => match child t s with Ok c => define_member t s (put_at c p' new) | Err _ => t end
  end.

Definition edit (t : option json) (p : Path) (f : json -> result DeltaError json) : result DeltaError (option json) :=
  match t with
  | None => Err PathError
  | Some t => (walk t p ≫= f) ≫= fun new => Ok (Some (put_at t p new))
  end.

(** [path.slice(0, -1)] and the last segment. *)
Definition split_last (p : Path) : option (Path * Seg) :=
  match reverse p with [] => None | s :: r => Some (reverse r, s) end.

Definition edit_member (t : option json) (p : Path) (f : json -> Seg -> option json -> result DeltaError json) :
    result DeltaError (option json) :=
  match split_last p with
  | None => Err PathError
  | Some (p, key) => edit t p (fun parent => member parent key ≫= f parent key)
  end.

Definition string_member (o : option json) : result DeltaError jstring :=
  match o with Some (JsStr s) => Ok s | _ => Err PathError end.

Definition tree_step (t : option json) (op : Op json) : result DeltaError (option json) :=
  match op with
  | OpR v => Ok (Some v)
  | OpS p v => edit_member t p (fun parent key _ => Ok (define_member parent key v))
  | OpD p => edit_member t p (fun parent key _ => remove_member parent key)
  | OpA p text => edit_member t p (fun parent key old =>
      string_member old ≫= fun s => Ok (define_member parent key (JsStr (s ++ text))))
  | OpT p count => edit_member t p (fun parent key old =>
      string_member old ≫= fun s => Ok (define_member parent key (JsStr (drop (Z.to_nat count) s))))
  | OpP p index remove items => edit t p (fun c =>
      match c with JsArr l => Ok (JsArr (splice_list l index remove items)) | _ => Err PathError end)
  | OpM p perm => edit t p (fun c =>
      match c with
      | JsArr l => if blen l =? blen perm then Ok (JsArr (permute l perm)) else Err PathError
      | _ => Err PathError
      end)
  end.

Definition tree_apply (t : option json) (ops : list (Op json)) : result DeltaError (option json) :=
  foldM tree_step t ops.

(** ** Well-formed documents *)

(** The values an operation brings in are documents. *)
Definition op_values_ok (op : Op json) : Prop :=
  match op with
  | OpR v | OpS _ v => json_ok v
  | OpP _ _ _ items => Forall json_ok items
  | _ => True
  end.

(** ** Lemmas *)

Lemma blen_map {A B} (f : A -> B) l : blen (map f l) = blen l.
Proof. unfold blen. by rewrite length_map. Qed.

Lemma json_size_item c l : c ∈ l -> (json_size c < json_size (JsArr l))%nat.
Proof. intros H. cbn. pose proof (elem_size json_size c l H). lia. Qed.

Lemma json_size_entry e np es : e ∈ es -> (json_size e.2 < json_size (JsObj np es))%nat.
Proof. intros H. cbn. pose proof (elem_size (fun e : jstring * json => json_size e.2) e es H). cbn in *. lia. Qed.

Lemma split_last_snoc p s : split_last (p ++ [s]) = Some (p, s).
Proof. unfold split_last. by rewrite reverse_snoc, reverse_involutive. Qed.

Lemma split_last_Some p q s : split_last p = Some (q, s) -> p = q ++ [s].
Proof.
  destruct p as [|x p _] using rev_ind; [done|]. rewrite split_last_snoc. by intros [= -> ->].
Qed.

Lemma walk_snoc t p s c : walk t p = Ok c -> walk t (p ++ [s]) = child c s.
Proof. unfold walk. intros H. rewrite foldM_app, H. cbn. by destruct (child c s). Qed.

Lemma obj_get_set {A} (es : list (jstring * A)) k v k' :
  obj_get (obj_set es k v) k' = if decide (k' = k) then Some v else obj_get es k'.
Proof.
  rewrite !obj_get_map, obj_set_map. case_decide; subst; [by rewrite lookup_insert_eq|by rewrite lookup_insert_ne].
Qed.

Lemma obj_get_delete {A} (es : list (jstring * A)) k k' :
  obj_get (obj_delete es k) k' = if decide (k' = k) then None else obj_get es k'.
Proof.
  rewrite !obj_get_map, obj_delete_map.
  case_decide; subst; [by rewrite lookup_delete_eq|by rewrite lookup_delete_ne].
Qed.

Lemma at_insert {A} (l : list A) n v m :
  0 <= n < blen l -> at_ (<[Z.to_nat n := v]> l) m = if decide (m = n) then Some v else at_ l m.
Proof.
  unfold at_, blen. intros Hn. destruct (Z.ltb_spec m 0); [case_decide; [lia|done]|].
  destruct (decide (m = n)) as [->|Hne]; [apply list_lookup_insert_eq; lia|].
  apply list_lookup_insert_ne. lia.
Qed.

Lemma at_Some {A} (l : list A) n v : at_ l n = Some v -> 0 <= n < blen l.
Proof.
  unfold at_, blen. destruct (Z.ltb_spec n 0); [done|]. intros E%lookup_lt_Some. lia.
Qed.

Lemma blen_insert {A} (l : list A) n v : blen (<[n := v]> l) = blen l.
Proof. unfold blen. by rewrite length_insert. Qed.

Lemma arr_write_in {A} (l : list A) n v : 0 <= n < blen l -> arr_write l n v = <[Z.to_nat n := v]> l.
Proof. unfold arr_write. intros. by rewrite (proj2 (Z.ltb_lt _ _)) by lia. Qed.

(** Redefining a member that exists: it reads back, and redefining it again
    forgets the first definition. *)
Lemma child_define t s c v : child t s = Ok c -> child (define_member t s v) s = Ok v.
Proof.
  destruct t as [|bo|fl|st|l|np es], s as [k|n]; try done; cbn.
  - destruct (at_ l n) eqn:E; [|done]. intros _. pose proof (at_Some _ _ _ E).
    rewrite arr_write_in, at_insert by done. by rewrite decide_True.
  - intros _. by rewrite obj_get_set, decide_True.
  - intros _. by rewrite obj_get_set, decide_True.
Qed.

Lemma obj_update_twice {A} (es : list (jstring * A)) k v w : obj_update (obj_update es k v) k w = obj_update es k w.
Proof.
  induction es as [|[k' v'] es IH]; cbn; [done|].
  case_bool_decide; cbn; [rewrite bool_decide_eq_true_2 by done|rewrite bool_decide_eq_false_2 by done; rewrite IH]; done.
Qed.

Lemma obj_set_twice {A} (es : list (jstring * A)) k v w :
  obj_has es k = true -> obj_set (obj_set es k v) k w = obj_set es k w.
Proof.
  unfold obj_set. intros H. rewrite H. replace (obj_has (obj_update es k v) k) with true; [apply obj_update_twice|].
  symmetry. apply obj_has_spec. rewrite obj_keys_update. by apply obj_has_spec.
Qed.

Lemma obj_get_has {A} (es : list (jstring * A)) k v : obj_get es k = Some v -> obj_has es k = true.
Proof. unfold obj_has. by intros ->. Qed.

Lemma define_twice t s c v w : child t s = Ok c -> define_member (define_member t s v) s w = define_member t s w.
Proof.
  destruct t as [|bo|fl|st|l|np es], s as [k|n]; try done; cbn.
  - destruct (at_ l n) eqn:E; [|done]. intros _. pose proof (at_Some _ _ _ E).
    rewrite !(arr_write_in l) by done. rewrite arr_write_in by (by rewrite blen_insert). by rewrite list_insert_insert_eq.
  - destruct (obj_get es k) eqn:E; [|done]. intros _. by rewrite obj_set_twice by by eapply obj_get_has.
  - destruct (obj_get es (decimal n)) eqn:E; [|done]. intros _.
    by rewrite obj_set_twice by by eapply obj_get_has.
Qed.

Lemma walk_put t p x y : walk t p = Ok x -> walk (put_at t p y) p = Ok y.
Proof.
  revert t. induction p as [|s p IH]; intros t; cbn; [done|].
  intros (c & Hc & Hw)%bind_Ok. rewrite Hc. change (foldM child) with walk in *.
  erewrite child_define by done. cbn. by apply IH.
Qed.

Lemma put_put t p x y z : walk t p = Ok x -> put_at (put_at t p y) p z = put_at t p z.
Proof.
  revert t. induction p as [|s p IH]; intros t; cbn; [done|].
  intros (c & Hc & Hw)%bind_Ok. rewrite Hc. change (foldM child) with walk in *.
  erewrite child_define by done. erewrite define_twice by done. by rewrite IH.
Qed.

Lemma put_snoc t p x s c y :
  walk t p = Ok x -> child x s = Ok c -> put_at t (p ++ [s]) y = put_at t p (define_member x s y).
Proof.
  revert t. induction p as [|s' p IH]; intros t; cbn.
  - intros [= ->] ->. done.
  - intros (c' & Hc' & Hw)%bind_Ok Hc. rewrite Hc'. by rewrite (IH c').
Qed.

Lemma put_same t p x : walk t p = Ok x -> (forall t s c, child t s = Ok c -> define_member t s c = t) -> put_at t p x = t.
Proof.
  intros Hw H. revert t Hw. induction p as [|s p IH]; intros t; cbn; [by intros [= ->]|].
  intros (c & Hc & Hw)%bind_Ok. rewrite Hc. rewrite IH by done. by apply H.
Qed.

Lemma obj_update_same {A} (es : list (jstring * A)) k v : obj_get es k = Some v -> obj_update es k v = es.
Proof.
  induction es as [|[k' v'] es IH]; cbn; [done|]. case_bool_decide; [by intros [= ->]|]. intros E. by rewrite IH.
Qed.

Lemma define_same t s c : child t s = Ok c -> define_member t s c = t.
Proof.
  assert (forall np es k, obj_get es k = Some c -> JsObj np (obj_set es k c) = JsObj np es) as G.
  { intros np es k E. unfold obj_set. rewrite (obj_get_has _ _ _ E). by rewrite obj_update_same. }
  destruct t as [|bo|fl|st|l|np es], s as [k|n]; try done; cbn.
  - destruct (at_ l n) eqn:E; [|done]. intros [= ->]. pose proof (at_Some _ _ _ E). rewrite arr_write_in by done. f_equal. apply list_insert_id.
    unfold at_ in E. destruct (Z.ltb_spec n 0); [lia|done].
  - destruct (obj_get es k) eqn:E; [|done]. intros [= ->]. by apply G.
  - destruct (obj_get es (decimal n)) eqn:E; [|done]. intros [= ->]. by apply G.
Qed.

(** *** Well-formed documents stay well-formed *)

Lemma obj_set_Forall {A} (P : A -> Prop) es k v :
  P v -> Forall (fun e => P e.2) es -> Forall (fun e : jstring * A => P e.2) (obj_set es k v).
Proof.
  intros Hv H. unfold obj_set. destruct (obj_has es k).
  - induction H as [|[k' v'] es Hx H IH]; cbn; [constructor|]. case_bool_decide; by constructor.
  - induction H as [|[k' v'] es Hx H IH]; cbn; [by repeat constructor|].
    case_bool_decide; repeat constructor; done.
Qed.

Lemma obj_delete_Forall {A} (P : jstring * A -> Prop) es k : Forall P es -> Forall P (obj_delete es k).
Proof. induction 1 as [|[k' v'] es Hx H IH]; cbn; [constructor|]. case_bool_decide; [done|by constructor]. Qed.

Lemma obj_get_elem {A} (es : list (jstring * A)) k v : obj_get es k = Some v -> (k, v) ∈ es.
Proof.
  induction es as [|[k' v'] es IH]; cbn; [done|].
  case_bool_decide; [intros [= ->]; subst; left|right; auto].
Qed.

Lemma obj_keys_delete_sublist {A} (es : list (jstring * A)) k : obj_keys (obj_delete es k) `sublist_of` obj_keys es.
Proof.
  unfold obj_keys. induction es as [|[k' v'] es IH]; cbn; [done|].
  case_bool_decide; cbn; [by apply sublist_cons|by apply sublist_skip].
Qed.

Lemma StronglySorted_sublist {A} (R : A -> A -> Prop) l k :
  l `sublist_of` k -> Sorted.StronglySorted R k -> Sorted.StronglySorted R l.
Proof.
  induction 1 as [|x l k Hs IH|x l k Hs IH]; inversion 1 as [|? ? Hk Hf]; subst; [constructor| |by apply IH].
  constructor; [by apply IH|]. rewrite List.Forall_forall in *. intros y Hy. apply Hf.
  apply list_elem_of_In. apply list_elem_of_In in Hy. eapply elem_of_sublist; done.
Qed.

Lemma obj_ok_delete {A} (es : list (jstring * A)) k : obj_ok es -> obj_ok (obj_delete es k).
Proof.
  intros [H1 H2]. split; [by apply NoDup_obj_delete|]. eapply StronglySorted_sublist; [|done].
  apply obj_keys_delete_sublist.
Qed.

Lemma Forall_at {A} (P : A -> Prop) l n v : Forall P l -> at_ l n = Some v -> P v.
Proof. unfold at_. case_match; [done|]. intros. by eapply Forall_lookup_1. Qed.

Lemma child_ok t s c : json_ok t -> child t s = Ok c -> json_ok c.
Proof.
  destruct t as [|bo|fl|st|l|np es], s as [k|n]; try done; cbn; rewrite ?json_ok_arr, ?json_ok_obj.
  - intros H. destruct (at_ l n) eqn:E; [|done]. intros [= ->]. by eapply Forall_at.
  - intros [_ H]. destruct (obj_get es k) eqn:E; [|done]. intros [= ->]. apply obj_get_elem in E.
    rewrite Forall_forall in H. by apply H in E.
  - intros [_ H]. destruct (obj_get es _) eqn:E; [|done]. intros [= ->]. apply obj_get_elem in E.
    rewrite Forall_forall in H. by apply H in E.
Qed.

Lemma define_member_ok t s v : json_ok t -> json_ok v -> json_ok (define_member t s v).
Proof.
  intros Ht Hv. destruct t as [|bo|fl|st|l|np es], s as [k|n]; cbn; try done; rewrite ?json_ok_arr, ?json_ok_obj in *.
  - unfold arr_write. case_match; [by apply Forall_insert|]. apply Forall_app. by repeat constructor.
  - destruct Ht. split; [by apply obj_ok_set|by apply obj_set_Forall].
  - destruct Ht. split; [by apply obj_ok_set|by apply obj_set_Forall].
Qed.

Lemma walk_ok t p c : json_ok t -> walk t p = Ok c -> json_ok c.
Proof. intros. eapply (foldM_inv json_ok); [|done|done]. intros ? ? ? _. apply child_ok. Qed.

Lemma put_at_ok t p new : json_ok t -> json_ok new -> json_ok (put_at t p new).
Proof.
  intros Ht Hn. revert t Ht. induction p as [|s p IH]; intros t Ht; cbn; [done|].
  destruct (child t s) eqn:E; [|done]. apply define_member_ok; [done|]. apply IH. by eapply child_ok.
Qed.

Lemma edit_ok t p f r :
  (forall c c', json_ok c -> f c = Ok c' -> json_ok c') ->
  (forall j, t = Some j -> json_ok j) -> edit t p f = Ok (Some r) -> json_ok r.
Proof.
  intros Hf Ht. destruct t as [t|]; cbn; [|done]. intros (n & (c & Hw & Hc)%bind_Ok & [= <-])%bind_Ok.
  apply put_at_ok; [by apply Ht|]. eapply Hf; [|done]. eapply walk_ok; [by apply Ht|done].
Qed.

Lemma edit_Some t p f r : edit t p f = Ok r -> is_Some r.
Proof. destruct t; cbn; [|done]. intros (n & _ & [= <-])%bind_Ok. done. Qed.

Lemma remove_member_ok t s r : json_ok t -> remove_member t s = Ok r -> json_ok r.
Proof.
  destruct t as [|bo|fl|st|l|np es], s as [k|n]; cbn; try done; rewrite ?json_ok_arr, ?json_ok_obj.
  - intros H. case_match; [|done]. intros [= <-]. apply json_ok_arr. by apply Forall_delete.
  - intros [? ?] [= <-]. apply json_ok_obj. split; [by apply obj_ok_delete|by apply obj_delete_Forall].
  - intros [? ?] [= <-]. apply json_ok_obj. split; [by apply obj_ok_delete|by apply obj_delete_Forall].
Qed.

Lemma splice_list_Forall {A} (P : A -> Prop) l i r items :
  Forall P l -> Forall P items -> Forall P (splice_list l i r items).
Proof. intros. unfold splice_list. rewrite !Forall_app. split_and!; [by apply Forall_take|done|by apply Forall_drop]. Qed.

Lemma permute_Forall {A} (P : A -> Prop) l perm : Forall P l -> Forall P (permute l perm).
Proof.
  intros H. apply Forall_forall. intros x. unfold permute. rewrite list_elem_of_omap. intros (i & _ & Hi).
  by eapply Forall_at.
Qed.

Lemma tree_step_ok t op r :
  op_values_ok op -> (forall j, t = Some j -> json_ok j) -> tree_step t op = Ok r -> exists j, r = Some j /\ json_ok j.
Proof.
  assert (forall f p r, (forall c k o c', json_ok c -> f c k o = Ok c' -> json_ok c') ->
    (forall j, t = Some j -> json_ok j) -> edit_member t p f = Ok r -> exists j, r = Some j /\ json_ok j) as G.
  { intros f p r' Hf Ht. unfold edit_member. destruct (split_last p) as [[q key]|]; [|done]. intros H.
    pose proof (edit_Some _ _ _ _ H) as [j ->]. exists j. split; [done|]. eapply edit_ok; [|exact Ht|exact H].
    cbn. intros c c' Hc (o & _ & Ho)%bind_Ok. by eapply Hf. }
  assert (forall f p r, (forall c c', json_ok c -> f c = Ok c' -> json_ok c') ->
    (forall j, t = Some j -> json_ok j) -> edit t p f = Ok r -> exists j, r = Some j /\ json_ok j) as G'.
  { intros f p r' Hf Ht H. pose proof (edit_Some _ _ _ _ H) as [j ->]. exists j. split; [done|].
    by eapply edit_ok. }
  intros Hv Ht. destruct op; cbn in *.
  - intros [= <-]. eauto.
  - apply G; [|done]. intros c k o c' Hc [= <-]. by apply define_member_ok.
  - apply G; [|done]. intros c k o c' Hc H. by eapply remove_member_ok.
  - apply G; [|done]. intros c k o c' Hc (s & _ & [= <-])%bind_Ok. apply define_member_ok; [done|constructor].
  - apply G; [|done]. intros c k o c' Hc (s & _ & [= <-])%bind_Ok. apply define_member_ok; [done|constructor].
  - apply G'; [|done]. intros [| | | |l|] c' Hc; try done. intros [= <-]. rewrite json_ok_arr in *.
    by apply splice_list_Forall.
  - apply G'; [|done]. intros [| | | |l|] c' Hc; try done. case_match; [|done]. intros [= <-].
    rewrite json_ok_arr in *. by apply permute_Forall.
Qed.

Lemma tree_apply_ok t ops r :
  Forall op_values_ok ops -> json_ok t -> tree_apply (Some t) ops = Ok (Some r) -> json_ok r.
Proof.
  intros Hv Ht H. unfold tree_apply in H.
  pose (good := fun o : option json => forall j, o = Some j -> json_ok j).
  assert (good (Some r)) as G; [|by apply G].
  refine (foldM_inv good tree_step ops (Some t) (Some r) _ _ H); [|intros j E; by simplify_eq].
  intros s op s' Hin Hs Hop. apply tree_step_ok in Hop as (j & -> & Hj); [intros j' E; by simplify_eq| |done].
  rewrite Forall_forall in Hv. by apply Hv.
Qed.
