(* ===== verification/DeltaCodec.v ===== *)
(** * The delta wire codec (packages/chord/src/delta/index.ts, encoder and decoder)

Path interning: a path travels inline the first time, is defined as an id on
its second use and referenced by that id afterwards, and is left out when the
operation before it in the batch has the same path.  A replacement resets the
dictionary.  The encoder keys its tables by [JSON.stringify(path)], modelled
here unit by unit and proved injective.  The decoder reads untrusted tuples. *)
From S2P Require Import Prelude JsonText JsNumber JsObject Json DeltaOps DeltaTree.
#[local] Open Scope Z_scope.

(** ** [JSON.stringify] of a path *)

Definition segment_text (s : Seg) : jstring :=
  match s with SStr k => quoted k | SNum n => decimal n end.

Fixpoint segments_text (p : Path) : jstring :=
  match p with
  | [] => []
  | [s] => segment_text s
  | s :: p' => segment_text s ++ 44 :: segments_text p'
  end.

Definition pathKey (path : Path) : jstring := 91 :: segments_text path ++ [93].

(** ** Encoder *)

Record encoder_state := mkEncoder { seen : gset jstring; ids : gmap jstring Z; nextId : Z }.

Definition encoder : encoder_state := mkEncoder ∅ ∅ 0.

Section Encoder.
Context {V : Type}.
Implicit Types (op : Op V).

Definition op_path op : option Path :=
  match op with
  | OpR _ => None
  | OpS p _ | OpD p | OpA p _ | OpT p _ | OpP p _ _ _ | OpM p _ => Some p
  end.

(** The tuple of [op] with its path given by [ref]. *)
Definition with_ref (ref : PathRef) op : WireOp V :=
  match op with
  | OpR v => WR v
  | OpS _ v => WS ref v
  | OpD _ => WD ref
  | OpA _ t => WA ref t
  | OpT _ n => WT ref n
  | OpP _ i r items => WP ref i r items
  | OpM _ perm => WM ref perm
  end.

(** One round of the loop: the state, the key of the last path, the tuples to push. *)
Definition encode_op (st : encoder_state) (previous : option jstring) op :
    encoder_state * option jstring * list (WireOp V) :=
  match op_path op with
  | None => (encoder, None, [with_ref RPrevious op])
  | Some path =>
      let key := pathKey path in
      if bool_decide (previous = Some key) then (st, previous, [with_ref RPrevious op])
      else
        match ids st !! key with
        | Some existing => (st, Some key, [with_ref (RId existing) op])
        | None =>
            if bool_decide (key ∈ seen st) then
              let id := nextId st in
              (mkEncoder (seen st) (<[key := id]> (ids st)) (id + 1), Some key,
               [WDefine id path; with_ref (RId id) op])
            else (mkEncoder ({[key]} ∪ seen st) (ids st) (nextId st), Some key, [with_ref (RInline path) op])
        end
  end.

Fixpoint encode_loop (st : encoder_state) (previous : option jstring) (ops : list (Op V)) :
    encoder_state * list (WireOp V) :=
  match ops with
  | [] => (st, [])
  | op :: ops =>
      let '(st1, previous1, out) := encode_op st previous op in
      let '(st2, rest) := encode_loop st1 previous1 ops in
      (st2, out ++ rest)
  end.

Definition encode (st : encoder_state) (ops : list (Op V)) : encoder_state * list (WireOp V) :=
  encode_loop st None ops.

(** Successive batches of one stream. *)
Fixpoint encode_batches (st : encoder_state) (batches : list (list (Op V))) : list (list (WireOp V)) :=
  match batches with
  | [] => []
  | ops :: batches => let '(st, wire) := encode st ops in wire :: encode_batches st batches
  end.
End Encoder.

(** ** Decoder *)

Notation decoder_state := (gmap Z Path).

Definition ref_of {V} (w : WireOp V) : PathRef :=
  match w with
  | WR _ | WDefine _ _ => RPrevious
  | WS ref _ | WD ref | WA ref _ | WT ref _ | WP ref _ _ _ | WM ref _ => ref
  end.

Definition resolve_ref (paths : decoder_state) (previous : option Path) (ref : PathRef) : result DeltaError Path :=
  match ref with
  | RPrevious => match previous with Some p => Ok p | None => Err PathError end
  | RId id => match paths !! id with Some p => Ok p | None => Err PathError end
  | RInline p => Ok p
  end.

(** Only a splice or a reordering may address the root. *)
Definition roots_allowed {V} (w : WireOp V) : bool := match w with WP _ _ _ _ | WM _ _ => true | _ => false end.

Definition decoded {V} (w : WireOp V) (path : Path) : Op V :=
  match w with
  | WR v => OpR v
  | WS _ v => OpS path v
  | WD _ => OpD path
  | WA _ t => OpA path t
  | WT _ n => OpT path n
  | WP _ i r items => OpP path i r items
  | WM _ perm => OpM path perm
  | WDefine _ _ => OpD path
  end.

Section Decoder.
Context {V : Type} (view : V -> shape V).

(** The dictionary survives an error, the batch does not. *)
Fixpoint decode_loop (paths : decoder_state) (previous : option Path) (out : list (Op V)) (wire : list V) :
    decoder_state * result DeltaError (list (Op V)) :=
  match wire with
  | [] => (paths, Ok out)
  | raw :: wire =>
      match assertValidWireOp view raw with
      | Err e => (paths, Err e)
      | Ok (WDefine id path) => decode_loop (<[id := path]> paths) previous out wire
      | Ok (WR v) => decode_loop ∅ None (out ++ [OpR v]) wire
      | Ok w =>
          match resolve_ref paths previous (ref_of w) with
          | Err e => (paths, Err e)
          | Ok path =>
              if negb (roots_allowed w) && bool_decide (path = []) then (paths, Err PathError)
              else decode_loop paths (Some path) (out ++ [decoded w path]) wire
          end
      end
  end.

Definition decode (paths : decoder_state) (wire : list V) : decoder_state * result DeltaError (list (Op V)) :=
  decode_loop paths None [] wire.

Fixpoint decode_batches (paths : decoder_state) (wires : list (list V)) : result DeltaError (list (list (Op V))) :=
  match wires with
  | [] => Ok []
  | wire :: wires =>
      let '(paths, r) := decode paths wire in
      r ≫= fun ops => decode_batches paths wires ≫= fun batches => Ok (ops :: batches)
  end.
End Decoder.

(** ** The wire tuples *)

Definition ref_json (ref : PathRef) : list json :=
  match ref with RInline p => [path_json p] | RId id => [number_json id] | RPrevious => [] end.

Definition wire_json (w : WireOp json) : json :=
  JsArr match w with
  | WR v => [JsStr $"r"; v]
  | WS ref v => JsStr $"s" :: ref_json ref ++ [v]
  | WD ref => JsStr $"d" :: ref_json ref
  | WA ref t => JsStr $"a" :: ref_json ref ++ [JsStr t]
  | WT ref n => JsStr $"t" :: ref_json ref ++ [number_json n]
  | WP ref i r items => JsStr $"p" :: ref_json ref ++ [number_json i; number_json r; JsArr items]
  | WM ref perm => JsStr $"m" :: ref_json ref ++ [JsArr (number_json <$> perm)]
  | WDefine id p => [JsStr $"#"; number_json id; path_json p]
  end.

Definition wire_tuples (wire : list (WireOp json)) : list json := wire_json <$> wire.

(** ** [pathKey] is injective *)

(** A list of digits ends where the next unit is none. *)
Lemma digits_split d1 d2 t1 t2 :
  Forall (fun c => is_digit c = true) d1 -> Forall (fun c => is_digit c = true) d2 ->
  (forall c, head t1 = Some c -> is_digit c = false) -> (forall c, head t2 = Some c -> is_digit c = false) ->
  d1 ++ t1 = d2 ++ t2 -> d1 = d2 /\ t1 = t2.
Proof.
  intros H1. revert d2. induction H1 as [|c d1 Hc _ IH]; intros d2 H2 Ht1 Ht2; destruct H2 as [|c' d2 Hc' H2]; cbn.
  - done.
  - intros ->. specialize (Ht1 c' eq_refl). congruence.
  - intros <-. specialize (Ht2 c eq_refl). congruence.
  - intros [= -> E]. by destruct (IH d2 H2 Ht1 Ht2 E) as [-> ->].
Qed.

(** The text of a segment, followed by [,] or [\]], determines both. *)
Lemma segment_text_inj s1 s2 c1 c2 t1 t2 :
  seg_ok s1 -> seg_ok s2 -> is_digit c1 = false -> is_digit c2 = false ->
  segment_text s1 ++ c1 :: t1 = segment_text s2 ++ c2 :: t2 -> s1 = s2 /\ c1 :: t1 = c2 :: t2.
Proof.
  unfold segment_text, quoted in *. assert (forall n k c t t', 0 <= n -> decimal n ++ c :: t = 34 :: k ++ t' -> False) as Hmix.
  { intros n k c t t' Hn E. destruct (decimal_spec n Hn) as (Hd & _ & Hne).
    destruct (decimal n) as [|d ds]; [done|]. injection E as -> _. by inversion Hd. }
  intros H1 H2 Hc1 Hc2. destruct s1 as [k1|n1], s2 as [k2|n2]; cbn in *; intros E.
  - injection E as E. rewrite <- !app_assoc in E. apply (f_equal unquote) in E. cbn [app] in E.
    rewrite !unquote_body in E. by simplify_eq.
  - exfalso. rewrite app_comm_cons in E. symmetry in E. by eapply Hmix.
  - exfalso. by eapply Hmix.
  - destruct (decimal_spec n1 H1) as (Hd1 & Hv1 & _), (decimal_spec n2 H2) as (Hd2 & Hv2 & _).
    apply digits_split in E as [E ->]; [|done..|by intros ? [= <-]|by intros ? [= <-]].
    split; [|done]. f_equal. congruence.
Qed.

Lemma segment_text_head s : seg_ok s -> exists c t, segment_text s = c :: t /\ c <> 93.
Proof.
  destruct s as [k|n]; cbn; intros H; [by eexists _, _|].
  destruct (decimal_spec n H) as (Hd & _ & Hne). destruct (decimal n) as [|d ds]; [done|].
  exists d, ds. split; [done|]. inversion Hd as [|? ? Hx]; subst. unfold is_digit in Hx. lia.
Qed.

Lemma pathKey_inj p q : path_ok p -> path_ok q -> pathKey p = pathKey q -> p = q.
Proof.
  unfold pathKey. intros Hp Hq [= E]. revert q Hq E.
  induction Hp as [|s p Hs Hp IH]; intros q Hq E; destruct Hq as [|s' q Hs' Hq]; [done|..].
  - exfalso. destruct (segment_text_head s' Hs') as (c & t & Hc & Hne).
    destruct q; cbn in E; rewrite Hc in E; by injection E as <-.
  - exfalso. destruct (segment_text_head s Hs) as (c & t & Hc & Hne).
    destruct p; cbn in E; rewrite Hc in E; by injection E as ->.
  - destruct p as [|s1 p], q as [|s1' q]; cbn [segments_text] in E; rewrite <- ?app_assoc in E;
      apply segment_text_inj in E as [-> E]; try done.
    f_equal. apply IH; [done|]. by injection E.
Qed.

(** ** Every tuple of the encoder passes the decoder's validator *)

Definition ref_ok (ref : PathRef) : Prop :=
  match ref with
  | RInline p => path_ok p /\ Forall seg_small p
  | RId id => 0 <= id /\ small id
  | RPrevious => True
  end.

Definition wire_ok {V} (w : WireOp V) : Prop :=
  ref_ok (ref_of w) /\
  match w with
  | WT _ n => 0 <= n /\ small n
  | WP _ i r _ => (0 <= i /\ small i) /\ (0 <= r /\ small r)
  | WM _ perm => bijection perm /\ small (blen perm)
  | WDefine id p => (0 <= id /\ small id) /\ (path_ok p /\ Forall seg_small p)
  | _ => True
  end.

Lemma okRef_json ref v : ref_ok ref -> ref_json ref = [v] -> okRef json_view v = Ok ref.
Proof.
  destruct ref as [p|id|]; cbn; [| |done].
  - intros [H1 H2] [= <-]. unfold okRef. cbn. by rewrite assertSafePath_json.
  - intros [H1 H2] [= <-]. unfold okRef, number_json. cbn [json_view].
    change (JsNum (of_Z id)) with (number_json id). by rewrite natural_json.
Qed.

Lemma assertValidWireOp_json w : wire_ok w -> assertValidWireOp json_view (wire_json w) = Ok w.
Proof.
  intros [Href Hw].
  assert (exists l, ref_json (ref_of w) = l /\ (l = [] /\ ref_of w = RPrevious \/
    exists v, l = [v] /\ okRef json_view v = Ok (ref_of w))) as (l & El & Hl).
  { eexists. split; [done|]. destruct (ref_of w) eqn:E; [right|right|by left];
      (eexists; split; [done|]; by apply okRef_json). }
  destruct w as [v|ref v|ref|ref t|ref n|ref i r items|ref perm|id p]; cbn [ref_of] in *;
    destruct Hl as [[-> Hr]|(x & -> & Hr)]; subst; destruct_and?;
    unfold assertValidWireOp, wire_json; rewrite ?El; cbn [is_tuple verb_of json_view negb app]; decide_verbs;
    unfold wire_splice, array_of, string_of; cbn [json_view need]; rewrite ?Hr;
    rewrite ?natural_json by done; rewrite ?assertPermutation_json by done; try done.
  all: cbn; by rewrite assertSafePath_json.
Qed.

Lemma with_ref_ok {V} (op : Op V) ref : op_ok op -> op_small op -> ref_ok ref -> wire_ok (with_ref ref op).
Proof. unfold wire_ok. destruct op; cbn; intros; destruct_and?; auto. Qed.

Lemma decoded_with_ref {V} (op : Op V) ref p : op_path op = Some p -> decoded (with_ref ref op) p = op.
Proof. destruct op; cbn; congruence. Qed.

Lemma op_path_ok {V} (op : Op V) p :
  op_ok op -> op_small op -> op_path op = Some p -> path_ok p /\ Forall seg_small p.
Proof. destruct op; cbn; intros; simplify_eq; destruct_and?; auto. Qed.

Lemma roots_op {V} (op : Op V) ref p :
  op_ok op -> op_path op = Some p -> negb (roots_allowed (with_ref ref op)) && bool_decide (p = []) = false.
Proof.
  destruct op; cbn; intros; simplify_eq; destruct_and?; try done; by rewrite bool_decide_eq_false_2.
Qed.

(** ** The decoder follows the encoder *)

Definition sync (st : encoder_state) (paths : decoder_state) : Prop :=
  0 <= nextId st /\
  forall key id, ids st !! key = Some id ->
    0 <= id < nextId st /\ exists p, pathKey p = key /\ path_ok p /\ paths !! id = Some p.

Definition prev_sync (previous : option jstring) (path : option Path) : Prop :=
  previous = pathKey <$> path /\ forall p, path = Some p -> path_ok p.

Lemma sync_empty : sync encoder ∅.
Proof. split; [done|]. intros key id. cbn. by rewrite lookup_empty. Qed.

Lemma prev_sync_Some p : path_ok p -> prev_sync (Some (pathKey p)) (Some p).
Proof. intros H. split; [done|]. by intros ? [= <-]. Qed.

Lemma prev_sync_None : prev_sync None None.
Proof. done. Qed.

(** A pushed tuple of an operation with a path, once its reference resolves. *)
Lemma decode_with_ref paths pv out (op : Op json) ref p rest :
  op_ok op -> op_small op -> ref_ok ref -> op_path op = Some p ->
  resolve_ref paths pv ref = Ok p ->
  decode_loop json_view paths pv out (wire_json (with_ref ref op) :: rest) =
  decode_loop json_view paths (Some p) (out ++ [op]) rest.
Proof.
  intros Hok Hs Href Hp Hr. cbn [decode_loop]. rewrite assertValidWireOp_json by by apply with_ref_ok.
  pose proof (roots_op op ref p Hok Hp) as Hroot. pose proof (decoded_with_ref op ref p Hp) as Hd.
  destruct op; cbn in Hp; try done; cbn [with_ref ref_of] in *; rewrite Hr, Hroot, Hd; done.
Qed.

Lemma encode_op_sync st previous (op : Op json) st' previous' ws paths pv :
  encode_op st previous op = (st', previous', ws) ->
  op_ok op -> op_small op -> small (nextId st + 1) -> sync st paths -> prev_sync previous pv ->
  nextId st' <= nextId st + 1 /\
  exists paths' pv', sync st' paths' /\ prev_sync previous' pv' /\
    forall out rest, decode_loop json_view paths pv out ((wire_json <$> ws) ++ rest) =
      decode_loop json_view paths' pv' (out ++ [op]) rest.
Proof.
  intros He Hok Hs Hid [Hn Hsync] Hprev. unfold encode_op in He.
  destruct (op_path op) as [path|] eqn:Hp.
  2:{ simplify_eq. split; [cbn; lia|]. exists ∅, None. split_and!; [apply sync_empty|apply prev_sync_None|].
      intros out rest. destruct op; try done. }
  pose proof (op_path_ok _ _ Hok Hs Hp) as [Hpok Hpsm].
  case_bool_decide as Hsame; [|destruct (ids st !! pathKey path) as [id|] eqn:Eid;
    [|case_bool_decide as Hseen]]; simplify_eq; cbn [nextId ids] in *.
  - split; [lia|]. exists paths, (Some path). split_and!; [done|by apply prev_sync_Some|].
    intros out rest. apply decode_with_ref; try done. destruct Hprev as [Hk Hv], pv as [q|]; [|done].
    apply (inj Some) in Hk. cbn. f_equal. apply pathKey_inj; [by apply Hv|done|done].
  - split; [lia|]. apply Hsync in Eid as (Hid' & q & Hq & Hqok & Hl).
    exists paths, (Some path). split_and!; [done|by apply prev_sync_Some|].
    intros out rest. apply decode_with_ref; try done; [split; [lia|unfold small in *; lia]|].
    cbn. rewrite Hl. f_equal. by apply pathKey_inj.
  - split; [lia|]. exists (<[nextId st := path]> paths), (Some path). split_and!.
    + split; [cbn; lia|]. cbn [ids nextId]. intros key id. destruct (decide (key = pathKey path)) as [->|Hne].
      * rewrite lookup_insert_eq. intros [= <-]. split; [lia|]. exists path. by rewrite lookup_insert_eq.
      * rewrite lookup_insert_ne by done. intros Hk. apply Hsync in Hk as (Hk & q & Hq & Hqok & Hl).
        split; [lia|]. exists q. rewrite lookup_insert_ne by lia. done.
    + by apply prev_sync_Some.
    + intros out rest. cbn [app fmap list_fmap].
      change (decode_loop json_view paths pv out (wire_json (WDefine (nextId st) path) ::
        wire_json (with_ref (RId (nextId st)) op) :: rest) = decode_loop json_view
        (<[nextId st := path]> paths) (Some path) (out ++ [op]) rest).
      rewrite <- (decode_with_ref (<[nextId st := path]> paths) pv out op (RId (nextId st)) path rest); try done.
      * cbn [decode_loop]. rewrite assertValidWireOp_json; [done|].
        split; cbn; [done|]. unfold small in *. split; [lia|done].
      * split; [done|unfold small in *; lia].
      * cbn. by rewrite lookup_insert_eq.
  - split; [lia|]. exists paths, (Some path). split_and!; [done|by apply prev_sync_Some|].
    intros out rest. by apply decode_with_ref.
Qed.

Definition batch_ok (ops : list (Op json)) : Prop := Forall op_ok ops /\ Forall op_small ops.

Lemma encode_loop_sync st previous ops st' ws paths pv out :
  encode_loop st previous ops = (st', ws) ->
  batch_ok ops -> small (nextId st + blen ops) -> sync st paths -> prev_sync previous pv ->
  nextId st' <= nextId st + blen ops /\
  exists paths', sync st' paths' /\ decode_loop json_view paths pv out (wire_json <$> ws) = (paths', Ok (out ++ ops)).
Proof.
  revert st previous ws paths pv out. induction ops as [|op ops IH]; intros st previous ws paths pv out He [Hok Hs] Hid Hsy Hpv;
    cbn [encode_loop] in He.
  - simplify_eq. rewrite (blen_nil (A := Op json)), app_nil_r. split; [lia|]. by exists paths.
  - destruct (encode_op st previous op) as [[st1 previous1] ws1] eqn:E1.
    destruct (encode_loop st1 previous1 ops) as [st2 ws2] eqn:E2. injection He as <- <-.
    apply Forall_cons in Hok as [Hok1 Hok], Hs as [Hs1 Hs]. rewrite blen_cons in *. pose proof (blen_nonneg ops).
    eapply encode_op_sync in E1 as (Hn1 & paths1 & pv1 & Hsy1 & Hpv1 & Hd); [|done..|unfold small in *; lia|done|done].
    eapply (IH _ _ _ paths1 pv1 (out ++ [op])) in E2 as (Hn2 & paths2 & Hsy2 & Hd2);
      [|done|unfold small in *; lia|done|done].
    split; [lia|]. exists paths2. split; [done|]. rewrite fmap_app, Hd, Hd2. by rewrite <- app_assoc.
Qed.

Definition total_ops (batches : list (list (Op json))) : Z := blen (concat batches).

Lemma total_ops_cons ops batches : total_ops (ops :: batches) = blen ops + total_ops batches.
Proof. unfold total_ops. cbn. by rewrite blen_app. Qed.

Lemma stream_sync st paths batches :
  Forall batch_ok batches -> small (nextId st + total_ops batches) -> sync st paths ->
  decode_batches json_view paths (wire_tuples <$> encode_batches st batches) = Ok batches.
Proof.
  revert st paths. induction batches as [|ops batches IH]; intros st paths Hok Hid Hsy; [done|].
  apply Forall_cons in Hok as [Hb Hok]. rewrite total_ops_cons in Hid. pose proof (blen_nonneg (concat batches)).
  unfold total_ops in *. cbn [encode_batches]. unfold encode. destruct (encode_loop st None ops) as [st' ws] eqn:E.
  eapply (encode_loop_sync _ _ _ _ _ _ _ []) in E as (Hn & paths' & Hsy' & Hd);
    [|done|unfold small in *; lia|done|apply prev_sync_None].
  rewrite fmap_cons. cbn [decode_batches]. unfold decode.
  change (wire_tuples ws) with (wire_json <$> ws). rewrite Hd. cbn [app mbind result_bind].
  rewrite IH; [done|done|unfold small, total_ops in *; lia|done].
Qed.

(** A batch that starts with a replacement leaves the same state whatever was before. *)
Lemma stream_base st paths ops batches :
  isBase ops = true -> Forall batch_ok (ops :: batches) -> small (total_ops (ops :: batches)) ->
  decode_batches json_view paths (wire_tuples <$> encode_batches st (ops :: batches)) = Ok (ops :: batches).
Proof.
  intros Hb Hok Hid.
  assert (encode_batches st (ops :: batches) = encode_batches encoder (ops :: batches) /\
    decode_batches json_view paths (wire_tuples <$> encode_batches encoder (ops :: batches)) =
    decode_batches json_view ∅ (wire_tuples <$> encode_batches encoder (ops :: batches))) as [-> ->].
  { destruct ops as [|[v| | | | | |] ops]; try done. cbn [encode_batches]. unfold encode. cbn [encode_loop].
    split; [done|]. cbn [encode_op op_path]. destruct (encode_loop encoder None ops). done. }
  apply stream_sync; [done|done|apply sync_empty].
Qed.

(** ** The decoder hands out safe operations only *)

Definition paths_ok (paths : decoder_state) : Prop := map_Forall (fun _ p => path_ok p) paths.

Definition ref_safe (ref : PathRef) : Prop := match ref with RInline p => path_ok p | _ => True end.

Definition wire_safe {V} (w : WireOp V) : Prop :=
  ref_safe (ref_of w) /\
  match w with
  | WT _ n => 0 <= n
  | WP _ i r _ => 0 <= i /\ 0 <= r
  | WM _ perm => bijection perm
  | WDefine _ p => path_ok p
  | _ => True
  end.

Lemma okRef_safe {V} (view : V -> shape V) v ref : okRef view v = Ok ref -> ref_safe ref.
Proof.
  unfold okRef. destruct (view v) as [|n|l|]; try done.
  - destruct (need _ _); cbn; [by intros [= <-]|done].
  - destruct (assertSafePath view l) eqn:E; cbn; [|done]. intros [= <-]. by eapply assertSafePath_ok.
Qed.

Lemma assertValidWireOp_safe {V} (view : V -> shape V) raw w : assertValidWireOp view raw = Ok w -> wire_safe w.
Proof.
  unfold assertValidWireOp. destruct (negb _); [done|]. destruct (verb_of view raw) as [[verb args]|]; [|done].
  intros H. split_tuple H; unfold wire_splice in H; inv_ok; unfold wire_safe; cbn;
    repeat match goal with
    | H : okRef _ _ = Ok _ |- _ => apply okRef_safe in H
    | H : assertPermutation _ _ = Ok _ |- _ => apply assertPermutation_ok in H
    | H : assertSafePath _ _ = Ok _ |- _ => apply assertSafePath_ok in H
    | H : need (natural _ _) _ = Ok _ |- _ => apply need_Ok, natural_nonneg in H
    end; auto.
Qed.

Lemma resolve_ref_ok paths pv ref p :
  paths_ok paths -> (forall q, pv = Some q -> path_ok q) -> ref_safe ref ->
  resolve_ref paths pv ref = Ok p -> path_ok p.
Proof.
  intros Hp Hpv Href. destruct ref as [q|id|]; cbn.
  - by intros [= <-].
  - destruct (paths !! id) as [q|] eqn:E; [|done]. intros [= <-]. by apply (Hp id).
  - destruct pv as [q|]; [|done]. intros [= <-]. by apply Hpv.
Qed.

Lemma decoded_ok {V} (w : WireOp V) p :
  wire_safe w -> path_ok p -> (forall v, w <> WR v) -> (forall id q, w <> WDefine id q) ->
  negb (roots_allowed w) && bool_decide (p = []) = false -> op_ok (decoded w p).
Proof.
  intros [_ Hw] Hp Hr Hd Hroot.
  destruct w; cbn in *; repeat case_bool_decide; destruct_and?; cbn in *; done.
Qed.

Lemma decode_loop_safe {V} (view : V -> shape V) paths pv out wire :
  paths_ok paths -> (forall q, pv = Some q -> path_ok q) -> Forall op_ok out ->
  paths_ok (decode_loop view paths pv out wire).1 /\
  forall ops, (decode_loop view paths pv out wire).2 = Ok ops -> Forall op_ok ops.
Proof.
  revert paths pv out. induction wire as [|raw wire IH]; intros paths pv out Hp Hpv Hout; cbn [decode_loop].
  { split; [done|]. by intros ? [= <-]. }
  destruct (assertValidWireOp view raw) as [w|e] eqn:Hw; [|done]. apply assertValidWireOp_safe in Hw.
  assert (forall (Hr : forall v, w <> WR v) (Hd : forall id q, w <> WDefine id q), let r := match resolve_ref paths pv (ref_of w) with
    | Ok path => if negb (roots_allowed w) && bool_decide (path = []) then (paths, Err PathError)
        else decode_loop view paths (Some path) (out ++ [decoded w path]) wire
    | Err e => (paths, Err e) end in paths_ok r.1 /\ forall ops, r.2 = Ok ops -> Forall op_ok ops) as G.
  { intros Hr Hd. destruct (resolve_ref paths pv (ref_of w)) as [path|e] eqn:Hres; [|done]. apply resolve_ref_ok in Hres; [|done|done|by apply Hw].
    destruct (_ && _) eqn:Hroot; [done|]. apply IH; [done|by intros ? [= <-]|].
    apply Forall_app. split; [done|]. constructor; [|constructor]. by apply decoded_ok. }
  destruct w; try (by apply G).
  - apply IH; [apply map_Forall_empty|done|]. apply Forall_app. split; [done|]. by repeat constructor.
  - apply IH; [|done|done]. apply map_Forall_insert_2; [apply Hw|done].
Qed.

(** ** Theorems *)

(** C11. A decoder that observes the batches of its encoder from the start
    gives back every operation of every batch, whatever paths were interned,
    shortened or redefined on the way. *)
Theorem codec_roundtrip batches :
  Forall batch_ok batches -> small (total_ops batches) ->
  decode_batches json_view ∅ (wire_tuples <$> encode_batches encoder batches) = Ok batches.
Proof. intros Hok Hs. apply stream_sync; [done|done|apply sync_empty]. Qed.

Definition sample_batches : list (list (Op json)) :=
  [[OpS [SStr $"a"; SNum 0] (JsBool true); OpA [SStr $"b"] $"x"; OpA [SStr $"b"] $"y"];
   [OpA [SStr $"b"] $"z"; OpD [SStr $"a"; SNum 0]; OpT [SStr $"b"] 1];
   [OpR JsNull; OpM [] [1; 0]; OpP [] 0 1 [JsNull]]].

Lemma sample_batches_ok : Forall batch_ok sample_batches /\ small (total_ops sample_batches).
Proof.
  assert (forall ops, Forall (fun op : Op json => op_ok op /\ op_small op) ops -> batch_ok ops) as G.
  { intros ops H. by apply Forall_and in H. }
  assert (bijection [1; 0]) as Hb by (unfold bijection; vm_compute; apply Permutation_swap).
  assert (forall k : jstring, bool_decide (k ∉ RESERVED_SEGMENTS) = true -> k ∉ RESERVED_SEGMENTS) as Hk
    by (intros; by eapply bool_decide_eq_true_1).
  assert (small 1 /\ small 0 /\ small 2) as (? & ? & ?) by (unfold small; lia).
  split; [|unfold small; vm_compute; done].
  unfold sample_batches. repeat (apply Forall_cons; split); [apply G..|constructor];
    repeat constructor; cbn; auto; try done; try (apply Hk; by vm_compute); try lia.
Qed.

Lemma codec_roundtrip_witness :
  encode_batches encoder sample_batches =
    [[WS (RInline [SStr $"a"; SNum 0]) (JsBool true); WA (RInline [SStr $"b"]) $"x"; WA RPrevious $"y"];
     [WDefine 0 [SStr $"b"]; WA (RId 0) $"z"; WDefine 1 [SStr $"a"; SNum 0]; WD (RId 1); WT (RId 0) 1];
     [WR JsNull; WM (RInline []) [1; 0]; WP RPrevious 0 1 [JsNull]]] /\
  decode_batches json_view ∅ (wire_tuples <$> encode_batches encoder sample_batches) = Ok sample_batches.
Proof. split; [by vm_compute|]. apply (codec_roundtrip sample_batches); apply sample_batches_ok. Defined.

(** A batch that begins with a replacement is a recovery point: whatever
    the encoder interned before it and whatever dictionary the reader has, a
    reader that starts there decodes that batch and all later ones. *)
Theorem codec_recovery st paths ops batches :
  isBase ops = true -> Forall batch_ok (ops :: batches) -> small (total_ops (ops :: batches)) ->
  decode_batches json_view paths (wire_tuples <$> encode_batches st (ops :: batches)) = Ok (ops :: batches).
Proof. apply stream_base. Qed.

Lemma codec_recovery_witness :
  let st := (encode (encode encoder (sample_batches !!! 0%nat)).1 (sample_batches !!! 1%nat)).1 in
  let batches := [sample_batches !!! 2%nat; sample_batches !!! 0%nat; sample_batches !!! 1%nat] in
  nextId st = 2 /\ decode_batches json_view {[ 0 := [SStr $"stale"] ]} (wire_tuples <$> encode_batches st batches) = Ok batches.
Proof.
  split; [by vm_compute|]. destruct sample_batches_ok as [H _].
  apply (codec_recovery _ _ (sample_batches !!! 2%nat)); [done| |by vm_compute].
  apply Forall_cons in H as [H0 H]. apply Forall_cons in H as [H1 H]. apply Forall_cons in H as [H2 _].
  repeat (apply Forall_cons; split); done.
Defined.

(** Whatever tuples arrive, every operation the decoder hands out is
    well-formed (no segment reaches the prototype chain, only splices and
    reorderings address the root, reorderings are bijections), and its
    dictionary never holds an unsafe path, not even after a rejected batch. *)
Theorem decode_safe V (view : V -> shape V) paths wire :
  paths_ok paths ->
  paths_ok (decode view paths wire).1 /\ forall ops, (decode view paths wire).2 = Ok ops -> Forall op_ok ops.
Proof. intros Hp. by apply decode_loop_safe. Qed.

Lemma decode_safe_witness :
  let wire := wire_tuples [WDefine 3 [SStr $"a"]; WS (RId 3) JsNull; WS (RInline [SStr $"__proto__"]) JsNull] in
  decode json_view ∅ wire = ({[ 3 := [SStr $"a"] ]}, Err UnsafePathError) /\
  paths_ok (decode json_view ∅ wire).1.
Proof. split; [by vm_compute|]. apply (decode_safe json json_view), map_Forall_empty. Defined.
