(* ===== verification/DeltaSame.v ===== *)
(** * Documents equal as JSON

Two replicas of a document may keep the keys of an object in different orders
and have zeros of different signs.  [same_json] is that equality; every step of
the tree semantics respects it, so a delta computed for one representative
serves them all. *)
From S2P Require Import Prelude JsNumber JsObject Json DeltaOps DeltaTree.
From Stdlib Require Import SpecFloat.
#[local] Open Scope Z_scope.

(** Equal up to the order of object keys, prototypes and the sign of zero. *)
Inductive same_json : json -> json -> Prop :=
| same_refl t : same_json t t
| same_num f g : num_strict_eq f g = true -> same_json (JsNum f) (JsNum g)
| same_arr l r : Forall2 same_json l r -> same_json (JsArr l) (JsArr r)
| same_obj np np' es os :
    (forall k, option_Forall2 same_json (obj_get es k) (obj_get os k)) -> same_json (JsObj np es) (JsObj np' os).

(** Induction through the lists and the members. *)
Section Induction.
Context (P : json -> json -> Prop).
Notation Q := (fun x y => same_json x y /\ P x y).
Context (Hrefl : forall t, P t t) (Hnum : forall f g, num_strict_eq f g = true -> P (JsNum f) (JsNum g)).
Context (Harr : forall l r, Forall2 Q l r -> P (JsArr l) (JsArr r)).
Context (Hobj : forall np np' es os, (forall k, option_Forall2 Q (obj_get es k) (obj_get os k)) -> P (JsObj np es) (JsObj np' os)).

Fixpoint same_json_nested t u (H : same_json t u) : P t u :=
  match H with
  | same_refl t => Hrefl t
  | same_num f g H => Hnum f g H
  | same_arr l r H => Harr l r
      ((fix go l r (H : Forall2 same_json l r) : Forall2 Q l r :=
          match H with
          | List.Forall2_nil _ => List.Forall2_nil _
          | List.Forall2_cons x y Hx Hl => List.Forall2_cons x y (conj Hx (same_json_nested x y Hx)) (go _ _ Hl)
          end) l r H)
  | same_obj np np' es os H => Hobj np np' es os (fun k =>
      match H k with
      | Some_Forall2 _ x y Hx => Some_Forall2 _ x y (conj Hx (same_json_nested x y Hx))
      | None_Forall2 _ => None_Forall2 _
      end)
  end.
End Induction.

Lemma num_strict_eq_sym f g : num_strict_eq f g = true -> num_strict_eq g f = true.
Proof. destruct f, g; cbn; rewrite ?bool_decide_eq_true; congruence. Qed.

Lemma num_strict_eq_trans f g h : num_strict_eq f g = true -> num_strict_eq g h = true -> num_strict_eq f h = true.
Proof. destruct f, g, h; cbn; rewrite ?bool_decide_eq_true; congruence. Qed.

#[export] Instance same_json_reflexive : Reflexive same_json.
Proof. intros t. constructor. Qed.

#[export] Instance same_json_symmetric : Symmetric same_json.
Proof.
  intros t u. induction 1 as [t|f g H|l r H|np np' es os H] using same_json_nested;
    [constructor|by apply same_num, num_strict_eq_sym|..].
  - apply same_arr, Forall2_flip. eapply Forall2_impl; [done|]. by intros x y [_ ?].
  - apply same_obj. intros k. destruct (H k) as [x y [_ ?]|]; by constructor.
Qed.

#[export] Instance same_json_transitive : Transitive same_json.
Proof.
  intros t u v H. revert v. induction H as [t|f g H|l r H|np np' es os H] using same_json_nested; intros v Hv; [done|..].
  - inversion Hv; subst; [by apply same_num|]. apply same_num. by eapply num_strict_eq_trans.
  - assert (forall w, Forall2 same_json r w -> same_json (JsArr l) (JsArr w)) as G.
    { intros w Hw. apply same_arr. clear Hv. revert w Hw. induction H as [|x y l r [_ Hx] Hl IH]; intros w Hw.
      - inversion Hw; subst. constructor.
      - inversion Hw; subst. constructor; auto. }
    inversion Hv; subst; apply G; [|done]. by apply reflexivity.
  - assert (forall np' ws, (forall k, option_Forall2 same_json (obj_get os k) (obj_get ws k)) ->
      same_json (JsObj np es) (JsObj np' ws)) as G.
    { intros np2 ws Hw. apply same_obj. intros k. specialize (Hw k).
      destruct (H k) as [x y [_ Hx]|]; inversion Hw; subst; constructor; auto. }
    inversion Hv; subst; apply G; [|done]. by intros k.
Qed.

#[export] Instance same_json_equivalence : Equivalence same_json.
Proof. split; apply _. Qed.

(** ** Reading and writing members *)

(** What each kind of document looks like to an equal one. *)
Lemma same_json_arr l u : same_json (JsArr l) u -> exists r, u = JsArr r /\ Forall2 same_json l r.
Proof. inversion 1; subst; eexists; split; done. Qed.

Lemma same_json_obj np es u :
  same_json (JsObj np es) u ->
  exists np' os, u = JsObj np' os /\ forall k, option_Forall2 same_json (obj_get es k) (obj_get os k).
Proof. inversion 1; subst; eexists _, _; split; done. Qed.

Lemma Forall2_at {A B} (R : A -> B -> Prop) l r n : Forall2 R l r -> option_Forall2 R (at_ l n) (at_ r n).
Proof. intros H. unfold at_. case_match; [constructor|]. by apply Forall2_lookup. Qed.

Lemma Forall2_blen {A B} (R : A -> B -> Prop) l r : Forall2 R l r -> blen l = blen r.
Proof. intros H%Forall2_length. unfold blen. by rewrite H. Qed.

#[export] Instance child_proper : Proper (same_json ==> eq ==> result_rel same_json) child.
Proof.
  intros t u H s _ <-. destruct H as [t|f g|l r H|np np' es os H]; [by apply result_rel_refl|done|..].
  - destruct s as [k|n]; [done|]. cbn. by destruct (Forall2_at _ _ _ n H).
  - assert (result_rel (E := DeltaError) same_json
      (match obj_get es (seg_key s) with Some c => Ok c | None => Err PathError end)
      (match obj_get os (seg_key s) with Some c => Ok c | None => Err PathError end)) as G
      by by destruct (H (seg_key s)).
    by destruct s.
Qed.

#[export] Instance member_proper : Proper (same_json ==> eq ==> result_rel (option_Forall2 same_json)) member.
Proof.
  intros t u H s _ <-. destruct H as [t|f g|l r H|np np' es os H]; [by apply result_rel_refl; intros o|done|..].
  - destruct s as [k|n]; [done|]. cbn. rewrite (Forall2_blen _ _ _ H). case_match; [done|]. by apply Forall2_at.
  - destruct s; apply H.
Qed.

Lemma obj_set_same es os k v w :
  (forall k, option_Forall2 same_json (obj_get es k) (obj_get os k)) -> same_json v w ->
  forall k', option_Forall2 same_json (obj_get (obj_set es k v) k') (obj_get (obj_set os k w) k').
Proof. intros H Hv k'. rewrite !obj_get_set. case_decide; [by constructor|apply H]. Qed.

Lemma arr_write_same l r n v w :
  Forall2 same_json l r -> same_json v w -> Forall2 same_json (arr_write l n v) (arr_write r n w).
Proof.
  intros H Hv. unfold arr_write. rewrite (Forall2_blen _ _ _ H). case_match; [by apply Forall2_insert|].
  apply Forall2_app; [done|]. by constructor.
Qed.

#[export] Instance define_member_proper : Proper (same_json ==> eq ==> same_json ==> same_json) define_member.
Proof.
  intros t u H s _ <- v w Hv. destruct H as [t|f g H|l r H|np np' es os H].
  - destruct t as [| | | |l|np es]; try done; destruct s as [k|n]; cbn; try done;
      [apply same_arr, arr_write_same|apply same_obj, obj_set_same..]; done.
  - destruct s; by apply same_num.
  - destruct s as [k|n]; cbn; [by apply same_arr|by apply same_arr, arr_write_same].
  - destruct s as [k|n]; cbn; by apply same_obj, obj_set_same.
Qed.

Lemma obj_delete_same es os k :
  (forall k, option_Forall2 same_json (obj_get es k) (obj_get os k)) ->
  forall k', option_Forall2 same_json (obj_get (obj_delete es k) k') (obj_get (obj_delete os k) k').
Proof. intros H k'. rewrite !obj_get_delete. case_decide; [by constructor|apply H]. Qed.

#[export] Instance remove_member_proper : Proper (same_json ==> eq ==> result_rel same_json) remove_member.
Proof.
  intros t u H s _ <-. destruct H as [t|f g|l r H|np np' es os H]; [by apply result_rel_refl|done|..].
  - destruct s as [k|n]; [done|]. cbn. rewrite (Forall2_blen _ _ _ H). case_match; [|done].
    cbn. by apply same_arr, Forall2_delete.
  - destruct s; cbn; by apply same_obj, obj_delete_same.
Qed.

(** ** Paths *)

#[export] Instance walk_proper : Proper (same_json ==> eq ==> result_rel same_json) walk.
Proof. intros t u H p _ <-. apply result_rel_foldM; [|done]. intros a b s _ Hab. by apply child_proper. Qed.

#[export] Instance put_at_proper : Proper (same_json ==> eq ==> same_json ==> same_json) put_at.
Proof.
  intros t u H p _ <- v w Hv. revert t u H. induction p as [|s p IH]; intros t u H; cbn [put_at]; [done|].
  pose proof (child_proper t u H s s eq_refl) as Hc. destruct (child t s), (child u s); try done.
  apply define_member_proper; [done|done|by apply IH].
Qed.

(** Edits that respect the equality of the value they edit. *)
Lemma edit_same t u p f g :
  option_Forall2 same_json t u -> (forall x y, same_json x y -> result_rel same_json (f x) (g y)) ->
  result_rel (option_Forall2 same_json) (edit t p f) (edit u p g).
Proof.
  intros Ht Hf. destruct Ht as [t u Ht|]; [|done]. cbn [edit]. eapply result_rel_bind.
  - eapply result_rel_bind; [by apply walk_proper|exact Hf].
  - intros x y Hxy. constructor. by apply put_at_proper.
Qed.

Lemma edit_member_same t u p f g :
  option_Forall2 same_json t u ->
  (forall x y k o o', same_json x y -> option_Forall2 same_json o o' -> result_rel same_json (f x k o) (g y k o')) ->
  result_rel (option_Forall2 same_json) (edit_member t p f) (edit_member u p g).
Proof.
  intros Ht Hf. unfold edit_member. destruct (split_last p) as [[q key]|]; [|done]. apply edit_same; [done|].
  intros x y Hxy. eapply result_rel_bind; [by apply member_proper|]. intros o o' Ho. by apply Hf.
Qed.

Lemma string_member_same o o' : option_Forall2 same_json o o' -> string_member o = string_member o'.
Proof. intros [x y H|]; [|done]. by destruct H. Qed.

Lemma with_string_same x y k o o' (f : jstring -> jstring) :
  same_json x y -> option_Forall2 same_json o o' ->
  result_rel same_json (string_member o ≫= fun s => Ok (define_member x k (JsStr (f s))))
                       (string_member o' ≫= fun s => Ok (define_member y k (JsStr (f s)))).
Proof.
  intros Hxy Ho. rewrite (string_member_same o o' Ho). destruct (string_member o'); cbn; [|done].
  by apply define_member_proper.
Qed.

Lemma splice_list_same l r i n items :
  Forall2 same_json l r -> Forall2 same_json (splice_list l i n items) (splice_list r i n items).
Proof.
  intros H. unfold splice_list. repeat apply Forall2_app; [by apply Forall2_take| |by apply Forall2_drop].
  apply Forall_Forall2_diag, Forall_forall. intros. by apply reflexivity.
Qed.

Lemma permute_same l r perm : Forall2 same_json l r -> Forall2 same_json (permute l perm) (permute r perm).
Proof.
  intros H. unfold permute. induction perm as [|i perm IH]; cbn; [constructor|].
  destruct (Forall2_at _ _ _ i H); [by constructor|done].
Qed.

(** Every operation respects the equality of documents. *)
Lemma tree_step_same t u op :
  option_Forall2 same_json t u -> result_rel (option_Forall2 same_json) (tree_step t op) (tree_step u op).
Proof.
  intros Ht. destruct op as [v|p v|p|p text|p n|p i n items|p perm]; cbn [tree_step].
  - by constructor.
  - apply edit_member_same; [done|]. intros x y k o o' Hxy _. by apply define_member_proper.
  - apply edit_member_same; [done|]. intros x y k o o' Hxy _. by apply remove_member_proper.
  - apply edit_member_same; [done|]. intros x y k o o'. apply (with_string_same x y k o o' (fun s => s ++ text)).
  - apply edit_member_same; [done|]. intros x y k o o'. apply (with_string_same x y k o o' (drop (Z.to_nat n))).
  - apply edit_same; [done|]. intros x y Hxy. destruct Hxy as [x|f g|l r H|]; [by apply result_rel_refl|done| |done].
    cbn. by apply same_arr, splice_list_same.
  - apply edit_same; [done|]. intros x y Hxy. destruct Hxy as [x|f g|l r H|]; [by apply result_rel_refl|done| |done].
    rewrite (Forall2_blen _ _ _ H). case_match; [|done]. by apply same_arr, permute_same.
Qed.

#[export] Instance tree_apply_proper :
  Proper (option_Forall2 same_json ==> eq ==> result_rel (option_Forall2 same_json)) tree_apply.
Proof. intros t u H ops _ <-. apply result_rel_foldM; [|done]. intros. by apply tree_step_same. Qed.
