(* ===== verification/DeltaDiff.v ===== *)
(** * Computing a delta between two revisions (packages/chord/src/delta/diff.ts)

The diff compares two immutable documents that may share containers and uses
[===] on containers as evidence that nothing changed.  A revision is therefore
modelled as a tree whose containers carry their identity; [erase] forgets it.
Arrays are compared in regions: equal ends are trimmed, then the first of four
strategies that finds anchor pairs splits the region, and the gaps between the
anchors are compared in turn.  The recursion is bounded by the sizes of the two
revisions; [DeltaDiffCorrect] shows the bound is enough and that applying the
operations to the first revision gives the second. *)
From S2P Require Import Prelude JsString JsNumber JsObject Json DeltaOps DeltaTree.
From Stdlib Require Import SpecFloat.
#[local] Open Scope Z_scope.

(** ** Revisions *)

Inductive revision :=
| RvNull
| RvBool (b : bool)
| RvNum (n : num)
| RvStr (s : jstring)
| RvArr (id : positive) (items : list revision)
| RvObj (id : positive) (null_proto : bool) (entries : list (jstring * revision)).

#[export] Instance rev_inhabited : Inhabited revision := populate RvNull.

Fixpoint erase (r : revision) : json :=
  match r with
  | RvNull => JsNull
  | RvBool b => JsBool b
  | RvNum n => JsNum n
  | RvStr s => JsStr s
  | RvArr _ l => JsArr (map erase l)
  | RvObj _ np es => JsObj np (map (fun e => (e.1, erase e.2)) es)
  end.

Fixpoint rsize (r : revision) : nat :=
  match r with
  | RvArr _ l => S (sum_list (map rsize l))
  | RvObj _ _ es => S (sum_list (map (fun e => rsize e.2) es))
  | _ => 1
  end.

(** [===] *)
Definition strict_eq (a b : revision) : bool :=
  match a, b with
  | RvNull, RvNull => true
  | RvBool x, RvBool y => bool_decide (x = y)
  | RvNum x, RvNum y => num_strict_eq x y
  | RvStr x, RvStr y => bool_decide (x = y)
  | RvArr i _, RvArr j _ | RvObj i _ _, RvObj j _ _ => bool_decide (i = j)
  | _, _ => false
  end.

(** The equality of [Map] keys, which also identifies NaN with itself. *)
Definition same_key (a b : revision) : bool :=
  match a, b with
  | RvNum S754_nan, RvNum S754_nan => true
  | _, _ => strict_eq a b
  end.

Definition isContainer (r : revision) : bool := match r with RvArr _ _ | RvObj _ _ _ => true | _ => false end.

(** ** Batches of operations *)

Definition MAX_DELTA_OPERATIONS : Z := 4096.
Definition DEFAULT_OVERLAP_SCAN : Z := 65536.
Definition MAX_IDENTITY_CANDIDATES : Z := 200000.
Definition MAX_SEMANTIC_CELLS : Z := 65536.

(** The operations so far, and membership in [overflowedBatches]. *)
Record batch := mkBatch { operations : list (Op revision); overflowed : bool }.

Definition emitOperation (b : batch) (op : Op revision) : batch :=
  if overflowed b then b
  else if MAX_DELTA_OPERATIONS <=? blen (operations b) then mkBatch (operations b) true
  else mkBatch (operations b ++ [op]) false.

Definition emitSet (path : Path) (value : revision) (b : batch) : batch :=
  if bool_decide (path = []) then emitOperation b (OpR value) else emitOperation b (OpS path value).

(** ** Comparing values *)

Fixpoint equalJson (left right : revision) : bool :=
  if strict_eq left right then true else
  match left, right with
  | RvArr _ l, RvArr _ r =>
      (length l =? length r)%nat &&
      (fix go (l r : list revision) : bool :=
         match l, r with x :: l, y :: r => equalJson x y && go l r | _, _ => true end) l r
  | RvObj _ _ es, RvObj _ _ os =>
      (length es =? length os)%nat &&
      forallb (fun e => match obj_get os e.1 with Some w => equalJson e.2 w | None => false end) es
  | _, _ => false
  end.

Definition sameValue (left right : revision) : bool := strict_eq left right || equalJson left right.

(** The positions of each value of [before], with how many have been used. *)
Notation position_map := (list (revision * (list nat * nat))).

Fixpoint position_add (m : position_map) (value : revision) (index : nat) : position_map :=
  match m with
  | [] => [(value, ([index], 0%nat))]
  | (v, (indices, used)) :: m =>
      if same_key v value then (v, (indices ++ [index], used)) :: m else (v, (indices, used)) :: position_add m value index
  end.

Definition positions_of (values : list revision) (start : nat) : position_map :=
  fold_left (fun m p => position_add m p.2 p.1) (zip (seq start (length values)) values) [].

Fixpoint position_take (m : position_map) (value : revision) : option (nat * position_map) :=
  match m with
  | [] => None
  | (v, (indices, used)) :: m =>
      if same_key v value then
        match indices !! used with Some i => Some (i, (v, (indices, S used)) :: m) | None => None end
      else match position_take m value with Some (i, m) => Some (i, (v, (indices, used)) :: m) | None => None end
  end.

Fixpoint permutation_result (m : position_map) (after : list revision) : option (list nat) :=
  match after with
  | [] => Some []
  | value :: after =>
      match position_take m value with
      | Some (i, m) => match permutation_result m after with Some r => Some (i :: r) | None => None end
      | None => None
      end
  end.

Definition permutation (before after : list revision) : option (list nat) :=
  if (length before =? length after)%nat then permutation_result (positions_of before 0) after else None.

(** ** Strings *)

(** The inner loop of [overlap], from position [k], for at most [tries] candidates. *)
Fixpoint overlap_candidates (tries : nat) (tail b head : jstring) (k : Z) : option Z :=
  match tries with
  | O => None
  | S tries =>
      match index_of head (drop (Z.to_nat k) tail) k with
      | None => None
      | Some k =>
          let n := blen tail - k in
          if (n <=? blen b) && bool_decide (drop (Z.to_nat k) tail = take (Z.to_nat n) b) then Some n
          else overlap_candidates tries tail b head (k + 1)
      end
  end.

Definition overlap (a b : jstring) (scan probe : Z) (maxCandidates : nat) : Z :=
  if (blen a =? 0) || (blen b =? 0) || (scan =? 0) then 0 else
  let tail := if scan <? blen a then drop (Z.to_nat (blen a - scan)) a else a in
  let h := Z.min probe (blen b) in
  match overlap_candidates maxCandidates tail b (take (Z.to_nat h) b) 0 with
  | Some n => n
  | None =>
      if h =? 1 then 0
      else match overlap_candidates maxCandidates tail b (take 1 b) 0 with Some n => n | None => 0 end
  end.

Definition emitString (before after : jstring) (path : Path) (b : batch) : batch :=
  if bool_decide (before = after) then b
  else if (length before <? length after)%nat && bool_decide (take (length before) after = before)
  then emitOperation b (OpA path (drop (length before) after))
  else
    let shared := overlap before after DEFAULT_OVERLAP_SCAN 64 8 in
    if shared =? 0 then emitOperation b (OpS path (RvStr after))
    else
      let b := emitOperation b (OpT path (blen before - shared)) in
      if shared <? blen after then emitOperation b (OpA path (drop (Z.to_nat shared) after)) else b.

(** ** Matching arrays *)

Notation ArrayMatch := (nat * nat)%type.

Definition is_nil {A} (l : list A) : bool := match l with [] => true | _ => false end.

Definition sub_list {A} (l : list A) (i j : nat) : list A := take (j - i) (drop i l).

(** One row of the table, from the row below it. *)
Fixpoint lcs_row (equal : revision -> revision -> bool) (x : revision) (after : list revision) (below : list nat) : list nat :=
  match after, below with
  | y :: after, n :: below =>
      let row := lcs_row equal x after below in
      (if equal x y then default 0 (head below) + 1 else Nat.max n (default 0 (head row)))%nat :: row
  | _, _ => [0%nat]
  end.

(** The rows of [lengths], the last one all zeros. *)
Fixpoint lcs_table (equal : revision -> revision -> bool) (before after : list revision) : list (list nat) :=
  match before with
  | [] => [repeat 0%nat (S (length after))]
  | x :: before =>
      let t := lcs_table equal before after in
      lcs_row equal x after (match t with row :: _ => row | [] => [] end) :: t
  end.

Definition cell (t : list (list nat)) (left right : nat) : nat := nth right (nth left t []) 0%nat.

Fixpoint lcs_walk (fuel : nat) (equal : revision -> revision -> bool) (before after : list revision) (t : list (list nat))
    (left right : nat) : list ArrayMatch :=
  match fuel with
  | O => []
  | S fuel =>
      match before !! left, after !! right with
      | Some x, Some y =>
          if equal x y && (cell t left right =? cell t (S left) (S right) + 1)%nat
          then (left, right) :: lcs_walk fuel equal before after t (S left) (S right)
          else if (cell t left (S right) <=? cell t (S left) right)%nat
          then lcs_walk fuel equal before after t (S left) right
          else lcs_walk fuel equal before after t left (S right)
      | _, _ => []
      end
  end.

Definition lcsMatches (before after : list revision) (equal : revision -> revision -> bool) (maxCells : Z) : option (list ArrayMatch) :=
  if is_nil before || is_nil after then Some []
  else if maxCells <? blen before * blen after then None
  else Some (lcs_walk (length before + length after) equal before after (lcs_table equal before after) 0 0).

Definition semanticallyAligned (left right : revision) : bool :=
  if sameValue left right then true else
  match left, right with
  | RvArr _ l, RvArr _ r =>
      (length l =? length r)%nat && existsb (fun p => isContainer p.1 && strict_eq p.1 p.2) (zip l r)
  | RvObj _ _ es, RvObj _ _ os =>
      existsb (fun e => match obj_get os e.1 with Some w => isContainer e.2 && strict_eq e.2 w | None => false end) es
  | _, _ => false
  end.

Fixpoint lower_bound_loop (fuel : nat) (values : list nat) (value low high : nat) : nat :=
  match fuel with
  | O => low
  | S fuel =>
      if (low <? high)%nat then
        let middle := Nat.div2 (low + high) in
        if (nth middle values 0 <? value)%nat then lower_bound_loop fuel values value (S middle) high
        else lower_bound_loop fuel values value low middle
      else low
  end.

Definition lowerBound (values : list nat) (value : nat) : nat :=
  lower_bound_loop (S (length values)) values value 0 (length values).

(** The first of the [n] indices from [i] with [p]. *)
Fixpoint find_index (n : nat) (p : nat -> bool) (i : nat) : option nat :=
  match n with
  | O => None
  | S n => if p i then Some i else find_index n p (S i)
  end.

(** [indices] in order, each paired with the next index of the other side, up to [last]. *)
Fixpoint subsequence_loop (p : nat -> nat -> bool) (indices : list nat) (at_ last : nat) : option (list ArrayMatch) :=
  match indices with
  | [] => Some []
  | i :: indices =>
      match find_index (last - at_) (p i) at_ with
      | None => None
      | Some j =>
          match subsequence_loop p indices (S j) last with Some ms => Some ((i, j) :: ms) | None => None end
      end
  end.

Definition identitySubsequence (before : list revision) (beforeStart beforeEnd : nat)
    (after : list revision) (afterStart afterEnd : nat) : option (list ArrayMatch) :=
  let beforeCount := (beforeEnd - beforeStart)%nat in
  let afterCount := (afterEnd - afterStart)%nat in
  if (afterCount <? beforeCount)%nat then
    match subsequence_loop (fun j i => strict_eq (before !!! i) (after !!! j)) (seq afterStart afterCount) beforeStart beforeEnd with
    | Some ms => Some (map (fun m => (m.2, m.1)) ms)
    | None => None
    end
  else if (beforeCount <? afterCount)%nat then
    subsequence_loop (fun i j => strict_eq (before !!! i) (after !!! j)) (seq beforeStart beforeCount) afterStart afterEnd
  else None.

Definition position_get (m : position_map) (value : revision) : option (list nat) :=
  match List.find (fun e => same_key e.1 value) m with Some (_, (indices, _)) => Some indices | None => None end.

(** [next] is [previous + 1]. *)
Fixpoint greedy_loop (positions : position_map) (after : list revision) (indices : list nat) (next : nat) : list ArrayMatch :=
  match indices with
  | [] => []
  | afterIndex :: indices =>
      match position_get positions (after !!! afterIndex) with
      | None => greedy_loop positions after indices next
      | Some candidates =>
          match candidates !! lowerBound candidates next with
          | None => greedy_loop positions after indices next
          | Some beforeIndex => (beforeIndex, afterIndex) :: greedy_loop positions after indices (S beforeIndex)
          end
      end
  end.

Definition greedyIdentityAnchors (positions : position_map) (after : list revision) (afterStart afterEnd : nat) : list ArrayMatch :=
  greedy_loop positions after (seq afterStart (afterEnd - afterStart)) 0.

(** [candidateCount], or nothing once it exceeds the limit. *)
Fixpoint count_candidates (positions : position_map) (after : list revision) (indices : list nat) (count : Z) : option Z :=
  match indices with
  | [] => Some count
  | i :: indices =>
      let count := count + blen (default [] (position_get positions (after !!! i))) in
      if MAX_IDENTITY_CANDIDATES <? count then None else count_candidates positions after indices count
  end.

Record MatchCandidate := mkCandidate { mc_before : nat; mc_after : nat; mc_previous : option nat }.

Record lis_state := mkLis { candidates : list MatchCandidate; tails : list nat; tailValues : list nat }.

(** [l[i] = v], for [i <= l.length]. *)
Definition array_put {A} (l : list A) (i : nat) (v : A) : list A := if (i <? length l)%nat then <[i := v]> l else l ++ [v].

Definition lis_candidate (afterIndex : nat) (st : lis_state) (beforeIndex : nat) : lis_state :=
  let at_ := lowerBound (tailValues st) beforeIndex in
  let previous := match at_ with O => None | S k => Some (nth k (tails st) 0%nat) end in
  mkLis (candidates st ++ [mkCandidate beforeIndex afterIndex previous])
        (array_put (tails st) at_ (length (candidates st)))
        (array_put (tailValues st) at_ beforeIndex).

Definition lis_after (positions : position_map) (after : list revision) (st : lis_state) (afterIndex : nat) : lis_state :=
  match position_get positions (after !!! afterIndex) with
  | None => st
  | Some beforePositions => fold_left (lis_candidate afterIndex) (reverse beforePositions) st
  end.

Fixpoint lis_back (fuel : nat) (candidates : list MatchCandidate) (index : option nat) : list ArrayMatch :=
  match fuel, index with
  | S fuel, Some i =>
      match candidates !! i with
      | Some c => (mc_before c, mc_after c) :: lis_back fuel candidates (mc_previous c)
      | None => []
      end
  | _, _ => []
  end.

Definition identityAnchors (before : list revision) (beforeStart beforeEnd : nat)
    (after : list revision) (afterStart afterEnd : nat) : list ArrayMatch :=
  let positions := positions_of (sub_list before beforeStart beforeEnd) beforeStart in
  let indices := seq afterStart (afterEnd - afterStart) in
  match count_candidates positions after indices 0 with
  | None => greedyIdentityAnchors positions after afterStart afterEnd
  | Some candidateCount =>
      if candidateCount =? 0 then []
      else
        let st := fold_left (lis_after positions after) indices (mkLis [] [] []) in
        reverse (lis_back (length (candidates st)) (candidates st) (last (tails st)))
  end.

(** ** Regions *)

Fixpoint common_prefix (n : nat) (before after : list revision) (i j : nat) : nat :=
  match n with
  | O => 0
  | S n => if sameValue (before !!! i) (after !!! j) then S (common_prefix n before after (S i) (S j)) else 0
  end.

(** The number of equal values that end at [i] and [j] (exclusive). *)
Fixpoint common_suffix (n : nat) (before after : list revision) (i j : nat) : nat :=
  match n with
  | O => 0
  | S n => if sameValue (before !!! pred i) (after !!! pred j) then S (common_suffix n before after (pred i) (pred j)) else 0
  end.

Definition positional_matches (before after : list revision) (beforeStart afterStart count : nat) : list ArrayMatch :=
  omap (fun offset =>
    if sameValue (before !!! (beforeStart + offset)%nat) (after !!! (afterStart + offset)%nat)
    then Some ((beforeStart + offset)%nat, (afterStart + offset)%nat) else None) (seq 0 count).

(** The matches of the first strategy that finds any. *)
Definition region_matches (before after : list revision) (beforeStart beforeEnd afterStart afterEnd : nat) : list ArrayMatch :=
  let beforeCount := (beforeEnd - beforeStart)%nat in
  let afterCount := (afterEnd - afterStart)%nat in
  let positional := if (beforeCount =? afterCount)%nat
    then positional_matches before after beforeStart afterStart beforeCount else [] in
  if negb (is_nil positional) then positional else
  let subsequence := default [] (identitySubsequence before beforeStart beforeEnd after afterStart afterEnd) in
  if negb (is_nil subsequence) then subsequence else
  let identity := identityAnchors before beforeStart beforeEnd after afterStart afterEnd in
  if negb (is_nil identity) then identity else
  map (fun m => ((beforeStart + m.1)%nat, (afterStart + m.2)%nat))
    (default [] (lcsMatches (sub_list before beforeStart beforeEnd) (sub_list after afterStart afterEnd)
                   semanticallyAligned MAX_SEMANTIC_CELLS)).

Section Process.
Context (region : list revision -> list revision -> Path -> nat -> nat -> nat -> nat -> nat -> batch -> batch).
Context (value : revision -> revision -> Path -> batch -> batch).

Fixpoint processArrayMatches (before after : list revision) (path : Path) (beforeAt beforeEnd afterAt afterEnd outputAt : nat)
    (matches : list ArrayMatch) (b : batch) : batch :=
  match matches with
  | [] => if overflowed b then b else region before after path beforeAt beforeEnd afterAt afterEnd outputAt b
  | (beforeMatch, afterMatch) :: matches =>
      if overflowed b then b
      else
        let b := region before after path beforeAt beforeMatch afterAt afterMatch outputAt b in
        let outputAt := (outputAt + (afterMatch - afterAt))%nat in
        let b :=
          if sameValue (before !!! beforeMatch) (after !!! afterMatch) then b
          else value (before !!! beforeMatch) (after !!! afterMatch) (path ++ [SNum (Z.of_nat outputAt)]) b in
        processArrayMatches before after path (S beforeMatch) beforeEnd (S afterMatch) afterEnd (S outputAt) matches b
  end.

Definition diffArray (before_value after_value : revision) (before after : list revision) (path : Path) (b : batch) : batch :=
  if strict_eq before_value after_value || equalJson before_value after_value then b
  else
    let order :=
      if (length before =? length after)%nat && (1 <? length before)%nat
         && negb (sameValue (before !!! 0%nat) (after !!! 0%nat))
         && negb (sameValue (before !!! pred (length before)) (after !!! pred (length after)))
      then permutation before after else None in
    match order with
    | Some order => emitOperation b (OpM path (map Z.of_nat order))
    | None => region before after path 0 (length before) 0 (length after) 0 b
    end.

(** One round over the keys of [after], and one over those of [before]. *)
Definition diff_key (before : list (jstring * revision)) (path : Path) (b : batch) (e : jstring * revision) : batch :=
  if overflowed b then b
  else
    match obj_get before e.1 with
    | Some old => value old e.2 (path ++ [SStr e.1]) b
    | None => emitSet (path ++ [SStr e.1]) e.2 b
    end.

Definition drop_key (after : list (jstring * revision)) (path : Path) (b : batch) (e : jstring * revision) : batch :=
  if overflowed b then b
  else if obj_has after e.1 then b else emitOperation b (OpD (path ++ [SStr e.1])).

Definition diffObject (before_value after_value : revision) (before after : list (jstring * revision)) (path : Path) (b : batch) : batch :=
  if existsb (fun key => bool_decide (key ∈ RESERVED_SEGMENTS)) (obj_keys before ++ obj_keys after) then
    if equalJson before_value after_value then b else emitSet path after_value b
  else fold_left (drop_key after path) before (fold_left (diff_key before path) after b).
End Process.

Fixpoint diffValue (fuel : nat) (before after : revision) (path : Path) (b : batch) {struct fuel} : batch :=
  match fuel with
  | O => b
  | S fuel =>
      if strict_eq before after || overflowed b then b
      else
        match before, after with
        | RvStr s, RvStr t => if bool_decide (path = []) then emitSet path after b else emitString s t path b
        | RvArr _ l, RvArr _ r => diffArray (diffArrayRegion fuel) before after l r path b
        | RvObj _ _ es, RvObj _ _ os => diffObject (diffValue fuel) before after es os path b
        | _, _ => emitSet path after b
        end
  end
with diffArrayRegion (fuel : nat) (before after : list revision) (path : Path)
    (beforeStart beforeEnd afterStart afterEnd outputStart : nat) (b : batch) {struct fuel} : batch :=
  match fuel with
  | O => b
  | S fuel =>
      if overflowed b then b
      else
        let front := common_prefix (Nat.min (beforeEnd - beforeStart) (afterEnd - afterStart)) before after beforeStart afterStart in
        let beforeStart := (beforeStart + front)%nat in
        let afterStart := (afterStart + front)%nat in
        let outputStart := (outputStart + front)%nat in
        let back := common_suffix (Nat.min (beforeEnd - beforeStart) (afterEnd - afterStart)) before after beforeEnd afterEnd in
        let beforeEnd := (beforeEnd - back)%nat in
        let afterEnd := (afterEnd - back)%nat in
        let beforeCount := (beforeEnd - beforeStart)%nat in
        let afterCount := (afterEnd - afterStart)%nat in
        let splice := OpP path (Z.of_nat outputStart) (Z.of_nat beforeCount) (sub_list after afterStart afterEnd) in
        if (beforeCount =? 0)%nat && (afterCount =? 0)%nat then b
        else if (beforeCount =? 0)%nat || (afterCount =? 0)%nat then emitOperation b splice
        else
          match region_matches before after beforeStart beforeEnd afterStart afterEnd with
          | [] =>
              if (beforeCount =? 1)%nat && (afterCount =? 1)%nat
              then diffValue fuel (before !!! beforeStart) (after !!! afterStart) (path ++ [SNum (Z.of_nat outputStart)]) b
              else emitOperation b splice
          | matches =>
              processArrayMatches (diffArrayRegion fuel) (diffValue fuel) before after path
                beforeStart beforeEnd afterStart afterEnd outputStart matches b
          end
  end.

(** Two nested calls for every node the two revisions have. *)
Definition diff_fuel (before after : revision) : nat := 2 * (rsize before + rsize after).

(** ** The cost of a batch against a snapshot *)

(** [String(f).length] for a number: the shortest decimal that rounds to it.
    The rounding interval of [m * 2^e] and the candidate [s * 10^q] are compared
    as fractions with the denominator [2^(2 - e)]. *)
Section NumberText.
Context (m : positive) (e : Z).

Definition scale_up : Z := 2 ^ Z.max 0 (e - 2).
Definition scale_down : Z := 2 ^ Z.max 0 (2 - e).
Definition quarter (x : Z) : Z := x * scale_up.

(** [s * 10^q] compared with [x / scale_down]. *)
Definition decimal_cmp (s q x : Z) : comparison :=
  if 0 <=? q then (s * 10 ^ q * scale_down ?= x) else (s * scale_down ?= x * 10 ^ (- q)).

Definition rounds_to (s q : Z) : bool :=
  let low := quarter (4 * Z.pos m - (if (Z.pos m =? 2 ^ 52) && (-1074 <? e) then 1 else 2)) in
  let high := quarter (4 * Z.pos m + 2) in
  let even := Z.even (Z.pos m) in
  match decimal_cmp s q low with Gt => true | Eq => even | Lt => false end &&
  match decimal_cmp s q high with Lt => true | Eq => even | Gt => false end.

(** The exponent [n] with [10^(n-1) <= value < 10^n]. *)
Fixpoint exponent_from (fuel : nat) (n : Z) : Z :=
  match fuel with
  | O => n
  | S fuel => match decimal_cmp 1 n (quarter (4 * Z.pos m)) with Gt => n | _ => exponent_from fuel (n + 1) end
  end.

(** The fewest digits [k] and the exponent of a decimal that rounds to the value. *)
Fixpoint shortest (fuel : nat) (k n : Z) : Z * Z :=
  match fuel with
  | O => (k, n)
  | S fuel =>
      let q := n - k in
      let s := if 0 <=? q then quarter (4 * Z.pos m) / (scale_down * 10 ^ q)
               else quarter (4 * Z.pos m) * 10 ^ (- q) / scale_down in
      if rounds_to s q then (k, n)
      else if rounds_to (s + 1) q then (k, if s + 1 =? 10 ^ k then n + 1 else n)
      else shortest fuel (k + 1) n
  end.

Definition positive_length : Z :=
  let '(k, n) := shortest 17 1 (exponent_from 640 (-324)) in
  if (k <=? n) && (n <=? 21) then n
  else if (0 <? n) && (n <=? 21) then k + 1
  else if (-6 <? n) && (n <=? 0) then 2 - n + k
  else (if k =? 1 then 1 else k + 1) + 2 + blen (decimal (Z.abs (n - 1))).
End NumberText.

Definition number_length (f : num) : Z :=
  match f with
  | S754_zero _ => 1
  | S754_infinity s => if s then 9 else 8
  | S754_nan => 3
  | S754_finite s m e => (if s then 1 else 0) + positive_length m e
  end.

Fixpoint jsonCost (value : revision) : Z :=
  match value with
  | RvNull => 4
  | RvStr s => blen s + 2
  | RvNum n => number_length n
  | RvBool b => if b then 4 else 5
  | RvArr _ l => 2 + fold_right Z.add 0 (map jsonCost l) + Z.max 0 (blen l - 1)
  | RvObj _ _ es => 2 + fold_right Z.add 0 (map (fun e => blen e.1 + 3 + jsonCost e.2) es) + Z.max 0 (blen es - 1)
  end.

(** The cost of an array of numbers, and of an array of values. *)
Definition numbers_cost (l : list Z) : Z :=
  2 + fold_right Z.add 0 (map (fun n => blen (decimal n)) l) + Z.max 0 (blen l - 1).

Definition items_cost (l : list revision) : Z := 2 + fold_right Z.add 0 (map jsonCost l) + Z.max 0 (blen l - 1).

Definition pathCost (path : Path) : Z :=
  2 + fold_right Z.add 0 (map (fun s => match s with SStr k => blen k + 2 | SNum n => blen (decimal n) end) path)
  + Z.max 0 (blen path - 1).

Definition operationCost (op : Op revision) : Z :=
  match op with
  | OpR v => 6 + jsonCost v
  | OpS p v => 7 + pathCost p + jsonCost v
  | OpD p => 6 + pathCost p
  | OpA p t => 7 + pathCost p + blen t + 2
  | OpT p n => 7 + pathCost p + blen (decimal n)
  | OpP p i r items => 10 + pathCost p + blen (decimal i) + blen (decimal r) + items_cost items
  | OpM p perm => 7 + pathCost p + numbers_cost perm
  end.

Definition diffRevisions (before after : revision) : list (Op revision) :=
  let b := diffValue (diff_fuel before after) before after [] (mkBatch [] false) in
  let ops := operations b in
  if overflowed b then [OpR after]
  else if is_nil ops || isBase ops then ops
  else
    let deltaCost := fold_left (fun cost op => cost + (operationCost op + 1)) ops 2 in
    if deltaCost <? 65536 then ops
    else if jsonCost after + 6 <=? deltaCost then [OpR after] else ops.

(** Operations over documents. *)
Definition erase_op (op : Op revision) : Op json :=
  match op with
  | OpR v => OpR (erase v)
  | OpS p v => OpS p (erase v)
  | OpD p => OpD p
  | OpA p t => OpA p t
  | OpT p n => OpT p n
  | OpP p i r items => OpP p i r (map erase items)
  | OpM p perm => OpM p perm
  end.

(** ** Examples *)

Example number_length_examples :
  map number_length [of_Z 0; of_Z 120; of_bits64 0x3FB999999999999A; of_bits64 0x3FF0000000000000;
    of_bits64 0x44B52D02C7E14AF6; of_bits64 1; of_bits64 0x3EE4F8B588E368F1; of_bits64 0x7FEFFFFFFFFFFFFF;
    of_bits64 0xBFD5555555555555; of_bits64 0x4340000000000000]
  = [1; 3; 3; 1; 5; 6; 7; 23; 19; 16].
Proof. vm_compute. reflexivity. Qed.
