(* ===== verification/DeltaDiffCorrect.v ===== *)
(** * A diff leads from the first revision to the second

Correctness of packages/chord/src/delta/diff.ts against the meaning of the
operations ([DeltaTree]): applying [diffRevisions before after] to [before]
succeeds and gives a document equal to [after] as JSON text up to the order of
object keys.  The anchors the array strategies choose only need to be
increasing pairs of positions; every strategy is shown to deliver that, the
reordering test to deliver a bijection, and the fuel to be enough. *)
From S2P Require Import Prelude JsString JsNumber JsObject Json DeltaOps DeltaTree DeltaSame DeltaDiff.
From Stdlib Require Import SpecFloat.
#[local] Open Scope Z_scope.

(** ** What a list of operations does to the value at a path *)

Definition runs (t : json) (ops : list (Op revision)) (t' : json) : Prop :=
  tree_apply (Some t) (erase_op <$> ops) = Ok (Some t').

(** Run on any document whose value at [P] is [X], they put [Y] there. *)
Definition effect (P : Path) (ops : list (Op revision)) (X Y : json) : Prop :=
  forall R, walk R P = Ok X -> runs R ops (put_at R P Y).

Lemma effect_nil P X : effect P [] X X.
Proof. intros R HR. unfold runs. cbn. f_equal. f_equal. symmetry. eapply put_same; [done|]. apply define_same. Qed.

Lemma effect_app P ops1 ops2 X Y Z : effect P ops1 X Y -> effect P ops2 Y Z -> effect P (ops1 ++ ops2) X Z.
Proof.
  intros H1 H2 R HR. unfold runs, tree_apply in *. rewrite fmap_app, foldM_app.
  rewrite (H1 R HR). cbn [mbind result_bind]. rewrite (H2 _ (walk_put _ _ _ _ HR)).
  by erewrite put_put.
Qed.

Lemma effect_child P ops X s c c' :
  child X s = Ok c -> effect (P ++ [s]) ops c c' -> effect P ops X (define_member X s c').
Proof.
  intros Hc H R HR. specialize (H R). rewrite (walk_snoc _ _ _ _ HR), Hc in H.
  by erewrite <- put_snoc; [apply H|..].
Qed.

Lemma effect_edit P (op : Op revision) X Y f :
  (forall R, tree_step (Some R) (erase_op op) = edit (Some R) P f) -> f X = Ok Y -> effect P [op] X Y.
Proof.
  intros Hop HX R HR. unfold runs, tree_apply. cbn [fmap list_fmap foldM]. rewrite Hop. cbn. rewrite HR. cbn.
  by rewrite HX.
Qed.

(** An operation on the member [s] of the container at [P]. *)
Lemma effect_edit_member P s (op : Op revision) X Y o f :
  (forall R, tree_step (Some R) (erase_op op) = edit_member (Some R) (P ++ [s]) f) ->
  member X s = Ok o -> f X s o = Ok Y -> effect P [op] X Y.
Proof.
  intros Hop Hm HX. eapply effect_edit; [intros R; rewrite Hop; unfold edit_member; by rewrite split_last_snoc|].
  cbn. by rewrite Hm.
Qed.

Lemma child_member X s c : child X s = Ok c -> member X s = Ok (Some c).
Proof.
  destruct X as [|b|f|str|l|np es], s as [k|n]; try done; cbn.
  - destruct (at_ l n) eqn:E; [|done]. intros [= ->]. apply at_Some in E. by rewrite (proj2 (Z.ltb_ge _ _)) by lia.
  - destruct (obj_get es k) eqn:E; [|done]. by intros [= ->].
  - destruct (obj_get es (decimal n)) eqn:E; [|done]. by intros [= ->].
Qed.

(** The same for the value at a non-empty path itself. *)
Lemma effect_member_at P s (op : Op revision) c Y f :
  (forall R, tree_step (Some R) (erase_op op) = edit_member (Some R) (P ++ [s]) f) ->
  (forall X, f X s (Some c) = Ok (define_member X s Y)) -> effect (P ++ [s]) [op] c Y.
Proof.
  intros Hop Hf R HR. unfold walk in HR. rewrite foldM_app in HR. apply bind_Ok in HR as (X & HX & Hc).
  cbn in Hc. assert (child X s = Ok c) as Hc' by (destruct (child X s); [by injection Hc as ->|done]).
  erewrite put_snoc by done.
  exact (effect_edit_member P s op X _ _ f Hop (child_member _ _ _ Hc') (Hf X) R HX).
Qed.

Lemma effect_set P s v X o : member X s = Ok o -> effect P [OpS (P ++ [s]) v] X (define_member X s (erase v)).
Proof. intros H. by eapply effect_edit_member. Qed.

Lemma effect_delete P s X Y o : member X s = Ok o -> remove_member X s = Ok Y -> effect P [OpD (P ++ [s])] X Y.
Proof. intros H H'. by eapply effect_edit_member. Qed.

Lemma effect_replace P v X : P <> [] -> effect P [OpS P v] X (erase v).
Proof.
  intros HP. destruct P as [|s P _] using rev_ind; [done|]. by eapply effect_member_at.
Qed.

Lemma effect_append P t s : P <> [] -> effect P [OpA P t] (JsStr s) (JsStr (s ++ t)).
Proof.
  intros HP. destruct P as [|x P _] using rev_ind; [done|]. by eapply effect_member_at.
Qed.

Lemma effect_truncate P n s : P <> [] -> effect P [OpT P n] (JsStr s) (JsStr (drop (Z.to_nat n) s)).
Proof.
  intros HP. destruct P as [|x P _] using rev_ind; [done|]. by eapply effect_member_at.
Qed.

Lemma effect_root v X : effect [] [OpR v] X (erase v).
Proof. intros R HR. done. Qed.

Lemma effect_splice P i r items l :
  effect P [OpP P i r items] (JsArr l) (JsArr (splice_list l i r (map erase items))).
Proof. by eapply effect_edit. Qed.

Lemma effect_permute P perm l :
  blen l = blen perm -> effect P [OpM P perm] (JsArr l) (JsArr (permute l perm)).
Proof. intros H. eapply effect_edit; [done|]. cbn. by rewrite H, Z.eqb_refl. Qed.

(** ** What a step of the diff contributes *)

Definition safe_path (P : Path) : Prop := path_ok P /\ Forall seg_small P.

(** Unless the batch overflows, [b'] extends [b] by well-formed operations that
    turn [X] at [P] into a value with [Q]. *)
Definition produces (b b' : batch) (P : Path) (X : json) (Q : json -> Prop) : Prop :=
  overflowed b' = false ->
  overflowed b = false /\
  exists ops Y, operations b' = operations b ++ ops /\ Forall op_ok ops /\ Forall op_small ops /\ effect P ops X Y /\ Q Y.

Lemma produces_id b P X (Q : json -> Prop) : Q X -> produces b b P X Q.
Proof.
  intros HQ Hb. split; [done|]. exists [], X. rewrite app_nil_r.
  split_and!; [done|constructor|constructor|apply effect_nil|done].
Qed.

Lemma produces_overflowed b P X Q : overflowed b = true -> produces b b P X Q.
Proof. intros H H'. congruence. Qed.

Lemma produces_seq b b1 b2 P X (Q1 Q2 : json -> Prop) :
  (overflowed b1 = true -> b2 = b1) ->
  produces b b1 P X Q1 -> (forall Y, Q1 Y -> produces b1 b2 P Y Q2) -> produces b b2 P X Q2.
Proof.
  intros Hk H1 H2 Hb2.
  assert (overflowed b1 = false) as Hb1 by (destruct (overflowed b1) eqn:E; [rewrite Hk in Hb2; congruence|done]).
  destruct (H1 Hb1) as (Hb & ops1 & Y & E1 & Ho1 & Hs1 & He1 & HQ1).
  destruct (H2 Y HQ1 Hb2) as (_ & ops2 & Z & E2 & Ho2 & Hs2 & He2 & HQ2).
  split; [done|]. exists (ops1 ++ ops2), Z. rewrite E2, E1, app_assoc.
  split_and!; [done|by apply Forall_app|by apply Forall_app|by eapply effect_app|done].
Qed.

Lemma produces_mono b b' P X (Q Q' : json -> Prop) :
  (forall Y, Q Y -> Q' Y) -> produces b b' P X Q -> produces b b' P X Q'.
Proof. intros HQ H Hb. destruct (H Hb) as (? & ops & Y & ?). destruct_and!. split; [done|]. exists ops, Y. split_and!; auto. Qed.

Lemma emit_overflowed b op : overflowed b = true -> emitOperation b op = b.
Proof. unfold emitOperation. by intros ->. Qed.

Lemma produces_emit b op P X Y (Q : json -> Prop) :
  effect P [op] X Y -> op_ok op -> op_small op -> Q Y -> produces b (emitOperation b op) P X Q.
Proof.
  intros He Ho Hs HQ Hb. unfold emitOperation in *. destruct (overflowed b) eqn:E; [congruence|].
  split; [done|]. case_match; [done|]. exists [op], Y. split_and!; [done|by constructor|by constructor|done|done].
Qed.

Lemma produces_child b b' P s X c (Q : json -> Prop) :
  child X s = Ok c -> produces b b' (P ++ [s]) c Q ->
  produces b b' P X (fun Y => exists c', Y = define_member X s c' /\ Q c').
Proof.
  intros Hc H Hb. destruct (H Hb) as (? & ops & c' & ? & ? & ? & ? & ?). split; [done|].
  exists ops, (define_member X s c'). split_and!; [done|done|done|by eapply effect_child|eauto].
Qed.

Lemma emitSet_overflowed b P v : overflowed b = true -> emitSet P v b = b.
Proof. intros H. unfold emitSet. case_bool_decide; by apply emit_overflowed. Qed.

Lemma produces_emitSet b P v X (Q : json -> Prop) :
  safe_path P -> Q (erase v) -> produces b (emitSet P v b) P X Q.
Proof.
  intros [Hp Hs] HQ. unfold emitSet. case_bool_decide as E.
  - subst. by eapply produces_emit; [apply effect_root|..].
  - by eapply produces_emit; [by apply effect_replace|..].
Qed.

(** ** Strings *)

(** The result of a scan is an overlap of [tail] and [b]. *)
Definition is_overlap (a b : jstring) (n : Z) : Prop :=
  0 <= n <= blen a /\ n <= blen b /\ drop (Z.to_nat (blen a - n)) a = take (Z.to_nat n) b.

Lemma overlap_candidates_sound tries tail b head k n :
  0 <= k <= blen tail -> overlap_candidates tries tail b head k = Some n -> is_overlap tail b n.
Proof.
  revert k. induction tries as [|tries IH]; intros k Hk; cbn [overlap_candidates]; [done|].
  destruct (index_of _ _ _) as [k'|] eqn:E; [|done]. apply index_of_bounds in E.
  assert (k <= k' <= blen tail) as Hk'.
  { unfold blen in *. rewrite length_drop in E. lia. }
  clear E. case_match eqn:E.
  - intros [= <-]. apply andb_true_iff in E as [E1 E2]. apply bool_decide_eq_true in E2.
    split_and!; [lia..|]. by replace (blen tail - (blen tail - k')) with k' by lia.
  - destruct (Z.eq_dec k' (blen tail)) as [->|].
    + (* an empty rest matches the empty prefix *)
      rewrite Z.sub_diag in E. pose proof (blen_nonneg b). rewrite (proj2 (Z.leb_le 0 (blen b))) in E by lia.
      apply bool_decide_eq_false in E. exfalso. apply E. unfold blen. by rewrite Nat2Z.id, drop_all.
    + apply IH. lia.
Qed.

Lemma is_overlap_suffix m a b n :
  0 <= m <= blen a -> is_overlap (drop (Z.to_nat m) a) b n -> is_overlap a b n.
Proof.
  intros Hm (Hn & Hb & E). assert (blen (drop (Z.to_nat m) a) = blen a - m) as Hl.
  { unfold blen in *. rewrite length_drop. lia. }
  rewrite Hl in *. split_and!; [lia..|]. rewrite <- E, drop_drop. f_equal. lia.
Qed.

Lemma is_overlap_0 a b : is_overlap a b 0.
Proof.
  unfold is_overlap. pose proof (blen_nonneg a). pose proof (blen_nonneg b). split_and!; [lia..|].
  unfold blen. by rewrite Z.sub_0_r, Nat2Z.id, drop_all.
Qed.

Lemma overlap_sound a b scan probe max : 0 <= scan -> is_overlap a b (overlap a b scan probe max).
Proof.
  intros Hs. unfold overlap. destruct (_ || _); [apply is_overlap_0|].
  set (tail := if scan <? blen a then _ else _).
  assert (forall n, is_overlap tail b n -> is_overlap a b n) as Hsuf.
  { unfold tail. intros n. destruct (Z.ltb_spec scan (blen a)); [|done]. apply is_overlap_suffix. lia. }
  assert (0 <= 0 <= blen tail) as H0 by (pose proof (blen_nonneg tail); lia).
  repeat case_match; try apply is_overlap_0; apply Hsuf; by eapply overlap_candidates_sound.
Qed.

Lemma emitString_overflowed b s t P : overflowed b = true -> emitString s t P b = b.
Proof. intros H. unfold emitString. rewrite !emit_overflowed by (by rewrite ?emit_overflowed). by repeat case_match. Qed.

Lemma produces_string b s t P :
  safe_path P -> P <> [] -> small (blen s) ->
  produces b (emitString s t P b) P (JsStr s) (fun Y => same_json Y (JsStr t)).
Proof.
  intros [Hp Hsm] HP Hs. unfold emitString. case_bool_decide as E; [subst; apply produces_id; constructor|].
  destruct (_ && _) eqn:Epre.
  - apply andb_true_iff in Epre as [_ Epre]. apply bool_decide_eq_true in Epre.
    eapply produces_emit; [by apply effect_append|done|done|].
    pose proof (take_drop (length s) t) as Ht. rewrite Epre in Ht. rewrite Ht. constructor.
  - clear Epre. pose proof (overlap_sound s t DEFAULT_OVERLAP_SCAN 64 8 ltac:(done)) as (Hn & Hb & Ho).
    set (n := overlap _ _ _ _ _) in *. destruct (Z.eqb_spec n 0) as [|Hne].
    { eapply produces_emit; [by apply effect_replace|done|done|constructor]. }
    eapply produces_seq with (Q1 := fun Y => Y = JsStr (take (Z.to_nat n) t)).
    + intros Ho'. case_match; [by apply emit_overflowed|done].
    + eapply produces_emit; [by apply effect_truncate| | |by rewrite Ho].
      * cbn. split_and!; [done|done|lia].
      * cbn. split; [done|]. unfold small in *. lia.
    + intros ? ->. destruct (Z.ltb_spec n (blen t)).
      * eapply produces_emit; [by apply effect_append|done|done|]. rewrite take_drop. constructor.
      * apply produces_id. rewrite take_ge by (unfold blen in *; lia). constructor.
Qed.

(** ** Anchors are increasing pairs of positions *)

Section Anchors.
#[local] Open Scope nat_scope.

Fixpoint incr (b bEnd a aEnd : nat) (ms : list ArrayMatch) : Prop :=
  match ms with
  | [] => b <= bEnd /\ a <= aEnd
  | (i, j) :: ms => b <= i < bEnd /\ a <= j < aEnd /\ incr (S i) bEnd (S j) aEnd ms
  end.

Lemma incr_weaken b b' bEnd a a' aEnd ms : b <= b' -> a <= a' -> incr b' bEnd a' aEnd ms -> incr b bEnd a aEnd ms.
Proof. intros Hb Ha. destruct ms as [|[i j] ms]; cbn; [lia|]. intros (? & ? & ?). split_and!; [lia..|done]. Qed.

Lemma incr_bounds b bEnd a aEnd ms : incr b bEnd a aEnd ms -> b <= bEnd /\ a <= aEnd.
Proof. destruct ms as [|[i j] ms]; cbn; lia. Qed.

Lemma incr_extend b bEnd bEnd' a aEnd aEnd' ms :
  bEnd <= bEnd' -> aEnd <= aEnd' -> incr b bEnd a aEnd ms -> incr b bEnd' a aEnd' ms.
Proof.
  intros Hb Ha. revert b a. induction ms as [|[i j] ms IH]; intros b a; cbn; [lia|].
  intros (? & ? & ?). split_and!; [lia..|by apply IH].
Qed.

Lemma incr_snoc b a ms i j : incr b i a j ms -> incr b (S i) a (S j) (ms ++ [(i, j)]).
Proof.
  revert b a. induction ms as [|[k l] ms IH]; intros b a; cbn; [lia|].
  intros (? & ? & ?). split_and!; [lia..|by apply IH].
Qed.

Lemma incr_swap b bEnd a aEnd ms : incr a aEnd b bEnd ms -> incr b bEnd a aEnd (map (fun m => (m.2, m.1)) ms).
Proof.
  revert b a. induction ms as [|[i j] ms IH]; intros b a; cbn; [lia|].
  intros (? & ? & ?). split_and!; [lia..|by apply IH].
Qed.

Lemma incr_shift b0 a0 b bEnd a aEnd ms :
  incr b bEnd a aEnd ms -> incr (b0 + b) (b0 + bEnd) (a0 + a) (a0 + aEnd) (map (fun m => (b0 + m.1, a0 + m.2)) ms).
Proof.
  revert b a. induction ms as [|[i j] ms IH]; intros b a; cbn; [lia|].
  intros (? & ? & Hms). split_and!; [lia..|]. rewrite <- !Nat.add_succ_r. by apply IH.
Qed.

Lemma positional_incr (before after : list revision) b a k n :
  incr (b + k) (b + (k + n)) (a + k) (a + (k + n))
    (omap (fun offset => if sameValue (before !!! (b + offset)) (after !!! (a + offset))
                         then Some (b + offset, a + offset) else None) (seq k n)).
Proof.
  revert k. induction n as [|n IH]; intros k; cbn; [lia|]. specialize (IH (S k)).
  replace (k + S n) with (S k + n) by lia. destruct (sameValue _ _); cbn.
  - split_and!; [lia..|]. eapply incr_weaken; [| |exact IH]; lia.
  - eapply incr_weaken; [| |exact IH]; lia.
Qed.

Lemma find_index_bounds n p i j : find_index n p i = Some j -> i <= j < i + n.
Proof.
  revert i. induction n as [|n IH]; intros i; cbn; [done|]. case_match; [intros [= <-]; lia|].
  intros H'%IH. lia.
Qed.

Lemma subsequence_incr p k n at_ last ms :
  at_ <= last -> subsequence_loop p (seq k n) at_ last = Some ms -> incr k (k + n) at_ last ms.
Proof.
  revert k at_ ms. induction n as [|n IH]; intros k at_ ms Hat; cbn; [intros [= <-]; cbn; lia|].
  destruct (find_index _ _ _) as [j|] eqn:E; [|done]. apply find_index_bounds in E.
  destruct (subsequence_loop _ _ _ _) as [ms'|] eqn:E'; [|done]. intros [= <-]. cbn.
  apply IH in E'; [|lia]. split_and!; [lia..|]. by replace (k + S n) with (S k + n) by lia.
Qed.

Lemma identitySubsequence_incr before b bEnd after a aEnd ms :
  b <= bEnd -> a <= aEnd -> identitySubsequence before b bEnd after a aEnd = Some ms -> incr b bEnd a aEnd ms.
Proof.
  intros Hb Ha. unfold identitySubsequence. case_match.
  - destruct (subsequence_loop _ _ _ _) as [ms'|] eqn:E; [|done]. intros [= <-].
    apply subsequence_incr in E; [|done]. apply incr_swap. by replace (a + (aEnd - a)) with aEnd in E by lia.
  - case_match; [|done]. intros E. apply subsequence_incr in E; [|done].
    by replace (b + (bEnd - b)) with bEnd in E by lia.
Qed.

(** *** The binary search, which needs no sorted list for this much *)

Lemma lower_bound_loop_spec fuel values v low high :
  low <= high <= length values -> high - low < fuel ->
  (0 < low -> nth (pred low) values 0 < v) -> (high < length values -> v <= nth high values 0) ->
  let r := lower_bound_loop fuel values v low high in
  r <= length values /\ (0 < r -> nth (pred r) values 0 < v) /\ (r < length values -> v <= nth r values 0).
Proof.
  revert low high. induction fuel as [|fuel IH]; intros low high Hb Hf Hlow Hhigh; [lia|]. cbn [lower_bound_loop].
  destruct (Nat.ltb_spec low high) as [Hlt|]; cycle 1.
  { assert (low = high) as -> by lia. split_and!; [lia|done|done]. }
  pose proof (Nat.div2_div (low + high)) as Ed.
  assert (low <= Nat.div2 (low + high) < high) as Hm.
  { rewrite Ed. split; [apply Nat.div_le_lower_bound; lia|apply Nat.Div0.div_lt_upper_bound; lia]. }
  destruct (Nat.ltb_spec (nth (Nat.div2 (low + high)) values 0) v); apply IH; cbn; (lia || done).
Qed.

Lemma lowerBound_spec values v :
  lowerBound values v <= length values /\
  (0 < lowerBound values v -> nth (pred (lowerBound values v)) values 0 < v) /\
  (lowerBound values v < length values -> v <= nth (lowerBound values v) values 0).
Proof. apply lower_bound_loop_spec; lia. Qed.

(** *** Position maps *)

Definition descending (l : list nat) : Prop := Sorted.StronglySorted (fun x y => y < x) l.

(** The indices of an entry ascend within [[start, next)]. *)
Definition entries_ok (start next : nat) (m : position_map) : Prop :=
  Forall (fun e => descending (reverse e.2.1) /\ Forall (fun i => start <= i < next) e.2.1 /\ e.2.2 = 0) m.

Lemma entries_ok_weaken start next next' m : next <= next' -> entries_ok start next m -> entries_ok start next' m.
Proof.
  intros Hn H. eapply Forall_impl; [exact H|]. cbn. intros e (? & Hr & ?). split_and!; [done| |done].
  eapply Forall_impl; [exact Hr|]. cbn. lia.
Qed.

Lemma position_add_ok start m v i : start <= i -> entries_ok start i m -> entries_ok start (S i) (position_add m v i).
Proof.
  intros Hi. unfold entries_ok. induction 1 as [|[w [l u]] m (Hd & Hr & Hu) Hm IH]; cbn [position_add].
  - constructor; [|constructor]. cbn. split_and!; [repeat constructor|constructor; [lia|constructor]|done].
  - case_match; constructor; cbn [fst snd] in *.
    + split_and!; [|apply Forall_app; split; [eapply Forall_impl; [done|cbn; lia]|constructor; [lia|constructor]]|done].
      rewrite reverse_snoc. constructor; [done|]. apply List.Forall_forall. intros x Hx.
      apply list_elem_of_In in Hx. rewrite elem_of_reverse in Hx. rewrite Forall_forall in Hr. apply Hr in Hx. lia.
    + eapply (entries_ok_weaken start i); [lia|done].
    + split_and!; [done|eapply Forall_impl; [done|cbn; lia]|done].
    + done.
Qed.

Lemma positions_of_snoc values v start :
  positions_of (values ++ [v]) start = position_add (positions_of values start) v (start + length values).
Proof.
  unfold positions_of. rewrite length_app, seq_app, zip_with_app by by rewrite length_seq.
  by rewrite fold_left_app.
Qed.

Lemma positions_of_ok values start : entries_ok start (start + length values) (positions_of values start).
Proof.
  induction values as [|v values IH] using rev_ind; [constructor|].
  rewrite positions_of_snoc, length_app. cbn. rewrite Nat.add_1_r, Nat.add_succ_r.
  apply position_add_ok; [lia|done].
Qed.

Lemma position_get_ok start next m v l :
  entries_ok start next m -> position_get m v = Some l -> descending (reverse l) /\ Forall (fun i => start <= i < next) l.
Proof.
  intros H. unfold position_get. destruct (List.find _ m) as [[w [l' u]]|] eqn:E; [|done]. intros [= <-].
  apply List.find_some in E as [E _]. apply list_elem_of_In in E. unfold entries_ok in H.
  rewrite Forall_forall in H. by apply H in E as (? & ? & _).
Qed.

Lemma greedy_incr positions after start bEnd k n next :
  entries_ok start bEnd positions -> start <= bEnd -> next <= bEnd ->
  incr (Nat.max start next) bEnd k (k + n) (greedy_loop positions after (seq k n) next).
Proof.
  intros Hpos Hs. revert k next. induction n as [|n IH]; intros k next Hn; cbn [seq greedy_loop]; [cbn; lia|].
  assert (incr (Nat.max start next) bEnd k (k + S n) (greedy_loop positions after (seq (S k) n) next)) as Hskip.
  { replace (k + S n) with (S k + n) by lia. eapply incr_weaken; [done| |by apply IH]. lia. }
  destruct (position_get _ _) as [l|] eqn:Eg; [|done].
  destruct (l !! lowerBound l next) as [i|] eqn:El; [|done].
  apply (position_get_ok start bEnd) in Eg as [_ Hr]; [|done].
  pose proof (lowerBound_spec l next) as (_ & _ & Hge). pose proof (lookup_lt_Some _ _ _ El) as Hlt.
  specialize (Hge Hlt). rewrite nth_lookup, El in Hge. cbn in Hge.
  rewrite Forall_forall in Hr. assert (start <= i < bEnd) as Hi by (by eapply Hr, list_elem_of_lookup_2).
  cbn [incr]. split_and!; [lia..|]. replace (k + S n) with (S k + n) by lia.
  eapply incr_weaken; [| |apply IH]; lia.
Qed.

(** *** Patience sorting *)

(** Every candidate's predecessor is an earlier candidate, before it on both sides. *)
Definition candidates_ok (start bEnd aStart aEnd : nat) (cs : list MatchCandidate) : Prop :=
  forall k c, cs !! k = Some c ->
    start <= mc_before c < bEnd /\ aStart <= mc_after c < aEnd /\
    match mc_previous c with
    | None => True
    | Some p => p < k /\ exists c', cs !! p = Some c' /\ mc_before c' < mc_before c /\ mc_after c' < mc_after c
    end.

(** The tails are candidates; one of the current [afterIndex] ends at [limit] or later. *)
Definition tails_ok (st : lis_state) (afterIndex limit : nat) : Prop :=
  length (tails st) = length (tailValues st) /\
  forall at_ ci, tails st !! at_ = Some ci ->
    exists c, candidates st !! ci = Some c /\ tailValues st !! at_ = Some (mc_before c) /\
      (mc_after c < afterIndex \/ mc_after c = afterIndex /\ limit <= mc_before c).

Lemma length_array_put {A} (l : list A) i v :
  i <= length l -> length (array_put l i v) = Nat.max (length l) (S i).
Proof.
  unfold array_put. intros. destruct (Nat.ltb_spec i (length l)); [rewrite length_insert; lia|].
  rewrite length_app. cbn. lia.
Qed.

Lemma lookup_array_put {A} (l : list A) i v k :
  i <= length l -> array_put l i v !! k = if decide (k = i) then Some v else l !! k.
Proof.
  unfold array_put. intros. destruct (Nat.ltb_spec i (length l)).
  - destruct (decide (k = i)) as [->|]; [by apply list_lookup_insert_eq|by apply list_lookup_insert_ne].
  - assert (i = length l) as -> by lia. destruct (decide (k = length l)) as [->|]; [by apply list_lookup_middle|].
    destruct (decide (k < length l)); [by rewrite lookup_app_l|].
    rewrite lookup_app_r, (lookup_ge_None_2 l) by lia. apply lookup_ge_None_2. cbn. lia.
Qed.

Lemma lis_candidate_ok start bEnd aStart aEnd a x limit st :
  start <= x < bEnd -> aStart <= a < aEnd -> x < limit ->
  candidates_ok start bEnd aStart aEnd (candidates st) -> tails_ok st a limit ->
  candidates_ok start bEnd aStart aEnd (candidates (lis_candidate a st x)) /\ tails_ok (lis_candidate a st x) a x.
Proof.
  intros Hx Ha Hlim Hc [Hlen Ht]. pose proof (lowerBound_spec (tailValues st) x) as (Hat & Hlt & _).
  unfold lis_candidate. generalize dependent (lowerBound (tailValues st) x). intros at_ Hat Hlt.
  split; cbn [candidates tails tailValues].
  - intros k c Hk. apply lookup_snoc_Some in Hk as [[Hk Hck]|[-> <-]].
    { destruct (Hc k c Hck) as (H1 & H2 & H3). split_and!; [lia..|].
      destruct (mc_previous c) as [p|]; [|done]. destruct H3 as (Hp & c' & Hc' & H3). split; [done|].
      exists c'. split; [|done]. by apply lookup_app_l_Some. }
    cbn. split_and!; [lia..|]. destruct at_ as [|at_]; [done|]. cbn in Hlt.
    assert (is_Some (tails st !! at_)) as [ci Hci] by (apply lookup_lt_is_Some; lia).
    rewrite nth_lookup, Hci. cbn. destruct (Ht at_ ci Hci) as (c' & Hc' & Hv & Hor).
    specialize (Hlt ltac:(lia)). rewrite nth_lookup, Hv in Hlt. cbn in Hlt.
    split; [by apply lookup_lt_Some in Hc'|]. exists c'. split; [by apply lookup_app_l_Some|]. lia.
  - split; [cbn; rewrite !length_array_put by lia; lia|]. cbn [candidates tails tailValues]. intros k ci.
    rewrite !lookup_array_put by lia. destruct (decide (k = at_)) as [->|].
    + intros [= <-]. eexists. rewrite list_lookup_middle by done. split_and!; [done|done|]. right. cbn. lia.
    + intros Hk. destruct (Ht k ci Hk) as (c & Hc' & Hv & Hor). exists c.
      split_and!; [by apply lookup_app_l_Some|done|lia].
Qed.

Lemma lis_fold_ok start bEnd aStart aEnd a xs limit st :
  descending xs -> Forall (fun x => start <= x < bEnd) xs -> Forall (fun x => x < limit) xs -> aStart <= a < aEnd ->
  candidates_ok start bEnd aStart aEnd (candidates st) -> tails_ok st a limit ->
  candidates_ok start bEnd aStart aEnd (candidates (fold_left (lis_candidate a) xs st)) /\
  exists limit', tails_ok (fold_left (lis_candidate a) xs st) a limit'.
Proof.
  revert limit st. induction xs as [|x xs IH]; intros limit st Hd Hr Hl Ha Hc Ht; cbn; [by eauto|].
  inversion Hd as [|? ? Hd' Hf]; subst. apply Forall_cons in Hr as [Hx Hr]. apply Forall_cons in Hl as [Hxl Hl].
  destruct (lis_candidate_ok start bEnd aStart aEnd a x limit st) as [Hc' Ht']; [done..|].
  apply (IH x); [done|done| |done|done|done].
  apply Forall_forall. intros y Hy. rewrite List.Forall_forall in Hf. by apply Hf, list_elem_of_In.
Qed.

Lemma tails_ok_next st a limit limit' : tails_ok st a limit -> tails_ok st (S a) limit'.
Proof.
  intros [Hl Ht]. split; [done|]. intros at_ ci H. destruct (Ht at_ ci H) as (c & ? & ? & ?).
  exists c. split_and!; [done|done|]. lia.
Qed.

Lemma lis_after_ok start bEnd aStart aEnd positions after k st :
  entries_ok start bEnd positions -> aStart <= k < aEnd ->
  candidates_ok start bEnd aStart aEnd (candidates st) -> (forall limit, tails_ok st k limit) ->
  candidates_ok start bEnd aStart aEnd (candidates (lis_after positions after st k)) /\
  forall limit, tails_ok (lis_after positions after st k) (S k) limit.
Proof.
  intros Hpos Hk Hc Ht. unfold lis_after. destruct (position_get _ _) as [l|] eqn:E.
  - apply (position_get_ok start bEnd) in E as [Hd Hr]; [|done].
    destruct (lis_fold_ok start bEnd aStart aEnd k (reverse l) bEnd st) as (Hc' & limit' & Ht');
      [done|by apply Forall_reverse|apply Forall_reverse; eapply Forall_impl; [done|cbn; lia]|done|done|apply Ht|].
    split; [done|]. intros limit. by eapply tails_ok_next.
  - split; [done|]. intros limit. eapply tails_ok_next, (Ht 0).
Qed.

Lemma lis_loop_ok start bEnd aStart aEnd positions after k n st :
  entries_ok start bEnd positions -> aStart <= k -> k + n <= aEnd ->
  candidates_ok start bEnd aStart aEnd (candidates st) -> (forall limit, tails_ok st k limit) ->
  let st' := fold_left (lis_after positions after) (seq k n) st in
  candidates_ok start bEnd aStart aEnd (candidates st') /\ forall limit, tails_ok st' (k + n) limit.
Proof.
  intros Hpos. revert k st. induction n as [|n IH]; intros k st Hk Hkn Hc Ht; cbn [seq fold_left].
  { by rewrite Nat.add_0_r. }
  replace (k + S n) with (S k + n) by lia.
  destruct (lis_after_ok start bEnd aStart aEnd positions after k st) as [Hc' Ht']; [done|lia|done|done|].
  apply IH; [lia|lia|done|done].
Qed.

Lemma lis_back_incr start bEnd aStart aEnd cs fuel k c :
  candidates_ok start bEnd aStart aEnd cs -> cs !! k = Some c -> aStart <= aEnd ->
  incr start (S (mc_before c)) aStart (S (mc_after c)) (reverse (lis_back fuel cs (Some k))).
Proof.
  intros Hok. revert k c. induction fuel as [|fuel IH]; intros k c Hk Ha; pose proof (Hok k c Hk) as (Hb & Hc & Hp).
  { cbn. lia. }
  cbn [lis_back]. rewrite Hk, reverse_cons. apply incr_snoc. destruct (mc_previous c) as [p|].
  - destruct Hp as (_ & c' & Hc' & ? & ?). eapply incr_extend; [| |by apply (IH p c')]; lia.
  - destruct fuel; cbn; lia.
Qed.

Lemma identityAnchors_incr before b bEnd after a aEnd :
  b <= bEnd <= length before -> a <= aEnd -> incr b bEnd a aEnd (identityAnchors before b bEnd after a aEnd).
Proof.
  intros Hb Ha. unfold identityAnchors.
  pose proof (positions_of_ok (sub_list before b bEnd) b) as Hpos.
  replace (b + length (sub_list before b bEnd)) with bEnd in Hpos
    by (unfold sub_list; rewrite length_take, length_drop; lia).
  destruct (count_candidates _ _ _ _) as [n|].
  - destruct (n =? 0)%Z; [cbn; lia|].
    destruct (lis_loop_ok b bEnd a aEnd (positions_of (sub_list before b bEnd) b) after a (aEnd - a) (mkLis [] [] []))
      as [Hc Ht]; [done|lia|lia|done|done|].
    set (st := fold_left _ _ _) in *. destruct (last (tails st)) as [k|] eqn:El; cycle 1.
    { destruct (length (candidates st)); cbn; lia. }
    rewrite last_lookup in El. destruct (Ht 0) as [_ Ht']. apply Ht' in El as (c & Hk & _).
    eapply incr_extend; [| |by eapply lis_back_incr]; destruct (Hc k c Hk); lia.
  - unfold greedyIdentityAnchors. apply (incr_weaken b (Nat.max b 0) _ a a); [lia|done|].
    pose proof (greedy_incr _ after b bEnd a (aEnd - a) 0 Hpos ltac:(lia) ltac:(lia)) as G.
    by replace (a + (aEnd - a)) with aEnd in G by lia.
Qed.

Lemma lcs_walk_incr fuel equal before after t i j :
  i <= length before -> j <= length after ->
  incr i (length before) j (length after) (lcs_walk fuel equal before after t i j).
Proof.
  revert i j. induction fuel as [|fuel IH]; intros i j Hi Hj; cbn [lcs_walk]; [done|].
  destruct (before !! i) as [x|] eqn:Ex; [|done]. destruct (after !! j) as [y|] eqn:Ey; [|done].
  apply lookup_lt_Some in Ex, Ey.
  repeat case_match; cbn [incr].
  - split_and!; [lia..|]. apply IH; lia.
  - eapply incr_weaken; [| |apply IH]; lia.
  - eapply incr_weaken; [| |apply IH]; lia.
Qed.

Lemma lcsMatches_incr before after equal max ms :
  lcsMatches before after equal max = Some ms -> incr 0 (length before) 0 (length after) ms.
Proof.
  unfold lcsMatches. case_match; [intros [= <-]; cbn; lia|]. case_match; [done|]. intros [= <-].
  apply lcs_walk_incr; lia.
Qed.

Lemma region_matches_incr before after b bEnd a aEnd :
  b <= bEnd <= length before -> a <= aEnd <= length after ->
  incr b bEnd a aEnd (region_matches before after b bEnd a aEnd).
Proof.
  intros Hb Ha. assert (incr b bEnd a aEnd []) as Hnil by (cbn; lia).
  unfold region_matches. repeat match goal with |- context [if negb (is_nil ?l) then _ else _] =>
    destruct (is_nil l) eqn:?; cbn [negb] end.
  - destruct (lcsMatches _ _ _ _) as [ms|] eqn:E; cbn [default]; [|done].
    apply lcsMatches_incr in E. apply (incr_shift b a) in E.
    unfold sub_list in E. rewrite !length_take, !length_drop in E.
    replace (b + Nat.min (bEnd - b) (length before - b)) with bEnd in E by lia.
    replace (a + Nat.min (aEnd - a) (length after - a)) with aEnd in E by lia.
    eapply incr_weaken; [| |exact E]; lia.
  - apply identityAnchors_incr; lia.
  - destruct (identitySubsequence _ _ _ _ _ _) as [ms|] eqn:E; cbn [default]; [|done].
    apply identitySubsequence_incr in E; [done|lia|lia].
  - destruct (Nat.eqb_spec (bEnd - b) (aEnd - a)); [|done]. pose proof (positional_incr before after b a 0 (bEnd - b)) as H'. cbn in H'.
    replace (b + (bEnd - b)) with bEnd in H' by lia.
    replace (a + (bEnd - b)) with aEnd in H' by lia.
    eapply incr_weaken; [| |exact H']; lia.
Qed.
End Anchors.

(** ** Revisions that belong together *)

Definition sized (r : revision) : Prop :=
  match r with RvStr s => small (blen s) | RvArr _ l => small (blen l) | _ => True end.

Lemma obj_get_erase es k :
  obj_get (map (fun e => (e.1, erase e.2)) es) k = erase <$> obj_get es k.
Proof. induction es as [|[k' v] es IH]; cbn; [done|]. by case_bool_decide. Qed.

Lemma obj_keys_erase es : obj_keys (map (fun e => (e.1, erase e.2)) es) = obj_keys es.
Proof. unfold obj_keys. induction es as [|[k v] es IH]; cbn; [done|]. f_equal. apply IH. Qed.

Lemma rsize_pos r : (1 <= rsize r)%nat.
Proof. destruct r; cbn; lia. Qed.

Lemma rsize_item c l : c ∈ l -> (rsize c <= sum_list (map rsize l))%nat.
Proof. apply (elem_size rsize). Qed.

Lemma rsize_entry e es : e ∈ es -> (rsize e.2 <= sum_list (map (fun e : jstring * revision => rsize e.2) es))%nat.
Proof. apply (elem_size (fun e : jstring * revision => rsize e.2)). Qed.

Lemma num_strict_eq_join a b c : num_strict_eq a b = true -> num_strict_eq a c = true -> num_strict_eq b c = true.
Proof.
  destruct a as [sa|sa| |sa ma ea], b as [sb|sb| |sb mb eb], c as [sc|sc| |sc mc ec]; cbn; try done;
    rewrite ?bool_decide_eq_true; try congruence.
Qed.

Lemma strict_eq_join a b c : strict_eq a b = true -> strict_eq a c = true -> strict_eq b c = true.
Proof.
  destruct a, b; cbn; try done; destruct c; cbn; try done; rewrite ?bool_decide_eq_true; try congruence.
  apply num_strict_eq_join.
Qed.

Lemma same_key_refl v : same_key v v = true.
Proof. destruct v as [| |[]| | |]; cbn; try done; by rewrite ?bool_decide_eq_true_2. Qed.

Section Universe.
Context (U : revision -> Prop).
Hypothesis U_arr : forall id l, U (RvArr id l) -> Forall U l.
Hypothesis U_obj : forall id np es, U (RvObj id np es) -> Forall (fun e => U e.2) es.
(** one identity, one document *)
Hypothesis U_ids : forall x y, U x -> U y -> isContainer x = true -> strict_eq x y = true -> erase x = erase y.
Hypothesis U_ok : forall x, U x -> json_ok (erase x).
Hypothesis U_sized : forall x, U x -> sized x.

Lemma strict_same x y : U x -> U y -> strict_eq x y = true -> same_json (erase x) (erase y).
Proof.
  intros Hx Hy H. destruct (isContainer x) eqn:E.
  - rewrite (U_ids x y) by done. reflexivity.
  - destruct x, y; cbn in *; try done; try apply bool_decide_eq_true in H; subst; by constructor.
Qed.

Lemma same_key_strict x y : U x -> same_key x y = true -> strict_eq x y = true.
Proof.
  intros Hx. apply U_ok in Hx. destruct x as [|b|f|s|i l|i np es]; try done.
  cbn in Hx. inversion Hx as [| |? Hf| | |]; subst. by destruct f.
Qed.

Lemma U_obj_get id np es k v : U (RvObj id np es) -> obj_get es k = Some v -> U v.
Proof. intros H E. apply U_obj in H. apply obj_get_elem in E. rewrite Forall_forall in H. by apply H in E. Qed.

Lemma equalJson_same x y : U x -> U y -> equalJson x y = true -> same_json (erase x) (erase y).
Proof.
  remember (rsize x) as n eqn:Hn. revert x y Hn. induction n as [n IH] using lt_wf_ind. intros x y -> Hx Hy.
  pose proof (strict_same x y Hx Hy) as Hst.
  destruct x as [|b|f|s|i l|i np es];
    [cbn [equalJson]; destruct (strict_eq _ y); [by auto|by destruct y]..| |].
  - cbn [equalJson]. destruct (strict_eq _ y); [by auto|]. destruct y as [| | | |j r|]; try done.
    intros [Hl Hgo]%andb_true_iff. apply Nat.eqb_eq in Hl. cbn [erase]. constructor.
    pose proof (U_arr _ _ Hx) as Hxl. pose proof (U_arr _ _ Hy) as Hyr.
    assert (forall c, c ∈ l -> (rsize c < rsize (RvArr i l))%nat) as Hsz
      by (intros c Hc; apply rsize_item in Hc; cbn; lia).
    clear Hst Hx Hy. revert r Hl Hgo Hyr. induction l as [|c l IHl]; intros [|d r] Hl Hgo Hyr; [by constructor|done|done|].
    apply andb_true_iff in Hgo as [Hcd Hgo]. apply Forall_cons in Hxl as [Hc Hxl], Hyr as [Hd Hyr].
    cbn [map]. constructor.
    + eapply IH; [|done|done|done|done]. apply Hsz. left.
    + injection Hl as Hl. apply IHl; try done.
      * intros m Hm. apply IH. cbn in *. lia.
      * intros c' Hc'. apply rsize_item in Hc'. cbn. lia.
  - cbn [equalJson]. destruct (strict_eq _ y); [by auto|]. destruct y as [| | | | |j np' os]; try done.
    intros [Hl Hall]%andb_true_iff. apply Nat.eqb_eq in Hl. cbn [erase]. constructor. intros k.
    pose proof (U_ok _ Hx) as Hxo. pose proof (U_ok _ Hy) as Hyo. cbn in Hxo, Hyo.
    apply json_ok_obj in Hxo as [[Hnd _] _], Hyo as [[Hnd' _] _]. rewrite obj_keys_erase in Hnd, Hnd'.
    rewrite List.forallb_forall in Hall.
    assert (forall k v, obj_get es k = Some v -> exists w, obj_get os k = Some w /\ equalJson v w = true) as Hsub.
    { intros k' v Hv. apply obj_get_elem, list_elem_of_In, Hall in Hv. cbn in Hv. destruct (obj_get os k'); [eauto|done]. }
    rewrite !obj_get_erase. destruct (obj_get es k) as [v|] eqn:Ev.
    + destruct (Hsub k v Ev) as (w & Hw & Heq). rewrite Hw. cbn. constructor.
      eapply IH; [|done|exact (U_obj_get _ _ _ _ _ Hx Ev)|exact (U_obj_get _ _ _ _ _ Hy Hw)|done].
      apply obj_get_elem in Ev. apply rsize_entry in Ev. cbn in *. lia.
    + destruct (obj_get os k) as [w|] eqn:Ew; [|constructor]. exfalso.
      apply obj_get_None in Ev. apply Ev.
      assert (obj_keys es ≡ₚ obj_keys os) as ->.
      { apply submseteq_length_Permutation; [|unfold obj_keys; rewrite !length_fmap; lia].
        apply NoDup_submseteq; [done|]. intros k' Hk'. apply obj_has_spec in Hk'. unfold obj_has in Hk'.
        destruct (obj_get es k') as [v|] eqn:E; [|done]. destruct (Hsub k' v E) as (w' & Hw' & _).
        apply obj_has_spec. unfold obj_has. by rewrite Hw'. }
      apply obj_has_spec. unfold obj_has. by rewrite Ew.
Qed.

Lemma sameValue_same x y : U x -> U y -> sameValue x y = true -> same_json (erase x) (erase y).
Proof.
  intros Hx Hy [H|H]%orb_true_iff; [by apply strict_same|by apply equalJson_same].
Qed.

(** *** The reordering test *)

(** The indices not handed out yet. *)
Definition remaining (m : position_map) : list nat := concat (map (fun e => drop e.2.2 e.2.1) m).

Definition entry_of (values : list revision) (e : revision * (list nat * nat)) : Prop :=
  U e.1 /\ Forall (fun i => exists x, values !! i = Some x /\ same_key e.1 x = true) e.2.1.

Lemma position_add_remaining m v i :
  Forall (fun e => e.2.2 = 0%nat) m -> remaining (position_add m v i) ≡ₚ i :: remaining m.
Proof.
  unfold remaining. induction 1 as [|[w [l u]] m Hu _ IH]; cbn [position_add]; [done|]. cbn in Hu. subst u.
  case_match; cbn [map concat fst snd].
  - rewrite !drop_0, <- app_assoc. cbn. by rewrite Permutation_middle.
  - rewrite IH. by rewrite Permutation_middle.
Qed.

Lemma position_add_entries values v m :
  U v -> Forall (entry_of values) m -> Forall (entry_of (values ++ [v])) (position_add m v (length values)).
Proof.
  intros Hv Hm.
  assert (forall e, entry_of values e -> entry_of (values ++ [v]) e) as Happ.
  { intros e [HU He]. split; [done|]. eapply Forall_impl; [exact He|]. intros i (x & Hx & ?).
    exists x. split; [by apply lookup_app_l_Some|done]. }
  induction Hm as [|[w [l u]] m He Hm IH]; cbn [position_add].
  - constructor; [|constructor]. split; [done|]. constructor; [|constructor]. exists v.
    split; [by apply list_lookup_middle|apply same_key_refl].
  - case_match eqn:Ek; constructor.
    + apply Happ in He as [HU He]. split; [done|]. apply Forall_app. split; [done|]. constructor; [|constructor].
      exists v. split; [by apply list_lookup_middle|done].
    + eapply Forall_impl; done.
    + by apply Happ.
    + done.
Qed.

Lemma positions_of_entries values :
  Forall U values ->
  Forall (entry_of values) (positions_of values 0) /\ remaining (positions_of values 0) ≡ₚ seq 0 (length values).
Proof.
  induction values as [|v values IH] using rev_ind; [done|]. intros [Hvs Hv]%Forall_app.
  apply Forall_cons in Hv as [Hv _]. destruct (IH Hvs) as [He Hr]. rewrite positions_of_snoc. cbn [Nat.add]. split.
  - by apply position_add_entries.
  - rewrite position_add_remaining, Hr, length_app, seq_app.
    + cbn. by rewrite (Permutation_app_comm _ [_]).
    + eapply Forall_impl; [apply (positions_of_ok values 0)|]. by intros e (_ & _ & ?).
Qed.

Lemma position_take_spec values m v i m' :
  U v -> Forall (entry_of values) m -> position_take m v = Some (i, m') ->
  Forall (entry_of values) m' /\ remaining m ≡ₚ i :: remaining m' /\
  exists x, values !! i = Some x /\ strict_eq x v = true.
Proof.
  intros Hv Hm. revert m'. unfold remaining.
  induction Hm as [|[w [l u]] m [HU He] Hm IH]; intros m'; cbn [position_take]; [done|]. cbn [fst snd] in *.
  destruct (same_key w v) eqn:Ek.
  - destruct (l !! u) as [j|] eqn:El; [|done]. intros [= -> <-]. split_and!.
    + constructor; [by split|done].
    + cbn [map concat fst snd]. by rewrite (drop_S l i u El).
    + rewrite Forall_forall in He. destruct (He i) as (x & Hx & Hs); [by eapply list_elem_of_lookup_2|].
      exists x. split; [done|]. eapply strict_eq_join; by apply same_key_strict.
  - destruct (position_take m v) as [[j m1]|]; [|done]. intros [= -> <-].
    destruct (IH m1 eq_refl) as (H1 & H2 & H3). split_and!; [by constructor; [split|]| |done].
    cbn [map concat fst snd]. rewrite H2. by rewrite Permutation_middle.
Qed.

Lemma permutation_result_spec values m after r :
  Forall U after -> Forall (entry_of values) m -> permutation_result m after = Some r ->
  (exists rest, remaining m ≡ₚ r ++ rest) /\
  Forall2 (fun i v => exists x, values !! i = Some x /\ strict_eq x v = true) r after.
Proof.
  intros Ha. revert m r. induction Ha as [|v after Hv _ IH]; intros m r Hm; cbn [permutation_result].
  - intros [= <-]. split; [by exists (remaining m)|constructor].
  - destruct (position_take m v) as [[i m']|] eqn:E; [|done].
    destruct (permutation_result m' after) as [r'|] eqn:Er; [|done]. intros [= <-].
    apply (position_take_spec values) in E as (Hm' & Hp & Hx); [|done..].
    destruct (IH m' r' Hm' Er) as [[rest Hrest] HF]. split; [|by constructor].
    exists rest. by rewrite Hp, Hrest.
Qed.

Lemma at_lookup {A} (l : list A) i : at_ l (Z.of_nat i) = l !! i.
Proof. unfold at_. rewrite (proj2 (Z.ltb_ge _ _)) by lia. by rewrite Nat2Z.id. Qed.

Lemma permutation_spec before after order :
  Forall U before -> Forall U after -> permutation before after = Some order ->
  bijection (map Z.of_nat order) /\ length order = length before /\
  Forall2 same_json (permute (map erase before) (map Z.of_nat order)) (map erase after).
Proof.
  intros Hb Ha. unfold permutation. destruct (Nat.eqb_spec (length before) (length after)) as [Hl|]; [|done]. intros H.
  destruct (positions_of_entries before Hb) as [He Hr].
  apply (permutation_result_spec before) in H as [[rest Hrest] HF]; [|done..].
  pose proof (Forall2_length _ _ _ HF) as Hlo.
  assert (order ≡ₚ seq 0 (length before)) as Hperm.
  { rewrite Hrest in Hr. pose proof (Permutation_length Hr) as Hlen. rewrite length_app, length_seq in Hlen.
    destruct rest; [by rewrite app_nil_r in Hr|cbn in Hlen; lia]. }
  split_and!; [|lia|].
  - unfold bijection. rewrite blen_map. rewrite Hperm at 1.
    replace (blen order) with (Z.of_nat (length before)) by (unfold blen; lia).
    unfold seqZ. rewrite Nat2Z.id. apply reflexive_eq. apply map_ext. intros; lia.
  - clear - HF Hb Ha U_ok U_ids. induction HF as [|i v order after (x & Hx & Hs) HF IH]; cbn; [constructor|].
    apply Forall_cons in Ha as [Hv Ha]. unfold permute in *. cbn [omap list_omap].
    rewrite at_lookup. change (map erase before) with (erase <$> before). rewrite list_lookup_fmap, Hx. cbn.
    constructor; [|by apply IH]. apply strict_same; [|done|done]. rewrite Forall_forall in Hb.
    by eapply Hb, list_elem_of_lookup_2.
Qed.

(** *** Objects *)

Lemma fold_overflowed {A} (f : batch -> A -> batch) l b :
  (forall b x, overflowed b = true -> f b x = b) -> overflowed b = true -> fold_left f l b = b.
Proof. intros Hk Ho. induction l as [|x l IH]; cbn; [done|]. by rewrite Hk. Qed.

(** A loop over [l] that leaves an overflowed batch alone. *)
Lemma produces_fold {A} (f : batch -> A -> batch) l P (I : list A -> json -> Prop) :
  (forall b x, overflowed b = true -> f b x = b) ->
  (forall done x todo b X, l = done ++ x :: todo -> I done X -> produces b (f b x) P X (I (done ++ [x]))) ->
  forall b X, I [] X -> produces b (fold_left f l b) P X (I l).
Proof.
  intros Hk Hstep.
  assert (forall todo done b X, l = done ++ todo -> I done X -> produces b (fold_left f todo b) P X (I l)) as G.
  { induction todo as [|x todo IH]; intros done b X Hl HI; cbn.
    - rewrite app_nil_r in Hl. subst. by apply produces_id.
    - eapply produces_seq; [|by eapply Hstep|].
      + apply fold_overflowed, Hk.
      + intros Y HY. eapply IH; [|done]. by rewrite <- app_assoc. }
  intros b X. by apply G.
Qed.

Lemma safe_path_snoc P s : safe_path P -> seg_ok s -> seg_small s -> safe_path (P ++ [s]).
Proof. intros [H1 H2] ??. split; apply Forall_app; (split; [done|by constructor]). Qed.

Lemma obj_has_get {A} (o : list (jstring * A)) k : obj_has o k = true <-> is_Some (obj_get o k).
Proof. unfold obj_has. destruct (obj_get o k); split; done. Qed.

(** [E] after some keys of [os] (those with [p]) have been brought over from [es]. *)
Definition between (p : jstring -> Prop) (np : bool) (es os : list (jstring * revision)) (X : json) : Prop :=
  exists E, X = JsObj np E /\ NoDup (obj_keys E) /\
    forall k, (p k -> option_Forall2 same_json (obj_get E k) (erase <$> obj_get os k)) /\
              (~ p k -> obj_get E k = erase <$> obj_get es k).

Lemma between_define (p : jstring -> Prop) np es os X k c v :
  between p np es os X -> obj_get os k = Some v -> same_json c (erase v) ->
  between (fun k' => p k' \/ k' = k) np es os (define_member X (SStr k) c).
Proof.
  intros (E & -> & Hnd & HE) Hos Hc. exists (obj_set E k c). split; [done|]. split; [by apply NoDup_obj_set|].
  intros k'. rewrite obj_get_set. destruct (decide (k' = k)) as [->|Hne].
  - split; [|tauto]. intros _. rewrite Hos. by constructor.
  - destruct (HE k') as [H1 H2]. split; [intros [?|?]; [by apply H1|done]|intros Hn; apply H2; tauto].
Qed.

Lemma between_weaken (p q : jstring -> Prop) np es os X :
  (forall k, p k <-> q k) -> between p np es os X -> between q np es os X.
Proof.
  intros Hpq (E & -> & Hnd & HE). exists E. split_and!; [done|done|]. intros k. destruct (HE k) as [H1 H2].
  rewrite <- Hpq. by split.
Qed.

Section Object.
Context (g : revision -> revision -> Path -> batch -> batch).

(** What the comparison of two members promises. *)
Definition value_spec (b a : revision) (P : Path) : Prop :=
  forall st, produces st (g b a P st) P (erase b) (fun Y => same_json Y (erase a)).

Lemma produces_keys np es os P b :
  NoDup (obj_keys es) -> NoDup (obj_keys os) ->
  (forall k v w, obj_get es k = Some v -> obj_get os k = Some w -> value_spec v w (P ++ [SStr k])) ->
  (forall k, k ∈ obj_keys os -> k ∉ RESERVED_SEGMENTS) -> safe_path P ->
  produces b (fold_left (diff_key g es P) os b) P (JsObj np (map (fun e => (e.1, erase e.2)) es))
    (between (fun k => k ∈ obj_keys os) np es os).
Proof.
  intros Hes Hos Hval Hres Hp.
  apply (produces_fold _ _ _ (fun done => between (fun k => k ∈ obj_keys done) np es os)).
  - intros b' e Ho. unfold diff_key. by rewrite Ho.
  - intros done [k v] todo b' X Hl HX. unfold diff_key. cbn [fst snd].
    destruct (overflowed b') eqn:Ho; [by apply produces_overflowed|].
    assert (obj_get os k = Some v) as Hk.
    { rewrite obj_get_map. apply elem_of_list_to_map; [done|]. rewrite Hl. set_solver. }
    assert (k ∉ obj_keys done) as Hnk.
    { rewrite Hl in Hos. unfold obj_keys in *. rewrite fmap_app in Hos. apply NoDup_app in Hos as (_ & Hd & _).
      intros Hin. apply (Hd k Hin). left. }
    assert (k ∉ RESERVED_SEGMENTS) as Hkr by (apply Hres, obj_has_spec, obj_has_get; eauto).
    assert (forall c, same_json c (erase v) ->
      between (fun k' => k' ∈ obj_keys (done ++ [(k, v)])) np es os (define_member X (SStr k) c)) as Hdef.
    { intros c Hc. eapply between_weaken; [|by eapply between_define]. intros k'. cbn. unfold obj_keys.
      rewrite fmap_app. set_solver. }
    destruct HX as (E & -> & Hnd & HE). destruct (HE k) as [_ HEk]. specialize (HEk Hnk).
    destruct (obj_get es k) as [old|] eqn:Eold; cbn in HEk.
    + eapply produces_mono; [|eapply (produces_child _ _ _ (SStr k)); [by cbn; rewrite HEk|by eapply Hval]].
      cbn beta. intros Y (c' & -> & Hc'). by apply Hdef.
    + unfold emitSet. rewrite bool_decide_eq_false_2 by (intros H; by apply app_eq_nil in H as [_ ?]).
      assert (safe_path (P ++ [SStr k])) as [Hp1 Hp2] by by apply safe_path_snoc.
      eapply produces_emit; [by eapply effect_set| | |].
      * cbn. split; [done|]. intros H. by apply app_eq_nil in H as [_ ?].
      * done.
      * by apply Hdef.
  - exists (map (fun e => (e.1, erase e.2)) es). split; [done|]. rewrite obj_keys_erase. split; [done|].
    intros k. split; [set_solver|]. intros _. apply obj_get_erase.
Qed.

(** After the keys to drop among [done] are gone. *)
Definition dropped (done : list (jstring * revision)) np (es os : list (jstring * revision)) (X : json) : Prop :=
  exists E, X = JsObj np E /\ NoDup (obj_keys E) /\
    forall k, (k ∈ obj_keys os -> option_Forall2 same_json (obj_get E k) (erase <$> obj_get os k)) /\
              (k ∉ obj_keys os -> obj_get E k = if bool_decide (k ∈ obj_keys done) then None else erase <$> obj_get es k).

Lemma produces_drops np es os P b X :
  NoDup (obj_keys es) -> (forall k, k ∈ obj_keys es -> k ∉ RESERVED_SEGMENTS) -> safe_path P ->
  between (fun k => k ∈ obj_keys os) np es os X ->
  produces b (fold_left (drop_key os P) es b) P X (dropped es np es os).
Proof.
  intros Hes Hres Hp (E & HX & Hnd & HE).
  apply (produces_fold _ _ _ (fun done => dropped done np es os)).
  - intros b' e Ho. unfold drop_key. by rewrite Ho.
  - clear X E HX Hnd HE. intros done [k v] todo b' X Hl (E & -> & Hnd & HE). unfold drop_key. cbn [fst].
    destruct (overflowed b') eqn:Ho; [by apply produces_overflowed|].
    assert (forall k', k' ∈ obj_keys (done ++ [(k, v)]) <-> k' ∈ obj_keys done \/ k' = k) as Hin.
    { intros k'. unfold obj_keys. rewrite fmap_app. set_solver. }
    destruct (obj_has os k) eqn:Eh.
    + apply produces_id. apply obj_has_spec in Eh. exists E. split_and!; [done|done|]. intros k'.
      destruct (HE k') as [H1 H2]. split; [done|]. intros Hn. rewrite H2 by done.
      erewrite bool_decide_ext; [done|]. rewrite Hin. split; [tauto|]. intros [H' | ->]; done.
    + assert (k ∉ obj_keys os) as Hko by (rewrite <- obj_has_spec; congruence).
      assert (k ∈ obj_keys es) as Hke by (rewrite Hl; unfold obj_keys; rewrite fmap_app; set_solver).
      assert (safe_path (P ++ [SStr k])) as [Hp1 Hp2] by (apply safe_path_snoc; [done|by apply Hres|done]).
      eapply produces_emit; [by eapply effect_delete| | |].
      * cbn. split; [done|]. intros H. by apply app_eq_nil in H as [_ ?].
      * done.
      * exists (obj_delete E k). split; [done|]. split; [by apply NoDup_obj_delete|]. intros k'.
        rewrite obj_get_delete by done. destruct (HE k') as [H1 H2].
        destruct (decide (k' = k)) as [->|Hne]; split; [done| |done|].
        -- intros _. by rewrite bool_decide_eq_true_2 by (apply Hin; by right).
        -- intros Hn. rewrite H2 by done. erewrite bool_decide_ext; [done|]. rewrite Hin. tauto.
  - exists E. split_and!; [done|done|]. intros k. destruct (HE k) as [H1 H2]. split; [done|].
    intros Hn. by rewrite H2.
Qed.

Lemma produces_object i np es j np' os P b :
  U (RvObj i np es) -> U (RvObj j np' os) -> safe_path P ->
  (forall k v w, obj_get es k = Some v -> obj_get os k = Some w -> safe_path (P ++ [SStr k]) ->
     value_spec v w (P ++ [SStr k])) ->
  produces b (diffObject g (RvObj i np es) (RvObj j np' os) es os P b) P (erase (RvObj i np es))
    (fun Y => same_json Y (erase (RvObj j np' os))).
Proof.
  intros Hb Ha Hp Hval. unfold diffObject. destruct (existsb _ _) eqn:Eres.
  - destruct (equalJson _ _) eqn:Eq; [apply produces_id; by apply equalJson_same|].
    apply produces_emitSet; [done|]. reflexivity.
  - assert (forall k, k ∈ obj_keys es ++ obj_keys os -> k ∉ RESERVED_SEGMENTS) as Hres.
    { intros k Hk Hr. apply not_true_iff_false in Eres. apply Eres. apply List.existsb_exists.
      exists k. split; [by apply list_elem_of_In|by apply bool_decide_eq_true_2]. }
    pose proof (U_ok _ Hb) as Hbo. pose proof (U_ok _ Ha) as Hao. cbn in Hbo, Hao.
    apply json_ok_obj in Hbo as [[Hnd _] _], Hao as [[Hnd' _] _]. rewrite obj_keys_erase in Hnd, Hnd'.
    eapply produces_seq; [apply fold_overflowed; intros b' e Ho; unfold drop_key; by rewrite Ho| |].
    + cbn [erase]. apply produces_keys; [done|done| |set_solver|done].
      intros k v w Hv Hw. apply Hval; [done|done|]. apply safe_path_snoc; [done| |done]. apply Hres.
      apply elem_of_app. right. apply obj_has_spec, obj_has_get. eauto.
    + intros Y HY. eapply produces_mono; [|apply produces_drops; [done|set_solver|done|exact HY]].
      cbn beta. intros Z (E & -> & _ & HE). cbn [erase]. constructor. intros k. rewrite obj_get_erase.
      destruct (HE k) as [H1 H2]. destruct (decide (k ∈ obj_keys os)) as [Hk|Hk]; [by apply H1|].
      rewrite H2 by done. rewrite (proj2 (obj_get_None os k)) by done. case_bool_decide as Hd; [by constructor|].
      rewrite (proj2 (obj_get_None es k)) by done. by constructor.
Qed.
End Object.

(** *** Ranges of an array *)

Lemma sub_list_split {A} (l : list A) i j k :
  (i <= j <= k)%nat -> sub_list l i k = sub_list l i j ++ sub_list l j k.
Proof.
  intros H. unfold sub_list. replace (k - i)%nat with ((j - i) + (k - j))%nat by lia.
  rewrite <- take_take_drop, drop_drop. do 3 f_equal. lia.
Qed.

Lemma sub_list_length {A} (l : list A) i j : (i <= j <= length l)%nat -> length (sub_list l i j) = (j - i)%nat.
Proof. intros H. unfold sub_list. rewrite length_take, length_drop. lia. Qed.

Lemma sub_list_nil {A} (l : list A) i : sub_list l i i = [].
Proof. unfold sub_list. by rewrite Nat.sub_diag. Qed.

Lemma sub_list_all {A} (l : list A) : sub_list l 0 (length l) = l.
Proof. unfold sub_list. by rewrite Nat.sub_0_r, firstn_all. Qed.

Lemma sub_list_one (l : list revision) i : (i < length l)%nat -> sub_list l i (S i) = [l !!! i].
Proof.
  intros H. unfold sub_list. replace (S i - i)%nat with 1%nat by lia.
  rewrite (drop_S l (l !!! i) i); [done|]. by apply list_lookup_lookup_total_lt.
Qed.

Lemma sub_list_Forall {A} (P : A -> Prop) l i j : Forall P l -> Forall P (sub_list l i j).
Proof. intros. unfold sub_list. by apply Forall_take, Forall_drop. Qed.

Lemma Forall_total (P : revision -> Prop) l i : Forall P l -> (i < length l)%nat -> P (l !!! i).
Proof. intros H Hi. eapply Forall_lookup_1; [done|]. by apply list_lookup_lookup_total_lt. Qed.

Definition range_size (l : list revision) (i j : nat) : nat := sum_list (map rsize (sub_list l i j)).

Lemma range_size_split l i j k : (i <= j <= k)%nat -> range_size l i k = (range_size l i j + range_size l j k)%nat.
Proof. intros H. unfold range_size. rewrite (sub_list_split l i j k) by done. rewrite map_app. apply sum_list_with_app. Qed.

Lemma range_size_one l i : (i < length l)%nat -> range_size l i (S i) = rsize (l !!! i).
Proof. intros H. unfold range_size. rewrite sub_list_one by done. cbn. lia. Qed.

Lemma range_size_ge l i j : (i <= j <= length l)%nat -> (j - i <= range_size l i j)%nat.
Proof.
  intros H. rewrite <- (sub_list_length l i j) by done. unfold range_size.
  induction (sub_list l i j) as [|x k IH]; cbn; [lia|]. pose proof (rsize_pos x). lia.
Qed.

(** A smaller range inside another leaves at least its missing elements out. *)
Lemma range_size_inside l i i' j' j :
  (i <= i' <= j')%nat -> (j' <= j <= length l)%nat -> (range_size l i' j' + (i' - i) + (j - j') <= range_size l i j)%nat.
Proof.
  intros H1 H2. rewrite (range_size_split l i i' j), (range_size_split l i' j' j) by lia.
  pose proof (range_size_ge l i i'). pose proof (range_size_ge l j' j). lia.
Qed.

Lemma common_prefix_spec k before after i j :
  Forall U before -> Forall U after -> (i + k <= length before)%nat -> (j + k <= length after)%nat ->
  let n := common_prefix k before after i j in
  (n <= k)%nat /\ Forall2 same_json (map erase (sub_list before i (i + n))) (map erase (sub_list after j (j + n))).
Proof.
  intros Hb Ha. revert i j. induction k as [|k IH]; intros i j Hi Hj; cbn [common_prefix].
  { rewrite !Nat.add_0_r, !sub_list_nil. by split. }
  destruct (sameValue _ _) eqn:E; [|rewrite !Nat.add_0_r, !sub_list_nil; split; [lia|done]].
  destruct (IH (S i) (S j)) as [Hn HF]; [lia..|]. set (n := common_prefix k _ _ _ _) in *. split; [lia|].
  rewrite (sub_list_split before i (S i)), (sub_list_split after j (S j)) by lia.
  rewrite !sub_list_one by lia. cbn [map app]. rewrite !Nat.add_succ_r, <- !Nat.add_succ_l. constructor; [|done].
  apply sameValue_same; [apply Forall_total; [done|lia]..|done].
Qed.

Lemma common_suffix_spec k before after i j :
  Forall U before -> Forall U after -> (k <= i <= length before)%nat -> (k <= j <= length after)%nat ->
  let n := common_suffix k before after i j in
  (n <= k)%nat /\ Forall2 same_json (map erase (sub_list before (i - n) i)) (map erase (sub_list after (j - n) j)).
Proof.
  intros Hb Ha. revert i j. induction k as [|k IH]; intros i j Hi Hj; cbn [common_suffix].
  { rewrite !Nat.sub_0_r, !sub_list_nil. by split. }
  destruct (sameValue _ _) eqn:E; [|rewrite !Nat.sub_0_r, !sub_list_nil; split; [lia|done]].
  destruct i as [|i], j as [|j]; [lia..|]. cbn [pred] in *.
  destruct (IH i j) as [Hn HF]; [lia..|]. set (n := common_suffix k _ _ _ _) in *. split; [lia|].
  rewrite (sub_list_split before (S i - S n) i), (sub_list_split after (S j - S n) j) by lia.
  rewrite !sub_list_one by lia. cbn [Nat.sub]. rewrite !map_app. apply Forall2_app; [done|].
  cbn [map]. constructor; [|constructor]. apply sameValue_same; [apply Forall_total; [done|lia]..|done].
Qed.

Lemma child_middle pre c post : child (JsArr (pre ++ c :: post)) (SNum (blen pre)) = Ok c.
Proof. cbn. rewrite at_app_r by done. done. Qed.

Lemma define_middle pre c post v :
  define_member (JsArr (pre ++ c :: post)) (SNum (blen pre)) v = JsArr (pre ++ v :: post).
Proof.
  cbn. rewrite arr_write_in by (rewrite blen_app, blen_cons; pose proof (blen_nonneg pre); pose proof (blen_nonneg post); lia).
  unfold blen. rewrite Nat2Z.id. rewrite insert_app_r_alt by lia. by rewrite Nat.sub_diag.
Qed.

Lemma splice_middle {A} (pre mid post items : list A) :
  splice_list (pre ++ mid ++ post) (blen pre) (blen mid) items = pre ++ items ++ post.
Proof.
  unfold splice_list, blen. rewrite !Nat2Z.id, take_app_length. do 2 f_equal.
  rewrite <- drop_drop, drop_app_length, drop_app_length. done.
Qed.

(** *** Regions *)

Section Region.
Context (before after : list revision) (P : Path).
Hypothesis before_U : Forall U before.
Hypothesis after_U : Forall U after.
Hypothesis before_small : small (blen before).
Hypothesis after_small : small (blen after).
Hypothesis P_safe : safe_path P.

(** The value at [P] while the output has reached position [a] of [after]: [pre] is done, the
    range [b .. bEnd) of [before] is next. *)
Definition region_spec (f : nat -> nat -> nat -> nat -> nat -> batch -> batch) (b bEnd a aEnd : nat) : Prop :=
  forall st pre post, length pre = a ->
    produces st (f b bEnd a aEnd a st) P (JsArr (pre ++ map erase (sub_list before b bEnd) ++ post))
      (fun Y => exists ys, Y = JsArr (pre ++ ys ++ post) /\ Forall2 same_json ys (map erase (sub_list after a aEnd))).

Lemma index_path_safe a : (a <= length after)%nat -> safe_path (P ++ [SNum (Z.of_nat a)]).
Proof using P_safe after_small. clear before_small before_U. intros H. apply safe_path_snoc; [done|cbn; lia|]. cbn. unfold small, blen in *. lia. Qed.

(** One element at position [a]. *)
Lemma produces_element g b a st pre post :
  length pre = a -> (b < length before)%nat -> (a < length after)%nat ->
  value_spec g (before !!! b) (after !!! a) (P ++ [SNum (Z.of_nat a)]) ->
  produces st (if sameValue (before !!! b) (after !!! a) then st
               else g (before !!! b) (after !!! a) (P ++ [SNum (Z.of_nat a)]) st)
    P (JsArr (pre ++ erase (before !!! b) :: post))
    (fun Y => exists c, Y = JsArr (pre ++ c :: post) /\ same_json c (erase (after !!! a))).
Proof.
  intros Hpre Hb Ha Hg. destruct (sameValue _ _) eqn:E.
  - apply produces_id. eexists. split; [done|]. apply sameValue_same; [by apply Forall_total..|done].
  - assert (SNum (Z.of_nat a) = SNum (blen pre)) as Ea by (unfold blen; by rewrite Hpre).
    eapply produces_mono; [|eapply (produces_child _ _ _ (SNum (blen pre))); [apply child_middle|]].
    + cbn beta. intros Y (c & -> & Hc). exists c. split; [apply define_middle|exact Hc].
    + rewrite <- Ea. by apply Hg.
Qed.

Section Matches.
Context (F : list revision -> list revision -> Path -> nat -> nat -> nat -> nat -> nat -> batch -> batch).
Context (g : revision -> revision -> Path -> batch -> batch).
Context (b0 bEnd a0 aEnd : nat).
Hypothesis g_overflowed : forall x y Q st, overflowed st = true -> g x y Q st = st.
Hypothesis range_ok : (bEnd <= length before)%nat /\ (aEnd <= length after)%nat.
Hypothesis F_spec : forall i i' j j', (b0 <= i <= i')%nat -> (i' <= bEnd)%nat -> (a0 <= j <= j')%nat -> (j' <= aEnd)%nat ->
  ((i' - i) + (j' - j) < (bEnd - b0) + (aEnd - a0))%nat -> region_spec (F before after P) i i' j j'.
Hypothesis g_spec : forall i j, (b0 <= i < bEnd)%nat -> (a0 <= j < aEnd)%nat ->
  value_spec g (before !!! i) (after !!! j) (P ++ [SNum (Z.of_nat j)]).

Lemma process_overflowed b a o ms st :
  overflowed st = true -> processArrayMatches F g before after P b bEnd a aEnd o ms st = st.
Proof. intros H. destruct ms as [|[i j] ms]; cbn; by rewrite H. Qed.

Lemma produces_matches ms b a st pre post :
  length pre = a -> (b0 <= b)%nat -> (a0 <= a)%nat -> incr b bEnd a aEnd ms -> (ms = [] -> (b0 < b)%nat) ->
  produces st (processArrayMatches F g before after P b bEnd a aEnd a ms st) P
    (JsArr (pre ++ map erase (sub_list before b bEnd) ++ post))
    (fun Y => exists ys, Y = JsArr (pre ++ ys ++ post) /\ Forall2 same_json ys (map erase (sub_list after a aEnd))).
Proof.
  destruct range_ok as [Hbe Hae].
  revert b a st pre. induction ms as [|[i j] ms IH]; intros b a st pre Hpre Hb Ha Hms Hne; cbn [processArrayMatches].
  - destruct (overflowed st) eqn:Ho; [by apply produces_overflowed|]. cbn in Hms. specialize (Hne eq_refl).
    apply F_spec; lia || done.
  - destruct (overflowed st) eqn:Ho; [by apply produces_overflowed|]. clear Ho.
    destruct Hms as (Hi & Hj & Hms). pose proof (incr_bounds _ _ _ _ _ Hms).
    replace (a + (j - a))%nat with j by lia.
    rewrite (sub_list_split before b i), (sub_list_split before i (S i)) by lia.
    rewrite sub_list_one by lia. rewrite !map_app, <- !app_assoc. cbn [map app].
    eapply produces_seq; [|apply (F_spec b i a j); lia || done|].
    { intros Ho. rewrite process_overflowed; case_match; rewrite ?g_overflowed; done. }
    intros Y (ys & -> & Hys). pose proof (Forall2_length _ _ _ Hys) as Hly.
    rewrite length_map, sub_list_length in Hly by lia. rewrite app_assoc.
    eapply produces_seq; [apply process_overflowed|apply produces_element|].
    + rewrite length_app. lia.
    + lia.
    + lia.
    + apply g_spec; lia.
    + intros Y (c & -> & Hc). replace (((pre ++ ys) ++ c :: map erase (sub_list before (S i) bEnd) ++ post))
        with ((pre ++ ys ++ [c]) ++ map erase (sub_list before (S i) bEnd) ++ post) by (by rewrite <- !app_assoc).
      eapply produces_mono; [|apply IH; [rewrite !length_app; cbn; lia|lia|lia|done|lia]].
      cbn beta. intros Z (zs & -> & Hzs). exists (ys ++ c :: zs). split; [by rewrite <- !app_assoc|].
      rewrite (sub_list_split after a j), (sub_list_split after j (S j)) by lia.
      rewrite sub_list_one by lia. rewrite !map_app. apply Forall2_app; [done|]. cbn. by constructor.
Qed.
End Matches.
End Region.

(** *** The recursion *)

Lemma diffValue_overflowed n b a P st : overflowed st = true -> diffValue n b a P st = st.
Proof. intros H. destruct n; cbn [diffValue]; [done|]. by rewrite H, orb_true_r. Qed.

Lemma region_overflowed n before after P b bEnd a aEnd o st :
  overflowed st = true -> diffArrayRegion n before after P b bEnd a aEnd o st = st.
Proof. intros H. destruct n; cbn [diffArrayRegion]; [done|]. by rewrite H. Qed.

Definition value_at (n : nat) : Prop :=
  forall b a P, U b -> U a -> safe_path P -> (2 * (rsize b + rsize a) <= n)%nat -> value_spec (diffValue n) b a P.

Definition region_at (n : nat) : Prop :=
  forall before after P, Forall U before -> Forall U after -> small (blen before) -> small (blen after) -> safe_path P ->
  forall b bEnd a aEnd, (b <= bEnd <= length before)%nat -> (a <= aEnd <= length after)%nat ->
    (2 * (range_size before b bEnd + range_size after a aEnd) < n)%nat ->
    region_spec before after P (diffArrayRegion n before after P) b bEnd a aEnd.

Lemma produces_splice before after P st b bEnd a aEnd pre post :
  Forall U after -> small (blen before) -> small (blen after) -> safe_path P ->
  (b <= bEnd <= length before)%nat -> (a <= aEnd <= length after)%nat -> length pre = a ->
  produces st (emitOperation st (OpP P (Z.of_nat a) (Z.of_nat (bEnd - b)) (sub_list after a aEnd))) P
    (JsArr (pre ++ map erase (sub_list before b bEnd) ++ post))
    (fun Y => exists ys, Y = JsArr (pre ++ ys ++ post) /\ Forall2 same_json ys (map erase (sub_list after a aEnd))).
Proof.
  intros Ha Hsb Hsa [Hp1 Hp2] Hb Hae Hpre.
  replace (Z.of_nat a) with (blen pre) by (unfold blen; lia).
  replace (Z.of_nat (bEnd - b)) with (blen (map erase (sub_list before b bEnd)))
    by (unfold blen; rewrite length_map, sub_list_length; lia).
  eapply produces_emit; [apply effect_splice| | |].
  - cbn. split; [done|]. split; apply blen_nonneg.
  - cbn. unfold small, blen in *. rewrite length_map, sub_list_length by lia. split; [done|lia].
  - exists (map erase (sub_list after a aEnd)). rewrite splice_middle. split; [done|].
    apply Forall_Forall2_diag. apply Forall_forall. intros c Hc. apply list_elem_of_fmap in Hc as (x & -> & Hx).
    reflexivity.
Qed.

(** The region once its equal ends are trimmed. *)
Definition region_core (n : nat) (before after : list revision) (P : Path) (b bEnd a aEnd : nat) (st : batch) : batch :=
  let splice := OpP P (Z.of_nat a) (Z.of_nat (bEnd - b)) (sub_list after a aEnd) in
  if (bEnd - b =? 0)%nat && (aEnd - a =? 0)%nat then st
  else if (bEnd - b =? 0)%nat || (aEnd - a =? 0)%nat then emitOperation st splice
  else
    match region_matches before after b bEnd a aEnd with
    | [] =>
        if (bEnd - b =? 1)%nat && (aEnd - a =? 1)%nat
        then diffValue n (before !!! b) (after !!! a) (P ++ [SNum (Z.of_nat a)]) st
        else emitOperation st splice
    | matches =>
        processArrayMatches (diffArrayRegion n) (diffValue n) before after P b bEnd a aEnd a matches st
    end.

Lemma region_core_spec n before after P b bEnd a aEnd :
  value_at n -> region_at n ->
  Forall U before -> Forall U after -> small (blen before) -> small (blen after) -> safe_path P ->
  (b <= bEnd <= length before)%nat -> (a <= aEnd <= length after)%nat ->
  (2 * (range_size before b bEnd + range_size after a aEnd) <= n)%nat ->
  forall st pre post, length pre = a ->
    produces st (region_core n before after P b bEnd a aEnd st) P
      (JsArr (pre ++ map erase (sub_list before b bEnd) ++ post))
      (fun Y => exists ys, Y = JsArr (pre ++ ys ++ post) /\ Forall2 same_json ys (map erase (sub_list after a aEnd))).
Proof.
  intros IHv IHr Hb Ha Hsb Hsa Hp Hbr Har Hn st pre post Hpre. unfold region_core.
  pose proof (produces_splice before after P st b bEnd a aEnd pre post Ha Hsb Hsa Hp Hbr Har Hpre) as Hsplice.
  destruct (Nat.eqb_spec (bEnd - b) 0) as [Eb|Eb], (Nat.eqb_spec (aEnd - a) 0) as [Ea|Ea]; cbn [andb orb]; try done.
  { apply produces_id. assert (bEnd = b) as -> by lia. assert (aEnd = a) as -> by lia.
    rewrite !sub_list_nil. by exists []. }
  pose proof (region_matches_incr before after b bEnd a aEnd Hbr Har) as Hms.
  assert (forall i j, (b <= i < bEnd)%nat -> (a <= j < aEnd)%nat ->
    value_spec (diffValue n) (before !!! i) (after !!! j) (P ++ [SNum (Z.of_nat j)])) as Hval.
  { intros i j Hi Hj. apply IHv; [apply Forall_total; [done|lia]..| |].
    - apply (index_path_safe after); (done || lia).
    - pose proof (range_size_inside before b i (S i) bEnd ltac:(lia) ltac:(lia)) as R1.
      pose proof (range_size_inside after a j (S j) aEnd ltac:(lia) ltac:(lia)) as R2.
      rewrite range_size_one in R1, R2 by lia. lia. }
  destruct (region_matches before after b bEnd a aEnd) as [|m ms] eqn:Em.
  - destruct (Nat.eqb_spec (bEnd - b) 1) as [Eb1|], (Nat.eqb_spec (aEnd - a) 1) as [Ea1|]; cbn [andb]; try done.
    clear Hsplice Hms. assert (bEnd = S b) as -> by lia. assert (aEnd = S a) as -> by lia.
    rewrite !sub_list_one by lia. cbn [map app].
    assert (SNum (Z.of_nat a) = SNum (blen pre)) as Es by (unfold blen; by rewrite Hpre).
    eapply produces_mono; [|eapply (produces_child _ _ _ (SNum (blen pre))); [apply child_middle|]].
    + cbn beta. intros Y (c & -> & Hc). exists [c]. split; [apply define_middle|]. constructor; [exact Hc|constructor].
    + rewrite <- Es. apply Hval; lia.
  - clear Hsplice. apply (produces_matches before after P Hb Ha (diffArrayRegion n) (diffValue n) b bEnd a aEnd);
      [intros; by apply diffValue_overflowed|lia| |done|done|lia|lia|done|done].
    intros i i' j j' ? ? ? ? ?. apply IHr; [done..|lia|lia|].
    pose proof (range_size_inside before b i i' bEnd ltac:(lia) ltac:(lia)).
    pose proof (range_size_inside after a j j' aEnd ltac:(lia) ltac:(lia)). lia.
Qed.

Lemma region_step n : value_at n -> region_at n -> region_at (S n).
Proof.
  intros IHv IHr before after P Hb Ha Hsb Hsa Hp b bEnd a aEnd Hbr Har Hn st pre post Hpre.
  cbn [diffArrayRegion]. destruct (overflowed st) eqn:Ho; [by apply produces_overflowed|].
  pose proof (common_prefix_spec (Nat.min (bEnd - b) (aEnd - a)) before after b a Hb Ha ltac:(lia) ltac:(lia)) as [Hf HF].
  generalize dependent (common_prefix (Nat.min (bEnd - b) (aEnd - a)) before after b a). intros front Hf HF.
  pose proof (common_suffix_spec (Nat.min (bEnd - (b + front)) (aEnd - (a + front))) before after bEnd aEnd Hb Ha
    ltac:(lia) ltac:(lia)) as [Hk HB].
  generalize dependent (common_suffix (Nat.min (bEnd - (b + front)) (aEnd - (a + front))) before after bEnd aEnd).
  intros back Hk HB.
  change (produces st (region_core n before after P (b + front) (bEnd - back) (a + front) (aEnd - back) st) P
    (JsArr (pre ++ map erase (sub_list before b bEnd) ++ post))
    (fun Y => exists ys, Y = JsArr (pre ++ ys ++ post) /\ Forall2 same_json ys (map erase (sub_list after a aEnd)))).
  assert (b <= b + front <= bEnd - back)%nat as Hb1 by lia. assert (bEnd - back <= bEnd)%nat as Hb2 by lia.
  assert (a <= a + front <= aEnd - back)%nat as Ha1 by lia. assert (aEnd - back <= aEnd)%nat as Ha2 by lia.
  assert (length (pre ++ map erase (sub_list before b (b + front))) = a + front)%nat as Hpre1
    by (rewrite length_app, length_map, sub_list_length; lia).
  clear Hf Hk. generalize dependent (b + front)%nat. intros b1 ???.
  generalize dependent (bEnd - back)%nat. intros b2 ???.
  generalize dependent (a + front)%nat. intros a1 ???.
  generalize dependent (aEnd - back)%nat. intros a2 ???.
  rewrite (sub_list_split before b b1 bEnd), (sub_list_split before b1 b2 bEnd) by lia.
  rewrite !map_app, <- !app_assoc, (app_assoc pre).
  pose proof (range_size_inside before b b1 b2 bEnd ltac:(lia) ltac:(lia)).
  pose proof (range_size_inside after a a1 a2 aEnd ltac:(lia) ltac:(lia)).
  eapply produces_mono; [|apply region_core_spec; (done || lia)].
  cbn beta. intros Y (ys & -> & Hys).
  exists (map erase (sub_list before b b1) ++ ys ++ map erase (sub_list before b2 bEnd)).
  split; [by rewrite <- !app_assoc|].
  rewrite (sub_list_split after a a1 aEnd), (sub_list_split after a1 a2 aEnd) by lia. rewrite !map_app.
  by repeat apply Forall2_app.
Qed.

Lemma produces_array n i l j r P st :
  region_at n -> U (RvArr i l) -> U (RvArr j r) -> safe_path P ->
  (2 * (rsize (RvArr i l) + rsize (RvArr j r)) <= S n)%nat ->
  produces st (diffArray (diffArrayRegion n) (RvArr i l) (RvArr j r) l r P st) P (erase (RvArr i l))
    (fun Y => same_json Y (erase (RvArr j r))).
Proof.
  intros IHr Hb Ha Hp Hn. unfold diffArray. destruct (_ || _) eqn:E.
  { apply produces_id. by apply sameValue_same. }
  clear E. pose proof (U_arr _ _ Hb) as Hl. pose proof (U_arr _ _ Ha) as Hr.
  pose proof (U_sized _ Hb) as Hls. pose proof (U_sized _ Ha) as Hrs. cbn in Hls, Hrs.
  assert (produces st (diffArrayRegion n l r P 0 (length l) 0 (length r) 0 st) P (erase (RvArr i l))
    (fun Y => same_json Y (erase (RvArr j r)))) as Hregion.
  { cbn [rsize erase] in *.
    assert (range_size l 0 (length l) = sum_list (map rsize l)) as E1 by (unfold range_size; by rewrite sub_list_all).
    assert (range_size r 0 (length r) = sum_list (map rsize r)) as E2 by (unfold range_size; by rewrite sub_list_all).
    pose proof (IHr l r P Hl Hr Hls Hrs Hp 0%nat (length l) 0%nat (length r) ltac:(lia) ltac:(lia) ltac:(lia) st [] [] eq_refl) as H.
    rewrite !sub_list_all, app_nil_r in H. cbn [app] in H.
    eapply produces_mono; [|exact H]. cbn beta. intros Y (ys & -> & Hys). rewrite app_nil_r. by constructor. }
  match goal with |- context [if ?c then permutation l r else None] => destruct c end; [|exact Hregion].
  destruct (permutation l r) as [perm|] eqn:Hperm; [|exact Hregion]. clear Hregion.
  apply permutation_spec in Hperm as (Hbij & Hlen & HF); [|done..].
  assert (blen (map Z.of_nat perm) = blen l) as Hbl by (rewrite blen_map; unfold blen; by rewrite Hlen).
  destruct Hp as [Hp1 Hp2]. cbn [erase].
  eapply produces_emit; [apply effect_permute; by rewrite blen_map| | |constructor; exact HF].
  - by split.
  - split; [done|]. by rewrite Hbl.
Qed.

Lemma value_step n : value_at n -> region_at n -> value_at (S n).
Proof.
  intros IHv IHr b a P Hb Ha Hp Hn st. cbn [diffValue]. destruct (_ || _) eqn:E.
  { apply orb_true_iff in E as [E|E]; [apply produces_id; by apply strict_same|by apply produces_overflowed]. }
  apply orb_false_iff in E as [E _].
  assert (produces st (emitSet P a st) P (erase b) (fun Y => same_json Y (erase a))) as Hset.
  { apply produces_emitSet; [done|]. reflexivity. }
  destruct b as [|x|x|s|i l|i np es], a as [|y|y|t|j r|j np' os]; try exact Hset.
  - case_bool_decide; [exact Hset|]. apply produces_string; [done|done|apply (U_sized _ Hb)].
  - by apply produces_array.
  - apply produces_object; [done|done|done|]. intros k v w Hv Hw Hpk.
    apply IHv; [exact (U_obj_get _ _ _ _ _ Hb Hv)|exact (U_obj_get _ _ _ _ _ Ha Hw)|done|].
    apply obj_get_elem, rsize_entry in Hv, Hw. cbn [rsize fst snd] in *. lia.
Qed.

Lemma diff_spec n : value_at n /\ region_at n.
Proof.
  induction n as [|n [IHv IHr]].
  - split.
    + intros b a P _ _ _ Hn. pose proof (rsize_pos b). lia.
    + intros before after P _ _ _ _ _ b bEnd a aEnd _ _ Hn. lia.
  - split; [by apply value_step|by apply region_step].
Qed.

Lemma diffValue_spec b a : U b -> U a -> value_spec (diffValue (diff_fuel b a)) b a [].
Proof. intros Hb Ha. apply diff_spec; [done|done|split; constructor|]. unfold diff_fuel. lia. Qed.
End Universe.

(** ** Batches stay within the limit *)

(** Whatever every emission keeps, the diff keeps. *)
Section Emission.
Context (I : batch -> Prop).
Hypothesis emit_I : forall b op, I b -> I (emitOperation b op).

Lemma emitSet_inv P v b : I b -> I (emitSet P v b).
Proof. intros. unfold emitSet. case_bool_decide; auto. Qed.

Lemma emitString_inv s t P b : I b -> I (emitString s t P b).
Proof. intros. unfold emitString. repeat case_match; auto. Qed.

Lemma fold_inv {A} (f : batch -> A -> batch) l b : (forall b x, I b -> I (f b x)) -> I b -> I (fold_left f l b).
Proof. intros Hf. revert b. induction l as [|x l IH]; intros b Hb; cbn; auto. Qed.

Lemma diff_inv n :
  (forall b a P st, I st -> I (diffValue n b a P st)) /\
  (forall before after P b bEnd a aEnd o st, I st -> I (diffArrayRegion n before after P b bEnd a aEnd o st)).
Proof.
  induction n as [|n [IHv IHr]]; [by split|].
  assert (forall ms before after P b bEnd a aEnd o st, I st ->
    I (processArrayMatches (diffArrayRegion n) (diffValue n) before after P b bEnd a aEnd o ms st)) as Hms.
  { induction ms as [|[i j] ms IH]; intros; cbn [processArrayMatches]; [case_match; auto|].
    case_match; [done|]. apply IH. case_match; auto. }
  split.
  - intros b a P st Hst. cbn [diffValue]. case_match; [done|].
    destruct b, a; try (by apply emitSet_inv).
    + case_bool_decide; [by apply emitSet_inv|by apply emitString_inv].
    + unfold diffArray. repeat case_match; auto.
    + unfold diffObject. repeat case_match; [done|by apply emitSet_inv|].
      apply fold_inv; [intros b e Hb; unfold drop_key; repeat case_match; auto|].
      apply fold_inv; [intros b e Hb; unfold diff_key; repeat case_match; auto using emitSet_inv|done].
  - intros before after P b bEnd a aEnd o st Hst. cbn [diffArrayRegion]. repeat case_match; auto.
Qed.
End Emission.

Lemma diffRevisions_bound before after : blen (diffRevisions before after) <= MAX_DELTA_OPERATIONS.
Proof.
  assert (forall v : revision, blen [OpR v] <= MAX_DELTA_OPERATIONS) as H1 by (intros; by vm_compute).
  assert (blen (operations (diffValue (diff_fuel before after) before after [] (mkBatch [] false))) <= MAX_DELTA_OPERATIONS).
  { apply (diff_inv (fun b => blen (operations b) <= MAX_DELTA_OPERATIONS)); [|by vm_compute].
    intros b op Hb. unfold emitOperation. repeat case_match; cbn; try done. rewrite blen_app.
    change (blen [op]) with 1. lia. }
  unfold diffRevisions. repeat case_match; done.
Qed.

(** ** Two revisions *)

(** The values that occur in [r]. *)
Inductive within (r : revision) : revision -> Prop :=
| within_refl : within r r
| within_arr id l c : within r (RvArr id l) -> c ∈ l -> within r c
| within_obj id np es e : within r (RvObj id np es) -> e ∈ es -> within r e.2.

(** Both are strict JSON, no larger than the language allows, and a container
    with one identity is one document wherever it occurs. *)
Record revisions_ok (before after : revision) : Prop := {
  ro_before : json_ok (erase before);
  ro_after : json_ok (erase after);
  ro_sized x : within before x \/ within after x -> sized x;
  ro_shared x y : within before x \/ within after x -> within before y \/ within after y ->
    isContainer x = true -> strict_eq x y = true -> erase x = erase y }.

Lemma within_ok r x : json_ok (erase r) -> within r x -> json_ok (erase x).
Proof.
  intros Hr. induction 1 as [|id l c _ IH Hc|id np es e _ IH He]; [done|..]; cbn in IH.
  - apply json_ok_arr in IH. rewrite Forall_forall in IH. apply IH. by apply (list_elem_of_fmap_2 erase).
  - apply json_ok_obj in IH as [_ IH]. rewrite Forall_forall in IH.
    by apply (IH (e.1, erase e.2)), (list_elem_of_fmap_2 (fun e => (e.1, erase e.2))).
Qed.

Lemma diff_produces before after :
  revisions_ok before after ->
  value_spec (diffValue (diff_fuel before after)) before after [].
Proof.
  intros [Hb Ha Hs Hi]. apply (diffValue_spec (fun x => within before x \/ within after x)).
  - intros id l [H|H]; apply Forall_forall; intros c Hc; [left|right]; by eapply within_arr.
  - intros id np es [H|H]; apply Forall_forall; intros e He; [left|right]; by eapply within_obj.
  - exact Hi.
  - intros x [H|H]; [exact (within_ok _ _ Hb H)|exact (within_ok _ _ Ha H)].
  - exact Hs.
  - left. constructor.
  - right. constructor.
Qed.

Lemma diffRevisions_spec before after :
  revisions_ok before after ->
  Forall op_ok (diffRevisions before after) /\ Forall op_small (diffRevisions before after) /\
  exists r, runs (erase before) (diffRevisions before after) r /\ same_json r (erase after).
Proof.
  intros Hok. pose proof (diff_produces before after Hok (mkBatch [] false)) as H.
  assert (Forall op_ok [OpR after] /\ Forall op_small [OpR after] /\
    exists r, runs (erase before) [OpR after] r /\ same_json r (erase after)) as Hr.
  { split_and!; [by repeat constructor|by repeat constructor|]. exists (erase after). split; [done|].
    reflexivity. }
  unfold diffRevisions. revert H. generalize (diffValue (diff_fuel before after) before after [] (mkBatch [] false)).
  intros b H. destruct (overflowed b) eqn:Eo; [exact Hr|].
  destruct (H Eo) as (_ & ops & Y & Eops & H1 & H2 & He & HY). cbn in Eops. rewrite Eops.
  assert (Forall op_ok ops /\ Forall op_small ops /\
    exists r, runs (erase before) ops r /\ same_json r (erase after)) as Hops.
  { split_and!; [done|done|]. exists Y. split; [|done]. by apply (He (erase before)). }
  repeat case_match; assumption.
Qed.

(** The values that occur in a revision, as a list. *)
Fixpoint occurring (r : revision) : list revision :=
  r :: match r with
       | RvArr _ l => concat (map occurring l)
       | RvObj _ _ es => concat (map (fun e => occurring e.2) es)
       | _ => []
       end.

Lemma occurring_self r : r ∈ occurring r.
Proof. destruct r; left. Qed.

Lemma occurring_child r x c :
  x ∈ occurring r ->
  (forall id l, x = RvArr id l -> c ∈ l -> c ∈ occurring r) /\
  (forall id np es e, x = RvObj id np es -> e ∈ es -> e.2 ∈ occurring r).
Proof.
  remember (rsize r) as n eqn:Hn. revert r Hn. induction n as [n IH] using lt_wf_ind. intros r -> Hx.
  assert (forall A (f : A -> list revision) (a : A) l y, a ∈ l -> y ∈ f a -> y ∈ concat (map f l)) as Hin.
  { intros A f a l y Ha Hy. induction Ha; cbn; apply elem_of_app; auto. }
  destruct r as [|b|f|s|i l|i np es]; cbn in Hx;
    try (apply list_elem_of_singleton in Hx as ->; split; intros; done).
  - apply elem_of_cons in Hx as [->|Hx].
    + split; [|done]. intros id l' [= <- <-] Hc. right. apply (Hin _ occurring c); [done|apply occurring_self].
    + assert (exists y, y ∈ l /\ x ∈ occurring y) as (y & Hy & Hxy).
      { clear - Hx. induction l as [|y l IHl]; cbn in Hx; [by apply elem_of_nil in Hx|].
        apply elem_of_app in Hx as [Hx|Hx]; [exists y; split; [left|done]|].
        destruct (IHl Hx) as (z & ? & ?). exists z. split; [by right|done]. }
      pose proof (rsize_item y l Hy). destruct (IH (rsize y) ltac:(cbn; lia) y eq_refl Hxy) as [H1 H2].
      split; intros; right; (apply (Hin _ occurring y); [done|]); eauto.
  - apply elem_of_cons in Hx as [->|Hx].
    + split; [done|]. intros id np' es' e [= <- <- <-] He. right.
      apply (Hin _ (fun e => occurring e.2) e); [done|apply occurring_self].
    + assert (exists y, y ∈ es /\ x ∈ occurring y.2) as (y & Hy & Hxy).
      { clear - Hx. induction es as [|y es IHl]; cbn in Hx; [by apply elem_of_nil in Hx|].
        apply elem_of_app in Hx as [Hx|Hx]; [exists y; split; [left|done]|].
        destruct (IHl Hx) as (z & ? & ?). exists z. split; [by right|done]. }
      pose proof (rsize_entry y es Hy). destruct (IH (rsize y.2) ltac:(cbn; lia) y.2 eq_refl Hxy) as [H1 H2].
      split; intros; right; (apply (Hin _ (fun e => occurring e.2) y); [done|]); eauto.
Qed.

Lemma within_occurring r x : within r x -> x ∈ occurring r.
Proof.
  induction 1 as [|id l c _ IH Hc|id np es e _ IH He]; [apply occurring_self|..].
  - destruct (occurring_child r _ c IH) as [H _]. by eapply H.
  - destruct (occurring_child r _ e.2 IH) as [_ H]. by eapply H.
Qed.

(** A check over the finitely many values. *)
Lemma revisions_ok_check before after :
  let all := occurring before ++ occurring after in
  json_ok (erase before) -> json_ok (erase after) -> Forall sized all ->
  Forall (fun x => Forall (fun y => isContainer x = true -> strict_eq x y = true -> erase x = erase y) all) all ->
  revisions_ok before after.
Proof.
  intros all Hb Ha Hs Hi. rewrite Forall_forall in Hs, Hi.
  assert (forall x, within before x \/ within after x -> x ∈ all) as Hin.
  { intros x [H|H]; apply elem_of_app; [left|right]; by apply within_occurring. }
  split; [done|done|by auto|]. intros x y Hx Hy. apply Hin in Hx, Hy. specialize (Hi x Hx). rewrite Forall_forall in Hi. auto.
Qed.

(** ** Theorem *)

Lemma erase_op_ok op : op_ok op -> op_small op -> op_ok (erase_op op) /\ op_small (erase_op op).
Proof. by destruct op. Qed.

(** C12. The operations [diffRevisions] computes are valid and at most 4096, and
    applying them to the first revision succeeds with a document equal to the
    second (up to the order of object keys): whatever the two share, whichever
    strategy matched their arrays, and also when the batch overflowed or a
    snapshot was cheaper. *)
Theorem diffRevisions_correct before after :
  revisions_ok before after ->
  let ops := map erase_op (diffRevisions before after) in
  blen ops <= MAX_DELTA_OPERATIONS /\
  Forall (fun op => assertValidOp json_view (op_json op) = Ok op) ops /\
  exists r, tree_apply (Some (erase before)) ops = Ok (Some r) /\ same_json r (erase after).
Proof.
  intros Hok. cbn zeta. destruct (diffRevisions_spec before after Hok) as (H1 & H2 & r & Hr & Hs).
  split; [rewrite blen_map; apply diffRevisions_bound|]. split; [|by exists r].
  apply Forall_map. rewrite Forall_forall in H1, H2. apply Forall_forall. intros op Hop.
  destruct (erase_op_ok op (H1 op Hop) (H2 op Hop)). by apply assertValidOp_json.
Qed.

(** Two revisions that share the containers 3 and 9. *)
Definition sample_before : revision :=
  RvObj 1 false [($"k", RvNull); ($"xs", RvArr 2 [RvObj 3 false [($"t", RvStr $"ab")]; RvBool true;
                                                  RvObj 9 false []; RvObj 8 false [($"s", RvStr $"log")]])].
Definition sample_after : revision :=
  RvObj 4 false [($"new", RvBool false); ($"xs", RvArr 5 [RvNull; RvObj 3 false [($"t", RvStr $"ab")];
                                                          RvObj 9 false []; RvObj 7 false [($"s", RvStr $"log2")]])].

(** A concrete document is checked node by node. *)
Ltac check_document :=
  repeat match goal with
    | |- json_ok (JsObj _ _) => apply ok_obj; [split; [by apply (bool_decide_unpack _); vm_compute|repeat constructor; by apply (bool_decide_unpack _); vm_compute]|]
    | |- json_ok _ => constructor
    | |- Forall _ _ => constructor
    end.

Lemma sample_ok : revisions_ok sample_before sample_after.
Proof.
  apply revisions_ok_check.
  - cbn. check_document.
  - cbn. check_document.
  - by repeat constructor.
  - repeat constructor; done.
Qed.

Lemma diffRevisions_correct_witness :
  map erase_op (diffRevisions sample_before sample_after) =
    [OpS [SStr $"new"] (JsBool false); OpP [SStr $"xs"] 0 0 [JsNull]; OpP [SStr $"xs"] 2 1 [];
     OpA [SStr $"xs"; SNum 3; SStr $"s"] $"2"; OpD [SStr $"k"]] /\
  exists r, tree_apply (Some (erase sample_before)) (map erase_op (diffRevisions sample_before sample_after)) = Ok (Some r) /\
    same_json r (erase sample_after).
Proof. split; [vm_compute; reflexivity|apply (diffRevisions_correct _ _ sample_ok)]. Defined.
