(* ===== verification/DeltaHeap.v ===== *)
(** * Applying delta operations on the heap (packages/chord/src/delta/index.ts)

[apply] edits containers in place; [applyImmutable] first copies every
container on the operation's path that it does not own yet.  Both work on a
heap of shared containers, so both are modelled with the heap, the set of
owned containers and the errors they throw as one monad.  The theorem: applied
immutably, batches implement the tree semantics of [DeltaTree] and leave every
container that existed before untouched, also when they fail. *)
From S2P Require Import Prelude JsNumber JsObject Json DeltaOps DeltaTree.
#[local] Open Scope Z_scope.

(** ** Values and containers *)

Inductive hval := HNull | HBool (b : bool) | HNum (n : num) | HStr (s : jstring) | HRef (l : positive).

Inductive hcell := HArr (items : list hval) | HObj (null_proto : bool) (entries : list (jstring * hval)).

Notation heap := (gmap positive hcell).

Definition heap_view (h : heap) (v : hval) : shape hval :=
  match v with
  | HStr s => ShString s
  | HNum n => ShNumber n
  | HRef l => match h !! l with Some (HArr items) => ShArray items | _ => ShOther end
  | _ => ShOther
  end.

(** ** The monad: heap, owned containers, errors *)

Record dstate := mkState { hp : heap; owned : gset positive }.

Definition hm (A : Type) : Type := dstate -> dstate * result DeltaError A.

#[export] Instance hm_ret : MRet hm := fun A a st => (st, Ok a).
#[export] Instance hm_bind : MBind hm := fun A B f m st =>
  match m st with (st', Ok a) => f a st' | (st', Err e) => (st', Err e) end.

Definition throw {A} (e : DeltaError) : hm A := fun st => (st, Err e).
Definition lift {A} (r : result DeltaError A) : hm A := fun st => (st, r).
Definition read {A} (f : heap -> result DeltaError A) : hm A := fun st => (st, f (hp st)).
Definition store (l : positive) (c : hcell) : hm unit := fun st => (mkState (<[l := c]> (hp st)) (owned st), Ok tt).
Definition is_owned (l : positive) : hm bool := fun st => (st, Ok (bool_decide (l ∈ owned st))).

(** A copy of [c] at a new location, marked as owned. *)
Definition alloc_owned (c : hcell) : hm positive := fun st =>
  let l := fresh (dom (hp st)) in (mkState (<[l := c]> (hp st)) ({[l]} ∪ owned st), Ok l).

Fixpoint hm_fold {S A} (f : S -> A -> hm S) (s : S) (l : list A) : hm S :=
  match l with [] => mret s | x :: l => f s x ≫= fun s => hm_fold f s l end.

(** ** Walking *)

Definition cell_of (h : heap) (v : hval) : result DeltaError (positive * hcell) :=
  match v with
  | HRef l => match h !! l with Some c => Ok (l, c) | None => Err PathError end
  | _ => Err PathError
  end.

(** [(node as Record<Seg, JsonValue>)[seg]], guarded. *)
Definition cell_child (c : hcell) (s : Seg) : result DeltaError hval :=
  match c, s with
  | HArr items, SNum n => match at_ items n with Some v => Ok v | None => Err PathError end
  | HArr _, SStr _ => Err UnsafePathError
  | HObj _ es, _ => match obj_get es (seg_key s) with Some v => Ok v | None => Err PathError end
  end.

Definition resolve_step (h : heap) (node : hval) (s : Seg) : result DeltaError hval :=
  cell_of h node ≫= fun p : positive * hcell => cell_child p.2 s.

Definition resolveValue (h : heap) (root : hval) (path : Path) : result DeltaError hval :=
  foldM (resolve_step h) root path.

Definition resolve (h : heap) (root : hval) (path : Path) : result DeltaError (positive * hcell) :=
  resolveValue h root path ≫= cell_of h.

(** [resolve(root, path)] for a document that may be [undefined]. *)
Definition resolve_root (h : heap) (root : option hval) (path : Path) : result DeltaError (positive * hcell) :=
  match root with Some root => resolve h root path | None => Err PathError end.

(** ** One operation, in place *)

(** The chunked insertion of a splice's items. *)
Definition chunkSize : nat := Z.to_nat 10000.

Fixpoint insert_chunks {A} (fuel : nat) (target : list A) (index : Z) (offset : nat) (items : list A) : list A :=
  match fuel with
  | O => target
  | S fuel =>
      if (offset <? length items)%nat then
        insert_chunks fuel
          (splice_list target (index + Z.of_nat offset) 0 (take chunkSize (drop offset items)))
          index (offset + chunkSize) items
      else target
  end.

Definition splice_items {A} (target : list A) (index remove : Z) (items : list A) : list A :=
  insert_chunks (S (length items)) (splice_list target index remove []) index 0 items.

(** [target_[index] = previous[permutation[index]]] for every index. *)
Definition reorder {A} (target : list A) (perm : list Z) : list A :=
  fold_left (fun acc p => match at_ target p.2 with Some v => <[p.1 := v]> acc | None => acc end)
    (zip (seq 0 (length perm)) perm) target.

(** [assertIndexInRange] and the check that an array key is a number. *)
Definition check_key (c : hcell) (key : Seg) : result DeltaError unit :=
  match c, key with
  | HArr _, SStr _ => Err UnsafePathError
  | HArr items, SNum n => if blen items <? n then Err UnsafePathError else Ok tt
  | HObj _ _, _ => Ok tt
  end.

(** [read()] *)
Definition own_member (c : hcell) (key : Seg) : option hval :=
  match c, key with
  | HArr items, SNum n => at_ items n
  | HArr _, SStr _ => None
  | HObj _ es, _ => obj_get es (seg_key key)
  end.

(** [write(value)] *)
Definition cell_write (c : hcell) (key : Seg) (v : hval) : hcell :=
  match c, key with
  | HArr items, SNum n => HArr (arr_write items n v)
  | HArr _, SStr _ => c
  | HObj np es, _ => HObj np (obj_set es (seg_key key) v)
  end.

Definition cell_delete (c : hcell) (key : Seg) : result DeltaError hcell :=
  match c, key with
  | HArr items, SNum n => if n <? blen items then Ok (HArr (delete (Z.to_nat n) items)) else Err PathError
  | HArr _, SStr _ => Err PathError
  | HObj np es, _ => Ok (HObj np (obj_delete es (seg_key key)))
  end.

Definition string_value (v : option hval) : result DeltaError jstring :=
  match v with Some (HStr s) => Ok s | _ => Err PathError end.

(** The container an operation edits, and what it becomes. *)
Definition edit_cell (op : Op hval) (key : Seg) (c : hcell) : result DeltaError hcell :=
  match op with
  | OpP _ index remove items =>
      match c with HArr target => Ok (HArr (splice_items target index remove items)) | _ => Err PathError end
  | OpM _ perm =>
      match c with
      | HArr target => if blen target =? blen perm then Ok (HArr (reorder target perm)) else Err PathError
      | _ => Err PathError
      end
  | OpR _ => Err PathError
  | OpS _ v => check_key c key ≫= fun _ => Ok (cell_write c key v)
  | OpD _ => check_key c key ≫= fun _ => cell_delete c key
  | OpA _ text => check_key c key ≫= fun _ => string_value (own_member c key) ≫= fun s => Ok (cell_write c key (HStr (s ++ text)))
  | OpT _ count => check_key c key ≫= fun _ => string_value (own_member c key) ≫= fun s =>
      Ok (cell_write c key (HStr (drop (Z.to_nat count) s)))
  end.

(** The path of the container, and the key edited in it (unused for splices
    and reorderings, which address the container itself). *)
Definition target_of {V} (op : Op V) : option (Path * Seg) :=
  match op with
  | OpR _ => None
  | OpP p _ _ _ | OpM p _ => Some (p, SNum 0)
  | OpS p _ | OpD p | OpA p _ | OpT p _ => split_last p
  end.

Definition apply_op (root : option hval) (op : Op hval) : hm (option hval) :=
  match op with
  | OpR v => mret (Some v)
  | _ =>
      match target_of op with
      | None => throw PathError
      | Some (path, key) =>
          read (fun h => resolve_root h root path) ≫= fun p : positive * hcell =>
          lift (edit_cell op key p.2) ≫= fun c : hcell =>
          store p.1 c ≫= fun _ : unit => mret root
      end
  end.

Definition applyOps (target : option hval) (ops : list hval) : hm (option hval) :=
  hm_fold (fun root raw =>
    read (fun h => assertValidOp (heap_view h) raw) ≫= fun op : Op hval => apply_op root op) target ops.

(** ** Copying on write *)

Definition has_own (c : hcell) (s : Seg) : bool :=
  match c, s with
  | HArr items, SNum n => (0 <=? n) && (n <? blen items)
  | HArr items, SStr k =>
      bool_decide (k = $"length") || match array_index k with Some i => i <? blen items | None => false end
  | HObj _ es, _ => obj_has es (seg_key s)
  end.

(** One round of the loop of [copyContainers], from an owned container. *)
Definition copy_step (destination : positive) (s : Seg) : hm positive :=
  read (fun h => cell_of h (HRef destination)) ≫= fun p : positive * hcell =>
  let c := p.2 in
  if negb (has_own c s) then throw PathError else
  lift (cell_child c s) ≫= fun child : hval =>
  read (fun h => cell_of h child) ≫= fun q : positive * hcell =>
  is_owned q.1 ≫= fun own : bool =>
  if own then mret q.1
  else
    alloc_owned q.2 ≫= fun copied : positive =>
    store destination (cell_write c s (HRef copied)) ≫= fun _ : unit => mret copied.

Definition copyContainers (root : option hval) (path : Path) : hm (option hval) :=
  match root with
  | None => throw PathError
  | Some root =>
      read (fun h => cell_of h root) ≫= fun p : positive * hcell =>
      is_owned p.1 ≫= fun own : bool =>
      (if own then mret p.1 else alloc_owned p.2) ≫= fun copiedRoot : positive =>
      hm_fold copy_step copiedRoot path ≫= fun _ : positive => mret (Some (HRef copiedRoot))
  end.

Definition immutable_op (root : option hval) (raw : hval) : hm (option hval) :=
  read (fun h => assertValidOp (heap_view h) raw) ≫= fun op : Op hval =>
  match op, target_of op with
  | OpR v, _ => mret (Some v)
  | _, Some (path, _) => copyContainers root path ≫= fun root : option hval => applyOps root [raw]
  | _, None => throw PathError
  end.

Definition applyImmutableBatches (target : option hval) (batches : list (list hval)) : hm (option hval) :=
  hm_fold (hm_fold immutable_op) target batches.

(** A run from a heap in which nothing is owned yet. *)
Definition run_immutable (h : heap) (target : option hval) (batches : list (list hval)) :
    heap * result DeltaError (option hval) :=
  let '(st, r) := applyImmutableBatches target batches (mkState h ∅) in (hp st, r).

(** ** Trees on the heap *)

Lemma elem_of_concat_map {A B} (f : A -> list B) (x : A) xs k : x ∈ xs -> k ∈ f x -> k ∈ concat (map f xs).
Proof. intros Hx Hk. induction Hx; cbn; apply elem_of_app; auto. Qed.


(** [v] is the finite tree [t] in [h]. *)
Inductive unfolds (h : heap) : hval -> json -> Prop :=
| unfolds_null : unfolds h HNull JsNull
| unfolds_bool b : unfolds h (HBool b) (JsBool b)
| unfolds_num n : unfolds h (HNum n) (JsNum n)
| unfolds_str s : unfolds h (HStr s) (JsStr s)
| unfolds_arr l (xs : list (hval * json)) :
    h !! l = Some (HArr (map fst xs)) -> Forall (fun x => unfolds h x.1 x.2) xs ->
    unfolds h (HRef l) (JsArr (map snd xs))
| unfolds_obj l np (xs : list (jstring * (hval * json))) :
    h !! l = Some (HObj np (map (fun x => (x.1, x.2.1)) xs)) -> Forall (fun x => unfolds h x.2.1 x.2.2) xs ->
    unfolds h (HRef l) (JsObj np (map (fun x => (x.1, x.2.2)) xs)).

Lemma unfolds_mono h h2 v t : h ⊆ h2 -> unfolds h v t -> unfolds h2 v t.
Proof.
  intros Hsub. remember (json_size t) as n eqn:Hn. revert v t Hn.
  induction n as [n IH] using lt_wf_ind. intros v t -> H.
  destruct H as [| | | |l xs Hc Hxs|l np xs Hc Hxs]; try by constructor.
  - apply unfolds_arr; [by eapply lookup_weaken|]. rewrite Forall_forall in Hxs |- *. intros x Hx.
    eapply IH; [|done|by apply Hxs]. by apply json_size_item, (list_elem_of_fmap_2 snd).
  - apply unfolds_obj; [by eapply lookup_weaken|]. rewrite Forall_forall in Hxs |- *. intros x Hx.
    eapply IH; [|done|by apply Hxs].
    by apply (json_size_entry (x.1, x.2.2)), (list_elem_of_fmap_2 (fun x => (x.1, x.2.2))).
Qed.

(** A value, its tree, and the locations of its owned containers. *)
Record node := mkNode { nv : hval; nt : json; nl : list positive }.

Notation entry_v := (fun x : jstring * node => (x.1, nv x.2)).
Notation entry_t := (fun x : jstring * node => (x.1, nt x.2)).

(** [h0] is the heap before, whose containers are shared and stay as they are;
    the containers that are not in [h0] are owned, and [ls] lists those below [v]. *)
Section Trees.
Context (h0 : heap).

Inductive tree_in (h : heap) : hval -> json -> list positive -> Prop :=
| in_old v t : unfolds h0 v t -> tree_in h v t []
| in_arr l (xs : list node) :
    h0 !! l = None -> h !! l = Some (HArr (map nv xs)) -> Forall (fun x => tree_in h (nv x) (nt x) (nl x)) xs ->
    tree_in h (HRef l) (JsArr (map nt xs)) (l :: concat (map nl xs))
| in_obj l np (xs : list (jstring * node)) :
    h0 !! l = None -> h !! l = Some (HObj np (map entry_v xs)) ->
    Forall (fun x => tree_in h (nv x.2) (nt x.2) (nl x.2)) xs ->
    tree_in h (HRef l) (JsObj np (map entry_t xs)) (l :: concat (map (fun x => nl x.2) xs)).

Definition node_in (h : heap) (x : node) : Prop := tree_in h (nv x) (nt x) (nl x).

(** A cell and the nodes of its members. *)
Inductive cell_in (h : heap) : hcell -> json -> list positive -> Prop :=
| cell_arr (xs : list node) : Forall (node_in h) xs -> cell_in h (HArr (map nv xs)) (JsArr (map nt xs)) (concat (map nl xs))
| cell_obj np (xs : list (jstring * node)) :
    Forall (fun x => node_in h x.2) xs ->
    cell_in h (HObj np (map entry_v xs)) (JsObj np (map entry_t xs)) (concat (map (fun x => nl x.2) xs)).

Lemma tree_in_cell h l t ls :
  h0 !! l = None -> tree_in h (HRef l) t ls ->
  exists c ls', ls = l :: ls' /\ h !! l = Some c /\ cell_in h c t ls'.
Proof.
  intros Hl. inversion 1 as [v t' Hold|l' xs H1 H2 H3|l' np xs H1 H2 H3]; subst.
  - inversion Hold; subst; congruence.
  - eexists _, _. split_and!; [done|done|by constructor].
  - eexists _, _. split_and!; [done|done|by constructor].
Qed.

Lemma cell_tree_in h l c t ls : h0 !! l = None -> h !! l = Some c -> cell_in h c t ls -> tree_in h (HRef l) t (l :: ls).
Proof. intros Hl Hc Hin. destruct Hin; by constructor. Qed.

(** Trees depend on their own owned containers only. *)
Lemma tree_in_frame h h2 v t ls : tree_in h v t ls -> (forall k, k ∈ ls -> h2 !! k = h !! k) -> tree_in h2 v t ls.
Proof.
  remember (json_size t) as n eqn:Hn. revert v t ls Hn. induction n as [n IH] using lt_wf_ind. intros v t ls -> H Heq.
  destruct H as [v t H|l xs Hl Hc Hxs|l np xs Hl Hc Hxs]; [by constructor|..].
  - apply in_arr; [done|rewrite Heq by left; done|]. rewrite Forall_forall in Hxs. apply Forall_forall. intros x Hx.
    eapply IH; [|done|by apply Hxs|].
    + by apply json_size_item, (list_elem_of_fmap_2 nt).
    + intros k Hk. apply Heq. right. by apply (elem_of_concat_map nl x).
  - apply in_obj; [done|rewrite Heq by left; done|]. rewrite Forall_forall in Hxs. apply Forall_forall. intros x Hx.
    eapply IH; [|done|by apply Hxs|].
    + by apply (json_size_entry (x.1, nt x.2)), (list_elem_of_fmap_2 entry_t).
    + intros k Hk. apply Heq. right. by apply (elem_of_concat_map (fun x => nl x.2) x).
Qed.

Lemma cell_in_frame h h2 c t ls : cell_in h c t ls -> (forall k, k ∈ ls -> h2 !! k = h !! k) -> cell_in h2 c t ls.
Proof.
  assert (forall x, node_in h x -> (forall k, k ∈ nl x -> h2 !! k = h !! k) -> node_in h2 x) as G
    by (intros x; apply tree_in_frame).
  intros H Heq. destruct H as [xs Hxs|np xs Hxs]; constructor; rewrite Forall_forall in Hxs |- *; intros x Hx; apply G; auto;
    intros k Hk; apply Heq.
  - by apply (elem_of_concat_map nl x).
  - by apply (elem_of_concat_map (fun x => nl x.2) x).
Qed.

(** The owned containers of a tree exist and are not of [h0]. *)
Lemma tree_in_owned h v t ls : tree_in h v t ls -> Forall (fun k => h0 !! k = None /\ is_Some (h !! k)) ls.
Proof.
  remember (json_size t) as n eqn:Hn. revert v t ls Hn. induction n as [n IH] using lt_wf_ind. intros v t ls -> H.
  destruct H as [v t H|l xs Hl Hc Hxs|l np xs Hl Hc Hxs]; [constructor|..].
  - constructor; [eauto|]. apply Forall_concat, Forall_forall. intros l' Hl'. apply list_elem_of_fmap in Hl' as (x & -> & Hx).
    rewrite Forall_forall in Hxs. eapply IH; [|done|by apply Hxs].
    by apply json_size_item, (list_elem_of_fmap_2 nt).
  - constructor; [eauto|]. apply Forall_concat, Forall_forall. intros l' Hl'. apply list_elem_of_fmap in Hl' as (x & -> & Hx).
    rewrite Forall_forall in Hxs. eapply IH; [|done|by apply Hxs].
    by apply (json_size_entry (x.1, nt x.2)), (list_elem_of_fmap_2 entry_t).
Qed.
End Trees.

(** ** Containers edited in place are the trees edited *)

(** The tree an operation makes of the container it edits. *)
Definition tree_edit (op : Op json) (key : Seg) (c : json) : result DeltaError json :=
  match op with
  | OpP _ index remove items =>
      match c with JsArr l => Ok (JsArr (splice_list l index remove items)) | _ => Err PathError end
  | OpM _ perm =>
      match c with
      | JsArr l => if blen l =? blen perm then Ok (JsArr (permute l perm)) else Err PathError
      | _ => Err PathError
      end
  | OpR _ => Err PathError
  | OpS _ v => member c key ≫= fun _ => Ok (define_member c key v)
  | OpD _ => member c key ≫= fun _ => remove_member c key
  | OpA _ text => member c key ≫= fun old => string_member old ≫= fun s => Ok (define_member c key (JsStr (s ++ text)))
  | OpT _ count => member c key ≫= fun old => string_member old ≫= fun s =>
      Ok (define_member c key (JsStr (drop (Z.to_nat count) s)))
  end.

Lemma tree_step_edit t op p key :
  target_of op = Some (p, key) -> tree_step t op = edit t p (tree_edit op key).
Proof. destruct op; cbn [target_of]; intros; simplify_eq; cbn; unfold edit_member; by simplify_option_eq. Qed.

(** Operations over heap values and over the trees of those values. *)
Inductive op_denotes (h : heap) : Op hval -> Op json -> Prop :=
| den_r v t : unfolds h v t -> op_denotes h (OpR v) (OpR t)
| den_s p v t : unfolds h v t -> op_denotes h (OpS p v) (OpS p t)
| den_d p : op_denotes h (OpD p) (OpD p)
| den_a p text : op_denotes h (OpA p text) (OpA p text)
| den_t p count : op_denotes h (OpT p count) (OpT p count)
| den_p p i r vs ts : Forall2 (unfolds h) vs ts -> op_denotes h (OpP p i r vs) (OpP p i r ts)
| den_m p perm : op_denotes h (OpM p perm) (OpM p perm).

Lemma op_denotes_target h op top : op_denotes h op top -> target_of op = target_of top.
Proof. by destruct 1. Qed.

(** *** The loops of a splice and of a reordering *)

#[global] Arguments chunkSize : simpl never.

Lemma insert_chunks_spec {A} fuel (pre post items : list A) index offset :
  0 <= index -> (length items < offset + fuel)%nat -> (length pre <= Z.to_nat index)%nat ->
  (length pre = Z.to_nat index \/ post = []) ->
  insert_chunks fuel (pre ++ take offset items ++ post) index offset items = pre ++ items ++ post.
Proof.
  intros Hi. revert offset. induction fuel as [|fuel IH]; intros offset Hf Hpre Hpost; cbn [insert_chunks].
  { by rewrite take_ge by lia. }
  destruct (Nat.ltb_spec offset (length items)) as [Hlt|]; [|by rewrite take_ge by lia].
  assert (0 < chunkSize)%nat by (unfold chunkSize; lia).
  rewrite <- (IH (offset + chunkSize)%nat) by (done || lia). f_equal. unfold splice_list.
  rewrite Nat.add_0_r, <- (take_take_drop items offset). set (chunk := take chunkSize _).
  replace (Z.to_nat (index + Z.of_nat offset)) with (Z.to_nat index + offset)%nat by lia.
  assert (length (take offset items) = offset) as Hlo by (rewrite length_take; lia).
  rewrite (app_assoc pre). destruct Hpost as [Hp| ->].
  - assert (Z.to_nat index + offset = length (pre ++ take offset items))%nat as -> by (rewrite length_app; lia).
    rewrite take_app_length, drop_app_length. by rewrite <- !app_assoc.
  - rewrite !app_nil_r. rewrite take_ge, drop_ge by (rewrite length_app; lia). by rewrite app_nil_r, <- app_assoc.
Qed.

Lemma splice_items_spec {A} (target : list A) index remove items :
  0 <= index -> splice_items target index remove items = splice_list target index remove items.
Proof.
  intros Hi. unfold splice_items, splice_list at 1. cbn [app].
  pose proof (insert_chunks_spec (S (length items)) (take (Z.to_nat index) target)
    (drop (Z.to_nat index + Z.to_nat remove) target) items index 0) as H. rewrite take_0 in H. cbn [app] in H.
  apply H; [done|lia|rewrite length_take; lia|].
  destruct (decide (Z.to_nat index <= length target)%nat); [left; rewrite length_take; lia|right].
  apply drop_ge. lia.
Qed.

Lemma reorder_loop {A} (target acc : list A) k ps :
  Forall (fun p => is_Some (at_ target p)) ps -> (k + length ps <= length acc)%nat ->
  let r := fold_left (fun acc p => match at_ target p.2 with Some v => <[p.1 := v]> acc | None => acc end)
    (zip (seq k (length ps)) ps) acc in
  length r = length acc /\
  forall i, r !! i = match ps !! (i - k)%nat with Some p => if decide (k <= i)%nat then at_ target p else acc !! i | None => acc !! i end.
Proof.
  intros H. revert k acc. induction H as [|p ps [v Hv] _ IH]; intros k acc Hl; cbn [length seq zip fold_left zip_with].
  { split; [done|]. intros i. by rewrite lookup_nil. }
  cbn [fst snd] in *. rewrite Hv. cbn [length] in Hl.
  destruct (IH (S k) (<[k := v]> acc)) as [Hlen Hi]; [rewrite length_insert; lia|].
  rewrite length_insert in Hlen. split; [done|]. intros i. rewrite Hi.
  destruct (decide (i = k)) as [->|Hne].
  - replace (k - S k)%nat with 0%nat by lia. rewrite Nat.sub_diag. cbn [lookup list_lookup].
    rewrite decide_True by done. rewrite list_lookup_insert_eq by lia. rewrite Hv. destruct ps; [done|].
    cbn. by rewrite decide_False by lia.
  - rewrite list_lookup_insert_ne by done. destruct (decide (k <= i)%nat).
    + replace (i - k)%nat with (S (i - S k))%nat by lia. cbn [lookup list_lookup].
      destruct (ps !! (i - S k)%nat); [|done]. by rewrite decide_True by lia.
    + replace (i - k)%nat with 0%nat by lia. replace (i - S k)%nat with 0%nat by lia. cbn [lookup list_lookup].
      destruct ps; [done|]. cbn. by rewrite decide_False by lia.
Qed.

Lemma permute_lookup {A} (l : list A) perm i :
  Forall (fun p => is_Some (at_ l p)) perm -> permute l perm !! i = perm !! i ≫= at_ l.
Proof.
  intros H. revert i. unfold permute. induction H as [|p perm [v Hv] _ IH]; intros i; [done|].
  cbn [omap list_omap]. rewrite Hv. destruct i; cbn; [done|apply IH].
Qed.

Lemma bijection_at {A} (l : list A) perm : bijection perm -> blen l = blen perm -> Forall (fun p => is_Some (at_ l p)) perm.
Proof.
  intros [_ Hr]%bijection_elim Hl. eapply Forall_impl; [exact Hr|]. cbn. intros p Hp. unfold at_.
  rewrite (proj2 (Z.ltb_ge _ _)) by lia. apply lookup_lt_is_Some. unfold blen in *. lia.
Qed.

Lemma reorder_spec {A} (l : list A) perm : bijection perm -> blen l = blen perm -> reorder l perm = permute l perm.
Proof.
  intros Hb Hl. pose proof (bijection_at l perm Hb Hl) as Hat.
  destruct (reorder_loop l l 0 perm Hat) as [Hlen Hi]; [unfold blen in Hl; lia|].
  apply list_eq. intros i. unfold reorder. rewrite Hi, permute_lookup by done. rewrite Nat.sub_0_r.
  destruct (perm !! i) as [p|] eqn:E; cbn; [done|].
  apply lookup_ge_None in E. apply lookup_ge_None. unfold blen in Hl. lia.
Qed.

(** *** Edits commute with reading the members off the nodes *)

Section Natural.
Context {A B : Type} (f : A -> B).

Lemma map_at l n : at_ (map f l) n = f <$> at_ l n.
Proof. unfold at_. case_match; [done|]. apply list_lookup_fmap. Qed.

Lemma map_arr_write l n v : map f (arr_write l n v) = arr_write (map f l) n (f v).
Proof.
  unfold arr_write. rewrite blen_map. case_match; [apply list_fmap_insert|]. by rewrite map_app.
Qed.

Lemma map_splice_list l i r items : map f (splice_list l i r items) = splice_list (map f l) i r (map f items).
Proof. unfold splice_list. rewrite !map_app. by rewrite fmap_take, fmap_drop. Qed.

Lemma map_permute l perm : map f (permute l perm) = permute (map f l) perm.
Proof.
  unfold permute. induction perm as [|p perm IH]; cbn [omap list_omap]; [done|].
  rewrite map_at. destruct (at_ l p); cbn; [by f_equal|done].
Qed.

Lemma map_delete n l : map f (delete n l) = delete n (map f l).
Proof. revert n. induction l as [|x l IH]; intros [|n]; cbn; [done..|]. f_equal. apply IH. Qed.

Notation on_value := (fun e : jstring * A => (e.1, f e.2)).

Lemma map_obj_keys es : obj_keys (map on_value es) = obj_keys es.
Proof. unfold obj_keys. induction es as [|[k v] es IH]; cbn; [done|]. f_equal. apply IH. Qed.

Lemma map_obj_get es k : obj_get (map on_value es) k = f <$> obj_get es k.
Proof. induction es as [|[k' v] es IH]; cbn; [done|]. by case_bool_decide. Qed.

Lemma map_obj_has es k : obj_has (map on_value es) k = obj_has es k.
Proof. unfold obj_has. rewrite map_obj_get. by destruct (obj_get es k). Qed.

Lemma map_obj_set es k v : map on_value (obj_set es k v) = obj_set (map on_value es) k (f v).
Proof.
  unfold obj_set. rewrite map_obj_has. case_match.
  - induction es as [|[k' v'] es IH]; cbn; [done|]. case_bool_decide; cbn; [done|]. f_equal. apply IH.
    unfold obj_has in *. cbn in *. by rewrite bool_decide_eq_false_2 in H by done.
  - clear H. induction es as [|[k' v'] es IH]; cbn; [done|]. case_bool_decide; cbn; [|done]. f_equal. apply IH.
Qed.

Lemma map_obj_delete es k : map on_value (obj_delete es k) = obj_delete (map on_value es) k.
Proof. induction es as [|[k' v'] es IH]; cbn; [done|]. case_bool_decide; cbn; [done|]. by f_equal. Qed.
End Natural.

(** *** What an edit keeps *)

Lemma NoDup_submseteq_l {A} (l k : list A) : l ⊆+ k -> NoDup k -> NoDup l.
Proof. intros [r Hr]%submseteq_Permutation. rewrite Hr. intros H. by apply NoDup_app in H as [? _]. Qed.

Lemma concat_map_submseteq {A B} (f : A -> list B) l1 l2 : l1 ⊆+ l2 -> concat (map f l1) ⊆+ concat (map f l2).
Proof.
  induction 1 as [|x l1 l2 _ IH|x y l|x l1 l2 _ IH|l1 l2 l3 _ IH1 _ IH2]; cbn; [done|by apply submseteq_skips_l| | |by etrans].
  - rewrite !app_assoc. apply submseteq_skips_r. by rewrite Permutation_app_comm.
  - etrans; [exact IH|]. by apply submseteq_inserts_l.
Qed.

Lemma insert_submseteq {A} (l : list A) n x : <[n := x]> l ⊆+ x :: l.
Proof.
  revert n. induction l as [|y l IH]; intros [|n]; cbn; [by apply submseteq_nil_l..| |].
  - apply submseteq_skip. by apply submseteq_cons.
  - etrans; [apply submseteq_skip, IH|]. apply submseteq_swap.
Qed.

Lemma arr_write_submseteq {A} (l : list A) n x : arr_write l n x ⊆+ x :: l.
Proof. unfold arr_write. case_match; [apply insert_submseteq|]. by rewrite Permutation_app_comm. Qed.

Lemma obj_set_submseteq {A} (es : list (jstring * A)) k v : obj_set es k v ⊆+ (k, v) :: es.
Proof.
  unfold obj_set. case_match; clear H.
  - induction es as [|[k' v'] es IH]; cbn; [by apply submseteq_nil_l|]. case_bool_decide; subst.
    + apply submseteq_skip. by apply submseteq_cons.
    + etrans; [apply submseteq_skip, IH|]. apply submseteq_swap.
  - induction es as [|[k' v'] es IH]; cbn; [done|]. case_bool_decide; [|done].
    etrans; [apply submseteq_skip, IH|]. apply submseteq_swap.
Qed.

Lemma obj_delete_submseteq {A} (es : list (jstring * A)) k : obj_delete es k ⊆+ es.
Proof.
  induction es as [|[k' v'] es IH]; cbn; [done|]. case_bool_decide; [by apply submseteq_cons|by apply submseteq_skip].
Qed.

Lemma splice_submseteq {A} (l : list A) i r items : 0 <= i -> splice_list l i r items ⊆+ items ++ l.
Proof.
  intros Hi. unfold splice_list. rewrite Permutation_app_swap_app. apply submseteq_skips_l.
  rewrite <- (take_drop (Z.to_nat i) l) at 3. apply submseteq_skips_l. rewrite <- drop_drop. apply sublist_submseteq, sublist_drop.
Qed.

Lemma delete_submseteq {A} (l : list A) n : delete n l ⊆+ l.
Proof. apply sublist_submseteq, sublist_delete. Qed.

Lemma permute_submseteq {A} (l : list A) perm : bijection perm -> blen l = blen perm -> permute l perm ≡ₚ l.
Proof.
  intros Hb Hl. unfold bijection in Hb. unfold permute. rewrite Hb, <- Hl. clear.
  assert (omap (at_ l) (seqZ 0 (blen l)) = l) as ->; [|done].
  unfold blen. induction l as [|x l IH] using rev_ind; [done|].
  rewrite length_app. cbn [length]. rewrite Nat2Z.inj_add, seqZ_app by lia. rewrite omap_app.
  assert (seqZ (0 + Z.of_nat (length l)) (Z.of_nat 1) = [blen l]) as -> by (unfold seqZ, blen; cbn; f_equal; lia).
  cbn [omap list_omap]. rewrite at_app_r by done. cbn [head]. f_equal. etrans; [|exact IH]. apply list_omap_ext.
  apply Forall_Forall2_diag, Forall_forall. intros i Hi%elem_of_seqZ. unfold at_. case_match; [done|].
  rewrite lookup_app_l by lia. done.
Qed.

Section Edit.
Context (h0 h : heap).

(** Both fail, or both succeed with related results. *)
Definition agree {A B} (R : A -> B -> Prop) (x : result DeltaError A) (y : result DeltaError B) : Prop :=
  match x, y with Ok a, Ok b => R a b | Err _, Err _ => True | _, _ => False end.

Lemma agree_bind {A B A' B'} (R : A -> B -> Prop) (R' : A' -> B' -> Prop) x y (f : A -> result DeltaError A') g :
  agree R x y -> (forall a b, R a b -> agree R' (f a) (g b)) -> agree R' (x ≫= f) (y ≫= g).
Proof. destruct x, y; cbn; try done. auto. Qed.

(** An edited cell, whose owned containers were there before or come with [extra]. *)
Definition edited (extra : list positive) (ls : list positive) (c : hcell) (t : json) : Prop :=
  exists ls', cell_in h0 h c t ls' /\ ls' ⊆+ extra ++ ls.

Lemma member_in c t ls key :
  cell_in h0 h c t ls ->
  agree (fun _ o => option_Forall2 (fun v t => exists ls, tree_in h0 h v t ls) (own_member c key) o) (check_key c key) (member t key).
Proof.
  assert (forall (xs : list (jstring * node)) k, Forall (fun x => node_in h0 h x.2) xs ->
    option_Forall2 (fun v t => exists ls, tree_in h0 h v t ls) (obj_get (map entry_v xs) k) (obj_get (map entry_t xs) k)) as G.
  { intros xs k Hxs. rewrite (map_obj_get nv), (map_obj_get nt). destruct (obj_get xs k) as [x|] eqn:E; constructor.
    apply obj_get_elem in E. rewrite Forall_forall in Hxs. exists (nl x). by apply (Hxs (k, x)). }
  destruct 1 as [xs Hxs|np xs Hxs], key as [k|n]; cbn; try done.
  - rewrite !blen_map. case_match; cbn; [done|]. rewrite !map_at. destruct (at_ xs n) as [x|] eqn:E; constructor.
    exists (nl x). by eapply (Forall_at (node_in h0 h)).
  - by apply G.
  - by apply G.
Qed.

Lemma string_in v t ls : tree_in h0 h v t ls -> string_value (Some v) = string_member (Some t).
Proof. by destruct 1 as [? ? []| |]. Qed.

Lemma string_member_in v o :
  option_Forall2 (fun v t => exists ls, tree_in h0 h v t ls) v o -> agree eq (string_value v) (string_member o).
Proof.
  destruct 1 as [v t [ls H]|]; [|done]. rewrite (string_in _ _ _ H). by destruct (string_member (Some t)).
Qed.

Lemma write_in c t ls key x :
  node_in h0 h x -> cell_in h0 h c t ls -> is_ok (check_key c key) = true ->
  edited (nl x) ls (cell_write c key (nv x)) (define_member t key (nt x)).
Proof.
  assert (forall np (xs : list (jstring * node)) k, node_in h0 h x -> Forall (fun x => node_in h0 h x.2) xs ->
    edited (nl x) (concat (map (fun x => nl x.2) xs)) (HObj np (obj_set (map entry_v xs) k (nv x)))
      (JsObj np (obj_set (map entry_t xs) k (nt x)))) as G.
  { intros np xs k Hx Hxs. exists (concat (map (fun x => nl x.2) (obj_set xs k x))). split.
    - rewrite <- (map_obj_set nv), <- (map_obj_set nt). constructor. by apply obj_set_Forall.
    - apply (concat_map_submseteq (fun x => nl x.2) _ ((k, x) :: xs)), obj_set_submseteq. }
  intros Hx Hc. destruct Hc as [xs Hxs|np xs Hxs], key as [k|n]; cbn; intros Hk; try done; [|by apply G..].
  exists (concat (map nl (arr_write xs n x))). split.
  - rewrite <- !map_arr_write. constructor. unfold arr_write. destruct (n <? blen xs); [by apply Forall_insert|].
    apply Forall_app. split; [done|by constructor].
  - apply (concat_map_submseteq nl _ (x :: xs)), arr_write_submseteq.
Qed.

Lemma delete_in c t ls key :
  cell_in h0 h c t ls -> agree (edited [] ls) (cell_delete c key) (remove_member t key).
Proof.
  assert (forall np (xs : list (jstring * node)) k, Forall (fun x => node_in h0 h x.2) xs ->
    edited [] (concat (map (fun x => nl x.2) xs)) (HObj np (obj_delete (map entry_v xs) k))
      (JsObj np (obj_delete (map entry_t xs) k))) as G.
  { intros np xs k Hxs. exists (concat (map (fun x => nl x.2) (obj_delete xs k))). split.
    - rewrite <- (map_obj_delete nv), <- (map_obj_delete nt). constructor. by apply obj_delete_Forall.
    - cbn [app]. apply concat_map_submseteq, obj_delete_submseteq. }
  destruct 1 as [xs Hxs|np xs Hxs], key as [k|n]; cbn; try done; [|by apply G..].
  rewrite !blen_map. case_match; cbn; [|done]. exists (concat (map nl (delete (Z.to_nat n) xs))). split.
  - rewrite <- !map_delete. constructor. by apply Forall_delete.
  - cbn [app]. apply concat_map_submseteq, delete_submseteq.
Qed.

(** A value of [h0] as a node. *)
Lemma old_node v t : unfolds h0 v t -> node_in h0 h (mkNode v t []).
Proof. intros H. by apply in_old. Qed.

(** An operation that writes a member computed from the old one. *)
Lemma edit_member_in c t ls key (f : option hval -> result DeltaError hval) (g : option json -> result DeltaError json) :
  cell_in h0 h c t ls ->
  (forall v o, option_Forall2 (fun v t => exists ls, tree_in h0 h v t ls) v o -> agree (unfolds h0) (f v) (g o)) ->
  agree (edited [] ls) (check_key c key ≫= fun _ => f (own_member c key) ≫= fun v => Ok (cell_write c key v))
    (member t key ≫= fun o => g o ≫= fun v => Ok (define_member t key v)).
Proof.
  intros Hc Hfg. pose proof (member_in c t ls key Hc) as Hm.
  destruct (check_key c key) as [[]|e] eqn:Ek, (member t key) as [o|e'] eqn:Em; try done. cbn in Hm |- *.
  apply Hfg in Hm. destruct (f _) as [v|], (g o) as [tv|]; try done. cbn in Hm |- *.
  apply (write_in c t ls key (mkNode v tv [])); [by apply old_node|done|by rewrite Ek].
Qed.

Lemma edit_string_in c t ls key (f : jstring -> jstring) :
  cell_in h0 h c t ls ->
  agree (edited [] ls)
    (check_key c key ≫= fun _ => string_value (own_member c key) ≫= fun s => Ok (cell_write c key (HStr (f s))))
    (member t key ≫= fun o => string_member o ≫= fun s => Ok (define_member t key (JsStr (f s)))).
Proof.
  intros Hc. pose proof (edit_member_in c t ls key (fun v => string_value v ≫= fun s => Ok (HStr (f s)))
      (fun o => string_member o ≫= fun s => Ok (JsStr (f s))) Hc) as H.
  replace (string_value (own_member c key) ≫= fun s => Ok (cell_write c key (HStr (f s)))) with
    ((string_value (own_member c key) ≫= fun s => Ok (HStr (f s))) ≫= fun v => Ok (cell_write c key v))
    by (by destruct (string_value _)).
  destruct (member t key) as [o|e] eqn:Em; cbn [mbind result_bind].
  - cbn [mbind result_bind] in H. replace (string_member o ≫= fun s => Ok (define_member t key (JsStr (f s)))) with
      ((string_member o ≫= fun s => Ok (JsStr (f s))) ≫= fun v => Ok (define_member t key v)) by (by destruct (string_member o)).
    apply H. intros v o' Hv. eapply agree_bind; [by apply string_member_in|]. intros s ? <-. constructor.
  - apply H. intros v o' Hv. eapply agree_bind; [by apply string_member_in|]. intros s ? <-. constructor.
Qed.

Lemma old_nodes vs ts :
  Forall2 (unfolds h0) vs ts ->
  exists ys, map nv ys = vs /\ map nt ys = ts /\ concat (map nl ys) = [] /\ Forall (node_in h0 h) ys.
Proof.
  induction 1 as [|v t vs ts Hv _ (ys & <- & <- & Hc & Hys)]; [by exists []|].
  exists (mkNode v t [] :: ys). cbn. split_and!; [done|done|done|]. constructor; [by apply old_node|done].
Qed.

Lemma edit_cell_in op top key c t ls :
  op_denotes h0 op top -> op_ok op -> cell_in h0 h c t ls ->
  agree (edited [] ls) (edit_cell op key c) (tree_edit top key t).
Proof.
  intros Hop Hok Hc. destruct Hop as [v t' Hv|p v t' Hv|p|p text|p count|p i r vs ts Hvs|p perm]; cbn [edit_cell tree_edit].
  - done.
  - by apply (edit_member_in c t ls key (fun _ => Ok v) (fun _ => Ok t')).
  - eapply agree_bind; [by apply (member_in c t ls)|]. intros _ _ _. by apply delete_in.
  - by apply (edit_string_in c t ls key (fun s => s ++ text)).
  - by apply (edit_string_in c t ls key (fun s => drop (Z.to_nat count) s)).
  - destruct Hc as [xs Hxs|np xs Hxs]; [|done]. cbn [agree]. destruct Hok as (_ & Hi & _). rewrite splice_items_spec by done.
    destruct (old_nodes vs ts Hvs) as (ys & <- & <- & Hnil & Hys). rewrite <- !map_splice_list.
    exists (concat (map nl (splice_list xs i r ys))). split; [constructor; by apply splice_list_Forall|].
    cbn [app]. etrans; [by apply concat_map_submseteq, splice_submseteq|]. by rewrite map_app, concat_app, Hnil.
  - destruct Hc as [xs Hxs|np xs Hxs]; [|done]. destruct Hok as (_ & Hb). rewrite !blen_map.
    destruct (Z.eqb_spec (blen xs) (blen perm)) as [Hl|]; [|done]. cbn [agree].
    rewrite reorder_spec by (by rewrite ?blen_map). rewrite <- !map_permute.
    exists (concat (map nl (permute xs perm))). split; [constructor; by apply permute_Forall|].
    cbn [app]. by apply concat_map_submseteq, Permutation_submseteq, permute_submseteq.
Qed.
End Edit.

(** ** An owned container inside its document *)

Lemma arr_middle {A} (l : list A) n x :
  at_ l n = Some x -> exists l1 l2, l = l1 ++ x :: l2 /\ forall y, arr_write l n y = l1 ++ y :: l2.
Proof.
  intros H. pose proof (at_Some _ _ _ H) as Hn. unfold at_ in H. rewrite (proj2 (Z.ltb_ge _ _)) in H by lia.
  exists (take (Z.to_nat n) l), (drop (S (Z.to_nat n)) l). split; [symmetry; by apply take_drop_middle|].
  intros y. rewrite arr_write_in by done. apply insert_take_drop. unfold blen in Hn. lia.
Qed.

Lemma obj_middle {A} (es : list (jstring * A)) k x :
  obj_get es k = Some x -> exists l1 l2, es = l1 ++ (k, x) :: l2 /\ forall y, obj_set es k y = l1 ++ (k, y) :: l2.
Proof.
  intros H. assert (exists l1 l2, es = l1 ++ (k, x) :: l2 /\ forall y, obj_update es k y = l1 ++ (k, y) :: l2) as (l1 & l2 & E & Hu).
  { clear - H. induction es as [|[k' v'] es IH]; cbn in *; [done|]. case_bool_decide as Hk.
    - injection H as ->. subst. exists [], es. split; [done|]. intros y. done.
    - destruct (IH H) as (l1 & l2 & -> & Hu). exists ((k', v') :: l1), l2. split; [done|]. intros y. by rewrite Hu. }
  exists l1, l2. split; [done|]. intros y. unfold obj_set. by rewrite (obj_get_has _ _ _ H).
Qed.

Lemma cell_write_same c s v : cell_child c s = Ok v -> cell_write c s v = c.
Proof.
  assert (forall np es k, obj_get es k = Some v -> HObj np (obj_set es k v) = HObj np es) as G.
  { intros np es k E. unfold obj_set. rewrite (obj_get_has _ _ _ E). by rewrite obj_update_same. }
  destruct c as [items|np es], s as [k|n]; cbn; try done.
  - destruct (at_ items n) eqn:E; [|done]. intros [= ->]. destruct (arr_middle _ _ _ E) as (l1 & l2 & El & Hw).
    by rewrite Hw, <- El.
  - destruct (obj_get es k) eqn:E; [|done]. intros [= ->]. by apply G.
  - destruct (obj_get es (decimal n)) eqn:E; [|done]. intros [= ->]. by apply G.
Qed.

Lemma cell_child_write c s v w : cell_child c s = Ok v -> cell_child (cell_write c s w) s = Ok w.
Proof.
  destruct c as [items|np es], s as [k|n]; cbn; try done.
  - destruct (at_ items n) eqn:E; [|done]. pose proof (at_Some _ _ _ E). intros _.
    rewrite arr_write_in, at_insert by done. by rewrite decide_True.
  - intros _. by rewrite obj_get_set, decide_True.
  - intros _. by rewrite obj_get_set, decide_True.
Qed.

Definition same_outside (ls : list positive) (h h2 : heap) : Prop :=
  forall k, k ∉ ls -> is_Some (h !! k) -> h2 !! k = h !! k.

Section Focus.
Context (h0 : heap).

Lemma cell_in_owned h c t ls : cell_in h0 h c t ls -> Forall (fun k => h0 !! k = None /\ is_Some (h !! k)) ls.
Proof.
  destruct 1 as [xs Hxs|np xs Hxs]; apply Forall_concat, Forall_forall; intros l' Hl';
    apply list_elem_of_fmap in Hl' as (x & -> & Hx); rewrite Forall_forall in Hxs; eapply tree_in_owned; by apply Hxs.
Qed.

(** A member of a cell, and the cell with that member replaced. *)
Lemma cell_member h c t ls s v :
  cell_in h0 h c t ls -> cell_child c s = Ok v ->
  exists x A B, nv x = v /\ node_in h0 h x /\ child t s = Ok (nt x) /\ ls = A ++ nl x ++ B /\
    forall h2 x', (forall k, k ∈ A ++ B -> h2 !! k = h !! k) -> node_in h0 h2 x' ->
      cell_in h0 h2 (cell_write c s (nv x')) (define_member t s (nt x')) (A ++ nl x' ++ B).
Proof.
  assert (forall np (xs : list (jstring * node)) k, Forall (fun x => node_in h0 h x.2) xs ->
    obj_get (map entry_v xs) k = Some v ->
    exists x A B, nv x = v /\ node_in h0 h x /\ obj_get (map entry_t xs) k = Some (nt x) /\
      concat (map (fun x => nl x.2) xs) = A ++ nl x ++ B /\
      forall h2 x', (forall k, k ∈ A ++ B -> h2 !! k = h !! k) -> node_in h0 h2 x' ->
        cell_in h0 h2 (HObj np (obj_set (map entry_v xs) k (nv x'))) (JsObj np (obj_set (map entry_t xs) k (nt x'))) (A ++ nl x' ++ B)) as G.
  { intros np xs k Hxs. rewrite (map_obj_get nv), (map_obj_get nt). destruct (obj_get xs k) as [x|] eqn:E; [|done]. intros [= <-].
    destruct (obj_middle _ _ _ E) as (l1 & l2 & El & Hset). subst xs. apply Forall_app in Hxs as [H1 H2].
    apply Forall_cons in H2 as [Hx H2].
    exists x, (concat (map (fun x => nl x.2) l1)), (concat (map (fun x => nl x.2) l2)).
    split_and!; [done|done|done|by rewrite map_app, concat_app|]. intros h2 x' Heq Hx'.
    rewrite <- (map_obj_set nv), <- (map_obj_set nt), Hset.
    replace (_ ++ nl x' ++ _) with (concat (map (fun x => nl x.2) (l1 ++ (k, x') :: l2))) by (by rewrite map_app, concat_app).
    constructor. apply Forall_app. split; [|constructor; [done|]].
    - rewrite Forall_forall in H1 |- *. intros y Hy. eapply tree_in_frame; [by apply H1|]. intros k' Hk'.
      apply Heq, elem_of_app. left. by apply (elem_of_concat_map (fun x => nl x.2) y).
    - rewrite Forall_forall in H2 |- *. intros y Hy. eapply tree_in_frame; [by apply H2|]. intros k' Hk'.
      apply Heq, elem_of_app. right. by apply (elem_of_concat_map (fun x => nl x.2) y). }
  destruct 1 as [xs Hxs|np xs Hxs], s as [k|n]; cbn; try done.
  - rewrite !map_at. destruct (at_ xs n) as [x|] eqn:E; [|done]. intros [= <-].
    destruct (arr_middle _ _ _ E) as (l1 & l2 & El & Hset). subst xs. apply Forall_app in Hxs as [H1 H2].
    apply Forall_cons in H2 as [Hx H2].
    exists x, (concat (map nl l1)), (concat (map nl l2)).
    split_and!; [done|done|done|by rewrite map_app, concat_app|]. intros h2 x' Heq Hx'.
    rewrite <- !map_arr_write, Hset.
    replace (_ ++ nl x' ++ _) with (concat (map nl (l1 ++ x' :: l2))) by (by rewrite map_app, concat_app).
    constructor. apply Forall_app. split; [|constructor; [done|]].
    + rewrite Forall_forall in H1 |- *. intros y Hy. eapply tree_in_frame; [by apply H1|]. intros k' Hk'.
      apply Heq, elem_of_app. left. by apply (elem_of_concat_map nl y).
    + rewrite Forall_forall in H2 |- *. intros y Hy. eapply tree_in_frame; [by apply H2|]. intros k' Hk'.
      apply Heq, elem_of_app. right. by apply (elem_of_concat_map nl y).
  - destruct (obj_get (map entry_v xs) k) eqn:E; [|done]. intros [= ->].
    destruct (G np xs k Hxs E) as (x & A & B & ? & ? & Ht & ? & ?). exists x, A, B. by rewrite Ht.
  - destruct (obj_get (map entry_v xs) (decimal n)) eqn:E; [|done]. intros [= ->].
    destruct (G np xs _ Hxs E) as (x & A & B & ? & ? & Ht & ? & ?). exists x, A, B. by rewrite Ht.
Qed.

(** The owned container [l], at the path [P] of the document [t] of [root]: it is
    the tree [tc] with the owned containers [ls] below it and [ctx] elsewhere in
    the document, and any tree put in its place gives the document with that
    tree put at [P]. *)
Record focus (h : heap) (root : hval) (t : json) (P : Path) (l : positive) (tc : json) (ls ctx : list positive) : Prop := {
  fo_new : h0 !! l = None;
  fo_tree : tree_in h0 h (HRef l) tc (l :: ls);
  fo_walk : walk t P = Ok tc;
  fo_nodup : NoDup (ctx ++ l :: ls);
  fo_plug h2 tc2 ls2 :
    same_outside (l :: ls) h h2 -> tree_in h0 h2 (HRef l) tc2 ls2 ->
    (exists ls', tree_in h0 h2 root (put_at t P tc2) ls' /\ ls' ≡ₚ ctx ++ ls2) /\
    resolveValue h2 root P = Ok (HRef l) }.

Lemma focus_root h l t ls :
  h0 !! l = None -> tree_in h0 h (HRef l) t (l :: ls) -> NoDup (l :: ls) -> focus h (HRef l) t [] l t ls [].
Proof. intros Hl Ht Hnd. split; [done..|]. intros h2 tc2 ls2 _ H2. split; [by exists ls2|done]. Qed.

Lemma focus_owned h root t P l tc ls ctx :
  focus h root t P l tc ls ctx -> Forall (fun k => h0 !! k = None /\ is_Some (h !! k)) (ctx ++ l :: ls).
Proof.
  intros Hf. destruct (fo_plug _ _ _ _ _ _ _ _ Hf h tc (l :: ls)) as [(ls' & Ht & Hls) _]; [done|apply Hf|].
  rewrite <- Hls. by eapply tree_in_owned.
Qed.

Lemma focus_update h h1 root t P l tc tc1 ls ls1 ctx :
  focus h root t P l tc ls ctx -> same_outside (l :: ls) h h1 ->
  tree_in h0 h1 (HRef l) tc1 (l :: ls1) -> NoDup (ctx ++ l :: ls1) -> (forall k, k ∈ ls1 -> k ∈ ls \/ h !! k = None) ->
  focus h1 root (put_at t P tc1) P l tc1 ls1 ctx.
Proof.
  intros [Hnew Htree Hwalk Hnd Hplug] Hsame H1 Hnd1 Hls1. split; [done|done|by eapply walk_put|done|].
  intros h2 tc2 ls2 Hsame2 H2. erewrite put_put by done. apply Hplug; [|done].
  intros k Hk Hsome. rewrite <- Hsame by done. apply Hsame2; [|by rewrite Hsame].
  intros [->|Hin]%elem_of_cons; [set_solver|]. destruct (Hls1 k Hin) as [|Hno]; [set_solver|].
  rewrite Hno in Hsome. by destruct Hsome.
Qed.

Lemma focus_child h root t P l c tc ls ctx s l1 :
  focus h root t P l tc ls ctx -> h !! l = Some c -> cell_child c s = Ok (HRef l1) -> h0 !! l1 = None ->
  exists t1 ls1 ctx1, child tc s = Ok t1 /\ focus h root t (P ++ [s]) l1 t1 ls1 ctx1.
Proof.
  intros [Hnew Htree Hwalk Hnd Hplug] Hc Hs Hl1.
  apply tree_in_cell in Htree as (c' & ls' & [= <-] & Hc' & Hcell); [|done]. rewrite Hc in Hc'. injection Hc' as <-.
  destruct (cell_member _ _ _ _ _ _ Hcell Hs) as (x & A & B & Hv & Hx & Hchild & -> & Hput).
  unfold node_in in Hx. rewrite Hv in Hx.
  pose proof (tree_in_cell _ _ _ _ _ Hl1 Hx) as (c1 & ls1 & Hnl & Hc1 & Hcell1).
  pose proof (cell_in_owned _ _ _ _ Hcell) as Hown. rewrite Hnl in *.
  assert (l1 :: ls1 ## A ++ B /\ l ∉ l1 :: ls1 /\ NoDup (l1 :: ls1)) as (Hdisj & Hl & Hnd1).
  { rewrite (Permutation_app_swap_app A) in Hnd. apply NoDup_app in Hnd as (_ & _ & Hnd).
    apply NoDup_cons in Hnd as [Hl Hnd]. apply NoDup_app in Hnd as (Hn1 & Hd & _).
    split_and!; [|set_solver|done]. intros k Hk Hk'. by apply (Hd k). }
  exists (nt x), ls1, (ctx ++ l :: A ++ B). split; [done|].
  assert (forall ls2, ctx ++ l :: A ++ ls2 ++ B ≡ₚ (ctx ++ l :: A ++ B) ++ ls2) as Hperm.
  { intros ls2. rewrite <- app_assoc. apply Permutation_app_head. cbn. apply Permutation_skip.
    rewrite <- app_assoc. apply Permutation_app_head, Permutation_app_comm. }
  split; [done|done|by rewrite (walk_snoc _ _ _ _ Hwalk)|by rewrite <- Hperm|].
  intros h2 tc2 ls2 Hsame H2.
  assert (h2 !! l = Some c) as Hc2 by (rewrite Hsame; [done|done|by rewrite Hc]).
  assert (cell_in h0 h2 c (define_member tc s tc2) (A ++ ls2 ++ B)) as Hcell2.
  { rewrite <- (cell_write_same c s (HRef l1)) by done.
    apply (Hput h2 (mkNode (HRef l1) tc2 ls2)); [|done]. intros k Hk. apply Hsame.
    - intros Hk'. by apply (Hdisj k).
    - rewrite Forall_forall in Hown. apply Hown. set_solver. }
  destruct (Hplug h2 (define_member tc s tc2) (l :: A ++ ls2 ++ B)) as [(ls' & Ht' & Hls') Hres].
  - intros k Hk. apply Hsame. set_solver.
  - by eapply cell_tree_in.
  - split.
    + exists ls'. erewrite put_snoc by done. split; [done|]. by rewrite Hls', Hperm.
    + unfold resolveValue in *. rewrite foldM_app, Hres. cbn. unfold resolve_step. cbn. rewrite Hc2. cbn. by rewrite Hs.
Qed.
End Focus.

(** ** Copying on write keeps the document and frees its path *)

Section Immutable.
Context (h0 : heap).

(** The containers of the heap before are untouched; the others are owned. *)
Definition state_ok (st : dstate) : Prop :=
  h0 ⊆ hp st /\ forall k, k ∈ owned st <-> is_Some (hp st !! k) /\ h0 !! k = None.

Lemma state_ok_store st l c :
  state_ok st -> h0 !! l = None -> is_Some (hp st !! l) -> state_ok (mkState (<[l := c]> (hp st)) (owned st)).
Proof.
  intros [Hsub Hown] Hl Hs. split; cbn.
  - by apply insert_subseteq_r.
  - intros k. rewrite Hown. destruct (decide (k = l)) as [->|]; [by rewrite lookup_insert_eq|by rewrite lookup_insert_ne].
Qed.

Lemma state_ok_alloc st c :
  state_ok st -> let l := fresh (dom (hp st)) in
  hp st !! l = None /\ h0 !! l = None /\ state_ok (mkState (<[l := c]> (hp st)) ({[l]} ∪ owned st)).
Proof.
  intros [Hsub Hown]. set (l := fresh _). assert (hp st !! l = None) as Hl by apply not_elem_of_dom, is_fresh.
  assert (h0 !! l = None) as Hl0 by (by eapply lookup_weaken_None). split_and!; [done|done|]. split; cbn.
  - by apply insert_subseteq_r.
  - intros k. rewrite elem_of_union, elem_of_singleton, Hown.
    destruct (decide (k = l)) as [->|]; [rewrite lookup_insert_eq|rewrite lookup_insert_ne by done]; naive_solver.
Qed.

Definition container (t : json) : bool := match t with JsArr _ | JsObj _ _ => true | _ => false end.

(** An edit that needs a container. *)
Definition strict (f : json -> result DeltaError json) : Prop := forall t, container t = false -> is_ok (f t) = false.

Lemma not_ok_bind {E A B} (r : result E A) (f : A -> result E B) : is_ok r = false -> is_ok (r ≫= f) = false.
Proof. by destruct r. Qed.

Lemma walk_prim t P f : strict f -> container t = false -> is_ok (walk t P ≫= f) = false.
Proof.
  intros Hf Ht. destruct P as [|s P]; [by apply Hf|]. unfold walk. cbn [foldM].
  destruct t; try done; by destruct s.
Qed.

Lemma walk_app_ok t P Q c : walk t P = Ok c -> walk t (P ++ Q) = walk c Q.
Proof. unfold walk. intros H. rewrite foldM_app, H. done. Qed.

Lemma cell_of_tree h v t ls :
  h0 ⊆ h -> tree_in h0 h v t ls ->
  if container t then exists l c, cell_of h v = Ok (l, c) /\ v = HRef l else is_ok (cell_of h v) = false.
Proof.
  intros Hsub. destruct 1 as [v t Hv|l xs _ Hc _|l np xs _ Hc _]; cbn; [|by rewrite Hc; eauto..].
  destruct Hv as [| | | |l xs Hc _|l np xs Hc _]; cbn; try done;
    (erewrite lookup_weaken by done); eauto.
Qed.

Lemma has_own_child h c t ls s :
  cell_in h0 h c t ls -> has_own c s = false -> is_ok (child t s) = false.
Proof.
  destruct 1 as [xs _|np xs _], s as [k|n]; cbn; try done.
  - rewrite blen_map, map_at. intros H. destruct (at_ xs n) eqn:E; [|done]. apply at_Some in E. cbn. lia.
  - rewrite (map_obj_has nv), (map_obj_get nt). unfold obj_has. by destruct (obj_get xs k).
  - rewrite (map_obj_has nv), (map_obj_get nt). unfold obj_has. by destruct (obj_get xs (decimal n)).
Qed.

Lemma cell_child_child h c t ls s :
  cell_in h0 h c t ls -> is_ok (cell_child c s) = is_ok (child t s).
Proof.
  destruct 1 as [xs _|np xs _], s as [k|n]; cbn; try done.
  - rewrite !map_at. by destruct (at_ xs n).
  - rewrite (map_obj_get nv), (map_obj_get nt). by destruct (obj_get xs k).
  - rewrite (map_obj_get nv), (map_obj_get nt). by destruct (obj_get xs (decimal n)).
Qed.

(** A shared container is shared all the way down. *)
Lemma old_tree h l t ls : is_Some (h0 !! l) -> tree_in h0 h (HRef l) t ls -> ls = [] /\ unfolds h0 (HRef l) t.
Proof. intros [c Hc]. inversion 1; subst; [done|congruence..]. Qed.

(** The copy of a shared container. *)
Lemma copied_tree h l l1 t c :
  unfolds h0 (HRef l) t -> h0 !! l = Some c -> h0 !! l1 = None -> h !! l1 = Some c -> tree_in h0 h (HRef l1) t [l1].
Proof.
  intros Hu Hc Hl1 Hc1. apply (cell_tree_in h0 h l1 c t []); [done|done|].
  inversion Hu as [| | | |l' xs Hc' Hxs|l' np xs Hc' Hxs]; subst; rewrite Hc in Hc'; injection Hc' as ->.
  - pose proof (cell_arr h0 h (map (fun x => mkNode x.1 x.2 []) xs)) as H. rewrite !map_map in H. cbn in H.
    replace (concat _) with (@nil positive) in H by (clear; by induction xs).
    apply H. rewrite Forall_map. eapply Forall_impl; [exact Hxs|]. intros x Hx. by apply in_old.
  - pose proof (cell_obj h0 h np (map (fun x => (x.1, mkNode x.2.1 x.2.2 [])) xs)) as H. rewrite !map_map in H. cbn in H.
    replace (concat _) with (@nil positive) in H by (clear; by induction xs).
    apply H. rewrite Forall_map. eapply Forall_impl; [exact Hxs|]. intros x Hx. by apply in_old.
Qed.

(** *** Running the monad *)

Lemma bind_read {A B} (f : heap -> result DeltaError A) (g : A -> hm B) st :
  (read f ≫= g) st = match f (hp st) with Ok a => g a st | Err e => (st, Err e) end.
Proof. unfold mbind, hm_bind, read. by destruct (f (hp st)). Qed.

Lemma bind_lift {A B} (r : result DeltaError A) (g : A -> hm B) st :
  (lift r ≫= g) st = match r with Ok a => g a st | Err e => (st, Err e) end.
Proof. unfold mbind, hm_bind, lift. by destruct r. Qed.

Lemma bind_is_owned {B} l (g : bool -> hm B) st : (is_owned l ≫= g) st = g (bool_decide (l ∈ owned st)) st.
Proof. done. Qed.

Lemma bind_alloc {B} c (g : positive -> hm B) st :
  (alloc_owned c ≫= g) st =
  g (fresh (dom (hp st))) (mkState (<[fresh (dom (hp st)) := c]> (hp st)) ({[fresh (dom (hp st))]} ∪ owned st)).
Proof. done. Qed.

Lemma bind_store {B} l c (g : unit -> hm B) st :
  (store l c ≫= g) st = g tt (mkState (<[l := c]> (hp st)) (owned st)).
Proof. done. Qed.

(** The member [s] of an owned container, shared so far, is replaced by a copy. *)
Lemma copy_member st root t P l tc ls ctx s c q cq :
  state_ok st -> focus h0 (hp st) root t P l tc ls ctx ->
  hp st !! l = Some c -> cell_child c s = Ok (HRef q) -> h0 !! q = Some cq ->
  let l1 := fresh (dom (hp st)) in
  let st1 := mkState (<[l := cell_write c s (HRef l1)]> (<[l1 := cq]> (hp st))) ({[l1]} ∪ owned st) in
  state_ok st1 /\ exists t1 ls1 ctx1, focus h0 (hp st1) root t (P ++ [s]) l1 t1 ls1 ctx1.
Proof.
  intros Hst Hf Hc Ev Hq0 l1. cbn zeta.
  pose proof (fo_tree _ _ _ _ _ _ _ _ _ Hf) as Htree. pose proof (fo_new _ _ _ _ _ _ _ _ _ Hf) as Hl.
  pose proof (tree_in_cell _ _ _ _ _ Hl Htree) as (c' & ls' & [= <-] & Hc' & Hcell).
  rewrite Hc in Hc'. injection Hc' as <-.
  destruct (cell_member _ _ _ _ _ _ _ Hcell Ev) as (x & A & B & Hxv & Hx & Hchild & -> & Hput).
  unfold node_in in Hx. rewrite Hxv in Hx.
  destruct (old_tree _ _ _ _ (mk_is_Some _ _ Hq0) Hx) as [Hnil Hold]. rewrite Hnil in *. cbn [app] in *.
  pose proof (state_ok_alloc st cq Hst) as (Hn & Hn0 & Hst1). fold l1 in Hn, Hn0, Hst1.
  assert (l <> l1) as Hne by (intros ->; congruence).
  set (h1 := <[l1 := cq]> (hp st)) in *. set (c1 := cell_write c s (HRef l1)).
  assert (is_Some (h1 !! l)) as Hsl by (unfold h1; rewrite lookup_insert_ne by done; eauto).
  pose proof (state_ok_store (mkState h1 ({[l1]} ∪ owned st)) l c1 Hst1 Hl Hsl) as Hst2. cbn [hp owned] in Hst2.
  split; [exact Hst2|]. cbn [hp]. set (h2 := <[l := c1]> h1) in *.
  pose proof (fo_nodup _ _ _ _ _ _ _ _ _ Hf) as Hnd. pose proof (focus_owned _ _ _ _ _ _ _ _ _ Hf) as Hown.
  rewrite Forall_forall in Hown.
  assert (l1 ∉ ctx ++ l :: A ++ B) as HlA.
  { intros Hin. apply Hown in Hin as [_ Hin]. rewrite Hn in Hin. by destruct Hin. }
  assert (same_outside (l :: A ++ B) (hp st) h2) as Hsame.
  { intros k Hk Hs. unfold h2, h1. rewrite lookup_insert_ne by set_solver. rewrite lookup_insert_ne; [done|].
    intros ->. rewrite Hn in Hs. by destruct Hs. }
  assert (tree_in h0 h2 (HRef l1) (nt x) [l1]) as Hx1.
  { eapply copied_tree; [done|done|done|]. unfold h2, h1. rewrite lookup_insert_ne by done. by rewrite lookup_insert_eq. }
  assert (cell_in h0 h2 c1 tc (A ++ [l1] ++ B)) as Hcell2.
  { rewrite <- (define_same _ _ _ Hchild). apply (Hput h2 (mkNode (HRef l1) (nt x) [l1])); [|exact Hx1].
    intros k Hk. unfold h2, h1. apply NoDup_app in Hnd as (_ & _ & Hnd). apply NoDup_cons in Hnd as [Hnl _].
    rewrite !lookup_insert_ne; [done|set_solver|set_solver]. }
  assert (focus h0 h2 root t P l tc (A ++ [l1] ++ B) ctx) as Hf2.
  { rewrite <- (put_same t P tc (fo_walk _ _ _ _ _ _ _ _ _ Hf) define_same).
    eapply focus_update; [exact Hf|exact Hsame| | |].
    - eapply cell_tree_in; [done| |exact Hcell2]. unfold h2. by rewrite lookup_insert_eq.
    - assert (ctx ++ l :: A ++ [l1] ++ B ≡ₚ l1 :: ctx ++ l :: A ++ B) as -> by solve_Permutation.
      by apply NoDup_cons.
    - intros k. rewrite !elem_of_app, list_elem_of_singleton. intros [?|[->|?]]; [left; set_solver|by right|left; set_solver]. }
  assert (h2 !! l = Some c1) as Hc2 by (unfold h2; by rewrite lookup_insert_eq).
  destruct (focus_child _ _ _ _ _ _ _ _ _ _ _ _ Hf2 Hc2 (cell_child_write _ _ _ _ Ev) Hn0) as (t1 & ls1 & ctx1 & _ & Hf3).
  eauto.
Qed.

Lemma copy_step_spec st root t P l tc ls ctx s :
  state_ok st -> focus h0 (hp st) root t P l tc ls ctx ->
  state_ok (copy_step l s st).1 /\
  match (copy_step l s st).2 with
  | Ok l' => exists t1 ls1 ctx1, focus h0 (hp (copy_step l s st).1) root t (P ++ [s]) l' t1 ls1 ctx1
  | Err _ => forall t1, child tc s = Ok t1 -> container t1 = false
  end.
Proof.
  intros Hst Hf. pose proof (fo_tree _ _ _ _ _ _ _ _ _ Hf) as Htree. pose proof (fo_new _ _ _ _ _ _ _ _ _ Hf) as Hl.
  pose proof (tree_in_cell _ _ _ _ _ Hl Htree) as (c & ls' & [= <-] & Hc & Hcell).
  unfold copy_step. rewrite bind_read. cbn [cell_of]. rewrite Hc. cbn [snd].
  destruct (has_own c s) eqn:Eown; cbn [negb]; cycle 1.
  { split; [done|]. intros t1 Ht1. pose proof (has_own_child _ _ _ _ _ Hcell Eown) as H. by rewrite Ht1 in H. }
  rewrite bind_lift. pose proof (cell_child_child _ _ _ _ s Hcell) as Hcc.
  destruct (cell_child c s) as [v|e] eqn:Ev; cycle 1.
  { split; [done|]. intros t1 Ht1. by rewrite Ht1 in Hcc. }
  rewrite bind_read.
  destruct (cell_member _ _ _ _ _ _ _ Hcell Ev) as (x & A & B & Hxv & Hx & Hchild & -> & _).
  unfold node_in in Hx. rewrite Hxv in Hx. pose proof (cell_of_tree _ _ _ _ (proj1 Hst) Hx) as Hof.
  destruct (container (nt x)) eqn:Ect; cycle 1.
  { destruct (cell_of (hp st) v); [done|]. split; [done|]. intros t1 Ht1. congruence. }
  destruct Hof as (q & cq & Hof & ->). rewrite Hof, bind_is_owned. cbn [fst snd].
  cbn in Hof. destruct (hp st !! q) as [cq'|] eqn:Hq; [|done]. injection Hof as <-.
  case_bool_decide as Hown.
  - split; [done|]. apply Hst in Hown as [_ Hq0].
    destruct (focus_child _ _ _ _ _ _ _ _ _ _ _ _ Hf Hc Ev Hq0) as (t1 & ls1 & ctx1 & _ & Hf1). cbn. eauto.
  - assert (h0 !! q = Some cq') as Hq0.
    { destruct (h0 !! q) as [c0|] eqn:E; [|exfalso; apply Hown, Hst; by rewrite Hq].
      apply (lookup_weaken _ (hp st)) in E; [congruence|apply Hst]. }
    rewrite bind_alloc, bind_store. cbn [hp owned]. by eapply copy_member.
Qed.

(** *** The loop, and the root *)

Lemma copy_loop_spec root t path : forall st P l tc ls ctx,
  state_ok st -> focus h0 (hp st) root t P l tc ls ctx ->
  let '(st', r) := hm_fold copy_step l path st in
  state_ok st' /\
  match r with
  | Ok l' => exists tc' ls' ctx', focus h0 (hp st') root t (P ++ path) l' tc' ls' ctx'
  | Err _ => forall f, strict f -> is_ok (walk t (P ++ path) ≫= f) = false
  end.
Proof.
  induction path as [|s path IH]; intros st P l tc ls ctx Hst Hf; cbn [hm_fold].
  { cbn. split; [done|]. rewrite app_nil_r. eauto. }
  unfold mbind, hm_bind at 1. pose proof (copy_step_spec st root t P l tc ls ctx s Hst Hf) as [Hst1 Hr].
  destruct (copy_step l s st) as [st1 [l1|e]]; cbn [fst snd] in *.
  - destruct Hr as (t1 & ls1 & ctx1 & Hf1). specialize (IH st1 (P ++ [s]) l1 t1 ls1 ctx1 Hst1 Hf1).
    by rewrite <- app_assoc in IH.
  - split; [done|]. intros f Hstrict. rewrite (walk_app_ok _ _ _ _ (fo_walk _ _ _ _ _ _ _ _ _ Hf)).
    unfold walk. cbn [foldM]. destruct (child tc s) as [t1|] eqn:Ec; [|done]. cbn [mbind result_bind].
    apply walk_prim; [done|by apply Hr].
Qed.

Lemma copyContainers_spec st root t ls path :
  state_ok st -> tree_in h0 (hp st) root t ls -> NoDup ls ->
  let '(st', r) := copyContainers (Some root) path st in
  state_ok st' /\
  match r with
  | Ok r => exists root' l tc ls ctx, r = Some root' /\ focus h0 (hp st') root' t path l tc ls ctx
  | Err _ => forall f, strict f -> is_ok (walk t path ≫= f) = false
  end.
Proof.
  intros Hst Ht Hnd. unfold copyContainers. rewrite bind_read.
  pose proof (cell_of_tree _ _ _ _ (proj1 Hst) Ht) as Hof. destruct (container t) eqn:Ec; cycle 1.
  { destruct (cell_of (hp st) root); [done|]. split; [done|]. intros f Hf. by apply walk_prim. }
  destruct Hof as (q & cq & Hof & ->). rewrite Hof, bind_is_owned. cbn [fst snd]. cbn in Hof.
  destruct (hp st !! q) as [cq'|] eqn:Hq; [|done]. injection Hof as ->.
  assert (forall st1 q1 ls1, state_ok st1 -> focus h0 (hp st1) (HRef q1) t [] q1 t ls1 [] ->
    let '(st', r) := (hm_fold copy_step q1 path ≫= fun _ : positive => mret (Some (HRef q1))) st1 in
    state_ok st' /\
    match r with
    | Ok r => exists root' l tc ls ctx, r = Some root' /\ focus h0 (hp st') root' t path l tc ls ctx
    | Err _ => forall f, strict f -> is_ok (walk t path ≫= f) = false
    end) as Hloop.
  { intros st1 q1 ls1 Hst1 Hf1. pose proof (copy_loop_spec (HRef q1) t path st1 [] q1 t ls1 [] Hst1 Hf1) as H.
    unfold mbind, hm_bind. destruct (hm_fold copy_step q1 path st1) as [st2 [l2|e]]; cbn in *; [|done].
    destruct H as [Hst2 (tc' & ls' & ctx' & Hf2)]. split; [done|]. by exists (HRef q1), l2, tc', ls', ctx'. }
  case_bool_decide as Hown.
  - apply Hst in Hown as [_ Hq0]. pose proof (tree_in_cell _ _ _ _ _ Hq0 Ht) as (c & ls' & -> & _).
    apply (Hloop st q ls'); [done|]. by apply focus_root.
  - assert (h0 !! q = Some cq) as Hq0.
    { destruct (h0 !! q) as [c0|] eqn:E; [|exfalso; apply Hown, Hst; by rewrite Hq].
      apply (lookup_weaken _ (hp st)) in E; [congruence|apply Hst]. }
    destruct (old_tree _ _ _ _ (mk_is_Some _ _ Hq0) Ht) as [-> Hold].
    pose proof (state_ok_alloc st cq Hst) as (Hn & Hn0 & Hst1).
    rewrite bind_alloc. apply (Hloop _ _ []); [exact Hst1|]. apply focus_root; [done| |by apply NoDup_singleton].
    cbn [hp]. eapply copied_tree; [done|done|done|by rewrite lookup_insert_eq].
Qed.

(** ** One operation *)

Definition inv (st : dstate) (root : option hval) (t : option json) : Prop :=
  match root, t with
  | Some root, Some t => exists ls, tree_in h0 (hp st) root t ls /\ NoDup ls
  | None, None => True
  | _, _ => False
  end.

(** [raw] is a tuple of the heap before that holds the operation [top]. *)
Definition raw_op (raw : hval) (top : Op json) : Prop :=
  exists op, assertValidOp (heap_view h0) raw = Ok op /\ op_denotes h0 op top.

Lemma heap_view_mono h : h0 ⊆ h -> forall v, match heap_view h0 v with ShOther => True | s => heap_view h v = s end.
Proof.
  intros Hsub v. destruct v as [| | | |l]; cbn; try done. destruct (h0 !! l) as [[items|]|] eqn:E; try done.
  by rewrite (lookup_weaken _ _ _ _ E Hsub).
Qed.

Lemma tree_edit_strict op key : strict (tree_edit op key).
Proof. intros t Ht. destruct op, t; try done; by destruct key. Qed.

Lemma edit_focus st op top path key root t l tc ls ctx :
  state_ok st -> focus h0 (hp st) root t path l tc ls ctx ->
  target_of op = Some (path, key) -> op_ok op -> op_denotes h0 op top ->
  let '(st', r) := apply_op (Some root) op st in
  state_ok st' /\ agree (inv st') r (edit (Some t) path (tree_edit top key)).
Proof.
  intros Hst Hf Htgt Hok Hden.
  pose proof (fo_tree _ _ _ _ _ _ _ _ _ Hf) as Htree. pose proof (fo_new _ _ _ _ _ _ _ _ _ Hf) as Hl.
  pose proof (tree_in_cell _ _ _ _ _ Hl Htree) as (c & ls' & [= <-] & Hc & Hcell).
  destruct (fo_plug _ _ _ _ _ _ _ _ _ Hf (hp st) tc (l :: ls)) as [_ Hres]; [done|exact Htree|].
  assert (apply_op (Some root) op st =
    (read (fun h => resolve_root h (Some root) path) ≫= fun p : positive * hcell =>
     lift (edit_cell op key p.2) ≫= fun c : hcell =>
     store p.1 c ≫= fun _ : unit => mret (Some root)) st) as ->.
  { unfold apply_op. rewrite Htgt. destruct op; done. }
  rewrite bind_read. cbn [resolve_root]. unfold resolve. rewrite Hres. cbn [mbind result_bind cell_of]. rewrite Hc.
  rewrite bind_lift. cbn [fst snd]. cbn [edit]. rewrite (fo_walk _ _ _ _ _ _ _ _ _ Hf). cbn [mbind result_bind].
  pose proof (edit_cell_in h0 (hp st) op top key c tc ls Hden Hok Hcell) as Hedit.
  destruct (edit_cell op key c) as [c'|], (tree_edit top key tc) as [tc'|]; try done. cbn in Hedit.
  destruct Hedit as (ls' & Hcell' & Hls'). cbn [app] in Hls'. rewrite bind_store.
  split; [apply state_ok_store; [done|done|eauto]|]. cbn [mret hm_ret agree].
  pose proof (fo_nodup _ _ _ _ _ _ _ _ _ Hf) as Hnd.
  assert (l :: ls' ⊆+ l :: ls) as Hsub by by apply submseteq_skip.
  assert (NoDup (ctx ++ l :: ls')) as Hnd' by (eapply NoDup_submseteq_l; [|exact Hnd]; by apply submseteq_skips_l).
  destruct (fo_plug _ _ _ _ _ _ _ _ _ Hf (<[l := c']> (hp st)) tc' (l :: ls')) as [(ls2 & Ht2 & Hls2) _].
  - intros k Hk _. apply lookup_insert_ne. set_solver.
  - apply (cell_tree_in h0 _ l c'); [done|by rewrite lookup_insert_eq|].
    eapply cell_in_frame; [exact Hcell'|]. intros k Hk. apply lookup_insert_ne. intros <-.
    apply NoDup_app in Hnd' as (_ & _ & Hnd'). by apply NoDup_cons in Hnd' as [? _].
  - exists ls2. split; [exact Ht2|]. by rewrite Hls2.
Qed.

Lemma immutable_op_at root raw st op path key :
  assertValidOp (heap_view (hp st)) raw = Ok op -> target_of op = Some (path, key) ->
  immutable_op root raw st = (copyContainers root path ≫= fun root : option hval => applyOps root [raw]) st.
Proof. intros Hv Ht. unfold immutable_op. rewrite bind_read, Hv. destruct op; cbn [target_of] in *; rewrite ?Ht; simplify_eq; done. Qed.

Lemma immutable_op_spec st root t raw top :
  state_ok st -> inv st root t -> raw_op raw top ->
  let '(st', r) := immutable_op root raw st in
  state_ok st' /\ agree (inv st') r (tree_step t top).
Proof.
  intros Hst Hinv (op & Hraw & Hden). pose proof (assertValidOp_ok _ _ _ Hraw) as Hok.
  assert (forall st', state_ok st' -> assertValidOp (heap_view (hp st')) raw = Ok op) as Hval.
  { intros st' Hst'. eapply assertValidOp_mono; [|exact Hraw]. apply heap_view_mono, Hst'. }
  destruct (target_of op) as [[path key]|] eqn:Htgt; cycle 1.
  { unfold immutable_op. rewrite bind_read, Hval by done. destruct Hden as [v tv Hv|p v tv|p|p|p|p|p]; cbn in Htgt; try done; cbn in Hok.
    - split; [done|]. exists []. split; [by apply in_old|constructor].
    - destruct Hok as [_ Hne]. by destruct p as [|s p _] using rev_ind; [|rewrite split_last_snoc in Htgt].
    - destruct Hok as [_ Hne]. by destruct p as [|s p _] using rev_ind; [|rewrite split_last_snoc in Htgt].
    - destruct Hok as [_ Hne]. by destruct p as [|s p _] using rev_ind; [|rewrite split_last_snoc in Htgt].
    - destruct Hok as (_ & Hne & _). by destruct p as [|s p _] using rev_ind; [|rewrite split_last_snoc in Htgt]. }
  rewrite (tree_step_edit t top path key) by (by rewrite <- (op_denotes_target _ _ _ Hden)).
  rewrite (immutable_op_at root raw st op path key) by auto.
  destruct root as [root|], t as [t|]; [|done|done|by split].
  destruct Hinv as (ls & Ht & Hnd). pose proof (copyContainers_spec st root t ls path Hst Ht Hnd) as H.
  unfold mbind, hm_bind at 1. destruct (copyContainers (Some root) path st) as [st1 [r|e]]; cycle 1.
  { destruct H as [Hst1 H]. split; [done|]. specialize (H _ (tree_edit_strict top key)). cbn [edit].
    apply (not_ok_bind _ (fun new => Ok (Some (put_at t path new)))) in H. by destruct (_ ≫= _). }
  destruct H as [Hst1 (root' & l & tc & ls1 & ctx & -> & Hf)].
  unfold applyOps. cbn [hm_fold]. unfold mbind at 1, hm_bind at 1. rewrite bind_read, Hval by done.
  pose proof (edit_focus st1 op top path key root' t l tc ls1 ctx Hst1 Hf Htgt Hok Hden) as H.
  destruct (apply_op (Some root') op st1) as [st2 [r2|e2]]; done.
Qed.

(** ** Batches *)

Lemma immutable_ops_spec raws tops : Forall2 raw_op raws tops -> forall st root t,
  state_ok st -> inv st root t ->
  let '(st', r) := hm_fold immutable_op root raws st in
  state_ok st' /\ agree (inv st') r (tree_apply t tops).
Proof.
  induction 1 as [|raw top raws tops Hraw _ IH]; intros st root t Hst Hinv; [by split|].
  cbn [hm_fold]. unfold tree_apply. cbn [foldM]. pose proof (immutable_op_spec st root t raw top Hst Hinv Hraw) as H.
  unfold mbind at 1, hm_bind at 1. destruct (immutable_op root raw st) as [st1 [r|e]], (tree_step t top) as [t1|e1];
    destruct H as [Hst1 H]; try done. by apply IH.
Qed.

Lemma immutable_batches_spec batches tbatches : Forall2 (Forall2 raw_op) batches tbatches -> forall st root t,
  state_ok st -> inv st root t ->
  let '(st', r) := applyImmutableBatches root batches st in
  state_ok st' /\ agree (inv st') r (tree_apply t (concat tbatches)).
Proof.
  unfold applyImmutableBatches.
  induction 1 as [|raws tops batches tbatches Hraws _ IH]; intros st root t Hst Hinv; [by split|].
  cbn [hm_fold concat]. unfold tree_apply. rewrite foldM_app.
  pose proof (immutable_ops_spec raws tops Hraws st root t Hst Hinv) as H.
  unfold mbind at 1, hm_bind at 1. unfold tree_apply in H.
  destruct (hm_fold immutable_op root raws st) as [st1 [r|e]], (foldM tree_step t tops) as [t1|e1];
    destruct H as [Hst1 H]; try done. by apply IH.
Qed.

(** A tree of the heap after it is one in the sense of [unfolds]. *)
Lemma tree_in_unfolds h v t ls : h0 ⊆ h -> tree_in h0 h v t ls -> unfolds h v t.
Proof.
  intros Hsub. remember (json_size t) as n eqn:Hn. revert v t ls Hn.
  induction n as [n IH] using lt_wf_ind. intros v t ls -> H.
  destruct H as [v t H|l xs Hl Hc Hxs|l np xs Hl Hc Hxs]; [by eapply unfolds_mono|..]; rewrite Forall_forall in Hxs.
  - pose proof (unfolds_arr h l (map (fun x => (nv x, nt x)) xs)) as G. rewrite !map_map in G. apply G; [done|].
    rewrite Forall_map. apply Forall_forall. intros x Hx. eapply IH; [|done|by apply Hxs].
    by apply json_size_item, (list_elem_of_fmap_2 nt).
  - pose proof (unfolds_obj h l np (map (fun x => (x.1, (nv x.2, nt x.2))) xs)) as G. rewrite !map_map in G.
    apply G; [done|]. rewrite Forall_map. apply Forall_forall. intros x Hx. eapply IH; [|done|by apply Hxs].
    by apply (json_size_entry (x.1, nt x.2)), (list_elem_of_fmap_2 entry_t).
Qed.
End Immutable.

(** ** Theorem *)

(** The document of a root that may be [undefined]. *)
Definition document (h : heap) (root : option hval) (t : option json) : Prop :=
  match root, t with Some v, Some t => unfolds h v t | None, None => True | _, _ => False end.

(** C13. Applying batches immutably implements their meaning on trees: it
    succeeds exactly when the tree semantics does and then its result is a
    value with that tree, even if the document, the operations' values and
    other revisions share containers; and, whether it succeeds or throws in
    the middle, no container that existed before the call has changed. *)
Theorem applyImmutable_refines h root t batches tbatches :
  document h root t -> Forall2 (Forall2 (raw_op h)) batches tbatches ->
  let '(h', r) := run_immutable h root batches in
  h ⊆ h' /\
  match r, tree_apply t (concat tbatches) with
  | Ok root', Ok t' => document h' root' t'
  | Err _, Err _ => True
  | _, _ => False
  end.
Proof.
  intros Hdoc Hops. unfold run_immutable.
  pose proof (immutable_batches_spec h batches tbatches Hops (mkState h ∅) root t) as H.
  destruct (applyImmutableBatches root batches (mkState h ∅)) as [st r]. destruct H as [[Hsub _] H].
  - split; [done|]. intros k. cbn. split; [set_solver|]. intros [[c Hc] Hn]. congruence.
  - destruct root as [v|], t as [t|]; try done. exists []. split; [by apply in_old|constructor].
  - split; [done|]. destruct r as [root'|], (tree_apply t (concat tbatches)) as [t'|]; try done. cbn in H.
    destruct root' as [v'|], t' as [t'|]; try done. destruct H as (ls & Ht & _). by eapply tree_in_unfolds.
Qed.

(** One container [2] in two places of the document [1]; the tuple [4] sets a
    member of it in the first place. *)
Definition sample_heap : heap :=
  list_to_map [(1%positive, HObj false [($"a", HRef 2%positive); ($"b", HRef 2%positive)]);
               (2%positive, HObj false [($"n", HBool true)]);
               (3%positive, HArr [HStr $"a"; HStr $"n"]);
               (4%positive, HArr [HStr $"s"; HRef 3%positive; HNull])].

Definition sample_document : json :=
  JsObj false [($"a", JsObj false [($"n", JsBool true)]); ($"b", JsObj false [($"n", JsBool true)])].

Lemma sample_unfolds : unfolds sample_heap (HRef 1%positive) sample_document.
Proof.
  assert (unfolds sample_heap (HRef 2%positive) (JsObj false [($"n", JsBool true)])) as H2.
  { apply (unfolds_obj _ _ false [($"n", (HBool true, JsBool true))]); [done|]. repeat constructor. }
  apply (unfolds_obj _ _ false [($"a", (HRef 2%positive, JsObj false [($"n", JsBool true)]));
                                ($"b", (HRef 2%positive, JsObj false [($"n", JsBool true)]))]); [done|].
  by repeat constructor.
Qed.

Lemma sample_raw : raw_op sample_heap (HRef 4%positive) (OpS [SStr $"a"; SStr $"n"] JsNull).
Proof. exists (OpS [SStr $"a"; SStr $"n"] HNull). split; [by vm_compute|]. repeat constructor. Qed.

Lemma applyImmutable_refines_witness :
  let '(h', r) := run_immutable sample_heap (Some (HRef 1%positive)) [[HRef 4%positive]] in
  sample_heap ⊆ h' /\
  match r with
  | Ok root' => document h' root'
      (Some (JsObj false [($"a", JsObj false [($"n", JsNull)]); ($"b", JsObj false [($"n", JsBool true)])]))
  | Err _ => False
  end.
Proof.
  pose proof (applyImmutable_refines sample_heap (Some (HRef 1%positive)) (Some sample_document)
    [[HRef 4%positive]] [[OpS [SStr $"a"; SStr $"n"] JsNull]] sample_unfolds
    (List.Forall2_cons _ _ (List.Forall2_cons _ _ sample_raw (List.Forall2_nil _)) (List.Forall2_nil _))) as H.
  destruct (run_immutable sample_heap (Some (HRef 1%positive)) [[HRef 4%positive]]) as [h' r].
  destruct H as [Hsub H]. split; [exact Hsub|]. destruct r; exact H.
Defined.
