(* ===== verification/DeltaReplica.v ===== *)
(** * Replicas follow their source (packages/chord/src/delta)

The pieces together, as a replicated state uses them: the source publishes a
base batch and then, for every new revision, the delta from the one before;
the batches go through the codec; a reader that starts at the base applies
them one after another.  Each reader's document is then the source's revision,
batch by batch. *)
From S2P Require Import Prelude JsNumber JsObject Json DeltaOps DeltaTree DeltaCodec DeltaSame DeltaDiff DeltaDiffCorrect.
#[local] Open Scope Z_scope.

(** The batches of a source whose revisions are [r] and then [later]. *)
Fixpoint deltas (r : revision) (later : list revision) : list (list (Op json)) :=
  match later with
  | [] => []
  | r' :: later => map erase_op (diffRevisions r r') :: deltas r' later
  end.

Definition published (r : revision) (later : list revision) : list (list (Op json)) := [OpR (erase r)] :: deltas r later.

(** The documents of a reader after each batch. *)
Fixpoint replay_batches (t : option json) (batches : list (list (Op json))) : result DeltaError (list (option json)) :=
  match batches with
  | [] => Ok []
  | ops :: batches =>
      tree_apply t ops ≫= fun t => replay_batches t batches ≫= fun states => Ok (t :: states)
  end.

(** Consecutive revisions belong together. *)
Fixpoint chain_ok (r : revision) (later : list revision) : Prop :=
  match later with [] => json_ok (erase r) | r' :: later => revisions_ok r r' /\ chain_ok r' later end.

Lemma erase_ops_ok ops : Forall op_ok ops -> Forall op_small ops -> batch_ok (map erase_op ops).
Proof. intros H1 H2. split; apply Forall_map; [eapply Forall_impl; [exact H1|]|eapply Forall_impl; [exact H2|]]; by intros []. Qed.

Lemma deltas_ok r later : chain_ok r later -> Forall batch_ok (deltas r later).
Proof.
  revert r. induction later as [|r' later IH]; intros r; cbn [deltas chain_ok]; [constructor|]. intros [Hr Hc].
  apply Forall_cons. split; [|by apply IH]. destruct (diffRevisions_spec r r' Hr) as (H1 & H2 & _). by apply erase_ops_ok.
Qed.

(** Each delta is bounded, so a long stream still has few operations. *)
Lemma deltas_small r later : total_ops (deltas r later) <= MAX_DELTA_OPERATIONS * blen later.
Proof.
  revert r. induction later as [|r' later IH]; intros r; cbn [deltas]; [by vm_compute|].
  rewrite total_ops_cons, blen_map, blen_cons. pose proof (diffRevisions_bound r r'). specialize (IH r'). lia.
Qed.

Lemma published_ok r later : chain_ok r later -> Forall batch_ok (published r later).
Proof. intros H. apply Forall_cons. split; [by repeat constructor|by apply deltas_ok]. Qed.

Lemma published_small r later : blen later < 2 ^ 40 -> small (total_ops (published r later)).
Proof.
  intros H. unfold published. rewrite total_ops_cons. pose proof (deltas_small r later) as Hd.
  unfold MAX_DELTA_OPERATIONS in Hd. change (blen [OpR (erase r)]) with 1. unfold small. lia.
Qed.

Lemma replay_deltas r later t :
  chain_ok r later -> same_json t (erase r) ->
  exists docs, replay_batches (Some t) (deltas r later) = Ok (Some <$> docs) /\ Forall2 same_json docs (erase <$> later).
Proof.
  revert r t. induction later as [|r' later IH]; intros r t; cbn [deltas chain_ok replay_batches].
  { intros _ _. exists []. split; [done|constructor]. }
  intros [Hr Hc] Ht. destruct (diffRevisions_spec r r' Hr) as (_ & _ & w & Hw & Hsw).
  pose proof (tree_apply_proper (Some t) (Some (erase r)) (Some_Forall2 _ _ _ Ht) _ _ (eq_refl (map erase_op (diffRevisions r r')))) as H.
  unfold runs in Hw. change (erase_op <$> diffRevisions r r') with (map erase_op (diffRevisions r r')) in Hw. rewrite Hw in H.
  destruct (tree_apply (Some t) _) as [t'|]; [|done]. inversion H as [x y Hx|]; subst.
  destruct (IH r' x Hc) as (docs & Hd & Hds); [by etransitivity|].
  exists (x :: docs). split; [|constructor; [by etransitivity|done]]. cbn [mbind result_bind]. by rewrite Hd.
Qed.

(** C14. A reader that joins the stream at a base batch, with any dictionary
    left over from before, decodes every batch the source encodes (itself in
    any state) and, applying them in turn, has after each one the source's
    revision at that point, up to key order and the sign of zeros. *)
Theorem replica_follows st paths r later :
  chain_ok r later -> blen later < 2 ^ 40 ->
  exists batches docs,
    decode_batches json_view paths (wire_tuples <$> encode_batches st (published r later)) = Ok batches /\
    (forall t, replay_batches t batches = Ok (Some <$> docs)) /\
    Forall2 same_json docs (erase <$> r :: later).
Proof.
  intros Hc Hl. destruct (replay_deltas r later (erase r) Hc ltac:(reflexivity)) as (docs & Hd & Hs).
  exists (published r later), (erase r :: docs). split_and!.
  - apply stream_base; [done|by apply published_ok|by apply published_small].
  - intros t. cbn [published replay_batches tree_apply foldM tree_step mbind result_bind]. by rewrite Hd.
  - by constructor.
Qed.

Lemma replica_follows_witness :
  let st := mkEncoder {[ $"stale" ]} {[ $"stale" := 3 ]} 4 in
  exists batches docs,
    decode_batches json_view {[ 3 := [SStr $"stale"] ]} (wire_tuples <$> encode_batches st (published sample_before [sample_after])) = Ok batches /\
    replay_batches None batches = Ok (Some <$> docs) /\ Forall2 same_json docs [erase sample_before; erase sample_after].
Proof.
  destruct (replica_follows (mkEncoder {[ $"stale" ]} {[ $"stale" := 3 ]} 4) {[ 3 := [SStr $"stale"] ]} sample_before [sample_after])
    as (batches & docs & H1 & H2 & H3); [split; [exact sample_ok|apply sample_ok]|by vm_compute|].
  exists batches, docs. split_and!; [exact H1|apply H2|exact H3].
Defined.
