(* ===== verification/ToolCallId.v ===== *)
(** * Identifiers of tool calls for other providers (packages/ai/src/utils: tool-call-id.ts, hash.ts)

Providers restrict the ids of tool calls to 64 characters of a small alphabet.
An id is sanitised character by character; a long one keeps a prefix and a hash
of the whole.  The hash works on 32-bit integers, here as their unsigned values. *)
From S2P Require Import Prelude JsString.
#[local] Open Scope Z_scope.

(** [Math.imul] on unsigned representatives. *)
Definition imul (a b : Z) : Z := (a * b) mod 2 ^ 32.

Definition hash_step (h : Z * Z) (ch : Z) : Z * Z :=
  (imul (Z.lxor h.1 ch) 2654435761, imul (Z.lxor h.2 ch) 1597334677).

(** A digit of [Number.prototype.toString(36)]. *)
Definition digit36 (d : Z) : Z := if d <? 10 then 48 + d else 87 + d.

(** The base-36 digits of an unsigned 32-bit number: at most seven. *)
Fixpoint digits36 (fuel : nat) (n : Z) (acc : jstring) : jstring :=
  match fuel with
  | O => acc
  | S fuel => let acc := digit36 (n mod 36) :: acc in if n <? 36 then acc else digits36 fuel (n / 36) acc
  end.

Definition toString36 (n : Z) : jstring := digits36 7 n [].

Definition shortHash (str : jstring) : jstring :=
  let (h1, h2) := foldl hash_step (0xdeadbeef, 0x41c6ce57) str in
  let h1 := Z.lxor (imul (Z.lxor h1 (ushr h1 16)) 2246822507) (imul (Z.lxor h2 (ushr h2 13)) 3266489909) in
  let h2 := Z.lxor (imul (Z.lxor h2 (ushr h2 16)) 2246822507) (imul (Z.lxor h1 (ushr h1 13)) 3266489909) in
  toString36 h2 ++ toString36 h1.

Definition TOOL_CALL_ID_MAX_LENGTH : Z := 64.

(** [/[a-zA-Z0-9_-]/] *)
Definition id_char (c : Z) : bool :=
  (97 <=? c) && (c <=? 122) || (65 <=? c) && (c <=? 90) || (48 <=? c) && (c <=? 57) || (c =? 95) || (c =? 45).

Definition sanitize_char (c : Z) : Z := if id_char c then c else 95.

Definition normalizeToolCallId (id : jstring) : jstring :=
  let sanitized := sanitize_char <$> id in
  if blen sanitized <=? TOOL_CALL_ID_MAX_LENGTH then sanitized
  else
    let suffix := [95] ++ shortHash id in
    slice sanitized 0 (TOOL_CALL_ID_MAX_LENGTH - blen suffix) ++ suffix.

(** What the providers accept. *)
Definition provider_id (id : jstring) : Prop := blen id <= TOOL_CALL_ID_MAX_LENGTH /\ Forall (fun c => id_char c = true) id.

(** ** Facts *)

Lemma sanitize_char_ok c : id_char (sanitize_char c) = true.
Proof. unfold sanitize_char. by destruct (id_char c) eqn:E. Qed.

Lemma sanitize_id_char id : Forall (fun c => id_char c = true) id -> sanitize_char <$> id = id.
Proof. induction 1 as [| c id Hc _ IH]; [done |]. cbn. rewrite IH. unfold sanitize_char. by rewrite Hc. Qed.

Lemma digit36_ok d : 0 <= d < 36 -> id_char (digit36 d) = true.
Proof. intros Hd. unfold digit36, id_char. destruct (Z.ltb_spec d 10); lia. Qed.

Lemma digits36_ok fuel n acc :
  0 <= n -> Forall (fun c => id_char c = true) acc ->
  Forall (fun c => id_char c = true) (digits36 fuel n acc) /\ (length (digits36 fuel n acc) <= length acc + fuel)%nat.
Proof.
  revert n acc. induction fuel as [| fuel IH]; intros n acc Hn Hacc; cbn [digits36]; [split; [done | lia] |].
  assert (Hd : Forall (fun c => id_char c = true) (digit36 (n mod 36) :: acc)).
  { constructor; [apply digit36_ok, Z.mod_pos_bound; lia | done]. }
  case_match; [split; [done | cbn; lia] |].
  destruct (IH (n / 36) _ (Z.div_pos n 36 Hn ltac:(lia)) Hd) as [? ?]. split; [done | cbn in *; lia].
Qed.

(** Seven digits are enough for 32 bits: the digits spell the number. *)
Definition undigit36 (c : Z) : Z := if c <? 58 then c - 48 else c - 87.
Definition value36 (s : jstring) : Z := foldl (fun v c => v * 36 + undigit36 c) 0 s.

Lemma undigit36_digit36 d : 0 <= d < 36 -> undigit36 (digit36 d) = d.
Proof. intros Hd. unfold undigit36, digit36. destruct (Z.ltb_spec d 10); case_match; lia. Qed.

Lemma value36_app s t : value36 (s ++ t) = foldl (fun v c => v * 36 + undigit36 c) (value36 s) t.
Proof. unfold value36. by rewrite foldl_app. Qed.

Lemma digits36_value fuel n acc :
  0 <= n < 36 ^ Z.of_nat fuel -> (0 < fuel)%nat -> value36 (digits36 fuel n acc) = foldl (fun v c => v * 36 + undigit36 c) n acc.
Proof.
  revert n acc. induction fuel as [| fuel IH]; intros n acc Hn Hf; [lia |]. cbn [digits36].
  pose proof (Z.mod_pos_bound n 36 ltac:(lia)). pose proof (Z_div_mod_eq_full n 36).
  destruct (Z.ltb_spec n 36).
  - unfold value36. cbn [foldl]. rewrite undigit36_digit36 by lia. rewrite Z.mod_small by lia. done.
  - rewrite Nat2Z.inj_succ, Z.pow_succ_r in Hn by lia. destruct fuel as [| fuel]; [cbn in Hn; lia |].
    rewrite IH; [| | lia]; [| split; [apply Z.div_pos | apply Z.div_lt_upper_bound]; lia].
    cbn [foldl]. rewrite undigit36_digit36 by lia. f_equal. lia.
Qed.

Lemma toString36_value n : 0 <= n < 2 ^ 32 -> value36 (toString36 n) = n.
Proof. intros Hn. unfold toString36. rewrite digits36_value; [done | | lia]. split; [lia |]. apply (Z.lt_le_trans _ (2 ^ 32)); [lia | by vm_compute]. Qed.

Lemma lxor_u32 a b : 0 <= a < 2 ^ 32 -> 0 <= b < 2 ^ 32 -> 0 <= Z.lxor a b < 2 ^ 32.
Proof.
  intros Ha Hb. assert (0 <= Z.lxor a b) by (apply Z.lxor_nonneg; lia). split; [done |].
  destruct (Z.eq_dec (Z.lxor a b) 0) as [-> | ?]; [lia |]. apply Z.log2_lt_pow2; [lia |].
  pose proof (Z.log2_lxor a b ltac:(lia) ltac:(lia)).
  assert (forall x, 0 <= x < 2 ^ 32 -> Z.log2 x < 32) as Hl.
  { intros x Hx. destruct (Z.eq_dec x 0) as [-> | ?]; [by vm_compute |]. apply Z.log2_lt_pow2; lia. }
  pose proof (Hl a Ha). pose proof (Hl b Hb). lia.
Qed.

Lemma imul_u32 a b : 0 <= imul a b < 2 ^ 32.
Proof. apply Z.mod_pos_bound. lia. Qed.

Lemma shortHash_ok str : Forall (fun c => id_char c = true) (shortHash str) /\ blen (shortHash str) <= 14.
Proof.
  unfold shortHash. destruct (foldl _ _ str) as [h1 h2]. cbv zeta.
  set (a := Z.lxor (imul (Z.lxor h1 _) _) _). set (b := Z.lxor (imul (Z.lxor h2 (ushr h2 16)) _) _).
  assert (0 <= a < 2 ^ 32) by (apply lxor_u32; apply imul_u32).
  assert (0 <= b < 2 ^ 32) by (apply lxor_u32; apply imul_u32).
  destruct (digits36_ok 7 a [] ltac:(lia) ltac:(constructor)) as [Ha La].
  destruct (digits36_ok 7 b [] ltac:(lia) ltac:(constructor)) as [Hb Lb].
  split; [by apply Forall_app |]. unfold toString36. rewrite blen_app. unfold blen. cbn [length] in *. lia.
Qed.

(** Whatever the id, what is sent is an id the providers accept: at most 64 characters of their alphabet, exactly
64 when the id was longer; an id they accept already stays as it is, so normalising twice changes nothing. *)
Theorem normalizeToolCallId_ok id :
  provider_id (normalizeToolCallId id) /\
  (provider_id id -> normalizeToolCallId id = id) /\
  normalizeToolCallId (normalizeToolCallId id) = normalizeToolCallId id /\
  (TOOL_CALL_ID_MAX_LENGTH < blen id -> blen (normalizeToolCallId id) = TOOL_CALL_ID_MAX_LENGTH).
Proof.
  assert (Hfix : forall id, provider_id id -> normalizeToolCallId id = id).
  { intros i [Hl Hc]. unfold normalizeToolCallId. rewrite blen_fmap, (sanitize_id_char i Hc). case_match; lia || done. }
  assert (Hok : provider_id (normalizeToolCallId id) /\
                (TOOL_CALL_ID_MAX_LENGTH < blen id -> blen (normalizeToolCallId id) = TOOL_CALL_ID_MAX_LENGTH)).
  { unfold normalizeToolCallId, provider_id. rewrite blen_fmap. destruct (shortHash_ok id) as [Hh Hl].
    assert (Hs : Forall (fun c => id_char c = true) (sanitize_char <$> id)) by (apply Forall_fmap, Forall_true; intros; apply sanitize_char_ok).
    destruct (Z.leb_spec (blen id) TOOL_CALL_ID_MAX_LENGTH).
    { rewrite blen_fmap. split; [done | lia]. }
    pose proof (blen_nonneg (shortHash id)). unfold TOOL_CALL_ID_MAX_LENGTH in *.
    assert (blen (slice (sanitize_char <$> id) 0 (64 - blen ([95] ++ shortHash id))) = 64 - blen ([95] ++ shortHash id)) as Hsl.
    { rewrite <- (Z.add_0_l (64 - _)) at 1. rewrite blen_slice; rewrite ?blen_fmap; blen_lia. }
    rewrite blen_app, Hsl. split; [split; [lia |] | lia]. apply Forall_app. split; [by apply Forall_take, Forall_drop |]. by constructor. }
  destruct Hok as [Hok Hlen]. split_and!; auto.
Qed.
