(* ===== verification/ReplayMessages.v ===== *)
(** * Replaying a history to another model (packages/ai/src/api/transform-messages.ts)

Before a request the history is rewritten for the model it goes to: media the
model does not take become placeholders, reasoning that belongs to another model
becomes text or goes away, ids of tool calls are made acceptable, failed turns are
dropped, and every tool call is followed by its result, real or substituted.
Fields no modelled code reads are carried as one JSON value.  The clock is asked
once for every substituted result; [clock n] is its answer when the output holds
[n] messages. *)
From S2P Require Import Prelude JsString JsNumber Json EditText Summary Messages.
#[local] Open Scope Z_scope.

(** ** Data (packages/ai/src/types.ts) *)

Record TextContent := mkText { text : jstring; textSignature : option jstring; modelOnly : bool }.

Record ImageContent := mkImage { i_data : jstring; mimeType : jstring }.

Inductive MediaBlock := MText (t : TextContent) | MImage (i : ImageContent).

Record ThinkingContent := mkThinking { thinking : jstring; thinkingSignature : option jstring; redacted : bool; th_times : json }.

Record ToolCall := mkToolCall { tc_id : jstring; tc_name : jstring; tc_arguments : json; thoughtSignature : option jstring; tc_rest : json }.

Inductive AssistantBlock := AText (t : TextContent) | AThinking (t : ThinkingContent) | ACall (c : ToolCall) | ANative (raw : json).

Record AssistantMessage := mkReply { am_content : list AssistantBlock; api : jstring; provider : jstring; am_model : jstring; am_stop : MsgStop; am_rest : json }.

Record ToolResultMessage := mkResult { toolCallId : jstring; toolName : jstring; r_content : list MediaBlock; isError : bool; r_timestamp : num; r_rest : json }.

Inductive UserContent := UText (s : jstring) | UBlocks (l : list MediaBlock).

(** System messages and configuration updates are not looked into: [Other]. *)
Inductive Message :=
| Other (role : jstring) (content rest : json)
| User (content : UserContent) (timestamp : num)
| Assistant (a : AssistantMessage)
| ToolResult (r : ToolResultMessage).

(** Untyped callers may leave the content out; the content of a [NoContent] message is not read. *)
Inductive Given := HasContent (m : Message) | NoContent (m : Message).

Record Model := mkModel { m_provider : jstring; m_api : jstring; m_id : jstring; m_input : list jstring }.

Record TransformMessagesOptions := mkOptions {
  preserveThinking : option bool; preserveTextSignatures : option bool;
  preserveUnsignedThinking : option bool; normalizeSameModelToolCallIds : option bool }.

(** ** Media *)

Definition NON_VISION_USER_IMAGE_PLACEHOLDER : jstring := $"(image omitted: model does not support images)".
Definition NON_VISION_TOOL_IMAGE_PLACEHOLDER : jstring := $"(tool image omitted: model does not support images)".
Definition NO_VIDEO_USER_PLACEHOLDER : jstring := $"(video omitted: model does not support video input)".
Definition NO_VIDEO_TOOL_PLACEHOLDER : jstring := $"(tool video omitted: model does not support video input)".

(** The only units that lower to a letter of [video/] are that letter and its capital. *)
Definition lower_ascii (c : Z) : Z := if (65 <=? c) && (c <=? 90) then c + 32 else c.

Definition isVideoMimeType (mime : jstring) : bool := startsWith (lower_ascii <$> mime) $"video/".

Definition plain_text (s : jstring) : TextContent := mkText s None false.

Definition is_matching (matches : ImageContent -> bool) (b : MediaBlock) : bool :=
  match b with MImage i => matches i | MText _ => false end.

Definition is_placeholder (placeholder : jstring) (b : MediaBlock) : bool :=
  match b with MText t => bool_decide (text t = placeholder) | MImage _ => false end.

(** The loop of both replacements: a run of replaced blocks gives one placeholder. *)
Fixpoint replace_loop (placeholder : jstring) (matches : ImageContent -> bool) (previousWasPlaceholder : bool) (content : list MediaBlock) : list MediaBlock :=
  match content with
  | [] => []
  | block :: content =>
      if is_matching matches block then
        (if previousWasPlaceholder then [] else [MText (plain_text placeholder)]) ++ replace_loop placeholder matches true content
      else block :: replace_loop placeholder matches (is_placeholder placeholder block) content
  end.

Definition replaceMediaWithPlaceholder (content : list MediaBlock) (placeholder : jstring) (matches : ImageContent -> bool) : list MediaBlock :=
  if existsb (is_matching matches) content then replace_loop placeholder matches false content else content.

Definition replaceImagesWithPlaceholder (content : list MediaBlock) (placeholder : jstring) : list MediaBlock :=
  replace_loop placeholder (fun _ => true) false content.

Section Transform.
Context (model : Model).

Definition supportsImages : bool := bool_decide ($"image" ∈ m_input model).
Definition supportsVideo : bool := bool_decide ($"video" ∈ m_input model).

Definition downgrade_content (video image : jstring) (content : list MediaBlock) : list MediaBlock :=
  let content := if supportsVideo then content else replaceMediaWithPlaceholder content video (fun b => isVideoMimeType (mimeType b)) in
  if supportsImages then content else replaceImagesWithPlaceholder content image.

Definition with_content (r : ToolResultMessage) (content : list MediaBlock) : ToolResultMessage :=
  mkResult (toolCallId r) (toolName r) content (isError r) (r_timestamp r) (r_rest r).

Definition downgrade (msg : Message) : Message :=
  match msg with
  | User (UBlocks content) timestamp =>
      User (UBlocks (downgrade_content NO_VIDEO_USER_PLACEHOLDER NON_VISION_USER_IMAGE_PLACEHOLDER content)) timestamp
  | ToolResult r =>
      ToolResult (with_content r (downgrade_content NO_VIDEO_TOOL_PLACEHOLDER NON_VISION_TOOL_IMAGE_PLACEHOLDER (r_content r)))
  | _ => msg
  end.

Definition downgradeUnsupportedImages (messages : list Message) : list Message :=
  if supportsImages && supportsVideo then messages else downgrade <$> messages.

(** [msg.content == null ? { ...msg, content: [] } : msg] *)
Definition normalized_content (g : Given) : Message :=
  match g with
  | HasContent m => m
  | NoContent (Other role _ rest) => Other role (JsArr []) rest
  | NoContent (User _ timestamp) => User (UBlocks []) timestamp
  | NoContent (Assistant a) => Assistant (mkReply [] (api a) (provider a) (am_model a) (am_stop a) (am_rest a))
  | NoContent (ToolResult r) => ToolResult (with_content r [])
  end.

(** ** First pass: one message after the other, collecting the ids that change *)

Context (normalize : option (jstring -> Model -> AssistantMessage -> jstring)) (options : TransformMessagesOptions).

Definition is_call (b : AssistantBlock) : bool := match b with ACall _ => true | _ => false end.

Definition isSameModel (a : AssistantMessage) : bool :=
  bool_decide (provider a = m_provider model) && bool_decide (api a = m_api model) && bool_decide (am_model a = m_id model).

Definition preserveProviderState (a : AssistantMessage) : bool :=
  default true (preserveThinking options) || existsb is_call (am_content a).

Definition transform_thinking (a : AssistantMessage) (block : ThinkingContent) : list AssistantBlock :=
  if redacted block then (if isSameModel a then [AThinking block] else [])
  else
    let hasUsableSignature := match thinkingSignature block with Some s => 0 <? blen (trim s) | None => false end in
    let empty := bool_decide (trim (thinking block) = []) in
    if isSameModel a && hasUsableSignature && (preserveProviderState a || empty) then [AThinking block]
    else if bool_decide (thinking block = []) || empty then []
    else if isSameModel a then
      (if preserveProviderState a || default false (preserveUnsignedThinking options) && negb hasUsableSignature then [AThinking block] else [])
    else [AText (plain_text (thinking block))].

Definition transform_text (a : AssistantMessage) (block : TextContent) : AssistantBlock :=
  if isSameModel a && (preserveProviderState a || default false (preserveTextSignatures options)) then AText block
  else AText (plain_text (text block)).

Definition without_thought (c : ToolCall) : ToolCall := mkToolCall (tc_id c) (tc_name c) (tc_arguments c) None (tc_rest c).
Definition with_id (c : ToolCall) (id : jstring) : ToolCall := mkToolCall id (tc_name c) (tc_arguments c) (thoughtSignature c) (tc_rest c).

(** The call, and the entry its id adds to the map. *)
Definition transform_call (a : AssistantMessage) (c : ToolCall) (toolCallIdMap : gmap jstring jstring) : ToolCall * gmap jstring jstring :=
  let normalizedToolCall :=
    match thoughtSignature c with
    | Some (_ :: _) => if negb (isSameModel a) || negb (preserveProviderState a) then without_thought c else c
    | _ => c
    end in
  match normalize with
  | Some normalizeToolCallId =>
      if negb (isSameModel a) || default false (normalizeSameModelToolCallIds options) then
        let normalizedId := normalizeToolCallId (tc_id c) model a in
        if bool_decide (normalizedId = tc_id c) then (normalizedToolCall, toolCallIdMap)
        else (with_id normalizedToolCall normalizedId, <[tc_id c := normalizedId]> toolCallIdMap)
      else (normalizedToolCall, toolCallIdMap)
  | None => (normalizedToolCall, toolCallIdMap)
  end.

Fixpoint transform_blocks (a : AssistantMessage) (content : list AssistantBlock) (ids : gmap jstring jstring) : list AssistantBlock * gmap jstring jstring :=
  match content with
  | [] => ([], ids)
  | block :: content =>
      let '(out, ids) :=
        match block with
        | AThinking t => (transform_thinking a t, ids)
        | AText t => ([transform_text a t], ids)
        | ACall c => let '(c, ids) := transform_call a c ids in ([ACall c], ids)
        | ANative raw => ([ANative raw], ids)
        end in
      let '(rest, ids) := transform_blocks a content ids in (out ++ rest, ids)
  end.

Definition set_content (a : AssistantMessage) (content : list AssistantBlock) : AssistantMessage :=
  mkReply content (api a) (provider a) (am_model a) (am_stop a) (am_rest a).

Definition set_call_id (r : ToolResultMessage) (id : jstring) : ToolResultMessage :=
  mkResult id (toolName r) (r_content r) (isError r) (r_timestamp r) (r_rest r).

Definition transform_message (msg : Message) (ids : gmap jstring jstring) : Message * gmap jstring jstring :=
  match msg with
  | Other _ _ _ | User _ _ => (msg, ids)
  | ToolResult r =>
      match ids !! toolCallId r with
      | Some ((_ :: _) as normalizedId) =>
          (if bool_decide (normalizedId = toolCallId r) then msg else ToolResult (set_call_id r normalizedId), ids)
      | _ => (msg, ids)
      end
  | Assistant a => let '(content, ids) := transform_blocks a (am_content a) ids in (Assistant (set_content a content), ids)
  end.

Fixpoint first_pass (messages : list Message) (ids : gmap jstring jstring) : list Message :=
  match messages with
  | [] => []
  | msg :: messages => let '(msg, ids) := transform_message msg ids in msg :: first_pass messages ids
  end.

(** ** Second pass: every call is followed by its result *)

Record ResultEntry := mkEntry { e_message : ToolResultMessage; sourceIndex : nat; consumed : bool }.

Record Collected := mkCollected {
  toolResultsById : gmap jstring (list ResultEntry);
  nextToolCallIndexById : gmap jstring (list nat);
  droppedCallIds : gset jstring }.

Definition tool_calls (a : AssistantMessage) : list ToolCall :=
  omap (fun b => match b with ACall c => Some c | _ => None end) (am_content a).

(** [map.get(key) ?? []] *)
Definition get_list {A} (m : gmap jstring (list A)) (k : jstring) : list A := default [] (m !! k).

Definition push_list {A} (m : gmap jstring (list A)) (k : jstring) (x : A) : gmap jstring (list A) := <[k := get_list m k ++ [x]]> m.

Definition collect_message (i : nat) (message : Message) (s : Collected) : Collected :=
  match message with
  | ToolResult r => mkCollected (push_list (toolResultsById s) (toolCallId r) (mkEntry r i false)) (nextToolCallIndexById s) (droppedCallIds s)
  | Assistant a =>
      if isFailedStop (am_stop a) then
        mkCollected (toolResultsById s) (nextToolCallIndexById s) (foldl (fun ids c => {[tc_id c]} ∪ ids) (droppedCallIds s) (tool_calls a))
      else
        mkCollected (toolResultsById s) (foldl (fun m c => push_list m (tc_id c) i) (nextToolCallIndexById s) (tool_calls a)) (droppedCallIds s)
  | Other _ _ _ | User _ _ => s
  end.

Fixpoint collect (i : nat) (messages : list Message) (s : Collected) : Collected :=
  match messages with
  | [] => s
  | message :: messages => collect (S i) messages (collect_message i message s)
  end.

Context (clock : nat -> num).

Definition no_result (c : ToolCall) (now : num) : ToolResultMessage :=
  mkResult (tc_id c) (tc_name c) [MText (plain_text $"No result provided")] true now JsNull.

(** The entry is shared with the map: consuming it is seen there. *)
Definition consume (id : jstring) (i : nat) (results : gmap jstring (list ResultEntry)) : gmap jstring (list ResultEntry) :=
  alter (fmap (fun e => if Nat.eqb (sourceIndex e) i then mkEntry (e_message e) (sourceIndex e) true else e)) id results.

Definition eligible (i : nat) (nextDeclarationIndex : option nat) (e : ResultEntry) : bool :=
  negb (consumed e) && (i <? sourceIndex e)%nat && match nextDeclarationIndex with Some next => (sourceIndex e <? next)%nat | None => true end.

Definition emit_call (s : Collected) (i : nat) (c : ToolCall) (st : gmap jstring (list ResultEntry) * list Message)
  : gmap jstring (list ResultEntry) * list Message :=
  let '(results, result) := st in
  let nextDeclarationIndex := List.find (fun index => (i <? index)%nat) (get_list (nextToolCallIndexById s) (tc_id c)) in
  match List.find (eligible i nextDeclarationIndex) (get_list results (tc_id c)) with
  | Some matchedResult => (consume (tc_id c) (sourceIndex matchedResult) results, result ++ [ToolResult (e_message matchedResult)])
  | None => (results, result ++ [ToolResult (no_result c (clock (length result)))])
  end.

Definition emit_message (s : Collected) (i : nat) (message : Message) (st : gmap jstring (list ResultEntry) * list Message)
  : gmap jstring (list ResultEntry) * list Message :=
  let '(results, result) := st in
  match message with
  | ToolResult r =>
      match List.find (fun e => Nat.eqb (sourceIndex e) i) (get_list results (toolCallId r)) with
      | Some (mkEntry _ _ true) => st
      | _ =>
          if negb (bool_decide (toolCallId r ∈ droppedCallIds s)) || bool_decide (is_Some (nextToolCallIndexById s !! toolCallId r))
          then (results, result ++ [message]) else st
      end
  | Assistant a =>
      if isFailedStop (am_stop a) then st
      else foldl (fun st c => emit_call s i c st) (results, result ++ [message]) (tool_calls a)
  | Other _ _ _ | User _ _ => (results, result ++ [message])
  end.

Fixpoint emit (s : Collected) (i : nat) (messages : list Message) (st : gmap jstring (list ResultEntry) * list Message) : list Message :=
  match messages with
  | [] => st.2
  | message :: messages => emit s (S i) messages (emit_message s i message st)
  end.

Definition pair_results (transformed : list Message) : list Message :=
  let s := collect 0 transformed (mkCollected ∅ ∅ ∅) in
  emit s 0 transformed (toolResultsById s, []).

Definition transformMessages (messages : list Given) : list Message :=
  pair_results (first_pass (downgradeUnsupportedImages (normalized_content <$> messages)) ∅).
End Transform.
