(* ===== verification/ReplayCorrect.v ===== *)
(** * A replayed history is well-formed

[pairs] says, as a relation on what is left of the history, which result goes with
which call; the index tables and consumed marks of the source implement it.  Its
consequences: every call is answered at once, nothing but results moves, nothing is
repeated, and pairing again changes nothing. *)
From S2P Require Import Prelude JsString JsNumber Json Messages ReplayMessages.

(** ** The specification of the second pass *)

Definition kept (a : AssistantMessage) : bool := negb (isFailedStop (am_stop a)).

Definition calls_id (id : jstring) (a : AssistantMessage) : bool := existsb (fun c => bool_decide (tc_id c = id)) (tool_calls a).

(** A message that declares the call [id] in a turn that is kept, or in one that failed. *)
Definition declares (id : jstring) (m : Message) : bool := match m with Assistant a => kept a && calls_id id a | _ => false end.
Definition declared_failed (id : jstring) (m : Message) : bool := match m with Assistant a => negb (kept a) && calls_id id a | _ => false end.

(** A result no call takes is kept unless only failed turns declare its call. *)
Definition orphan_kept (ms : list Message) (id : jstring) : bool := negb (existsb (declared_failed id) ms) || existsb (declares id) ms.

(** The first result for [id] before the next turn that declares [id] again, and the history without it. *)
Fixpoint take_result (id : jstring) (l : list Message) : option (ToolResultMessage * list Message) :=
  match l with
  | [] => None
  | m :: l =>
      if declares id m then None
      else match m with
           | ToolResult r => if bool_decide (toolCallId r = id) then Some (r, l) else (fun p => (p.1, m :: p.2)) <$> take_result id l
           | _ => (fun p => (p.1, m :: p.2)) <$> take_result id l
           end
  end.

Section Pairing.
Context (clock : nat -> num).

(** The results for the calls of a turn, taken from the history after it; the output holds [k] messages. *)
Inductive answers : nat -> list ToolCall -> list Message -> list ToolResultMessage -> list Message -> Prop :=
| answers_nil k l : answers k [] l [] l
| answers_found k c cs l r l1 rs l' :
    take_result (tc_id c) l = Some (r, l1) -> answers (S k) cs l1 rs l' -> answers k (c :: cs) l (r :: rs) l'
| answers_missing k c cs l rs l' :
    take_result (tc_id c) l = None -> answers (S k) cs l rs l' -> answers k (c :: cs) l (no_result c (clock k) :: rs) l'.

Definition passive (m : Message) : bool := match m with Other _ _ _ | User _ _ => true | _ => false end.

(** What is left of the history, and the output it gives after the [k] messages there are. *)
Inductive pairs (keep : jstring -> bool) : nat -> list Message -> list Message -> Prop :=
| pairs_nil k : pairs keep k [] []
| pairs_passive k m l out : passive m = true -> pairs keep (S k) l out -> pairs keep k (m :: l) (m :: out)
| pairs_orphan k r l out :
    keep (toolCallId r) = true -> pairs keep (S k) l out -> pairs keep k (ToolResult r :: l) (ToolResult r :: out)
| pairs_dropped k r l out : keep (toolCallId r) = false -> pairs keep k l out -> pairs keep k (ToolResult r :: l) out
| pairs_failed k a l out : kept a = false -> pairs keep k l out -> pairs keep k (Assistant a :: l) out
| pairs_turn k a l rs l' out :
    kept a = true -> answers (S k) (tool_calls a) l rs l' -> pairs keep (S k + length rs) l' out ->
    pairs keep k (Assistant a :: l) (Assistant a :: (ToolResult <$> rs) ++ out).

(** ** The tables of the source *)

Fixpoint entries (id : jstring) (C : gset nat) (k : nat) (l : list Message) : list ResultEntry :=
  match l with
  | [] => []
  | ToolResult r :: l =>
      (if bool_decide (toolCallId r = id) then [mkEntry r k (bool_decide (k ∈ C))] else []) ++ entries id C (S k) l
  | _ :: l => entries id C (S k) l
  end.

Definition turn_decls (id : jstring) (k : nat) (m : Message) : list nat :=
  match m with
  | Assistant a => if kept a then (fun _ => k) <$> List.filter (fun c => bool_decide (tc_id c = id)) (tool_calls a) else []
  | _ => []
  end.

Fixpoint decls (id : jstring) (k : nat) (l : list Message) : list nat :=
  match l with [] => [] | m :: l => turn_decls id k m ++ decls id (S k) l end.

(** The messages not consumed yet. *)
Fixpoint remaining (C : gset nat) (k : nat) (l : list Message) : list Message :=
  match l with [] => [] | m :: l => (if bool_decide (k ∈ C) then [] else [m]) ++ remaining C (S k) l end.

Lemma entries_app id C k l l' : entries id C k (l ++ l') = entries id C k l ++ entries id C (k + length l) l'.
Proof.
  revert k. induction l as [| m l IH]; intros k; cbn [app length]; [by rewrite Nat.add_0_r |].
  destruct m; cbn [entries]; rewrite IH, ?Nat.add_succ_r; [done .. |]. by rewrite app_assoc.
Qed.

Lemma decls_app id k l l' : decls id k (l ++ l') = decls id k l ++ decls id (k + length l) l'.
Proof.
  revert k. induction l as [| m l IH]; intros k; cbn [app length decls]; [by rewrite Nat.add_0_r |].
  by rewrite IH, Nat.add_succ_r, <- app_assoc.
Qed.

Lemma entries_range id C k l e : e ∈ entries id C k l -> (k <= sourceIndex e < k + length l)%nat.
Proof.
  revert k. induction l as [| m l IH]; intros k; cbn [entries length]; [by intros ?%not_elem_of_nil |].
  intros H. assert (e ∈ entries id C (S k) l \/ sourceIndex e = k) as [H' | ->]; [| apply IH in H'; lia | lia].
  destruct m; [by left .. |]. apply elem_of_app in H as [H | ?]; [| by left].
  case_bool_decide; [| by apply not_elem_of_nil in H]. apply list_elem_of_singleton in H as ->. by right.
Qed.

Lemma decls_range id k l j : j ∈ decls id k l -> (k <= j < k + length l)%nat.
Proof.
  revert k. induction l as [| m l IH]; intros k; cbn [decls length]; [by intros ?%not_elem_of_nil |].
  intros [H | H]%elem_of_app; [| apply IH in H; lia].
  assert (j = k) as ->; [| lia]. unfold turn_decls in H. destruct m; try by apply not_elem_of_nil in H.
  destruct (kept a); [| by apply not_elem_of_nil in H]. by apply list_elem_of_fmap in H as (? & -> & ?).
Qed.

Lemma turn_decls_declares id k m : turn_decls id k m = [] <-> declares id m = false.
Proof.
  destruct m; cbn; try done. destruct (kept a); [| done]. cbn. unfold calls_id.
  induction (tool_calls a) as [| c cs IH]; cbn; [done |]. by case_bool_decide.
Qed.


Lemma find_None {A} (f : A -> bool) l : (forall x, x ∈ l -> f x = false) -> List.find f l = None.
Proof. induction l as [| x l IH]; intros H; cbn; [done |]. rewrite (H x) by left. apply IH. intros. apply H. by right. Qed.

Lemma find_app {A} (f : A -> bool) l l' : List.find f (l ++ l') = match List.find f l with Some x => Some x | None => List.find f l' end.
Proof. induction l as [| x l IH]; cbn; [done |]. by destruct (f x). Qed.

Lemma find_head {A} (f : A -> bool) l : (forall x, x ∈ l -> f x = true) -> List.find f l = head l.
Proof. destruct l as [| x l]; [done |]. cbn. intros H. by rewrite (H x) by left. Qed.

Definition only_results (C : gset nat) (k : nat) (l : list Message) : Prop :=
  forall j m, l !! j = Some m -> (k + j)%nat ∈ C -> exists r, m = ToolResult r.

Lemma only_results_tail C k m l : only_results C k (m :: l) -> only_results C (S k) l.
Proof. intros H j m' Hj HC. apply (H (S j) m' Hj). by rewrite Nat.add_succ_r. Qed.

Lemma remaining_ext C C' k l : (forall j, (k <= j)%nat -> j ∈ C <-> j ∈ C') -> remaining C k l = remaining C' k l.
Proof.
  revert k. induction l as [| m l IH]; intros k H; cbn [remaining]; [done |]. f_equal.
  - by rewrite (bool_decide_ext _ _ (H k (le_n k))).
  - apply IH. intros. apply H. lia.
Qed.

Lemma head_decls_cons id k m l : head (decls id k (m :: l)) = if declares id m then Some k else head (decls id (S k) l).
Proof.
  cbn [decls]. destruct (declares id m) eqn:E; [| by apply (turn_decls_declares id k) in E as ->].
  destruct (turn_decls id k m) as [| j js] eqn:Et; [apply turn_decls_declares in Et; congruence |].
  assert (Hj : j ∈ decls id k [m]) by (cbn; rewrite Et; by left). apply decls_range in Hj. cbn in *. f_equal. lia.
Qed.

(** The search of the source among the entries finds what the specification takes. *)
Lemma find_take id C i k l :
  (i < k)%nat -> only_results C k l ->
  match take_result id (remaining C k l) with
  | None => List.find (eligible i (head (decls id k l))) (entries id C k l) = None
  | Some (r, l') => exists j, List.find (eligible i (head (decls id k l))) (entries id C k l) = Some (mkEntry r j false) /\
      (k <= j)%nat /\ l !! (j - k)%nat = Some (ToolResult r) /\ toolCallId r = id /\ l' = remaining ({[j]} ∪ C) k l
  end.
Proof.
  revert k. induction l as [| m l IH]; intros k Hi HC; [done |].
  specialize (IH (S k) ltac:(lia) (only_results_tail _ _ _ _ HC)). rewrite head_decls_cons. cbn [remaining].
  destruct (declares id m) eqn:Ed.
  - rewrite bool_decide_eq_false_2. 2:{ intros Hk. destruct (HC 0%nat m eq_refl) as [r ->]; [by rewrite Nat.add_0_r | done]. }
    cbn [app take_result]. rewrite Ed. apply find_None. intros e He. apply entries_range in He. unfold eligible.
    rewrite (proj2 (Nat.ltb_ge (sourceIndex e) k)) by (cbn in He; lia). by rewrite andb_false_r.
  - assert (Hnext : forall e, sourceIndex e = k -> consumed e = false -> eligible i (head (decls id (S k) l)) e = true).
    { intros e He Hc. unfold eligible. rewrite Hc, He, (proj2 (Nat.ltb_lt i k) Hi). destruct (head _) as [next |] eqn:Eh; [| done].
      apply head_Some_elem_of, decls_range in Eh. apply Nat.ltb_lt. lia. }
    assert (Hskip : forall x b, take_result id (remaining C (S k) l) = x ->
      (k ∈ C <-> b = true) -> (b = false -> take_result id (m :: remaining C (S k) l) = (fun p => (p.1, m :: p.2)) <$> x) ->
      List.find (eligible i (head (decls id (S k) l))) (entries id C k (m :: l)) =
        List.find (eligible i (head (decls id (S k) l))) (entries id C (S k) l) ->
      match take_result id ((if b then [] else [m]) ++ remaining C (S k) l) with
      | None => List.find (eligible i (head (decls id (S k) l))) (entries id C k (m :: l)) = None
      | Some (r, l') => exists j, List.find (eligible i (head (decls id (S k) l))) (entries id C k (m :: l)) = Some (mkEntry r j false) /\
          (k <= j)%nat /\ (m :: l) !! (j - k)%nat = Some (ToolResult r) /\ toolCallId r = id /\
          l' = (if bool_decide (k ∈ ({[j]} : gset nat) ∪ C) then [] else [m]) ++ remaining ({[j]} ∪ C) (S k) l
      end).
    { intros x b Hx Hb Ht Hf. rewrite Hf. rewrite Hx in IH. destruct b; cbn [app]; [rewrite Hx | rewrite Ht by done];
        destruct x as [[r l'] |]; cbn; try done; destruct IH as (j & Hj & Hk & Hl & Hid & ->); exists j;
        (split_and!; [done | lia | replace (j - k)%nat with (S (j - S k)) by lia; done | done |]).
      - rewrite bool_decide_eq_true_2; [done |]. apply elem_of_union_r. by apply Hb.
      - rewrite bool_decide_eq_false_2; [done |]. intros [->%elem_of_singleton | HkC]%elem_of_union; [lia |]. apply Hb in HkC. done. }
    specialize (Hskip _ (bool_decide (k ∈ C)) eq_refl (iff_sym (bool_decide_eq_true _))).
    destruct (decide (k ∈ C)) as [HkC | HkC].
    + apply Hskip; [by rewrite bool_decide_eq_true_2 |]. destruct m; cbn [entries]; try done.
      rewrite (bool_decide_eq_true_2 (k ∈ C) HkC). destruct (bool_decide (toolCallId r = id)); cbn [app List.find]; [| done]. unfold eligible at 1. cbn. done.
    + destruct m as [| | | r]; [apply Hskip; [intros _; cbn [take_result]; by rewrite Ed | done] .. |].
      destruct (decide (toolCallId r = id)) as [Hid | Hid].
      * rewrite (bool_decide_eq_false_2 _ HkC). cbn. rewrite bool_decide_eq_true_2 by done. exists k.
        cbn. rewrite (bool_decide_eq_false_2 (k ∈ C)), Hnext by done. rewrite Nat.sub_diag, bool_decide_eq_true_2 by set_solver.
        split_and!; [done | lia | done | done |]. cbn. apply remaining_ext. set_solver by lia.
      * apply Hskip; [intros _; cbn; by rewrite bool_decide_eq_false_2 |]. cbn. by rewrite bool_decide_eq_false_2.
Qed.

(** ** Collecting *)

Lemma get_push {A} (m : gmap jstring (list A)) k x k' :
  get_list (push_list m k x) k' = get_list m k' ++ (if bool_decide (k = k') then [x] else []).
Proof.
  unfold push_list, get_list. case_bool_decide as H; [subst; by rewrite lookup_insert_eq |].
  by rewrite lookup_insert_ne, app_nil_r.
Qed.

Lemma get_pushes (i : nat) (cs : list ToolCall) (m : gmap jstring (list nat)) id :
  get_list (foldl (fun m c => push_list m (tc_id c) i) m cs) id =
  get_list m id ++ ((fun _ => i) <$> List.filter (fun c => bool_decide (tc_id c = id)) cs).
Proof.
  revert m. induction cs as [| c cs IH]; intros m; cbn [foldl List.filter]; [by rewrite app_nil_r |].
  rewrite IH, get_push, <- app_assoc. by case_bool_decide.
Qed.

(** A list is only made to hold something. *)
Definition no_empty {A} (m : gmap jstring (list A)) : Prop := forall k, m !! k <> Some [].

Lemma no_empty_push {A} (m : gmap jstring (list A)) k x : no_empty m -> no_empty (push_list m k x).
Proof.
  intros H k'. unfold push_list. destruct (decide (k = k')) as [<- | Hk]; [| by rewrite lookup_insert_ne].
  rewrite lookup_insert_eq. intros [= E]. by apply app_eq_nil in E as [_ ?].
Qed.

Lemma no_empty_is_Some {A} (m : gmap jstring (list A)) k : no_empty m -> is_Some (m !! k) <-> get_list m k <> [].
Proof.
  intros H. unfold get_list. specialize (H k). destruct (m !! k) as [l |]; cbn; split; try done.
  intros _ ->. done.
Qed.

Lemma collect_results id i ms s :
  get_list (toolResultsById (collect i ms s)) id = get_list (toolResultsById s) id ++ entries id ∅ i ms.
Proof.
  revert i s. induction ms as [| m ms IH]; intros i s; cbn [collect]; [by rewrite app_nil_r |].
  rewrite IH. destruct m as [| | a | r]; cbn; [done .. | by destruct (isFailedStop (am_stop a)) |].
  rewrite get_push, <- app_assoc. by rewrite (bool_decide_eq_false_2 (i ∈ (∅ : gset nat))) by set_solver.
Qed.

Lemma collect_decls id i ms s :
  get_list (nextToolCallIndexById (collect i ms s)) id = get_list (nextToolCallIndexById s) id ++ decls id i ms.
Proof.
  revert i s. induction ms as [| m ms IH]; intros i s; cbn [collect decls]; [by rewrite app_nil_r |].
  rewrite IH. destruct m as [| | a | r]; cbn; [done .. | | done]. unfold kept.
  destruct (isFailedStop (am_stop a)); cbn; [done |]. by rewrite get_pushes, <- app_assoc.
Qed.

Lemma collect_no_empty i ms s : no_empty (nextToolCallIndexById s) -> no_empty (nextToolCallIndexById (collect i ms s)).
Proof.
  revert i s. induction ms as [| m ms IH]; intros i s H; cbn [collect]; [done |]. apply IH.
  destruct m as [| | a | r]; cbn; [done .. | | done]. destruct (isFailedStop (am_stop a)); cbn; [done |].
  generalize dependent (nextToolCallIndexById s). induction (tool_calls a) as [| c cs IHc]; intros t Ht; [done |].
  cbn. by apply IHc, no_empty_push.
Qed.

Lemma collect_dropped id i ms s :
  id ∈ droppedCallIds (collect i ms s) <-> id ∈ droppedCallIds s \/ existsb (declared_failed id) ms = true.
Proof.
  revert i s. induction ms as [| m ms IH]; intros i s; cbn [collect existsb]; [naive_solver |].
  rewrite IH, orb_true_iff. destruct m as [| | a | r]; cbn; [naive_solver .. | | naive_solver]. unfold kept.
  destruct (isFailedStop (am_stop a)); cbn; [| naive_solver].
  assert (H : forall cs D, id ∈ foldl (fun ids c => {[tc_id c]} ∪ ids) D cs <-> id ∈ (D : gset jstring) \/ existsb (fun c => bool_decide (tc_id c = id)) cs = true).
  { induction cs as [| c cs IHc]; intros D; cbn [foldl existsb]; [naive_solver |]. rewrite IHc, orb_true_iff, bool_decide_eq_true. set_solver. }
  rewrite H. unfold calls_id. tauto.
Qed.

Lemma decls_declares id k l : decls id k l <> [] <-> existsb (declares id) l = true.
Proof.
  revert k. induction l as [| m l IH]; intros k; cbn [decls existsb]; [done |]. rewrite orb_true_iff, <- (IH (S k)).
  pose proof (turn_decls_declares id k m) as Ht. destruct (turn_decls id k m) as [| j js]; cbn.
  - rewrite (proj1 Ht eq_refl). naive_solver.
  - split; [| done]. intros _. left. apply not_false_iff_true. intros E. by apply Ht in E.
Qed.

Definition tables (ms : list Message) : Collected := collect 0 ms (mkCollected ∅ ∅ ∅).

Lemma tables_decls ms id : get_list (nextToolCallIndexById (tables ms)) id = decls id 0 ms.
Proof. unfold tables. by rewrite collect_decls. Qed.

Lemma tables_kept ms id :
  negb (bool_decide (id ∈ droppedCallIds (tables ms))) || bool_decide (is_Some (nextToolCallIndexById (tables ms) !! id)) = orphan_kept ms id.
Proof.
  unfold orphan_kept, tables. f_equal.
  - f_equal. apply Bool.eq_iff_eq_true. rewrite bool_decide_eq_true, collect_dropped. set_solver.
  - apply Bool.eq_iff_eq_true. rewrite bool_decide_eq_true, no_empty_is_Some by (by apply collect_no_empty; intros k).
    rewrite collect_decls. apply decls_declares.
Qed.

(** ** Emitting *)

Lemma entries_consume id j C k l :
  (fun e => if Nat.eqb (sourceIndex e) j then mkEntry (e_message e) (sourceIndex e) true else e) <$> entries id C k l =
  entries id ({[j]} ∪ C) k l.
Proof.
  revert k. induction l as [| m l IH]; intros k; [done |]. destruct m as [| | | r]; cbn [entries]; [apply IH .. |].
  rewrite fmap_app, IH. f_equal. destruct (bool_decide (toolCallId r = id)); [| done]. cbn. destruct (Nat.eqb_spec k j) as [-> | Hk].
  - by rewrite bool_decide_eq_true_2 by set_solver.
  - by rewrite (bool_decide_ext (k ∈ ({[j]} : gset nat) ∪ C) (k ∈ C)) by set_solver.
Qed.

Lemma entries_other id j C k l :
  (forall r, (k <= j)%nat -> l !! (j - k)%nat = Some (ToolResult r) -> toolCallId r <> id) ->
  entries id ({[j]} ∪ C) k l = entries id C k l.
Proof.
  revert k. induction l as [| m l IH]; intros k H; [done |].
  assert (IH' : entries id ({[j]} ∪ C) (S k) l = entries id C (S k) l).
  { apply IH. intros r Hk Hl. apply H; [lia |]. by replace (j - k)%nat with (S (j - S k)) by lia. }
  destruct m as [| | | r]; cbn [entries]; [done .. |]. rewrite IH'. f_equal. case_bool_decide as Hr; [| done].
  rewrite (bool_decide_ext (k ∈ ({[j]} : gset nat) ∪ C) (k ∈ C)); [done |]. split; [| set_solver].
  intros [->%elem_of_singleton | ?]%elem_of_union; [| done]. by destruct (H r (le_n j)); [rewrite Nat.sub_diag |].
Qed.

Definition holds (ms : list Message) (R : gmap jstring (list ResultEntry)) (C : gset nat) : Prop :=
  only_results C 0 ms /\ forall id, get_list R id = entries id C 0 ms.

Lemma holds_consume ms R C j r :
  holds ms R C -> ms !! j = Some (ToolResult r) -> holds ms (consume (toolCallId r) j R) ({[j]} ∪ C).
Proof.
  intros [HC HR] Hj. split.
  - intros i m Hi. cbn. intros [Hij%elem_of_singleton | H]%elem_of_union; [exists r; congruence | by apply (HC i)].
  - intros id. unfold consume, get_list. destruct (decide (toolCallId r = id)) as [<- | Hid].
    + rewrite lookup_alter_eq, <- entries_consume, <- HR. unfold get_list. by destruct (R !! toolCallId r).
    + rewrite lookup_alter_ne by done. rewrite entries_other; [apply HR |]. intros r' _ Hr'. rewrite Nat.sub_0_r in Hr'. congruence.
Qed.

Lemma only_results_app C k l l' : only_results C k (l ++ l') -> only_results C (k + length l) l'.
Proof.
  intros H j m Hj HC. apply (H (length l + j)%nat); [by rewrite lookup_app_r, Nat.add_sub' by lia |]. by rewrite Nat.add_assoc.
Qed.

Section Emitting.
Context (ms pre suf : list Message) (m : Message) (Hms : ms = pre ++ m :: suf).
#[local] Notation i := (length pre).

Lemma suffix_results C : only_results C 0 ms -> only_results C (S i) suf.
Proof. intros H. rewrite Hms in H. by apply only_results_app, only_results_tail in H. Qed.

Lemma next_declaration id :
  List.find (fun index => (i <? index)%nat) (get_list (nextToolCallIndexById (tables ms)) id) = head (decls id (S i) suf).
Proof.
  rewrite tables_decls, Hms, (cons_middle m), app_assoc, decls_app, length_app, Nat.add_1_r, find_app. cbn [Nat.add].
  rewrite find_None; [apply find_head | ]; intros j Hj%decls_range; rewrite ?length_app in *; cbn in *;
    [apply Nat.ltb_lt | apply Nat.ltb_ge]; lia.
Qed.

Lemma find_eligible id C next :
  List.find (eligible i next) (entries id C 0 ms) = List.find (eligible i next) (entries id C (S i) suf).
Proof.
  rewrite Hms, (cons_middle m), app_assoc, entries_app, length_app, Nat.add_1_r, find_app. cbn [Nat.add].
  rewrite find_None; [done |]. intros e He%entries_range. unfold eligible.
  rewrite (proj2 (Nat.ltb_ge i (sourceIndex e))) by (rewrite length_app in He; cbn in He; lia). by rewrite andb_false_r.
Qed.

(** The result for one call: what the specification takes, or a substitute. *)
Lemma emit_call_spec c R C acc :
  holds ms R C ->
  exists R' C' r, emit_call clock (tables ms) i c (R, acc) = (R', acc ++ [ToolResult r]) /\ holds ms R' C' /\
    match take_result (tc_id c) (remaining C (S i) suf) with
    | Some (r', l') => r = r' /\ remaining C' (S i) suf = l'
    | None => r = no_result c (clock (length acc)) /\ remaining C' (S i) suf = remaining C (S i) suf
    end.
Proof.
  intros HR. pose proof (suffix_results C (proj1 HR)) as HC.
  pose proof (find_take (tc_id c) C i (S i) suf (Nat.lt_succ_diag_r _) HC) as Hf.
  unfold emit_call. rewrite next_declaration, (proj2 HR), find_eligible.
  destruct (take_result (tc_id c) (remaining C (S i) suf)) as [[r l'] |].
  - destruct Hf as (j & -> & Hj & Hl & Hid & ->). exists (consume (tc_id c) j R), ({[j]} ∪ C), r. cbn. split_and!; try done.
    rewrite <- Hid. apply holds_consume; [done |]. rewrite Hms, lookup_app_r by lia.
    replace (j - i)%nat with (S (j - S i)) by lia. done.
  - rewrite Hf. by exists R, C, (no_result c (clock (length acc))).
Qed.

Lemma emit_calls_spec cs R C acc :
  holds ms R C ->
  exists R' C' rs, foldl (fun st c => emit_call clock (tables ms) i c st) (R, acc) cs = (R', acc ++ (ToolResult <$> rs)) /\
    holds ms R' C' /\ answers (length acc) cs (remaining C (S i) suf) rs (remaining C' (S i) suf).
Proof.
  revert R C acc. induction cs as [| c cs IH]; intros R C acc HR; cbn [foldl].
  { exists R, C, []. cbn. rewrite app_nil_r. split_and!; [done .. | constructor]. }
  destruct (emit_call_spec c R C acc HR) as (R1 & C1 & r & -> & HR1 & Ht).
  destruct (IH R1 C1 (acc ++ [ToolResult r]) HR1) as (R2 & C2 & rs & -> & HR2 & Ha).
  exists R2, C2, (r :: rs). rewrite length_app, Nat.add_1_r in Ha. split_and!; [by rewrite <- app_assoc | done |].
  destruct (take_result _ _) as [[r' l'] |] eqn:Et; destruct Ht as [-> Hrem].
  - rewrite Hrem in Ha. by eapply answers_found.
  - rewrite Hrem in Ha. by eapply answers_missing.
Qed.

Lemma find_own r C : m = ToolResult r ->
  List.find (fun e => Nat.eqb (sourceIndex e) i) (entries (toolCallId r) C 0 ms) = Some (mkEntry r i (bool_decide (i ∈ C))).
Proof.
  intros ->. rewrite Hms, entries_app, find_app, find_None.
  - cbn. rewrite bool_decide_eq_true_2 by done. cbn. by rewrite Nat.eqb_refl.
  - intros e He%entries_range. apply Nat.eqb_neq. lia.
Qed.
End Emitting.

Lemma emit_pairs ms suf pre R C acc :
  ms = pre ++ suf -> holds ms R C ->
  exists out, emit clock (tables ms) (length pre) suf (R, acc) = acc ++ out /\
    pairs (orphan_kept ms) (length acc) (remaining C (length pre) suf) out.
Proof.
  revert pre R C acc. induction suf as [| m suf IH]; intros pre R C acc Hms HR; cbn [emit remaining].
  { exists []. cbn. rewrite app_nil_r. split; [done | constructor]. }
  specialize (IH (pre ++ [m])). rewrite length_app, Nat.add_1_r in IH.
  assert (Hms' : ms = (pre ++ [m]) ++ suf) by (by rewrite <- app_assoc).
  assert (Hnot : (forall r, m <> ToolResult r) -> length pre ∉ C).
  { intros Hm HC. destruct (proj1 HR (length pre) m) as [r Hr]; [by rewrite Hms, list_lookup_middle | done | by apply (Hm r)]. }
  assert (Hpush : passive m = true \/ (exists r, m = ToolResult r /\ orphan_kept ms (toolCallId r) = true) ->
    length pre ∉ C -> exists out, emit clock (tables ms) (S (length pre)) suf (R, acc ++ [m]) = acc ++ out /\
      pairs (orphan_kept ms) (length acc) ([m] ++ remaining C (S (length pre)) suf) out).
  { intros Hm _. destruct (IH R C (acc ++ [m]) Hms' HR) as (out & -> & Hp). exists (m :: out). split; [by rewrite <- app_assoc |].
    rewrite length_app, Nat.add_1_r in Hp. destruct Hm as [Hm | (r & -> & Hr)]; by constructor. }
  destruct m as [role content rest | content ts | a | r]; cbn [emit_message].
  1, 2: rewrite bool_decide_eq_false_2 by (by apply Hnot); apply Hpush; [by left | by apply Hnot].
  - rewrite bool_decide_eq_false_2 by (by apply Hnot). cbn [app]. destruct (isFailedStop (am_stop a)) eqn:Es.
    + destruct (IH R C acc Hms' HR) as (out & -> & Hp). exists out. split; [done |]. constructor; [| done]. unfold kept. by rewrite Es.
    + destruct (emit_calls_spec ms pre suf (Assistant a) Hms (tool_calls a) R C (acc ++ [Assistant a]) HR) as (R' & C' & rs & -> & HR' & Ha).
      destruct (IH R' C' ((acc ++ [Assistant a]) ++ (ToolResult <$> rs)) Hms' HR') as (out & -> & Hp). exists (Assistant a :: (ToolResult <$> rs) ++ out). split; [by rewrite <- !app_assoc |].
      rewrite !length_app, length_fmap, Nat.add_1_r in *. eapply pairs_turn; [unfold kept; by rewrite Es | exact Ha | exact Hp].
  - rewrite (proj2 HR), (find_own ms pre suf (ToolResult r) Hms r C eq_refl), tables_kept. case_bool_decide as HC; [apply (IH R C acc Hms' HR) |].
    destruct (orphan_kept ms (toolCallId r)) eqn:Ek; [apply Hpush; [right; by exists r | done] |].
    destruct (IH R C acc Hms' HR) as (out & -> & Hp). exists out. split; [done |]. by constructor.
Qed.

Lemma remaining_empty k l : remaining ∅ k l = l.
Proof. revert k. induction l as [| m l IH]; intros k; cbn [remaining]; [done |]. by rewrite IH, bool_decide_eq_false_2 by set_solver. Qed.

Lemma pair_results_pairs ms : pairs (orphan_kept ms) 0 ms (pair_results clock ms).
Proof.
  destruct (emit_pairs ms ms [] (toolResultsById (tables ms)) ∅ [] eq_refl) as (out & He & Hp).
  - split; [intros j m _ H; set_solver |]. intros id. unfold tables. by rewrite collect_results.
  - unfold pair_results. cbn in He. unfold tables in He. rewrite He. by rewrite remaining_empty in Hp.
Qed.

(** ** Every call is answered at once *)

(** A history in order: no failed turn, and the results of a turn right after it. *)
Inductive paired : list Message -> Prop :=
| paired_nil : paired []
| paired_passive m out : passive m = true -> paired out -> paired (m :: out)
| paired_stray r out : paired out -> paired (ToolResult r :: out)
| paired_turn a rs out :
    kept a = true -> Forall2 (fun c r => toolCallId r = tc_id c) (tool_calls a) rs -> paired out ->
    paired (Assistant a :: (ToolResult <$> rs) ++ out).

Lemma take_result_split id l r l' :
  take_result id l = Some (r, l') ->
  toolCallId r = id /\ exists x y, l = x ++ ToolResult r :: y /\ l' = x ++ y.
Proof.
  revert l'. induction l as [| m l IH]; intros l'; cbn; [done |]. destruct (declares id m); [done |].
  assert (Hcons : (fun p => (p.1, m :: p.2)) <$> take_result id l = Some (r, l') ->
    toolCallId r = id /\ exists x y, m :: l = x ++ ToolResult r :: y /\ l' = x ++ y).
  { destruct (take_result id l) as [[r0 l0] |]; cbn; [| done]. intros [= -> <-].
    destruct (IH l0 eq_refl) as (Hr & x & y & -> & ->). split; [done |]. by exists (m :: x), y. }
  destruct m as [| | | r0]; try exact Hcons. case_bool_decide as Hr; [| exact Hcons].
  intros [= <- <-]. split; [done |]. by exists [], l.
Qed.

Lemma answers_match k cs l rs l' : answers k cs l rs l' -> Forall2 (fun c r => toolCallId r = tc_id c) cs rs.
Proof.
  induction 1 as [| k c cs l r l1 rs l' Ht _ IH |]; constructor; try done. by apply take_result_split in Ht as [? _].
Qed.

Lemma pairs_paired keep k l out : pairs keep k l out -> paired out.
Proof.
  induction 1; try done; [constructor | by apply paired_passive | by apply paired_stray |].
  apply paired_turn; [done | by eapply answers_match | done].
Qed.

Lemma paired_at out i a :
  paired out -> out !! i = Some (Assistant a) ->
  kept a = true /\ forall j c, tool_calls a !! j = Some c -> exists r, out !! (S i + j)%nat = Some (ToolResult r) /\ toolCallId r = tc_id c.
Proof.
  intros H. revert i. induction H as [| m out Hm _ IH | r out _ IH | a' rs out Hk Hrs _ IH]; intros i Hi; [done | | |].
  - destruct i as [| i]; [cbn in Hi; simplify_eq; done | by apply (IH i)].
  - destruct i as [| i]; [done | by apply (IH i)].
  - destruct i as [| i].
    + cbn in Hi. simplify_eq. split; [done |]. intros j c Hj. destruct (Forall2_lookup_l _ _ _ _ _ Hrs Hj) as (r & Hr & ?). exists r.
      split; [| done]. change (((ToolResult <$> rs) ++ out) !! j = Some (ToolResult r)). rewrite lookup_app_l by (rewrite length_fmap; by eapply lookup_lt_Some). by rewrite list_lookup_fmap, Hr.
    + change (((ToolResult <$> rs) ++ out) !! i = Some (Assistant a)) in Hi. destruct (decide (i < length rs)%nat) as [Hlt | Hge].
      * rewrite lookup_app_l, list_lookup_fmap in Hi by (by rewrite length_fmap). by destruct (rs !! i).
      * rewrite lookup_app_r, length_fmap in Hi by (rewrite length_fmap; lia). destruct (IH _ Hi) as [? Hc]. split; [done |].
        intros j c Hj. destruct (Hc j c Hj) as (r & Hr & ?). exists r. split; [| done].
        change (((ToolResult <$> rs) ++ out) !! (S i + j)%nat = Some (ToolResult r)). rewrite lookup_app_r by (rewrite length_fmap; lia). rewrite <- Hr. f_equal. rewrite length_fmap. lia.
Qed.

(** ** Pairing again changes nothing *)

Lemma answers_det k cs l rs1 l1 rs2 l2 : answers k cs l rs1 l1 -> answers k cs l rs2 l2 -> rs1 = rs2 /\ l1 = l2.
Proof.
  intros H. revert rs2 l2. induction H; inversion 1; subst; simplify_eq; [done | |]; split; f_equal; naive_solver.
Qed.

Lemma pairs_det keep k l out1 out2 : pairs keep k l out1 -> pairs keep k l out2 -> out1 = out2.
Proof.
  intros H. revert out2. induction H as [| k m l out Hm _ IH | k r l out Hr _ IH | k r l out Hr _ IH | k a l out Ha _ IH | k a l rs l' out Ha Hrs _ IH];
    inversion 1; subst; simplify_eq; try done; try congruence; try (f_equal; by auto); try by auto.
  match goal with H : answers _ _ _ _ _ |- _ => destruct (answers_det _ _ _ _ _ _ _ Hrs H) as [-> ->] end. do 2 f_equal. by apply IH.
Qed.

Lemma answers_paired k cs rs out :
  Forall2 (fun c r => toolCallId r = tc_id c) cs rs -> answers k cs ((ToolResult <$> rs) ++ out) rs out.
Proof.
  intros H. revert k. induction H as [| c r cs rs Hr _ IH]; intros k; [constructor |].
  eapply answers_found; [| apply IH]. cbn. by rewrite bool_decide_eq_true_2.
Qed.

Lemma paired_pairs keep k out : paired out -> (forall r, ToolResult r ∈ out -> keep (toolCallId r) = true) -> pairs keep k out out.
Proof.
  intros H. revert k. induction H as [| m out Hm _ IH | r out _ IH | a rs out Hk Hrs _ IH]; intros k Hkeep; [constructor | | |].
  - constructor; [done |]. apply IH. intros. apply Hkeep. by right.
  - constructor; [apply Hkeep; by left |]. apply IH. intros. apply Hkeep. by right.
  - eapply pairs_turn; [done | by apply answers_paired |]. apply IH. intros r Hr. apply Hkeep. right. apply elem_of_app. by right.
Qed.

Lemma paired_kept out a : paired out -> Assistant a ∈ out -> kept a = true.
Proof. intros H [i Hi]%list_elem_of_lookup. by apply (paired_at out i a H Hi). Qed.

Lemma pair_results_fixed ms : paired ms -> pair_results clock ms = ms.
Proof.
  intros H. eapply pairs_det; [apply pair_results_pairs |]. apply paired_pairs; [done |]. intros r _.
  unfold orphan_kept. apply orb_true_iff. left. apply negb_true_iff, not_true_iff_false. intros Hf.
  apply List.existsb_exists in Hf as (m & Hm%list_elem_of_In & Hd). destruct m; try done.
  cbn in Hd. by rewrite (paired_kept ms a H Hm) in Hd.
Qed.

Lemma pair_results_paired ms : paired (pair_results clock ms).
Proof. eapply pairs_paired, pair_results_pairs. Qed.

(** ** Nothing is lost, repeated or moved but results *)

Definition result_of (m : Message) : option ToolResultMessage := match m with ToolResult r => Some r | _ => None end.

Definition results_of (l : list Message) : list ToolResultMessage := omap result_of l.

(** The messages that keep their order: everything but results and failed turns. *)
Definition steady (m : Message) : bool := match m with ToolResult _ => false | Assistant a => kept a | _ => true end.

Lemma steady_results rs : List.filter steady (ToolResult <$> rs) = [].
Proof. by induction rs. Qed.

Lemma results_of_results rs : results_of (ToolResult <$> rs) = rs.
Proof. unfold results_of. induction rs as [| r rs IH]; [done |]. cbn. by rewrite IH. Qed.

Lemma results_of_app l l' : results_of (l ++ l') = results_of l ++ results_of l'.
Proof. apply omap_app. Qed.

Lemma answers_steady k cs l rs l' : answers k cs l rs l' -> List.filter steady l' = List.filter steady l.
Proof.
  induction 1 as [| k c cs l r l1 rs l' Ht _ IH |]; [done | | done].
  rewrite IH. apply take_result_split in Ht as (_ & x & y & -> & ->). by rewrite !List.filter_app.
Qed.

Lemma pairs_steady keep k l out : pairs keep k l out -> List.filter steady out = List.filter steady l.
Proof.
  induction 1 as [| k m l out Hm _ IH | | | k a l out Ha _ IH | k a l rs l' out Ha Hrs _ IH]; cbn [List.filter]; try done.
  - rewrite IH. by destruct m.
  - cbn. by rewrite Ha.
  - cbn. rewrite Ha, List.filter_app, steady_results, IH. cbn. f_equal. by eapply answers_steady.
Qed.

(** The substitutes among the results of a turn, and what the turn took from the history. *)
Definition substitute (r : ToolResultMessage) : Prop := exists c n, r = no_result c (clock n).

Lemma answers_conserve k cs l rs l' :
  answers k cs l rs l' ->
  exists subs taken, rs ≡ₚ subs ++ taken /\ results_of l ≡ₚ taken ++ results_of l' /\ Forall substitute subs /\
    Forall (fun r => exists c, c ∈ cs /\ toolCallId r = tc_id c) taken.
Proof.
  induction 1 as [k l | k c cs l r l1 rs l' Ht _ (subs & taken & Hrs & Hl & Hs & Hc) | k c cs l rs l' Ht _ (subs & taken & Hrs & Hl & Hs & Hc)].
  - exists [], []. split_and!; [done .. | constructor | constructor].
  - exists subs, (r :: taken). apply take_result_split in Ht as (Hr & x & y & -> & ->). split_and!; [| | done |].
    + rewrite Hrs. by rewrite Permutation_middle.
    + rewrite results_of_app in *. change (results_of (ToolResult r :: y)) with (r :: results_of y).
      rewrite <- Permutation_middle. cbn. f_equiv. exact Hl.
    + constructor; [exists c; split; [by left | done] |]. eapply Forall_impl; [exact Hc |]. intros ? (c' & ? & ?). exists c'. split; [by right | done].
  - exists (no_result c (clock k) :: subs), taken. split_and!; [cbn; by f_equiv | done | |].
    + constructor; [by exists c, k | done].
    + eapply Forall_impl; [exact Hc |]. intros ? (c' & ? & ?). exists c'. split; [by right | done].
Qed.

Definition kept_result (keep : jstring -> bool) (r : ToolResultMessage) : bool := keep (toolCallId r).

Lemma filter_all {A} (f : A -> bool) l : Forall (fun x => f x = true) l -> List.filter f l = l.
Proof. induction 1 as [| x l Hx _ IH]; [done |]. cbn. by rewrite Hx, IH. Qed.

Lemma filter_bool_perm {A} (f : A -> bool) l l' : l ≡ₚ l' -> List.filter f l ≡ₚ List.filter f l'.
Proof.
  induction 1 as [| x l l' _ IH | x y l | l1 l2 l3 _ IH1 _ IH2]; cbn; [done | | | by rewrite IH1].
  - destruct (f x); [by f_equiv | done].
  - destruct (f x), (f y); try done. constructor.
Qed.

Lemma pairs_conserve keep k l out :
  pairs keep k l out -> (forall m id, m ∈ l -> declares id m = true -> keep id = true) ->
  exists subs, results_of out ≡ₚ subs ++ List.filter (kept_result keep) (results_of l) /\ Forall substitute subs.
Proof.
  induction 1 as [| k m l out Hm _ IH | k r l out Hr _ IH | k r l out Hr _ IH | k a l out Ha _ IH | k a l rs l' out Ha Hrs _ IH]; intros Hkeep;
    [by exists [] | | | | |]; try (destruct IH as (subs & Hp & Hs); [intros m' id Hm'; apply Hkeep; by right |]).
  - exists subs. split; [| done]. by destruct m.
  - exists subs. split; [| done]. change (results_of (ToolResult r :: ?x)) with (r :: results_of x). cbn. unfold kept_result at 1. rewrite Hr, Hp.
    apply Permutation_middle.
  - exists subs. split; [| done]. cbn. unfold kept_result at 1. by rewrite Hr.
  - by exists subs.
  - destruct (answers_conserve _ _ _ _ _ Hrs) as (subs & taken & Hp & Hl & Hs & Hc).
    assert (Htaken : List.filter (kept_result keep) taken = taken).
    { apply filter_all. eapply Forall_impl; [exact Hc |]. intros r (c & Hcin & Hr). unfold kept_result.
      apply (Hkeep (Assistant a)); [by left |]. cbn. rewrite Ha. apply List.existsb_exists. exists c.
      split; [by apply list_elem_of_In | by rewrite bool_decide_eq_true_2]. }
    destruct IH as (subs' & Hp' & Hs').
    { intros m id Hm Hd. apply (Hkeep m id); [right | done]. pose proof (answers_steady _ _ _ _ _ Hrs) as Hst.
      assert (m ∈ List.filter steady l') as Hin.
      { apply elem_of_filter_bool. split; [done |]. destruct m; try done. cbn in *. by destruct (kept a0). }
      rewrite Hst in Hin. by apply elem_of_filter_bool in Hin as [? _]. }
    exists (subs ++ subs'). split; [| by apply Forall_app].
    change (results_of (Assistant a :: ?x)) with (results_of x). rewrite results_of_app, results_of_results, Hp, Hp'.
    rewrite (filter_bool_perm _ _ _ Hl), List.filter_app, Htaken, <- !app_assoc. f_equiv. rewrite !app_assoc. f_equiv. apply Permutation_app_comm.
Qed.

(** ** A call gets the first result for its id *)

(** The messages that have to do with the id. *)
Definition mentions (id : jstring) (m : Message) : bool :=
  match m with Assistant a => calls_id id a | ToolResult r => bool_decide (toolCallId r = id) | _ => false end.

Lemma take_result_first id l r rest :
  List.filter (mentions id) l = ToolResult r :: rest -> exists l', take_result id l = Some (r, l').
Proof.
  induction l as [| m l IH]; cbn; [done |]. intros H.
  assert (Hpass : mentions id m = false -> List.filter (mentions id) l = ToolResult r :: rest) by (intros E; by rewrite E in H).
  destruct m as [| | a | r']; cbn in *; [| | | case_bool_decide; [injection H as -> _; by eexists | ]].
  3: destruct (calls_id id a); [done |]; rewrite andb_false_r.
  all: destruct IH as [l' ->]; [done | by eexists].
Qed.

Lemma take_result_other id id' l r l' :
  take_result id' l = Some (r, l') -> id' <> id -> List.filter (mentions id) l' = List.filter (mentions id) l.
Proof.
  intros (Hr & x & y & -> & ->)%take_result_split Hid. rewrite !List.filter_app. cbn. rewrite bool_decide_eq_false_2; [done | congruence].
Qed.

Lemma answers_other id k cs l rs l' :
  answers k cs l rs l' -> (forall c, c ∈ cs -> tc_id c <> id) -> List.filter (mentions id) l' = List.filter (mentions id) l.
Proof.
  induction 1 as [| k c cs l r l1 rs l' Ht _ IH | k c cs l rs l' _ _ IH]; intros Hid; [done | |].
  - rewrite IH by (intros; apply Hid; by right). eapply take_result_other; [exact Ht |]. apply Hid. by left.
  - apply IH. intros. apply Hid. by right.
Qed.

Lemma answers_nth k cs l rs l' n c r rest :
  answers k cs l rs l' -> cs !! n = Some c -> (forall n' c', cs !! n' = Some c' -> tc_id c' = tc_id c -> n' = n) ->
  List.filter (mentions (tc_id c)) l = ToolResult r :: rest -> rs !! n = Some r.
Proof.
  intros H. revert n. induction H as [| k c0 cs l r0 l1 rs l' Ht _ IH | k c0 cs l rs l' Ht _ IH]; intros n Hn Huniq Hl; [done | |].
  - destruct n as [| n]; [cbn in Hn; simplify_eq; destruct (take_result_first _ _ _ _ Hl) as [? ?]; simplify_eq; done |].
    apply (IH n Hn); [intros n' c' Hn' Hc'; by injection (Huniq (S n') c' Hn' Hc') |].
    rewrite <- Hl. eapply take_result_other; [exact Ht |]. intros Hc0. by discriminate (Huniq 0%nat c0 eq_refl Hc0).
  - destruct n as [| n]; [cbn in Hn; simplify_eq; destruct (take_result_first _ _ _ _ Hl) as [? ?]; simplify_eq; done |].
    apply (IH n Hn); [intros n' c' Hn' Hc'; by injection (Huniq (S n') c' Hn' Hc') | done].
Qed.

Lemma calls_id_false id a : calls_id id a = false -> forall c, c ∈ tool_calls a -> tc_id c <> id.
Proof.
  intros H c Hc E. apply not_true_iff_false in H. apply H. apply List.existsb_exists. exists c.
  split; [by apply list_elem_of_In | by rewrite bool_decide_eq_true_2].
Qed.

Lemma calls_id_true id a n c : tool_calls a !! n = Some c -> tc_id c = id -> calls_id id a = true.
Proof.
  intros Hn <-. apply List.existsb_exists. exists c. split; [apply list_elem_of_In; by eapply list_elem_of_lookup_2 | by rewrite bool_decide_eq_true_2].
Qed.

Lemma pairs_answer keep k l out a n c r rest :
  pairs keep k l out -> kept a = true -> tool_calls a !! n = Some c ->
  (forall n' c', tool_calls a !! n' = Some c' -> tc_id c' = tc_id c -> n' = n) ->
  List.filter (mentions (tc_id c)) l = Assistant a :: ToolResult r :: rest ->
  exists p, out !! p = Some (Assistant a) /\ out !! (S p + n)%nat = Some (ToolResult r).
Proof.
  intros H Ha Hn Huniq. pose proof (calls_id_true _ a n c Hn eq_refl) as Hcalls.
  assert (Hskip : forall x out, (exists p, out !! p = Some (Assistant a) /\ out !! (S p + n)%nat = Some (ToolResult r)) ->
    exists p, (x ++ out) !! p = Some (Assistant a) /\ (x ++ out) !! (S p + n)%nat = Some (ToolResult r)).
  { intros x o (p & H1 & H2). exists (length x + p)%nat. rewrite !lookup_app_r by lia. rewrite <- H1, <- H2. split; f_equal; lia. }
  induction H as [| k m l out Hm _ IH | k r0 l out Hr _ IH | k r0 l out Hr _ IH | k a0 l out Ha0 _ IH | k a0 l rs l' out Ha0 Hrs _ IH];
    cbn [List.filter]; intros Hl; [done | | | | |].
  - apply (Hskip [m]), IH. by destruct m.
  - apply (Hskip [ToolResult r0]), IH. cbn in Hl. by case_bool_decide.
  - apply IH. cbn in Hl. by case_bool_decide.
  - apply IH. cbn in Hl. destruct (calls_id (tc_id c) a0); [| done]. injection Hl as -> _. congruence.
  - cbn in Hl. destruct (calls_id (tc_id c) a0) eqn:Ec.
    + injection Hl as -> Hl. exists 0%nat. split; [done |]. change (((ToolResult <$> rs) ++ out) !! n = Some (ToolResult r)).
      apply lookup_app_l_Some. rewrite list_lookup_fmap. by rewrite (answers_nth _ _ _ _ _ _ _ _ _ Hrs Hn Huniq Hl).
    + apply (Hskip (Assistant a0 :: (ToolResult <$> rs))), IH. rewrite <- Hl. eapply answers_other; [exact Hrs |]. by apply calls_id_false.
Qed.

(** ** What holds of the history and of substitutes holds of the output *)

Lemma answers_Forall (P : Message -> Prop) k cs l rs l' :
  answers k cs l rs l' -> (forall c n, P (ToolResult (no_result c (clock n)))) -> Forall P l -> Forall P (ToolResult <$> rs) /\ Forall P l'.
Proof.
  intros H HP. induction H as [| k c cs l r l1 rs l' Ht _ IH | k c cs l rs l' _ _ IH]; intros Hl; [by split; [constructor |] | |].
  - apply take_result_split in Ht as (_ & x & y & -> & ->). apply Forall_app in Hl as [Hx Hy]. inversion Hy; subst.
    destruct IH as [? ?]; [by apply Forall_app |]. split; [| done]. rewrite fmap_cons. by constructor.
  - destruct (IH Hl) as [? ?]. split; [| done]. rewrite fmap_cons. by constructor.
Qed.

Lemma pairs_Forall (P : Message -> Prop) keep k l out :
  pairs keep k l out -> (forall c n, P (ToolResult (no_result c (clock n)))) -> Forall P l -> Forall P out.
Proof.
  intros H HP. induction H as [| | | | | k a l rs l' out Ha Hrs _ IH]; intros Hl; try (inversion Hl; subst); try done; try (constructor; auto); auto.
  destruct (answers_Forall P _ _ _ _ _ Hrs HP) as [? ?]; [done |]. apply Forall_app; auto.
Qed.
End Pairing.
