(* ===== verification/ReplayRuns.v ===== *)
(** * What a model is sent of a history

The properties of [transformMessages] whole: every call of every turn is answered at
once, nothing is lost or repeated, a call gets the result the history has for it under
its new id, and no media the model cannot take are left. *)
From S2P Require Import Prelude JsString JsNumber Json Messages ToolCallId ReplayMessages ReplayCorrect.
#[local] Open Scope Z_scope.

Section Replay.
Context (model : Model) (normalize : option (jstring -> Model -> AssistantMessage -> jstring)) (options : TransformMessagesOptions).
Context (clock : nat -> num).

#[local] Notation transform_call := (transform_call model normalize options).
#[local] Notation transform_blocks := (transform_blocks model normalize options).
#[local] Notation first_pass := (first_pass model normalize options).
#[local] Notation transformMessages := (transformMessages model normalize options clock).

(** The history as the second pass gets it. *)
Definition rewritten (messages : list Given) : list Message :=
  first_pass (downgradeUnsupportedImages model (normalized_content <$> messages)) ∅.

(** ** The first pass *)

Definition new_call (a : AssistantMessage) (c : ToolCall) : ToolCall := (transform_call a c ∅).1.
Definition new_id (a : AssistantMessage) (c : ToolCall) : jstring := tc_id (new_call a c).

(** What a call adds to the map. *)
Definition remember (a : AssistantMessage) (ids : gmap jstring jstring) (c : ToolCall) : gmap jstring jstring :=
  if bool_decide (new_id a c = tc_id c) then ids else <[tc_id c := new_id a c]> ids.

Lemma transform_call_eq a c ids : transform_call a c ids = (new_call a c, remember a ids c).
Proof.
  unfold remember, new_id, new_call, ReplayMessages.transform_call.
  set (c' := match thoughtSignature c with Some (_ :: _) => _ | _ => c end).
  assert (Hid : tc_id c' = tc_id c) by (unfold c'; by repeat case_match). clearbody c'.
  destruct normalize as [f |]; cbn; [| by rewrite Hid, bool_decide_eq_true_2].
  destruct (negb _ || _); cbn; [| by rewrite Hid, bool_decide_eq_true_2].
  case_bool_decide; cbn; [by rewrite Hid, bool_decide_eq_true_2 | by rewrite bool_decide_eq_false_2].
Qed.

Definition block_call (b : AssistantBlock) : option ToolCall := match b with ACall c => Some c | _ => None end.

Lemma thinking_no_call a t : omap block_call (transform_thinking model options a t) = [].
Proof. unfold transform_thinking. by repeat case_match. Qed.

Lemma transform_blocks_calls a content ids :
  omap block_call (transform_blocks a content ids).1 = new_call a <$> omap block_call content /\
  (transform_blocks a content ids).2 = foldl (remember a) ids (omap block_call content).
Proof.
  revert ids. induction content as [| b content IH]; intros ids; cbn [ReplayMessages.transform_blocks]; [done |].
  destruct b as [t | t | c | raw]; rewrite ?transform_call_eq.
  3: specialize (IH (remember a ids c)). 1, 2, 4: specialize (IH ids).
  all: destruct (transform_blocks a content _) as [rest ids']; destruct IH as [Hc Hi]; cbn [fst snd] in *; rewrite omap_app, Hc, Hi.
  - split; [| done]. unfold transform_text. by case_match.
  - by rewrite thinking_no_call.
  - done.
  - done.
Qed.

(** The message after the first pass, but for the id of a result. *)
Definition new_assistant (a : AssistantMessage) : AssistantMessage := set_content a (transform_blocks a (am_content a) ∅).1.

Lemma transform_blocks_content a content ids ids' : (transform_blocks a content ids).1 = (transform_blocks a content ids').1.
Proof.
  revert ids ids'. induction content as [| b content IH]; intros ids ids'; cbn [ReplayMessages.transform_blocks]; [done |].
  destruct b as [t | t | c | raw]; rewrite ?transform_call_eq.
  3: specialize (IH (remember a ids c) (remember a ids' c)). 1, 2, 4: specialize (IH ids ids').
  all: destruct (transform_blocks a content _), (transform_blocks a content _); cbn in *; by subst.
Qed.

Lemma transform_assistant a ids :
  transform_message model normalize options (Assistant a) ids = (Assistant (new_assistant a), foldl (remember a) ids (tool_calls a)).
Proof.
  cbn. pose proof (transform_blocks_content a (am_content a) ids ∅) as Hc. pose proof (proj2 (transform_blocks_calls a (am_content a) ids)) as Hi.
  unfold new_assistant. destruct (transform_blocks a (am_content a) ids) as [content ids']. cbn in Hc, Hi. by subst.
Qed.

Lemma new_assistant_calls a : tool_calls (new_assistant a) = new_call a <$> tool_calls a.
Proof. apply (transform_blocks_calls a (am_content a) ∅). Qed.

Lemma new_assistant_kept a : kept (new_assistant a) = kept a.
Proof. done. Qed.

(** ** Renaming *)

(** The new id of a call is not given to other calls, nor borne by results of other calls, and is given to every call of that id. *)
Definition renaming_ok (id new : jstring) (history : list Message) : Prop :=
  new <> [] /\
  (forall a c, Assistant a ∈ history -> c ∈ tool_calls a -> new_id a c = new <-> tc_id c = id) /\
  (forall r, ToolResult r ∈ history -> toolCallId r = new -> toolCallId r = id).

(** What the map holds comes from calls seen. *)
Definition from_calls (id new : jstring) (ids : gmap jstring jstring) : Prop := forall x y, ids !! x = Some y -> y = new <-> x = id.

Lemma remember_from_calls id new a c ids :
  (new_id a c = new <-> tc_id c = id) -> from_calls id new ids -> from_calls id new (remember a ids c).
Proof.
  intros Hc H. unfold remember. case_bool_decide; [done |]. intros x y. destruct (decide (tc_id c = x)) as [<- | Hx].
  - rewrite lookup_insert_eq. intros [= <-]. done.
  - rewrite lookup_insert_ne by done. apply H.
Qed.

(** A result that bears the id is renamed once the map knows, or the id stays. *)
Definition knows (id new : jstring) (ids : gmap jstring jstring) : Prop := new = id \/ ids !! id = Some new.

Lemma remember_knows id new a c ids :
  (new_id a c = new <-> tc_id c = id) -> knows id new ids \/ tc_id c = id -> knows id new (remember a ids c).
Proof.
  intros Hc H. unfold remember, knows in *. case_bool_decide as He.
  - destruct H as [H | H]; [done |]. left. apply Hc in H as Hn. congruence.
  - destruct (decide (tc_id c = id)) as [<- | Hid]; [right; rewrite lookup_insert_eq; f_equal; by apply Hc |].
    rewrite lookup_insert_ne by done. destruct H; done.
Qed.

Lemma remembers id new a cs ids :
  (forall c, c ∈ cs -> new_id a c = new <-> tc_id c = id) -> from_calls id new ids ->
  from_calls id new (foldl (remember a) ids cs) /\
  (knows id new ids \/ Exists (fun c => tc_id c = id) cs -> knows id new (foldl (remember a) ids cs)).
Proof.
  revert ids. induction cs as [| c cs IH]; intros ids Hcs H; cbn [foldl].
  { split; [done |]. intros [? | ?%Exists_nil]; done. }
  pose proof (Hcs c ltac:(by left)) as Hc. destruct (IH (remember a ids c)) as [IH1 IH2].
  - intros. apply Hcs. by right.
  - by apply remember_from_calls.
  - split; [done |]. rewrite Exists_cons. intros Hk. apply IH2.
    destruct Hk as [Hk | [Hk | Hk]]; [left | left | by right]; apply remember_knows; auto.
Qed.

(** ** The messages that mention a call, before and after *)

Lemma set_call_id_own r : set_call_id r (toolCallId r) = r.
Proof. by destruct r. Qed.

(** The id a result has after the first pass. *)
Definition mapped_id (ids : gmap jstring jstring) (x : jstring) : jstring := match ids !! x with Some (c :: y) => c :: y | _ => x end.

Lemma transform_result r ids :
  transform_message model normalize options (ToolResult r) ids = (ToolResult (set_call_id r (mapped_id ids (toolCallId r))), ids).
Proof.
  cbn. unfold mapped_id. destruct (ids !! toolCallId r) as [[| c y] |]; rewrite ?set_call_id_own; [done | | done].
  case_bool_decide as E; [by rewrite E, set_call_id_own | done].
Qed.

Definition renamed (new : jstring) (m : Message) : Message :=
  match m with Assistant a => Assistant (new_assistant a) | ToolResult r => ToolResult (set_call_id r new) | _ => m end.

Lemma new_assistant_mentions id new a :
  (forall c, c ∈ tool_calls a -> new_id a c = new <-> tc_id c = id) -> calls_id new (new_assistant a) = calls_id id a.
Proof.
  intros H. unfold calls_id. rewrite new_assistant_calls. induction (tool_calls a) as [| c cs IH]; [done |]. cbn [fmap list_fmap existsb].
  rewrite IH by (intros; apply H; by right). f_equal. apply bool_decide_ext. apply (H c). by left.
Qed.

Lemma mapped_id_new id new r ids history :
  renaming_ok id new history -> ToolResult r ∈ history -> from_calls id new ids -> (toolCallId r = id -> knows id new ids) ->
  mapped_id ids (toolCallId r) = new <-> toolCallId r = id.
Proof.
  intros (Hne & _ & Hfresh) Hr Hfrom Hknow. unfold mapped_id. specialize (Hfresh r Hr). split; intros H.
  - destruct (ids !! toolCallId r) as [[| c y] |] eqn:E; [by apply Hfresh | | by apply Hfresh]. by apply (proj1 (Hfrom _ _ E)).
  - destruct (Hknow H) as [-> | Hi]; rewrite H.
    + destruct (ids !! id) as [[| c y] |] eqn:E; [done | | done]. by apply (Hfrom _ _ E).
    + rewrite Hi. by destruct new.
Qed.

Lemma first_pass_mentions id new history l ids :
  renaming_ok id new history -> (forall m, m ∈ l -> m ∈ history) -> from_calls id new ids ->
  knows id new ids \/ (exists a rest, List.filter (mentions id) l = Assistant a :: rest) ->
  List.filter (mentions new) (first_pass l ids) = renamed new <$> List.filter (mentions id) l.
Proof.
  intros Hok. revert ids. induction l as [| m l IH]; intros ids Hin Hfrom Hk; [done |].
  assert (Hin' : forall m, m ∈ l -> m ∈ history) by (intros; apply Hin; by right).
  pose proof (Hin m ltac:(by left)) as Hm. cbn [ReplayMessages.first_pass].
  destruct m as [role content rest | content ts | a | r].
  1, 2: cbn; apply IH; [done .. | exact Hk].
  - rewrite transform_assistant. cbn [List.filter]. destruct (remembers id new a (tool_calls a) ids) as [Hf Hkn]; [intros c; by apply (proj1 (proj2 Hok)) | done |].
    change (mentions new (Assistant (new_assistant a))) with (calls_id new (new_assistant a)). rewrite (new_assistant_mentions id new) by (intros c; by apply (proj1 (proj2 Hok))).
    change (mentions id (Assistant a)) with (calls_id id a). destruct (calls_id id a) eqn:Ec; (rewrite IH; [done | exact Hin' | exact Hf |]).
    + left. apply Hkn. right. apply Exists_exists. unfold calls_id in Ec. apply List.existsb_exists in Ec as (c & Hc%list_elem_of_In & He).
      exists c. split; [done | by apply bool_decide_eq_true in He].
    + destruct Hk as [Hk | Hk]; [left; apply Hkn; by left | right]. cbn in Hk. by rewrite Ec in Hk.
  - rewrite transform_result. cbn [List.filter]. unfold set_call_id at 1. cbn [mentions toolCallId].
    assert (Hkr : toolCallId r = id -> knows id new ids).
    { intros Hid. destruct Hk as [Hk | (a & rest & Hk)]; [done |]. cbn in Hk. by rewrite bool_decide_eq_true_2 in Hk. }
    rewrite (bool_decide_ext _ _ (mapped_id_new id new r ids history Hok Hm Hfrom Hkr)).
    assert (Hk' : toolCallId r <> id -> knows id new ids \/ (exists a rest, List.filter (mentions id) l = Assistant a :: rest)).
    { intros Hid. destruct Hk as [Hk | Hk]; [by left | right]. cbn in Hk. by rewrite bool_decide_eq_false_2 in Hk. }
    case_bool_decide as Hid; (rewrite IH; [| by auto ..]); [| done]. rewrite fmap_cons. cbn [renamed]. do 3 f_equal. by apply (mapped_id_new id new r ids history).
Qed.

(** ** Media *)

Definition fit (m : Message) : Message := if supportsImages model && supportsVideo model then m else downgrade model m.

Lemma downgrade_fit ms : downgradeUnsupportedImages model ms = fit <$> ms.
Proof. unfold downgradeUnsupportedImages, fit. destruct (_ && _); [by rewrite list_fmap_id | done]. Qed.

Definition fit_result (r : ToolResultMessage) : ToolResultMessage :=
  if supportsImages model && supportsVideo model then r
  else with_content r (downgrade_content model NO_VIDEO_TOOL_PLACEHOLDER NON_VISION_TOOL_IMAGE_PLACEHOLDER (r_content r)).

Lemma fit_mentions id m : mentions id (fit m) = mentions id m.
Proof. unfold fit. destruct (_ && _); [done |]. by destruct m as [| [|] | |]. Qed.

Lemma filter_fit id ms : List.filter (mentions id) (fit <$> ms) = fit <$> List.filter (mentions id) ms.
Proof. induction ms as [| m ms IH]; [done |]. cbn. rewrite fit_mentions. by case_match; cbn; rewrite IH. Qed.

Lemma fit_assistant a : fit (Assistant a) = Assistant a.
Proof. unfold fit. by destruct (_ && _). Qed.

Lemma fit_tool_result r : fit (ToolResult r) = ToolResult (fit_result r).
Proof. unfold fit, fit_result. by destruct (_ && _). Qed.

Lemma fit_result_id r : toolCallId (fit_result r) = toolCallId r.
Proof. unfold fit_result. by destruct (_ && _). Qed.

Lemma elem_of_fit m (ms : list Message) :
  m ∈ fit <$> ms -> match m with Assistant a => m ∈ ms | ToolResult r => exists r', r = fit_result r' /\ ToolResult r' ∈ ms | _ => True end.
Proof.
  intros (m' & -> & Hm)%list_elem_of_fmap. destruct m' as [| c | a | r]; [unfold fit; by destruct (_ && _) | unfold fit; destruct (_ && _), c; done | |].
  - by rewrite fit_assistant.
  - rewrite fit_tool_result. by exists r.
Qed.

Lemma renaming_fit id new ms : renaming_ok id new ms -> renaming_ok id new (fit <$> ms).
Proof.
  intros (Hne & Hc & Hr). split_and!; [done | |].
  - intros a c Ha. apply (Hc a c). by apply (elem_of_fit _ _ Ha).
  - intros r (r' & -> & Hr')%elem_of_fit. rewrite fit_result_id. by apply Hr.
Qed.

Lemma first_pass_kept id new history : renaming_ok id new history -> forall a n c r rest,
  tool_calls a !! n = Some c -> tc_id c = id ->
  List.filter (mentions id) history = Assistant a :: ToolResult r :: rest ->
  exists rest', List.filter (mentions new) (first_pass (fit <$> history) ∅) = Assistant (new_assistant a) :: ToolResult (set_call_id (fit_result r) new) :: rest'.
Proof.
  intros Hok a n c r rest Hn Hid Hl. eexists. rewrite (first_pass_mentions id new (fit <$> history)).
  - rewrite filter_fit, Hl. cbn [fmap list_fmap]. rewrite fit_assistant, fit_tool_result. done.
  - by apply renaming_fit.
  - done.
  - intros x y. by rewrite lookup_empty.
  - right. rewrite filter_fit, Hl. cbn [fmap list_fmap]. rewrite fit_assistant. by eexists _, _.
Qed.

(** What the first pass makes of a message. *)
Definition same_turn (m m' : Message) : Prop :=
  match m with
  | ToolResult r => exists id, m' = ToolResult (set_call_id (fit_result r) id)
  | Assistant a => m' = Assistant (new_assistant a)
  | _ => m' = fit m
  end.

Lemma first_pass_same l ids : Forall2 same_turn l (first_pass (fit <$> l) ids).
Proof.
  revert ids. induction l as [| m l IH]; intros ids; [constructor |]. rewrite fmap_cons. cbn [ReplayMessages.first_pass].
  destruct m as [role content rest | content ts | a | r].
  - unfold fit at 1. destruct (_ && _) eqn:E; cbn; (constructor; [cbn; unfold fit; by rewrite E | apply IH]).
  - unfold fit at 1. destruct (_ && _) eqn:E, content; cbn; (constructor; [cbn; unfold fit; by rewrite E | apply IH]).
  - rewrite fit_assistant, transform_assistant. constructor; [done | apply IH].
  - rewrite fit_tool_result, transform_result. constructor; [by eexists | apply IH].
Qed.

Lemma rewritten_same messages : Forall2 same_turn (normalized_content <$> messages) (rewritten messages).
Proof. unfold rewritten. rewrite downgrade_fit. apply first_pass_same. Qed.

(** ** No media the model does not take *)

Definition media_ok (b : MediaBlock) : Prop :=
  match b with MText _ => True | MImage i => supportsImages model = true /\ (supportsVideo model = false -> isVideoMimeType (mimeType i) = false) end.

Definition message_media_ok (m : Message) : Prop :=
  match m with User (UBlocks l) _ => Forall media_ok l | ToolResult r => Forall media_ok (r_content r) | _ => True end.

Lemma replace_loop_gone placeholder matches b l :
  Forall (fun x => match x with MImage i => matches i = false | MText _ => True end) (replace_loop placeholder matches b l).
Proof.
  revert b. induction l as [| x l IH]; intros b; cbn [replace_loop]; [constructor |].
  destruct x as [t | i]; cbn; [by constructor |]. destruct (matches i) eqn:E; [| by constructor].
  destruct b; cbn; [apply IH |]. constructor; [done | apply IH].
Qed.

Lemma replace_loop_keeps (P : MediaBlock -> Prop) placeholder matches b l :
  (forall t, P (MText t)) -> Forall P l -> Forall P (replace_loop placeholder matches b l).
Proof.
  intros HP H. revert b. induction H as [| x l Hx _ IH]; intros b; cbn [replace_loop]; [constructor |].
  destruct (is_matching matches x); [| by constructor]. destruct b; cbn; [apply IH |]. by constructor.
Qed.

Lemma existsb_matching_false matches l :
  existsb (is_matching matches) l = false -> Forall (fun x => match x with MImage i => matches i = false | MText _ => True end) l.
Proof.
  induction l as [| x l IH]; cbn; [constructor |]. intros [Hx Hl]%orb_false_iff. constructor; [by destruct x | by apply IH].
Qed.

Lemma downgrade_content_ok video image l : supportsImages model && supportsVideo model = false -> Forall media_ok (downgrade_content model video image l).
Proof.
  intros H. unfold downgrade_content.
  set (l' := if supportsVideo model then l else _).
  assert (Hv : supportsVideo model = false -> Forall (fun x => match x with MImage i => isVideoMimeType (mimeType i) = false | MText _ => True end) l').
  { intros E. unfold l'. rewrite E. unfold replaceMediaWithPlaceholder. destruct (existsb _ _) eqn:Ex; [apply replace_loop_gone | by apply existsb_matching_false]. }
  clearbody l'. destruct (supportsImages model) eqn:Ei.
  - destruct (supportsVideo model) eqn:Ev; [done |]. eapply Forall_impl; [by apply Hv |]. unfold media_ok. intros [|]; rewrite ?Ei, ?Ev; naive_solver.
  - eapply Forall_impl; [apply replace_loop_gone |]. by intros [|].
Qed.

Lemma supported_media_ok b : supportsImages model && supportsVideo model = true -> media_ok b.
Proof. intros [Hi Hv]%andb_true_iff. destruct b; [done |]. cbn. by rewrite Hi, Hv. Qed.

Lemma fit_media_ok m : message_media_ok (fit m).
Proof.
  unfold fit. destruct (_ && _) eqn:E.
  - destruct m as [| [|] | |]; cbn; try done; apply Forall_true; intros; by apply supported_media_ok.
  - destruct m as [| [|] | |]; cbn; try done; by apply downgrade_content_ok.
Qed.

Lemma rewritten_media_ok messages : Forall message_media_ok (rewritten messages).
Proof.
  pose proof (rewritten_same messages) as H. induction H as [| m m' l l' Hm _ IH]; constructor; [| done].
  destruct m as [| | a | r]; cbn in Hm; subst; [apply fit_media_ok .. | done |].
  destruct Hm as [id ->]. pose proof (fit_media_ok (ToolResult r)) as Hf. by rewrite fit_tool_result in Hf.
Qed.

(** ** The properties *)

(** C38. What a model is sent is in order, whatever the history: no failed turn is in it, and every call of every turn is
followed at once by its own result, the results in the order of the calls; the second pass, which pairs calls with results,
would change nothing if it were run again (the first pass, which rewrites ids and content, is not claimed to). *)
Theorem every_call_answered messages :
  let out := transformMessages messages in
  (forall i a, out !! i = Some (Assistant a) ->
    isFailedStop (am_stop a) = false /\
    forall j c, tool_calls a !! j = Some c -> exists r, out !! (S i + j)%nat = Some (ToolResult r) /\ toolCallId r = tc_id c) /\
  pair_results clock out = out.
Proof.
  intros out. assert (Hp : paired out) by apply pair_results_paired. split; [| by apply pair_results_fixed].
  intros i a Hi. destruct (paired_at out i a Hp Hi) as [Hk Hc]. split; [by apply negb_true_iff in Hk | done].
Qed.

(** C39. Rewriting a history loses nothing but failed turns and the results of calls only they made: every other message is
there once and in its place, and the results are those of the history, each once, and substitutes for missing ones. *)
Theorem history_conserved messages :
  let sent := rewritten messages in let out := transformMessages messages in
  Forall2 same_turn (normalized_content <$> messages) sent /\
  List.filter steady out = List.filter steady sent /\
  exists subs, results_of out ≡ₚ subs ++ List.filter (kept_result (orphan_kept sent)) (results_of sent) /\ Forall (substitute clock) subs.
Proof.
  intros sent out. pose proof (pair_results_pairs clock sent) as Hp. split_and!; [apply rewritten_same | by eapply pairs_steady |].
  eapply pairs_conserve; [exact Hp |]. intros m id Hm Hd. unfold orphan_kept. apply orb_true_iff. right.
  apply List.existsb_exists. exists m. by rewrite <- list_elem_of_In.
Qed.

(** C40. A call of a turn that counts is answered by the result the history has for it, under the id both have after
rewriting, when the first messages that mention the call are the turn and the result and the new ids keep calls apart. *)
Theorem call_gets_its_result messages a n c r rest :
  let history := normalized_content <$> messages in
  isFailedStop (am_stop a) = false -> tool_calls a !! n = Some c ->
  (forall n' c', tool_calls a !! n' = Some c' -> tc_id c' = tc_id c -> n' = n) ->
  List.filter (mentions (tc_id c)) history = Assistant a :: ToolResult r :: rest ->
  renaming_ok (tc_id c) (new_id a c) history ->
  exists p, transformMessages messages !! p = Some (Assistant (new_assistant a)) /\
    tool_calls (new_assistant a) !! n = Some (new_call a c) /\
    transformMessages messages !! (S p + n)%nat = Some (ToolResult (set_call_id (fit_result r) (new_id a c))).
Proof.
  intros history Hs Hn Huniq Hl Hok. destruct (first_pass_kept _ _ history Hok a n c r rest Hn eq_refl Hl) as [rest' Hf].
  assert (Hn' : tool_calls (new_assistant a) !! n = Some (new_call a c)) by (by rewrite new_assistant_calls, list_lookup_fmap, Hn).
  assert (Ha : Assistant a ∈ history).
  { assert (H : Assistant a ∈ List.filter (mentions (tc_id c)) history) by (rewrite Hl; by left). by apply elem_of_filter_bool in H as [? _]. }
  pose proof (pair_results_pairs clock (rewritten messages)) as Hp.
  destruct (pairs_answer clock _ _ _ _ (new_assistant a) n (new_call a c) (set_call_id (fit_result r) (new_id a c)) rest' Hp) as (p & H1 & H2).
  - unfold kept. cbn. by rewrite Hs.
  - done.
  - intros n' c'. rewrite new_assistant_calls, list_lookup_fmap. intros (c0 & Hc0 & ->)%fmap_Some Hid.
    apply (Huniq n' c0 Hc0). apply (proj1 (proj2 Hok) a c0); [done | by eapply list_elem_of_lookup_2 | exact Hid].
  - unfold rewritten. rewrite downgrade_fit. exact Hf.
  - by exists p.
Qed.

(** No user message and no tool result that is sent holds an image the model does not take, nor a video when it takes
images only. *)
Theorem no_unsupported_media messages : Forall message_media_ok (transformMessages messages).
Proof.
  eapply pairs_Forall; [apply pair_results_pairs | | apply rewritten_media_ok]. intros c k. by repeat constructor.
Qed.
End Replay.

(** ** A history of another provider *)

Module Sample.
Definition claude : Model := mkModel $"anthropic" $"anthropic-messages" $"claude" [$"text"; $"image"].
Definition anthropic_ids : option (jstring -> Model -> AssistantMessage -> jstring) := Some (fun id _ _ => normalizeToolCallId id).
Definition defaults : TransformMessagesOptions := mkOptions None None None None.
Definition clock (n : nat) : num := of_Z (1000 + Z.of_nat n).
Definition call (id : jstring) : ToolCall := mkToolCall id $"read" (JsObj false []) (Some $"sig") JsNull.
Definition turn (model : jstring) (stop : MsgStop) (content : list AssistantBlock) : AssistantMessage :=
  mkReply content $"openai-responses" $"openai" model stop JsNull.
Definition result (id : jstring) (content : list MediaBlock) : ToolResultMessage := mkResult id $"read" content false (of_Z 5) JsNull.
Definition gpt : AssistantMessage :=
  turn $"gpt" StopToolUse [AThinking (mkThinking $"hm" (Some $"enc") false JsNull); ACall (call $"c1|fc"); ACall (call $"c2|fc")].
Definition found : ToolResultMessage := result $"c1|fc" [MText (plain_text $"ok"); MImage (mkImage $"AAAA" $"Video/mp4")].
Definition history : list Given :=
  [HasContent (User (UText $"hi") (of_Z 1)); HasContent (Assistant (turn $"gpt" StopError [ACall (call $"c0|fc")]));
   HasContent (ToolResult (result $"c0|fc" [])); HasContent (Assistant gpt); HasContent (User (UText $"and") (of_Z 2)); HasContent (ToolResult found)].
Definition sent : list Message := transformMessages claude anthropic_ids defaults clock history.

(** The failed turn and its result are gone, the result is moved to its call without its video, and the call that has no
result gets one. *)
Example sent_eq :
  sent = [User (UText $"hi") (of_Z 1);
    Assistant (turn $"gpt" StopToolUse [AText (plain_text $"hm"); ACall (without_thought (call $"c1_fc")); ACall (without_thought (call $"c2_fc"))]);
    ToolResult (result $"c1_fc" [MText (plain_text $"ok"); MText (plain_text NO_VIDEO_TOOL_PLACEHOLDER)]);
    ToolResult (no_result (call $"c2_fc") (of_Z 1003)); User (UText $"and") (of_Z 2)].
Proof. by vm_compute. Qed.

(** A turn of the target model keeps its ids: when it uses an id again that an earlier turn of another model used, its
result is renamed but its call is not, and the call is told that it has no result. *)
Definition own : AssistantMessage := mkReply [ACall (call $"c1|fc")] $"anthropic-messages" $"anthropic" $"claude" StopToolUse JsNull.
Definition reused : list Given :=
  [HasContent (Assistant (turn $"gpt" StopToolUse [ACall (call $"c1|fc")])); HasContent (ToolResult (result $"c1|fc" [MText (plain_text $"one")]));
   HasContent (Assistant own); HasContent (ToolResult (result $"c1|fc" [MText (plain_text $"two")]))].

Lemma reused_id_loses_result :
  transformMessages claude anthropic_ids defaults clock reused =
  [Assistant (turn $"gpt" StopToolUse [ACall (without_thought (call $"c1_fc"))]); ToolResult (result $"c1_fc" [MText (plain_text $"one")]);
   Assistant own; ToolResult (no_result (call $"c1|fc") (of_Z 1003)); ToolResult (result $"c1_fc" [MText (plain_text $"two")])].
Proof. by vm_compute. Qed.
End Sample.

Lemma call_gets_its_result_witness :
  exists p, Sample.sent !! p = Some (Assistant (new_assistant Sample.claude Sample.anthropic_ids Sample.defaults Sample.gpt)) /\
    tool_calls (new_assistant Sample.claude Sample.anthropic_ids Sample.defaults Sample.gpt) !! 0%nat =
      Some (new_call Sample.claude Sample.anthropic_ids Sample.defaults Sample.gpt (Sample.call $"c1|fc")) /\
    Sample.sent !! (S p + 0)%nat = Some (ToolResult (set_call_id (fit_result Sample.claude Sample.found) $"c1_fc")).
Proof.
  apply (call_gets_its_result Sample.claude Sample.anthropic_ids Sample.defaults Sample.clock Sample.history Sample.gpt 0 (Sample.call $"c1|fc") Sample.found []).
  - done.
  - done.
  - intros [| [| n']] c' Hn' Hid; cbn in Hn'; simplify_eq; done.
  - by vm_compute.
  - split_and!; [by vm_compute | |].
    + intros a c Ha Hc. unfold Sample.history in Ha. cbn in Ha.
      repeat (apply elem_of_cons in Ha as [Ha | Ha]; [simplify_eq; repeat (apply elem_of_cons in Hc as [-> | Hc]; [split; intros H; vm_compute in H |- *; congruence |]); by apply not_elem_of_nil in Hc |]).
      by apply not_elem_of_nil in Ha.
    + intros r Hr. unfold Sample.history in Hr. cbn in Hr.
      repeat (apply elem_of_cons in Hr as [Hr | Hr]; [simplify_eq; intros H; vm_compute in H |- *; congruence |]).
      by apply not_elem_of_nil in Hr.
Defined.
