(* ===== verification/Transcript.v ===== *)
(** * Tools declared in a transcript (packages/ai/src/utils/transcript.ts, packages/agent/src/agent-loop.ts)

Tools reach the model through the system messages of the transcript.  This file
has the replay of those messages, the difference between two tool sets, and the
agent loop's [declareToolChanges], which adds that difference to the messages
about to be sent; it proves that the replayed transcript then declares the
provider's tools. *)
From S2P Require Import Prelude JsString JsonText JsNumber JsObject JsMap Json Messages Compaction Summary JsonRead.
#[local] Open Scope Z_scope.

(** ** Replay *)

Definition removed_by (m : AgentMessage) : list jstring := match body m with SystemMsg s => toolsRemoved s | _ => [] end.
Definition added_by (m : AgentMessage) : list Tool := match body m with SystemMsg s => toolsAdded s | _ => [] end.

Definition tool_map := list (jstring * Tool).

Definition apply_tools (tools : tool_map) (m : AgentMessage) : tool_map :=
  foldl (fun ts t => map_set ts (t_name t) t) (foldl (fun ts name => map_delete ts name) tools (removed_by m)) (added_by m).

Definition current_map (messages : list AgentMessage) : tool_map := foldl apply_tools [] messages.

Definition getCurrentTools (messages : list AgentMessage) : list Tool := map_values (current_map messages).

(** ** Differences *)

Definition toToolDeclaration (t : Tool) : Tool := mkTool (t_name t) (t_description t) (t_parameters t) None (t_sampling t).

Section Tools.
Context (number_text : num -> jstring).

Definition declaration_text (t : Tool) : jstring :=
  stringify number_text (JsObj false
    ([($"name", JsStr (t_name t)); ($"description", JsStr (t_description t)); ($"parameters", t_parameters t)]
     ++ match t_sampling t with Some v => [($"constrainedSampling", v)] | None => [] end)).

Definition declarationsEqual (l r : Tool) : bool := bool_decide (declaration_text l = declaration_text r).

Definition by_name (tools : list Tool) : tool_map := foldl (fun ts t => map_set ts (t_name t) t) [] tools.

Record ToolStateChanges := mkChanges { added : list Tool; removed : list jstring }.

(** The tool is not in the map with the same declaration. *)
Definition differs (tools : tool_map) (t : Tool) : bool :=
  match map_get tools (t_name t) with Some t' => negb (declarationsEqual t' t) | None => true end.

Definition getToolStateChanges (previous current : list Tool) : ToolStateChanges :=
  mkChanges (toToolDeclaration <$> List.filter (differs (by_name previous)) current)
    (t_name <$> List.filter (differs (by_name current)) previous).

(** ** Declaring them *)

Record AgentContext := mkContext {
  ac_prompt : option jstring; ac_messages : list AgentMessage; ac_tools : option (list Tool); ac_declared : option (list Tool) }.

(** [allowed] is whether the model accepts an allowed-tools restriction; [None] when there is no model. *)
Definition providerTools (c : AgentContext) (allowed : option bool) : option (list Tool) :=
  match ac_declared c, allowed with
  | Some declared, Some true =>
      Some (declared ++ List.filter (fun t => negb (bool_decide (t_name t ∈ t_name <$> declared))) (default [] (ac_tools c)))
  | _, _ => ac_tools c
  end.

(** [toProviderToolDeclaration] keeps every field of the record. *)
Definition toProviderToolDeclaration (t : Tool) : Tool :=
  mkTool (t_name t) (t_description t) (t_parameters t) (t_freeform t) (t_sampling t).

Definition createInitialSystemMessage (prompt : option jstring) (tools : list Tool) : option AgentMessage :=
  match prompt, tools with
  | (None | Some []), [] => None
  | _, _ => Some (mkMessage (SystemMsg (mkSystem (JsStr (default [] prompt)) tools [])) (of_Z 0))
  end.

Definition is_system (m : AgentMessage) : bool := match body m with SystemMsg _ => true | _ => false end.

Definition withToolChanges (m : AgentMessage) (c : ToolStateChanges) : AgentMessage :=
  match body m with SystemMsg s => mkMessage (SystemMsg (mkSystem (sm_content s) (added c) (removed c))) (m_timestamp m) | _ => m end.

(** The index of the last system message. *)
Fixpoint last_system (pending : list AgentMessage) : option nat :=
  match pending with
  | [] => None
  | m :: pending =>
      match last_system pending with
      | Some i => Some (S i)
      | None => if is_system m then Some 0%nat else None
      end
  end.

(** The list with [f] applied at the index. *)
Definition replace_at (f : AgentMessage -> AgentMessage) (index : nat) (l : list AgentMessage) : list AgentMessage :=
  imap (fun i m => if (i =? index)%nat then f m else m) l.

Definition tool_declarations (c : AgentContext) (allowed : option bool) : list Tool :=
  toProviderToolDeclaration <$> default [] (providerTools c allowed).

(** What is committed before the pending messages: the shorthand system message and the context. *)
Definition committed (c : AgentContext) (allowed : option bool) : list AgentMessage :=
  option_list (createInitialSystemMessage (ac_prompt c) (tool_declarations c allowed)) ++ ac_messages c.

(** The changes with the provider's own declarations. *)
Definition tool_changes (declared : list Tool) (committed : list AgentMessage) : ToolStateChanges :=
  let delta := getToolStateChanges (getCurrentTools committed) declared in
  mkChanges ((fun t => default t (map_get (by_name declared) (t_name t))) <$> added delta) (removed delta).

(** The first index that is no system message. *)
Fixpoint insert_index (pending : list AgentMessage) : nat :=
  match pending with [] => 0 | m :: pending => if is_system m then S (insert_index pending) else 0 end.

Definition declareToolChanges (c : AgentContext) (pending : list AgentMessage) (allowed : option bool) (now : num) : list AgentMessage :=
  let declared := tool_declarations c allowed in
  match last_system pending with
  | Some index =>
      let baseline := replace_at (fun m => withToolChanges m (mkChanges [] [])) index pending in
      let changes := tool_changes declared (committed c allowed ++ baseline) in
      let unchanged := match changes with mkChanges [] [] => true | _ => false end in
      let own := match pending !! index with Some m => match added_by m, removed_by m with [], [] => true | _, _ => false end | None => true end in
      if unchanged && own then pending else replace_at (fun m => withToolChanges m changes) index baseline
  | None =>
      let changes := tool_changes declared (committed c allowed ++ pending) in
      match changes with
      | mkChanges [] [] => pending
      | _ =>
          let update := withToolChanges (mkMessage (SystemMsg (mkSystem (JsStr []) [] [])) now) changes in
          let index := insert_index pending in
          take index pending ++ update :: drop index pending
      end
  end.
End Tools.

(** ** Proofs *)

(** Maps that hold every tool under its own name. *)
Definition keyed (m : tool_map) : Prop := map_ok m /\ Forall (fun e => e.1 = t_name e.2) m.

Lemma keyed_set m t : keyed m -> keyed (map_set m (t_name t) t).
Proof.
  intros [Hok Hk]. split; [by apply map_ok_set|]. unfold map_set. destruct (obj_has m (t_name t)).
  - induction Hk as [|[k v] m Hkv Hm IH]; cbn; [constructor|]. apply NoDup_cons in Hok as [_ Hok].
    case_bool_decide; constructor; cbn in *; try done. by apply IH.
  - apply Forall_app. split; [done|by repeat constructor].
Qed.

Lemma keyed_delete m k : keyed m -> keyed (map_delete m k).
Proof.
  intros [Hok Hk]. split; [by apply map_ok_delete|]. unfold map_delete. clear Hok.
  induction Hk as [|[k' v] m Hkv Hm IH]; cbn; [constructor|]. case_bool_decide; [done|by constructor].
Qed.

Lemma keyed_sets m ts : keyed m -> keyed (foldl (fun ts t => map_set ts (t_name t) t) m ts).
Proof. revert m. induction ts as [|t ts IH]; intros m Hm; [done|]. by apply IH, keyed_set. Qed.

Lemma keyed_deletes m ks : keyed m -> keyed (foldl (fun ts name => map_delete ts name) m ks).
Proof. revert m. induction ks as [|k ks IH]; intros m Hm; [done|]. by apply IH, keyed_delete. Qed.

Lemma keyed_apply m msg : keyed m -> keyed (apply_tools m msg).
Proof. intros Hm. by apply keyed_sets, keyed_deletes. Qed.

Lemma keyed_nil : keyed [].
Proof. split; constructor. Qed.

Lemma keyed_current ms : keyed (current_map ms).
Proof.
  unfold current_map. assert (forall m, keyed m -> keyed (foldl apply_tools m ms)) as H; [|apply H, keyed_nil].
  induction ms as [|msg ms IH]; intros m Hm; [done|]. by apply IH, keyed_apply.
Qed.

(** The last tool of a name. *)
Definition last_named (ts : list Tool) (n : jstring) : option Tool := last (List.filter (fun t => bool_decide (t_name t = n)) ts).

Lemma last_named_cons t ts n :
  last_named (t :: ts) n = match last_named ts n with Some u => Some u | None => if bool_decide (t_name t = n) then Some t else None end.
Proof.
  unfold last_named. cbn [List.filter]. case_bool_decide; [|by destruct (last _)]. rewrite last_cons. by destruct (last _).
Qed.

Lemma get_sets m ts n :
  map_get (foldl (fun ts t => map_set ts (t_name t) t) m ts) n = match last_named ts n with Some t => Some t | None => map_get m n end.
Proof.
  revert m. induction ts as [|t ts IH]; intros m; [done|]. cbn [foldl]. rewrite IH, last_named_cons, map_get_set.
  destruct (last_named ts n); [done|]. case_bool_decide as Hn; case_decide; congruence.
Qed.

Lemma get_deletes (m : tool_map) ks n :
  map_ok m -> map_get (foldl (fun ts name => map_delete ts name) m ks) n = if decide (n ∈ ks) then None else map_get m n.
Proof.
  revert m. induction ks as [|k ks IH]; intros m Hm; [done|]. cbn [foldl]. rewrite IH by (by apply map_ok_delete).
  rewrite map_get_delete by done. repeat case_decide; set_solver.
Qed.

Lemma get_apply m msg n :
  map_ok m ->
  map_get (apply_tools m msg) n =
    match last_named (added_by msg) n with Some t => Some t | None => if decide (n ∈ removed_by msg) then None else map_get m n end.
Proof. intros Hm. unfold apply_tools. by rewrite get_sets, get_deletes. Qed.

Lemma get_by_name ts n : map_get (by_name ts) n = last_named ts n.
Proof. unfold by_name. rewrite get_sets. by destruct (last_named ts n). Qed.

Lemma last_named_Some ts n t : last_named ts n = Some t -> t ∈ ts /\ t_name t = n.
Proof.
  intros H. unfold last_named in H. apply last_Some_elem_of in H. rewrite list_elem_of_In, List.filter_In in H.
  destruct H as [Hin Hn]. split; [by apply list_elem_of_In|by apply bool_decide_eq_true in Hn].
Qed.

Lemma last_named_None ts n : last_named ts n = None <-> n ∉ t_name <$> ts.
Proof.
  induction ts as [|t ts IH]; [split; [set_solver|done]|]. rewrite last_named_cons, fmap_cons, not_elem_of_cons, <- IH.
  destruct (last_named ts n); [naive_solver|]. case_bool_decide; naive_solver.
Qed.

Lemma last_named_in ts t : NoDup (t_name <$> ts) -> t ∈ ts -> last_named ts (t_name t) = Some t.
Proof.
  induction ts as [|u ts IH]; [set_solver|]. rewrite fmap_cons. intros [Hu Hd]%NoDup_cons Hin. rewrite last_named_cons.
  apply elem_of_cons in Hin as [->|Hin].
  - by rewrite (proj2 (last_named_None ts (t_name u)) Hu), bool_decide_eq_true_2.
  - by rewrite IH.
Qed.

(** A keyed map and the list of its values. *)
Lemma keyed_values m n : keyed m -> map_get m n = last_named (map_values m) n.
Proof.
  intros [Hok Hk]. unfold map_get, map_values. induction Hk as [|[k v] m Hkv Hm IH]; [done|].
  unfold map_ok in Hok. rewrite fmap_cons in Hok. apply NoDup_cons in Hok as [Hn Hok].
  rewrite fmap_cons, last_named_cons, <- IH by done. cbn [fst snd obj_get] in *. subst k. case_bool_decide as Hvn; [|by destruct (obj_get m n)].
  assert (obj_get m n = None) as ->; [|done]. destruct (obj_get m n) eqn:Hg; [|done]. exfalso. apply Hn. rewrite Hvn.
  apply obj_has_spec. unfold obj_has. by rewrite Hg.
Qed.

Section Declared.
Context (number_text : num -> jstring).

(** The same interface to the model: name, description, parameters and sampling
constraint; the freeform format is not compared. *)
Definition same_interface (t t' : Tool) : Prop :=
  t_name t = t_name t' /\ t_description t = t_description t' /\
  same_json number_text (t_parameters t) (t_parameters t') /\
  option_Forall2 (same_json number_text) (t_sampling t) (t_sampling t').

(** The same names, each with the same interface. *)
Definition same_tools (l l' : list Tool) : Prop :=
  forall n, option_Forall2 same_interface (last_named l' n) (last_named l n).

Context (Hnum : plain_numbers number_text).

(** Two tools with the same declaration text have the same interface. *)
Lemma declarationsEqual_interface t t' : declarationsEqual number_text t t' = true -> same_interface t t'.
Proof.
  unfold declarationsEqual. rewrite bool_decide_eq_true. unfold declaration_text. intros E.
  pose proof (stringify_reads number_text Hnum _ _ [] [] I I (f_equal (fun x => x ++ []) E)) as [Hj _]. clear E.
  inversion Hj as [? ? ? Hbad| | |? ? ? ? Hes]; [done|]. subst. cbn [app] in Hes.
  apply Forall2_cons in Hes as [[_ Hname] Hes]. apply Forall2_cons in Hes as [[_ Hdesc] Hes]. apply Forall2_cons in Hes as [[_ Hparams] Hes].
  cbn in Hname, Hdesc, Hparams. inversion Hname as [? ? ? Hbad| | |]; [done|]. inversion Hdesc as [? ? ? Hbad| | |]; [done|].
  repeat split; [done..|]. destruct (t_sampling t) as [v|], (t_sampling t') as [v'|].
  - apply Forall2_cons in Hes as [[_ Hv] _]. by constructor.
  - by apply Forall2_cons_nil_inv in Hes.
  - by apply Forall2_nil_cons_inv in Hes.
  - constructor.
Qed.

Lemma declarationsEqual_sym t t' : declarationsEqual number_text t t' = declarationsEqual number_text t' t.
Proof. unfold declarationsEqual. apply bool_decide_ext. naive_solver. Qed.

(** The tools added are the declared ones that differ. *)
Lemma changes_added declared ms :
  NoDup (t_name <$> declared) ->
  added (tool_changes number_text declared ms) = List.filter (differs number_text (by_name (getCurrentTools ms))) declared.
Proof.
  intros Hd. unfold tool_changes, getToolStateChanges. cbn [added]. rewrite <- list_fmap_compose.
  assert (forall l : list Tool, (forall t, t ∈ l -> t ∈ declared) ->
    ((fun t => default t (map_get (by_name declared) (t_name t))) ∘ toToolDeclaration) <$> l = l) as H.
  { induction l as [|t l IH]; intros Hl; [done|]. rewrite fmap_cons, IH by (intros; apply Hl; set_solver). f_equal. cbn.
    rewrite get_by_name, last_named_in by (try apply Hl; set_solver). done. }
  apply H. intros t [Ht _]%elem_of_filter_bool. done.
Qed.

(** Replaying the changes over the committed transcript gives the declared tools. *)
Lemma replay_changes declared ms m :
  NoDup (t_name <$> declared) ->
  added_by m = added (tool_changes number_text declared ms) -> removed_by m = removed (tool_changes number_text declared ms) ->
  forall n, match last_named declared n, map_get (apply_tools (current_map ms) m) n with
            | Some t, Some t' => declarationsEqual number_text t' t = true
            | None, None => True
            | _, _ => False
            end.
Proof.
  intros Hd Ha Hr n. pose proof (keyed_current ms) as [Hok Hk]. rewrite get_apply, Ha, Hr, changes_added by done.
  set (D := List.filter _ declared).
  assert (forall n, map_get (by_name (getCurrentTools ms)) n = map_get (current_map ms) n) as Hprev.
  { intros n'. rewrite get_by_name. symmetry. by apply keyed_values. }
  assert (n ∈ removed (tool_changes number_text declared ms) <->
          exists t', map_get (current_map ms) n = Some t' /\ differs number_text (by_name declared) t' = true) as Hrem.
  { unfold tool_changes, getToolStateChanges. cbn [removed]. rewrite list_elem_of_fmap. setoid_rewrite elem_of_filter_bool. split.
    - intros (t' & -> & Hin & Hdiff). exists t'. split; [|done]. rewrite keyed_values by done. apply last_named_in; [|done].
      unfold getCurrentTools, map_values. clear -Hok Hk. unfold map_ok in Hok. replace (t_name <$> (current_map ms).*2) with ((current_map ms).*1); [done|].
      induction Hk as [|[k v] l Hkv Hl IH]; [done|]. rewrite !fmap_cons. cbn in *. subst k. f_equal. apply IH. by inversion Hok.
    - intros (t' & Hg & Hdiff). rewrite keyed_values in Hg by done. apply last_named_Some in Hg as [Hin <-]. by exists t'. }
  destruct (last_named declared n) as [t|] eqn:Ht.
  - destruct (last_named_Some _ _ _ Ht) as [Hin <-]. destruct (differs number_text (by_name (getCurrentTools ms)) t) eqn:Hdiff.
    + assert (t ∈ D) as HD by (by apply elem_of_filter_bool).
      destruct (last_named D (t_name t)) as [u|] eqn:Hu.
      * destruct (last_named_Some _ _ _ Hu) as [[HuD _]%elem_of_filter_bool Hun].
        assert (u = t) as ->; [|unfold declarationsEqual; by apply bool_decide_eq_true].
        pose proof (last_named_in declared u Hd HuD) as H'. rewrite Hun in H'. congruence.
      * exfalso. apply last_named_None in Hu. apply Hu. by apply list_elem_of_fmap_2.
    + assert (last_named D (t_name t) = None) as ->.
      { apply last_named_None. intros (u & Hun & [HuD Hud]%elem_of_filter_bool)%list_elem_of_fmap.
        pose proof (last_named_in declared u Hd HuD) as H'. rewrite <- Hun, Ht in H'. simplify_eq. congruence. }
      unfold differs in Hdiff. rewrite Hprev in Hdiff. destruct (map_get (current_map ms) (t_name t)) as [t'|] eqn:Hg; [|done].
      apply negb_false_iff in Hdiff. rewrite decide_False; [done|]. rewrite Hrem. intros (t'' & [= <-] & Hdiff').
      unfold differs in Hdiff'. rewrite get_by_name in Hdiff'. rewrite keyed_values in Hg by done. destruct (last_named_Some _ _ _ Hg) as [_ Hn'].
      rewrite Hn', Ht, declarationsEqual_sym, Hdiff in Hdiff'. done.
  - assert (last_named D n = None) as ->.
    { apply last_named_None. intros (u & Hun & [HuD _]%elem_of_filter_bool)%list_elem_of_fmap.
      apply last_named_None in Ht. apply Ht. rewrite Hun. by apply list_elem_of_fmap_2. }
    case_decide as Hin; [done|]. destruct (map_get (current_map ms) n) as [t'|] eqn:Hg; [|done].
    apply Hin, Hrem. exists t'. split; [done|]. unfold differs. rewrite keyed_values in Hg by done.
    destruct (last_named_Some _ _ _ Hg) as [_ Hn']. by rewrite get_by_name, Hn', Ht.
Qed.

Lemma current_map_app ms ms' : current_map (ms ++ ms') = foldl apply_tools (current_map ms) ms'.
Proof. unfold current_map. by rewrite foldl_app. Qed.

Lemma apply_others m ms : Forall (fun x => is_system x = false) ms -> foldl apply_tools m ms = m.
Proof.
  induction 1 as [|x ms Hx Hms IH]; [done|]. cbn [foldl]. assert (apply_tools m x = m) as ->; [|done].
  unfold apply_tools, added_by, removed_by, is_system in *. by destruct (body x).
Qed.

Lemma last_system_split pending :
  match last_system pending with
  | Some i => exists l1 m l2, pending = l1 ++ m :: l2 /\ length l1 = i /\ is_system m = true /\ Forall (fun x => is_system x = false) l2
  | None => Forall (fun x => is_system x = false) pending
  end.
Proof.
  induction pending as [|x pending IH]; cbn [last_system]; [constructor|]. destruct (last_system pending) as [i|].
  - destruct IH as (l1 & m & l2 & -> & <- & Hm & Hl). by exists (x :: l1), m, l2.
  - destruct (is_system x) eqn:Hx; [by exists [], x, pending|by constructor].
Qed.

Lemma imap_same {A} (f : nat -> A -> A) l : (forall i x, l !! i = Some x -> f i x = x) -> imap f l = l.
Proof.
  revert f. induction l as [|x l IH]; intros f Hf; [done|]. rewrite imap_cons. f_equal; [by apply (Hf 0%nat)|].
  apply IH. intros i y Hy. by apply (Hf (S i)).
Qed.

Lemma replace_at_middle f l1 m l2 : replace_at f (length l1) (l1 ++ m :: l2) = l1 ++ f m :: l2.
Proof.
  unfold replace_at. rewrite imap_app. cbn [imap]. rewrite Nat.add_0_r, Nat.eqb_refl. f_equal; [|f_equal].
  - apply imap_same. intros i x Hx%lookup_lt_Some. by rewrite (proj2 (Nat.eqb_neq _ _)) by lia.
  - apply imap_same. intros i x _. cbn. by rewrite (proj2 (Nat.eqb_neq _ _)) by lia.
Qed.

Lemma insert_index_others pending : Forall (fun x => is_system x = false) pending -> insert_index pending = 0%nat.
Proof. destruct 1 as [|x l Hx]; [done|]. cbn. by rewrite Hx. Qed.

Lemma withToolChanges_twice m c c' : withToolChanges (withToolChanges m c) c' = withToolChanges m c'.
Proof. unfold withToolChanges. destruct (body m) eqn:Hb; cbn; rewrite ?Hb; done. Qed.

Lemma changed_by m c : is_system m = true -> added_by (withToolChanges m c) = added c /\ removed_by (withToolChanges m c) = removed c.
Proof. unfold is_system, withToolChanges, added_by, removed_by. by destruct (body m). Qed.

Lemma apply_none tools m : added_by m = [] -> removed_by m = [] -> apply_tools tools m = tools.
Proof. unfold apply_tools. by intros -> ->. Qed.

(** What the replay of a transcript with the changes put at its last system message gives. *)
Lemma replay_declared declared ms ms' tools m :
  NoDup (t_name <$> declared) ->
  current_map ms = tools -> current_map ms' = apply_tools tools m ->
  added_by m = added (tool_changes number_text declared ms) -> removed_by m = removed (tool_changes number_text declared ms) ->
  same_tools declared (getCurrentTools ms').
Proof.
  intros Hd <- Hms' Ha Hr n. pose proof (keyed_current ms') as Hk. unfold getCurrentTools. rewrite <- keyed_values by done.
  rewrite Hms'. pose proof (replay_changes declared ms m Hd Ha Hr n) as Hn.
  destruct (last_named declared n), (map_get (apply_tools (current_map ms) m) n); try done; constructor. by apply declarationsEqual_interface.
Qed.

(** C26. Whatever the transcript declared before and whichever messages are about
to be sent, replaying the system messages of the transcript with the messages
[declareToolChanges] returns gives the tools the provider is called with: the same
names, each with the same description, the same parameters and the same sampling
constraint, compared as JSON values up to the texts of their numbers.  The
freeform format is not compared by the code and not part of the statement.  The
only thing assumed of number texts is that they hold no comma, quote, bracket or
brace. *)
Theorem declared_tools_current c pending allowed now :
  NoDup (t_name <$> tool_declarations c allowed) ->
  same_tools (tool_declarations c allowed)
    (getCurrentTools (committed c allowed ++ declareToolChanges number_text c pending allowed now)).
Proof.
  intros Hd. unfold declareToolChanges. pose proof (last_system_split pending) as Hsplit. destruct (last_system pending) as [i|].
  - destruct Hsplit as (l1 & m & l2 & -> & <- & Hm & Hl2). rewrite list_lookup_middle by done.
    rewrite !replace_at_middle, withToolChanges_twice. set (base := committed c allowed ++ l1 ++ withToolChanges m _ :: l2).
    assert (forall x, current_map (committed c allowed ++ l1 ++ x :: l2) = apply_tools (current_map (committed c allowed ++ l1)) x) as Hlast.
    { intros x. rewrite app_assoc, (current_map_app (_ ++ l1)). cbn [foldl]. by apply apply_others. }
    assert (current_map base = current_map (committed c allowed ++ l1)) as Hbase.
    { unfold base. rewrite Hlast. apply apply_none; by apply changed_by. }
    assert (forall x, added_by x = added (tool_changes number_text (tool_declarations c allowed) base) ->
                 removed_by x = removed (tool_changes number_text (tool_declarations c allowed) base) ->
                 same_tools (tool_declarations c allowed) (getCurrentTools (committed c allowed ++ l1 ++ x :: l2))) as Hdone.
    { intros x Ha Hr. eapply (replay_declared _ base); [done|exact Hbase|apply Hlast|done..]. }
    destruct (tool_changes number_text (tool_declarations c allowed) base) as [[|a la] [|r lr]] eqn:Hc; cbn [andb].
    2-4: apply Hdone; by apply changed_by.
    destruct (added_by m) eqn:Ha; [destruct (removed_by m) eqn:Hr|]; apply Hdone; try done; by apply changed_by.
  - set (changes := tool_changes _ _ _). rewrite insert_index_others by done. cbn [take drop app].
    assert (forall x, added_by x = added changes -> removed_by x = removed changes ->
       same_tools (tool_declarations c allowed) (getCurrentTools (committed c allowed ++ x :: pending))) as Hdone.
    { intros x Ha Hr. eapply (replay_declared _ (committed c allowed ++ pending) _ (current_map (committed c allowed))); [done| |idtac|exact Ha|exact Hr].
      - rewrite current_map_app. by apply apply_others.
      - rewrite current_map_app. cbn [foldl]. by apply apply_others. }
    destruct changes as [[|a la] [|r lr]] eqn:Hc. 2-4: apply Hdone; by apply changed_by.
    eapply (replay_declared _ (committed c allowed ++ pending) _ _ (mkMessage (OtherMsg []) now)); [done|reflexivity| |fold changes; by rewrite Hc..].
    symmetry. by apply apply_none.
Qed.
End Declared.

(** ** Samples *)

Module ToolSample.
Definition tool (name description : jstring) : Tool := mkTool name description (JsObj false []) None None.
Definition user : AgentMessage := mkMessage (UserMsg (ContentText $"hi")) (of_Z 1).
(** The transcript declared [b] with another description, and [c], which is gone. *)
Definition context : AgentContext :=
  mkContext (Some $"Be brief.") [mkMessage (SystemMsg (mkSystem (JsStr []) [tool $"b" $"old"; tool $"c" $"gone"] [])) (of_Z 0)]
    (Some [tool $"a" $"A"; tool $"b" $"new"]) None.

(** Numbers by their sign. *)
Definition number_text (f : num) : jstring := if num_ltb f (of_Z 0) then $"-1" else $"1".

Lemma numbers_plain : plain_numbers number_text.
Proof. intros f. unfold number_text. destruct (num_ltb f (of_Z 0)); (split; [done|]; cbn; repeat (apply Forall_cons; split; [unfold bare, stops; lia|]); apply Forall_nil_2). Defined.
End ToolSample.

Lemma declared_tools_current_witness :
  length (declareToolChanges ToolSample.number_text ToolSample.context [ToolSample.user] None (of_Z 2)) = 2%nat /\
  same_tools ToolSample.number_text (tool_declarations ToolSample.context None)
    (getCurrentTools (committed ToolSample.context None ++ declareToolChanges ToolSample.number_text ToolSample.context [ToolSample.user] None (of_Z 2))).
Proof.
  split; [reflexivity|]. apply declared_tools_current.
  - apply ToolSample.numbers_plain.
  - apply (bool_decide_unpack _). reflexivity.
Defined.

(** A tool whose only change is its freeform format is not declared again. *)
Example freeform_change_undeclared :
  let now_freeform := mkTool $"a" $"A" (JsObj false []) (Some (JsStr $"grammar")) None in
  let c := mkContext None [mkMessage (SystemMsg (mkSystem (JsStr []) [ToolSample.tool $"a" $"A"] [])) (of_Z 0)] (Some [now_freeform]) None in
  declareToolChanges (fun _ => []) c [ToolSample.user] None (of_Z 2) = [ToolSample.user] /\
  t_freeform <$> getCurrentTools (committed c None) = [None].
Proof. split; reflexivity. Qed.
