(* ===== verification/AgentLoop.v ===== *)
(** * The agent loop (packages/agent/src/agent-loop.ts, assistant-terminal-state.ts, execution/tool-host.ts)

One run of the loop as a program over the hooks of its configuration.  The hooks,
the provider and the tool host are operations on a world of any type; every event
and every exchange with the queues, the provider and the host is recorded in a
trace.  Event sinks and the queue callbacks do not throw (their contract); the
other hooks may. *)
From S2P Require Import Prelude JsString JsonText JsNumber JsObject JsMap Json Messages Compaction Summary Transcript.
#[local] Open Scope Z_scope.

(** ** Events and exchanges *)

Inductive AgentEvent :=
| AgentStart
| AgentEnd (messages : list AgentMessage)
| TurnStart
| TurnEnd (message : AgentMessage) (toolResults : list AgentMessage)
| MessageStart (message : AgentMessage)
| MessageUpdate (message : AgentMessage)
| MessageEnd (message : AgentMessage)
| ToolExecutionStart (id name : jstring) (args : json)
| ToolExecutionUpdate (id name : jstring)
| ToolExecutionEnd (id name : jstring) (isError : bool).

Inductive Queue := SteeringQueue | FollowUpQueue.

#[export] Instance queue_eq_dec : EqDecision Queue.
Proof. solve_decision. Defined.

Record ToolCall := mkCall { call_id : jstring; call_tool : jstring; call_arguments : json }.

Record LoopConfig := mkConfig {
  lc_model : jstring; lc_reasoning : option jstring; lc_selection : option jstring; lc_fallback : option bool;
  lc_timeoutMs : option num; lc_streamStartMs : option num; lc_initialTimeoutMs : option num; lc_initialStartMs : option num }.

(** A hook's replacement of runtime state; [u_selection]: unchanged, cleared or set. *)
Record LoopUpdate := mkUpdate {
  u_context : option AgentContext; u_messages : list AgentMessage; u_model : option jstring; u_thinking : option jstring;
  u_selection : option (option jstring); u_fallback : option bool }.

Inductive Decision := ContinueRun | EndRun.

(** What a provider streams: its first partial, later partials, the terminal event
    ([Some] reason for an error event), and how its result settles. *)
Inductive StreamEvent := StreamStart (partial : AssistantMsg) | StreamUpdate (partial : AssistantMsg) | StreamTerminal (failed : option MsgStop) | StreamProgress.
Inductive StreamResult := Settled (message : AssistantMsg) | Broken (idle : bool) (error : jstring).
Record Streamed := mkStreamed { s_events : list StreamEvent; s_result : StreamResult; s_toolResults : list AgentMessage }.

Inductive Exchange :=
| Emitted (e : AgentEvent)
| Drained (q : Queue) (ms : list AgentMessage)
| Restored (q : Queue) (ms : list AgentMessage)
| Committed (q : Queue) (ms : list AgentMessage)
| Entered (ms : list AgentMessage)
| Prepared (context : AgentContext) (answer : result jstring (option LoopUpdate))
| Requested (context : AgentContext) (config : LoopConfig)
| Dispatched (message : AgentMessage) (calls : list ToolCall).

(** ** The configuration's hooks *)

Class LoopHooks (W : Type) := {
  getSteeringMessages : W -> W * list AgentMessage;
  getFollowUpMessages : W -> W * list AgentMessage;
  restorePendingMessages : option (W -> Queue -> list AgentMessage -> W);
  commitQueuedConsumption : option (W -> Queue -> list AgentMessage -> W * option jstring);
  prepareRequest : W -> AgentContext -> LoopConfig -> W * result jstring (option LoopUpdate);
  commitStep : W -> AgentMessage -> list AgentMessage -> W * option jstring;
  finishTurn : W -> AgentMessage -> list AgentMessage -> AgentContext -> list AgentMessage -> W * result jstring (option Decision);
  prepareNextTurn : W -> AgentMessage -> list AgentMessage -> AgentContext -> list AgentMessage -> W * result jstring (option LoopUpdate);
  eventSink : W -> AgentEvent -> W;
  aborted : W -> bool;
  clock : W -> num;
  stream : W -> AgentContext -> LoopConfig -> W * Streamed }.

(** Runs calls of an assistant message: the events it emits, and the result messages with whether the batch ends the run. *)
Class ToolHost (W : Type) :=
  execute : W -> AgentContext -> AgentMessage -> list ToolCall -> W * (list AgentEvent * result jstring (list AgentMessage * bool)).

(** ** Programs *)

Inductive outcome (A : Type) := Ret (a : A) | Throw (e : jstring).
Arguments Ret {A}. Arguments Throw {A}.

Record Run (W : Type) := mkRun { world : W; trace : list Exchange }.
Arguments mkRun {W}. Arguments world {W}. Arguments trace {W}.

Section Loop.
Context {W : Type} `{LoopHooks W} `{ToolHost W}.
(** JSON text of numbers; which tool calls a provider already executed (a stamp
    that is no part of the message's data); which error messages name a policy
    refusal (a regular expression); which models accept an allowed-tools list. *)
Context (number_text : num -> jstring) (resolved : ContentBlock -> bool) (policy_refusal : jstring -> bool) (allowed_choice : jstring -> bool).

Definition M (A : Type) : Type := Run W -> Run W * outcome A.
Definition ret {A} (a : A) : M A := fun r => (r, Ret a).
Definition throw {A} (e : jstring) : M A := fun r => (r, Throw e).
Definition bind {A B} (m : M A) (k : A -> M B) : M B := fun r => let '(r, o) := m r in match o with Ret a => k a r | Throw e => (r, Throw e) end.
Notation "'let*' x := m 'in' k" := (bind m (fun x => k)) (at level 200, x binder, right associativity).
Notation "m ;;; k" := (bind m (fun _ => k)) (at level 199, right associativity).

(** A hook called, with what it leaves in the trace. *)
Definition call {A} (f : W -> W * A) (note : A -> list Exchange) : M A :=
  fun r => let '(w, a) := f (world r) in (mkRun w (trace r ++ note a), Ret a).

Definition silent {A} (f : W -> W * A) : M A := call f (fun _ => []).
Definition note (e : Exchange) : M unit := call (fun w => (w, tt)) (fun _ => [e]).
Definition emit (e : AgentEvent) : M unit := call (fun w => (eventSink w e, tt)) (fun _ => [Emitted e]).
Definition from_result {A} (x : result jstring A) : M A := match x with Ok a => ret a | Err e => throw e end.
Definition from_error (x : option jstring) : M unit := match x with None => ret tt | Some e => throw e end.
Definition is_aborted : M bool := silent (fun w => (w, aborted w)).

Fixpoint each {A} (f : A -> M unit) (l : list A) : M unit := match l with [] => ret tt | x :: l => f x ;;; each f l end.

Definition emit_message (m : AgentMessage) : M unit := emit (MessageStart m) ;;; emit (MessageEnd m).

(** ** Terminal states (assistant-terminal-state.ts, ai/src/utils/stop-details.ts) *)

Definition with_stop (a : AssistantMsg) (s : MsgStop) : AssistantMsg := mkAssistant (a_content a) s (a_usage a) (a_error a) (a_details a).

Definition demoteToolUseWithoutToolCalls (a : AssistantMsg) : AssistantMsg :=
  match a_stop a with StopToolUse => if existsb is_call (a_content a) then a else with_stop a StopEnd | _ => a end.

Definition promoteStopWithPendingToolCalls (a : AssistantMsg) : AssistantMsg :=
  match a_stop a with StopEnd => if existsb is_call (a_content a) then with_stop a StopToolUse else a | _ => a end.

Definition settleStopReason (a : AssistantMsg) : AssistantMsg := demoteToolUseWithoutToolCalls (promoteStopWithPendingToolCalls a).

Definition isClassifierRefusal (a : AssistantMsg) : bool :=
  match a_stop a with
  | StopError | StopToolUse =>
      match a_details a with
      | Some _ => true
      | None => match a_error a with Some ((_ :: _) as e) => policy_refusal e | _ => false end
      end
  | _ => false
  end.

Definition shouldTerminateAssistantTurn (a : AssistantMsg) : bool :=
  match a_stop a with StopError | StopAborted => true | _ => isClassifierRefusal a end.

Definition normalizeTerminalAssistantMessage (a : AssistantMsg) (failed : option MsgStop) : AssistantMsg :=
  match failed with
  | None => a
  | Some reason =>
      let fallback := match reason with StopAborted => $"Request was aborted" | _ => $"Error" end in
      mkAssistant (a_content a) reason (a_usage a) (Some (default fallback (a_error a))) (a_details a)
  end.

Definition calls_in (a : AssistantMsg) : list ContentBlock := List.filter is_call (a_content a).

Definition shouldFinalizeIdleAsStop (partial : option AssistantMsg) (results : list AgentMessage) : bool :=
  match partial with
  | None => false
  | Some a => match calls_in a, results with [], _ => false | _, _ :: _ => true | calls, [] => forallb resolved calls end
  end.

Definition EMPTY_USAGE : Usage :=
  mkUsage None (of_Z 0) (of_Z 0) (of_Z 0) (of_Z 0) None None (of_Z 0) (of_Z 0, of_Z 0, of_Z 0, of_Z 0, of_Z 0) false.

(** The error's redaction and provider diagnostic are not modelled. *)
Definition createTerminalFailureAssistantMessage (stopped : bool) (error : jstring) (partial : option AssistantMsg) : AssistantMsg :=
  let text := match error with [] => if stopped then $"Request was aborted" else $"Error" | _ => error end in
  mkAssistant (match partial with Some a => a_content a | None => [TextBlock []] end) (if stopped then StopAborted else StopError)
    (Some (default EMPTY_USAGE (partial ≫= a_usage))) (Some text) None.

(** ** One response (streamAssistantResponse) *)

Definition assistant (a : AssistantMsg) (at_time : num) : AgentMessage := mkMessage (AssistantBody a) at_time.

Definition with_messages (c : AgentContext) (ms : list AgentMessage) : AgentContext := mkContext (ac_prompt c) ms (ac_tools c) (ac_declared c).
Definition push (c : AgentContext) (m : AgentMessage) : AgentContext := with_messages c (ac_messages c ++ [m]).
Definition set_last (c : AgentContext) (m : AgentMessage) : AgentContext :=
  with_messages c (take (length (ac_messages c) - 1) (ac_messages c) ++ [m]).

(** The events up to the terminal one, with the context, the partial message and the terminal event's reason. *)
Fixpoint stream_events (t : num) (events : list StreamEvent) (c : AgentContext) (partial : option AssistantMsg) :
    M (AgentContext * option AssistantMsg * option (option MsgStop)) :=
  match events with
  | [] => ret (c, partial, None)
  | StreamProgress :: events => stream_events t events c partial
  | StreamStart a :: events => emit (MessageStart (assistant a t)) ;;; stream_events t events (push c (assistant a t)) (Some a)
  | StreamUpdate a :: events =>
      match partial with
      | Some _ => emit (MessageUpdate (assistant a t)) ;;; stream_events t events (set_last c (assistant a t)) (Some a)
      | None => stream_events t events c None
      end
  | StreamTerminal failed :: _ => ret (c, partial, Some failed)
  end.

Definition settle_message (c : AgentContext) (added_partial : bool) (m : AgentMessage) : M AgentContext :=
  if added_partial then emit (MessageEnd m) ;;; ret (set_last c m)
  else emit (MessageStart m) ;;; emit (MessageEnd m) ;;; ret (push c m).

Definition final_message (s : Streamed) (stopped : bool) (partial : option AssistantMsg) (terminal : option (option MsgStop)) : AssistantMsg :=
  match s_result s with
  | Settled a => settleStopReason (match terminal with Some failed => normalizeTerminalAssistantMessage a failed | None => a end)
  | Broken idle error =>
      if idle && shouldFinalizeIdleAsStop partial (s_toolResults s)
      then settleStopReason (mkAssistant (match partial with Some a => a_content a | None => [TextBlock []] end) StopEnd
                               (Some (default EMPTY_USAGE (partial ≫= a_usage))) None None)
      else createTerminalFailureAssistantMessage stopped error partial
  end.

Definition streamAssistantResponse (c : AgentContext) (config : LoopConfig) : M (AgentContext * AssistantMsg * num * list AgentMessage) :=
  let* s := call (fun w => stream w c config) (fun _ => [Requested c config]) in
  let* t := silent (fun w => (w, clock w)) in
  let* x := stream_events t (s_events s) c None in
  let '(c, partial, terminal) := x in
  let* stopped := is_aborted in
  let final := final_message s stopped partial terminal in
  let* c := settle_message c (bool_decide (is_Some partial)) (assistant final t) in
  ret (c, final, t, s_toolResults s).

(** ** Tool calls *)

Definition tool_calls (a : AssistantMsg) : list ToolCall :=
  omap (fun b => match b with ToolCallBlock id name args => if resolved b then None else Some (mkCall id name args) | _ => None end) (a_content a).

Definition createIncompleteToolCallErrorMessage (name : jstring) : jstring :=
  $"Tool call " ++ [34] ++ name ++ [34]
  ++ $" was not executed: the response ended before the tool call was complete because it hit the output token limit. Re-issue the tool call with complete arguments.".

Fixpoint failToolCallsFromTruncatedMessage (calls : list ToolCall) : M (list AgentMessage) :=
  match calls with
  | [] => ret []
  | c :: calls =>
      emit (ToolExecutionStart (call_id c) (call_tool c) (call_arguments c)) ;;;
      emit (ToolExecutionEnd (call_id c) (call_tool c) true) ;;;
      let* now := silent (fun w => (w, clock w)) in
      let m := mkMessage (ToolResultMsg (call_id c) (one_text (createIncompleteToolCallErrorMessage (call_tool c)))) now in
      emit_message m ;;;
      let* ms := failToolCallsFromTruncatedMessage calls in
      ret (m :: ms)
  end.

Definition executeToolCalls (c : AgentContext) (message : AgentMessage) (calls : list ToolCall) : M (list AgentMessage * bool) :=
  let* x := call (fun w => execute w c message calls) (fun x => Dispatched message calls :: (Emitted <$> x.1)) in
  from_result x.2.

(** ** The loop's variables *)

Record Vars := mkVars {
  ctx : AgentContext; newMessages : list AgentMessage; config : LoopConfig; firstTurn : bool; firstProviderRequest : bool;
  drainedTerminatingQueue : option Queue; turnStartAlreadyEmitted : bool; explicitContinuation : bool;
  preparedMessages : list AgentMessage; pendingMessages : list AgentMessage; pendingSource : Queue }.

Definition set_pending (v : Vars) (q : Queue) (ms : list AgentMessage) : Vars :=
  mkVars (ctx v) (newMessages v) (config v) (firstTurn v) (firstProviderRequest v) (drainedTerminatingQueue v) (turnStartAlreadyEmitted v)
    (explicitContinuation v) (preparedMessages v) ms q.
Definition set_drained (v : Vars) (d : option Queue) : Vars :=
  mkVars (ctx v) (newMessages v) (config v) (firstTurn v) (firstProviderRequest v) d (turnStartAlreadyEmitted v)
    (explicitContinuation v) (preparedMessages v) (pendingMessages v) (pendingSource v).
Definition set_explicit (v : Vars) (b : bool) : Vars :=
  mkVars (ctx v) (newMessages v) (config v) (firstTurn v) (firstProviderRequest v) (drainedTerminatingQueue v) (turnStartAlreadyEmitted v)
    b (preparedMessages v) (pendingMessages v) (pendingSource v).
Definition set_turn (v : Vars) (first started : bool) : Vars :=
  mkVars (ctx v) (newMessages v) (config v) first (firstProviderRequest v) (drainedTerminatingQueue v) started
    (explicitContinuation v) (preparedMessages v) (pendingMessages v) (pendingSource v).
(** Messages appended to the context and to the run's messages; nothing is prepared or pending afterwards. *)
Definition admit_messages (v : Vars) (ms : list AgentMessage) : Vars :=
  mkVars (with_messages (ctx v) (ac_messages (ctx v) ++ ms)) (newMessages v ++ ms) (config v) (firstTurn v) (firstProviderRequest v)
    (drainedTerminatingQueue v) (turnStartAlreadyEmitted v) (explicitContinuation v) [] [] (pendingSource v).
Definition append_results (v : Vars) (ms : list AgentMessage) : Vars :=
  mkVars (with_messages (ctx v) (ac_messages (ctx v) ++ ms)) (newMessages v ++ ms) (config v) (firstTurn v) (firstProviderRequest v)
    (drainedTerminatingQueue v) (turnStartAlreadyEmitted v) (explicitContinuation v) (preparedMessages v) (pendingMessages v) (pendingSource v).
(** The context after a response, with the response in the run's messages; a request has been made. *)
Definition append_response (v : Vars) (c : AgentContext) (m : AgentMessage) : Vars :=
  mkVars c (newMessages v ++ [m]) (config v) (firstTurn v) false
    (drainedTerminatingQueue v) (turnStartAlreadyEmitted v) (explicitContinuation v) (preparedMessages v) (pendingMessages v) (pendingSource v).

Definition applyLoopUpdate (c : LoopConfig) (u : LoopUpdate) : LoopConfig :=
  mkConfig (default (lc_model c) (u_model u))
    (match u_thinking u with
     | None => lc_reasoning c
     | Some level => if bool_decide (level = $"off") then None else Some level
     end)
    (match u_selection u with None => lc_selection c | Some s => s end)
    (match u_fallback u with Some b => Some b | None => lc_fallback c end)
    (lc_timeoutMs c) (lc_streamStartMs c) (lc_initialTimeoutMs c) (lc_initialStartMs c).

(** An update of the context and the configuration, and of the prepared messages when a turn is prepared. *)
Definition update_vars (v : Vars) (turn : bool) (u : option LoopUpdate) : Vars :=
  match u with
  | None => v
  | Some u =>
      mkVars (default (ctx v) (u_context u)) (newMessages v) (applyLoopUpdate (config v) u) (firstTurn v) (firstProviderRequest v)
        (drainedTerminatingQueue v) (turnStartAlreadyEmitted v) (explicitContinuation v)
        (if turn then u_messages u else preparedMessages v) (pendingMessages v) (pendingSource v)
  end.

(** The configuration of a request: the first one may have its own bounds. *)
Definition request_config (v : Vars) : LoopConfig :=
  let c := config v in
  if firstProviderRequest v then
    mkConfig (lc_model c) (lc_reasoning c) (lc_selection c) (lc_fallback c)
      (match lc_initialTimeoutMs c with Some t => Some t | None => lc_timeoutMs c end)
      (match lc_initialStartMs c with Some t => Some t | None => lc_streamStartMs c end) (lc_initialTimeoutMs c) (lc_initialStartMs c)
  else c.

(** ** One turn of runLoop *)

Definition drain (v : Vars) (q : Queue) : M Vars :=
  let* ms := call (match q with SteeringQueue => getSteeringMessages | FollowUpQueue => getFollowUpMessages end) (fun ms => [Drained q ms]) in
  ret (set_pending v q ms).

Definition nonempty {A} (l : list A) : bool := match l with [] => false | _ => true end.

Definition restore (q : Queue) (ms : list AgentMessage) : M unit :=
  match restorePendingMessages with
  | Some f => call (fun w => (f w q ms, tt)) (fun _ => [Restored q ms])
  | None => ret tt
  end.

Definition restore_drained (v : Vars) : M unit :=
  match drainedTerminatingQueue v with Some q => restore q (pendingMessages v) | None => ret tt end.

(** Steering messages first, then follow-up messages, remembering the queue that had some. *)
Definition drain_either (v : Vars) (none : option Queue) : M Vars :=
  let* v := drain v SteeringQueue in
  if nonempty (pendingMessages v) then ret (set_drained v (Some SteeringQueue))
  else let* v := drain v FollowUpQueue in ret (set_drained v (if nonempty (pendingMessages v) then Some FollowUpQueue else none)).

Definition refreshTerminatingQueueDrain (v : Vars) : M Vars :=
  match drainedTerminatingQueue v, restorePendingMessages with
  | Some q, Some _ => restore q (pendingMessages v) ;;; drain_either v None
  | _, _ => ret v
  end.

(** [None]: the run has ended. *)
Definition end_run (v : Vars) : M (option Vars) := emit (AgentEnd (newMessages v)) ;;; ret None.

Definition refreshed (v : Vars) : M (option Vars) :=
  match drainedTerminatingQueue v with
  | None => ret (Some v)
  | Some _ =>
      let* v := refreshTerminatingQueueDrain v in
      if nonempty (pendingMessages v) || explicitContinuation v then ret (Some (set_drained v None)) else end_run v
  end.

Definition begin_turn (v : Vars) : M Vars :=
  if turnStartAlreadyEmitted v then ret (set_turn v (firstTurn v) false)
  else if firstTurn v then ret (set_turn v false false)
  else emit TurnStart ;;; ret v.

Definition commit_pending (v : Vars) : M unit :=
  match commitQueuedConsumption with
  | Some commit =>
      if nonempty (pendingMessages v) then
        let* failed := call (fun w => commit w (pendingSource v) (pendingMessages v))
                         (fun failed => match failed with None => [Committed (pendingSource v) (pendingMessages v)] | Some _ => [] end) in
        match failed with
        | None => ret tt
        | Some e => restore (pendingSource v) (pendingMessages v) ;;; throw e
        end
      else ret tt
  | None => ret tt
  end.

Definition allowed (c : LoopConfig) : option bool := Some (allowed_choice (lc_model c)).

Definition admit_pending (v : Vars) : M Vars :=
  let* now := silent (fun w => (w, clock w)) in
  let ms := declareToolChanges number_text (ctx v) (preparedMessages v ++ pendingMessages v) (allowed (config v)) now in
  note (Entered ms) ;;; each emit_message ms ;;; ret (admit_messages v ms).

(** The request, the response and the results the provider itself delivered. *)
Definition respond (v : Vars) : M (Vars * AssistantMsg * AgentMessage * list AgentMessage) :=
  let* u := call (fun w => prepareRequest w (ctx v) (config v)) (fun u => [Prepared (ctx v) u]) in
  let* u := from_result u in
  let v := update_vars v false u in
  let* x := streamAssistantResponse (ctx v) (request_config v) in
  let '(c, a, t, results) := x in
  let v := append_response v c (assistant a t) in
  each emit_message results ;;;
  let v := append_results v results in
  let* failed := silent (fun w => commitStep w (assistant a t) results) in
  from_error failed ;;; ret (v, a, assistant a t, results).

(** The results of the message's calls, with whether there are more calls to answer and whether the batch ended the run. *)
Definition run_tools (v : Vars) (a : AssistantMsg) (m : AgentMessage) : M (Vars * list AgentMessage * bool * bool) :=
  match tool_calls a with
  | [] => ret (v, [], false, false)
  | calls =>
      let* batch :=
        match a_stop a with
        | StopLength => let* ms := failToolCallsFromTruncatedMessage calls in ret (ms, false)
        | _ => executeToolCalls (ctx v) m calls
        end in
      ret (append_results v batch.1, batch.1, negb batch.2, batch.2)
  end.

(** The end of the inner loop's pass and, when it stops there, of the outer loop's. *)
Definition outer_pass (v : Vars) : M (option Vars) :=
  let* v := drain v FollowUpQueue in
  if nonempty (pendingMessages v) || explicitContinuation v then ret (Some (set_explicit v false)) else end_run v.

Definition next_turn (v : Vars) (more terminated : bool) : M (option Vars) :=
  let* v := if terminated then ret v else drain v SteeringQueue in
  if more || nonempty (pendingMessages v) then ret (Some (set_explicit v false)) else outer_pass v.

(** The preparation of the next turn and the queues after it. *)
Definition prepare_next (v : Vars) (m : AgentMessage) (results : list AgentMessage) (more terminated : bool) : M (option Vars) :=
  let* u := silent (fun w => prepareNextTurn w m results (ctx v) (newMessages v)) in
  let* u := match u with Ok u => ret u | Err e => restore_drained v ;;; throw e end in
  let v := update_vars v true u in
  let* stopped := is_aborted in
  if stopped then restore_drained v ;;; end_run v
  else
    let* x := refreshed v in
    match x with
    | None => ret None
    | Some v => next_turn v more terminated
    end.

(** What follows a finished turn, up to the next one. *)
Definition after_turn (v : Vars) (m : AgentMessage) (results : list AgentMessage) (more terminated : bool) : M (option Vars) :=
  let* d := silent (fun w => finishTurn w m results (ctx v) (newMessages v)) in
  let* d := from_result d in
  emit (TurnEnd m results) ;;;
  let* stopped := is_aborted in
  if stopped || (match d with Some EndRun => true | _ => false end) then end_run v
  else
    let v := set_explicit v (match d with Some ContinueRun => true | _ => false end) in
    let* v := if terminated then drain_either v (drainedTerminatingQueue v) else ret v in
    if terminated && negb (nonempty (pendingMessages v)) && negb (explicitContinuation v) then end_run v
    else
      let* v := if terminated && nonempty (pendingMessages v) then emit TurnStart ;;; ret (set_turn v (firstTurn v) true) else ret v in
      prepare_next v m results more terminated.

(** One pass of the inner loop; the passes of the outer loop begin with one. *)
Definition turn (v : Vars) : M (option Vars) :=
  let* v := begin_turn v in
  let* x := refreshed v in
  match x with
  | None => ret None
  | Some v =>
      commit_pending v ;;;
      let* v := admit_pending v in
      let* x := respond v in
      let '(v, a, m, provided) := x in
      if shouldTerminateAssistantTurn a then
        let* d := silent (fun w => finishTurn w m provided (ctx v) (newMessages v)) in
        let* _ := from_result d in
        emit (TurnEnd m provided) ;;; end_run v
      else
        let* x := run_tools v a m in
        let '(v, results, more, terminated) := x in
        after_turn v m (provided ++ results) more terminated
  end.

(** At most [fuel] turns; [None] when they do not suffice. *)
Fixpoint turns (fuel : nat) (v : Vars) : M (option unit) :=
  match fuel with
  | O => ret None
  | S fuel =>
      let* x := turn v in
      match x with Some v => turns fuel v | None => ret (Some tt) end
  end.

Definition runLoop (fuel : nat) (c : AgentContext) (new : list AgentMessage) (cfg : LoopConfig) : M (option unit) :=
  let* v := drain (mkVars c new cfg true true None false false [] [] SteeringQueue) SteeringQueue in
  turns fuel v.

Definition runAgentLoop (fuel : nat) (prompts : list AgentMessage) (c : AgentContext) (cfg : LoopConfig) : M (option unit) :=
  let* now := silent (fun w => (w, clock w)) in
  let initial := declareToolChanges number_text c prompts (allowed cfg) now in
  emit AgentStart ;;; emit TurnStart ;;; each emit_message initial ;;;
  runLoop fuel (with_messages c (ac_messages c ++ initial)) initial cfg.

Definition runAgentLoopContinue (fuel : nat) (c : AgentContext) (cfg : LoopConfig) : M (option unit) :=
  match last (ac_messages c) with
  | None => throw $"Cannot continue: no messages in context"
  | Some m =>
      match body m with
      | AssistantBody _ => throw $"Cannot continue from message role: assistant"
      | _ => emit AgentStart ;;; emit TurnStart ;;; runLoop fuel c [] cfg
      end
  end.
End Loop.
