(* ===== verification/AgentLoopCorrect.v ===== *)
(** * What a run of the agent loop promises

Monitors over the trace of a run (nesting of events, custody of queued messages),
the pairing of tool calls and results in the messages a run leaves, and its end.
The contracts of the hooks, the provider and the tool host are classes. *)
From S2P Require Import Prelude JsString JsonText JsNumber JsObject JsMap Json Messages Compaction Summary SummaryCorrect Transcript AgentLoop.
#[local] Open Scope Z_scope.

(** ** Monitors *)

Inductive Phase := NotStarted | BetweenTurns | InTurn | InMessage | Finished | BadPhase.

Definition next_phase (p : Phase) (e : AgentEvent) : Phase :=
  match p, e with
  | NotStarted, AgentStart => BetweenTurns
  | BetweenTurns, TurnStart => InTurn
  | InTurn, MessageStart _ => InMessage
  | InMessage, MessageUpdate _ => InMessage
  | InMessage, MessageEnd _ => InTurn
  | InTurn, (ToolExecutionStart _ _ _ | ToolExecutionUpdate _ _ | ToolExecutionEnd _ _ _) => InTurn
  | InTurn, TurnEnd _ _ => BetweenTurns
  | (BetweenTurns | InTurn), AgentEnd _ => Finished
  | _, _ => BadPhase
  end.

Definition phase_of (p : Phase) (x : Exchange) : Phase := match x with Emitted e => next_phase p e | _ => p end.
Definition phases (p : Phase) (t : list Exchange) : Phase := foldl phase_of p t.

(** Messages taken from a queue and not yet given back or admitted; [Accepted]
    once the queues' owner has committed their consumption. *)
Inductive Custody := Nothing | Held (q : Queue) (ms : list AgentMessage) | Accepted (q : Queue) (ms : list AgentMessage).

Definition others (ms : list AgentMessage) : list AgentMessage := List.filter (fun m => negb (is_system m)) ms.

(** [commits]: consumption has to be committed before messages are admitted.  The
    messages admitted may begin with prepared ones; system messages may be changed. *)
Inductive custody (commits : bool) : Custody -> Exchange -> Custody -> Prop :=
| drained_none q : custody commits Nothing (Drained q []) Nothing
| drained_some q ms : ms <> [] -> custody commits Nothing (Drained q ms) (Held q ms)
| given_back q ms : custody commits (Held q ms) (Restored q ms) Nothing
| committed_held q ms : custody commits (Held q ms) (Committed q ms) (Accepted q ms)
| admitted_none ms : custody commits Nothing (Entered ms) Nothing
| admitted_held q ms ms' : commits = false -> others ms `suffix_of` others ms' -> custody commits (Held q ms) (Entered ms') Nothing
| admitted_accepted q ms ms' : others ms `suffix_of` others ms' -> custody commits (Accepted q ms) (Entered ms') Nothing
| other_exchange s x :
    match x with Drained _ _ | Restored _ _ | Committed _ _ | Entered _ => False | _ => True end -> custody commits s x s.

Inductive keeps (commits : bool) : Custody -> list Exchange -> Custody -> Prop :=
| keeps_nil s : keeps commits s [] s
| keeps_snoc s t s' x s'' : keeps commits s t s' -> custody commits s' x s'' -> keeps commits s (t ++ [x]) s''.

(** ** Calls and results *)

Definition result_id (m : AgentMessage) : option jstring := match body m with ToolResultMsg id _ => Some id | _ => None end.

Section Answers.
Context (resolved : ContentBlock -> bool) (policy_refusal : jstring -> bool).

(** The calls a message asks the loop to run. *)
Definition asks (m : AgentMessage) : list jstring :=
  match body m with AssistantBody a => call_id <$> tool_calls resolved a | _ => [] end.

Definition ends_run (m : AgentMessage) : Prop :=
  match body m with AssistantBody a => shouldTerminateAssistantTurn policy_refusal a = true | _ => False end.

(** Every call of every message is answered right after it, once and in order,
    behind the results the provider itself delivered. *)
Inductive answered : list AgentMessage -> Prop :=
| answered_nil : answered []
| answered_message l m : answered l -> asks m = [] -> answered (l ++ [m])
| answered_turn l m provided results :
    answered l -> Forall (fun x => is_Some (result_id x)) provided -> result_id <$> results = Some <$> asks m ->
    answered (l ++ m :: provided ++ results).

(** The messages of a finished run: the last turn may have failed before its
    calls were run or, when the run was aborted, have answered only the first of them. *)
Definition finished_messages (stopped : bool) (l : list AgentMessage) : Prop :=
  answered l \/
  exists l0 m provided results, l = l0 ++ m :: provided ++ results /\ answered l0 /\ Forall (fun x => is_Some (result_id x)) provided /\
    ((ends_run m /\ results = []) \/ (stopped = true /\ result_id <$> results `prefix_of` Some <$> asks m)).
End Answers.

(** ** Contracts *)

Section Contracts.
Context {W : Type} `{LoopHooks W} (resolved : ContentBlock -> bool).

(** A tool host answers the calls in order, all of them unless the run is
    aborted, and its events are those of tools and of whole messages. *)
Class HostAnswers (host : ToolHost W) : Prop := {
  host_results w c m calls : match (execute w c m calls).2.2 with
    | Ok (ms, _) =>
        result_id <$> ms `prefix_of` Some <$> (call_id <$> calls) /\
        (aborted (execute w c m calls).1 = false -> result_id <$> ms = Some <$> (call_id <$> calls)) /\
        phases InTurn (Emitted <$> (execute w c m calls).2.1) = InTurn
    | Err _ => phases InTurn (Emitted <$> (execute w c m calls).2.1) <> BadPhase
    end;
  host_abort w c m calls : aborted w = true -> aborted (execute w c m calls).1 = true }.

(** What the loop relies on of its hooks and provider: drained messages can be
given back, a provider starts its message once and delivers tool results as such,
and an aborted run stays aborted. *)
Class LoopLaws : Prop := {
  can_restore : is_Some (@restorePendingMessages W _);
  starts_once w c cfg : (length (List.filter (fun e => match e with StreamStart _ => true | _ => false end) (s_events (stream w c cfg).2)) <= 1)%nat;
  delivers_results w c cfg : Forall (fun x => is_Some (result_id x)) (s_toolResults (stream w c cfg).2);
  finish_abort w m rs c ms : aborted w = true -> aborted (finishTurn w m rs c ms).1 = true;
  sink_abort w e : aborted w = true -> aborted (eventSink w e) = true }.

(** Queued and prepared messages are no assistant turns with calls to run. *)
Class QuietQueues : Prop := {
  steering_asks w : Forall (fun m => asks resolved m = []) (getSteeringMessages w).2;
  followup_asks w : Forall (fun m => asks resolved m = []) (getFollowUpMessages w).2;
  prepared_asks w m rs c ms u : (prepareNextTurn w m rs c ms).2 = Ok (Some u) -> Forall (fun m => asks resolved m = []) (u_messages u) }.
End Contracts.

(** ** Lemmas *)

Lemma phases_app p t t' : phases p (t ++ t') = phases (phases p t) t'.
Proof. apply foldl_app. Qed.

Lemma keeps_app commits s t s' t' s'' : keeps commits s t s' -> keeps commits s' t' s'' -> keeps commits s (t ++ t') s''.
Proof.
  intros H1 H2. revert H1. induction H2 as [|? ? ? ? ? H2 IH Hc]; intros H1; [by rewrite app_nil_r|].
  rewrite app_assoc. econstructor; [by apply IH|done].
Qed.

Lemma keeps_events commits s es : keeps commits s (Emitted <$> es) s.
Proof. induction es as [|e es IH] using rev_ind; [constructor|]. rewrite fmap_app. econstructor; [exact IH|by constructor]. Qed.

Lemma keeps_one commits s x s' : custody commits s x s' -> keeps commits s [x] s'.
Proof. intros Hc. apply (keeps_snoc _ _ [] s); [constructor|done]. Qed.

Lemma others_app ms ms' : others (ms ++ ms') = others ms ++ others ms'.
Proof. apply List.filter_app. Qed.

Lemma asks_system resolved m : is_system m = true -> asks resolved m = [].
Proof. unfold is_system, asks. by destruct (body m). Qed.

(** [declareToolChanges] only adds or changes system messages. *)
Lemma declared_others number_text c pending allowed now : others (declareToolChanges number_text c pending allowed now) = others pending.
Proof.
  unfold declareToolChanges. pose proof (last_system_split pending) as Hs. destruct (last_system pending) as [i|].
  - destruct Hs as (l1 & m & l2 & -> & <- & Hm & Hl2). rewrite !replace_at_middle, withToolChanges_twice. case_match; [done|].
    rewrite !others_app. f_equal. unfold others. cbn [List.filter]. rewrite Hm.
    assert (forall ch, is_system (withToolChanges m ch) = true) as -> by (intros ch; unfold withToolChanges, is_system in *; by destruct (body m)).
    done.
  - rewrite insert_index_others by done. cbn [take drop app]. by destruct (tool_changes _ _ _) as [[] []].
Qed.

Lemma declared_asks number_text resolved c pending allowed now :
  Forall (fun m => asks resolved m = []) pending -> Forall (fun m => asks resolved m = []) (declareToolChanges number_text c pending allowed now).
Proof.
  intros Hp. assert (forall l, Forall (fun m => asks resolved m = []) (others l) -> Forall (fun m => asks resolved m = []) l) as Hothers.
  { induction l as [|m l IH]; intros Ho; [constructor|]. unfold others in Ho. cbn [List.filter] in Ho.
    destruct (is_system m) eqn:Hs; cbn [negb] in Ho; [constructor; [by apply asks_system|by apply IH]|].
    apply Forall_cons in Ho as [? ?]. constructor; [done|by apply IH]. }
  apply Hothers. rewrite declared_others. unfold others. rewrite !Forall_forall in *. intros m [Hm _]%elem_of_filter_bool. by apply Hp.
Qed.

Lemma answered_messages resolved l ms : answered resolved l -> Forall (fun m => asks resolved m = []) ms -> answered resolved (l ++ ms).
Proof.
  intros Hl Hms. induction ms as [|m ms IH] using rev_ind; [by rewrite app_nil_r|]. apply Forall_app in Hms as [Hms Hm].
  rewrite Forall_singleton in Hm. rewrite app_assoc. constructor; [by apply IH|done].
Qed.

(** ** Reasoning about programs *)

Section Programs.
Context {W : Type} `{LoopHooks W} `{host : ToolHost W}.
Context (number_text : num -> jstring) (resolved : ContentBlock -> bool) (policy_refusal : jstring -> bool) (allowed_choice : jstring -> bool).
Context {laws : LoopLaws (W := W)} {quiets : QuietQueues (W := W) resolved} {answers : HostAnswers host}.

Definition wp {A} (m : M A) (Q : outcome A -> Run W -> Prop) (r : Run W) : Prop := Q (m r).2 (m r).1.

Lemma wp_mono {A} (m : M A) (Q Q' : outcome A -> Run W -> Prop) r : (forall o r', Q o r' -> Q' o r') -> wp m Q r -> wp m Q' r.
Proof. unfold wp. auto. Qed.

Lemma wp_ret {A} (a : A) Q r : Q (Ret a) r -> wp (ret a) Q r.
Proof. done. Qed.

Lemma wp_throw {A} e Q r : Q (Throw e) r -> wp (throw (A := A) e) Q r.
Proof. done. Qed.

Lemma wp_bind {A B} (m : M A) (k : A -> M B) Q r :
  wp m (fun o r' => match o with Ret a => wp (k a) Q r' | Throw e => Q (Throw e) r' end) r -> wp (bind m k) Q r.
Proof. unfold wp, bind. by destruct (m r) as [r' [a|e]]. Qed.

Lemma wp_call {A} (f : W -> W * A) note Q r :
  (forall w a, f (world r) = (w, a) -> Q (Ret a) (mkRun w (trace r ++ note a))) -> wp (call f note) Q r.
Proof. unfold wp, call. intros HQ. destruct (f (world r)) as [w a] eqn:Hf. cbn. by apply HQ. Qed.

(** Where the monitors are. *)
Definition commits : bool := match commitQueuedConsumption (W := W) with Some _ => true | None => false end.

(** Calls are only run for a response that came to its end and did not fail, and they are all the calls it asks for. *)
Definition safe (x : Exchange) : Prop :=
  match x with
  | Dispatched m calls =>
      exists a, body m = AssistantBody a /\ shouldTerminateAssistantTurn policy_refusal a = false /\ a_stop a <> StopLength /\ calls = tool_calls resolved a
  | _ => True
  end.

Lemma safe_events es : Forall safe (Emitted <$> es).
Proof. apply Forall_fmap, Forall_forall. by intros e _. Qed.

Record At (p : Phase) (s : Custody) (r : Run W) : Prop := {
  at_phase : phases NotStarted (trace r) = p;
  at_custody : keeps commits Nothing (trace r) s;
  at_safe : Forall safe (trace r) }.

Lemma At_step p s r w xs p' s' :
  At p s r -> phases p xs = p' -> keeps commits s xs s' -> Forall safe xs -> At p' s' (mkRun w (trace r ++ xs)).
Proof. intros [<- Hk Hf] Hp Hs Hx. split; cbn; [by rewrite phases_app|by eapply keeps_app|by apply Forall_app]. Qed.

Lemma At_one p s r w x s' :
  At p s r -> custody commits s x s' -> match x with Emitted _ | Dispatched _ _ => False | _ => True end -> At p s' (mkRun w (trace r ++ [x])).
Proof.
  intros HA Hc Hx. eapply At_step; [done| |by apply keeps_one|]; destruct x; try done; by repeat constructor.
Qed.

Lemma At_same p s r w : At p s r -> At p s (mkRun w (trace r ++ [])).
Proof. intros HA. eapply At_step; [done..|constructor|constructor]. Qed.

Lemma wp_silent {A} (f : W -> W * A) p s Q r :
  At p s r -> (forall w a, f (world r) = (w, a) -> At p s (mkRun w (trace r ++ [])) -> Q (Ret a) (mkRun w (trace r ++ []))) -> wp (silent f) Q r.
Proof. intros HA HQ. apply wp_call. intros w a Hf. apply HQ; [done|by apply At_same]. Qed.

Lemma wp_emit e p s (Q : outcome unit -> Run W -> Prop) r :
  At p s r ->
  (forall r', At (next_phase p e) s r' -> trace r' = trace r ++ [Emitted e] ->
     (aborted (world r) = true -> aborted (world r') = true) -> Q (Ret tt) r') ->
  wp (emit e) Q r.
Proof.
  intros HA HQ. apply wp_call. intros w [] [= <-]. apply HQ; [|done|apply sink_abort].
  eapply At_step; [done|done| |by repeat constructor]. apply keeps_one. by constructor.
Qed.

Lemma wp_each_message ms s r :
  At InTurn s r -> wp (each emit_message ms) (fun o r' => o = Ret tt /\ At InTurn s r') r.
Proof.
  revert r. induction ms as [|m ms IH]; intros r HA; cbn [each]; [by apply wp_ret|].
  apply wp_bind, wp_bind, (wp_emit _ InTurn s); [done|]. intros r1 HA1 _ _.
  apply (wp_emit _ InMessage s); [done|]. intros r2 HA2 _ _. by apply IH.
Qed.

(** ** Queues *)

Definition hold (q : Queue) (ms : list AgentMessage) : Custody := match ms with [] => Nothing | _ => Held q ms end.

Notation quiet_messages := (Forall (fun m => asks resolved m = [])).

Lemma wp_drain v q p (Q : outcome Vars -> Run W -> Prop) r :
  At p Nothing r ->
  (forall ms r', quiet_messages ms -> At p (hold q ms) r' -> Q (Ret (set_pending v q ms)) r') -> wp (drain v q) Q r.
Proof.
  intros HA HQ. apply wp_bind, wp_call. intros w ms Hf. apply wp_ret, HQ.
  - destruct q; [pose proof (steering_asks resolved (world r)) as Hq|pose proof (followup_asks resolved (world r)) as Hq]; by rewrite Hf in Hq.
  - eapply At_one; [done| |done]. destruct ms; by constructor.
Qed.

Lemma wp_restore q ms p (Q : outcome unit -> Run W -> Prop) r :
  At p (Held q ms) r ->
  (forall w, At p Nothing (mkRun w (trace r ++ [Restored q ms])) -> Q (Ret tt) (mkRun w (trace r ++ [Restored q ms]))) -> wp (restore q ms) Q r.
Proof.
  intros HA HQ. unfold restore. destruct can_restore as [f Hf]. rewrite Hf. apply wp_call. intros w [] _. apply HQ.
  eapply At_one; [done|constructor|done].
Qed.

Lemma wp_drain_either v none p (Q : outcome Vars -> Run W -> Prop) r :
  At p Nothing r ->
  (forall q ms r', quiet_messages ms -> At p (hold q ms) r' ->
     Q (Ret (set_drained (set_pending v q ms) (if nonempty ms then Some q else none))) r') -> wp (drain_either v none) Q r.
Proof.
  intros HA HQ. apply wp_bind, (wp_drain _ _ p); [done|]. intros ms r1 Hms HA1. cbn [pendingMessages set_pending].
  destruct ms as [|m ms]; cbn [nonempty].
  - apply wp_bind, (wp_drain _ _ p); [done|]. intros ms r2 Hms2 HA2. apply wp_ret. apply (HQ FollowUpQueue ms); done.
  - apply wp_ret. apply (HQ SteeringQueue (m :: ms)); done.
Qed.

(** What holds of the variables: the pending messages are in custody, of the queue they came from. *)
Record Fits (v : Vars) (s : Custody) : Prop := {
  ft_custody : s = hold (pendingSource v) (pendingMessages v);
  ft_pending : quiet_messages (pendingMessages v);
  ft_prepared : quiet_messages (preparedMessages v);
  ft_drained : forall q, drainedTerminatingQueue v = Some q -> q = pendingSource v /\ pendingMessages v <> [] }.

(** The variables a queue operation leaves alone. *)
Definition frame (v v' : Vars) : Prop :=
  newMessages v' = newMessages v /\ firstTurn v' = firstTurn v /\ turnStartAlreadyEmitted v' = turnStartAlreadyEmitted v.

(** The run has ended: the messages of its last event are these, and the monitors are done. *)
Definition ended (ms : list AgentMessage) (stopped : bool) (r : Run W) : Prop :=
  At Finished Nothing r /\ (exists t, trace r = t ++ [Emitted (AgentEnd ms)]) /\ (stopped = true -> aborted (world r) = true).

Lemma wp_end_run v p (Q : outcome (option Vars) -> Run W -> Prop) r :
  At p Nothing r -> p = BetweenTurns \/ p = InTurn ->
  (forall r', ended (newMessages v) (aborted (world r)) r' -> Q (Ret None) r') -> wp (end_run v) Q r.
Proof.
  intros HA Hp HQ. apply wp_bind, (wp_emit _ p Nothing); [done|]. intros r' HA' Ht Habort. apply wp_ret, HQ.
  split; [by destruct Hp as [-> | ->]|]. split; [by exists (trace r)|]. done.
Qed.

Lemma wp_refreshed v s p (Q : outcome (option Vars) -> Run W -> Prop) r :
  Fits v s -> At p s r -> p = BetweenTurns \/ p = InTurn ->
  (forall v' s' r', Fits v' s' -> At p s' r' -> frame v v' -> drainedTerminatingQueue v' = None ->
     (drainedTerminatingQueue v = None -> v' = v) -> Q (Ret (Some v')) r') ->
  (forall r' stopped, ended (newMessages v) stopped r' -> Q (Ret None) r') -> wp (refreshed v) Q r.
Proof.
  intros HF HA Hp HQ HE. unfold refreshed. destruct (drainedTerminatingQueue v) as [q|] eqn:Hd.
  2: { apply wp_ret. eapply HQ; done. }
  unfold refreshTerminatingQueueDrain. rewrite Hd. destruct can_restore as [f Hf]. rewrite Hf.
  destruct (ft_drained _ _ HF q Hd) as [-> Hne]. rewrite (ft_custody _ _ HF) in HA.
  apply wp_bind, wp_bind, (wp_restore _ _ p). { destruct (pendingMessages v); done. }
  intros w HA1. apply (wp_drain_either _ _ p); [done|]. intros q ms r2 Hms HA2. cbn [pendingMessages set_drained set_pending explicitContinuation].
  destruct (nonempty ms || explicitContinuation v) eqn:Hg.
  - apply wp_ret. eapply HQ; [|exact HA2|done|done|done]. split; try done. apply (ft_prepared _ _ HF).
  - apply orb_false_iff in Hg as [Hg _]. destruct ms; [|done]. apply (wp_end_run _ p); [done..|]. intros r3 H3. by eapply HE.
Qed.

(** ** A turn *)

Definition open_phase (v : Vars) : Phase := if turnStartAlreadyEmitted v || firstTurn v then InTurn else BetweenTurns.

Lemma wp_begin_turn v s (Q : outcome Vars -> Run W -> Prop) r :
  At (open_phase v) s r ->
  (forall v' r', At InTurn s r' -> v' = set_turn v (firstTurn v') false -> (turnStartAlreadyEmitted v = false -> firstTurn v' = false) ->
     (firstTurn v = false -> firstTurn v' = false) -> Q (Ret v') r') ->
  wp (begin_turn v) Q r.
Proof.
  unfold open_phase, begin_turn. intros HA HQ. destruct (turnStartAlreadyEmitted v) eqn:Ht; cbn [orb] in HA; [by apply wp_ret, HQ|].
  destruct (firstTurn v) eqn:Hf; [by apply wp_ret, HQ|]. apply wp_bind, (wp_emit _ BetweenTurns s); [done|].
  intros r1 HA1 _ _. apply wp_ret, HQ; try done. destruct v; cbn in *; by subst.
Qed.

(** After the commit the pending messages may be admitted. *)
Definition ready (v : Vars) (s : Custody) : Prop :=
  match pendingMessages v with
  | [] => s = Nothing
  | ms => s = Accepted (pendingSource v) ms \/ (commits = false /\ s = Held (pendingSource v) ms)
  end.

Lemma wp_commit_pending v s p (Q : outcome unit -> Run W -> Prop) r :
  Fits v s -> At p s r ->
  (forall s' r', ready v s' -> At p s' r' -> Q (Ret tt) r') -> (forall e r', At p Nothing r' -> Q (Throw e) r') -> wp (commit_pending v) Q r.
Proof.
  intros HF HA HQ HT. unfold commit_pending, ready, commits in *. rewrite (ft_custody _ _ HF) in HA.
  destruct (commitQueuedConsumption) as [commit|] eqn:Hc.
  2: { apply wp_ret. eapply HQ; [|exact HA]. destruct (pendingMessages v); [done|by right]. }
  destruct (pendingMessages v) as [|m ms] eqn:Hp; cbn [nonempty]; [by apply wp_ret; eapply HQ|]. cbn [hold] in HA.
  apply wp_bind, wp_call. intros w [e|] Hf.
  - apply wp_bind. assert (At p (Held (pendingSource v) (m :: ms)) (mkRun w (trace r ++ []))) as HA1 by (by apply At_same).
    apply (wp_restore _ _ p); [done|]. intros w' HA2. by apply wp_throw, HT.
  - apply wp_ret. eapply HQ; [by left|]. eapply At_one; [done|constructor|done].
Qed.

Lemma wp_admit_pending v s (Q : outcome Vars -> Run W -> Prop) r :
  Forall (fun m => asks resolved m = []) (preparedMessages v ++ pendingMessages v) -> ready v s -> At InTurn s r ->
  (forall ms r', Forall (fun m => asks resolved m = []) ms -> At InTurn Nothing r' -> Q (Ret (admit_messages v ms)) r') ->
  wp (admit_pending number_text allowed_choice v) Q r.
Proof.
  intros Hms Hr HA HQ. apply wp_bind, (wp_silent _ InTurn s); [done|]. intros w now _ HA1.
  set (ms := declareToolChanges _ _ _ _ _).
  assert (others (pendingMessages v) `suffix_of` others ms) as Hsuf.
  { unfold ms. rewrite declared_others, others_app. by eexists. }
  apply wp_bind, wp_call. intros w' [] _. eapply wp_bind, wp_mono, (wp_each_message ms Nothing).
  - intros o r' [-> HA2]. apply wp_ret, HQ; [by apply declared_asks|done].
  - eapply At_one; [done| |done]. unfold ready in Hr. destruct (pendingMessages v) as [|m l].
    + subst s. constructor.
    + destruct Hr as [-> |[Hc ->]]; by constructor.
Qed.

(** *** The response *)

Definition partial_phase (partial : option AssistantMsg) : Phase := match partial with Some _ => InMessage | None => InTurn end.
Definition starts (es : list StreamEvent) : nat := length (List.filter (fun e => match e with StreamStart _ => true | _ => false end) es).

Lemma wp_stream_events t es c partial s (Q : outcome (AgentContext * option AssistantMsg * option (option MsgStop)) -> Run W -> Prop) r :
  At (partial_phase partial) s r -> (starts es <= match partial with Some _ => 0 | None => 1 end)%nat ->
  (forall c' partial' terminal r', At (partial_phase partial') s r' -> Q (Ret (c', partial', terminal)) r') ->
  wp (stream_events t es c partial) Q r.
Proof.
  revert c partial r. induction es as [|e es IH]; intros c partial r HA Hs HQ; cbn [stream_events]; [by apply wp_ret, HQ|].
  destruct e as [a|a|failed|]; unfold starts in Hs; cbn [List.filter length] in Hs.
  - destruct partial; [lia|]. apply wp_bind, (wp_emit _ InTurn s); [done|]. intros r' HA' _ _. apply IH; [done| |done]. unfold starts. lia.
  - destruct partial as [b|]; [|by apply IH]. apply wp_bind, (wp_emit _ InMessage s); [done|]. intros r' HA' _ _. by apply IH.
  - by apply wp_ret, HQ.
  - by apply IH.
Qed.

Lemma wp_response c cfg (Q : outcome (AgentContext * AssistantMsg * num * list AgentMessage) -> Run W -> Prop) r :
  At InTurn Nothing r ->
  (forall c' a t results r', At InTurn Nothing r' -> Forall (fun x => is_Some (result_id x)) results -> Q (Ret (c', a, t, results)) r') ->
  wp (streamAssistantResponse resolved c cfg) Q r.
Proof.
  intros HA HQ. apply wp_bind, wp_call. intros w x Hf.
  assert (At InTurn Nothing (mkRun w (trace r ++ [Requested c cfg]))) as HA1.
  { eapply At_one; [done|by constructor|done]. }
  assert (Forall (fun m => is_Some (result_id m)) (s_toolResults x) /\ (starts (s_events x) <= 1)%nat) as [Hres Hst].
  { pose proof (delivers_results (world r) c cfg) as H1. pose proof (starts_once (world r) c cfg) as H2. rewrite Hf in H1, H2. by split. }
  apply wp_bind, (wp_silent _ InTurn Nothing); [done|]. intros w1 t _ HA2.
  apply wp_bind, (wp_stream_events _ _ _ None Nothing); [done|done|]. intros c' partial terminal r3 HA3.
  apply wp_bind, (wp_silent _ (partial_phase partial) Nothing); [done|]. intros w4 stopped _ HA4. apply wp_bind. unfold settle_message.
  destruct partial as [b|]; [rewrite bool_decide_eq_true_2 by done|rewrite bool_decide_eq_false_2 by (intros [? ?]; done)].
  - apply wp_bind, (wp_emit _ InMessage Nothing); [done|]. intros r5 HA5 _ _. by apply wp_ret, wp_ret, HQ.
  - apply wp_bind, (wp_emit _ InTurn Nothing); [done|]. intros r5 HA5 _ _.
    apply wp_bind, (wp_emit _ InMessage Nothing); [done|]. intros r6 HA6 _ _. by apply wp_ret, wp_ret, HQ.
Qed.

(** Every program may throw once nothing is held. *)
Definition thrown (r : Run W) : Prop := exists p, p <> BadPhase /\ At p Nothing r.

Lemma wp_respond v (Q : outcome (Vars * AssistantMsg * AgentMessage * list AgentMessage) -> Run W -> Prop) r :
  At InTurn Nothing r ->
  (forall v' a t results r', At InTurn Nothing r' -> Forall (fun x => is_Some (result_id x)) results ->
     newMessages v' = newMessages v ++ assistant a t :: results -> firstTurn v' = firstTurn v ->
     turnStartAlreadyEmitted v' = turnStartAlreadyEmitted v -> drainedTerminatingQueue v' = drainedTerminatingQueue v ->
     pendingMessages v' = pendingMessages v -> preparedMessages v' = preparedMessages v ->
     Q (Ret (v', a, assistant a t, results)) r') ->
  (forall e r', thrown r' -> Q (Throw e) r') -> wp (respond resolved v) Q r.
Proof.
  intros HA HQ HT. apply wp_bind, wp_call. intros w u _.
  assert (At InTurn Nothing (mkRun w (trace r ++ [Prepared (ctx v) u]))) as HA1 by (eapply At_one; [done|by constructor|done]).
  apply wp_bind. destruct u as [u|e]; [apply wp_ret|by apply wp_throw, HT; exists InTurn].
  apply wp_bind, wp_response; [done|]. intros c' a t results r2 HA2 Hres.
  eapply wp_bind, wp_mono, (wp_each_message results Nothing); [|done]. intros o r3 [-> HA3].
  apply wp_bind, (wp_silent _ InTurn Nothing); [done|]. intros w4 failed _ HA4. apply wp_bind.
  destruct failed as [e|]; [by apply wp_throw, HT; exists InTurn|]. apply wp_ret, wp_ret.
  apply HQ; try done; destruct u; cbn; try done; by rewrite <- app_assoc.
Qed.

(** *** The calls *)

Lemma wp_failed_calls calls (Q : outcome (list AgentMessage) -> Run W -> Prop) r :
  At InTurn Nothing r ->
  (forall ms r', result_id <$> ms = Some <$> (call_id <$> calls) -> At InTurn Nothing r' -> Q (Ret ms) r') ->
  wp (failToolCallsFromTruncatedMessage calls) Q r.
Proof.
  revert Q r. induction calls as [|c calls IH]; intros Q r HA HQ; cbn [failToolCallsFromTruncatedMessage]; [by apply wp_ret, HQ|].
  apply wp_bind, (wp_emit _ InTurn Nothing); [done|]. intros r1 HA1 _ _. apply wp_bind, (wp_emit _ InTurn Nothing); [done|]. intros r2 HA2 _ _.
  apply wp_bind, (wp_silent _ InTurn Nothing); [done|]. intros w now _ HA3. apply wp_bind, wp_bind, (wp_emit _ InTurn Nothing); [done|].
  intros r4 HA4 _ _. apply (wp_emit _ InMessage Nothing); [done|]. intros r5 HA5 _ _. apply wp_bind, IH; [done|].
  intros ms r6 Hms HA6. apply wp_ret, HQ; [|done]. rewrite !fmap_cons. cbn [result_id body]. by f_equal.
Qed.

(** The results answer the calls, all of them unless the run is aborted. *)
Definition answers_calls (a : AssistantMsg) (results : list AgentMessage) (r : Run W) : Prop :=
  result_id <$> results `prefix_of` Some <$> (call_id <$> tool_calls resolved a) /\
  (aborted (world r) = false -> result_id <$> results = Some <$> (call_id <$> tool_calls resolved a)).

Lemma wp_run_tools v a m (Q : outcome (Vars * list AgentMessage * bool * bool) -> Run W -> Prop) r :
  At InTurn Nothing r -> body m = AssistantBody a -> shouldTerminateAssistantTurn policy_refusal a = false ->
  (forall results more terminated r', At InTurn Nothing r' -> answers_calls a results r' ->
     Q (Ret (append_results v results, results, more, terminated)) r') ->
  (forall more terminated r', tool_calls resolved a = [] -> At InTurn Nothing r' -> Q (Ret (v, [], more, terminated)) r') ->
  (forall e r', thrown r' -> Q (Throw e) r') -> wp (run_tools resolved v a m) Q r.
Proof.
  intros HA Hbody Hgood HQ HN HT. unfold run_tools. destruct (tool_calls resolved a) as [|c calls] eqn:Hc; [by apply wp_ret, HN|].
  assert (a_stop a <> StopLength -> forall Q', (forall results b r', At InTurn Nothing r' -> answers_calls a results r' -> Q' (Ret (results, b)) r') ->
    (forall e r', thrown r' -> Q' (Throw e) r') -> wp (executeToolCalls (ctx v) m (c :: calls)) Q' r) as Hexec.
  { intros Hstop Q' HQ' HT'. apply wp_bind, wp_call. intros w x Hf.
    assert (safe (Dispatched m (c :: calls))) as Hsafe by (by exists a).
    assert (keeps commits Nothing (Dispatched m (c :: calls) :: (Emitted <$> x.1)) Nothing) as Hkeep.
    { apply (keeps_app _ _ [Dispatched m (c :: calls)] Nothing); [apply keeps_one; by constructor|apply keeps_events]. }
    pose proof (host_results (world r) (ctx v) m (c :: calls)) as Hh.
    rewrite Hf in Hh. cbn [fst snd] in Hh. destruct x.2 as [[ms b]|e].
    - destruct Hh as (Hpre & Hall & Hph). apply wp_ret, HQ'; [|unfold answers_calls; by rewrite Hc].
      eapply At_step; [done|by cbn|exact Hkeep|by constructor; [|apply safe_events]].
    - apply wp_throw, HT'. eexists. split; [exact Hh|]. eapply At_step; [done|by cbn|exact Hkeep|by constructor; [|apply safe_events]]. }
  apply wp_bind. destruct (a_stop a) eqn:Hstop.
  3: { apply wp_bind, wp_failed_calls; [done|]. intros ms r1 Hms HA1. apply wp_ret, wp_ret, HQ; [done|]. unfold answers_calls. cbn [fst]. rewrite Hc, Hms. by split. }
  all: apply Hexec; [done|intros results b r1 HA1 Hans; by apply wp_ret, HQ|exact HT].
Qed.

(** *** Between turns *)

Definition turn_result (o : outcome (option Vars)) (r : Run W) : Prop :=
  match o with
  | Ret (Some v) =>
      exists s, Fits v s /\ At (open_phase v) s r /\ firstTurn v = false /\ drainedTerminatingQueue v = None /\ answered resolved (newMessages v)
  | Ret None => exists ms, ended ms (aborted (world r)) r /\ finished_messages resolved policy_refusal (aborted (world r)) ms
  | Throw _ => thrown r
  end.

(** What is known after the calls of a turn were run. *)
Record Between (v : Vars) (r : Run W) : Prop := {
  bt_drained : drainedTerminatingQueue v = None;
  bt_pending : pendingMessages v = [];
  bt_prepared : preparedMessages v = [];
  bt_turn : firstTurn v = false /\ turnStartAlreadyEmitted v = false;
  bt_finished : finished_messages resolved policy_refusal (aborted (world r)) (newMessages v);
  bt_answered : aborted (world r) = false -> answered resolved (newMessages v) }.

Lemma finished_mono (b b' : bool) ms :
  (b = true -> b' = true) -> finished_messages resolved policy_refusal b ms -> finished_messages resolved policy_refusal b' ms.
Proof.
  intros Hb [Ha|(l0 & m & prov & rs & Hl & Ha & Hp & Hr)]; [by left|right]. exists l0, m, prov, rs. naive_solver.
Qed.

Lemma end_result v p r :
  At p Nothing r -> p = BetweenTurns \/ p = InTurn -> finished_messages resolved policy_refusal (aborted (world r)) (newMessages v) ->
  wp (end_run v) turn_result r.
Proof.
  intros HA Hp Hf. apply (wp_end_run _ p); [done..|]. intros r' He. exists (newMessages v). destruct He as (HA' & Ht & Hab).
  split; [by split_and!|]. by eapply finished_mono.
Qed.

(** Leaving with the messages of an answered history. *)
Lemma ended_answered ms stopped r : ended ms stopped r -> answered resolved ms -> turn_result (Ret None) r.
Proof. intros (HA & Ht & _) Ha. exists ms. split; [by split_and!|by left]. Qed.

Lemma wp_restore_drained {A} v s p (k : unit -> M A) Q r :
  Fits v s -> At p s r -> (drainedTerminatingQueue v = None -> s = Nothing) ->
  (forall r', At p Nothing r' -> wp (k tt) Q r') -> wp (bind (restore_drained v) k) Q r.
Proof.
  intros HF HA Hd HQ. apply wp_bind. unfold restore_drained. destruct (drainedTerminatingQueue v) as [q|] eqn:Hq.
  - destruct (ft_drained _ _ HF q Hq) as [-> Hne]. rewrite (ft_custody _ _ HF) in HA.
    apply (wp_restore _ _ p); [by destruct (pendingMessages v)|]. intros w HA'. by apply HQ.
  - apply wp_ret, HQ. by rewrite <- Hd.
Qed.

(** The end of [after_turn]: what the queues have decides about the next turn. *)
Lemma wp_next_turn v s p (more terminated : bool) r :
  Fits v s -> At p s r -> drainedTerminatingQueue v = None -> (terminated = false -> s = Nothing) ->
  firstTurn v = false -> p = open_phase v -> answered resolved (newMessages v) ->
  wp (next_turn v more terminated) turn_result r.
Proof.
  intros HF HA Hd Hs Hf -> Ha.
  assert (forall v' s' r', Fits v' s' -> At (open_phase v') s' r' -> drainedTerminatingQueue v' = None -> firstTurn v' = false ->
    newMessages v' = newMessages v -> turnStartAlreadyEmitted v' = turnStartAlreadyEmitted v ->
    wp (if more || nonempty (pendingMessages v') then ret (Some (set_explicit v' false)) else outer_pass v') turn_result r') as Htail.
  { intros v' s' r' HF' HA' Hd' Hf' Hnew Hst. assert (answered resolved (newMessages v')) as Ha' by (by rewrite Hnew).
    destruct (more || nonempty (pendingMessages v')) eqn:Hmore.
    - apply wp_ret. exists s'. split_and!; try done. destruct HF'. by split.
    - apply orb_false_iff in Hmore as [_ Hp]. destruct (pendingMessages v') as [|? ?] eqn:Hpend; [|done].
      rewrite (ft_custody _ _ HF'), Hpend in HA'. apply wp_bind, (wp_drain _ _ (open_phase v')); [done|]. intros ms r2 Hms HA2.
      cbn [pendingMessages explicitContinuation set_pending]. destruct (nonempty ms || explicitContinuation v') eqn:Hn.
      + apply wp_ret. exists (hold FollowUpQueue ms). split_and!; try done. split; try done; [apply (ft_prepared _ _ HF')|].
        cbn. intros q. by rewrite Hd'.
      + apply orb_false_iff in Hn as [Hn _]. destruct ms; [|done]. apply (end_result _ (open_phase v')); [done| |by left].
        unfold open_phase. destruct (_ || _); auto. }
  apply wp_bind. destruct terminated; [by apply wp_ret, (Htail v s)|].
  rewrite (Hs eq_refl) in HA. apply (wp_drain _ _ (open_phase v)); [done|]. intros ms r1 Hms HA1.
  apply (Htail _ (hold SteeringQueue ms)); try done. split; try done; [apply (ft_prepared _ _ HF)|]. cbn. intros q. by rewrite Hd.
Qed.

(** The second half of [after_turn], from the preparation of the next turn on. *)
Lemma wp_prepare_next v s m results (more terminated : bool) r :
  Fits v s -> At (open_phase v) s r -> firstTurn v = false -> answered resolved (newMessages v) ->
  (drainedTerminatingQueue v = None -> s = Nothing) -> (terminated = false -> drainedTerminatingQueue v = None) ->
  wp (prepare_next v m results more terminated) turn_result r.
Proof.
  intros HF HA Hf Ha Hs Ht. assert (open_phase v = BetweenTurns \/ open_phase v = InTurn) as Hop.
  { unfold open_phase. destruct (_ || _); auto. }
  apply wp_bind, (wp_silent _ (open_phase v) s); [done|]. intros w u Hu HA1.
  pose proof (fun u' => prepared_asks resolved (world r) m results (ctx v) (newMessages v) u') as Hprep. rewrite Hu in Hprep. cbn [snd] in Hprep.
  apply wp_bind. destruct u as [u|e].
  2: { eapply wp_restore_drained; [exact HF|exact HA1|done|]. intros r2 HA2. apply wp_throw. exists (open_phase v). split; [|done]. by destruct Hop as [-> | ->]. }
  apply wp_ret. assert (Fits (update_vars v true u) s /\ open_phase (update_vars v true u) = open_phase v /\ frame v (update_vars v true u) /\
    drainedTerminatingQueue (update_vars v true u) = drainedTerminatingQueue v) as (HF2 & Hop2 & (Hn2 & Hf2 & Hst2) & Hd2).
  { destruct u as [u|]; cbn; split_and!; try done. destruct HF. split; try done. by apply Hprep. }
  set (v2 := update_vars v true u) in *. apply wp_bind, (wp_silent _ (open_phase v) s); [done|]. intros w3 stopped _ HA3.
  destruct stopped.
  - eapply wp_restore_drained; [exact HF2|exact HA3|by rewrite Hd2|]. intros r4 HA4. apply (end_result _ (open_phase v)); [done..|].
    left. by rewrite Hn2.
  - apply wp_bind, (wp_refreshed _ s (open_phase v)); [done..| |].
    + intros v' s' r4 HF4 HA4 (Hn4 & Hf4 & Hst4) Hd4 Hsame. apply (wp_next_turn _ s' (open_phase v)); try done.
      * intros Hterm. specialize (Ht Hterm). rewrite Hd2 in Hsame. rewrite (Hsame Ht) in HF4. rewrite (ft_custody _ _ HF4), <- (ft_custody _ _ HF2).
        by apply Hs.
      * by rewrite Hf4, Hf2.
      * rewrite <- Hop2. unfold open_phase. by rewrite Hf4, Hst4.
      * by rewrite Hn4, Hn2.
    + intros r4 stop4 He. apply wp_ret. eapply ended_answered; [exact He|]. by rewrite Hn2.
Qed.

Lemma wp_after_turn v m results (more terminated : bool) r :
  Between v r -> At InTurn Nothing r -> wp (after_turn v m results more terminated) turn_result r.
Proof.
  intros HB HA. apply wp_bind, wp_call. intros w d Hd.
  assert (aborted (world r) = true -> aborted w = true) as Hmono.
  { intros Hab. pose proof (finish_abort (world r) m results (ctx v) (newMessages v) Hab) as Hf. by rewrite Hd in Hf. }
  assert (At InTurn Nothing (mkRun w (trace r ++ []))) as HA1 by (by apply At_same).
  apply wp_bind. destruct d as [d|e]; [apply wp_ret|by apply wp_throw; exists InTurn].
  apply wp_bind, (wp_emit _ InTurn Nothing); [done|]. intros r2 HA2 _ Hab2. cbn [world] in Hab2.
  apply wp_bind, wp_call. intros w3 stopped [= <- <-]. assert (At BetweenTurns Nothing (mkRun (world r2) (trace r2 ++ []))) as HA3 by (by apply At_same).
  assert (finished_messages resolved policy_refusal (aborted (world r2)) (newMessages v)) as Hfin.
  { eapply finished_mono; [|apply (bt_finished _ _ HB)]. auto. }
  destruct (aborted (world r2)) eqn:Hstop; cbn [orb].
  { apply (end_result _ BetweenTurns); [done|by left|]. cbn [world]. by rewrite Hstop. }
  destruct (match d with Some EndRun => true | _ => false end) eqn:Hdec.
  { apply (end_result _ BetweenTurns); [done|by left|]. cbn [world]. by rewrite Hstop. }
  assert (answered resolved (newMessages v)) as Ha.
  { apply (bt_answered _ _ HB). destruct (aborted (world r)); [|done]. by specialize (Hab2 (Hmono eq_refl)). }
  clear Hab2 Hmono Hfin. set (b := match d with Some ContinueRun => true | _ => false end).
  destruct (bt_turn _ _ HB) as [Hft Hts]. pose proof (bt_drained _ _ HB) as Hdr. pose proof (bt_pending _ _ HB) as Hpe. pose proof (bt_prepared _ _ HB) as Hpr.
  apply wp_bind. destruct terminated.
  - apply (wp_drain_either _ _ BetweenTurns); [done|]. intros q ms r4 Hms HA4. cbn [pendingMessages set_drained set_pending explicitContinuation set_explicit drainedTerminatingQueue].
    rewrite Hdr. destruct ms as [|x ms]; cbn [nonempty negb andb].
    + destruct b; cbn [negb].
      * apply wp_bind, wp_ret. apply (wp_prepare_next _ Nothing); try done.
        -- split; cbn; try done. by rewrite Hpr.
        -- unfold open_phase. cbn. by rewrite Hft, Hts.
      * apply (end_result _ BetweenTurns); [done|by left|by left].
    + apply wp_bind, wp_bind, (wp_emit _ BetweenTurns (Held q (x :: ms))); [done|]. intros r5 HA5 _ _. apply wp_ret.
      apply (wp_prepare_next _ (Held q (x :: ms))); try done.
      split; cbn; try done; [by rewrite Hpr|]. intros q' [= ->]. by split.
  - apply wp_ret. cbn [andb]. apply wp_bind, wp_ret. apply (wp_prepare_next _ Nothing); try done.
    + split; cbn; rewrite ?Hpe, ?Hpr, ?Hdr; done.
    + unfold open_phase. cbn. by rewrite Hft, Hts.
Qed.

Lemma prefix_nil_calls a results (r : Run W) : tool_calls resolved a = [] -> answers_calls a results r -> results = [].
Proof. intros Hc [Hp _]. rewrite Hc in Hp. apply prefix_nil_inv in Hp. by apply fmap_nil_inv in Hp. Qed.

(** A turn keeps the monitors and the pairing of calls and results. *)
Lemma wp_turn v s r :
  Fits v s -> At (open_phase v) s r -> drainedTerminatingQueue v = None -> answered resolved (newMessages v) ->
  (turnStartAlreadyEmitted v = true -> firstTurn v = false) ->
  wp (turn number_text resolved policy_refusal allowed_choice v) turn_result r.
Proof.
  intros HF HA Hd Ha Hfirst. apply wp_bind, (wp_begin_turn _ s); [done|]. intros v1 r1 HA1 Hv1 Hf1 Hf2.
  assert (firstTurn v1 = false) as Hft by (destruct (turnStartAlreadyEmitted v); auto).
  assert (newMessages v1 = newMessages v /\ Fits v1 s /\ drainedTerminatingQueue v1 = None /\ turnStartAlreadyEmitted v1 = false) as (Hn1 & HF1 & Hd1 & Hts1).
  { rewrite Hv1. cbn. split_and!; try done. destruct HF. by split. }
  clear Hv1 Hf1 Hf2. apply wp_bind. unfold refreshed. rewrite Hd1. apply wp_ret.
  apply wp_bind, (wp_commit_pending _ s InTurn); [done..| |].
  2: { intros e r2 HA2. by exists InTurn. }
  intros s2 r2 Hready HA2. apply wp_bind, (wp_admit_pending _ s2); [|done|done|].
  { apply Forall_app. split; [apply (ft_prepared _ _ HF1)|apply (ft_pending _ _ HF1)]. }
  intros ms r3 Hms HA3. set (v2 := admit_messages v1 ms). assert (answered resolved (newMessages v2)) as Ha2.
  { cbn. rewrite Hn1. by apply answered_messages. }
  apply wp_bind, wp_respond; [done| |by intros].
  intros v3 a t provided r4 HA4 Hprov Hn3 Hf3 Hts3 Hd3 Hp3 Hpr3.
  destruct (shouldTerminateAssistantTurn policy_refusal a) eqn:Hterm.
  - apply wp_bind, (wp_silent _ InTurn Nothing); [done|]. intros w5 d _ HA5. apply wp_bind.
    destruct d as [d|e]; [apply wp_ret|by apply wp_throw; exists InTurn].
    apply wp_bind, (wp_emit _ InTurn Nothing); [done|]. intros r6 HA6 _ _. apply (end_result _ BetweenTurns); [done|by left|].
    right. exists (newMessages v2), (assistant a t), provided, []. rewrite app_nil_r. split_and!; try done. by left.
  - apply wp_bind, (wp_run_tools _ _ _ _ r4); [done|done|done| | |by intros].
    + intros results more terminated r5 HA5 [Hpre Hall].
      assert (newMessages (append_results v3 results) = newMessages v2 ++ assistant a t :: provided ++ results) as Hn5.
      { cbn. by rewrite Hn3, <- app_assoc. }
      assert (aborted (world r5) = false -> answered resolved (newMessages (append_results v3 results))) as Hans.
      { intros Hab. rewrite Hn5. apply answered_turn; [done|done|by apply Hall]. }
      apply wp_after_turn; [|done]. split; try done; cbn [drainedTerminatingQueue pendingMessages preparedMessages firstTurn turnStartAlreadyEmitted append_results];
        rewrite ?Hd3, ?Hp3, ?Hpr3, ?Hf3, ?Hts3; try done.
      destruct (aborted (world r5)) eqn:Hab; [right|left; by apply Hans].
      exists (newMessages v2), (assistant a t), provided, results. split_and!; try done. by right.
    + intros more terminated r5 Hc HA5. rewrite app_nil_r.
      assert (answered resolved (newMessages v3)) as Hans.
      { rewrite Hn3. rewrite <- (app_nil_r provided). apply answered_turn; [done|done|]. cbn. by rewrite Hc. }
      apply wp_after_turn; [|done]. split; rewrite ?Hd3, ?Hp3, ?Hpr3, ?Hf3, ?Hts3; try done. by left.
Qed.

(** *** Runs *)

Lemma wp_turns fuel v s r :
  Fits v s -> At (open_phase v) s r -> drainedTerminatingQueue v = None -> answered resolved (newMessages v) ->
  (turnStartAlreadyEmitted v = true -> firstTurn v = false) ->
  wp (turns number_text resolved policy_refusal allowed_choice fuel v)
    (fun o r' => match o with
     | Ret (Some _) => turn_result (Ret None) r'
     | Ret None => exists p s', p <> BadPhase /\ At p s' r'
     | Throw _ => thrown r'
     end) r.
Proof.
  revert v s r. induction fuel as [|fuel IH]; intros v s r HF HA Hd Ha Hfirst; cbn [turns].
  - apply wp_ret. exists (open_phase v), s. split; [|done]. unfold open_phase. by destruct (_ || _).
  - eapply wp_bind, wp_mono, wp_turn; [|done..]. intros [[v'|]|e] r' Ht; cbn in Ht; [|by apply wp_ret|done].
    destruct Ht as (s' & HF' & HA' & Hf' & Hd' & Ha'). by apply (IH v' s').
Qed.

(** What a run leaves behind. *)
Definition run_result (o : outcome (option unit)) (r : Run W) : Prop :=
  match o with
  | Ret (Some _) =>
      At Finished Nothing r /\
      exists t ms, trace r = t ++ [Emitted (AgentEnd ms)] /\ finished_messages resolved policy_refusal (aborted (world r)) ms
  | Ret None => exists p s, p <> BadPhase /\ At p s r
  | Throw _ => thrown r
  end.

Lemma wp_runLoop fuel c new cfg r :
  At InTurn Nothing r -> answered resolved new ->
  wp (runLoop number_text resolved policy_refusal allowed_choice fuel c new cfg) run_result r.
Proof.
  intros HA Ha. apply wp_bind, (wp_drain _ _ InTurn); [done|]. intros ms r1 Hms HA1.
  eapply wp_mono, (wp_turns _ _ (hold SteeringQueue ms)); try done.
  intros [[[]|]|e] r' Ht; cbn in Ht |- *; try done. destruct Ht as (ms' & (HA' & [t Ht] & _) & Hf). split; [done|]. by exists t, ms'.
Qed.

Lemma wp_runAgentLoop fuel prompts c cfg w :
  Forall (fun m => asks resolved m = []) prompts ->
  wp (runAgentLoop number_text resolved policy_refusal allowed_choice fuel prompts c cfg) run_result (mkRun w []).
Proof.
  intros Hp. assert (At NotStarted Nothing (mkRun w [])) as HA by (split; [done|constructor|constructor]).
  apply wp_bind, (wp_silent _ NotStarted Nothing); [done|]. intros w1 now _ HA1.
  apply wp_bind, (wp_emit _ NotStarted Nothing); [done|]. intros r2 HA2 _ _.
  apply wp_bind, (wp_emit _ BetweenTurns Nothing); [done|]. intros r3 HA3 _ _.
  eapply wp_bind, wp_mono, (wp_each_message _ Nothing); [|done]. intros o r4 [-> HA4]. apply wp_runLoop; [done|].
  apply (answered_messages _ []); [constructor|by apply declared_asks].
Qed.

Lemma wp_runAgentLoopContinue fuel c cfg w :
  wp (runAgentLoopContinue number_text resolved policy_refusal allowed_choice fuel c cfg) run_result (mkRun w []).
Proof.
  assert (At NotStarted Nothing (mkRun w [])) as HA by (split; [done|constructor|constructor]). unfold runAgentLoopContinue.
  assert (forall e, wp (throw (A := option unit) e) run_result (mkRun w [])) as Hthrow by (intros e; apply wp_throw; by exists NotStarted).
  destruct (last (ac_messages c)) as [m|]; [|apply Hthrow].
  assert (wp (bind (emit AgentStart) (fun _ => bind (emit TurnStart) (fun _ =>
    runLoop number_text resolved policy_refusal allowed_choice fuel c [] cfg))) run_result (mkRun w [])) as Hrun.
  { apply wp_bind, (wp_emit _ NotStarted Nothing); [done|]. intros r2 HA2 _ _.
    apply wp_bind, (wp_emit _ BetweenTurns Nothing); [done|]. intros r3 HA3 _ _. apply wp_runLoop; [done|constructor]. }
  destruct (body m); try exact Hrun. apply Hthrow.
Qed.
End Programs.
