(* ===== verification/AgentLoopTraces.v ===== *)
(** * What the programs of the agent loop leave in the trace

Every program of the loop extends the trace, and by what can be said program by
program: tool executions that are started are ended before anything else goes
on, messages admitted are announced one by one and are at the end of the context
of the next request, and the run's messages and the context grow together. *)
From S2P Require Import Prelude JsString JsonText JsNumber JsObject JsMap Json Messages Compaction Transcript AgentLoop AgentLoopCorrect.
#[local] Open Scope Z_scope.

(** ** Running tool executions *)

Fixpoint remove_one (id : jstring) (l : list jstring) : list jstring :=
  match l with [] => [] | x :: l => if bool_decide (x = id) then l else x :: remove_one id l end.

(** The executions running after an event; [None]: an execution that does not run
    is updated or ended, or something else happens while one runs. *)
Definition next_running (running : list jstring) (e : AgentEvent) : option (list jstring) :=
  match e with
  | ToolExecutionStart id _ _ => Some (id :: running)
  | ToolExecutionUpdate id _ => if bool_decide (id ∈ running) then Some running else None
  | ToolExecutionEnd id _ _ => if bool_decide (id ∈ running) then Some (remove_one id running) else None
  | _ => match running with [] => Some [] | _ => None end
  end.

Definition running_of (running : option (list jstring)) (x : Exchange) : option (list jstring) :=
  match x with Emitted e => running ≫= fun l => next_running l e | _ => running end.

Definition running_after (running : option (list jstring)) (t : list Exchange) : option (list jstring) := foldl running_of running t.

(** ** Admitted messages *)

Definition message_events (m : AgentMessage) : list AgentEvent := [MessageStart m; MessageEnd m].

(** The messages admitted in a trace, in order. *)
Definition entered (t : list Exchange) : list AgentMessage := t ≫= fun x => match x with Entered ms => ms | _ => [] end.

(** What follows the admission of [ms]: each message is announced, and the next
    request is prepared with a context that ends with them; unless the hook
    replaces that context or throws, it is what the provider is sent. *)
Definition sent_with (ms : list AgentMessage) (t : list Exchange) : Prop :=
  exists c u t', t = (Emitted <$> (ms ≫= message_events)) ++ Prepared c u :: t' /\ ms `suffix_of` ac_messages c /\
    forall x, u = Ok x -> exists cfg t'', t' = Requested (default c (x ≫= u_context)) cfg :: t''.

Definition admitted (t : list Exchange) : Prop := forall t1 ms t2, t = t1 ++ Entered ms :: t2 -> sent_with ms t2.

(** Neither an admission nor a tool's event. *)
Definition plain (x : Exchange) : Prop :=
  match x with
  | Entered _ | Prepared _ _ | Emitted (ToolExecutionStart _ _ _ | ToolExecutionUpdate _ _ | ToolExecutionEnd _ _ _) => False
  | _ => True
  end.

Lemma entered_app t t' : entered (t ++ t') = entered t ++ entered t'.
Proof. apply bind_app. Qed.

Lemma running_app x t t' : running_after x (t ++ t') = running_after (running_after x t) t'.
Proof. apply foldl_app. Qed.

Lemma running_plain t : Forall plain t -> running_after (Some []) t = Some [].
Proof. induction 1 as [|x t Hx Ht IH]; [done|]. unfold running_after in *. cbn [foldl]. by destruct x as [[]| | | | | | |]. Qed.

Lemma running_none t : running_after None t = None.
Proof. induction t as [|x t IH]; [done|]. unfold running_after in *. cbn [foldl]. by destruct x. Qed.

Lemma running_once id name args name' e t :
  running_after (Some []) (Emitted (ToolExecutionStart id name args) :: Emitted (ToolExecutionEnd id name' e) :: t) = running_after (Some []) t.
Proof.
  unfold running_after. cbn [foldl running_of next_running mbind option_bind]. rewrite bool_decide_eq_true_2 by constructor.
  cbn [remove_one]. by rewrite bool_decide_eq_true_2.
Qed.

(** Nothing is admitted in between. *)
Definition outside (x : Exchange) : Prop := match x with Entered _ | Prepared _ _ => False | _ => True end.

Lemma plain_outside t : Forall plain t -> Forall outside t.
Proof. intros Ht. eapply Forall_impl; [exact Ht|]. by intros []. Qed.

Lemma entered_outside t : Forall outside t -> entered t = [].
Proof. induction 1 as [|x t Hx Ht IH]; [done|]. unfold entered in *. cbn. rewrite IH. by destruct x. Qed.

Lemma admitted_outside t : Forall outside t -> admitted t.
Proof. intros Ht t1 ms t2 ->. apply Forall_app in Ht as [_ Ht]. by apply Forall_cons in Ht as [[] _]. Qed.

Lemma sent_with_app ms t t' : sent_with ms t -> sent_with ms (t ++ t').
Proof.
  intros (c & u & t1 & -> & Hc & Hu). exists c, u, (t1 ++ t'). rewrite <- app_assoc. split_and!; [done..|].
  intros x Hx. destruct (Hu x Hx) as (cfg & t2 & ->). by exists cfg, (t2 ++ t').
Qed.

Lemma admitted_app t t' : admitted t -> admitted t' -> admitted (t ++ t').
Proof.
  intros Ht Ht' t1 ms t2 E. apply app_eq_inv in E as [(k & E1 & E2)|(k & E1 & E2)].
  - destruct k as [|x k].
    + cbn in E2. subst t'. by apply (Ht' []).
    + cbn in E2. injection E2 as <- ->. apply sent_with_app. by eapply Ht.
  - by apply (Ht' k).
Qed.

(** ** Programs by what they add *)

Section Programs.
Context {W : Type} `{LoopHooks W} `{host : ToolHost W}.
Context (number_text : num -> jstring) (resolved : ContentBlock -> bool) (policy_refusal : jstring -> bool) (allowed_choice : jstring -> bool).

(** From any state the program adds a stretch that is right for its outcome. *)
Definition steps {A} (m : M (W := W) A) (Q : outcome A -> list Exchange -> Prop) : Prop :=
  forall r, exists xs, trace (m r).1 = trace r ++ xs /\ Q (m r).2 xs.

Lemma steps_mono {A} (m : M A) (Q Q' : outcome A -> list Exchange -> Prop) : steps m Q -> (forall o xs, Q o xs -> Q' o xs) -> steps m Q'.
Proof. intros Hm HQ r. destruct (Hm r) as (xs & Ht & Hq). exists xs. auto. Qed.

Lemma steps_ret {A} (a : A) (Q : outcome A -> list Exchange -> Prop) : Q (Ret a) [] -> steps (ret a) Q.
Proof. intros HQ r. exists []. by rewrite app_nil_r. Qed.

Lemma steps_throw {A} e (Q : outcome A -> list Exchange -> Prop) : Q (Throw e) [] -> steps (throw e) Q.
Proof. intros HQ r. exists []. by rewrite app_nil_r. Qed.

Lemma steps_call {A} (f : W -> W * A) n (Q : outcome A -> list Exchange -> Prop) :
  (forall w, Q (Ret (f w).2) (n (f w).2)) -> steps (call f n) Q.
Proof. intros HQ r. specialize (HQ (world r)). unfold call. destruct (f (world r)) as [w a]. by exists (n a). Qed.

Lemma steps_bind {A B} (m : M A) (k : A -> M B) Q1 (Q2 : outcome B -> list Exchange -> Prop) :
  steps m Q1 -> (forall a xs, Q1 (Ret a) xs -> steps (k a) (fun o ys => Q2 o (xs ++ ys))) ->
  (forall e xs, Q1 (Throw e) xs -> Q2 (Throw e) xs) -> steps (bind m k) Q2.
Proof.
  intros Hm Hk Ht r. destruct (Hm r) as (xs & Hxs & HQ). unfold bind. destruct (m r) as [r' [a|e]]; cbn [fst snd] in *.
  - destruct (Hk a xs HQ r') as (ys & Hys & HQ2). exists (xs ++ ys). rewrite Hys, Hxs. by rewrite app_assoc.
  - exists xs. auto.
Qed.

(** *** Programs that admit nothing and run no tools *)

Definition quiet {A} (m : M A) : Prop := steps m (fun _ xs => Forall plain xs).

(** A quiet program first. *)
Lemma steps_quiet {A B} (m : M A) (k : A -> M B) (Q : outcome B -> list Exchange -> Prop) :
  quiet m -> (forall a xs, Forall plain xs -> steps (k a) (fun o ys => Q o (xs ++ ys))) ->
  (forall e xs, Forall plain xs -> Q (Throw e) xs) -> steps (bind m k) Q.
Proof. intros Hm Hk Ht. by eapply steps_bind. Qed.

Lemma quiet_ret {A} (a : A) : quiet (ret a). Proof. apply steps_ret. constructor. Qed.
Lemma quiet_throw {A} e : quiet (throw (A := A) e). Proof. apply steps_throw. constructor. Qed.
Lemma quiet_bind {A B} (m : M A) (k : A -> M B) : quiet m -> (forall a, quiet (k a)) -> quiet (bind m k).
Proof. intros Hm Hk. apply steps_quiet; [done| |done]. intros a xs Hxs. eapply steps_mono; [apply Hk|]. intros o ys Hys. by apply Forall_app. Qed.
Lemma quiet_call {A} (f : W -> W * A) n : (forall a, Forall plain (n a)) -> quiet (call f n).
Proof. intros Hn. by apply steps_call. Qed.
Lemma quiet_silent {A} (f : W -> W * A) : quiet (silent f). Proof. apply quiet_call. constructor. Qed.
Lemma quiet_emit e : plain (Emitted e) -> quiet (emit e). Proof. intros He. apply quiet_call. by constructor. Qed.
Lemma quiet_each_of {A} (f : A -> M unit) l : (forall x, quiet (f x)) -> quiet (each f l).
Proof. intros Hf. induction l as [|x l IH]; [apply quiet_ret|]. by apply quiet_bind. Qed.

Ltac quiet_step :=
  match goal with
  | |- quiet (ret _) => apply quiet_ret
  | |- quiet (throw _) => apply quiet_throw
  | |- quiet (bind _ _) => apply quiet_bind; [|intros ?]
  | |- quiet (each _ _) => apply quiet_each_of; intros ?
  | |- quiet (silent _) => apply quiet_silent
  | |- quiet is_aborted => apply quiet_silent
  | |- quiet (emit _) => apply quiet_emit; exact I
  | |- quiet (call _ _) => apply quiet_call; intros ?
  | |- quiet (match ?x with _ => _ end) => destruct x
  end.
Ltac quiet_solve := repeat quiet_step; repeat (constructor || exact I).

Lemma quiet_emit_message m : quiet (emit_message m).
Proof. unfold emit_message. quiet_solve. Qed.
Lemma quiet_from_result {A} (x : result jstring A) : quiet (from_result x).
Proof. unfold from_result. quiet_solve. Qed.
Lemma quiet_from_error x : quiet (from_error x).
Proof. unfold from_error. quiet_solve. Qed.
Lemma quiet_restore q ms : quiet (restore q ms).
Proof. unfold restore. quiet_solve. Qed.
Lemma quiet_restore_drained v : quiet (restore_drained v).
Proof. unfold restore_drained. quiet_solve. apply quiet_restore. Qed.
Lemma quiet_commit_pending v : quiet (commit_pending v).
Proof. unfold commit_pending. quiet_solve; try apply quiet_restore. destruct a; repeat constructor. Qed.

(** *** Programs that leave the messages alone *)

(** No hook replaces the context. *)
Definition context_kept : Prop :=
  (forall w c cfg u, (prepareRequest w c cfg).2 = Ok (Some u) -> u_context u = None) /\
  (forall w m rs c ms u, (prepareNextTurn w m rs c ms).2 = Ok (Some u) -> u_context u = None).

(** The run's messages and, unless a hook replaces it, the context have grown by [more]. *)
Definition grew (v v' : Vars) (more : list AgentMessage) : Prop :=
  newMessages v' = newMessages v ++ more /\ (context_kept -> ac_messages (ctx v') = ac_messages (ctx v) ++ more).

Lemma grew_refl v v' : newMessages v' = newMessages v -> ctx v' = ctx v -> grew v v' [].
Proof. intros Hn Hc. split; rewrite ?Hn, ?Hc, app_nil_r; done. Qed.

Lemma grew_trans v1 v2 v3 l l' : grew v1 v2 l -> grew v2 v3 l' -> grew v1 v3 (l ++ l').
Proof. intros [Hn Hc] [Hn' Hc']. split; [by rewrite Hn', Hn, app_assoc|]. intros Hk. by rewrite Hc', Hc, app_assoc. Qed.

Lemma grew_nil_trans v1 v2 v3 l : grew v1 v2 [] -> grew v2 v3 l -> grew v1 v3 l.
Proof. apply grew_trans. Qed.

Definition same (v : Vars) (o : outcome Vars) (xs : list Exchange) : Prop := Forall plain xs /\ forall v', o = Ret v' -> grew v v' [].

(** The run goes on with the same messages, or it ends with them. *)
Definition goes_on (v : Vars) (o : outcome (option Vars)) (xs : list Exchange) : Prop :=
  Forall plain xs /\
  match o with
  | Ret (Some v') => grew v v' []
  | Ret None => exists ys, xs = ys ++ [Emitted (AgentEnd (newMessages v))]
  | Throw _ => True
  end.

Lemma goes_on_after v v' o xs ys : grew v v' [] -> Forall plain xs -> goes_on v' o ys -> goes_on v o (xs ++ ys).
Proof.
  intros Hg Hxs [Hys Ho]. split; [by apply Forall_app|]. destruct o as [[v''|]|e]; [by eapply grew_nil_trans| |done].
  destruct Ho as [zs ->]. exists (xs ++ zs). destruct Hg as [-> _]. by rewrite app_nil_r, app_assoc.
Qed.

Lemma same_after v v' o xs ys : grew v v' [] -> Forall plain xs -> same v' o ys -> same v o (xs ++ ys).
Proof. intros Hg Hxs [Hys Ho]. split; [by apply Forall_app|]. intros v'' ->. by eapply grew_nil_trans, Ho. Qed.

(** A program that keeps the variables, then one that goes on from them. *)
Lemma same_goes_on (m : M Vars) k v v0 :
  grew v v0 [] -> steps m (same v0) -> (forall v', grew v v' [] -> steps (k v') (goes_on v')) -> steps (bind m k) (goes_on v).
Proof.
  intros H0 Hm Hk. eapply steps_bind; [exact Hm| |].
  - intros v' xs [Hxs Hv']. assert (grew v v' []) as Hg by (by eapply grew_nil_trans, Hv').
    eapply steps_mono; [by apply Hk|]. intros o ys. by apply goes_on_after.
  - intros e xs [Hxs _]. by split.
Qed.

Lemma same_same (m : M Vars) k v v0 :
  grew v v0 [] -> steps m (same v0) -> (forall v', grew v v' [] -> steps (k v') (same v')) -> steps (bind m k) (same v).
Proof.
  intros H0 Hm Hk. eapply steps_bind; [exact Hm| |].
  - intros v' xs [Hxs Hv']. assert (grew v v' []) as Hg by (by eapply grew_nil_trans, Hv').
    eapply steps_mono; [by apply Hk|]. intros o ys. by apply same_after.
  - intros e xs [Hxs _]. by split.
Qed.

(** A quiet program, then one that goes on. *)
Lemma quiet_goes_on {A} (m : M A) k v v' :
  grew v v' [] -> quiet m -> (forall a, steps (k a) (goes_on v')) -> steps (bind m k) (goes_on v).
Proof.
  intros Hg Hm Hk. apply steps_quiet; [done| |].
  - intros a xs Hxs. eapply steps_mono; [apply Hk|]. intros o ys. by apply goes_on_after.
  - intros e xs Hxs. by split.
Qed.

Lemma same_ret v v' : grew v v' [] -> steps (ret v') (same v).
Proof. intros Hg. apply steps_ret. split; [constructor|]. by intros ? [= <-]. Qed.

Lemma goes_on_ret v v' : grew v v' [] -> steps (ret (Some v')) (goes_on v).
Proof. intros Hg. apply steps_ret. by split. Qed.

Lemma quiet_same {A} (m : M A) k v v' : grew v v' [] -> quiet m -> (forall a, steps (k a) (same v')) -> steps (bind m k) (same v).
Proof.
  intros Hg Hm Hk. apply steps_quiet; [done| |].
  - intros a xs Hxs. eapply steps_mono; [apply Hk|]. intros o ys. by apply same_after.
  - intros e xs Hxs. by split.
Qed.

Lemma same_drain v q : steps (drain v q) (same v).
Proof.
  unfold drain. apply (quiet_same _ _ v v); [by apply grew_refl|apply quiet_call; by repeat constructor|].
  intros ms. apply same_ret. by apply grew_refl.
Qed.

Lemma same_drain_either v none : steps (drain_either v none) (same v).
Proof.
  unfold drain_either. eapply same_same; [by apply grew_refl|apply same_drain|]. intros v1 H1. destruct (nonempty _); [apply same_ret; by apply grew_refl|].
  eapply same_same; [by apply grew_refl|apply same_drain|]. intros v2 H2. apply same_ret. by apply grew_refl.
Qed.

Lemma same_begin_turn v : steps (begin_turn v) (same v).
Proof.
  unfold begin_turn. destruct (turnStartAlreadyEmitted v); [apply same_ret; by apply grew_refl|].
  destruct (firstTurn v); [apply same_ret; by apply grew_refl|].
  apply (quiet_same _ _ v v); [by apply grew_refl|by apply quiet_emit|]. intros _. apply same_ret. by apply grew_refl.
Qed.

Lemma ends v : steps (end_run v) (goes_on v).
Proof.
  unfold end_run. eapply steps_bind; [apply (steps_call _ _ (fun _ xs => xs = [Emitted (AgentEnd (newMessages v))])); done| |].
  - intros a xs ->. apply steps_ret. split; [by repeat constructor|]. by exists [].
  - intros e xs ->. split; [by repeat constructor|done].
Qed.

Lemma refreshed_goes_on v : steps (refreshed v) (goes_on v).
Proof.
  unfold refreshed. destruct (drainedTerminatingQueue v) as [q|] eqn:Hd; [|apply goes_on_ret; by apply grew_refl].
  eapply (same_goes_on _ _ v v); [by apply grew_refl| |].
  - unfold refreshTerminatingQueueDrain. rewrite Hd. destruct restorePendingMessages; [|apply same_ret; by apply grew_refl].
    apply (quiet_same _ _ v v); [by apply grew_refl|apply quiet_restore|intros _; apply same_drain_either].
  - intros v' _. destruct (_ || _); [apply goes_on_ret; by apply grew_refl|apply ends].
Qed.

(** The update a hook answers keeps the context when hooks do. *)
Definition keeping (u : result jstring (option LoopUpdate)) : Prop :=
  forall x, u = Ok (Some x) -> context_kept -> u_context x = None.

Lemma grew_update v turn u : keeping (Ok u) -> grew v (update_vars v turn u) [].
Proof.
  intros Hu. destruct u as [x|]; [|by apply grew_refl]. split; cbn; rewrite app_nil_r; [done|]. intros Hk. by rewrite (Hu x eq_refl Hk).
Qed.

Lemma outer_pass_goes_on v : steps (outer_pass v) (goes_on v).
Proof.
  unfold outer_pass. apply (same_goes_on _ _ v v); [by apply grew_refl|apply same_drain|]. intros v' _.
  destruct (_ || _); [apply goes_on_ret; by apply grew_refl|apply ends].
Qed.

Lemma next_turn_goes_on v more terminated : steps (next_turn v more terminated) (goes_on v).
Proof.
  unfold next_turn. apply (same_goes_on _ _ v v); [by apply grew_refl|destruct terminated; [apply same_ret; by apply grew_refl|apply same_drain]|].
  intros v' _. destruct (_ || _); [apply goes_on_ret; by apply grew_refl|apply outer_pass_goes_on].
Qed.

Lemma goes_on_same v v' (m : M (option Vars)) : grew v v' [] -> steps m (goes_on v') -> steps m (goes_on v).
Proof. intros Hg Hm. eapply steps_mono; [exact Hm|]. intros o ys. by apply (goes_on_after v v' o []). Qed.

Lemma steps_bind_ret {A B} (a : A) (k : A -> M B) Q : steps (k a) Q -> steps (bind (ret a) k) Q.
Proof. done. Qed.

Lemma quiet_then_goes_on {A} v (m : M A) k : quiet m -> (forall a, steps (k a) (goes_on v)) -> steps (bind m k) (goes_on v).
Proof. apply quiet_goes_on. by apply grew_refl. Qed.

Lemma prepare_next_goes_on v m results more terminated : steps (prepare_next v m results more terminated) (goes_on v).
Proof.
  unfold prepare_next. apply (steps_bind _ _ (fun o xs => xs = [] /\ forall u, o = Ret u -> keeping u)); [| |by intros e xs [-> _]].
  { apply steps_call. intros w. split; [done|]. intros u [= <-] x Hx Hk. by eapply (proj2 Hk). }
  intros u xs [-> Hu]. specialize (Hu u eq_refl). cbn [app]. apply steps_mono with (goes_on v); [|done]. destruct u as [u|e].
  - apply steps_bind_ret. apply (goes_on_same v (update_vars v true u)); [by apply grew_update|].
    apply quiet_then_goes_on; [apply quiet_silent|]. intros [].
    + apply quiet_then_goes_on; [apply quiet_restore_drained|]. intros _. apply ends.
    + eapply steps_bind; [apply refreshed_goes_on| |intros e xs [Hxs _]; by split].
      intros [v'|] xs [Hxs Hg].
      * eapply steps_mono; [apply next_turn_goes_on|]. intros o ys. by apply goes_on_after.
      * apply steps_ret. rewrite app_nil_r. by split.
  - eapply steps_bind with (Q1 := fun o xs => (exists e, o = Throw e) /\ Forall plain xs).
    + apply steps_quiet; [apply quiet_restore_drained| |].
      * intros a xs Hxs. apply steps_throw. rewrite app_nil_r. split; [by eexists|done].
      * intros e' xs Hxs. split; [by eexists|done].
    + by intros a xs [[e' [=]] _].
    + intros e' xs [_ Hxs]. by split.
Qed.

Lemma after_turn_goes_on v m results more terminated : steps (after_turn v m results more terminated) (goes_on v).
Proof.
  unfold after_turn. apply quiet_then_goes_on; [apply quiet_silent|]. intros d.
  apply quiet_then_goes_on; [apply quiet_from_result|]. intros d'.
  apply quiet_then_goes_on; [by apply quiet_emit|]. intros _. apply quiet_then_goes_on; [apply quiet_silent|]. intros stopped.
  destruct (_ || _); [apply ends|].
  apply (same_goes_on _ _ v (set_explicit v (match d' with Some ContinueRun => true | _ => false end))); [by apply grew_refl| |].
  { destruct terminated; [apply same_drain_either|apply same_ret; by apply grew_refl]. }
  intros v1 _. destruct (_ && _ && _); [apply ends|].
  apply (same_goes_on _ _ v1 v1); [by apply grew_refl| |intros v2 _; apply prepare_next_goes_on].
  destruct (_ && _); [|apply same_ret; by apply grew_refl].
  apply (quiet_same _ _ v1 v1); [by apply grew_refl|by apply quiet_emit|]. intros _. apply same_ret. by apply grew_refl.
Qed.

(** *** A response *)

Context {laws : LoopLaws (W := W)}.

(** The context is [l], with the partial message behind it once there is one. *)
Definition streamed (l : list AgentMessage) (c : AgentContext) (partial : option AssistantMsg) : Prop :=
  match partial with None => ac_messages c = l | Some _ => exists m, ac_messages c = l ++ [m] end.

Lemma set_last_messages l c m m' : ac_messages c = l ++ [m] -> ac_messages (set_last c m') = l ++ [m'].
Proof. intros Hc. cbn. rewrite Hc, length_app. cbn [length]. f_equal. by rewrite take_app_le, take_ge by lia. Qed.

Lemma stream_steps t es l c partial :
  streamed l c partial -> (starts es <= match partial with Some _ => 0 | None => 1 end)%nat ->
  steps (stream_events t es c partial) (fun o xs => Forall plain xs /\ forall x, o = Ret x -> streamed l x.1.1 x.1.2).
Proof.
  revert c partial. induction es as [|e es IH]; intros c partial Hl Hs; cbn [stream_events].
  { apply steps_ret. split; [constructor|]. by intros ? [= <-]. }
  assert (forall m c' a, streamed l c' (Some a) -> (starts es <= 0)%nat -> plain (Emitted m) ->
    steps (bind (emit m) (fun _ => stream_events t es c' (Some a))) (fun o xs => Forall plain xs /\ forall x, o = Ret x -> streamed l x.1.1 x.1.2)) as Hemit.
  { intros m c' a Hc' Hst Hm. apply steps_quiet; [by apply quiet_emit| |intros e' xs Hxs; by split]. intros _ xs Hxs.
    eapply steps_mono; [by apply IH|]. intros o ys [Hys Ho]. split; [by apply Forall_app|done]. }
  destruct e as [a|a|failed|]; unfold starts in Hs; cbn [List.filter length] in Hs.
  - destruct partial; [lia|]. apply Hemit; [|unfold starts; lia|done]. cbn in *. exists (assistant a t). by rewrite Hl.
  - destruct partial as [b|]; [|by apply IH]. apply Hemit; [|exact Hs|done]. destruct Hl as [m Hm]. exists (assistant a t). by eapply set_last_messages.
  - apply steps_ret. split; [constructor|]. by intros ? [= <-].
  - by apply IH.
Qed.

Lemma settle_steps l c partial m :
  streamed l c partial ->
  steps (settle_message c (bool_decide (is_Some partial)) m) (fun o xs => Forall plain xs /\ forall c', o = Ret c' -> ac_messages c' = l ++ [m]).
Proof.
  intros Hl. unfold settle_message. assert (forall c', ac_messages c' = l ++ [m] ->
    steps (ret c') (fun o xs => Forall plain xs /\ forall c'', o = Ret c'' -> ac_messages c'' = l ++ [m])) as Hret.
  { intros c' Hc'. apply steps_ret. split; [constructor|]. by intros ? [= <-]. }
  assert (forall c' e, ac_messages c' = l ++ [m] -> plain (Emitted e) ->
    steps (bind (emit e) (fun _ => ret c')) (fun o xs => Forall plain xs /\ forall c'', o = Ret c'' -> ac_messages c'' = l ++ [m])) as Hemit.
  { intros c' e Hc' He. apply steps_quiet; [by apply quiet_emit| |intros e' xs Hxs; by split]. intros _ xs Hxs.
    eapply steps_mono; [by apply Hret|]. intros o ys [Hys Ho]. split; [by apply Forall_app|done]. }
  destruct partial as [b|]; [rewrite bool_decide_eq_true_2 by done|rewrite bool_decide_eq_false_2 by (intros [? ?]; done)].
  - destruct Hl as [m' Hm']. apply Hemit; [by eapply set_last_messages|done].
  - apply steps_quiet; [by apply quiet_emit| |intros e' xs Hxs; by split]. intros _ xs Hxs.
    eapply steps_mono; [apply (Hemit (push c m)); [cbn in *; by rewrite Hl|done]|]. intros o ys [Hys Ho]. split; [by apply Forall_app|done].
Qed.

Lemma response_steps c cfg :
  steps (streamAssistantResponse resolved c cfg)
    (fun o xs => (exists ys, xs = Requested c cfg :: ys /\ Forall plain ys) /\
       forall x, o = Ret x -> ac_messages x.1.1.1 = ac_messages c ++ [assistant x.1.1.2 x.1.2]).
Proof.
  unfold streamAssistantResponse.
  apply (steps_bind _ _ (fun o xs => xs = [Requested c cfg] /\ forall s, o = Ret s -> (starts (s_events s) <= 1)%nat)); [| |by intros e xs [-> _]; split; [by exists []|]].
  { apply steps_call. intros w. split; [done|]. intros s [= <-]. apply starts_once. }
  intros s xs [-> Hs]. specialize (Hs s eq_refl).
  enough (steps (bind (silent (fun w => (w, clock w))) (fun t => bind (stream_events t (s_events s) c None) (fun x =>
      let '(c, partial, terminal) := x in
      bind is_aborted (fun stopped => let final := final_message resolved s stopped partial terminal in
      bind (settle_message c (bool_decide (is_Some partial)) (assistant final t)) (fun c => ret (c, final, t, s_toolResults s))))))
    (fun o xs => Forall plain xs /\ forall x, o = Ret x -> ac_messages x.1.1.1 = ac_messages c ++ [assistant x.1.1.2 x.1.2])) as Hrest.
  { eapply steps_mono; [exact Hrest|]. intros o ys [Hys Ho]. split; [by exists ys|done]. }
  apply steps_quiet; [apply quiet_silent| |intros e xs Hxs; by split]. intros t xs0 Hxs0.
  eapply steps_bind; [apply (stream_steps t _ (ac_messages c)); [done|exact Hs]| |].
  2: { intros e xs [Hxs _]. split; [by apply Forall_app|done]. }
  intros [[c1 partial] terminal] xs1 [Hxs1 Hc1]. specialize (Hc1 _ eq_refl). cbn [fst snd] in Hc1.
  apply steps_quiet; [apply quiet_silent| |]. 2: { intros e xs Hxs. split; [by rewrite !Forall_app|done]. }
  intros stopped xs2 Hxs2. eapply steps_bind; [by apply (settle_steps (ac_messages c))| |].
  2: { intros e xs [Hxs _]. split; [by rewrite !Forall_app|done]. }
  intros c2 xs3 [Hxs3 Hc2]. apply steps_ret. split; [rewrite !Forall_app; split_and!; try done; constructor|].
  intros x [= <-]. cbn [fst snd]. by apply Hc2.
Qed.

(** What a response adds: the preparation of the request, the request with the
    context as it is unless the hook replaced it, and nothing to admit. *)
Definition responded (v : Vars) (o : outcome (Vars * AssistantMsg * AgentMessage * list AgentMessage)) (xs : list Exchange) : Prop :=
  exists u ys, xs = Prepared (ctx v) u :: ys /\ Forall plain ys /\
    (forall x, u = Ok x -> exists cfg zs, ys = Requested (default (ctx v) (x ≫= u_context)) cfg :: zs) /\
    forall x, o = Ret x -> grew v x.1.1.1 (x.1.2 :: x.2).

Lemma quiet_tail {A B} (m : M A) (k : A -> M B) (Q : outcome B -> Prop) :
  quiet m -> (forall a, steps (k a) (fun o xs => Forall plain xs /\ Q o)) -> (forall e, Q (Throw e)) ->
  steps (bind m k) (fun o xs => Forall plain xs /\ Q o).
Proof.
  intros Hm Hk Ht. apply steps_quiet; [done| |by split]. intros a xs Hxs. eapply steps_mono; [apply Hk|].
  intros o ys [Hys HQ]. split; [by apply Forall_app|done].
Qed.

Lemma respond_steps v : steps (respond resolved v) (responded v).
Proof.
  unfold respond. apply (steps_bind _ _ (fun o xs => exists u, o = Ret u /\ xs = [Prepared (ctx v) u] /\ keeping u)); [| |by intros e xs (u & [=] & _)].
  { apply steps_call. intros w. eexists. split_and!; [done..|]. intros x Hx Hk. by eapply (proj1 Hk). }
  intros u xs (? & [= <-] & -> & Hu). destruct u as [u|e].
  2: { apply steps_mono with (fun o ys => ys = [] /\ exists e, o = Throw e).
       - apply (steps_bind _ _ (fun o ys => ys = [] /\ exists e, o = Throw e)); [apply steps_throw; split; [done|by eexists]|by intros a xs [_ [e' [=]]]|].
         intros e' xs [-> _]. split; [done|by eexists].
       - intros o ys [-> [e' ->]]. exists (Err e), []. split_and!; [done|constructor|by intros x [=]|by intros x [=]]. }
  apply steps_bind_ret. set (v1 := update_vars v false u). pose proof (grew_update v false u Hu) as Hg. fold v1 in Hg.
  assert (ctx v1 = default (ctx v) (u ≫= u_context)) as Hc1 by (by destruct u).
  eapply steps_bind; [apply response_steps| |].
  2: { intros e xs [(ys & -> & Hys) _]. exists (Ok u), (Requested (ctx v1) (request_config v1) :: ys). split_and!; [done|by constructor| |by intros x [=]].
       intros x [= <-]. rewrite <- Hc1. by eexists _, _. }
  intros [[[c a] t] results] xs [(ys & -> & Hys) Hc]. specialize (Hc _ eq_refl). cbn [fst snd] in Hc.
  apply steps_mono with (fun o zs => Forall plain zs /\ forall x, o = Ret x -> grew v x.1.1.1 (x.1.2 :: x.2)).
  2: { intros o zs [Hzs Ho]. exists (Ok u), (Requested (ctx v1) (request_config v1) :: ys ++ zs). split_and!; [done| | |done].
       - constructor; [done|by apply Forall_app].
       - intros x [= <-]. rewrite <- Hc1. by eexists _, _. }
  apply quiet_tail; [apply quiet_each_of; intros; apply quiet_emit_message| |by intros e x [=]]. intros _.
  apply quiet_tail; [apply quiet_silent| |by intros e x [=]]. intros failed.
  apply quiet_tail; [apply quiet_from_error| |by intros e x [=]]. intros _. apply steps_ret. split; [constructor|]. intros x [= <-]. cbn [fst snd].
  apply (grew_nil_trans _ v1); [done|]. split; cbn; [by rewrite <- app_assoc|]. intros Hk. by rewrite Hc, <- app_assoc.
Qed.

(** *** Admission *)

Lemma emit_steps e : steps (emit e) (fun o xs => o = Ret tt /\ xs = [Emitted e]).
Proof. by apply steps_call. Qed.

Lemma emit_message_steps m : steps (emit_message m) (fun o xs => o = Ret tt /\ xs = Emitted <$> message_events m).
Proof.
  unfold emit_message. eapply steps_bind; [apply emit_steps| |by intros e xs [[=] _]]. intros [] xs [_ ->].
  eapply steps_mono; [apply emit_steps|]. by intros o ys [-> ->].
Qed.

Lemma each_message_steps ms : steps (each emit_message ms) (fun o xs => o = Ret tt /\ xs = Emitted <$> (ms ≫= message_events)).
Proof.
  induction ms as [|m ms IH]; [by apply steps_ret|]. cbn [each]. eapply steps_bind; [apply emit_message_steps| |by intros e xs [[=] _]].
  intros [] xs [_ ->]. eapply steps_mono; [exact IH|]. by intros o ys [-> ->].
Qed.

Lemma admit_steps v :
  steps (admit_pending number_text allowed_choice v)
    (fun o xs => exists ms, o = Ret (admit_messages v ms) /\ xs = Entered ms :: (Emitted <$> (ms ≫= message_events))).
Proof.
  unfold admit_pending. apply (steps_bind _ _ (fun o xs => (exists now, o = Ret now) /\ xs = [])); [apply steps_call; intros w; split; [by eexists|done]| |by intros e xs [[? [=]] _]].
  intros now xs [_ ->]. cbn [app]. set (ms := declareToolChanges _ _ _ _ _).
  apply (steps_bind _ _ (fun o xs => o = Ret tt /\ xs = [Entered ms])); [by apply steps_call| |by intros e xs [[=] _]].
  intros [] xs [_ ->]. eapply steps_bind; [apply each_message_steps| |by intros e xs [[=] _]]. intros [] xs [_ ->].
  apply steps_ret. exists ms. by rewrite app_nil_r.
Qed.

(** *** Calls *)

(** A tool host ends the executions it starts, each by its id, before it reports messages. *)
Class HostNests : Prop :=
  host_nests w c m calls : match (execute w c m calls).2.2 with
    | Ok _ => running_after (Some []) (Emitted <$> (execute w c m calls).2.1) = Some []
    | Err _ => running_after (Some []) (Emitted <$> (execute w c m calls).2.1) <> None
    end.

(** Executions nest: none runs at the end, unless something was thrown. *)
Definition nested {A} (o : outcome A) (xs : list Exchange) : Prop :=
  HostNests -> match o with Ret _ => running_after (Some []) xs = Some [] | Throw _ => running_after (Some []) xs <> None end.

Lemma nested_app {A B} (a : A) (o : outcome B) xs ys : nested (Ret a) xs -> nested o ys -> nested o (xs ++ ys).
Proof. intros Hx Hy Hn. specialize (Hx Hn). specialize (Hy Hn). rewrite running_app. cbn in Hx. by rewrite Hx. Qed.

Lemma nested_plain {A} (o : outcome A) xs : Forall plain xs -> nested o xs.
Proof. intros Hxs _. rewrite (running_plain xs Hxs). by destruct o. Qed.

Lemma message_events_plain ms : Forall plain (Emitted <$> (ms ≫= message_events)).
Proof. induction ms as [|m ms IH]; [constructor|]. cbn. by repeat constructor. Qed.

Lemma failed_calls_steps calls :
  steps (failToolCallsFromTruncatedMessage calls) (fun o xs => (exists ms, o = Ret ms) /\ Forall outside xs /\ running_after (Some []) xs = Some []).
Proof.
  induction calls as [|c calls IH]; cbn [failToolCallsFromTruncatedMessage]; [apply steps_ret; split; [by eexists|by split]|].
  eapply steps_bind; [apply emit_steps| |by intros e xs [[=] _]]. intros [] xs1 [_ ->].
  eapply steps_bind; [apply emit_steps| |by intros e xs [[=] _]]. intros [] xs2 [_ ->].
  apply (steps_bind _ _ (fun o xs => (exists now, o = Ret now) /\ xs = [])); [apply steps_call; intros w; split; [by eexists|done]| |by intros e xs [[? [=]] _]].
  intros now xs3 [_ ->]. eapply steps_bind; [apply emit_message_steps| |by intros e xs [[=] _]]. intros [] xs4 [_ ->].
  eapply steps_bind; [exact IH| |by intros e xs [[? [=]] _]]. intros ms xs5 (_ & Hout & Hrun). apply steps_ret. split; [by eexists|].
  split; [by repeat (apply Forall_app; split); repeat constructor|].
  rewrite app_nil_r. cbn [app]. rewrite running_once, running_app, (running_plain (Emitted <$> _)); [exact Hrun|by repeat constructor].
Qed.

Lemma outside_events es : Forall outside (Emitted <$> es).
Proof. induction es; by constructor. Qed.

Lemma execute_steps c m calls : steps (executeToolCalls c m calls) (fun o xs => Forall outside xs /\ nested o xs).
Proof.
  unfold executeToolCalls. apply (steps_bind _ _ (fun o xs => exists x, o = Ret x /\ Forall outside xs /\
    (HostNests -> match x.2 with Ok _ => running_after (Some []) xs = Some [] | Err _ => running_after (Some []) xs <> None end)));
    [| |by intros e xs (x & [=] & _)].
  { apply steps_call. intros w. eexists. split_and!; [done|constructor; [done|apply outside_events]|]. intros Hn.
    pose proof (host_nests w c m calls) as Hh. by destruct ((execute w c m calls).2.2). }
  intros x xs (? & [= <-] & Hout & Hn). unfold from_result. destruct x.2 as [a|e]; [apply steps_ret|apply steps_throw]; rewrite app_nil_r; by split.
Qed.

Definition tools_run (v : Vars) (o : outcome (Vars * list AgentMessage * bool * bool)) (xs : list Exchange) : Prop :=
  Forall outside xs /\ nested o xs /\ forall x, o = Ret x -> exists more, grew v x.1.1.1 more.

Lemma run_tools_steps v a m : steps (run_tools resolved v a m) (tools_run v).
Proof.
  unfold run_tools. destruct (tool_calls resolved a) as [|c calls].
  { apply steps_ret. split_and!; [constructor|by intros _|]. intros x [= <-]. exists []. by apply grew_refl. }
  assert (steps (match a_stop a with
    | StopLength => bind (failToolCallsFromTruncatedMessage (c :: calls)) (fun ms => ret (ms, false))
    | _ => executeToolCalls (ctx v) m (c :: calls)
    end) (fun o xs => Forall outside xs /\ nested o xs)) as Hbatch.
  { destruct (a_stop a). 3: { eapply steps_bind; [apply failed_calls_steps| |by intros e xs [[? [=]] _]]. intros ms xs (_ & Hout & Hrun).
      apply steps_ret. rewrite app_nil_r. split; [done|by intros _]. } all: apply execute_steps. }
  eapply steps_bind; [exact Hbatch| |].
  - intros batch xs [Hout Hn]. apply steps_ret. rewrite app_nil_r. split_and!; [done|exact Hn|]. intros x [= <-]. by exists batch.1.
  - intros e xs [Hout Hn]. split_and!; [done|exact Hn|by intros x [=]].
Qed.

(** *** Turns *)

(** Of the messages the stretch adds to the run, in order: those it admits, and
    those a request it prepares has behind the context it began with. *)
Definition news (v : Vars) (more : list AgentMessage) (xs : list Exchange) : Prop :=
  entered xs `sublist_of` more /\
  (context_kept -> forall c u, Prepared c u ∈ xs -> exists k, ac_messages c = ac_messages (ctx v) ++ k /\ k `prefix_of` more).

Definition turned {A} (after : A -> option Vars) (v : Vars) (o : outcome A) (xs : list Exchange) : Prop :=
  admitted xs /\ nested o xs /\ exists more, news v more xs /\
  match o with
  | Ret a =>
      match after a with
      | Some v' => grew v v' more
      | None => exists ys, xs = ys ++ [Emitted (AgentEnd (newMessages v ++ more))]
      end
  | Throw _ => True
  end.

Lemma news_app v v1 more more' xs ys : news v more xs -> grew v v1 more -> news v1 more' ys -> news v (more ++ more') (xs ++ ys).
Proof.
  intros [He Hp] [_ Hc] [He' Hp']. split; [rewrite entered_app; by apply sublist_app|].
  intros Hk c u [Hin|Hin]%elem_of_app.
  - destruct (Hp Hk c u Hin) as (k & Hck & Hpre). exists k. split; [done|by apply prefix_app_r].
  - destruct (Hp' Hk c u Hin) as (k & Hck & Hpre). exists (more ++ k). rewrite Hck, (Hc Hk), app_assoc. split; [done|by apply prefix_app].
Qed.

Lemma news_outside v xs : Forall outside xs -> news v [] xs.
Proof.
  intros Hxs. split; [by rewrite entered_outside|]. intros _ c u Hin. rewrite Forall_forall in Hxs. by specialize (Hxs _ Hin).
Qed.

Lemma turned_app {A B} (after : B -> option Vars) v v1 more (a : A) o xs ys :
  admitted xs -> nested (Ret a) xs -> news v more xs -> grew v v1 more -> turned after v1 o ys -> turned after v o (xs ++ ys).
Proof.
  intros Hadm Hn Hnews Hg (Hadm' & Hn' & more' & Hnews' & Ho). split; [by apply admitted_app|]. split; [by eapply nested_app|].
  exists (more ++ more'). split; [by eapply news_app|]. destruct o as [b|e]; [|done]. destruct (after b) as [v2|]; [by eapply grew_trans|].
  destruct Ho as [zs ->]. exists (xs ++ zs). destruct Hg as [-> _]. by rewrite !app_assoc.
Qed.

Lemma goes_on_turned v o xs : goes_on v o xs -> turned id v o xs.
Proof.
  intros [Hxs Ho]. split; [by apply admitted_outside, plain_outside|]. split; [by apply nested_plain|]. exists []. split; [by apply news_outside, plain_outside|].
  destruct o as [[v'|]|e]; cbn; [done| |done]. by rewrite app_nil_r.
Qed.

Lemma turned_after {B} (after : B -> option Vars) v v' o xs ys : grew v v' [] -> Forall plain xs -> turned after v' o ys -> turned after v o (xs ++ ys).
Proof.
  intros Hg Hxs. apply (turned_app after v v' [] tt); [by apply admitted_outside, plain_outside|by apply nested_plain|by apply news_outside, plain_outside|done].
Qed.

Lemma turned_throw {B} (after : B -> option Vars) v e more xs :
  admitted xs -> nested (Throw (A := B) e) xs -> news v more xs -> turned after v (Throw e) xs.
Proof. intros Ha Hn Hm. split; [done|]. split; [done|]. by exists more. Qed.

Lemma turned_quiet_throw {B} (after : B -> option Vars) v e xs : Forall plain xs -> turned after v (Throw e) xs.
Proof.
  intros Hxs. apply (turned_throw _ _ _ []); [by apply admitted_outside, plain_outside|by apply nested_plain|by apply news_outside, plain_outside].
Qed.

Lemma quiet_turned {A} v (m : M A) (k : A -> M (option Vars)) :
  quiet m -> (forall a, steps (k a) (turned id v)) -> steps (bind m k) (turned id v).
Proof.
  intros Hm Hk. apply steps_quiet; [done| |].
  - intros a xs Hxs. eapply steps_mono; [apply Hk|]. intros o ys. apply turned_after; [by apply grew_refl|done].
  - intros e xs Hxs. by apply turned_quiet_throw.
Qed.

Lemma admitted_entry ms c u ys :
  ms `suffix_of` ac_messages c -> Forall plain ys ->
  (forall x, u = Ok x -> exists cfg zs, ys = Requested (default c (x ≫= u_context)) cfg :: zs) ->
  admitted (Entered ms :: (Emitted <$> (ms ≫= message_events)) ++ Prepared c u :: ys).
Proof.
  intros Hc Hys Hu t1 ms' t2 E. destruct t1 as [|x t1]; cbn [app] in E; injection E as <- E.
  - subst t2. by exists c, u, ys.
  - exfalso. assert (Entered ms' ∈ (Emitted <$> (ms ≫= message_events)) ++ Prepared c u :: ys) as Hin by (rewrite E; set_solver).
    apply elem_of_app in Hin as [Hin|[Hin|Hin]%elem_of_cons]; [|done|].
    + apply list_elem_of_fmap in Hin as (e & [=] & _).
    + rewrite Forall_forall in Hys. by specialize (Hys _ Hin).
Qed.

(** Admission, with the response it is made for. *)
Lemma admission v ms o xs :
  responded (admit_messages v ms) o xs ->
  let all := Entered ms :: (Emitted <$> (ms ≫= message_events)) ++ xs in
  admitted all /\ nested o all /\ exists more, news v more all /\ forall x, o = Ret x -> grew v x.1.1.1 more.
Proof.
  intros (u & ys & -> & Hys & Hu & Ho). cbn zeta. set (all := Entered ms :: _).
  assert (entered all = ms) as Hent.
  { unfold all. change (entered (Entered ms :: ?t)) with (ms ++ entered t). rewrite entered_app.
    rewrite (entered_outside _ (plain_outside _ (message_events_plain ms))). cbn [app].
    change (entered (Prepared (ctx (admit_messages v ms)) u :: ys)) with (entered ys). by rewrite (entered_outside ys (plain_outside _ Hys)), app_nil_r. }
  assert (admitted all) as Hadm by (apply admitted_entry; [by eexists|done|done]).
  assert (nested o all) as Hnest.
  { intros Hn. unfold all. change (running_after (Some []) (Entered ms :: ?t)) with (running_after (Some []) t). rewrite running_app, (running_plain _ (message_events_plain ms)).
    change (running_after (Some []) (Prepared (ctx (admit_messages v ms)) u :: ys)) with (running_after (Some []) ys). rewrite (running_plain ys Hys). by destruct o. }
  split; [done|]. split; [done|].
  assert (forall more, ms `prefix_of` more -> news v more all) as Hnews.
  { intros more [k ->]. split; [rewrite Hent; by apply sublist_inserts_r|]. intros _ c u' Hin. exists ms. split; [|by eexists].
    apply elem_of_cons in Hin as [[=]|[Hin|[[= -> ->]|Hin]%elem_of_cons]%elem_of_app]; [|done|].
    - apply list_elem_of_fmap in Hin as (e & [=] & _).
    - rewrite Forall_forall in Hys. by specialize (Hys _ Hin). }
  destruct o as [[[[v' a] m] rs]|e].
  - exists (ms ++ m :: rs). split; [apply Hnews; by eexists|]. intros x [= <-]. eapply grew_trans; [|by apply Ho]. by split.
  - exists ms. split; [by apply Hnews|done].
Qed.

Lemma turn_steps v : steps (turn number_text resolved policy_refusal allowed_choice v) (turned id v).
Proof.
  unfold turn. eapply steps_bind; [apply same_begin_turn| |intros e xs [Hxs _]; by apply turned_quiet_throw]. intros v1 xs1 [Hxs1 Hv1]. specialize (Hv1 v1 eq_refl).
  eapply steps_mono; [|intros o ys; by apply (turned_after _ _ _ _ _ _ Hv1 Hxs1)]. clear xs1 Hxs1 Hv1 v.
  eapply steps_bind; [apply refreshed_goes_on| |intros e xs [Hxs _]; by apply turned_quiet_throw]. intros [v2|] xs2 [Hxs2 Hv2].
  2: { apply steps_ret. rewrite app_nil_r. by apply goes_on_turned. }
  eapply steps_mono; [|intros o ys; by apply (turned_after _ _ _ _ _ _ Hv2 Hxs2)]. clear xs2 Hxs2 Hv2 v1.
  apply quiet_turned; [apply quiet_commit_pending|]. intros _.
  eapply steps_bind; [apply admit_steps| |by intros e xs (? & [=] & _)]. intros v3 xs3 (ms & [= ->] & ->).
  eapply steps_bind; [apply respond_steps| |].
  2: { intros e xs Hr. destruct (admission _ _ _ _ Hr) as (Ha & Hn & more & Hm & _). by eapply turned_throw. }
  intros [[[v4 a] m] provided] xs4 Hr. destruct (admission _ _ _ _ Hr) as (Ha & Hn & more & Hm & Hg). specialize (Hg _ eq_refl). cbn [fst] in Hg.
  enough (steps (if shouldTerminateAssistantTurn policy_refusal a
    then bind (silent (fun w => finishTurn w m provided (ctx v4) (newMessages v4))) (fun d => bind (from_result d) (fun _ =>
         bind (emit (TurnEnd m provided)) (fun _ => end_run v4)))
    else bind (run_tools resolved v4 a m) (fun x => let '(v, results, more, terminated) := x in after_turn v m (provided ++ results) more terminated))
    (turned id v4)) as Hrest.
  { eapply steps_mono; [exact Hrest|]. intros o ys Ho. rewrite (app_assoc _ xs4 ys). by eapply turned_app. }
  destruct (shouldTerminateAssistantTurn policy_refusal a).
  - apply quiet_turned; [apply quiet_silent|]. intros d. apply quiet_turned; [apply quiet_from_result|]. intros _.
    apply quiet_turned; [by apply quiet_emit|]. intros _. eapply steps_mono; [apply ends|]. apply goes_on_turned.
  - eapply steps_bind; [apply run_tools_steps| |].
    + intros [[[v5 results] again] terminated] xs5 (Hout & Hn5 & Hg5). destruct (Hg5 _ eq_refl) as [more5 Hg6]. cbn [fst] in Hg6.
      eapply steps_mono; [apply after_turn_goes_on|]. intros o ys Ho%goes_on_turned.
      eapply turned_app; [by apply admitted_outside|exact Hn5| |exact Hg6|exact Ho].
      split; [rewrite entered_outside by done; apply sublist_nil_l|]. intros _ c u Hin. rewrite Forall_forall in Hout. by specialize (Hout _ Hin).
    + intros e xs (Hout & Hn5 & _). apply (turned_throw _ _ _ []); [by apply admitted_outside|exact Hn5|by apply news_outside].
Qed.

(** *** Runs *)

(** What a run leaves that began with the messages [base] in its context: [ms] are
    the messages of the run. *)
Definition ran (base : list AgentMessage) (o : outcome (option unit)) (xs : list Exchange) (ms : list AgentMessage) : Prop :=
  entered xs `sublist_of` ms /\
  (context_kept -> forall c u, Prepared c u ∈ xs -> exists k, ac_messages c = base ++ k /\ k `prefix_of` ms) /\
  match o with Ret (Some _) => exists ys, xs = ys ++ [Emitted (AgentEnd ms)] | _ => True end.

Definition loop_left (base : list AgentMessage) (o : outcome (option unit)) (xs : list Exchange) : Prop :=
  admitted xs /\ nested o xs /\ exists ms, ran base o xs ms.

Lemma loop_left_news base v o more xs :
  ac_messages (ctx v) = base ++ newMessages v -> admitted xs -> nested o xs -> news v more xs ->
  match o with Ret (Some _) => exists ys, xs = ys ++ [Emitted (AgentEnd (newMessages v ++ more))] | _ => True end -> loop_left base o xs.
Proof.
  intros Hb Ha Hn [He Hp] Ho. split; [done|]. split; [done|]. exists (newMessages v ++ more). split_and!; [by apply sublist_inserts_l| |done].
  intros Hk c u Hin. destruct (Hp Hk c u Hin) as (k & Hc & Hpre). exists (newMessages v ++ k). rewrite Hc, Hb, app_assoc. split; [done|by apply prefix_app].
Qed.

Definition looped (v : Vars) (o : outcome (option unit)) (xs : list Exchange) : Prop :=
  admitted xs /\ nested o xs /\ exists more, news v more xs /\
  match o with Ret (Some _) => exists ys, xs = ys ++ [Emitted (AgentEnd (newMessages v ++ more))] | _ => True end.

Lemma looped_app v v1 more o xs ys :
  admitted xs -> nested (Ret tt) xs -> news v more xs -> grew v v1 more -> looped v1 o ys -> looped v o (xs ++ ys).
Proof.
  intros Ha Hn Hnews Hg (Ha' & Hn' & more' & Hnews' & Ho). split; [by apply admitted_app|]. split; [by apply (nested_app tt)|].
  exists (more ++ more'). split; [by eapply news_app|]. destruct o as [[[]|]|e]; [|done..]. destruct Ho as [zs ->]. exists (xs ++ zs).
  destruct Hg as [-> _]. by rewrite !app_assoc.
Qed.

Lemma turns_steps fuel v : steps (turns number_text resolved policy_refusal allowed_choice fuel v) (looped v).
Proof.
  revert v. induction fuel as [|fuel IH]; intros v; cbn [turns].
  { apply steps_ret. split; [by apply admitted_outside|]. split; [by intros _|]. exists []. split; [by apply news_outside|done]. }
  eapply steps_bind; [apply turn_steps| |].
  - intros [v'|] xs (Ha & Hn & more & Hnews & Hv'); cbn in Hv'.
    + eapply steps_mono; [apply IH|]. intros o ys. by eapply looped_app.
    + apply steps_ret. rewrite app_nil_r. split; [done|]. split; [by intros Hh; apply Hn|]. by exists more.
  - intros e xs (Ha & Hn & more & Hnews & _). split; [done|]. split; [done|]. by exists more.
Qed.

Lemma runLoop_steps fuel c new cfg base :
  ac_messages c = base ++ new -> steps (runLoop number_text resolved policy_refusal allowed_choice fuel c new cfg) (loop_left base).
Proof.
  intros Hc. unfold runLoop. set (v0 := mkVars c new cfg true true None false false [] [] SteeringQueue).
  apply steps_mono with (looped v0).
  2: { intros o xs (Ha & Hn & more & Hnews & Ho). by eapply (loop_left_news base v0). }
  eapply steps_bind; [apply same_drain| |].
  - intros v xs [Hxs Hg]. eapply steps_mono; [apply turns_steps|]. intros o ys.
    eapply looped_app; [by apply admitted_outside, plain_outside|by apply nested_plain|by apply news_outside, plain_outside|by apply Hg].
  - intros e xs [Hxs _]. split; [by apply admitted_outside, plain_outside|]. split; [by apply nested_plain|]. exists [].
    split; [by apply news_outside, plain_outside|done].
Qed.

Lemma quiet_loop_left {A} base (m : M A) k :
  quiet m -> (forall a, steps (k a) (loop_left base)) -> steps (bind m k) (loop_left base).
Proof.
  assert (forall xs, Forall plain xs -> forall c u, Prepared c u ∉ xs) as Hprep.
  { intros xs Hxs c u Hin. rewrite Forall_forall in Hxs. by specialize (Hxs _ Hin). }
  intros Hm Hk. apply steps_quiet; [done| |].
  - intros a xs Hxs. eapply steps_mono; [apply Hk|]. intros o ys (Ha & Hn & ms & He & Hp & Ho).
    split; [by apply admitted_app; [apply admitted_outside, plain_outside|]|]. split; [by apply (nested_app tt); [apply nested_plain|]|].
    exists ms. split_and!.
    + by rewrite entered_app, (entered_outside xs) by (by apply plain_outside).
    + intros Hc c u [Hin|Hin]%elem_of_app; [by apply Hprep in Hin|by eapply Hp].
    + destruct o as [[[]|]|e]; [|done..]. destruct Ho as [zs ->]. exists (xs ++ zs). by rewrite app_assoc.
  - intros e xs Hxs. split; [by apply admitted_outside, plain_outside|]. split; [by apply nested_plain|]. exists [].
    split_and!; [by rewrite entered_outside by (by apply plain_outside)| |done]. intros _ c u Hin. by apply Hprep in Hin.
Qed.

Lemma runAgentLoop_steps fuel prompts c cfg :
  steps (runAgentLoop number_text resolved policy_refusal allowed_choice fuel prompts c cfg) (loop_left (ac_messages c)).
Proof.
  unfold runAgentLoop. apply quiet_loop_left; [apply quiet_silent|]. intros now. apply quiet_loop_left; [by apply quiet_emit|]. intros _.
  apply quiet_loop_left; [by apply quiet_emit|]. intros _. apply quiet_loop_left; [apply quiet_each_of; intros; apply quiet_emit_message|]. intros _.
  by apply runLoop_steps.
Qed.

Lemma runAgentLoopContinue_steps fuel c cfg :
  steps (runAgentLoopContinue number_text resolved policy_refusal allowed_choice fuel c cfg) (loop_left (ac_messages c)).
Proof.
  assert (forall e, steps (throw (A := option unit) e) (loop_left (ac_messages c))) as Hthrow.
  { intros e. apply steps_throw. split; [by apply admitted_outside|]. split; [by intros _|]. exists []. split_and!; [done| |done].
    intros _ c' u Hin. by apply not_elem_of_nil in Hin. }
  unfold runAgentLoopContinue. destruct (last (ac_messages c)) as [m|]; [|apply Hthrow].
  assert (steps (bind (emit AgentStart) (fun _ => bind (emit TurnStart) (fun _ =>
    runLoop number_text resolved policy_refusal allowed_choice fuel c [] cfg))) (loop_left (ac_messages c))) as Hrun.
  { apply quiet_loop_left; [by apply quiet_emit|]. intros _. apply quiet_loop_left; [by apply quiet_emit|]. intros _.
    apply runLoop_steps. by rewrite app_nil_r. }
  destruct (body m); try exact Hrun. apply Hthrow.
Qed.
End Programs.
