(* ===== verification/PreparedHost.v ===== *)
(** * The loop's own tool host (packages/agent/src/execution/prepared/pipeline-prepared.ts, execution/tool-outcome-events.ts)

The host that runs the calls of a message as one batch, or one after the other
when the loop is sequential, and turns their outcomes into result messages.
Running a batch (the prepared executor behind the coordinator) is a parameter
with its contract: outcomes in source order, all of them unless the run is
aborted.  The host then keeps the contract the agent loop asks of a tool host. *)
From S2P Require Import Prelude JsString JsonText JsNumber JsObject Json Messages Compaction Transcript AgentLoop AgentLoopCorrect AgentLoopTraces.
#[local] Open Scope Z_scope.

Record CallOutcome := mkOutcome { oc_call : ToolCall; oc_content : option (list ContentBlock); oc_isError : bool; oc_terminate : bool }.

Section Host.
Context {W : Type} `{LoopHooks W}.
Context (runPreparedBatch : W -> AgentContext -> AgentMessage -> list ToolCall -> W * (list AgentEvent * result jstring (list CallOutcome))).

Definition createToolResultMessage (now : num) (o : CallOutcome) : AgentMessage :=
  mkMessage (ToolResultMsg (call_id (oc_call o)) (ContentBlocks (default [] (oc_content o)))) now.

Definition shouldTerminateToolBatch (outcomes : list CallOutcome) : bool :=
  match outcomes with [] => false | _ => forallb oc_terminate outcomes end.

Definition result_events (m : AgentMessage) : list AgentEvent := [MessageStart m; MessageEnd m].

(** [report]: a message for every outcome, with its events sent. *)
Fixpoint report (w : W) (outcomes : list CallOutcome) : W * (list AgentEvent * list AgentMessage) :=
  match outcomes with
  | [] => (w, ([], []))
  | o :: outcomes =>
      let m := createToolResultMessage (clock w) o in
      let '(w, (es, ms)) := report (foldl eventSink w (result_events m)) outcomes in
      (w, (result_events m ++ es, m :: ms))
  end.

(** A batch and its report. *)
Definition run_batch (w : W) (c : AgentContext) (m : AgentMessage) (calls : list ToolCall) :
    W * (list AgentEvent * result jstring (list CallOutcome * list AgentMessage)) :=
  let '(w, (es, r)) := runPreparedBatch w c m calls in
  match r with
  | Err e => (w, (es, Err e))
  | Ok outcomes => let '(w, (es', ms)) := report w outcomes in (w, (es ++ es', Ok (outcomes, ms)))
  end.

Fixpoint run_sequence (w : W) (c : AgentContext) (m : AgentMessage) (calls : list ToolCall) :
    W * (list AgentEvent * result jstring (list CallOutcome * list AgentMessage)) :=
  match calls with
  | [] => (w, ([], Ok ([], [])))
  | x :: calls =>
      let '(w, (es, r)) := run_batch w c m [x] in
      match r with
      | Err e => (w, (es, Err e))
      | Ok (outcomes, ms) =>
          if aborted w then (w, (es, Ok (outcomes, ms)))
          else
            let '(w, (es', r)) := run_sequence w c m calls in
            (w, (es ++ es', match r with Err e => Err e | Ok (outcomes', ms') => Ok (outcomes ++ outcomes', ms ++ ms') end))
      end
  end.

Definition createPreparedToolHost (sequential : bool) : ToolHost W :=
  fun w c m calls =>
    let '(w, (es, r)) := if sequential then run_sequence w c m calls else run_batch w c m calls in
    (w, (es, match r with Err e => Err e | Ok (outcomes, ms) => Ok (ms, shouldTerminateToolBatch outcomes) end)).

(** ** Its contract *)

(** A tool's own events. *)
Definition tool_event (e : AgentEvent) : Prop :=
  match e with ToolExecutionStart _ _ _ | ToolExecutionUpdate _ _ | ToolExecutionEnd _ _ _ => True | _ => False end.

Class BatchAnswers : Prop := {
  batch_events w c m calls : Forall tool_event (runPreparedBatch w c m calls).2.1;
  batch_abort w c m calls : aborted w = true -> aborted (runPreparedBatch w c m calls).1 = true;
  batch_outcomes w c m calls outcomes : (runPreparedBatch w c m calls).2.2 = Ok outcomes ->
    (fun o => call_id (oc_call o)) <$> outcomes `prefix_of` call_id <$> calls /\
    (aborted (runPreparedBatch w c m calls).1 = false -> (fun o => call_id (oc_call o)) <$> outcomes = call_id <$> calls) }.

Context {laws : LoopLaws (W := W)} {batches : BatchAnswers}.

Lemma tool_events_phase es : Forall tool_event es -> phases InTurn (Emitted <$> es) = InTurn.
Proof. induction 1 as [|e es He Hes IH]; [done|]. unfold phases in *. cbn. by destruct e. Qed.

Lemma phases_events p es es' : phases p (Emitted <$> (es ++ es')) = phases (phases p (Emitted <$> es)) (Emitted <$> es').
Proof. by rewrite fmap_app, phases_app. Qed.

Lemma sinks_abort w es : aborted w = true -> aborted (foldl eventSink w es) = true.
Proof. revert w. induction es as [|e es IH]; intros w Hw; [done|]. by apply IH, sink_abort. Qed.

Lemma report_spec w outcomes :
  let '(w', (es, ms)) := report w outcomes in
  phases InTurn (Emitted <$> es) = InTurn /\ result_id <$> ms = Some <$> ((fun o => call_id (oc_call o)) <$> outcomes) /\
  (aborted w = true -> aborted w' = true).
Proof.
  revert w. induction outcomes as [|o outcomes IH]; intros w; cbn [report]; [done|]. set (m := createToolResultMessage (clock w) o).
  specialize (IH (foldl eventSink w (result_events m))). destruct (report _ outcomes) as [w' [es ms]]. destruct IH as (Hp & Hr & Ha).
  split_and!; [by rewrite phases_events|by rewrite !fmap_cons, Hr|]. intros Hw. by apply Ha, sinks_abort.
Qed.

(** Reports are messages only. *)
Lemma report_running w outcomes : running_after (Some []) (Emitted <$> (report w outcomes).2.1) = Some [].
Proof.
  revert w. induction outcomes as [|o outcomes IH]; intros w; cbn [report]; [done|].
  specialize (IH (foldl eventSink w (result_events (createToolResultMessage (clock w) o)))). by destruct (report _ outcomes) as [w' [es ms]].
Qed.

(** What a run of calls gives: events in order, results for the first calls, and for all of them unless aborted. *)
Definition runs_calls (w : W) (calls : list ToolCall) (x : W * (list AgentEvent * result jstring (list CallOutcome * list AgentMessage))) : Prop :=
  (aborted w = true -> aborted x.1 = true) /\
  match x.2.2 with
  | Ok (outcomes, ms) =>
      phases InTurn (Emitted <$> x.2.1) = InTurn /\ result_id <$> ms `prefix_of` Some <$> (call_id <$> calls) /\
      (aborted x.1 = false -> result_id <$> ms = Some <$> (call_id <$> calls))
  | Err _ => phases InTurn (Emitted <$> x.2.1) = InTurn
  end.

Lemma run_batch_spec w c m calls : runs_calls w calls (run_batch w c m calls).
Proof.
  unfold run_batch. pose proof (batch_events w c m calls) as He. pose proof (batch_abort w c m calls) as Ha.
  pose proof (batch_outcomes w c m calls) as Ho. destruct (runPreparedBatch w c m calls) as [w' [es [outcomes|e]]]; cbn [fst snd] in *.
  - destruct (Ho outcomes eq_refl) as [Hpre Hall]. pose proof (report_spec w' outcomes) as Hr. destruct (report w' outcomes) as [w'' [es' ms]].
    destruct Hr as (Hp & Hids & Hab). split; cbn [fst snd]; [auto|]. rewrite phases_events, (tool_events_phase es He), Hids. split_and!; [done| |].
    + destruct Hpre as [k ->]. rewrite fmap_app. by eexists.
    + intros Hw. rewrite Hall; [done|]. destruct (aborted w'); [|done]. by rewrite Hab in Hw.
  - split; cbn [fst snd]; [auto|by apply tool_events_phase].
Qed.

Lemma run_sequence_spec w c m calls : runs_calls w calls (run_sequence w c m calls).
Proof.
  revert w. induction calls as [|x calls IH]; intros w; cbn [run_sequence]; [by split|].
  pose proof (run_batch_spec w c m [x]) as [Ha Hb]. destruct (run_batch w c m [x]) as [w1 [es [[outcomes ms]|e]]]; cbn [fst snd] in *; [|by split].
  destruct Hb as (Hp & Hpre & Hall). destruct (aborted w1) eqn:Hw1.
  - split; cbn [fst snd]; [by rewrite Hw1|]. split_and!; [done| |by rewrite Hw1]. etrans; [exact Hpre|]. rewrite !fmap_cons. by eexists (Some <$> (call_id <$> calls)).
  - specialize (IH w1) as [Ha2 Hb2]. specialize (Hall eq_refl). cbn in Hall.
    destruct (run_sequence w1 c m calls) as [w2 [es2 [[outcomes2 ms2]|e]]]; cbn [fst snd] in *.
    + destruct Hb2 as (Hp2 & Hpre2 & Hall2). split; cbn [fst snd]; [intros Hw; by specialize (Ha Hw)|].
      rewrite phases_events, Hp, fmap_app, Hall, !fmap_cons. split_and!; [done| |].
      * destruct Hpre2 as [k ->]. by exists k.
      * intros Hw2. cbn. f_equal. by apply Hall2.
    + split; cbn [fst snd]; [intros Hw; by specialize (Ha Hw)|]. by rewrite phases_events, Hp.
Qed.

(** Given a batch that answers in source order, the host keeps the contract of the
    agent loop in both modes. *)
Lemma prepared_host_lawful sequential : HostAnswers (createPreparedToolHost sequential).
Proof.
  split; intros w c m calls; unfold execute, createPreparedToolHost.
  - assert (runs_calls w calls (if sequential then run_sequence w c m calls else run_batch w c m calls)) as [_ Hr].
    { destruct sequential; [apply run_sequence_spec|apply run_batch_spec]. }
    destruct (if sequential then _ else _) as [w' [es [[outcomes ms]|e]]]; cbn in *; [|by rewrite Hr]. by destruct Hr as (? & ? & ?).
  - assert (runs_calls w calls (if sequential then run_sequence w c m calls else run_batch w c m calls)) as [Ha _].
    { destruct sequential; [apply run_sequence_spec|apply run_batch_spec]. }
    destruct (if sequential then _ else _) as [w' [es r]]. done.
Qed.
End Host.
