(* ===== verification/AgentLoopRuns.v ===== *)
(** * Runs of the agent loop

The properties of a whole run, prompted or continued: how its events nest, that
queued messages are neither lost nor used twice, that every call is answered, that
only finished responses have their calls run, and that a run ends when its
provider does.  A small world with scripted answers shows that the contracts can
be met, with the loop's own tool host. *)
From S2P Require Import Prelude JsString JsonText JsNumber JsObject Json Messages Compaction Transcript AgentLoop AgentLoopCorrect AgentLoopTraces PreparedHost.
#[local] Open Scope Z_scope.

Section Runs.
Context {W : Type} `{LoopHooks W} `{host : ToolHost W}.
Context (number_text : num -> jstring) (resolved : ContentBlock -> bool) (policy_refusal : jstring -> bool) (allowed_choice : jstring -> bool).

(** How a run begins: with prompts or from the context as it is. *)
Inductive Start := Prompted (prompts : list AgentMessage) | Continued.

Definition run_from (fuel : nat) (st : Start) (c : AgentContext) (cfg : LoopConfig) (w : W) : Run W * outcome (option unit) :=
  match st with
  | Prompted prompts => runAgentLoop number_text resolved policy_refusal allowed_choice fuel prompts c cfg (mkRun w [])
  | Continued => runAgentLoopContinue number_text resolved policy_refusal allowed_choice fuel c cfg (mkRun w [])
  end.

(** Prompts are no assistant turns with calls. *)
Definition start_ok (st : Start) : Prop := match st with Prompted prompts => Forall (fun m => asks resolved m = []) prompts | Continued => True end.

Section Lawful.
Context {laws : LoopLaws (W := W)} {quiets : QuietQueues (W := W) resolved} {answers : HostAnswers host}.

Lemma run_from_result fuel st c cfg w r o :
  start_ok st -> run_from fuel st c cfg w = (r, o) -> run_result resolved policy_refusal o r.
Proof.
  intros Hst Hrun. destruct st as [prompts|]; unfold run_from, start_ok in *.
  - pose proof (wp_runAgentLoop number_text resolved policy_refusal allowed_choice fuel prompts c cfg w Hst) as Hwp.
    unfold wp in Hwp. by rewrite Hrun in Hwp.
  - pose proof (wp_runAgentLoopContinue number_text resolved policy_refusal allowed_choice fuel c cfg w) as Hwp.
    unfold wp in Hwp. by rewrite Hrun in Hwp.
Qed.

Lemma run_from_at fuel st c cfg w r o :
  start_ok st -> run_from fuel st c cfg w = (r, o) -> exists p s, p <> BadPhase /\ At resolved policy_refusal p s r.
Proof.
  intros Hst Hrun. pose proof (run_from_result _ _ _ _ _ _ _ Hst Hrun) as Hr. destruct o as [[[]|]|e]; cbn in Hr.
  - destruct Hr as [HA _]. by exists Finished, Nothing.
  - done.
  - destruct Hr as (p & Hp & HA). by exists p, Nothing.
Qed.




(** C30. In the messages a run returns every tool call is answered: each assistant
message is followed by the results its provider delivered and then by one result
for each of its calls, in order; only the last turn may be without them when its
response failed, or have answered a first part when the run was aborted. *)
Theorem calls_answered fuel st c cfg w r :
  start_ok st -> run_from fuel st c cfg w = (r, Ret (Some tt)) ->
  exists t ms, trace r = t ++ [Emitted (AgentEnd ms)] /\ finished_messages resolved policy_refusal (aborted (world r)) ms.
Proof. intros Hst Hrun. exact (proj2 (run_from_result _ _ _ _ _ _ _ Hst Hrun)). Qed.

(** C31. Calls are only handed to the tool host for a response that neither failed
nor was refused nor was cut at the token limit, and then all the calls the
provider did not run itself, in order, in one batch. *)
Theorem only_finished_responses_run fuel st c cfg w r o m calls :
  start_ok st -> run_from fuel st c cfg w = (r, o) -> Dispatched m calls ∈ trace r ->
  exists a, body m = AssistantBody a /\ a_stop a <> StopError /\ a_stop a <> StopAborted /\ a_stop a <> StopLength /\
    isClassifierRefusal policy_refusal a = false /\ calls = tool_calls resolved a.
Proof.
  intros Hst Hrun Hin. destruct (run_from_at _ _ _ _ _ _ _ Hst Hrun) as (p & s & _ & HA).
  pose proof (at_safe _ _ _ _ _ HA) as Hsafe. rewrite Forall_forall in Hsafe. destruct (Hsafe _ Hin) as (a & Hb & Ht & Hl & Hc).
  exists a. split; [done|]. unfold shouldTerminateAssistantTurn in Ht. by destruct (a_stop a).
Qed.
End Lawful.

(** ** Ends *)

(** What the provider has left to say; the other hooks do not give it more. *)
Class Budget (budget : W -> nat) : Prop := {
  stream_budget w c cfg : (budget (stream w c cfg).1 < budget w)%nat \/
    ((budget (stream w c cfg).1 <= budget w)%nat /\ exists e, s_result (stream w c cfg).2 = Broken false e);
  steering_budget w : (budget (getSteeringMessages w).1 <= budget w)%nat;
  followup_budget w : (budget (getFollowUpMessages w).1 <= budget w)%nat;
  restore_budget f w q ms : restorePendingMessages = Some f -> (budget (f w q ms) <= budget w)%nat;
  commit_budget f w q ms : commitQueuedConsumption = Some f -> (budget (f w q ms).1 <= budget w)%nat;
  prepare_budget w c cfg : (budget (prepareRequest w c cfg).1 <= budget w)%nat;
  step_budget w m rs : (budget (commitStep w m rs).1 <= budget w)%nat;
  finish_budget w m rs c ms : (budget (finishTurn w m rs c ms).1 <= budget w)%nat;
  next_budget w m rs c ms : (budget (prepareNextTurn w m rs c ms).1 <= budget w)%nat;
  sink_budget w e : (budget (eventSink w e) <= budget w)%nat;
  execute_budget w c m calls : (budget (execute w c m calls).1 <= budget w)%nat }.

Section Ends.
Context (budget : W -> nat) {B : Budget budget}.

(** The program does not add to the budget. *)
Definition lean {A} (m : M A) : Prop := forall r, (budget (world (m r).1) <= budget (world r))%nat.

Lemma lean_ret {A} (a : A) : lean (ret a). Proof. intros r. cbn. lia. Qed.
Lemma lean_throw {A} e : lean (throw (A := A) e). Proof. intros r. cbn. lia. Qed.
Lemma lean_bind {A C} (m : M A) (k : A -> M C) : lean m -> (forall a, lean (k a)) -> lean (bind m k).
Proof.
  intros Hm Hk r. unfold bind. specialize (Hm r). destruct (m r) as [r' [a|e]]; cbn in *; [|done]. specialize (Hk a r'). lia.
Qed.
Lemma lean_call {A} (f : W -> W * A) note : (forall w, (budget (f w).1 <= budget w)%nat) -> lean (call f note).
Proof. intros Hf r. unfold call. specialize (Hf (world r)). by destruct (f (world r)). Qed.
Lemma lean_each {A} (f : A -> M unit) l : (forall x, lean (f x)) -> lean (each f l).
Proof. intros Hf. induction l as [|x l IH]; [apply lean_ret|]. by apply lean_bind. Qed.
Lemma lean_if {A} (b : bool) (m m' : M A) : lean m -> lean m' -> lean (if b then m else m').
Proof. by destruct b. Qed.

(** Goes through a program, splitting its tests. *)
Ltac lean_step :=
  match goal with
  | |- lean (ret _) => apply lean_ret
  | |- lean (throw _) => apply lean_throw
  | |- lean (bind _ _) => apply lean_bind; [|intros ?]
  | |- lean (each _ _) => apply lean_each; intros ?
  | |- lean (call _ _) => apply lean_call; intros ?; cbn [fst]
  | |- lean (silent _) => apply lean_call; intros ?; cbn [fst]
  | |- lean (note _) => apply lean_call; intros ?; cbn [fst]
  | |- lean (emit _) => apply lean_call; intros ?; cbn [fst]
  | |- lean is_aborted => apply lean_call; intros ?; cbn [fst]
  | |- lean (match ?x with _ => _ end) => destruct x eqn:?
  | |- lean (if ?x then _ else _) => destruct x
  | |- (_ <= _)%nat => first [reflexivity | apply steering_budget | apply followup_budget | apply prepare_budget | apply step_budget
      | apply finish_budget | apply next_budget | apply sink_budget | apply execute_budget | by apply restore_budget | by apply commit_budget]
  end.
Ltac lean_solve := repeat lean_step.

Lemma lean_emit_message m : lean (emit_message m).
Proof. unfold emit_message. lean_solve. Qed.
Lemma lean_from_result {A} (x : result jstring A) : lean (from_result x).
Proof. unfold from_result. lean_solve. Qed.
Lemma lean_from_error x : lean (from_error x).
Proof. unfold from_error. lean_solve. Qed.
Lemma lean_restore q ms : lean (restore q ms).
Proof. unfold restore. lean_solve. Qed.
Lemma lean_drain v q : lean (drain v q).
Proof. unfold drain. destruct q; lean_solve. Qed.
Lemma lean_restore_drained v : lean (restore_drained v).
Proof. unfold restore_drained. lean_solve. apply lean_restore. Qed.
Lemma lean_drain_either v none : lean (drain_either v none).
Proof. unfold drain_either. lean_solve; apply lean_drain. Qed.
Lemma lean_end_run v : lean (end_run v).
Proof. unfold end_run. lean_solve. Qed.
Lemma lean_refreshed v : lean (refreshed v).
Proof. unfold refreshed, refreshTerminatingQueueDrain. lean_solve; auto using lean_restore, lean_drain_either, lean_end_run. Qed.
Lemma lean_commit_pending v : lean (commit_pending v).
Proof. unfold commit_pending. lean_solve; auto using lean_restore. Qed.
Lemma lean_admit_pending v : lean (admit_pending number_text allowed_choice v).
Proof. unfold admit_pending. lean_solve; auto using lean_emit_message. Qed.
Lemma lean_begin_turn v : lean (begin_turn v).
Proof. unfold begin_turn. lean_solve. Qed.
Lemma lean_failed_calls calls : lean (failToolCallsFromTruncatedMessage calls).
Proof. induction calls as [|c calls IH]; cbn; lean_solve; auto using lean_emit_message. Qed.
Lemma lean_run_tools v a m : lean (run_tools resolved v a m).
Proof. unfold run_tools, executeToolCalls. lean_solve; auto using lean_failed_calls, lean_from_result. Qed.
Lemma lean_next_turn v more terminated : lean (next_turn v more terminated).
Proof. unfold next_turn, outer_pass. lean_solve; auto using lean_drain, lean_end_run. Qed.
Lemma lean_prepare_next v m rs more terminated : lean (prepare_next v m rs more terminated).
Proof. unfold prepare_next. lean_solve; auto using lean_restore_drained, lean_end_run, lean_refreshed, lean_next_turn. Qed.
Lemma lean_after_turn v m rs more terminated : lean (after_turn v m rs more terminated).
Proof.
  unfold after_turn. lean_solve; auto using lean_from_result, lean_end_run, lean_drain_either, lean_prepare_next.
Qed.
Lemma lean_stream_events t es c partial : lean (stream_events t es c partial).
Proof.
  revert c partial. induction es as [|e es IH]; intros c p0; [apply lean_ret|]. destruct e; cbn [stream_events]; lean_solve; apply IH.
Qed.
Lemma lean_settle c b m : lean (settle_message c b m).
Proof. unfold settle_message. lean_solve. Qed.

(** Does not add to the budget, and what it returns satisfies [Q] unless it took from the budget. *)
Definition spends {A} (Q : A -> Prop) (m : M A) : Prop :=
  forall r, (budget (world (m r).1) <= budget (world r))%nat /\
    forall a, (m r).2 = Ret a -> Q a \/ (budget (world (m r).1) < budget (world r))%nat.

Lemma spends_lean {A} (m : M A) (Q : A -> Prop) : lean m -> (forall a, Q a) -> spends Q m.
Proof. intros Hm HQ r. split; [apply Hm|]. by left. Qed.

Lemma spends_bind {A C} (Q : A -> Prop) (Q' : C -> Prop) (m : M A) (k : A -> M C) :
  spends Q m -> (forall a, Q a -> spends Q' (k a)) -> (forall a, lean (k a)) -> spends Q' (bind m k).
Proof.
  intros Hm HQ Hk r. unfold bind. destruct (Hm r) as [Hle Hret]. destruct (m r) as [r' [a|e]]; cbn [fst snd] in *; [|done].
  specialize (Hk a r'). split; [lia|]. intros c Hc. destruct (Hret a eq_refl) as [Ha|Hlt]; [|right; lia].
  destruct (proj2 (HQ a Ha r') c Hc) as [?|?]; [by left|right; lia].
Qed.

Lemma spends_lean_bind {A C} (Q' : C -> Prop) (m : M A) (k : A -> M C) : lean m -> (forall a, spends Q' (k a)) -> spends Q' (bind m k).
Proof.
  intros Hm Hk. apply (spends_bind (fun _ => True)); [by apply spends_lean|auto|]. intros a r. apply Hk.
Qed.

Lemma spends_ret {A} (a : A) (Q : A -> Prop) : Q a -> spends Q (ret a).
Proof. intros HQ r. split; [done|]. intros a' [= <-]. by left. Qed.

Lemma spends_throw {A} e (Q : A -> Prop) : spends Q (throw e).
Proof. intros r. split; [done|]. done. Qed.

(** A provider with nothing left makes the turn terminal. *)
Lemma failure_terminates stopped e partial :
  shouldTerminateAssistantTurn policy_refusal (createTerminalFailureAssistantMessage stopped e partial) = true.
Proof. by destruct stopped. Qed.

Lemma spends_response c cfg :
  spends (fun x => shouldTerminateAssistantTurn policy_refusal x.1.1.2 = true) (streamAssistantResponse resolved c cfg).
Proof.
  unfold streamAssistantResponse. apply (spends_bind (fun s => exists e, s_result s = Broken false e)).
  - intros r. unfold call. destruct (stream_budget (world r) c cfg) as [Hlt|[Hle He]]; destruct (stream (world r) c cfg) as [w s]; cbn in *.
    + split; [lia|]. by right.
    + split; [lia|]. intros ? [= <-]. by left.
  - intros s [e He]. apply spends_lean_bind; [lean_solve|]. intros t. apply spends_lean_bind; [apply lean_stream_events|]. intros [[c' partial] terminal].
    apply spends_lean_bind; [lean_solve|]. intros stopped. apply spends_lean_bind; [apply lean_settle|]. intros c''. apply spends_ret.
    cbn [fst snd]. unfold final_message. rewrite He. apply failure_terminates.
  - intros s. lean_solve; auto using lean_stream_events, lean_settle.
Qed.

Lemma spends_respond v : spends (fun x => shouldTerminateAssistantTurn policy_refusal x.1.1.2 = true) (respond resolved v).
Proof.
  unfold respond. apply spends_lean_bind; [lean_solve|]. intros u. apply spends_lean_bind; [apply lean_from_result|]. intros u'.
  eapply spends_bind; [apply spends_response| |].
  - intros [[[c a] t] results] Ha. cbn [fst snd] in Ha. apply spends_lean_bind; [lean_solve; apply lean_emit_message|]. intros _.
    apply spends_lean_bind; [lean_solve|]. intros failed. apply spends_lean_bind; [apply lean_from_error|]. intros _. by apply spends_ret.
  - intros [[[c a] t] results]. lean_solve; auto using lean_emit_message, lean_from_error.
Qed.

(** A turn after which the run goes on has taken from the budget. *)
Lemma spends_turn v : spends (fun x => x = None) (turn number_text resolved policy_refusal allowed_choice v).
Proof.
  unfold turn. apply spends_lean_bind; [apply lean_begin_turn|]. intros v1. apply spends_lean_bind; [apply lean_refreshed|]. intros [v2|]; [|by apply spends_ret].
  apply spends_lean_bind; [apply lean_commit_pending|]. intros _. apply spends_lean_bind; [apply lean_admit_pending|]. intros v3.
  eapply spends_bind; [apply spends_respond| |].
  - intros [[[v4 a] m] provided] Ha. cbn [fst snd] in Ha. rewrite Ha. apply spends_lean_bind; [lean_solve|]. intros d.
    apply spends_lean_bind; [apply lean_from_result|]. intros _. apply spends_lean_bind; [lean_solve|]. intros _.
    unfold end_run. apply spends_lean_bind; [lean_solve|]. intros _. by apply spends_ret.
  - intros [[[v4 a] m] provided]. lean_solve; auto using lean_from_result, lean_end_run, lean_run_tools, lean_after_turn.
Qed.

Lemma turns_end fuel v r : (budget (world r) < fuel)%nat -> (turns number_text resolved policy_refusal allowed_choice fuel v r).2 <> Ret None.
Proof.
  revert v r. induction fuel as [|fuel IH]; intros v r Hf; [lia|]. cbn [turns]. unfold bind at 1. pose proof (spends_turn v r) as [_ Hs].
  destruct (turn _ _ _ _ v r) as [r' [[v'|]|e]]; cbn [fst snd] in *; [|done..].
  destruct (Hs (Some v') eq_refl) as [?|Hlt]; [done|]. apply IH. lia.
Qed.

Lemma after_lean {A C} (m : M A) (k : A -> M (option C)) n r :
  lean m -> (forall a r', (budget (world r') < n)%nat -> (k a r').2 <> Ret None) -> (budget (world r) < n)%nat -> (bind m k r).2 <> Ret None.
Proof. intros Hm Hk Hn. unfold bind. specialize (Hm r). destruct (m r) as [r' [a|e]]; cbn [fst] in *; [apply Hk; lia|done]. Qed.

Lemma runLoop_ends fuel c new cfg r : (budget (world r) < fuel)%nat ->
  (runLoop number_text resolved policy_refusal allowed_choice fuel c new cfg r).2 <> Ret None.
Proof. apply after_lean; [apply lean_drain|]. intros v r'. apply turns_end. Qed.

(** C32. A run ends: with more turns than its provider has responses left, a run
returns or throws, whatever is queued for it and whatever the tools and the hooks
answer, since a provider that has nothing left fails and a failed response is the
last one. *)
Theorem loop_ends fuel st c cfg w : (budget w < fuel)%nat -> (run_from fuel st c cfg w).2 <> Ret None.
Proof.
  intros Hf. destruct st as [prompts|]; unfold run_from.
  - unfold runAgentLoop. apply (after_lean _ _ fuel); [lean_solve| |done]. intros now r1 H1. apply (after_lean _ _ fuel); [lean_solve| |done]. intros _ r2 H2.
    apply (after_lean _ _ fuel); [lean_solve| |done]. intros _ r3 H3. apply (after_lean _ _ fuel); [lean_solve; apply lean_emit_message| |done]. intros _ r4.
    apply runLoop_ends.
  - unfold runAgentLoopContinue. destruct (last (ac_messages c)) as [m|]; [|done].
    assert ((bind (emit AgentStart) (fun _ => bind (emit TurnStart) (fun _ =>
      runLoop number_text resolved policy_refusal allowed_choice fuel c [] cfg)) (mkRun w [])).2 <> Ret None) as Hrun.
    { apply (after_lean _ _ fuel); [lean_solve| |done]. intros _ r1 H1. apply (after_lean _ _ fuel); [lean_solve| |done]. intros _ r2. apply runLoop_ends. }
    destruct (body m); done.
Qed.
End Ends.
End Runs.

(** ** A world that meets the contracts *)

Module LoopSample.
(** Responses still to come, queued messages, messages queued when the next turn ends, and whether the run was aborted. *)
Record World := mkWorld {
  script : list AssistantMsg; steering_queue : list AgentMessage; followup_queue : list AgentMessage; late : list AgentMessage; stopped : bool }.

Definition is_assistant (m : AgentMessage) : bool := match body m with AssistantBody _ => true | _ => false end.
Definition queued (l : list AgentMessage) : list AgentMessage := List.filter (fun m => negb (is_assistant m)) l.

(** A response is streamed as one partial message; without a script the request fails. *)
Definition respond_from_script (w : World) : World * Streamed :=
  match script w with
  | [] => (w, mkStreamed [] (Broken false $"No more responses") [])
  | a :: script => (mkWorld script (steering_queue w) (followup_queue w) (late w) (stopped w), mkStreamed [StreamStart a; StreamTerminal None] (Settled a) [])
  end.

#[export] Instance hooks : LoopHooks World := {
  getSteeringMessages w := (mkWorld (script w) [] (followup_queue w) (late w) (stopped w), queued (steering_queue w));
  getFollowUpMessages w := (mkWorld (script w) (steering_queue w) [] (late w) (stopped w), queued (followup_queue w));
  restorePendingMessages := Some (fun w q ms => match q with
    | SteeringQueue => mkWorld (script w) (ms ++ steering_queue w) (followup_queue w) (late w) (stopped w)
    | FollowUpQueue => mkWorld (script w) (steering_queue w) (ms ++ followup_queue w) (late w) (stopped w)
    end);
  commitQueuedConsumption := Some (fun w _ _ => (w, None));
  prepareRequest w _ _ := (w, Ok None);
  commitStep w _ _ := (w, None);
  finishTurn w _ _ _ _ := (w, Ok None);
  prepareNextTurn w _ _ _ _ := (w, Ok None);
  eventSink w e := match e with
    | TurnEnd _ _ => mkWorld (script w) (steering_queue w) (followup_queue w ++ late w) [] (stopped w)
    | _ => w
    end;
  aborted w := stopped w;
  clock _ := of_Z 0;
  stream w _ _ := respond_from_script w }.

(** Every call is answered; a call named "finish" asks for the end of the run. *)
Definition echo_batch (w : World) (_ : AgentContext) (_ : AgentMessage) (calls : list ToolCall) :
    World * (list AgentEvent * result jstring (list CallOutcome)) :=
  (w, (calls ≫= (fun c => [ToolExecutionStart (call_id c) (call_tool c) (call_arguments c); ToolExecutionEnd (call_id c) (call_tool c) false]),
       Ok ((fun c => mkOutcome c (Some [TextBlock $"out"]) false (bool_decide (call_tool c = $"finish"))) <$> calls))).

Definition host : ToolHost World := createPreparedToolHost echo_batch false.

#[export] Instance laws : LoopLaws (W := World).
Proof.
  split; [by eexists| | |done|by intros w []]; intros w c cfg; cbn; unfold respond_from_script; destruct (script w); cbn; (lia || constructor).
Qed.

Lemma queued_quiet resolved l : Forall (fun m => asks resolved m = []) (queued l).
Proof.
  apply Forall_forall. intros m [_ Hm]%elem_of_filter_bool. unfold is_assistant in Hm. unfold asks. by destruct (body m).
Qed.

#[export] Instance quiets resolved : QuietQueues (W := World) resolved.
Proof. split; [intros; apply queued_quiet..|done]. Qed.

#[export] Instance batches : BatchAnswers echo_batch.
Proof.
  split; cbn; [|done|].
  - intros w c m calls. induction calls as [|x calls IH]; [constructor|]. cbn. by repeat constructor.
  - intros w c m calls outcomes [= <-]. rewrite <- list_fmap_compose. by split.
Qed.

#[export] Instance budgeted : Budget (host := host) (fun w => length (script w)).
Proof.
  split; try (intros; cbn; lia).
  - intros w c cfg. cbn. unfold respond_from_script. destruct (script w) eqn:Hs; cbn; [right|left; lia]. rewrite Hs. split; [done|by eexists].
  - intros f w q ms [= <-]. by destruct q.
  - intros f w q ms [= <-]. done.
  - by intros w [].
  - intros w c m calls. unfold execute, host, createPreparedToolHost, run_batch, echo_batch. cbn.
    set (os := _ <$> calls). clearbody os. enough (script (report w os).1 = script w) as <-.
    { by destruct (report w os) as [w' [es ms]]. }
    induction os as [|o os IH]; [done|]. cbn in *. by destruct (report w os) as [w' [es ms]].
Qed.

Definition say (text : jstring) : AgentMessage := mkMessage (UserMsg (ContentText text)) (of_Z 0).
Definition answer (stop : MsgStop) (block : ContentBlock) : AssistantMsg := mkAssistant [block] stop None None None.
Definition call_for (id name : jstring) : ContentBlock := ToolCallBlock id name (JsObj false []).
Definition run_config : LoopConfig := mkConfig $"model" None None None None None None None.
Definition empty_context : AgentContext := mkContext None [] None None.
Definition prompted : Start := Prompted [say $"hello"].

(** A call, an answer, a follow-up whose call ends the batch, a late message that keeps the run going, and the last answer. *)
Definition start : World :=
  mkWorld [answer StopToolUse (call_for $"c1" $"read"); answer StopEnd (TextBlock $"read it"); answer StopToolUse (call_for $"c2" $"finish");
           answer StopEnd (TextBlock $"bye")]
    [say $"also"] [say $"and then"] [] false.

(** The same with messages that arrive when the turn ends. *)
Definition late_start : World :=
  mkWorld [answer StopToolUse (call_for $"c1" $"finish"); answer StopEnd (TextBlock $"bye")] [] [] [say $"wait"] false.

Definition run (fuel : nat) (st : Start) (w : World) : Run World * outcome (option unit) :=
  run_from (host := host) (fun _ => []) (fun _ => false) (fun _ => false) (fun _ => true) fuel st empty_context run_config w.
End LoopSample.

Import LoopSample.

#[export] Instance sample_host_answers : HostAnswers LoopSample.host.
Proof. apply prepared_host_lawful; apply _. Qed.

Lemma prompted_ok : start_ok (fun _ => false) prompted.
Proof. by repeat constructor. Qed.

(** The script is played to its end, through a message that arrives when the run is about to stop. *)
Example sample_run_plays :
  (script (world (run 5 prompted start).1) = [answer StopEnd (TextBlock $"bye")]) /\ script (world (run 5 prompted late_start).1) = [].
Proof. split; vm_compute; reflexivity. Qed.




Lemma calls_answered_witness :
  exists t ms, trace (run 5 prompted start).1 = t ++ [Emitted (AgentEnd ms)] /\
    finished_messages (fun _ => false) (fun _ => false) (aborted (world (run 5 prompted start).1)) ms.
Proof.
  apply (calls_answered (host := LoopSample.host) (fun _ => []) (fun _ => false) (fun _ => false) (fun _ => true) 5 prompted empty_context run_config start).
  - apply prompted_ok.
  - vm_compute. reflexivity.
Defined.

Lemma only_finished_responses_run_witness :
  let called := mkMessage (AssistantBody (answer StopToolUse (call_for $"c1" $"read"))) (of_Z 0) in
  exists a, body called = AssistantBody a /\ a_stop a <> StopError /\ a_stop a <> StopAborted /\ a_stop a <> StopLength /\
    isClassifierRefusal (fun _ => false) a = false /\ [mkCall $"c1" $"read" (JsObj false [])] = tool_calls (fun _ => false) a.
Proof.
  eapply (only_finished_responses_run (host := LoopSample.host) (fun _ => []) (fun _ => false) (fun _ => false) (fun _ => true) 5 prompted empty_context run_config start).
  - apply prompted_ok.
  - apply surjective_pairing.
  - apply (list_elem_of_lookup_2 _ 13). vm_compute. reflexivity.
Defined.

Lemma loop_ends_witness : (run 5 prompted start).2 <> Ret None.
Proof. apply (loop_ends _ _ _ _ (fun w => length (script w))). cbn. lia. Defined.
