(* ===== verification/Transport.v ===== *)
(** * The reference transport (packages/agent/src/transport: transport.ts, reliable-transport.ts)

One endpoint of a link: send windows per lane, round-robin transmission, cumulative
acknowledgements after the receiver's handler settles, and sending again from the
last acknowledgement on re-attach or timeout.  A callback of the endpoint is an
operation; how many messages the carrier takes during it before it refuses one is
an argument.  A handler is taken to settle after the operation that calls it, and
its own calls to the endpoint are operations of their own.  Sequence numbers are
integers, exact below 2^53. *)
From S2P Require Import Prelude JsObject JsMap JsNumber.
#[local] Open Scope Z_scope.

(** ** Packets *)

Inductive ReferencePacket :=
| Data (lane : jstring) (seq : Z) (payload : bytes)
| Ack (lane : jstring) (seq : Z).

(** A message of the carrier: its fields where they have a type the transport reads. *)
Record RawMessage := mkRaw { rm_kind : option jstring; rm_lane : option jstring; rm_seq : option num; rm_payload : option bytes }.

Definition isReferencePacket (m : RawMessage) : option ReferencePacket :=
  match rm_lane m, rm_seq m with
  | Some lane, Some seq =>
      if negb (is_safe_integer seq) || (to_Z seq <? 0) then None
      else if bool_decide (rm_kind m = Some $"ack") then Some (Ack lane (to_Z seq))
      else if bool_decide (rm_kind m = Some $"data") then Data lane (to_Z seq) <$> rm_payload m else None
  | _, _ => None
  end.

(** What the transport hands to the carrier. *)
Definition raw_packet (p : ReferencePacket) : RawMessage :=
  match p with
  | Data lane seq payload => mkRaw (Some $"data") (Some lane) (Some (of_Z seq)) (Some payload)
  | Ack lane seq => mkRaw (Some $"ack") (Some lane) (Some (of_Z seq)) None
  end.

(** ** State *)

Record OutLane := mkOut {
  nextSeq : Z; acked : Z; transmitted : Z; outbox : gmap Z bytes; waiters : list bytes; armed : bool }.

Record InLane := mkIn { received : Z; delivered : Z; busy : bool; inbox : list bytes }.

(** [order] is the key order of [outLanes]; [connection] whether there is one. *)
Record Endpoint := mkEndpoint {
  outLanes : list (jstring * OutLane); inLanes : list (jstring * InLane); ackDue : list jstring; next : Z;
  connection : bool; writable : bool; closed : bool; handler : bool }.

Definition order (e : Endpoint) : list jstring := (outLanes e).*1.

Definition createReliableTransport : Endpoint := mkEndpoint [] [] [] 0 false false false false.

Definition fresh_out : OutLane := mkOut 1 0 0 ∅ [] false.
Definition fresh_in : InLane := mkIn 0 0 false [].

Definition outLane (e : Endpoint) (lane : jstring) : OutLane := default fresh_out (map_get (outLanes e) lane).
Definition inLane (e : Endpoint) (lane : jstring) : InLane := default fresh_in (map_get (inLanes e) lane).

Definition set_out (lane : jstring) (o : OutLane) (e : Endpoint) : Endpoint :=
  mkEndpoint (map_set (outLanes e) lane o) (inLanes e) (ackDue e) (next e) (connection e) (writable e) (closed e) (handler e).
Definition set_in (lane : jstring) (i : InLane) (e : Endpoint) : Endpoint :=
  mkEndpoint (outLanes e) (map_set (inLanes e) lane i) (ackDue e) (next e) (connection e) (writable e) (closed e) (handler e).
Definition set_due (due : list jstring) (e : Endpoint) : Endpoint :=
  mkEndpoint (outLanes e) (inLanes e) due (next e) (connection e) (writable e) (closed e) (handler e).
Definition set_next (n : Z) (e : Endpoint) : Endpoint :=
  mkEndpoint (outLanes e) (inLanes e) (ackDue e) n (connection e) (writable e) (closed e) (handler e).
Definition set_link (connected can_write : bool) (e : Endpoint) : Endpoint :=
  mkEndpoint (outLanes e) (inLanes e) (ackDue e) (next e) connected can_write (closed e) (handler e).
Definition set_handler (e : Endpoint) : Endpoint :=
  mkEndpoint (outLanes e) (inLanes e) (ackDue e) (next e) (connection e) (writable e) (closed e) true.
Definition set_closed (e : Endpoint) : Endpoint :=
  mkEndpoint (outLanes e) (inLanes e) (ackDue e) (next e) (connection e) (writable e) true (handler e).

(** Every out lane changed. *)
Definition each_out (f : OutLane -> OutLane) (e : Endpoint) : Endpoint :=
  mkEndpoint ((fun x => (x.1, f x.2)) <$> outLanes e) (inLanes e) (ackDue e) (next e) (connection e) (writable e) (closed e) (handler e).

Definition due_add (lane : jstring) (e : Endpoint) : Endpoint :=
  set_due (if bool_decide (lane ∈ ackDue e) then ackDue e else ackDue e ++ [lane]) e.
Definition due_delete (lane : jstring) (e : Endpoint) : Endpoint :=
  set_due (List.filter (fun l => negb (bool_decide (l = lane))) (ackDue e)) e.

Definition disarm (o : OutLane) : OutLane := mkOut (nextSeq o) (acked o) (transmitted o) (outbox o) (waiters o) false.
Definition rewind (o : OutLane) : OutLane := mkOut (nextSeq o) (acked o) (acked o) (outbox o) (waiters o) (armed o).
Definition arm_lane (o : OutLane) : OutLane :=
  if armed o || bool_decide (outbox o = ∅) then o else mkOut (nextSeq o) (acked o) (transmitted o) (outbox o) (waiters o) true.

(** ** An operation under way: the endpoint, how much the carrier still takes, and what happened *)

Inductive Output :=
| Sent (p : ReferencePacket)
| Resolved (lane : jstring) (payload : bytes)
| Rejected (lane : jstring) (payload : bytes)
| Handed (lane : jstring) (payload : bytes)
| HungUp.

Record Act := mkAct { ep : Endpoint; quota : nat; outs : list Output }.

Definition on_ep (f : Endpoint -> Endpoint) (a : Act) : Act := mkAct (f (ep a)) (quota a) (outs a).
Definition put_out (os : list Output) (a : Act) : Act := mkAct (ep a) (quota a) (outs a ++ os).

Section Transport.
Context (window : Z).

(** [admit_lane]: waiting payloads enter the outbox while the window has room; also those that did. *)
Fixpoint admit_waiters (o : OutLane) (ws : list bytes) : OutLane * list bytes :=
  match ws with
  | [] => (mkOut (nextSeq o) (acked o) (transmitted o) (outbox o) [] (armed o), [])
  | p :: ws' =>
      if nextSeq o - 1 - acked o <? window then
        let '(o, ps) := admit_waiters (mkOut (nextSeq o + 1) (acked o) (transmitted o) (<[nextSeq o := p]> (outbox o)) [] (armed o)) ws' in
        (o, p :: ps)
      else (mkOut (nextSeq o) (acked o) (transmitted o) (outbox o) ws (armed o), [])
  end.

Definition admit_lane (lane : jstring) (a : Act) : Act :=
  let '(o, ps) := admit_waiters (outLane (ep a) lane) (waiters (outLane (ep a) lane)) in
  put_out (Resolved lane <$> ps) (on_ep (set_out lane o) a).

Definition emit (p : ReferencePacket) (a : Act) : Act * bool :=
  if connection (ep a) && writable (ep a) then
    match quota a with
    | S q => (mkAct (ep a) q (outs a ++ [Sent p]), true)
    | O => (on_ep (fun e => set_link (connection e) false e) a, false)
    end
  else (a, false).

Definition arm (a : Act) : Act := if connection (ep a) then on_ep (each_out arm_lane) a else a.

(** The acknowledgements that are due; [false] when the carrier refused one. *)
Fixpoint pump_acks (due : list jstring) (a : Act) : Act * bool :=
  match due with
  | [] => (a, true)
  | lane :: due =>
      match emit (Ack lane (delivered (inLane (ep a) lane))) a with
      | (a, true) => pump_acks due (on_ep (due_delete lane) a)
      | (a, false) => (a, false)
      end
  end.

Definition step_next (e : Endpoint) : Endpoint := set_next (next e + 1) e.

Definition transmit (lane : jstring) (seq : Z) (e : Endpoint) : Endpoint :=
  let o := outLane e lane in set_out lane (mkOut (nextSeq o) (acked o) seq (outbox o) (waiters o) (armed o)) e.

(** The data of all lanes in turn, until a whole round finds none; [false] when the
    carrier refused some, [None] when [fuel] does not suffice. *)
Fixpoint pump_data (fuel : nat) (idle : Z) (a : Act) : option (Act * bool) :=
  match fuel with
  | O => None
  | S fuel =>
      if idle <? blen (order (ep a)) then
        match order (ep a) !! Z.to_nat (next (ep a) mod blen (order (ep a))) with
        | None => Some (a, false)
        | Some lane =>
            let seq := transmitted (outLane (ep a) lane) + 1 in
            match outbox (outLane (ep a) lane) !! seq with
            | None => pump_data fuel (idle + 1) (on_ep step_next a)
            | Some payload =>
                match emit (Data lane seq payload) a with
                | (a, true) => pump_data fuel 0 (on_ep (fun e => step_next (transmit lane seq e)) a)
                | (a, false) => Some (a, false)
                end
            end
        end
      else Some (a, true)
  end.

(** Enough for every payload to be sent once, with a round after each. *)
Definition pump_fuel (e : Endpoint) : nat :=
  S (length (order e)) * S (sum_list_with (fun lane => size (outbox (outLane e lane))) (order e)).

Definition pump (a : Act) : Act :=
  if connection (ep a) && writable (ep a) then
    match pump_acks (ackDue (ep a)) a with
    | (a, false) => a
    | (a, true) =>
        match pump_data (pump_fuel (ep a)) 0 a with
        | Some (a, true) => arm a
        | Some (a, false) => a
        | None => a
        end
    end
  else a.

(** ** Receiving *)

(** [deliver]'s loop up to the next call of the handler: after [close] the frame taken is dropped. *)
Definition take_frame (lane : jstring) (a : Act) : Act :=
  let i := inLane (ep a) lane in
  match inbox i with
  | [] => on_ep (set_in lane (mkIn (received i) (delivered i) false [])) a
  | payload :: rest =>
      if closed (ep a) then on_ep (set_in lane (mkIn (received i) (delivered i) false rest)) a
      else put_out [Handed lane payload] (on_ep (set_in lane (mkIn (received i) (delivered i) true rest)) a)
  end.

Definition deliver (lane : jstring) (a : Act) : Act :=
  if busy (inLane (ep a) lane) || negb (handler (ep a)) then a else take_frame lane a.

(** The handler of the lane's current frame settles, with or without an error. *)
Definition settle (lane : jstring) (a : Act) : Act :=
  let i := inLane (ep a) lane in
  take_frame lane (pump (on_ep (fun e => due_add lane (set_in lane (mkIn (received i) (delivered i + 1) (busy i) (inbox i)) e)) a)).

Definition onData (lane : jstring) (seq : Z) (payload : bytes) (a : Act) : Act :=
  let i := inLane (ep a) lane in
  pump (if seq =? received i + 1
        then deliver lane (on_ep (set_in lane (mkIn seq (delivered i) (busy i) (inbox i ++ [payload]))) a)
        else on_ep (fun e => due_add lane (set_in lane i e)) a).

(** Entries [seq], [seq - 1], ... down to, but not with, [acked] leave the outbox. *)
Definition drop_acked (acked seq : Z) (m : gmap Z bytes) : gmap Z bytes :=
  foldr (fun q m => delete q m) m (seqZ (acked + 1) (seq - acked)).

Definition onAck (lane : jstring) (seq : Z) (a : Act) : Act :=
  match map_get (outLanes (ep a)) lane with
  | None => a
  | Some o =>
      if (seq <=? acked o) || (nextSeq o <=? seq) then a
      else
        let o := mkOut (nextSeq o) seq (Z.max (transmitted o) seq) (drop_acked (acked o) seq (outbox o)) (waiters o) (armed o) in
        pump (admit_lane lane (on_ep (set_out lane (disarm o)) a))
  end.

(** ** The endpoint's operations *)

Definition send (lane : jstring) (payload : bytes) (a : Act) : Act :=
  if closed (ep a) then put_out [Rejected lane payload] a
  else
    let o := outLane (ep a) lane in
    pump (admit_lane lane (on_ep (set_out lane (mkOut (nextSeq o) (acked o) (transmitted o) (outbox o) (waiters o ++ [payload]) (armed o))) a)).

Definition onFrame (a : Act) : Act := foldl (fun a lane => deliver lane a) (on_ep set_handler a) (inLanes (ep a)).*1.

Definition inFlight (e : Endpoint) (lane : jstring) : Z :=
  match map_get (outLanes e) lane with None => 0 | Some o => nextSeq o - 1 - acked o end.

Definition forget_waiters (o : OutLane) : OutLane := mkOut (nextSeq o) (acked o) (transmitted o) (outbox o) [] (armed o).

Definition close (a : Act) : Act :=
  if closed (ep a) then a
  else
    let rejected := outLanes (ep a) ≫= (fun x => Rejected x.1 <$> waiters x.2) in
    let hang := if connection (ep a) then [HungUp] else [] in
    put_out (rejected ++ hang) (on_ep (fun e => set_link false (writable e) (each_out (fun o => forget_waiters (disarm o)) (set_closed e))) a).

(** Acknowledgements are due on the lanes that delivered something. *)
Definition add_due (e : Endpoint) (lanes : list (jstring * InLane)) : Endpoint :=
  foldl (fun e x => if 0 <? delivered x.2 then due_add x.1 e else e) e lanes.

Definition reattach (e : Endpoint) : Endpoint :=
  let e := each_out rewind (set_link true true e) in each_out disarm (add_due e (inLanes e)).

Definition attached (a : Act) : Act := if closed (ep a) then put_out [HungUp] a else pump (on_ep reattach a).

Definition message (m : RawMessage) (a : Act) : Act :=
  match isReferencePacket m with
  | None => a
  | Some (Data lane seq payload) => onData lane seq payload a
  | Some (Ack lane seq) => onAck lane seq a
  end.

Definition on_writable (a : Act) : Act := if connection (ep a) then pump (on_ep (set_link true true) a) else a.

Definition detached (a : Act) : Act := on_ep (fun e => each_out disarm (set_link false false e)) a.

(** The lane's retransmit deadline passes. *)
Definition on_timer (lane : jstring) (a : Act) : Act :=
  pump (on_ep (fun e => set_out lane (rewind (disarm (outLane e lane))) e) a).
End Transport.
