(* ===== verification/TransportLemmas.v ===== *)
(** * How the operations of a transport endpoint change it

Frame lemmas of [pump], [admit_lane] and the delivery loop: which parts of the endpoint
they leave alone, what they send and hand over, that [pump] comes to its end, and
that it sends everything when the carrier takes it. *)
From S2P Require Import Prelude JsObject JsMap JsNumber Transport.
#[local] Open Scope Z_scope.

(** ** Lanes after an update *)

Lemma outLane_set l o e l' : outLane (set_out l o e) l' = if decide (l' = l) then o else outLane e l'.
Proof. unfold outLane, set_out. cbn. rewrite map_get_set. by case_decide. Qed.

Lemma inLane_set l i e l' : inLane (set_in l i e) l' = if decide (l' = l) then i else inLane e l'.
Proof. unfold inLane, set_in. cbn. rewrite map_get_set. by case_decide. Qed.

Lemma map_get_fmap {A B} (f : A -> B) (m : list (jstring * A)) l : map_get ((fun x => (x.1, f x.2)) <$> m) l = f <$> map_get m l.
Proof. induction m as [|[k v] m IH]; [done|]. unfold map_get in *. cbn. by case_bool_decide. Qed.

Lemma outLane_each f e l : f fresh_out = fresh_out -> outLane (each_out f e) l = f (outLane e l).
Proof. intros Hf. unfold outLane, each_out. cbn. rewrite map_get_fmap. by destruct (map_get (outLanes e) l). Qed.

Lemma order_each f e : order (each_out f e) = order e.
Proof. unfold order, each_out. cbn. rewrite <- list_fmap_compose. by apply list_fmap_ext. Qed.

Lemma order_set l o e : l ∈ order e -> order (set_out l o e) = order e.
Proof.
  intros Hl. unfold order, set_out. cbn. unfold map_set. rewrite (proj2 (obj_has_spec _ _)); [|exact Hl].
  exact (obj_keys_update _ _ _).
Qed.

Lemma not_in_order e l : l ∉ order e -> outLane e l = fresh_out.
Proof.
  unfold order, outLane, map_get. intros Hl. destruct (obj_get (outLanes e) l) as [o|] eqn:Ho; [|done].
  destruct Hl. rewrite obj_get_map in Ho. apply elem_of_list_to_map_2 in Ho. by apply (list_elem_of_fmap_2' fst _ (l, o)).
Qed.

(** ** What pumping does *)

(** A packet an endpoint may send: data of its outbox, or an acknowledgement of what was delivered. *)
Definition sendable (e : Endpoint) (p : ReferencePacket) : Prop :=
  match p with
  | Data l q x => outbox (outLane e l) !! q = Some x
  | Ack l q => q = delivered (inLane e l)
  end.

(** Only the transmission position, the deadline, the due acknowledgements, the turn and whether the carrier takes more change. *)
Definition same_out (o o' : OutLane) : Prop :=
  nextSeq o' = nextSeq o /\ acked o' = acked o /\ outbox o' = outbox o /\ waiters o' = waiters o.

(** The new position was there before or belongs to a payload of the outbox. *)
Definition moved (o o' : OutLane) : Prop :=
  same_out o o' /\ transmitted o <= transmitted o' /\ (transmitted o' = transmitted o \/ is_Some (outbox o !! transmitted o')).

Record Pumped (a a' : Act) : Prop := {
  pm_in : inLanes (ep a') = inLanes (ep a);
  pm_closed : closed (ep a') = closed (ep a);
  pm_handler : handler (ep a') = handler (ep a);
  pm_link : connection (ep a') = connection (ep a);
  pm_order : order (ep a') = order (ep a);
  pm_out l : moved (outLane (ep a) l) (outLane (ep a') l);
  pm_sent : exists ps, outs a' = outs a ++ (Sent <$> ps) /\ Forall (sendable (ep a)) ps }.

Lemma moved_refl o : moved o o.
Proof. split; [done|]. split; [lia|by left]. Qed.

Lemma moved_trans o o' o'' : moved o o' -> moved o' o'' -> moved o o''.
Proof.
  intros ((H1 & H2 & H3 & H4) & Ht & Hor) ((H1' & H2' & H3' & H4') & Ht' & Hor'). split; [split_and!; congruence|]. split; [lia|].
  rewrite H3 in Hor'. destruct Hor' as [->|?]; [done|by right].
Qed.

Lemma Pumped_refl a : Pumped a a.
Proof. split; try done; [intros; apply moved_refl|]. exists []. by rewrite app_nil_r. Qed.

Lemma Pumped_trans a a' a'' : Pumped a a' -> Pumped a' a'' -> Pumped a a''.
Proof.
  intros [Hi Hc Hh Hl Ho Hm (ps & Hs & Hp)] [Hi' Hc' Hh' Hl' Ho' Hm' (ps' & Hs' & Hp')]. split; try congruence.
  - intros l. by eapply moved_trans.
  - exists (ps ++ ps'). rewrite Hs', Hs, fmap_app, app_assoc. split; [done|]. apply Forall_app. split; [done|].
    eapply Forall_impl; [exact Hp'|]. intros [l q x|l q]; cbn; [|by unfold inLane; rewrite Hi].
    destruct (Hm l) as ((_ & _ & -> & _) & _). done.
Qed.

(** An update that leaves everything that matters. *)
Lemma Pumped_ep f a :
  inLanes (f (ep a)) = inLanes (ep a) -> closed (f (ep a)) = closed (ep a) -> handler (f (ep a)) = handler (ep a) ->
  connection (f (ep a)) = connection (ep a) -> order (f (ep a)) = order (ep a) -> (forall l, moved (outLane (ep a) l) (outLane (f (ep a)) l)) ->
  Pumped a (on_ep f a).
Proof. intros. split; try done. exists []. by rewrite app_nil_r. Qed.

Lemma emit_pumped p a a' b : emit p a = (a', b) -> sendable (ep a) p ->
  Pumped a a' /\
  (b = true -> ep a' = ep a /\ S (quota a') = quota a /\ outs a' = outs a ++ [Sent p]) /\
  (connection (ep a) = true -> writable (ep a) = true -> (0 < quota a)%nat -> b = true).
Proof.
  unfold emit. intros He Hp. destruct (connection (ep a)) eqn:Hc; cbn [andb] in He; [|simplify_eq; split_and!; [apply Pumped_refl|done|done]].
  destruct (writable (ep a)) eqn:Hw; [|simplify_eq; split_and!; [apply Pumped_refl|done|done]].
  destruct (quota a) as [|q] eqn:Hq; simplify_eq.
  - split_and!; [|done|intros; lia]. apply Pumped_ep; try done. intros l. apply moved_refl.
  - split_and!; [|done|done]. split; cbn; try done; [intros; apply moved_refl|]. exists [p]. split; [done|by constructor].
Qed.

Lemma pump_acks_pumped due a a' b : pump_acks due a = (a', b) ->
  Pumped a a' /\
  (b = true -> outLanes (ep a') = outLanes (ep a) /\ writable (ep a') = writable (ep a) /\ (quota a <= length due + quota a')%nat /\
     forall l, l ∈ due -> Sent (Ack l (delivered (inLane (ep a) l))) ∈ outs a') /\
  (connection (ep a) = true -> writable (ep a) = true -> (length due <= quota a)%nat -> b = true).
Proof.
  revert a. induction due as [|l due IH]; intros a; cbn [pump_acks length]; intros Hp.
  { simplify_eq. split_and!; [apply Pumped_refl| |done]. intros _. split_and!; [done|done|lia|]. by intros l ?%elem_of_nil. }
  destruct (emit _ a) as [a1 b1] eqn:He. destruct (emit_pumped _ _ _ _ He) as (H1 & Hb & Hq); [done|].
  destruct b1; [|simplify_eq; split_and!; [done|done|intros; apply Hq; try done; lia]].
  destruct (Hb eq_refl) as (Hep & Hqa & Houts). apply IH in Hp as (H2 & Hb2 & Hq2).
  assert (Pumped a1 (on_ep (due_delete l) a1)) as H3 by (apply Pumped_ep; try done; intros; apply moved_refl).
  split_and!; [by eapply Pumped_trans, Pumped_trans| |].
  - intros ->. destruct (Hb2 eq_refl) as (Ho2 & Hw2 & Hq3 & Hs2). cbn in Ho2, Hw2, Hq3, Hs2. rewrite Hep in Ho2, Hw2, Hs2. split_and!; [done|done|lia|].
    intros l' [->|Hl']%elem_of_cons; [|by apply Hs2].
    destruct (pm_sent _ _ H2) as (ps & -> & _). cbn. rewrite Houts. set_solver.
  - intros Hc Hw Hl. apply Hq2; cbn; rewrite ?Hep; [done|done|lia].
Qed.

Lemma arm_pumped a : Pumped a (arm a).
Proof.
  unfold arm. destruct (connection (ep a)) eqn:Hc; [|apply Pumped_refl]. apply Pumped_ep; try done; [apply order_each|].
  intros l. rewrite outLane_each by done. unfold arm_lane. destruct (_ || _); [apply moved_refl|]. split; [done|]. split; cbn; [lia|by left].
Qed.

Lemma arm_outs a : outs (arm a) = outs a.
Proof. unfold arm. by case_match. Qed.

Lemma transmit_lane l q e l' :
  outLane (step_next (transmit l q e)) l' =
  if decide (l' = l) then mkOut (nextSeq (outLane e l)) (acked (outLane e l)) q (outbox (outLane e l)) (waiters (outLane e l)) (armed (outLane e l))
  else outLane e l'.
Proof. change (outLane (step_next (transmit l q e)) l') with (outLane (transmit l q e) l'). apply outLane_set. Qed.

Lemma transmit_pumped l q a :
  l ∈ order (ep a) -> q = transmitted (outLane (ep a) l) + 1 -> is_Some (outbox (outLane (ep a) l) !! q) ->
  Pumped a (on_ep (fun e => step_next (transmit l q e)) a).
Proof.
  intros Hl -> Hx. apply Pumped_ep; try done; [by apply order_set|].
  intros l'. rewrite transmit_lane. case_decide; [subst l'|apply moved_refl]. split; [done|]. cbn. split; [lia|by right].
Qed.

(** ** The data loop *)

(** The payloads of a lane that are still to be sent. *)
Definition remaining (o : OutLane) : nat := size (filter (fun x => transmitted o < x.1) (outbox o)).

Definition total_remaining (e : Endpoint) : nat := sum_list_with (fun l => remaining (outLane e l)) (order e).

Lemma remaining_transmit o x : outbox o !! (transmitted o + 1) = Some x ->
  (remaining (mkOut (nextSeq o) (acked o) (transmitted o + 1) (outbox o) (waiters o) (armed o)) < remaining o)%nat.
Proof.
  intros Hx. unfold remaining. cbn [transmitted outbox]. apply map_subset_size. apply strict_spec_alt. split.
  - apply map_filter_strong_subseteq_ext. intros k y. naive_solver lia.
  - intros Heq. apply (f_equal (fun m => m !! (transmitted o + 1))) in Heq. revert Heq.
    rewrite (map_lookup_filter_None_2 _ _ (transmitted o + 1)) by (right; intros y _; cbn; lia).
    intros Heq. symmetry in Heq. apply map_lookup_filter_None in Heq as [?|Hn]; [congruence|]. apply (Hn x Hx). cbn. lia.
Qed.

Lemma sum_list_lt {A} (f g : A -> nat) l x : (forall y, (g y <= f y)%nat) -> x ∈ l -> (g x < f x)%nat -> (sum_list_with g l < sum_list_with f l)%nat.
Proof.
  intros Hle Hx Hlt. induction l as [|y l IH]; [by apply elem_of_nil in Hx|]. cbn.
  assert (sum_list_with g l <= sum_list_with f l)%nat by (clear -Hle; induction l as [|z l IH]; cbn; [done|]; specialize (Hle z); lia).
  apply elem_of_cons in Hx as [->|Hx]; [lia|]. specialize (IH Hx). specialize (Hle y). lia.
Qed.

Lemma total_transmit l e x :
  l ∈ order e -> outbox (outLane e l) !! (transmitted (outLane e l) + 1) = Some x ->
  (total_remaining (step_next (transmit l (transmitted (outLane e l) + 1) e)) < total_remaining e)%nat.
Proof.
  intros Hl Hx. unfold total_remaining. change (order (step_next ?e)) with (order e). unfold transmit at 2. rewrite order_set by done.
  apply (sum_list_lt _ _ _ l); [|done|].
  - intros l'. rewrite transmit_lane. case_decide; [subst l'|done]. apply Nat.lt_le_incl, (remaining_transmit _ x Hx).
  - rewrite transmit_lane, decide_True by done. by apply (remaining_transmit _ x).
Qed.

(** The last [idle] turns found nothing to send. *)
Definition turns_idle (e : Endpoint) (idle : Z) : Prop :=
  forall j l, 0 < j <= idle -> order e !! Z.to_nat ((next e - j) mod blen (order e)) = Some l ->
    outbox (outLane e l) !! (transmitted (outLane e l) + 1) = None.

Lemma turns_idle_step e idle :
  0 <= idle -> turns_idle e idle ->
  (forall l, order e !! Z.to_nat (next e mod blen (order e)) = Some l -> outbox (outLane e l) !! (transmitted (outLane e l) + 1) = None) ->
  turns_idle (step_next e) (idle + 1).
Proof.
  intros Hi Ht Hn j l Hj Hl. change (outLane (step_next e) l) with (outLane e l). change (order (step_next e)) with (order e) in Hl.
  cbn [next step_next set_next] in Hl. destruct (decide (j = 1)) as [->|Hj1].
  - apply Hn. by replace (next e + 1 - 1) with (next e) in Hl by lia.
  - apply (Ht (j - 1)); [lia|]. by replace (next e - (j - 1)) with (next e + 1 - j) by lia.
Qed.

Lemma turns_idle_all e idle l :
  blen (order e) <= idle -> turns_idle e idle -> outbox (outLane e l) !! (transmitted (outLane e l) + 1) = None.
Proof.
  intros Hi Ht. destruct (decide (l ∈ order e)) as [Hl|Hl]; [|by rewrite not_in_order].
  apply list_elem_of_lookup_1 in Hl as [i Hl]. pose proof (lookup_lt_Some _ _ _ Hl) as Hlt. set (n := blen (order e)) in *.
  assert (0 < n) as Hn by (subst n; unfold blen; lia).
  apply (Ht ((next e - 1 - Z.of_nat i) mod n + 1)).
  - pose proof (Z.mod_pos_bound (next e - 1 - Z.of_nat i) n Hn). lia.
  - replace (next e - ((next e - 1 - Z.of_nat i) mod n + 1)) with ((next e - 1) - (next e - 1 - Z.of_nat i) mod n) by lia.
    rewrite Zminus_mod_idemp_r. replace (next e - 1 - (next e - 1 - Z.of_nat i)) with (Z.of_nat i) by lia.
    rewrite Z.mod_small by (subst n; unfold blen; lia). by rewrite Nat2Z.id.
Qed.

Lemma turn_in_range e : 0 < blen (order e) -> is_Some (order e !! Z.to_nat (next e mod blen (order e))).
Proof.
  intros Hn. apply lookup_lt_is_Some. pose proof (Z.mod_pos_bound (next e) _ Hn). unfold blen in *. lia.
Qed.

Lemma pump_data_pumped fuel idle a a' b : pump_data fuel idle a = Some (a', b) -> Pumped a a'.
Proof.
  revert idle a. induction fuel as [|fuel IH]; intros idle a; cbn [pump_data]; [done|].
  destruct (Z.ltb_spec idle (blen (order (ep a)))); [|intros [= <- _]; apply Pumped_refl].
  destruct (order (ep a) !! _) as [l|] eqn:Hl; [|intros [= <- _]; apply Pumped_refl].
  destruct (outbox _ !! _) as [x|] eqn:Hx.
  - destruct (emit _ a) as [a1 b1] eqn:He. destruct (emit_pumped _ _ _ _ He Hx) as (H1 & Hb & _).
    destruct b1; [|intros [= <- _]; exact H1]. intros Hp%IH. destruct (Hb eq_refl) as (Hep & _).
    eapply Pumped_trans; [exact H1|]. eapply Pumped_trans; [|exact Hp]. apply transmit_pumped; rewrite Hep; [|done|by eexists].
    by eapply list_elem_of_lookup_2.
  - intros Hp%IH. eapply Pumped_trans; [|exact Hp]. apply Pumped_ep; try done. intros. apply moved_refl.
Qed.

(** The fuel suffices: every turn sends one of the remaining payloads or adds to the idle ones. *)
Lemma pump_data_ends fuel idle a :
  0 <= idle <= blen (order (ep a)) ->
  (total_remaining (ep a) * S (length (order (ep a))) + Z.to_nat (blen (order (ep a)) - idle) < fuel)%nat ->
  pump_data fuel idle a <> None.
Proof.
  revert idle a. induction fuel as [|fuel IH]; intros idle a Hi Hf; [lia|]. cbn [pump_data].
  destruct (Z.ltb_spec idle (blen (order (ep a)))); [|done].
  destruct (order (ep a) !! _) as [l|] eqn:Hl; [|done].
  destruct (outbox _ !! _) as [x|] eqn:Hx.
  - destruct (emit _ a) as [a1 b1] eqn:He. destruct (emit_pumped _ _ _ _ He Hx) as (H1 & Hb & _). destruct b1; [|done].
    destruct (Hb eq_refl) as (Hep & _). assert (l ∈ order (ep a)) as Hin by (by eapply list_elem_of_lookup_2).
    pose proof (total_transmit l (ep a) x Hin Hx) as Hlt.
    apply IH; cbn [ep on_ep]; rewrite Hep; change (order (step_next ?e)) with (order e); unfold transmit; rewrite order_set by done; [unfold blen; lia|].
    unfold blen in *. unfold transmit in Hlt.
    match goal with |- context [total_remaining ?e] => set (t1 := total_remaining e) in * end. nia.
  - apply IH; cbn [ep on_ep]; change (order (step_next ?e)) with (order e); [lia|]. change (total_remaining (step_next ?e)) with (total_remaining e). lia.
Qed.

Lemma pump_fuel_enough a : pump_data (pump_fuel (ep a)) 0 a <> None.
Proof.
  apply pump_data_ends; [unfold blen; lia|]. unfold pump_fuel.
  assert (total_remaining (ep a) <= sum_list_with (fun l => size (outbox (outLane (ep a) l))) (order (ep a)))%nat as Hle.
  { unfold total_remaining. induction (order (ep a)) as [|l ls IH]; cbn; [done|].
    assert (remaining (outLane (ep a) l) <= size (outbox (outLane (ep a) l)))%nat by (apply map_size_filter). lia. }
  unfold blen. rewrite Z.sub_0_r, Nat2Z.id. nia.
Qed.

(** With a carrier that takes everything the loop sends every payload of every outbox that follows a lane's position. *)
Lemma pump_data_complete fuel idle a a' b :
  connection (ep a) = true -> writable (ep a) = true -> (fuel <= quota a)%nat -> 0 <= idle -> turns_idle (ep a) idle ->
  pump_data fuel idle a = Some (a', b) ->
  b = true /\
  forall l, outbox (outLane (ep a') l) !! (transmitted (outLane (ep a') l) + 1) = None /\
    forall q x, transmitted (outLane (ep a) l) < q <= transmitted (outLane (ep a') l) -> outbox (outLane (ep a) l) !! q = Some x ->
      Sent (Data l q x) ∈ outs a'.
Proof.
  revert idle a. induction fuel as [|fuel IH]; intros idle a Hc Hw Hq Hi Ht; cbn [pump_data]; [done|].
  destruct (Z.ltb_spec idle (blen (order (ep a)))) as [Hlt|Hge].
  2: { intros [= <- <-]. split; [done|]. intros l. split; [by eapply turns_idle_all|]. intros q x ?. lia. }
  destruct (turn_in_range (ep a)) as [l Hl]; [lia|]. rewrite Hl. destruct (outbox _ !! _) as [x|] eqn:Hx.
  - destruct (emit _ a) as [a1 b1] eqn:He. destruct (emit_pumped _ _ _ _ He Hx) as (_ & Hb & Hb1).
    rewrite (Hb1 Hc Hw) in * by lia. destruct (Hb eq_refl) as (Hep & Hq1 & Ho). intros Hp.
    pose proof (pump_data_pumped _ _ _ _ _ Hp) as Hpm. apply IH in Hp as [-> Hall]; cbn [ep on_ep quota]; rewrite ?Hep; [|done|done|lia|lia|by intros j ? ?; lia].
    split; [done|]. intros l'. specialize (Hall l') as [Hn Hs]. split; [done|]. intros q y Hqr Hy. cbn [ep on_ep] in Hs. rewrite Hep, transmit_lane in Hs.
    case_decide as Hl'; [subst l'|by apply Hs]. cbn [transmitted outbox] in Hs.
    destruct (decide (q = transmitted (outLane (ep a) l) + 1)) as [->|Hne]; [|apply Hs; [lia|done]].
    rewrite Hx in Hy. injection Hy as <-. destruct (pm_sent _ _ Hpm) as (ps & -> & _). cbn [outs on_ep]. rewrite Ho. set_solver.
  - intros Hp. apply IH in Hp as [-> Hall]; cbn [ep on_ep quota]; try done; [lia|lia|].
    apply turns_idle_step; [done|done|]. intros l' Hl'. rewrite Hl in Hl'. injection Hl' as <-. done.
Qed.

(** ** Pumping *)

Lemma pump_pumped a : Pumped a (pump a).
Proof.
  unfold pump. destruct (connection (ep a) && writable (ep a)); [|apply Pumped_refl].
  destruct (pump_acks _ a) as [a1 b1] eqn:H1. destruct (pump_acks_pumped _ _ _ _ H1) as (Hp1 & _). destruct b1; [|done].
  destruct (pump_data _ 0 a1) as [[a2 b2]|] eqn:H2; [|done]. apply pump_data_pumped in H2. destruct b2; [|by eapply Pumped_trans].
  eapply Pumped_trans, Pumped_trans, arm_pumped; done.
Qed.

(** How much a carrier has to take for [pump] to send all there is. *)
Definition pump_cost (e : Endpoint) : nat := length (ackDue e) + pump_fuel e.

Lemma pump_complete a :
  connection (ep a) = true -> writable (ep a) = true -> (pump_cost (ep a) <= quota a)%nat ->
  (forall l, l ∈ ackDue (ep a) -> Sent (Ack l (delivered (inLane (ep a) l))) ∈ outs (pump a)) /\
  (forall l q x, transmitted (outLane (ep a) l) < q -> outbox (outLane (ep a) l) !! q = Some x ->
     (forall k, transmitted (outLane (ep a) l) < k < q -> is_Some (outbox (outLane (ep a) l) !! k)) -> Sent (Data l q x) ∈ outs (pump a)).
Proof.
  intros Hc Hw Hq. unfold pump_cost in Hq. unfold pump. rewrite Hc, Hw. cbn [andb].
  destruct (pump_acks _ a) as [a1 b1] eqn:H1. destruct (pump_acks_pumped _ _ _ _ H1) as (Hp1 & Hb & Hb1).
  rewrite (Hb1 Hc Hw) in * by lia. destruct (Hb eq_refl) as (Ho1 & Hw1 & Hq1 & Hacks).
  assert (forall l, outLane (ep a1) l = outLane (ep a) l) as Hlane by (intros l; unfold outLane; by rewrite Ho1).
  assert (pump_fuel (ep a1) = pump_fuel (ep a)) as Hfuel.
  { unfold pump_fuel, order. rewrite Ho1. do 2 f_equal. induction (outLanes (ep a)).*1 as [|l ls IH]; [done|]. cbn. by rewrite Hlane, IH. }
  pose proof (pump_fuel_enough a1) as Hsome. destruct (pump_data (pump_fuel (ep a1)) 0 a1) as [[a2 b2]|] eqn:H2; [|done].
  pose proof (pump_data_pumped _ _ _ _ _ H2) as Hp2.
  apply pump_data_complete in H2 as [-> Hall]; [|by rewrite (pm_link _ _ Hp1)|by rewrite Hw1|lia|done|by intros j ? ?; lia].
  rewrite arm_outs.
  split.
  - intros l Hl. destruct (pm_sent _ _ Hp2) as (ps & -> & _). specialize (Hacks l Hl). set_solver.
  - intros l q x Hlt Hx Hpre. destruct (Hall l) as [Hn Hs]. rewrite Hlane in Hs. apply Hs; [|done]. split; [done|].
    destruct (pm_out _ _ Hp2 l) as ((_ & _ & Hob & _) & Ht & _). rewrite Hlane in Hob, Ht. rewrite Hob in Hn.
    destruct (decide (q <= transmitted (outLane (ep a2) l))) as [|Hgt]; [done|].
    destruct (decide (q = transmitted (outLane (ep a2) l) + 1)) as [->|Hne]; [congruence|].
    destruct (Hpre (transmitted (outLane (ep a2) l) + 1)) as [y Hy]; [lia|]. congruence.
Qed.
