(* ===== verification/TransportCorrect.v ===== *)
(** * What the transport delivers

Two endpoints and a carrier that may lose, delay, repeat and reorder messages, drop
and come back.  Every frame is handed to the receiver once and in order, a lane
never has more than its window in flight, an acknowledged frame was handled, and a
lane whose link comes back delivers all that was sent on it. *)
From S2P Require Import Prelude JsObject JsMap JsNumber Transport TransportLemmas.
#[local] Open Scope Z_scope.

(** ** The network *)

Inductive Side := Near | Far.

#[export] Instance side_eq_dec : EqDecision Side.
Proof. solve_decision. Defined.

Definition peer (s : Side) : Side := match s with Near => Far | Far => Near end.

(** The two endpoints, every message each has ever handed to the carrier, the
    payloads each was given to send, and those each has handed to its handler. *)
Record Net := mkNet {
  node : Side -> Endpoint; wire : Side -> list ReferencePacket;
  submitted : Side -> jstring -> list bytes; handed : Side -> jstring -> list bytes }.

Definition start : Net := mkNet (fun _ => createReliableTransport) (fun _ => []) (fun _ _ => []) (fun _ _ => []).

Inductive Op :=
| OpSend (lane : jstring) (payload : bytes)
| OpOnFrame
| OpClose
| OpAttach
| OpReceive (p : ReferencePacket)
| OpWritable
| OpDetach
| OpTimer (lane : jstring)
| OpSettle (lane : jstring).

Definition packet_seq (p : ReferencePacket) : Z := match p with Data _ q _ | Ack _ q => q end.

(** What can happen at a side: a message arrives that the peer sent at some time, an
    armed deadline passes, a running handler settles, or the endpoint is called. *)
Definition enabled (n : Net) (s : Side) (op : Op) : Prop :=
  match op with
  | OpReceive p => p ∈ wire n (peer s) /\ packet_seq p <= MAX_SAFE_INTEGER
  | OpTimer l => armed (outLane (node n s) l) = true
  | OpSettle l => busy (inLane (node n s) l) = true
  | _ => True
  end.

Section Net.
Context (window : Z).

Definition perform (op : Op) (a : Act) : Act :=
  match op with
  | OpSend l x => send window l x a
  | OpOnFrame => onFrame a
  | OpClose => close a
  | OpAttach => attached a
  | OpReceive p => message window (raw_packet p) a
  | OpWritable => on_writable a
  | OpDetach => detached a
  | OpTimer l => on_timer l a
  | OpSettle l => settle l a
  end.

Definition sent_packets (os : list Output) : list ReferencePacket := omap (fun o => match o with Sent p => Some p | _ => None end) os.

Definition handed_on (l : jstring) (os : list Output) : list bytes :=
  omap (fun o => match o with Handed l' x => if decide (l' = l) then Some x else None | _ => None end) os.

Definition submits (op : Op) (l : jstring) : list bytes := match op with OpSend l' x => if decide (l' = l) then [x] else [] | _ => [] end.

Definition upd {A} (f : Side -> A) (s : Side) (v : A) : Side -> A := fun s' => if decide (s' = s) then v else f s'.

(** The operation at a side, with a carrier that takes [quota] messages. *)
Definition apply_op (n : Net) (s : Side) (op : Op) (quota : nat) : Net :=
  let a := perform op (mkAct (node n s) quota []) in
  mkNet (upd (node n) s (ep a)) (upd (wire n) s (wire n s ++ sent_packets (outs a)))
    (upd (submitted n) s (fun l => submitted n s l ++ submits op l)) (upd (handed n) s (fun l => handed n s l ++ handed_on l (outs a))).

Inductive net_step (n : Net) : Net -> Prop := do_op s op quota : enabled n s op -> net_step n (apply_op n s op quota).

Definition reachable (n : Net) : Prop := rtc net_step start n.

(** ** The invariant of one endpoint *)

Record OutCore (subs : list bytes) (o : OutLane) : Prop := {
  oo_seq : 0 <= acked o <= transmitted o /\ transmitted o < nextSeq o;
  oo_len : nextSeq o - 1 <= blen subs;
  oo_box q : outbox o !! q = if (acked o <? q) && (q <? nextSeq o) then subs !! Z.to_nat (q - 1) else None;
  oo_window : nextSeq o - 1 - acked o <= Z.max 0 window }.

Record OutOk (is_closed : bool) (subs : list bytes) (o : OutLane) : Prop := {
  oo_core : OutCore subs o;
  oo_wait : waiters o = if is_closed then [] else drop (Z.to_nat (nextSeq o - 1)) subs;
  oo_full : waiters o <> [] -> window <= nextSeq o - 1 - acked o }.

(** [running]: a frame was handed and its handler has not settled. *)
Record InOk (is_closed running : bool) (psubs hd : list bytes) (i : InLane) : Prop := {
  io_count : 0 <= delivered i /\ delivered i + Z.b2z running = blen hd /\ 0 <= received i;
  io_prefix : hd `prefix_of` psubs;
  io_inbox : is_closed = false -> hd ++ inbox i = take (Z.to_nat (received i)) psubs /\ blen hd + blen (inbox i) = received i }.

Definition packet_ok (subs : jstring -> list bytes) (e : Endpoint) (p : ReferencePacket) : Prop :=
  match p with
  | Data l q x => 1 <= q < nextSeq (outLane e l) /\ subs l !! Z.to_nat (q - 1) = Some x
  | Ack l q => 0 <= q <= delivered (inLane e l)
  end.

Record Good (subs psubs hd0 : jstring -> list bytes) (running : jstring -> bool) (a : Act) : Prop := {
  g_out l : OutOk (closed (ep a)) (subs l) (outLane (ep a) l);
  g_in l : InOk (closed (ep a)) (running l) (psubs l) (hd0 l ++ handed_on l (outs a)) (inLane (ep a) l);
  g_sent p : p ∈ sent_packets (outs a) -> packet_ok subs (ep a) p }.

(** Nothing waits in an inbox whose handler is free. *)
Definition drained (e : Endpoint) (l : jstring) : Prop := closed e = false -> handler e = true -> busy (inLane e l) = false -> inbox (inLane e l) = [].

(** What an operation may change between its steps. *)
Record Grows (a a' : Act) : Prop := {
  gr_next l : nextSeq (outLane (ep a) l) <= nextSeq (outLane (ep a') l);
  gr_acked l : acked (outLane (ep a') l) = acked (outLane (ep a) l);
  gr_delivered l : delivered (inLane (ep a) l) <= delivered (inLane (ep a') l);
  gr_received l : received (inLane (ep a') l) = received (inLane (ep a) l) }.

Lemma Grows_refl a : Grows a a.
Proof. split; done. Qed.

Lemma Grows_trans a a' a'' : Grows a a' -> Grows a' a'' -> Grows a a''.
Proof. intros [] []. split; intros l; (etrans; [eauto|eauto]) || congruence. Qed.

Lemma sent_packets_app os os' : sent_packets (os ++ os') = sent_packets os ++ sent_packets os'.
Proof. apply omap_app. Qed.
Lemma handed_on_app l os os' : handed_on l (os ++ os') = handed_on l os ++ handed_on l os'.
Proof. apply omap_app. Qed.
Lemma sent_packets_sent ps : sent_packets (Sent <$> ps) = ps.
Proof. induction ps as [|p ps IH]; [done|]. unfold sent_packets in *. cbn. by rewrite IH. Qed.
Lemma handed_on_sent l ps : handed_on l (Sent <$> ps) = [].
Proof. by induction ps. Qed.

Lemma box_spec subs o q x :
  OutCore subs o -> outbox o !! q = Some x <-> acked o < q < nextSeq o /\ subs !! Z.to_nat (q - 1) = Some x.
Proof.
  intros Ho. rewrite (oo_box _ _ Ho). destruct (Z.ltb_spec (acked o) q), (Z.ltb_spec q (nextSeq o)); cbn; naive_solver lia.
Qed.

(** *** Pumping *)

Lemma Grows_pumped a a' : Pumped a a' -> Grows a a'.
Proof.
  intros Hp. split; intros l; try (unfold inLane; by rewrite (pm_in _ _ Hp));
    destruct (pm_out _ _ Hp l) as ((Hn & Ha & _) & _); [lia|done].
Qed.

Lemma Good_pumped subs psubs hd0 running a a' : Pumped a a' -> Good subs psubs hd0 running a -> Good subs psubs hd0 running a'.
Proof.
  intros Hp [Ho Hi Hs]. destruct (pm_sent _ _ Hp) as (ps & Houts & Hps). split.
  - intros l. rewrite (pm_closed _ _ Hp). destruct (pm_out _ _ Hp l) as ((Hn & Ha & Hb & Hw) & Hle & Hpos).
    destruct (Ho l) as [[H1 H2 H3 H4] H5 H6]. split; [|by rewrite Hw, Hn|by rewrite Hw, Hn, Ha].
    split; rewrite ?Hn, ?Ha, ?Hb; try done. split; [lia|].
    destruct Hpos as [->|[x Hx]]; [lia|]. apply (box_spec _ _ _ _ (oo_core _ _ _ (Ho l))) in Hx. lia.
  - intros l. rewrite (pm_closed _ _ Hp), Houts, handed_on_app, handed_on_sent, app_nil_r. unfold inLane. rewrite (pm_in _ _ Hp). apply Hi.
  - intros p. rewrite Houts, sent_packets_app, sent_packets_sent, elem_of_app. intros Hin.
    assert (packet_ok subs (ep a) p) as Hok.
    { destruct Hin as [Hin|Hin]; [by apply Hs|]. rewrite Forall_forall in Hps. specialize (Hps p Hin). destruct p as [l q x|l q]; cbn in *.
      - apply (box_spec _ _ _ _ (oo_core _ _ _ (Ho l))) in Hps as [Hq Hx]. pose proof (oo_seq _ _ (oo_core _ _ _ (Ho l))). split; [lia|done].
      - pose proof (io_count _ _ _ _ _ (Hi l)). lia. }
    destruct p as [l q x|l q]; cbn in *.
    + destruct (pm_out _ _ Hp l) as ((-> & _) & _). done.
    + unfold inLane. by rewrite (pm_in _ _ Hp).
Qed.

Lemma drained_pumped a a' l : Pumped a a' -> drained (ep a) l -> drained (ep a') l.
Proof. intros Hp. unfold drained, inLane. by rewrite (pm_closed _ _ Hp), (pm_handler _ _ Hp), (pm_in _ _ Hp). Qed.

(** *** Admission *)

Lemma admit_waiters_spec c subs o ws o' ps :
  OutCore subs o -> ws = (if c : bool then [] else drop (Z.to_nat (nextSeq o - 1)) subs) -> admit_waiters window o ws = (o', ps) ->
  OutOk c subs o' /\ nextSeq o <= nextSeq o' /\ acked o' = acked o.
Proof.
  revert o o' ps. induction ws as [|x ws IH]; intros o o' ps [[Ha Ht] Hl Hb Hw] Hws; cbn [admit_waiters].
  { intros [= <- <-]. split_and!; [|cbn; lia|done]. split; cbn; [by split|done|done]. }
  destruct (Z.ltb_spec (nextSeq o - 1 - acked o) window) as [Hlt|Hge].
  2: { intros [= <- <-]. split_and!; [|cbn; lia|done]. split; cbn; [by split|done|lia]. }
  destruct c; [done|].
  assert (subs !! Z.to_nat (nextSeq o - 1) = Some x) as Hx by (rewrite <- (Nat.add_0_r (Z.to_nat _)), <- lookup_drop, <- Hws; done).
  pose proof (lookup_lt_Some _ _ _ Hx) as Hlen.
  destruct (admit_waiters window _ ws) as [o1 ps1] eqn:He. intros [= <- <-].
  apply IH in He as (Hok & Hn & Hk); [cbn in *; split_and!; [done|lia|done]| |].
  - split; cbn [nextSeq acked transmitted outbox]; [lia|unfold blen; lia| |lia].
    intros q. destruct (decide (q = nextSeq o)) as [->|Hne].
    + rewrite lookup_insert_eq. destruct (Z.ltb_spec (acked o) (nextSeq o)), (Z.ltb_spec (nextSeq o) (nextSeq o + 1)); cbn; [done|lia..].
    + rewrite lookup_insert_ne by done. rewrite Hb. destruct (Z.ltb_spec (acked o) q), (Z.ltb_spec q (nextSeq o)), (Z.ltb_spec q (nextSeq o + 1)); cbn; try done; lia.
  - cbn [nextSeq]. replace (Z.to_nat (nextSeq o + 1 - 1)) with (S (Z.to_nat (nextSeq o - 1))) by lia.
    rewrite <- Nat.add_1_r, <- drop_drop, <- Hws. done.
Qed.

(** The invariant but for the waiting payloads of a lane of which some may now enter. *)
Record AlmostGood (lane : jstring) (subs psubs hd0 : jstring -> list bytes) (running : jstring -> bool) (a : Act) : Prop := {
  ag_core : OutCore (subs lane) (outLane (ep a) lane);
  ag_wait : waiters (outLane (ep a) lane) = if closed (ep a) then [] else drop (Z.to_nat (nextSeq (outLane (ep a) lane) - 1)) (subs lane);
  ag_out l : l <> lane -> OutOk (closed (ep a)) (subs l) (outLane (ep a) l);
  ag_in l : InOk (closed (ep a)) (running l) (psubs l) (hd0 l ++ handed_on l (outs a)) (inLane (ep a) l);
  ag_sent p : p ∈ sent_packets (outs a) -> packet_ok subs (ep a) p }.

Lemma resolved_quiet l lane (ps : list bytes) : sent_packets (Resolved lane <$> ps) = [] /\ handed_on l (Resolved lane <$> ps) = [].
Proof. split; by induction ps. Qed.

Lemma Good_admit lane subs psubs hd0 running a :
  AlmostGood lane subs psubs hd0 running a ->
  Good subs psubs hd0 running (admit_lane window lane a) /\ Grows a (admit_lane window lane a) /\ inLanes (ep (admit_lane window lane a)) = inLanes (ep a) /\
  handler (ep (admit_lane window lane a)) = handler (ep a) /\ closed (ep (admit_lane window lane a)) = closed (ep a).
Proof.
  intros [Hc Hw Ho Hi Hs]. unfold admit_lane. destruct (admit_waiters _ _ _) as [o ps] eqn:He.
  destruct (admit_waiters_spec _ _ _ _ _ _ Hc Hw He) as (Hok & Hn & Hk). cbn [ep outs on_ep put_out]. split_and!; try done.
  - split; cbn [ep outs on_ep put_out].
    + intros l. rewrite outLane_set. case_decide; [by subst l|by apply Ho].
    + intros l. rewrite handed_on_app, (proj2 (resolved_quiet l lane ps)), app_nil_r. apply Hi.
    + intros p. rewrite sent_packets_app, (proj1 (resolved_quiet lane lane ps)), app_nil_r. intros Hp%Hs. destruct p as [l q x|l q]; cbn [packet_ok] in *; [|done].
      rewrite outLane_set. case_decide; [subst l|done]. split; [lia|apply Hp].
  - split; intros l; cbn [ep on_ep put_out]; rewrite ?outLane_set; try done; case_decide; subst; lia || done.
Qed.

(** *** Delivery *)

Definition fupd {A} (f : jstring -> A) (l : jstring) (v : A) : jstring -> A := fun l' => if decide (l' = l) then v else f l'.

Definition is_busy (e : Endpoint) : jstring -> bool := fun l => busy (inLane e l).

Lemma put_out_nil a : put_out [] a = a.
Proof. unfold put_out. rewrite app_nil_r. by destruct a. Qed.

Lemma handed_on_handed l lane xs : handed_on l (Handed lane <$> xs) = if decide (l = lane) then xs else [].
Proof.
  unfold handed_on. induction xs as [|x xs IH]; cbn; [by case_decide|]. rewrite IH.
  destruct (decide (lane = l)), (decide (l = lane)); congruence.
Qed.

Lemma sent_packets_handed lane xs : sent_packets (Handed lane <$> xs) = [].
Proof. by induction xs. Qed.

Lemma prefix_of_take {A} (l : list A) k : take k l `prefix_of` l.
Proof. exists (drop k l). by rewrite take_drop. Qed.

(** Replacing a lane's receiving state, with frames handed over. *)
Lemma Good_set_in lane i b xs subs psubs hd0 running a :
  Good subs psubs hd0 running a ->
  InOk (closed (ep a)) b (psubs lane) ((hd0 lane ++ handed_on lane (outs a)) ++ xs) i -> delivered (inLane (ep a) lane) <= delivered i ->
  Good subs psubs hd0 (fupd running lane b) (put_out (Handed lane <$> xs) (on_ep (set_in lane i) a)).
Proof.
  intros [Ho Hi Hs] Hok Hd. split; cbn [ep outs on_ep put_out]; [apply Ho| |].
  - intros l. change (closed (set_in lane i (ep a))) with (closed (ep a)). unfold fupd. rewrite inLane_set, handed_on_app, handed_on_handed, app_assoc.
    destruct (decide (l = lane)) as [->|]; [done|]. rewrite app_nil_r. apply Hi.
  - intros p. rewrite sent_packets_app, sent_packets_handed, app_nil_r.
    intros Hp%Hs. destruct p as [l q y|l q]; cbn [packet_ok] in *; [done|]. rewrite inLane_set. case_decide; subst; lia.
Qed.

Lemma Grows_set_in lane i os a :
  delivered (inLane (ep a) lane) <= delivered i -> received i = received (inLane (ep a) lane) -> Grows a (put_out os (on_ep (set_in lane i) a)).
Proof. intros Hd Hr. split; intros l; cbn [ep on_ep put_out]; rewrite ?inLane_set; try done; case_decide; subst; done. Qed.

(** The next frame of a lane whose handler is free is handed over, if there is one and the endpoint is open. *)
Lemma Good_take lane subs psubs hd0 running a :
  Good subs psubs hd0 running a -> running lane = false ->
  let a' := take_frame lane a in
  Good subs psubs hd0 (fupd running lane (busy (inLane (ep a') lane))) a' /\ Grows a a' /\ drained (ep a') lane /\
  (forall l, l <> lane -> inLane (ep a') l = inLane (ep a) l) /\ handler (ep a') = handler (ep a) /\ closed (ep a') = closed (ep a) /\
  (closed (ep a) = false -> handed_on lane (outs a') = handed_on lane (outs a) ++ take 1 (inbox (inLane (ep a) lane))).
Proof.
  intros HG Hr. destruct (g_in _ _ _ _ _ HG lane) as [Hcount Hpre Hin]. rewrite Hr in Hcount. cbn [Z.b2z] in Hcount. cbn zeta. unfold take_frame.
  destruct (inbox (inLane (ep a) lane)) as [|x rest] eqn:Hib; [|destruct (closed (ep a)) eqn:Hcl].
  - rewrite <- (put_out_nil (on_ep _ a)). split_and!; try done.
    + cbn [ep on_ep put_out]. rewrite inLane_set, decide_True by done. apply (Good_set_in _ _ _ []); [done| |done].
      rewrite app_nil_r. split; [cbn; lia|done|done].
    + apply Grows_set_in; done.
    + intros ???. cbn [ep on_ep put_out]. by rewrite inLane_set, decide_True.
    + intros l Hl. cbn [ep on_ep put_out]. by rewrite inLane_set, decide_False.
    + intros _. cbn. by rewrite !app_nil_r.
  - rewrite <- (put_out_nil (on_ep _ a)). split_and!; try done.
    + cbn [ep on_ep put_out]. rewrite inLane_set, decide_True by done. apply (Good_set_in _ _ _ []); [done| |done].
      rewrite app_nil_r, Hcl. split; [cbn; lia|done|done].
    + apply Grows_set_in; done.
    + intros Hc. cbn in Hc. congruence.
    + intros l Hl. cbn [ep on_ep put_out]. by rewrite inLane_set, decide_False.
  - destruct (Hin eq_refl) as [Hsplit Hlen]. split_and!; try done.
    + cbn [ep on_ep put_out]. rewrite inLane_set, decide_True by done. apply (Good_set_in _ _ _ [x]); [done| |done]. rewrite Hcl. split.
      * rewrite blen_app. cbn. unfold blen in *. cbn in *. lia.
      * etrans; [|apply (prefix_of_take _ (Z.to_nat (received (inLane (ep a) lane))))]. rewrite <- Hsplit. exists rest. by rewrite <- (app_assoc _ [x]).
      * intros _. cbn [received inbox]. split; [by rewrite <- (app_assoc _ [x])|]. rewrite blen_app. unfold blen in *. cbn in *. lia.
    + apply Grows_set_in; done.
    + intros ? ?. cbn [ep on_ep put_out]. by rewrite inLane_set, decide_True.
    + intros l Hl. cbn [ep on_ep put_out]. by rewrite inLane_set, decide_False.
    + intros _. cbn [outs put_out on_ep]. rewrite handed_on_app. f_equal. unfold handed_on. cbn. by rewrite decide_True.
Qed.

(** *** Operations *)

Record Sound (subs psubs hd0 : jstring -> list bytes) (a : Act) : Prop := {
  so_good : Good subs psubs hd0 (is_busy (ep a)) a;
  so_drained l : drained (ep a) l }.

Lemma Good_running subs psubs hd0 running running' a :
  (forall l, running l = running' l) -> Good subs psubs hd0 running a -> Good subs psubs hd0 running' a.
Proof. intros Hr [Ho Hi Hs]. split; [done| |done]. intros l. rewrite <- Hr. apply Hi. Qed.

Lemma Sound_pump subs psubs hd0 a : Sound subs psubs hd0 a -> Sound subs psubs hd0 (pump a) /\ Grows a (pump a).
Proof.
  intros [Hg Hd]. pose proof (pump_pumped a) as Hp. split; [|by apply Grows_pumped]. split.
  - apply (Good_running _ _ _ (is_busy (ep a))); [intros l; unfold is_busy, inLane; by rewrite (pm_in _ _ Hp)|]. by eapply Good_pumped.
  - intros l. by eapply drained_pumped.
Qed.

(** An update of links, deadlines, turns and positions. *)
Definition quiet (f : Endpoint -> Endpoint) (e : Endpoint) : Prop :=
  inLanes (f e) = inLanes e /\ closed (f e) = closed e /\ handler (f e) = handler e /\
  forall l, same_out (outLane e l) (outLane (f e) l) /\
    (transmitted (outLane (f e) l) = transmitted (outLane e l) \/ transmitted (outLane (f e) l) = acked (outLane e l)).

Lemma Good_quiet f subs psubs hd0 running a :
  quiet f (ep a) -> Good subs psubs hd0 running a -> Good subs psubs hd0 running (on_ep f a).
Proof.
  intros (Hi & Hc & Hh & Ho) [Go Gi Gs]. split; cbn [ep outs on_ep].
  - intros l. rewrite Hc. destruct (Go l) as [[H1 H2 H3 H4] H5 H6]. destruct (Ho l) as ((Hn & Ha & Hb & Hw) & Ht).
    split; [|by rewrite Hw, Hn|by rewrite Hw, Hn, Ha]. split; rewrite ?Hn, ?Ha, ?Hb; try done. lia.
  - intros l. rewrite Hc. unfold inLane. rewrite Hi. apply Gi.
  - intros p Hp%Gs. destruct p as [l q x|l q]; cbn [packet_ok] in *; [by destruct (Ho l) as ((-> & _) & _)|unfold inLane in *; by rewrite Hi].
Qed.

Lemma Sound_quiet f subs psubs hd0 a :
  quiet f (ep a) -> Sound subs psubs hd0 a -> Sound subs psubs hd0 (on_ep f a) /\ Grows a (on_ep f a).
Proof.
  intros Hq [Hg Hd]. pose proof Hq as (Hi & Hc & Hh & Ho). split; [split|].
  - apply (Good_running _ _ _ (is_busy (ep a))); [intros l; unfold is_busy, inLane; cbn; by rewrite Hi|]. by apply Good_quiet.
  - intros l. specialize (Hd l). unfold drained, inLane in *. cbn. by rewrite Hi, Hc, Hh.
  - split; intros l; cbn [ep on_ep]; try (unfold inLane; by rewrite Hi); destruct (Ho l) as ((Hn & Ha & _) & _); [lia|done].
Qed.

Lemma quiet_each f e : f fresh_out = fresh_out ->
  (forall o, same_out o (f o) /\ (transmitted (f o) = transmitted o \/ transmitted (f o) = acked o)) -> quiet (each_out f) e.
Proof. intros Hf Ho. split_and!; try done. intros l. rewrite outLane_each by done. apply Ho. Qed.

Lemma quiet_comp f g e : quiet f e -> quiet g (f e) -> quiet (fun e => g (f e)) e.
Proof.
  intros (H1 & H2 & H3 & H4) (H1' & H2' & H3' & H4'). split_and!; try congruence. intros l.
  destruct (H4 l) as ((Hn & Ha & Hb & Hw) & Ht), (H4' l) as ((Hn' & Ha' & Hb' & Hw') & Ht').
  split; [split_and!; congruence|]. destruct Ht' as [Ht'|Ht'], Ht as [Ht|Ht]; rewrite Ht', ?Ht, ?Ha; auto.
Qed.

Lemma quiet_id f e : outLanes (f e) = outLanes e -> inLanes (f e) = inLanes e -> closed (f e) = closed e -> handler (f e) = handler e -> quiet f e.
Proof. intros Ho Hi Hc Hh. split_and!; try done. intros l. unfold outLane. rewrite Ho. split; [done|by left]. Qed.

Lemma quiet_rewind e : quiet (each_out rewind) e.
Proof. apply quiet_each; [done|]. intros o. split; [done|by right]. Qed.

Lemma quiet_disarm e : quiet (each_out disarm) e.
Proof. apply quiet_each; [done|]. intros o. split; [done|by left]. Qed.

Lemma due_add_same l e : outLanes (due_add l e) = outLanes e /\ inLanes (due_add l e) = inLanes e /\ closed (due_add l e) = closed e /\ handler (due_add l e) = handler e.
Proof. done. Qed.

Lemma add_due_same e l : outLanes (add_due e l) = outLanes e /\ inLanes (add_due e l) = inLanes e /\ closed (add_due e l) = closed e /\
  handler (add_due e l) = handler e /\ connection (add_due e l) = connection e /\ writable (add_due e l) = writable e.
Proof.
  revert e. induction l as [|x l IH]; intros e; [done|].
  change (add_due e (x :: l)) with (add_due (if 0 <? delivered x.2 then due_add x.1 e else e) l).
  destruct (IH (if 0 <? delivered x.2 then due_add x.1 e else e)) as (-> & -> & -> & -> & -> & ->). by destruct (0 <? delivered x.2).
Qed.

Lemma quiet_reattach e : quiet reattach e.
Proof.
  unfold reattach. cbn zeta. apply (quiet_comp (fun e => each_out rewind (set_link true true e)) (fun e => each_out disarm (add_due e (inLanes e)))).
  - apply (quiet_comp (set_link true true)); [by apply quiet_id|apply quiet_rewind].
  - set (e1 := each_out rewind _). apply (quiet_comp (fun e => add_due e (inLanes e))); [|apply quiet_disarm].
    destruct (add_due_same e1 (inLanes e1)) as (? & ? & ? & ? & _). by apply quiet_id.
Qed.

(** *** Frames *)

Lemma Good_deliver lane subs psubs hd0 a :
  Good subs psubs hd0 (is_busy (ep a)) a ->
  let a' := deliver lane a in
  Good subs psubs hd0 (is_busy (ep a')) a' /\ Grows a a' /\ drained (ep a') lane /\ (forall l, drained (ep a) l -> drained (ep a') l) /\
  handler (ep a') = handler (ep a) /\ (forall l, l <> lane -> inLane (ep a') l = inLane (ep a) l) /\ outLanes (ep a') = outLanes (ep a).
Proof.
  intros Hg a'. subst a'. unfold deliver. destruct (busy (inLane (ep a) lane)) eqn:Hb; cbn [orb].
  { split_and!; try done. intros _ _. by rewrite Hb. }
  destruct (handler (ep a)) eqn:Hh; cbn [negb].
  2: { split_and!; try done. intros _. by rewrite Hh. }
  destruct (Good_take lane _ _ _ _ _ Hg Hb) as (Hg' & Hgr & Hd & Hi & Hh' & Hc & _).
  assert (outLanes (ep (take_frame lane a)) = outLanes (ep a)) as Ho by (unfold take_frame; by repeat case_match).
  split_and!; try done; [|intros l Hl|congruence].
  - eapply Good_running; [|exact Hg']. intros l. unfold fupd, is_busy. case_decide; [by subst|by rewrite Hi].
  - destruct (decide (l = lane)) as [->|Hne]; [done|]. unfold drained in *. by rewrite (Hi _ Hne), Hc, Hh'.
Qed.

Lemma Sound_settle lane subs psubs hd0 a :
  Sound subs psubs hd0 a -> busy (inLane (ep a) lane) = true -> Sound subs psubs hd0 (settle lane a) /\ Grows a (settle lane a).
Proof.
  intros [Hg Hd] Hb. unfold settle. set (i := inLane (ep a) lane) in *. set (i' := mkIn (received i) (delivered i + 1) (busy i) (inbox i)).
  set (a1 := on_ep (set_in lane i') a). change (on_ep _ a) with (on_ep (due_add lane) a1).
  assert (Good subs psubs hd0 (fupd (is_busy (ep a)) lane false) a1 /\ Grows a a1) as [Hg1 Hgr1].
  { subst a1. rewrite <- (put_out_nil (on_ep _ a)). split.
    - apply (Good_set_in _ _ _ []); [done| |subst i' i; cbn; lia]. rewrite app_nil_r. destruct (g_in _ _ _ _ _ Hg lane) as [Hcnt Hpre Hin].
      change (is_busy (ep a) lane) with (busy (inLane (ep a) lane)) in Hcnt. fold i in Hcnt, Hin. rewrite Hb in Hcnt. split; cbn in *; [lia|done|done].
    - apply Grows_set_in; subst i' i; cbn; [lia|done]. }
  assert (quiet (due_add lane) (ep a1)) as Hq by (by apply quiet_id).
  pose proof (Good_quiet _ _ _ _ _ _ Hq Hg1) as Hg2. set (a2 := on_ep (due_add lane) a1) in *.
  pose proof (pump_pumped a2) as Hp. pose proof (Good_pumped _ _ _ _ _ _ Hp Hg2) as Hg3.
  assert (forall l, inLane (ep (pump a2)) l = if decide (l = lane) then i' else inLane (ep a) l) as Hin3.
  { intros l. unfold inLane at 1. rewrite (pm_in _ _ Hp). change (inLanes (ep a2)) with (inLanes (ep a1)).
    change (default fresh_in (map_get (inLanes (ep a1)) l)) with (inLane (ep a1) l). apply inLane_set. }
  destruct (Good_take lane _ _ _ _ _ Hg3) as (Hg4 & Hgr4 & Hd4 & Hi4 & Hh4 & Hc4 & _); [unfold fupd; by rewrite decide_True|].
  split; [split|].
  - eapply Good_running; [|exact Hg4]. intros l. unfold fupd, is_busy. case_decide; [by subst|]. by rewrite Hi4, Hin3, decide_False.
  - intros l. destruct (decide (l = lane)) as [->|Hne]; [done|]. specialize (Hd l). unfold drained in *.
    by rewrite Hi4, Hin3, decide_False, Hc4, Hh4, (pm_closed _ _ Hp), (pm_handler _ _ Hp).
  - eapply Grows_trans; [exact Hgr1|]. eapply Grows_trans; [|exact Hgr4]. eapply Grows_trans; [|by apply Grows_pumped]. by split.
Qed.

Lemma drained_absent e l : l ∉ (inLanes e).*1 -> drained e l.
Proof.
  intros Hl _ _ _. unfold inLane, map_get. destruct (obj_get (inLanes e) l) as [i|] eqn:Hi; [|done].
  destruct Hl. rewrite obj_get_map in Hi. apply elem_of_list_to_map_2 in Hi. by apply (list_elem_of_fmap_2' fst _ (l, i)).
Qed.

Lemma Sound_onFrame subs psubs hd0 a :
  Sound subs psubs hd0 a -> Sound subs psubs hd0 (onFrame a) /\ Grows a (onFrame a).
Proof.
  intros [Hg Hd]. unfold onFrame. set (a1 := on_ep set_handler a).
  assert (Good subs psubs hd0 (is_busy (ep a1)) a1) as Hg1 by (destruct Hg; split; done).
  assert (forall l, l ∉ (inLanes (ep a)).*1 -> drained (ep a1) l) as Hd1 by (intros l Hl; by apply drained_absent).
  assert (Grows a a1) as Hgr1 by (by split). clearbody a1. revert a1 Hg1 Hd1 Hgr1.
  induction (inLanes (ep a)).*1 as [|x ls IH]; intros a1 Hg1 Hd1 Hgr1; cbn [foldl].
  { split; [split; [done|]|done]. intros l. apply Hd1, not_elem_of_nil. }
  destruct (Good_deliver x _ _ _ _ Hg1) as (Hg2 & Hgr2 & Hdx & Hdl & _). apply IH; [done| |by eapply Grows_trans].
  intros l Hl. destruct (decide (l = x)) as [->|Hne]; [done|]. apply Hdl, Hd1. by rewrite not_elem_of_cons.
Qed.

(** *** Sending and acknowledgements *)

Lemma lookup_deletes (ks : list Z) (m : gmap Z bytes) q :
  foldr (fun q m => delete q m) m ks !! q = if bool_decide (q ∈ ks) then None else m !! q.
Proof.
  induction ks as [|k ks IH]; [done|]. cbn [foldr]. destruct (decide (q = k)) as [->|Hne].
  - rewrite lookup_delete_eq, bool_decide_eq_true_2; [done|by left].
  - rewrite lookup_delete_ne, IH by done. apply bool_decide_ext with (P := q ∈ ks) (Q := q ∈ k :: ks) || idtac.
    repeat case_bool_decide; try done; set_solver.
Qed.

Lemma lookup_drop_acked a s (m : gmap Z bytes) q : drop_acked a s m !! q = if (a <? q) && (q <=? s) then None else m !! q.
Proof.
  unfold drop_acked. rewrite lookup_deletes. case_bool_decide as Hin; rewrite elem_of_seqZ in Hin;
    destruct (Z.ltb_spec a q), (Z.leb_spec q s); cbn; try done; lia.
Qed.

Lemma OutCore_mono subs more o : OutCore subs o -> OutCore (subs ++ more) o.
Proof.
  intros [H1 H2 H3 H4]. split; [done|rewrite blen_app; pose proof (blen_nonneg more); lia| |done].
  intros q. rewrite H3. destruct (Z.ltb_spec (acked o) q), (Z.ltb_spec q (nextSeq o)); cbn; try done.
  rewrite lookup_app_l; [done|]. unfold blen in *. lia.
Qed.

Lemma packet_ok_mono subs subs' e e' p :
  (forall l, subs l `prefix_of` subs' l) -> (forall l, nextSeq (outLane e l) <= nextSeq (outLane e' l)) ->
  (forall l, delivered (inLane e l) <= delivered (inLane e' l)) -> packet_ok subs e p -> packet_ok subs' e' p.
Proof.
  intros Hs Hn Hd. destruct p as [l q x|l q]; cbn.
  - intros [Hq Hx]. specialize (Hn l). split; [lia|]. by eapply prefix_lookup_Some.
  - specialize (Hd l). lia.
Qed.

(** After admission and pumping. *)
Lemma Sound_admit lane subs psubs hd0 a :
  AlmostGood lane subs psubs hd0 (is_busy (ep a)) a -> (forall l, drained (ep a) l) ->
  Sound subs psubs hd0 (pump (admit_lane window lane a)) /\ Grows a (pump (admit_lane window lane a)).
Proof.
  intros Ha Hd. destruct (Good_admit _ _ _ _ _ _ Ha) as (Hg & Hgr & Hi & Hh & Hc).
  assert (Sound subs psubs hd0 (admit_lane window lane a)) as Hs.
  { split.
    - eapply Good_running; [|exact Hg]. intros l. unfold is_busy, inLane. by rewrite Hi.
    - intros l. specialize (Hd l). unfold drained, inLane in *. by rewrite Hi, Hh, Hc. }
  apply Sound_pump in Hs as [Hs Hgr2]. split; [done|]. by eapply Grows_trans.
Qed.

Definition more (subs : jstring -> list bytes) (op : Op) : jstring -> list bytes := fun l => subs l ++ submits op l.

Lemma more_prefix subs op l : subs l `prefix_of` more subs op l.
Proof. by eexists. Qed.

Lemma more_same subs op l : submits op l = [] -> more subs op l = subs l.
Proof. unfold more. intros ->. apply app_nil_r. Qed.

Lemma Sound_send lane x subs psubs hd0 a :
  Sound subs psubs hd0 a -> Sound (more subs (OpSend lane x)) psubs hd0 (send window lane x a) /\ Grows a (send window lane x a).
Proof.
  intros [Hg Hd]. unfold send. destruct (closed (ep a)) eqn:Hcl.
  - split; [|by split]. split; [|done]. destruct Hg as [Ho Hi Hs]. split; cbn [ep outs put_out].
    + intros l. destruct (Ho l) as [Hc Hw Hf]. rewrite Hcl in *. split; [by apply OutCore_mono|done|done].
    + intros l. rewrite handed_on_app. cbn. rewrite app_nil_r. apply Hi.
    + intros p. rewrite sent_packets_app. cbn. rewrite app_nil_r. intros Hp%Hs. eapply packet_ok_mono; [apply more_prefix|done|done|exact Hp].
  - set (o := outLane (ep a) lane). set (o' := mkOut _ _ _ _ _ _). set (a1 := on_ep (set_out lane o') a).
    assert (forall l, outLane (ep a1) l = if decide (l = lane) then o' else outLane (ep a) l) as Hout by (intros l; apply outLane_set).
    assert (Grows a a1) as Hgr1 by (split; intros l; rewrite ?Hout; try case_decide; subst; done).
    destruct (Sound_admit lane (more subs (OpSend lane x)) psubs hd0 a1) as [Hs Hgr]; [|done|split; [done|by eapply Grows_trans]].
    destruct Hg as [Ho Hi Hs]. split.
    + rewrite Hout, decide_True by done. destruct (oo_core _ _ _ (Ho lane)) as [? ? ? ?]. apply OutCore_mono. by split.
    + rewrite Hout, decide_True by done. subst o'. cbn [waiters nextSeq]. unfold more. cbn [submits]. rewrite decide_True by done.
      pose proof (oo_len _ _ (oo_core _ _ _ (Ho lane))) as Hlen. fold o in Hlen. change (closed (ep a1)) with (closed (ep a)). rewrite Hcl.
      rewrite drop_app_le by (unfold blen in *; lia). f_equal. pose proof (oo_wait _ _ _ (Ho lane)) as Hwait. fold o in Hwait. by rewrite Hwait, Hcl.
    + intros l Hl. rewrite Hout, decide_False by done. change (closed (ep a1)) with (closed (ep a)). rewrite more_same; [apply Ho|]. cbn. by rewrite decide_False.
    + exact Hi.
    + intros p Hp. eapply packet_ok_mono; [apply more_prefix|apply (gr_next _ _ Hgr1)|done|by apply Hs].
Qed.

Record Effects (op : Op) (e e' : Endpoint) : Prop := {
  ef_next l : nextSeq (outLane e l) <= nextSeq (outLane e' l);
  ef_acked l : acked (outLane e' l) = acked (outLane e l) \/ op = OpReceive (Ack l (acked (outLane e' l)));
  ef_delivered l : delivered (inLane e l) <= delivered (inLane e' l);
  ef_received l : received (inLane e' l) = received (inLane e l) \/ exists x, op = OpReceive (Data l (received (inLane e' l)) x) }.

Lemma Grows_effects op a a' : Grows a a' -> Effects op (ep a) (ep a').
Proof. intros [Hn Ha Hd Hr]. split; intros l; auto. Qed.

(** What [onAck] does to the lane before it pumps. *)
Definition acked_lane (o : OutLane) (seq : Z) : OutLane :=
  disarm (mkOut (nextSeq o) seq (Z.max (transmitted o) seq) (drop_acked (acked o) seq (outbox o)) (waiters o) (armed o)).

Lemma acked_lane_core subs o seq : acked o < seq < nextSeq o -> OutCore subs o -> OutCore subs (acked_lane o seq).
Proof.
  intros Hq [H1 H2 H3 H4]. split; cbn; [lia|done| |lia].
  intros q. rewrite lookup_drop_acked, H3. destruct (Z.ltb_spec (acked o) q), (Z.leb_spec q seq), (Z.ltb_spec seq q), (Z.ltb_spec q (nextSeq o)); cbn; try done; lia.
Qed.

Lemma Sound_onAck lane seq subs psubs hd0 a :
  Sound subs psubs hd0 a -> Sound subs psubs hd0 (onAck window lane seq a) /\ Effects (OpReceive (Ack lane seq)) (ep a) (ep (onAck window lane seq a)).
Proof.
  intros [Hg Hd]. unfold onAck. destruct (map_get (outLanes (ep a)) lane) as [o|] eqn:Hget; [|split; [done|by split; auto]].
  assert (outLane (ep a) lane = o) as Ho by (unfold outLane; by rewrite Hget).
  destruct (Z.leb_spec seq (acked o)); cbn [orb]; [split; [done|by split; auto]|].
  destruct (Z.leb_spec (nextSeq o) seq); cbn [orb]; [split; [done|by split; auto]|].
  fold (acked_lane o seq). set (a1 := on_ep (set_out lane _) a).
  assert (forall l, outLane (ep a1) l = if decide (l = lane) then acked_lane o seq else outLane (ep a) l) as Hout by (intros l; apply outLane_set).
  destruct (Sound_admit lane subs psubs hd0 a1) as [Hs Hgr]; [|done|].
  { destruct Hg as [Go Gi Gs]. split.
    - rewrite Hout, decide_True by done. apply acked_lane_core; [lia|]. rewrite <- Ho. apply Go.
    - rewrite Hout, decide_True by done. cbn. rewrite <- Ho. apply Go.
    - intros l Hl. rewrite Hout, decide_False by done. apply Go.
    - exact Gi.
    - intros p Hp%Gs. destruct p as [l q x|l q]; cbn [packet_ok] in *; [|done]. rewrite Hout. case_decide; [subst l; cbn; by rewrite <- Ho|done]. }
  split; [done|]. apply (Grows_effects (OpReceive (Ack lane seq))) in Hgr as [En Ea Ed Er].
  split; intros l; [|destruct (Ea l) as [Heq|?]; [|by right]|by apply Ed|by apply Er].
  - etrans; [|apply En]. rewrite Hout. case_decide; [subst l; cbn; by rewrite <- Ho|done].
  - rewrite Heq, Hout. case_decide; [subst l; by right|by left].
Qed.

(** *** Arriving data, links, deadlines *)

Lemma Sound_onData lane seq x subs psubs hd0 a :
  Sound subs psubs hd0 a -> 1 <= seq -> psubs lane !! Z.to_nat (seq - 1) = Some x ->
  Sound subs psubs hd0 (onData lane seq x a) /\ Effects (OpReceive (Data lane seq x)) (ep a) (ep (onData lane seq x a)).
Proof.
  intros [Hg Hd] Hseq Hx. unfold onData. set (i := inLane (ep a) lane). destruct (Z.eqb_spec seq (received i + 1)) as [->|Hne].
  - set (i' := mkIn _ _ _ _). set (a1 := on_ep (set_in lane i') a).
    assert (Good subs psubs hd0 (is_busy (ep a1)) a1) as Hg1.
    { apply (Good_running _ _ _ (fupd (is_busy (ep a)) lane (busy i'))).
      { intros l. unfold fupd, is_busy, a1. cbn [ep on_ep]. rewrite inLane_set. by case_decide. }
      subst a1. rewrite <- (put_out_nil (on_ep _ a)). apply (Good_set_in _ _ _ []); [done| |by subst i' i].
      rewrite app_nil_r. destruct (g_in _ _ _ _ _ Hg lane) as [Hc Hp Hin]. unfold is_busy in Hc. fold i in Hc, Hin.
      split; cbn [delivered received inbox]; [subst i'; cbn; lia|done|]. intros Hcl. destruct (Hin Hcl) as [Hs Hl]. subst i'. cbn [inbox received].
      replace (Z.to_nat (received i + 1)) with (S (Z.to_nat (received i))) by lia.
      rewrite app_assoc, Hs, (blen_app (inbox i)). change (blen [x]) with 1. split; [|lia].
      symmetry. apply take_S_r. by replace (Z.to_nat (received i)) with (Z.to_nat (received i + 1 - 1)) by lia. }
    destruct (Good_deliver lane _ _ _ _ Hg1) as (Hg2 & Hgr2 & Hdl & Hdo & Hh2 & Hi2 & _).
    assert (Sound subs psubs hd0 (deliver lane a1)) as Hs2.
    { split; [done|]. intros l. destruct (decide (l = lane)) as [->|Hl]; [done|]. apply Hdo. specialize (Hd l). unfold drained, a1 in *.
      cbn [ep on_ep]. rewrite inLane_set, decide_False by done. exact Hd. }
    apply Sound_pump in Hs2 as [Hs3 Hgr3]. split; [done|].
    assert (Grows a1 (pump (deliver lane a1))) as [Gn Ga Gd Gr] by (by eapply Grows_trans).
    split; intros l; [exact (Gn l)|left; exact (Ga l)| |].
    + etrans; [|apply Gd]. subst a1. cbn [ep on_ep]. rewrite inLane_set. case_decide; subst; done.
    + rewrite Gr. subst a1. cbn [ep on_ep]. rewrite inLane_set. case_decide; [subst; right; by eexists|by left].
  - change (on_ep _ a) with (on_ep (due_add lane) (on_ep (set_in lane i) a)). set (a1 := on_ep (set_in lane i) a).
    assert (forall l, inLane (ep a1) l = inLane (ep a) l) as Hin by (intros l; subst a1; cbn [ep on_ep]; rewrite inLane_set; by case_decide; subst).
    assert (Sound subs psubs hd0 a1 /\ Grows a a1) as [Hs1 Hgr1].
    { split; [split|split; intros l; rewrite ?Hin; done].
      - eapply Good_running; [intros l; unfold is_busy; by rewrite Hin|]. destruct Hg as [Go Gi Gs].
        split; [exact Go|intros l; rewrite Hin; apply Gi|]. intros p Hp%Gs. destruct p; cbn [packet_ok] in *; [done|by rewrite Hin].
      - intros l. specialize (Hd l). unfold drained in *. by rewrite Hin. }
    destruct (Sound_quiet (due_add lane) subs psubs hd0 a1) as [Hs2 Hgr2]; [by apply quiet_id|done|].
    apply Sound_pump in Hs2 as [Hs3 Hgr3]. split; [done|]. apply (Grows_effects _ a). apply (Grows_trans _ a1); [done|]. by eapply Grows_trans.
Qed.

Lemma isReferencePacket_raw p : 0 <= packet_seq p <= MAX_SAFE_INTEGER -> isReferencePacket (raw_packet p) = Some p.
Proof.
  intros Hp. unfold MAX_SAFE_INTEGER in Hp. destruct p as [l q x|l q]; cbn [packet_seq] in Hp; unfold isReferencePacket; cbn [raw_packet rm_lane rm_seq rm_kind rm_payload];
    (rewrite of_Z_safe by (unfold MAX_SAFE_INTEGER; lia)); destruct (to_Z_of_Z q) as (_ & _ & ->); try lia; cbn [negb orb];
    destruct (Z.ltb_spec q 0); try lia; done.
Qed.

Lemma Sound_close subs psubs hd0 a : Sound subs psubs hd0 a -> Sound subs psubs hd0 (close a) /\ Grows a (close a).
Proof.
  intros [Hg Hd]. unfold close. destruct (closed (ep a)) eqn:Hcl; [split; [done|by split]|].
  set (os := _ ++ (if connection (ep a) then [HungUp] else [])).
  assert (sent_packets os = [] /\ forall l, handed_on l os = []) as [Hos Hoh].
  { subst os. assert (forall (m : list (jstring * OutLane)), sent_packets (m ≫= (fun x => Rejected x.1 <$> waiters x.2)) = [] /\
      forall l, handed_on l (m ≫= (fun x => Rejected x.1 <$> waiters x.2)) = []) as Hrej.
    { induction m as [|[k o] m [IH1 IH2]]; [done|]. cbn [mbind list_bind]. split; [rewrite sent_packets_app, IH1|intros l; rewrite handed_on_app, IH2];
        rewrite app_nil_r; induction (waiters _); done. }
    destruct (Hrej (outLanes (ep a))) as [H1 H2]. rewrite sent_packets_app, H1. split; [by destruct (connection _)|].
    intros l. rewrite handed_on_app, H2. by destruct (connection _). }
  set (f := fun e => set_link false _ _). assert (forall l, outLane (f (ep a)) l = forget_waiters (disarm (outLane (ep a) l))) as Hout.
  { intros l. apply (outLane_each (fun o => forget_waiters (disarm o)) (set_closed (ep a)) l). done. }
  split; [|split; intros l; cbn [ep on_ep put_out]; rewrite ?Hout; done].
  destruct Hg as [Go Gi Gs]. split; [split; cbn [ep on_ep put_out outs]|].
  - intros l. rewrite Hout. destruct (Go l) as [[? ? ? ?] ? ?]. split; [by split|done|done].
  - intros l. rewrite handed_on_app, Hoh, app_nil_r. destruct (Gi l) as [? ? ?]. by split.
  - intros p. rewrite sent_packets_app, Hos, app_nil_r. intros Hp%Gs. destruct p as [l q x|l q]; cbn [packet_ok] in *; [by rewrite Hout|done].
  - intros l Hc. done.
Qed.

Lemma Sound_pump_quiet f subs psubs hd0 a :
  quiet f (ep a) -> Sound subs psubs hd0 a -> Sound subs psubs hd0 (pump (on_ep f a)) /\ Grows a (pump (on_ep f a)).
Proof.
  intros Hq Hs. destruct (Sound_quiet _ _ _ _ _ Hq Hs) as [Hs1 Hgr1]. apply Sound_pump in Hs1 as [Hs2 Hgr2]. split; [done|]. by eapply Grows_trans.
Qed.

Lemma quiet_set_out l f e : (same_out (outLane e l) (f (outLane e l)) /\ (transmitted (f (outLane e l)) = transmitted (outLane e l) \/ transmitted (f (outLane e l)) = acked (outLane e l))) ->
  quiet (fun e => set_out l (f (outLane e l)) e) e.
Proof. intros Hf. split_and!; try done. intros l'. rewrite outLane_set. case_decide; [by subst|]. split; [done|by left]. Qed.

(** Every operation keeps an endpoint sound, whose peer's packets and settled handlers are real. *)
Lemma Sound_perform op subs psubs hd0 e quota :
  Sound subs psubs hd0 (mkAct e quota []) ->
  match op with
  | OpReceive (Data l q x) => 1 <= q <= MAX_SAFE_INTEGER /\ psubs l !! Z.to_nat (q - 1) = Some x
  | OpReceive (Ack l q) => 0 <= q <= MAX_SAFE_INTEGER
  | OpSettle l => busy (inLane e l) = true
  | _ => True
  end ->
  Sound (more subs op) psubs hd0 (perform op (mkAct e quota [])) /\ Effects op e (ep (perform op (mkAct e quota []))).
Proof.
  set (a := mkAct e quota []). intros Hs Hop.
  assert (forall op', (forall l, submits op' l = []) -> Sound subs psubs hd0 (perform op' a) /\ Effects op' (ep a) (ep (perform op' a)) ->
    Sound (more subs op') psubs hd0 (perform op' a) /\ Effects op' e (ep (perform op' a))) as Hmore.
  { intros op' Hsub [[[Go Gi Gs] Hd'] He]. split; [|done]. split; [|done]. split; [|done|].
    - intros l. rewrite more_same by done. apply Go.
    - intros p Hp. eapply packet_ok_mono; [apply more_prefix|done|done|by apply Gs]. }
  destruct op as [l x| | | |p| | |l|l]; cbn [perform].
  - destruct (Sound_send l x _ _ _ _ Hs) as [? Hgr]. split; [done|]. by apply (Grows_effects _ a).
  - apply (Hmore OpOnFrame); [done|]. destruct (Sound_onFrame _ _ _ _ Hs) as [? Hgr]. split; [done|]. by apply Grows_effects.
  - apply (Hmore OpClose); [done|]. destruct (Sound_close _ _ _ _ Hs) as [? Hgr]. split; [done|]. by apply Grows_effects.
  - apply (Hmore OpAttach); [done|]. cbn [perform]. unfold attached. destruct (closed (ep a)) eqn:Hcl.
    + split; [|by split; auto]. destruct Hs as [[Go Gi Gs] Hd]. split; [split; done|done].
    + destruct (Sound_pump_quiet reattach _ _ _ _ (quiet_reattach (ep a)) Hs) as [? Hgr]. split; [done|]. by apply Grows_effects.
  - apply (Hmore (OpReceive p)); [done|]. cbn [perform]. unfold message. rewrite isReferencePacket_raw by (destruct p; cbn; lia).
    destruct p as [l q x|l q]; [apply Sound_onData; [done|lia|apply Hop]|by apply Sound_onAck].
  - apply (Hmore OpWritable); [done|]. cbn [perform]. unfold on_writable. destruct (connection (ep a)); [|split; [done|by split; auto]].
    destruct (Sound_pump_quiet (set_link true true) subs psubs hd0 a) as [? Hgr]; [by apply quiet_id|done|]. split; [done|]. by apply Grows_effects.
  - apply (Hmore OpDetach); [done|]. cbn [perform]. unfold detached.
    destruct (Sound_quiet (fun e => each_out disarm (set_link false false e)) subs psubs hd0 a) as [? Hgr]; [|done|split; [done|by apply Grows_effects]].
    apply (quiet_comp (set_link false false)); [by apply quiet_id|apply quiet_disarm].
  - apply (Hmore (OpTimer l)); [done|]. cbn [perform]. unfold on_timer.
    destruct (Sound_pump_quiet (fun e => set_out l (rewind (disarm (outLane e l))) e) subs psubs hd0 a) as [? Hgr]; [|done|split; [done|by apply Grows_effects]].
    apply (quiet_set_out l (fun o => rewind (disarm o))). split; [done|by right].
  - apply (Hmore (OpSettle l)); [done|]. destruct (Sound_settle l _ _ _ _ Hs Hop) as [? Hgr]. split; [done|]. by apply Grows_effects.
Qed.

(** ** The invariant of the network *)

Record NetOk (n : Net) : Prop := {
  no_sound s : Sound (submitted n s) (submitted n (peer s)) (handed n s) (mkAct (node n s) 0 []);
  no_wire s p : p ∈ wire n s -> packet_ok (submitted n s) (node n s) p;
  no_received s l : received (inLane (node n s) l) < nextSeq (outLane (node n (peer s)) l);
  no_acked s l : acked (outLane (node n s) l) <= delivered (inLane (node n (peer s)) l) }.

(** Its parts for one lane. *)
Lemma net_out n s l : NetOk n -> OutOk (closed (node n s)) (submitted n s l) (outLane (node n s) l).
Proof. intros Hok. apply (g_out _ _ _ _ _ (so_good _ _ _ _ (no_sound _ Hok s))). Qed.

Lemma net_in n s l : NetOk n -> InOk (closed (node n s)) (busy (inLane (node n s) l)) (submitted n (peer s) l) (handed n s l) (inLane (node n s) l).
Proof.
  intros Hok. pose proof (g_in _ _ _ _ _ (so_good _ _ _ _ (no_sound _ Hok s)) l) as Hin. cbn [outs ep] in Hin.
  change (handed_on l []) with (@nil bytes) in Hin. rewrite app_nil_r in Hin. exact Hin.
Qed.

Lemma net_drained n s l : NetOk n -> drained (node n s) l.
Proof. intros Hok. apply (so_drained _ _ _ _ (no_sound _ Hok s)). Qed.

Lemma peer_peer s : peer (peer s) = s.
Proof. by destruct s. Qed.
Lemma peer_ne s : peer s <> s.
Proof. by destruct s. Qed.
Lemma side_cases s s' : s' = s \/ s' = peer s.
Proof. destruct s, s'; auto. Qed.

Lemma upd_same {A} (f : Side -> A) s v : upd f s v s = v.
Proof. unfold upd. by rewrite decide_True. Qed.
Lemma upd_peer {A} (f : Side -> A) s v : upd f s v (peer s) = f (peer s).
Proof. unfold upd. rewrite decide_False; [done|apply peer_ne]. Qed.

Lemma Sound_flush subs psubs hd0 a q : Sound subs psubs hd0 a -> Sound subs psubs (fun l => hd0 l ++ handed_on l (outs a)) (mkAct (ep a) q []).
Proof.
  intros [[Go Gi Gs] Hd]. split; [split; [exact Go| |by intros p ?%elem_of_nil]|exact Hd]. intros l. cbn. rewrite app_nil_r. apply Gi.
Qed.

Lemma Sound_quota subs psubs hd0 e q q' : Sound subs psubs hd0 (mkAct e q []) -> Sound subs psubs hd0 (mkAct e q' []).
Proof. intros [[Go Gi Gs] Hd]. exact (Build_Sound _ _ _ (mkAct e q' []) (Build_Good _ _ _ _ (mkAct e q' []) Go Gi Gs) Hd). Qed.

Lemma Sound_peer_more subs psubs psubs' hd0 e q :
  (forall l, psubs l `prefix_of` psubs' l) -> Sound subs psubs hd0 (mkAct e q []) -> Sound subs psubs' hd0 (mkAct e q []).
Proof.
  intros Hp [[Go Gi Gs] Hd]. split; [split; [exact Go| |exact Gs]|exact Hd]. intros l. destruct (Gi l) as [H1 H2 H3]. split; [exact H1|by etrans|].
  intros Hc. destruct (H3 Hc) as [Hs Hl]. split; [|exact Hl]. rewrite Hs. destruct (Hp l) as [k ->].
  apply (f_equal length) in Hs. rewrite length_take, length_app in Hs. rewrite take_app_le; [done|]. unfold blen in *. lia.
Qed.

(** An enabled operation keeps its side sound. *)
Lemma step_sound n s op quota : NetOk n -> enabled n s op ->
  Sound (more (submitted n s) op) (submitted n (peer s)) (handed n s) (perform op (mkAct (node n s) quota [])) /\
  Effects op (node n s) (ep (perform op (mkAct (node n s) quota []))).
Proof.
  intros [Hs Hw Hr Ha] Hen. apply Sound_perform; [by eapply Sound_quota|].
  destruct op as [| | | |[l q x|l q]| | | |]; try done; destruct Hen as [Hin Hmax]; apply Hw in Hin; cbn in *; [|lia]. split; [lia|apply Hin].
Qed.

Lemma NetOk_step n n' : NetOk n -> net_step n n' -> NetOk n'.
Proof.
  intros Hok [s op quota Hen]. destruct (step_sound n s op quota Hok Hen) as [Hs' [En Ea Ed Er]]. destruct Hok as [Hs Hw Hr Ha].
  set (a := perform op (mkAct (node n s) quota [])) in *.
  assert (forall q l, op = OpReceive (Ack l q) -> q <= delivered (inLane (node n (peer s)) l)) as Hack.
  { intros q l ->. destruct Hen as [Hin _]. apply Hw in Hin. cbn in Hin. lia. }
  assert (forall q l x, op = OpReceive (Data l q x) -> q < nextSeq (outLane (node n (peer s)) l)) as Hdata.
  { intros q l x ->. destruct Hen as [Hin _]. apply Hw in Hin. cbn in Hin. lia. }
  unfold apply_op. fold a. split; intros s'; cbn [node wire submitted handed]; destruct (side_cases s s') as [->| ->]; rewrite ?peer_peer, ?upd_same, ?upd_peer.
  - by apply Sound_flush.
  - eapply Sound_peer_more, Hs. intros l. rewrite peer_peer. apply more_prefix.
  - intros p [Hin|Hin]%elem_of_app; [|by apply (g_sent _ _ _ _ _ (so_good _ _ _ _ Hs'))].
    eapply packet_ok_mono; [apply more_prefix|exact En|exact Ed|by apply Hw].
  - apply Hw.
  - intros l. destruct (Er l) as [->|[x Hx]]; [apply Hr|by eapply Hdata].
  - intros l. specialize (Hr (peer s) l). rewrite peer_peer in Hr. specialize (En l). lia.
  - intros l. destruct (Ea l) as [->|Hx]; [apply Ha|by apply Hack].
  - intros l. specialize (Ha (peer s) l). rewrite peer_peer in Ha. specialize (Ed l). lia.
Qed.

Lemma start_ok_net : NetOk start.
Proof.
  split; intros s.
  - split; [split|]; cbn.
    + intros l. split; [split; cbn; [lia|unfold blen; cbn; lia| |lia]|done|done].
      intros q. rewrite lookup_empty. destruct (Z.ltb_spec 0 q), (Z.ltb_spec q 1); cbn; try done; lia.
    + intros l. split; cbn; [by unfold blen|done|by split].
    + by intros p ?%elem_of_nil.
    + done.
  - by intros p ?%elem_of_nil.
  - done.
  - done.
Qed.

Lemma reachable_ok n : reachable n -> NetOk n.
Proof.
  intros Hr. refine (rtc_ind_r NetOk start _ _ n Hr); [apply start_ok_net|]. intros n1 n2 _ Hstep Hok. by eapply NetOk_step.
Qed.
End Net.
