(* ===== verification/TransportRuns.v ===== *)
(** * Runs of the transport

The properties of two endpoints and their carrier: exactly-once delivery in order,
the send window, and that whatever was sent can still be delivered. *)
From S2P Require Import Prelude JsObject JsMap JsNumber Transport TransportLemmas TransportCorrect.
#[local] Open Scope Z_scope.

Section Runs.
Context (window : Z).

(** ** What operations do *)

(** What taking a frame leaves alone. *)
Definition keeps_counts (lane : jstring) (a a' : Act) : Prop :=
  delivered (inLane (ep a') lane) = delivered (inLane (ep a) lane) /\ closed (ep a') = closed (ep a) /\ handler (ep a') = handler (ep a) /\
  (forall l, received (inLane (ep a') l) = received (inLane (ep a) l)).

Lemma take_frame_counts lane a : keeps_counts lane a (take_frame lane a).
Proof.
  assert (forall b ib os, keeps_counts lane a
    (put_out os (on_ep (set_in lane (mkIn (received (inLane (ep a) lane)) (delivered (inLane (ep a) lane)) b ib)) a))) as Hset.
  { intros b ib os. split_and!; cbn [ep put_out on_ep]; try done; [by rewrite inLane_set, decide_True|].
    intros l. rewrite inLane_set. by case_decide; subst. }
  unfold take_frame. destruct (inbox _); [rewrite <- (put_out_nil (on_ep _ a)); apply Hset|].
  destruct (closed (ep a)); [rewrite <- (put_out_nil (on_ep _ a))|]; apply Hset.
Qed.

Lemma pump_in a l : inLane (ep (pump a)) l = inLane (ep a) l.
Proof. unfold inLane. by rewrite (pm_in _ _ (pump_pumped a)). Qed.

Lemma settle_delivered lane a : delivered (inLane (ep (settle lane a)) lane) = delivered (inLane (ep a) lane) + 1.
Proof.
  unfold settle. destruct (take_frame_counts lane (pump (on_ep (fun e => due_add lane (set_in lane (mkIn (received (inLane (ep a) lane))
    (delivered (inLane (ep a) lane) + 1) (busy (inLane (ep a) lane)) (inbox (inLane (ep a) lane))) e)) a))) as [-> _].
  rewrite pump_in. cbn [ep on_ep]. change (inLane (due_add lane ?e) lane) with (inLane e lane). by rewrite inLane_set, decide_True.
Qed.

Lemma deliver_counts lane a : closed (ep (deliver lane a)) = closed (ep a) /\ handler (ep (deliver lane a)) = handler (ep a) /\
  (forall l, received (inLane (ep (deliver lane a)) l) = received (inLane (ep a) l)).
Proof. unfold deliver. destruct (_ || _); [done|]. destruct (take_frame_counts lane a) as (_ & ? & ? & ?). done. Qed.

Lemma onData_received lane x a : received (inLane (ep (onData lane (received (inLane (ep a) lane) + 1) x a)) lane) = received (inLane (ep a) lane) + 1.
Proof.
  unfold onData. rewrite Z.eqb_refl, pump_in. destruct (deliver_counts lane (on_ep (set_in lane (mkIn (received (inLane (ep a) lane) + 1)
    (delivered (inLane (ep a) lane)) (busy (inLane (ep a) lane)) (inbox (inLane (ep a) lane) ++ [x]))) a)) as (_ & _ & ->).
  cbn [ep on_ep]. by rewrite inLane_set, decide_True.
Qed.

Lemma admit_acked lane a l : acked (outLane (ep (admit_lane window lane a)) l) = acked (outLane (ep a) l) /\
  closed (ep (admit_lane window lane a)) = closed (ep a) /\ handler (ep (admit_lane window lane a)) = handler (ep a).
Proof.
  unfold admit_lane. destruct (admit_waiters _ _ _) as [o ps] eqn:He. cbn [ep put_out on_ep]. split; [|done]. rewrite outLane_set. case_decide; [subst l|done].
  assert (forall ws o0 o1 ps1, admit_waiters window o0 ws = (o1, ps1) -> acked o1 = acked o0) as Hacked.
  { induction ws as [|x ws IH]; intros o0 o1 ps1; cbn [admit_waiters]; [by intros [= <- <-]|]. destruct (_ <? _); [|by intros [= <- <-]].
    destruct (admit_waiters _ _ ws) as [o2 ps2] eqn:He2. intros [= <- <-]. by apply IH in He2. }
  by eapply Hacked.
Qed.

Lemma pump_acked a l : acked (outLane (ep (pump a)) l) = acked (outLane (ep a) l).
Proof. by destruct (pm_out _ _ (pump_pumped a) l) as ((_ & -> & _) & _). Qed.

Lemma onAck_acked lane seq a : acked (outLane (ep a) lane) < seq < nextSeq (outLane (ep a) lane) -> 0 <= acked (outLane (ep a) lane) ->
  acked (outLane (ep (onAck window lane seq a)) lane) = seq.
Proof.
  intros Hseq Hpos. unfold onAck. destruct (map_get (outLanes (ep a)) lane) as [o|] eqn:Hget.
  2: { unfold outLane in Hseq. rewrite Hget in Hseq. cbn in Hseq. lia. }
  assert (outLane (ep a) lane = o) as Ho by (unfold outLane; by rewrite Hget). rewrite Ho in Hseq.
  destruct (Z.leb_spec seq (acked o)), (Z.leb_spec (nextSeq o) seq); cbn [orb]; try lia.
  rewrite pump_acked. rewrite (proj1 (admit_acked lane _ lane)). cbn [ep on_ep]. by rewrite outLane_set, decide_True.
Qed.

(** Operations other than [close] keep an endpoint open, and all keep its handler. *)
Lemma perform_flags op a : op <> OpClose -> closed (ep a) = false ->
  closed (ep (perform window op a)) = false /\ (handler (ep a) = true -> handler (ep (perform window op a)) = true).
Proof.
  intros Hop Hc. assert (forall a', closed (ep (pump a')) = closed (ep a') /\ handler (ep (pump a')) = handler (ep a')) as Hpump.
  { intros a'. split; [apply (pm_closed _ _ (pump_pumped a'))|apply (pm_handler _ _ (pump_pumped a'))]. }
  destruct op as [l x| | | |p| | |l|l]; cbn [perform]; [| |done|..].
  - unfold send. rewrite Hc. rewrite (proj1 (Hpump _)), (proj2 (Hpump _)). by match goal with |- context [admit_lane window l ?b] => destruct (admit_acked l b l) as (_ & -> & ->) end.
  - unfold onFrame. assert (forall ls a', closed (ep (foldl (fun a lane => deliver lane a) a' ls)) = closed (ep a') /\
      handler (ep (foldl (fun a lane => deliver lane a) a' ls)) = handler (ep a')) as Hf.
    { induction ls as [|k ls IH]; intros a'; [done|]. cbn [foldl]. destruct (IH (deliver k a')) as [-> ->]. by destruct (deliver_counts k a') as (-> & -> & _). }
    destruct (Hf (inLanes (ep a)).*1 (on_ep set_handler a)) as [-> ->]. done.
  - unfold attached. rewrite Hc, (proj1 (Hpump _)), (proj2 (Hpump _)). cbn [ep on_ep].
    destruct (quiet_reattach (ep a)) as (_ & -> & -> & _). done.
  - unfold message. destruct (isReferencePacket _) as [[l q x|l q]|]; [| |done].
    + unfold onData. rewrite (proj1 (Hpump _)), (proj2 (Hpump _)). destruct (_ =? _); [|done].
      by destruct (deliver_counts l (on_ep (set_in l (mkIn q (delivered (inLane (ep a) l)) (busy (inLane (ep a) l)) (inbox (inLane (ep a) l) ++ [x]))) a)) as (-> & -> & _).
    + unfold onAck. destruct (map_get _ _) as [o|]; [|done]. destruct (_ || _); [done|]. rewrite (proj1 (Hpump _)), (proj2 (Hpump _)).
      by match goal with |- context [admit_lane window l ?b] => destruct (admit_acked l b l) as (_ & -> & ->) end.
  - unfold on_writable. destruct (connection _); [|done]. by rewrite (proj1 (Hpump _)), (proj2 (Hpump _)).
  - done.
  - unfold on_timer. by rewrite (proj1 (Hpump _)), (proj2 (Hpump _)).
  - unfold settle. match goal with |- context [take_frame l ?b] => destruct (take_frame_counts l b) as (_ & -> & -> & _) end.
    by rewrite (proj1 (Hpump _)), (proj2 (Hpump _)).
Qed.

(** ** Re-attaching *)

Lemma elem_of_sent_packets p os : p ∈ sent_packets os <-> Sent p ∈ os.
Proof.
  unfold sent_packets. rewrite list_elem_of_omap. split.
  - intros ([] & Hin & Ho); simplify_eq; done.
  - intros Hin. by exists (Sent p).
Qed.

Lemma due_add_mono l l' e : l ∈ ackDue e -> l ∈ ackDue (due_add l' e).
Proof. unfold due_add. cbn. case_bool_decide; [done|]. set_solver. Qed.

Lemma due_add_in l e : l ∈ ackDue (due_add l e).
Proof. unfold due_add. cbn. case_bool_decide; [done|]. set_solver. Qed.

Lemma add_due_in lanes e l : l ∈ ackDue e \/ (exists i, (l, i) ∈ lanes /\ 0 < delivered i) -> l ∈ ackDue (add_due e lanes).
Proof.
  revert e. induction lanes as [|[k i] lanes IH]; intros e Hl.
  - destruct Hl as [?|(i & Hi & _)]; [done|by apply elem_of_nil in Hi].
  - change (add_due e ((k, i) :: lanes)) with (add_due (if 0 <? delivered i then due_add k e else e) lanes). apply IH.
    destruct Hl as [Hl|(i' & [Heq|Hin]%elem_of_cons & Hd)]; [left|injection Heq as -> ->; left|right; by eexists].
    + destruct (0 <? _); [by apply due_add_mono|done].
    + destruct (Z.ltb_spec 0 (delivered i)); [apply due_add_in|lia].
Qed.

Lemma reattach_lane e l : outLane (reattach e) l = disarm (rewind (outLane e l)) /\ inLane (reattach e) l = inLane e l.
Proof.
  unfold reattach. cbn zeta. rewrite outLane_each by done. set (e1 := each_out rewind _).
  destruct (add_due_same e1 (inLanes e1)) as (Ho & Hi & _). split.
  - unfold outLane at 1. rewrite Ho. change (default fresh_out (map_get (outLanes e1) l)) with (outLane e1 l). subst e1. by rewrite outLane_each.
  - unfold inLane. cbn [each_out inLanes]. by rewrite Hi.
Qed.

(** A new connection that takes everything carries what was delivered and all that is not acknowledged. *)
Lemma attached_sends a subs : closed (ep a) = false -> (pump_cost (reattach (ep a)) <= quota a)%nat ->
  (forall l, 0 < delivered (inLane (ep a) l) -> Ack l (delivered (inLane (ep a) l)) ∈ sent_packets (outs (attached a))) /\
  (forall l q x, OutCore window subs (outLane (ep a) l) -> outbox (outLane (ep a) l) !! q = Some x -> Data l q x ∈ sent_packets (outs (attached a))).
Proof.
  intros Hc Hq. unfold attached. rewrite Hc. set (a1 := on_ep reattach a).
  assert (connection (ep a1) = true /\ writable (ep a1) = true) as [Hcon Hwr].
  { subst a1. cbn [ep on_ep]. unfold reattach. cbn zeta. set (e1 := each_out rewind _).
    destruct (add_due_same e1 (inLanes e1)) as (_ & _ & _ & _ & H1 & H2). cbn [each_out connection writable]. by rewrite H1, H2. }
  destruct (pump_complete a1 Hcon Hwr) as [Ha Hd]; [done|]. split.
  - intros l Hl. apply elem_of_sent_packets. rewrite <- (proj2 (reattach_lane (ep a) l)). apply Ha.
    cbn [ep on_ep a1]. unfold reattach. cbn zeta. apply add_due_in. right. unfold inLane in Hl.
    destruct (map_get (inLanes (ep a)) l) as [i|] eqn:Hget; cbn in Hl; [|lia]. exists i. split; [|done].
    unfold map_get in Hget. rewrite obj_get_map in Hget. by apply elem_of_list_to_map_2 in Hget.
  - intros l q x Hcore Hx. apply elem_of_sent_packets. destruct (reattach_lane (ep a) l) as [Hl _].
    apply (box_spec _ _ _ _ _ Hcore) in Hx as Hb. apply Hd; cbn [ep on_ep a1]; rewrite Hl; cbn [transmitted outbox disarm rewind]; [lia|done|].
    intros k Hk. destruct (subs !! Z.to_nat (k - 1)) as [y|] eqn:Hy.
    + exists y. apply (box_spec _ _ _ _ _ Hcore). split; [lia|done].
    + apply lookup_ge_None in Hy. destruct Hb as [_ Hb%lookup_lt_Some]. lia.
Qed.

(** ** Progress of one lane *)

(** Both ends open, the receiver with a handler, and the numbers exact. *)
Record Live (n : Net) (s : Side) (l : jstring) : Prop := {
  lv_open s' : closed (node n s') = false;
  lv_handler : handler (node n (peer s)) = true;
  lv_exact : blen (submitted n s l) <= MAX_SAFE_INTEGER }.

(** Nothing was submitted in between. *)
Definition same_load (n n' : Net) : Prop := forall s l, submitted n' s l = submitted n s l.

Lemma step_keeps n s op quota s0 l0 :
  (forall l, submits op l = []) -> op <> OpClose -> Live n s0 l0 ->
  Live (apply_op window n s op quota) s0 l0 /\ same_load n (apply_op window n s op quota).
Proof.
  intros Hsub Hop [Ho Hh Hx]. assert (same_load n (apply_op window n s op quota)) as Hload.
  { intros s' l. cbn. destruct (side_cases s s') as [->| ->]; rewrite ?upd_same, ?upd_peer; [|done]. by rewrite Hsub, app_nil_r. }
  split; [|done]. destruct (perform_flags op (mkAct (node n s) quota []) Hop (Ho s)) as [Hc Hh']. split.
  - intros s'. cbn. destruct (side_cases s s') as [->| ->]; rewrite ?upd_same, ?upd_peer; [done|apply Ho].
  - cbn. destruct (side_cases s (peer s0)) as [Heq|Heq]; rewrite Heq in *; rewrite ?upd_same, ?upd_peer; [by apply Hh'|done].
  - rewrite Hload. exact Hx.
Qed.

(** A network reached from another without new load, both sound and able to go on. *)
Record Goes (s : Side) (l : jstring) (n n' : Net) : Prop := {
  go_steps : rtc (net_step window) n n';
  go_ok : NetOk window n';
  go_live : Live n' s l;
  go_load : same_load n n' }.

Lemma Goes_refl s l n : NetOk window n -> Live n s l -> Goes s l n n.
Proof. intros. by split. Qed.

Lemma Goes_trans s l n n' n'' : Goes s l n n' -> Goes s l n' n'' -> Goes s l n n''.
Proof. intros [H1 _ _ H2] [H3 H4 H5 H6]. split; [by etrans|done|done|]. intros s' l'. by rewrite H6, H2. Qed.

Lemma Goes_step s l n s' op quota : NetOk window n -> Live n s l -> enabled n s' op -> (forall l, submits op l = []) -> op <> OpClose ->
  Goes s l n (apply_op window n s' op quota).
Proof.
  intros Hok Hl Hen Hsub Hop. destruct (step_keeps n s' op quota s l Hsub Hop Hl) as [Hl' Hload].
  assert (net_step window n (apply_op window n s' op quota)) as Hst by (by constructor).
  split; [by apply rtc_once|by eapply NetOk_step|done|done].
Qed.

Lemma wire_of n s op quota p : p ∈ sent_packets (outs (perform window op (mkAct (node n s) quota []))) -> p ∈ wire (apply_op window n s op quota) s.
Proof. intros Hp. cbn. rewrite upd_same. apply elem_of_app. by right. Qed.

Lemma attached_in a l : inLane (ep (attached a)) l = inLane (ep a) l.
Proof. unfold attached. destruct (closed (ep a)); [done|]. rewrite pump_in. apply reattach_lane. Qed.

(** The receiver re-attaches and its acknowledgement arrives. *)
Lemma bring_ack n s l : NetOk window n -> Live n s l ->
  exists n', Goes s l n n' /\ acked (outLane (node n' s) l) = delivered (inLane (node n (peer s)) l) /\
    forall l', inLane (node n' (peer s)) l' = inLane (node n (peer s)) l'.
Proof.
  intros Hok Hl. set (h := delivered (inLane (node n (peer s)) l)).
  pose proof (oo_core _ _ _ _ (net_out _ _ s l Hok)) as Hcore. pose proof (io_count _ _ _ _ _ (net_in _ _ (peer s) l Hok)) as Hcnt.
  pose proof (no_acked _ _ Hok s l) as Hack. fold h in Hack, Hcnt. pose proof (oo_seq _ _ _ Hcore) as Hseq.
  destruct (decide (acked (outLane (node n s) l) = h)) as [Heq|Hne]; [exists n; split_and!; [by apply Goes_refl|done|done]|].
  set (q1 := pump_cost (reattach (node n (peer s)))). set (n1 := apply_op window n (peer s) OpAttach q1).
  assert (Goes s l n n1) as H1 by (by apply Goes_step).
  assert (Ack l h ∈ wire n1 (peer s)) as Hin.
  { apply wire_of. destruct (attached_sends (mkAct (node n (peer s)) q1 []) []) as [Ha _]; [apply (lv_open _ _ _ Hl)|done|].
    apply Ha. cbn [ep]. fold h. lia. }
  assert (node n1 s = node n s) as Hns by (cbn; unfold upd; rewrite decide_False; [done|by destruct s]).
  assert (h < nextSeq (outLane (node n s) l)) as Hlt.
  { pose proof (no_received _ _ Hok (peer s) l) as Hr. rewrite peer_peer in Hr.
    pose proof (io_inbox _ _ _ _ _ (net_in _ _ (peer s) l Hok) (lv_open _ _ _ Hl (peer s))) as [_ Hlen].
    pose proof (blen_nonneg (inbox (inLane (node n (peer s)) l))). destruct (busy _); cbn in Hcnt; lia. }
  assert (enabled n1 s (OpReceive (Ack l h))) as Hen.
  { split; [done|]. cbn [packet_seq]. pose proof (lv_exact _ _ _ Hl). pose proof (oo_len _ _ _ Hcore). lia. }
  set (n2 := apply_op window n1 s (OpReceive (Ack l h)) 0).
  assert (Goes s l n1 n2) as H2 by (apply Goes_step; [apply (go_ok _ _ _ _ H1)|apply (go_live _ _ _ _ H1)|done|done|done]).
  exists n2. split_and!; [by eapply Goes_trans| |].
  - cbn [n2 apply_op node]. rewrite upd_same. cbn [perform]. unfold message. rewrite isReferencePacket_raw by (cbn; destruct Hen as [_ Hen]; cbn in Hen; lia).
    rewrite Hns. apply onAck_acked; cbn [ep]; lia.
  - intros l'. cbn [n2 apply_op node]. rewrite upd_peer. cbn [n1 apply_op node]. rewrite upd_same. apply attached_in.
Qed.

(** With the window free the next frame of the lane is in the outbox. *)
Lemma next_in_outbox n s l : NetOk window n -> Live n s l -> 0 < window -> acked (outLane (node n s) l) = delivered (inLane (node n (peer s)) l) ->
  delivered (inLane (node n (peer s)) l) < nextSeq (outLane (node n s) l) ->
  delivered (inLane (node n (peer s)) l) < blen (submitted n s l) ->
  exists x, outbox (outLane (node n s) l) !! (delivered (inLane (node n (peer s)) l) + 1) = Some x.
Proof.
  intros Hok Hl Hw Ha Hn Hlt. destruct (net_out _ _ s l Hok) as [Hcore Hwait Hfull].
  rewrite (lv_open _ _ _ Hl s) in Hwait. set (h := delivered _) in *. pose proof (oo_seq _ _ _ Hcore).
  assert (h + 1 < nextSeq (outLane (node n s) l)) as Hin.
  { destruct (decide (nextSeq (outLane (node n s) l) = h + 1)) as [Heq|]; [|lia]. rewrite Hwait in Hfull. exfalso.
    assert (window <= 0); [|lia]. replace 0 with (nextSeq (outLane (node n s) l) - 1 - acked (outLane (node n s) l)) by lia. apply Hfull.
    intros Hd%(f_equal length). rewrite length_drop in Hd. cbn in Hd. unfold blen in Hlt. lia. }
  destruct (submitted n s l !! Z.to_nat (h + 1 - 1)) as [x|] eqn:Hx; [exists x; apply (box_spec _ _ _ _ _ Hcore); split; [lia|done]|].
  apply lookup_ge_None in Hx. unfold blen in Hlt. lia.
Qed.

(** A running handler settles. *)
Lemma settle_round n s l : NetOk window n -> Live n s l -> busy (inLane (node n (peer s)) l) = true ->
  exists n', Goes s l n n' /\ delivered (inLane (node n' (peer s)) l) = delivered (inLane (node n (peer s)) l) + 1.
Proof.
  intros Hok Hl Hb. exists (apply_op window n (peer s) (OpSettle l) 0). split; [by apply Goes_step|].
  cbn [apply_op node]. rewrite upd_same. apply settle_delivered.
Qed.

(** One more frame of the lane is delivered. *)
Lemma one_round n s l : NetOk window n -> Live n s l -> 0 < window -> delivered (inLane (node n (peer s)) l) < blen (submitted n s l) ->
  exists n', Goes s l n n' /\ delivered (inLane (node n (peer s)) l) < delivered (inLane (node n' (peer s)) l).
Proof.
  intros Hok Hl Hw Hlt. set (h := delivered (inLane (node n (peer s)) l)) in *.
  assert (forall n', NetOk window n' -> Live n' s l -> busy (inLane (node n' (peer s)) l) = false ->
    received (inLane (node n' (peer s)) l) = delivered (inLane (node n' (peer s)) l)) as Hidle.
  { intros n' Hok' Hl' Hb. destruct (net_in _ _ (peer s) l Hok') as [Hc _ Hi]. rewrite Hb in Hc. destruct (Hi (lv_open _ _ _ Hl' (peer s))) as [_ Hlen].
    rewrite (net_drained _ _ _ _ Hok' (lv_open _ _ _ Hl' (peer s)) (lv_handler _ _ _ Hl') Hb) in Hlen. cbn in Hc. change (blen (@nil bytes)) with 0 in Hlen. lia. }
  destruct (busy (inLane (node n (peer s)) l)) eqn:Hb.
  { destruct (settle_round n s l Hok Hl Hb) as (n' & Hgo & Hd). exists n'. split; [done|]. subst h. lia. }
  pose proof (Hidle n Hok Hl Hb) as Hrecv. fold h in Hrecv.
  destruct (bring_ack n s l Hok Hl) as (n1 & Hgo1 & Hack & Hin1). fold h in Hack.
  assert (delivered (inLane (node n1 (peer s)) l) = h /\ received (inLane (node n1 (peer s)) l) = h) as [Hd1 Hr1] by (by rewrite Hin1).
  pose proof (no_received _ _ (go_ok _ _ _ _ Hgo1) (peer s) l) as Hn1. rewrite peer_peer, Hr1 in Hn1.
  destruct (next_in_outbox n1 s l) as [x Hx]; rewrite ?Hd1, ?(go_load _ _ _ _ Hgo1 s l); [apply (go_ok _ _ _ _ Hgo1)|apply (go_live _ _ _ _ Hgo1)|done..|]. rewrite Hd1 in Hx.
  set (q2 := pump_cost (reattach (node n1 s))). set (n2 := apply_op window n1 s OpAttach q2).
  assert (Goes s l n1 n2) as Hgo2 by (apply Goes_step; [apply (go_ok _ _ _ _ Hgo1)|apply (go_live _ _ _ _ Hgo1)|done|done|done]).
  pose proof (oo_core _ _ _ _ (net_out _ _ s l (go_ok _ _ _ _ Hgo1))) as Hcore.
  assert (Data l (h + 1) x ∈ wire n2 s) as Hwire.
  { apply wire_of. destruct (attached_sends (mkAct (node n1 s) q2 []) (submitted n1 s l)) as [_ Hs]; [apply (lv_open _ _ _ (go_live _ _ _ _ Hgo1))|done|]. by apply Hs. }
  assert (node n2 (peer s) = node n1 (peer s)) as Hnp by (cbn; by rewrite upd_peer).
  assert (enabled n2 (peer s) (OpReceive (Data l (h + 1) x))) as Hen.
  { split; [by rewrite peer_peer|]. cbn [packet_seq]. apply (box_spec _ _ _ _ _ Hcore) in Hx as [Hq _]. pose proof (oo_len _ _ _ Hcore).
    pose proof (lv_exact _ _ _ (go_live _ _ _ _ Hgo1)). lia. }
  set (n3 := apply_op window n2 (peer s) (OpReceive (Data l (h + 1) x)) 0).
  assert (Goes s l n2 n3) as Hgo3 by (apply Goes_step; [apply (go_ok _ _ _ _ Hgo2)|apply (go_live _ _ _ _ Hgo2)|done|done|done]).
  assert (Goes s l n n3) as Hgo by (by eapply Goes_trans, Goes_trans).
  assert (received (inLane (node n3 (peer s)) l) = h + 1) as Hr3.
  { cbn [n3 apply_op node]. rewrite upd_same. cbn [perform]. unfold message. destruct Hen as [_ Hmax]. cbn [packet_seq] in Hmax.
    pose proof (io_count _ _ _ _ _ (net_in _ _ (peer s) l Hok)) as Hc. fold h in Hc.
    rewrite isReferencePacket_raw by (cbn; lia). pose proof (onData_received l x (mkAct (node n2 (peer s)) 0 [])) as Ho.
    assert (received (inLane (node n2 (peer s)) l) = h) as Hr2 by (by rewrite Hnp). cbn [ep] in Ho. rewrite Hr2 in Ho. exact Ho. }
  destruct (busy (inLane (node n3 (peer s)) l)) eqn:Hb3.
  - destruct (settle_round n3 s l (go_ok _ _ _ _ Hgo3) (go_live _ _ _ _ Hgo3) Hb3) as (n4 & Hgo4 & Hd4). exists n4. split; [by eapply Goes_trans|].
    rewrite Hd4.
    destruct (step_sound window n2 (peer s) (OpReceive (Data l (h + 1) x)) 0 (go_ok _ _ _ _ Hgo2) Hen) as [_ He].
    assert (node n3 (peer s) = ep (perform window (OpReceive (Data l (h + 1) x)) (mkAct (node n2 (peer s)) 0 []))) as Hn3 by apply upd_same.
    rewrite <- Hn3 in He. pose proof (ef_delivered _ _ _ He l) as Hmono. rewrite Hnp, Hd1 in Hmono. lia.
  - exists n3. split; [done|]. rewrite <- (Hidle n3 (go_ok _ _ _ _ Hgo3) (go_live _ _ _ _ Hgo3) Hb3), Hr3. lia.
Qed.

(** ** Properties *)

(** C33. Frames arrive exactly once and in order.  Whatever the carrier does, what a
receiver's handler was given on a lane is at every moment a beginning of what was
sent on it; every frame given to the handler but the one it is working on has
settled; and a frame is acknowledged only after its handler settled.  A step never
takes a frame back. *)
Theorem frames_once_in_order n s l :
  reachable window n ->
  handed n (peer s) l `prefix_of` submitted n s l /\
  acked (outLane (node n s) l) <= delivered (inLane (node n (peer s)) l) /\
  blen (handed n (peer s) l) = delivered (inLane (node n (peer s)) l) + Z.b2z (busy (inLane (node n (peer s)) l)) /\
  forall n', net_step window n n' -> handed n s l `prefix_of` handed n' s l.
Proof.
  intros Hn. apply reachable_ok in Hn as Hok. destruct (net_in _ _ (peer s) l Hok) as [Hc Hp _]. rewrite peer_peer in Hp. split_and!.
  - done.
  - apply (no_acked _ _ Hok).
  - lia.
  - intros n' [s' op quota _]. cbn. destruct (side_cases s' s) as [->| ->]; rewrite ?upd_same, ?upd_peer; [by eexists|done].
Qed.

(** C34. Backpressure is per lane.  A lane never has more frames in flight than its
window; while the endpoint is open what was sent on a lane is what the receiver
acknowledged, then the frames in flight, which are the contents of its outbox, and
then the waiting ones; and a sender waits only while its own lane's window is full. *)
Theorem window_respected n s l :
  reachable window n -> 0 <= window ->
  0 <= inFlight (node n s) l <= window /\
  (closed (node n s) = false ->
     submitted n s l = take (Z.to_nat (acked (outLane (node n s) l) + inFlight (node n s) l)) (submitted n s l) ++ waiters (outLane (node n s) l) /\
     (forall q, outbox (outLane (node n s) l) !! q =
        if bool_decide (acked (outLane (node n s) l) < q <= acked (outLane (node n s) l) + inFlight (node n s) l) then submitted n s l !! Z.to_nat (q - 1) else None) /\
     (waiters (outLane (node n s) l) <> [] -> inFlight (node n s) l = window)).
Proof.
  intros Hn Hw. apply reachable_ok in Hn as Hok. destruct (net_out _ _ s l Hok) as [[H1 H2 H3 H4] H5 H6].
  assert (inFlight (node n s) l = nextSeq (outLane (node n s) l) - 1 - acked (outLane (node n s) l)) as Hfl.
  { unfold inFlight, outLane. by destruct (map_get _ _). }
  rewrite Hfl. split; [lia|]. intros Hc. rewrite Hc in H5. split_and!.
  - rewrite H5. replace (acked (outLane (node n s) l) + (nextSeq (outLane (node n s) l) - 1 - acked (outLane (node n s) l))) with (nextSeq (outLane (node n s) l) - 1) by lia.
    by rewrite take_drop.
  - intros q. rewrite H3. case_bool_decide; destruct (Z.ltb_spec (acked (outLane (node n s) l)) q), (Z.ltb_spec q (nextSeq (outLane (node n s) l))); cbn; done || lia.
  - intros Hne%H6. lia.
Qed.

(** The lane can be brought to its end. *)
Lemma all_rounds n s l : NetOk window n -> Live n s l -> 0 < window ->
  exists n', Goes s l n n' /\ delivered (inLane (node n' (peer s)) l) = blen (submitted n s l).
Proof.
  intros Hok Hl Hw. remember (Z.to_nat (blen (submitted n s l) - delivered (inLane (node n (peer s)) l))) as k eqn:Hk.
  revert n Hok Hl Hk. induction (lt_wf k) as [k _ IH]. intros n Hok Hl ->.
  assert (delivered (inLane (node n (peer s)) l) <= blen (submitted n s l)) as Hle.
  { destruct (net_in _ _ (peer s) l Hok) as [Hc Hp _]. rewrite peer_peer in Hp. apply prefix_length in Hp. unfold blen in *. destruct (busy _); cbn in Hc; lia. }
  destruct (decide (delivered (inLane (node n (peer s)) l) = blen (submitted n s l))) as [Heq|Hne]; [exists n; split; [by apply Goes_refl|done]|].
  destruct (one_round n s l Hok Hl Hw) as (n1 & Hgo1 & Hlt); [lia|].
  destruct (IH (Z.to_nat (blen (submitted n1 s l) - delivered (inLane (node n1 (peer s)) l)))) with (n := n1) as (n2 & Hgo2 & Hd);
    [|apply (go_ok _ _ _ _ Hgo1)|apply (go_live _ _ _ _ Hgo1)|done|].
  - rewrite (go_load _ _ _ _ Hgo1). lia.
  - exists n2. split; [by eapply Goes_trans|]. by rewrite Hd, (go_load _ _ _ _ Hgo1).
Qed.

(** C35. Nothing is stuck.  From every state the two endpoints can reach, while both
are open and the receiver has a handler, there is a way, without anything more
being sent, to a state in which the handler was given all that was sent on a lane
and the sender knows it: re-attaching and taking what is sent suffices, whatever
was lost before. *)
Theorem transport_delivers n s l :
  reachable window n -> 0 < window -> (forall s', closed (node n s') = false) -> handler (node n (peer s)) = true -> blen (submitted n s l) <= MAX_SAFE_INTEGER ->
  exists n', rtc (net_step window) n n' /\ (forall s' l', submitted n' s' l' = submitted n s' l') /\
    handed n' (peer s) l = submitted n s l /\ inFlight (node n' s) l = 0 /\ waiters (outLane (node n' s) l) = [].
Proof.
  intros Hn Hw Hc Hh Hx. apply reachable_ok in Hn as Hok. assert (Live n s l) as Hl by (by split).
  destruct (all_rounds n s l Hok Hl Hw) as (n1 & Hgo1 & Hd1). destruct (bring_ack n1 s l) as (n2 & Hgo2 & Ha & Hi); [apply (go_ok _ _ _ _ Hgo1)|apply (go_live _ _ _ _ Hgo1)|].
  assert (Goes s l n n2) as [Hsteps Hok2 Hl2 Hload] by (by eapply Goes_trans). exists n2. split; [done|]. split; [done|].
  destruct (net_in _ _ (peer s) l Hok2) as [Hcnt Hp _]. rewrite peer_peer, Hload in Hp. rewrite Hi, Hd1 in Hcnt. apply prefix_length in Hp as Hlen.
  destruct (net_out _ _ s l Hok2) as [[Hseq Hnlen _ _] Hwait _]. rewrite (lv_open _ _ _ Hl2), Hload in Hwait. rewrite Hload in Hnlen. rewrite Ha, Hd1 in Hseq. split_and!.
  - apply prefix_length_eq; [done|]. unfold blen in Hcnt. destruct (busy _); cbn in Hcnt; lia.
  - unfold inFlight. unfold outLane in Hseq, Hnlen, Ha. destruct (map_get (outLanes (node n2 s)) l) as [o|]; [|done]. cbn in Hseq, Hnlen, Ha. lia.
  - rewrite Hwait. apply drop_ge. unfold blen in *. lia.
Qed.
End Runs.

(** ** A run with losses *)

#[export] Instance packet_eq_dec : EqDecision ReferencePacket.
Proof. solve_decision. Defined.

Definition can (n : Net) (s : Side) (op : Op) : bool :=
  match op with
  | OpReceive p => bool_decide (p ∈ wire n (peer s)) && (packet_seq p <=? MAX_SAFE_INTEGER)
  | OpTimer l => armed (outLane (node n s) l)
  | OpSettle l => busy (inLane (node n s) l)
  | _ => true
  end.

Lemma can_enabled n s op : can n s op = true -> enabled n s op.
Proof. destruct op; cbn; try done. rewrite andb_true_iff, bool_decide_eq_true. intros [? ?]. split; [done|lia]. Qed.

(** The network after some operations, if each could happen. *)
Fixpoint play (window : Z) (n : Net) (ops : list (Side * Op * nat)) : option Net :=
  match ops with
  | [] => Some n
  | (s, op, quota) :: ops => if can n s op then play window (apply_op window n s op quota) ops else None
  end.

Lemma play_reaches window n ops n' : play window n ops = Some n' -> rtc (net_step window) n n'.
Proof.
  revert n. induction ops as [|[[s op] quota] ops IH]; intros n; cbn; [by intros [= <-]|].
  destruct (can n s op) eqn:Hc; [|done]. intros Hp. eapply rtc_l; [constructor; by apply can_enabled|by apply IH].
Qed.

(** What holds of a network that could be reached. *)
Definition after (window : Z) (ops : list (Side * Op * nat)) : Net := default start (play window start ops).

Lemma after_reachable window ops : bool_decide (is_Some (play window start ops)) = true -> reachable window (after window ops).
Proof. intros [n Hn]%bool_decide_eq_true. unfold after. rewrite Hn. by eapply play_reaches. Qed.

Module TransportSample.
(** Three frames with a window of two; the first message is lost with its connection,
    the second connection takes two messages, and the second frame comes first. *)
Definition lane : jstring := $"scope".
Definition ops : list (Side * Op * nat) :=
  [(Near, OpSend lane [1], 0%nat); (Near, OpSend lane [2], 0%nat); (Near, OpSend lane [3], 0%nat); (Far, OpOnFrame, 0%nat);
   (Near, OpAttach, 1%nat); (Near, OpDetach, 0%nat); (Near, OpAttach, 2%nat); (Far, OpReceive (Data lane 2 [2]), 0%nat);
   (Far, OpReceive (Data lane 1 [1]), 0%nat); (Far, OpReceive (Data lane 1 [1]), 0%nat); (Far, OpReceive (Data lane 2 [2]), 0%nat);
   (Far, OpSettle lane, 0%nat); (Far, OpAttach, 5%nat); (Near, OpReceive (Ack lane 1), 0%nat)].
Definition net : Net := after 2 ops.
End TransportSample.

Example sample_delivery :
  let n := TransportSample.net in
  handed n Far TransportSample.lane = [[1]; [2]] /\ inFlight (node n Near) TransportSample.lane = 2 /\
  waiters (outLane (node n Near) TransportSample.lane) = [] /\ delivered (inLane (node n Far) TransportSample.lane) = 1.
Proof. vm_compute. done. Qed.

Lemma frames_once_in_order_witness :
  handed TransportSample.net (peer Near) TransportSample.lane `prefix_of` submitted TransportSample.net Near TransportSample.lane /\
  acked (outLane (node TransportSample.net Near) TransportSample.lane) <= delivered (inLane (node TransportSample.net (peer Near)) TransportSample.lane) /\
  blen (handed TransportSample.net (peer Near) TransportSample.lane) = delivered (inLane (node TransportSample.net (peer Near)) TransportSample.lane) +
    Z.b2z (busy (inLane (node TransportSample.net (peer Near)) TransportSample.lane)) /\
  forall n', net_step 2 TransportSample.net n' -> handed TransportSample.net Near TransportSample.lane `prefix_of` handed n' Near TransportSample.lane.
Proof. apply (frames_once_in_order 2 TransportSample.net Near TransportSample.lane). apply after_reachable. vm_compute. reflexivity. Defined.

Lemma window_respected_witness :
  let n := TransportSample.net in let l := TransportSample.lane in
  0 <= inFlight (node n Near) l <= 2 /\
  (closed (node n Near) = false ->
     submitted n Near l = take (Z.to_nat (acked (outLane (node n Near) l) + inFlight (node n Near) l)) (submitted n Near l) ++ waiters (outLane (node n Near) l) /\
     (forall q, outbox (outLane (node n Near) l) !! q =
        if bool_decide (acked (outLane (node n Near) l) < q <= acked (outLane (node n Near) l) + inFlight (node n Near) l) then submitted n Near l !! Z.to_nat (q - 1) else None) /\
     (waiters (outLane (node n Near) l) <> [] -> inFlight (node n Near) l = 2)).
Proof. apply (window_respected 2 TransportSample.net Near TransportSample.lane); [apply after_reachable; vm_compute; reflexivity|lia]. Defined.

Lemma transport_delivers_witness :
  exists n', rtc (net_step 2) TransportSample.net n' /\ (forall s' l', submitted n' s' l' = submitted TransportSample.net s' l') /\
    handed n' (peer Near) TransportSample.lane = submitted TransportSample.net Near TransportSample.lane /\
    inFlight (node n' Near) TransportSample.lane = 0 /\ waiters (outLane (node n' Near) TransportSample.lane) = [].
Proof.
  apply (transport_delivers 2 TransportSample.net Near TransportSample.lane).
  - apply after_reachable. vm_compute. reflexivity.
  - lia.
  - intros []; vm_compute; reflexivity.
  - vm_compute. reflexivity.
  - vm_compute. done.
Defined.
