(* ===== verification/Wake.v ===== *)
(** * Durable wakes between a hand and the brain (packages/agent/src/execution: wake-types.ts, wake-outbox.ts, wake-inbox.ts)

A hand keeps the wakes it offers in an outbox until the brain acknowledges them;
the brain commits each one to its inbox before it answers, drops those it has seen,
and hands them to its loop.  Both records are documents of a durable store: an
operation reads the record and commits at most one new one, one operation at a
time (the admission line), so that a crash falls between two of them. *)
From S2P Require Import Prelude JsString JsonText JsNumber JsObject Json.
#[local] Open Scope Z_scope.

Definition WAKE_RETENTION_MS : Z := 7 * 24 * 60 * 60 * 1000.

Record WakeEvent := mkWake { eventId : jstring; wake_scope : jstring; wake_source : jstring; wake_payload : json }.

Inductive WakeRefusal := NotScopeHand | UnknownScope | ScopeClosed.

#[export] Instance refusal_eq_dec : EqDecision WakeRefusal.
Proof. solve_decision. Defined.

Inductive WakeReceipt := WakeAck (id : jstring) (duplicate : bool) | WakeRefused (id : jstring) (reason : WakeRefusal).

Record WakeOutboxRecord := mkOutbox { ob_pending : list WakeEvent; ob_refused : gmap jstring WakeRefusal; ob_closed : gmap jstring Z }.
Record WakeInboxRecord := mkInbox { ib_seen : gmap jstring (list jstring); ib_pending : list WakeEvent; ib_closed : gmap jstring Z }.

Definition empty_outbox : WakeOutboxRecord := mkOutbox [] ∅ ∅.
Definition empty_inbox : WakeInboxRecord := mkInbox ∅ [] ∅.

(** A commit: the step and event it logs, the wakes logged as expired, and the new record. *)
Record Commit (R : Type) := mkCommit { c_step : jstring; c_event : option jstring; c_expired : list WakeEvent; c_record : R }.
Arguments mkCommit {R}. Arguments c_step {R}. Arguments c_event {R}. Arguments c_expired {R}. Arguments c_record {R}.

Definition has_id (id : jstring) (w : WakeEvent) : bool := bool_decide (eventId w = id).
Definition without (id : jstring) (l : list WakeEvent) : list WakeEvent := List.filter (fun w => negb (has_id id w)) l.

(** ** The outbox: what an operation answers and the commit it makes *)

(** [minted]: the identifier the store mints for the wake, behind the hand's name. *)
Definition offer (hand minted : jstring) (scope source : jstring) (payload : json) (r : WakeOutboxRecord) : WakeEvent * option (Commit WakeOutboxRecord) :=
  let event := mkWake (hand ++ $":" ++ minted) scope source payload in
  (event, Some (mkCommit $"offer" (Some (eventId event)) [] (mkOutbox (ob_pending r ++ [event]) (ob_refused r) (ob_closed r)))).

(** The wakes [reoffer] sends, in this order. *)
Definition reoffered (r : WakeOutboxRecord) : list WakeEvent :=
  List.filter (fun w => bool_decide (ob_refused r !! eventId w = None)) (ob_pending r).

Definition receipt (answer : WakeReceipt) (r : WakeOutboxRecord) : option (Commit WakeOutboxRecord) :=
  let id := match answer with WakeAck id _ | WakeRefused id _ => id end in
  if existsb (has_id id) (ob_pending r) then
    match answer with
    | WakeRefused _ reason =>
        if bool_decide (reason = UnknownScope) || bool_decide (ob_refused r !! id = Some reason) then None
        else Some (mkCommit $"refused" (Some id) [] (mkOutbox (ob_pending r) (<[id := reason]> (ob_refused r)) (ob_closed r)))
    | WakeAck _ _ => Some (mkCommit $"ack" (Some id) [] (mkOutbox (without id (ob_pending r)) (delete id (ob_refused r)) (ob_closed r)))
    end
  else None.

Definition closeOutboxScope (now : Z) (scope : jstring) (r : WakeOutboxRecord) : option (Commit WakeOutboxRecord) :=
  match ob_closed r !! scope with
  | Some _ => None
  | None => Some (mkCommit $"close" None [] (mkOutbox (ob_pending r) (ob_refused r) (<[scope := now]> (ob_closed r))))
  end.

(** Closed longer ago than the retention. *)
Definition lapsed (now : Z) (closed : gmap jstring Z) (scope : jstring) : bool :=
  match closed !! scope with Some closedAt => closedAt + WAKE_RETENTION_MS <? now | None => false end.

Definition sweepOutbox (now : Z) (r : WakeOutboxRecord) : list jstring * option (Commit WakeOutboxRecord) :=
  let expired := List.filter (fun w => lapsed now (ob_closed r) (wake_scope w)) (ob_pending r) in
  match expired with
  | [] => ([], None)
  | _ =>
      let gone := eventId <$> expired in
      (gone, Some (mkCommit $"sweep" None expired
        (mkOutbox (List.filter (fun w => negb (bool_decide (eventId w ∈ gone))) (ob_pending r))
           (filter (fun x => x.1 ∉ gone) (ob_refused r)) (ob_closed r))))
  end.

(** ** The inbox *)

(** [owner]: the hand bound to the wake's scope, if this brain owns it. *)
Definition receive (owner : option jstring) (sender : jstring) (w : WakeEvent) (r : WakeInboxRecord) : WakeReceipt * option (Commit WakeInboxRecord) :=
  match owner with
  | None => (WakeRefused (eventId w) UnknownScope, None)
  | Some bound =>
      if negb (bool_decide (bound = sender)) then (WakeRefused (eventId w) NotScopeHand, None)
      else
        let seen := default [] (ib_seen r !! wake_scope w) in
        if bool_decide (eventId w ∈ seen) then (WakeAck (eventId w) true, None)
        else
          match ib_closed r !! wake_scope w with
          | Some _ => (WakeRefused (eventId w) ScopeClosed, None)
          | None =>
              (WakeAck (eventId w) false,
               Some (mkCommit $"commit" (Some (eventId w)) []
                 (mkInbox (<[wake_scope w := seen ++ [eventId w]]> (ib_seen r)) (ib_pending r ++ [w]) (ib_closed r))))
          end
  end.

(** [drain]'s commit after a wake was consumed. *)
Definition take_wake (id : jstring) (r : WakeInboxRecord) : option (Commit WakeInboxRecord) :=
  if existsb (has_id id) (ib_pending r) then Some (mkCommit $"take" (Some id) [] (mkInbox (ib_seen r) (without id (ib_pending r)) (ib_closed r))) else None.

Definition closeInboxScope (now : Z) (scope : jstring) (r : WakeInboxRecord) : option (Commit WakeInboxRecord) :=
  match ib_closed r !! scope with
  | Some _ => None
  | None => Some (mkCommit $"close" None [] (mkInbox (ib_seen r) (ib_pending r) (<[scope := now]> (ib_closed r))))
  end.

(** Whether a sweep forgets the identifiers of a scope. *)
Definition forgets (now : Z) (r : WakeInboxRecord) (scope : jstring) : bool := lapsed now (ib_closed r) scope && bool_decide (is_Some (ib_seen r !! scope)).

Definition sweepInbox (now : Z) (r : WakeInboxRecord) : option (Commit WakeInboxRecord) :=
  if existsb (forgets now r) (map_to_list (ib_closed r)).*1 then
    Some (mkCommit $"sweep" None [] (mkInbox (filter (fun x => forgets now r x.1 = false) (ib_seen r)) (ib_pending r) (ib_closed r)))
  else None.

(** ** A hand, a brain and what is between them *)

Definition committed_to {R} (r : R) (c : option (Commit R)) : R := match c with Some c => c_record c | None => r end.

(** The two records, the wakes and receipts ever sent (any of which may arrive, late
    or again), what was offered, and what the brain committed and consumed and the
    hand dropped as expired. *)
Record Wakes := mkWakes {
  outbox : WakeOutboxRecord; inbox : WakeInboxRecord; sent : list WakeEvent; receipts : list WakeReceipt; now : Z;
  offered : list WakeEvent; committed : list jstring; consumed : list jstring; expired : list jstring }.

Definition no_wakes : Wakes := mkWakes empty_outbox empty_inbox [] [] 0 [] [] [] [].

Definition with_outbox (r : WakeOutboxRecord) (s : Wakes) : Wakes :=
  mkWakes r (inbox s) (sent s) (receipts s) (now s) (offered s) (committed s) (consumed s) (expired s).
Definition with_inbox (r : WakeInboxRecord) (s : Wakes) : Wakes :=
  mkWakes (outbox s) r (sent s) (receipts s) (now s) (offered s) (committed s) (consumed s) (expired s).

Inductive WakeStep :=
| Offer (minted scope source : jstring) (payload : json)
| Resend (w : WakeEvent)
| Receive (owner : option jstring) (sender : jstring) (w : WakeEvent)
| Receipt (answer : WakeReceipt)
| Consume (w : WakeEvent)
| Take (id : jstring)
| HandCloses (scope : jstring)
| BrainCloses (scope : jstring)
| HandSweeps
| BrainSweeps
| Later (ms : Z).

(** The store mints an identifier once; a hand sends what it would offer again; a
    wake is taken after it was consumed. *)
Definition may (hand : jstring) (s : Wakes) (x : WakeStep) : Prop :=
  match x with
  | Offer minted _ _ _ => (hand ++ $":" ++ minted) ∉ eventId <$> offered s
  | Resend w => w ∈ reoffered (outbox s)
  | Receive _ _ w => w ∈ sent s
  | Receipt answer => answer ∈ receipts s
  | Consume w => w ∈ ib_pending (inbox s)
  | Take id => id ∈ consumed s
  | Later ms => 0 <= ms
  | _ => True
  end.

Definition wake_step (hand : jstring) (s : Wakes) (x : WakeStep) : Wakes :=
  match x with
  | Offer minted scope source payload =>
      let '(w, c) := offer hand minted scope source payload (outbox s) in
      mkWakes (committed_to (outbox s) c) (inbox s) (sent s) (receipts s) (now s) (offered s ++ [w]) (committed s) (consumed s) (expired s)
  | Resend w => mkWakes (outbox s) (inbox s) (sent s ++ [w]) (receipts s) (now s) (offered s) (committed s) (consumed s) (expired s)
  | Receive owner sender w =>
      let '(answer, c) := receive owner sender w (inbox s) in
      mkWakes (outbox s) (committed_to (inbox s) c) (sent s) (receipts s ++ [answer]) (now s) (offered s)
        (committed s ++ match c with Some _ => [eventId w] | None => [] end) (consumed s) (expired s)
  | Receipt answer => with_outbox (committed_to (outbox s) (receipt answer (outbox s))) s
  | Consume w => mkWakes (outbox s) (inbox s) (sent s) (receipts s) (now s) (offered s) (committed s) (consumed s ++ [eventId w]) (expired s)
  | Take id => with_inbox (committed_to (inbox s) (take_wake id (inbox s))) s
  | HandCloses scope => with_outbox (committed_to (outbox s) (closeOutboxScope (now s) scope (outbox s))) s
  | BrainCloses scope => with_inbox (committed_to (inbox s) (closeInboxScope (now s) scope (inbox s))) s
  | HandSweeps =>
      let '(gone, c) := sweepOutbox (now s) (outbox s) in
      mkWakes (committed_to (outbox s) c) (inbox s) (sent s) (receipts s) (now s) (offered s) (committed s) (consumed s) (expired s ++ gone)
  | BrainSweeps => with_inbox (committed_to (inbox s) (sweepInbox (now s) (inbox s))) s
  | Later ms => mkWakes (outbox s) (inbox s) (sent s) (receipts s) (now s + ms) (offered s) (committed s) (consumed s) (expired s)
  end.

Inductive steps (hand : jstring) : Wakes -> Wakes -> Prop :=
| steps_none s : steps hand s s
| steps_more s x s' : may hand s x -> steps hand (wake_step hand s x) s' -> steps hand s s'.
