(* ===== verification/WakeCorrect.v ===== *)
(** * What becomes of a wake

Messages between the hand and the brain may be lost, late or repeated and either
side may stop between two commits: a wake is committed once, acknowledged only
after that, and none is lost before its scope is long closed. *)
From S2P Require Import Prelude JsString JsonText JsNumber JsObject Json Wake.
#[local] Open Scope Z_scope.

Section Wakes.
Context (hand : jstring).

Record WakesOk (s : Wakes) : Prop := {
  wo_unique : NoDup (eventId <$> offered s);
  wo_pending w : w ∈ ob_pending (outbox s) -> w ∈ offered s;
  wo_sent w : w ∈ sent s -> w ∈ offered s;
  wo_inbox w : w ∈ ib_pending (inbox s) -> w ∈ offered s;
  wo_ack id d : WakeAck id d ∈ receipts s -> id ∈ committed s;
  wo_kept w : w ∈ offered s -> w ∈ ob_pending (outbox s) \/ eventId w ∈ committed s \/ eventId w ∈ expired s;
  wo_seen w : w ∈ offered s -> eventId w ∈ committed s ->
    eventId w ∈ default [] (ib_seen (inbox s) !! wake_scope w) \/ is_Some (ib_closed (inbox s) !! wake_scope w);
  wo_known scope id : id ∈ default [] (ib_seen (inbox s) !! scope) -> id ∈ committed s;
  wo_once : NoDup (committed s);
  wo_real id : id ∈ committed s -> id ∈ eventId <$> offered s;
  wo_consumed id : id ∈ committed s -> id ∈ eventId <$> ib_pending (inbox s) \/ id ∈ consumed s;
  wo_only id : id ∈ consumed s -> id ∈ committed s;
  wo_order : (eventId <$> ib_pending (inbox s)) `sublist_of` committed s;
  wo_expired id : id ∈ expired s -> exists w, w ∈ offered s /\ eventId w = id /\ lapsed (now s) (ob_closed (outbox s)) (wake_scope w) = true }.

Lemma no_wakes_ok : WakesOk no_wakes.
Proof. split; cbn; try (by intros; set_solver); try constructor. Qed.

Lemma elem_of_without id l w : w ∈ without id l <-> w ∈ l /\ eventId w <> id.
Proof. unfold without, has_id. rewrite elem_of_filter_bool, negb_true_iff, bool_decide_eq_false. done. Qed.

Lemma filter_sublist {A} (f : A -> bool) (l : list A) : List.filter f l `sublist_of` l.
Proof. induction l as [|x l IH]; [done|]. cbn. destruct (f x); by constructor. Qed.

(** A wake is determined by its identifier. *)
Lemma same_id s w w' : WakesOk s -> w ∈ offered s -> w' ∈ offered s -> eventId w = eventId w' -> w = w'.
Proof.
  intros Hok Hw Hw' He. apply list_elem_of_lookup_1 in Hw as [i Hi]. apply list_elem_of_lookup_1 in Hw' as [j Hj].
  assert (i = j) as ->; [|congruence]. eapply (NoDup_lookup (eventId <$> offered s)); [apply (wo_unique _ Hok)|..]; rewrite list_lookup_fmap.
  - by rewrite Hi.
  - by rewrite Hj, He.
Qed.

Lemma lapsed_mono now now' closed closed' scope : now <= now' -> (forall t, closed !! scope = Some t -> closed' !! scope = Some t) ->
  lapsed now closed scope = true -> lapsed now' closed' scope = true.
Proof.
  intros Hn Hc. unfold lapsed. destruct (closed !! scope) as [t|] eqn:Ht; [|done]. rewrite (Hc t eq_refl). rewrite !Z.ltb_lt. lia.
Qed.

(** ** Each operation *)

(** What an operation on the outbox record may do to it. *)
Record OutboxChange (s : Wakes) (r : WakeOutboxRecord) : Prop := {
  oc_sub w : w ∈ ob_pending r -> w ∈ ob_pending (outbox s);
  oc_gone w : w ∈ ob_pending (outbox s) -> w ∈ ob_pending r \/ eventId w ∈ committed s \/ eventId w ∈ expired s;
  oc_closed scope t : ob_closed (outbox s) !! scope = Some t -> ob_closed r !! scope = Some t }.

Lemma WakesOk_outbox s r : WakesOk s -> OutboxChange s r -> WakesOk (with_outbox r s).
Proof.
  intros [] [Hsub Hgone Hcl]. split; cbn; try done.
  - auto.
  - intros w Hw. destruct (wo_kept0 w Hw) as [Hp|Hp]; [|by right]. apply Hgone in Hp. done.
  - intros id Hid. destruct (wo_expired0 id Hid) as (w & Hw & He & Hl). exists w. split_and!; try done.
    eapply lapsed_mono; [done| |exact Hl]. auto.
Qed.

Lemma receipt_change s answer : WakesOk s -> answer ∈ receipts s -> OutboxChange s (committed_to (outbox s) (receipt answer (outbox s))).
Proof.
  intros Hok Hin. unfold receipt. assert (OutboxChange s (outbox s)) as Hsame by (split; auto).
  destruct (existsb _ _); [|done]. destruct answer as [id d|id reason]; cbn [committed_to c_record].
  - split; cbn; [by intros w [Hw _]%elem_of_without| |done].
    intros w Hw. destruct (decide (eventId w = id)) as [<-|Hne]; [right; left; by eapply wo_ack|left; by apply elem_of_without].
  - destruct (_ || _); [done|]. split; cbn; auto.
Qed.

Lemma close_outbox_change s scope : OutboxChange s (committed_to (outbox s) (closeOutboxScope (now s) scope (outbox s))).
Proof.
  unfold closeOutboxScope. destruct (ob_closed (outbox s) !! scope) eqn:Hc; [by split; auto|]. split; cbn; [done|auto|].
  intros scope' t Ht. rewrite lookup_insert_ne; [done|congruence].
Qed.

(** What an operation on the inbox record that commits no wake may do to it. *)
Record InboxChange (s : Wakes) (r : WakeInboxRecord) : Prop := {
  ic_sub : (eventId <$> ib_pending r) `sublist_of` (eventId <$> ib_pending (inbox s));
  ic_in w : w ∈ ib_pending r -> w ∈ ib_pending (inbox s);
  ic_gone w : w ∈ ib_pending (inbox s) -> w ∈ ib_pending r \/ eventId w ∈ consumed s;
  ic_seen scope id : id ∈ default [] (ib_seen r !! scope) -> id ∈ default [] (ib_seen (inbox s) !! scope);
  ic_closed scope : is_Some (ib_closed (inbox s) !! scope) -> is_Some (ib_closed r !! scope);
  ic_kept scope id : id ∈ default [] (ib_seen (inbox s) !! scope) -> id ∈ default [] (ib_seen r !! scope) \/ is_Some (ib_closed r !! scope) }.

Lemma WakesOk_inbox s r : WakesOk s -> InboxChange s r -> WakesOk (with_inbox r s).
Proof.
  intros [] [Hsub Hin Hgone Hseen Hcl Hkept]. split; cbn; try done.
  - auto.
  - intros w Hw Hc. destruct (wo_seen0 w Hw Hc) as [Hs|Hs]; [by apply Hkept|right; by apply Hcl].
  - intros scope id Hid. by eapply wo_known0, Hseen.
  - intros id Hid. destruct (wo_consumed0 id Hid) as [(w & -> & Hw)%list_elem_of_fmap|?]; [|by right].
    destruct (Hgone w Hw) as [?|?]; [left; by apply list_elem_of_fmap_2|by right].
  - by etrans.
Qed.

Lemma InboxChange_refl s : InboxChange s (inbox s).
Proof. split; auto. Qed.

Lemma take_change s id : id ∈ consumed s -> InboxChange s (committed_to (inbox s) (take_wake id (inbox s))).
Proof.
  intros Hid. unfold take_wake. destruct (existsb _ _); [|apply InboxChange_refl]. split; cbn; auto.
  - apply fmap_sublist, filter_sublist.
  - by intros w [Hw _]%elem_of_without.
  - intros w Hw. destruct (decide (eventId w = id)) as [->|Hne]; [by right|left; by apply elem_of_without].
Qed.

Lemma close_inbox_change s scope : InboxChange s (committed_to (inbox s) (closeInboxScope (now s) scope (inbox s))).
Proof.
  unfold closeInboxScope. destruct (ib_closed (inbox s) !! scope) eqn:Hc; [apply InboxChange_refl|]. split; cbn; auto.
  intros scope' Hs. destruct (decide (scope' = scope)) as [->|]; [rewrite lookup_insert_eq; by eexists|by rewrite lookup_insert_ne].
Qed.

Lemma sweep_inbox_change s : InboxChange s (committed_to (inbox s) (sweepInbox (now s) (inbox s))).
Proof.
  unfold sweepInbox. destruct (existsb _ _); [|apply InboxChange_refl]. split; cbn; auto.
  - intros scope id. rewrite map_lookup_filter. destruct (ib_seen (inbox s) !! scope); cbn; [|done]. case_guard; cbn; [done|by intros ?%elem_of_nil].
  - intros scope id Hid. rewrite map_lookup_filter. destruct (ib_seen (inbox s) !! scope) as [ids|]; cbn in *; [|by apply elem_of_nil in Hid]. case_guard as Hg; cbn; [by left|].
    right. unfold forgets, lapsed in Hg. cbn in Hg. destruct (ib_closed (inbox s) !! scope); [by eexists|done].
Qed.
(** ** Every step *)

Lemma sweep_outbox_ok s : WakesOk s -> WakesOk (wake_step hand s HandSweeps).
Proof.
  intros Hok. cbn [wake_step]. unfold sweepOutbox. set (l := List.filter _ _).
  assert (forall w, w ∈ l -> w ∈ ob_pending (outbox s) /\ lapsed (now s) (ob_closed (outbox s)) (wake_scope w) = true) as Hl.
  { intros w. subst l. by rewrite elem_of_filter_bool. }
  destruct l as [|w0 l'] eqn:E; [rewrite app_nil_r; by destruct s|]. rewrite <- E in *. clear E. destruct Hok. split; cbn; try done.
  - intros w [Hw _]%elem_of_filter_bool. auto.
  - intros w Hw. destruct (wo_kept0 w Hw) as [Hp|[Hp|Hp]]; [|by right; left|right; right; set_solver].
    destruct (decide (eventId w ∈ eventId <$> l)) as [Hg|Hg]; [right; right; apply elem_of_app; by right|left].
    apply elem_of_filter_bool. split; [done|]. by rewrite bool_decide_eq_false_2.
  - intros id [Hid|(w & -> & Hw)%list_elem_of_fmap]%elem_of_app; [by apply wo_expired0|].
    destruct (Hl w Hw) as [Hp Hla]. exists w. split_and!; auto.
Qed.

Lemma offer_ok s minted scope source payload :
  WakesOk s -> (hand ++ $":" ++ minted) ∉ eventId <$> offered s -> WakesOk (wake_step hand s (Offer minted scope source payload)).
Proof.
  intros [] Hfresh. cbn [wake_step]. unfold offer. cbn [committed_to c_record]. set (w := mkWake _ _ _ _). split; cbn; try done.
  - rewrite fmap_app. apply NoDup_app. split_and!; [done| |apply NoDup_singleton]. intros id Hid ->%list_elem_of_singleton. done.
  - intros w' [Hw| ->%list_elem_of_singleton]%elem_of_app; apply elem_of_app; [left; auto|right; by left].
  - intros w' Hw. apply elem_of_app. auto.
  - intros w' Hw. apply elem_of_app. auto.
  - intros w' [Hw| ->%list_elem_of_singleton]%elem_of_app; [|left; apply elem_of_app; right; by left].
    destruct (wo_kept0 w' Hw) as [?|?]; [left; apply elem_of_app; by left|by right].
  - intros w' [Hw| ->%list_elem_of_singleton]%elem_of_app Hc; [by apply wo_seen0|]. by apply wo_real0 in Hc.
  - intros id Hid. rewrite fmap_app. apply elem_of_app. auto.
  - intros id Hid. destruct (wo_expired0 id Hid) as (w' & Hw & ?). exists w'. split; [apply elem_of_app; auto|done].
Qed.

Lemma receive_ok s owner sender w : WakesOk s -> w ∈ sent s -> WakesOk (wake_step hand s (Receive owner sender w)).
Proof.
  intros Hok Hsent. pose proof (wo_sent _ Hok w Hsent) as Hw. cbn [wake_step]. unfold receive.
  assert (forall answer, (forall id d, answer = WakeAck id d -> id ∈ committed s) ->
    WakesOk (mkWakes (outbox s) (inbox s) (sent s) (receipts s ++ [answer]) (now s) (offered s) (committed s ++ []) (consumed s) (expired s))) as Hanswer.
  { intros answer Ha. rewrite app_nil_r. destruct Hok. split; cbn; try done.
    intros id d [Hin|Heq%list_elem_of_singleton]%elem_of_app; [by eapply wo_ack0|by eapply Ha]. }
  destruct owner as [bound|]; [|by apply Hanswer]. destruct (negb _); [by apply Hanswer|].
  case_bool_decide as Hseen; [apply Hanswer; intros id d [= <- _]; by eapply wo_known|].
  destruct (ib_closed (inbox s) !! wake_scope w) as [t|] eqn:Hcl; [by apply Hanswer|]. cbn [committed_to c_record].
  assert (eventId w ∉ committed s) as Hnew.
  { intros Hc. destruct (wo_seen _ Hok w Hw Hc) as [?|[? ?]]; [done|congruence]. }
  pose proof (same_id s) as Hid. destruct Hok. split; cbn; try done.
  - intros w' [?| ->%list_elem_of_singleton]%elem_of_app; auto.
  - intros id d [Hin|[= <- _]%list_elem_of_singleton]%elem_of_app; apply elem_of_app; [left; by eapply wo_ack0|right; by left].
  - intros w' Hw'. destruct (wo_kept0 w' Hw') as [?|[?|?]]; [by left|right; left; apply elem_of_app; by left|by right; right].
  - intros w' Hw' [Hc|He%list_elem_of_singleton]%elem_of_app.
    + destruct (wo_seen0 w' Hw' Hc) as [Hs|?]; [left|by right]. destruct (decide (wake_scope w' = wake_scope w)) as [Heq|Hne].
      * rewrite Heq, lookup_insert_eq. cbn. apply elem_of_app. left. by rewrite <- Heq.
      * by rewrite lookup_insert_ne.
    + assert (w' = w) as -> by (apply Hid; [by split|done|done|done]). left. rewrite lookup_insert_eq. cbn. apply elem_of_app. right. by left.
  - intros scope id. destruct (decide (scope = wake_scope w)) as [->|Hne].
    + rewrite lookup_insert_eq. cbn. intros [Hs| ->%list_elem_of_singleton]%elem_of_app; apply elem_of_app; [left; by eapply wo_known0|right; by left].
    + rewrite lookup_insert_ne by done. intros Hs. apply elem_of_app. left. by eapply wo_known0.
  - apply NoDup_app. split_and!; [done| |apply NoDup_singleton]. by intros id Hc ->%list_elem_of_singleton.
  - intros id [?| ->%list_elem_of_singleton]%elem_of_app; [auto|by apply list_elem_of_fmap_2].
  - intros id [Hc| ->%list_elem_of_singleton]%elem_of_app; rewrite fmap_app, elem_of_app.
    + destruct (wo_consumed0 id Hc); auto.
    + left. right. by left.
  - intros id Hc. apply elem_of_app. auto.
  - rewrite fmap_app. by apply sublist_app.
Qed.

Lemma WakesOk_step s x : WakesOk s -> may hand s x -> WakesOk (wake_step hand s x).
Proof.
  intros Hok Hm. destruct x as [minted scope source payload|w|owner sender w|answer|w|id|scope|scope| | |ms].
  - by apply offer_ok.
  - pose proof (wo_pending _ Hok w) as Hp. cbn in Hm. apply elem_of_filter_bool in Hm as [Hm _]. destruct Hok. split; cbn; try done.
    intros w' [?| ->%list_elem_of_singleton]%elem_of_app; auto.
  - by apply receive_ok.
  - apply WakesOk_outbox, receipt_change; done.
  - cbn in Hm. pose proof (wo_order _ Hok) as Ho. destruct Hok. split; cbn; try done.
    + intros id Hc. destruct (wo_consumed0 id Hc); [by left|right; apply elem_of_app; by left].
    + intros id [?| ->%list_elem_of_singleton]%elem_of_app; [auto|]. eapply elem_of_sublist; [|exact Ho]. by apply list_elem_of_fmap_2.
  - by apply WakesOk_inbox, take_change.
  - apply WakesOk_outbox, close_outbox_change. done.
  - apply WakesOk_inbox, close_inbox_change. done.
  - by apply sweep_outbox_ok.
  - apply WakesOk_inbox, sweep_inbox_change. done.
  - cbn in Hm. destruct Hok. split; cbn; try done. intros id Hid. destruct (wo_expired0 id Hid) as (w & Hw & He & Hl). exists w. split_and!; try done.
    eapply lapsed_mono; [|done|exact Hl]. lia.
Qed.

Lemma steps_ok s s' : WakesOk s -> steps hand s s' -> WakesOk s'.
Proof. intros Hok Hs. induction Hs as [|s x s' Hm Hs IH]; [done|]. by apply IH, WakesOk_step. Qed.

(** ** Properties *)

(** C36. A wake takes effect once.  However its messages are lost, late or repeated,
and whenever either side stops, the brain commits an identifier at most once, its
acknowledgements are for committed wakes only, it hands wakes to its loop in the
order it committed them, and only those. *)
Theorem wakes_committed_once s :
  steps hand no_wakes s ->
  NoDup (committed s) /\ (forall id d, WakeAck id d ∈ receipts s -> id ∈ committed s) /\
  (eventId <$> ib_pending (inbox s)) `sublist_of` committed s /\ (forall id, id ∈ consumed s -> id ∈ committed s).
Proof. intros Hs. destruct (steps_ok _ _ no_wakes_ok Hs). split_and!; try done. Qed.

(** C37. No wake is lost.  A wake a hand offered is in its outbox until the brain has
committed it or until its scope has been closed for longer than the retention; and
a committed wake waits in the inbox until the loop consumed it. *)
Theorem wakes_not_lost s w :
  steps hand no_wakes s -> w ∈ offered s ->
  w ∈ ob_pending (outbox s) \/
  (eventId w ∈ committed s /\ (w ∈ ib_pending (inbox s) \/ eventId w ∈ consumed s)) \/
  (eventId w ∈ expired s /\ lapsed (now s) (ob_closed (outbox s)) (wake_scope w) = true).
Proof.
  intros Hs Hw. pose proof (steps_ok _ _ no_wakes_ok Hs) as Hok. destruct (wo_kept _ Hok w Hw) as [Hp|[Hc|He]]; [by left|right; left|right; right].
  - split; [done|]. destruct (wo_consumed _ Hok _ Hc) as [(w' & He & Hw')%list_elem_of_fmap|?]; [left|by right].
    by rewrite (same_id s w w' Hok Hw (wo_inbox _ Hok w' Hw') He).
  - split; [done|]. destruct (wo_expired _ Hok _ He) as (w' & Hw' & Heq & Hl). by rewrite <- (same_id s w' w Hok Hw' Hw Heq).
Qed.

Lemma elem_existsb w l : w ∈ l -> existsb (has_id (eventId w)) l = true.
Proof. intros Hw. apply existsb_exists. exists w. split; [by apply list_elem_of_In|]. unfold has_id. by apply bool_decide_eq_true. Qed.

Lemma receive_answer w r : ib_closed r !! wake_scope w = None -> exists d, (receive (Some hand) hand w r).1 = WakeAck (eventId w) d.
Proof.
  intros Hc. unfold receive. rewrite bool_decide_eq_true_2 by done. cbn [negb]. case_bool_decide; [by eexists|]. rewrite Hc. by eexists.
Qed.

(** A wake gets through.  One that would be offered again, of a scope the brain
owns for this hand and has not closed, is committed by its next arrival, leaves the
outbox with the acknowledgement, and leaves the inbox once the loop consumed it. *)
Theorem wake_gets_through s w :
  steps hand no_wakes s -> w ∈ reoffered (outbox s) -> ib_closed (inbox s) !! wake_scope w = None ->
  exists s', steps hand s s' /\ eventId w ∈ committed s' /\ eventId w ∈ consumed s' /\ w ∉ ob_pending (outbox s') /\ w ∉ ib_pending (inbox s').
Proof.
  intros Hs Hr Hc. pose proof (steps_ok _ _ no_wakes_ok Hs) as Hok.
  destruct (receive_answer w (inbox s) Hc) as [d Hd].
  set (s1 := wake_step hand s (Resend w)). assert (may hand s (Resend w)) as Hm1 by done. pose proof (WakesOk_step _ _ Hok Hm1) as Hok1.
  set (s2 := wake_step hand s1 (Receive (Some hand) hand w)).
  assert (may hand s1 (Receive (Some hand) hand w)) as Hm2 by (cbn; apply elem_of_app; right; by left). pose proof (WakesOk_step _ _ Hok1 Hm2) as Hok2.
  assert (WakeAck (eventId w) d ∈ receipts s2 /\ outbox s2 = outbox s) as [Hack Hout].
  { subst s2. cbn [wake_step]. change (inbox s1) with (inbox s). destruct (receive (Some hand) hand w (inbox s)) as [answer c] eqn:E. cbn in Hd. subst answer.
    cbn. split; [apply elem_of_app; right; by left|done]. }
  set (s3 := wake_step hand s2 (Receipt (WakeAck (eventId w) d))). assert (may hand s2 (Receipt (WakeAck (eventId w) d))) as Hm3 by done.
  pose proof (WakesOk_step _ _ Hok2 Hm3) as Hok3.
  pose proof Hr as [Hpend _]%elem_of_filter_bool.
  assert (w ∉ ob_pending (outbox s3)) as Hgone.
  { subst s3. cbn [wake_step with_outbox outbox]. unfold receipt. rewrite Hout, (elem_existsb w _ Hpend). cbn. by intros [_ ?]%elem_of_without. }
  assert (eventId w ∈ committed s3) as Hcom by (by eapply (wo_ack _ Hok2)).
  assert (w ∈ offered s3) as Hoff3 by (subst s3 s2; cbn [wake_step]; destruct (receive _ _ _ _) as [??]; cbn; by apply (wo_pending _ Hok)).
  assert (exists s', steps hand s3 s' /\ eventId w ∈ committed s' /\ eventId w ∈ consumed s' /\ w ∉ ob_pending (outbox s') /\ w ∉ ib_pending (inbox s')) as (s' & Hst & Hrest).
  { assert (eventId w ∈ eventId <$> ib_pending (inbox s3) -> w ∈ ib_pending (inbox s3)) as Hmine.
    { intros (w' & He & Hw')%list_elem_of_fmap. by rewrite (same_id s3 w w' Hok3 Hoff3 (wo_inbox _ Hok3 w' Hw') He). }
    destruct (decide (eventId w ∈ eventId <$> ib_pending (inbox s3))) as [Hin%Hmine|Hout3].
    - set (s4 := wake_step hand s3 (Consume w)). exists (wake_step hand s4 (Take (eventId w))). split_and!.
      + apply (steps_more hand s3 (Consume w)); [exact Hin|]. apply (steps_more hand s4 (Take (eventId w))); [|constructor]. cbn. apply elem_of_app. right. by left.
      + done.
      + cbn. apply elem_of_app. right. by left.
      + done.
      + change (w ∉ ib_pending (committed_to (inbox s3) (take_wake (eventId w) (inbox s3)))). unfold take_wake. rewrite (elem_existsb w _ Hin). cbn. by intros [_ ?]%elem_of_without.
    - exists s3. split_and!; [constructor|done| |done|by intros ?%(list_elem_of_fmap_2 eventId)]. by destruct (wo_consumed _ Hok3 _ Hcom). }
  exists s'. split; [|done]. eapply steps_more; [exact Hm1|]. eapply steps_more; [exact Hm2|]. by eapply steps_more.
Qed.
End Wakes.

#[export] Instance wake_receipt_eq_dec : EqDecision WakeReceipt.
Proof. solve_decision. Defined.

Module WakeSample.
(** Two wakes: the first arrives twice, its first acknowledgement is lost; the second is refused while its scope is unknown. *)
Definition w1 : WakeEvent := mkWake $"h:1" $"scope" $"timer" JsNull.
Definition w2 : WakeEvent := mkWake $"h:2" $"other" $"timer" JsNull.
Definition script : list WakeStep :=
  [Offer $"1" $"scope" $"timer" JsNull; Resend w1; Receive (Some $"h") $"h" w1; Resend w1; Receive (Some $"h") $"h" w1;
   Offer $"2" $"other" $"timer" JsNull; Resend w2; Receive None $"h" w2; Receipt (WakeRefused $"h:2" UnknownScope); Receipt (WakeAck $"h:1" true); Consume w1].
Definition world : Wakes := foldl (wake_step $"h") no_wakes script.
End WakeSample.

Example wake_sample :
  committed WakeSample.world = [$"h:1"] /\ (eventId <$> ob_pending (outbox WakeSample.world)) = [$"h:2"] /\
  receipts WakeSample.world = [WakeAck $"h:1" false; WakeAck $"h:1" true; WakeRefused $"h:2" UnknownScope] /\ consumed WakeSample.world = [$"h:1"].
Proof. vm_compute. done. Qed.

(** A script of which every step may happen is a run. *)
Fixpoint all_may (hand : jstring) (s : Wakes) (xs : list WakeStep) : Prop :=
  match xs with [] => True | x :: xs => may hand s x /\ all_may hand (wake_step hand s x) xs end.

Lemma all_may_steps hand s xs : all_may hand s xs -> steps hand s (foldl (wake_step hand) s xs).
Proof. revert s. induction xs as [|x xs IH]; intros s; cbn; [constructor|]. intros [Hm Hs]. eapply steps_more; [exact Hm|by apply IH]. Qed.

Ltac at_index i := apply (list_elem_of_lookup_2 _ i); vm_compute; reflexivity.

Lemma wake_sample_steps : steps $"h" no_wakes WakeSample.world.
Proof.
  apply all_may_steps. unfold WakeSample.script. cbn [all_may may]. split_and!; [|at_index 0%nat|at_index 0%nat|at_index 0%nat|at_index 0%nat| |
    at_index 1%nat|at_index 2%nat|at_index 2%nat|at_index 1%nat|at_index 0%nat|exact I].
  - apply (bool_decide_unpack _). vm_compute. exact I.
  - apply (bool_decide_unpack _). vm_compute. exact I.
Qed.

Lemma wakes_committed_once_witness :
  NoDup (committed WakeSample.world) /\ (forall id d, WakeAck id d ∈ receipts WakeSample.world -> id ∈ committed WakeSample.world) /\
  (eventId <$> ib_pending (inbox WakeSample.world)) `sublist_of` committed WakeSample.world /\
  (forall id, id ∈ consumed WakeSample.world -> id ∈ committed WakeSample.world).
Proof. apply (wakes_committed_once $"h"). apply wake_sample_steps. Defined.

Lemma wakes_not_lost_witness :
  let s := WakeSample.world in let w := WakeSample.w2 in
  w ∈ ob_pending (outbox s) \/ (eventId w ∈ committed s /\ (w ∈ ib_pending (inbox s) \/ eventId w ∈ consumed s)) \/
  (eventId w ∈ expired s /\ lapsed (now s) (ob_closed (outbox s)) (wake_scope w) = true).
Proof. apply (wakes_not_lost $"h"); [apply wake_sample_steps|at_index 1%nat]. Defined.

Lemma wake_gets_through_witness :
  exists s', steps $"h" WakeSample.world s' /\ eventId WakeSample.w2 ∈ committed s' /\ eventId WakeSample.w2 ∈ consumed s' /\
    WakeSample.w2 ∉ ob_pending (outbox s') /\ WakeSample.w2 ∉ ib_pending (inbox s').
Proof. apply wake_gets_through; [apply wake_sample_steps|at_index 0%nat|vm_compute; reflexivity]. Defined.
