(* ===== verification/RemoteEpoch.v ===== *)
(** * Epochs of remote sessions (packages/agent/src/execution: remote-epoch.ts, remote-epoch-gate.ts)

When a session moves to another owner, a hand must not run late calls of the old
one.  The hand keeps a floor per scope, in its durable store when it has one: the
epoch and the owner that raised it.  A session's end keeps a gate per scope lane and
dispatches there only after the hand acked its epoch.  Epochs are integers below 2^53. *)
From S2P Require Import Prelude JsString JsNumber JsObject Json JsMap DurableStore Ledger.
#[local] Open Scope Z_scope.

(** ** The hand's floors (remote-epoch.ts) *)

Definition EPOCH_FLOOR_MAX_STEP : Z := 1.
Definition EPOCH_FLOOR_PREFIX : jstring := $"hand.epoch-floor:".
Definition HAND_SELF_SENDER : jstring := $"self".

Inductive EpochRefusal := peer_unauthorized | floor_fenced | epoch_step_exceeded | epoch_unsupported.

Inductive FloorRaise := FloorAcked (floor : Z) | FloorRefused (reason : EpochRefusal).

Record Floor := mkFloor { fl_epoch : Z; fl_owner : jstring }.

Definition floor_key (scope : jstring) : jstring := EPOCH_FLOOR_PREFIX ++ scope.

Definition floor_json (f : Floor) : json := object_json [($"epoch", JsNum (of_Z (fl_epoch f))); ($"owner", JsStr (fl_owner f))].

(** [None] is the error of a malformed floor. *)
Definition decodeFloor (data : json) : option Floor :=
  match member data $"epoch", member data $"owner" with
  | Some (JsNum epoch), Some (JsStr owner) =>
      if is_safe_integer epoch && (1 <=? to_Z epoch) then Some (mkFloor (to_Z epoch) owner) else None
  | _, _ => None
  end.

Section Fence.
Context {St : Type} `{DurableStore St}.

(** The floors a process starts with; [None]: the fence never gets ready. *)
Fixpoint load_floors (documents : list StoreDocument) (floors : gmap jstring Floor) : option (gmap jstring Floor) :=
  match documents with
  | [] => Some floors
  | d :: documents =>
      match decodeFloor d.2 with
      | Some f => load_floors documents (<[drop (length EPOCH_FLOOR_PREFIX) d.1 := f]> floors)
      | None => None
      end
  end.

Definition ready (durable : bool) (s : St) : option (gmap jstring Floor) :=
  if durable then load_floors (scanDocuments s EPOCH_FLOOR_PREFIX) ∅ else Some ∅.

(** Raising a floor: the commit adopts it in memory once it is durable. *)
Definition set_floor (durable : bool) (w : attempt) (scope : jstring) (next : Floor) (s : St) (floors : gmap jstring Floor)
    : St * gmap jstring Floor * result StoreFailure FloorRaise :=
  if durable then
    let '(s', r) := store_commit (at_cut w) (at_epoch w) [Put (floor_key scope) (floor_json next)] s in
    match r with
    | Ok _ => (s', <[scope := next]> floors, Ok (FloorAcked (fl_epoch next)))
    | Err x => (s', floors, Err x)
    end
  else (s, <[scope := next]> floors, Ok (FloorAcked (fl_epoch next))).

(** [owner] is what [ownerOf] says of the scope now. *)
Definition raise (durable : bool) (w : attempt) (owner : option jstring) (scope : jstring) (epoch : Z) (sender : jstring)
    (s : St) (floors : gmap jstring Floor) : St * gmap jstring Floor * result StoreFailure FloorRaise :=
  if negb (bool_decide (owner = Some sender)) then (s, floors, Ok (FloorRefused peer_unauthorized))
  else
    let current := floors !! scope in
    let floor := match current with Some f => fl_epoch f | None => 0 end in
    if epoch <? floor then (s, floors, Ok (FloorAcked floor))
    else
      let known :=
        match current with
        | Some f =>
            if epoch =? floor then Some (if bool_decide (fl_owner f = sender) then FloorAcked floor else FloorRefused floor_fenced) else None
        | None => None
        end in
      match known with
      | Some reply => (s, floors, Ok reply)
      | None =>
          if EPOCH_FLOOR_MAX_STEP <? epoch - floor then (s, floors, Ok (FloorRefused epoch_step_exceeded))
          else set_floor durable w scope (mkFloor epoch sender) s floors
      end.

Definition admits (floors : gmap jstring Floor) (scope : jstring) (epoch : option Z) (sender : jstring) : bool :=
  match floors !! scope with
  | None => true
  | Some floor =>
      let at_ := default 0 epoch in
      (fl_epoch floor <? at_) || (at_ =? fl_epoch floor) && bool_decide (fl_owner floor = sender)
  end.

(** [None]: the hand keeps no floors. *)
Definition answerFloor (raised : option FloorRaise) : FloorRaise := default (FloorRefused epoch_unsupported) raised.
End Fence.

(** ** The session's gate (remote-epoch-gate.ts)

The promise a lane waits on is known by the lane and how often the lane has been
asked anew; [resolved] holds what promises were resolved with.  A verdict is [None]
when the lane may dispatch. *)

Inductive GateRefusal := Superseded | FloorMismatch | HandUnreachable (reason : jstring) | HandRefused (reason : EpochRefusal).

Record Lane := mkLane { asked : nat; verdict : option (option GateRefusal) }.

Record Gate := mkGate { lanes : list (jstring * Lane); resolved : gmap (jstring * nat) (option GateRefusal) }.

(** What [open] returns: a verdict, or the promise of the lane. *)
Inductive Opening := Decided (refusal : option GateRefusal) | Waiting (lane : jstring) (asked : nat).

(** A lane that was decided waits on a new promise; the floor is sent in any case. *)
Definition ask (state : Lane) : Lane :=
  match verdict state with Some _ => mkLane (S (asked state)) None | None => state end.

(** The second component says whether a floor is sent on the lane. *)
Definition gate_open (lane : jstring) (g : Gate) : Gate * bool * Opening :=
  match map_get (lanes g) lane with
  | Some known => (g, false, match verdict known with Some refusal => Decided refusal | None => Waiting lane (asked known) end)
  | None => (mkGate (map_set (lanes g) lane (mkLane 0 None)) (resolved g), true, Waiting lane 0)
  end.

(** [decide], on a lane whose promise is [for_]. *)
Definition decide_lane (lane : jstring) (for_ : nat) (refusal : option GateRefusal) (g : Gate) : Gate :=
  mkGate (map_set (lanes g) lane (mkLane for_ (Some refusal))) (<[(lane, for_) := refusal]> (resolved g)).

(** A floor that could not be sent decides the promise it was sent for, if that is still open. *)
Definition floor_send_failed (lane : jstring) (for_ : nat) (reason : jstring) (g : Gate) : Gate :=
  match map_get (lanes g) lane with
  | Some (mkLane asked None) => if Nat.eqb asked for_ then decide_lane lane asked (Some (HandUnreachable reason)) g else g
  | _ => g
  end.

Definition gate_answer (epoch : Z) (lane : jstring) (message : FloorRaise) (g : Gate) : Gate :=
  match map_get (lanes g) lane with
  | Some (mkLane asked None) =>
      decide_lane lane asked
        match message with
        | FloorRefused reason => Some (HandRefused reason)
        | FloorAcked floor => if floor =? epoch then None else Some (if epoch <? floor then Superseded else FloorMismatch)
        end g
  | _ => g
  end.

Definition not_refused (state : Lane) : bool := match verdict state with Some (Some _) => false | _ => true end.

(** The gate after every lane not refused is asked again, and those lanes. *)
Definition gate_resend (g : Gate) : Gate * list jstring :=
  (mkGate ((fun l => (l.1, if not_refused l.2 then ask l.2 else l.2)) <$> lanes g) (resolved g), (List.filter (fun l => not_refused l.2) (lanes g)).*1).

(** ** Floors only rise *)

(** The floor is above [epoch], or at it and owned by [owner]. *)
Definition reaches (f : Floor) (epoch : Z) (owner : jstring) : Prop := epoch < fl_epoch f \/ epoch = fl_epoch f /\ owner = fl_owner f.

Definition scope_reaches (floors : gmap jstring Floor) (scope : jstring) (epoch : Z) (owner : jstring) : Prop :=
  exists f, floors !! scope = Some f /\ reaches f epoch owner.

Section FenceFacts.
Context {St : Type} `{DurableStore St}.

Definition stored_floor (s : St) (scope : jstring) : option Floor := getDocument s (floor_key scope) ≫= decodeFloor.

Definition floor_bounds (f : Floor) : Prop := 1 <= fl_epoch f <= MAX_SAFE_INTEGER.

Lemma floor_round f : floor_bounds f -> decodeFloor (floor_json f) = Some f.
Proof.
  intros Hf. unfold decodeFloor. change (member (floor_json f) $"epoch") with (Some (JsNum (of_Z (fl_epoch f)))).
  change (member (floor_json f) $"owner") with (Some (JsStr (fl_owner f))). cbv beta iota. unfold floor_bounds, MAX_SAFE_INTEGER in *.
  rewrite of_Z_safe by (unfold MAX_SAFE_INTEGER; lia). destruct (to_Z_of_Z (fl_epoch f)) as (_ & _ & ->); [lia |].
  destruct (Z.leb_spec 1 (fl_epoch f)); [by destruct f | lia].
Qed.

Lemma floor_key_inj scope scope' : floor_key scope = floor_key scope' -> scope = scope'.
Proof. apply app_inv_head. Qed.

(** The floors of a store can be read, and those in memory are not above them. *)
Definition stored_ok (s : St) : Prop :=
  store_ok s /\ forall scope v, getDocument s (floor_key scope) = Some v -> exists f, v = floor_json f /\ floor_bounds f.

Definition fence_ok (s : St) (floors : gmap jstring Floor) : Prop :=
  stored_ok s /\ forall scope f, floors !! scope = Some f ->
    floor_bounds f /\ exists g, stored_floor s scope = Some g /\ reaches g (fl_epoch f) (fl_owner f).

Lemma reaches_trans f g epoch owner : reaches f epoch owner -> reaches g (fl_epoch f) (fl_owner f) -> reaches g epoch owner.
Proof. unfold reaches. intros [? | [-> ->]] [? | [? ?]]; [left; lia | left; lia | by left | by right]. Qed.

Lemma reaches_refl f : reaches f (fl_epoch f) (fl_owner f).
Proof. by right. Qed.

(** Documents that are not floors do not matter. *)
Lemma stored_ok_same s s' :
  store_ok s' -> (forall scope, getDocument s' (floor_key scope) = getDocument s (floor_key scope)) -> stored_ok s -> stored_ok s'.
Proof. intros Hs' Hd [_ Hv]. split; [done |]. intros scope v. rewrite Hd. apply Hv. Qed.

Lemma fence_ok_same s s' floors :
  store_ok s' -> (forall scope, getDocument s' (floor_key scope) = getDocument s (floor_key scope)) -> fence_ok s floors -> fence_ok s' floors.
Proof.
  intros Hs' Hd [Hst Hf]. split; [by apply (stored_ok_same s) |]. intros scope f Hl. unfold stored_floor. rewrite Hd. by apply Hf.
Qed.

(** A raise, whether it is adopted, refused, or cut: what a scope has reached stays reached, and an ack of the very epoch
means that the sender owns the scope at it. *)
Lemma set_floor_spec w scope next s floors s' floors' r :
  fence_ok s floors -> floor_bounds next -> (forall f, floors !! scope = Some f -> reaches next (fl_epoch f) (fl_owner f)) ->
  set_floor true w scope next s floors = (s', floors', r) ->
  fence_ok s' floors' /\ (forall sc e o, scope_reaches floors sc e o -> scope_reaches floors' sc e o) /\
  (r = Ok (FloorAcked (fl_epoch next)) -> scope_reaches floors' scope (fl_epoch next) (fl_owner next)).
Proof.
  intros [[Hs Hv] Hf] Hb Hup. cbn [set_floor]. destruct (store_commit _ _ _ s) as [s1 r1] eqn:E.
  pose proof (commit_store_ok _ _ _ _ _ _ Hs E) as Hs1.
  destruct (commit_all_or_none _ _ _ _ _ _ Hs E) as [[[x ->] Hd] | Hd].
  { intros [= <- <- <-]. split_and!; [by apply (fence_ok_same s); [| | split; [split |]] | done | done]. }
  assert (Hnew : forall sc, getDocument s1 (floor_key sc) = if bool_decide (sc = scope) then Some (floor_json next) else getDocument s (floor_key sc)).
  { intros sc. rewrite Hd. cbn. case_bool_decide as H1; case_bool_decide as H2; try done; [by apply floor_key_inj in H1 | by subst]. }
  assert (Hst : stored_ok s1).
  { split; [done |]. intros sc v. rewrite Hnew. case_bool_decide; [intros [= <-]; by exists next | apply Hv]. }
  assert (Hstored : stored_floor s1 scope = Some next) by (unfold stored_floor; rewrite Hnew, bool_decide_eq_true_2 by done; cbn; by apply floor_round).
  assert (Hold : forall sc f, floors !! sc = Some f -> floor_bounds f /\ exists g, stored_floor s1 sc = Some g /\ reaches g (fl_epoch f) (fl_owner f)).
  { intros sc f Hl. destruct (Hf sc f Hl) as [Hbf Hg]. split; [done |]. destruct (decide (sc = scope)) as [-> | Hne].
    - exists next. split; [done | by apply Hup].
    - unfold stored_floor. rewrite Hnew, bool_decide_eq_false_2 by done. exact Hg. }
  destruct r1 as [c | x]; intros [= <- <- <-]; [| by split_and!].
  split_and!.
  - split; [done |]. intros sc f. destruct (decide (sc = scope)) as [-> | Hne].
    + rewrite lookup_insert_eq. intros [= <-]. split; [done |]. exists next. split; [done | apply reaches_refl].
    + rewrite lookup_insert_ne by done. apply Hold.
  - intros sc e o (f & Hl & Hr). destruct (decide (sc = scope)) as [-> | Hne].
    + exists next. rewrite lookup_insert_eq. split; [done |]. eapply reaches_trans; [exact Hr | by apply Hup].
    + exists f. by rewrite lookup_insert_ne.
  - intros _. exists next. rewrite lookup_insert_eq. split; [done | apply reaches_refl].
Qed.

Lemma raise_spec w owner scope epoch sender s floors s' floors' r :
  fence_ok s floors -> 1 <= epoch <= MAX_SAFE_INTEGER -> raise true w owner scope epoch sender s floors = (s', floors', r) ->
  fence_ok s' floors' /\ (forall sc e o, scope_reaches floors sc e o -> scope_reaches floors' sc e o) /\
  (r = Ok (FloorAcked epoch) -> scope_reaches floors' scope epoch sender).
Proof.
  intros Hok He. unfold raise. destruct (negb _); [by intros [= <- <- <-] |].
  destruct (floors !! scope) as [f |] eqn:Ef.
  - destruct (Z.ltb_spec epoch (fl_epoch f)); [intros [= <- <- <-]; split_and!; [done .. | intros [= ?]; lia] |].
    destruct (Z.eqb_spec epoch (fl_epoch f)) as [-> | Hne].
    + intros [= <- <- <-]. split_and!; [done .. |]. case_bool_decide; [intros _ | done]. subst. exists f. split; [done | apply reaches_refl].
    + destruct (_ <? _); [by intros [= <- <- <-] |]. intros E. eapply (set_floor_spec w scope (mkFloor epoch sender)); [done | done | | done].
      intros f' Hf'. rewrite Ef in Hf'. injection Hf' as <-. left. cbn. lia.
  - destruct (Z.ltb_spec epoch 0); [lia |]. destruct (_ <? _); [by intros [= <- <- <-] |].
    intros E. eapply (set_floor_spec w scope (mkFloor epoch sender)); [done | done | | done]. by rewrite Ef.
Qed.

(** ** A restarted hand has the floors it acked *)

Lemma load_floors_spec documents floors :
  (forall d, d ∈ documents -> exists scope f, d = (floor_key scope, floor_json f) /\ floor_bounds f) ->
  exists floors', load_floors documents floors = Some floors' /\
    forall scope, floors' !! scope = floors !! scope /\ (forall v, (floor_key scope, v) ∉ documents) \/
      exists f, floors' !! scope = Some f /\ floor_bounds f /\ (floor_key scope, floor_json f) ∈ documents.
Proof.
  revert floors. induction documents as [| d ds IH]; intros floors Hd; cbn [load_floors].
  { exists floors. split; [done |]. intros scope. left. split; [done |]. intros v Hv. by apply not_elem_of_nil in Hv. }
  destruct (Hd d ltac:(by left)) as (sc & f & -> & Hb). cbn [fst snd]. rewrite (floor_round f Hb).
  unfold floor_key at 1. rewrite drop_app_length.
  destruct (IH (<[sc := f]> floors)) as (floors' & -> & Hall); [intros; apply Hd; by right |].
  exists floors'. split; [done |]. intros scope. destruct (Hall scope) as [[Hl Hno] | (g & Hg & Hgb & Hin)]; [| right; exists g; split_and!; [done | done | by right]].
  destruct (decide (scope = sc)) as [-> | Hne].
  - right. exists f. rewrite Hl, lookup_insert_eq. split_and!; [done | done | by left].
  - left. rewrite Hl, lookup_insert_ne by done. split; [done |]. intros v [Hv | Hv]%elem_of_cons; [| by apply (Hno v)].
    by injection Hv as Hv _.
Qed.

Lemma starts_floor_key key : startsWith key EPOCH_FLOOR_PREFIX = true -> exists scope, key = floor_key scope.
Proof.
  unfold startsWith. intros Hk%bool_decide_eq_true. exists (drop (length EPOCH_FLOOR_PREFIX) key).
  unfold floor_key. rewrite <- Hk at 1. by rewrite take_drop.
Qed.

Lemma ready_spec s : stored_ok s ->
  exists floors, ready true s = Some floors /\ fence_ok s floors /\ forall scope, floors !! scope = stored_floor s scope.
Proof.
  intros [Hs Hv]. cbn [ready].
  assert (Hscan : forall d, d ∈ scanDocuments s EPOCH_FLOOR_PREFIX -> exists scope f, d = (floor_key scope, floor_json f) /\ floor_bounds f).
  { intros [k v] [Hk Hp]%scan_documents; [| done]. apply starts_floor_key in Hp as [scope ->]. destruct (Hv scope v Hk) as (f & -> & Hb). by exists scope, f. }
  destruct (load_floors_spec _ ∅ Hscan) as (floors & -> & Hall). exists floors. split; [done |].
  assert (Hst : forall scope, floors !! scope = stored_floor s scope).
  { intros scope. unfold stored_floor. destruct (Hall scope) as [[-> Hno] | (f & -> & Hb & Hin)].
    - rewrite lookup_empty. destruct (getDocument s (floor_key scope)) as [v |] eqn:E; [| done]. destruct (Hno v). apply scan_documents; [done |].
      split; [done |]. unfold startsWith, floor_key. rewrite take_app_length. by apply bool_decide_eq_true.
    - apply scan_documents in Hin as [-> _]; [| done]. cbn. by rewrite floor_round. }
  split; [| done]. split; [by split |]. intros scope f Hf. rewrite Hst in Hf. split.
  - unfold stored_floor in Hf. destruct (getDocument s (floor_key scope)) as [v |] eqn:E; [| done]. destruct (Hv scope v E) as (g & -> & Hb).
    cbn in Hf. rewrite floor_round in Hf by done. by injection Hf as <-.
  - exists f. split; [done | apply reaches_refl].
Qed.

(** What memory has reached, the restarted memory has reached. *)
Lemma restart_reaches s floors floors' sc e o :
  fence_ok s floors -> (forall scope, floors' !! scope = stored_floor s scope) -> scope_reaches floors sc e o -> scope_reaches floors' sc e o.
Proof.
  intros [_ Hf] Hst (f & Hl & Hr). destruct (Hf sc f Hl) as (_ & g & Hg & Hgr). exists g. rewrite Hst. split; [done |]. by eapply reaches_trans.
Qed.

(** A message that is admitted at an epoch its scope has reached is the owner's. *)
Lemma admits_reached floors scope epoch sender :
  scope_reaches floors scope epoch sender -> admits floors scope (Some epoch) sender = true ->
  exists f, floors !! scope = Some f /\ fl_epoch f = epoch /\ fl_owner f = sender.
Proof.
  intros (f & Hl & Hr). unfold admits. rewrite Hl. cbn. intros [H1 | H1]%orb_true_iff.
  - apply Z.ltb_lt in H1. unfold reaches in Hr. lia.
  - apply andb_true_iff in H1 as [H1%Z.eqb_eq H2%bool_decide_eq_true]. by exists f.
Qed.
End FenceFacts.
