(* ===== verification/RemoteHand.v ===== *)
(** * The hand's side of remote calls (packages/agent/src/execution: remote-protocol.ts, remote-hand-ledger.ts, remote-executor.ts)

A hand runs the calls that sessions send it.  Every call is walked through the
execution ledger up to its dispatch before anything of it runs, so that a hand that
dies leaves a record; every step of the walk checks the sender's epoch against the
floor of the scope.  The walk is a program whose steps interleave with everything
else the process does; a step is one operation on the store.

The hand here keeps a ledger and a fence on one store.  Opening a scope, running a
tool and checking a grant are inputs of the operations.  A recorded result is its
JSON text, as it is stored; nested requests are not modelled. *)
From S2P Require Import Prelude JsString JsonText JsNumber JsObject Json DurableStore Ledger Summary RemoteEpoch.
#[local] Open Scope Z_scope.

(** ** Messages (remote-protocol.ts) *)

Definition HAND_CONTROL_LANE : jstring := $"hand.control".

Record RemoteInvoke := mkInvoke {
  executionId : jstring; i_epoch : option Z; batchId : jstring; index : Z; scope_id : jstring; scope_root : jstring;
  i_toolCallId : jstring; i_name : jstring; i_arguments : json; sessionRef : option jstring }.

Record RemoteFile := mkFile { f_executionId : jstring; f_epoch : option Z; f_scope_id : jstring; f_scope_root : jstring; f_op : jstring; file_args : json }.

(** What a session sends. *)
Inductive SessionMessage :=
| InvokeMsg (i : RemoteInvoke)
| FileMsg (f : RemoteFile)
| AbortMsg (id : jstring) (epoch : option Z)
| AckMsg (id : jstring) (epoch : option Z)
| FloorMsg (epoch : Z).

(** What a hand sends. *)
Inductive HandMessage :=
| SettledMsg (id : jstring) (result : json)
| TerminalMsg (id : jstring) (reason : StopReason) (unsure hooksRan : bool)
| RefusedMsg (id : jstring) (reason : jstring)
| FloorReply (raise : FloorRaise)
| HelloMsg (instance : jstring) (durable : bool) (ops : list jstring).

(** A file operation as the admission sees it (remote-file-call.ts). *)
Definition fileCall (m : RemoteFile) : RemoteInvoke :=
  mkInvoke (f_executionId m) (f_epoch m) (f_executionId m) 0 (f_scope_id m) (f_scope_root m) (f_executionId m)
    ($"file." ++ f_op m) (file_args m) None.

Definition text_result (text : jstring) : json :=
  object_json [($"content", JsArr [object_json [($"type", JsStr $"text"); ($"text", JsStr text)]]); ($"details", object_json []); ($"isError", JsBool true)].

Definition fileRefusal (code message : jstring) : json :=
  object_json [($"content", JsArr []);
    ($"details", object_json [($"file", object_json [($"ok", JsBool false); ($"code", JsStr code); ($"message", JsStr message)])]);
    ($"isError", JsBool true)].

Definition fileStopped (granted : bool) : json :=
  if granted then fileRefusal $"aborted" $"the operation was aborted" else fileRefusal $"refused_by_grant" $"the grant was revoked".

(** ** The hand's ledger (remote-hand-ledger.ts) *)

Inductive HandAdmission := Run | Answer (message : HandMessage) | InFlight.

Definition GENERATION : num := of_Z 1.

Definition refusal_text (r : LedgerRefusal) : jstring :=
  match r with
  | not_found => $"not_found" | identity_conflict => $"identity_conflict" | invalid_admission => $"invalid_admission"
  | stale_generation => $"stale_generation" | unauthorized => $"unauthorized" | invalid_transition => $"invalid_transition"
  | invalid_renewal => $"invalid_renewal" | invalid_time => $"invalid_time" | terminal => $"terminal" | epoch_fenced => $"epoch_fenced"
  end.

Definition outcomeOf (entry : ExecutionEntry) : option HandMessage :=
  let id := commandId (a_key (admission entry)) in
  match progress entry with
  | Acked => Some (RefusedMsg id $"result_expired")
  | Settled (ResultOutcome value _) => Some (SettledMsg id value)
  | Settled (BlockedOutcome _ _) => Some (RefusedMsg id $"foreign_outcome")
  | Settled (StoppedOutcome reason hooksRan unsure) => Some (TerminalMsg id reason unsure hooksRan)
  | _ => None
  end.

Definition replyFrom (reply : LedgerReply) (id : jstring) : HandMessage :=
  match reply with
  | RefusedReply reason => RefusedMsg id (refusal_text reason)
  | ResultExpired => RefusedMsg id $"result_expired"
  | Applied entry | Replayed entry => default (RefusedMsg id $"not_settled") (outcomeOf entry)
  end.

(** The identity of a hand's ledger: who sends the calls, who runs them. *)
Record HandIdentity := mkHand { h_issuer : jstring; h_executor : jstring; h_workspace : jstring; leaseMs : num }.

Section Hand.
Context {St : Type} `{DurableStore St} (number_text : num -> jstring).

Definition keyOf (hand : HandIdentity) (id : jstring) : ExecutionKey := mkKey (h_issuer hand) id.

Definition hand_command (hand : HandIdentity) (id : jstring) (event : ExecutionEvent) (actor : jstring) (now : num) : ExecutionCommand :=
  mkCommand (keyOf hand id) GENERATION (mkActor actor None) now event.

Definition call_digest (i : RemoteInvoke) : jstring := stringify number_text (JsArr [JsStr (i_name i); i_arguments i]).

Definition frozen_call (i : RemoteInvoke) : FrozenCall := mkFrozen (i_name i) (i_arguments i) (call_digest i).

Definition new_admission (hand : HandIdentity) (i : RemoteInvoke) (admittedAt : num) : ExecutionAdmission :=
  mkAdmission (keyOf hand (executionId i)) (h_executor hand) (h_workspace hand) (scope_id i) GENERATION (call_digest i)
    admittedAt (num_add admittedAt (leaseMs hand)) false.

Inductive WalkStep := StepNew | StepPrepare | StepEffect | StepFreeze | StepRelease.

(** Where the walk of a call stands. *)
Inductive WalkAt :=
| AtRead
| AtSteps (steps : list WalkStep)
| AtFencedRead
| AtFencedCancel.

Inductive WalkNext := Go (at_ : WalkAt) | Done (admission : HandAdmission) | Faulted.

Definition is_fenced (reply : LedgerReply) : bool := match reply with RefusedReply epoch_fenced => true | _ => false end.
Definition is_settled (e : ExecutionEntry) : bool := match progress e with Settled _ => true | _ => false end.

Definition first_steps : list WalkStep := [StepNew; StepPrepare; StepEffect; StepFreeze; StepRelease].

Definition after_read (i : RemoteInvoke) (prior : option ExecutionEntry) : WalkNext :=
  match prior with
  | None => Go (AtSteps first_steps)
  | Some e =>
      if negb (bool_decide (requestDigest (admission e) = call_digest i)) || negb (bool_decide (scope (admission e) = scope_id i))
      then Done (Answer (RefusedMsg (executionId i) $"identity_conflict"))
      else match outcomeOf e with
           | Some message => Done (Answer message)
           | None => match progress e with Prepared _ | Released _ => Go (AtSteps [StepRelease]) | _ => Done InFlight end
           end
  end.

(** After a step of the loop; the dispatch comes after the last. *)
Definition after_step (i : RemoteInvoke) (rest : list WalkStep) (reply : LedgerReply) : WalkNext :=
  if is_fenced reply then Go AtFencedRead
  else match reply with
       | Applied e | Replayed e => if is_settled e then Done (Answer (replyFrom reply (executionId i))) else Go (AtSteps rest)
       | _ => Done (Answer (replyFrom reply (executionId i)))
       end.

Definition after_dispatch (i : RemoteInvoke) (reply : LedgerReply) : WalkNext :=
  if is_fenced reply then Go AtFencedRead
  else match reply with
       | Applied e => match progress e with Dispatched _ => Done Run | _ => Done (Answer (replyFrom reply (executionId i))) end
       | Replayed e => if is_settled e then Done (Answer (replyFrom reply (executionId i))) else Done InFlight
       | _ => Done (Answer (replyFrom reply (executionId i)))
       end.

Definition fenced_answer (i : RemoteInvoke) : HandAdmission := Answer (RefusedMsg (executionId i) $"epoch_fenced").

(** The operation of a step on the ledger; [fenced] is what the sender's epoch check says inside it. *)
Definition step_op (hand : HandIdentity) (w : attempt) (now : num) (fenced : bool) (i : RemoteInvoke) (step : option WalkStep) : ledger_op :=
  let guard := if fenced then Some epoch_fenced else None in
  let by_executor event := OpApply w guard (hand_command hand (executionId i) event (h_executor hand) now) in
  match step with
  | Some StepNew => OpAdmit w guard (new_admission hand i now)
  | Some StepPrepare => by_executor EvPrepare
  | Some StepEffect => by_executor EvEffect
  | Some StepFreeze => by_executor (EvFreeze (frozen_call i) false)
  | Some StepRelease => OpApply w guard (hand_command hand (executionId i) EvRelease (h_issuer hand) now)
  | None => by_executor EvDispatch
  end.

Definition cancel_op (hand : HandIdentity) (w : attempt) (now : num) (i : RemoteInvoke) : ledger_op :=
  OpApply w None (hand_command hand (executionId i) EvCancel (h_issuer hand) now).

(** One step of a walk: the operation it carries out, if any, and where the walk goes with its outcome. *)
Definition walk_op (hand : HandIdentity) (w : attempt) (now : num) (fenced : bool) (i : RemoteInvoke) (at_ : WalkAt) : option ledger_op :=
  match at_ with
  | AtRead | AtFencedRead => None
  | AtSteps [] => Some (step_op hand w now fenced i None)
  | AtSteps (step :: _) => Some (step_op hand w now fenced i (Some step))
  | AtFencedCancel => Some (cancel_op hand w now i)
  end.

Definition walk_next (hand : HandIdentity) (i : RemoteInvoke) (at_ : WalkAt) (s : St) (out : option (result LedgerFailure LedgerReply)) : WalkNext :=
  match at_ with
  | AtRead => match read s (keyOf hand (executionId i)) with Ok prior => after_read i prior | Err _ => Faulted end
  | AtFencedRead =>
      match read s (keyOf hand (executionId i)) with
      | Ok None => Done (fenced_answer i)
      | Ok (Some _) => Go AtFencedCancel
      | Err _ => Faulted
      end
  | AtFencedCancel => match out with Some (Ok _) => Done (fenced_answer i) | _ => Faulted end
  | AtSteps steps =>
      match out with
      | Some (Ok reply) => match steps with [] => after_dispatch i reply | _ :: rest => after_step i rest reply end
      | _ => Faulted
      end
  end.

Definition settle_op (hand : HandIdentity) (w : attempt) (now : num) (id : jstring) (result : json) : ledger_op :=
  OpApply w None (hand_command hand id (EvResult (JsStr (stringify number_text result))) (h_executor hand) now).

Definition ack_op (hand : HandIdentity) (w : attempt) (now : num) (fenced : bool) (id : jstring) : ledger_op :=
  OpApply w (if fenced then Some epoch_fenced else None) (hand_command hand id EvAck (h_issuer hand) now).

(** What a restarted hand sends again: the outcomes not acknowledged, by lane. *)
Definition unacknowledged (entries : list ExecutionEntry) : list (jstring * HandMessage) :=
  omap (fun e => if is_settled e then (fun m => (scope (admission e), m)) <$> outcomeOf e else None) entries.
End Hand.
