(* ===== verification/RemoteLink.v ===== *)
(** * The session's end of a link to a hand (packages/agent/src/execution/remote-link.ts)

Calls and file operations that wait for their outcome, the gate each waits on before
it is sent, the hand's replies, and the one re-send: when a durable hand says hello.
An operation returns the messages handed to the transport.  A continuation on the
gate's promise is an entry of [waiters] and runs in an operation of its own, after
the promise is resolved.  The wait for a hello with its timer and nested requests are
not modelled. *)
From S2P Require Import Prelude JsString JsObject Json JsMap DurableStore Ledger RemoteEpoch RemoteHand.
#[local] Open Scope Z_scope.

Inductive HandReply :=
| SettledReply (result : json)
| TerminalReply (reason : StopReason) (unsure hooksRan : bool)
| RefusedCall (reason : jstring)
| AbortedReply (reached : bool)
| UnreachableReply (reason : jstring)
| ClosedReply
| EpochRefused (reason : GateRefusal).

(** A call or a file operation. *)
Inductive Request := CallRequest (i : RemoteInvoke) | FileRequest (f : RemoteFile).

Definition request_id (r : Request) : jstring := match r with CallRequest i => executionId i | FileRequest f => f_executionId f end.
Definition request_lane (r : Request) : jstring := match r with CallRequest i => scope_id i | FileRequest f => f_scope_id f end.
Definition request_message (r : Request) : SessionMessage := match r with CallRequest i => InvokeMsg i | FileRequest f => FileMsg f end.
Definition request_epoch (r : Request) : option Z := match r with CallRequest i => i_epoch i | FileRequest f => f_epoch f end.

(** [{ ...unstamped, ...stamp }] *)
Definition stamp (epoch : option Z) (r : Request) : Request :=
  match epoch with
  | None => r
  | Some _ =>
      match r with
      | CallRequest (mkInvoke id _ b ix sid sroot tc n a ref) => CallRequest (mkInvoke id epoch b ix sid sroot tc n a ref)
      | FileRequest (mkFile id _ sid sroot op a) => FileRequest (mkFile id epoch sid sroot op a)
      end
  end.

(** What waits on the gate: the first send of a request or its re-send. *)
Record Waiter := mkWaiter { wt_request : Request; wt_opening : Opening; wt_resend : bool }.

Record Link := mkLink {
  l_sender : jstring; l_epoch : option Z; pending : list (jstring * Request); sent : gset jstring; gate : Gate;
  waiters : list Waiter; replies : list (jstring * HandReply) }.

Definition new_link (sender : jstring) (epoch : option Z) : Link := mkLink sender epoch [] ∅ (mkGate [] ∅) [] [].

Notation Sends := (list (jstring * SessionMessage)).

Definition with_gate (l : Link) (g : Gate) : Link := mkLink (l_sender l) (l_epoch l) (pending l) (sent l) g (waiters l) (replies l).
Definition add_waiter (l : Link) (w : Waiter) : Link := mkLink (l_sender l) (l_epoch l) (pending l) (sent l) (gate l) (waiters l ++ [w]) (replies l).

(** [settle]: the call's promise resolves, once. *)
Definition settle (id : jstring) (reply : HandReply) (l : Link) : Link :=
  if map_has (pending l) id then
    mkLink (l_sender l) (l_epoch l) (map_delete (pending l) id) (sent l ∖ {[id]}) (gate l) (waiters l) (replies l ++ [(id, reply)])
  else l.

Definition go (r : Request) (l : Link) : Link * Sends :=
  (mkLink (l_sender l) (l_epoch l) (pending l) ({[request_id r]} ∪ sent l) (gate l) (waiters l) (replies l), [(request_lane r, request_message r)]).

(** [whenOpen]: without an epoch at once, else the lane's gate decides, later. *)
Definition when_open (r : Request) (resend : bool) (l : Link) : Link * Sends :=
  match l_epoch l with
  | None => if resend then (l, [(request_lane r, request_message r)]) else go r l
  | Some epoch =>
      let '(g, floor, opening) := gate_open (request_lane r) (gate l) in
      (add_waiter (with_gate l g) (mkWaiter r opening resend),
       if floor then [(request_lane r, FloorMsg epoch)] else [])
  end.

Definition dispatch (unstamped : Request) (aborted : bool) (l : Link) : Link * Sends :=
  let r := stamp (l_epoch l) unstamped in
  let l := mkLink (l_sender l) (l_epoch l) (map_set (pending l) (request_id r) r) (sent l) (gate l) (waiters l) (replies l) in
  if aborted then (settle (request_id r) (AbortedReply false) l, []) else when_open r false l.

(** The abort of a dispatched request. *)
Definition on_abort (r : Request) (l : Link) : Link * Sends :=
  let id := request_id r in
  if map_has (pending l) id then
    let reached := bool_decide (id ∈ sent l) in
    (settle id (AbortedReply reached) l, if reached then [(request_lane r, AbortMsg id (l_epoch l))] else [])
  else (l, []).

(** What the promise of an opening was resolved with, if it is. *)
Definition opened (g : Gate) (o : Opening) : option (option GateRefusal) :=
  match o with Decided refusal => Some refusal | Waiting lane asked => resolved g !! (lane, asked) end.

(** The continuation of waiter [n], once its promise is resolved. *)
Definition resume (n : nat) (l : Link) : Link * Sends :=
  match waiters l !! n with
  | None => (l, [])
  | Some w =>
      match opened (gate l) (wt_opening w) with
      | None => (l, [])
      | Some refusal =>
          let l := mkLink (l_sender l) (l_epoch l) (pending l) (sent l) (gate l) (delete n (waiters l)) (replies l) in
          let r := wt_request w in
          if map_has (pending l) (request_id r) then
            match refusal with
            | Some reason => (settle (request_id r) (EpochRefused reason) l, [])
            | None => if wt_resend w then (l, [(request_lane r, request_message r)]) else go r l
            end
          else (l, [])
      end
  end.

(** The first send of a call failed. *)
Definition send_failed (id reason : jstring) (l : Link) : Link := settle id (UnreachableReply reason) l.

Definition floor_failed (lane : jstring) (for_ : nat) (reason : jstring) (l : Link) : Link := with_gate l (floor_send_failed lane for_ reason (gate l)).

Definition ack_sends (lane id : jstring) (l : Link) : Sends := [(lane, AckMsg id (l_epoch l))].

(** The re-sends of a durable hand's hello, one waiting request after the other. *)
Fixpoint resend_waiting (waiting : list Request) (l : Link) : Link * Sends :=
  match waiting with
  | [] => (l, [])
  | r :: waiting =>
      if bool_decide (request_id r ∈ sent l) then
        let '(l, out) := when_open r true l in let '(l, more) := resend_waiting waiting l in (l, out ++ more)
      else resend_waiting waiting l
  end.

Definition on_hello (durable : bool) (l : Link) : Link * Sends :=
  let '(l, floors) :=
    match l_epoch l with
    | None => (l, [])
    | Some epoch => let '(g, asked) := gate_resend (gate l) in (with_gate l g, (fun lane => (lane, FloorMsg epoch)) <$> asked)
    end in
  if durable then let '(l, out) := resend_waiting (map_values (pending l)) l in (l, floors ++ out) else (l, floors).

Definition on_frame (lane : jstring) (message : HandMessage) (l : Link) : Link * Sends :=
  match message with
  | HelloMsg _ durable _ => on_hello durable l
  | FloorReply raise => (match l_epoch l with Some epoch => with_gate l (gate_answer epoch lane raise (gate l)) | None => l end, [])
  | SettledMsg id result => (settle id (SettledReply result) l, ack_sends lane id l)
  | TerminalMsg id reason unsure hooksRan => (settle id (TerminalReply reason unsure hooksRan) l, ack_sends lane id l)
  | RefusedMsg id reason => (settle id (RefusedCall reason) l, [])
  end.

Definition close (l : Link) : Link := foldl (fun l id => settle id ClosedReply l) l (pending l).*1.
