(* ===== verification/RemoteSystem.v ===== *)
(** * A hand, its links and what goes between them (packages/agent/src/execution: remote-executor.ts, with remote-link.ts and remote-hand-ledger.ts)

A process of the hand serves any number of links with one ledger, one fence and one
store; it can die at any step and start again from the store.  Each link has a
session's end of its own.  Messages stay in the carrier: they may arrive late, again
and in any order, as a reliable transport that is re-attached or a restarted peer may
make them.

The operations of the executor are functions; [step] says which can happen.  Inputs
of a step: what the grant check, the scope's opening and the tool say, who owns a
scope, the time, and where a commit is cut.  A process that gets an error from its
store answers no more for that call; it may also die there.  The closing of one
executor of a process is not modelled. *)
From S2P Require Import Prelude JsString JsNumber JsObject Json JsMap DurableStore Ledger RemoteEpoch RemoteHand RemoteLink.
#[local] Open Scope Z_scope.

(** ** The executor (remote-executor.ts) *)

(** Where a call stands after its frame was taken: its scope opens, its walk, its wait for earlier calls, its body, the
record of its result. *)
Inductive Phase :=
| Opening
| Walking (at_ : WalkAt)
| Queued
| Executing
| Settling (result : json)
| Finished.

Record Thread := mkThread {
  t_link : nat; t_lane : jstring; t_inv : RemoteInvoke; t_op : option jstring; t_phase : Phase; t_aborted : bool; t_deps : list nat }.

Record ScopeState := mkScope { sc_root : jstring; lastSequential : option nat; wave : list nat }.

Record Process := mkProcess { floors : gmap jstring Floor; owned : gset jstring; threads : list Thread; scopes : gmap (nat * jstring) ScopeState }.

(** A call whose dispatch this process was granted, and one whose body ended. *)
Inductive Event :=
| Accepted (scope : jstring) (epoch : option Z) (sender id : jstring)
| BodyEnded (id : jstring) (result : json).

Definition set_phase (t : Thread) (p : Phase) : Thread := mkThread (t_link t) (t_lane t) (t_inv t) (t_op t) p (t_aborted t) (t_deps t).
Definition with_threads (p : Process) (ts : list Thread) : Process := mkProcess (floors p) (owned p) ts (scopes p).
Definition set_thread (p : Process) (n : nat) (t : Thread) : Process := with_threads p (<[n := t]> (threads p)).

(** The messages of the hand, with their lane. *)
Notation Replies := (list (jstring * HandMessage)).

Definition refuse (lane id reason : jstring) : Replies := [(lane, RefusedMsg id reason)].

(** The checks before a call's scope is awaited.  [verdict] is the grant check: the canonical root, or why not. *)
Definition take_call (sender : jstring) (link : nat) (lane : jstring) (call : RemoteInvoke) (op : option jstring)
    (verdict : result jstring jstring) (p : Process) : Process * Replies :=
  if negb (bool_decide (lane = scope_id call)) then (p, refuse lane (executionId call) $"scope_lane_mismatch")
  else match verdict with
  | Err reason => (p, refuse lane (executionId call) reason)
  | Ok root =>
      if negb (admits (floors p) lane (i_epoch call) sender) then (p, refuse lane (executionId call) $"epoch_fenced")
      else
        let t := mkThread link lane call op Opening false [] in
        match scopes p !! (link, scope_id call) with
        | Some known =>
            if bool_decide (sc_root known = root) then (with_threads p (threads p ++ [t]), [])
            else (p, refuse lane (executionId call) $"scope_binding_mismatch")
        | None =>
            (mkProcess (floors p) (owned p) (threads p ++ [t]) (<[(link, scope_id call) := mkScope root None []]> (scopes p)), [])
        end
  end.

(** The scope opened, or it did not; then the ledger admits calls this process does not own yet. *)
Definition scope_opened (n : nat) (t : Thread) (failure : option jstring) (p : Process) : Process * Replies :=
  match failure with
  | Some reason => (set_thread p n (set_phase t Finished), refuse (t_lane t) (executionId (t_inv t)) ($"scope_unavailable: " ++ reason))
  | None =>
      if bool_decide (executionId (t_inv t) ∈ owned p) then (set_thread p n (set_phase t Finished), [])
      else (mkProcess (floors p) ({[executionId (t_inv t)]} ∪ owned p) (<[n := set_phase t (Walking AtRead)]> (threads p)) (scopes p), [])
  end.

Definition release_owner (id : jstring) (p : Process) : Process := mkProcess (floors p) (owned p ∖ {[id]}) (threads p) (scopes p).

(** A call that may run waits for what it must not overlap: a sequential one for all earlier calls of its scope, another for
the last sequential one. *)
Definition enqueue (n : nat) (t : Thread) (sequential : bool) (p : Process) : Process :=
  let key := (t_link t, scope_id (t_inv t)) in
  let state := default (mkScope [] None []) (scopes p !! key) in
  let last := match lastSequential state with Some d => [d] | None => [] end in
  let deps := if sequential then last ++ wave state else last in
  let state := if sequential then mkScope (sc_root state) (Some n) [] else mkScope (sc_root state) (lastSequential state) (wave state ++ [n]) in
  mkProcess (floors p) (owned p)
    (<[n := mkThread (t_link t) (t_lane t) (t_inv t) (t_op t) Queued (t_aborted t) deps]> (threads p)) (<[key := state]> (scopes p)).

(** Where a walk goes after one of its steps. *)
Definition walk_on (sender : jstring) (n : nat) (t : Thread) (sequential : bool) (next : WalkNext) (p : Process) : Process * Replies * list Event :=
  let id := executionId (t_inv t) in
  match next with
  | Go at_ => (set_thread p n (set_phase t (Walking at_)), [], [])
  | Faulted => (release_owner id (set_thread p n (set_phase t Finished)), [], [])
  | Done InFlight => (release_owner id (set_thread p n (set_phase t Finished)), [], [])
  | Done (Answer message) => (release_owner id (set_thread p n (set_phase t Finished)), [(t_lane t, message)], [])
  | Done Run => (enqueue n t (match t_op t with Some _ => true | None => sequential end) p, [], [Accepted (scope_id (t_inv t)) (i_epoch (t_inv t)) sender id])
  end.

Definition finished (p : Process) (d : nat) : bool := match threads p !! d with Some t => match t_phase t with Finished => true | _ => false end | None => true end.

Definition may_start (t : Thread) (p : Process) : bool := forallb (finished p) (t_deps t).

(** The grant must still hold when the body starts. *)
Definition start_body (n : nat) (t : Thread) (granted : bool) (p : Process) : Process * list Event :=
  if t_aborted t || negb granted then
    let result :=
      match t_op t with
      | Some _ => fileStopped granted
      | None => text_result $"The call's grant was revoked before it ran"
      end in
    (set_thread p n (set_phase t (Settling result)), [BodyEnded (executionId (t_inv t)) result])
  else (set_thread p n (set_phase t Executing), []).

(** The body ended with a result; a file operation that was stopped ships no data. *)
Definition end_body (n : nat) (t : Thread) (result : json) (granted : bool) (p : Process) : Process * list Event :=
  let result := match t_op t with Some _ => if t_aborted t then fileStopped granted else result | None => result end in
  (set_thread p n (set_phase t (Settling result)), [BodyEnded (executionId (t_inv t)) result]).

Definition running (t : Thread) : bool := match t_phase t with Queued | Executing => true | _ => false end.

Definition abort_thread (link : nat) (id : jstring) (t : Thread) : Thread :=
  if Nat.eqb (t_link t) link && bool_decide (executionId (t_inv t) = id) && running t
  then mkThread (t_link t) (t_lane t) (t_inv t) (t_op t) (t_phase t) true (t_deps t) else t.

(** An abort of the owner, or the loss of a grant. *)
Definition abort_call (link : nat) (id : jstring) (p : Process) : Process := with_threads p (abort_thread link id <$> threads p).

(** ** The system *)

Section System.
Context {St : Type} `{DurableStore St} (number_text : num -> jstring) (hand : HandIdentity).

Record System := mkSystem {
  store : St; process : option Process; links : list Link;
  up : list (nat * jstring * SessionMessage); down : list (nat * jstring * HandMessage); log : list Event }.

Definition sender_of (y : System) (n : nat) : jstring := match links y !! n with Some l => l_sender l | None => [] end.

Definition on_link {A} (n : nat) (out : list (jstring * A)) : list (nat * jstring * A) := (fun m => (n, m.1, m.2)) <$> out.

(** A link's operation. *)
Definition link_step (n : nat) (r : Link * Sends) (y : System) : System :=
  mkSystem (store y) (process y) (<[n := r.1]> (links y)) (up y ++ on_link n r.2) (down y) (log y).

(** What the process makes of an operation, and the store after it. *)
Definition hand_step (n : nat) (s : St) (r : Process * Replies * list Event) (y : System) : System :=
  mkSystem s (Some r.1.1) (links y) (up y) (down y ++ on_link n r.1.2) (log y ++ r.2).

(** A step of a walk, with the sender's epoch checked inside it. *)
Definition walk (n : nat) (t : Thread) (at_ : WalkAt) (w : attempt) (now : num) (sequential : bool) (p : Process) (y : System) : System :=
  let sender := sender_of y (t_link t) in
  let fenced := negb (admits (floors p) (t_lane t) (i_epoch (t_inv t)) sender) in
  let '(s, out) :=
    match walk_op number_text hand w now fenced (t_inv t) at_ with
    | Some op => ledger_step (store y) op
    | None => (store y, None)
    end in
  hand_step (t_link t) s (walk_on sender n t sequential (walk_next number_text hand (t_inv t) at_ (store y) out) p) y.

(** The record of a result, and the reply from the record; the call is no longer owned either way. *)
Definition settle_call (n : nat) (t : Thread) (result : json) (w : attempt) (now : num) (p : Process) (y : System) : System :=
  let id := executionId (t_inv t) in
  let '(s, out) := ledger_step (store y) (settle_op number_text hand w now id result) in
  hand_step (t_link t) s
    (release_owner id (set_thread p n (set_phase t Finished)),
     match out with Some (Ok reply) => [(t_lane t, replyFrom reply id)] | _ => [] end, []) y.

Definition ack_call (link : nat) (lane id : jstring) (epoch : option Z) (w : attempt) (now : num) (p : Process) (y : System) : System :=
  if admits (floors p) lane epoch (sender_of y link)
  then hand_step link (ledger_step (store y) (ack_op hand w now false id)).1 (p, [], []) y else y.

Definition raise_floor (link : nat) (lane : jstring) (epoch : Z) (w : attempt) (owner : option jstring) (p : Process) (y : System) : System :=
  let '(s, floors, r) := raise true w owner lane epoch (sender_of y link) (store y) (floors p) in
  hand_step link s
    (mkProcess floors (owned p) (threads p) (scopes p),
     match r with Ok reply => [(lane, FloorReply (answerFloor (Some reply)))] | Err _ => [] end, []) y.

(** A process starts: the floors of the store, the judgement of what an earlier process left, and its outcomes again. *)
Definition start_process (link : nat) (w : nat -> attempt) (now : num) (y : System) : System :=
  match ready true (store y) with
  | None => y
  | Some floors =>
      match recover w now (store y) with
      | (s, Err _) => mkSystem s None (links y) (up y) (down y) (log y)
      | (s, Ok _) =>
          match scan s with
          | Err _ => mkSystem s None (links y) (up y) (down y) (log y)
          | Ok entries => hand_step link s (mkProcess floors ∅ [] ∅, unacknowledged entries, []) y
          end
      end
  end.

Definition die (y : System) : System := mkSystem (store y) None (links y) (up y) (down y) (log y).

(** [isEpoch] *)
Definition epoch_ok (e : option Z) : Prop := match e with Some e => 1 <= e <= MAX_SAFE_INTEGER | None => True end.

Inductive step (y : System) : System -> Prop :=
(* the session's ends *)
| step_connect sender epoch : epoch_ok epoch ->
    step y (mkSystem (store y) (process y) (links y ++ [new_link sender epoch]) (up y) (down y) (log y))
| step_dispatch n l r aborted : links y !! n = Some l -> request_epoch r = None -> step y (link_step n (dispatch r aborted l) y)
| step_abort n l r : links y !! n = Some l -> step y (link_step n (on_abort r l) y)
| step_resume n l k : links y !! n = Some l -> step y (link_step n (resume k l) y)
| step_send_failed n l id reason : links y !! n = Some l -> step y (link_step n (send_failed id reason l, []) y)
| step_floor_failed n l lane for_ reason : links y !! n = Some l -> step y (link_step n (floor_failed lane for_ reason l, []) y)
| step_close n l : links y !! n = Some l -> step y (link_step n (close l, []) y)
| step_reply n l lane m : links y !! n = Some l -> (n, lane, m) ∈ down y -> step y (link_step n (on_frame lane m l) y)
(* the hand takes a message *)
| step_invoke n lane i p verdict : process y = Some p -> (n, lane, InvokeMsg i) ∈ up y -> epoch_ok (i_epoch i) ->
    step y (hand_step n (store y) (take_call (sender_of y n) n lane i None verdict p, []) y)
| step_file n lane f p verdict : process y = Some p -> (n, lane, FileMsg f) ∈ up y -> epoch_ok (f_epoch f) ->
    step y (hand_step n (store y) (take_call (sender_of y n) n lane (fileCall f) (Some (f_op f)) verdict p, []) y)
| step_hand_abort n lane id epoch p : process y = Some p -> (n, lane, AbortMsg id epoch) ∈ up y ->
    admits (floors p) lane epoch (sender_of y n) = true -> step y (hand_step n (store y) (abort_call n id p, [], []) y)
| step_ack n lane id epoch w now p : process y = Some p -> (n, lane, AckMsg id epoch) ∈ up y -> step y (ack_call n lane id epoch w now p y)
| step_floor n lane e w owner p : process y = Some p -> (n, lane, FloorMsg e) ∈ up y -> epoch_ok (Some e) -> step y (raise_floor n lane e w owner p y)
(* the hand goes on with a call *)
| step_opened n t failure p : process y = Some p -> threads p !! n = Some t -> t_phase t = Opening ->
    step y (hand_step (t_link t) (store y) (scope_opened n t failure p, []) y)
| step_walk n t at_ w now sequential p : process y = Some p -> threads p !! n = Some t -> t_phase t = Walking at_ ->
    step y (walk n t at_ w now sequential p y)
| step_start n t granted p : process y = Some p -> threads p !! n = Some t -> t_phase t = Queued -> may_start t p = true ->
    step y (hand_step (t_link t) (store y) ((start_body n t granted p).1, [], (start_body n t granted p).2) y)
| step_end n t result granted p : process y = Some p -> threads p !! n = Some t -> t_phase t = Executing ->
    step y (hand_step (t_link t) (store y) ((end_body n t result granted p).1, [], (end_body n t result granted p).2) y)
| step_settle n t result w now p : process y = Some p -> threads p !! n = Some t -> t_phase t = Settling result ->
    step y (settle_call n t result w now p y)
| step_revoked n id p : process y = Some p -> step y (hand_step n (store y) (abort_call n id p, [], []) y)
| step_hello n instance ops p : process y = Some p -> step y (hand_step n (store y) (p, [(HAND_CONTROL_LANE, HelloMsg instance true ops)], []) y)
(* the process *)
| step_die : step y (die y)
| step_restart n w now : process y = None -> step y (start_process n w now y).

Inductive reach (s0 : St) : System -> Prop :=
| reach_init : reach s0 (mkSystem s0 None [] [] [] [])
| reach_step y y' : reach s0 y -> step y y' -> reach s0 y'.
End System.

Arguments System _ : clear implicits.
