(* ===== verification/RemoteCorrect.v ===== *)
(** * What moving sessions between owners cannot break

Invariants of a hand with its links: a link sends calls only on lanes it was acked,
and what a link has been acked its scope has reached, in memory and across restarts,
so that only the owner's calls are granted at an epoch.  Floors are kept apart from
the rows of the ledger. *)
From S2P Require Import Prelude JsString JsonText JsNumber JsObject Json JsMap DurableStore Ledger Summary RemoteEpoch RemoteHand RemoteLink RemoteSystem.
#[local] Open Scope Z_scope.

(** ** A link sends calls only on lanes it was acked *)

Section Links.
(** What it takes for a lane to be open. *)
Context (C : jstring -> Prop).

Definition waiter_ok (l : Link) (w : Waiter) : Prop :=
  request_epoch (wt_request w) = l_epoch l /\
  match wt_opening w with
  | Decided None => C (request_lane (wt_request w))
  | Decided (Some _) => True
  | Waiting lane _ => lane = request_lane (wt_request w)
  end.

Record gate_ok (g : Gate) : Prop := {
  gate_lanes : forall lane a, map_get (lanes g) lane = Some (mkLane a (Some None)) -> C lane;
  gate_resolved : forall lane a, resolved g !! (lane, a) = Some None -> C lane }.

Record link_ok (l : Link) : Prop := {
  link_gate : gate_ok (gate l);
  link_waiters : Forall (waiter_ok l) (waiters l);
  link_pending : Forall (fun r => request_epoch r.2 = l_epoch l) (pending l);
  link_epoch : epoch_ok (l_epoch l);
  link_unfenced : l_epoch l = None -> forall lane, C lane }.

Definition send_ok (l : Link) (m : jstring * SessionMessage) : Prop :=
  match m.2 with
  | InvokeMsg i => m.1 = scope_id i /\ i_epoch i = l_epoch l /\ C m.1
  | FileMsg f => m.1 = f_scope_id f /\ f_epoch f = l_epoch l /\ C m.1
  | FloorMsg e => l_epoch l = Some e
  | AbortMsg _ _ | AckMsg _ _ => True
  end.

(** An operation keeps who the link is, its invariant, and sends only what it may. *)
Definition keeps (l : Link) (r : Link * Sends) : Prop :=
  l_sender r.1 = l_sender l /\ l_epoch r.1 = l_epoch l /\ link_ok r.1 /\ Forall (send_ok l) r.2.

Lemma request_send_ok l r : request_epoch r = l_epoch l -> C (request_lane r) -> send_ok l (request_lane r, request_message r).
Proof. by destruct r. Qed.

Lemma settle_keeps id reply l : link_ok l -> keeps l (settle id reply l, []).
Proof.
  intros [Hg Hw Hp He Hu]. unfold settle. destruct (map_has (pending l) id); [| by split_and!; [| | split |]].
  split_and!; [done .. | | constructor]. split; [done | exact Hw | | done | done]. cbn.
  apply Forall_forall. intros x Hx%elem_of_map_delete. rewrite Forall_forall in Hp. by apply Hp.
Qed.

Lemma keeps_refl l : link_ok l -> keeps l (l, []).
Proof. intros H. by split_and!. Qed.

Lemma go_keeps r l : link_ok l -> request_epoch r = l_epoch l -> C (request_lane r) -> keeps l (go r l).
Proof.
  intros [Hg Hw Hp He Hu] Hr HC. split_and!; [done .. | by split | constructor; [by apply request_send_ok | constructor]].
Qed.

Lemma decide_ok lane for_ refusal g : gate_ok g -> (refusal = None -> C lane) -> gate_ok (decide_lane lane for_ refusal g).
Proof.
  intros [Hl Hr] HC. split; cbn.
  - intros lane' a. rewrite map_get_set. case_decide as Hd; [intros [= <- ->]; subst; by apply HC | apply Hl].
  - intros lane' a. destruct (decide ((lane, for_) = (lane', a))) as [[= <- <-] | Hne].
    + rewrite lookup_insert_eq. intros [= ->]. by apply HC.
    + rewrite lookup_insert_ne by done. apply Hr.
Qed.

Lemma with_gate_keeps l g : link_ok l -> gate_ok g -> keeps l (with_gate l g, []).
Proof. intros [Hg Hw Hp He Hu] Hg'. by split_and!; [| | split |]. Qed.

Lemma floor_failed_keeps lane for_ reason l : link_ok l -> keeps l (floor_failed lane for_ reason l, []).
Proof.
  intros H. apply with_gate_keeps; [done |]. unfold floor_send_failed. destruct (map_get _ _) as [[a [|]] |]; try apply H.
  destruct (Nat.eqb _ _); [| apply H]. by apply decide_ok; [apply H |].
Qed.

Lemma gate_open_ok lane g g' floor opening :
  gate_ok g -> gate_open lane g = (g', floor, opening) ->
  gate_ok g' /\ match opening with Decided None => C lane | Decided (Some _) => True | Waiting lane' _ => lane' = lane end.
Proof.
  intros [Hl Hr]. unfold gate_open. destruct (map_get (lanes g) lane) as [[a [[reason |] |]] |] eqn:E; intros [= <- <- <-]; split; try done.
  - by apply (Hl lane a).
  - split; cbn; [| done]. intros lane' a. rewrite map_get_set. case_decide; [done | apply Hl].
Qed.

Lemma when_open_keeps r resend l : link_ok l -> request_epoch r = l_epoch l -> keeps l (when_open r resend l).
Proof.
  intros H Hr. unfold when_open. destruct (l_epoch l) as [epoch |] eqn:Ee.
  - destruct (gate_open _ _) as [[g floor] opening] eqn:Eg. destruct (gate_open_ok _ _ _ _ _ (link_gate l H) Eg) as [Hg Ho].
    split_and!; [done | done | | destruct floor; [constructor; [exact Ee | constructor] | constructor]].
    destruct H as [_ Hw Hp He Hu]. split; [done | | done | done | done]. cbn. apply Forall_app. split; [exact Hw |].
    constructor; [| constructor]. split; [cbn; congruence | exact Ho].
  - assert (HC : C (request_lane r)) by by apply (link_unfenced l H).
    destruct resend; [| by apply go_keeps; [| rewrite Ee |]]. split_and!; [done | done | done |].
    constructor; [| constructor]. apply request_send_ok; [by rewrite Ee | done].
Qed.

Lemma stamp_epoch epoch r : request_epoch r = None -> request_epoch (stamp epoch r) = epoch.
Proof. destruct epoch; [by destruct r as [[] | []] | by destruct r]. Qed.

Lemma dispatch_keeps r aborted l : link_ok l -> request_epoch r = None -> keeps l (dispatch r aborted l).
Proof.
  intros H Hr. unfold dispatch. cbv zeta.
  set (l' := mkLink _ _ (map_set _ _ _) _ _ _ _).
  assert (H' : link_ok l').
  { destruct H as [Hg Hw Hp He Hu]. split; [done | exact Hw | | done | done]. apply Forall_forall. intros x [-> | Hx]%elem_of_map_set.
    - by apply stamp_epoch.
    - rewrite Forall_forall in Hp. by apply Hp. }
  assert (Hk : forall x, keeps l' x -> keeps l x) by done.
  apply Hk. destruct aborted; [by apply settle_keeps |]. apply when_open_keeps; [done |]. by apply stamp_epoch.
Qed.

Lemma on_abort_keeps r l : link_ok l -> keeps l (on_abort r l).
Proof.
  intros H. unfold on_abort. destruct (map_has _ _); [| by apply keeps_refl].
  destruct (settle_keeps (request_id r) (AbortedReply (bool_decide (request_id r ∈ sent l))) l H) as (Hs & He & Hok & _).
  split_and!; [done .. |]. case_bool_decide; [by constructor; [| constructor] | constructor].
Qed.

Lemma resume_keeps n l : link_ok l -> keeps l (resume n l).
Proof.
  intros H. unfold resume. destruct (waiters l !! n) as [w |] eqn:Ew; [| by apply keeps_refl].
  destruct (opened (gate l) (wt_opening w)) as [refusal |] eqn:Eo; [| by apply keeps_refl].
  set (l' := mkLink _ _ (pending l) _ _ (delete n (waiters l)) _).
  assert (H' : link_ok l') by (destruct H as [Hg Hw Hp He Hu]; split; [done | by apply Forall_delete | done | done | done]).
  assert (Hk : forall x, keeps l' x -> keeps l x) by done. apply Hk.
  destruct (map_has _ _); [| by apply keeps_refl].
  destruct refusal as [reason |]; [by apply settle_keeps |].
  assert (Hw : waiter_ok l w) by (eapply Forall_lookup_1; [apply H | done]). destruct Hw as [Hwe Hwo].
  assert (HC : C (request_lane (wt_request w))).
  { destruct (wt_opening w) as [[|] | lane a]; cbn in Eo; [done | done |]. rewrite <- Hwo. by apply (gate_resolved _ (link_gate l H) lane a). }
  destruct (wt_resend w); [| by apply go_keeps]. split_and!; [done | done | done |]. constructor; [by apply request_send_ok | constructor].
Qed.

Lemma resend_waiting_keeps waiting l :
  link_ok l -> Forall (fun r => request_epoch r = l_epoch l) waiting -> keeps l (resend_waiting waiting l).
Proof.
  revert l. induction waiting as [| r waiting IH]; intros l H Hw; cbn [resend_waiting]; [by apply keeps_refl |].
  inversion_clear Hw as [| ? ? Hr Hrest]. case_bool_decide; [| by apply IH].
  destruct (when_open_keeps r true l H Hr) as (Hs & He & Hok & Hsend). destruct (when_open r true l) as [l1 out]. cbn [fst snd] in *.
  destruct (IH l1 Hok) as (Hs2 & He2 & Hok2 & Hsend2); [by rewrite He |]. destruct (resend_waiting waiting l1) as [l2 more]. cbn [fst snd] in *.
  split_and!; cbn; [congruence | congruence | done |]. apply Forall_app. split; [done |].
  eapply Forall_impl; [exact Hsend2 |]. intros m. unfold send_ok. by rewrite He.
Qed.

Lemma gate_resend_ok g : gate_ok g -> gate_ok (gate_resend g).1.
Proof.
  intros [Hl Hr]. split; cbn; [| done]. intros lane a Hm. exfalso.
  assert (Hno : forall x : jstring * Lane, x ∈ (fun l => (l.1, if not_refused l.2 then ask l.2 else l.2)) <$> lanes g -> verdict x.2 <> Some None).
  { intros x ([k [n [[|] |]]] & -> & _)%list_elem_of_fmap; by cbn. }
  assert (Hin : exists x : jstring * Lane, x ∈ (fun l => (l.1, if not_refused l.2 then ask l.2 else l.2)) <$> lanes g /\ x.2 = mkLane a (Some None)).
  { revert Hm. generalize ((fun l : jstring * Lane => (l.1, if not_refused l.2 then ask l.2 else l.2)) <$> lanes g). unfold map_get.
    intros m. induction m as [| [k v] m IH]; cbn; [done |]. case_bool_decide.
    - intros [= ->]. eexists. split; [by left | done].
    - intros (x & Hx & ?)%IH. exists x. split; [by right | done]. }
  destruct Hin as (x & Hx & Ex). apply (Hno x Hx). by rewrite Ex.
Qed.

Lemma on_hello_keeps durable l : link_ok l -> keeps l (on_hello durable l).
Proof.
  intros H. unfold on_hello.
  assert (Hr : forall l0, link_ok l0 -> l_epoch l0 = l_epoch l -> Forall (fun r => request_epoch r = l_epoch l0) (map_values (pending l0))).
  { intros l0 [_ _ Hp _ _] _. apply Forall_forall. intros r (k & Hk)%elem_of_map_values. rewrite Forall_forall in Hp. by apply (Hp (k, r)). }
  assert (Hdone : forall l0 floors, link_ok l0 -> l_sender l0 = l_sender l -> l_epoch l0 = l_epoch l -> Forall (send_ok l) floors ->
    keeps l (if durable then let '(l2, out) := resend_waiting (map_values (pending l0)) l0 in (l2, floors ++ out) else (l0, floors))).
  { intros l0 fl H0 Hs He Hf. destruct durable; [| by split_and!].
    destruct (resend_waiting_keeps (map_values (pending l0)) l0 H0) as (Hs2 & He2 & Hok2 & Hsend2); [by apply Hr |].
    destruct (resend_waiting _ l0) as [l2 out]. cbn [fst snd] in *. split_and!; cbn; [congruence | congruence | done |].
    apply Forall_app. split; [done |]. eapply Forall_impl; [exact Hsend2 |]. intros m. unfold send_ok. by rewrite He. }
  destruct (l_epoch l) as [epoch |] eqn:Ee; [| by apply Hdone].
  destruct (gate_resend (gate l)) as [g asked] eqn:Eg. apply Hdone; [| done | done |].
  - destruct H as [Hg Hw Hp He Hu]. split; [| exact Hw | done | done | done]. cbn. pose proof (gate_resend_ok _ Hg) as Hg'. by rewrite Eg in Hg'.
  - apply Forall_forall. intros m (lane & -> & _)%list_elem_of_fmap. exact Ee.
Qed.

Lemma on_frame_keeps lane m l :
  link_ok l -> (forall epoch, m = FloorReply (FloorAcked epoch) -> l_epoch l = Some epoch -> C lane) -> keeps l (on_frame lane m l).
Proof.
  intros H HC. destruct m as [id result | id reason unsure hooksRan | id reason | raise | instance durable ops']; cbn [on_frame].
  - destruct (settle_keeps id (SettledReply result) l H) as (Hs & He & Hok & _). by split_and!; [| | | constructor; [| constructor]].
  - destruct (settle_keeps id (TerminalReply reason unsure hooksRan) l H) as (Hs & He & Hok & _). by split_and!; [| | | constructor; [| constructor]].
  - by apply settle_keeps.
  - destruct (l_epoch l) as [epoch |] eqn:Ee; [| by apply keeps_refl]. apply with_gate_keeps; [done |]. unfold gate_answer.
    destruct (map_get _ _) as [[a [|]] |]; try apply H. apply decide_ok; [apply H |].
    destruct raise as [floor | r]; [| done]. destruct (Z.eqb_spec floor epoch) as [-> |]; [intros _; by apply (HC epoch) | done].
  - by apply on_hello_keeps.
Qed.

Lemma close_keeps l : link_ok l -> keeps l (close l, []).
Proof.
  unfold close. generalize ((pending l).*1). intros ids H.
  assert (Hgen : forall l0, link_ok l0 -> l_sender l0 = l_sender l -> l_epoch l0 = l_epoch l ->
    keeps l (foldl (fun l id => settle id ClosedReply l) l0 ids, [])); [| by apply Hgen].
  induction ids as [| id ids IH]; intros l0 H0 Hs He; cbn [foldl]; [by split_and! |].
  destruct (settle_keeps id ClosedReply l0 H0) as (Hs1 & He1 & Hok1 & _). apply IH; [done | cbn in *; congruence | cbn in *; congruence].
Qed.
End Links.

(** ** The ledger leaves floors alone *)

Section Frames.
Context {St : Type} `{DurableStore St}.

Definition same_floors (s s' : St) : Prop := store_ok s' /\ forall scope, getDocument s' (floor_key scope) = getDocument s (floor_key scope).

Lemma floor_not_row scope k : floor_key scope <> ledger_key k.
Proof. done. Qed.

Lemma persist_floors w s e kind audit s' r : store_ok s -> persist w s e kind audit = (s', r) -> same_floors s s'.
Proof.
  intros Hs. unfold persist. destruct (store_commit _ _ _ s) as [s1 r1] eqn:E. intros [= <- <-].
  split; [by eapply commit_store_ok |]. intros scope. destruct (commit_all_or_none _ _ _ _ _ _ Hs E) as [[_ Hd] | Hd]; [done |].
  rewrite Hd. destruct audit; cbn; [done |]. rewrite bool_decide_eq_false_2; [done |]. intros E1. symmetry in E1. by apply floor_not_row in E1.
Qed.

Definition is_row_op (op : ledger_op) : Prop := match op with OpElse _ _ => False | _ => True end.

Lemma ledger_step_floors s op s' out : store_ok s -> is_row_op op -> ledger_step s op = (s', out) -> same_floors s s'.
Proof.
  intros Hs Hop. assert (Hrefl : same_floors s s) by done.
  assert (Hp : forall w e kind audit reply x, reply_after (persist w s e kind audit) reply = x -> same_floors s x.1).
  { intros w e kind audit reply x <-. destruct (persist w s e kind audit) as [s1 r1] eqn:E. by eapply persist_floors. }
  destruct op as [w guard a | w guard c | w ws]; cbn [ledger_step]; [| | done].
  - destruct (admit_execution w guard a s) as [s1 r] eqn:E. intros [= <- _]. unfold admit_execution in E.
    repeat (case_match; [..]); simplify_eq; try done. apply Hp in E. done.
  - destruct (apply w guard c s) as [s1 r] eqn:E. intros [= <- _]. unfold apply in E.
    repeat (case_match; [..]); simplify_eq; try done; by apply Hp in E.
Qed.

Lemma same_floors_trans s s1 s2 : same_floors s s1 -> same_floors s1 s2 -> same_floors s s2.
Proof. intros [_ H1] [Hs H2]. split; [done |]. intros scope. by rewrite H2. Qed.

(** A recovery is a run of the ledger that starts nothing. *)
Lemma recover_run w now i rows s s' r :
  recover_rows w now i rows s = (s', r) ->
  exists ops h, ledger_run s ops = (s', h) /\ Forall (fun op => is_row_op op /\ op_ok op) ops /\
    Forall (fun x => (forall k, starts k x = false) /\ match x.1 with OpApply _ _ c => event c = EvRestart | _ => False end) h.
Proof.
  revert i s. induction rows as [| d rows IH]; intros i s; cbn [recover_rows]; [intros [= <- <-]; by exists [], [] |].
  destruct (decodeExecution d.2) as [e | x]; [| intros [= <- <-]; by exists [], []].
  destruct (apply (w i) None (restart_command e now) s) as [s1 r1] eqn:E.
  assert (Hone : forall out, (forall k, starts k (OpApply (w i) None (restart_command e now), out) = false)) by (intros [[[]|]|] k; done).
  destruct r1 as [reply | x]; [| intros [= <- <-]].
  - intros (ops & h & Hrun & Hops & Hh)%IH. exists (OpApply (w i) None (restart_command e now) :: ops), ((OpApply (w i) None (restart_command e now), Some (Ok reply)) :: h).
    cbn [ledger_run ledger_step]. rewrite E, Hrun. split_and!; [done | by constructor | by constructor].
  - exists [OpApply (w i) None (restart_command e now)], [(OpApply (w i) None (restart_command e now), Some (Err x))].
    cbn [ledger_run ledger_step]. rewrite E. split_and!; [done | by repeat constructor | by repeat constructor].
Qed.

Lemma ledger_run_floors s ops s' h :
  sane s -> Forall (fun op => is_row_op op /\ op_ok op) ops -> ledger_run s ops = (s', h) -> same_floors s s'.
Proof.
  revert s h. induction ops as [| op ops IH]; intros s h Hs Hops; cbn [ledger_run].
  { intros [= <- <-]. split; [apply Hs | done]. }
  inversion_clear Hops as [| ? ? [Hr Hok] Hrest]. destruct (ledger_step s op) as [s1 out] eqn:E.
  destruct (ledger_run s1 ops) as [s2 h2] eqn:E2. intros [= <- <-].
  eapply same_floors_trans; [eapply ledger_step_floors; [apply Hs | done | exact E] |]. eapply (IH s1); [| done | exact E2].
  by apply (ledger_step_sane _ _ _ _ Hs Hok E).
Qed.
End Frames.

(** ** One owner at a time *)

Section Owners.
Context {St : Type} `{DurableStore St} (number_text : num -> jstring) (hand : HandIdentity).
Implicit Types (y : System St) (p : Process).

(** What the scope has reached, in memory or, between two processes, in the store. *)
Definition reached y (lane : jstring) (e : Z) (o : jstring) : Prop :=
  match process y with
  | Some p => scope_reaches (floors p) lane e o
  | None => exists g, stored_floor (store y) lane = Some g /\ reaches g e o
  end.

Definition fenced_ok y : Prop :=
  match process y with Some p => fence_ok (store y) (floors p) | None => stored_ok (store y) end.

(** Link [n], when it has an epoch, owns the lane at it. *)
Definition claim y (n : nat) (lane : jstring) : Prop :=
  forall l e, links y !! n = Some l -> l_epoch l = Some e -> reached y lane e (l_sender l).

Definition thread_ok y (t : Thread) : Prop :=
  t_lane t = scope_id (t_inv t) /\ exists l, links y !! t_link t = Some l /\ i_epoch (t_inv t) = l_epoch l /\ claim y (t_link t) (t_lane t).

Definition event_ok y (ev : Event) : Prop :=
  match ev with Accepted sc (Some e) o _ => 1 <= e /\ reached y sc e o | _ => True end.

(** An accepted call and a later one of the same scope: the epoch grew, or it is the same and so is the owner. *)
Definition in_order (earlier later : Event) : Prop :=
  match earlier, later with
  | Accepted sc ep o _, Accepted sc' ep' o' _ =>
      sc = sc' -> default 0 ep < default 0 ep' \/ ep = ep' /\ (ep = None \/ o = o')
  | _, _ => True
  end.

Fixpoint ordered (l : list Event) : Prop := match l with [] => True | ev :: l => Forall (in_order ev) l /\ ordered l end.

Record inv y : Prop := {
  inv_sane : sane (store y);
  inv_fence : fenced_ok y;
  inv_links : forall n l, links y !! n = Some l -> link_ok (claim y n) l;
  inv_up : forall n lane m, (n, lane, m) ∈ up y -> exists l, links y !! n = Some l /\ send_ok (claim y n) l (lane, m);
  inv_down : forall n lane e, (n, lane, FloorReply (FloorAcked e)) ∈ down y ->
    exists l, links y !! n = Some l /\ (l_epoch l = Some e -> reached y lane e (l_sender l));
  inv_threads : forall p t, process y = Some p -> t ∈ threads p -> thread_ok y t;
  inv_log : Forall (event_ok y) (log y);
  inv_order : ordered (log y) }.

Lemma link_ok_mono (C C' : jstring -> Prop) l : (forall lane, C lane -> C' lane) -> link_ok C l -> link_ok C' l.
Proof.
  intros HC [[Hg1 Hg2] Hw Hp He Hu]. split; [split | | done | done |].
  - intros lane a Ha. by apply HC, (Hg1 lane a).
  - intros lane a Ha. by apply HC, (Hg2 lane a).
  - eapply Forall_impl; [exact Hw |]. intros w [Hr Ho]. split; [done |]. destruct (wt_opening w) as [[|] |]; auto.
  - intros E lane. by apply HC, Hu.
Qed.

Lemma send_ok_mono (C C' : jstring -> Prop) l l' m :
  (forall lane, C lane -> C' lane) -> l_epoch l' = l_epoch l -> send_ok C l m -> send_ok C' l' m.
Proof. unfold send_ok. intros HC ->. destruct m.2; naive_solver. Qed.

(** What holds of the links and messages survives when the links keep who they are and the scopes what they reached. *)
Definition extends y y' : Prop :=
  (forall n l, links y !! n = Some l -> exists l', links y' !! n = Some l' /\ l_sender l' = l_sender l /\ l_epoch l' = l_epoch l) /\
  (forall n l', links y' !! n = Some l' -> forall l, links y !! n = Some l -> l_sender l' = l_sender l /\ l_epoch l' = l_epoch l) /\
  (forall lane e o, reached y lane e o -> reached y' lane e o).

Lemma claim_mono y y' n lane l : extends y y' -> links y !! n = Some l -> claim y n lane -> claim y' n lane.
Proof.
  intros (Hl & _ & Hr) Hn Hc l' e Hn' He. destruct (Hl n l Hn) as (l2 & Hn2 & Hs2 & He2).
  rewrite Hn' in Hn2. injection Hn2 as <-. rewrite Hs2. apply Hr. apply (Hc l e Hn). congruence.
Qed.

Lemma thread_ok_mono y y' t : extends y y' -> thread_ok y t -> thread_ok y' t.
Proof.
  intros Hex (Hl & l & Hn & He & Hc). split; [done |]. destruct (proj1 Hex _ _ Hn) as (l' & Hn' & Hs' & He').
  exists l'. split_and!; [done | congruence | by eapply claim_mono].
Qed.

Lemma event_ok_mono y y' ev : extends y y' -> event_ok y ev -> event_ok y' ev.
Proof. intros (_ & _ & Hr). destruct ev as [sc [e |] o id |]; cbn; naive_solver. Qed.

Lemma up_mono y y' n lane m :
  extends y y' -> (exists l, links y !! n = Some l /\ send_ok (claim y n) l (lane, m)) ->
  exists l, links y' !! n = Some l /\ send_ok (claim y' n) l (lane, m).
Proof.
  intros Hex (l & Hn & Hs). destruct (proj1 Hex _ _ Hn) as (l' & Hn' & Hs' & He'). exists l'. split; [done |].
  eapply send_ok_mono; [| done | exact Hs]. intros lane'. by eapply claim_mono.
Qed.

Lemma down_mono y y' n lane e :
  extends y y' -> (exists l, links y !! n = Some l /\ (l_epoch l = Some e -> reached y lane e (l_sender l))) ->
  exists l, links y' !! n = Some l /\ (l_epoch l = Some e -> reached y' lane e (l_sender l)).
Proof.
  intros Hex (l & Hn & Hr). destruct (proj1 Hex _ _ Hn) as (l' & Hn' & Hs' & He'). exists l'. split; [done |].
  rewrite Hs', He'. intros E. apply Hex, Hr, E.
Qed.

Lemma sender_of_link y n l : links y !! n = Some l -> sender_of y n = l_sender l.
Proof. unfold sender_of. by intros ->. Qed.

(** *** Steps of a link *)

Lemma link_step_extends n l r y :
  links y !! n = Some l -> l_sender r.1 = l_sender l -> l_epoch r.1 = l_epoch l -> extends y (link_step n r y).
Proof.
  intros Hn Hs He. split_and!; [| | done].
  - intros n' l' Hn'. cbn. destruct (decide (n' = n)) as [-> | Hne].
    + exists r.1. rewrite list_lookup_insert_eq by (by eapply lookup_lt_Some). by simplify_eq.
    + exists l'. by rewrite list_lookup_insert_ne.
  - intros n' l'. cbn. destruct (decide (n' = n)) as [-> | Hne].
    + rewrite list_lookup_insert_eq by (by eapply lookup_lt_Some). intros [= <-] l2 Hl2. by simplify_eq.
    + rewrite list_lookup_insert_ne by done. intros Hn' l2 Hl2. by simplify_eq.
Qed.

Lemma link_step_inv n l r y : inv y -> links y !! n = Some l -> keeps (claim y n) l r -> inv (link_step n r y).
Proof.
  intros [Hsn Hf Hl Hu Hd Ht Hg Ho] Hn (Hs & He & Hok & Hsend). pose proof (link_step_extends n l r y Hn Hs He) as Hex.
  split; [exact Hsn | exact Hf | | | | | | exact Ho].
  - intros n' l'. cbn. destruct (decide (n' = n)) as [-> | Hne].
    + rewrite list_lookup_insert_eq by (by eapply lookup_lt_Some). intros [= <-].
      eapply link_ok_mono; [| exact Hok]. intros lane. by eapply claim_mono.
    + rewrite list_lookup_insert_ne by done. intros Hn'. eapply link_ok_mono; [| by apply Hl]. intros lane. by eapply claim_mono.
  - intros n' lane m Hin. cbn in Hin. apply elem_of_app in Hin as [Hm | (m' & [= -> -> ->] & Hm)%list_elem_of_fmap]; [by eapply up_mono; [| apply Hu] |].
    exists r.1. split; [apply list_lookup_insert_eq; by eapply lookup_lt_Some |].
    rewrite Forall_forall in Hsend. specialize (Hsend m' Hm). destruct m' as [lane' m'].
    eapply send_ok_mono; [| done | exact Hsend]. intros lane''. by eapply claim_mono.
  - intros n' lane e Hm. eapply down_mono; [exact Hex | by apply Hd].
  - intros p t Hp Htt. eapply thread_ok_mono; [exact Hex | by eapply Ht].
  - eapply Forall_impl; [exact Hg |]. intros ev. by apply event_ok_mono.
Qed.

(** *** Steps of the hand *)

Lemma hand_step_links n s r y : links (hand_step n s r y) = links y.
Proof. done. Qed.

(** What one operation of the process may add to the log. *)
Definition granted (fl : gmap jstring Floor) (ev : Event) : Prop :=
  match ev with
  | Accepted sc None _ _ => fl !! sc = None
  | Accepted sc (Some e) o _ => 1 <= e /\ exists f, fl !! sc = Some f /\ fl_epoch f = e /\ fl_owner f = o
  | BodyEnded _ _ => True
  end.

Lemma ordered_snoc l ev : ordered l -> Forall (fun x => in_order x ev) l -> ordered (l ++ [ev]).
Proof.
  induction l as [| x l IH]; cbn; [done |]. intros [Hx Hl] Hall. inversion_clear Hall as [| ? ? Hxe Hrest].
  split; [apply Forall_app; split; [done | by constructor] | by apply IH].
Qed.

Lemma granted_in_order y p ev ev' :
  process y = Some p -> fence_ok (store y) (floors p) -> event_ok y ev -> granted (floors p) ev' -> in_order ev ev'.
Proof.
  intros Hp [_ Hf] Hev Hgr. destruct ev as [sc ep o id |], ev' as [sc' ep' o' id' |]; cbn in *; try done. intros <-.
  destruct ep as [e |].
  - destruct Hev as [He Hr]. unfold reached in Hr. rewrite Hp in Hr. destruct Hr as (f & Hl & Hr). destruct ep' as [e' |]; [| congruence].
    destruct Hgr as (He' & f' & Hl' & <- & <-). rewrite Hl in Hl'. injection Hl' as <-. cbn. destruct Hr as [? | [-> ->]]; [by left |].
    right. split; [done | by right].
  - destruct ep' as [e' |]; cbn; [left; lia | right; split; [done | by left]].
Qed.

Lemma hand_step_inv n s p' replies ev y :
  inv y -> sane s -> fence_ok s (floors p') ->
  (forall lane e o, reached y lane e o -> scope_reaches (floors p') lane e o) ->
  (forall t, t ∈ threads p' -> thread_ok y t) ->
  (forall lane e, (lane, FloorReply (FloorAcked e)) ∈ replies ->
     exists l, links y !! n = Some l /\ (l_epoch l = Some e -> scope_reaches (floors p') lane e (l_sender l))) ->
  (forall x, ev = Some x -> granted (floors p') x) ->
  inv (hand_step n s (p', replies, match ev with Some x => [x] | None => [] end) y).
Proof.
  intros [Hsn Hf Hl Hu Hd Ht Hg Ho] Hs' Hf' Hr Hth Hrep Hev.
  assert (Hex : extends y (hand_step n s (p', replies, match ev with Some x => [x] | None => [] end) y)).
  { split; [intros n0 l0 Hn0; by exists l0 |]. split; [| exact Hr].
    intros n0 l' Hn0 l0 Hl0. cbn in Hn0. rewrite Hl0 in Hn0. by injection Hn0 as <-. }
  assert (Hgy : Forall (event_ok (hand_step n s (p', replies, match ev with Some x => [x] | None => [] end) y)) (log y)).
  { eapply Forall_impl; [exact Hg |]. intros x. by apply event_ok_mono. }
  split; [done | exact Hf' | | | | | |].
  - intros n' l Hn. eapply link_ok_mono; [| by apply Hl]. intros lane. by eapply claim_mono.
  - intros n' lane m Hm. eapply up_mono; [exact Hex | by apply Hu].
  - intros n' lane e Hmem. cbn in Hmem. apply elem_of_app in Hmem as [Hm | (m & [= -> -> Hm] & Hin)%list_elem_of_fmap]; [by eapply down_mono; [| apply Hd] |].
    destruct m as [lane' m]. cbn in *. subst m. by apply Hrep.
  - intros p t [= <-] Htt. eapply thread_ok_mono; [exact Hex | by apply Hth].
  - cbn. apply Forall_app. split; [exact Hgy |]. destruct ev as [x |]; [| constructor]. constructor; [| constructor].
    specialize (Hev x eq_refl). destruct x as [sc [e |] o id |]; cbn in *; try done. destruct Hev as (He & f & Hfl & <- & <-).
    split; [done |]. exists f. split; [done | apply reaches_refl].
  - cbn. destruct ev as [x |]; [| by rewrite app_nil_r]. apply ordered_snoc; [done |].
    eapply Forall_impl; [exact Hgy |]. intros e He. eapply granted_in_order; [| | exact He | by apply Hev]; done.
Qed.

(** *** The operations of the process *)

Lemma thread_ok_same y t t' : t_link t' = t_link t -> t_lane t' = t_lane t -> t_inv t' = t_inv t -> thread_ok y t -> thread_ok y t'.
Proof. unfold thread_ok. by intros -> -> ->. Qed.

Definition threads_ok y p : Prop := forall t, t ∈ threads p -> thread_ok y t.

Lemma threads_insert_ok y p n t f o sc :
  threads_ok y p -> thread_ok y t -> threads_ok y (mkProcess f o (<[n := t]> (threads p)) sc).
Proof.
  intros Hts Ht. unfold threads_ok. cbn [threads]. assert (Hall : Forall (thread_ok y) (<[n := t]> (threads p))); [| by rewrite Forall_forall in Hall].
  apply Forall_insert; [by apply Forall_forall | done].
Qed.

Lemma set_phase_ok y p n t ph : threads_ok y p -> thread_ok y t -> threads_ok y (set_thread p n (set_phase t ph)).
Proof. intros Hts Ht. by apply threads_insert_ok. Qed.

Lemma take_call_ok y sender n lane call op verdict p l :
  threads_ok y p -> links y !! n = Some l -> i_epoch call = l_epoch l -> (lane = scope_id call -> claim y n lane) ->
  floors (take_call sender n lane call op verdict p).1 = floors p /\ threads_ok y (take_call sender n lane call op verdict p).1 /\
  (forall ln e, (ln, FloorReply (FloorAcked e)) ∉ (take_call sender n lane call op verdict p).2).
Proof.
  intros Hts Hn He Hc. unfold take_call, refuse.
  assert (Hno : forall (x : jstring * HandMessage) ln e, (forall r, x.2 <> FloorReply r) -> (ln, FloorReply (FloorAcked e)) ∉ [x]).
  { intros x ln e Hx Hin%list_elem_of_singleton. subst x. by eapply Hx. }
  assert (Hnil : forall ln e, (ln, FloorReply (FloorAcked e)) ∉ ([] : Replies)) by (intros ln e; apply not_elem_of_nil).
  destruct (bool_decide (lane = scope_id call)) eqn:Hl; cbn [negb]; [| split_and!; [done | done | intros; by apply Hno]].
  apply bool_decide_eq_true in Hl. destruct verdict as [root | reason]; [| split_and!; [done | done | intros; by apply Hno]].
  destruct (admits _ _ _ _); cbn [negb]; [| split_and!; [done | done | intros; by apply Hno]].
  assert (Hnew : forall sc, threads_ok y (mkProcess (floors p) (owned p) (threads p ++ [mkThread n lane call op Opening false []]) sc)).
  { intros sc t [Ht | ->%list_elem_of_singleton]%elem_of_app; [by apply Hts |]. split; [done |]. exists l. split_and!; [done .. | by apply Hc]. }
  destruct (scopes p !! _) as [known |]; [| split_and!; [done | apply Hnew | exact Hnil]]. case_bool_decide; [| split_and!; [done | done | intros; by apply Hno]].
  split_and!; [done | apply Hnew | exact Hnil].
Qed.

Lemma scope_opened_ok y n t failure p :
  threads_ok y p -> thread_ok y t ->
  floors (scope_opened n t failure p).1 = floors p /\ threads_ok y (scope_opened n t failure p).1 /\
  (forall ln e, (ln, FloorReply (FloorAcked e)) ∉ (scope_opened n t failure p).2).
Proof.
  intros Hts Ht. unfold scope_opened, refuse. destruct failure as [reason |].
  - split_and!; [done | by apply set_phase_ok |]. intros ln e Hin%list_elem_of_singleton. done.
  - case_bool_decide; (split_and!; [done | by apply threads_insert_ok | intros ln e; apply not_elem_of_nil]).
Qed.

Lemma abort_ok y n id p : threads_ok y p -> threads_ok y (abort_call n id p).
Proof.
  intros Hts t (t0 & -> & Ht0)%list_elem_of_fmap. unfold abort_thread. specialize (Hts t0 Ht0). by destruct (_ && _).
Qed.

Lemma enqueue_ok y n t sequential p : threads_ok y p -> thread_ok y t -> threads_ok y (enqueue n t sequential p).
Proof. intros Hts Ht. by apply threads_insert_ok. Qed.

(** A hand's messages about calls are not acks of floors. *)
Lemma outcome_not_floor e m : outcomeOf e = Some m -> forall r, m <> FloorReply r.
Proof. unfold outcomeOf. intros Hm r ->. repeat (case_match; try discriminate Hm). Qed.

Lemma default_not_floor id text e r : default (RefusedMsg id text) (outcomeOf e) <> FloorReply r.
Proof. destruct (outcomeOf e) eqn:E; cbn; [by eapply outcome_not_floor | done]. Qed.

Lemma replyFrom_not_floor reply id r : replyFrom reply id <> FloorReply r.
Proof. unfold replyFrom. destruct reply as [e | e | |]; try done; apply default_not_floor. Qed.

Lemma walk_answer_not_floor i at_ s out m r : walk_next number_text hand i at_ s out = Done (Answer m) -> m <> FloorReply r.
Proof.
  unfold walk_next, after_read, after_step, after_dispatch, fenced_answer. intros Hw ->.
  repeat (case_match; try discriminate Hw); simplify_eq;
    first [by eapply default_not_floor | by eapply replyFrom_not_floor | by eapply outcome_not_floor].
Qed.

(** The process is told to run a call by the reply to its dispatch, which the epoch check let through. *)
Lemma walk_run i at_ w now fenced s s' out :
  match walk_op number_text hand w now fenced i at_ with Some op => ledger_step s op | None => (s, None) end = (s', out) ->
  walk_next number_text hand i at_ s out = Done Run ->
  fenced = false /\ at_ = AtSteps [] /\ exists e call, out = Some (Ok (Applied e)) /\ progress e = Dispatched call.
Proof.
  destruct at_ as [| steps | |]; cbn [walk_op walk_next].
  - intros _. destruct (read s _) as [prior |]; [| done]. unfold after_read. by repeat case_match.
  - destruct steps as [| step rest].
    + cbn [step_op]. destruct fenced.
      * cbn. intros [= <- <-]. cbn. done.
      * intros _. destruct out as [[reply |] |]; [| done ..]. unfold after_dispatch. destruct (is_fenced reply); [done |].
        destruct reply as [e | e | |]; try done; [| by destruct (is_settled e)]. destruct (progress e) as [| | | | | call | | |] eqn:E; try done.
        intros _. split_and!; [done .. |]. by exists e, call.
    + intros _. destruct out as [[reply |] |]; [| done ..]. unfold after_step. by repeat case_match.
  - intros _. by repeat case_match.
  - intros _. by repeat case_match.
Qed.

Lemma run_granted y p t :
  process y = Some p -> fence_ok (store y) (floors p) -> thread_ok y t -> (forall n l, links y !! n = Some l -> epoch_ok (l_epoch l)) ->
  admits (floors p) (t_lane t) (i_epoch (t_inv t)) (sender_of y (t_link t)) = true ->
  granted (floors p) (Accepted (scope_id (t_inv t)) (i_epoch (t_inv t)) (sender_of y (t_link t)) (executionId (t_inv t))).
Proof.
  intros Hp [_ Hf] (Hlane & l & Hn & He & Hc) Hep Hadm. rewrite (sender_of_link _ _ _ Hn) in *. rewrite <- Hlane. cbn.
  destruct (i_epoch (t_inv t)) as [e |] eqn:Ei.
  - specialize (Hep _ _ Hn). rewrite <- He in Hep. cbn in Hep. split; [lia |].
    apply admits_reached; [| done]. specialize (Hc l e Hn (eq_sym He)). unfold reached in Hc. by rewrite Hp in Hc.
  - unfold admits in Hadm. destruct (floors p !! t_lane t) as [f |] eqn:Ef; [| done]. exfalso. destruct (Hf _ _ Ef) as [Hb _].
    unfold floor_bounds in Hb. change (default 0 None) with 0 in Hadm. apply orb_true_iff in Hadm as [H1%Z.ltb_lt | [H1%Z.eqb_eq _]%andb_true_iff]; lia.
Qed.

(** *** The invariant holds *)

Lemma process_fence y p : inv y -> process y = Some p -> fence_ok (store y) (floors p).
Proof. intros Hi Hp. pose proof (inv_fence _ Hi) as Hf. unfold fenced_ok in Hf. by rewrite Hp in Hf. Qed.

(** An operation that leaves the floors alone. *)
Lemma quiet_step_inv n s p p' replies ev y :
  inv y -> process y = Some p -> sane s -> same_floors (store y) s -> floors p' = floors p -> threads_ok y p' ->
  (forall ln e, (ln, FloorReply (FloorAcked e)) ∉ replies) -> (forall x, ev = Some x -> granted (floors p) x) ->
  inv (hand_step n s (p', replies, match ev with Some x => [x] | None => [] end) y).
Proof.
  intros Hi Hp Hs Hsame Hfl Hts Hrep Hev. apply hand_step_inv; try done.
  - rewrite Hfl. eapply fence_ok_same; [apply Hs | apply Hsame | by apply process_fence].
  - intros lane e o Hr. unfold reached in Hr. rewrite Hp in Hr. by rewrite Hfl.
  - intros ln e Hin. by destruct (Hrep ln e).
  - by rewrite Hfl.
Qed.

Lemma store_same y : inv y -> same_floors (store y) (store y).
Proof. intros Hi. split; [apply (inv_sane _ Hi) | done]. Qed.

Lemma row_op_sane y op s' out :
  inv y -> is_row_op op -> ledger_step (store y) op = (s', out) -> sane s' /\ same_floors (store y) s'.
Proof.
  intros Hi Hop E. assert (op_ok op) as Hok by (by destruct op). split; [by apply (ledger_step_sane _ _ _ _ (inv_sane _ Hi) Hok E) |].
  eapply ledger_step_floors; [apply (inv_sane _ Hi) | done | exact E].
Qed.

Lemma walk_op_row w now fenced i at_ op : walk_op number_text hand w now fenced i at_ = Some op -> is_row_op op.
Proof. destruct at_ as [| [| []] | |]; cbn; intros [= <-]; done. Qed.

Lemma links_epoch_ok y : inv y -> forall n l, links y !! n = Some l -> epoch_ok (l_epoch l).
Proof. intros Hi n l Hn. apply (link_epoch _ _ (inv_links _ Hi n l Hn)). Qed.

Lemma walk_inv y p n t at_ w now sequential :
  inv y -> process y = Some p -> threads p !! n = Some t -> t_phase t = Walking at_ ->
  inv (walk number_text hand n t at_ w now sequential p y).
Proof.
  intros Hi Hp Hn Hph. assert (Ht : thread_ok y t) by (eapply (inv_threads _ Hi p); [done | by eapply list_elem_of_lookup_2]).
  assert (Hts : threads_ok y p) by (intros t' Ht'; by eapply (inv_threads _ Hi p)).
  unfold walk. set (fenced := negb _). destruct (match walk_op _ _ _ _ _ _ _ with Some op => _ | None => _ end) as [s out] eqn:E.
  assert (Hs : sane s /\ same_floors (store y) s).
  { destruct (walk_op number_text hand w now fenced (t_inv t) at_) as [op |] eqn:Eo.
    - eapply row_op_sane; [done | by eapply walk_op_row | exact E].
    - injection E as <- <-. split; [apply (inv_sane _ Hi) | by apply store_same]. }
  destruct Hs as [Hs Hsame].
  destruct (walk_next number_text hand (t_inv t) at_ (store y) out) as [at' | [| message |] |] eqn:Ew; cbn [walk_on].
  - eapply (quiet_step_inv _ _ p _ _ None); try done; [by apply set_phase_ok | intros; apply not_elem_of_nil].
  - destruct (walk_run _ _ _ _ _ _ _ _ E Ew) as (Hf & _ & _).
    eapply (quiet_step_inv _ _ p _ _ (Some _)); try done; [by apply enqueue_ok | intros; apply not_elem_of_nil |].
    intros x [= <-]. apply run_granted; try done; [by apply process_fence | by apply links_epoch_ok | by apply negb_false_iff in Hf].
  - eapply (quiet_step_inv _ _ p _ _ None); try done; [by apply set_phase_ok |].
    intros ln e Hin%list_elem_of_singleton. injection Hin as -> Hm. symmetry in Hm. by eapply walk_answer_not_floor.
  - eapply (quiet_step_inv _ _ p _ _ None); try done; [by apply set_phase_ok | intros; apply not_elem_of_nil].
  - eapply (quiet_step_inv _ _ p _ _ None); try done; [by apply set_phase_ok | intros; apply not_elem_of_nil].
Qed.

Lemma floor_op_ok w lane f : op_ok (OpElse w [Put (floor_key lane) (floor_json f)]).
Proof. by repeat constructor. Qed.

(** A raise carries out at most one commit. *)
Lemma raise_store w owner lane e sender s fl s' fl' r :
  raise true w owner lane e sender s fl = (s', fl', r) ->
  s' = s \/ s' = (ledger_step s (OpElse w [Put (floor_key lane) (floor_json (mkFloor e sender))])).1.
Proof.
  unfold raise, set_floor. cbn [ledger_step fst]. intros E. destruct (store_commit _ _ _ s) as [s1 r1].
  repeat case_match; simplify_eq; auto.
Qed.

Lemma raise_floor_inv y p n lane e w owner :
  inv y -> process y = Some p -> (n, lane, FloorMsg e) ∈ up y -> epoch_ok (Some e) -> inv (raise_floor n lane e w owner p y).
Proof.
  intros Hi Hp Hm He. unfold raise_floor. destruct (raise _ _ _ _ _ _ _ _) as [[s fl] r] eqn:E.
  destruct (raise_spec _ _ _ _ _ _ _ _ _ _ (process_fence y p Hi Hp) He E) as (Hf & Hup & Hack).
  destruct (inv_up _ Hi _ _ _ Hm) as (l & Hn & Hle). cbn in Hle. rewrite (sender_of_link _ _ _ Hn) in *.
  eapply (hand_step_inv _ _ _ _ None); try done.
  - destruct (raise_store _ _ _ _ _ _ _ _ _ _ E) as [-> | ->]; [apply (inv_sane _ Hi) |].
    destruct (ledger_step _ _) as [s1 out] eqn:E1. apply (ledger_step_sane _ _ _ _ (inv_sane _ Hi) (floor_op_ok _ _ _) E1).
  - intros ln e' o Hr. unfold reached in Hr. rewrite Hp in Hr. by apply Hup.
  - intros t Ht. by eapply (inv_threads _ Hi p).
  - intros ln e' Hin. destruct r as [reply |]; [| by apply not_elem_of_nil in Hin]. apply list_elem_of_singleton in Hin.
    injection Hin as -> <-. exists l. split; [done |]. rewrite Hle. intros [= <-]. by apply Hack.
Qed.

Lemma recover_spec y w now s r :
  inv y -> recover w now (store y) = (s, r) -> sane s /\ same_floors (store y) s.
Proof.
  intros Hi (ops & h & Hrun & Hops & _)%recover_run. assert (Forall op_ok ops) as Hok by (eapply Forall_impl; [exact Hops |]; naive_solver).
  split; [| eapply ledger_run_floors; [apply (inv_sane _ Hi) | exact Hops | exact Hrun]].
  clear Hops. pose proof (inv_sane _ Hi) as Hs. revert Hs h Hrun. generalize (store y). clear -Hok.
  induction Hok as [| op ops Hop _ IH]; intros s0 Hs0 h; cbn [ledger_run]; [by intros [= <- <-] |].
  destruct (ledger_step s0 op) as [s1 out] eqn:E. destruct (ledger_run s1 ops) as [s2 h2] eqn:E2. intros [= <- <-].
  eapply IH; [| exact E2]. by apply (ledger_step_sane _ _ _ _ Hs0 Hop E).
Qed.

(** What is reached stays reached when the process ends, also inside its recovery. *)
Lemma dead_inv y s : inv y -> sane s -> same_floors (store y) s -> inv (mkSystem s None (links y) (up y) (down y) (log y)).
Proof.
  intros Hi Hs Hsame. destruct Hi as [Hsn Hf Hl Hu Hd Ht Hg Ho].
  assert (Hst : forall lane, stored_floor s lane = stored_floor (store y) lane) by (intros lane; unfold stored_floor; by rewrite (proj2 Hsame)).
  assert (Hex : extends y (mkSystem s None (links y) (up y) (down y) (log y))).
  { split; [intros n0 l0 Hn0; by exists l0 |]. split.
    - intros n0 l' Hn0 l0 Hl0. cbn in Hn0. rewrite Hl0 in Hn0. by injection Hn0 as <-.
    - intros lane e o. unfold reached, fenced_ok in *. cbn. destruct (process y) as [p |].
      + intros (f & Hlf & Hr). destruct Hf as [_ Hf]. destruct (Hf _ _ Hlf) as (_ & g & Hg' & Hgr). exists g. rewrite Hst. split; [done |].
        by eapply reaches_trans.
      + by rewrite Hst. }
  split; [done | | | | | done | | done].
  - unfold fenced_ok in *. cbn. eapply stored_ok_same; [apply Hs | apply Hsame |]. destruct (process y); [apply Hf | done].
  - intros n' l Hn. eapply link_ok_mono; [| by apply Hl]. intros lane. by eapply claim_mono.
  - intros n' lane m Hm. eapply up_mono; [exact Hex | by apply Hu].
  - intros n' lane e Hm. eapply down_mono; [exact Hex | by apply Hd].
  - eapply Forall_impl; [exact Hg |]. intros ev. by apply event_ok_mono.
Qed.

Lemma unacknowledged_not_floor entries ln r : (ln, FloorReply r) ∉ unacknowledged entries.
Proof.
  intros (e & _ & He)%list_elem_of_omap. destruct (is_settled e); [| done]. apply fmap_Some in He as (m & Hm & [= -> <-]).
  by eapply outcome_not_floor.
Qed.

Lemma start_process_inv y n w now : inv y -> process y = None -> inv (start_process n w now y).
Proof.
  intros Hi Hp. pose proof (inv_fence _ Hi) as Hf. unfold fenced_ok in Hf. rewrite Hp in Hf. unfold start_process.
  destruct (ready_spec _ Hf) as (fl & -> & Hfok & Hst). destruct (recover w now (store y)) as [s r] eqn:E.
  destruct (recover_spec _ _ _ _ _ Hi E) as [Hs Hsame]. destruct r as [u | x]; [| by apply dead_inv].
  destruct (scan s) as [entries |]; [| by apply dead_inv].
  eapply (hand_step_inv _ _ _ _ None); try done.
  - eapply fence_ok_same; [apply Hs | apply Hsame | done].
  - intros lane e o. unfold reached. rewrite Hp. intros (g & Hg & Hr). exists g. cbn. by rewrite Hst.
  - intros t Ht. by apply not_elem_of_nil in Ht.
  - intros ln e Hin. by apply unacknowledged_not_floor in Hin.
Qed.

Lemma connect_inv y sender epoch :
  inv y -> epoch_ok epoch -> inv (mkSystem (store y) (process y) (links y ++ [new_link sender epoch]) (up y) (down y) (log y)).
Proof.
  intros Hi He. pose proof Hi as [Hsn Hf Hl Hu Hd Ht Hg Ho].
  set (y' := mkSystem _ _ _ _ _ _).
  assert (Hex : extends y y').
  { split; [intros n0 l0 Hn0; exists l0; split_and!; try done; by apply lookup_app_l_Some |]. split; [| done].
    intros n0 l' Hn0 l0 Hl0. cbn in Hn0. rewrite (lookup_app_l_Some _ _ _ _ Hl0) in Hn0. by injection Hn0 as <-. }
  split; [done | done | | | | | | done].
  - intros n l Hn. cbn in Hn. apply lookup_app_Some in Hn as [Hn | [Hlen Hn]].
    + eapply link_ok_mono; [| by apply Hl]. intros lane. by eapply claim_mono.
    + apply list_lookup_singleton_Some in Hn as [E <-]. split; [split | constructor | constructor | done |].
      * done.
      * cbn. intros lane a Ha. by rewrite lookup_empty in Ha.
      * intros Hnone lane l' e Hn' He'. cbn in Hn'. assert (n = length (links y)) as -> by lia.
        rewrite list_lookup_middle in Hn' by done. injection Hn' as <-. cbn in *. congruence.
  - intros n' lane m Hm. eapply up_mono; [exact Hex | by apply Hu].
  - intros n' lane e Hm. eapply down_mono; [exact Hex | by apply Hd].
  - intros p t Hp Htt. eapply thread_ok_mono; [exact Hex | by eapply Ht].
  - eapply Forall_impl; [exact Hg |]. intros ev. by apply event_ok_mono.
Qed.

Lemma call_step_inv y n lane call op verdict p m :
  inv y -> process y = Some p -> (n, lane, m) ∈ up y ->
  (forall l, send_ok (claim y n) l (lane, m) -> i_epoch call = l_epoch l /\ (lane = scope_id call -> claim y n lane)) ->
  inv (hand_step n (store y) (take_call (sender_of y n) n lane call op verdict p, []) y).
Proof.
  intros Hi Hp Hm Hcall. destruct (inv_up _ Hi _ _ _ Hm) as (l & Hn & Hsend). destruct (Hcall l Hsend) as [He Hc].
  destruct (take_call_ok y (sender_of y n) n lane call op verdict p l) as (Hfl & Hts & Hrep); try done; [by intros t Ht; eapply (inv_threads _ Hi p) |].
  destruct (take_call _ _ _ _ _ _ _) as [p' replies]. eapply (quiet_step_inv _ _ p _ _ None); try done; [apply (inv_sane _ Hi) | by apply store_same].
Qed.

Lemma quiet_refl_inv y n p p' : inv y -> process y = Some p -> floors p' = floors p -> threads_ok y p' -> inv (hand_step n (store y) (p', [], []) y).
Proof.
  intros Hi Hp Hfl Hts. eapply (quiet_step_inv _ _ p _ _ None); try done; [apply (inv_sane _ Hi) | by apply store_same | intros; apply not_elem_of_nil].
Qed.

Lemma step_inv y y' : inv y -> step number_text hand y y' -> inv y'.
Proof.
  intros Hi Hst. pose proof (inv_links _ Hi) as Hl.
  assert (Hts : forall p, process y = Some p -> threads_ok y p) by (intros p Hp t Ht; by eapply (inv_threads _ Hi p)).
  assert (Hth : forall p n t, process y = Some p -> threads p !! n = Some t -> thread_ok y t).
  { intros p n t Hp Hn. eapply (Hts p Hp). by eapply list_elem_of_lookup_2. }
  destruct Hst.
  - by apply connect_inv.
  - eapply link_step_inv; [done | eassumption |]. apply dispatch_keeps; [by apply Hl | done].
  - eapply link_step_inv; [done | eassumption |]. by apply on_abort_keeps, Hl.
  - eapply link_step_inv; [done | eassumption |]. by apply resume_keeps, Hl.
  - eapply link_step_inv; [done | eassumption |]. by apply settle_keeps, Hl.
  - eapply link_step_inv; [done | eassumption |]. by apply floor_failed_keeps, Hl.
  - eapply link_step_inv; [done | eassumption |]. by apply close_keeps, Hl.
  - eapply link_step_inv; [done | eassumption |]. apply on_frame_keeps; [by apply Hl |]. intros epoch -> He.
    destruct (inv_down _ Hi _ _ _ H1) as (l2 & Hn2 & Hr). simplify_eq. intros l3 e Hn3 He3. simplify_eq. by apply Hr.
  - eapply call_step_inv; [done .. |]. intros l (Hlane & He & Hc). done.
  - eapply call_step_inv; [done .. |]. intros l (Hlane & He & Hc). done.
  - eapply quiet_refl_inv; [done | done | done |]. by apply abort_ok, Hts.
  - unfold ack_call. destruct (admits _ _ _ _); [| done]. destruct (ledger_step _ _) as [s out] eqn:E.
    destruct (row_op_sane _ (ack_op hand w now false id) _ _ Hi I E) as [Hs Hsame].
    eapply (quiet_step_inv _ _ p _ _ None); try done; [by apply Hts | intros; apply not_elem_of_nil].
  - by apply raise_floor_inv.
  - destruct (scope_opened_ok y n t failure p) as (Hfl & Hto & Hrep); [by apply Hts | by eapply Hth |].
    destruct (scope_opened n t failure p) as [p' replies]. eapply (quiet_step_inv _ _ p _ _ None); try done; [apply (inv_sane _ Hi) | by apply store_same].
  - by apply walk_inv.
  - unfold start_body. destruct (_ || _); cbn [fst snd].
    + eapply (quiet_step_inv _ _ p _ _ (Some _)); try done; [apply (inv_sane _ Hi) | by apply store_same | apply set_phase_ok; [by apply Hts | by eapply Hth] | intros; apply not_elem_of_nil | by intros x [= <-]].
    + eapply quiet_refl_inv; try done. apply set_phase_ok; [by apply Hts | by eapply Hth].
  - eapply (quiet_step_inv _ _ p _ _ (Some _)); try done; [apply (inv_sane _ Hi) | by apply store_same | apply set_phase_ok; [by apply Hts | by eapply Hth] | intros; apply not_elem_of_nil | by intros x [= <-]].
  - unfold settle_call. destruct (ledger_step _ _) as [s out] eqn:E.
    destruct (row_op_sane _ (settle_op number_text hand w now (executionId (t_inv t)) result) _ _ Hi I E) as [Hs Hsame].
    eapply (quiet_step_inv _ _ p _ _ None); try done.
    + apply threads_insert_ok; [by apply Hts | apply (thread_ok_same y t); [done .. | by eapply Hth]].
    + intros ln e Hin. destruct out as [[reply |] |]; try by apply not_elem_of_nil in Hin.
      apply list_elem_of_singleton in Hin. injection Hin as _ Hm. symmetry in Hm. by apply replyFrom_not_floor in Hm.
  - eapply quiet_refl_inv; [done | done | done |]. by apply abort_ok, Hts.
  - eapply (quiet_step_inv _ _ p _ _ None); try done; [apply (inv_sane _ Hi) | by apply store_same | by apply Hts |].
    intros ln e Hin%list_elem_of_singleton. done.
  - apply dead_inv; [done | apply (inv_sane _ Hi) | by apply store_same].
  - by apply start_process_inv.
Qed.

Lemma reach_inv s0 y : sane s0 -> stored_ok s0 -> reach number_text hand s0 y -> inv y.
Proof.
  intros Hs Hst. induction 1 as [| y y' _ IH Hstep]; [| by eapply step_inv].
  split; [done | exact Hst | | | | done | constructor | done].
  - intros n l Hn. cbn in Hn. by rewrite lookup_nil in Hn.
  - intros n lane m Hm. cbn in Hm. by apply not_elem_of_nil in Hm.
  - intros n lane e Hm. cbn in Hm. by apply not_elem_of_nil in Hm.
Qed.
End Owners.
