(* ===== verification/RemoteRuns.v ===== *)
(** * Runs of a hand with its links

A call is granted and runs at most once whatever dies in between, and owners of a
scope follow each other.  What happens to the store is a history of the ledger whose
starts are the grants, and every body belongs to a grant.  The example moves a scope
from one owner to another while a call of the first is under way. *)
From S2P Require Import Prelude JsString JsonText JsNumber JsObject Json JsMap DurableStore Ledger Summary RemoteEpoch RemoteHand RemoteLink RemoteSystem RemoteCorrect.
#[local] Open Scope Z_scope.

Section Runs.
Context {St : Type} `{DurableStore St} (number_text : num -> jstring) (hand : HandIdentity).
Implicit Types (y : System St) (p : Process).

(** ** Counting *)

Definition accepts (id : jstring) (ev : Event) : bool := match ev with Accepted _ _ _ id' => bool_decide (id' = id) | _ => false end.
Definition ends (id : jstring) (ev : Event) : bool := match ev with BodyEnded id' _ => bool_decide (id' = id) | _ => false end.
Definition active (id : jstring) (t : Thread) : bool := running t && bool_decide (executionId (t_inv t) = id).

Definition count {A} (f : A -> bool) (l : list A) : nat := length (List.filter f l).

#[local] Arguments count : simpl never.

Lemma count_app {A} (f : A -> bool) l l' : count f (l ++ l') = (count f l + count f l')%nat.
Proof. unfold count. by rewrite List.filter_app, length_app. Qed.

Lemma count_insert {A} (f : A -> bool) l n x x' :
  l !! n = Some x -> (count f (<[n := x']> l) + (if f x then 1 else 0) = count f l + (if f x' then 1 else 0))%nat.
Proof.
  unfold count. revert n. induction l as [| a l IH]; intros n Hn; [done |]. destruct n as [| n].
  - injection Hn as ->. cbn. destruct (f x), (f x'); cbn; lia.
  - specialize (IH n Hn). change (<[S n:=x']> (a :: l)) with (a :: <[n:=x']> l). cbn [List.filter]. destruct (f a); cbn [length]; lia.
Qed.

Definition live_count (id : jstring) y : nat := match process y with Some p => count (active id) (threads p) | None => 0 end.

(** Bodies that ended or may still end are among the calls granted. *)
Definition bodies_ok y : Prop := forall id, (count (ends id) (log y) + live_count id y <= count (accepts id) (log y))%nat.

(** What happened to the store is a history of the ledger, whose starts are the grants. *)
Definition history_ok (s0 : St) y : Prop :=
  exists ops h, Forall op_ok ops /\ ledger_run s0 ops = (store y, h) /\ forall id, count (accepts id) (log y) = count_starts (keyOf hand id) h.

Lemma ledger_run_app s ops1 s1 h1 ops2 s2 h2 :
  ledger_run s ops1 = (s1, h1) -> ledger_run s1 ops2 = (s2, h2) -> ledger_run s (ops1 ++ ops2) = (s2, h1 ++ h2).
Proof.
  revert s h1. induction ops1 as [| op ops1 IH]; intros s h1; cbn [ledger_run app]; [by intros [= <- <-] -> |].
  destruct (ledger_step s op) as [sa out]. destruct (ledger_run sa ops1) as [sb hb] eqn:E. intros [= <- <-] E2. by rewrite (IH _ _ E E2).
Qed.

Lemma count_starts_app k (h1 h2 : list (ledger_op * option (result LedgerFailure LedgerReply))) :
  count_starts k (h1 ++ h2) = (count_starts k h1 + count_starts k h2)%nat.
Proof. unfold count_starts. by rewrite List.filter_app, length_app. Qed.

(** A step of the hand adds operations to the history and grants to the log. *)
Lemma history_step s0 y y' ops h :
  history_ok s0 y -> Forall op_ok ops -> ledger_run (store y) ops = (store y', h) ->
  (forall id, count (accepts id) (log y') = (count (accepts id) (log y) + count_starts (keyOf hand id) h)%nat) -> history_ok s0 y'.
Proof.
  intros (ops0 & h0 & Hops0 & Hrun0 & Hc0) Hops Hrun Hc. exists (ops0 ++ ops), (h0 ++ h). split_and!; [by apply Forall_app | by eapply ledger_run_app |].
  intros id. by rewrite Hc, Hc0, count_starts_app.
Qed.

Lemma history_same s0 y y' : history_ok s0 y -> store y' = store y -> (forall id, count (accepts id) (log y') = count (accepts id) (log y)) -> history_ok s0 y'.
Proof. intros Hh Hs Hc. eapply (history_step s0 y y' [] []); [done | constructor | by rewrite Hs |]. intros id. rewrite Hc. unfold count_starts. cbn. lia. Qed.

Lemma history_one s0 y y' op s out :
  history_ok s0 y -> op_ok op -> ledger_step (store y) op = (s, out) -> store y' = s ->
  (forall id, count (accepts id) (log y') = (count (accepts id) (log y) + if starts (keyOf hand id) (op, out) then 1 else 0)%nat) -> history_ok s0 y'.
Proof.
  intros Hh Hop E <- Hc. eapply (history_step s0 y y' [op] [(op, out)]); [done | by constructor | cbn; by rewrite E |].
  intros id. rewrite Hc. unfold count_starts. cbn [List.filter]. by destruct (starts (keyOf hand id) (op, out)).
Qed.

(** A step of a walk is a start exactly when the call is granted. *)
Lemma walk_starts i at_ w now fenced s op s' out id :
  walk_op number_text hand w now fenced i at_ = Some op -> ledger_step s op = (s', out) ->
  starts (keyOf hand id) (op, out) =
    match walk_next number_text hand i at_ s out with Done Run => bool_decide (executionId i = id) | _ => false end.
Proof.
  intros Ho E.
  assert (Hkey : bool_decide (keyOf hand (executionId i) = keyOf hand id) = bool_decide (executionId i = id)).
  { apply bool_decide_ext. split; [by intros [=] | by intros ->]. }
  assert (Hrun : walk_next number_text hand i at_ s out = Done Run -> at_ = AtSteps [] /\ exists e call, out = Some (Ok (Applied e)) /\ progress e = Dispatched call).
  { intros Hw. destruct (walk_run number_text hand i at_ w now fenced s s' out) as (_ & ? & ?); [by rewrite Ho | done | by split]. }
  destruct at_ as [| [| st rest] | |]; cbn [walk_op step_op] in Ho; simplify_eq.
  - cbn [starts hand_command event c_key]. destruct out as [[reply |] |]; cbn [walk_next]; [| done ..].
    unfold after_dispatch. destruct reply as [e | e | r |]; cbn [is_fenced]; [| by destruct (is_settled e) | by destruct r | done].
    by destruct (progress e).
  - transitivity false; [by destruct st, out as [[[] |] |]; cbn | ].
    destruct (walk_next _ _ _ _ _ _) as [| [| |] |] eqn:Ew; try done. by destruct (Hrun eq_refl) as [[=] _].
  - transitivity false; [by destruct out as [[[] |] |]; cbn | ].
    destruct (walk_next _ _ _ _ _ _) as [| [| |] |] eqn:Ew; try done. by destruct (Hrun eq_refl) as [[=] _].
Qed.

(** A restart only restarts rows. *)
Lemma restart_history s0 y n w now : history_ok s0 y -> history_ok s0 (start_process n w now y).
Proof.
  intros Hh. unfold start_process. destruct (ready true (store y)) as [fl |]; [| done].
  destruct (recover w now (store y)) as [s r] eqn:E. destruct (recover_run _ _ _ _ _ _ _ E) as (ops & h & Hrun & Hops & Hno).
  assert (Hzero : forall id, count_starts (keyOf hand id) h = 0%nat).
  { intros id. clear Hrun. induction Hno as [| x h [Hx _] _ IH]; [done |]. unfold count_starts in *. cbn. by rewrite Hx. }
  assert (Hall : forall y', store y' = s -> log y' = log y -> history_ok s0 y').
  { intros y' Hs Hl. eapply (history_step s0 y y' ops h); [done | | by rewrite Hs | intros id; by rewrite Hl, Hzero, Nat.add_0_r].
    eapply Forall_impl; [exact Hops |]. by intros ? []. }
  destruct r as [u | x]; [| by apply Hall]. destruct (scan s) as [entries |]; apply Hall; try done. cbn. apply app_nil_r.
Qed.

Lemma step_history s0 y y' : history_ok s0 y -> step number_text hand y y' -> history_ok s0 y'.
Proof.
  intros Hh Hst.
  assert (Hquiet : forall n r (evs : list Event), (forall id, count (accepts id) evs = 0%nat) -> history_ok s0 (hand_step n (store y) (r, evs) y)).
  { intros n r evs He. eapply history_same; [done | done |]. intros id. cbn. by rewrite count_app, He, Nat.add_0_r. }
  destruct Hst as [sender epoch _ | n l r aborted _ _ | n l r _ | n l k _ | n l id reason _ | n l lane for_ reason _ | n l _ | n l lane m _ _
    | n lane i p verdict _ _ _ | n lane f p verdict _ _ _ | n lane id epoch p _ _ _ | n lane id epoch w now p _ _ | n lane e w owner p _ _ _
    | n t failure p _ _ _ | n t at_ w now sequential p _ _ _ | n t granted p _ _ _ _ | n t result granted p _ _ _ | n t result w now p _ _ _
    | n id p _ | n instance ops p _ | | n w now _]; try (by apply (history_same s0 y)); try (by apply Hquiet).
  - unfold ack_call. destruct (admits _ _ _ _); [| done]. destruct (ledger_step _ _) as [s out] eqn:E.
    eapply (history_one s0 y _ _ s out Hh); [| exact E | done |]; [done |]. intros id'. cbn. by rewrite app_nil_r; destruct out as [[[] |] |]; cbn; lia.
  - unfold raise_floor. destruct (raise _ _ _ _ _ _ _ _) as [[s fl] r] eqn:E.
    destruct (raise_store _ _ _ _ _ _ _ _ _ _ E) as [-> | Hs].
    + by apply (Hquiet n (_, _)).
    + eapply (history_one s0 y _ (OpElse w _) s None Hh); [apply floor_op_ok | by rewrite (surjective_pairing (ledger_step _ _)), Hs | done |].
      intros id'. cbn. by rewrite app_nil_r, Nat.add_0_r.
  - unfold walk. set (fenced := negb _). destruct (walk_op number_text hand w now fenced (t_inv t) at_) as [op |] eqn:Eo.
    + destruct (ledger_step (store y) op) as [s out] eqn:E.
      eapply (history_one s0 y _ op s out Hh); [by destruct op; [done | done | apply walk_op_row in Eo] | exact E | done |].
      intros id'. rewrite (walk_starts _ _ _ _ _ _ _ _ _ id' Eo E). cbn. rewrite count_app. f_equal.
      destruct (walk_next _ _ _ _ _ _) as [| [| |] |]; cbn; try done. unfold count. cbn. by destruct (bool_decide _).
    + apply Hquiet. intros id'. destruct (walk_next _ _ _ _ _ _) as [| [| |] |] eqn:Ew; try done.
      destruct (walk_run number_text hand (t_inv t) at_ w now fenced (store y) (store y) None) as (_ & ? & ? & ? & ? & _); [by rewrite Eo | exact Ew | done].
  - apply Hquiet. intros id'. unfold start_body. by destruct (_ || _).
  - unfold settle_call. destruct (ledger_step _ _) as [s out] eqn:E.
    eapply (history_one s0 y _ _ s out Hh); [| exact E | done |]; [done |]. intros id'. cbn. by rewrite app_nil_r; destruct out as [[[] |] |]; cbn; lia.
  - by apply restart_history.
Qed.

Lemma reach_history s0 y : reach number_text hand s0 y -> history_ok s0 y.
Proof. induction 1 as [| y y' _ IH Hst]; [by exists [], [] | by eapply step_history]. Qed.

(** ** Bodies *)

Lemma bodies_hand n s p p' replies evs y :
  bodies_ok y -> process y = Some p ->
  (forall id, (count (ends id) evs + count (active id) (threads p') <= count (accepts id) evs + count (active id) (threads p))%nat) ->
  bodies_ok (hand_step n s (p', replies, evs) y).
Proof.
  intros Hb Hp Hc id. specialize (Hb id). specialize (Hc id). unfold live_count in *. rewrite Hp in Hb. cbn. rewrite !count_app. lia.
Qed.

(** A call moves on: with its thread replaced by [t']. *)
Lemma bodies_thread n s p k t t' f o sc replies evs y :
  bodies_ok y -> process y = Some p -> threads p !! k = Some t ->
  (forall id, (count (ends id) evs + (if active id t' then 1 else 0) <= count (accepts id) evs + if active id t then 1 else 0)%nat) ->
  bodies_ok (hand_step n s (mkProcess f o (<[k := t']> (threads p)) sc, replies, evs) y).
Proof.
  intros Hb Hp Hk Hc. apply (bodies_hand _ _ p); [done | done |]. intros id. cbn [threads]. pose proof (count_insert (active id) _ _ _ t' Hk). specialize (Hc id). lia.
Qed.

Lemma bodies_dead y s : bodies_ok y -> bodies_ok (mkSystem s None (links y) (up y) (down y) (log y)).
Proof. intros Hb id. specialize (Hb id). unfold live_count. cbn. lia. Qed.

Lemma count_abort id n id' ts : count (active id) (abort_thread n id' <$> ts) = count (active id) ts.
Proof.
  unfold count. induction ts as [| t ts IH]; [done |]. cbn. replace (active id (abort_thread n id' t)) with (active id t); [by destruct (active id t); cbn; rewrite IH |].
  unfold active, abort_thread. destruct (_ && running t); done.
Qed.

Lemma ends_one id id' r : count (ends id) [BodyEnded id' r] = if bool_decide (id' = id) then 1%nat else 0%nat.
Proof. unfold count. cbn. by destruct (bool_decide _). Qed.

Lemma step_bodies y y' : bodies_ok y -> step number_text hand y y' -> bodies_ok y'.
Proof.
  intros Hb Hst.
  assert (Hcall : forall n lane call op verdict p, process y = Some p ->
    bodies_ok (hand_step n (store y) (take_call (sender_of y n) n lane call op verdict p, []) y)).
  { intros n lane call op verdict p Hp. destruct (take_call _ _ _ _ _ _ _) as [p' replies] eqn:E. apply (bodies_hand _ _ p); [done | done |].
    intros id. cbn. assert (count (active id) (threads p') = count (active id) (threads p)) as ->; [| done].
    unfold take_call in E. repeat case_match; simplify_eq; try done; cbn; rewrite count_app; unfold count; cbn; lia. }
  assert (Hquiet : forall n s p p' replies, process y = Some p -> threads p' = threads p -> bodies_ok (hand_step n s (p', replies, []) y)).
  { intros n s p p' replies Hp Ht. apply (bodies_hand _ _ p); [done | done |]. intros id. by rewrite Ht. }
  assert (Habort : forall n n' id p, process y = Some p -> bodies_ok (hand_step n (store y) (abort_call n' id p, [], []) y)).
  { intros n n' id p Hp. apply (bodies_hand _ _ p); [done | done |]. intros id'. cbn. by rewrite count_abort. }
  destruct Hst as [sender epoch _ | n l r aborted _ _ | n l r _ | n l k _ | n l id reason _ | n l lane for_ reason _ | n l _ | n l lane m _ _
    | n lane i p verdict Hp _ _ | n lane f p verdict Hp _ _ | n lane id epoch p Hp _ _ | n lane id epoch w now p Hp _ | n lane e w owner p Hp _ _
    | n t failure p Hp Ht Hph | n t at_ w now sequential p Hp Ht Hph | n t granted p Hp Ht Hph _ | n t result granted p Hp Ht Hph
    | n t result w now p Hp Ht Hph | n id p Hp | n instance ops p Hp | | n w now Hp];
    try exact Hb; try (by apply Hcall); try (by apply Habort); try (by eapply Hquiet).
  - unfold ack_call. destruct (admits _ _ _ _); [| done]. by eapply Hquiet.
  - unfold raise_floor. destruct (raise _ _ _ _ _ _ _ _) as [[s fl] r]. by eapply Hquiet.
  - unfold scope_opened. destruct failure; [| case_bool_decide]; (eapply bodies_thread; [done | done | exact Ht |]; intros id; unfold count; cbn; lia).
  - unfold walk. destruct (match walk_op _ _ _ _ _ _ _ with Some op => _ | None => _ end) as [s out].
    assert (Hidle : forall id, active id t = false) by (intros id; unfold active, running; by rewrite Hph).
    destruct (walk_next _ _ _ _ _ _) as [| [| |] |]; cbn [walk_on]; (eapply bodies_thread; [done | done | exact Ht |]); intros id; rewrite Hidle;
      unfold count; cbn; try lia. unfold active. cbn. destruct (bool_decide _); cbn; lia.
  - assert (Hact : forall id, active id t = bool_decide (executionId (t_inv t) = id)) by (intros id; unfold active, running; by rewrite Hph).
    unfold start_body. destruct (_ || _); cbn [fst snd]; (eapply bodies_thread; [done | done | exact Ht |]); intros id; rewrite Hact, ?ends_one;
      unfold count; cbn; lia.
  - assert (Hact : forall id, active id t = bool_decide (executionId (t_inv t) = id)) by (intros id; unfold active, running; by rewrite Hph).
    unfold end_body. cbn [fst snd]. eapply bodies_thread; [done | done | exact Ht |]. intros id. rewrite Hact, ends_one. unfold count. cbn. lia.
  - unfold settle_call. destruct (ledger_step _ _) as [s out]. eapply bodies_thread; [done | done | exact Ht |]. intros id. unfold count. cbn. lia.
  - by apply bodies_dead.
  - unfold start_process. destruct (ready true (store y)) as [fl |]; [| done]. destruct (recover w now (store y)) as [s [u | x]]; [| by apply bodies_dead].
    destruct (scan s) as [entries |]; [| by apply bodies_dead]. intros id. specialize (Hb id). unfold live_count in *. rewrite Hp in Hb. cbn. rewrite app_nil_r. unfold count at 2. cbn. lia.
Qed.

Lemma reach_bodies s0 y : reach number_text hand s0 y -> bodies_ok y.
Proof. induction 1 as [| y y' _ IH Hst]; [by intros id | by eapply step_bodies]. Qed.
(** ** What remote calls promise *)

Lemma ordered_lookup l i j ev ev' : ordered l -> (i < j)%nat -> l !! i = Some ev -> l !! j = Some ev' -> in_order ev ev'.
Proof.
  revert i j. induction l as [| x l IH]; intros i j Ho Hij Hi Hj; [done |]. destruct Ho as [Hx Ho].
  destruct i as [| i], j as [| j]; [lia | | lia |].
  - injection Hi as <-. rewrite Forall_forall in Hx. apply Hx. by eapply list_elem_of_lookup_2.
  - apply (IH i j); [done | lia | done | done].
Qed.

(** C27. Calls that run on a hand.  However the process of the hand dies and starts
again, however messages are late, repeated and reordered, whichever commits are cut
and however scopes move between sessions: a call the hand's ledger did not know is
granted its run at most once, and at most one body of it ends; and of two grants of
a scope the later one is at a higher epoch, or at the same epoch and for the same
owner (calls sent without an epoch are not told apart by owner). *)
Theorem remote_calls_once s0 y :
  sane s0 -> stored_ok s0 -> reach number_text hand s0 y ->
  (forall id, read s0 (keyOf hand id) = Ok None -> (count (accepts id) (log y) <= 1)%nat /\ (count (ends id) (log y) <= 1)%nat) /\
  (forall i j sc ep ep' o o' id id', (i < j)%nat -> log y !! i = Some (Accepted sc ep o id) -> log y !! j = Some (Accepted sc ep' o' id') ->
     default 0 ep < default 0 ep' \/ ep = ep' /\ (ep = None \/ o = o')).
Proof.
  intros Hs Hst Hy. split.
  - intros id Hr. destruct (reach_history _ _ Hy) as (ops & h & Hops & Hrun & Hc).
    destruct (ledger_run_row _ _ _ _ _ Hs Hops Hr Hrun) as [_ Hrow]. specialize (Hc id). pose proof (reach_bodies _ _ Hy id) as Hb.
    assert (count_starts (keyOf hand id) h <= 1)%nat; [| lia].
    unfold row_inv in Hrow. destruct (read (store y) (keyOf hand id)) as [[e |] |]; [| lia ..]. destruct Hrow as (_ & _ & Hn). destruct (bodyDispatched e); lia.
  - intros i j sc ep ep' o o' id id' Hij Hi Hj.
    exact (ordered_lookup _ _ _ _ _ (inv_order _ (reach_inv _ _ _ _ Hs Hst Hy)) Hij Hi Hj eq_refl).
Qed.
End Runs.

(** ** A scope moves while a call is under way *)

Module RemoteSample.
Definition number_text (f : num) : jstring := if num_ltb f (of_Z 0) then $"-1" else $"1".
Definition hand : HandIdentity := mkHand $"sessions" $"hand" $"workspace" (of_Z 1000).
Definition empty_store : MediumState := mkMedium 1 [] [].
Notation Sys := (System MediumState).

(** The attempt number [n] of the process, not cut. *)
Definition attempt_of (n : Z) : attempt := mkAttempt 1 [1000 + n] (fun _ => false).
Definition call (id : jstring) : Request := CallRequest (mkInvoke id None $"batch" 0 $"scope" $"/root" id $"bash" (JsStr $"ls") None).

Definition epoch_okb (e : option Z) : bool := match e with Some e => (1 <=? e) && (e <=? MAX_SAFE_INTEGER) | None => true end.

(** The moves of the example; messages are taken by their index in the carrier. *)
Inductive Move :=
| MConnect (sender : jstring) (epoch : Z)
| MDispatch (link : nat) (r : Request)
| MResume (link k : nat)
| MReply (index : nat)
| MFloor (index : nat) (w : attempt) (owner : jstring)
| MInvoke (index : nat)
| MOpened (thread : nat)
| MWalk (thread : nat) (w : attempt) (now : num)
| MStart (thread : nat)
| MEnd (thread : nat) (result : json)
| MSettle (thread : nat) (w : attempt) (now : num)
| MDie
| MRestart (w : attempt) (now : num).

Definition play (m : Move) (y : Sys) : option Sys :=
  match m with
  | MConnect sender epoch =>
      if epoch_okb (Some epoch)
      then Some (mkSystem (store y) (process y) (links y ++ [new_link sender (Some epoch)]) (up y) (down y) (log y)) else None
  | MDispatch n r => l ← links y !! n; match request_epoch r with None => Some (link_step n (dispatch r false l) y) | Some _ => None end
  | MResume n k => l ← links y !! n; Some (link_step n (resume k l) y)
  | MReply index => m ← down y !! index; l ← links y !! m.1.1; Some (link_step m.1.1 (on_frame m.1.2 m.2 l) y)
  | MFloor index w owner =>
      m ← up y !! index; p ← process y;
      match m.2 with
      | FloorMsg e => if epoch_okb (Some e) then Some (raise_floor m.1.1 m.1.2 e w (Some owner) p y) else None
      | _ => None
      end
  | MInvoke index =>
      m ← up y !! index; p ← process y;
      match m.2 with
      | InvokeMsg i =>
          if epoch_okb (i_epoch i)
          then Some (hand_step m.1.1 (store y) (take_call (sender_of y m.1.1) m.1.1 m.1.2 i None (Ok $"/root") p, []) y) else None
      | _ => None
      end
  | MOpened n =>
      p ← process y; t ← threads p !! n;
      match t_phase t with Opening => Some (hand_step (t_link t) (store y) (scope_opened n t None p, []) y) | _ => None end
  | MWalk n w now =>
      p ← process y; t ← threads p !! n;
      match t_phase t with Walking at_ => Some (walk number_text hand n t at_ w now false p y) | _ => None end
  | MStart n =>
      p ← process y; t ← threads p !! n;
      match t_phase t with
      | Queued => if may_start t p then Some (hand_step (t_link t) (store y) ((start_body n t true p).1, [], (start_body n t true p).2) y) else None
      | _ => None
      end
  | MEnd n result =>
      p ← process y; t ← threads p !! n;
      match t_phase t with Executing => Some (hand_step (t_link t) (store y) ((end_body n t result true p).1, [], (end_body n t result true p).2) y) | _ => None end
  | MSettle n w now =>
      p ← process y; t ← threads p !! n;
      match t_phase t with Settling result => Some (settle_call number_text hand n t result w now p y) | _ => None end
  | MDie => Some (die y)
  | MRestart w now => match process y with None => Some (start_process 0 (fun _ => w) now y) | Some _ => None end
  end.

Fixpoint play_all (ms : list Move) (y : Sys) : option Sys := match ms with [] => Some y | m :: ms => y ← play m y; play_all ms y end.

Lemma epoch_checked e : epoch_okb e = true -> epoch_ok e.
Proof. destruct e as [e |]; cbn; [lia | done]. Qed.

Lemma carried (l : list (nat * jstring * SessionMessage)) index m msg : l !! index = Some m -> m.2 = msg -> (m.1.1, m.1.2, msg) ∈ l.
Proof. intros Hm <-. rewrite <- !surjective_pairing. by eapply list_elem_of_lookup_2. Qed.

(** What a move was made of. *)
Ltac chosen E :=
  repeat first
    [ apply bind_Some in E as (? & ? & E)
    | match type of E with match ?x with _ => _ end = Some _ => destruct x eqn:?; try discriminate E end ];
  apply (inj Some) in E; subst.

Lemma play_step m y y' : play m y = Some y' -> step number_text hand y y'.
Proof.
  destruct m as [sender epoch | n r | n k | ix | ix w owner | ix | n | n w now | n | n result | n w now | | w now]; cbn [play]; intros E; chosen E.
  - apply step_connect. by apply epoch_checked.
  - by apply step_dispatch.
  - by apply step_resume.
  - apply step_reply; [done |]. rewrite <- !surjective_pairing. by eapply list_elem_of_lookup_2.
  - apply step_floor; [done | | by apply epoch_checked]. by eapply carried.
  - apply step_invoke; [done | | by apply epoch_checked]. by eapply carried.
  - by apply step_opened.
  - by apply step_walk.
  - by apply step_start.
  - by apply step_end.
  - by apply step_settle.
  - apply step_die.
  - by apply step_restart.
Qed.

Lemma play_all_reach ms s0 y y' : reach number_text hand s0 y -> play_all ms y = Some y' -> reach number_text hand s0 y'.
Proof.
  revert y. induction ms as [| m ms IH]; intros y Hy; cbn [play_all]; [by intros [= <-] |]. destruct (play m y) as [y1 |] eqn:Hm; [| done]. cbn.
  apply IH. eapply reach_step; [exact Hy | by apply (play_step m)].
Qed.

Definition begin : Sys := mkSystem empty_store None [] [] [] [].
Definition walks (thread : nat) (from : Z) (now : Z) (n : nat) : list Move :=
  (fun k => MWalk thread (attempt_of (from + Z.of_nat k)) (of_Z now)) <$> seq 0 n.

(** Session "a" calls at epoch 1; the hand dies while the call runs. *)
Definition first_owner : list Move :=
  [MRestart (attempt_of 0) (of_Z 1); MConnect $"a" 1; MDispatch 0 (call $"c1"); MFloor 0 (attempt_of 1) $"a"; MReply 0; MResume 0 0; MInvoke 1; MOpened 0]
  ++ walks 0 10 5 7 ++ [MStart 0; MDie].

(** Session "b" takes the scope at epoch 2 and calls; the invoke of "a" arrives again and is refused. *)
Definition second_owner : list Move :=
  [MRestart (attempt_of 30) (of_Z 6); MConnect $"b" 2; MDispatch 1 (call $"c2"); MFloor 2 (attempt_of 31) $"b"; MReply 2; MResume 1 0; MInvoke 1; MInvoke 3; MOpened 0]
  ++ walks 0 40 7 7 ++ [MStart 0; MEnd 0 (JsStr $"ok"); MSettle 0 (attempt_of 60) (of_Z 8); MReply 4].

Definition played : option Sys := play_all (first_owner ++ second_owner) begin.

Lemma begin_sane : sane empty_store.
Proof. split; [| done]. by split; [| | constructor | constructor]. Qed.

Lemma begin_stored : stored_ok empty_store.
Proof. split; [apply begin_sane | done]. Qed.
End RemoteSample.

Lemma remote_calls_once_witness :
  exists y, RemoteSample.played = Some y /\
    log y = [Accepted $"scope" (Some 1) $"a" $"c1"; Accepted $"scope" (Some 2) $"b" $"c2"; BodyEnded $"c2" (JsStr $"ok")] /\
    ((count (accepts $"c2") (log y) <= 1)%nat /\ (count (ends $"c2") (log y) <= 1)%nat) /\
    (1 < 2 \/ Some 1 = Some 2 /\ (Some 1 = None \/ $"a" = $"b")).
Proof.
  destruct RemoteSample.played as [y |] eqn:E; [| by vm_compute in E]. exists y. split; [done |].
  assert (log y = [Accepted $"scope" (Some 1) $"a" $"c1"; Accepted $"scope" (Some 2) $"b" $"c2"; BodyEnded $"c2" (JsStr $"ok")]) as Hlog.
  { vm_compute in E. injection E as <-. reflexivity. }
  destruct (remote_calls_once RemoteSample.number_text RemoteSample.hand RemoteSample.empty_store y RemoteSample.begin_sane RemoteSample.begin_stored)
    as [Hcount Horder].
  { eapply RemoteSample.play_all_reach; [apply reach_init | exact E]. }
  split; [exact Hlog |]. split; [apply Hcount; reflexivity |].
  apply (Horder 0%nat 1%nat $"scope" (Some 1) (Some 2) $"a" $"b" $"c1" $"c2"); [lia | by rewrite Hlog | by rewrite Hlog].
Defined.
